(* ===== verification/_CoqProject ===== *)
-Q . S2P
Prelude.v
Metrics.v
Sorting.v
BTree.v
Text.v
Framing.v
Value.v
Core.v
Rank.v
Eval.v
Chars.v
Index.v
Vector.v
Hnsw.v
HnswSpec.v
TextSearch.v
Analyzer.v
AnalyzedSearch.v
Snippet.v
Query.v
Planner.v
Cursor.v
IndexSnapshot.v
Exec.v
Ann.v
ExecSpec.v
ExecOrder.v
SearchPage.v
Aggregate.v
AggregateSpec.v
QueryTools.v
Protocol.v
RaftLog.v
RaftBase64.v
RaftNode.v
Voting.v
RaftElection.v
Consensus.v
ConsensusSafety.v
RaftSafety.v
RaftKeep.v
RaftFile.v
Cluster.v
Config.v
Message.v
ClusterSpec.v
Transport.v
Mvcc.v
Storage.v
StorageRecovery.v
StorageSpec.v
StorageSample.v
Txn.v
Engine.v
EngineSpec.v
EngineIndex.v
EngineRead.v
EngineSample.v
SoleVoter.v
Replication.v
ReplicationSpec.v
ReplicationSample.v
Snapshot.v
SnapshotSpec.v
Peer.v
Runtime.v
PeerSpec.v
PeerNet.v
PeerSafety.v
Limits.v
Server.v
ServerSpec.v
Connection.v
ServerTrace.v
QuerySample.v
ReadSample.v
SnapshotSample.v
CatchUpSample.v
PeerSample.v
ServerSample.v
