(* ===== verification/Prelude.v ===== *)
(** * A verification development for AuraDB

    AuraDB is a document, vector and full-text database in Rust.  This library models
    the parts of it that carry its guarantees, as executable definitions translated
    from the sources under [src/crates], and proves what those parts promise.

    ** The program

    A client reaches an [Engine] ([auradb/src/engine.rs]) either embedded or through
    the server ([auradb-server]), which accepts connections, reads length-prefixed,
    checksummed frames ([auradb-protocol]), authenticates the session, enforces limits,
    dispatches each request to the engine, counts what it does ([auradb-observability])
    and pages large results through cursors.  The engine validates documents against schemas
    ([auradb-core]), stages writes of transactions ([auradb-txn]), checks constraints
    against in-memory indexes ([auradb-index]), plans and executes queries ([auradb-query])
    and hands batches to the storage engine ([auradb-storage]), an append-only log of
    checksummed batches with multi-version records.  In cluster mode a batch first goes
    through a Raft log ([auradb-raft]), and the committed index becomes the commit timestamp
    ([auradb-replication]): with one node the write path commits it at once, with several a
    driver thread exchanges messages with the peers, publishes what is committed to the
    waiting writer and applies the entries of other nodes, and a peer that is too far behind
    gets a snapshot.

    ** The files

    - [Prelude] (this file): fallible results and state-and-error computations, machine
      integers, big-endian bytes, tactics, the hint database, generic lemmas.
      [Sorting]: the stable sort of the source.  [BTree]: ordered maps.  [Text]: UTF-8,
      trimming, digits.  [Framing]: the checksummed frame both logs use, and a concrete
      serialiser for samples.  [Metrics]: the counters, histograms and their exposition
      ([auradb-observability/src/metrics.rs]).
    - [Value], [Core]: [auradb-core].  [value.rs] and the JSON form of values; [schema.rs],
      [ids.rs], [error.rs], [record.rs], and [clock.rs] as threads over one atomic.
    - [Eval]: filters and their evaluation ([auradb-query/src/eval.rs], the filter part
      of [ir.rs]) and the tokenizer.  [Rank]: floats, their comparison and rankings.
    - [auradb-index]: [Index] is [CollectionIndexes] of [lib.rs] (maps, maintenance,
      uniqueness, rebuild), [Vector] the metrics and the exact nearest neighbours,
      [Hnsw] the approximate graph of [hnsw.rs] with its theorems in [HnswSpec], [Ann] the
      cache of graphs and the approximate search the executor calls,
      [TextSearch] term search and BM25, [Chars] and [Analyzer] the analyzers on UTF-8
      text, [AnalyzedSearch] the search through an analyzer, [IndexSnapshot] the
      snapshots of [persist.rs], their reload and the engine's checkpoint.
    - [auradb-query]: [Query] is [ir.rs], [Planner] is [planner.rs], [plan.rs] and
      [stats.rs], [Exec] is [exec.rs], [Snippet] and [Aggregate] the files of
      these names, [Cursor] the tokens and pages of [cursor.rs] and the server cursors of
      [auradb-server/src/cursor.rs], [SearchPage] the pages of a ranked query,
      [QueryTools] the estimates of [migrate.rs] and the metrics of [relevance.rs].
      [ExecSpec], [ExecOrder] and [AggregateSpec] hold the theorems about execution,
      against the contract [source_ok] of a data source.
    - [Protocol]: [frame.rs], [opcode.rs], [wire.rs].  [Message]: the payloads of
      [message.rs] and the capabilities of [auradb-core/src/capability.rs].
    - [auradb-server]: [Config] is [config.rs] and [auth.rs], [Runtime] is
      [cluster_runtime.rs] and the cluster part of [dispatch.rs], [Limits] the limits and
      deadlines of [dispatch.rs], [Server] its sessions, handlers, [respond] and the
      background ticks of [server.rs], [Connection] the loop of a connection
      ([handle_connection]).  [ServerSpec] and [ServerTrace] hold the theorems about runs of
      requests between which other connections act, [ServerSample] concrete runs.
    - [RaftLog] ([log.rs], the storage trait as a class and its contract), [RaftBase64],
      [RaftNode] ([node.rs], every operation of the node), [Voting] (an abstract voting
      protocol), [RaftElection] (a cluster of nodes over the network of [sim.rs], and
      its refinement of [Voting]), [Consensus] and [ConsensusSafety] (an abstract
      replicated log and its invariant), [RaftSafety] (the nodes refine it; the safety
      theorems), [RaftKeep] (what one node keeps, for clients that drive it themselves),
      [RaftFile] ([storage.rs], the durable log), [SoleVoter] (a cluster of one).
    - [auradb-cluster]: [Cluster] ([id.rs], [config.rs], [metadata.rs], [lib.rs]) and
      [ClusterSpec].
    - [auradb-replication]: [Replication] ([command.rs], [apply.rs], [node.rs]),
      [ReplicationSpec] and [ReplicationSample]; [Snapshot] ([snapshot.rs] and the
      install of the engine), [SnapshotSpec] and [SnapshotSample]; [Transport]
      ([transport.rs]); [Peer] ([multi.rs], the state a process shares between its
      threads and every locked section of them), [PeerSpec] (snapshots between peers),
      [PeerNet] (processes over an unreliable network, with the threads of a process
      interleaved), [PeerSafety] (the replicas), [PeerSample] and [CatchUpSample].
    - [Mvcc] (version chains and their reads), [Storage] ([lib.rs], [format.rs],
      [manifest.rs], [catalog.rs] of [auradb-storage]), [StorageRecovery] (the invariant
      and recovery), [StorageSpec] (the contract), [StorageSample] (a concrete database).
    - [Txn] ([auradb-txn]), [Engine] ([engine.rs], [idgen.rs]), [EngineSpec] (snapshot
      isolation, and that every request commits through one function), [EngineIndex]
      (indexes and constraints), [EngineRead] (the reads of the engine and of transaction
      views, that both keep the contract of a data source, and the report on search
      indexes), [EngineSample], [QuerySample] and [ReadSample] (a concrete engine, its runs,
      and the runs that show defects).

    Definitions carry the source's names; where two crates use one name, a prefix
    tells them apart ([fs_append] for [FileStorage::append], [rm_get] for
    [Storage::get], [engine_gc] for [Engine::gc]).

    ** What the theorems show

    - Raft: two nodes that are ever leader in one term are the same, over every run of
      a cluster with an unreliable network and restarts, for every storage that keeps
      the contract of the trait; the memory and the file storage keep it.  In a cluster
      that starts with empty logs, compacts none and installs no snapshot, logs match,
      leaders have every committed entry, and no two nodes commit different entries at one
      index; a compacted leader can make a follower commit stale entries, and
      [CatchUpSample] has the run.  The file
      storage reopens to what it was, recovers from a torn append, refuses damage, and
      compaction and snapshot install keep exactly what they may not discard.
    - Replication: in a cluster of one node every write is committed at once, an
      acknowledged write survives every crash and restart, and starting over closes the
      window between log and store.  In a cluster of processes, every replica is what a
      prefix of the committed log produces, and an acknowledged write is in every later
      leader and every replica that is long enough, provided writes are answered in order
      ([PeerNet.in_order]; the code does not check it, and [PeerSample] has the runs in
      which a write is lost).  A snapshot carries schemas and the fields of records to a
      follower that has none; a restore, whichever call of the file system fails, leaves
      the old target or a complete copy of what was captured.  A cluster configuration is accepted exactly
      when it is as documented; peer frames are delivered in order.
    - Storage: any history of operations and restarts can be reopened with the same
      records and schemas; a crash at any byte of a commit, or inside a rewrite, is
      atomic; garbage collection is invisible to every reader it must respect and its
      preview is exact; a replicated batch is applied once; an old-format log migrates
      without loss.
    - Engine: active transactions read a stable snapshot overlaid with their own writes,
      in every collection that is not dropped.  Without a replicated log the first committer
      of a record wins, a commit installs exactly its write set, inserts, upserts and
      deletes keep every index equal to what the live records say, and unique fields unique,
      a delete leaves no restricting reference dangling, and an engine that opened with
      rebuilt indexes and served only such requests keeps the contract of its queries.
    - Indexes: maintenance and rebuild are exact for the equality, text and vector maps;
      an equality lookup with a text or a boolean is the scan; the nearest neighbours are
      the head of the full ranking; building and searching the approximate graph never
      panics and keeps its links well formed, its cache is never stale, and on a field of
      at most [2m + 1] vectors it finds what the exact search finds; a search through an
      analyzer finds what analyzing the texts would; a checkpoint reloads as it was, and a
      snapshot that is accepted agrees with the records.
    - Queries: filter evaluation decides the meaning of the filter; whatever plan is
      chosen, an unranked find whose indexed equalities are with texts or booleans returns
      the accepted records, and with comparable ordering keys always in the same order; a deadline only aborts; facets and groups count
      what a scan finds; snippets show only the allowed field and stay in their bounds;
      following ranked or server cursors delivers every row once and ends.
    - Server: a configuration is accepted exactly when it is as documented, so an exposed
      server asks for a token; a connection without one gets nothing and changes nothing.
      Every request has one reply of its kind and is counted once; a request of one
      connection does not disturb the open transactions of another; a connection that ends
      in order leaves no transaction and no cursor behind; the write-set limit holds for
      insertions.  The other connections are a relation on the server state that the
      theorems quantify over, applied where the code releases its locks.
    - Wire and data: frames, cursor tokens, base64 payloads and JSON values round trip;
      the frame decoder accepts only what the encoder produces; a stream delivers
      frames in order; record and schema validation mean what their documents say;
      the logical clock is monotone under every interleaving.

    Runs that end badly are evaluated in [EngineSample] (uniqueness broken by one
    update or one transaction, a panic behind a durable commit, a schema change that
    makes the store unopenable, repeated ids of keyless records, index and filter that
    disagree on numbers), in [ServerSample] (limits that deletes, failed bulk inserts and
    explanations pass, transactions that outlive a lost connection, a cursor read by
    another client, gauges and counters that do not count), in [QueryTools]
    (a recall of two), in [QuerySample] (a stored vector that no approximate search finds, a
    snapshot read through newer indexes, statistics that change a result, orders that are
    not orders), in [ReadSample] (a stale index snapshot that is accepted, buckets in hash
    order), in [StorageSample] (a transaction id that regresses), in [Eval] (integers
    compared as floats), in [ReplicationSample] (acknowledged writes lost after a local
    commit), in [SnapshotSample] (a restore that refuses what was captured, an install that
    keeps a deleted record), in [PeerSample] (a committed write missing on the leader, a
    replaced write acknowledged) and in [CatchUpSample] (stale entries committed behind a
    compacted leader, a target lost to a failed rename).

    ** Modelling decisions

    A [Result] is [Result]; an operation on [&mut self] that can fail is a function of
    type [SE], which keeps the mutations made before the early return.  A [BTreeMap] is
    an association list with increasing keys, a [HashMap] a [gmap], a [Vec<u8>] a list
    of bytes, a [String] the string of its UTF-8 bytes, [usize] a natural number.
    Machine integers are [N] or [Z]; wrapping, saturating and truncating operations are
    written out where the source uses them, and plain [u64] counters (timestamps,
    versions, log indexes) are unbounded, since they count operations.  Floats are the
    specification floats of the standard library.  Errors are constructors without
    message texts.  A panic in the engine is a result of its own.

    A directory is a record of byte strings.  Calls to the file system succeed in the
    storage engine and the logs; a crash is a directory between two writes or in the middle
    of one, and the theorems say what opening it gives.  In a restore ([Snapshot]) every
    call may fail, and a removal may stop half way.

    Code outside the repository is a parameter with its documented laws, each with a
    concrete instance: [serde_json] ([RaftCodec], [StorageCodec], [JsonNumber],
    [JsonText], [FloatText], [CommandCodec], [ManifestCodec], [IdentityCodec], [PeerCodec]), [crc32fast]
    (a checksum below 2^32), the Unicode tables ([Unicode]), the order in which a hash map
    is iterated ([MapOrder], [HashOrder]), the logarithm of [f32], and the JSON of queries
    and index snapshots ([QueryJson], [SnapshotCodec]), the JSON of requests and replies
    ([MessageJson]), Argon2 ([Argon2]), the logarithms of [f64] and the order of a drained
    heap ([F64Log], [F64Log2], [HeapOrder]).  The replicated log is a parameter of the
    engine, the class of the trait [ReplicatedLog].  The clock readings of a deadline are a
    parameter of the executor; the approximate search is a class of it, with the instance in
    [Ann].

    Recursion is structural except for loops with fuel: parsing a segment and replaying
    a Raft log (the length of the input is enough, every frame consumes at least its
    header), splitting a payload into chunks and trimming text (the length of the
    input), following cursors (one more than the number of rows), reading a stream
    of frames (one more than the number of frames), serving a connection (one more than the
    number of bytes), and searching a layer of the graph (every node enters the frontier
    once).  The theorems about them are
    equations with a result, so the fuel given is shown to suffice.

    The JSON text of a value does not keep every value.  JSON has no infinities and NaNs and
    no integers out of range ([Value.json_safe]).  [serde_json] is built without
    [float_roundtrip], so a float need not be read back as it was: which ones are is the
    class [FloatText], of which nothing is assumed.  And its parser refuses texts nested
    deeper than 127.  The laws of the codecs of batches, commands, dumps and index snapshots
    are only for values that pass all three tests ([text_safe]), and the theorems that
    depend on reading such a text back speak of batches with [batch_safe] and documents with
    [document_safe].

    ** What is not modelled

    Sockets, TLS and the spawning of tasks, which are library calls: of [server.rs] the
    opening from a configuration and the accept loop, of [multi.rs] the tasks around the
    locked sections, and [tls.rs].  The explanatory texts and the id of a plan, and the
    texts of errors.  The TOML text of the configuration and the tracing set-up.  The
    command line and the conformance suite ([auradb-cli], [auradb-conformance]), which call
    the library and print what it returns. *)

From Stdlib Require Export NArith ZArith Lia Sorted.
From Stdlib Require Export Strings.Byte.
From stdpp Require Export base list numbers strings gmap.

Set Default Goal Selector "!".

(** ** Fallible results

    [Result<T, E>] of the source.  Functions that take [&mut self] and return a
    [Result] are state transformers that keep the mutations made before an early
    return: [SE S E A] is the state with an error on top, not the other way
    round. *)

Inductive Result (E A : Type) : Type :=
| Ok (a : A)
| Err (e : E).
Arguments Ok {E A} a.
Arguments Err {E A} e.

#[export] Instance Result_eq_dec {E A} `{EqDecision E, EqDecision A} :
  EqDecision (Result E A).
Proof. solve_decision. Defined.

Definition res_bind {E A B} (m : Result E A) (k : A → Result E B) : Result E B :=
  match m with
  | Ok a => k a
  | Err e => Err e
  end.

Definition res_is_ok {E A} (m : Result E A) : bool :=
  match m with Ok _ => true | Err _ => false end.

Definition SE (S E A : Type) : Type := S → S * Result E A.

Definition se_ret {S E A} (a : A) : SE S E A := λ s, (s, Ok a).
Definition se_fail {S E A} (e : E) : SE S E A := λ s, (s, Err e).
Definition se_bind {S E A B} (m : SE S E A) (k : A → SE S E B) : SE S E B :=
  λ s, match m s with
       | (s', Ok a) => k a s'
       | (s', Err e) => (s', Err e)
       end.
Definition se_modify {S E} (f : S → S) : SE S E unit := λ s, (f s, Ok tt).
Definition se_get {S E A} (f : S → A) : SE S E A := λ s, (s, Ok (f s)).
(** [let _ = op;] of the source: the state change is kept, the error dropped. *)
Definition se_ignore {S E A} (m : SE S E A) : SE S E unit := λ s, ((m s).1, Ok tt).

Declare Scope aura_scope.
Delimit Scope aura_scope with aura.
Notation "'let?' x ':=' c 'in' k" := (res_bind c (λ x, k))
  (at level 10, x pattern, c at level 100, k at level 200) : aura_scope.
Notation "x '<~' m ';;' k" := (se_bind m (λ x, k))
  (at level 100, m at next level, right associativity) : aura_scope.
Notation "m '>>>' k" := (se_bind m (λ _, k))
  (at level 100, right associativity) : aura_scope.
Open Scope aura_scope.

(** ** Machine integers

    [u64], [u32] and [u128] are [N]; operations that wrap in the source are
    written with their modulus. *)

Definition wrap64 (v : N) : N := (v mod 2 ^ 64)%N.
Definition wrap128 (v : N) : N := (v mod 2 ^ 128)%N.
Definition u32_max : N := 4294967295.
Definition u64_max : N := 18446744073709551615.

(** [u32::saturating_add]. *)
Definition sat_add32 (a b : N) : N := N.min u32_max (a + b).

(** ** Bytes and big-endian integers *)

#[export] Instance byte_eq_decision : EqDecision byte := Byte.byte_eq_dec.

Definition byte_of_N (v : N) : byte :=
  match Byte.of_N (v mod 256) with Some b => b | None => x00 end.

(** [v.to_be_bytes()] for an integer of [n] bytes. *)
Fixpoint be_bytes (n : nat) (v : N) : list byte :=
  match n with
  | O => []
  | S k => byte_of_N (v / 256 ^ N.of_nat k) :: be_bytes k v
  end.

(** [uN::from_be_bytes(..)]. *)
Definition be_value (l : list byte) : N :=
  fold_left (λ acc b, (acc * 256 + Byte.to_N b)%N) l 0%N.

(** [&buf[start..stop]]; the callers check the range first. *)
Definition slice {A} (start stop : nat) (buf : list A) : list A :=
  take (stop - start) (drop start buf).

(** ** Automation *)

Create HintDb aura.
Create Rewrite HintDb aura_rw.

(** Case analysis on the outcome of a fallible step named in a hypothesis. *)
Ltac res_inv :=
  repeat match goal with
  | H : res_bind ?m _ = _ |- _ => destruct m eqn:?; simpl in H
  | H : Ok _ = Ok _ |- _ => injection H as H; subst
  | H : Err _ = Err _ |- _ => injection H as H; subst
  | H : Ok _ = Err _ |- _ => discriminate H
  | H : Err _ = Ok _ |- _ => discriminate H
  end; simplify_eq.

(** Turn the boolean tests of the code into propositions. *)
Ltac bool_to_prop :=
  repeat match goal with
  | H : (_ <? _)%N = true |- _ => apply N.ltb_lt in H
  | H : (_ <? _)%N = false |- _ => apply N.ltb_ge in H
  | H : (_ <=? _)%N = true |- _ => apply N.leb_le in H
  | H : (_ <=? _)%N = false |- _ => apply N.leb_gt in H
  | H : (_ =? _)%N = true |- _ => apply N.eqb_eq in H
  | H : (_ =? _)%N = false |- _ => apply N.eqb_neq in H
  | H : (_ <? _)%nat = true |- _ => apply Nat.ltb_lt in H
  | H : (_ <? _)%nat = false |- _ => apply Nat.ltb_ge in H
  | H : (_ <=? _)%nat = true |- _ => apply Nat.leb_le in H
  | H : (_ <=? _)%nat = false |- _ => apply Nat.leb_gt in H
  | H : (_ =? _)%nat = true |- _ => apply Nat.eqb_eq in H
  | H : (_ =? _)%nat = false |- _ => apply Nat.eqb_neq in H
  | H : andb _ _ = true |- _ => apply andb_true_iff in H; destruct H
  | H : orb _ _ = false |- _ => apply orb_false_iff in H; destruct H
  | H : negb _ = true |- _ => apply negb_true_iff in H
  | H : negb _ = false |- _ => apply negb_false_iff in H
  | H : bool_decide _ = true |- _ => apply bool_decide_eq_true in H
  | H : bool_decide _ = false |- _ => apply bool_decide_eq_false in H
  end.

(** Split on the tests of the code, in the goal or in hypotheses. *)
Ltac case_if :=
  match goal with
  | |- context [if ?b then _ else _] => destruct b eqn:?
  | H : context [if ?b then _ else _] |- _ => destruct b eqn:?
  end.

(** ** Reasoning about state transformers *)

(** A transitive relation between the states before and after a sequence. *)
Lemma se_bind_rel {S E A B} (R : S → S → Prop) `{!Transitive R}
    (m : SE S E A) (k : A → SE S E B) s :
  R s (m s).1 → (∀ a s', m s = (s', Ok a) → R s' (k a s').1) → R s (se_bind m k s).1.
Proof.
  intros Hm Hk. unfold se_bind. destruct (m s) as [s' [a|e]] eqn:E1; simpl in *; [|done].
  transitivity s'; [done|]. by apply Hk.
Qed.

Lemma foldl_rel {S A} (R : S → S → Prop) `{!Reflexive R, !Transitive R}
    (f : S → A → S) (l : list A) s :
  (∀ s a, R s (f s a)) → R s (foldl f s l).
Proof.
  intros Hf. revert s. induction l as [|a l IH]; intros s; simpl; [done|].
  transitivity (f s a); auto.
Qed.

(** ** Lists *)

Section lists.
Context {A : Type}.
Implicit Types (l k : list A) (i n : nat).

Lemma slice_app_l l k n : length l = n → slice 0 n (l ++ k) = l.
Proof. intros <-. unfold slice. by rewrite Nat.sub_0_r, drop_0, take_app_length. Qed.

Lemma slice_app_r l k a b :
  length l ≤ a → slice a b (l ++ k) = slice (a - length l) (b - length l) k.
Proof.
  intros Ha. unfold slice. rewrite drop_app_ge by done. f_equal. lia.
Qed.

Lemma slice_skip a' b' l k a b :
  a = length l + a' → b = length l + b' → slice a b (l ++ k) = slice a' b' k.
Proof. intros -> ->. rewrite slice_app_r by lia. f_equal; lia. Qed.

Lemma length_slice l a b : a ≤ b → b ≤ length l → length (slice a b l) = b - a.
Proof. intros ??. unfold slice. rewrite length_take, length_drop. lia. Qed.

Lemma list_filter_all (P : A → Prop) `{∀ x, Decision (P x)} l :
  Forall P l → filter P l = l.
Proof.
  induction 1 as [|x l Hx _ IH]; [done|]. by rewrite filter_cons_True, IH.
Qed.

(** [iter().rev().find(..)]: the last element that satisfies the test. *)
Fixpoint find_last (P : A → bool) (l : list A) : option A :=
  match l with
  | [] => None
  | x :: l' => match find_last P l' with
               | Some y => Some y
               | None => if P x then Some x else None
               end
  end.

Lemma find_last_app P l k :
  find_last P (l ++ k) =
    match find_last P k with Some y => Some y | None => find_last P l end.
Proof.
  induction l as [|x l IH]; simpl; [by destruct (find_last P k)|].
  rewrite IH. by destruct (find_last P k).
Qed.

Lemma find_last_None P l : find_last P l = None ↔ Forall (λ x, P x = false) l.
Proof.
  induction l as [|x l IH]; simpl; [done|].
  rewrite Forall_cons, <- IH. destruct (find_last P l), (P x); intuition congruence.
Qed.

Lemma find_last_Some P l y :
  find_last P l = Some y →
  ∃ l1 l2, l = l1 ++ y :: l2 ∧ P y = true ∧ Forall (λ x, P x = false) l2.
Proof.
  induction l as [|x l IH]; simpl; [done|].
  destruct (find_last P l) as [z|] eqn:E.
  - intros [= ->]. destruct IH as (l1 & l2 & -> & ? & ?); [done|].
    by exists (x :: l1), l2.
  - destruct (P x) eqn:?; intros [= ->]. exists [], l.
    split; [done|]. split; [done|]. by apply find_last_None.
Qed.

Lemma find_last_split P l1 y l2 :
  P y = true → Forall (λ x, P x = false) l2 → find_last P (l1 ++ y :: l2) = Some y.
Proof.
  intros Hy Hl. rewrite find_last_app. simpl.
  rewrite (proj2 (find_last_None P l2)) by done. by rewrite Hy.
Qed.

Lemma find_last_ext_Forall P Q l :
  Forall (λ x, P x = Q x) l → find_last P l = find_last Q l.
Proof. induction 1 as [|x l Hx Hl IH]; simpl; [done|]. by rewrite IH, Hx. Qed.

Lemma last_find_last l : last l = find_last (λ _, true) l.
Proof.
  induction l as [|x l IH]; [done|].
  change (last (x :: l)) with (match l with [] => Some x | _ :: _ => last l end).
  cbn [find_last]. rewrite <- IH. destruct l as [|y l]; [done|].
  destruct (last (y :: l)) eqn:E; [done|]. by apply last_None in E.
Qed.
End lists.

(** ** Big-endian codec *)

Lemma to_N_byte_of_N v : Byte.to_N (byte_of_N v) = (v mod 256)%N.
Proof.
  unfold byte_of_N. pose proof (N.mod_upper_bound v 256 ltac:(lia)) as Hb.
  destruct (Byte.of_N (v mod 256)) as [b|] eqn:E.
  - by apply Byte.to_of_N in E.
  - apply Byte.of_N_None_iff in E. lia.
Qed.

Lemma byte_to_N_lt (b : byte) : (Byte.to_N b < 256)%N.
Proof. pose proof (Byte.to_N_bounded b). lia. Qed.

Lemma byte_of_N_to_N (b : byte) : byte_of_N (Byte.to_N b) = b.
Proof.
  unfold byte_of_N. rewrite N.mod_small by apply byte_to_N_lt.
  by rewrite Byte.of_to_N.
Qed.

Lemma length_be_bytes n v : length (be_bytes n v) = n.
Proof. induction n; simpl; auto. Qed.

Lemma be_value_acc l a :
  fold_left (λ acc b, (acc * 256 + Byte.to_N b)%N) l a =
    (a * 256 ^ N.of_nat (length l) + be_value l)%N.
Proof.
  unfold be_value. revert a. induction l as [|b l IH]; intros a; simpl.
  - rewrite N.pow_0_r. lia.
  - rewrite (IH (a * 256 + Byte.to_N b)%N), (IH (0 * 256 + Byte.to_N b)%N).
    replace (N.of_nat (S (length l))) with (N.succ (N.of_nat (length l))) by lia.
    rewrite N.pow_succ_r'. nia.
Qed.

Lemma be_value_cons b l :
  be_value (b :: l) = (Byte.to_N b * 256 ^ N.of_nat (length l) + be_value l)%N.
Proof. unfold be_value at 1. simpl. by rewrite be_value_acc. Qed.

Lemma be_value_bound l : (be_value l < 256 ^ N.of_nat (length l))%N.
Proof.
  induction l as [|b l IH]; [by vm_compute|].
  rewrite be_value_cons. simpl length.
  replace (N.of_nat (S (length l))) with (N.succ (N.of_nat (length l))) by lia.
  rewrite N.pow_succ_r'. pose proof (byte_to_N_lt b). nia.
Qed.

Lemma be_value_be_bytes_mod n v :
  be_value (be_bytes n v) = (v mod 256 ^ N.of_nat n)%N.
Proof.
  induction n as [|n IH]; simpl.
  - by rewrite N.pow_0_r, N.mod_1_r.
  - rewrite be_value_cons, IH, length_be_bytes, to_N_byte_of_N.
    replace (N.of_nat (S n)) with (N.succ (N.of_nat n)) by lia.
    rewrite N.pow_succ_r', (N.mul_comm 256 _), N.Div0.mod_mul_r. lia.
Qed.

Lemma be_value_be_bytes n v :
  (v < 256 ^ N.of_nat n)%N → be_value (be_bytes n v) = v.
Proof. intros. rewrite be_value_be_bytes_mod. by apply N.mod_small. Qed.

Lemma be_value_inj l k :
  length l = length k → be_value l = be_value k → l = k.
Proof.
  revert k. induction l as [|b l IH]; intros [|c k] Hlen Heq; try done.
  simpl in Hlen. rewrite !be_value_cons in Heq. injection Hlen as Hlen.
  rewrite Hlen in Heq. pose proof (be_value_bound l) as H1.
  pose proof (be_value_bound k) as H2. rewrite Hlen in H1.
  set (p := (256 ^ N.of_nat (length k))%N) in *.
  assert (Hb : Byte.to_N b = Byte.to_N c).
  { destruct (N.lt_trichotomy (Byte.to_N b) (Byte.to_N c)) as [?|[?|?]]; [nia|done|nia]. }
  f_equal.
  - rewrite <- (byte_of_N_to_N b), <- (byte_of_N_to_N c). by rewrite Hb.
  - apply IH; [done|]. rewrite Hb in Heq. lia.
Qed.

Lemma be_bytes_be_value l : be_bytes (length l) (be_value l) = l.
Proof.
  apply be_value_inj; [apply length_be_bytes|].
  apply be_value_be_bytes, be_value_bound.
Qed.

#[global] Arguments be_bytes : simpl never.
#[global] Arguments be_value : simpl never.
#[export] Hint Rewrite length_be_bytes @length_app : aura_rw.
