(* ===== verification/Metrics.v ===== *)
(** * The metrics registry

    Models [crates/auradb-observability/src/metrics.rs]: counters and gauges, latency
    histograms with fixed buckets, the mirrors of the cluster state, the snapshot and its
    Prometheus text.  The fields of the registry are the constructors of [Counter], so the
    registry is a function of the metric; every atomic wraps at 64 bits. *)

From stdpp Require Import pretty functions.
From S2P Require Import Prelude.

Local Open Scope N_scope.

(** ** Histograms *)

Definition BUCKETS_US : list N :=
  [50; 100; 250; 500; 1000; 2500; 5000; 10000; 25000; 50000; 100000; 1000000].

Record Histogram := mkHistogram {
  hg_buckets : list N;
  hg_sum_us : N;
  hg_count : N;
}.

Definition histogram_default : Histogram := mkHistogram (replicate 12 0) 0 0.

(** The loop over the bounds: the first bucket that holds the value counts it. *)
Fixpoint record_bucket (value_us : N) (bounds buckets : list N) : list N :=
  match bounds, buckets with
  | bound :: bounds', b :: buckets' =>
      if value_us <=? bound then wrap64 (b + 1) :: buckets'
      else b :: record_bucket value_us bounds' buckets'
  | _, _ => buckets
  end.

Definition record_us (value_us : N) (h : Histogram) : Histogram :=
  mkHistogram (record_bucket value_us BUCKETS_US (hg_buckets h))
    (wrap64 (hg_sum_us h + value_us)) (wrap64 (hg_count h + 1)).

Record HistogramSnapshot := mkHistogramSnapshot {
  hs_buckets : list (N * N);
  hs_sum_us : N;
  hs_count : N;
}.

Definition histogram_snapshot (h : Histogram) : HistogramSnapshot :=
  mkHistogramSnapshot (zip BUCKETS_US (hg_buckets h)) (hg_sum_us h) (hg_count h).

Definition mean_us (s : HistogramSnapshot) : N :=
  if hs_count s =? 0 then 0 else hs_sum_us s / hs_count s.

(** ** The registry *)

Inductive Counter :=
| M_requests_total
| M_errors_total
| M_queries_total
| M_mutations_total
| M_search_text_queries_total
| M_search_hybrid_queries_total
| M_search_vector_queries_total
| M_ann_preview_queries_total
| M_query_timeouts_total
| M_facets_queries_total
| M_aggregation_queries_total
| M_auth_failures_total
| M_bytes_read
| M_bytes_written
| M_active_connections
| M_active_transactions
| M_active_cursors
| M_mvcc_active_transactions
| M_mvcc_oldest_snapshot_age_seconds
| M_mvcc_retained_versions
| M_mvcc_gc_runs_total
| M_mvcc_gc_reclaimed_versions_total
| M_mvcc_gc_reclaimed_bytes_total
| M_mvcc_transaction_timeouts_total
| M_mvcc_conflicts_total
| M_cluster_enabled
| M_node_role
| M_raft_current_term
| M_raft_commit_index
| M_raft_applied_index
| M_raft_log_last_index
| M_raft_leader_changes_total
| M_raft_votes_granted_total
| M_raft_append_entries_sent_total
| M_raft_append_entries_received_total
| M_raft_replication_lag_entries
| M_replication_apply_errors_total
| M_peer_connected
| M_peer_replication_lag_entries
| M_raft_elections_total
| M_raft_election_timeouts_total
| M_raft_append_entries_failures_total
| M_raft_heartbeat_latency_ms
| M_cluster_quorum_available
| M_cluster_snapshots_sent_total
| M_cluster_snapshots_installed_total
| M_cluster_snapshots_rejected_total
| M_cluster_snapshot_needed_total
| M_cluster_snapshot_bytes_sent_total
| M_cluster_snapshot_bytes_installed_total
| M_cluster_snapshot_in_progress
| M_cluster_snapshot_last_error.

#[export] Instance Counter_eq_dec : EqDecision Counter.
Proof. solve_decision. Defined.

Inductive Latency := L_request_latency | L_query_latency | L_ranking_latency | L_storage_latency | L_raft_apply_latency.

#[export] Instance Latency_eq_dec : EqDecision Latency.
Proof. solve_decision. Defined.

Record Metrics := mkMetrics {
  mx_value : Counter → N;
  mx_latency : Latency → Histogram;
}.

Definition metrics_new : Metrics := mkMetrics (λ _, 0) (λ _, histogram_default).

Definition on_metric (f : N → N) (m : Counter) (x : Metrics) : Metrics :=
  mkMetrics (<[m := f (mx_value x m)]> (mx_value x)) (mx_latency x).

Definition add (n : N) (m : Counter) (x : Metrics) : Metrics := on_metric (λ v, wrap64 (v + n)) m x.
Definition incr (m : Counter) (x : Metrics) : Metrics := on_metric (λ v, wrap64 (v + 1)) m x.
Definition gauge_inc (m : Counter) (x : Metrics) : Metrics := on_metric (λ v, wrap64 (v + 1)) m x.
Definition gauge_set (value : N) (m : Counter) (x : Metrics) : Metrics := on_metric (λ _, value) m x.
Definition gauge_dec (m : Counter) (x : Metrics) : Metrics := on_metric (λ v, v - 1) m x.

Definition record_latency (l : Latency) (value_us : N) (x : Metrics) : Metrics :=
  mkMetrics (mx_value x) (<[l := record_us value_us (mx_latency x l)]> (mx_latency x)).

(** A sequence of [gauge_set]. *)
Definition set_all (values : list (Counter * N)) (x : Metrics) : Metrics :=
  foldl (λ x '(m, v), gauge_set v m x) x values.

Definition bit (b : bool) : N := if b then 1 else 0.

Definition set_cluster_metrics (enabled : bool) (role_code term commit_index applied_index last_log_index
    replication_lag_entries leader_changes_total votes_granted_total append_entries_sent_total
    append_entries_received_total apply_errors_total : N) (x : Metrics) : Metrics :=
  set_all
    [(M_cluster_enabled, bit enabled); (M_node_role, role_code); (M_raft_current_term, term);
     (M_raft_commit_index, commit_index); (M_raft_applied_index, applied_index);
     (M_raft_log_last_index, last_log_index);
     (M_raft_replication_lag_entries, replication_lag_entries);
     (M_raft_leader_changes_total, leader_changes_total);
     (M_raft_votes_granted_total, votes_granted_total);
     (M_raft_append_entries_sent_total, append_entries_sent_total);
     (M_raft_append_entries_received_total, append_entries_received_total);
     (M_replication_apply_errors_total, apply_errors_total)] x.

Definition set_peer_metrics (peers_connected peer_replication_lag_entries elections_total
    election_timeouts_total append_entries_failures_total heartbeat_latency_ms : N)
    (quorum_available : bool)
    (snapshots_sent_total snapshots_installed_total snapshots_rejected_total : N) (x : Metrics)
  : Metrics :=
  set_all
    [(M_cluster_snapshots_sent_total, snapshots_sent_total);
     (M_cluster_snapshots_installed_total, snapshots_installed_total);
     (M_cluster_snapshots_rejected_total, snapshots_rejected_total);
     (M_peer_connected, peers_connected);
     (M_peer_replication_lag_entries, peer_replication_lag_entries);
     (M_raft_elections_total, elections_total);
     (M_raft_election_timeouts_total, election_timeouts_total);
     (M_raft_append_entries_failures_total, append_entries_failures_total);
     (M_raft_heartbeat_latency_ms, heartbeat_latency_ms);
     (M_cluster_quorum_available, bit quorum_available)] x.

Definition set_snapshot_metrics (needed_total bytes_sent_total bytes_installed_total in_progress : N)
    (last_error : bool) (x : Metrics) : Metrics :=
  set_all
    [(M_cluster_snapshot_needed_total, needed_total);
     (M_cluster_snapshot_bytes_sent_total, bytes_sent_total);
     (M_cluster_snapshot_bytes_installed_total, bytes_installed_total);
     (M_cluster_snapshot_in_progress, in_progress);
     (M_cluster_snapshot_last_error, bit last_error)] x.

Record MetricsSnapshot := mkMetricsSnapshot {
  ms_value : Counter → N;
  ms_latency : Latency → HistogramSnapshot;
}.

Definition metrics_snapshot (x : Metrics) : MetricsSnapshot :=
  mkMetricsSnapshot (mx_value x) (λ l, histogram_snapshot (mx_latency x l)).

(** ** The Prometheus text *)

Definition counter_names : list (string * Counter) :=
  [("auradb_requests_total", M_requests_total);
   ("auradb_errors_total", M_errors_total);
   ("auradb_queries_total", M_queries_total);
   ("auradb_mutations_total", M_mutations_total);
   ("auradb_search_text_queries_total", M_search_text_queries_total);
   ("auradb_search_hybrid_queries_total", M_search_hybrid_queries_total);
   ("auradb_search_vector_queries_total", M_search_vector_queries_total);
   ("auradb_ann_preview_queries_total", M_ann_preview_queries_total);
   ("auradb_query_timeouts_total", M_query_timeouts_total);
   ("auradb_facets_queries_total", M_facets_queries_total);
   ("auradb_aggregation_queries_total", M_aggregation_queries_total);
   ("auradb_auth_failures_total", M_auth_failures_total);
   ("auradb_bytes_read_total", M_bytes_read);
   ("auradb_bytes_written_total", M_bytes_written);
   ("auradb_mvcc_gc_runs_total", M_mvcc_gc_runs_total);
   ("auradb_mvcc_gc_reclaimed_versions_total", M_mvcc_gc_reclaimed_versions_total);
   ("auradb_mvcc_gc_reclaimed_bytes_total", M_mvcc_gc_reclaimed_bytes_total);
   ("auradb_mvcc_transaction_timeouts_total", M_mvcc_transaction_timeouts_total);
   ("auradb_mvcc_conflicts_total", M_mvcc_conflicts_total);
   ("auradb_raft_leader_changes_total", M_raft_leader_changes_total);
   ("auradb_raft_votes_granted_total", M_raft_votes_granted_total);
   ("auradb_raft_append_entries_sent_total", M_raft_append_entries_sent_total);
   ("auradb_raft_append_entries_received_total", M_raft_append_entries_received_total);
   ("auradb_replication_apply_errors_total", M_replication_apply_errors_total);
   ("auradb_raft_elections_total", M_raft_elections_total);
   ("auradb_raft_election_timeouts_total", M_raft_election_timeouts_total);
   ("auradb_raft_append_entries_failures_total", M_raft_append_entries_failures_total)].

Definition gauge_names : list (string * Counter) :=
  [("auradb_peer_connected", M_peer_connected);
   ("auradb_peer_replication_lag_entries", M_peer_replication_lag_entries);
   ("auradb_raft_heartbeat_latency_ms", M_raft_heartbeat_latency_ms);
   ("auradb_cluster_quorum_available", M_cluster_quorum_available);
   ("auradb_cluster_snapshots_sent_total", M_cluster_snapshots_sent_total);
   ("auradb_cluster_snapshots_installed_total", M_cluster_snapshots_installed_total);
   ("auradb_cluster_snapshots_rejected_total", M_cluster_snapshots_rejected_total);
   ("auradb_cluster_snapshot_needed_total", M_cluster_snapshot_needed_total);
   ("auradb_cluster_snapshot_bytes_sent_total", M_cluster_snapshot_bytes_sent_total);
   ("auradb_cluster_snapshot_bytes_installed_total", M_cluster_snapshot_bytes_installed_total);
   ("auradb_cluster_snapshot_in_progress", M_cluster_snapshot_in_progress);
   ("auradb_cluster_snapshot_last_error", M_cluster_snapshot_last_error);
   ("auradb_cluster_enabled", M_cluster_enabled);
   ("auradb_node_role", M_node_role);
   ("auradb_raft_current_term", M_raft_current_term);
   ("auradb_raft_commit_index", M_raft_commit_index);
   ("auradb_raft_applied_index", M_raft_applied_index);
   ("auradb_raft_log_last_index", M_raft_log_last_index);
   ("auradb_raft_replication_lag_entries", M_raft_replication_lag_entries);
   ("auradb_active_connections", M_active_connections);
   ("auradb_active_transactions", M_active_transactions);
   ("auradb_active_cursors", M_active_cursors);
   ("auradb_mvcc_active_transactions", M_mvcc_active_transactions);
   ("auradb_mvcc_oldest_snapshot_age_seconds", M_mvcc_oldest_snapshot_age_seconds);
   ("auradb_mvcc_retained_versions", M_mvcc_retained_versions)].

Definition latency_labels : list (string * Latency) :=
  [("request", L_request_latency);
   ("query", L_query_latency);
   ("ranking", L_ranking_latency);
   ("storage", L_storage_latency);
   ("raft_apply", L_raft_apply_latency)].

Definition newline : string := String.String (Ascii.ascii_of_nat 10) EmptyString.

Definition metric_lines (kind name : string) (value : N) : list string :=
  ["# TYPE " ++ name ++ " " ++ kind; name ++ " " ++ pretty value]%string.

Definition latency_lines (label : string) (h : HistogramSnapshot) : list string :=
  let name := ("auradb_" ++ label ++ "_latency_us")%string in
  ["# TYPE " ++ name ++ " summary"; name ++ "_sum " ++ pretty (hs_sum_us h);
   name ++ "_count " ++ pretty (hs_count h)]%string.

Definition prometheus_lines (s : MetricsSnapshot) : list string :=
  mjoin ((λ '(name, m), metric_lines "counter" name (ms_value s m)) <$> counter_names) ++
  mjoin ((λ '(name, m), metric_lines "gauge" name (ms_value s m)) <$> gauge_names) ++
  mjoin ((λ '(label, l), latency_lines label (ms_latency s l)) <$> latency_labels).

Definition render_prometheus (s : MetricsSnapshot) : string :=
  foldr (λ line out, line ++ newline ++ out)%string ""%string (prometheus_lines s).

(** ** Properties of the registry *)

Lemma on_metric_value f m x m' :
  mx_value (on_metric f m x) m' = if decide (m = m') then f (mx_value x m) else mx_value x m'.
Proof.
  unfold on_metric. simpl. destruct (decide (m = m')) as [->|Hne].
  - by rewrite fn_lookup_insert.
  - by rewrite fn_lookup_insert_ne.
Qed.

Lemma set_all_value values x m :
  mx_value (set_all values x) m =
    match find_last (λ p, bool_decide (p.1 = m)) values with
    | Some p => p.2
    | None => mx_value x m
    end.
Proof.
  unfold set_all. revert x. induction values as [|[m' v] values IH]; intros x; simpl; [done|].
  rewrite IH. destruct (find_last _ values); [done|]. unfold gauge_set. rewrite on_metric_value.
  simpl. case_bool_decide; case_decide; simpl; congruence.
Qed.

(** The observations a bucket counts: above the bound before it, up to its own. *)
Definition bucket_of (bounds : list N) (i : nat) (v : N) : bool :=
  match bounds !! i with
  | None => false
  | Some hi => (v <=? hi) && forallb (λ lo, lo <? v) (take i bounds)
  end.

Lemma record_bucket_spec v bounds : ∀ buckets i b,
  length bounds = length buckets → buckets !! i = Some b →
  record_bucket v bounds buckets !! i = Some (if bucket_of bounds i v then wrap64 (b + 1) else b).
Proof.
  induction bounds as [|bound bounds IH]; intros [|b0 buckets] i b Hl Hi; try done.
  injection Hl as Hl. simpl. destruct i as [|i]; simpl in Hi.
  - injection Hi as ->. unfold bucket_of. simpl. rewrite andb_true_r. by destruct (v <=? bound).
  - unfold bucket_of. cbn [lookup list_lookup take forallb].
    destruct (v <=? bound) eqn:Hv; simpl.
    + assert (Hb : (bound <? v) = false) by (apply N.ltb_ge; by apply N.leb_le).
      rewrite Hi, Hb. destruct (bounds !! i); [|done]. simpl. by rewrite andb_false_r.
    + assert (Hb : (bound <? v) = true) by (apply N.ltb_lt; by apply N.leb_gt).
      rewrite (IH buckets i b) by done. unfold bucket_of. rewrite Hb. by destruct (bounds !! i).
Qed.

Lemma length_record_bucket v bounds : ∀ buckets, length (record_bucket v bounds buckets) = length buckets.
Proof.
  induction bounds as [|bound bounds IH]; intros [|b buckets]; try done. simpl.
  destruct (v <=? bound); simpl; [done|]. by rewrite IH.
Qed.

(** After any observations, a bucket holds the number of those between the bound before
    it and its own; observations above the last bound are in no bucket. *)
Lemma histogram_counts vs i :
  (i < 12)%nat → N.of_nat (length vs) < 2 ^ 64 →
  hg_buckets (foldl (λ h v, record_us v h) histogram_default vs) !! i =
    Some (N.of_nat (length (List.filter (bucket_of BUCKETS_US i) vs))).
Proof.
  intros Hi. induction vs as [|v vs IH] using rev_ind; intros Hl.
  - cbn [foldl histogram_default hg_buckets]. by rewrite lookup_replicate_2.
  - rewrite length_app in Hl. simpl in Hl.
    assert (Hlen : ∀ l, length (hg_buckets (foldl (λ h v, record_us v h) histogram_default l)) = 12%nat).
    { intros l. induction l as [|w l IHl] using rev_ind; [done|]. rewrite foldl_app. cbn [foldl record_us hg_buckets].
      by rewrite length_record_bucket. }
    rewrite foldl_app. cbn [foldl record_us hg_buckets]. erewrite record_bucket_spec; [|by rewrite Hlen|apply IH; lia].
    rewrite List.filter_app, length_app. simpl. f_equal.
    assert (length (List.filter (bucket_of BUCKETS_US i) vs) ≤ length vs)%nat
      by apply List.filter_length_le.
    destruct (bucket_of BUCKETS_US i v); simpl; [|lia]. unfold wrap64.
    rewrite N.mod_small; lia.
Qed.

(** Every counter and every gauge is exported, under one name, and names are distinct. *)
Lemma exported_once :
  NoDup (counter_names ++ gauge_names).*1 ∧ NoDup (counter_names ++ gauge_names).*2 ∧
  ∀ m, m ∈ (counter_names ++ gauge_names).*2.
Proof.
  split_and!.
  - apply (bool_decide_unpack _). by vm_compute.
  - apply (bool_decide_unpack _). by vm_compute.
  - intros m. destruct m; apply (bool_decide_unpack _); by vm_compute.
Qed.

(** The text has a line with the value of every metric of the registry. *)
Lemma prometheus_complete x m :
  ∃ name, (name, m) ∈ counter_names ++ gauge_names ∧
    (name ++ " " ++ pretty (mx_value x m))%string ∈ prometheus_lines (metrics_snapshot x).
Proof.
  destruct exported_once as (_ & _ & Hm). specialize (Hm m).
  apply list_elem_of_fmap in Hm as ([name m'] & -> & Hin). exists name. split; [done|].
  unfold prometheus_lines. apply elem_of_app in Hin as [Hin|Hin]; rewrite !elem_of_app.
  - left. apply list_elem_of_join. eexists. split; [|apply list_elem_of_fmap; by exists (name, m')].
    simpl. set_solver.
  - right. left. apply list_elem_of_join. eexists.
    split; [|apply list_elem_of_fmap; by exists (name, m')]. simpl. set_solver.
Qed.
