(* ===== verification/Sorting.v ===== *)
(** * Sorting

    [slice::sort_by] and the bounded selection of the best elements.  A comparison
    function is total on a set of elements when it is antisymmetric and transitive
    there and returns [Equal] on equal elements only; such a list has one sorted
    arrangement, whatever algorithm finds it. *)

From S2P Require Import Prelude.

Section sorting.
Context {A : Type} (cmp : A → A → comparison).

(** A stable sort: an element goes in front of those it does not exceed. *)
Fixpoint insert_by (x : A) (l : list A) : list A :=
  match l with
  | [] => [x]
  | y :: l' => match cmp x y with
               | Gt => y :: insert_by x l'
               | _ => x :: l
               end
  end.

Definition sort_by (l : list A) : list A := foldr insert_by [] l.

Definition cmp_lt (a b : A) : Prop := cmp a b = Lt.

Record total_on (P : A → Prop) : Prop := {
  tc_anti : ∀ a b, P a → P b → cmp b a = CompOpp (cmp a b);
  tc_trans : ∀ a b c, P a → P b → P c → cmp_lt a b → cmp_lt b c → cmp_lt a c;
  tc_eq : ∀ a b, P a → P b → cmp a b = Eq → a = b;
}.

Lemma insert_by_perm x l : insert_by x l ≡ₚ x :: l.
Proof.
  induction l as [|y l IH]; simpl; [done|]. destruct (cmp x y); [done|done|].
  rewrite IH. constructor.
Qed.

Lemma sort_by_perm l : sort_by l ≡ₚ l.
Proof. induction l as [|x l IH]; simpl; [done|]. by rewrite insert_by_perm, IH. Qed.

Lemma total_on_mono (P Q : A → Prop) : (∀ a, Q a → P a) → total_on P → total_on Q.
Proof. intros Hi [Ha Ht He]. split; eauto. Qed.

Section total.
Context {P : A → Prop} (Htot : total_on P).

Lemma cmp_lt_irrefl a : P a → ¬ cmp_lt a a.
Proof. intros Ha Hlt. pose proof (tc_anti _ Htot a a Ha Ha) as Hc. rewrite Hlt in Hc. done. Qed.

Lemma cmp_gt_lt a b : P a → P b → cmp a b = Gt → cmp_lt b a.
Proof. intros Ha Hb Hg. unfold cmp_lt. by rewrite (tc_anti _ Htot a b), Hg. Qed.

Lemma insert_by_sorted x l :
  P x → Forall P l → x ∉ l → StronglySorted cmp_lt l → StronglySorted cmp_lt (insert_by x l).
Proof.
  intros Hx Hl Hnin Hs. induction Hs as [|y l Hs IH Hy]; simpl; [repeat constructor|].
  apply Forall_cons in Hl as [Py Hl]. apply not_elem_of_cons in Hnin as [Hne Hnin].
  destruct (cmp x y) eqn:E.
  - by apply (tc_eq _ Htot) in E.
  - constructor; [by constructor|]. constructor; [done|]. rewrite Forall_forall in *.
    intros z Hz. eapply (tc_trans _ Htot x y z); eauto.
  - constructor; [by apply IH|]. rewrite insert_by_perm. constructor; [|done].
    by apply cmp_gt_lt.
Qed.

Lemma sort_by_sorted l : Forall P l → NoDup l → StronglySorted cmp_lt (sort_by l).
Proof.
  intros Hl Hnd. induction Hnd as [|x l Hx Hnd IH]; simpl; [constructor|].
  apply Forall_cons in Hl as [Px Hl]. apply insert_by_sorted; [done| | |by apply IH].
  - by rewrite sort_by_perm.
  - by rewrite sort_by_perm.
Qed.

(** A sorted arrangement is unique. *)
Lemma sorted_unique l1 l2 :
  Forall P l1 → StronglySorted cmp_lt l1 → StronglySorted cmp_lt l2 → l1 ≡ₚ l2 → l1 = l2.
Proof.
  intros Hl Hs. revert l2 Hl. induction Hs as [|x l1 Hs IH Hx]; intros l2 Hl Hs2 Hp.
  - by apply Permutation_nil in Hp.
  - destruct Hs2 as [|y l2 Hs2 Hy]; [by apply Permutation_sym, Permutation_nil in Hp|].
    apply Forall_cons in Hl as [Px Hl].
    assert (Hxy : x = y).
    { assert (Hxin : x ∈ y :: l2) by (rewrite <- Hp; by left).
      assert (Hyin : y ∈ x :: l1) by (rewrite Hp; by left).
      apply elem_of_cons in Hxin as [->|Hxin]; [done|].
      apply elem_of_cons in Hyin as [->|Hyin]; [done|]. exfalso.
      rewrite Forall_forall in Hx, Hy, Hl. specialize (Hx y Hyin). specialize (Hy x Hxin).
      assert (Py : P y) by auto. apply (cmp_lt_irrefl x Px).
      by apply (tc_trans _ Htot x y x). }
    subst y. f_equal. apply IH; [done|done|]. by apply Permutation_cons_inv in Hp.
Qed.

Lemma sort_by_unique l s :
  Forall P l → NoDup l → StronglySorted cmp_lt s → s ≡ₚ l → sort_by l = s.
Proof.
  intros Hl Hnd Hs Hp. apply sorted_unique; [|by apply sort_by_sorted|done|].
  - by rewrite sort_by_perm.
  - by rewrite sort_by_perm, Hp.
Qed.

(** Sorting forgets the arrangement it starts from. *)
Lemma sort_by_permute l1 l2 : Forall P l1 → NoDup l1 → l1 ≡ₚ l2 → sort_by l1 = sort_by l2.
Proof.
  intros Hl Hnd Hp. apply sort_by_unique; [done|done| |].
  - apply sort_by_sorted; by rewrite <- Hp.
  - by rewrite sort_by_perm, Hp.
Qed.
End total.

(** ** Bounded selection

    A priority queue that holds at most [k] elements, as the list of its elements in
    ascending order: the greatest, at the end, gives way to an element below it. *)

Definition keep_best (k : nat) (h : list A) (c : A) : list A :=
  if (length h <? k)%nat then insert_by c h
  else match last h with
       | Some w => match cmp c w with
                   | Lt => insert_by c (removelast h)
                   | _ => h
                   end
       | None => h
       end.

Lemma keep_best_cons k y h c :
  cmp c y = Gt → (h ≠ [] ∨ 0 < k)%nat → keep_best (S k) (y :: h) c = y :: keep_best k h c.
Proof.
  intros Hc Hh. unfold keep_best. simpl.
  change (S (length h) <? S k)%nat with (length h <? k)%nat.
  destruct (length h <? k)%nat eqn:E; [by rewrite Hc|].
  destruct h as [|z h]; [destruct Hh; [done|]; apply Nat.ltb_ge in E; simpl in E; lia|].
  rewrite last_cons_cons. destruct (last (z :: h)) as [w|]; [|done].
  destruct (cmp c w); [done| |done]. change (removelast (y :: z :: h)) with (y :: removelast (z :: h)).
  simpl. by rewrite Hc.
Qed.

Lemma removelast_take n (l : list A) : (n < length l)%nat → removelast (take (S n) l) = take n l.
Proof.
  revert n. induction l as [|x l IH]; intros n Hn; simpl in *; [lia|].
  destruct n as [|n]; [done|]. destruct l as [|y l]; simpl in *; [lia|].
  f_equal. apply (IH n). lia.
Qed.

Lemma keep_best_take {P : A → Prop} (Htot : total_on P) k l c :
  (0 < k)%nat → P c → Forall P l → c ∉ l → StronglySorted cmp_lt l →
  keep_best k (take k l) c = take k (insert_by c l).
Proof.
  intros Hk Hc Hl Hnin Hs. revert k Hk. induction Hs as [|y l Hs IH Hy]; intros [|k] Hk; [lia| |lia|].
  - unfold keep_best. simpl. by rewrite take_nil.
  - apply Forall_cons in Hl as [Py Hl]. apply not_elem_of_cons in Hnin as [Hne Hnin].
    rewrite firstn_cons. simpl. destruct (cmp c y) eqn:E.
    + by apply (tc_eq _ Htot) in E.
    + unfold keep_best. simpl length. destruct (S (length (take k l)) <? S k)%nat eqn:El.
      * apply Nat.ltb_lt in El. rewrite length_take in El. simpl. rewrite E.
        rewrite take_ge by lia. by rewrite take_ge by (simpl; lia).
      * apply Nat.ltb_ge in El. rewrite length_take in El.
        change (y :: take k l) with (take (S k) (y :: l)).
        rewrite removelast_take by (simpl; lia).
        assert (Hw : ∃ w, last (take (S k) (y :: l)) = Some w ∧ cmp c w = Lt).
        { destruct (last (take (S k) (y :: l))) as [w|] eqn:Ew.
          - exists w. split; [done|]. apply last_Some_elem_of in Ew.
            rewrite firstn_cons in Ew. apply elem_of_cons in Ew as [->|Ew]; [done|].
            apply elem_of_take in Ew as (j & Ew & _). apply list_elem_of_lookup_2 in Ew.
            rewrite Forall_forall in Hy, Hl. eapply (tc_trans _ Htot c y w); eauto.
          - by apply last_None in Ew. }
        destruct Hw as (w & -> & ->). destruct k as [|k]; [done|]. simpl. by rewrite E.
    + destruct k as [|k].
      * unfold keep_best. simpl. by rewrite E.
      * rewrite keep_best_cons by (done || (right; lia)). rewrite firstn_cons. f_equal.
        apply IH; [done|done|lia].
Qed.

(** Selection is sorting and cutting. *)
Lemma select_best {P : A → Prop} (Htot : total_on P) k l :
  (0 < k)%nat → Forall P l → NoDup l → foldl (keep_best k) [] l = take k (sort_by l).
Proof.
  intros Hk. induction l as [|c l IH] using rev_ind; intros Hl Hnd; [by destruct k|].
  apply Forall_app in Hl as [Hl [Hc _]%Forall_cons].
  apply NoDup_app in Hnd as (Hnd & Hdis & _).
  assert (Hnin : c ∉ l) by (intros Hin; apply (Hdis c Hin); by left).
  rewrite foldl_app. simpl. rewrite IH by done.
  rewrite (keep_best_take Htot); [|done|done|by rewrite sort_by_perm|by rewrite sort_by_perm|
    by apply (sort_by_sorted Htot)].
  f_equal. symmetry. apply (sort_by_unique Htot).
  - apply Forall_app. split; [done|]. by apply Forall_singleton.
  - apply NoDup_app. split_and!; [done|set_solver|apply NoDup_singleton].
  - apply (insert_by_sorted Htot); [done|by rewrite sort_by_perm|by rewrite sort_by_perm|
      by apply (sort_by_sorted Htot)].
  - rewrite insert_by_perm, sort_by_perm. apply Permutation_cons_append.
Qed.
End sorting.

Lemma sort_by_ext {A} (cmp cmp' : A → A → comparison) l :
  (∀ a b, a ∈ l → b ∈ l → cmp a b = cmp' a b) → sort_by cmp l = sort_by cmp' l.
Proof.
  unfold sort_by. induction l as [|x l IH]; intros Hext; [done|]. simpl.
  rewrite IH by (intros a b Ha Hb; apply Hext; by right). fold (sort_by cmp' l).
  assert (Hin : ∀ y, y ∈ sort_by cmp' l → y ∈ l) by (intros y; by rewrite sort_by_perm).
  induction (sort_by cmp' l) as [|y k IHk]; [done|]. simpl.
  rewrite (Hext x y) by (by left || (right; apply Hin; by left)).
  rewrite IHk; [done|]. intros z Hz. apply Hin. by right.
Qed.

(** ** Preorders

    A comparison that ranks all elements of [P], possibly with ties.  Orders by several
    keys are built from the orders of the keys. *)

Record preorder_on {A} (cmp : A → A → comparison) (P : A → Prop) : Prop := {
  pc_anti : ∀ a b, P a → P b → cmp b a = CompOpp (cmp a b);
  pc_trans : ∀ a b c, P a → P b → P c → cmp a b ≠ Gt → cmp b c ≠ Gt → cmp a c ≠ Gt;
}.

Section preorders.
Context {A : Type}.
Implicit Types (cmp : A → A → comparison) (P : A → Prop).

Lemma preorder_mono cmp P Q : (∀ a, Q a → P a) → preorder_on cmp P → preorder_on cmp Q.
Proof. intros Hi [Ha Ht]. split; eauto. Qed.

Lemma preorder_eq P : preorder_on (λ _ _ : A, Eq) P.
Proof. by split. Qed.

Lemma preorder_lt_trans cmp P a b c :
  preorder_on cmp P → P a → P b → P c →
  (cmp a b = Lt → cmp b c ≠ Gt → cmp a c = Lt) ∧ (cmp a b ≠ Gt → cmp b c = Lt → cmp a c = Lt) ∧
  (cmp a b = Eq → cmp b c = Eq → cmp a c = Eq).
Proof.
  intros [Ha Ht] Pa Pb Pc. split_and!.
  - intros Hab Hbc. destruct (cmp a c) eqn:Hac; [|done|].
    + assert (Hba : cmp b a ≠ Gt) by (apply (Ht b c a); [done..|]; by rewrite (Ha a c), Hac).
      rewrite (Ha a b), Hab in Hba by done. done.
    + exfalso. apply (Ht a b c); [done..| |done|done]. by rewrite Hab.
  - intros Hab Hbc. destruct (cmp a c) eqn:Hac; [|done|].
    + assert (Hcb : cmp c b ≠ Gt) by (apply (Ht c a b); [done..| |done]; by rewrite (Ha a c), Hac).
      rewrite (Ha b c), Hbc in Hcb by done. done.
    + exfalso. apply (Ht a b c); [done..|done| |done]. by rewrite Hbc.
  - intros Hab Hbc. assert (H1 : cmp a c ≠ Gt) by (apply (Ht a b c); [done..| |]; congruence).
    assert (H2 : cmp c a ≠ Gt).
    { apply (Ht c b a); [done..| |]; [by rewrite (Ha b c), Hbc|by rewrite (Ha a b), Hab]. }
    rewrite (Ha a c) in H2 by done. by destruct (cmp a c).
Qed.

Lemma preorder_opp cmp P : preorder_on cmp P → preorder_on (λ a b, CompOpp (cmp a b)) P.
Proof.
  intros Hp. pose proof Hp as [Ha Ht]. split.
  - intros a b Pa Pb. by rewrite (Ha a b).
  - intros a b c Pa Pb Pc. rewrite <- !Ha by done. intros H1 H2. by apply (Ht c b a).
Qed.

(** First by one comparison, then by another. *)
Lemma preorder_then cmp cmp' P :
  preorder_on cmp P → preorder_on cmp' P →
  preorder_on (λ a b, match cmp a b with Eq => cmp' a b | _ => cmp a b end) P.
Proof.
  intros H1 H2. pose proof H1 as [Ha _]. pose proof H2 as [Ha' Ht']. split.
  - intros a b Pa Pb. rewrite (Ha a b), (Ha' a b) by done. by destruct (cmp a b).
  - intros a b c Pa Pb Pc.
    destruct (preorder_lt_trans cmp P a b c H1 Pa Pb Pc) as (L1 & L2 & L3).
    pose proof (Ht' a b c Pa Pb Pc) as T. destruct (cmp a b) eqn:E1, (cmp b c) eqn:E2; try done.
    + by rewrite L3.
    + by rewrite L2.
    + by rewrite L1.
    + by rewrite L1.
Qed.

Lemma preorder_pull {B} (f : B → A) cmp P (Q : B → Prop) :
  (∀ b, Q b → P (f b)) → preorder_on cmp P → preorder_on (λ a b, cmp (f a) (f b)) Q.
Proof. intros Hf [Ha Ht]. split; eauto. Qed.

Lemma total_preorder cmp P : total_on cmp P → preorder_on cmp P.
Proof.
  intros Ht. split; [apply Ht|]. intros a b c Pa Pb Pc H1 H2.
  destruct (cmp a b) eqn:E1; [|destruct (cmp b c) eqn:E2|done].
  - by rewrite (tc_eq _ _ Ht a b Pa Pb E1).
  - by rewrite <- (tc_eq _ _ Ht b c Pb Pc E2), E1.
  - by rewrite (tc_trans _ _ Ht a b c Pa Pb Pc E1 E2).
  - done.
Qed.

(** Missing values last. *)
Definition option_cmp cmp (a b : option A) : comparison :=
  match a, b with
  | Some x, Some y => cmp x y
  | Some _, None => Lt
  | None, Some _ => Gt
  | None, None => Eq
  end.

Lemma preorder_option cmp P :
  preorder_on cmp P → preorder_on (option_cmp cmp) (λ o, ∀ x, o = Some x → P x).
Proof.
  intros [Ha Ht]. split.
  - intros [a|] [b|] Pa Pb; simpl; [|done..]. apply Ha; auto.
  - intros [a|] [b|] [c|] Pa Pb Pc; simpl; try done. apply Ht; auto.
Qed.

(** A total order from a preorder whose ties are equal. *)
Lemma preorder_total cmp P :
  preorder_on cmp P → (∀ a b, P a → P b → cmp a b = Eq → a = b) → total_on cmp P.
Proof.
  intros Hp He. split; [apply Hp| |done]. intros a b c Pa Pb Pc H1 H2.
  destruct (preorder_lt_trans cmp P a b c Hp Pa Pb Pc) as (L1 & _ & _). apply L1; [done|].
  unfold cmp_lt in H2. by rewrite H2.
Qed.
End preorders.
