(* ===== verification/BTree.v ===== *)
(** * Ordered maps

    The source keeps its documents, version chains, schemas and staged writes in
    [std::collections::BTreeMap]s and relies on their iteration order (the order
    of a compacted segment, of a scan, of the staged operations of a batch).  A
    map is an association list; [bt_wf] says that its keys are strictly
    increasing for the order of the key type, which makes the representation
    canonical ([bt_ext]). *)

From S2P Require Import Prelude.

(** The [Ord] bound on a key type. *)
Class OrdKey (K : Type) := {
  kcompare : K → K → comparison;
  kcompare_eq : ∀ a b, kcompare a b = Eq ↔ a = b;
  kcompare_antisym : ∀ a b, kcompare b a = CompOpp (kcompare a b);
  kcompare_trans : ∀ a b c, kcompare a b = Lt → kcompare b c = Lt → kcompare a c = Lt;
}.

Definition klt {K} `{OrdKey K} (a b : K) : Prop := kcompare a b = Lt.

Section ordkey.
Context {K : Type} `{OrdKey K}.
Implicit Types a b c : K.

Lemma kcompare_refl a : kcompare a a = Eq.
Proof. by apply kcompare_eq. Qed.

Lemma kcompare_Gt a b : kcompare a b = Gt ↔ klt b a.
Proof. unfold klt. rewrite (kcompare_antisym a b). by destruct (kcompare a b). Qed.

Lemma klt_irrefl a : ¬ klt a a.
Proof. unfold klt. by rewrite kcompare_refl. Qed.

#[export] Instance klt_trans : Transitive (klt (K := K)).
Proof. intros a b c. apply kcompare_trans. Qed.

Lemma klt_ne a b : klt a b → a ≠ b.
Proof. intros Hlt ->. by apply klt_irrefl in Hlt. Qed.

#[export] Instance ordkey_eq_dec : EqDecision K.
Proof.
  intros a b. destruct (kcompare a b) eqn:E;
    [left; by apply kcompare_eq | right | right]; intros ->;
    by rewrite kcompare_refl in E.
Defined.
End ordkey.

(** ** Key types of the program *)

#[export] Program Instance N_ordkey : OrdKey N := {| kcompare := N.compare |}.
Next Obligation. apply N.compare_eq_iff. Qed.
Next Obligation. intros a b. apply N.compare_antisym. Qed.
Next Obligation. intros a b c. rewrite !N.compare_lt_iff. lia. Qed.

Lemma ascii_compare_trans a b c :
  Ascii.compare a b = Lt → Ascii.compare b c = Lt → Ascii.compare a c = Lt.
Proof. unfold Ascii.compare. rewrite !N.compare_lt_iff. lia. Qed.

Lemma string_compare_trans a : ∀ b c,
  String.compare a b = Lt → String.compare b c = Lt → String.compare a c = Lt.
Proof.
  induction a as [|x a IH]; intros [|y b] [|z c]; simpl; try done.
  destruct (Ascii.compare x y) eqn:Exy; try done;
    destruct (Ascii.compare y z) eqn:Eyz; try done; intros Hab Hbc.
  - apply Ascii.compare_eq_iff in Exy as ->. rewrite Eyz. by eapply IH.
  - apply Ascii.compare_eq_iff in Exy as ->. by rewrite Eyz.
  - apply Ascii.compare_eq_iff in Eyz as ->. by rewrite Exy.
  - by rewrite (ascii_compare_trans x y z).
Qed.

Lemma string_compare_refl a : String.compare a a = Eq.
Proof. pose proof (String.compare_antisym a a). by destruct (String.compare a a). Qed.

(** [str] is ordered by its bytes. *)
#[export] Program Instance string_ordkey : OrdKey string := {| kcompare := String.compare |}.
Next Obligation.
  intros a b. split; [apply String.compare_eq_iff|]. intros ->. apply string_compare_refl.
Qed.
Next Obligation. intros a b. apply String.compare_antisym. Qed.
Next Obligation. intros a b c. apply string_compare_trans. Qed.

(** Derived [Ord] of a struct of two fields: lexicographic. *)
Definition pair_compare {A B} `{OrdKey A, OrdKey B} (p q : A * B) : comparison :=
  match kcompare p.1 q.1 with
  | Eq => kcompare p.2 q.2
  | Lt => Lt
  | Gt => Gt
  end.

#[export] Program Instance pair_ordkey {A B} `{OrdKey A, OrdKey B} : OrdKey (A * B) :=
  {| kcompare := pair_compare |}.
Next Obligation.
  intros A B HA HB [a b] [a' b']; unfold pair_compare; simpl. destruct (kcompare a a') eqn:E.
  - apply kcompare_eq in E as ->. rewrite kcompare_eq. naive_solver.
  - split; [done|]. intros [= -> ->]. by rewrite kcompare_refl in E.
  - split; [done|]. intros [= -> ->]. by rewrite kcompare_refl in E.
Qed.
Next Obligation.
  intros A B HA HB [a b] [a' b']; unfold pair_compare; simpl. rewrite (kcompare_antisym a a').
  destruct (kcompare a a'); simpl; [apply kcompare_antisym|done|done].
Qed.
Next Obligation.
  intros A B HA HB [a1 b1] [a2 b2] [a3 b3]; unfold pair_compare; simpl.
  destruct (kcompare a1 a2) eqn:E12; try done;
    destruct (kcompare a2 a3) eqn:E23; try done; intros.
  - apply kcompare_eq in E12 as ->. rewrite E23. by eapply kcompare_trans.
  - apply kcompare_eq in E12 as ->. by rewrite E23.
  - apply kcompare_eq in E23 as ->. by rewrite E12.
  - by rewrite (kcompare_trans a1 a2 a3).
Qed.

(** ** Operations *)

Section btree.
Context {K : Type} `{OrdKey K} {V : Type}.
Implicit Types (m : list (K * V)) (k j : K) (v : V).

Fixpoint bt_get k m : option V :=
  match m with
  | [] => None
  | (k', v') :: m' => match kcompare k k' with
                      | Eq => Some v'
                      | _ => bt_get k m'
                      end
  end.

Fixpoint bt_insert k v m : list (K * V) :=
  match m with
  | [] => [(k, v)]
  | (k', v') :: m' => match kcompare k k' with
                      | Lt => (k, v) :: (k', v') :: m'
                      | Eq => (k, v) :: m'
                      | Gt => (k', v') :: bt_insert k v m'
                      end
  end.

Fixpoint bt_remove k m : list (K * V) :=
  match m with
  | [] => []
  | (k', v') :: m' => match kcompare k k' with
                      | Eq => m'
                      | _ => (k', v') :: bt_remove k m'
                      end
  end.

(** [entry(k).or_default()] followed by a mutation of the slot. *)
Definition bt_alter (f : option V → V) k m : list (K * V) :=
  bt_insert k (f (bt_get k m)) m.

(** [retain] with a closure that may rewrite the value, and [filter_map]. *)
Definition bt_retain {W} (f : K → V → option W) m : list (K * W) :=
  omap (λ kv, option_map (pair kv.1) (f kv.1 kv.2)) m.

Definition bt_keys m : list K := m.*1.
Definition bt_values m : list V := m.*2.

Definition bt_wf m : Prop := StronglySorted klt (bt_keys m).
End btree.

Section btree_lemmas.
Context {K : Type} `{OrdKey K} {V : Type}.
Implicit Types (m : list (K * V)) (k j : K) (v : V).

Lemma bt_get_insert_eq k v m : bt_get k (bt_insert k v m) = Some v.
Proof.
  induction m as [|[k' v'] m IH]; simpl; [by rewrite kcompare_refl|].
  destruct (kcompare k k') eqn:E; simpl; rewrite ?kcompare_refl; [done|done|].
  by rewrite E.
Qed.

Lemma bt_get_insert_ne k j v m : k ≠ j → bt_get j (bt_insert k v m) = bt_get j m.
Proof.
  intros Hne.
  assert (Hjk : kcompare j k ≠ Eq) by (rewrite kcompare_eq; congruence).
  induction m as [|[k' v'] m IH]; simpl; [by destruct (kcompare j k)|].
  destruct (kcompare k k') eqn:E; simpl.
  - apply kcompare_eq in E as ->. by destruct (kcompare j k').
  - by destruct (kcompare j k).
  - by rewrite IH.
Qed.

Lemma bt_get_insert k j v m :
  bt_get j (bt_insert k v m) = if decide (k = j) then Some v else bt_get j m.
Proof.
  case_decide as Hkj; [subst; apply bt_get_insert_eq | by apply bt_get_insert_ne].
Qed.

Lemma bt_get_remove_ne k j m : k ≠ j → bt_get j (bt_remove k m) = bt_get j m.
Proof.
  intros Hne. induction m as [|[k' v'] m IH]; simpl; [done|].
  destruct (kcompare k k') eqn:E; simpl; rewrite ?IH; try done.
  apply kcompare_eq in E as ->.
  destruct (kcompare j k') eqn:E; try done. by apply kcompare_eq in E.
Qed.

Lemma bt_wf_cons k v m : bt_wf ((k, v) :: m) ↔ Forall (klt k) (bt_keys m) ∧ bt_wf m.
Proof.
  unfold bt_wf. simpl. split; [intros HS; by inversion HS|]. intros [??]. by constructor.
Qed.

Lemma bt_get_None_below k m : Forall (klt k) (bt_keys m) → bt_get k m = None.
Proof.
  induction m as [|[k' v'] m IH]; simpl; [done|].
  rewrite Forall_cons. intros [Hlt Hm]. unfold klt in Hlt. rewrite Hlt. auto.
Qed.

Lemma bt_get_remove_eq k m : bt_wf m → bt_get k (bt_remove k m) = None.
Proof.
  induction m as [|[k' v'] m IH]; simpl; [done|].
  rewrite bt_wf_cons. intros [Hk Hm].
  destruct (kcompare k k') eqn:E; simpl; rewrite ?E; auto.
  apply kcompare_eq in E as ->. by apply bt_get_None_below.
Qed.

Lemma bt_elem_of_get k v m : bt_wf m → (k, v) ∈ m ↔ bt_get k m = Some v.
Proof.
  induction m as [|[k' v'] m IH]; [set_solver|].
  rewrite bt_wf_cons, elem_of_cons. intros [Hk Hm]. simpl.
  destruct (kcompare k k') eqn:E.
  - apply kcompare_eq in E as ->. split; [|naive_solver].
    intros [?|Hin]; [naive_solver|]. apply IH in Hin; [|done].
    by rewrite bt_get_None_below in Hin.
  - rewrite <- IH by done. assert (k ≠ k') by (by apply klt_ne). naive_solver.
  - rewrite <- IH by done.
    assert (k' ≠ k) by (apply klt_ne; by apply kcompare_Gt). naive_solver.
Qed.

Lemma bt_get_elem_of k v m : bt_get k m = Some v → (k, v) ∈ m.
Proof.
  induction m as [|[k' v'] m IH]; simpl; [done|].
  destruct (kcompare k k') eqn:E; [|set_solver|set_solver].
  apply kcompare_eq in E as ->. intros [= ->]. set_solver.
Qed.

Lemma bt_keys_insert_Forall (P : K → Prop) k v m :
  P k → Forall P (bt_keys m) → Forall P (bt_keys (bt_insert k v m)).
Proof.
  intros HP. unfold bt_keys. induction m as [|[k' v'] m IH]; simpl; [by repeat constructor|].
  rewrite Forall_cons. intros [??].
  destruct (kcompare k k'); simpl; repeat constructor; auto.
Qed.

Lemma bt_wf_insert k v m : bt_wf m → bt_wf (bt_insert k v m).
Proof.
  induction m as [|[k' v'] m IH]; [intros _; repeat constructor|].
  rewrite bt_wf_cons. intros [Hk Hm]. simpl. destruct (kcompare k k') eqn:E.
  - apply kcompare_eq in E as ->. by rewrite bt_wf_cons.
  - rewrite !bt_wf_cons. split; [|done]. unfold bt_keys. simpl. constructor; [done|].
    eapply Forall_impl; [exact Hk|]. intros j Hj. by transitivity k'.
  - apply kcompare_Gt in E. rewrite bt_wf_cons. split; [|auto].
    by apply bt_keys_insert_Forall.
Qed.

Lemma bt_keys_remove_Forall (P : K → Prop) k m :
  Forall P (bt_keys m) → Forall P (bt_keys (bt_remove k m)).
Proof.
  unfold bt_keys. induction m as [|[k' v'] m IH]; simpl; [done|].
  rewrite Forall_cons. intros [??]. destruct (kcompare k k'); simpl; auto.
Qed.

Lemma bt_wf_remove k m : bt_wf m → bt_wf (bt_remove k m).
Proof.
  induction m as [|[k' v'] m IH]; [done|].
  rewrite bt_wf_cons. intros [Hk Hm]. simpl.
  destruct (kcompare k k'); [done| |];
    rewrite bt_wf_cons; split; auto; by apply bt_keys_remove_Forall.
Qed.

(** Canonicity: the order makes lookup-equal maps equal. *)
Lemma bt_ext m1 m2 :
  bt_wf m1 → bt_wf m2 → (∀ k, bt_get k m1 = bt_get k m2) → m1 = m2.
Proof.
  revert m2. induction m1 as [|[k1 v1] m1 IH]; intros [|[k2 v2] m2]; try done.
  - intros _ _ Hg. specialize (Hg k2). simpl in Hg. by rewrite kcompare_refl in Hg.
  - intros _ _ Hg. specialize (Hg k1). simpl in Hg. by rewrite kcompare_refl in Hg.
  - rewrite !bt_wf_cons. intros [Hk1 Hm1] [Hk2 Hm2] Hg.
    assert (k1 = k2) as ->.
    { pose proof (Hg k1) as G1. pose proof (Hg k2) as G2. simpl in G1, G2.
      rewrite kcompare_refl in G1, G2. rewrite (kcompare_antisym k1 k2) in G2.
      destruct (kcompare k1 k2) eqn:E; [by apply kcompare_eq in E| |]; exfalso.
      - rewrite bt_get_None_below in G1; [done|].
        eapply Forall_impl; [exact Hk2|]. intros j ?. by transitivity k2.
      - simpl in G2. rewrite bt_get_None_below in G2; [done|].
        eapply Forall_impl; [exact Hk1|]. intros j ?. transitivity k1; [|done].
        by apply kcompare_Gt. }
    assert (v1 = v2) as ->.
    { specialize (Hg k2). simpl in Hg. rewrite kcompare_refl in Hg. congruence. }
    f_equal. apply IH; [done..|]. intros k.
    destruct (decide (k = k2)) as [->|Hne].
    + by rewrite !bt_get_None_below.
    + specialize (Hg k). simpl in Hg.
      destruct (kcompare k k2) eqn:E; try done. by apply kcompare_eq in E.
Qed.

Lemma bt_get_alter f k j m :
  bt_get j (bt_alter f k m) = if decide (k = j) then Some (f (bt_get k m)) else bt_get j m.
Proof. apply bt_get_insert. Qed.

Lemma bt_wf_alter f k m : bt_wf m → bt_wf (bt_alter f k m).
Proof. apply bt_wf_insert. Qed.
End btree_lemmas.

Section btree_retain.
Context {K : Type} `{OrdKey K} {V W : Type}.
Implicit Types (m : list (K * V)) (k j : K) (v : V) (f : K → V → option W).

Lemma bt_keys_retain_Forall (P : K → Prop) f m :
  Forall P (bt_keys m) → Forall P (bt_keys (bt_retain f m)).
Proof.
  unfold bt_keys, bt_retain. induction m as [|[k v] m IH]; simpl; [done|].
  rewrite Forall_cons. intros [??]. destruct (f k v); simpl; auto.
Qed.

Lemma bt_wf_retain f m : bt_wf m → bt_wf (bt_retain f m).
Proof.
  induction m as [|[k v] m IH]; [done|]. rewrite bt_wf_cons. intros [Hk Hm].
  unfold bt_retain. simpl. destruct (f k v); simpl; [|by apply IH].
  rewrite bt_wf_cons. split; [by apply bt_keys_retain_Forall|by apply IH].
Qed.

Lemma bt_get_retain f k m : bt_wf m → bt_get k (bt_retain f m) = bt_get k m ≫= f k.
Proof.
  induction m as [|[k' v'] m IH]; [done|]. rewrite bt_wf_cons. intros [Hk Hm].
  specialize (IH Hm). unfold bt_retain in *. simpl.
  destruct (kcompare k k') eqn:E.
  - apply kcompare_eq in E as ->. simpl. destruct (f k' v'); simpl.
    + by rewrite kcompare_refl.
    + by apply bt_get_None_below, (bt_keys_retain_Forall _ f).
  - destruct (f k' v'); simpl; [by rewrite E|done].
  - destruct (f k' v'); simpl; [by rewrite E|done].
Qed.
End btree_retain.

#[export] Hint Resolve bt_wf_insert bt_wf_remove bt_wf_alter bt_wf_retain : aura.
