(* ===== verification/Text.v ===== *)
(** * Text

    What the source uses of [str] on the byte level: the UTF-8 validity test behind
    [String::from_utf8] and [read_to_string], [str::trim] and the hexadecimal and
    decimal digits of [format!] and [parse].  A [String] is the [string] of its
    UTF-8 bytes. *)

From S2P Require Import Prelude.

Local Open Scope N_scope.

(** ** Bytes and strings *)

Definition bytes_of (s : string) : list byte := String.list_byte_of_string s.
Definition string_of (l : list byte) : string := String.string_of_list_byte l.

Lemma string_of_bytes_of s : string_of (bytes_of s) = s.
Proof. apply String.string_of_list_byte_of_string. Qed.

Lemma bytes_of_string_of l : bytes_of (string_of l) = l.
Proof. apply String.list_byte_of_string_of_list_byte. Qed.

(** ** UTF-8 *)

Definition in_range (lo hi : N) (b : byte) : bool :=
  ((lo <=? Byte.to_N b) && (Byte.to_N b <=? hi))%bool.

Definition cont (b : byte) : bool := in_range 0x80 0xBF b.

(** Well-formed byte sequences of the Unicode standard (table 3-7), one character
    per step. *)
Fixpoint utf8_valid (l : list byte) : bool :=
  match l with
  | [] => true
  | b0 :: r0 =>
      if in_range 0 0x7F b0 then utf8_valid r0
      else match r0 with
      | [] => false
      | b1 :: r1 =>
          if in_range 0xC2 0xDF b0 then (cont b1 && utf8_valid r1)%bool
          else match r1 with
          | [] => false
          | b2 :: r2 =>
              if in_range 0xE0 0xEF b0 then
                let second :=
                  if in_range 0xE0 0xE0 b0 then in_range 0xA0 0xBF b1
                  else if in_range 0xED 0xED b0 then in_range 0x80 0x9F b1
                  else cont b1 in
                (second && cont b2 && utf8_valid r2)%bool
              else match r2 with
              | [] => false
              | b3 :: r3 =>
                  if in_range 0xF0 0xF4 b0 then
                    let second :=
                      if in_range 0xF0 0xF0 b0 then in_range 0x90 0xBF b1
                      else if in_range 0xF4 0xF4 b0 then in_range 0x80 0x8F b1
                      else cont b1 in
                    (second && cont b2 && cont b3 && utf8_valid r3)%bool
                  else false
              end
          end
      end
  end.

(** [String::from_utf8]. *)
Definition from_utf8 (l : list byte) : option string :=
  if utf8_valid l then Some (string_of l) else None.

Lemma utf8_valid_ascii l :
  Forall (λ b, Byte.to_N b < 128) l → utf8_valid l = true.
Proof.
  induction 1 as [|b l Hb _ IH]; [done|]. simpl.
  assert (in_range 0 127 b = true) as ->; [|done].
  unfold in_range. apply andb_true_iff. rewrite !N.leb_le. lia.
Qed.

Lemma utf8_valid_ascii_app l k :
  Forall (λ b, Byte.to_N b < 128) l → utf8_valid (l ++ k) = utf8_valid k.
Proof.
  induction 1 as [|b l Hb _ IH]; [done|]. simpl.
  assert (in_range 0 127 b = true) as ->; [|done].
  unfold in_range. apply andb_true_iff. rewrite !N.leb_le. lia.
Qed.

(** ** [str::trim]

    The characters with the White_Space property, by their encodings.  On valid
    UTF-8 a byte suffix that equals such an encoding is that character. *)

Definition white_space : list (list byte) :=
  map (fun c => [byte_of_N c]) [0x09; 0x0A; 0x0B; 0x0C; 0x0D; 0x20] ++
  map (fun c => [byte_of_N 0xC2; byte_of_N c]) [0x85; 0xA0] ++
  [[byte_of_N 0xE1; byte_of_N 0x9A; byte_of_N 0x80]] ++
  map (fun c => [byte_of_N 0xE2; byte_of_N 0x80; byte_of_N c])
    [0x80; 0x81; 0x82; 0x83; 0x84; 0x85; 0x86; 0x87; 0x88; 0x89; 0x8A; 0xA8; 0xA9; 0xAF] ++
  [[byte_of_N 0xE2; byte_of_N 0x81; byte_of_N 0x9F];
   [byte_of_N 0xE3; byte_of_N 0x80; byte_of_N 0x80]].

Fixpoint strip_prefix (p l : list byte) : option (list byte) :=
  match p, l with
  | [], _ => Some l
  | a :: p', b :: l' => if Byte.eqb a b then strip_prefix p' l' else None
  | _ :: _, [] => None
  end.

Fixpoint strip_any (ps : list (list byte)) (l : list byte) : option (list byte) :=
  match ps with
  | [] => None
  | p :: ps' => match strip_prefix p l with
                | Some r => Some r
                | None => strip_any ps' l
                end
  end.

(** One character less per step, so the length bounds the steps. *)
Fixpoint trim_with (ps : list (list byte)) (fuel : nat) (l : list byte) : list byte :=
  match fuel with
  | O => l
  | S fuel' => match strip_any ps l with
               | Some r => trim_with ps fuel' r
               | None => l
               end
  end.

Definition trim (l : list byte) : list byte :=
  let l := trim_with white_space (length l) l in
  rev (trim_with (map (@rev byte) white_space) (length l) (rev l)).

Lemma trim_with_id ps fuel l : strip_any ps l = None → trim_with ps fuel l = l.
Proof. intros Hs. destruct fuel; simpl; [done|]. by rewrite Hs. Qed.

(** A byte that neither starts nor ends the encoding of a white-space character. *)
Definition solid (b : byte) : bool :=
  forallb (λ p, match p with c :: _ => negb (Byte.eqb c b) | [] => false end)
    (white_space ++ map (@rev byte) white_space).

Lemma strip_any_solid ps b l :
  forallb (λ p, match p with c :: _ => negb (Byte.eqb c b) | [] => false end) ps = true →
  strip_any ps (b :: l) = None.
Proof.
  induction ps as [|[|c p] ps IH]; simpl; [done|done|].
  intros [Hc Hps]%andb_true_iff. apply negb_true_iff in Hc. rewrite Hc. auto.
Qed.

Lemma strip_any_nil ps :
  Forall (λ p : list byte, p ≠ []) ps → strip_any ps [] = None.
Proof. induction 1 as [|[|c p] ps Hp _ IH]; simpl; done. Qed.

Lemma trim_solid l : Forall (λ b, solid b = true) l → trim l = l.
Proof.
  intros Hl.
  assert (Hstrip : ∀ ps k, Forall (λ p : list byte, p ≠ []) ps →
    Forall (λ b, forallb (λ p, match p with c :: _ => negb (Byte.eqb c b) | [] => false end) ps
                 = true) k → strip_any ps k = None).
  { intros ps [|b k] Hne Hk; [by apply strip_any_nil|].
    apply Forall_cons in Hk as [Hb _]. by apply strip_any_solid. }
  assert (Hs : ∀ b, solid b = true →
    forallb (λ p, match p with c :: _ => negb (Byte.eqb c b) | [] => false end) white_space
      = true ∧
    forallb (λ p, match p with c :: _ => negb (Byte.eqb c b) | [] => false end)
      (map (@rev byte) white_space) = true).
  { intros b Hb. unfold solid in Hb. rewrite forallb_app in Hb. by apply andb_true_iff in Hb. }
  unfold trim. cbv zeta. rewrite (trim_with_id white_space), trim_with_id; [apply rev_involutive| |].
  - apply Hstrip; [by repeat constructor|]. apply Forall_rev.
    eapply Forall_impl; [exact Hl|]. intros b Hb. by apply Hs.
  - apply Hstrip; [by repeat constructor|].
    eapply Forall_impl; [exact Hl|]. intros b Hb. by apply Hs.
Qed.
