(* ===== verification/Framing.v ===== *)
(** * Checksummed frames

    The storage engine's segments ([crates/auradb-storage/src/format.rs]) and the
    Raft log ([crates/auradb-raft/src/storage.rs]) use the same frame layout,

      [payload length: u64 BE][payload crc32: u32 BE][payload bytes]

    and the same discipline: a frame that runs past the end of the file is a torn
    write and ends the file, a frame that is fully present but does not match its
    checksum, or does not decode, is corruption.  This file holds the layout, the
    reading of one frame and what a crash in the middle of an append leaves; and, for
    the samples, a concrete serialiser. *)

From S2P Require Import Prelude Text.

Local Open Scope N_scope.

(** [crc32fast::hash]; its result is a [u32]. *)
Class Crc32 := crc32 : list byte → N.
Class Crc32Laws `{Crc32} : Prop := crc32_bound : ∀ l, crc32 l < 2 ^ 32.

(** A buffer the program can hold. *)
Definition addressable (buf : list byte) : Prop := N.of_nat (length buf) <= u64_max.

Inductive FrameRead (A : Type) :=
| FrTorn
| FrBad
| FrOk (a : A) (next : nat).
Arguments FrTorn {A}.
Arguments FrBad {A}.
Arguments FrOk {A} a next.

Section frame.
Context `{Crc32}.

Definition frame (payload : list byte) : list byte :=
  be_bytes 8 (N.of_nat (length payload)) ++ be_bytes 4 (crc32 payload) ++ payload.

Definition frames (payloads : list (list byte)) : list byte := mjoin (frame <$> payloads).

(** Read the frame at [offset]; on success, the offset behind it.  The length is a
    [u64] read into a [usize], whose addition to the offset is checked. *)
Definition read_frame {A} (decode : list byte → option A) (buf : list byte) (offset : nat)
  : FrameRead A :=
  if (length buf <? offset + 12)%nat then FrTorn
  else
    let len := be_value (slice offset (offset + 8) buf) in
    let crc := be_value (slice (offset + 8) (offset + 12) buf) in
    let body_start := (offset + 12)%nat in
    if u64_max <? N.of_nat body_start + len then FrBad
    else
      let body_end := N.of_nat body_start + len in
      if N.of_nat (length buf) <? body_end then FrTorn
      else
        let payload := slice body_start (N.to_nat body_end) buf in
        if negb (crc32 payload =? crc) then FrBad
        else match decode payload with
             | None => FrBad
             | Some a => FrOk a (N.to_nat body_end)
             end.
End frame.

#[global] Arguments frame : simpl never.
#[global] Arguments frames : simpl never.

Section frame_lemmas.
Context `{Crc32, !Crc32Laws}.

Lemma length_frame p : length (frame p) = (12 + length p)%nat.
Proof. unfold frame. autorewrite with aura_rw. lia. Qed.

Lemma frames_cons p ps : frames (p :: ps) = frame p ++ frames ps.
Proof. done. Qed.

Lemma frames_app ps qs : frames (ps ++ qs) = frames ps ++ frames qs.
Proof. unfold frames. by rewrite fmap_app, join_app. Qed.

Lemma length_frames ps : (length ps ≤ length (frames ps))%nat.
Proof.
  induction ps as [|p ps IH]; [simpl; lia|].
  rewrite frames_cons, length_app, length_frame. simpl. lia.
Qed.

(** The fields of a frame that starts behind [pre]. *)
Lemma frame_fields pre len crc body :
  len <= u64_max → crc < 2 ^ 32 →
  let buf := pre ++ be_bytes 8 len ++ be_bytes 4 crc ++ body in
  be_value (slice (length pre) (length pre + 8) buf) = len ∧
  be_value (slice (length pre + 8) (length pre + 12) buf) = crc.
Proof.
  intros Hl Hc. cbv zeta. split.
  - rewrite (slice_skip 0 8), slice_app_l, be_value_be_bytes; try lia; [|apply length_be_bytes].
    change (256 ^ N.of_nat 8) with (u64_max + 1). lia.
  - rewrite (slice_skip 8 12), (slice_skip 0 4), slice_app_l, be_value_be_bytes;
      rewrite ?length_be_bytes; try lia.
Qed.

Lemma frame_body pre h1 h2 (payload post : list byte) stop :
  length h1 = 8%nat → length h2 = 4%nat → stop = (length pre + 12 + length payload)%nat →
  slice (length pre + 12) stop (pre ++ h1 ++ h2 ++ payload ++ post) = payload.
Proof.
  intros H1 H2 ->.
  rewrite (slice_skip 12 (12 + length payload)), (slice_skip 4 (4 + length payload)),
    (slice_skip 0 (length payload)) by lia.
  by apply slice_app_l.
Qed.

Lemma take_frame k p :
  (12 ≤ k)%nat →
  take k (frame p) =
    be_bytes 8 (N.of_nat (length p)) ++ be_bytes 4 (crc32 p) ++ take (k - 12) p.
Proof.
  intros Hk. unfold frame.
  rewrite (take_app_ge (be_bytes 8 _)), (take_app_ge (be_bytes 4 _));
    rewrite ?length_be_bytes; [|lia..].
  by replace (k - 8 - 4)%nat with (k - 12)%nat by lia.
Qed.

Lemma read_frame_ok {A} (decode : list byte → option A) pre p post a :
  addressable (pre ++ frame p) → decode p = Some a →
  read_frame decode (pre ++ frame p ++ post) (length pre) = FrOk a (length (pre ++ frame p)).
Proof.
  intros Ha Hd. unfold addressable in Ha. rewrite length_app, length_frame in Ha.
  unfold read_frame. rewrite !length_app, length_frame.
  unfold frame. rewrite <- !app_assoc.
  destruct (frame_fields pre (N.of_nat (length p)) (crc32 p) (p ++ post)) as [-> ->];
    [lia|apply crc32_bound|].
  do 3 (case_if; bool_to_prop; [lia|]).
  rewrite frame_body by (rewrite ?length_be_bytes; lia).
  rewrite N.eqb_refl, Hd. simpl. f_equal. lia.
Qed.

(** A crash in the middle of a frame. *)
Lemma read_frame_torn {A} (decode : list byte → option A) pre p k :
  addressable (pre ++ frame p) → (k < length (frame p))%nat →
  read_frame decode (pre ++ take k (frame p)) (length pre) = FrTorn.
Proof.
  intros Ha Hk. unfold addressable in Ha. rewrite length_app, length_frame in *.
  unfold read_frame. rewrite length_app, length_take, length_frame, (Nat.min_l k) by lia.
  case_if; bool_to_prop; [done|]. rewrite take_frame by lia.
  destruct (frame_fields pre (N.of_nat (length p)) (crc32 p) (take (k - 12) p)) as [-> ->];
    [lia|apply crc32_bound|].
  case_if; bool_to_prop; [lia|]. case_if; bool_to_prop; [done|lia].
Qed.

(** A frame whose bytes no longer match its checksum. *)
Lemma read_frame_damaged {A} (decode : list byte → option A) pre crc payload post :
  addressable (pre ++ be_bytes 8 (N.of_nat (length payload)) ++ be_bytes 4 crc
               ++ payload ++ post) →
  crc < 2 ^ 32 → crc32 payload ≠ crc →
  read_frame decode (pre ++ be_bytes 8 (N.of_nat (length payload)) ++ be_bytes 4 crc
              ++ payload ++ post) (length pre) = FrBad.
Proof.
  intros Ha Hc Hne. unfold addressable in Ha. rewrite !length_app, !length_be_bytes in Ha.
  unfold read_frame. rewrite !length_app, !length_be_bytes.
  destruct (frame_fields pre (N.of_nat (length payload)) crc (payload ++ post))
    as [-> ->]; [lia|done|].
  do 3 (case_if; bool_to_prop; [done || lia|]).
  rewrite frame_body by (rewrite ?length_be_bytes; lia).
  apply N.eqb_neq in Hne. by rewrite Hne.
Qed.

(** A read frame ends inside the buffer and is longer than its header. *)
Lemma read_frame_bounds {A} (decode : list byte → option A) buf offset a next :
  read_frame decode buf offset = FrOk a next →
  (offset + 12 ≤ next)%nat ∧ (next ≤ length buf)%nat.
Proof.
  unfold read_frame. repeat case_if; try done. bool_to_prop.
  destruct (decode _); [|done]. intros [= _ <-]. lia.
Qed.

(** A prefix of some frames: complete frames and at most one torn one. *)
Lemma take_frames ps k :
  ∃ j tail, (j ≤ length ps)%nat ∧ take k (frames ps) = frames (take j ps) ++ tail ∧
    (tail = [] ∨ ∃ p m, ps !! j = Some p ∧ (m < length (frame p))%nat ∧
       tail = take m (frame p)).
Proof.
  revert k. induction ps as [|p ps IH]; intros k.
  - exists O, []. change (frames []) with (@nil byte). rewrite take_nil. auto.
  - rewrite frames_cons. destruct (decide (k < length (frame p))%nat) as [Hk|Hk].
    + exists O, (take k (frame p)). split; [lia|].
      split; [by rewrite take_app_le by lia|]. right. exists p, k. auto.
    + destruct (IH (k - length (frame p))%nat) as (j & tail & Hj & Heq & Ht).
      exists (S j), tail. split; [simpl; lia|]. split; [|done].
      rewrite take_app_ge, Heq by lia. by rewrite firstn_cons, frames_cons, app_assoc.
Qed.

(** The frames in front of a torn one fit in memory with it. *)
Lemma addressable_frames_take ps j p :
  addressable (frames ps) → ps !! j = Some p →
  addressable (frames (take j ps) ++ frame p).
Proof.
  intros Ha Hp. unfold addressable in *. rewrite <- (take_drop_middle ps j p Hp) in Ha.
  rewrite frames_app, frames_cons, !length_app in Ha. rewrite length_app. lia.
Qed.

Lemma addressable_frames_prefix ps j : addressable (frames ps) → addressable (frames (take j ps)).
Proof.
  intros Ha. unfold addressable in *. rewrite <- (take_drop j ps), frames_app, length_app in Ha.
  lia.
Qed.
End frame_lemmas.

(** ** A sample serialiser

    The serialisers of the source ([serde_json]) and its checksum ([crc32fast]) are
    parameters of the development.  This file gives one concrete instance of what
    is assumed of them, an ASCII rendering of [encode] of stdpp's [Countable]
    class, which shows that the assumptions can hold and lets examples run. *)

Definition ascii_zero : byte := x30.
Definition ascii_one : byte := x31.

(** The bits of a positive, lowest first, as the characters 0 and 1. *)
Fixpoint pos_bytes (p : positive) : list byte :=
  match p with
  | xH => []
  | xO p' => ascii_zero :: pos_bytes p'
  | xI p' => ascii_one :: pos_bytes p'
  end.

Fixpoint bytes_pos (l : list byte) : positive :=
  match l with
  | [] => xH
  | b :: l' => if Byte.eqb b ascii_one then xI (bytes_pos l') else xO (bytes_pos l')
  end.

Lemma bytes_pos_bytes p : bytes_pos (pos_bytes p) = p.
Proof. induction p as [p IH|p IH|]; simpl; by rewrite ?IH. Qed.

Definition sample_enc {A} `{Countable A} (a : A) : list byte := pos_bytes (encode a).
Definition sample_dec {A} `{Countable A} (l : list byte) : option A := decode (bytes_pos l).

Lemma sample_dec_enc {A} `{Countable A} (a : A) : sample_dec (sample_enc a) = Some a.
Proof. unfold sample_dec, sample_enc. rewrite bytes_pos_bytes. apply decode_encode. Qed.

Lemma pos_bytes_ascii p : Forall (λ b, Byte.to_N b < 128) (pos_bytes p).
Proof. induction p as [p IH|p IH|]; simpl; by repeat constructor. Qed.

Lemma sample_enc_utf8 {A} `{Countable A} (a : A) : utf8_valid (sample_enc a) = true.
Proof. apply utf8_valid_ascii, pos_bytes_ascii. Qed.

Definition sample_crc (l : list byte) : N :=
  fold_left (λ acc b, (acc * 31 + Byte.to_N b + 1) mod 2 ^ 32) l 0.

Lemma sample_crc_bound l : sample_crc l < 2 ^ 32.
Proof.
  unfold sample_crc. assert (Hacc : 0 < 2 ^ 32) by done. revert Hacc.
  generalize 0. induction l as [|b l IH]; intros acc Hacc; simpl; [done|].
  apply IH. by apply N.mod_upper_bound.
Qed.

#[export] Instance byte_countable : Countable byte :=
  inj_countable' Byte.to_N byte_of_N byte_of_N_to_N.

(** ** One-byte codes

    Values of a table have one-byte codes, everything else the sample encoding behind two
    marker bytes. *)

Section coded.
Context {A : Type} `{Countable A} (table : list A).

Definition coded_enc (a : A) : list byte :=
  match list_find (a =.) table with
  | Some (i, _) => [byte_of_N (N.of_nat i)]
  | None => x30 :: x30 :: sample_enc a
  end.

Definition coded_dec (l : list byte) : option A :=
  match l with
  | [b] => table !! N.to_nat (Byte.to_N b)
  | _ :: _ :: rest => sample_dec rest
  | [] => None
  end.

Lemma coded_dec_enc a : (length table ≤ 128)%nat → coded_dec (coded_enc a) = Some a.
Proof.
  intros Hlen. unfold coded_enc, coded_dec. destruct (list_find (a =.) table) as [[i x]|] eqn:E.
  - apply list_find_Some in E as (Hi & <- & _). pose proof (lookup_lt_Some _ _ _ Hi).
    rewrite to_N_byte_of_N, N.mod_small by lia. by rewrite Nat2N.id.
  - apply sample_dec_enc.
Qed.
End coded.
