(* ===== verification/Value.v ===== *)
(** * The value model

    Models [crates/auradb-core/src/value.rs]: the [Value] type, the structural
    measures and accessors, dotted document paths, and the JSON encoding with its
    [$]-prefixed extension keys.

    [f64] and [f32] are the specification floats of the standard library at their
    precisions; NaN payloads are not distinguished.  [serde_json::Value] is the
    [Json] tree (its maps are ordered maps); its [Number] is a parameter with the
    documented laws ([JsonNumber]). *)

From Stdlib Require Import Floats.SpecFloat Strings.Ascii.
From S2P Require Import Prelude BTree Text.

Local Open Scope Z_scope.

(** ** Floats *)

Abbreviation f64 := spec_float (only parsing).
Abbreviation f32 := spec_float (only parsing).

Definition f64_prec : Z := 53.
Definition f64_emax : Z := 1024.
Definition f32_prec : Z := 24.
Definition f32_emax : Z := 128.

(** Round to a format, to nearest with ties to even. *)
Definition float_round (prec emax : Z) (x : spec_float) : spec_float :=
  match x with
  | S754_finite s m e => binary_normalize prec emax (if s then Zneg m else Zpos m) e s
  | _ => x
  end.

(** [x as f64] for an [f32], [x as f32] for an [f64], [i as f64] for an [i64]. *)
Definition f64_of_f32 : f32 → f64 := float_round f64_prec f64_emax.
Definition f32_of_f64 : f64 → f32 := float_round f32_prec f32_emax.
Definition f64_of_i64 (i : Z) : f64 := binary_normalize f64_prec f64_emax i 0 false.

Definition float_finite (x : spec_float) : bool :=
  match x with
  | S754_zero _ | S754_finite _ _ _ => true
  | S754_infinity _ | S754_nan => false
  end.

#[export] Instance spec_float_eq_dec : EqDecision spec_float.
Proof. solve_decision. Defined.

Definition i64_min : Z := - 2 ^ 63.
Definition i64_max : Z := 2 ^ 63 - 1.
Definition i64_ok (i : Z) : Prop := i64_min <= i <= i64_max.

(** ** Values *)

Inductive Value :=
| VNull
| VBool (b : bool)
| VInt (i : Z)
| VFloat (f : f64)
| VText (s : string)
| VBytes (b : list byte)
| VTimestamp (ms : Z)
| VVector (v : list f32)
| VArray (items : list Value)
| VObject (map : list (string * Value)).

Abbreviation Document := (list (string * Value)) (only parsing).

(** Induction through arrays and documents. *)
Fixpoint Value_nested_ind (P : Value → Prop)
  (Hnull : P VNull) (Hbool : ∀ b, P (VBool b)) (Hint : ∀ i, P (VInt i))
  (Hfloat : ∀ f, P (VFloat f)) (Htext : ∀ s, P (VText s)) (Hbytes : ∀ b, P (VBytes b))
  (Hts : ∀ ms, P (VTimestamp ms)) (Hvec : ∀ v, P (VVector v))
  (Harr : ∀ items, Forall P items → P (VArray items))
  (Hobj : ∀ m, Forall (λ kv, P kv.2) m → P (VObject m)) (v : Value) : P v :=
  let rec := Value_nested_ind P Hnull Hbool Hint Hfloat Htext Hbytes Hts Hvec Harr Hobj in
  match v with
  | VNull => Hnull
  | VBool b => Hbool b
  | VInt i => Hint i
  | VFloat f => Hfloat f
  | VText s => Htext s
  | VBytes b => Hbytes b
  | VTimestamp ms => Hts ms
  | VVector v => Hvec v
  | VArray items => Harr items
      ((fix go (l : list Value) : Forall P l :=
          match l with
          | [] => @List.Forall_nil _ P
          | x :: l' => @List.Forall_cons _ P x l' (rec x) (go l')
          end) items)
  | VObject m => Hobj m
      ((fix go (l : list (string * Value)) : Forall (λ kv, P kv.2) l :=
          match l with
          | [] => @List.Forall_nil _ (λ kv, P kv.2)
          | kv :: l' => @List.Forall_cons _ (λ kv, P kv.2) kv l' (rec kv.2) (go l')
          end) m)
  end.

Definition type_name (v : Value) : string :=
  match v with
  | VNull => "null"
  | VBool _ => "bool"
  | VInt _ => "int"
  | VFloat _ => "float"
  | VText _ => "string"
  | VBytes _ => "bytes"
  | VTimestamp _ => "timestamp"
  | VVector _ => "vector"
  | VArray _ => "array"
  | VObject _ => "document"
  end.

Definition is_null (v : Value) : bool := match v with VNull => true | _ => false end.

(** [iter().max().unwrap_or(0)]. *)
Definition max_or_zero (l : list nat) : nat := fold_right Nat.max 0%nat l.

Fixpoint nesting_depth (v : Value) : nat :=
  match v with
  | VObject m => (1 + max_or_zero (map (λ kv, nesting_depth kv.2) m))%nat
  | VArray items => (1 + max_or_zero (map nesting_depth items))%nat
  | _ => 1%nat
  end.

Fixpoint max_vector_dim (v : Value) : nat :=
  match v with
  | VVector l => length l
  | VObject m => max_or_zero (map (λ kv, max_vector_dim kv.2) m)
  | VArray items => max_or_zero (map max_vector_dim items)
  | _ => 0%nat
  end.

Definition as_text (v : Value) : option string :=
  match v with VText s => Some s | _ => None end.

Definition as_vector (v : Value) : option (list f32) :=
  match v with VVector l => Some l | _ => None end.

Definition as_object (v : Value) : option Document :=
  match v with VObject m => Some m | _ => None end.

Definition as_f64 (v : Value) : option f64 :=
  match v with
  | VInt i => Some (f64_of_i64 i)
  | VFloat f => Some f
  | _ => None
  end.

(** ** Dotted paths *)

(** [str::split_once('.')]. *)
Fixpoint split_once_dot (s : string) : option (string * string) :=
  match s with
  | EmptyString => None
  | String c s' =>
      if Ascii.eqb c "."%char then Some (EmptyString, s')
      else match split_once_dot s' with
           | Some (h, r) => Some (String c h, r)
           | None => None
           end
  end.

(** [str::split('.')]: at least one segment, empty ones kept. *)
Fixpoint split_dot (s : string) : list string :=
  match s with
  | EmptyString => [EmptyString]
  | String c s' =>
      if Ascii.eqb c "."%char then EmptyString :: split_dot s'
      else match split_dot s' with
           | seg :: rest => String c seg :: rest
           | [] => [String c EmptyString]
           end
  end.

Fixpoint walk (current : Value) (segments : list string) : option Value :=
  match segments with
  | [] => Some current
  | segment :: rest =>
      match current with
      | VObject m => match bt_get segment m with
                     | Some next => walk next rest
                     | None => None
                     end
      | _ => None
      end
  end.

Definition get_path (v : Value) (path : string) : option Value := walk v (split_dot path).

(** [Record::get_path] of [record.rs], on the field document. *)
Definition fields_get_path (fields : Document) (path : string) : option Value :=
  let '(head, rest) := match split_once_dot path with
                       | Some (h, r) => (h, Some r)
                       | None => (path, None)
                       end in
  match bt_get head fields with
  | None => None
  | Some value => match rest with
                  | Some rest => get_path value rest
                  | None => Some value
                  end
  end.

(** ** JSON *)

(** [serde_json::Number]. *)
Class JsonNumber := {
  Number : Type;
  num_of_i64 : Z → Number;
  num_of_u64 : N → Number;
  num_from_f64 : f64 → option Number;
  num_as_i64 : Number → option Z;
  num_as_u64 : Number → option N;
  num_as_f64 : Number → option f64;
}.

(** Its documentation: an integer reads back as itself, [from_f64] refuses the
    values JSON cannot hold, and a number built from a float is not an integer. *)
Class JsonNumberLaws `{JsonNumber} : Prop := {
  as_i64_of_i64 : ∀ i, i64_ok i → num_as_i64 (num_of_i64 i) = Some i;
  as_u64_of_u64 : ∀ n, (n <= u64_max)%N → num_as_u64 (num_of_u64 n) = Some n;
  from_f64_finite : ∀ f, float_finite f = true → ∃ n, num_from_f64 f = Some n ∧
    num_as_f64 n = Some f ∧ num_as_i64 n = None;
  from_f64_special : ∀ f, float_finite f = false → num_from_f64 f = None;
}.

Inductive Json `{JsonNumber} :=
| JNull
| JBool (b : bool)
| JNumber (n : Number)
| JString (s : string)
| JArray (items : list Json)
| JObject (map : list (string * Json)).

Section json.
Context `{JsonNumber}.

(** [collect] into an [Option<Vec<_>>]. *)
Fixpoint collect_some {A B} (f : A → option B) (l : list A) : option (list B) :=
  match l with
  | [] => Some []
  | x :: l' => match f x, collect_some f l' with
               | Some y, Some ys => Some (y :: ys)
               | _, _ => None
               end
  end.

Definition json_as_f64 (j : Json) : option f64 :=
  match j with JNumber n => num_as_f64 n | _ => None end.

Definition json_as_u64 (j : Json) : option N :=
  match j with JNumber n => num_as_u64 n | _ => None end.

Definition json_array_to_vector (items : list Json) : option (list f32) :=
  collect_some (λ v, f32_of_f64 <$> json_as_f64 v) items.

(** [u8::try_from]. *)
Definition u8_try_from (n : N) : option byte := Byte.of_N n.

Definition json_array_to_bytes (items : list Json) : option (list byte) :=
  collect_some (λ v, json_as_u64 v ≫= u8_try_from) items.

(** The extension object with a single reserved key. *)
Definition from_json_extension (m : list (string * Json)) : option Value :=
  if negb (length m =? 1)%nat then None
  else
    let vector := match bt_get "$vector" m with
                  | Some (JArray items) => VVector <$> json_array_to_vector items
                  | _ => None
                  end in
    let timestamp := match bt_get "$timestamp" m with
                     | Some (JNumber n) => VTimestamp <$> num_as_i64 n
                     | _ => None
                     end in
    let bytes := match bt_get "$bytes" m with
                 | Some (JArray items) => VBytes <$> json_array_to_bytes items
                 | _ => None
                 end in
    match vector with
    | Some v => Some v
    | None => match timestamp with
              | Some v => Some v
              | None => bytes
              end
    end.

Fixpoint from_json (json : Json) : Value :=
  match json with
  | JNull => VNull
  | JBool b => VBool b
  | JNumber n =>
      match num_as_i64 n with
      | Some i => VInt i
      | None => VFloat (default S754_nan (num_as_f64 n))
      end
  | JString s => VText s
  | JArray items => VArray (map from_json items)
  | JObject m =>
      match from_json_extension m with
      | Some v => v
      | None => VObject (map (λ kv, (kv.1, from_json kv.2)) m)
      end
  end.

Definition number_or_null (n : option Number) : Json :=
  match n with Some n => JNumber n | None => JNull end.

Fixpoint to_json (v : Value) : Json :=
  match v with
  | VNull => JNull
  | VBool b => JBool b
  | VInt i => JNumber (num_of_i64 i)
  | VFloat f => number_or_null (num_from_f64 f)
  | VText s => JString s
  | VBytes b =>
      JObject [("$bytes", JArray (map (λ x, JNumber (num_of_u64 (Byte.to_N x))) b))]
  | VTimestamp ms => JObject [("$timestamp", JNumber (num_of_i64 ms))]
  | VVector l =>
      JObject [("$vector", JArray (map (λ x, number_or_null (num_from_f64 (f64_of_f32 x))) l))]
  | VArray items => JArray (map to_json items)
  | VObject m => JObject (map (λ kv, (kv.1, to_json kv.2)) m)
  end.
End json.

(** ** Paths *)

Lemma split_dot_once s :
  split_dot s = match split_once_dot s with
                | Some (h, r) => h :: split_dot r
                | None => [s]
                end.
Proof.
  induction s as [|c s IH]; [done|]. simpl. destruct (Ascii.eqb c "."); [done|].
  rewrite IH. by destruct (split_once_dot s) as [[h r]|].
Qed.

(** The two path resolvers agree.  Resolving a dotted path on a record (split
    off the first segment, look it up, continue on the value) is resolving it on the
    document as a value. *)
Theorem record_path_is_value_path fields path :
  fields_get_path fields path = get_path (VObject fields) path.
Proof.
  unfold fields_get_path, get_path. rewrite (split_dot_once path).
  destruct (split_once_dot path) as [[h r]|]; simpl; by destruct (bt_get _ fields).
Qed.

Lemma max_or_zero_elem n l : n ∈ l → (n ≤ max_or_zero l)%nat.
Proof. induction 1; simpl; lia. Qed.

Lemma walk_depth segs v w :
  walk v segs = Some w →
  (length segs + nesting_depth w ≤ nesting_depth v)%nat ∧
  (max_vector_dim w ≤ max_vector_dim v)%nat.
Proof.
  revert v. induction segs as [|seg segs IH]; intros v; simpl; [intros [= ->]; lia|].
  destruct v as [| | | | | | | | |m]; try done.
  destruct (bt_get seg m) as [next|] eqn:E; [|done]. intros Hw.
  apply IH in Hw as [H1 H2]. apply bt_get_elem_of in E. simpl.
  pose proof (max_or_zero_elem (nesting_depth next) (map (λ kv, nesting_depth kv.2) m)
    (proj2 (list_elem_of_fmap _ _ _) (ex_intro _ (seg, next) (conj eq_refl E)))).
  pose proof (max_or_zero_elem (max_vector_dim next) (map (λ kv, max_vector_dim kv.2) m)
    (proj2 (list_elem_of_fmap _ _ _) (ex_intro _ (seg, next) (conj eq_refl E)))).
  lia.
Qed.

(** The nesting bound bounds paths.  A path that resolves has fewer segments
    than the nesting depth of the value, and what it resolves to is no deeper and
    holds no wider vector than the value itself, so the limits checked on a record
    hold for everything reachable in it. *)
Theorem get_path_within_bounds v path w :
  get_path v path = Some w →
  (length (split_dot path) + nesting_depth w ≤ nesting_depth v)%nat ∧
  (max_vector_dim w ≤ max_vector_dim v)%nat.
Proof. apply walk_depth. Qed.

Lemma get_path_within_bounds_witness :
  let v := VObject [("a", VObject [("b", VVector [S754_zero false])])] in
  get_path v "a.b" = Some (VVector [S754_zero false]) ∧
  (length (split_dot "a.b") + 1 ≤ nesting_depth v)%nat.
Proof.
  intros v. split; [done|].
  exact (proj1 (get_path_within_bounds v "a.b" (VVector [S754_zero false]) eq_refl)).
Defined.

(** ** JSON round trip *)

(** A vector element that the widening to [f64] and back does not change. *)
Definition f32_safe (x : f32) : bool :=
  (float_finite (f64_of_f32 x) && bool_decide (f32_of_f64 (f64_of_f32 x) = x))%bool.

Definition reserved_key (k : string) : bool :=
  (String.eqb k "$vector" || String.eqb k "$timestamp" || String.eqb k "$bytes")%bool.

(** Documents that cannot be taken for an extension encoding. *)
Definition not_extension {A} (m : list (string * A)) : bool :=
  match m with
  | [(k, _)] => negb (reserved_key k)
  | _ => true
  end.

Definition i64_okb (i : Z) : bool := ((i64_min <=? i) && (i <=? i64_max))%bool.

(** The values JSON can hold: integers in range, finite floats, and no document
    that has one of the reserved keys as its only key. *)
Fixpoint json_safe (v : Value) : bool :=
  match v with
  | VNull | VBool _ | VText _ | VBytes _ => true
  | VInt i => i64_okb i
  | VTimestamp ms => i64_okb ms
  | VFloat f => float_finite f
  | VVector l => forallb f32_safe l
  | VArray items => forallb json_safe items
  | VObject m => (not_extension m && forallb (λ kv, json_safe kv.2) m)%bool
  end.

(** *** The text of a value

    [serde_json] prints a float as the shortest decimal that denotes it.  Reading it back
    is exact only with the feature [float_roundtrip], which [Cargo.toml] does not ask for:
    the parser may then be off in the last place.  Which floats are read back is a property
    of the library, and no law is assumed of it. *)
Class FloatText := {
  f64_reads_back : f64 → bool;
  f32_reads_back : f32 → bool;
}.

(** The parser refuses a text with more than 127 open arrays and objects.  A value is
    printed with at most one more than its nesting, and the batch, the envelope or the dump
    around it opens fewer than twenty. *)
Definition TEXT_NESTING : nat := 100.

(** A vector element is printed widened to [f64]. *)
Fixpoint floats_read_back `{FloatText} (v : Value) : bool :=
  match v with
  | VFloat f => f64_reads_back f
  | VVector l => forallb (λ x, f64_reads_back (f64_of_f32 x)) l
  | VArray items => forallb floats_read_back items
  | VObject m => forallb (λ kv, floats_read_back kv.2) m
  | _ => true
  end.

(** The values that their JSON text keeps. *)
Definition text_safe `{FloatText} (v : Value) : bool :=
  (json_safe v && floats_read_back v && (nesting_depth v <=? TEXT_NESTING)%nat)%bool.

Lemma i64_okb_ok i : i64_okb i = true → i64_ok i.
Proof. unfold i64_okb, i64_ok. rewrite andb_true_iff, !Z.leb_le. done. Qed.

Section roundtrip.
Context `{JsonNumber, !JsonNumberLaws}.

Lemma collect_some_map {A B C} (g : A → B) (f : B → option C) (h : A → C) l :
  Forall (λ a, f (g a) = Some (h a)) l → collect_some f (map g l) = Some (map h l).
Proof. induction 1 as [|a l Ha _ IH]; simpl; [done|]. by rewrite Ha, IH. Qed.

Lemma bytes_roundtrip b :
  json_array_to_bytes (map (λ x, JNumber (num_of_u64 (Byte.to_N x))) b) = Some b.
Proof.
  unfold json_array_to_bytes. rewrite (collect_some_map _ _ id).
  - by rewrite map_id.
  - apply Forall_true. intros x. simpl.
    rewrite as_u64_of_u64 by (pose proof (byte_to_N_lt x); unfold u64_max; lia).
    simpl. unfold u8_try_from. apply Byte.of_to_N.
Qed.

Lemma vector_roundtrip l :
  forallb f32_safe l = true →
  json_array_to_vector (map (λ x, number_or_null (num_from_f64 (f64_of_f32 x))) l) = Some l.
Proof.
  intros Hl. unfold json_array_to_vector. rewrite (collect_some_map _ _ id).
  - by rewrite map_id.
  - apply Forall_forall. intros x Hin. rewrite forallb_forall in Hl.
    apply list_elem_of_In, Hl in Hin as Hx. unfold f32_safe in Hx.
    apply andb_true_iff in Hx as [Hf Hx]. apply bool_decide_eq_true in Hx.
    destruct (from_f64_finite _ Hf) as (n & -> & Hn & _). simpl. rewrite Hn. simpl.
    by rewrite Hx.
Qed.

Lemma extension_none (m : list (string * Value)) :
  not_extension m = true →
  from_json_extension (map (λ kv, (kv.1, to_json kv.2)) m) = None.
Proof.
  intros Hm. unfold from_json_extension. rewrite length_map.
  destruct m as [|[k v] [|kv2 m]]; try done. cbn [not_extension] in Hm.
  apply negb_true_iff in Hm. unfold reserved_key in Hm.
  apply orb_false_iff in Hm as [[Hv Ht]%orb_false_iff Hb].
  assert (Hg : ∀ s (x : Json), String.eqb k s = false → bt_get s [(k, x)] = None).
  { intros s x Hs. cbn [bt_get]. destruct (kcompare s k) eqn:E; try done.
    apply kcompare_eq in E. subst. by rewrite String.eqb_refl in Hs. }
  cbn [map fst snd]. by rewrite !Hg.
Qed.

(** C39: JSON round trip.  A value whose integers are in range, whose floats are
    finite and none of whose documents is shaped like an extension encoding is
    read back exactly from its JSON form, at any nesting. *)
Theorem value_json_roundtrip v : json_safe v = true → from_json (to_json v) = v.
Proof.
  induction v as [|b|i|f|s|b|ms|l|items IH|m IH] using Value_nested_ind; simpl; intros Hs;
    try done.
  - by rewrite as_i64_of_i64 by by apply i64_okb_ok.
  - destruct (from_f64_finite f Hs) as (n & -> & Hf & Hi). simpl. by rewrite Hi, Hf.
  - unfold from_json_extension. simpl. by rewrite bytes_roundtrip.
  - unfold from_json_extension. simpl. by rewrite as_i64_of_i64 by by apply i64_okb_ok.
  - unfold from_json_extension. simpl. by rewrite vector_roundtrip.
  - f_equal. rewrite map_map. rewrite <- (map_id items) at 2. apply map_ext_in.
    intros v Hv. rewrite Forall_forall in IH. apply IH; [by apply list_elem_of_In|].
    rewrite forallb_forall in Hs. by apply Hs.
  - apply andb_true_iff in Hs as [Hne Hs]. rewrite extension_none by done. f_equal.
    rewrite map_map. rewrite <- (map_id m) at 2. apply map_ext_in. intros [k v] Hv. simpl.
    f_equal. rewrite Forall_forall in IH. apply (IH (k, v)); [by apply list_elem_of_In|].
    rewrite forallb_forall in Hs. by apply (Hs (k, v)).
Qed.
End roundtrip.

(** ** A concrete number type *)

Module JsonSample.

Inductive SampleNumber :=
| SPosInt (n : N)
| SNegInt (z : Z)
| SFloat (f : f64).

#[export] Instance sample_number : JsonNumber := {|
Number := SampleNumber;
num_of_i64 i := if 0 <=? i then SPosInt (Z.to_N i) else SNegInt i;
num_of_u64 := SPosInt;
num_from_f64 f := if float_finite f then Some (SFloat f) else None;
num_as_i64 n := match n with
                | SPosInt n => if Z.of_N n <=? i64_max then Some (Z.of_N n) else None
                | SNegInt z => Some z
                | SFloat _ => None
                end;
num_as_u64 n := match n with SPosInt n => Some n | _ => None end;
num_as_f64 n := match n with
                | SPosInt n => Some (f64_of_i64 (Z.of_N n))
                | SNegInt z => Some (f64_of_i64 z)
                | SFloat f => Some f
                end;
|}.

#[export] Instance sample_number_laws : JsonNumberLaws.
Proof.
split; simpl.
- intros i [_ Hi]. destruct (0 <=? i) eqn:E; [|done]. apply Z.leb_le in E.
  rewrite Z2N.id by done. apply Z.leb_le in Hi. by rewrite Hi.
- done.
- intros f ->. eauto.
- by intros f ->.
Qed.

Lemma value_json_roundtrip_witness :
let v := VObject [("name", VText "ada"); ("scores", VArray [VInt (-3); VFloat (S754_zero true)]);
                  ("tag", VVector [f32_of_f64 (f64_of_i64 3)])] in
json_safe v = true ∧ from_json (to_json v) = v.
Proof.
intros v. assert (Hs : json_safe v = true) by by vm_compute.
split; [exact Hs|]. exact (value_json_roundtrip v Hs).
Defined.

End JsonSample.
