(* ===== verification/Core.v ===== *)
(** * Identifiers, errors, schemas and records

    Models the rest of [crates/auradb-core/src] that the engine is built on:
    [error.rs] (the error type, by constructor; message texts are not modelled),
    [ids.rs] (record identifiers and their hexadecimal text), [schema.rs] (schema
    definitions, their validation and the validation of records), [record.rs] and
    [clock.rs]. *)

From Stdlib Require Import Strings.Ascii.
From S2P Require Import Prelude BTree Text Value.

(** ** Errors *)

Inductive Error :=
| EInvalidRequest | EProtocol | EStorage | ECorruption | EConflict | ETransactionTimeout
| ESchemaViolation | EUniqueViolation | ENotFound | EUnsupported | ENotLeader
| EUnauthenticated | EInvalidCredentials | EConfig | EIo | ELimitExceeded | EInternal
| EQueryTimeout.

#[export] Instance Error_eq_dec : EqDecision Error.
Proof. solve_decision. Defined.

(** [ErrorCode::as_str] of [Error::code]: the wire identifier. *)
Definition error_code (e : Error) : string :=
  match e with
  | EInvalidRequest => "invalid_request"
  | EProtocol => "protocol"
  | EStorage => "storage"
  | ECorruption => "corruption"
  | EConflict => "conflict"
  | ETransactionTimeout => "transaction_timeout"
  | ESchemaViolation => "schema_violation"
  | EUniqueViolation => "unique_violation"
  | ENotFound => "not_found"
  | EUnsupported => "unsupported"
  | ENotLeader => "not_leader"
  | EUnauthenticated => "unauthenticated"
  | EInvalidCredentials => "invalid_credentials"
  | EConfig => "config"
  | EIo => "io"
  | ELimitExceeded => "limit_exceeded"
  | EInternal => "internal"
  | EQueryTimeout => "query_timeout"
  end.

Abbreviation Res := (Result Error) (only parsing).

(** ** Record identifiers *)

Local Open Scope N_scope.

Abbreviation RecordId := N (only parsing).
Abbreviation TxnId := N (only parsing).
Abbreviation CollectionId := string (only parsing).

Definition txn_auto : TxnId := 0.

Definition u128_bound : N := 2 ^ 128.

(** A lowercase hexadecimal digit. *)
Definition hex_char (d : N) : byte := byte_of_N (if d <? 10 then 48 + d else 87 + d).

(** [char::to_digit(16)]. *)
Definition hex_value (c : byte) : option N :=
  let v := Byte.to_N c in
  if in_range 48 57 c then Some (v - 48)
  else if in_range 97 102 c then Some (v - 87)
  else if in_range 65 70 c then Some (v - 55)
  else None.

Fixpoint hex_digits (n : nat) (v : N) : list byte :=
  match n with
  | O => []
  | S k => hex_char ((v / 16 ^ N.of_nat k) mod 16) :: hex_digits k v
  end.

(** [format!("{:032x}", id)]. *)
Definition record_id_display (id : RecordId) : list byte := hex_digits 32 id.

(** The digits of [u128::from_str_radix(_, 16)], with its overflow check. *)
Fixpoint parse_hex (l : list byte) (acc : N) : option N :=
  match l with
  | [] => Some acc
  | c :: l' => match hex_value c with
               | None => None
               | Some d => let acc := acc * 16 + d in
                           if acc <? u128_bound then parse_hex l' acc else None
               end
  end.

(** A leading plus is allowed, an empty text is not. *)
Definition from_str_radix16 (l : list byte) : option N :=
  let digits := match l with
                | c :: l' => if Byte.eqb c x2b then l' else l
                | [] => []
                end in
  match digits with
  | [] => None
  | _ => parse_hex digits 0
  end.

Definition dash : byte := x2d.

Definition record_id_from_str (s : list byte) : Res RecordId :=
  let cleaned := filter (λ c, c ≠ dash) s in
  match from_str_radix16 cleaned with
  | Some v => Ok v
  | None => Err EInvalidRequest
  end.

(** ** Schemas *)

Inductive FieldType :=
| FUuid | FString | FInt | FFloat | FBool | FTimestamp | FDocument | FBytes
| FVector (dim : nat).

#[export] Instance FieldType_eq_dec : EqDecision FieldType.
Proof. solve_decision. Defined.

Definition field_type_matches (t : FieldType) (v : Value) : bool :=
  match t, v with
  | _, VNull => true
  | FUuid, VText _ => true
  | FString, VText _ => true
  | FInt, VInt _ => true
  | FFloat, VFloat _ => true
  | FFloat, VInt _ => true
  | FBool, VBool _ => true
  | FTimestamp, VTimestamp _ => true
  | FTimestamp, VInt _ => true
  | FDocument, VObject _ => true
  | FBytes, VBytes _ => true
  | FVector dim, VVector l => (length l =? dim)%nat
  | _, _ => false
  end.

(** [FieldType::validate]; both failures are schema violations. *)
Definition field_type_validate (t : FieldType) (v : Value) : Res unit :=
  if field_type_matches t v then Ok tt else Err ESchemaViolation.

Inductive OnDelete := Restrict | SetNull.
Inductive Cardinality := ToOne | ToMany.

#[export] Instance OnDelete_eq_dec : EqDecision OnDelete.
Proof. solve_decision. Defined.

Record Relationship := mkRel {
  rel_name : string;
  rel_target : string;
  rel_cardinality : Cardinality;
  rel_on_delete : OnDelete;
}.

Record FieldDef := mkField {
  fd_name : string;
  fd_type : FieldType;
  fd_primary_key : bool;
  fd_unique : bool;
  fd_nullable : bool;
  fd_indexed : bool;
}.

(** [FieldDef::new]. *)
Definition field_new (name : string) (t : FieldType) : FieldDef :=
  mkField name t false false true false.

Inductive IndexKind := DocumentPath | FullText.

Record IndexDef := mkIndex {
  ix_path : string;
  ix_kind : IndexKind;
}.

Record CollectionSchema := mkSchema {
  cs_name : string;
  cs_fields : list FieldDef;
  cs_relationships : list Relationship;
  cs_indexes : list IndexDef;
}.

Definition document_path_indexes (s : CollectionSchema) : list string :=
  omap (λ i, match ix_kind i with DocumentPath => Some (ix_path i) | FullText => None end)
    (cs_indexes s).

Definition full_text_indexes (s : CollectionSchema) : list string :=
  omap (λ i, match ix_kind i with FullText => Some (ix_path i) | DocumentPath => None end)
    (cs_indexes s).

Definition schema_primary_key (s : CollectionSchema) : option FieldDef :=
  find fd_primary_key (cs_fields s).

Definition schema_field (s : CollectionSchema) (name : string) : option FieldDef :=
  find (λ f, String.eqb (fd_name f) name) (cs_fields s).

Definition schema_relationship (s : CollectionSchema) (name : string) : option Relationship :=
  find (λ r, String.eqb (rel_name r) name) (cs_relationships s).

(** [text.trim().is_empty()]. *)
Definition blank (s : string) : bool :=
  match trim (bytes_of s) with [] => true | _ => false end.

Definition validate_index (s : CollectionSchema) (index : IndexDef) : Res unit :=
  if blank (ix_path index) then Err ESchemaViolation
  else
    let segments := split_dot (ix_path index) in
    if existsb (String.eqb EmptyString) segments then Err ESchemaViolation
    else
      let root := List.hd EmptyString segments in
      match schema_field s root with
      | None => Err ESchemaViolation
      | Some field =>
          match ix_kind index with
          | DocumentPath =>
              if ((1 <? length segments)%nat && negb (bool_decide (fd_type field = FDocument)))%bool
              then Err ESchemaViolation else Ok tt
          | FullText =>
              if negb (length segments =? 1)%nat then Err ESchemaViolation
              else if negb (bool_decide (fd_type field = FString)) then Err ESchemaViolation
              else Ok tt
          end
      end.

(** A [for] loop whose body may return early with an error. *)
Fixpoint for_each {E A} (body : A → Result E unit) (l : list A) : Result E unit :=
  match l with
  | [] => Ok tt
  | x :: l' => let? _ := body x in for_each body l'
  end.

Definition validate_definition (s : CollectionSchema) : Res unit :=
  if blank (cs_name s) then Err ESchemaViolation
  else if (1 <? length (filter (λ f, fd_primary_key f = true) (cs_fields s)))%nat
  then Err ESchemaViolation
  else
    let? _ := for_each (λ rel, match schema_field s (rel_name rel) with
                               | Some _ => Err ESchemaViolation
                               | None => Ok tt
                               end) (cs_relationships s) in
    for_each (validate_index s) (cs_indexes s).

Definition validate_field (fields : Document) (def : FieldDef) : Res unit :=
  match bt_get (fd_name def) fields with
  | None | Some VNull =>
      if negb (fd_nullable def) then Err ESchemaViolation
      else if fd_primary_key def then Err ESchemaViolation
      else Ok tt
  | Some value => field_type_validate (fd_type def) value
  end.

Definition validate_relationship (fields : Document) (rel : Relationship) : Res unit :=
  match bt_get (rel_name rel) fields with
  | None => Ok tt
  | Some value =>
      match rel_cardinality rel, value with
      | _, VNull => Ok tt
      | ToOne, VText _ => Ok tt
      | ToMany, VArray items =>
          for_each (λ item, match item with VText _ => Ok tt | _ => Err ESchemaViolation end) items
      | _, _ => Err ESchemaViolation
      end
  end.

Definition validate_record (s : CollectionSchema) (fields : Document) : Res unit :=
  let? _ := for_each (validate_field fields) (cs_fields s) in
  for_each (validate_relationship fields) (cs_relationships s).

(** ** Records *)

Record Rec := mkRec {
  rec_id : RecordId;
  rec_collection : CollectionId;
  rec_fields : Document;
  rec_version : N;
  rec_created_txn : TxnId;
}.

(** [Record::new]. *)
Definition record_new (id : RecordId) (collection : CollectionId) (fields : Document) : Rec :=
  mkRec id collection fields 1 txn_auto.

Definition record_get (r : Rec) (field : string) : option Value := bt_get field (rec_fields r).

Definition record_get_path (r : Rec) (path : string) : option Value :=
  fields_get_path (rec_fields r) path.

(** ** Loops that return early *)

Lemma for_each_ok {E A} (body : A → Result E unit) l :
  for_each body l = Ok tt ↔ Forall (λ x, body x = Ok tt) l.
Proof.
  induction l as [|x l IH]; simpl; [done|]. rewrite Forall_cons, <- IH.
  destruct (body x) as [[]|e]; simpl; naive_solver.
Qed.

Lemma for_each_err {E A} (body : A → Result E unit) l e :
  for_each body l = Err e → ∃ x, x ∈ l ∧ body x = Err e.
Proof.
  induction l as [|x l IH]; simpl; [done|]. destruct (body x) as [[]|e'] eqn:Eb; simpl.
  - intros (y & Hy & Hb)%IH. exists y. split; [by right|done].
  - intros [= <-]. exists x. split; [by left|done].
Qed.

(** ** Hexadecimal identifiers *)

Lemma hex_value_char d : d < 16 → hex_value (hex_char d) = Some d.
Proof.
  intros Hd. rewrite <- (N2Nat.id d) in *. generalize (N.to_nat d) Hd. clear. intros n Hn.
  do 16 (destruct n as [|n]; [by vm_compute|]). lia.
Qed.

Lemma hex_char_facts d :
  d < 16 → hex_char d ≠ dash ∧ Byte.eqb (hex_char d) x2b = false.
Proof.
  intros Hd. rewrite <- (N2Nat.id d) in *. generalize (N.to_nat d) Hd. clear. intros n Hn.
  do 16 (destruct n as [|n]; [by vm_compute|]). lia.
Qed.

Lemma parse_hex_digits n v acc :
  acc < 16 ^ (32 - N.of_nat n) → (n ≤ 32)%nat →
  parse_hex (hex_digits n v) acc = Some (acc * 16 ^ N.of_nat n + v mod 16 ^ N.of_nat n).
Proof.
  revert acc. induction n as [|n IH]; intros acc Hacc Hn.
  - simpl. rewrite N.mod_1_r. f_equal. lia.
  - cbn [hex_digits parse_hex].
    assert (Hd : (v / 16 ^ N.of_nat n) mod 16 < 16) by by apply N.mod_upper_bound.
    rewrite hex_value_char by done. set (d := (v / 16 ^ N.of_nat n) mod 16) in *.
    assert (Hnext : acc * 16 + d < 16 ^ (32 - N.of_nat n)).
    { replace (32 - N.of_nat n) with (N.succ (32 - N.of_nat (S n))) by lia.
      rewrite N.pow_succ_r'. lia. }
    assert (16 ^ (32 - N.of_nat n) <= u128_bound).
    { change u128_bound with (16 ^ 32). apply N.pow_le_mono_r; lia. }
    cbv zeta. case_if; bool_to_prop; [|lia].
    rewrite IH by (done || lia). f_equal.
    replace (N.of_nat (S n)) with (N.succ (N.of_nat n)) by lia.
    rewrite N.pow_succ_r', (N.mul_comm 16 (16 ^ _)), N.Div0.mod_mul_r. fold d. lia.
Qed.

Lemma parse_hex_bound l acc v :
  acc < u128_bound → parse_hex l acc = Some v → v < u128_bound.
Proof.
  revert acc. induction l as [|c l IH]; intros acc Ha; simpl; [by intros [= <-]|].
  destruct (hex_value c); [|done]. case_if; [|done]. bool_to_prop. eauto.
Qed.

(** Identifier round trip.  The text of a record id, in plain or in dashed form
    (dashes anywhere), is parsed back to the id. *)
Theorem record_id_roundtrip id s :
  id < u128_bound → filter (λ c, c ≠ dash) s = record_id_display id →
  record_id_from_str s = Ok id.
Proof.
  intros Hid Hs. unfold record_id_from_str. rewrite Hs. unfold record_id_display.
  assert (Hl : ∃ c l', hex_digits 32 id = c :: l' ∧ Byte.eqb c x2b = false).
  { eexists _, _. split; [done|]. apply hex_char_facts. by apply N.mod_upper_bound. }
  destruct Hl as (c & l' & Hl & Hc).
  assert (Hr : from_str_radix16 (hex_digits 32 id) = parse_hex (hex_digits 32 id) 0)
    by (rewrite Hl; unfold from_str_radix16; by rewrite Hc).
  rewrite Hr, parse_hex_digits; [|by vm_compute|lia].
  change (16 ^ N.of_nat 32) with u128_bound. by rewrite N.mod_small.
Qed.

Lemma record_id_roundtrip_witness :
  record_id_from_str (bytes_of "00000000-0000-0000-0000-0000000000ff") = Ok 255.
Proof.
  apply (record_id_roundtrip 255 (bytes_of "00000000-0000-0000-0000-0000000000ff")).
  - by vm_compute.
  - by vm_compute.
Defined.

Lemma record_id_from_str_bound s id : record_id_from_str s = Ok id → id < u128_bound.
Proof.
  unfold record_id_from_str. destruct (from_str_radix16 _) as [v|] eqn:E; [|done].
  intros [= <-]. unfold from_str_radix16 in E. cbv zeta in E.
  destruct (match filter _ s with [] => _ | _ => _ end) in E; [done|].
  by eapply parse_hex_bound in E.
Qed.

(** ** What validation promises *)

(** The shape a declared type asks of a value that is present. *)
Inductive has_type : FieldType → Value → Prop :=
| ht_uuid s : has_type FUuid (VText s)
| ht_string s : has_type FString (VText s)
| ht_int i : has_type FInt (VInt i)
| ht_float f : has_type FFloat (VFloat f)
| ht_float_int i : has_type FFloat (VInt i)
| ht_bool b : has_type FBool (VBool b)
| ht_timestamp ms : has_type FTimestamp (VTimestamp ms)
| ht_timestamp_int i : has_type FTimestamp (VInt i)
| ht_document m : has_type FDocument (VObject m)
| ht_bytes b : has_type FBytes (VBytes b)
| ht_vector l : has_type (FVector (length l)) (VVector l).

Lemma field_type_matches_spec t v :
  field_type_matches t v = true ↔ v = VNull ∨ has_type t v.
Proof.
  split.
  - destruct t, v; simpl; intros Hm; try done; try (by left); right; try by constructor.
    apply Nat.eqb_eq in Hm as <-. constructor.
  - intros [->|Ht]; [by destruct t|]. destruct Ht; simpl; try done. apply Nat.eqb_refl.
Qed.

(** Null and absent are the same to a record. *)
Definition present (fields : Document) (name : string) (v : Value) : Prop :=
  bt_get name fields = Some v ∧ v ≠ VNull.

Definition record_conforms (s : CollectionSchema) (fields : Document) : Prop :=
  (∀ def, def ∈ cs_fields s →
     (∀ v, present fields (fd_name def) v → has_type (fd_type def) v) ∧
     (fd_nullable def = false ∨ fd_primary_key def = true →
        ∃ v, present fields (fd_name def) v)) ∧
  (∀ rel v, rel ∈ cs_relationships s → present fields (rel_name rel) v →
     match rel_cardinality rel with
     | ToOne => ∃ t, v = VText t
     | ToMany => ∃ ts, v = VArray (VText <$> ts)
     end).

Lemma validate_field_spec fields def :
  validate_field fields def = Ok tt ↔
  (∀ v, present fields (fd_name def) v → has_type (fd_type def) v) ∧
  (fd_nullable def = false ∨ fd_primary_key def = true → ∃ v, present fields (fd_name def) v).
Proof.
  unfold validate_field, present.
  assert (Habs : (bt_get (fd_name def) fields = None ∨
                  bt_get (fd_name def) fields = Some VNull) →
    (if negb (fd_nullable def) then Err ESchemaViolation
     else if fd_primary_key def then Err ESchemaViolation else Ok tt) = Ok tt ↔
    (∀ v, bt_get (fd_name def) fields = Some v ∧ v ≠ VNull → has_type (fd_type def) v) ∧
    (fd_nullable def = false ∨ fd_primary_key def = true →
       ∃ v, bt_get (fd_name def) fields = Some v ∧ v ≠ VNull)).
  { intros Hg. assert (¬ ∃ v, bt_get (fd_name def) fields = Some v ∧ v ≠ VNull)
      by (destruct Hg as [-> | ->]; naive_solver).
    destruct (fd_nullable def), (fd_primary_key def); simpl; naive_solver. }
  destruct (bt_get (fd_name def) fields) as [v|]; [|by apply Habs; left].
  destruct (decide (is_null v = true)) as [Hn|Hn].
  { destruct v; try done. apply Habs. by right. }
  assert (Hv : v ≠ VNull) by (by intros ->).
  assert (Heq : (if field_type_matches (fd_type def) v then Ok tt else Err ESchemaViolation)
                = @Ok Error unit tt ↔ has_type (fd_type def) v).
  { pose proof (field_type_matches_spec (fd_type def) v) as Hs.
    destruct (field_type_matches _ v); naive_solver. }
  destruct v; try done; unfold field_type_validate; rewrite Heq; naive_solver.
Qed.

Lemma texts_spec items :
  for_each (λ item, match item with VText _ => Ok tt | _ => Err ESchemaViolation end) items
    = @Ok Error unit tt ↔ ∃ ts, items = VText <$> ts.
Proof.
  rewrite for_each_ok. split.
  - induction 1 as [|x l Hx _ [ts ->]]; [by exists []|].
    destruct x as [| | | |t| | | | |]; try done. by exists (t :: ts).
  - intros [ts ->]. apply Forall_fmap, Forall_true. done.
Qed.

Lemma validate_relationship_spec fields rel :
  validate_relationship fields rel = Ok tt ↔
  (∀ v, present fields (rel_name rel) v →
     match rel_cardinality rel with
     | ToOne => ∃ t, v = VText t
     | ToMany => ∃ ts, v = VArray (VText <$> ts)
     end).
Proof.
  unfold validate_relationship, present.
  destruct (bt_get (rel_name rel) fields) as [v|]; [|naive_solver].
  destruct (rel_cardinality rel), v as [| | | |t| | | |items|]; try naive_solver.
  rewrite texts_spec. split; [naive_solver|]. intros Hv.
  destruct (Hv (VArray items)) as [ts [= ->]]; eauto.
Qed.

(** C40: record validation.  [validate_record] accepts a document exactly when every
    present field has its declared type, every required field and the primary key
    are present, and every present link is a record-id string (or an array of them
    for a to-many link). *)
Theorem validate_record_spec s fields :
  validate_record s fields = Ok tt ↔ record_conforms s fields.
Proof.
  unfold validate_record, record_conforms.
  assert (Hb : (let? _ := for_each (validate_field fields) (cs_fields s) in
     for_each (validate_relationship fields) (cs_relationships s)) = @Ok Error unit tt ↔
    for_each (validate_field fields) (cs_fields s) = Ok tt ∧
    for_each (validate_relationship fields) (cs_relationships s) = Ok tt).
  { destruct (for_each (validate_field fields) _) as [[]|]; simpl; naive_solver. }
  rewrite Hb, !for_each_ok, !Forall_forall.
  setoid_rewrite validate_field_spec. setoid_rewrite validate_relationship_spec.
  naive_solver.
Qed.

(** Schema definitions.  An accepted definition has at most one primary key, no
    link that shadows a field, and indexes whose paths are rooted in a declared
    field of the right type: a document for a nested path, a string for full text. *)
Theorem validate_definition_spec s :
  validate_definition s = Ok tt →
  (length (filter (λ f, fd_primary_key f = true) (cs_fields s)) ≤ 1)%nat ∧
  (∀ rel f, rel ∈ cs_relationships s → f ∈ cs_fields s → fd_name f ≠ rel_name rel) ∧
  (∀ ix, ix ∈ cs_indexes s →
     ∃ root rest f, split_dot (ix_path ix) = root :: rest ∧ f ∈ cs_fields s ∧
       fd_name f = root ∧ Forall (λ seg, seg ≠ EmptyString) (root :: rest) ∧
       match ix_kind ix with
       | DocumentPath => rest ≠ [] → fd_type f = FDocument
       | FullText => rest = [] ∧ fd_type f = FString
       end).
Proof.
  unfold validate_definition. case_if; [done|]. case_if; [done|]. bool_to_prop.
  intros Hv. destruct (for_each _ (cs_relationships s)) as [[]|] eqn:Hrel; [|done].
  simpl in Hv. rewrite for_each_ok, Forall_forall in Hrel.
  rewrite for_each_ok, Forall_forall in Hv. split; [lia|]. split.
  - intros rel f Hr Hf Hname. specialize (Hrel rel Hr).
    destruct (schema_field s (rel_name rel)) as [g|] eqn:E; [done|].
    unfold schema_field in E. rewrite list_elem_of_In in Hf.
    apply (find_none _ _ E) in Hf. simpl in Hf. by rewrite Hname, String.eqb_refl in Hf.
  - intros ix Hix. specialize (Hv ix Hix). unfold validate_index in Hv.
    destruct (blank (ix_path ix)); [done|]. destruct (existsb _ _) eqn:Hempty; [done|].
    assert (Hsegs : Forall (λ seg, seg ≠ EmptyString) (split_dot (ix_path ix))).
    { apply Forall_forall. intros seg Hin ->. rewrite list_elem_of_In in Hin.
      assert (existsb (String.eqb EmptyString) (split_dot (ix_path ix)) = true) as Hex
        by (apply existsb_exists; eauto using String.eqb_refl). congruence. }
    destruct (split_dot (ix_path ix)) as [|root rest] eqn:Es.
    { exfalso. rewrite split_dot_once in Es. by destruct (split_once_dot _) as [[]|]. }
    simpl in Hv. destruct (schema_field s root) as [f|] eqn:Ef; [|done].
    unfold schema_field in Ef. apply find_some in Ef as [Hf Hn%String.eqb_eq].
    exists root, rest, f. rewrite list_elem_of_In. split_and!; try done.
    destruct (ix_kind ix).
    + intros Hne. destruct rest; [done|]. simpl in Hv.
      destruct (bool_decide (fd_type f = FDocument)) eqn:Hd; [|done]. by bool_to_prop.
    + destruct rest; [|done]. simpl in Hv.
      destruct (bool_decide (fd_type f = FString)) eqn:Hd; [|done]. by bool_to_prop.
Qed.

Lemma validate_definition_spec_witness :
  let s := mkSchema "docs" [mkField "id" FUuid true false false false; field_new "body" FDocument]
             [mkRel "owner" "users" ToOne Restrict] [mkIndex "body.title" DocumentPath] in
  validate_definition s = Ok tt ∧
  (length (filter (λ f, fd_primary_key f = true) (cs_fields s)) ≤ 1)%nat.
Proof.
  intros s. assert (Hv : validate_definition s = Ok tt) by by vm_compute.
  split; [exact Hv|]. exact (proj1 (validate_definition_spec s Hv)).
Defined.

(** ** The logical clock

    Models [crates/auradb-core/src/clock.rs] as threads over one shared atomic: a
    [tick] is one atomic [fetch_add], an [observe] is a load followed by a
    compare-and-exchange loop, one atomic access per step, so that any interleaving
    of the accesses is a run.  The counter is a [u64] that wraps. *)

(** Where a thread is inside a call. *)
Inductive ClockThread :=
| Idle
| Observing (observed current : N)
| Observed (observed : N).

Record ClockState := mkClock {
  clk_next : N;
  clk_threads : list ClockThread;
  clk_issued : list N;
}.

(** [LogicalClock::new]. *)
Definition clock_new (start : N) (threads : nat) : ClockState :=
  mkClock start (replicate threads Idle) [].

(** [tick]: the counter before the increment is returned (and logged). *)
Definition clock_tick (s : ClockState) : ClockState :=
  mkClock (wrap64 (clk_next s + 1)) (clk_threads s) (clk_issued s ++ [clk_next s]).

Definition set_thread (i : nat) (t : ClockThread) (s : ClockState) : ClockState :=
  mkClock (clk_next s) (<[i := t]> (clk_threads s)) (clk_issued s).

(** The load that starts [observe]. *)
Definition observe_load (i : nat) (observed : N) (s : ClockState) : ClockState :=
  set_thread i (Observing observed (clk_next s)) s.

(** One pass of the loop: done when the value read is past [observed], otherwise a
    compare-and-exchange that either installs [observed + 1] or reloads. *)
Definition observe_loop (i : nat) (observed current : N) (s : ClockState) : ClockState :=
  if current <=? observed then
    if clk_next s =? current
    then set_thread i (Observed observed)
           (mkClock (wrap64 (observed + 1)) (clk_threads s) (clk_issued s))
    else set_thread i (Observing observed (clk_next s)) s
  else set_thread i (Observed observed) s.

Inductive clock_step : ClockState → ClockState → Prop :=
| cs_tick s i t : clk_threads s !! i = Some t → (∀ o c, t ≠ Observing o c) →
    clk_next s < u64_max → clock_step s (clock_tick s)
| cs_load s i t o : clk_threads s !! i = Some t → (∀ o c, t ≠ Observing o c) →
    o < u64_max → clock_step s (observe_load i o s)
| cs_loop s i o c : clk_threads s !! i = Some (Observing o c) →
    clock_step s (observe_loop i o c s).

(** What a thread knows of the counter. *)
Definition thread_ok (n : N) (t : ClockThread) : Prop :=
  match t with
  | Idle => True
  | Observing o c => o < u64_max ∧ c <= n
  | Observed o => o < n
  end.

(** What holds in every reachable state, below the wrap. *)
Definition clock_inv (s : ClockState) : Prop :=
  StronglySorted N.lt (clk_issued s) ∧
  Forall (λ v, v < clk_next s) (clk_issued s) ∧
  Forall (thread_ok (clk_next s)) (clk_threads s).

Lemma sorted_snoc (l : list N) v :
  StronglySorted N.lt l → Forall (λ u, u < v) l → StronglySorted N.lt (l ++ [v]).
Proof.
  induction 1 as [|x l Hs IH Hx]; intros Hf; simpl; [repeat constructor|].
  apply Forall_cons in Hf as [Hxv Hf]. constructor; [auto|].
  apply Forall_app. split; [done|]. by repeat constructor.
Qed.

(** Raising the counter keeps what the threads know. *)
Lemma threads_raise (l : list ClockThread) n n' :
  n <= n' → Forall (thread_ok n) l → Forall (thread_ok n') l.
Proof. intros Hn Hl. eapply Forall_impl; [exact Hl|]. intros []; simpl; lia. Qed.

Lemma wrap64_small v : v <= u64_max → wrap64 v = v.
Proof. unfold u64_max, wrap64. intros. apply N.mod_small. lia. Qed.

Lemma clock_step_inv s s' :
  clock_inv s → clock_step s s' → clock_inv s' ∧ clk_next s <= clk_next s'.
Proof.
  intros (Hs & Hi & Ht) Hstep. destruct Hstep as [s i t Hl _ Hn|s i t o Hl _ Ho|s i o c Hl].
  - unfold clock_tick, clock_inv. simpl. rewrite wrap64_small by lia.
    split_and!; [by apply sorted_snoc| |eapply (threads_raise _ (clk_next s)); [lia|done]|lia].
    apply Forall_app. split; [|repeat constructor; lia].
    eapply Forall_impl; [exact Hi|]. intros v. simpl. lia.
  - unfold observe_load, clock_inv. simpl. split_and!; try done; try lia.
    apply Forall_insert; [done|]. split; [done|lia].
  - pose proof (Forall_lookup_1 _ _ _ _ Ht Hl) as [Ho Hc].
    unfold observe_loop. repeat case_if; bool_to_prop; unfold clock_inv; simpl.
    + rewrite wrap64_small by lia. split_and!; try done; try lia.
      * eapply Forall_impl; [exact Hi|]. intros v. simpl. lia.
      * apply Forall_insert; [|simpl; lia]. eapply (threads_raise _ (clk_next s)); [lia|done].
    + split_and!; try done; try lia. apply Forall_insert; [done|]. split; [done|lia].
    + split_and!; try done; try lia. apply Forall_insert; [done|simpl; lia].
Qed.

Lemma clock_steps_inv s s' :
  clock_inv s → rtc clock_step s s' → clock_inv s' ∧ clk_next s <= clk_next s'.
Proof.
  intros Hinv Hr. induction Hr as [s|s1 s2 s3 Hstep _ IH]; [split; [done|lia]|].
  destruct (clock_step_inv _ _ Hinv Hstep) as [Hinv2 Hle].
  destruct (IH Hinv2) as [Hinv3 Hle2]. split; [done|lia].
Qed.

Lemma clock_new_inv start threads : clock_inv (clock_new start threads).
Proof.
  split_and!; simpl; try by constructor. by apply Forall_replicate.
Qed.

(** The logical clock under any interleaving of its threads.  Values handed out
    by [tick] are strictly increasing in the order of the increments, hence unique,
    and once an [observe] of a value has returned, no later tick returns a value at
    or below it. *)
Theorem clock_interleavings start threads s1 s2 i o :
  rtc clock_step (clock_new start threads) s1 → rtc clock_step s1 s2 →
  clk_threads s1 !! i = Some (Observed o) →
  StronglySorted N.lt (clk_issued s2) ∧
  ∀ s3, clock_step s2 s3 → clk_issued s3 = clk_issued s2 ∨
    ∃ v, clk_issued s3 = clk_issued s2 ++ [v] ∧ o < v.
Proof.
  intros H1 H2 Hi.
  destruct (clock_steps_inv _ _ (clock_new_inv start threads) H1) as [Hinv1 _].
  destruct (clock_steps_inv _ _ Hinv1 H2) as [Hinv2 Hle]. split; [apply Hinv2|].
  pose proof (Forall_lookup_1 _ _ _ _ (proj2 (proj2 Hinv1)) Hi) as Ho. simpl in Ho.
  intros s3 Hstep. destruct Hstep as [s j t Hl _ Hn|s j t o' Hl _ Ho'|s j o' c Hl].
  - right. exists (clk_next s). split; [done|lia].
  - by left.
  - left. unfold observe_loop. by repeat case_if.
Qed.

Lemma clock_interleavings_witness :
  let s := observe_loop 0 41 7 (observe_load 0 41 (clock_new 7 2)) in
  clk_threads s !! 0%nat = Some (Observed 41) ∧ clk_next s = 42 ∧
  ∀ s3, clock_step s s3 → clk_issued s3 = [] ∨ ∃ v, clk_issued s3 = [v] ∧ 41 < v.
Proof.
  intros s. split; [done|]. split; [done|].
  assert (Hr : rtc clock_step (clock_new 7 2) s).
  { eapply rtc_l; [by eapply (cs_load _ 0 Idle 41)|]. apply rtc_once. by apply cs_loop. }
  exact (proj2 (clock_interleavings 7 2 s s 0 41 Hr (rtc_refl _ _) eq_refl)).
Defined.
