(* ===== verification/Rank.v ===== *)
(** * Ranking by score

    Ranked results are ordered by score descending with ties broken by record id
    ascending, in the exact vector search, the text searches, the fusion of the two and
    the executor.  Scores are [f32]s; [partial_cmp] of a NaN is [None], which every
    caller reads as [Equal].  Without NaN scores and with distinct ids the order is
    total. *)

From Stdlib Require Import Floats.SpecFloat.
From S2P Require Import Prelude Sorting BTree Value Core.

(** [f32] arithmetic. *)
Definition f32_zero : f32 := S754_zero false.
Definition f32_one : f32 := S754_finite false 8388608 (-23).
Definition f32_add : f32 → f32 → f32 := SFadd f32_prec f32_emax.
Definition f32_mul : f32 → f32 → f32 := SFmul f32_prec f32_emax.
Definition f32_sub : f32 → f32 → f32 := SFsub f32_prec f32_emax.
Definition f32_div : f32 → f32 → f32 := SFdiv f32_prec f32_emax.
Definition f32_sqrt : f32 → f32 := SFsqrt f32_prec f32_emax.

(** [n as f32] for an unsigned integer. *)
Definition f32_of_N (n : N) : f32 := binary_normalize f32_prec f32_emax (Z.of_N n) 0 false.

(** [f32::max] and [f32::min]: a NaN gives way to the other operand. *)
Definition f32_max (x y : f32) : f32 :=
  match x, y with
  | S754_nan, _ => y
  | _, S754_nan => x
  | _, _ => if SFltb x y then y else x
  end.
Definition f32_min (x y : f32) : f32 :=
  match x, y with
  | S754_nan, _ => y
  | _, S754_nan => x
  | _, _ => if SFltb y x then y else x
  end.

(** [Iterator::sum] of floats starts at negative zero. *)
Definition f32_sum (l : list f32) : f32 := foldl f32_add (S754_zero true) l.

(** [Ordering::then]. *)
Definition then_cmp (c d : comparison) : comparison := match c with Eq => d | _ => c end.

(** [b.score.partial_cmp(&a.score).unwrap_or(Equal).then(a.id.cmp(&b.id))]. *)
Definition ranked_cmp {A} (score : A → f32) (id : A → N) (a b : A) : comparison :=
  then_cmp (default Eq (SFcompare (score b) (score a))) (id a ?= id b)%N.

(** ** The order is total *)

(** The position of a float that is not a NaN, compared lexicographically. *)
Definition float_key (x : spec_float) : Z * Z * Z :=
  (match x with
   | S754_zero _ | S754_nan => (0, 0, 0)
   | S754_infinity s => ((if s then -2 else 2), 0, 0)
   | S754_finite s m e => if s then (-1, - e, - Z.pos m) else (1, e, Z.pos m)
   end)%Z.

Definition key_lt (a b : Z * Z * Z) : Prop :=
  (a.1.1 < b.1.1 ∨ a.1.1 = b.1.1 ∧ (a.1.2 < b.1.2 ∨ a.1.2 = b.1.2 ∧ a.2 < b.2))%Z.

Lemma SFcompare_key x y :
  x ≠ S754_nan → y ≠ S754_nan →
  match SFcompare x y with
  | Some Lt => key_lt (float_key x) (float_key y)
  | Some Eq => float_key x = float_key y
  | Some Gt => key_lt (float_key y) (float_key x)
  | None => False
  end.
Proof.
  unfold key_lt. intros Hx Hy.
  destruct x as [[]|[]| |[] m1 e1], y as [[]|[]| |[] m2 e2]; try done; simpl; try lia.
  all: change (Pos.compare_cont Eq m1 m2) with (Pos.compare m1 m2);
    destruct (Z.compare_spec e1 e2); simpl; [|lia|lia]; subst;
    destruct (Pos.compare_spec m1 m2); simpl; subst; try done; lia.
Qed.

Section ranked.
Context {A : Type} (score : A → f32) (id : A → N).

(** The rank order as one lexicographic order. *)
Definition rank_before (a b : A) : Prop :=
  key_lt (float_key (score b)) (float_key (score a)) ∨
  float_key (score a) = float_key (score b) ∧ (id a < id b)%N.

Lemma ranked_cmp_spec a b :
  score a ≠ S754_nan → score b ≠ S754_nan →
  match ranked_cmp score id a b with
  | Lt => rank_before a b
  | Eq => float_key (score a) = float_key (score b) ∧ id a = id b
  | Gt => rank_before b a
  end.
Proof.
  intros Ha Hb. unfold ranked_cmp, rank_before. pose proof (SFcompare_key _ _ Hb Ha) as Hk.
  destruct (SFcompare (score b) (score a)) as [[]|]; simpl in *; [|auto|auto|done].
  destruct (N.compare_spec (id a) (id b)); naive_solver.
Qed.

Lemma rank_before_asym a b : rank_before a b → ¬ rank_before b a.
Proof.
  unfold rank_before, key_lt. destruct (float_key (score a)) as [[? ?] ?],
    (float_key (score b)) as [[? ?] ?]. simpl. intros [?|[[= -> -> ->] ?]] [?|[[=] ?]]; lia.
Qed.

Lemma rank_before_same a b :
  float_key (score a) = float_key (score b) ∧ id a = id b →
  ¬ rank_before a b ∧ ¬ rank_before b a.
Proof. unfold rank_before, key_lt. intros [-> ->]. lia. Qed.

Lemma rank_before_trans a b c : rank_before a b → rank_before b c → rank_before a c.
Proof.
  unfold rank_before, key_lt. destruct (float_key (score a)) as [[x1 y1] z1],
    (float_key (score b)) as [[x2 y2] z2], (float_key (score c)) as [[x3 y3] z3]. simpl.
  intros [?|[[= -> -> ->] ?]] [?|[[= -> -> ->] ?]].
  - left. lia.
  - by left.
  - by left.
  - right. split; [done|]. lia.
Qed.

(** On elements with distinct ids and without NaN scores the rank order is total. *)
Lemma ranked_cmp_total (l : list A) :
  NoDup (id <$> l) → Forall (λ n, score n ≠ S754_nan) l → total_on (ranked_cmp score id) (.∈ l).
Proof.
  intros Hnd Hnan. rewrite Forall_forall in Hnan. split.
  - intros a b Ha Hb. pose proof (ranked_cmp_spec a b (Hnan a Ha) (Hnan b Hb)) as H1.
    pose proof (ranked_cmp_spec b a (Hnan b Hb) (Hnan a Ha)) as H2.
    pose proof (rank_before_asym a b) as H3. pose proof (rank_before_same a b) as H4.
    pose proof (rank_before_same b a) as H5. destruct (ranked_cmp score id a b), (ranked_cmp score id b a); tauto.
  - intros a b c Ha Hb Hc. unfold cmp_lt.
    pose proof (ranked_cmp_spec a b (Hnan a Ha) (Hnan b Hb)) as H1.
    pose proof (ranked_cmp_spec b c (Hnan b Hb) (Hnan c Hc)) as H2.
    pose proof (ranked_cmp_spec a c (Hnan a Ha) (Hnan c Hc)) as H3.
    intros Hab Hbc. rewrite Hab in H1. rewrite Hbc in H2.
    pose proof (rank_before_trans _ _ _ H1 H2) as H4. pose proof (rank_before_asym _ _ H4).
    pose proof (rank_before_same a c). destruct (ranked_cmp score id a c); tauto.
  - intros a b Ha Hb Hab. pose proof (ranked_cmp_spec a b (Hnan a Ha) (Hnan b Hb)) as H1.
    rewrite Hab in H1. destruct H1 as [_ Hid].
    apply list_elem_of_lookup_1 in Ha as [i Hi]. apply list_elem_of_lookup_1 in Hb as [j Hj].
    assert (i = j) as ->; [|congruence].
    apply (NoDup_lookup (id <$> l) i j (id a)); [done|..]; rewrite list_lookup_fmap.
    + by rewrite Hi.
    + rewrite Hj. simpl. by rewrite Hid.
Qed.
End ranked.

(** ** Counts as floats

    A count is zero as an [f32] only when it is zero: rounding never reaches zero. *)

Section counts.
Local Open Scope Z_scope.

Lemma digits2_pos_bounds p :
  2 ^ (Z.pos (digits2_pos p) - 1) <= Z.pos p < 2 ^ Z.pos (digits2_pos p).
Proof.
  induction p as [p IH|p IH|]; cbn [digits2_pos]; [| |by vm_compute].
  all: rewrite Pos2Z.inj_succ; set (d := Z.pos (digits2_pos p)) in *;
    assert (H2 : 2 ^ d = 2 * 2 ^ (d - 1))
      by (rewrite <- Z.pow_succ_r by lia; f_equal; lia);
    replace (Z.succ d - 1) with d by lia; rewrite Z.pow_succ_r by lia; lia.
Qed.

Lemma shr_m_iter n r : 0 <= shr_m r →
  shr_m (SpecFloat.iter_pos shr_1 n r) = shr_m r / 2 ^ Z.pos n ∧
  0 <= shr_m (SpecFloat.iter_pos shr_1 n r).
Proof.
  assert (H1 : ∀ r, 0 <= shr_m r → shr_m (shr_1 r) = shr_m r / 2).
  { intros [[|p|p] x y]; simpl; [done| |lia]. intros _. rewrite <- Z.div2_div. by destruct p. }
  assert (Hi : ∀ m k, 0 <= m → 0 <= k → m / 2 ^ k / 2 ^ k = m / 2 ^ (k + k)).
  { intros m k Hm Hk. pose proof (Z.pow_pos_nonneg 2 k). rewrite Z.div_div by lia.
    by rewrite <- Z.pow_add_r by lia. }
  assert (Hn : ∀ m k, 0 <= m → 0 <= k → 0 <= m / 2 ^ k).
  { intros. apply Z.div_pos; [done|apply Z.pow_pos_nonneg; lia]. }
  revert r. induction n as [n IH|n IH|]; intros r Hr; simpl.
  - destruct (IH (shr_1 r)) as [E1 P1]; [rewrite H1 by done; by apply Z.div_pos|].
    destruct (IH (SpecFloat.iter_pos shr_1 n (shr_1 r)) P1) as [E2 P2]. split; [|done].
    rewrite E2, E1, H1 by done. rewrite Hi by (try apply Z.div_pos; lia).
    pose proof (Z.pow_pos_nonneg 2 (Z.pos n + Z.pos n)). rewrite Z.div_div by lia. f_equal.
    replace (Z.pos n~1) with (1 + (Z.pos n + Z.pos n)) by lia. rewrite (Z.pow_add_r 2 1) by lia. lia.
  - destruct (IH r Hr) as [E1 P1]. destruct (IH _ P1) as [E2 P2]. split; [|done].
    rewrite E2, E1, Hi by lia. do 2 f_equal. lia.
  - rewrite H1 by done. split; [done|by apply Z.div_pos].
Qed.

Lemma shr_fexp_nonneg prec emax m e l :
  0 <= m → 0 <= shr_m (shr_fexp prec emax m e l).1.
Proof.
  intros Hm. unfold shr_fexp, shr.
  assert (Hr : shr_m (shr_record_of_loc m l) = m) by (by destruct l as [|[]]).
  destruct (_ - e); simpl; rewrite ?Hr; [done| |done]. apply shr_m_iter. by rewrite Hr.
Qed.

(** Rounding an integer never gives a NaN. *)
Lemma binary_normalize_number prec emax z : binary_normalize prec emax z 0 false ≠ S754_nan.
Proof.
  assert (Hr : ∀ s p, binary_round prec emax s p 0 ≠ S754_nan).
  { intros s p. unfold binary_round. destruct (shl_align _ _ _) as [m e]. unfold binary_round_aux.
    pose proof (shr_fexp_nonneg prec emax (Z.pos m) e loc_Exact) as H1.
    destruct (shr_fexp _ _ (Z.pos m) e loc_Exact) as [r1 e1]. simpl in H1.
    set (m1 := round_nearest_even _ _).
    assert (Hm1 : 0 <= m1) by (subst m1; destruct (loc_of_shr_record r1) as [|[]]; simpl;
      try case_match; lia).
    pose proof (shr_fexp_nonneg prec emax m1 e1 loc_Exact Hm1) as H2.
    destruct (shr_fexp _ _ m1 e1 loc_Exact) as [r2 e2]. simpl in *.
    destruct (shr_m r2); [done|by case_match|lia]. }
  destruct z; [done|apply Hr..].
Qed.

(** Bringing a positive mantissa to its exponent leaves it positive. *)
Lemma shr_fexp_pos m e l : 0 < m → -100 <= e →
  0 < shr_m (shr_fexp f32_prec f32_emax m e l).1 ∧
  -100 <= (shr_fexp f32_prec f32_emax m e l).2.
Proof.
  intros Hm He. destruct m as [|p|p]; [lia| |lia]. unfold shr_fexp, fexp, emin, f32_prec, f32_emax.
  cbn [Zdigits2]. pose proof (digits2_pos_bounds p) as [Hlo _].
  set (d := Z.pos (digits2_pos p)) in *. assert (0 < d) by (subst d; lia).
  assert (Hr : shr_m (shr_record_of_loc (Z.pos p) l) = Z.pos p) by (by destruct l as [|[]]).
  unfold shr. destruct (Z.max _ _ - e) as [|n|n] eqn:En; simpl; rewrite ?Hr; [lia| |lia].
  split; [|lia]. destruct (shr_m_iter n (shr_record_of_loc (Z.pos p) l)) as [-> _]; [lia|].
  rewrite Hr. apply Z.div_str_pos. split; [apply Z.pow_pos_nonneg; lia|].
  etrans; [|done]. apply Z.pow_le_mono_r; lia.
Qed.

Lemma f32_of_N_zero n : SFeqb (f32_of_N n) f32_zero = (n =? 0)%N.
Proof.
  destruct n as [|p]; [done|]. unfold f32_of_N. cbn [Z.of_N binary_normalize]. unfold binary_round.
  assert (Ha : -100 <= (shl_align p 0 (fexp f32_prec f32_emax (Z.pos (digits2_pos p) + 0))).2).
  { unfold shl_align, fexp, emin, f32_prec, f32_emax. by destruct (_ - 0) eqn:E; simpl; lia. }
  destruct (shl_align _ _ _) as [m e]. simpl in Ha. unfold binary_round_aux.
  destruct (shr_fexp_pos (Z.pos m) e loc_Exact) as [H1 H2]; [lia|done|].
  destruct (shr_fexp _ _ (Z.pos m) e loc_Exact) as [r e1]. simpl in *.
  set (m1 := round_nearest_even _ _).
  assert (Hm1 : 0 < m1) by (subst m1; destruct (loc_of_shr_record r) as [|[]]; simpl;
    try case_match; lia).
  destruct (shr_fexp_pos m1 e1 loc_Exact Hm1 H2) as [H3 _].
  destruct (shr_fexp _ _ m1 e1 loc_Exact) as [r2 e2]. simpl in *.
  destruct (shr_m r2) as [|q|q]; [lia| |lia]. by case_match.
Qed.
End counts.
