(* ===== verification/Eval.v ===== *)
(** * Filters

    Models the filter part of the query representation
    ([crates/auradb-query/src/ir.rs]), its evaluation on a record
    ([crates/auradb-query/src/eval.rs]) and the tokenizer of the full-text indexes
    ([crates/auradb-index/src/lib.rs]).

    The character tables behind [char::is_alphanumeric] and [str::to_lowercase] are
    a parameter ([Unicode]): no result depends on their contents. *)

From Stdlib Require Import Floats.SpecFloat Strings.Ascii.
From S2P Require Import Prelude BTree Text Value Core Rank.

Local Open Scope N_scope.

(** ** Characters *)

(** The characters of a string, as code points.  A [str] is valid UTF-8, so the
    decoder reads the length of a sequence from its first byte. *)
Fixpoint utf8_chars (l : list byte) : list N :=
  match l with
  | [] => []
  | b1 :: l1 =>
      let v1 := Byte.to_N b1 in
      if v1 <? 128 then v1 :: utf8_chars l1
      else match l1 with
      | [] => []
      | b2 :: l2 =>
          let c2 := Byte.to_N b2 mod 64 in
          if v1 <? 224 then (v1 mod 32 * 64 + c2) :: utf8_chars l2
          else match l2 with
          | [] => []
          | b3 :: l3 =>
              let c3 := Byte.to_N b3 mod 64 in
              if v1 <? 240 then (v1 mod 16 * 4096 + c2 * 64 + c3) :: utf8_chars l3
              else match l3 with
              | [] => []
              | b4 :: l4 =>
                  (v1 mod 8 * 262144 + c2 * 4096 + c3 * 64 + Byte.to_N b4 mod 64)
                    :: utf8_chars l4
              end
          end
      end
  end.

Definition char_bytes (c : N) : list byte :=
  if c <? 128 then [byte_of_N c]
  else if c <? 2048 then [byte_of_N (192 + c / 64); byte_of_N (128 + c mod 64)]
  else if c <? 65536 then
    [byte_of_N (224 + c / 4096); byte_of_N (128 + c / 64 mod 64); byte_of_N (128 + c mod 64)]
  else [byte_of_N (240 + c / 262144); byte_of_N (128 + c / 4096 mod 64);
        byte_of_N (128 + c / 64 mod 64); byte_of_N (128 + c mod 64)].

(** [char::is_alphanumeric] and [str::to_lowercase] (whose final-sigma rule looks at
    the whole string). *)
Class Unicode := {
  is_alphanumeric : N → bool;
  to_lowercase : list N → list N;
}.

(** [text.split(|c| ..)]: the pieces between the separators. *)
Fixpoint split_on (sep : N → bool) (l : list N) : list (list N) :=
  match l with
  | [] => [[]]
  | c :: l' =>
      let pieces := split_on sep l' in
      if sep c then [] :: pieces
      else match pieces with
           | p :: ps => (c :: p) :: ps
           | [] => [[c]]
           end
  end.

Section tokenizer.
Context `{Unicode}.

Definition tokenize (text : string) : list string :=
  (λ t, string_of (mjoin (char_bytes <$> to_lowercase t)))
    <$> filter (λ t, t ≠ [])
          (split_on (λ c, negb (is_alphanumeric c)) (utf8_chars (bytes_of text))).
End tokenizer.

(** ** Comparing values *)

(** [partial_cmp] and [==] on floats. *)
Definition float_partial_cmp (x y : spec_float) : option comparison := SFcompare x y.
Definition float_eq (x y : spec_float) : bool := SFeqb x y.

(** The derived [PartialEq] of [Value]. *)
Fixpoint value_eq (a b : Value) : bool :=
  match a, b with
  | VNull, VNull => true
  | VBool x, VBool y => bool_decide (x = y)
  | VInt x, VInt y => (x =? y)%Z
  | VFloat x, VFloat y => float_eq x y
  | VText x, VText y => bool_decide (x = y)
  | VBytes x, VBytes y => bool_decide (x = y)
  | VTimestamp x, VTimestamp y => (x =? y)%Z
  | VVector x, VVector y =>
      (fix go (x y : list spec_float) : bool :=
         match x, y with
         | [], [] => true
         | u :: x', v :: y' => float_eq u v && go x' y'
         | _, _ => false
         end) x y
  | VArray x, VArray y =>
      (fix go (x y : list Value) : bool :=
         match x, y with
         | [], [] => true
         | u :: x', v :: y' => value_eq u v && go x' y'
         | _, _ => false
         end) x y
  | VObject x, VObject y =>
      (fix go (x y : list (string * Value)) : bool :=
         match x, y with
         | [], [] => true
         | (j, u) :: x', (k, v) :: y' => bool_decide (j = k) && value_eq u v && go x' y'
         | _, _ => false
         end) x y
  | _, _ => false
  end.

(** Equality with numeric coercion (int vs float) and timestamp/int coercion. *)
Definition values_equal (a b : Value) : bool :=
  match a, b with
  | (VInt _ | VFloat _), (VInt _ | VFloat _) =>
      match as_f64 a, as_f64 b with
      | Some x, Some y => float_eq x y
      | _, _ => false
      end
  | VTimestamp x, VInt y | VInt y, VTimestamp x => (x =? y)%Z
  | _, _ => value_eq a b
  end.

Definition bool_cmp (x y : bool) : comparison :=
  match x, y with
  | false, true => Lt
  | true, false => Gt
  | _, _ => Eq
  end.

Definition order (a b : Value) : option comparison :=
  match a, b with
  | (VInt _ | VFloat _), (VInt _ | VFloat _) =>
      match as_f64 a, as_f64 b with
      | Some x, Some y => float_partial_cmp x y
      | _, _ => None
      end
  | VTimestamp x, VTimestamp y => Some (x ?= y)%Z
  | VTimestamp x, VInt y | VInt x, VTimestamp y => Some (x ?= y)%Z
  | VText x, VText y => Some (String.compare x y)
  | VBool x, VBool y => Some (bool_cmp x y)
  | VNull, VNull => Some Eq
  | _, _ => None
  end.

Inductive CompareOp := CmpEq | CmpNe | CmpLt | CmpLte | CmpGt | CmpGte | CmpIn.

#[export] Instance CompareOp_eq_dec : EqDecision CompareOp.
Proof. solve_decision. Defined.

Definition compare (actual : Value) (op : CompareOp) (expected : Value) : bool :=
  match op with
  | CmpEq => values_equal actual expected
  | CmpNe => negb (values_equal actual expected)
  | CmpIn => match expected with
             | VArray items => existsb (values_equal actual) items
             | _ => false
             end
  | CmpLt => match order actual expected with Some Lt => true | _ => false end
  | CmpLte => match order actual expected with Some (Lt | Eq) => true | _ => false end
  | CmpGt => match order actual expected with Some Gt => true | _ => false end
  | CmpGte => match order actual expected with Some (Gt | Eq) => true | _ => false end
  end.

(** ** Filters *)

Inductive Filter :=
| FAnd (filters : list Filter)
| FOr (filters : list Filter)
| FNot (filter : Filter)
| FCompare (field : string) (op : CompareOp) (value : Value)
| FContains (field : string) (substring : string)
| FExists (field : string)
| FContainsText (field : string) (query : string).

(** [s.contains(sub)] on the bytes of the strings. *)
Fixpoint str_contains (s sub : string) : bool :=
  String.prefix sub s ||
  match s with
  | EmptyString => false
  | String _ s' => str_contains s' sub
  end.

(** [terms.sort(); terms.dedup()]. *)
Fixpoint insert_sorted (t : string) (l : list string) : list string :=
  match l with
  | [] => [t]
  | u :: l' => match String.compare t u with
               | Gt => u :: insert_sorted t l'
               | _ => t :: l
               end
  end.
Definition sort_terms (l : list string) : list string := fold_right insert_sorted [] l.

Fixpoint dedup (l : list string) : list string :=
  match l with
  | t :: ((u :: _) as l') => if bool_decide (t = u) then dedup l' else t :: dedup l'
  | _ => l
  end.

Section matches.
Context `{Unicode}.

Definition contains_text (text query : string) : bool :=
  let terms := dedup (sort_terms (tokenize query)) in
  match terms with
  | [] => false
  | _ :: _ =>
      let doc : gset string := list_to_set (tokenize text) in
      forallb (λ t, bool_decide (t ∈ doc)) terms
  end.

Fixpoint matches (record : Rec) (filter : Filter) : bool :=
  match filter with
  | FAnd filters => forallb (matches record) filters
  | FOr filters => existsb (matches record) filters
  | FNot filter => negb (matches record filter)
  | FExists field =>
      match record_get_path record field with Some v => negb (is_null v) | None => false end
  | FContains field substring =>
      match record_get_path record field ≫= as_text with
      | Some s => str_contains s substring
      | None => false
      end
  | FCompare field op value =>
      match record_get_path record field with
      | Some actual => compare actual op value
      | None => false
      end
  | FContainsText field query =>
      match record_get_path record field ≫= as_text with
      | Some text => contains_text text query
      | None => false
      end
  end.
End matches.

(** ** What a filter means *)

(** The reading of a comparison: the operators [<], [<=], [>], [>=] hold only between
    values that can be ordered. *)
Definition compare_holds (actual : Value) (op : CompareOp) (expected : Value) : Prop :=
  match op with
  | CmpEq => values_equal actual expected = true
  | CmpNe => values_equal actual expected = false
  | CmpIn => ∃ items item, expected = VArray items ∧ item ∈ items ∧
               values_equal actual item = true
  | CmpLt => order actual expected = Some Lt
  | CmpLte => ∃ c, order actual expected = Some c ∧ c ≠ Gt
  | CmpGt => order actual expected = Some Gt
  | CmpGte => ∃ c, order actual expected = Some c ∧ c ≠ Lt
  end.

Section meaning.
Context `{Unicode}.

(** A record satisfies a filter.  A comparison, substring or text condition needs
    the path to resolve; a text condition needs a token to look for, and all the
    tokens of the query among those of the text. *)
Fixpoint satisfies (record : Rec) (filter : Filter) : Prop :=
  match filter with
  | FAnd filters => Forall id (map (satisfies record) filters)
  | FOr filters => Exists id (map (satisfies record) filters)
  | FNot filter => ¬ satisfies record filter
  | FExists field => ∃ v, record_get_path record field = Some v ∧ v ≠ VNull
  | FContains field substring =>
      ∃ s pre post, record_get_path record field = Some (VText s) ∧
        s = (pre ++ substring ++ post)%string
  | FCompare field op value =>
      ∃ actual, record_get_path record field = Some actual ∧ compare_holds actual op value
  | FContainsText field query =>
      ∃ text, record_get_path record field = Some (VText text) ∧ tokenize query ≠ [] ∧
        ∀ t, t ∈ tokenize query → t ∈ tokenize text
  end.
End meaning.

(** Induction through the lists of sub-filters. *)
Fixpoint Filter_nested_ind (P : Filter → Prop)
  (Hand : ∀ fs, Forall P fs → P (FAnd fs)) (Hor : ∀ fs, Forall P fs → P (FOr fs))
  (Hnot : ∀ f, P f → P (FNot f)) (Hcmp : ∀ field op v, P (FCompare field op v))
  (Hcont : ∀ field s, P (FContains field s)) (Hex : ∀ field, P (FExists field))
  (Htext : ∀ field q, P (FContainsText field q)) (f : Filter) : P f :=
  let rec := Filter_nested_ind P Hand Hor Hnot Hcmp Hcont Hex Htext in
  let fix go (l : list Filter) : Forall P l :=
    match l with
    | [] => @List.Forall_nil _ P
    | x :: l' => @List.Forall_cons _ P x l' (rec x) (go l')
    end in
  match f with
  | FAnd fs => Hand fs (go fs)
  | FOr fs => Hor fs (go fs)
  | FNot f => Hnot f (rec f)
  | FCompare field op v => Hcmp field op v
  | FContains field s => Hcont field s
  | FExists field => Hex field
  | FContainsText field q => Htext field q
  end.

(** ** Terms *)

Lemma insert_sorted_elem t u l : t ∈ insert_sorted u l ↔ t = u ∨ t ∈ l.
Proof.
  induction l as [|x l IH]; simpl; [set_solver|].
  destruct (String.compare u x); set_solver.
Qed.

Lemma sort_terms_elem t l : t ∈ sort_terms l ↔ t ∈ l.
Proof.
  induction l as [|x l IH]; simpl; [done|]. rewrite insert_sorted_elem, IH. set_solver.
Qed.

Lemma dedup_elem t l : t ∈ dedup l ↔ t ∈ l.
Proof.
  induction l as [|x l IH]; [done|]. destruct l as [|y l]; [done|].
  change (dedup (x :: y :: l)) with
    (if bool_decide (x = y) then dedup (y :: l) else x :: dedup (y :: l)).
  case_bool_decide; subst; set_solver.
Qed.

(** ** Substrings *)

Lemma prefix_spec sub s : String.prefix sub s = true ↔ ∃ post, s = (sub ++ post)%string.
Proof.
  revert s. induction sub as [|c sub IH]; intros s; simpl.
  - split; [by exists s|]. by destruct s.
  - destruct s as [|d s]; [naive_solver|].
    change (String.prefix (String c sub) (String d s))
      with (if ascii_dec c d then String.prefix sub s else false).
    change (String c sub +:+ ?post) with (String c (sub +:+ post)).
    destruct (ascii_dec c d) as [->|Hne].
    + rewrite IH. split; intros [post Hp]; exists post; [by rewrite Hp|by injection Hp].
    + split; [done|]. intros [post Hp]. by injection Hp.
Qed.

Lemma str_contains_spec s sub :
  str_contains s sub = true ↔ ∃ pre post, s = (pre ++ sub ++ post)%string.
Proof.
  assert (Hp : ∀ s', String.prefix sub s' = true → ∃ pre post, s' = (pre ++ sub ++ post)%string).
  { intros s' (post & ->)%prefix_spec. by exists EmptyString, post. }
  induction s as [|c s IH]; cbn [str_contains]; rewrite orb_true_iff.
  - split; [intros [Hx|]; [by apply Hp|done]|]. intros (pre & post & Hs). left.
    apply prefix_spec. destruct pre; [by exists post|done].
  - rewrite IH. split.
    + intros [Hx|(pre & post & ->)]; [by apply Hp|]. by exists (String c pre), post.
    + intros ([|d pre] & post & Hs).
      * left. apply prefix_spec. by exists post.
      * right. injection Hs as _ ->. by exists pre, post.
Qed.

(** ** Evaluation *)

Lemma compare_spec actual op expected :
  compare actual op expected = true ↔ compare_holds actual op expected.
Proof.
  destruct op; simpl; try done.
  - by rewrite negb_true_iff.
  - destruct (order _ _) as [[]|]; naive_solver.
  - destruct (order _ _) as [[]|]; naive_solver.
  - destruct (order _ _) as [[]|]; naive_solver.
  - destruct (order _ _) as [[]|]; naive_solver.
  - destruct expected; try (split; [done|naive_solver]). rewrite existsb_exists.
    setoid_rewrite <- list_elem_of_In. naive_solver.
Qed.

Section evaluation.
Context `{Unicode}.

Lemma contains_text_spec text query :
  contains_text text query = true ↔
  tokenize query ≠ [] ∧ ∀ t, t ∈ tokenize query → t ∈ tokenize text.
Proof.
  unfold contains_text.
  assert (Hel : ∀ t, t ∈ dedup (sort_terms (tokenize query)) ↔ t ∈ tokenize query)
    by (intros t; by rewrite dedup_elem, sort_terms_elem).
  destruct (dedup _) as [|x l] eqn:E.
  - split; [done|]. intros [Hne _]. destruct (tokenize query) as [|t ?]; [done|].
    specialize (Hel t). set_solver.
  - rewrite forallb_forall. setoid_rewrite <- list_elem_of_In.
    setoid_rewrite bool_decide_eq_true. setoid_rewrite elem_of_list_to_set.
    split.
    + intros Hall. split; [|intros t Ht; apply Hall; by apply Hel].
      intros Hnil. rewrite Hnil in Hel. specialize (Hel x). set_solver.
    + intros [_ Hall] t Ht. apply Hall. by apply Hel.
Qed.

Lemma as_text_spec (o : option Value) s : o ≫= as_text = Some s ↔ o = Some (VText s).
Proof. destruct o as [[]|]; simpl; naive_solver. Qed.

(** Filter evaluation.  [matches] decides the meaning of the filter: the connectives
    at every depth, comparisons only on paths that resolve, substring search, and
    full-text conditions on the set of tokens whatever their order or
    repetitions. *)
Theorem filter_meaning record filter :
  matches record filter = true ↔ satisfies record filter.
Proof.
  induction filter as [fs IH|fs IH|f IH|field op v|field sub|field|field q]
    using Filter_nested_ind; simpl.
  - induction IH as [|f fs Hf _ IHfs]; simpl; [done|].
    by rewrite andb_true_iff, Hf, IHfs, Forall_cons.
  - induction IH as [|f fs Hf _ IHfs]; simpl; [split; [done|by intros ?%Exists_nil]|].
    by rewrite orb_true_iff, Hf, IHfs, Exists_cons.
  - rewrite negb_true_iff, <- IH. by destruct (matches record f).
  - destruct (record_get_path _ _) as [a|]; [|naive_solver].
    rewrite compare_spec. naive_solver.
  - destruct (record_get_path record field ≫= as_text) as [s|] eqn:E.
    + apply as_text_spec in E. rewrite str_contains_spec. naive_solver.
    + split; [done|]. intros (s & pre & post & Hs & _). by rewrite Hs in E.
  - destruct (record_get_path _ _) as [a|]; [|naive_solver].
    rewrite negb_true_iff. destruct a; naive_solver.
  - destruct (record_get_path record field ≫= as_text) as [s|] eqn:E.
    + apply as_text_spec in E. rewrite contains_text_spec. naive_solver.
    + split; [done|]. intros (s & Hs & _). by rewrite Hs in E.
Qed.
End evaluation.

(** ** The order on values *)

Lemma SFcompare_swap x y : SFcompare y x = CompOpp <$> SFcompare x y.
Proof.
  destruct x as [[]|[]| |[] m1 e1], y as [[]|[]| |[] m2 e2]; simpl; try done.
  all: rewrite (Z.compare_antisym e1 e2);
    replace (Pos.compare_cont Eq m2 m1) with (CompOpp (Pos.compare_cont Eq m1 m2))
      by apply (Pos.compare_cont_antisym m1 m2 Eq);
    by destruct (e1 ?= e2)%Z, (Pos.compare_cont Eq m1 m2).
Qed.

Lemma bool_cmp_swap x y : bool_cmp y x = CompOpp (bool_cmp x y).
Proof. by destruct x, y. Qed.

(** The three kinds of comparable pairs: floats, and totally ordered types. *)
Lemma order_cases a b :
  (∃ x y, as_f64 a = Some x ∧ as_f64 b = Some y ∧
     order a b = SFcompare x y ∧ order b a = SFcompare y x ∧
     values_equal a b = SFeqb x y) ∨
  (∃ c, order a b = Some c ∧ order b a = Some (CompOpp c) ∧ (values_equal a b = true ↔ c = Eq)) ∨
  (order a b = None ∧ order b a = None).
Proof.
  destruct a as [|x|x|x|x|x|x|x|x|x], b as [|y|y|y|y|y|y|y|y|y];
    try (right; right; split; reflexivity).
  - right; left. by exists Eq.
  - right; left. exists (bool_cmp x y). split_and!; [done|by destruct x, y|].
    simpl. rewrite bool_decide_eq_true. by destruct x, y.
  - left. exists (f64_of_i64 x), (f64_of_i64 y). split_and!; reflexivity.
  - left. exists (f64_of_i64 x), y. split_and!; reflexivity.
  - right; left. exists (x ?= y)%Z. simpl. rewrite Z.eqb_eq, Z.compare_eq_iff, <- Z.compare_antisym.
    naive_solver.
  - left. exists x, (f64_of_i64 y). split_and!; reflexivity.
  - left. exists x, y. split_and!; reflexivity.
  - right; left. exists (String.compare x y). simpl.
    rewrite bool_decide_eq_true, <- (kcompare_eq x y). split_and!; [done| |done].
    f_equal. apply String.compare_antisym.
  - right; left. exists (x ?= y)%Z. simpl. rewrite Z.eqb_eq, Z.compare_eq_iff, <- Z.compare_antisym.
    naive_solver.
  - right; left. exists (x ?= y)%Z. simpl. rewrite Z.eqb_eq, Z.compare_eq_iff, <- Z.compare_antisym.
    naive_solver.
Qed.

Lemma order_swap a b : order b a = CompOpp <$> order a b.
Proof.
  destruct (order_cases a b) as [(x & y & _ & _ & -> & -> & _)|[(c & -> & -> & _)|[-> ->]]];
    [apply SFcompare_swap|done|done].
Qed.

Lemma order_Eq a b c : order a b = Some c → values_equal a b = true ↔ c = Eq.
Proof.
  destruct (order_cases a b) as [(x & y & _ & _ & -> & _ & ->)|[(d & -> & _ & Hd)|[-> _]]].
  - unfold SFeqb. intros ->. by destruct c.
  - by intros [= <-].
  - done.
Qed.

(** Comparison operators are coherent.  On a pair of values that can be ordered,
    exactly the expected operators hold together: [<=] is [<] or [=], [>=] is [>] or
    [=], [!=] is the negation of [=], and swapping the sides swaps the operators; on
    a pair that cannot be ordered, none of the four order operators holds. *)
Theorem comparison_coherent a b :
  compare a CmpNe b = negb (compare a CmpEq b) ∧
  compare a CmpLt b = compare b CmpGt a ∧ compare a CmpLte b = compare b CmpGte a ∧
  match order a b with
  | Some c =>
      compare a CmpEq b = bool_decide (c = Eq) ∧
      compare a CmpLte b = (compare a CmpLt b || compare a CmpEq b) ∧
      compare a CmpGte b = (compare a CmpGt b || compare a CmpEq b) ∧
      compare a CmpLt b = negb (compare a CmpGte b)
  | None => Forall (λ op, compare a op b = false) [CmpLt; CmpLte; CmpGt; CmpGte]
  end.
Proof.
  unfold compare. rewrite (order_swap a b). split; [done|].
  destruct (order a b) as [c|] eqn:E; simpl.
  - apply order_Eq in E. destruct (values_equal a b).
    + assert (c = Eq) as -> by naive_solver. done.
    + assert (c ≠ Eq) by naive_solver. by destruct c.
  - split_and!; try done. by repeat constructor.
Qed.

(** ** Integers in a comparison

    Integers are compared as [f64]s.  Below 2^53 that is exact. *)

Section small_integers.
Local Open Scope Z_scope.

Lemma iter_xO k p :
  Z.pos (Pos.iter xO p k) = Z.pos p * 2 ^ Z.pos k ∧
  digits2_pos (Pos.iter xO p k) = (digits2_pos p + k)%positive.
Proof.
  induction k as [|k [IH1 IH2]] using Pos.peano_ind; [simpl; lia|].
  rewrite Pos.iter_succ, Pos2Z.inj_xO, IH1. cbn [digits2_pos]. rewrite IH2.
  rewrite Pos2Z.inj_succ, Z.pow_succ_r by lia. lia.
Qed.

(** The float of a small integer: a 53-bit mantissa and an exponent that scale back
    to the integer exactly. *)
Lemma round_small s p :
  Z.pos p < 2 ^ 53 →
  ∃ m k, binary_round f64_prec f64_emax s p 0 = S754_finite s m (- k) ∧ 0 <= k ∧
    Z.pos m = Z.pos p * 2 ^ k ∧ 2 ^ 52 <= Z.pos m < 2 ^ 53.
Proof.
  intros Hp. pose proof (digits2_pos_bounds p) as [Hlo Hhi].
  set (d := Z.pos (digits2_pos p)) in *.
  assert (Hd : d <= 53) by (destruct (Z.le_gt_cases d 53); [done|];
    pose proof (Z.pow_le_mono_r 2 53 (d - 1) ltac:(lia) ltac:(lia)); lia).
  assert (Hf : fexp f64_prec f64_emax d = d - 53) by (unfold fexp, emin, f64_prec, f64_emax; lia).
  assert (Hm : ∃ m, shl_align p 0 (d - 53) = (m, d - 53) ∧ Z.pos m = Z.pos p * 2 ^ (53 - d) ∧
                 Z.pos (digits2_pos m) = 53).
  { unfold shl_align. rewrite Z.sub_0_r. destruct (d - 53) as [|k|k] eqn:E; [|lia|].
    - exists p. split_and!; [done| |fold d; lia]. replace (53 - d) with 0 by lia. lia.
    - exists (Pos.iter xO p k). destruct (iter_xO k p) as [H1 H2].
      replace (53 - d) with (Z.pos k) by lia. split_and!; [done|done|].
      rewrite H2, Pos2Z.inj_add. fold d. lia. }
  destruct Hm as (m & Hal & Hmv & Hmd).
  exists m, (53 - d). pose proof (digits2_pos_bounds m) as Hmb. rewrite Hmd in Hmb.
  split_and!; [|lia|done|apply Hmb|apply Hmb].
  unfold binary_round. fold d. rewrite Z.add_0_r, Hf, Hal.
  assert (Hshr : shr_fexp f64_prec f64_emax (Z.pos m) (d - 53) loc_Exact =
    (Build_shr_record (Z.pos m) false false, d - 53)).
  { unfold shr_fexp. cbn [Zdigits2]. rewrite Hmd. replace (53 + (d - 53)) with d by lia.
    rewrite Hf, Z.sub_diag. done. }
  unfold binary_round_aux. rewrite Hshr. cbn [loc_of_shr_record round_nearest_even shr_m].
  rewrite Hshr. cbn [shr_m]. rewrite (proj2 (Z.leb_le _ _)) by (unfold f64_prec, f64_emax; lia).
  f_equal. lia.
Qed.

Lemma compare_scaled p q m n k l :
  0 <= k → 0 <= l → Z.pos m = Z.pos p * 2 ^ k → Z.pos n = Z.pos q * 2 ^ l →
  2 ^ 52 <= Z.pos m < 2 ^ 53 → 2 ^ 52 <= Z.pos n < 2 ^ 53 →
  match - k ?= - l with Lt => Lt | Gt => Gt | Eq => Pos.compare_cont Eq m n end =
  (Z.pos p ?= Z.pos q).
Proof.
  intros Hk Hl Hm Hn Hmb Hnb.
  assert (Hstep : ∀ a b (x y : Z), 0 <= a → a < b → 0 < x → 0 < y →
    x * 2 ^ b < 2 ^ 53 → 2 ^ 52 <= y * 2 ^ a → x < y).
  { intros a b x y Ha Hab Hx Hy H1 H2. pose proof (Z.pow_le_mono_r 2 (a + 1) b ltac:(lia) ltac:(lia)).
    rewrite Z.pow_add_r in * by lia. pose proof (Z.pow_pos_nonneg 2 a ltac:(lia) ltac:(lia)).
    change (2 ^ 53) with (2 ^ 52 * 2) in H1. nia. }
  destruct (Z.compare_spec (- k) (- l)) as [He|He|He]; symmetry.
  - assert (k = l) as -> by lia. change (Pos.compare_cont Eq m n) with (Z.pos m ?= Z.pos n).
    rewrite Hm, Hn. pose proof (Z.pow_pos_nonneg 2 l ltac:(lia) ltac:(lia)).
    destruct (Z.compare_spec (Z.pos p) (Z.pos q)); symmetry;
      [apply Z.compare_eq_iff|apply Z.compare_lt_iff|apply Z.compare_gt_iff]; nia.
  - apply Z.compare_lt_iff. apply (Hstep l k); lia.
  - apply Z.compare_gt_iff. apply (Hstep k l); lia.
Qed.

Lemma order_small x y :
  - 2 ^ 53 < x < 2 ^ 53 → - 2 ^ 53 < y < 2 ^ 53 →
  SFcompare (f64_of_i64 x) (f64_of_i64 y) = Some (x ?= y).
Proof.
  intros Hx Hy. unfold f64_of_i64.
  assert (Hone : ∀ (s : bool) p, Z.pos p < 2 ^ 53 → ∃ m k,
    binary_normalize f64_prec f64_emax (if s then Z.neg p else Z.pos p) 0 false =
      S754_finite s m (- k) ∧ 0 <= k ∧
    Z.pos m = Z.pos p * 2 ^ k ∧ 2 ^ 52 <= Z.pos m < 2 ^ 53).
  { intros [] p Hp; apply round_small, Hp. }
  destruct x as [|p|p], y as [|q|q].
  - done.
  - destruct (Hone false q) as (n & l & -> & _); [lia|done].
  - destruct (Hone true q) as (n & l & -> & _); [lia|done].
  - destruct (Hone false p) as (m & k & -> & _); [lia|done].
  - destruct (Hone false p) as (m & k & -> & ? & ? & ?); [lia|].
    destruct (Hone false q) as (n & l & -> & ? & ? & ?); [lia|].
    cbn [SFcompare]. f_equal. by apply compare_scaled.
  - destruct (Hone false p) as (m & k & -> & _); [lia|].
    destruct (Hone true q) as (n & l & -> & _); [lia|done].
  - destruct (Hone true p) as (m & k & -> & _); [lia|done].
  - destruct (Hone true p) as (m & k & -> & _); [lia|].
    destruct (Hone false q) as (n & l & -> & _); [lia|done].
  - destruct (Hone true p) as (m & k & -> & ? & ? & ?); [lia|].
    destruct (Hone true q) as (n & l & -> & ? & ? & ?); [lia|].
    cbn [SFcompare]. f_equal.
    change (Z.neg p ?= Z.neg q) with (CompOpp (Z.pos p ?= Z.pos q)).
    rewrite <- (compare_scaled p q m n k l) by done.
    by destruct (- k ?= - l), (Pos.compare_cont Eq m n).
Qed.

(** Integers below 2^53 in magnitude are compared exactly, although every numeric
    comparison goes through [f64]. *)
Theorem int_comparison_exact x y :
  - 2 ^ 53 < x < 2 ^ 53 → - 2 ^ 53 < y < 2 ^ 53 →
  order (VInt x) (VInt y) = Some (x ?= y) ∧ values_equal (VInt x) (VInt y) = (x =? y).
Proof.
  intros Hx Hy. assert (Ho : order (VInt x) (VInt y) = Some (x ?= y)) by by apply order_small.
  split; [done|]. apply order_Eq in Ho. rewrite Z.compare_eq_iff, <- Z.eqb_eq in Ho.
  destruct (values_equal _ _), (x =? y); naive_solver.
Qed.

Lemma int_comparison_exact_witness :
  order (VInt (2 ^ 53 - 1)) (VInt (2 ^ 53 - 2)) = Some Gt.
Proof. apply (int_comparison_exact (2 ^ 53 - 1) (2 ^ 53 - 2)); lia. Defined.

(** From 2^53 on, different [i64] values compare as equal. *)
Lemma int_comparison_rounds :
  values_equal (VInt (2 ^ 53)) (VInt (2 ^ 53 + 1)) = true ∧
  compare (VInt (2 ^ 53)) CmpLt (VInt (2 ^ 53 + 1)) = false.
Proof. by vm_compute. Qed.
End small_integers.
