(* ===== verification/Chars.v ===== *)
(** * Characters of a string

    A [str] is valid UTF-8.  On valid bytes the decoder [utf8_chars] and the encoder
    [char_bytes] of [Eval] are inverse, so a position between characters splits the
    bytes and the characters alike; the analyzers and the snippet builder index
    strings by such byte positions. *)

From S2P Require Import Prelude Text Value Core Eval.

Local Open Scope N_scope.

(** The range of [char]: code points without the surrogates. *)
Definition scalar (c : N) : Prop := c < 0xD800 ∨ 0xE000 <= c < 0x110000.

Definition encode (cs : list N) : list byte := mjoin (char_bytes <$> cs).

Lemma encode_cons c cs : encode (c :: cs) = char_bytes c ++ encode cs.
Proof. done. Qed.

Lemma encode_app cs ds : encode (cs ++ ds) = encode cs ++ encode ds.
Proof. unfold encode. by rewrite fmap_app, join_app. Qed.

Ltac div_mod_lia := zify; Z.to_euclidean_division_equations; lia.

Ltac byte_conditions :=
  unfold cont, in_range in *;
  repeat match goal with
         | H : (_ && _)%bool = true |- _ => apply andb_true_iff in H as [? ?]
         | H : (_ && _)%bool = false |- _ => apply andb_false_iff in H
         | H : (_ <=? _) = true |- _ => apply N.leb_le in H
         | H : (_ <=? _) = false |- _ => apply N.leb_gt in H
         | H : (_ <? _) = true |- _ => apply N.ltb_lt in H
         | H : (_ <? _) = false |- _ => apply N.ltb_ge in H
         | H : _ ∨ _ |- _ => destruct H
         end.

Lemma byte_of_value v b : v = Byte.to_N b → byte_of_N v = b.
Proof. intros ->. apply byte_of_N_to_N. Qed.

(** The encoder, by the length of the sequence. *)
Lemma char_bytes_cases c :
  (c < 128 → char_bytes c = [byte_of_N c]) ∧
  (128 <= c < 2048 →
    char_bytes c = [byte_of_N (192 + c / 64); byte_of_N (128 + c mod 64)]) ∧
  (2048 <= c < 65536 →
    char_bytes c = [byte_of_N (224 + c / 4096); byte_of_N (128 + c / 64 mod 64);
                    byte_of_N (128 + c mod 64)]) ∧
  (65536 <= c →
    char_bytes c = [byte_of_N (240 + c / 262144); byte_of_N (128 + c / 4096 mod 64);
                    byte_of_N (128 + c / 64 mod 64); byte_of_N (128 + c mod 64)]).
Proof.
  unfold char_bytes. split_and!; intros ?; repeat (case_match; bool_to_prop; try lia); done.
Qed.

(** A character as digits to base 64. *)
Lemma base64_digit a d : d < 64 → (a * 64 + d) / 64 = a ∧ (a * 64 + d) mod 64 = d.
Proof. intros Hd. div_mod_lia. Qed.

Lemma base64_two a d1 d2 : d1 < 64 → d2 < 64 →
  (a * 4096 + d1 * 64 + d2) / 4096 = a ∧ (a * 4096 + d1 * 64 + d2) / 64 mod 64 = d1 ∧
  (a * 4096 + d1 * 64 + d2) mod 64 = d2.
Proof.
  intros H1 H2. replace (a * 4096 + d1 * 64 + d2) with ((a * 64 + d1) * 64 + d2) by lia.
  change 4096 with (64 * 64). rewrite <- N.Div0.div_div.
  destruct (base64_digit (a * 64 + d1) d2 H2) as [-> ->].
  by destruct (base64_digit a d1 H1) as [-> ->].
Qed.

Lemma base64_three a d1 d2 d3 : d1 < 64 → d2 < 64 → d3 < 64 →
  (a * 262144 + d1 * 4096 + d2 * 64 + d3) / 262144 = a ∧
  (a * 262144 + d1 * 4096 + d2 * 64 + d3) / 4096 mod 64 = d1 ∧
  (a * 262144 + d1 * 4096 + d2 * 64 + d3) / 64 mod 64 = d2 ∧
  (a * 262144 + d1 * 4096 + d2 * 64 + d3) mod 64 = d3.
Proof.
  intros H1 H2 H3.
  replace (a * 262144 + d1 * 4096 + d2 * 64 + d3) with ((a * 4096 + d1 * 64 + d2) * 64 + d3) by lia.
  set (x := (a * 4096 + d1 * 64 + d2) * 64 + d3).
  assert (H64 : x / 262144 = x / 64 / 4096) by by rewrite N.Div0.div_div.
  assert (H64' : x / 4096 = x / 64 / 64) by by rewrite N.Div0.div_div.
  rewrite H64, H64'. subst x. destruct (base64_digit (a * 4096 + d1 * 64 + d2) d3 H3) as [-> ->].
  by destruct (base64_two a d1 d2 H1 H2) as (-> & -> & ->).
Qed.

Lemma cont_digit b : cont b = true → ∃ d, d < 64 ∧ Byte.to_N b = 128 + d ∧ Byte.to_N b mod 64 = d.
Proof.
  intros Hc. byte_conditions. exists (Byte.to_N b - 128).
  split_and!; div_mod_lia.
Qed.

(** The bytes that may follow the first one are continuation bytes. *)
Lemma second_cont (c1 c2 : bool) b lo hi lo' hi' :
  128 <= lo → hi <= 191 → 128 <= lo' → hi' <= 191 →
  (if c1 then in_range lo hi b else if c2 then in_range lo' hi' b else cont b) = true →
  cont b = true.
Proof.
  intros H1 H2 H3 H4. destruct c1; [|destruct c2; [|done]].
  all: unfold cont, in_range; intros [Ha Hb]%andb_true_iff; apply N.leb_le in Ha, Hb.
  all: apply andb_true_iff; rewrite !N.leb_le; lia.
Qed.

(** Decoding the first character of valid bytes. *)
Lemma utf8_uncons l :
  utf8_valid l = true → l ≠ [] →
  ∃ c r, l = char_bytes c ++ r ∧ scalar c ∧ utf8_valid r = true ∧ utf8_chars l = c :: utf8_chars r.
Proof.
  destruct l as [|b1 l1]; [done|]. intros Hv _. cbn [utf8_valid utf8_chars] in *.
  pose proof (byte_to_N_lt b1) as H1.
  destruct (in_range 0 0x7F b1) eqn:E1.
  { exists (Byte.to_N b1), l1. destruct (char_bytes_cases (Byte.to_N b1)) as (-> & _);
      byte_conditions; [|lia]. rewrite byte_of_N_to_N.
    split_and!; [done|left; lia|done|]. by rewrite (proj2 (N.ltb_lt _ _)) by lia. }
  assert (Hge : 128 <= Byte.to_N b1) by (byte_conditions; lia). clear E1.
  rewrite (proj2 (N.ltb_ge _ 128) Hge).
  destruct l1 as [|b2 l2]; [done|].
  destruct (in_range 0xC2 0xDF b1) eqn:E2.
  { apply andb_true_iff in Hv as [(d2 & H2 & Hb2 & ->)%cont_digit Hv]. byte_conditions.
    rewrite (proj2 (N.ltb_lt _ 224)) by lia.
    replace (Byte.to_N b1 mod 32) with (Byte.to_N b1 - 192) by div_mod_lia.
    set (a := Byte.to_N b1 - 192). destruct (base64_digit a d2 H2) as [Hq Hr].
    exists (a * 64 + d2), l2. destruct (char_bytes_cases (a * 64 + d2)) as (_ & -> & _); [|lia].
    rewrite Hq, Hr. split_and!; [|left; lia|done|done].
    simpl. f_equal; [|f_equal]; symmetry; apply byte_of_value; lia. }
  destruct l2 as [|b3 l3]; [done|].
  destruct (in_range 0xE0 0xEF b1) eqn:E3.
  { apply andb_true_iff in Hv as [[Hs (d3 & H3 & Hb3 & ->)%cont_digit]%andb_true_iff Hv].
    assert (Hs2 : cont b2 = true) by (eapply second_cont, Hs; done).
    apply cont_digit in Hs2 as (d2 & H2 & Hb2 & ->).
    unfold in_range in Hs. rewrite Hb2 in Hs. clear E2. byte_conditions.
    rewrite (proj2 (N.ltb_ge _ 224)), (proj2 (N.ltb_lt _ 240)) by lia.
    replace (Byte.to_N b1 mod 16) with (Byte.to_N b1 - 224) by div_mod_lia.
    set (a := Byte.to_N b1 - 224). destruct (base64_two a d2 d3 H2 H3) as (Hq & Hr & Hr').
    exists (a * 4096 + d2 * 64 + d3), l3.
    assert (Hc : 2048 <= a * 4096 + d2 * 64 + d3 ∧ scalar (a * 4096 + d2 * 64 + d3)).
    { unfold scalar. repeat case_match; byte_conditions; lia. }
    destruct (char_bytes_cases (a * 4096 + d2 * 64 + d3)) as (_ & _ & -> & _); [|lia].
    rewrite Hq, Hr, Hr'. split_and!; [|apply Hc|done|done].
    simpl. f_equal; [|f_equal; [|f_equal]]; symmetry; apply byte_of_value; lia. }
  destruct l3 as [|b4 l4]; [done|].
  destruct (in_range 0xF0 0xF4 b1) eqn:E4; [|done].
  apply andb_true_iff in Hv as [[[Hs (d3 & H3 & Hb3 & ->)%cont_digit]%andb_true_iff
    (d4 & H4 & Hb4 & ->)%cont_digit]%andb_true_iff Hv].
  assert (Hs2 : cont b2 = true) by (eapply second_cont, Hs; done).
  apply cont_digit in Hs2 as (d2 & H2 & Hb2 & ->).
  unfold in_range in Hs. rewrite Hb2 in Hs. clear E2 E3. byte_conditions.
  rewrite (proj2 (N.ltb_ge _ 224)), (proj2 (N.ltb_ge _ 240)) by lia.
  replace (Byte.to_N b1 mod 8) with (Byte.to_N b1 - 240) by div_mod_lia.
  set (a := Byte.to_N b1 - 240). destruct (base64_three a d2 d3 d4 H2 H3 H4) as (Hq & Hr & Hr' & Hr'').
  set (c := a * 262144 + d2 * 4096 + d3 * 64 + d4) in *. exists c, l4.
  assert (Hc : 65536 <= c ∧ scalar c).
  { unfold scalar. repeat case_match; byte_conditions; lia. }
  destruct (char_bytes_cases c) as (_ & _ & _ & ->); [|lia].
  rewrite Hq, Hr, Hr', Hr''. split_and!; [|apply Hc|done|done].
  simpl. f_equal; [|f_equal; [|f_equal; [|f_equal]]]; symmetry; apply byte_of_value; lia.
Qed.

Lemma to_N_small v : v < 256 → Byte.to_N (byte_of_N v) = v.
Proof. intros Hv. rewrite to_N_byte_of_N. by apply N.mod_small. Qed.

Lemma char_bytes_nonempty c : char_bytes c ≠ [].
Proof. unfold char_bytes. by repeat case_match. Qed.

(** Decoding an encoded character. *)
Lemma utf8_chars_char c r : scalar c → utf8_chars (char_bytes c ++ r) = c :: utf8_chars r.
Proof.
  intros Hs. assert (Hlt : c < 0x110000) by (destruct Hs; lia).
  destruct (char_bytes_cases c) as (H1 & H2 & H3 & H4).
  destruct (N.lt_ge_cases c 128) as [Hc|Hc1].
  { rewrite H1 by done. simpl. rewrite to_N_small by lia. by rewrite (proj2 (N.ltb_lt _ _)). }
  destruct (N.lt_ge_cases c 2048) as [Hc|Hc2].
  { rewrite H2 by done. simpl. rewrite !to_N_small by div_mod_lia.
    rewrite (proj2 (N.ltb_ge _ 128)), (proj2 (N.ltb_lt _ 224)) by div_mod_lia. f_equal. div_mod_lia. }
  destruct (N.lt_ge_cases c 65536) as [Hc|Hc3].
  { rewrite H3 by done. simpl. rewrite !to_N_small by div_mod_lia.
    rewrite (proj2 (N.ltb_ge _ 128)), (proj2 (N.ltb_ge _ 224)), (proj2 (N.ltb_lt _ 240)) by div_mod_lia.
    f_equal. div_mod_lia. }
  rewrite H4 by done. simpl. rewrite !to_N_small by div_mod_lia.
  rewrite (proj2 (N.ltb_ge _ 128)), (proj2 (N.ltb_ge _ 224)), (proj2 (N.ltb_ge _ 240)) by div_mod_lia.
  f_equal. div_mod_lia.
Qed.

Lemma utf8_chars_encode cs : Forall scalar cs → utf8_chars (encode cs) = cs.
Proof.
  induction 1 as [|c cs Hc _ IH]; [done|]. by rewrite encode_cons, utf8_chars_char, IH.
Qed.

(** Valid bytes are the encoding of their characters. *)
Lemma utf8_encode_chars l :
  utf8_valid l = true → encode (utf8_chars l) = l ∧ Forall scalar (utf8_chars l).
Proof.
  remember (length l) as n eqn:Hn. revert l Hn. induction n as [n IH] using lt_wf_ind.
  intros l -> Hv. destruct (decide (l = [])) as [->|Hne]; [by split; [|constructor]|].
  destruct (utf8_uncons l Hv Hne) as (c & r & -> & Hc & Hr & ->). rewrite encode_cons.
  destruct (IH (length r)) with r as [-> Hs]; [|done|done|by split; [|constructor]].
  rewrite length_app. pose proof (char_bytes_nonempty c). destruct (char_bytes c); [done|simpl; lia].
Qed.

(** A string is its characters. *)
Lemma string_chars text :
  utf8_valid (bytes_of text) = true →
  ∃ cs, bytes_of text = encode cs ∧ Forall scalar cs ∧ utf8_chars (bytes_of text) = cs.
Proof. intros Hv. destruct (utf8_encode_chars _ Hv) as [He Hs]. eauto. Qed.

(** ** [char_indices] and slicing *)

(** The characters with the byte offsets they start at. *)
Fixpoint char_indices_from (off : nat) (cs : list N) : list (nat * N) :=
  match cs with
  | [] => []
  | c :: cs' => (off, c) :: char_indices_from (off + length (char_bytes c)) cs'
  end.

Definition char_indices (text : string) : list (nat * N) :=
  char_indices_from 0 (utf8_chars (bytes_of text)).

(** [&text[start..end]] at character boundaries; elsewhere the str_slice panics. *)
Definition str_slice (text : string) (start stop : nat) : string :=
  string_of (take (stop - start) (drop start (bytes_of text))).

Definition is_char_boundary (text : string) (i : nat) : Prop :=
  ∃ cs ds, utf8_chars (bytes_of text) = cs ++ ds ∧ i = length (encode cs).

Lemma str_slice_encode text cs ds es :
  bytes_of text = encode (cs ++ ds ++ es) →
  str_slice text (length (encode cs)) (length (encode (cs ++ ds))) = string_of (encode ds).
Proof.
  intros Ht. unfold str_slice. rewrite Ht, !encode_app, length_app. f_equal.
  rewrite drop_app_length, Nat.add_comm, Nat.add_sub. apply take_app_length.
Qed.
