(* ===== verification/Index.v ===== *)
(** * Collection indexes

    Models the in-memory indexes of [crates/auradb-index/src/lib.rs]: the unique,
    secondary and document-path equality maps, the inverted text indexes with the
    statistics BM25 needs, and the entries of the exact vector indexes; building them
    from a schema, inserting and removing a record, the uniqueness check, equality
    lookup, and rebuilding.

    The cache of approximate graphs is derived data that every change drops; it is kept
    beside this state, in [Ann].  The metadata of graphs in a loaded snapshot is only
    reported and not modelled.  Hash maps are [gmap]s, whose iteration order no operation
    here depends on. *)

From Stdlib Require Import Floats.SpecFloat.
From S2P Require Import Prelude BTree Text Value Core Eval.

Local Open Scope N_scope.

(** [serde_json::to_string] on a JSON value. *)
Class JsonText `{JsonNumber} := json_text : Json → string.
(** Text that is read back is the value that was written. *)
Class JsonTextLaws `{JsonText} : Prop := json_text_inj : ∀ j k, json_text j = json_text k → j = k.

(** ** State *)

Record TextIndex := mkTextIndex {
  ti_postings : gmap string (gmap N N);
  ti_doc_lengths : gmap N N;
  ti_total_tokens : N;
}.

Definition text_index_default : TextIndex := mkTextIndex ∅ ∅ 0.

Record ExactVectorIndex := mkVectorIndex {
  vi_dim : nat;
  vi_entries : gmap N (list f32);
}.

Definition vector_index_new (dim : nat) : ExactVectorIndex := mkVectorIndex dim ∅.

Definition vector_insert (id : RecordId) (v : list f32) (vi : ExactVectorIndex) : ExactVectorIndex :=
  mkVectorIndex (vi_dim vi) (<[id := v]> (vi_entries vi)).
Definition vector_remove (id : RecordId) (vi : ExactVectorIndex) : ExactVectorIndex :=
  mkVectorIndex (vi_dim vi) (delete id (vi_entries vi)).

Record CollectionIndexes := mkIndexes {
  ci_primary_field : option string;
  ci_unique_fields : list string;
  ci_secondary_fields : list string;
  ci_unique_maps : gmap string (gmap string N);
  ci_secondary_maps : gmap string (gmap string (list N));
  ci_doc_path_maps : gmap string (gmap string (list N));
  ci_text_maps : gmap string TextIndex;
  ci_vector_maps : gmap string ExactVectorIndex;
}.

Definition set_unique_maps (m : gmap string (gmap string N)) (ci : CollectionIndexes) :=
  mkIndexes (ci_primary_field ci) (ci_unique_fields ci) (ci_secondary_fields ci) m
    (ci_secondary_maps ci) (ci_doc_path_maps ci) (ci_text_maps ci) (ci_vector_maps ci).
Definition set_secondary_maps (m : gmap string (gmap string (list N))) (ci : CollectionIndexes) :=
  mkIndexes (ci_primary_field ci) (ci_unique_fields ci) (ci_secondary_fields ci)
    (ci_unique_maps ci) m (ci_doc_path_maps ci) (ci_text_maps ci) (ci_vector_maps ci).
Definition set_vector_maps (m : gmap string ExactVectorIndex) (ci : CollectionIndexes) :=
  mkIndexes (ci_primary_field ci) (ci_unique_fields ci) (ci_secondary_fields ci)
    (ci_unique_maps ci) (ci_secondary_maps ci) (ci_doc_path_maps ci) (ci_text_maps ci) m.
Definition set_fields (primary : option string) (unique secondary : list string)
    (ci : CollectionIndexes) :=
  mkIndexes primary unique secondary (ci_unique_maps ci) (ci_secondary_maps ci)
    (ci_doc_path_maps ci) (ci_text_maps ci) (ci_vector_maps ci).

(** ** Building from a schema *)

Definition indexes_empty : CollectionIndexes := mkIndexes None [] [] ∅ ∅ ∅ ∅ ∅.

(** One pass of the loop over the fields. *)
Definition index_field (ci : CollectionIndexes) (field : FieldDef) : CollectionIndexes :=
  let name := fd_name field in
  let ci := if fd_primary_key field
            then set_fields (Some name) (ci_unique_fields ci) (ci_secondary_fields ci) ci
            else ci in
  let ci := if (fd_primary_key field || fd_unique field)%bool
            then set_unique_maps (<[name := ∅]> (ci_unique_maps ci))
                   (set_fields (ci_primary_field ci) (ci_unique_fields ci ++ [name])
                      (ci_secondary_fields ci) ci)
            else if fd_indexed field
            then set_secondary_maps (<[name := ∅]> (ci_secondary_maps ci))
                   (set_fields (ci_primary_field ci) (ci_unique_fields ci)
                      (ci_secondary_fields ci ++ [name]) ci)
            else ci in
  match fd_type field with
  | FVector dim => set_vector_maps (<[name := vector_index_new dim]> (ci_vector_maps ci)) ci
  | _ => ci
  end.

(** [.entry(path).or_insert_with(..)]. *)
Definition or_insert {A} (k : string) (v : A) (m : gmap string A) : gmap string A :=
  match m !! k with Some _ => m | None => <[k := v]> m end.

Definition from_schema (schema : CollectionSchema) : CollectionIndexes :=
  let ci := foldl index_field indexes_empty (cs_fields schema) in
  mkIndexes (ci_primary_field ci) (ci_unique_fields ci) (ci_secondary_fields ci)
    (ci_unique_maps ci) (ci_secondary_maps ci)
    (foldl (λ m path, or_insert path ∅ m) ∅ (document_path_indexes schema))
    (foldl (λ m field, or_insert field text_index_default m) ∅ (full_text_indexes schema))
    (ci_vector_maps ci).

(** ** Text indexes *)

Section text.
Context `{Unicode}.

(** [*postings.entry(term).or_default().entry(id).or_insert(0) += 1]. *)
Definition add_term (id : RecordId) (postings : gmap string (gmap N N)) (term : string)
  : gmap string (gmap N N) :=
  let m := default ∅ (postings !! term) in
  <[term := <[id := default 0 (m !! id) + 1]> m]> postings.

Definition text_add (id : RecordId) (text : string) (ti : TextIndex) : TextIndex :=
  let terms := tokenize text in
  let postings := foldl (add_term id) (ti_postings ti) terms in
  let len := N.of_nat (length terms) in
  if 0 <? len
  then mkTextIndex postings
         (<[id := default 0 (ti_doc_lengths ti !! id) + len]> (ti_doc_lengths ti))
         (ti_total_tokens ti + len)
  else mkTextIndex postings (ti_doc_lengths ti) (ti_total_tokens ti).

Definition remove_term (id : RecordId) (postings : gmap string (gmap N N)) (term : string)
  : gmap string (gmap N N) :=
  match postings !! term with
  | Some m =>
      let m := delete id m in
      if bool_decide (m = ∅) then delete term postings else <[term := m]> postings
  | None => postings
  end.

Definition text_remove (id : RecordId) (text : string) (ti : TextIndex) : TextIndex :=
  let terms := tokenize text in
  let postings := foldl (remove_term id) (ti_postings ti) terms in
  let len := N.of_nat (length terms) in
  match ti_doc_lengths ti !! id with
  | Some existing =>
      let dec := N.min len existing in
      mkTextIndex postings
        (if existing <=? len then delete id (ti_doc_lengths ti)
         else <[id := existing - len]> (ti_doc_lengths ti))
        (ti_total_tokens ti - dec)
  | None => mkTextIndex postings (ti_doc_lengths ti) (ti_total_tokens ti)
  end.
End text.

(** ** Operations *)

Section indexes.
Context `{Unicode, JsonText}.

Definition index_key (value : Value) : string := json_text (to_json value).

(** The key under which a value is indexed; nulls are not. *)
Definition non_null_key (value : option Value) : option string :=
  match value with
  | Some v => if is_null v then None else Some (index_key v)
  | None => None
  end.

Definition has_equality_index (ci : CollectionIndexes) (field : string) : bool :=
  bool_decide (is_Some (ci_unique_maps ci !! field))
  || bool_decide (is_Some (ci_secondary_maps ci !! field))
  || bool_decide (is_Some (ci_doc_path_maps ci !! field)).

(** [self.unique_maps[field]]; [from_schema] makes a map for every unique field. *)
Definition unique_map (ci : CollectionIndexes) (field : string) : gmap string N :=
  default ∅ (ci_unique_maps ci !! field).

Definition check_unique_field (ci : CollectionIndexes) (record : Rec)
    (replacing : option RecordId) (field : string) : Res unit :=
  match non_null_key (record_get record field) with
  | None => Ok tt
  | Some key =>
      match unique_map ci field !! key with
      | Some existing =>
          if negb (bool_decide (Some existing = replacing)) && negb (existing =? rec_id record)
          then Err EUniqueViolation
          else Ok tt
      | None => Ok tt
      end
  end.

Definition check_unique (ci : CollectionIndexes) (record : Rec) (replacing : option RecordId)
  : Res unit :=
  for_each (check_unique_field ci record replacing) (ci_unique_fields ci).

(** What [insert] and [remove] do to one map. *)
Definition unique_insert (id : RecordId) (value : option Value) (m : gmap string N)
  : gmap string N :=
  match non_null_key value with
  | Some key => <[key := id]> m
  | None => m
  end.

Definition posting_insert (id : RecordId) (value : option Value) (m : gmap string (list N))
  : gmap string (list N) :=
  match non_null_key value with
  | Some key => <[key := default [] (m !! key) ++ [id]]> m
  | None => m
  end.

Definition unique_remove (id : RecordId) (value : option Value) (m : gmap string N)
  : gmap string N :=
  match value with
  | Some v =>
      let key := index_key v in
      if bool_decide (m !! key = Some id) then delete key m else m
  | None => m
  end.

Definition posting_remove (id : RecordId) (value : option Value) (m : gmap string (list N))
  : gmap string (list N) :=
  match value with
  | Some v =>
      let key := index_key v in
      match m !! key with
      | Some ids => <[key := filter (λ j, j ≠ id) ids]> m
      | None => m
      end
  | None => m
  end.

Definition vector_of (value : option Value) : option (list f32) := value ≫= as_vector.
Definition text_of (value : option Value) : option string := value ≫= as_text.

Definition index_insert (record : Rec) (ci : CollectionIndexes) : CollectionIndexes :=
  let id := rec_id record in
  mkIndexes (ci_primary_field ci) (ci_unique_fields ci) (ci_secondary_fields ci)
    (map_imap (λ field m, Some (unique_insert id (record_get record field) m))
       (ci_unique_maps ci))
    (map_imap (λ field m, Some (posting_insert id (record_get record field) m))
       (ci_secondary_maps ci))
    (map_imap (λ path m, Some (posting_insert id (record_get_path record path) m))
       (ci_doc_path_maps ci))
    (map_imap (λ field ti, Some (match text_of (record_get record field) with
                                 | Some s => text_add id s ti
                                 | None => ti
                                 end)) (ci_text_maps ci))
    (map_imap (λ field vi, Some (match vector_of (record_get record field) with
                                 | Some v => vector_insert id v vi
                                 | None => vi
                                 end)) (ci_vector_maps ci)).

Definition index_remove (record : Rec) (ci : CollectionIndexes) : CollectionIndexes :=
  let id := rec_id record in
  mkIndexes (ci_primary_field ci) (ci_unique_fields ci) (ci_secondary_fields ci)
    (map_imap (λ field m, Some (unique_remove id (record_get record field) m))
       (ci_unique_maps ci))
    (map_imap (λ field m, Some (posting_remove id (record_get record field) m))
       (ci_secondary_maps ci))
    (map_imap (λ path m, Some (posting_remove id (record_get_path record path) m))
       (ci_doc_path_maps ci))
    (map_imap (λ field ti, Some (match text_of (record_get record field) with
                                 | Some s => text_remove id s ti
                                 | None => ti
                                 end)) (ci_text_maps ci))
    (vector_remove id <$> ci_vector_maps ci).

Definition lookup_eq (ci : CollectionIndexes) (field : string) (value : Value)
  : option (list RecordId) :=
  let key := index_key value in
  match ci_unique_maps ci !! field with
  | Some m => Some (match m !! key with Some id => [id] | None => [] end)
  | None =>
      match ci_secondary_maps ci !! field with
      | Some m => Some (default [] (m !! key))
      | None =>
          match ci_doc_path_maps ci !! field with
          | Some m => Some (default [] (m !! key))
          | None => None
          end
      end
  end.

Definition primary_lookup (ci : CollectionIndexes) (value : Value) : option RecordId :=
  match ci_primary_field ci with
  | Some field => match ci_unique_maps ci !! field with
                  | Some m => m !! index_key value
                  | None => None
                  end
  | None => None
  end.

(** The clearing at the start of [rebuild]. *)
Definition clear_indexes (ci : CollectionIndexes) : CollectionIndexes :=
  mkIndexes (ci_primary_field ci) (ci_unique_fields ci) (ci_secondary_fields ci)
    ((λ _, ∅) <$> ci_unique_maps ci) ((λ _, ∅) <$> ci_secondary_maps ci)
    ((λ _, ∅) <$> ci_doc_path_maps ci) ((λ _, text_index_default) <$> ci_text_maps ci)
    ((λ vi, vector_index_new (vi_dim vi)) <$> ci_vector_maps ci).

Fixpoint rebuild_loop (records : list Rec) : SE CollectionIndexes Error unit := λ ci,
  match records with
  | [] => (ci, Ok tt)
  | record :: rest =>
      match check_unique ci record None with
      | Err e => (ci, Err e)
      | Ok _ => rebuild_loop rest (index_insert record ci)
      end
  end.

Definition rebuild (records : list Rec) : SE CollectionIndexes Error unit := λ ci,
  rebuild_loop records (clear_indexes ci).

(** One test of [consistency_check]: a non-null value must be found in the index. *)
Definition check_entry (ci : CollectionIndexes) (field : string) (value : option Value)
    (id : RecordId) : Res unit :=
  match value with
  | Some v =>
      if is_null v then Ok tt
      else if bool_decide (id ∈ default [] (lookup_eq ci field v)) then Ok tt
           else Err ECorruption
  | None => Ok tt
  end.

Definition check_record (ci : CollectionIndexes) (record : Rec) : Res unit :=
  let id := rec_id record in
  let? _ := for_each (λ field, check_entry ci field (record_get record field) id)
              (ci_unique_fields ci ++ ci_secondary_fields ci) in
  let? _ := for_each (λ path, check_entry ci path (record_get_path record path) id)
              ((map_to_list (ci_doc_path_maps ci)).*1) in
  for_each (λ '(field, ti),
      match text_of (record_get record field) with
      | Some s =>
          for_each (λ term,
            if match ti_postings ti !! term with
               | Some m => bool_decide (is_Some (m !! id))
               | None => false
               end
            then Ok tt else Err ECorruption) (tokenize s)
      | None => Ok tt
      end) (map_to_list (ci_text_maps ci)).

Definition consistency_check (ci : CollectionIndexes) (records : list Rec) : Res nat :=
  let? _ := for_each (check_record ci) records in Ok (length records).
End indexes.

(** ** What an index holds

    [recs] are the live records of the collection by id. *)

Definition unique_ok (key : Rec → option string) (m : gmap string N) (recs : gmap N Rec) : Prop :=
  ∀ k id, m !! k = Some id ↔ ∃ r, recs !! id = Some r ∧ key r = Some k.

Definition posting_ok (key : Rec → option string) (m : gmap string (list N))
    (recs : gmap N Rec) : Prop :=
  ∀ k, NoDup (default [] (m !! k)) ∧
    ∀ id, id ∈ default [] (m !! k) ↔ ∃ r, recs !! id = Some r ∧ key r = Some k.

Definition vector_ok (vec : Rec → option (list f32)) (vi : ExactVectorIndex)
    (recs : gmap N Rec) : Prop :=
  ∀ id, vi_entries vi !! id = recs !! id ≫= vec.

(** The frequency a posting list records, zero when there is none. *)
Definition term_freq (postings : gmap string (gmap N N)) (term : string) (id : N) : N :=
  default 0 (postings !! term ≫= (.!! id)).

Definition occurrences (term : string) (terms : list string) : N :=
  N.of_nat (length (filter (λ t, t = term) terms)).

Definition nonzero (n : N) : option N := if n =? 0 then None else Some n.

Definition postings_wf (postings : gmap string (gmap N N)) : Prop :=
  ∀ term m, postings !! term = Some m → m ≠ ∅ ∧ ∀ id n, m !! id = Some n → 0 < n.

Definition total_length (lengths : gmap N N) : N := map_fold (λ _ n acc, n + acc) 0 lengths.

Section index_spec.
Context `{Unicode, JsonText}.

Definition field_key (field : string) (r : Rec) : option string :=
  non_null_key (record_get r field).
Definition path_key (path : string) (r : Rec) : option string :=
  non_null_key (record_get_path r path).
Definition field_text (field : string) (r : Rec) : option string := text_of (record_get r field).
Definition field_vector (field : string) (r : Rec) : option (list f32) :=
  vector_of (record_get r field).

Definition tokens_of (text : Rec → option string) (recs : gmap N Rec) (id : N) : list string :=
  match recs !! id ≫= text with Some s => tokenize s | None => [] end.

Record text_ok (text : Rec → option string) (ti : TextIndex) (recs : gmap N Rec) : Prop := {
  to_wf : postings_wf (ti_postings ti);
  to_freq : ∀ term id,
    term_freq (ti_postings ti) term id = occurrences term (tokens_of text recs id);
  to_length : ∀ id,
    ti_doc_lengths ti !! id = nonzero (N.of_nat (length (tokens_of text recs id)));
  to_total : ti_total_tokens ti = total_length (ti_doc_lengths ti);
}.

(** Every map of the collection agrees with the live records. *)
Record index_ok (ci : CollectionIndexes) (recs : gmap N Rec) : Prop := {
  ix_fields : ∀ field, field ∈ ci_unique_fields ci ↔ is_Some (ci_unique_maps ci !! field);
  ix_unique : ∀ field m, ci_unique_maps ci !! field = Some m → unique_ok (field_key field) m recs;
  ix_secondary : ∀ field m, ci_secondary_maps ci !! field = Some m →
    posting_ok (field_key field) m recs;
  ix_doc_path : ∀ path m, ci_doc_path_maps ci !! path = Some m → posting_ok (path_key path) m recs;
  ix_text : ∀ field ti, ci_text_maps ci !! field = Some ti → text_ok (field_text field) ti recs;
  ix_vector : ∀ field vi, ci_vector_maps ci !! field = Some vi →
    vector_ok (field_vector field) vi recs;
}.

(** The constraint the unique maps enforce: no two records share a key. *)
Definition unique_values (fields : list string) (recs : gmap N Rec) : Prop :=
  ∀ field i j r s k, field ∈ fields → recs !! i = Some r → recs !! j = Some s →
    field_key field r = Some k → field_key field s = Some k → i = j.
End index_spec.

(** ** Equality maps *)

Section equality_maps.
Context `{JsonText}.
Implicit Types (recs : gmap N Rec) (value : option Value).

Lemma unique_insert_ok key m recs id r value :
  unique_ok key m recs → recs !! id = None → key r = non_null_key value →
  (∀ k, key r = Some k → m !! k = None) →
  unique_ok key (unique_insert id value m) (<[id := r]> recs).
Proof.
  intros Hok Hid Hkey Hfree k j. unfold unique_insert. rewrite <- Hkey.
  destruct (key r) as [k0|] eqn:Ek.
  - destruct (decide (k = k0)) as [->|Hne].
    + rewrite lookup_insert_eq. split.
      * intros [= <-]. exists r. by rewrite lookup_insert_eq.
      * intros (s & [[-> ->]|[Hj Hs]]%lookup_insert_Some & Hk); [done|].
        specialize (Hfree k0 eq_refl).
        assert (m !! k0 = Some j) as Hm by (apply Hok; eauto). congruence.
    + rewrite lookup_insert_ne, (Hok k j) by done. split.
      * intros (s & Hs & Hk). exists s. rewrite lookup_insert_ne by congruence. done.
      * intros (s & [[-> ->]|[Hj Hs]]%lookup_insert_Some & Hk); [congruence|eauto].
  - rewrite (Hok k j). split.
    + intros (s & Hs & Hk). exists s. rewrite lookup_insert_ne by congruence. done.
    + intros (s & [[-> ->]|[Hj Hs]]%lookup_insert_Some & Hk); [congruence|eauto].
Qed.

(** A record is found under its own key only. *)
Lemma unique_remove_ok key m recs id r value :
  unique_ok key m recs → recs !! id = Some r → key r = non_null_key value →
  unique_ok key (unique_remove id value m) (delete id recs).
Proof.
  intros Hok Hid Hkey k j.
  assert (Hnew : (∃ s, delete id recs !! j = Some s ∧ key s = Some k) ↔
                 m !! k = Some j ∧ j ≠ id).
  { rewrite (Hok k j). setoid_rewrite lookup_delete_Some. naive_solver. }
  assert (Hown : ∀ k', m !! k' = Some id → key r = Some k').
  { intros k' (s & Hs & Hk)%Hok. by rewrite Hid in Hs; simplify_eq. }
  rewrite Hnew. unfold unique_remove. destruct value as [v|].
  - case_bool_decide as Hm.
    + rewrite lookup_delete_Some. split; [|naive_solver congruence].
      intros [Hne Hj]. split; [done|]. intros ->. apply Hown in Hm, Hj. congruence.
    + split; [|naive_solver]. intros Hj. split; [done|]. intros ->. pose proof (Hown _ Hj) as Hk.
      rewrite Hkey in Hk. simpl in Hk. destruct (is_null v); [done|]. congruence.
  - split; [|naive_solver]. intros Hj. split; [done|]. intros ->. apply Hown in Hj.
    by rewrite Hkey in Hj.
Qed.

Lemma posting_insert_ok key m recs id r value :
  posting_ok key m recs → recs !! id = None → key r = non_null_key value →
  posting_ok key (posting_insert id value m) (<[id := r]> recs).
Proof.
  intros Hok Hid Hkey k. unfold posting_insert. rewrite <- Hkey.
  assert (Hnew : ∀ j, (∃ s, <[id := r]> recs !! j = Some s ∧ key s = Some k) ↔
                      j ∈ default [] (m !! k) ∨ (j = id ∧ key r = Some k)).
  { intros j. destruct (Hok k) as [_ ->]. setoid_rewrite lookup_insert_Some. split.
    - intros (s & [[-> ->]|[Hj Hs]] & Hk); eauto.
    - intros [(s & Hs & Hk)|[-> Hk]]; [|eauto]. exists s. split; [|done]. right. split; [|done].
      congruence. }
  assert (Hfresh : ∀ k', id ∉ default [] (m !! k')).
  { intros k' (s & Hs & _)%Hok. congruence. }
  setoid_rewrite Hnew. destruct (Hok k) as [Hnd _].
  destruct (key r) as [k0|] eqn:Ek; [|split; [done|]; intros j; naive_solver].
  destruct (decide (k = k0)) as [->|Hne].
  - rewrite lookup_insert_eq. simpl. split.
    + apply NoDup_app. split_and!; [done| |apply NoDup_singleton].
      intros j Hj ->%list_elem_of_singleton. by apply (Hfresh k0).
    + intros j. rewrite elem_of_app, list_elem_of_singleton. naive_solver.
  - rewrite lookup_insert_ne by done. split; [done|]. intros j. naive_solver.
Qed.

Lemma posting_remove_ok key m recs id r value :
  posting_ok key m recs → recs !! id = Some r → key r = non_null_key value →
  posting_ok key (posting_remove id value m) (delete id recs).
Proof.
  intros Hok Hid Hkey k.
  assert (Hnew : ∀ j, (∃ s, delete id recs !! j = Some s ∧ key s = Some k) ↔
                      j ∈ default [] (m !! k) ∧ j ≠ id).
  { intros j. destruct (Hok k) as [_ ->]. setoid_rewrite lookup_delete_Some. naive_solver. }
  assert (Hown : ∀ k', id ∈ default [] (m !! k') → key r = Some k').
  { intros k' (s & Hs & Hk)%Hok. by rewrite Hid in Hs; simplify_eq. }
  setoid_rewrite Hnew. destruct (Hok k) as [Hnd _]. unfold posting_remove.
  destruct value as [v|]; [|split; [done|]; intros j; split; [|naive_solver]; intros Hj;
    split; [done|]; intros ->; apply Hown in Hj; by rewrite Hkey in Hj].
  destruct (decide (k = index_key v)) as [->|Hne].
  - destruct (m !! index_key v) as [ids|] eqn:Em.
    + rewrite lookup_insert_eq. simpl in *. split; [by apply NoDup_filter|].
      intros j. rewrite list_elem_of_filter. naive_solver.
    + rewrite Em. simpl. split; [constructor|]. set_solver.
  - assert (Hsame : default [] ((match m !! index_key v with
               | Some ids => <[index_key v:=filter (λ j, j ≠ id) ids]> m
               | None => m end) !! k) = default [] (m !! k))
      by (destruct (m !! index_key v); [by rewrite lookup_insert_ne by done|done]).
    rewrite Hsame. split; [done|]. intros j. split; [|naive_solver]. intros Hj. split; [done|].
    intros ->. apply Hown in Hj. rewrite Hkey in Hj. simpl in Hj. destruct (is_null v); [done|].
    congruence.
Qed.
End equality_maps.

(** ** Text indexes *)

Lemma term_freq_insert P term m t j :
  term_freq (<[term := m]> P) t j = if decide (t = term) then default 0 (m !! j) else term_freq P t j.
Proof.
  unfold term_freq. case_decide as Ht; subst; [by rewrite lookup_insert_eq|].
  by rewrite lookup_insert_ne.
Qed.

Lemma add_term_freq id P term t j :
  term_freq (add_term id P term) t j =
    term_freq P t j + (if decide (t = term ∧ j = id) then 1 else 0).
Proof.
  unfold add_term. rewrite term_freq_insert. case_decide as Ht; subst.
  - assert (Hd : ∀ i, default 0 (default ∅ (P !! term) !! i) = term_freq P term i).
    { intros i. unfold term_freq. destruct (P !! term); simpl; [done|]. by rewrite lookup_empty. }
    destruct (decide (j = id)) as [->|Hj].
    + rewrite lookup_insert_eq, Hd. simpl. rewrite decide_True by done. done.
    + rewrite lookup_insert_ne, Hd, decide_False by naive_solver. lia.
  - rewrite decide_False by naive_solver. lia.
Qed.

Lemma add_term_wf id P term : postings_wf P → postings_wf (add_term id P term).
Proof.
  intros HP t m. unfold add_term. rewrite lookup_insert_Some. intros [[<- <-]|[_ Hm]]; [|eauto].
  split; [apply insert_non_empty|]. intros j n. rewrite lookup_insert_Some.
  intros [[_ <-]|[_ Hj]]; [lia|]. destruct (P !! term) as [m|] eqn:E; [|done].
  by apply (HP term m E) in Hj.
Qed.

Lemma occurrences_cons t x l :
  occurrences t (x :: l) = (if decide (t = x) then 1 else 0) + occurrences t l.
Proof.
  unfold occurrences. rewrite filter_cons. case_decide as Hx; subst.
  - rewrite decide_True by done. simpl length. lia.
  - rewrite decide_False by done. lia.
Qed.

Lemma occurrences_pos t l : t ∈ l → 0 < occurrences t l.
Proof.
  intros Hl. induction l as [|x l IH]; [set_solver|]. rewrite occurrences_cons.
  case_decide; [lia|]. assert (Hin : t ∈ l) by set_solver. specialize (IH Hin). lia.
Qed.

Lemma occurrences_zero t l : t ∉ l → occurrences t l = 0.
Proof.
  intros Hl. induction l as [|x l IH]; [done|]. apply not_elem_of_cons in Hl as [Hx Hl].
  rewrite occurrences_cons, IH, decide_False by done. done.
Qed.

Lemma add_terms id terms P :
  postings_wf P →
  postings_wf (foldl (add_term id) P terms) ∧
  ∀ t j, term_freq (foldl (add_term id) P terms) t j =
           term_freq P t j + (if decide (j = id) then occurrences t terms else 0).
Proof.
  revert P. induction terms as [|x terms IH]; intros P HP; simpl.
  - split; [done|]. intros t j. case_decide; unfold occurrences; simpl; lia.
  - destruct (IH (add_term id P x)) as [Hwf Hfr]; [by apply add_term_wf|].
    split; [done|]. intros t j. rewrite Hfr, add_term_freq, occurrences_cons.
    destruct (decide (j = id)) as [->|Hj]; [|rewrite decide_False by naive_solver; lia].
    destruct (decide (t = x)) as [->|Ht].
    + rewrite decide_True by done. lia.
    + rewrite decide_False by naive_solver. lia.
Qed.

Lemma remove_term_freq id P term t j :
  term_freq (remove_term id P term) t j =
    if decide (t = term ∧ j = id) then 0 else term_freq P t j.
Proof.
  unfold remove_term. destruct (P !! term) as [m|] eqn:Em.
  2:{ case_decide as Hd; [|done]. destruct Hd as [-> ->]. unfold term_freq. by rewrite Em. }
  assert (Hdel : ∀ Q, (Q !! term = None ∧ delete id m = ∅ ∨ Q !! term = Some (delete id m)) →
     (∀ u, u ≠ term → Q !! u = P !! u) →
     term_freq Q t j = if decide (t = term ∧ j = id) then 0 else term_freq P t j).
  { intros Q Hq Hu. unfold term_freq. destruct (decide (t = term)) as [->|Ht].
    - rewrite Em. simpl.
      replace (Q !! term ≫= (.!! j)) with (delete id m !! j)
        by (destruct Hq as [[-> ->]| ->]; [by rewrite lookup_empty|done]).
      destruct (decide (j = id)) as [->|Hj].
      + rewrite decide_True, lookup_delete_eq by done. done.
      + by rewrite decide_False, lookup_delete_ne by naive_solver.
    - by rewrite Hu, decide_False by naive_solver. }
  case_bool_decide as He; apply Hdel.
  - left. by rewrite lookup_delete_eq.
  - intros u Hu. by rewrite lookup_delete_ne.
  - right. by rewrite lookup_insert_eq.
  - intros u Hu. by rewrite lookup_insert_ne.
Qed.

Lemma remove_term_wf id P term : postings_wf P → postings_wf (remove_term id P term).
Proof.
  intros HP t m. unfold remove_term. destruct (P !! term) as [m0|] eqn:E; [|eauto].
  case_bool_decide as He.
  - rewrite lookup_delete_Some. intros [_ Hm]. by apply (HP t).
  - rewrite lookup_insert_Some. intros [[<- <-]|[_ Hm]]; [|eauto]. split; [done|].
    intros j n. rewrite lookup_delete_Some. intros [_ Hj]. by apply (HP term m0 E) in Hj.
Qed.

Lemma remove_terms id terms P :
  postings_wf P →
  postings_wf (foldl (remove_term id) P terms) ∧
  ∀ t j, term_freq (foldl (remove_term id) P terms) t j =
           if decide (j = id ∧ t ∈ terms) then 0 else term_freq P t j.
Proof.
  revert P. induction terms as [|x terms IH]; intros P HP; simpl.
  - split; [done|]. intros t j. rewrite decide_False by set_solver. done.
  - destruct (IH (remove_term id P x)) as [Hwf Hfr]; [by apply remove_term_wf|].
    split; [done|]. intros t j. rewrite Hfr, remove_term_freq.
    destruct (decide (j = id ∧ t ∈ x :: terms)) as [[-> Ht]|Hn].
    + apply elem_of_cons in Ht as [->|Ht]; [|by rewrite decide_True].
      case_decide; [done|]. by rewrite decide_True.
    + rewrite !decide_False by set_solver. done.
Qed.

Lemma total_length_insert i n m :
  m !! i = None → total_length (<[i := n]> m) = n + total_length m.
Proof. intros Hi. unfold total_length. rewrite map_fold_insert_L; [done|lia|done]. Qed.

Lemma total_length_delete i n m :
  m !! i = Some n → total_length m = n + total_length (delete i m).
Proof.
  intros Hi. rewrite <- (insert_delete_id m i n Hi) at 1. apply total_length_insert.
  apply lookup_delete_eq.
Qed.

Section text_lemmas.
Context `{Unicode}.

Lemma tokens_of_insert text recs id r j :
  tokens_of text (<[id := r]> recs) j =
    if decide (j = id) then match text r with Some s => tokenize s | None => [] end
    else tokens_of text recs j.
Proof.
  unfold tokens_of. case_decide as Hj; subst; [by rewrite lookup_insert_eq|].
  by rewrite lookup_insert_ne.
Qed.

Lemma tokens_of_delete text recs id j :
  tokens_of text (delete id recs) j = if decide (j = id) then [] else tokens_of text recs j.
Proof.
  unfold tokens_of. case_decide as Hj; subst; [by rewrite lookup_delete_eq|].
  by rewrite lookup_delete_ne.
Qed.

Lemma nonzero_pos n : 0 < n → nonzero n = Some n.
Proof. unfold nonzero. case_if; bool_to_prop; [lia|done]. Qed.

Lemma text_add_ok text ti recs id r s :
  text_ok text ti recs → recs !! id = None → text r = Some s →
  text_ok text (text_add id s ti) (<[id := r]> recs).
Proof.
  intros [Hwf Hfr Hlen Htot] Hid Hs.
  destruct (add_terms id (tokenize s) _ Hwf) as [Hwf' Hfr'].
  assert (Hold : tokens_of text recs id = []) by (unfold tokens_of; by rewrite Hid).
  assert (Hl0 : ti_doc_lengths ti !! id = None) by (by rewrite Hlen, Hold).
  assert (Hfreq : ∀ t j, term_freq (foldl (add_term id) (ti_postings ti) (tokenize s)) t j =
    occurrences t (tokens_of text (<[id := r]> recs) j)).
  { intros t j. rewrite Hfr', tokens_of_insert, Hs, Hfr.
    case_decide; subst; [rewrite Hold; unfold occurrences; simpl; lia|lia]. }
  unfold text_add. rewrite Hl0. cbn [default]. case_if; bool_to_prop.
  - split; simpl; try done.
    + intros j. rewrite tokens_of_insert, Hs. destruct (decide (j = id)) as [->|Hj].
      * rewrite lookup_insert_eq. by rewrite nonzero_pos.
      * by rewrite lookup_insert_ne, Hlen by done.
    + rewrite total_length_insert, Htot by done. lia.
  - assert (Hnil : tokenize s = []) by (destruct (tokenize s); [done|simpl in *; lia]).
    split; simpl; try done. intros j. rewrite tokens_of_insert, Hs, Hnil.
    case_decide; subst; [by rewrite Hl0|apply Hlen].
Qed.

Lemma text_remove_ok text ti recs id r s :
  text_ok text ti recs → recs !! id = Some r → text r = Some s →
  text_ok text (text_remove id s ti) (delete id recs).
Proof.
  intros [Hwf Hfr Hlen Htot] Hid Hs.
  destruct (remove_terms id (tokenize s) _ Hwf) as [Hwf' Hfr'].
  assert (Hold : tokens_of text recs id = tokenize s) by (unfold tokens_of; by rewrite Hid; simpl; rewrite Hs).
  assert (Hfreq : ∀ t j, term_freq (foldl (remove_term id) (ti_postings ti) (tokenize s)) t j =
    occurrences t (tokens_of text (delete id recs) j)).
  { intros t j. rewrite Hfr', tokens_of_delete. destruct (decide (j = id)) as [->|Hj].
    - case_decide; [done|]. rewrite Hfr, Hold. apply occurrences_zero. naive_solver.
    - rewrite decide_False by naive_solver. apply Hfr. }
  pose proof (Hlen id) as Hl. rewrite Hold in Hl. unfold text_remove.
  destruct (ti_doc_lengths ti !! id) as [n|] eqn:El; unfold nonzero in Hl;
    destruct (N.of_nat (length (tokenize s)) =? 0) eqn:Ez; try done.
  - injection Hl as ->. rewrite N.leb_refl, N.min_id. split; simpl; try done.
    + intros j. rewrite tokens_of_delete. destruct (decide (j = id)) as [->|Hj].
      * by rewrite lookup_delete_eq.
      * by rewrite lookup_delete_ne, Hlen by done.
    + rewrite Htot, (total_length_delete id _ _ El). lia.
  - bool_to_prop. split; simpl; try done. intros j. rewrite tokens_of_delete.
    case_decide; subst; [done|apply Hlen].
Qed.

(** Records without the field leave the index alone. *)
Lemma text_ok_ext text ti recs recs' :
  text_ok text ti recs → (∀ id, recs' !! id ≫= text = recs !! id ≫= text) →
  text_ok text ti recs'.
Proof.
  intros [Hwf Hfr Hlen Htot] Hext.
  assert (Ht : ∀ id, tokens_of text recs' id = tokens_of text recs id)
    by (intros id; unfold tokens_of; by rewrite Hext).
  split; try done; intros; rewrite Ht; auto.
Qed.
End text_lemmas.

(** ** The whole index *)

(** The live records of a list, by id. *)
Definition by_id (records : list Rec) : gmap N Rec :=
  list_to_map ((λ r, (rec_id r, r)) <$> records).

Lemma lookup_imap_Some {A B} (f : string → A → B) (m : gmap string A) k y :
  map_imap (λ i x, Some (f i x)) m !! k = Some y ↔ ∃ x, m !! k = Some x ∧ y = f k x.
Proof. rewrite map_lookup_imap. destruct (m !! k) as [x|]; simpl; naive_solver. Qed.

Section index_lemmas.
Context `{Unicode, JsonText}.
Implicit Types (ci : CollectionIndexes) (recs : gmap N Rec) (r s : Rec).

(** Another record already holds a unique value of [r]. *)
Definition clashes (fields : list string) (recs : gmap N Rec) (r : Rec) : Prop :=
  ∃ field j s k, field ∈ fields ∧ recs !! j = Some s ∧ j ≠ rec_id r ∧
    field_key field r = Some k ∧ field_key field s = Some k.

Lemma check_unique_error ci r replacing e :
  check_unique ci r replacing = Err e → e = EUniqueViolation.
Proof.
  unfold check_unique. induction (ci_unique_fields ci) as [|f fs IH]; simpl; [done|].
  unfold check_unique_field at 1.
  destruct (non_null_key _); [|done]. destruct (unique_map ci f !! _); [|done].
  case_if; [by intros [= <-]|done].
Qed.

(** The check, for a new record or the replacement of the record with the same id. *)
Lemma check_unique_spec ci recs r replacing :
  index_ok ci recs → replacing = None ∨ replacing = Some (rec_id r) →
  check_unique ci r replacing = Ok tt ↔ ¬ clashes (ci_unique_fields ci) recs r.
Proof.
  intros Hok Hrep. unfold check_unique. rewrite for_each_ok, Forall_forall.
  assert (Hfield : ∀ field, field ∈ ci_unique_fields ci →
    check_unique_field ci r replacing field = Ok tt ↔
    ¬ ∃ j s k, recs !! j = Some s ∧ j ≠ rec_id r ∧
      field_key field r = Some k ∧ field_key field s = Some k).
  { intros field Hf. apply (ix_fields _ _ Hok) in Hf as [m Hm].
    pose proof (ix_unique _ _ Hok _ _ Hm) as Hu.
    unfold check_unique_field, unique_map. rewrite Hm. simpl.
    change (non_null_key (record_get r field)) with (field_key field r).
    destruct (field_key field r) as [k|] eqn:Ek; [|naive_solver].
    destruct (m !! k) as [id|] eqn:Eid.
    - pose proof (proj1 (Hu k id) Eid) as (s & Hs & Hk).
      case_if; bool_to_prop.
      + split; [done|]. intros []. by exists id, s, k.
      + split; [|done]. intros _ (j & s' & k' & Hj & Hne & [= <-] & Hk').
        assert (m !! k = Some j) as Hmj by (apply Hu; eauto).
        rewrite Hmj in Eid. injection Eid as ->.
        apply andb_false_iff in Heqb as [Hb|Hb]; bool_to_prop; naive_solver.
    - split; [|done]. intros _ (j & s & k' & Hj & Hne & [= <-] & Hk).
      assert (m !! k = Some j) as Hmj by (apply Hu; eauto). congruence. }
  unfold clashes. split.
  - intros Hall (field & j & s & k & Hf & Hx). apply (Hfield field Hf); [by apply Hall|eauto].
  - intros Hno field Hf. apply Hfield; [done|]. naive_solver.
Qed.

(** A refusal names a real clash. *)
Lemma check_unique_clash ci recs r replacing e :
  index_ok ci recs → check_unique ci r replacing = Err e →
  clashes (ci_unique_fields ci) recs r.
Proof.
  intros Hok Herr. unfold check_unique in Herr. apply for_each_err in Herr as (field & Hf & Hfail).
  pose proof Hf as [m Hm]%(ix_fields _ _ Hok). unfold check_unique_field, unique_map in Hfail.
  rewrite Hm in Hfail. simpl in Hfail.
  destruct (non_null_key (record_get r field)) as [k|] eqn:Ek; [|done].
  destruct (m !! k) as [j|] eqn:Ej; [|done].
  destruct (negb (bool_decide (Some j = replacing)) && negb (j =? rec_id r)) eqn:Et; [|done].
  bool_to_prop. apply (ix_unique _ _ Hok _ _ Hm) in Ej as (s & Hs & Hk).
  by exists field, j, s, k.
Qed.

Lemma index_insert_ok ci recs r :
  index_ok ci recs → recs !! rec_id r = None → ¬ clashes (ci_unique_fields ci) recs r →
  index_ok (index_insert r ci) (<[rec_id r := r]> recs).
Proof.
  intros Hok Hid Hfree. split; simpl.
  - intros field. rewrite (ix_fields _ _ Hok), map_lookup_imap.
    destruct (ci_unique_maps ci !! field); simpl; naive_solver.
  - intros field m' (m & Hm & ->)%lookup_imap_Some.
    apply unique_insert_ok; [by apply (ix_unique _ _ Hok)|done|done|].
    intros k Hk. destruct (m !! k) as [j|] eqn:E; [|done]. exfalso. apply Hfree.
    apply (ix_unique _ _ Hok _ _ Hm) in E as (s & Hs & Hks).
    exists field, j, s, k. split; [apply (ix_fields _ _ Hok); eauto|].
    split_and!; try done. congruence.
  - intros field m' (m & Hm & ->)%lookup_imap_Some.
    apply posting_insert_ok; [by apply (ix_secondary _ _ Hok)|done|done].
  - intros path m' (m & Hm & ->)%lookup_imap_Some.
    apply posting_insert_ok; [by apply (ix_doc_path _ _ Hok)|done|done].
  - intros field ti' (ti & Hti & ->)%lookup_imap_Some. apply (ix_text _ _ Hok) in Hti.
    destruct (text_of (record_get r field)) as [t|] eqn:Et; [by apply text_add_ok|].
    eapply text_ok_ext; [exact Hti|]. intros j. destruct (decide (j = rec_id r)) as [->|Hj].
    + rewrite lookup_insert_eq, Hid. done.
    + by rewrite lookup_insert_ne.
  - intros field vi' (vi & Hvi & ->)%lookup_imap_Some. apply (ix_vector _ _ Hok) in Hvi.
    intros j. specialize (Hvi j). unfold field_vector in *. destruct (decide (j = rec_id r)) as [->|Hj].
    + rewrite lookup_insert_eq. simpl. destruct (vector_of (record_get r field)) as [v|]; simpl.
      * by rewrite lookup_insert_eq.
      * by rewrite Hvi, Hid.
    + rewrite lookup_insert_ne by done.
      destruct (vector_of (record_get r field)) as [v|]; simpl; [by rewrite lookup_insert_ne|done].
Qed.

Lemma index_remove_ok ci recs r :
  index_ok ci recs → recs !! rec_id r = Some r →
  index_ok (index_remove r ci) (delete (rec_id r) recs).
Proof.
  intros Hok Hid. split; simpl.
  - intros field. rewrite (ix_fields _ _ Hok), map_lookup_imap.
    destruct (ci_unique_maps ci !! field); simpl; naive_solver.
  - intros field m' (m & Hm & ->)%lookup_imap_Some.
    by apply (unique_remove_ok _ _ _ _ r); [apply (ix_unique _ _ Hok)|..].
  - intros field m' (m & Hm & ->)%lookup_imap_Some.
    by apply (posting_remove_ok _ _ _ _ r); [apply (ix_secondary _ _ Hok)|..].
  - intros path m' (m & Hm & ->)%lookup_imap_Some.
    by apply (posting_remove_ok _ _ _ _ r); [apply (ix_doc_path _ _ Hok)|..].
  - intros field ti' (ti & Hti & ->)%lookup_imap_Some. apply (ix_text _ _ Hok) in Hti.
    destruct (text_of (record_get r field)) as [t|] eqn:Et; [by apply (text_remove_ok _ _ _ _ r)|].
    eapply text_ok_ext; [exact Hti|]. intros j. destruct (decide (j = rec_id r)) as [->|Hj].
    + rewrite lookup_delete_eq, Hid. done.
    + by rewrite lookup_delete_ne.
  - intros field vi'. rewrite lookup_fmap_Some. intros (vi & <- & Hvi).
    apply (ix_vector _ _ Hok) in Hvi. intros j. simpl.
    destruct (decide (j = rec_id r)) as [->|Hj].
    + by rewrite !lookup_delete_eq.
    + by rewrite !lookup_delete_ne.
Qed.

Lemma index_remove_fields ci r : ci_unique_fields (index_remove r ci) = ci_unique_fields ci.
Proof. done. Qed.

(** Replacing a record: the old version is taken out, the new one put in. *)
Lemma index_replace_ok ci recs old r :
  index_ok ci recs → recs !! rec_id r = Some old → rec_id old = rec_id r →
  ¬ clashes (ci_unique_fields ci) recs r →
  index_ok (index_insert r (index_remove old ci)) (<[rec_id r := r]> recs).
Proof.
  intros Hok Hold Heq Hfree. rewrite <- (insert_delete_eq recs (rec_id r) r).
  apply index_insert_ok.
  - rewrite <- Heq. apply index_remove_ok; [done|]. by rewrite Heq.
  - apply lookup_delete_eq.
  - intros (field & j & s & k & Hf & Hs & Hne & Hk & Hk'). apply Hfree.
    rewrite lookup_delete_ne in Hs by done. by exists field, j, s, k.
Qed.

Lemma clear_indexes_ok ci recs :
  index_ok ci recs ∨ (∀ f, f ∈ ci_unique_fields ci ↔ is_Some (ci_unique_maps ci !! f)) →
  index_ok (clear_indexes ci) ∅.
Proof.
  intros Hshape.
  assert (Hf : ∀ f, f ∈ ci_unique_fields ci ↔ is_Some (ci_unique_maps ci !! f))
    by (destruct Hshape as [Hok|]; [apply (ix_fields _ _ Hok)|done]).
  split; simpl.
  - intros f. by rewrite Hf, lookup_fmap, fmap_is_Some.
  - intros f m. rewrite lookup_fmap_Some. intros (? & <- & _) k id.
    rewrite lookup_empty. setoid_rewrite lookup_empty. naive_solver.
  - intros f m. rewrite lookup_fmap_Some. intros (? & <- & _) k. rewrite lookup_empty. simpl.
    setoid_rewrite lookup_empty. split; [constructor|]. set_solver.
  - intros f m. rewrite lookup_fmap_Some. intros (? & <- & _) k. rewrite lookup_empty. simpl.
    setoid_rewrite lookup_empty. split; [constructor|]. set_solver.
  - intros f ti. rewrite lookup_fmap_Some. intros (? & <- & _). by split.
  - intros f vi. rewrite lookup_fmap_Some. intros (? & <- & _) id. simpl.
    by rewrite !lookup_empty.
Qed.
End index_lemmas.

(** ** Properties *)

Section index_properties.
Context `{Unicode, JsonText}.
Implicit Types (ci : CollectionIndexes) (recs : gmap N Rec) (r : Rec).

(** Every unique field of the schema has a map, and no other has. *)
Lemma from_schema_shape schema f :
  f ∈ ci_unique_fields (from_schema schema) ↔ is_Some (ci_unique_maps (from_schema schema) !! f).
Proof.
  unfold from_schema. simpl.
  assert (Hstep : ∀ fields ci,
    (∀ f, f ∈ ci_unique_fields ci ↔ is_Some (ci_unique_maps ci !! f)) →
    ∀ f, f ∈ ci_unique_fields (foldl index_field ci fields) ↔
         is_Some (ci_unique_maps (foldl index_field ci fields) !! f)).
  { induction fields as [|fd fields IH]; intros ci Hci; [done|]. simpl. apply IH. intros g.
    assert (Hins : g ∈ ci_unique_fields ci ++ [fd_name fd] ↔
                   is_Some (<[fd_name fd := (∅ : gmap string N)]> (ci_unique_maps ci) !! g)).
    { rewrite elem_of_app, list_elem_of_singleton, Hci, lookup_insert_is_Some'. naive_solver. }
    unfold index_field. destruct (fd_primary_key fd), (fd_unique fd), (fd_indexed fd), (fd_type fd);
      simpl; first [exact Hins|apply Hci]. }
  apply Hstep. intros g. simpl. rewrite lookup_empty, is_Some_alt. set_solver.
Qed.

Lemma by_id_snoc records r :
  r.(rec_id) ∉ rec_id <$> records → by_id (records ++ [r]) = <[rec_id r := r]> (by_id records).
Proof.
  intros Hn. unfold by_id. rewrite fmap_app. simpl.
  rewrite list_to_map_snoc; [done|]. by rewrite <- list_fmap_compose.
Qed.

Lemma by_id_None records r : r.(rec_id) ∉ rec_id <$> records → by_id records !! rec_id r = None.
Proof.
  intros Hn. apply not_elem_of_list_to_map_1. by rewrite <- list_fmap_compose.
Qed.

Lemma by_id_elem records r :
  NoDup (rec_id <$> records) → r ∈ records → by_id records !! rec_id r = Some r.
Proof.
  intros Hnd Hr. apply elem_of_list_to_map_1.
  - by rewrite <- list_fmap_compose.
  - apply list_elem_of_fmap. by exists r.
Qed.

(** The loop over the records, from an index of the records in front of them. *)
Lemma rebuild_loop_spec rest : ∀ done ci,
  index_ok ci (by_id done) → NoDup (rec_id <$> (done ++ rest)) →
  match rebuild_loop rest ci with
  | (ci', Ok _) => index_ok ci' (by_id (done ++ rest)) ∧ ci_unique_fields ci' = ci_unique_fields ci
  | (_, Err e) => e = EUniqueViolation ∧
      ¬ unique_values (ci_unique_fields ci) (by_id (done ++ rest))
  end.
Proof.
  induction rest as [|r rest IH]; intros front ci Hok Hnd; [by rewrite app_nil_r|].
  assert (Hfresh : rec_id r ∉ rec_id <$> front).
  { rewrite fmap_app, fmap_cons in Hnd. apply NoDup_app in Hnd as (_ & Hx & _). set_solver. }
  simpl. destruct (check_unique ci r None) as [[]|e] eqn:E.
  - apply (check_unique_spec _ (by_id front)) in E; [|done|by left].
    specialize (IH (front ++ [r]) (index_insert r ci)). rewrite <- app_assoc in IH. simpl in IH.
    apply IH; [|done]. rewrite by_id_snoc by done.
    by apply index_insert_ok; [|apply by_id_None|].
  - split; [by eapply check_unique_error|]. intros Huv.
    apply (check_unique_clash _ _ _ _ _ Hok) in E as (field & j & s & k & Hf & Hs & Hne & Hk & Hk').
    apply Hne.
    assert (Hin : s ∈ front ∧ rec_id s = j).
    { unfold by_id in Hs. apply elem_of_list_to_map_2, list_elem_of_fmap in Hs as (s' & [= -> <-] & Hs).
      done. }
    destruct Hin as [Hin <-].
    apply (Huv field (rec_id s) (rec_id r) s r k); try done; apply by_id_elem; set_solver.
Qed.

(** Rebuilding from the records. *)
Lemma rebuild_spec schema records ci :
  ci = from_schema schema → NoDup (rec_id <$> records) →
  match rebuild records ci with
  | (ci', Ok _) => index_ok ci' (by_id records)
  | (_, Err e) => e = EUniqueViolation ∧
      ¬ unique_values (ci_unique_fields ci) (by_id records)
  end.
Proof.
  intros -> Hnd. unfold rebuild.
  pose proof (rebuild_loop_spec records [] (clear_indexes (from_schema schema))) as Hr.
  simpl in Hr. destruct (rebuild_loop records _) as [ci' [[]|e]]; apply Hr; try done;
    apply (clear_indexes_ok _ ∅); right; apply from_schema_shape.
Qed.

(** Rebuilding an index.  From the records of a collection (ids are distinct),
    [rebuild] either gives an index in which every unique, secondary,
    document-path, text and vector map agrees exactly with those records, or
    reports a uniqueness violation, and it reports one only if two of the records
    share a value of a unique field. *)
Theorem rebuild_exact schema records ci :
  ci = from_schema schema → NoDup (rec_id <$> records) →
  match rebuild records ci with
  | (ci', Ok _) => index_ok ci' (by_id records)
  | (_, Err e) => e = EUniqueViolation ∧
      ¬ unique_values (ci_unique_fields ci) (by_id records)
  end.
Proof. apply rebuild_spec. Qed.

(** Keeping an index current.  When the uniqueness check passes, replacing the
    indexed version of a record (or adding a record that was not there) leaves an
    index that agrees with the new set of records, and removing a record leaves
    one that agrees with the rest; when the check fails, another record really
    holds the value. *)
Theorem index_maintained ci recs r :
  index_ok ci recs → (∀ id s, recs !! id = Some s → rec_id s = id) →
  let existing := recs !! rec_id r in
  (check_unique ci r (rec_id <$> existing) = Ok tt →
     index_ok (index_insert r (match existing with
                               | Some old => index_remove old ci
                               | None => ci
                               end)) (<[rec_id r := r]> recs)) ∧
  (∀ e, check_unique ci r (rec_id <$> existing) = Err e →
     e = EUniqueViolation ∧ clashes (ci_unique_fields ci) recs r) ∧
  (∀ old, existing = Some old → index_ok (index_remove old ci) (delete (rec_id r) recs)).
Proof.
  intros Hok Hids existing. unfold existing.
  assert (Herr : ∀ e, check_unique ci r (rec_id <$> recs !! rec_id r) = Err e →
     e = EUniqueViolation ∧ clashes (ci_unique_fields ci) recs r).
  { intros e He. split; [by eapply check_unique_error|by eapply check_unique_clash]. }
  assert (Hspec := check_unique_spec ci recs r (rec_id <$> recs !! rec_id r) Hok).
  destruct (recs !! rec_id r) as [old|] eqn:E; simpl in *.
  - pose proof (Hids _ _ E) as Hid. rewrite Hid in *. split_and!.
    + intros Hc. apply Hspec in Hc; [|by right]. by apply index_replace_ok.
    + done.
    + intros old' [= <-]. rewrite <- Hid. apply index_remove_ok; [done|]. by rewrite Hid.
  - split_and!; [|done|done].
    intros Hc. apply Hspec in Hc; [|by left]. by apply index_insert_ok.
Qed.

(** The key an equality index on [field] uses. *)
Definition indexed_key ci (field : string) (r : Rec) : option string :=
  if bool_decide (is_Some (ci_unique_maps ci !! field) ∨ is_Some (ci_secondary_maps ci !! field))
  then field_key field r else path_key field r.

Lemma lookup_eq_spec ci recs field value ids :
  index_ok ci recs → lookup_eq ci field value = Some ids →
  NoDup ids ∧ ∀ id, id ∈ ids ↔ ∃ r, recs !! id = Some r ∧
    indexed_key ci field r = Some (index_key value).
Proof.
  intros Hok. unfold lookup_eq, indexed_key.
  destruct (ci_unique_maps ci !! field) as [m|] eqn:Eu.
  - intros [= <-]. pose proof (ix_unique _ _ Hok _ _ Eu) as Hu.
    rewrite bool_decide_eq_true_2 by naive_solver.
    split; [destruct (m !! _); [apply NoDup_singleton|constructor]|].
    intros id. rewrite <- (Hu (index_key value) id). destruct (m !! index_key value); set_solver.
  - destruct (ci_secondary_maps ci !! field) as [m|] eqn:Es.
    + intros [= <-]. rewrite bool_decide_eq_true_2 by naive_solver.
      apply (ix_secondary _ _ Hok _ _ Es).
    + destruct (ci_doc_path_maps ci !! field) as [m|] eqn:Ed; [|done]. intros [= <-].
      rewrite bool_decide_eq_false_2 by (intros [[]|[]]; congruence).
      apply (ix_doc_path _ _ Hok _ _ Ed).
Qed.

(** Values whose equality is equality of their JSON text. *)
Definition exact_value (v : Value) : bool :=
  match v with VText _ | VBool _ => true | _ => false end.

Lemma exact_key `{!JsonTextLaws} a v :
  exact_value v = true → index_key a = index_key v ↔ values_equal a v = true.
Proof.
  intros Hv.
  assert (Hkey : index_key a = index_key v ↔ a = v).
  { split; [|by intros ->]. intros Hk. unfold index_key in Hk. apply json_text_inj in Hk. destruct v; try done; simpl in Hk.
    - destruct a as [| | |f| | | | | |]; simpl in Hk; try done; [congruence|].
      by destruct (num_from_f64 f).
    - destruct a as [| | |f| | | | | |]; simpl in Hk; try done; [|congruence].
      by destruct (num_from_f64 f). }
  rewrite Hkey. destruct v; try done; destruct a; simpl; rewrite ?bool_decide_eq_true;
    split; congruence.
Qed.

Lemma record_get_dotless r field :
  split_once_dot field = None → record_get_path r field = record_get r field.
Proof.
  intros Hd. unfold record_get_path, fields_get_path, record_get. rewrite Hd.
  by destruct (bt_get field (rec_fields r)).
Qed.

Lemma matches_key `{!JsonTextLaws} r field v key :
  exact_value v = true → key = non_null_key (record_get_path r field) →
  matches r (FCompare field CmpEq v) = true ↔ key = Some (index_key v).
Proof.
  intros Hv ->. simpl. destruct (record_get_path r field) as [a|]; simpl; [|done].
  rewrite <- (exact_key a v Hv). destruct (is_null a) eqn:En; [|split; [by intros ->|by intros [= ->]]].
  destruct a; try done. split; [|done]. intros Hk. unfold index_key in Hk. apply json_text_inj in Hk. by destruct v.
Qed.

(** The key under which a record is indexed is that of the value at the path. *)
Lemma indexed_key_path ci field r :
  (split_once_dot field = None ∨
   ci_unique_maps ci !! field = None ∧ ci_secondary_maps ci !! field = None) →
  indexed_key ci field r = non_null_key (record_get_path r field).
Proof.
  intros Hdot. unfold indexed_key. destruct Hdot as [Hd|[Hu Hs]].
  - unfold field_key, path_key. rewrite record_get_dotless by done. by case_if.
  - rewrite bool_decide_eq_false_2; [done|]. rewrite Hu, Hs. intros [[]|[]]; done.
Qed.

(** An index lookup is the scan.  For a text or boolean value, the ids an equality
    index returns are exactly those of the records an equality filter accepts,
    each once. *)
Lemma equality_lookup_is_scan `{!JsonTextLaws} ci recs field v ids :
  index_ok ci recs → exact_value v = true → lookup_eq ci field v = Some ids →
  (split_once_dot field = None ∨
   ci_unique_maps ci !! field = None ∧ ci_secondary_maps ci !! field = None) →
  NoDup ids ∧ ∀ id, id ∈ ids ↔
    ∃ r, recs !! id = Some r ∧ matches r (FCompare field CmpEq v) = true.
Proof.
  intros Hok Hv Hids Hdot. destruct (lookup_eq_spec _ _ _ _ _ Hok Hids) as [Hnd Hin].
  split; [done|]. intros id. rewrite Hin.
  pose proof (λ r, indexed_key_path ci field r Hdot) as Hkey.
  split; intros (r & Hr & Hx); exists r; (split; [done|]).
  - by apply (matches_key r field v (indexed_key ci field r)).
  - by apply (matches_key r field v (indexed_key ci field r)).
Qed.

(** The check of [auradb check] passes on an index that agrees with the records. *)
Lemma consistency_check_passes ci records :
  index_ok ci (by_id records) → NoDup (rec_id <$> records) →
  (∀ f, f ∈ ci_secondary_fields ci → is_Some (ci_secondary_maps ci !! f) ∧
     ci_unique_maps ci !! f = None) →
  (∀ p, is_Some (ci_doc_path_maps ci !! p) → ci_unique_maps ci !! p = None ∧
     ci_secondary_maps ci !! p = None) →
  consistency_check ci records = Ok (length records).
Proof.
  intros Hok Hnd Hsec Hdoc. unfold consistency_check.
  rewrite (proj2 (for_each_ok (check_record ci) records)); [done|].
  apply Forall_forall. intros r Hr. pose proof (by_id_elem _ _ Hnd Hr) as Hid.
  assert (Hentry : ∀ field value, is_Some (lookup_eq ci field VNull) →
    indexed_key ci field r = non_null_key value →
    check_entry ci field value (rec_id r) = Ok tt).
  { intros field [v|] Hl Hk; [|done]. unfold check_entry. destruct (is_null v) eqn:En; [done|].
    assert (is_Some (lookup_eq ci field v)) as [ids Hids].
    { destruct Hl as [ids Hids]. unfold lookup_eq in *.
      destruct (ci_unique_maps ci !! field), (ci_secondary_maps ci !! field),
        (ci_doc_path_maps ci !! field); eauto. }
    rewrite Hids. simpl. rewrite bool_decide_eq_true_2; [done|].
    apply (lookup_eq_spec _ _ _ _ _ Hok Hids). exists r. split; [done|].
    rewrite Hk. simpl. by rewrite En. }
  unfold check_record.
  rewrite (proj2 (for_each_ok _ (ci_unique_fields ci ++ ci_secondary_fields ci))); simpl.
  2:{ apply Forall_forall. intros f Hf. apply elem_of_app in Hf as [Hf|Hf].
      - apply (ix_fields _ _ Hok) in Hf as [m Hm]. apply Hentry.
        + unfold lookup_eq. rewrite Hm. eauto.
        + unfold indexed_key. by rewrite bool_decide_eq_true_2 by (left; eauto).
      - apply Hsec in Hf as [[m Hm] Hu]. apply Hentry.
        + unfold lookup_eq. rewrite Hu, Hm. eauto.
        + unfold indexed_key. by rewrite bool_decide_eq_true_2 by (right; eauto). }
  rewrite (proj2 (for_each_ok _ (map_to_list (ci_doc_path_maps ci)).*1)); simpl.
  2:{ apply Forall_forall. intros p Hp. apply list_elem_of_fmap in Hp as ([p' m] & -> & Hp).
      apply elem_of_map_to_list in Hp. simpl. destruct (Hdoc p') as [Hu Hs]; [eauto|]. apply Hentry.
      + unfold lookup_eq. rewrite Hu, Hs, Hp. eauto.
      + unfold indexed_key. rewrite Hu, Hs. rewrite bool_decide_eq_false_2; [done|].
        intros [[]|[]]; done. }
  apply for_each_ok, Forall_forall. intros [f ti] Hti%elem_of_map_to_list.
  destruct (text_of (record_get r f)) as [t|] eqn:Et; [|done].
  apply for_each_ok, Forall_forall. intros term Hterm.
  pose proof (ix_text _ _ Hok _ _ Hti) as Htx. pose proof (to_freq _ _ _ Htx term (rec_id r)) as Hfr.
  unfold tokens_of in Hfr. rewrite Hid in Hfr. simpl in Hfr. unfold field_text in Hfr.
  rewrite Et in Hfr. apply occurrences_pos in Hterm. unfold term_freq in Hfr.
  destruct (ti_postings ti !! term) as [m|]; simpl in Hfr; [|lia].
  destruct (m !! rec_id r); simpl in Hfr; [|lia]. done.
Qed.
End index_properties.
