(* ===== verification/Vector.v ===== *)
(** * Exact vector search

    Models [crates/auradb-index/src/metric.rs] and the exact nearest-neighbour search of
    [crates/auradb-index/src/lib.rs]: the three metrics on [f32] vectors, the rank
    order, the bounded selection with a heap, and the search over a collection index.

    A [BinaryHeap] is the list of its elements in ascending order ([keep_best] of
    [Sorting]); only [push], [pop], [peek], [len] and iteration in no particular order
    are used.  The iteration order of the hash map of vectors is a parameter. *)

From Stdlib Require Import Floats.SpecFloat.
From stdpp Require Import sorting.
From S2P Require Import Prelude Sorting BTree Text Value Core Rank Eval Index.

(** ** Metrics *)

Inductive Metric := Cosine | Euclidean | DotProduct.

#[export] Instance Metric_eq_dec : EqDecision Metric.
Proof. solve_decision. Defined.

Definition ascii_lower (s : string) : string :=
  string_of ((λ b, if (65 <=? Byte.to_N b)%N && (Byte.to_N b <=? 90)%N
                   then byte_of_N (Byte.to_N b + 32) else b) <$> bytes_of s).

Definition metric_parse (s : string) : Res Metric :=
  let name := ascii_lower s in
  if bool_decide (name = "cosine") then Ok Cosine
  else if bool_decide (name ∈ ["euclidean"; "l2"]) then Ok Euclidean
  else if bool_decide (name ∈ ["dot"; "dot_product"; "dotproduct"]) then Ok DotProduct
  else Err EInvalidRequest.

Definition metric_name (m : Metric) : string :=
  match m with Cosine => "cosine" | Euclidean => "euclidean" | DotProduct => "dot_product" end.

Definition dot (a b : list f32) : f32 := f32_sum (zip_with f32_mul a b).

Definition euclidean_distance (a b : list f32) : f32 :=
  f32_sqrt (f32_sum (zip_with (λ x y, let d := f32_sub x y in f32_mul d d) a b)).

Definition cosine_similarity (a b : list f32) : f32 :=
  let na := f32_sqrt (dot a a) in
  let nb := f32_sqrt (dot b b) in
  if SFeqb na f32_zero || SFeqb nb f32_zero then f32_zero
  else f32_div (dot a b) (f32_mul na nb).

Definition similarity (m : Metric) (a b : list f32) : f32 :=
  match m with
  | Cosine => cosine_similarity a b
  | DotProduct => dot a b
  | Euclidean => SFopp (euclidean_distance a b)
  end.

Definition distance (m : Metric) (a b : list f32) : f32 :=
  match m with
  | Cosine => f32_sub f32_one (cosine_similarity a b)
  | DotProduct => SFopp (dot a b)
  | Euclidean => euclidean_distance a b
  end.

(** ** Search *)

Record Neighbor := mkNeighbor {
  nb_id : RecordId;
  nb_score : f32;
  nb_distance : f32;
}.

#[export] Instance Neighbor_eq_dec : EqDecision Neighbor.
Proof. solve_decision. Defined.

Definition rank_cmp : Neighbor → Neighbor → comparison := ranked_cmp nb_score nb_id.

Definition neighbor_of (query : list f32) (metric : Metric) (id : RecordId) (v : list f32)
  : Neighbor :=
  mkNeighbor id (similarity metric query v) (distance metric query v).

Definition nearest (entries : list (N * list f32)) (query : list f32) (k : nat) (metric : Metric)
  : list Neighbor :=
  if (k =? 0)%nat then []
  else
    let heap := foldl (λ heap '(id, v),
                  if negb (length v =? length query)%nat then heap
                  else keep_best rank_cmp k heap (neighbor_of query metric id v)) [] entries in
    sort_by rank_cmp heap.

(** The order in which a hash map is iterated. *)
Class MapOrder := map_order : gmap N (list f32) → list (N * list f32).
Class MapOrderLaws `{MapOrder} : Prop := map_order_perm : ∀ m, map_order m ≡ₚ map_to_list m.

Definition vector_nearest `{MapOrder} (ci : CollectionIndexes) (field : string)
    (query : list f32) (k : nat) (metric : Metric) : Res (list Neighbor) :=
  match ci_vector_maps ci !! field with
  | None => Err EInvalidRequest
  | Some vi =>
      if negb (length query =? vi_dim vi)%nat then Err EInvalidRequest
      else Ok (nearest (map_order (vi_entries vi)) query k metric)
  end.

(** ** The search is the full sort *)

Definition candidates (query : list f32) (metric : Metric) (entries : list (N * list f32))
  : list Neighbor :=
  omap (λ '(id, v), if (length v =? length query)%nat
                    then Some (neighbor_of query metric id v) else None) entries.

Lemma nearest_selects entries query k metric :
  nearest entries query (S k) metric =
    sort_by rank_cmp (foldl (keep_best rank_cmp (S k)) [] (candidates query metric entries)).
Proof.
  unfold nearest. simpl. f_equal. generalize (@nil Neighbor).
  induction entries as [|[id v] entries IH]; intros heap; [done|].
  cbn [foldl]. rewrite IH. simpl. by destruct (length v =? length query)%nat.
Qed.

Lemma candidates_ids query metric entries :
  NoDup entries.*1 → NoDup (nb_id <$> candidates query metric entries).
Proof.
  assert (Hin : ∀ entries x, x ∈ nb_id <$> candidates query metric entries → x ∈ entries.*1).
  { intros es x. rewrite !list_elem_of_fmap. intros (n & -> & Hn).
    apply list_elem_of_omap in Hn as ([id v] & Hv & Hn).
    destruct (length v =? length query)%nat; [|done]. injection Hn as <-. by exists (id, v). }
  induction entries as [|[id v] entries IH]; simpl; [done|]. intros [Hid Hnd]%NoDup_cons.
  destruct (length v =? length query)%nat; [|by apply IH].
  rewrite fmap_cons. apply NoDup_cons. split; [|by apply IH]. simpl. intros Hx. by apply Hid, Hin.
Qed.

Lemma nearest_sorts entries query k metric :
  NoDup entries.*1 →
  Forall (λ n, nb_score n ≠ S754_nan) (candidates query metric entries) →
  nearest entries query k metric = take k (sort_by rank_cmp (candidates query metric entries)).
Proof.
  intros Hnd Hnan. destruct k as [|k]; [done|]. rewrite nearest_selects.
  apply (candidates_ids query metric) in Hnd.
  set (l := candidates query metric entries) in *.
  pose proof (ranked_cmp_total nb_score nb_id l Hnd Hnan) as Htot.
  assert (Hall : Forall (.∈ l) l) by (by apply Forall_forall).
  assert (Hndl : NoDup l) by (by eapply NoDup_fmap_1).
  rewrite (select_best rank_cmp Htot) by (done || lia).
  pose proof (sort_by_sorted rank_cmp Htot l Hall Hndl) as Hs.
  pose proof (sort_by_perm rank_cmp l) as Hp.
  rewrite <- (take_drop (S k) (sort_by rank_cmp l)) in Hs, Hp.
  apply (sort_by_unique rank_cmp Htot).
  - apply Forall_forall. intros n Hn. rewrite <- Hp. apply elem_of_app. by left.
  - rewrite <- Hp in Hndl. by apply NoDup_app in Hndl as [? _].
  - by apply StronglySorted_app_1_l in Hs.
  - done.
Qed.

Section search.
Context `{Unicode, JsonText, MapOrder, !MapOrderLaws}.

(** The live records of a field that have a vector of the query's dimension. *)
Definition live_neighbors (field : string) (query : list f32) (metric : Metric)
    (recs : gmap N Rec) : list Neighbor :=
  omap (λ '(id, r), field_vector field r ≫= λ v,
          if (length v =? length query)%nat
          then Some (neighbor_of query metric id v) else None) (map_to_list recs).

Lemma live_neighbors_ids field query metric recs :
  NoDup (nb_id <$> live_neighbors field query metric recs).
Proof.
  unfold live_neighbors. pose proof (NoDup_fst_map_to_list recs) as Hnd.
  assert (Hin : ∀ (l : list (N * Rec)) x, x ∈ nb_id <$> omap (λ '(id, r), field_vector field r ≫= λ v,
    if (length v =? length query)%nat then Some (neighbor_of query metric id v) else None) l →
    x ∈ l.*1).
  { intros l x. rewrite !list_elem_of_fmap. intros (n & -> & Hn).
    apply list_elem_of_omap in Hn as ([id r] & Hr & Hn).
    destruct (field_vector field r) as [v|]; [|done]. simpl in Hn.
    destruct (length v =? length query)%nat; [|done]. injection Hn as <-. by exists (id, r). }
  induction (map_to_list recs) as [|[id r] l IH]; simpl; [done|].
  apply NoDup_cons in Hnd as [Hid Hnd]. destruct (field_vector field r) as [v|]; simpl; [|by apply IH].
  destruct (length v =? length query)%nat; [|by apply IH].
  rewrite fmap_cons. apply NoDup_cons. split; [|by apply IH]. simpl. intros Hx. by apply Hid, Hin.
Qed.

(** What the index holds is what the records say. *)
Lemma candidates_live field query metric recs vi :
  vector_ok (field_vector field) vi recs →
  candidates query metric (map_order (vi_entries vi)) ≡ₚ live_neighbors field query metric recs.
Proof.
  intros Hok. unfold candidates. rewrite map_order_perm.
  apply NoDup_Permutation.
  - eapply (NoDup_fmap_1 nb_id), candidates_ids, NoDup_fst_map_to_list.
  - eapply (NoDup_fmap_1 nb_id), live_neighbors_ids.
  - intros n. unfold live_neighbors. rewrite !list_elem_of_omap. split.
    + intros ([id v] & Hv%elem_of_map_to_list & Hn). rewrite Hok in Hv.
      destruct (recs !! id) as [r|] eqn:Er; [|done]. simpl in Hv.
      exists (id, r). split; [by apply elem_of_map_to_list|]. by rewrite Hv.
    + intros ([id r] & Hr%elem_of_map_to_list & Hn).
      destruct (field_vector field r) as [v|] eqn:Ev; [|done]. exists (id, v).
      split; [|done]. apply elem_of_map_to_list. by rewrite Hok, Hr.
Qed.

(** Exact vector search.  On an index that agrees with the live records, a search
    whose scores are all numbers returns the first [k] of the full ranking of the
    live records (score descending, ties by id), whatever the order in which the
    hash map is iterated: at most [k], in order, and every record left out ranks
    behind every record returned. *)
Theorem vector_nearest_exact ci recs field vi query k metric :
  index_ok ci recs → ci_vector_maps ci !! field = Some vi → length query = vi_dim vi →
  let live := live_neighbors field query metric recs in
  Forall (λ n, nb_score n ≠ S754_nan) live →
  ∃ result, vector_nearest ci field query k metric = Ok result ∧
    result = take k (sort_by rank_cmp live) ∧
    StronglySorted (cmp_lt rank_cmp) result ∧ length result = Nat.min k (length live) ∧
    (∀ n, n ∈ result → n ∈ live) ∧
    (∀ a b, a ∈ result → b ∈ live → b ∉ result → rank_cmp a b = Lt).
Proof.
  intros Hok Hvi Hdim live Hnan. unfold vector_nearest. rewrite Hvi, Hdim, Nat.eqb_refl. simpl.
  pose proof (candidates_live field query metric recs vi (ix_vector _ _ Hok _ _ Hvi)) as Hp.
  fold live in Hp. pose proof (live_neighbors_ids field query metric recs) as Hnd. fold live in Hnd.
  pose proof (ranked_cmp_total nb_score nb_id live Hnd Hnan) as Htot.
  assert (Hall : Forall (.∈ live) live) by (by apply Forall_forall).
  assert (Hndl : NoDup live) by (by eapply NoDup_fmap_1).
  eexists. split; [done|]. rewrite nearest_sorts.
  2:{ rewrite (map_order_perm (vi_entries vi)). apply NoDup_fst_map_to_list. }
  2:{ by rewrite Hp. }
  rewrite <- (sort_by_permute rank_cmp Htot live) by done.
  pose proof (sort_by_sorted rank_cmp Htot live Hall Hndl) as Hs.
  pose proof (sort_by_perm rank_cmp live) as Hps. split; [done|].
  rewrite <- (take_drop k (sort_by rank_cmp live)) in Hs. split_and!.
  - by apply StronglySorted_app_1_l in Hs.
  - by rewrite length_take, Hps.
  - intros n Hn. rewrite <- Hps. apply elem_of_take in Hn as (j & Hn & _).
    by eapply list_elem_of_lookup_2.
  - intros a b Ha Hb Hnin. rewrite <- Hps, <- (take_drop k (sort_by rank_cmp live)) in Hb.
    apply elem_of_app in Hb as [Hb|Hb]; [done|]. by eapply (StronglySorted_app_1_elem_of (cmp_lt rank_cmp)).
Qed.
End search.
