(* ===== verification/Hnsw.v ===== *)
(** * The approximate vector graph

    Models [crates/auradb-index/src/hnsw.rs]: the layered proximity graph of the
    approximate nearest-neighbour preview, with its seeded layer assignment, the beam
    search of one layer, insertion with bidirectional links and pruning, and the search.

    An index out of range panics in the source; here an operation that panics is [None],
    and so is a search loop that runs out of its fuel ([HnswSpec] shows that neither
    happens).  A [BinaryHeap] is the list of its elements in ascending order; the order in
    which it is drained at the end of a search is a parameter ([HeapOrder]), and so is the
    natural logarithm of [f64].  A NaN has neither sign nor payload in this float model; it
    compares as the greatest value, as the source's comment on its order says. *)

From Stdlib Require Import Floats.SpecFloat.
From S2P Require Import Prelude Sorting BTree Text Value Core Rank Eval Index Vector.

(** The natural logarithm of [f64]. *)
Class F64Log := f64_ln : f64 → f64.

(** The order in which [BinaryHeap::into_iter] gives the elements. *)
Class HeapOrder := heap_into_iter : list (f32 * nat) → list (f32 * nat).
Class HeapOrderLaws `{HeapOrder} : Prop := heap_into_iter_perm : ∀ h, heap_into_iter h ≡ₚ h.

(** ** Parameters *)

Record HnswParams := mkHnswParams {
  hp_m : nat;
  hp_ef_construction : nat;
}.

Definition hnsw_params_default : HnswParams := mkHnswParams 16 200.

Definition hnsw_params_validate (p : HnswParams) : Res unit :=
  if ((hp_m p =? 0) || (512 <? hp_m p))%nat then Err EInvalidRequest
  else if ((hp_ef_construction p =? 0) || (4096 <? hp_ef_construction p))%nat then Err EInvalidRequest
  else Ok tt.

Definition level_mult `{F64Log} (p : HnswParams) : f64 :=
  SFdiv f64_prec f64_emax (f64_of_i64 1) (f64_ln (f64_of_i64 (Z.of_nat (Nat.max (hp_m p) 2)))).

(** ** The order of distances *)

(** [f32::total_cmp]. *)
Definition total_cmp (x y : f32) : comparison :=
  match x, y with
  | S754_nan, S754_nan => Eq
  | S754_nan, _ => Gt
  | _, S754_nan => Lt
  | S754_zero s, S754_zero t => if Bool.eqb s t then Eq else if s then Lt else Gt
  | _, _ => default Eq (SFcompare x y)
  end.

(** The elements of the heaps, [(Ord32, usize)]. *)
Definition heap_cmp (a b : f32 * nat) : comparison := then_cmp (total_cmp a.1 b.1) (a.2 ?= b.2)%nat.

Definition heap_push : f32 * nat → list (f32 * nat) → list (f32 * nat) := insert_by heap_cmp.

(** [results.peek()], the greatest element, or infinity. *)
Definition farthest (results : list (f32 * nat)) : f32 :=
  from_option fst (S754_infinity false) (last results).

(** ** The graph *)

Record Node := mkNode { nd_neighbors : list (list nat) }.

Record Hnsw := mkHnsw {
  hn_metric : Metric;
  hn_params : HnswParams;
  hn_ids : list RecordId;
  hn_vectors : list (list f32);
  hn_nodes : list Node;
  hn_entry : option nat;
  hn_max_layer : nat;
  hn_rng : N;
}.

Implicit Types (g : Hnsw) (query : list f32).

Definition set_nodes (nodes : list Node) g : Hnsw :=
  mkHnsw (hn_metric g) (hn_params g) (hn_ids g) (hn_vectors g) nodes (hn_entry g) (hn_max_layer g) (hn_rng g).
Definition set_rng (rng : N) g : Hnsw :=
  mkHnsw (hn_metric g) (hn_params g) (hn_ids g) (hn_vectors g) (hn_nodes g) (hn_entry g) (hn_max_layer g) rng.
Definition set_top (idx layer : nat) g : Hnsw :=
  mkHnsw (hn_metric g) (hn_params g) (hn_ids g) (hn_vectors g) (hn_nodes g) (Some idx) layer (hn_rng g).

(** The adjacency list [nodes[n].neighbors[layer]], and its update in place. *)
Definition adjacency g (n layer : nat) : option (list nat) :=
  node ← hn_nodes g !! n; nd_neighbors node !! layer.

Definition on_adjacency (n layer : nat) (f : list nat → list nat) g : option Hnsw :=
  node ← hn_nodes g !! n;
  adj ← nd_neighbors node !! layer;
  Some (set_nodes (<[n := mkNode (<[layer := f adj]> (nd_neighbors node))]> (hn_nodes g)) g).

(** ** Layer assignment *)

Definition next_u64 g : Hnsw * N :=
  let rng := wrap64 (hn_rng g + 0x9E3779B97F4A7C15) in
  let z := rng in
  let z := wrap64 (N.lxor z (N.shiftr z 30) * 0xBF58476D1CE4E5B9) in
  let z := wrap64 (N.lxor z (N.shiftr z 27) * 0x94D049BB133111EB) in
  (set_rng rng g, N.lxor z (N.shiftr z 31)).

Definition f64_min_positive : f64 := S754_finite false 4503599627370496 (-1074).

(** [f64::max] of two numbers. *)
Definition f64_max (x y : f64) : f64 := if SFltb x y then y else x.

Definition next_unit g : Hnsw * f64 :=
  let '(g, u) := next_u64 g in
  let bits := N.shiftr u 11 in
  (g, f64_max (SFdiv f64_prec f64_emax (f64_of_i64 (Z.of_N bits)) (f64_of_i64 (2 ^ 53))) f64_min_positive).

(** [x.floor() as usize]: the floor is exact, the cast saturates and sends NaN to 0. *)
Definition floor_usize (x : f64) : nat :=
  match x with
  | S754_finite false m e =>
      N.to_nat (N.min (2 ^ 64 - 1) (if (0 <=? e)%Z then Z.to_N (Z.pos m * 2 ^ e)
                                    else Z.to_N (Z.pos m / 2 ^ (- e))))
  | S754_infinity false => N.to_nat (2 ^ 64 - 1)
  | _ => 0%nat
  end.

Definition assign_layer `{F64Log} g : Hnsw * nat :=
  let '(g, u) := next_unit g in
  (g, floor_usize (SFmul f64_prec f64_emax (SFopp (f64_ln u)) (level_mult (hn_params g)))).

(** ** The search of a layer *)

Definition dist_to g query (idx : nat) : option f32 :=
  v ← hn_vectors g !! idx; Some (SFopp (similarity (hn_metric g) query v)).

Definition max_degree g (layer : nat) : nat :=
  if (layer =? 0)%nat then (hp_m (hn_params g) * 2)%nat else hp_m (hn_params g).

(** The frontier, the results and the visited indices. *)
Record Beam := mkBeam {
  bm_frontier : list (f32 * nat);
  bm_results : list (f32 * nat);
  bm_visited : gset nat;
}.

(** One turn of the loop over the entry points. *)
Definition enter g query (b : Beam) (ep : nat) : option Beam :=
  d ← dist_to g query ep;
  Some (mkBeam (heap_push (d, ep) (bm_frontier b)) (heap_push (d, ep) (bm_results b))
          ({[ep]} ∪ bm_visited b)).

(** One turn of the loop over the neighbours of a candidate. *)
Definition visit g query (ef : nat) (b : Beam) (nb : nat) : option Beam :=
  if bool_decide (nb ∈ bm_visited b) then Some b
  else
    let visited := {[nb]} ∪ bm_visited b in
    d ← dist_to g query nb;
    if ((length (bm_results b) <? ef)%nat || SFltb d (farthest (bm_results b)))%bool
    then Some (mkBeam (heap_push (d, nb) (bm_frontier b))
                 (take ef (heap_push (d, nb) (bm_results b))) visited)
    else Some (mkBeam (bm_frontier b) (bm_results b) visited).

Fixpoint fold_option {A B} (f : B → A → option B) (b : B) (l : list A) : option B :=
  match l with
  | [] => Some b
  | a :: l => b ← f b a; fold_option f b l
  end.

Fixpoint search_loop g query (ef layer fuel : nat) (b : Beam) : option Beam :=
  match fuel with
  | 0%nat => None
  | S fuel =>
      match bm_frontier b with
      | [] => Some b
      | (cand_d, cand) :: frontier =>
          let b := mkBeam frontier (bm_results b) (bm_visited b) in
          if (SFltb (farthest (bm_results b)) cand_d && (ef <=? length (bm_results b))%nat)%bool
          then Some b
          else b ← fold_option (visit g query ef) b (default [] (adjacency g cand layer));
               search_loop g query ef layer fuel b
      end
  end.

Section graph.
Context `{HeapOrder}.

Definition search_layer g query (entry_points : list nat) (ef layer : nat) : option (list (f32 * nat)) :=
  b ← fold_option (enter g query) (mkBeam [] [] ∅) entry_points;
  let b := mkBeam (bm_frontier b) (take ef (bm_results b)) (bm_visited b) in
  b ← search_loop g query ef layer (S (length (hn_vectors g) + length entry_points)) b;
  Some (heap_into_iter (bm_results b)).

(** ** Insertion *)

(** [a.0.total_cmp(&b.0).then(self.ids[a.1].cmp(&self.ids[b.1]))]; the comparison reads
    the ids of its operands, so sorting two or more candidates needs all of them. *)
Definition closer g (a b : f32 * nat) : comparison :=
  then_cmp (total_cmp a.1 b.1) (default 0 (hn_ids g !! a.2) ?= default 0 (hn_ids g !! b.2))%N.

Definition sort_candidates g (l : list (f32 * nat)) : option (list (f32 * nat)) :=
  if ((length l <=? 1)%nat || forallb (λ a, (a.2 <? length (hn_ids g))%nat) l)%bool
  then Some (sort_by (closer g) l) else None.

Definition select_neighbors g (candidates : list (f32 * nat)) (m : nat) : option (list nat) :=
  sorted ← sort_candidates g candidates;
  Some (take m sorted).*2.

Definition prune (n layer budget : nat) g : option Hnsw :=
  base ← hn_vectors g !! n;
  neighbors ← adjacency g n layer;
  adj ← mapM (λ nb, d ← dist_to g base nb; Some (d, nb)) neighbors;
  adj ← sort_candidates g adj;
  on_adjacency n layer (λ _, (take budget adj).*2) g.

(** Links the new node [idx] and a selected neighbour at a layer. *)
Definition connect (idx layer : nat) g (nb : nat) : option Hnsw :=
  g ← on_adjacency idx layer (λ adj, adj ++ [nb]) g;
  g ← on_adjacency nb layer (λ adj, adj ++ [idx]) g;
  adj ← adjacency g nb layer;
  let budget := max_degree g layer in
  if (budget <? length adj)%nat then prune nb layer budget g else Some g.

(** [found.iter().min_by(|a, b| a.0.total_cmp(&b.0))], the first of the closest. *)
Definition min_by_distance (found : list (f32 * nat)) : option (f32 * nat) :=
  head (sort_by (λ a b, total_cmp a.1 b.1) found).

(** The greedy descent from layer [floor + n] to just above [floor]. *)
Fixpoint descend g query (floor n : nat) (ep : list nat) : option (list nat) :=
  match n with
  | 0%nat => Some ep
  | S n' =>
      found ← search_layer g query ep 1 (floor + n);
      descend g query floor n' (match min_by_distance found with
                                | Some (_, best) => [best]
                                | None => ep
                                end)
  end.

(** The layers [n - 1] to [0] of a new node. *)
Fixpoint link_layers (idx entry : nat) query (n : nat) (ep : list nat) g : option Hnsw :=
  match n with
  | 0%nat => Some g
  | S lc =>
      candidates ← search_layer g query ep (hp_ef_construction (hn_params g)) lc;
      selected ← select_neighbors g candidates (hp_m (hn_params g));
      g ← fold_option (connect idx lc) g selected;
      link_layers idx entry query lc (match candidates.*2 with [] => [entry] | ep => ep end) g
  end.

Definition push_node (id : RecordId) (vector : list f32) (layer : nat) g : Hnsw :=
  mkHnsw (hn_metric g) (hn_params g) (hn_ids g ++ [id]) (hn_vectors g ++ [vector])
    (hn_nodes g ++ [mkNode (replicate (layer + 1) [])]) (hn_entry g) (hn_max_layer g) (hn_rng g).

Definition hnsw_insert `{F64Log} (id : RecordId) (vector : list f32) g : option Hnsw :=
  let idx := length (hn_ids g) in
  let '(g, layer) := assign_layer g in
  let g := push_node id vector layer g in
  match hn_entry g with
  | None => Some (set_top idx layer g)
  | Some entry =>
      let top := hn_max_layer g in
      ep ← descend g vector layer (top - layer) [entry];
      g ← link_layers idx entry vector (S (Nat.min layer top)) ep g;
      if (hn_max_layer g <? layer)%nat then Some (set_top idx layer g) else Some g
  end.

Definition hnsw_new (metric : Metric) (params : HnswParams) (seed : N) : Hnsw :=
  mkHnsw metric params [] [] [] None 0 (N.lor seed 1).

Definition hnsw_build `{F64Log} (entries : list (RecordId * list f32)) (metric : Metric)
    (params : HnswParams) (seed : N) : option Hnsw :=
  fold_option (λ g '(id, v), hnsw_insert id v g) (hnsw_new metric params seed) entries.

(** ** Search *)

(** A found candidate with its exact scores. *)
Definition rescore g query (c : f32 * nat) : option Neighbor :=
  id ← hn_ids g !! c.2;
  v ← hn_vectors g !! c.2;
  Some (neighbor_of query (hn_metric g) id v).

Definition hnsw_nearest g query (k ef_search : nat) : option (list Neighbor) :=
  if (bool_decide (hn_ids g = []) || (k =? 0)%nat)%bool then Some []
  else match hn_entry g with
       | None => Some []
       | Some entry =>
           ep ← descend g query 0 (hn_max_layer g) [entry];
           candidates ← search_layer g query ep (Nat.max ef_search k) 0;
           scored ← mapM (rescore g query) candidates;
           Some (take k (sort_by rank_cmp scored))
       end.
End graph.
