(* ===== verification/HnswSpec.v ===== *)
(** * The approximate vector graph is well formed, and exact while it is small

    Theorems about [Hnsw].  The beam search of a layer is a worklist algorithm: it ends,
    stays inside every set of nodes that is closed under the links of the layer, and with
    a beam at least as wide as the graph it visits everything the entry points reach.
    Insertion keeps the graph well formed, which is why no index is out of range.  While
    no list of the base layer is cut, the base layer is connected, and the search finds
    what the exact search finds. *)

From Stdlib Require Import Floats.SpecFloat.
From stdpp Require Import sorting.
From S2P Require Import Prelude Sorting BTree Text Value Core Rank Eval Index Vector Hnsw.

Local Open Scope nat_scope.
Implicit Types (g : Hnsw) (query : list f32).

(** A loop with an invariant over the elements it has done. *)
Lemma fold_option_inv {A B} (f : B → A → option B) (I : list A → B → Prop) l b :
  I [] b →
  (∀ done a rest c, l = done ++ a :: rest → I done c → ∃ c', f c a = Some c' ∧ I (done ++ [a]) c') →
  ∃ b', fold_option f b l = Some b' ∧ I l b'.
Proof.
  intros Hb Hstep.
  assert (Hgen : ∀ rest done c, l = done ++ rest → I done c → ∃ c', fold_option f c rest = Some c' ∧ I l c').
  { induction rest as [|a rest IH]; intros done c Hl Hc; simpl.
    - exists c. split; [done|]. by rewrite Hl, app_nil_r.
    - destruct (Hstep done a rest c Hl Hc) as (c' & -> & Hc'). simpl.
      apply (IH (done ++ [a])); [|done]. by rewrite <- app_assoc. }
  by apply (Hgen l []).
Qed.

Lemma NoDup_fmap_take {A B} (f : A → B) k (l : list A) : NoDup (f <$> l) → NoDup (f <$> take k l).
Proof. rewrite <- (take_drop k l) at 1. rewrite fmap_app. by intros [? _]%NoDup_app. Qed.

Lemma elem_of_fmap_take {A B} (f : A → B) k (l : list A) x : x ∈ f <$> take k l → x ∈ f <$> l.
Proof. rewrite <- (take_drop k l) at 2. rewrite fmap_app. set_solver. Qed.

(** Sets of indices below a bound. *)
Lemma indices_size (S : gset nat) k : (∀ n, n ∈ S → n < k) → size S ≤ k.
Proof.
  intros HS. rewrite <- (length_seq k 0), <- (size_list_to_set (C := gset nat)) by apply NoDup_seq.
  apply subseteq_size. intros n Hn%HS. rewrite elem_of_list_to_set, elem_of_seq. lia.
Qed.

Lemma indices_all (S : gset nat) k n : (∀ n, n ∈ S → n < k) → k ≤ size S → n < k → n ∈ S.
Proof.
  intros HS Hk Hn. assert (Hsub : S ⊆ list_to_set (seq 0 k)).
  { intros m Hm%HS. rewrite elem_of_list_to_set, elem_of_seq. lia. }
  apply set_subseteq_size_eq in Hsub.
  - rewrite Hsub, elem_of_list_to_set, elem_of_seq. lia.
  - rewrite size_list_to_set by apply NoDup_seq. by rewrite length_seq.
Qed.

(** ** The beam search *)

Section beam.
Context g query (ef layer : nat) (P : nat → Prop).
Context (Pin : ∀ n, P n → n < length (hn_vectors g)).
Context (Pclosed : ∀ n l, P n → adjacency g n layer = Some l → Forall P l).
Abbreviation total := (length (hn_vectors g)).
Implicit Types (b : Beam) (n : nat).

Record beam_ok b : Prop := {
  bo_visited : ∀ n, n ∈ bm_visited b → P n;
  bo_nodup : NoDup (bm_results b).*2;
  bo_results : ∀ n, n ∈ (bm_results b).*2 → n ∈ bm_visited b;
  bo_frontier : ∀ n, n ∈ (bm_frontier b).*2 → n ∈ bm_visited b;
  bo_dist : Forall (λ c, dist_to g query c.2 = Some c.1) (bm_results b);
}.

(** What is left to do. *)
Definition measure b : nat := length (bm_frontier b) + (total - size (bm_visited b)).

(** Nothing that was visited has been dropped. *)
Definition full b : Prop := ∀ n, n ∈ bm_visited b → n ∈ (bm_results b).*2.

Record grows b b' : Prop := {
  gr_visited : bm_visited b ⊆ bm_visited b';
  gr_frontier : ∀ n, n ∈ (bm_frontier b).*2 → n ∈ (bm_frontier b').*2;
  gr_measure : measure b' ≤ measure b;
  gr_length : length (bm_results b) ≤ length (bm_results b');
  gr_full : total ≤ ef → full b →
    full b' ∧ (∀ n, n ∈ bm_visited b' → n ∈ bm_visited b ∨ n ∈ (bm_frontier b').*2);
}.

Lemma grows_refl b : grows b b.
Proof. split; [done|done|done|done|]. intros _ Hf. split; [done|]. intros n Hn. by left. Qed.

Lemma grows_trans b1 b2 b3 : grows b1 b2 → grows b2 b3 → grows b1 b3.
Proof.
  intros [V1 F1 M1 L1 U1] [V2 F2 M2 L2 U2]. split; [set_solver|auto|lia|lia|].
  intros He Hf. destruct (U1 He Hf) as [Hf2 Hn2]. destruct (U2 He Hf2) as [Hf3 Hn3].
  split; [done|]. intros n Hn. destruct (Hn3 n Hn) as [Hn'|Hn']; [|by right].
  destruct (Hn2 n Hn') as [?|?]; [by left|right; auto].
Qed.

Lemma dist_total n : n < total → ∃ d, dist_to g query n = Some d.
Proof.
  intros Hn. unfold dist_to. destruct (lookup_lt_is_Some_2 _ _ Hn) as [v ->]. by eexists.
Qed.

Lemma heap_push_perm x l : heap_push x l ≡ₚ x :: l.
Proof. apply insert_by_perm. Qed.

Lemma visited_size b : beam_ok b → size (bm_visited b) ≤ total.
Proof.
  intros Hb. apply indices_size. intros n Hn. by apply Pin, (bo_visited _ Hb).
Qed.

Lemma full_length b : beam_ok b → full b → length (bm_results b) = size (bm_visited b).
Proof.
  intros Hb Hf. rewrite <- (length_fmap snd), <- (size_list_to_set (C := gset nat)) by apply Hb.
  f_equal. apply set_eq. intros n. rewrite elem_of_list_to_set. split; [apply Hb|apply Hf].
Qed.

(** One neighbour. *)
Lemma visit_ok b nb :
  beam_ok b → length (bm_results b) ≤ ef → P nb →
  ∃ b', visit g query ef b nb = Some b' ∧ beam_ok b' ∧ length (bm_results b') ≤ ef ∧
    nb ∈ bm_visited b' ∧ grows b b'.
Proof.
  intros Hb Hlen Hnb. unfold visit. case_bool_decide as Hin.
  { exists b. split_and!; auto using grows_refl. }
  destruct (dist_total nb (Pin _ Hnb)) as [d Hd]. rewrite Hd. simpl.
  assert (Hsize : size ({[nb]} ∪ bm_visited b) = S (size (bm_visited b)))
    by (rewrite size_union by set_solver; by rewrite size_singleton).
  pose proof (visited_size b Hb) as Hvs.
  assert (Hnd : NoDup (heap_push (d, nb) (bm_results b)).*2).
  { rewrite heap_push_perm. simpl. apply NoDup_cons. split; [|apply Hb]. intros Hr. by apply Hin, Hb. }
  assert (Hall : size ({[nb]} ∪ bm_visited b) ≤ total).
  { apply indices_size. intros n [->%elem_of_singleton|Hn]%elem_of_union; [by apply Pin|].
    by apply Pin, (bo_visited _ Hb). }
  destruct (_ || _)%bool eqn:E; eexists; (split; [done|]).
  - split_and!; simpl.
    + split; simpl.
      * intros n [->%elem_of_singleton|Hn]%elem_of_union; [done|by apply Hb].
      * by apply NoDup_fmap_take.
      * intros n Hn%elem_of_fmap_take. rewrite heap_push_perm in Hn. simpl in Hn.
        apply elem_of_cons in Hn as [->|Hn]; [set_solver|]. apply Hb in Hn. set_solver.
      * intros n Hn. rewrite heap_push_perm in Hn. simpl in Hn.
        apply elem_of_cons in Hn as [->|Hn]; [set_solver|]. apply Hb in Hn. set_solver.
      * apply Forall_take. rewrite heap_push_perm. constructor; [done|apply Hb].
    + rewrite length_take. lia.
    + set_solver.
    + split; unfold measure; simpl.
      * set_solver.
      * intros n Hn. rewrite heap_push_perm. by right.
      * rewrite heap_push_perm, Hsize. simpl. lia.
      * rewrite length_take, heap_push_perm. simpl. lia.
      * intros He Hf. rewrite take_ge
          by (rewrite heap_push_perm; simpl; rewrite (full_length b Hb Hf); lia).
        split; unfold full; simpl; intros n [->%elem_of_singleton|Hn]%elem_of_union;
          rewrite ?heap_push_perm; simpl; [by left|right; by apply Hf|right; by left|by left].
  - apply orb_false_iff in E as [E _]. apply Nat.ltb_ge in E. split_and!; simpl.
    + split; simpl; [|apply Hb| | |apply Hb].
      * intros n [->%elem_of_singleton|Hn]%elem_of_union; [done|by apply Hb].
      * intros n Hn%Hb. set_solver.
      * intros n Hn%Hb. set_solver.
    + done.
    + set_solver.
    + split; unfold measure; simpl; [set_solver|done|rewrite Hsize; lia|done|].
      intros He Hf. pose proof (full_length b Hb Hf). lia.
Qed.

(** The neighbours of a candidate. *)
Lemma visit_all_ok b l :
  beam_ok b → length (bm_results b) ≤ ef → Forall P l →
  ∃ b', fold_option (visit g query ef) b l = Some b' ∧ beam_ok b' ∧ length (bm_results b') ≤ ef ∧
    (∀ n, n ∈ l → n ∈ bm_visited b') ∧ grows b b'.
Proof.
  intros Hb Hlen Hl.
  apply (fold_option_inv (visit g query ef) (λ done b', beam_ok b' ∧ length (bm_results b') ≤ ef ∧
    (∀ n, n ∈ done → n ∈ bm_visited b') ∧ grows b b')).
  - split_and!; [done|done|set_solver|apply grows_refl].
  - intros done a rest c -> (Hc & Hlc & Hd & Hg).
    apply Forall_app in Hl as [_ [Ha _]%Forall_cons].
    destruct (visit_ok c a Hc Hlc Ha) as (c' & -> & Hc' & Hlc' & Hin & Hg').
    exists c'. split_and!; [done|done|done| |by eapply grows_trans].
    intros n [Hn|Hn%list_elem_of_singleton]%elem_of_app; [|by subst].
    by apply (gr_visited _ _ Hg'), Hd.
Qed.

(** Every visited node is waiting in the frontier or has had its links followed. *)
Definition followed b : Prop := ∀ n, n ∈ bm_visited b →
  n ∈ (bm_frontier b).*2 ∨ (∀ l m, adjacency g n layer = Some l → m ∈ l → m ∈ bm_visited b).

(** The whole loop ends and, with a beam as wide as the graph, has visited a closed set. *)
Lemma search_loop_ok fuel b :
  beam_ok b → length (bm_results b) ≤ ef → measure b < fuel →
  ∃ b', search_loop g query ef layer fuel b = Some b' ∧ beam_ok b' ∧
    length (bm_results b) ≤ length (bm_results b') ≤ ef ∧ bm_visited b ⊆ bm_visited b' ∧
    (total ≤ ef → full b → followed b → full b' ∧
      (total ≤ size (bm_visited b') ∨
       ∀ n l m, n ∈ bm_visited b' → adjacency g n layer = Some l → m ∈ l → m ∈ bm_visited b')).
Proof.
  revert b. induction fuel as [|fuel IH]; intros b Hb Hlen Hm; [lia|]. simpl.
  destruct (bm_frontier b) as [|[d cand] frontier] eqn:Ef.
  { exists b. split_and!; [done|done|lia|lia|done|]. intros _ Hf Hfol. split; [done|]. right.
    intros n l m Hn Hl Hml. destruct (Hfol n Hn) as [Hn'|Hn']; [|by eapply Hn'].
    rewrite Ef in Hn'. set_solver. }
  set (b0 := mkBeam frontier (bm_results b) (bm_visited b)).
  assert (Hb0 : beam_ok b0).
  { split; simpl; [apply Hb..| |apply Hb]. intros n Hn. apply (bo_frontier _ Hb). rewrite Ef. by right. }
  assert (Hcand : cand ∈ bm_visited b) by (apply (bo_frontier _ Hb); rewrite Ef; by left).
  destruct (_ && _)%bool eqn:E.
  { exists b0. split_and!; [done|done|simpl; lia|done|done|]. intros He Hf _. split; [done|]. left.
    apply andb_true_iff in E as [_ E%Nat.leb_le]. simpl in *. rewrite <- (full_length b Hb Hf). lia. }
  set (adj := default [] (adjacency g cand layer)).
  assert (Hadj : Forall P adj).
  { subst adj. destruct (adjacency g cand layer) as [l|] eqn:El; [|done]. eapply Pclosed; [|done].
    by apply Hb. }
  destruct (visit_all_ok b0 adj Hb0 Hlen Hadj) as (b1 & Hv & Hb1 & Hlen1 & Hin & Hg).
  fold b0 adj. rewrite Hv. simpl.
  assert (Hm1 : measure b1 < fuel).
  { pose proof (gr_measure _ _ Hg). unfold measure in *. rewrite Ef in Hm. simpl in *. lia. }
  destruct (IH b1 Hb1 Hlen1 Hm1) as (b' & -> & Hb' & Hlen' & Hsub & Hfin).
  exists b'. pose proof (gr_length _ _ Hg) as Hgl. simpl in Hgl. split_and!; [done|done|lia|lia| |].
  { etrans; [|done]. apply (gr_visited _ _ Hg). }
  intros He Hf Hfol. destruct (gr_full _ _ Hg He Hf) as [Hf1 Hnew]. apply Hfin; [done|done|].
  intros n Hn. destruct (Hnew n Hn) as [Hold|?]; [|by left]. simpl in Hold.
  destruct (decide (n = cand)) as [->|Hne].
  { right. intros l m Hl Hml. apply Hin. subst adj. by rewrite Hl. }
  destruct (Hfol n Hold) as [Hfr|Hcl].
  - left. apply (gr_frontier _ _ Hg). rewrite Ef in Hfr. simpl in Hfr. set_solver.
  - right. intros l m Hl Hml. apply (gr_visited _ _ Hg). simpl. by eapply Hcl.
Qed.
End beam.

Section layers.
Context `{HeapOrder, !HeapOrderLaws}.

(** A set that contains the entry points and follows the links of a layer contains [n]. *)
Definition reached g (layer : nat) (ep : list nat) (n : nat) : Prop :=
  ∀ S : gset nat, (∀ e, e ∈ ep → e ∈ S) →
    (∀ a l m, a ∈ S → adjacency g a layer = Some l → m ∈ l → m ∈ S) → n ∈ S.

(** The loop over the entry points puts each of them everywhere. *)
Lemma enter_ok g query ep :
  Forall (λ n, n < length (hn_vectors g)) ep →
  ∃ b, fold_option (enter g query) (mkBeam [] [] ∅) ep = Some b ∧
    (bm_frontier b).*2 ≡ₚ ep ∧ (bm_results b).*2 ≡ₚ ep ∧ bm_visited b = list_to_set ep ∧
    Forall (λ c, dist_to g query c.2 = Some c.1) (bm_results b).
Proof.
  intros Hep. apply (fold_option_inv (enter g query) (λ done b, (bm_frontier b).*2 ≡ₚ done ∧
    (bm_results b).*2 ≡ₚ done ∧ bm_visited b = list_to_set done ∧
    Forall (λ c, dist_to g query c.2 = Some c.1) (bm_results b))); [done|].
  intros done a rest c -> (Hf & Hr & Hv & Hd). apply Forall_app in Hep as [_ [Ha _]%Forall_cons].
  unfold enter. destruct (dist_total g query a Ha) as [d Hda]. rewrite Hda. simpl.
  eexists. split; [done|]. simpl. rewrite !heap_push_perm. simpl. rewrite Hf, Hr, Hv.
  split_and!; [apply Permutation_cons_append|apply Permutation_cons_append| |by constructor].
  apply set_eq. intros n. set_solver.
Qed.

(** The search of a layer: it returns distinct nodes with their distances, at most [ef],
    inside every set that is closed under the links, at least one when it has an entry
    point, and all that is reached when the beam is as wide as the graph. *)
Lemma search_layer_ok g query ep ef layer (P : nat → Prop) :
  (∀ n, P n → n < length (hn_vectors g)) →
  (∀ n l, P n → adjacency g n layer = Some l → Forall P l) →
  NoDup ep → Forall P ep →
  ∃ found, search_layer g query ep ef layer = Some found ∧
    NoDup found.*2 ∧ Forall P found.*2 ∧ length found ≤ ef ∧
    Forall (λ c, dist_to g query c.2 = Some c.1) found ∧
    (ep ≠ [] → 0 < ef → found ≠ []) ∧
    (length (hn_vectors g) ≤ ef → ∀ n, n < length (hn_vectors g) → reached g layer ep n → n ∈ found.*2).
Proof.
  intros Pin Pcl Hnd Hep. unfold search_layer.
  destruct (enter_ok g query ep) as (b & -> & Hfr & Hre & Hvi & Hdi).
  { eapply Forall_impl; [done|]. apply Pin. }
  cbn [mbind option_bind]. set (b0 := mkBeam _ _ _).
  assert (Hb0 : beam_ok g query P b0).
  { split; simpl.
    - intros n Hn. rewrite Hvi, elem_of_list_to_set in Hn. rewrite Forall_forall in Hep. auto.
    - apply NoDup_fmap_take. by rewrite Hre.
    - intros n Hn%elem_of_fmap_take. by rewrite Hvi, elem_of_list_to_set, <- Hre.
    - intros n Hn. by rewrite Hvi, elem_of_list_to_set, <- Hfr.
    - by apply Forall_take. }
  assert (Hlr : length (bm_results b) = length ep) by (by rewrite <- (length_fmap snd), Hre).
  assert (Hlf : length (bm_frontier b) = length ep) by (by rewrite <- (length_fmap snd), Hfr).
  destruct (search_loop_ok g query ef layer P Pin Pcl
    (S (length (hn_vectors g) + length ep)) b0 Hb0) as (b' & Hs & Hb' & Hlen & Hsub & Hfull).
  { simpl. rewrite length_take. lia. }
  { unfold measure. simpl. lia. }
  rewrite Hs. cbn [mbind option_bind]. simpl in Hlen. rewrite length_take in Hlen.
  pose proof (heap_into_iter_perm (bm_results b')) as Hp.
  exists (heap_into_iter (bm_results b')). set (found := heap_into_iter _) in *. clearbody found.
  assert (Hp2 : found.*2 ≡ₚ (bm_results b').*2) by (by apply fmap_Permutation).
  apply Permutation_length in Hp as Hpl. split_and!; [done|..].
  - rewrite Hp2. apply Hb'.
  - rewrite Hp2. apply Forall_forall. intros n Hn.
    by apply (bo_visited _ _ _ _ Hb'), (bo_results _ _ _ _ Hb').
  - lia.
  - rewrite Hp. apply Hb'.
  - intros Hne Hef ->. destruct ep; [done|]. simpl in *. lia.
  - intros He n Hn Hreach. rewrite Hp2.
    assert (Hsz : length ep ≤ length (hn_vectors g)).
    { pose proof (visited_size g query P Pin b0 Hb0) as Hsz. simpl in Hsz.
      by rewrite Hvi, size_list_to_set in Hsz. }
    destruct Hfull as [Hf [Hall|Hcl]].
    + done.
    + intros m Hm. simpl in *. rewrite take_ge by lia. by rewrite Hre, <- (elem_of_list_to_set (C := gset nat)), <- Hvi.
    + intros m Hm. left. simpl in *. by rewrite Hfr, <- (elem_of_list_to_set (C := gset nat)), <- Hvi.
    + apply Hf. eapply indices_all; [|done|done]. intros m Hm. by apply Pin, (bo_visited _ _ _ _ Hb').
    + apply Hf. apply Hreach; [|done]. intros e He'. apply Hsub. simpl. rewrite Hvi. by apply elem_of_list_to_set.
Qed.
End layers.

(** ** Links *)

(** No list of links names a node twice, the node itself, more nodes than the layer
    allows, or a node that does not have the layer. *)
Record links_ok g : Prop := {
  lk_vectors : length (hn_vectors g) = length (hn_ids g);
  lk_nodes : length (hn_nodes g) = length (hn_ids g);
  lk_links : ∀ n layer l, adjacency g n layer = Some l →
    NoDup l ∧ (n ∉ l) ∧ length l ≤ max_degree g layer ∧ ∀ m, m ∈ l → is_Some (adjacency g m layer);
}.

Definition layers_of g (n : nat) : option nat := (λ nd, length (nd_neighbors nd)) <$> (hn_nodes g !! n).

(** Only links change. *)
Record relinked g g' : Prop := {
  rl_nodes : g' = set_nodes (hn_nodes g') g;
  rl_layers : ∀ n, layers_of g' n = layers_of g n;
}.

#[export] Instance relinked_preorder : PreOrder relinked.
Proof.
  split; [by split; [destruct x|]|]. intros g1 g2 g3 [E1 L1] [E2 L2]. split.
  - rewrite E2, E1. done.
  - intros n. by rewrite L2, L1.
Qed.

Lemma adjacency_is_Some g n layer :
  is_Some (adjacency g n layer) ↔ ∃ k, layers_of g n = Some k ∧ layer < k.
Proof.
  unfold adjacency, layers_of. destruct (hn_nodes g !! n) as [nd|]; simpl.
  - rewrite lookup_lt_is_Some. naive_solver.
  - split; [by intros []|naive_solver].
Qed.

Lemma adjacency_lower g n layer layer' :
  is_Some (adjacency g n layer) → layer' ≤ layer → is_Some (adjacency g n layer').
Proof. rewrite !adjacency_is_Some. intros (k & Hk & Hl) Hle. exists k. split; [done|lia]. Qed.

Lemma adjacency_relinked g g' n layer :
  relinked g g' → is_Some (adjacency g' n layer) ↔ is_Some (adjacency g n layer).
Proof. intros [_ Hl]. by rewrite !adjacency_is_Some, Hl. Qed.

Lemma adjacency_in_range g n layer l : adjacency g n layer = Some l → n < length (hn_nodes g).
Proof.
  unfold adjacency. destruct (hn_nodes g !! n) eqn:E; [|done]. intros _. by eapply lookup_lt_Some.
Qed.

Lemma relinked_lengths g g' : relinked g g' →
  hn_ids g' = hn_ids g ∧ hn_vectors g' = hn_vectors g ∧ length (hn_nodes g') = length (hn_nodes g) ∧
  hn_params g' = hn_params g ∧ hn_metric g' = hn_metric g ∧ hn_entry g' = hn_entry g ∧
  hn_max_layer g' = hn_max_layer g.
Proof.
  intros [E L]. split_and!; try (rewrite E; done). apply Nat.le_antisymm; apply Nat.nlt_ge; intros Hlt.
  - specialize (L (length (hn_nodes g))). unfold layers_of in L. rewrite (lookup_ge_None_2 (hn_nodes g)) in L by lia.
    destruct (lookup_lt_is_Some_2 _ _ Hlt) as [x Hx]. by rewrite Hx in L.
  - specialize (L (length (hn_nodes g'))). unfold layers_of in L. rewrite (lookup_ge_None_2 (hn_nodes g')) in L by lia.
    destruct (lookup_lt_is_Some_2 _ _ Hlt) as [x Hx]. by rewrite Hx in L.
Qed.

Lemma on_adjacency_ok n layer f g l :
  adjacency g n layer = Some l →
  ∃ g', on_adjacency n layer f g = Some g' ∧ relinked g g' ∧ adjacency g' n layer = Some (f l) ∧
    ∀ n' layer', n' ≠ n ∨ layer' ≠ layer → adjacency g' n' layer' = adjacency g n' layer'.
Proof.
  unfold on_adjacency, adjacency. intros Ha. destruct (hn_nodes g !! n) as [nd|] eqn:En; [|done].
  simpl in *. rewrite Ha. simpl. pose proof (lookup_lt_Some _ _ _ En) as Hn.
  pose proof (lookup_lt_Some _ _ _ Ha) as Hl. eexists. split; [done|]. simpl. split_and!.
  - split; [done|]. intros n'. unfold layers_of. simpl. destruct (decide (n' = n)) as [->|Hne].
    + rewrite list_lookup_insert_eq, En by done. simpl. by rewrite length_insert.
    + by rewrite list_lookup_insert_ne.
  - rewrite list_lookup_insert_eq by done. simpl. by rewrite list_lookup_insert_eq.
  - intros n' layer' Hne. destruct (decide (n' = n)) as [->|Hn'].
    + rewrite list_lookup_insert_eq, En by done. simpl. destruct Hne as [?|Hne]; [done|].
      by rewrite list_lookup_insert_ne.
    + by rewrite list_lookup_insert_ne.
Qed.

Lemma in_range g n layer l : links_ok g → adjacency g n layer = Some l → n < length (hn_ids g).
Proof. intros Hok Ha%adjacency_in_range. by rewrite <- (lk_nodes _ Hok). Qed.

Lemma mapM_Some_total {A B} (f : A → option B) l : Forall (λ x, is_Some (f x)) l → is_Some (mapM f l).
Proof. rewrite mapM_is_Some. done. Qed.

Lemma sort_candidates_ok g l :
  Forall (λ a, a.2 < length (hn_ids g)) l → sort_candidates g l = Some (sort_by (closer g) l).
Proof.
  intros Hl. unfold sort_candidates. rewrite (proj2 (forallb_forall _ l)); [by rewrite orb_true_r|].
  intros x Hx. rewrite <- list_elem_of_In in Hx. rewrite Forall_forall in Hl. by apply Nat.ltb_lt, Hl.
Qed.

(** Pruning leaves a part of the links, within the budget. *)
Lemma prune_ok n layer budget g l :
  length (hn_vectors g) = length (hn_ids g) → n < length (hn_ids g) →
  adjacency g n layer = Some l → NoDup l → (∀ m, m ∈ l → m < length (hn_ids g)) →
  ∃ g' l', prune n layer budget g = Some g' ∧ relinked g g' ∧ adjacency g' n layer = Some l' ∧
    NoDup l' ∧ length l' ≤ budget ∧ (∀ m, m ∈ l' → m ∈ l) ∧
    ∀ n' layer', n' ≠ n ∨ layer' ≠ layer → adjacency g' n' layer' = adjacency g n' layer'.
Proof.
  intros Hlv Hn Ha Hnd Hr. unfold prune.
  destruct (lookup_lt_is_Some_2 (hn_vectors g) n) as [base Hbase]; [lia|]. rewrite Hbase. simpl.
  rewrite Ha. simpl.
  set (f := λ nb : nat, d ← dist_to g base nb; Some (d, nb)).
  assert (Hf : ∀ x, x < length (hn_ids g) → ∃ d, f x = Some (d, x)).
  { intros x Hx. unfold f. destruct (dist_total g base x) as [d ->]; [lia|]. by exists d. }
  destruct (mapM_Some_total f l) as [adj Hadj].
  { apply Forall_forall. intros x Hx%Hr%Hf. destruct Hx as [d ->]. done. }
  rewrite Hadj. simpl. apply mapM_Some in Hadj.
  assert (Hsnd : adj.*2 = l).
  { clear -Hadj Hf Hr. revert Hr. induction Hadj as [|x y l adj Hy _ IH]; intros Hr; [done|].
    rewrite fmap_cons, IH by (intros m Hm; apply Hr; by right). destruct (Hf x) as [d Hd]; [apply Hr; by left|].
    rewrite Hd in Hy. injection Hy as <-. done. }
  rewrite sort_candidates_ok.
  2:{ apply Forall_forall. intros a Hin. apply Hr. rewrite <- Hsnd. by apply list_elem_of_fmap_2. }
  simpl. assert (Hp : (sort_by (closer g) adj).*2 ≡ₚ l) by (rewrite (sort_by_perm (closer g) adj); by rewrite Hsnd).
  destruct (on_adjacency_ok n layer (λ _, (take budget (sort_by (closer g) adj)).*2) g l Ha)
    as (g' & Hg' & Hrl & Han & Hrest).
  eexists g', _. split_and!; [done|done|done| | | |done].
  - apply NoDup_fmap_take. by rewrite Hp.
  - rewrite length_fmap, length_take. lia.
  - intros m Hml%elem_of_fmap_take. by rewrite <- Hp.
Qed.

(** Changing one list to another that is well formed. *)
Lemma links_ok_update g g' n layer l' :
  links_ok g → relinked g g' → adjacency g' n layer = Some l' →
  NoDup l' → n ∉ l' → length l' ≤ max_degree g layer → (∀ m, m ∈ l' → is_Some (adjacency g m layer)) →
  (∀ n' layer', n' ≠ n ∨ layer' ≠ layer → adjacency g' n' layer' = adjacency g n' layer') →
  links_ok g'.
Proof.
  intros [Hv Hn Hl] Hr Ha Hnd Hself Hlen Hm Hrest.
  pose proof (relinked_lengths g g' Hr) as (Ei & Ev & En & Ep & _).
  split; [by rewrite Ei, Ev|by rewrite Ei, En|]. intros n2 layer2 l2 Ha2.
  assert (Hd : max_degree g' layer2 = max_degree g layer2) by (unfold max_degree; by rewrite Ep).
  rewrite Hd. destruct (decide (n2 = n ∧ layer2 = layer)) as [[-> ->]|Hne].
  - rewrite Ha in Ha2. injection Ha2 as <-. split_and!; [done|done|done|].
    intros m Hml. by apply (adjacency_relinked g g' _ _ Hr), Hm.
  - rewrite Hrest in Ha2 by (destruct (decide (n2 = n)); [right; naive_solver|by left]).
    destruct (Hl _ _ _ Ha2) as (H1 & H2 & H3 & H4). split_and!; [done|done|done|].
    intros m Hml. by apply (adjacency_relinked g g' _ _ Hr), H4.
Qed.

(** Linking the new node with one neighbour. *)
Lemma connect_ok idx layer g nb la lb :
  links_ok g → adjacency g idx layer = Some la → adjacency g nb layer = Some lb →
  nb ≠ idx → nb ∉ la → idx ∉ lb → length la < max_degree g layer →
  ∃ g' lb', connect idx layer g nb = Some g' ∧ links_ok g' ∧ relinked g g' ∧
    adjacency g' idx layer = Some (la ++ [nb]) ∧ adjacency g' nb layer = Some lb' ∧
    (length lb < max_degree g layer → lb' = lb ++ [idx]) ∧
    (∀ n layer', n ≠ idx ∧ n ≠ nb ∨ layer' ≠ layer → adjacency g' n layer' = adjacency g n layer').
Proof.
  intros Hok Ha Hb Hne Hna Hnb Hlen. unfold connect.
  destruct (lk_links _ Hok _ _ _ Ha) as (Hnda & Hsa & _ & Hma).
  destruct (lk_links _ Hok _ _ _ Hb) as (Hndb & Hsb & Hdb & Hmb).
  destruct (on_adjacency_ok idx layer (λ adj, adj ++ [nb]) g la Ha) as (g1 & -> & Hr1 & Ha1 & Hrest1).
  assert (Hok1 : links_ok g1).
  { eapply (links_ok_update g g1 idx layer); eauto.
    - apply NoDup_app. split_and!; [done|set_solver|apply NoDup_singleton].
    - set_solver.
    - rewrite length_app. simpl. lia.
    - intros m [Hm|Hm%list_elem_of_singleton]%elem_of_app; [auto|subst; by eexists]. }
  assert (Hb1 : adjacency g1 nb layer = Some lb) by (rewrite Hrest1; auto).
  cbn [mbind option_bind].
  destruct (on_adjacency_ok nb layer (λ adj, adj ++ [idx]) g1 lb Hb1) as (g2 & -> & Hr2 & Hb2 & Hrest2).
  cbn [mbind option_bind]. rewrite Hb2. cbn [mbind option_bind].
  assert (Hdeg : ∀ g', relinked g g' → max_degree g' layer = max_degree g layer).
  { intros g' Hg'. unfold max_degree. by destruct (relinked_lengths _ _ Hg') as (_ & _ & _ & -> & _). }
  assert (Hr02 : relinked g g2) by (by etrans). rewrite (Hdeg g2 Hr02).
  assert (Hnd2 : NoDup (lb ++ [idx])) by (apply NoDup_app; split_and!; [done|set_solver|apply NoDup_singleton]).
  assert (Hself2 : nb ∉ lb ++ [idx]) by set_solver.
  assert (Hm2 : ∀ m, m ∈ lb ++ [idx] → is_Some (adjacency g m layer)).
  { intros m [Hm|Hm%list_elem_of_singleton]%elem_of_app; [auto|subst; by eexists]. }
  destruct (max_degree g layer <? length (lb ++ [idx])) eqn:E.
  - apply Nat.ltb_lt in E. rewrite length_app in E. simpl in E.
    pose proof (relinked_lengths _ _ Hr02) as (Ei & Ev & En & _).
    destruct (prune_ok nb layer (max_degree g layer) g2 (lb ++ [idx]))
      as (g' & l' & -> & Hr3 & Hb3 & Hnd3 & Hlen3 & Hm3 & Hrest3); [|..|done|done| |].
    { rewrite Ei, Ev. apply Hok. }
    { rewrite Ei. by eapply in_range. }
    { intros m [lm Hlm]%Hm2. rewrite Ei. by eapply in_range. }
    assert (Hr13 : relinked g1 g') by (by etrans).
    exists g', l'. split_and!; [done| |by etrans| |done|lia|].
    + eapply (links_ok_update g1 g' nb layer); eauto.
      * by rewrite (Hdeg g1 Hr1).
      * intros m Hm%Hm3%Hm2. by apply (adjacency_relinked g g1 _ _ Hr1).
      * intros n' layer' Hne'. by rewrite Hrest3, Hrest2.
    + rewrite Hrest3, Hrest2 by auto. done.
    + intros n layer' Hn. rewrite Hrest3, Hrest2, Hrest1 by naive_solver. done.
  - apply Nat.ltb_ge in E. exists g2, (lb ++ [idx]). split_and!; [done| |done| |done|done|].
    + eapply (links_ok_update g1 g2 nb layer); eauto.
      * by rewrite (Hdeg g1 Hr1).
      * intros m Hm%Hm2. by apply (adjacency_relinked g g1 _ _ Hr1).
    + rewrite Hrest2 by auto. done.
    + intros n layer' Hn. rewrite Hrest2, Hrest1 by naive_solver. done.
Qed.

(** A node without links at a layer, which no other node is linked to. *)
Definition unlinked g (idx layer : nat) : Prop :=
  adjacency g idx layer = Some [] ∧ ∀ n l, adjacency g n layer = Some l → idx ∉ l.

(** What linking [idx] with [selected] does to a layer. *)
Record linked_layer g g' (idx layer : nat) (selected : list nat) : Prop := {
  ll_new : adjacency g' idx layer = Some selected;
  ll_old : ∀ n l, n ≠ idx → n ∉ selected → adjacency g n layer = Some l → adjacency g' n layer = Some l;
  ll_selected : ∀ n l, n ∈ selected → adjacency g n layer = Some l → length l < max_degree g layer →
    adjacency g' n layer = Some (l ++ [idx]);
}.

Lemma connect_all_ok idx layer g selected :
  links_ok g → unlinked g idx layer → NoDup selected → idx ∉ selected →
  length selected ≤ max_degree g layer → (∀ n, n ∈ selected → is_Some (adjacency g n layer)) →
  ∃ g', fold_option (connect idx layer) g selected = Some g' ∧ links_ok g' ∧ relinked g g' ∧
    linked_layer g g' idx layer selected ∧
    ∀ n layer', layer' ≠ layer → adjacency g' n layer' = adjacency g n layer'.
Proof.
  intros Hok [Ha Hun] Hnd Hidx Hlen Hsel.
  destruct (fold_option_inv (connect idx layer) (λ done g', links_ok g' ∧ relinked g g' ∧
      linked_layer g g' idx layer done ∧
      ∀ n layer', layer' ≠ layer → adjacency g' n layer' = adjacency g n layer') selected g)
    as (g' & Hf & HI); [| |by exists g'].
  { split_and!; [done|reflexivity| |done]. split; [done|by intros n l _ _|set_solver]. }
  intros done nb rest g1 -> (Hok1 & Hr1 & [Hnew Hold Hs] & Hrest).
  apply NoDup_app in Hnd as (_ & Hdis & _).
  assert (Hnbd : nb ∉ done) by (intros Hin; apply (Hdis nb Hin); by left).
  assert (Hnbi : nb ≠ idx) by (intros ->; apply Hidx; apply elem_of_app; right; by left).
  destruct (Hsel nb) as [lb Hlb]; [apply elem_of_app; right; by left|].
  assert (Hdeg : max_degree g1 layer = max_degree g layer)
    by (unfold max_degree; by destruct (relinked_lengths _ _ Hr1) as (_ & _ & _ & -> & _)).
  rewrite length_app in Hlen. simpl in Hlen.
  destruct (connect_ok idx layer g1 nb done lb) as (g2 & lb' & -> & Hok2 & Hr2 & Hnew2 & Hnb2 & Hfull & Hrest2);
    [done|done|by apply Hold|done|done|by eapply Hun|lia|].
  rewrite Hdeg in Hfull. exists g2. split_and!; [done|done|by etrans| |].
  - split; [done|..].
    + intros n l Hni Hnin Hl. apply not_elem_of_app in Hnin as [Hnd Hnn].
      rewrite Hrest2 by (left; split; [done|set_solver]). by apply Hold.
    + intros n l [Hin|Hin%list_elem_of_singleton]%elem_of_app Hl Hlt.
      * rewrite Hrest2; [by apply Hs|]. left. split; [|congruence].
        intros ->. apply Hidx, elem_of_app. by left.
      * subst n. rewrite Hlb in Hl. injection Hl as <-. rewrite Hnb2. by rewrite Hfull.
  - intros n layer' Hne. by rewrite Hrest2, Hrest by auto.
Qed.

Lemma select_neighbors_ok g candidates m :
  Forall (λ n, n < length (hn_ids g)) candidates.*2 → NoDup candidates.*2 →
  ∃ selected, select_neighbors g candidates m = Some selected ∧ NoDup selected ∧
    length selected ≤ m ∧ (∀ n, n ∈ selected → n ∈ candidates.*2) ∧
    (0 < m → candidates ≠ [] → selected ≠ []).
Proof.
  intros Hr Hnd. unfold select_neighbors. rewrite sort_candidates_ok.
  2:{ rewrite Forall_fmap in Hr. done. }
  simpl. pose proof (sort_by_perm (closer g) candidates) as Hp.
  assert (Hp2 : (sort_by (closer g) candidates).*2 ≡ₚ candidates.*2) by (by apply fmap_Permutation).
  eexists. split_and!; [done|..].
  - apply NoDup_fmap_take. by rewrite Hp2.
  - rewrite length_fmap, length_take. lia.
  - intros n Hn%elem_of_fmap_take. by rewrite <- Hp2.
  - intros Hm Hne. apply Permutation_length in Hp. destruct (sort_by (closer g) candidates) as [|c s].
    + by destruct candidates.
    + by destruct m; [lia|].
Qed.

Section insertion.
Context `{HeapOrder, !HeapOrderLaws}.

(** The links of a layer lead to nodes that have the layer, and not to [idx]. *)
Lemma layer_closed g idx layer n l :
  links_ok g → (∀ n l, adjacency g n layer = Some l → idx ∉ l) → adjacency g n layer = Some l →
  Forall (λ m, is_Some (adjacency g m layer) ∧ m ≠ idx) l.
Proof.
  intros Hok Hun Ha. apply Forall_forall. intros m Hm. split.
  - by apply (lk_links _ Hok _ _ _ Ha).
  - intros ->. by apply (Hun n l Ha).
Qed.

Lemma layer_in_range g idx layer n :
  links_ok g → is_Some (adjacency g n layer) ∧ n ≠ idx → n < length (hn_vectors g).
Proof. intros Hok [[l Hl] _]. rewrite (lk_vectors _ Hok). by eapply in_range. Qed.

(** The descent ends at a node that has the layer it stops above. *)
Lemma descend_ok g query idx floor n e :
  links_ok g → (∀ layer n l, adjacency g n layer = Some l → idx ∉ l) →
  is_Some (adjacency g e (floor + n)) → e ≠ idx →
  ∃ e', descend g query floor n [e] = Some [e'] ∧ is_Some (adjacency g e' floor) ∧ e' ≠ idx.
Proof.
  intros Hok Hun. revert e. induction n as [|n IH]; intros e He Hne; simpl.
  { exists e. rewrite Nat.add_0_r in He. done. }
  destruct (search_layer_ok g query [e] 1 (floor + S n) (λ m, is_Some (adjacency g m (floor + S n)) ∧ m ≠ idx))
    as (found & -> & _ & HP & _).
  - intros m Hm. exact (layer_in_range _ _ _ _ Hok Hm).
  - intros m l _. exact (layer_closed _ _ _ _ _ Hok (Hun _)).
  - apply NoDup_singleton.
  - by apply Forall_singleton.
  - cbn [mbind option_bind]. unfold min_by_distance.
    set (s := sort_by _ found). assert (Hs : ∀ c, c ∈ s → c.2 ∈ found.*2).
    { intros c Hc. apply list_elem_of_fmap_2. subst s. by rewrite sort_by_perm in Hc. }
    assert (Hlow : ∀ m, is_Some (adjacency g m (floor + S n)) → is_Some (adjacency g m (floor + n))).
    { intros m Hm. eapply adjacency_lower; [done|lia]. }
    destruct s as [|[d best] s]; simpl; [by apply IH; [apply Hlow|]|].
    rewrite Forall_forall in HP. destruct (HP best (Hs (d, best) ltac:(by left))) as [Hb Hbn].
    apply IH; auto.
Qed.

(** The new node is linked layer by layer. *)
Lemma link_layers_ok idx entry query n ep g :
  links_ok g → (∀ layer, layer < n → unlinked g idx layer) →
  (∀ layer, layer < n → is_Some (adjacency g entry layer)) → entry ≠ idx →
  NoDup ep → ep ≠ [] → Forall (λ e, is_Some (adjacency g e (n - 1)) ∧ e ≠ idx) ep →
  ∃ g', link_layers idx entry query n ep g = Some g' ∧ links_ok g' ∧ relinked g g' ∧
    (∀ n' layer, n ≤ layer → adjacency g' n' layer = adjacency g n' layer) ∧
    (0 < n → ∃ selected, linked_layer g g' idx 0 selected ∧ (idx ∉ selected) ∧
       (0 < hp_m (hn_params g) → 0 < hp_ef_construction (hn_params g) → selected ≠ [])).
Proof.
  revert ep g. induction n as [|lc IH]; intros ep g Hok Hun Hent Hei Hnd Hne Hep; simpl.
  { exists g. split_and!; [done|done|reflexivity|done|lia]. }
  rewrite Nat.sub_1_r in Hep. simpl in Hep. destruct (Hun lc ltac:(lia)) as [Ha Hno].
  destruct (search_layer_ok g query ep (hp_ef_construction (hn_params g)) lc
    (λ m, is_Some (adjacency g m lc) ∧ m ≠ idx)) as (cands & -> & Hcnd & HP & _ & _ & Hcne & _).
  { intros m Hm. exact (layer_in_range _ _ _ _ Hok Hm). }
  { intros m l _. exact (layer_closed _ _ _ _ _ Hok Hno). }
  { done. }
  { done. }
  cbn [mbind option_bind]. rewrite Forall_forall in HP.
  destruct (select_neighbors_ok g cands (hp_m (hn_params g))) as (sel & -> & Hsnd & Hslen & Hsin & Hsne).
  { apply Forall_forall. intros m Hm%HP. rewrite <- (lk_vectors _ Hok). by eapply layer_in_range. }
  { done. }
  cbn [mbind option_bind].
  destruct (connect_all_ok idx lc g sel) as (g1 & -> & Hok1 & Hr1 & Hll & Hother);
    [done|done|done| | | |].
  { intros Hin%Hsin%HP. by destruct Hin. }
  { unfold max_degree. destruct (lc =? 0); lia. }
  { intros m Hm%Hsin%HP. by destruct Hm. }
  cbn [mbind option_bind]. pose proof (relinked_lengths _ _ Hr1) as (_ & _ & _ & Ep & _).
  assert (Hsi : idx ∉ sel) by (intros Hin%Hsin%HP; by destruct Hin).
  destruct (IH (match cands.*2 with [] => [entry] | ep => ep end) g1) as (g' & -> & Hok' & Hr' & Hup & Hzero).
  - done.
  - intros layer Hl. destruct (Hun layer ltac:(lia)) as [H1 H2]. split; [rewrite Hother by lia; done|].
    intros n l. rewrite Hother by lia. apply H2.
  - intros layer Hl. apply (adjacency_relinked g g1 _ _ Hr1), Hent. lia.
  - done.
  - destruct cands.*2; [apply NoDup_singleton|done].
  - by destruct cands.*2.
  - apply Forall_forall. intros m Hm. destruct cands.*2 as [|c cs] eqn:Ec.
    + apply list_elem_of_singleton in Hm as ->. split; [|done].
      apply (adjacency_relinked g g1 _ _ Hr1), Hent. lia.
    + apply HP in Hm as [Hm ?]. split; [|done]. apply (adjacency_relinked g g1 _ _ Hr1).
      eapply adjacency_lower; [done|lia].
  - exists g'. split_and!; [done|done|by etrans| |].
    + intros n' layer Hl. by rewrite Hup, Hother by lia.
    + intros _. destruct (decide (lc = 0)) as [->|Hlc].
      * exists sel. split_and!; [|done|].
        -- destruct Hll as [L1 L2 L3].
           split; [rewrite Hup by lia; done|..]; intros n l; rewrite Hup by lia; auto.
        -- intros Hm Hef. apply Hsne; auto.
      * destruct (Hzero ltac:(lia)) as (sel0 & [L1 L2 L3] & Hi0 & Hne0). exists sel0.
        rewrite Ep in Hne0. split_and!; [|done|done]. unfold max_degree in L3. rewrite Ep in L3.
        split; [done|..]; intros n l; rewrite <- (Hother n 0) by done; auto.
Qed.
End insertion.

(** ** The graph *)

(** Links are well formed, every node has its base layer, and the entry is a node of the
    top layer. *)
Record graph_ok g : Prop := {
  gk_links : links_ok g;
  gk_layers : ∀ n k, layers_of g n = Some k → 0 < k ≤ S (hn_max_layer g);
  gk_entry : match hn_entry g with
             | None => hn_ids g = []
             | Some e => layers_of g e = Some (S (hn_max_layer g))
             end;
}.

(** The base layer is connected: links go both ways, and every node but the first has a
    link to an earlier one. *)
Record connected g : Prop := {
  cn_back : ∀ n, 0 < n < length (hn_ids g) → ∃ l m, adjacency g n 0 = Some l ∧ m ∈ l ∧ m < n;
  cn_both : ∀ a b la, adjacency g a 0 = Some la → b ∈ la →
    ∃ lb, adjacency g b 0 = Some lb ∧ a ∈ lb;
}.

Lemma layers_push id v layer g n :
  layers_of (push_node id v layer g) n =
    if decide (n = length (hn_nodes g)) then Some (S layer) else layers_of g n.
Proof.
  unfold layers_of. simpl. destruct (decide (n = length (hn_nodes g))) as [->|Hne].
  - rewrite list_lookup_middle by done. simpl. by rewrite length_replicate, Nat.add_1_r.
  - destruct (decide (n < length (hn_nodes g))); [by rewrite lookup_app_l|].
    rewrite (lookup_ge_None_2 (hn_nodes g)), (lookup_ge_None_2 (_ ++ _)); [done| |lia].
    rewrite length_app. simpl. lia.
Qed.

Lemma adjacency_push id v layer g n layer' :
  adjacency (push_node id v layer g) n layer' =
    if decide (n = length (hn_nodes g)) then (if decide (layer' ≤ layer) then Some [] else None)
    else adjacency g n layer'.
Proof.
  unfold adjacency. simpl. destruct (decide (n = length (hn_nodes g))) as [->|Hne].
  - rewrite list_lookup_middle by done. simpl. destruct (decide (layer' ≤ layer)).
    + apply lookup_replicate. split; [done|lia].
    + apply lookup_ge_None_2. rewrite length_replicate. lia.
  - destruct (decide (n < length (hn_nodes g))); [by rewrite lookup_app_l|].
    rewrite (lookup_ge_None_2 (hn_nodes g)), (lookup_ge_None_2 (_ ++ _)); [done| |lia].
    rewrite length_app. simpl. lia.
Qed.

(** A pushed node is not linked, and the rest stays well formed. *)
Lemma push_links_ok id v layer g : links_ok g → links_ok (push_node id v layer g).
Proof.
  intros Hok. split; simpl.
  - rewrite !length_app. simpl. by rewrite (lk_vectors _ Hok).
  - rewrite !length_app. simpl. by rewrite (lk_nodes _ Hok).
  - intros n layer' l. rewrite adjacency_push. destruct (decide _) as [->|Hne].
    + destruct (decide _); intros [= <-]. split_and!; [constructor|set_solver|simpl; lia|set_solver].
    + intros Hl. destruct (lk_links _ Hok _ _ _ Hl) as (H1 & H2 & H3 & H4).
      split_and!; [done|done|done|]. intros m Hm. rewrite adjacency_push.
      destruct (H4 m Hm) as [lm Hlm]. pose proof (adjacency_in_range _ _ _ _ Hlm).
      rewrite decide_False by lia. by eexists.
Qed.

Lemma push_not_linked id v layer g layer' n l :
  links_ok g → adjacency (push_node id v layer g) n layer' = Some l → length (hn_ids g) ∉ l.
Proof.
  intros Hok. rewrite adjacency_push. destruct (decide _) as [->|Hne].
  - destruct (decide _); intros [= <-]. set_solver.
  - intros Hl Hin. destruct (lk_links _ Hok _ _ _ Hl) as (_ & _ & _ & H4).
    destruct (H4 _ Hin) as [lm Hlm]. apply (in_range _ _ _ _ Hok) in Hlm. lia.
Qed.

Lemma assign_layer_rng `{F64Log} g : ∃ rng layer, assign_layer g = (set_rng rng g, layer).
Proof. by eexists _, _. Qed.

Lemma set_rng_ok rng g : graph_ok g → graph_ok (set_rng rng g).
Proof. intros [[H1 H2 H3] H4 H5]. split; [split|..]; done. Qed.

Lemma set_top_links idx layer g : links_ok g → links_ok (set_top idx layer g).
Proof. by intros [H1 H2 H3]. Qed.

(** A list of distinct nodes that leaves out one of the graph is shorter than the graph. *)
Lemma links_short g n layer l :
  links_ok g → adjacency g n layer = Some l → S (length l) ≤ length (hn_ids g).
Proof.
  intros Hok Ha. destruct (lk_links _ Hok _ _ _ Ha) as (Hnd & Hself & _ & Hm).
  change (S (length l)) with (length (n :: l)). rewrite <- (length_seq (length (hn_ids g)) 0).
  apply submseteq_length, NoDup_submseteq; [by constructor|].
  intros m Hin. apply elem_of_seq. split; [lia|]. simpl.
  apply elem_of_cons in Hin as [->|Hin]; [by eapply in_range|].
  destruct (Hm m Hin) as [lm Hlm]. by eapply in_range.
Qed.

(** A node that is linked with every selected node of a connected graph is connected. *)
Lemma linked_connected g g' idx selected :
  connected g → idx = length (hn_ids g) → length (hn_ids g') = S idx →
  (∀ n l, adjacency g n 0 = Some l → n < idx ∧ length l < max_degree g 0) →
  (∀ n l, adjacency g' n 0 = Some l → n ≠ idx → is_Some (adjacency g n 0)) →
  (∀ n, n ∈ selected → is_Some (adjacency g n 0)) → selected ≠ [] →
  linked_layer g g' idx 0 selected → connected g'.
Proof.
  intros [Hback Hboth] Hidx Hlen Hshort Hsome Hsel Hne [Lnew Lold Lsel].
  assert (Hkeep : ∀ n l, adjacency g n 0 = Some l → ∃ l', adjacency g' n 0 = Some l' ∧ ∀ m, m ∈ l → m ∈ l').
  { intros n l Hl. destruct (Hshort n l Hl) as [Hlt Hd]. destruct (decide (n ∈ selected)) as [Hin|Hnin].
    - exists (l ++ [idx]). split; [by apply Lsel|]. set_solver.
    - exists l. split; [apply Lold; [lia|done|done]|done]. }
  split.
  - intros n Hn. destruct (decide (n = idx)) as [->|Hni].
    + destruct selected as [|s sel]; [done|]. exists (s :: sel), s. split_and!; [done|by left|].
      destruct (Hsel s ltac:(by left)) as [ls Hls]. by apply Hshort in Hls as [? _].
    + destruct (Hback n ltac:(lia)) as (l & m & Hl & Hm & Hlt).
      destruct (Hkeep n l Hl) as (l' & Hl' & Hin). exists l', m. auto.
  - intros a b la Ha Hb. destruct (decide (a = idx)) as [->|Hai].
    + rewrite Lnew in Ha. injection Ha as <-. destruct (Hsel b Hb) as [lb Hlb].
      exists (lb ++ [idx]). split; [apply Lsel; [done|done|by apply (Hshort b)]|set_solver].
    + destruct (Hsome a la Ha Hai) as [la0 Hla0]. destruct (Hshort a la0 Hla0) as [Hlt Hd].
      assert (Hcase : b ∈ la0 ∨ b = idx ∧ a ∈ selected).
      { destruct (decide (a ∈ selected)) as [Hin|Hnin].
        - rewrite (Lsel a la0 Hin Hla0 Hd) in Ha. injection Ha as <-. set_solver.
        - rewrite (Lold a la0 Hai Hnin Hla0) in Ha. injection Ha as <-. by left. }
      destruct Hcase as [Hin|[-> Hin]]; [|by exists selected].
      destruct (Hboth a b la0 Hla0 Hin) as (lb & Hlb & Hal).
      destruct (Hkeep b lb Hlb) as (lb' & Hlb' & Hsub). exists lb'. auto.
Qed.

Section building.
Context `{HeapOrder, !HeapOrderLaws, F64Log}.

(** The graph keeps its shape and gains one entry. *)
Record inserted (id : RecordId) (v : list f32) g g' : Prop := {
  is_ids : hn_ids g' = hn_ids g ++ [id];
  is_vectors : hn_vectors g' = hn_vectors g ++ [v];
  is_params : hn_params g' = hn_params g;
  is_metric : hn_metric g' = hn_metric g;
}.

(** The links of a pushed node, as [g'] has them. *)
Lemma pushed_connected id v layer g g' selected :
  links_ok g → hn_ids g ≠ [] → length (hn_ids g) ≤ hp_m (hn_params g) * 2 →
  relinked (push_node id v layer g) g' → links_ok g' →
  linked_layer (push_node id v layer g) g' (length (hn_ids g)) 0 selected →
  length (hn_ids g) ∉ selected → selected ≠ [] → connected g → connected g'.
Proof.
  intros Hok Hne Hsmall Hr Hok' [Lnew Lold Lsel] Hni Hsne Hcon.
  pose proof (relinked_lengths _ _ Hr) as (Ei & _). pose proof (lk_nodes _ Hok) as Hln.
  assert (Hpush : ∀ n, n ≠ length (hn_ids g) → adjacency (push_node id v layer g) n 0 = adjacency g n 0).
  { intros n Hn. rewrite adjacency_push, decide_False by lia. done. }
  apply (linked_connected g g' (length (hn_ids g)) selected); [done|done| | | | |done|].
  - rewrite Ei. simpl. rewrite length_app. simpl. lia.
  - intros n l Hl. split; [by eapply in_range|]. pose proof (links_short _ _ _ _ Hok Hl).
    unfold max_degree. simpl. lia.
  - intros n l Hl Hn. rewrite <- Hpush by done. apply (adjacency_relinked _ _ _ _ Hr). by eexists.
  - intros n Hn. rewrite <- Hpush by (intros ->; done). apply (adjacency_relinked _ _ _ _ Hr).
    by apply (lk_links _ Hok' _ _ _ Lnew).
  - split; [done|..].
    + intros n l Hn Hs Hl. apply Lold; [done|done|]. by rewrite Hpush.
    + intros n l Hs Hl Hlt. apply Lsel; [done| |done]. rewrite Hpush; [done|]. by intros ->.
Qed.

Lemma layers_entry g e layer : layers_of g e = Some (S (hn_max_layer g)) → layer ≤ hn_max_layer g →
  is_Some (adjacency g e layer).
Proof. intros He Hl. apply adjacency_is_Some. eexists. split; [done|lia]. Qed.

Section insert.
Context (id : RecordId) (v : list f32) (layer : nat) (g : Hnsw) (Hg : graph_ok g).
Let gp := push_node id v layer g.
Let idx := length (hn_ids g).

Lemma insert_first : hn_entry g = None → graph_ok (set_top idx layer gp) ∧ connected (set_top idx layer gp).
Proof.
  destruct Hg as [Hok _ Hent]. intros He. rewrite He in Hent. pose proof (lk_nodes _ Hok) as Hln.
  assert (Hnodes : hn_nodes g = []) by (apply nil_length_inv; by rewrite Hln, Hent).
  split; [split|split].
  - apply set_top_links, push_links_ok, Hok.
  - intros n k. change (layers_of (set_top idx layer gp) n) with (layers_of gp n).
    unfold gp. rewrite layers_push. destruct (decide _); [intros [= <-]; simpl; lia|].
    unfold layers_of. by rewrite Hnodes, lookup_nil.
  - simpl. change (layers_of (set_top idx layer gp) idx) with (layers_of gp idx).
    unfold gp. by rewrite layers_push, decide_True by (by unfold idx).
  - intros n. simpl. rewrite Hent. simpl. lia.
  - intros a b la. change (adjacency (set_top idx layer gp)) with (adjacency gp). intros Ha Hb.
    unfold gp in Ha. rewrite adjacency_push in Ha. destruct (decide _).
    + destruct (decide _); [|done]. injection Ha as <-. set_solver.
    + unfold adjacency in Ha. by rewrite Hnodes, lookup_nil in Ha.
Qed.

Context (entry : nat) (He : hn_entry g = Some entry).

Lemma entry_earlier : entry < idx.
Proof.
  destruct Hg as [Hok _ Hent]. rewrite He in Hent. unfold layers_of in Hent.
  destruct (hn_nodes g !! entry) eqn:E; [|done]. apply lookup_lt_Some in E.
  unfold idx. by rewrite <- (lk_nodes _ Hok).
Qed.

Lemma entry_layers : layers_of gp entry = Some (S (hn_max_layer g)).
Proof.
  pose proof entry_earlier. destruct Hg as [Hok _ Hent]. rewrite He in Hent. unfold gp, idx in *.
  by rewrite layers_push, decide_False by (rewrite (lk_nodes _ Hok); lia).
Qed.

(** The descent arrives at a node of the layer where linking starts. *)
Lemma insert_descent : ∃ e, descend gp v layer (hn_max_layer g - layer) [entry] = Some [e] ∧
  is_Some (adjacency gp e (Nat.min layer (hn_max_layer g))) ∧ e ≠ idx.
Proof.
  pose proof entry_earlier as Hlt. pose proof entry_layers as Hlay. destruct Hg as [Hok _ _].
  destruct (decide (layer ≤ hn_max_layer g)) as [Hle|Hgt].
  - rewrite Nat.min_l by done. apply descend_ok; [by apply push_links_ok| | |lia].
    + intros layer' n l Hl. by eapply push_not_linked.
    + apply (layers_entry gp); [done|]. simpl. lia.
  - replace (hn_max_layer g - layer) with 0 by lia. exists entry. split_and!; [done| |lia].
    apply (layers_entry gp); [done|]. simpl. lia.
Qed.

Lemma insert_linked ep :
  descend gp v layer (hn_max_layer g - layer) [entry] = Some ep →
  ∃ g', link_layers idx entry v (S (Nat.min layer (hn_max_layer g))) ep gp = Some g' ∧
    links_ok g' ∧ relinked gp g' ∧
    (0 < hp_m (hn_params g) → 0 < hp_ef_construction (hn_params g) →
     idx ≤ hp_m (hn_params g) * 2 → connected g → connected g').
Proof.
  intros Hd. destruct insert_descent as (e & Hd' & Hep & Hne). rewrite Hd in Hd'. injection Hd' as ->.
  pose proof entry_earlier as Hlt. pose proof entry_layers as Hlay. destruct Hg as [Hok _ _].
  pose proof (push_links_ok id v layer g Hok) as Hokp.
  destruct (link_layers_ok idx entry v (S (Nat.min layer (hn_max_layer g))) [e] gp)
    as (g' & Hl & Hok' & Hr & _ & Hzero); [done| | |lia|apply NoDup_singleton|done| |].
  - intros layer' Hl'. split; [|intros n l; by apply push_not_linked].
    unfold gp. rewrite adjacency_push, decide_True, decide_True; [done|lia|].
    unfold idx. by rewrite (lk_nodes _ Hok).
  - intros layer' Hl'. apply (layers_entry gp); [done|]. simpl. lia.
  - apply Forall_singleton. by rewrite Nat.sub_1_r.
  - exists g'. split_and!; [done..|]. intros Hm Hef Hsmall Hcon.
    destruct (Hzero ltac:(lia)) as (sel & Hll & Hni & Hsne).
    apply (pushed_connected id v layer g g' sel); auto. intros Hnil.
    unfold idx in Hlt. rewrite Hnil in Hlt. simpl in Hlt. lia.
Qed.
End insert.

(** Insertion does not panic and keeps the graph well formed, and connected as long as no
    list of the base layer can have been cut. *)
Lemma hnsw_insert_ok id v g :
  graph_ok g → ∃ g', hnsw_insert id v g = Some g' ∧ graph_ok g' ∧ inserted id v g g' ∧
    (0 < hp_m (hn_params g) → 0 < hp_ef_construction (hn_params g) →
     length (hn_ids g) ≤ hp_m (hn_params g) * 2 → connected g → connected g').
Proof.
  intros Hg0. unfold hnsw_insert. destruct (assign_layer_rng g) as (rng & layer & ->).
  assert (Hc : connected g → connected (set_rng rng g)) by (by intros [? ?]).
  pose proof (set_rng_ok rng g Hg0) as Hg. clear Hg0.
  change (hn_ids g) with (hn_ids (set_rng rng g)). change (hn_params g) with (hn_params (set_rng rng g)).
  assert (Hi : ∀ g', inserted id v (set_rng rng g) g' → inserted id v g g') by (by intros g' []).
  generalize dependent (set_rng rng g). clear rng. intros g0 Hc Hg Hi.
  change (hn_entry (push_node id v layer g0)) with (hn_entry g0).
  change (hn_max_layer (push_node id v layer g0)) with (hn_max_layer g0).
  destruct (hn_entry g0) as [entry|] eqn:He.
  2:{ destruct (insert_first id v layer g0 Hg He). eexists. split_and!; [done|done| |done].
      apply Hi. by split. }
  destruct (insert_descent id v layer g0 Hg entry He) as (e & Hd & _). rewrite Hd. cbn [mbind option_bind].
  destruct (insert_linked id v layer g0 Hg entry He [e] Hd) as (g' & -> & Hok & Hr & Hcon).
  cbn [mbind option_bind]. pose proof (relinked_lengths _ _ Hr) as (Ei & Ev & _ & Ep & Em & Ee & El).
  simpl in El. rewrite El. pose proof Hg as [Hok0 Hlay Hent]. rewrite He in Hent.
  destruct (hn_max_layer g0 <? layer) eqn:E; eexists; (split; [done|]).
  - apply Nat.ltb_lt in E. split_and!; [split|apply Hi; by split|].
    + by apply set_top_links.
    + intros n k. change (layers_of (set_top ?i ?l g') n) with (layers_of g' n). rewrite (rl_layers _ _ Hr), layers_push.
      destruct (decide _); [intros [= <-]; simpl; lia|]. intros Hk%Hlay. simpl. lia.
    + simpl. change (layers_of (set_top ?i ?l g') ?n) with (layers_of g' n). rewrite (rl_layers _ _ Hr), layers_push.
      by rewrite decide_True by (by rewrite (lk_nodes _ Hok0)).
    + intros Hm Hef Hsm Hcn%Hc. destruct (Hcon Hm Hef Hsm Hcn). by split.
  - apply Nat.ltb_ge in E. split_and!; [split|apply Hi; by split|auto].
    + done.
    + intros n k. rewrite (rl_layers _ _ Hr), layers_push, El. destruct (decide _); [intros [= <-]; simpl; lia|].
      apply Hlay.
    + rewrite Ee, El. simpl. rewrite He, (rl_layers _ _ Hr). by apply entry_layers.
Qed.

(** Building does not panic. *)
Lemma hnsw_build_ok entries metric params seed :
  ∃ g, hnsw_build entries metric params seed = Some g ∧ graph_ok g ∧
    hn_ids g = entries.*1 ∧ hn_vectors g = entries.*2 ∧ hn_params g = params ∧ hn_metric g = metric ∧
    (0 < hp_m params → 0 < hp_ef_construction params → length entries ≤ hp_m params * 2 + 1 → connected g).
Proof.
  apply (fold_option_inv _ (λ done g, graph_ok g ∧
    hn_ids g = done.*1 ∧ hn_vectors g = done.*2 ∧ hn_params g = params ∧ hn_metric g = metric ∧
    (0 < hp_m params → 0 < hp_ef_construction params → length entries ≤ hp_m params * 2 + 1 → connected g))).
  - split_and!; [|done..|].
    + split; [split; [done|done|]|..|done].
      * intros n layer l. unfold adjacency. cbn [hn_nodes hnsw_new]. by rewrite lookup_nil.
      * intros n k. unfold layers_of. cbn [hn_nodes hnsw_new]. by rewrite lookup_nil.
    + intros _ _ _. split; [simpl; lia|]. unfold adjacency. cbn [hn_nodes hnsw_new]. intros a b la. by rewrite lookup_nil.
  - intros done [id v] rest g -> (Hok & Ei & Ev & Ep & Em & Hcon).
    destruct (hnsw_insert_ok id v g Hok) as (g' & -> & Hok' & [Ii Iv Ip Im] & Hc). exists g'.
    split_and!; [done|done|by rewrite Ii, Ei, fmap_app|by rewrite Iv, Ev, fmap_app|congruence|congruence|].
    intros Hm Hef Hlen. rewrite Ep in Hc. apply Hc; [done|done| |by apply Hcon].
    rewrite length_app in Hlen. simpl in Hlen. rewrite Ei, length_fmap. lia.
Qed.

(** In a connected graph every node is reached from every node. *)
Lemma connected_reached g e n :
  connected g → e < length (hn_ids g) → n < length (hn_ids g) → reached g 0 [e] n.
Proof.
  intros [Hback Hboth] He Hn S HS Hcl.
  assert (Hzero : ∀ m, m < length (hn_ids g) → m ∈ S → 0 ∈ S).
  { intros m. induction (lt_wf m) as [m _ IH]. intros Hm HmS. destruct (decide (m = 0)) as [->|Hne]; [done|].
    destruct (Hback m ltac:(lia)) as (l & m' & Hl & Hm' & Hlt). apply (IH m'); [done|lia|by eapply Hcl]. }
  assert (H0S : 0 ∈ S) by (apply (Hzero e He), HS; by left).
  induction (lt_wf n) as [n _ IH]. destruct (decide (n = 0)) as [->|Hne]; [done|].
  destruct (Hback n ltac:(lia)) as (l & m & Hl & Hm & Hlt). destruct (Hboth n m l Hl Hm) as (lm & Hlm & Hin).
  eapply Hcl; [|done|done]. apply IH; lia.
Qed.

(** The candidates of a search with their scores. *)
Definition scored_of g query (c : f32 * nat) (n : Neighbor) : Prop :=
  ∃ id v, hn_ids g !! c.2 = Some id ∧ hn_vectors g !! c.2 = Some v ∧
    n = neighbor_of query (hn_metric g) id v.

Lemma rescore_ok g query found :
  length (hn_vectors g) = length (hn_ids g) → Forall (λ n, n < length (hn_ids g)) found.*2 →
  ∃ scored, mapM (rescore g query) found = Some scored ∧ Forall2 (scored_of g query) found scored.
Proof.
  intros Hlen Hr. destruct (mapM_Some_total (rescore g query) found) as [scored Hs].
  - rewrite Forall_fmap in Hr. eapply Forall_impl; [done|]. intros [d n] Hn. simpl in Hn. unfold rescore. simpl.
    destruct (lookup_lt_is_Some_2 (hn_ids g) n Hn) as [id ->].
    destruct (lookup_lt_is_Some_2 (hn_vectors g) n ltac:(lia)) as [v ->]. simpl. by eexists.
  - exists scored. split; [done|]. apply mapM_Some in Hs. eapply Forall2_impl; [done|].
    intros c n. unfold rescore, scored_of. destruct (hn_ids g !! c.2); [|done]. simpl.
    destruct (hn_vectors g !! c.2); [|done]. simpl. intros [= <-]. by eexists _, _.
Qed.

(** The search finds distinct nodes, and with a wide beam all nodes of a connected graph. *)
Lemma hnsw_nearest_ok g query k ef_search :
  graph_ok g → hn_ids g ≠ [] → 0 < k →
  ∃ found scored, hnsw_nearest g query k ef_search = Some (take k (sort_by rank_cmp scored)) ∧
    Forall2 (scored_of g query) found scored ∧ NoDup found.*2 ∧
    found ≠ [] ∧ length found ≤ Nat.max ef_search k ∧
    (length (hn_ids g) ≤ Nat.max ef_search k → connected g →
     ∀ n, n < length (hn_ids g) → n ∈ found.*2).
Proof.
  intros [Hok Hlay Hent] Hne Hk. unfold hnsw_nearest. rewrite bool_decide_eq_false_2 by done.
  destruct (k =? 0) eqn:Ek; [apply Nat.eqb_eq in Ek; lia|]. cbn [orb].
  destruct (hn_entry g) as [entry|]; [|done]. pose proof (lk_vectors _ Hok) as Hlv.
  assert (Hout : ∀ layer n l, adjacency g n layer = Some l → length (hn_ids g) ∉ l).
  { intros layer n l Hl Hin. destruct (lk_links _ Hok _ _ _ Hl) as (_ & _ & _ & Hm).
    destruct (Hm _ Hin) as [lm Hlm]. apply (in_range _ _ _ _ Hok) in Hlm. lia. }
  destruct (layers_entry g entry (hn_max_layer g) Hent ltac:(lia)) as [le Hle].
  pose proof (in_range _ _ _ _ Hok Hle) as Hentlt.
  destruct (descend_ok g query (length (hn_ids g)) 0 (hn_max_layer g) entry Hok Hout) as (e & -> & [l Hl] & Hel);
    [by eexists|lia|]. cbn [mbind option_bind].
  destruct (search_layer_ok g query [e] (Nat.max ef_search k) 0
    (λ m, is_Some (adjacency g m 0) ∧ m ≠ length (hn_ids g))) as (found & -> & Hnd & HP & Hlen & _ & Hfne & Hall).
  { intros m Hm. exact (layer_in_range _ _ _ _ Hok Hm). }
  { intros m l' _. exact (layer_closed _ _ _ _ _ Hok (Hout _)). }
  { apply NoDup_singleton. }
  { apply Forall_singleton. split; [by eexists|done]. }
  cbn [mbind option_bind]. destruct (rescore_ok g query found Hlv) as (scored & -> & Hs).
  { eapply Forall_impl; [done|]. intros m [[lm Hlm] _]. by eapply in_range. }
  exists found, scored. split_and!; [done|done|done|apply Hfne; [done|lia]|done|].
  intros Hef Hcon n Hn. apply Hall; [lia|lia|]. apply connected_reached; [done| |done]. by eapply in_range.
Qed.

(** What was scored are stored vectors, each once. *)
Lemma scored_stored g query entries found scored :
  hn_ids g = entries.*1 → hn_vectors g = entries.*2 → NoDup entries.*1 → NoDup found.*2 →
  Forall2 (scored_of g query) found scored →
  (∀ n, n ∈ scored → ∃ id v, (id, v) ∈ entries ∧ n = neighbor_of query (hn_metric g) id v) ∧
  NoDup (nb_id <$> scored).
Proof.
  intros Ei Ev Hnde Hnd Hs.
  assert (Hin : ∀ i id v, hn_ids g !! i = Some id → hn_vectors g !! i = Some v → entries !! i = Some (id, v)).
  { intros i id v. rewrite Ei, Ev, !list_lookup_fmap. destruct (entries !! i) as [[??]|]; naive_solver. }
  induction Hs as [|c n found scored (id & v & Hid & Hv & ->) Hs IH]; [split; [set_solver|constructor]|].
  rewrite fmap_cons in Hnd. apply NoDup_cons in Hnd as [Hc Hnd]. destruct (IH Hnd) as [Hst Hids]. split.
  - intros n [->|Hn]%elem_of_cons; [|by apply Hst]. exists id, v. split; [|done].
    by eapply list_elem_of_lookup_2, Hin.
  - rewrite fmap_cons. apply NoDup_cons. split; [|done]. simpl. intros (n & Hn & Hns)%list_elem_of_fmap.
    apply list_elem_of_lookup_1 in Hns as [j Hj].
    destruct (Forall2_lookup_r _ _ _ _ _ Hs Hj) as (c' & Hc' & id' & v' & Hid' & _ & ->). simpl in Hn. subst id'.
    apply Hc. rewrite Ei in Hid, Hid'. rewrite (NoDup_lookup _ _ _ _ Hnde Hid Hid').
    apply list_elem_of_fmap_2. by eapply list_elem_of_lookup_2.
Qed.

(** While no list of the base layer can have been cut and the beam is as wide as the
    graph, the approximate search is the exact search. *)
Lemma hnsw_exact entries metric params seed g query k ef_search :
  hnsw_build entries metric params seed = Some g →
  NoDup entries.*1 → 0 < hp_m params → 0 < hp_ef_construction params →
  length entries ≤ hp_m params * 2 + 1 → length entries ≤ Nat.max ef_search k →
  Forall (λ e, length e.2 = length query) entries →
  Forall (λ n, nb_score n ≠ S754_nan) (candidates query metric entries) →
  hnsw_nearest g query k ef_search = Some (nearest entries query k metric).
Proof.
  intros Hb Hnd Hm Hefc Hsmall Hef Hdim Hnan. rewrite nearest_sorts by done.
  destruct (hnsw_build_ok entries metric params seed) as (g' & Hb' & Hok & Ei & Ev & Ep & Em & Hcon).
  rewrite Hb in Hb'. injection Hb' as <-.
  assert (Hlen : length (hn_ids g) = length entries) by (by rewrite Ei, length_fmap).
  destruct (decide (hn_ids g = [] ∨ k = 0)) as [Hz|Hnz].
  { unfold hnsw_nearest. assert (Htriv : (bool_decide (hn_ids g = []) || (k =? 0))%bool = true).
    { destruct Hz as [Hz| ->]; [by rewrite bool_decide_eq_true_2|by rewrite orb_true_r]. }
    rewrite Htriv. destruct Hz as [Hz| ->]; [|done]. rewrite Ei in Hz.
    destruct entries; [|done]. by destruct k. }
  destruct (hnsw_nearest_ok g query k ef_search Hok) as (found & scored & -> & Hs & Hfnd & _ & _ & Hall);
    [naive_solver|destruct k; [naive_solver|lia]|].
  destruct (scored_stored g query entries found scored Ei Ev Hnd Hfnd Hs) as [Hst Hids].
  assert (Hcand : ∀ n, n ∈ candidates query metric entries ↔
    ∃ id v, (id, v) ∈ entries ∧ n = neighbor_of query metric id v).
  { intros n. unfold candidates. rewrite list_elem_of_omap. rewrite Forall_forall in Hdim. split.
    - intros ([id v] & Hin & Hn). pose proof (Hdim _ Hin) as Hl. simpl in Hl. rewrite Hl, Nat.eqb_refl in Hn. injection Hn as <-. by exists id, v.
    - intros (id & v & Hin & ->). exists (id, v). split; [done|]. pose proof (Hdim _ Hin) as Hl. simpl in Hl. by rewrite Hl, Nat.eqb_refl. }
  do 2 f_equal. pose proof (candidates_ids query metric entries Hnd) as Hcids.
  pose proof (ranked_cmp_total nb_score nb_id _ Hcids Hnan) as Htot. symmetry.
  apply (sort_by_permute rank_cmp Htot).
  - by apply Forall_forall.
  - by eapply NoDup_fmap_1.
  - apply NoDup_Permutation; [by eapply NoDup_fmap_1|by eapply NoDup_fmap_1|].
    intros n. rewrite Hcand, <- Em. split; [|apply Hst].
    intros (id & v & Hin & ->). apply list_elem_of_lookup_1 in Hin as [i Hi].
    assert (Hf : i ∈ found.*2).
    { apply Hall; [lia|by apply Hcon|]. rewrite Hlen. by eapply lookup_lt_Some. }
    apply list_elem_of_fmap in Hf as ([d j] & Hj & Hf). simpl in Hj. subst j.
    apply list_elem_of_lookup_1 in Hf as [p Hp].
    destruct (Forall2_lookup_l _ _ _ _ _ Hs Hp) as (n & Hn & id' & v' & Hid' & Hv' & ->).
    simpl in Hid', Hv'. rewrite Ei, list_lookup_fmap, Hi in Hid'. rewrite Ev, list_lookup_fmap, Hi in Hv'.
    injection Hid' as <-. injection Hv' as <-. by eapply list_elem_of_lookup_2.
Qed.

End building.
