(* ===== verification/TextSearch.v ===== *)
(** * Full-text search

    Models the searches of [TextIndex] in [crates/auradb-index/src/lib.rs]: the
    boolean search behind [contains_text] with summed term frequencies, and Okapi BM25
    with required or optional terms, over the postings and length statistics that
    [Index] maintains.

    [f32::ln] is a parameter: its precision is not specified, and no result depends on
    its values.  The accumulators are hash maps that are sorted at the end, so the order
    in which they are iterated is immaterial; here it is that of [map_to_list]. *)

From Stdlib Require Import Floats.SpecFloat.
From S2P Require Import Prelude Sorting BTree Text Value Core Rank Eval Index.

Local Open Scope N_scope.

(** [f32::ln]. *)
Class NaturalLog := f32_ln : f32 → f32.

Definition f32_half : f32 := S754_finite false 8388608 (-24).
Definition BM25_DEFAULT_K1 : f32 := S754_finite false 10066330 (-23).
Definition BM25_DEFAULT_B : f32 := S754_finite false 12582912 (-24).

(** [terms.sort(); terms.dedup()] on the tokens of a query. *)
Definition query_terms `{Unicode} (query : string) : list string :=
  dedup (sort_terms (tokenize query)).

(** The inner loop of both searches: one update per posted record. *)
Definition accumulate {S} (init : S) (update : N → N → S → S) (posting : gmap N N)
    (acc : gmap N S) : gmap N S :=
  foldl (λ acc '(id, tf), <[id := update id tf (default init (acc !! id))]> acc) acc
    (map_to_list posting).

(** The outer loop: terms without a posting are skipped. *)
Definition accumulate_terms {S} (init : S) (update : gmap N N → N → N → S → S)
    (postings : gmap string (gmap N N)) (terms : list string) : gmap N S :=
  foldl (λ acc term, match postings !! term with
                     | Some m => accumulate init (update m) m acc
                     | None => acc
                     end) ∅ terms.

Definition score_cmp : N * f32 → N * f32 → comparison := ranked_cmp snd fst.

Definition search_over (postings : gmap string (gmap N N)) (terms : list string)
  : list (N * f32) :=
  match terms with
  | [] => []
  | _ :: _ =>
      let matched := accumulate_terms (0, f32_zero)
                       (λ _ _ tf e, (e.1 + 1, f32_add e.2 (f32_of_N tf))) postings terms in
      let need := N.of_nat (length terms) in
      sort_by score_cmp
        (omap (λ '(id, e), if e.1 =? need then Some (id, e.2) else None) (map_to_list matched))
  end.

Definition bm25_over `{NaturalLog} (ti : TextIndex) (postings : gmap string (gmap N N))
    (terms : list string) (require_all : bool) (k1 b : f32) : list (N * f32) :=
  match terms with
  | [] => []
  | _ :: _ =>
      let n := f32_of_N (N.of_nat (size (ti_doc_lengths ti))) in
      if SFeqb n f32_zero then []
      else
        let avgdl := f32_max (f32_div (f32_of_N (ti_total_tokens ti)) n) f32_one in
        let contribution (m : gmap N N) (id tf : N) : f32 :=
          let df := f32_of_N (N.of_nat (size m)) in
          let idf := f32_ln (f32_add (f32_div (f32_add (f32_sub n df) f32_half)
                                        (f32_add df f32_half)) f32_one) in
          let tf := f32_of_N tf in
          let dl := f32_of_N (default 0 (ti_doc_lengths ti !! id)) in
          let denom := f32_add tf (f32_mul k1 (f32_add (f32_sub f32_one b)
                                                 (f32_div (f32_mul b dl) avgdl))) in
          f32_div (f32_mul idf (f32_mul tf (f32_add k1 f32_one))) denom in
        let acc := accumulate_terms (f32_zero, 0)
                     (λ m id tf e, (f32_add e.1 (contribution m id tf), e.2 + 1)) postings terms in
        let need := N.of_nat (length terms) in
        sort_by score_cmp
          (omap (λ '(id, e), if negb require_all || (e.2 =? need) then Some (id, e.1) else None)
             (map_to_list acc))
  end.

Section searches.
Context `{Unicode, NaturalLog}.

Definition ti_search (ti : TextIndex) (query : string) : list (N * f32) :=
  search_over (ti_postings ti) (query_terms query).

Definition bm25_search (ti : TextIndex) (query : string) (require_all : bool) (k1 b : f32)
  : list (N * f32) :=
  bm25_over ti (ti_postings ti) (query_terms query) require_all k1 b.

Definition text_search (ci : CollectionIndexes) (field query : string) : Res (list (N * f32)) :=
  match ci_text_maps ci !! field with
  | Some ti => Ok (ti_search ti query)
  | None => Err EInvalidRequest
  end.

Definition text_bm25_search (ci : CollectionIndexes) (field query : string)
    (require_all : bool) (k1 b : f32) : Res (list (N * f32)) :=
  match ci_text_maps ci !! field with
  | Some ti => Ok (bm25_search ti query require_all k1 b)
  | None => Err EInvalidRequest
  end.
End searches.

(** ** The accumulators *)

Lemma accumulate_list {S} (init : S) update l (acc : gmap N S) id :
  NoDup l.*1 →
  foldl (λ acc '(id, tf), <[id := update id tf (default init (acc !! id))]> acc) acc l !! id =
    match (list_to_map l : gmap N N) !! id with
    | Some tf => Some (update id tf (default init (acc !! id)))
    | None => acc !! id
    end.
Proof.
  revert acc. induction l as [|[j tf] l IH]; intros acc; [done|].
  rewrite fmap_cons. intros [Hj Hnd]%NoDup_cons. cbn [foldl list_to_map foldr]. simpl in Hj.
  rewrite IH by done. change (list_to_map ((j, tf) :: l)) with (<[j := tf]> (list_to_map l : gmap N N)).
  destruct (decide (j = id)) as [->|Hne].
  - rewrite !lookup_insert_eq. by rewrite (not_elem_of_list_to_map_1 l id Hj).
  - by rewrite !lookup_insert_ne by done.
Qed.

Lemma accumulate_lookup {S} (init : S) update m (acc : gmap N S) id :
  accumulate init update m acc !! id =
    match m !! id with
    | Some tf => Some (update id tf (default init (acc !! id)))
    | None => acc !! id
    end.
Proof.
  unfold accumulate. rewrite accumulate_list by apply NoDup_fst_map_to_list.
  by rewrite list_to_map_to_list.
Qed.

Definition posted (postings : gmap string (gmap N N)) (id : N) (term : string) : Prop :=
  is_Some (postings !! term ≫= (.!! id)).

#[export] Instance posted_dec postings id term : Decision (posted postings id term).
Proof. unfold posted. apply _. Defined.

(** How many of the terms a record is posted under. *)
Definition hits (postings : gmap string (gmap N N)) (terms : list string) (id : N) : nat :=
  length (filter (posted postings id) terms).

Lemma hits_cons postings t terms id :
  hits postings (t :: terms) id =
    ((if decide (posted postings id t) then 1 else 0) + hits postings terms id)%nat.
Proof. unfold hits. rewrite filter_cons. by case_decide. Qed.

Section tally.
Context {S : Type} (init : S) (update : gmap N N → N → N → S → S) (count : S → N).
Hypothesis count_init : count init = 0.
Hypothesis count_update : ∀ m id tf e, count (update m id tf e) = count e + 1.

Lemma accumulate_terms_from postings terms : ∀ (acc : gmap N S) id,
  let acc' := foldl (λ acc term, match postings !! term with
                                 | Some m => accumulate init (update m) m acc
                                 | None => acc
                                 end) acc terms in
  (is_Some (acc' !! id) ↔ is_Some (acc !! id) ∨ (0 < hits postings terms id)%nat) ∧
  count (default init (acc' !! id)) =
    count (default init (acc !! id)) + N.of_nat (hits postings terms id).
Proof.
  induction terms as [|t terms IH]; intros acc id; simpl.
  - unfold hits. simpl. split; [|lia]. split; [by left|]. by intros [?|?]; [|lia].
  - rewrite hits_cons. destruct (postings !! t) as [m|] eqn:Et.
    + destruct (IH (accumulate init (update m) m acc) id) as [Hs Hc]. rewrite accumulate_lookup in *.
      case_decide as Hp; unfold posted in Hp; rewrite Et in Hp; simpl in Hp.
      * destruct Hp as [tf Htf]. rewrite Htf in *. simpl in *. split.
        { rewrite Hs. split; [intros _; right; lia|intros _; left; eauto]. }
        rewrite Hc, count_update. lia.
      * apply eq_None_not_Some in Hp. rewrite Hp in *. split; [done|lia].
    + rewrite decide_False by (unfold posted; rewrite Et; by intros [? [=]]). apply IH.
Qed.

Lemma accumulate_terms_spec postings terms id :
  let acc := accumulate_terms init update postings terms in
  (is_Some (acc !! id) ↔ (0 < hits postings terms id)%nat) ∧
  ∀ e, acc !! id = Some e → count e = N.of_nat (hits postings terms id).
Proof.
  destruct (accumulate_terms_from postings terms ∅ id) as [Hs Hc]. rewrite lookup_empty in *.
  simpl in *. fold (accumulate_terms init update postings terms) in *. split.
  - rewrite Hs. split; [by intros [[? [=]]|?]|by right].
  - intros e He. rewrite He in Hc. simpl in Hc. rewrite Hc, count_init. lia.
Qed.
End tally.

Lemma hits_all postings terms id :
  hits postings terms id = length terms ↔ ∀ t, t ∈ terms → posted postings id t.
Proof.
  unfold hits. rewrite <- Forall_forall. split.
  - intros Hl. apply Forall_forall. intros t Ht.
    destruct (decide (posted postings id t)) as [?|Hn]; [done|].
    pose proof (length_filter_lt (posted postings id) terms t Ht Hn). lia.
  - intros Hall. by rewrite list_filter_all.
Qed.

Lemma hits_any postings terms id :
  (0 < hits postings terms id)%nat ↔ ∃ t, t ∈ terms ∧ posted postings id t.
Proof.
  unfold hits. split.
  - destruct (filter _ terms) as [|t l] eqn:E; simpl; [lia|]. intros _. exists t.
    assert (Ht : t ∈ filter (posted postings id) terms) by (rewrite E; by left).
    apply list_elem_of_filter in Ht. naive_solver.
  - intros (t & Ht & Hp). assert (Hin : t ∈ filter (posted postings id) terms)
      by (by apply list_elem_of_filter). destruct (filter _ _); [set_solver|simpl; lia].
Qed.

(** ** What a search finds *)

(** Sorting and projecting the accumulator. *)
Lemma ranked_ids {S} (f : N * S → option (N * f32)) (acc : gmap N S) :
  (∀ p q, f p = Some q → q.1 = p.1) →
  NoDup (sort_by score_cmp (omap f (map_to_list acc))).*1 ∧
  ∀ id, id ∈ (sort_by score_cmp (omap f (map_to_list acc))).*1 ↔
    ∃ e, acc !! id = Some e ∧ is_Some (f (id, e)).
Proof.
  intros Hf. split.
  - rewrite sort_by_perm. pose proof (NoDup_fst_map_to_list acc) as Hnd.
    induction (map_to_list acc) as [|p l IH]; [constructor|].
    rewrite fmap_cons in Hnd. apply NoDup_cons in Hnd as [Hp Hnd]. simpl.
    destruct (f p) as [q|] eqn:E; simpl; [|by apply IH]. constructor; [|by apply IH].
    rewrite (Hf _ _ E). intros Hin. apply Hp.
    apply list_elem_of_fmap in Hin as (q' & Hq' & Hin).
    apply list_elem_of_omap in Hin as (p' & Hin & E'). apply list_elem_of_fmap.
    exists p'. split; [|done]. rewrite <- (Hf _ _ E'). congruence.
  - intros id. rewrite sort_by_perm, list_elem_of_fmap. split.
    + intros (q & -> & Hin). apply list_elem_of_omap in Hin as ([j e] & Hin & E).
      apply elem_of_map_to_list in Hin. rewrite (Hf _ _ E). simpl. eauto.
    + intros (e & He & [q Hq]). exists q. split; [by rewrite (Hf _ _ Hq)|].
      apply list_elem_of_omap. exists (id, e). by rewrite elem_of_map_to_list.
Qed.

Lemma search_over_spec postings terms :
  NoDup (search_over postings terms).*1 ∧
  ∀ id, id ∈ (search_over postings terms).*1 ↔
    terms ≠ [] ∧ ∀ t, t ∈ terms → posted postings id t.
Proof.
  destruct terms as [|t ts]; [split; [constructor|]; intros id; set_solver|].
  unfold search_over. set (l := t :: ts). assert (Hl : (0 < length l)%nat) by (simpl; lia).
  cbv zeta. set (acc := accumulate_terms _ _ _ _).
  destruct (ranked_ids (λ '(id, e), if e.1 =? N.of_nat (length l) then Some (id, e.2) else None) acc)
    as [Hnd Hin].
  { intros [i e] q. simpl. by case_match; intros [= <-]. }
  split; [done|]. intros id. rewrite Hin, <- hits_all.
  destruct (accumulate_terms_spec (0, f32_zero)
    (λ _ _ tf e, (e.1 + 1, f32_add e.2 (f32_of_N tf))) fst eq_refl (λ _ _ _ _, eq_refl)
    postings l id) as [Hs Hc]. fold acc in Hs, Hc. split.
  - intros (e & He & [q Hq]). split; [done|]. destruct (e.1 =? _) eqn:E; [|done].
    apply N.eqb_eq in E. rewrite (Hc e He) in E. lia.
  - intros [_ Hh]. destruct (proj2 Hs) as [e He]; [lia|]. exists e. split; [done|].
    rewrite (proj2 (N.eqb_eq _ _)); [by eexists|]. by rewrite (Hc e He), Hh.
Qed.

Lemma bm25_over_spec `{NaturalLog} ti postings terms require_all k1 b :
  NoDup (bm25_over ti postings terms require_all k1 b).*1 ∧
  ∀ id, id ∈ (bm25_over ti postings terms require_all k1 b).*1 ↔
    ti_doc_lengths ti ≠ ∅ ∧ terms ≠ [] ∧
    if require_all then ∀ t, t ∈ terms → posted postings id t
    else ∃ t, t ∈ terms ∧ posted postings id t.
Proof.
  destruct terms as [|t ts]; [split; [constructor|]; intros id; set_solver|].
  unfold bm25_over. set (l := t :: ts). assert (Hl : (0 < length l)%nat) by (simpl; lia).
  cbv zeta. rewrite f32_of_N_zero.
  destruct (_ =? 0) eqn:Ez.
  { apply N.eqb_eq in Ez. split; [constructor|]. intros id.
    rewrite <- map_size_empty_iff. split; [set_solver|]. intros [[] _]. lia. }
  apply N.eqb_neq in Ez. set (upd := λ m id tf e, _). set (acc := accumulate_terms _ _ _ _).
  destruct (ranked_ids (λ '(id, e), if negb require_all || (e.2 =? N.of_nat (length l))
    then Some (id, e.1) else None) acc) as [Hnd Hin].
  { intros [i e] q. simpl. by case_match; intros [= <-]. }
  split; [done|]. intros id. rewrite Hin, <- map_size_empty_iff.
  pose proof (hits_all postings l id) as Hall. pose proof (hits_any postings l id) as Hany.
  destruct (accumulate_terms_spec (f32_zero, 0) upd snd eq_refl (λ _ _ _ _, eq_refl)
    postings l id) as [Hs Hc]. fold acc in Hs, Hc. split.
  - intros (e & He & [q Hq]). split_and!; [lia|done|].
    assert (Hh : (0 < hits postings l id)%nat) by (apply Hs; eauto).
    destruct require_all; [|by apply Hany]. simpl in Hq. destruct (e.2 =? _) eqn:E; [|done].
    apply N.eqb_eq in E. rewrite (Hc e He) in E. apply Hall. by apply Nat2N.inj.
  - intros (_ & _ & Hh). assert (Hpos : (0 < hits postings l id)%nat)
      by (destruct require_all; [apply Hall in Hh; lia|by apply Hany]).
    destruct (proj2 Hs Hpos) as [e He]. exists e. split; [done|].
    destruct require_all; simpl; [|by eexists]. apply Hall in Hh.
    rewrite (proj2 (N.eqb_eq _ _)); [by eexists|]. by rewrite (Hc e He), Hh.
Qed.

Section text_spec.
Context `{Unicode}.

Lemma posted_tokens text ti recs id t :
  text_ok text ti recs → posted (ti_postings ti) id t ↔ t ∈ tokens_of text recs id.
Proof.
  intros Hok. pose proof (to_freq _ _ _ Hok t id) as Hf. unfold posted, term_freq in *.
  destruct (ti_postings ti !! t ≫= (.!! id)) as [n|] eqn:E; simpl in Hf.
  - split; [intros _|by eauto]. destruct (decide (t ∈ tokens_of text recs id)) as [|Hn]; [done|].
    rewrite (occurrences_zero _ _ Hn) in Hf. apply bind_Some in E as (m & Hm & Hn').
    apply (to_wf _ _ _ Hok) in Hm as [_ Hpos]. specialize (Hpos _ _ Hn'). lia.
  - split; [by intros []|]. intros Hin%occurrences_pos. lia.
Qed.

Lemma doc_lengths_nonempty text ti recs id t :
  text_ok text ti recs → t ∈ tokens_of text recs id → ti_doc_lengths ti ≠ ∅.
Proof.
  intros Hok Hin He. pose proof (to_length _ _ _ Hok id) as Hl. rewrite He, lookup_empty in Hl.
  destruct (tokens_of text recs id); [set_solver|done].
Qed.

Lemma query_terms_elem t query : t ∈ query_terms query ↔ t ∈ tokenize query.
Proof. unfold query_terms. by rewrite dedup_elem, sort_terms_elem. Qed.

Lemma query_terms_nil query : query_terms query = [] ↔ tokenize query = [].
Proof.
  split; intros E.
  - destruct (tokenize query) as [|t l] eqn:Et; [done|].
    assert (Ht : t ∈ query_terms query) by (rewrite query_terms_elem, Et; by left).
    rewrite E in Ht. by apply not_elem_of_nil in Ht.
  - unfold query_terms. by rewrite E.
Qed.

Lemma tokens_of_live text recs id t :
  t ∈ tokens_of text recs id →
  ∃ r s, recs !! id = Some r ∧ text r = Some s ∧ t ∈ tokenize s.
Proof.
  unfold tokens_of. destruct (recs !! id ≫= text) as [s|] eqn:E; [|set_solver].
  apply bind_Some in E as (r & Hr & Hs). eauto.
Qed.

(** The boolean search finds the records [contains_text] accepts. *)
Lemma ti_search_spec text ti recs query :
  text_ok text ti recs →
  NoDup (ti_search ti query).*1 ∧
  ∀ id, id ∈ (ti_search ti query).*1 ↔
    ∃ r s, recs !! id = Some r ∧ text r = Some s ∧ contains_text s query = true.
Proof.
  intros Hok. destruct (search_over_spec (ti_postings ti) (query_terms query)) as [Hnd Hin].
  split; [done|]. intros id. unfold ti_search. rewrite Hin, query_terms_nil. clear Hnd Hin.
  setoid_rewrite contains_text_spec. split.
  - intros [Hne Hall]. destruct (tokenize query) as [|t l] eqn:Et; [done|].
    assert (Hp : ∀ u, u ∈ t :: l → u ∈ tokens_of text recs id).
    { intros u Hu. apply (posted_tokens _ _ _ _ _ Hok), Hall. by rewrite query_terms_elem, Et. }
    destruct (tokens_of_live text recs id t) as (r & s & Hr & Hs & _); [by apply Hp; left|].
    exists r, s. split_and!; [done|done|done|]. intros u Hu. specialize (Hp u Hu).
    unfold tokens_of in Hp. rewrite Hr in Hp. simpl in Hp. by rewrite Hs in Hp.
  - intros (r & s & Hr & Hs & Hne & Hall). split; [done|]. intros t Ht%query_terms_elem.
    apply (posted_tokens _ _ _ _ _ Hok). unfold tokens_of. rewrite Hr. simpl. rewrite Hs. by apply Hall.
Qed.
End text_spec.
