(* ===== verification/Analyzer.v ===== *)
(** * Analyzers

    Models [crates/auradb-index/src/analyzer.rs]: the presets, the tokens they emit with
    their byte spans in the analyzed text, the retrieval terms and the per-token
    transformation by which a search under another analyzer runs over the postings of
    the default tokenizer.

    [char::to_lowercase] (used by the keyword preset only) is a parameter like the other
    Unicode tables.  [ENGLISH_STOPWORDS.binary_search] is membership, the list being
    sorted ([stopwords_sorted]). *)

From S2P Require Import Prelude Sorting BTree Text Value Core Eval Chars.

Local Open Scope N_scope.

(** [char::to_lowercase]. *)
Class CharCase := char_to_lowercase : N → list N.

(** [char::is_whitespace]. *)
Definition white_space_chars : list N :=
  [0x09; 0x0A; 0x0B; 0x0C; 0x0D; 0x20; 0x85; 0xA0; 0x1680; 0x2000; 0x2001; 0x2002; 0x2003;
   0x2004; 0x2005; 0x2006; 0x2007; 0x2008; 0x2009; 0x200A; 0x2028; 0x2029; 0x202F; 0x205F; 0x3000].
Definition is_whitespace (c : N) : bool := bool_decide (c ∈ white_space_chars).

Fixpoint drop_while {A} (p : A → bool) (l : list A) : list A :=
  match l with
  | [] => []
  | x :: l' => if p x then drop_while p l' else l
  end.

(** [str::trim_start] and [str::trim] on the characters. *)
Definition trim_start_chars (cs : list N) : list N := drop_while is_whitespace cs.
Definition trim_chars (cs : list N) : list N :=
  rev (drop_while is_whitespace (rev (trim_start_chars cs))).

(** ** Tokens and presets *)

Record Token := mkToken {
  tok_text : string;
  tok_start : nat;
  tok_end : nat;
}.

Inductive AnalyzerPreset := PDefault | PSimple | PAsciiFold | PKeyword | PEnglishBasic.

Definition ALL : list AnalyzerPreset := [PDefault; PSimple; PAsciiFold; PKeyword; PEnglishBasic].

Definition preset_name (p : AnalyzerPreset) : string :=
  match p with
  | PDefault => "default"
  | PSimple => "simple"
  | PAsciiFold => "ascii_fold"
  | PKeyword => "keyword"
  | PEnglishBasic => "english_basic"
  end.

Definition preset_parse (s : string) : Res AnalyzerPreset :=
  match find (λ p, bool_decide (preset_name p = s)) ALL with
  | Some p => Ok p
  | None => Err EInvalidRequest
  end.

Definition is_per_token (p : AnalyzerPreset) : bool :=
  match p with PKeyword => false | _ => true end.

(** ** Term transformations *)

(** The folding table: the characters of a row become its right-hand side. *)
Definition fold_table : list (list N * list N) :=
  [([0xE0; 0xE1; 0xE2; 0xE3; 0xE4; 0xE5; 0x101; 0x103; 0x105], [97]);
   ([0xE7; 0x107; 0x109; 0x10B; 0x10D], [99]);
   ([0xE8; 0xE9; 0xEA; 0xEB; 0x113; 0x115; 0x117; 0x119; 0x11B], [101]);
   ([0xEC; 0xED; 0xEE; 0xEF; 0x12B; 0x12D; 0x12F; 0x131], [105]);
   ([0xF1; 0x144; 0x146; 0x148], [110]);
   ([0xF2; 0xF3; 0xF4; 0xF5; 0xF6; 0xF8; 0x14D; 0x14F; 0x151], [111]);
   ([0xF9; 0xFA; 0xFB; 0xFC; 0x16B; 0x16D; 0x16F; 0x171; 0x173], [117]);
   ([0xFD; 0xFF], [121]);
   ([0xDF], [115; 115]);
   ([0xE6], [97; 101]);
   ([0x153], [111; 101])].

Definition fold_char (c : N) : list N :=
  match find (λ row : list N * list N, bool_decide (c ∈ row.1)) fold_table with
  | Some row => row.2
  | None => [c]
  end.

Definition ascii_fold (s : string) : string :=
  string_of (encode (mjoin (fold_char <$> utf8_chars (bytes_of s)))).

Definition ENGLISH_STOPWORDS : list string :=
  ["a"; "an"; "and"; "are"; "as"; "at"; "be"; "but"; "by"; "for"; "if"; "in"; "into"; "is"; "it";
   "no"; "not"; "of"; "on"; "or"; "such"; "that"; "the"; "their"; "then"; "there"; "these";
   "they"; "this"; "to"; "was"; "will"; "with"].

Definition is_english_stopword (token : string) : bool := bool_decide (token ∈ ENGLISH_STOPWORDS).

(** [str::strip_suffix] and [str::ends_with], on bytes. *)
Definition strip_suffix (suffix l : list byte) : option (list byte) :=
  @rev byte <$> strip_prefix (rev suffix) (rev l).
Definition ends_with (l : list byte) (suffix : string) : bool :=
  bool_decide (is_Some (strip_suffix (bytes_of suffix) l)).

Definition is_ascii_lowercase (b : byte) : bool := in_range 97 122 b.

Definition fold_plural_bytes (token : list byte) : list byte :=
  if ((length token <? 4)%nat || negb (forallb is_ascii_lowercase token))%bool then token
  else
    let bare :=
      if (ends_with token "s" && negb (ends_with token "ss") && negb (ends_with token "us") &&
          negb (ends_with token "is") && negb (ends_with token "ns") &&
          (3 <? length token)%nat)%bool
      then take (length token - 1) token else token in
    let sibilant :=
      match strip_suffix (bytes_of "es") token with
      | Some stem =>
          if ((2 <=? length stem)%nat &&
              (ends_with stem "s" || ends_with stem "x" || ends_with stem "z" ||
               ends_with stem "ch" || ends_with stem "sh"))%bool
          then stem else bare
      | None => bare
      end in
    match strip_suffix (bytes_of "ies") token with
    | Some stem => if (2 <=? length stem)%nat then stem ++ bytes_of "y" else sibilant
    | None => sibilant
    end.

Definition fold_plural (token : string) : string := string_of (fold_plural_bytes (bytes_of token)).

(** ** Analysis *)

Section analyzers.
Context `{Unicode, CharCase}.

Definition str_to_lowercase (s : string) : string :=
  string_of (encode (to_lowercase (utf8_chars (bytes_of s)))).

Definition make_run_token (run : string) (start stop : nat) (fold : bool) : Token :=
  let lowered := str_to_lowercase run in
  mkToken (if fold then ascii_fold lowered else lowered) start stop.

Fixpoint split_loop (text : string) (fold : bool) (run_start : option nat) (l : list (nat * N))
  : list Token :=
  match l with
  | [] =>
      match run_start with
      | Some start =>
          let len := length (bytes_of text) in [make_run_token (str_slice text start len) start len fold]
      | None => []
      end
  | (i, c) :: l' =>
      if is_alphanumeric c then split_loop text fold (Some (default i run_start)) l'
      else match run_start with
           | Some start =>
               make_run_token (str_slice text start i) start i fold :: split_loop text fold None l'
           | None => split_loop text fold None l'
           end
  end.

Definition split_alphanumeric (text : string) (fold : bool) : list Token :=
  split_loop text fold None (char_indices text).

Definition keyword_token (text : string) : option Token :=
  let cs := utf8_chars (bytes_of text) in
  let trimmed := trim_chars cs in
  match trimmed with
  | [] => None
  | _ :: _ =>
      let start := (length (bytes_of text) - length (encode (trim_start_chars cs)))%nat in
      Some (mkToken (string_of (encode (to_lowercase trimmed))) start
              (start + length (encode trimmed)))
  end.

Definition english_basic_tokens (text : string) : list Token :=
  (λ t, mkToken (fold_plural (tok_text t)) (tok_start t) (tok_end t))
    <$> filter (λ t, is_english_stopword (tok_text t) = false) (split_alphanumeric text false).

Definition analyze (p : AnalyzerPreset) (text : string) : list Token :=
  match p with
  | PDefault | PSimple => split_alphanumeric text false
  | PAsciiFold => split_alphanumeric text true
  | PKeyword => option_list (keyword_token text)
  | PEnglishBasic => english_basic_tokens text
  end.

Definition index_terms (p : AnalyzerPreset) (text : string) : list string :=
  match p with
  | PKeyword =>
      let term := mjoin (char_to_lowercase <$>
                    filter (λ c, is_alphanumeric c = true) (utf8_chars (bytes_of text))) in
      match term with [] => [] | _ :: _ => [string_of (encode term)] end
  | _ => tok_text <$> analyze p text
  end.

Definition map_default_token (p : AnalyzerPreset) (token : string) : option (list string) :=
  match p with
  | PDefault | PSimple => Some [token]
  | PAsciiFold => Some [ascii_fold token]
  | PEnglishBasic => Some (if is_english_stopword token then [] else [fold_plural token])
  | PKeyword => None
  end.
End analyzers.

(** ** The tokens of a text *)

(** The token emitted for the characters of a run. *)
Definition run_text `{Unicode} (fold : bool) (cs : list N) : string :=
  let lowered := string_of (encode (to_lowercase cs)) in
  if fold then ascii_fold lowered else lowered.

(** The source span of a token: between characters, over [ds]. *)
Definition spans (text : string) (t : Token) (ds : list N) : Prop :=
  ∃ cs es, utf8_chars (bytes_of text) = cs ++ ds ++ es ∧
    tok_start t = length (encode cs) ∧ tok_end t = length (encode (cs ++ ds)).

(** Left to right without overlap. *)
Definition before (t u : Token) : Prop := (tok_end t <= tok_start u)%nat.

Section tokens.
Context `{Unicode, CharCase}.
Implicit Types (text : string) (fold : bool).

Lemma make_run_spans text fold cs ds es :
  bytes_of text = encode (cs ++ ds ++ es) → Forall scalar (cs ++ ds ++ es) →
  let start := length (encode cs) in
  let stop := length (encode (cs ++ ds)) in
  let t := make_run_token (str_slice text start stop) start stop fold in
  tok_text t = run_text fold ds ∧ spans text t ds.
Proof.
  intros Ht Hs start stop. simpl. subst start stop. rewrite (str_slice_encode text cs ds es Ht).
  apply Forall_app in Hs as Hs'. destruct Hs' as [_ [Hds _]%Forall_app]. split.
  - unfold run_text, str_to_lowercase. rewrite bytes_of_string_of, utf8_chars_encode by done. done.
  - exists cs, es. split_and!; [|done|done]. by rewrite Ht, utf8_chars_encode.
Qed.

Definition alnum_run (cs : list N) : Prop := Forall (λ c, is_alphanumeric c = true) cs.

(** What the loop has yet to emit: the open run [run] and the characters [cs] that
    follow it, [pre] being done. *)
Lemma split_on_nonempty sep (cs : list N) : split_on sep cs ≠ [].
Proof. destruct cs as [|c cs]; simpl; [done|]. by repeat case_match. Qed.

Lemma split_on_cons sep (c : N) cs :
  split_on sep (c :: cs) =
    if sep c then [] :: split_on sep cs
    else (c :: hd [] (split_on sep cs)) :: tl (split_on sep cs).
Proof.
  simpl. pose proof (split_on_nonempty sep cs). case_match; [done|]. by destruct (split_on sep cs).
Qed.

Definition good_token text fold (t : Token) : Prop :=
  ∃ ds, ds ≠ [] ∧ alnum_run ds ∧ spans text t ds ∧ tok_text t = run_text fold ds.

Lemma split_loop_spec text fold cs : ∀ pre run,
  bytes_of text = encode (pre ++ run ++ cs) → Forall scalar (pre ++ run ++ cs) → alnum_run run →
  let l := split_loop text fold (if decide (run = []) then None else Some (length (encode pre)))
             (char_indices_from (length (encode (pre ++ run))) cs) in
  let pieces := split_on (λ c, negb (is_alphanumeric c)) cs in
  tok_text <$> l =
    run_text fold <$> filter (λ t, t ≠ []) ((run ++ hd [] pieces) :: tl pieces) ∧
  Forall (good_token text fold) l ∧
  StronglySorted before l ∧ Forall (λ t, length (encode pre) <= tok_start t)%nat l.
Proof.
  induction cs as [|c cs IH]; intros pre run Ht Hs Hrun l pieces; subst l pieces.
  - simpl. rewrite app_nil_r. case_decide as Hr.
    + subst run. rewrite filter_cons_False, filter_nil by (by intros []).
      split_and!; [done|constructor|constructor|constructor].
    + assert (Hlen : length (bytes_of text) = length (encode (pre ++ run)))
        by (by rewrite Ht, app_nil_r). rewrite Hlen, filter_cons_True, filter_nil by done.
      destruct (make_run_spans text fold pre run [] Ht Hs) as [Htx Hsp]. cbv zeta.
      split_and!; [cbn; by rewrite <- Htx| |repeat constructor|by repeat constructor].
      repeat constructor. by exists run.
  - rewrite split_on_cons. cbn [char_indices_from split_loop].
    assert (Hoff : (length (encode (pre ++ run)) + length (char_bytes c) =
                    length (encode (pre ++ run ++ [c])))%nat).
    { rewrite (app_assoc pre), (encode_app (pre ++ run)), length_app. f_equal.
      unfold encode. simpl. by rewrite app_nil_r. }
    rewrite Hoff. destruct (is_alphanumeric c) eqn:Ec; cbn [negb hd tl].
    + assert (Hstart : default (length (encode (pre ++ run)))
        (if decide (run = []) then None else Some (length (encode pre))) = length (encode pre)).
      { case_decide as Hr; [|done]. subst run. simpl. by rewrite app_nil_r. }
      rewrite Hstart. specialize (IH pre (run ++ [c])). rewrite decide_False in IH by (by destruct run).
      cbv zeta in IH. rewrite <- !app_assoc in IH. apply IH; [done|done|]. apply Forall_app. by repeat constructor.
    + specialize (IH (pre ++ run ++ [c]) []). rewrite decide_True in IH by done.
      rewrite app_nil_r, <- !app_assoc in IH. destruct IH as (IHt & IHg & IHs & IHb);
        [done|done|constructor|].
      pose proof (split_on_nonempty (λ c, negb (is_alphanumeric c)) cs) as Hne.
      replace (([] ++ hd [] (split_on (λ c, negb (is_alphanumeric c)) cs)) ::
        tl (split_on (λ c, negb (is_alphanumeric c)) cs)) with
        (split_on (λ c, negb (is_alphanumeric c)) cs) in IHt by (by destruct (split_on _ cs)).
      assert (Hmono : (length (encode pre) <= length (encode (pre ++ run)) <=
                       length (encode (pre ++ run ++ [c])))%nat)
        by (rewrite <- Hoff, (encode_app pre), length_app; lia).
      rewrite app_nil_r. case_decide as Hr.
      * rewrite filter_cons_False by (subst; by intros []). split_and!; [done|done|done|].
        eapply Forall_impl; [exact IHb|]. simpl. intros t Hle. lia.
      * rewrite filter_cons_True by done.
        destruct (make_run_spans text fold pre run (c :: cs) Ht Hs) as [Htx Hsp].
        rewrite !fmap_cons, IHt, Htx. split_and!; [done| | |].
        { constructor; [by exists run|done]. }
        { constructor; [done|]. eapply Forall_impl; [exact IHb|]. unfold before. simpl. intros t Hle. lia. }
        { constructor; [done|]. eapply Forall_impl; [exact IHb|]. simpl. intros t Hle. lia. }
Qed.

(** The runs of a text, in order, with their spans. *)
Lemma split_alphanumeric_spec text fold :
  utf8_valid (bytes_of text) = true →
  tok_text <$> split_alphanumeric text fold =
    run_text fold <$> filter (λ t, t ≠ [])
      (split_on (λ c, negb (is_alphanumeric c)) (utf8_chars (bytes_of text))) ∧
  Forall (good_token text fold) (split_alphanumeric text fold) ∧
  StronglySorted before (split_alphanumeric text fold).
Proof.
  intros Hv. destruct (string_chars text Hv) as (cs & Ht & Hs & Hcs).
  destruct (split_loop_spec text fold cs [] []) as (H1 & H2 & H3 & _); [done|done|constructor|].
  unfold split_alphanumeric, char_indices. rewrite Hcs.
  pose proof (split_on_nonempty (λ c, negb (is_alphanumeric c)) cs) as Hne.
  rewrite decide_True in H1, H2, H3 by done. split_and!; [|done|done].
  simpl in H1. rewrite H1. by destruct (split_on _ cs).
Qed.
Lemma run_text_tokenize text :
  tokenize text = run_text false <$> filter (λ t, t ≠ [])
    (split_on (λ c, negb (is_alphanumeric c)) (utf8_chars (bytes_of text))).
Proof. done. Qed.

Lemma drop_while_app {A} (p : A → bool) l : ∃ k, l = k ++ drop_while p l.
Proof.
  induction l as [|x l [k IH]]; [by exists []|]. simpl. destruct (p x); [|by exists []].
  exists (x :: k). by rewrite IH at 1.
Qed.

Lemma keyword_spans text t :
  utf8_valid (bytes_of text) = true → keyword_token text = Some t →
  ∃ ds, ds ≠ [] ∧ spans text t ds ∧ tok_text t = run_text false ds.
Proof.
  intros Hv Hk. destruct (string_chars text Hv) as (cs & Ht & Hs & Hcs). unfold keyword_token in Hk.
  rewrite Hcs, Ht in Hk. destruct (drop_while_app is_whitespace cs) as [k Hcsk].
  fold (trim_start_chars cs) in Hcsk.
  destruct (drop_while_app is_whitespace (rev (trim_start_chars cs))) as [w Hw].
  apply (f_equal (@rev N)) in Hw. rewrite rev_involutive, rev_app_distr in Hw.
  fold (trim_chars cs) in Hw. assert (Hne : trim_chars cs ≠ []) by (by intros E; rewrite E in Hk).
  set (ds := trim_chars cs) in *. exists ds. destruct ds as [|d ds'] eqn:Ed; [done|].
  rewrite <- Ed in *. clear Ed d ds'. injection Hk as <-.
  assert (Hstart : (length (encode cs) - length (encode (trim_start_chars cs)) = length (encode k))%nat)
    by (rewrite Hcsk at 1; rewrite encode_app, length_app; lia).
  split_and!; [done| |done]. exists k, (rev w). simpl. rewrite Hstart, (encode_app k), length_app.
  split_and!; [|done|done]. by rewrite Hcs, Hcsk, Hw.
Qed.

Lemma stopwords_sorted : StronglySorted (λ a b, String.ltb a b = true) ENGLISH_STOPWORDS.
Proof. repeat constructor. Qed.

(** A per-token analyzer is a transformation of the default tokens: the terms of a text
    are those its default tokens map to, in order. *)
Lemma per_token_terms p text :
  utf8_valid (bytes_of text) = true → is_per_token p = true →
  index_terms p text = mjoin ((λ t, default [] (map_default_token p t)) <$> tokenize text).
Proof.
  intros Hv Hp. destruct (split_alphanumeric_spec text false Hv) as [Hf _].
  destruct (split_alphanumeric_spec text true Hv) as [Ht _]. rewrite <- run_text_tokenize in Hf.
  destruct p; [..|done|]; simpl.
  - rewrite Hf. clear. induction (tokenize text) as [|x l IH]; [done|]. simpl. by f_equal.
  - rewrite Hf. clear. induction (tokenize text) as [|x l IH]; [done|]. simpl. by f_equal.
  - rewrite Ht, run_text_tokenize. clear. induction (filter _ _) as [|x l IH]; [done|]. simpl. by f_equal.
  - unfold english_basic_tokens. rewrite <- Hf. clear. induction (split_alphanumeric text false) as [|x l IH]; [done|].
    rewrite filter_cons. simpl. case_decide as Hd; [rewrite Hd; simpl; by f_equal|].
    by destruct (is_english_stopword _).
Qed.

Lemma StronglySorted_sub {A B} (R : A → A → Prop) (S : B → B → Prop) (f : A → B) P `{∀ x, Decision (P x)} l :
  (∀ x y, R x y → S (f x) (f y)) → StronglySorted R l → StronglySorted S (f <$> filter P l).
Proof.
  intros HRS. induction 1 as [|x l Hs IH Hx]; [constructor|]. rewrite filter_cons.
  case_decide; [|done]. simpl. constructor; [done|]. apply Forall_fmap, Forall_forall.
  intros y [_ Hy]%list_elem_of_filter. rewrite Forall_forall in Hx. by apply HRS, Hx.
Qed.

(** The tokens of every preset lie in the analyzed text, left to right without
    overlap: each covers a non-empty stretch of whole characters, so its offsets are
    character boundaries and slicing by them cannot panic. *)
Lemma token_offsets p text :
  utf8_valid (bytes_of text) = true →
  StronglySorted before (analyze p text) ∧
  ∀ t, t ∈ analyze p text → ∃ ds, ds ≠ [] ∧ spans text t ds.
Proof.
  intros Hv.
  assert (Hsplit : ∀ fold, StronglySorted before (split_alphanumeric text fold) ∧
    ∀ t, t ∈ split_alphanumeric text fold → ∃ ds, ds ≠ [] ∧ spans text t ds).
  { intros fold. destruct (split_alphanumeric_spec text fold Hv) as (_ & Hg & Hs). split; [done|].
    intros t Ht. rewrite Forall_forall in Hg. destruct (Hg t Ht) as (ds & ? & _ & ? & _). eauto. }
  destruct p; simpl; [apply Hsplit..| |].
  - destruct (keyword_token text) as [t|] eqn:E; simpl.
    + split; [by repeat constructor|]. intros u ->%list_elem_of_singleton.
      destruct (keyword_spans _ _ Hv E) as (ds & ? & ? & _). eauto.
    + split; [constructor|set_solver].
  - destruct (Hsplit false) as [Hs Hg]. unfold english_basic_tokens. split.
    + by eapply StronglySorted_sub, Hs.
    + intros t (u & -> & [_ Hu]%list_elem_of_filter)%list_elem_of_fmap. exact (Hg u Hu).
Qed.
End tokens.
