(* ===== verification/AnalyzedSearch.v ===== *)
(** * Searching under an analyzer

    Models [TextIndex::analyzed_view] and [CollectionIndexes::text_search_analyzed] of
    [crates/auradb-index/src/lib.rs]: a search under another analyzer runs over the
    postings of the default tokenizer, transformed term by term.  The view holds, for
    every record, the frequencies of the terms the analyzer finds in its text. *)

From Stdlib Require Import Floats.SpecFloat.
From S2P Require Import Prelude Sorting BTree Text Value Core Rank Eval Chars Index TextSearch Analyzer.

Local Open Scope N_scope.

(** [*entry.entry(id).or_insert(0) += tf] over a posting. *)
Definition merge_posting (posting entry : gmap N N) : gmap N N :=
  accumulate 0 (λ _ tf n, n + tf) posting entry.

Definition add_outputs (posting : gmap N N) (outs : list string)
    (view : gmap string (gmap N N)) : gmap string (gmap N N) :=
  foldl (λ view out, <[out := merge_posting posting (default ∅ (view !! out))]> view) view outs.

Section view.
Context `{Unicode, CharCase, NaturalLog}.

Definition analyzed_view (ti : TextIndex) (p : AnalyzerPreset) : option (gmap string (gmap N N)) :=
  if is_per_token p then
    foldl (λ acc '(term, posting), view ← acc; outs ← map_default_token p term;
                                   Some (add_outputs posting outs view))
      (Some ∅) (map_to_list (ti_postings ti))
  else None.

Definition text_search_analyzed (ci : CollectionIndexes) (field query : string)
    (p : AnalyzerPreset) (bm25 require_all : bool) (k1 b : f32)
  : Res (option (list (N * f32))) :=
  match ci_text_maps ci !! field with
  | None => Err EInvalidRequest
  | Some ti =>
      match analyzed_view ti p with
      | None => Ok None
      | Some view =>
          let terms := dedup (sort_terms (index_terms p query)) in
          Ok (Some (if bm25 then bm25_over ti view terms require_all k1 b
                    else search_over view terms))
      end
  end.
End view.

(** ** Frequencies in the view *)

Definition sum_with {A} (f : A → N) (l : list A) : N := foldr (λ x acc, f x + acc) 0 l.

Lemma sum_with_ext {A} (f g : A → N) l : (∀ x, x ∈ l → f x = g x) → sum_with f l = sum_with g l.
Proof.
  induction l as [|x l IH]; intros Hfg; [done|]. simpl. rewrite Hfg by by left.
  rewrite IH; [done|]. intros y Hy. apply Hfg. by right.
Qed.

Lemma sum_with_add {A} (f g : A → N) l :
  sum_with (λ x, f x + g x) l = sum_with f l + sum_with g l.
Proof. induction l as [|x l IH]; simpl; [done|]. rewrite IH. lia. Qed.

Lemma sum_with_zero {A} (l : list A) : sum_with (λ _, 0) l = 0.
Proof. by induction l. Qed.

(** Only one summand is not zero. *)
Lemma sum_with_single (w : string → N) t l :
  NoDup l → t ∈ l → sum_with (λ u, if decide (u = t) then w u else 0) l = w t.
Proof.
  induction l as [|u l IH]; intros Hnd Hin; [set_solver|]. apply NoDup_cons in Hnd as [Hu Hnd]. simpl.
  case_decide as Hd.
  - subst u. rewrite (sum_with_ext _ (λ _, 0)), sum_with_zero; [lia|].
    intros x Hx. rewrite decide_False; [done|]. by intros ->.
  - rewrite IH; [lia|done|set_solver].
Qed.

Lemma occurrences_app t l k : occurrences t (l ++ k) = occurrences t l + occurrences t k.
Proof. unfold occurrences. rewrite filter_app, length_app. lia. Qed.

(** Counting the tokens through their multiplicities. *)
Lemma sum_occurrences (w : string → N) terms toks :
  NoDup terms → (∀ t, t ∈ toks → t ∈ terms) →
  sum_with (λ u, w u * occurrences u toks) terms = sum_with w toks.
Proof.
  intros Hnd. induction toks as [|t toks IH]; intros Hin; simpl.
  - rewrite (sum_with_ext _ (λ _, 0)), sum_with_zero; [done|]. intros u _. unfold occurrences. simpl. lia.
  - rewrite <- (sum_with_single w t terms), <- IH, <- sum_with_add by set_solver.
    apply sum_with_ext. intros u _. rewrite occurrences_cons. repeat case_decide; subst; try done; lia.
Qed.

Lemma term_freq_insert_view view (out : string) e t id :
  term_freq (<[out := e]> view) t id =
    if decide (t = out) then default 0 (e !! id) else term_freq view t id.
Proof.
  unfold term_freq. case_decide as Hd; [subst; by rewrite lookup_insert_eq|by rewrite lookup_insert_ne].
Qed.

Lemma add_outputs_freq posting outs t id : ∀ view,
  term_freq (add_outputs posting outs view) t id =
    term_freq view t id + occurrences t outs * default 0 (posting !! id).
Proof.
  induction outs as [|o outs IH]; intros view; simpl; [unfold occurrences; simpl; lia|].
  rewrite IH, term_freq_insert_view, occurrences_cons. unfold merge_posting. rewrite accumulate_lookup.
  case_decide as Hd; [|lia]. subst o.
  unfold term_freq. destruct (view !! t) as [e|]; simpl; rewrite ?lookup_empty;
    destruct (posting !! id); simpl; lia.
Qed.

Lemma add_outputs_wf posting outs : ∀ view,
  posting ≠ ∅ → (∀ id n, posting !! id = Some n → 0 < n) → postings_wf view →
  postings_wf (add_outputs posting outs view).
Proof.
  induction outs as [|o outs IH]; intros view Hne Hpos Hwf; [done|]. simpl. apply IH; [done|done|].
  intros t m. rewrite lookup_insert_Some. intros [[<- <-]|[_ Hm]]; [|by apply (Hwf t)].
  assert (Hold : ∀ id n, default ∅ (view !! o) !! id = Some n → 0 < n).
  { intros id n. destruct (view !! o) as [e|] eqn:E; simpl; [by apply (Hwf o e E)|done]. }
  split.
  - apply map_choose in Hne as (id & n & Hid). intros He.
    assert (Hx : merge_posting posting (default ∅ (view !! o)) !! id = None) by (by rewrite He).
    unfold merge_posting in Hx. by rewrite accumulate_lookup, Hid in Hx.
  - intros id n. unfold merge_posting. rewrite accumulate_lookup.
    destruct (posting !! id) as [k|] eqn:E; [|by apply Hold]. intros [= <-]. specialize (Hpos _ _ E). lia.
Qed.

Section analyzed.
Context `{Unicode, CharCase, NaturalLog}.

Definition outputs (p : AnalyzerPreset) (term : string) : list string :=
  default [] (map_default_token p term).

Lemma map_default_token_outputs p term :
  is_per_token p = true → map_default_token p term = Some (outputs p term).
Proof. by destruct p. Qed.

Lemma view_fold p l : is_per_token p = true → ∀ view,
  foldl (λ acc '(term, posting), view ← acc; outs ← map_default_token p term;
                                 Some (add_outputs posting outs view)) (Some view) l =
    Some (foldl (λ view '(term, posting), add_outputs posting (outputs p term) view) view l).
Proof.
  intros Hp. induction l as [|[term posting] l IH]; intros view; [done|]. simpl.
  rewrite map_default_token_outputs by done. apply IH.
Qed.

Lemma fold_freq p t id l : ∀ view,
  term_freq (foldl (λ view '(term, posting), add_outputs posting (outputs p term) view) view l) t id =
    term_freq view t id +
      sum_with (λ x, occurrences t (outputs p x.1) * default 0 (x.2 !! id)) l.
Proof.
  induction l as [|[term posting] l IH]; intros view; simpl; [lia|].
  rewrite IH, add_outputs_freq. lia.
Qed.

Lemma fold_wf p l : ∀ view,
  Forall (λ x : string * gmap N N, x.2 ≠ ∅ ∧ ∀ id n, x.2 !! id = Some n → 0 < n) l →
  postings_wf view →
  postings_wf (foldl (λ view '(term, posting), add_outputs posting (outputs p term) view) view l).
Proof.
  induction l as [|[term posting] l IH]; intros view Hl Hwf; [done|].
  apply Forall_cons in Hl as [[Hne Hpos] Hl]. simpl. apply IH; [done|]. by apply add_outputs_wf.
Qed.

Lemma occurrences_join t ls : occurrences t (mjoin ls) = sum_with (occurrences t) ls.
Proof. induction ls as [|l ls IH]; [done|]. simpl. by rewrite occurrences_app, IH. Qed.

Lemma sum_with_map {A B} (f : B → N) (g : A → B) l : sum_with f (g <$> l) = sum_with (λ x, f (g x)) l.
Proof. induction l as [|x l IH]; [done|]. exact (f_equal (N.add (f (g x))) IH). Qed.

(** The terms an analyzer finds in the field of a record. *)
Definition analyzed_terms p (text : Rec → option string) (recs : gmap N Rec) (id : N) : list string :=
  match recs !! id ≫= text with Some s => index_terms p s | None => [] end.

Definition valid_texts (text : Rec → option string) (recs : gmap N Rec) : Prop :=
  ∀ id r s, recs !! id = Some r → text r = Some s → utf8_valid (bytes_of s) = true.

Lemma analyzed_terms_tokens p text recs id :
  is_per_token p = true → valid_texts text recs →
  analyzed_terms p text recs id = mjoin (outputs p <$> tokens_of text recs id).
Proof.
  intros Hp Hv. unfold analyzed_terms, tokens_of. destruct (recs !! id ≫= text) as [s|] eqn:E; [|done].
  apply bind_Some in E as (r & Hr & Hs). apply per_token_terms; [by eapply Hv|done].
Qed.

Lemma analyzed_view_freq p text ti recs :
  is_per_token p = true → valid_texts text recs → text_ok text ti recs →
  ∃ view, analyzed_view ti p = Some view ∧ postings_wf view ∧
    ∀ t id, term_freq view t id = occurrences t (analyzed_terms p text recs id).
Proof.
  intros Hp Hv Hok. unfold analyzed_view. rewrite Hp, view_fold by done. eexists. split; [done|]. split.
  - apply fold_wf; [|by intros ? ? ?]. apply Forall_forall. intros [term m] Hin%elem_of_map_to_list.
    by apply (to_wf _ _ _ Hok term).
  - intros t id. rewrite fold_freq, (analyzed_terms_tokens p) by done.
    rewrite occurrences_join, sum_with_map. replace (term_freq ∅ t id) with 0 by done. rewrite N.add_0_l.
    rewrite <- (sum_occurrences (λ u, occurrences t (outputs p u)) (map_to_list (ti_postings ti)).*1).
    + rewrite sum_with_map. apply sum_with_ext. intros [term m] Hin%elem_of_map_to_list. simpl.
      rewrite <- (to_freq _ _ _ Hok). unfold term_freq. by rewrite Hin.
    + apply NoDup_fst_map_to_list.
    + intros u Hu. apply (posted_tokens _ _ _ _ _ Hok) in Hu as [n Hn].
      apply bind_Some in Hn as (m & Hm & _). apply list_elem_of_fmap. exists (u, m).
      by rewrite elem_of_map_to_list.
Qed.
Lemma not_nil_elem {A} (l : list A) : l ≠ [] ↔ ∃ x, x ∈ l.
Proof. destruct l as [|x l]; set_solver. Qed.

Lemma posted_freq view t id : postings_wf view → posted view id t ↔ 0 < term_freq view t id.
Proof.
  intros Hwf. unfold posted, term_freq. destruct (view !! t ≫= (.!! id)) as [n|] eqn:E; simpl.
  - split; [intros _|by eauto]. apply bind_Some in E as (m & Hm & Hn).
    by apply (Hwf t m Hm) in Hn.
  - split; [by intros []|lia].
Qed.

Lemma occurrences_elem t l : 0 < occurrences t l ↔ t ∈ l.
Proof.
  split; [|apply occurrences_pos]. intros Hpos. destruct (decide (t ∈ l)) as [|Hn]; [done|].
  rewrite (occurrences_zero _ _ Hn) in Hpos. lia.
Qed.

Lemma analyzed_terms_live p text recs id t :
  t ∈ analyzed_terms p text recs id →
  ∃ r s, recs !! id = Some r ∧ text r = Some s ∧ analyzed_terms p text recs id = index_terms p s.
Proof.
  unfold analyzed_terms. destruct (recs !! id ≫= text) as [s|] eqn:E; [|set_solver].
  apply bind_Some in E as (r & Hr & Hs). eauto.
Qed.

(** C33: a search under a per-token analyzer finds the records whose text, analyzed the
    same way as the query, has the query's terms: every one of them, or any one under
    BM25 with optional terms.  The search reads the postings of the default tokenizer
    only, and lists each record once. *)
Theorem analyzed_search_symmetric p ci recs field ti query (bm25 require_all : bool) k1 b :
  ci_text_maps ci !! field = Some ti → text_ok (field_text field) ti recs →
  valid_texts (field_text field) recs → is_per_token p = true →
  ∃ res, text_search_analyzed ci field query p bm25 require_all k1 b = Ok (Some res) ∧
    NoDup res.*1 ∧
    ∀ id, id ∈ res.*1 ↔ ∃ r s, recs !! id = Some r ∧ field_text field r = Some s ∧
      index_terms p query ≠ [] ∧
      if (bm25 && negb require_all)%bool
      then ∃ t, t ∈ index_terms p query ∧ t ∈ index_terms p s
      else ∀ t, t ∈ index_terms p query → t ∈ index_terms p s.
Proof.
  intros Hti Hok Hv Hp.
  destruct (analyzed_view_freq p (field_text field) ti recs Hp Hv Hok) as (view & Hview & Hwf & Hfreq).
  unfold text_search_analyzed. rewrite Hti, Hview. eexists. split; [done|].
  set (terms := dedup (sort_terms (index_terms p query))).
  assert (Helem : ∀ t, t ∈ terms ↔ t ∈ index_terms p query)
    by (intros t; subst terms; by rewrite dedup_elem, sort_terms_elem).
  assert (Hnil : terms ≠ [] ↔ index_terms p query ≠ [])
    by (rewrite !not_nil_elem; by setoid_rewrite Helem).
  assert (Hpost : ∀ id t, posted view id t ↔ t ∈ analyzed_terms p (field_text field) recs id)
    by (intros id t; by rewrite posted_freq, Hfreq, occurrences_elem).
  assert (Hall : ∀ id, (terms ≠ [] ∧ ∀ t, t ∈ terms → posted view id t) ↔
    ∃ r s, recs !! id = Some r ∧ field_text field r = Some s ∧ index_terms p query ≠ [] ∧
      ∀ t, t ∈ index_terms p query → t ∈ index_terms p s).
  { intros id. rewrite Hnil. setoid_rewrite Hpost. setoid_rewrite Helem. split.
    - intros [Hne Hin]. apply not_nil_elem in Hne as Hex. destruct Hex as [t0 Ht0].
      destruct (analyzed_terms_live _ _ _ _ _ (Hin t0 Ht0)) as (r & s & Hr & Hs & Heq).
      exists r, s. rewrite <- Heq. done.
    - intros (r & s & Hr & Hs & Hne & Hin). split; [done|]. intros t Ht. unfold analyzed_terms.
      rewrite Hr. simpl. rewrite Hs. by apply Hin. }
  destruct bm25; simpl; [|destruct (search_over_spec view terms) as [Hnd Hin]; split; [done|];
    intros id; by rewrite Hin, Hall].
  destruct (bm25_over_spec ti view terms require_all k1 b) as [Hnd Hin]. split; [done|].
  intros id. rewrite Hin. clear Hin Hnd.
  assert (Hlen : ∀ t, posted view id t → ti_doc_lengths ti ≠ ∅).
  { intros t Hpt%Hpost. rewrite (analyzed_terms_tokens p) in Hpt by done.
    destruct (tokens_of (field_text field) recs id) as [|u l] eqn:Eu; [by apply not_elem_of_nil in Hpt|].
    eapply (doc_lengths_nonempty _ _ _ id u Hok). rewrite Eu. by left. }
  destruct require_all; simpl.
  - rewrite <- Hall. split; [naive_solver|]. intros [Hne Hin]. apply not_nil_elem in Hne as Hex.
    destruct Hex as [t Ht]. split; [|done]. by apply (Hlen t), Hin.
  - split.
    + intros (_ & Hne & t & Ht & Hpt). apply Hpost in Hpt.
      destruct (analyzed_terms_live _ _ _ _ _ Hpt) as (r & s & Hr & Hs & Heq).
      exists r, s. rewrite Heq in Hpt. apply Helem in Ht. apply Hnil in Hne. eauto 10.
    + intros (r & s & Hr & Hs & Hne & t & Ht & Hts).
      assert (Hpt : posted view id t).
      { apply Hpost. unfold analyzed_terms. rewrite Hr. simpl. by rewrite Hs. }
      split_and!; [by eapply Hlen|by apply Hnil|]. exists t. by rewrite Helem.
Qed.
End analyzed.
