(* ===== verification/Snippet.v ===== *)
(** * Snippets

    Models [crates/auradb-query/src/snippet.rs]: the fragments of a field around the
    matches of a query, with the byte ranges to highlight, under an allowlist of fields
    and caps on the number and length of fragments. *)

From S2P Require Import Prelude Sorting BTree Text Value Core Eval Chars Analyzer.

Record HighlightRange := mkRange {
  hr_start : nat;
  hr_end : nat;
}.

Record SnippetFragment := mkFragment {
  sf_text : string;
  sf_ranges : list HighlightRange;
}.

Record Snippet := mkSnippet {
  sn_field : string;
  sn_fragments : list SnippetFragment;
}.

Record SnippetOptions := mkSnippetOptions {
  so_max_fragments : nat;
  so_max_fragment_chars : nat;
}.

Definition snippet_options_default : SnippetOptions := mkSnippetOptions 3 200.

Definition window_end (text : string) (start max_chars : nat) : nat :=
  match char_indices_from 0 (utf8_chars (drop start (bytes_of text))) !! max_chars with
  | Some (off, _) => start + off
  | None => length (bytes_of text)
  end.

(** The window anchored at a match: its text and the matches fully inside it. *)
Definition window_fragment (text : string) (matched : list (nat * nat)) (frag_start frag_end : nat)
  : SnippetFragment :=
  mkFragment (str_slice text frag_start frag_end)
    ((λ m, mkRange (m.1 - frag_start) (m.2 - frag_start))
       <$> filter (λ m, frag_start <= m.1 ∧ m.2 <= frag_end) matched).

Fixpoint window_loop (text : string) (matched : list (nat * nat)) (opts : SnippetOptions)
    (emitted covered_until : nat) (l : list (nat * nat)) : list SnippetFragment :=
  match l with
  | [] => []
  | (ms, _) :: l' =>
      if ms <? covered_until then window_loop text matched opts emitted covered_until l'
      else if so_max_fragments opts <=? emitted then []
      else
        let frag_end := window_end text ms (so_max_fragment_chars opts) in
        window_fragment text matched ms frag_end
          :: window_loop text matched opts (S emitted) frag_end l'
  end.

Definition build_fragments (text : string) (matched : list (nat * nat)) (opts : SnippetOptions)
  : list SnippetFragment :=
  if (bool_decide (matched = []) || (so_max_fragments opts =? 0) ||
      (so_max_fragment_chars opts =? 0))%bool then []
  else if length (utf8_chars (bytes_of text)) <=? so_max_fragment_chars opts then
    [mkFragment text ((λ m, mkRange m.1 m.2) <$> matched)]
  else window_loop text matched opts 0 0 matched.

Section snippets.
Context `{Unicode, CharCase}.

(** The spans of the tokens of [text] that are terms of the query. *)
Definition matched_spans (p : AnalyzerPreset) (text query : string) : list (nat * nat) :=
  let query_terms : gset string := list_to_set (tok_text <$> analyze p query) in
  (λ t, (tok_start t, tok_end t)) <$> filter (λ t, tok_text t ∈ query_terms) (analyze p text).

Definition build_snippet (field : string) (allowed : list string) (fields : list (string * string))
    (query : string) (p : AnalyzerPreset) (opts : SnippetOptions) : option Snippet :=
  if bool_decide (field ∈ allowed) then
    match bt_get field fields with
    | None => None
    | Some text =>
        let fragments :=
          match analyze p query with
          | [] => []
          | _ :: _ => build_fragments text (matched_spans p text query) opts
          end in
        Some (mkSnippet field fragments)
    end
  else None.
End snippets.

(** ** Fragments are slices of the field *)

Lemma char_indices_lookup cs : ∀ off n,
  char_indices_from off cs !! n = (λ c, (off + length (encode (take n cs)), c)) <$> cs !! n.
Proof.
  induction cs as [|c cs IH]; intros off [|n]; [done|done| |].
  - simpl. f_equal. f_equal. lia.
  - cbn [char_indices_from take]. rewrite encode_cons, length_app, !lookup_cons. rewrite IH.
    destruct (cs !! n); [|done]. simpl. do 2 f_equal. lia.
Qed.

Lemma encode_take_le cs n rest : length (encode (cs ++ take n rest)) <= length (encode (cs ++ rest)).
Proof.
  rewrite <- (take_drop n rest) at 2. rewrite app_assoc, (encode_app (cs ++ _)), length_app. lia.
Qed.

Section boundaries.
Context (text : string) (cs rest : list N).
Hypothesis Htext : bytes_of text = encode (cs ++ rest).
Hypothesis Hscalar : Forall scalar (cs ++ rest).

Lemma window_end_spec n :
  window_end text (length (encode cs)) n = length (encode (cs ++ take n rest)).
Proof using Htext Hscalar.
  apply Forall_app in Hscalar as [_ Hrest]. unfold window_end.
  rewrite Htext, encode_app, drop_app_length, utf8_chars_encode by done.
  rewrite char_indices_lookup, Nat.add_0_l, encode_app, !length_app.
  destruct (rest !! n) eqn:E; simpl; [done|]. apply lookup_ge_None in E. by rewrite take_ge.
Qed.

Lemma window_text n :
  str_slice text (length (encode cs)) (window_end text (length (encode cs)) n) =
    string_of (encode (take n rest)).
Proof using Htext Hscalar.
  rewrite window_end_spec. apply (str_slice_encode text cs (take n rest) (drop n rest)).
  by rewrite take_drop.
Qed.
End boundaries.

Lemma str_slice_slice text fs fe s e :
  fs <= s → e <= fe → str_slice (str_slice text fs fe) (s - fs) (e - fs) = str_slice text s e.
Proof.
  intros Hs He. unfold str_slice. rewrite bytes_of_string_of. f_equal.
  destruct (Nat.le_gt_cases e s).
  - replace (e - fs - (s - fs)) with 0 by lia. by replace (e - s) with 0 by lia.
  - rewrite skipn_firstn_comm, drop_drop, take_take. f_equal; [lia|]. f_equal. lia.
Qed.

Lemma str_slice_length text s e : e <= length (bytes_of text) → length (bytes_of (str_slice text s e)) = e - s.
Proof. intros He. unfold str_slice. rewrite bytes_of_string_of, length_take, length_drop. lia. Qed.

Section fragment_spec.
Context `{Unicode, CharCase}.
Implicit Types (text query : string) (p : AnalyzerPreset) (opts : SnippetOptions).

(** A highlighted range shows a token of the text that is a term of the query. *)
Definition shows_match p text query (frag : string) (r : HighlightRange) : Prop :=
  hr_end r <= length (bytes_of frag) ∧
  ∃ t, t ∈ analyze p text ∧ tok_text t ∈ tok_text <$> analyze p query ∧
    str_slice frag (hr_start r) (hr_end r) = str_slice text (tok_start t) (tok_end t).

Definition good_fragment p text query (max_chars : nat) (f : SnippetFragment) : Prop :=
  (∃ cs ds es, utf8_chars (bytes_of text) = cs ++ ds ++ es ∧
     sf_text f = string_of (encode ds) ∧ length ds <= max_chars) ∧
  ∀ r, r ∈ sf_ranges f → shows_match p text query (sf_text f) r.

Lemma matched_spans_elem p text query m :
  m ∈ matched_spans p text query →
  ∃ t, t ∈ analyze p text ∧ tok_text t ∈ tok_text <$> analyze p query ∧
    m = (tok_start t, tok_end t).
Proof.
  unfold matched_spans. intros (t & -> & [Ht Hin]%list_elem_of_filter)%list_elem_of_fmap.
  exists t. by rewrite elem_of_list_to_set in Ht.
Qed.

Lemma window_good p text query max_chars ms me :
  utf8_valid (bytes_of text) = true → (ms, me) ∈ matched_spans p text query →
  good_fragment p text query max_chars
    (window_fragment text (matched_spans p text query) ms (window_end text ms max_chars)).
Proof.
  intros Hv Hm. destruct (string_chars text Hv) as (all & Ht & Hs & Hcs).
  destruct (matched_spans_elem _ _ _ _ Hm) as (t & Hin & _ & [= -> ->]).
  destruct (token_offsets p text Hv) as [_ Hsp]. destruct (Hsp t Hin) as (ds & _ & cs & es & Hall & Hst & _).
  rewrite Hcs in Hall. rewrite Hall in Ht, Hs, Hcs. clear Hall all. rewrite Hst. pose proof (window_end_spec text cs (ds ++ es) Ht Hs max_chars) as Hwe.
  split; simpl.
  - exists cs, (take max_chars (ds ++ es)), (drop max_chars (ds ++ es)).
    rewrite take_drop, (window_text text cs (ds ++ es)) by done. split_and!; [by rewrite Hcs|done|]. rewrite length_take. lia.
  - intros r ([s e] & -> & [[Hs1 He1] Hse]%list_elem_of_filter)%list_elem_of_fmap. simpl in *.
    destruct (matched_spans_elem _ _ _ _ Hse) as (u & Hu & Huq & [= -> ->]). split; simpl.
    + rewrite str_slice_length; [lia|]. rewrite Hwe, Ht. apply encode_take_le.
    + exists u. split_and!; [done|done|]. by apply str_slice_slice.
Qed.

Lemma window_loop_good p text query opts l : ∀ emitted covered,
  utf8_valid (bytes_of text) = true → (∀ m, m ∈ l → m ∈ matched_spans p text query) →
  emitted <= so_max_fragments opts →
  let fs := window_loop text (matched_spans p text query) opts emitted covered l in
  emitted + length fs <= so_max_fragments opts ∧
  ∀ f, f ∈ fs → good_fragment p text query (so_max_fragment_chars opts) f.
Proof.
  induction l as [|[ms me] l IH]; intros emitted covered Hv Hl Hem; simpl; [split; [lia|set_solver]|].
  assert (Hl' : ∀ m, m ∈ l → m ∈ matched_spans p text query) by (intros m Hm; apply Hl; by right).
  case_match; [by apply IH|]. case_match eqn:E; [simpl; split; [lia|set_solver]|].
  apply Nat.leb_gt in E. destruct (IH (S emitted) (window_end text ms (so_max_fragment_chars opts)))
    as [Hlen Hgood]; [done|done|lia|]. simpl. split; [lia|].
  intros f [->|Hf]%elem_of_cons; [|by apply Hgood]. apply (window_good _ _ _ _ _ me); [done|].
  apply Hl. by left.
Qed.

Lemma build_fragments_good p text query opts :
  utf8_valid (bytes_of text) = true →
  let fs := build_fragments text (matched_spans p text query) opts in
  length fs <= so_max_fragments opts ∧
  ∀ f, f ∈ fs → good_fragment p text query (so_max_fragment_chars opts) f.
Proof.
  intros Hv. unfold build_fragments. case_match eqn:E0; [simpl; split; [lia|set_solver]|].
  apply orb_false_iff in E0 as [[_ E1%Nat.eqb_neq]%orb_false_iff _].
  case_match eqn:E2; [|by apply (window_loop_good p text query opts _ 0 0); [done|done|lia]].
  apply Nat.leb_le in E2. simpl. split; [lia|]. intros f ->%list_elem_of_singleton.
  destruct (string_chars text Hv) as (all & Ht & Hs & Hcs). split; simpl.
  - exists [], all, []. rewrite app_nil_r, Hcs in *. by rewrite <- Ht, string_of_bytes_of.
  - intros r (m & -> & Hm)%list_elem_of_fmap.
    destruct (matched_spans_elem _ _ _ _ Hm) as (t & Hin & Hq & ->). split; [|by exists t]. simpl.
    destruct (token_offsets p text Hv) as [_ Hsp].
    destruct (Hsp t Hin) as (ds & _ & cs & es & Hall & _ & ->).
    rewrite Hcs in Hall. rewrite Hall in Ht, Hs, Hcs. clear Hall all. rewrite Ht, app_assoc, (encode_app (cs ++ ds)), length_app. lia.
Qed.

(** C36: a snippet shows the requested field and nothing else: it is built for allowed
    fields only; there are at most [max_fragments] fragments, each a stretch of at most
    [max_fragment_chars] whole characters of the field; every highlighted range lies in
    its fragment and shows a token of the field that is a term of the query. *)
Theorem snippet_bounded field allowed fields text query p opts :
  utf8_valid (bytes_of text) = true →
  bt_get field fields = Some text →
  match build_snippet field allowed fields query p opts with
  | None => field ∉ allowed
  | Some sn =>
      field ∈ allowed ∧ sn_field sn = field ∧
      length (sn_fragments sn) <= so_max_fragments opts ∧
      ∀ f, f ∈ sn_fragments sn → good_fragment p text query (so_max_fragment_chars opts) f
  end.
Proof.
  intros Hv Hf. unfold build_snippet. case_bool_decide as Ha; [|done]. rewrite Hf. simpl.
  split; [done|]. split; [done|]. destruct (analyze p query) eqn:Eq; [simpl; split; [lia|set_solver]|].
  clear Eq. apply build_fragments_good, Hv.
Qed.
End fragment_spec.
