(* ===== verification/Query.v ===== *)
(** * Read requests

    The read side of the query language of [crates/auradb-query/src/ir.rs]: the find
    request with its ranked clauses, counts, existence tests and aggregations, and the
    rows returned. *)

From Stdlib Require Import Floats.SpecFloat.
From S2P Require Import Prelude Sorting BTree Text Value Core Rank Eval Chars Index TextSearch Analyzer Snippet.

Record OrderKey := mkOrderKey {
  ok_field : string;
  ok_desc : bool;
}.

Definition ANN_PREVIEW_MIN_VECTORS : nat := 16.

Inductive AnnFallback := FallbackExact | FallbackError.

Record AnnParams := mkAnn {
  ann_m : option nat;
  ann_ef_construction : option nat;
  ann_ef_search : option nat;
  ann_fallback : AnnFallback;
}.

Record VectorSearch := mkVectorSearch {
  vs_field : string;
  vs_query : list f32;
  vs_k : nat;
  vs_metric : string;
}.

Inductive TextOperator := OpOr | OpAnd.

Definition op_require_all (op : TextOperator) : bool :=
  match op with OpAnd => true | OpOr => false end.

Inductive TextRank := RankBm25 | RankTermFrequency.

Record TextSearch := mkTextSearch {
  ts_field : string;
  ts_query : string;
  ts_operator : TextOperator;
  ts_rank : TextRank;
  ts_k1 : option f32;
  ts_b : option f32;
  ts_analyzer : option string;
}.

Definition resolve_analyzer (name : option string) : Res AnalyzerPreset :=
  match name with
  | None => Ok PDefault
  | Some other =>
      if bool_decide (other = "default" ∨ other = "") then Ok PDefault else preset_parse other
  end.

Inductive FusionMode := WeightedSum | ReciprocalRankFusion.

Record HybridSearch := mkHybrid {
  hs_text_field : string;
  hs_text_query : string;
  hs_vector_field : string;
  hs_vector : list f32;
  hs_top_k : nat;
  hs_metric : option string;
  hs_weight_text : f32;
  hs_weight_vector : f32;
  hs_fusion : FusionMode;
  hs_operator : TextOperator;
  hs_k1 : option f32;
  hs_b : option f32;
  hs_analyzer : option string;
}.

Definition metric_name_of (hs : HybridSearch) : string := default "cosine" (hs_metric hs).

Record SnippetRequest := mkSnippetRequest {
  sr_fields : list string;
  sr_max_fragments : option nat;
  sr_fragment_chars : option nat;
}.

Record FindQuery := mkFind {
  fq_collection : string;
  fq_filter : option Filter;
  fq_vector : option VectorSearch;
  fq_vector_ann : option AnnParams;
  fq_text_search : option TextSearch;
  fq_hybrid : option HybridSearch;
  fq_order_by : list OrderKey;
  fq_limit : option nat;
  fq_offset : option nat;
  fq_projection : option (list string);
  fq_includes : list string;
  fq_timeout_ms : option N;
  fq_snippet : option SnippetRequest;
}.

Definition find_new (collection : string) : FindQuery :=
  mkFind collection None None None None None [] None None None [] None None.

Definition some_count (l : list bool) : nat := length (filter (λ b, b = true) l).

Definition validate_search_clauses (q : FindQuery) : Res unit :=
  let set := some_count [bool_decide (is_Some (fq_vector q)); bool_decide (is_Some (fq_text_search q));
                         bool_decide (is_Some (fq_hybrid q))] in
  if (1 <? set)%nat then Err EInvalidRequest else Ok tt.

Record CountQuery := mkCount {
  cq_collection : string;
  cq_filter : option Filter;
}.

Record ExistsQuery := mkExists {
  eq_collection : string;
  eq_filter : option Filter;
}.

(** ** Aggregations *)

Inductive AggregateOp := AggCount | AggMin | AggMax | AggAvg.

Definition needs_field (op : AggregateOp) : bool :=
  match op with AggCount => false | _ => true end.

Record AggregateMetric := mkMetric {
  am_op : AggregateOp;
  am_field : option string;
}.

Definition DEFAULT_FACET_LIMIT : nat := 10.
Definition DEFAULT_GROUP_LIMIT : nat := 1000.

Record FacetRequest := mkFacet {
  fr_field : string;
  fr_limit : option nat;
}.

Definition effective_limit (f : FacetRequest) : nat := default DEFAULT_FACET_LIMIT (fr_limit f).

Record AggregateQuery := mkAggregate {
  aq_collection : string;
  aq_filter : option Filter;
  aq_text_search : option TextSearch;
  aq_facets : list FacetRequest;
  aq_metrics : list AggregateMetric;
  aq_group_by : option string;
  aq_group_limit : option nat;
  aq_timeout_ms : option N;
}.

Definition effective_group_limit (q : AggregateQuery) : nat :=
  default DEFAULT_GROUP_LIMIT (aq_group_limit q).

Definition validate_metric (m : AggregateMetric) : Res unit :=
  match needs_field (am_op m), am_field m with
  | true, None => Err EInvalidRequest
  | _, Some f => if bool_decide (f = "") then Err EInvalidRequest else Ok tt
  | _, _ => Ok tt
  end.

Definition validate_aggregate (q : AggregateQuery) : Res unit :=
  if bool_decide (aq_facets q = [] ∧ aq_metrics q = [] ∧ aq_group_by q = None)
  then Err EInvalidRequest
  else if bool_decide (aq_group_by q = Some "") then Err EInvalidRequest
  else
    let? _ := match aq_group_limit q with
              | Some limit =>
                  if (limit =? 0)%nat then Err EInvalidRequest
                  else if bool_decide (aq_group_by q = None) then Err EInvalidRequest
                  else Ok tt
              | None => Ok tt
              end in
    let? _ := for_each validate_metric (aq_metrics q) in
    for_each (λ f, if bool_decide (fr_field f = "") then Err EInvalidRequest else Ok tt)
      (aq_facets q).

(** ** Rows *)

Record Row := mkRow {
  row_id : string;
  row_fields : Document;
  row_score : option f32;
  row_text_score : option f32;
  row_vector_score : option f32;
  row_rank : option nat;
  row_includes : list (string * list Document);
  row_snippets : list Snippet;
}.
