(* ===== verification/Planner.v ===== *)
(** * Statistics and planning

    Models [crates/auradb-query/src/stats.rs] (the statistics of a collection),
    [plan.rs] (access paths and the plan tree) and [planner.rs] (the choice of the
    cheapest access path).  Costs are [f64]s; row counts are [usize]s, modelled as
    [nat], so [saturating_add] of two counts is their sum. *)

From Stdlib Require Import Floats.SpecFloat.
From S2P Require Import Prelude Sorting BTree Text Value Core Rank Eval Chars Index TextSearch Analyzer Snippet Query.

(** ** Statistics *)

Definition STATS_FORMAT_VERSION : N := 1.

Record CollectionStats := mkStats {
  st_row_count : nat;
  st_field_cardinality : list (string * nat);
  st_vector_count : list (string * nat);
  st_text_field_docs : list (string * nat);
  st_avg_record_size : nat;
}.

Definition cardinality (st : CollectionStats) (field : string) : option nat :=
  bt_get field (st_field_cardinality st).

(** The accumulators of [CollectionStats::compute]. *)
Record StatsAcc := mkStatsAcc {
  sa_distinct : list (string * gset string);
  sa_vector_count : list (string * nat);
  sa_text_field_docs : list (string * nat);
  sa_row_count : nat;
  sa_total_size : nat;
}.

Section statistics.
Context `{JsonText}.

(** [*map.entry(field).or_default() += 1]. *)
Definition count_one (field : string) (m : list (string * nat)) : list (string * nat) :=
  bt_alter (λ o, S (default 0 o)) field m.

Definition cardinality_fields (schema : CollectionSchema) : list string :=
  (fd_name <$> filter (λ f, (fd_primary_key f || fd_unique f || fd_indexed f)%bool = true)
     (cs_fields schema)) ++ document_path_indexes schema.

Definition stats_vector_fields (schema : CollectionSchema) : list string :=
  fd_name <$> filter (λ f, match fd_type f with FVector _ => true | _ => false end = true)
                (cs_fields schema).

Definition stats_record (schema : CollectionSchema) (acc : StatsAcc) (r : Rec) : StatsAcc :=
  mkStatsAcc
    (foldl (λ m field,
        match record_get_path r field with
        | Some value =>
            if is_null value then m
            else bt_alter (λ o, {[ index_key value ]} ∪ default ∅ o) field m
        | None => m
        end) (sa_distinct acc) (cardinality_fields schema))
    (foldl (λ m field, match bt_get field (rec_fields r) with
                       | Some (VVector _) => count_one field m
                       | _ => m
                       end) (sa_vector_count acc) (stats_vector_fields schema))
    (foldl (λ m field, match bt_get field (rec_fields r) with
                       | Some (VText s) => if blank s then m else count_one field m
                       | _ => m
                       end) (sa_text_field_docs acc) (full_text_indexes schema))
    (S (sa_row_count acc))
    (sa_total_size acc + String.length (json_text (to_json (VObject (rec_fields r))))).

Definition compute_stats (schema : CollectionSchema) (records : list Rec) : CollectionStats :=
  let acc := foldl (stats_record schema) (mkStatsAcc [] [] [] 0 0) records in
  mkStats (sa_row_count acc) (prod_map id size <$> sa_distinct acc) (sa_vector_count acc)
    (sa_text_field_docs acc)
    (match sa_row_count acc with O => 0 | S _ => sa_total_size acc / sa_row_count acc end).
End statistics.

(** ** Access paths and plan trees *)

Inductive Access :=
| APointLookup (field : string) (value : Value)
| AIndexLookup (field : string) (value : Value)
| ADocumentPath (path : string) (value : Value)
| AFullText (field query : string)
| ATextRanked (field : string)
| AVector (field : string) (k : nat) (metric : string)
| AHybrid (text_field vector_field : string)
| AScan.

Definition access_used_index (a : Access) : option string :=
  match a with
  | APointLookup f _ | AIndexLookup f _ | AFullText f _ | ATextRanked f | AVector f _ _ => Some f
  | ADocumentPath p _ => Some p
  | AHybrid t v => Some (t ++ "+" ++ v)%string
  | AScan => None
  end.

Inductive PlanNode :=
| NPointLookup (index : string) (rows : nat)
| NIndexLookup (index field : string) (rows : nat)
| NDocumentPathIndexLookup (index path : string) (rows : nat)
| NFullTextIndexLookup (index field : string) (rows : nat)
| NFullTextBm25Search (index field rank operator : string) (rows : nat)
| NVectorSearch (field : string) (k : nat) (metric : string) (rows : nat)
| NHybridSearch (text_field vector_field fusion text_source vector_source : string) (rows : nat)
| NScan (collection : string) (rows : nat)
| NFilter (input : PlanNode) (rows : nat)
| NSort (input : PlanNode) (keys : list OrderKey)
| NOffset (input : PlanNode) (offset : nat)
| NLimit (input : PlanNode) (limit : nat)
| NProjection (input : PlanNode) (fields : list string)
| NRelationshipInclude (input : PlanNode) (relationships : list string)
| NCount (input : PlanNode)
| NExists (input : PlanNode).

Record Plan := mkPlan {
  pl_access : Access;
  pl_used_index : option string;
  pl_estimated_rows : nat;
  pl_estimated_cost : f64;
  pl_node : PlanNode;
}.

(** ** Estimates *)

Definition DEFAULT_EQ_SELECTIVITY : f64 := S754_finite false 7205759403792794 (-56).
Definition DEFAULT_TEXT_SELECTIVITY : f64 := S754_finite false 7205759403792794 (-57).

(** [n as f64]. *)
Definition f64_of_nat (n : nat) : f64 := f64_of_i64 (Z.of_nat n).

(** [x.ceil() as usize]: rounding up is exact, the cast truncates below at zero. *)
Definition ceil_usize (x : f64) : nat :=
  match x with
  | S754_finite false m e =>
      if (0 <=? e)%Z then Z.to_nat (Z.pos m * 2 ^ e)
      else Z.to_nat ((Z.pos m + 2 ^ (- e) - 1) / 2 ^ (- e))
  | _ => 0
  end.

Definition scaled_rows (n : nat) (selectivity : f64) : nat :=
  Nat.max (ceil_usize (SFmul f64_prec f64_emax (f64_of_nat n) selectivity)) 1.

Definition eq_index_estimate (field : string) (stats : option CollectionStats) (row_count : nat)
  : nat :=
  match stats ≫= λ s, cardinality s field with
  | Some (S d) => Nat.max (row_count / S d) 1
  | _ => scaled_rows row_count DEFAULT_EQ_SELECTIVITY
  end.

Record Candidate := mkCandidate {
  ca_access : Access;
  ca_estimated_rows : nat;
  ca_cost : f64;
}.

Definition seed (access : Access) (rows : nat) : Candidate :=
  mkCandidate access rows (f64_of_nat rows).

Definition has_text_index (ci : CollectionIndexes) (field : string) : bool :=
  bool_decide (is_Some (ci_text_maps ci !! field)).

Section candidates.
Context (schema : CollectionSchema) (indexes : CollectionIndexes)
  (stats : option CollectionStats) (row_count : nat).

Definition eq_candidate (field : string) (value : Value) : Candidate :=
  if existsb (λ f, String.eqb (fd_name f) field && (fd_primary_key f || fd_unique f))%bool
       (cs_fields schema)
  then seed (APointLookup field value) 1
  else if bool_decide (field ∈ document_path_indexes schema)
  then seed (ADocumentPath field value) (eq_index_estimate field stats row_count)
  else seed (AIndexLookup field value) (eq_index_estimate field stats row_count).

Definition text_candidate (field query : string) : Candidate :=
  seed (AFullText field query)
    (scaled_rows (default row_count (stats ≫= λ s, bt_get field (st_text_field_docs s)))
       DEFAULT_TEXT_SELECTIVITY).

Fixpoint collect_candidates (filter : Filter) : list Candidate :=
  match filter with
  | FCompare field CmpEq value =>
      if has_equality_index indexes field then [eq_candidate field value] else []
  | FContainsText field query =>
      if has_text_index indexes field then [text_candidate field query] else []
  | FAnd filters => mjoin (map collect_candidates filters)
  | _ => []
  end.
End candidates.

(** [min_by]: the first of the least elements. *)
Definition min_by {A} (cmp : A → A → comparison) (l : list A) (last : A) : A :=
  match l with
  | [] => last
  | x :: l' => foldl (λ best c, match cmp best c with Gt => c | _ => best end) x (l' ++ [last])
  end.

Definition cost_cmp (a b : Candidate) : comparison := default Eq (SFcompare (ca_cost a) (ca_cost b)).

(** ** The plan tree *)

Definition rank_name (r : option TextRank) : string :=
  match r with Some RankTermFrequency => "term_frequency" | _ => "bm25" end.
Definition operator_name (o : option TextOperator) : string :=
  match o with Some OpAnd => "and" | _ => "or" end.
Definition fusion_name (f : option FusionMode) : string :=
  match f with Some ReciprocalRankFusion => "reciprocal_rank_fusion" | _ => "weighted_sum" end.

Definition access_score_ordered (a : Access) : bool :=
  match a with
  | AVector _ _ _ | AFullText _ _ | ATextRanked _ | AHybrid _ _ => true
  | _ => false
  end.

Definition access_node (q : FindQuery) (chosen : Candidate) : PlanNode :=
  let rows := ca_estimated_rows chosen in
  match ca_access chosen with
  | APointLookup f _ => NPointLookup f rows
  | AIndexLookup f _ => NIndexLookup f f rows
  | ADocumentPath p _ => NDocumentPathIndexLookup p p rows
  | AFullText f _ => NFullTextIndexLookup f f rows
  | ATextRanked f =>
      NFullTextBm25Search f f (rank_name (ts_rank <$> fq_text_search q))
        (operator_name (ts_operator <$> fq_text_search q)) rows
  | AVector f k m => NVectorSearch f k m rows
  | AHybrid t v =>
      NHybridSearch t v (fusion_name (hs_fusion <$> fq_hybrid q)) ("bm25:" ++ t)
        ("exact_vector:" ++ v) rows
  | AScan => NScan (fq_collection q) rows
  end.

Definition build_tree (q : FindQuery) (chosen : Candidate) : PlanNode :=
  let node := access_node q chosen in
  let node := match fq_filter q with
              | Some _ => NFilter node (ca_estimated_rows chosen)
              | None => node
              end in
  let node := match fq_order_by q with
              | [] => node
              | keys => if access_score_ordered (ca_access chosen) then node else NSort node keys
              end in
  let node := match fq_offset q with
              | Some (S o) => NOffset node (S o)
              | _ => node
              end in
  let node := match fq_limit q with Some l => NLimit node l | None => node end in
  let node := match fq_includes q with [] => node | rels => NRelationshipInclude node rels end in
  match fq_projection q with Some fields => NProjection node fields | None => node end.

Definition plan_count_node (collection : string) (filtered : bool) (rows : nat) : PlanNode :=
  let scan := NScan collection rows in
  NCount (if filtered then NFilter scan rows else scan).

Definition plan_exists_node (collection : string) (filtered : bool) (rows : nat) : PlanNode :=
  let scan := NScan collection rows in
  NExists (if filtered then NFilter scan rows else scan).

(** ** Choosing the access path *)

Definition choose_access (q : FindQuery) (schema : CollectionSchema) (indexes : CollectionIndexes)
    (stats : option CollectionStats) (live_row_count : nat) : Candidate :=
  let row_count := match stats with Some s => st_row_count s | None => live_row_count end in
  let docs field := default row_count (stats ≫= λ s, bt_get field (st_text_field_docs s)) in
  let vectors field := default row_count (stats ≫= λ s, bt_get field (st_vector_count s)) in
  match fq_hybrid q, fq_text_search q, fq_vector q with
  | Some hs, _, _ =>
      let candidates := docs (hs_text_field hs) + vectors (hs_vector_field hs) in
      mkCandidate (AHybrid (hs_text_field hs) (hs_vector_field hs))
        (Nat.min (Nat.max (hs_top_k hs) 1) (Nat.max candidates 1)) (f64_of_nat candidates)
  | None, Some ts, _ =>
      let d := docs (ts_field ts) in
      mkCandidate (ATextRanked (ts_field ts))
        (Nat.max (match fq_limit q with Some l => Nat.min l d | None => d end) 1) (f64_of_nat d)
  | None, None, Some vs =>
      let n := vectors (vs_field vs) in
      mkCandidate (AVector (vs_field vs) (vs_k vs) (vs_metric vs))
        (Nat.min n (Nat.max (vs_k vs) 1)) (f64_of_nat n)
  | None, None, None =>
      min_by cost_cmp
        (match fq_filter q with
         | Some filter => collect_candidates schema indexes stats row_count filter
         | None => []
         end)
        (mkCandidate AScan row_count (f64_of_nat row_count))
  end.

Definition plan_find (q : FindQuery) (schema : CollectionSchema) (indexes : CollectionIndexes)
    (stats : option CollectionStats) (live_row_count : nat) : Plan :=
  let chosen := choose_access q schema indexes stats live_row_count in
  mkPlan (ca_access chosen) (access_used_index (ca_access chosen)) (ca_estimated_rows chosen)
    (ca_cost chosen) (build_tree q chosen).
