(* ===== verification/Cursor.v ===== *)
(** * Cursors

    Models the two ways a result is paged.  [crates/auradb-query/src/cursor.rs]: ranked
    queries are paged by a token that carries the ranking key of the last row, and the
    next page resumes behind that key in the re-evaluated order.
    [crates/auradb-server/src/cursor.rs]: other results are paged by a registry that
    holds the ordered rows and a position.

    The ordered result of a query is an argument here; evaluating it is the planner's
    and the executor's part. *)

From Stdlib Require Import Floats.SpecFloat.
From S2P Require Import Prelude BTree Text Value Core Rank Eval.

Local Open Scope N_scope.

(** ** Scores *)

(** [f32::to_bits] and [f32::from_bits]; there is one NaN. *)
Definition f32_to_bits (x : f32) : N :=
  let sign (s : bool) := if s then 2 ^ 31 else 0 in
  match x with
  | S754_zero s => sign s
  | S754_infinity s => sign s + 255 * 2 ^ 23
  | S754_nan => 255 * 2 ^ 23 + 2 ^ 22
  | S754_finite s m e =>
      if (Z.pos m <? 2 ^ 23)%Z then sign s + N.pos m
      else sign s + Z.to_N (e + 150) * 2 ^ 23 + (N.pos m - 2 ^ 23)
  end.

Definition f32_of_bits (b : N) : f32 :=
  let s := negb (b / 2 ^ 31 =? 0) in
  let e := b / 2 ^ 23 mod 256 in
  let m := b mod 2 ^ 23 in
  if e =? 255 then (if m =? 0 then S754_infinity s else S754_nan)
  else if e =? 0 then
    match m with N0 => S754_zero s | Npos p => S754_finite s p (-149) end
  else match m + 2 ^ 23 with
       | Npos p => S754_finite s p (Z.of_N e - 150)
       | N0 => S754_zero s
       end.

(** A score as an [f32] holds it. *)
Definition f32_ok (x : f32) : bool := valid_binary f32_prec f32_emax x.

(** ** Tokens *)

Definition CURSOR_VERSION : N := 1.
Definition CURSOR_BYTES : nat := 37.

Record CursorState := mkCursor {
  cu_rank_offset : N;
  cu_last_id : RecordId;
  cu_last_score : f32;
  cu_fingerprint : N;
}.

(** FNV-1a over the serialised query, which binds a token to it. *)
Definition fnv1a (bytes : list byte) : N :=
  foldl (λ h b, wrap64 (N.lxor h (Byte.to_N b) * 0x00000100000001b3)) 0xcbf29ce484222325 bytes.

Definition token_bytes (c : CursorState) : list byte :=
  be_bytes 1 CURSOR_VERSION ++ be_bytes 8 (cu_rank_offset c) ++ be_bytes 16 (cu_last_id c)
  ++ be_bytes 4 (f32_to_bits (cu_last_score c)) ++ be_bytes 8 (cu_fingerprint c).

Definition byte_hex (b : byte) : list byte :=
  [hex_char (Byte.to_N b / 16); hex_char (Byte.to_N b mod 16)].

Definition encode_token (c : CursorState) : list byte := mjoin (byte_hex <$> token_bytes c).

(** The loop that fills the buffer; [to_digit(16)] refuses other characters. *)
Fixpoint hex_pairs (l : list byte) : option (list byte) :=
  match l with
  | [] => Some []
  | [_] => None
  | h :: lo :: rest =>
      match hex_value h, hex_value lo with
      | Some a, Some b => (byte_of_N (a * 16 + b) ::.) <$> hex_pairs rest
      | _, _ => None
      end
  end.

Definition decode_token (token : list byte) : Res CursorState :=
  if negb (length token =? 2 * CURSOR_BYTES)%nat then Err EInvalidRequest
  else match hex_pairs token with
       | None => Err EInvalidRequest
       | Some buf =>
           if negb (be_value (slice 0 1 buf) =? CURSOR_VERSION) then Err EInvalidRequest
           else Ok (mkCursor (be_value (slice 1 9 buf)) (be_value (slice 9 25 buf))
                      (f32_of_bits (be_value (slice 25 29 buf))) (be_value (slice 29 37 buf)))
       end.

(** ** Keyset pagination *)

Record Scored := mkScored {
  sc_id : RecordId;
  sc_score : option f32;
  sc_text_score : option f32;
  sc_vector_score : option f32;
}.

Definition score_of (s : Scored) : f32 := default (S754_infinity true) (sc_score s).

Definition after_key (s : Scored) (last_score : f32) (last_id : RecordId) : bool :=
  match default Eq (SFcompare (score_of s) last_score) with
  | Lt => true
  | Gt => false
  | Eq => last_id <? sc_id s
  end.

Record RankedPage := mkPage {
  pg_rows : list Scored;
  pg_next_cursor : option (list byte);
  pg_start_rank : nat;
}.

(** [iter().position(p).unwrap_or(len)]. *)
Fixpoint position_or_len {A} (P : A → bool) (l : list A) : nat :=
  match l with
  | [] => 0
  | x :: l' => if P x then 0 else S (position_or_len P l')
  end.

(** [paginate_ranked], given whether the query has a ranked clause, its fingerprint
    and its ordered result. *)
Definition paginate_ranked (ranked : bool) (fingerprint : N) (ordered : list Scored)
    (page_size : nat) (cursor : option (list byte)) : Res RankedPage :=
  if (page_size =? 0)%nat then Err EInvalidRequest
  else if negb ranked then Err EInvalidRequest
  else
    let? (start, base_rank) :=
      match cursor with
      | None => Ok (0%nat, 0%nat)
      | Some token =>
          let? st := decode_token token in
          if negb (cu_fingerprint st =? fingerprint) then Err EInvalidRequest
          else Ok (position_or_len (λ s, after_key s (cu_last_score st) (cu_last_id st)) ordered,
                   N.to_nat (cu_rank_offset st))
      end in
    let stop := Nat.min (start + page_size) (length ordered) in
    let rows := slice start stop ordered in
    let next_cursor :=
      if (stop <? length ordered)%nat then
        match ordered !! (stop - 1)%nat with
        | Some last => Some (encode_token (mkCursor (N.of_nat (base_rank + length rows))
                                             (sc_id last) (score_of last) fingerprint))
        | None => None
        end
      else None in
    Ok (mkPage rows next_cursor base_rank).

(** A client that follows the cursors, at most [fuel] pages. *)
Fixpoint follow (fuel : nat) (fingerprint : N) (ordered : list Scored) (page_size : nat)
    (cursor : option (list byte)) : Res (list RankedPage) :=
  match fuel with
  | O => Ok []
  | S fuel' =>
      let? page := paginate_ranked true fingerprint ordered page_size cursor in
      match pg_next_cursor page with
      | None => Ok [page]
      | Some token =>
          let? rest := follow fuel' fingerprint ordered page_size (Some token) in
          Ok (page :: rest)
      end
  end.

(** ** Scores and their bits *)

Lemma bits_fields (s : bool) (e m : N) :
  e < 256 → m < 2 ^ 23 →
  let b := (if s then 2 ^ 31 else 0) + e * 2 ^ 23 + m in
  b / 2 ^ 31 = (if s then 1 else 0) ∧ b / 2 ^ 23 mod 256 = e ∧ b mod 2 ^ 23 = m ∧ b < 2 ^ 32.
Proof.
  intros He Hm. cbv zeta. change (2 ^ 31) with (2 ^ 23 * 256). change (2 ^ 32) with (2 ^ 23 * 512).
  set (p := 2 ^ 23) in *.
  assert (Hp : p ≠ 0) by done.
  assert (Hb : (if s then p * 256 else 0) + e * p + m = p * ((if s then 256 else 0) + e) + m)
    by (destruct s; lia).
  rewrite Hb. set (q := (if s then 256 else 0) + e).
  assert (Hdiv : (p * q + m) / p = q) by (symmetry; by apply (N.div_unique _ p q m)).
  assert (Hmod : (p * q + m) mod p = m) by (symmetry; by apply (N.mod_unique _ p q m)).
  rewrite <- (N.Div0.div_div _ p 256), Hdiv, Hmod. unfold q. split_and!.
  - destruct s; [|by rewrite N.div_small].
    symmetry. apply (N.div_unique _ 256 1 e); lia.
  - destruct s; [|by rewrite N.mod_small].
    symmetry. apply (N.mod_unique _ 256 1 e); lia.
  - done.
  - destruct s; nia.
Qed.

Lemma f32_bits_roundtrip x :
  f32_ok x = true → f32_of_bits (f32_to_bits x) = x ∧ f32_to_bits x < 2 ^ 32.
Proof.
  destruct x as [[]|[]| |s m e]; [by vm_compute..|].
  unfold f32_ok, valid_binary, bounded, canonical_mantissa, f32_prec, f32_emax.
  rewrite andb_true_iff, Z.eqb_eq, Z.leb_le. unfold fexp, emin. intros [Hc He].
  pose proof (digits2_pos_bounds m) as [Hlo Hhi]. set (d := Z.pos (digits2_pos m)) in *.
  assert (Hd : (d <= 24)%Z) by lia.
  assert (Hm24 : (Z.pos m < 2 ^ 24)%Z)
    by (pose proof (Z.pow_le_mono_r 2 d 24 ltac:(lia) Hd); lia).
  unfold f32_to_bits. destruct (Z.pos m <? 2 ^ 23)%Z eqn:E.
  - apply Z.ltb_lt in E.
    assert (e = -149)%Z as ->.
    { destruct (Z.eq_dec d 24%Z) as [Heq|]; [|lia]. rewrite Heq in Hlo. change (24 - 1)%Z with 23%Z in Hlo. lia. }
    destruct (bits_fields s 0 (N.pos m)) as (H1 & H2 & H3 & H4); [lia|lia|].
    rewrite N.mul_0_l, N.add_0_r in *. unfold f32_of_bits. rewrite H1, H2, H3.
    split; [by destruct s|done].
  - apply Z.ltb_ge in E.
    assert (Hd24 : d = 24%Z).
    { destruct (Z.le_gt_cases d 23); [|lia].
      pose proof (Z.pow_le_mono_r 2 d 23 ltac:(lia) ltac:(lia)). lia. }
    destruct (bits_fields s (Z.to_N (e + 150)) (N.pos m - 2 ^ 23)) as (H1 & H2 & H3 & H4); [lia|lia|].
    unfold f32_of_bits. rewrite H1, H2, H3. split; [|done].
    rewrite (proj2 (N.eqb_neq _ 255)), (proj2 (N.eqb_neq _ 0)) by lia.
    replace (N.pos m - 2 ^ 23 + 2 ^ 23) with (N.pos m) by lia.
    replace (Z.of_N (Z.to_N (e + 150)) - 150)%Z with e by lia. by destruct s.
Qed.

(** ** Tokens *)

Lemma hex_pairs_bytes l : hex_pairs (mjoin (byte_hex <$> l)) = Some l.
Proof.
  induction l as [|b l IH]; [done|]. rewrite fmap_cons.
  change (mjoin (byte_hex b :: ?x)) with
    (hex_char (Byte.to_N b / 16) :: hex_char (Byte.to_N b mod 16) :: mjoin x).
  pose proof (byte_to_N_lt b) as Hb. cbn [hex_pairs].
  rewrite !hex_value_char by (first [apply N.mod_upper_bound; done|apply N.Div0.div_lt_upper_bound; lia]).
  rewrite IH. simpl.
  replace (Byte.to_N b / 16 * 16 + Byte.to_N b mod 16) with (Byte.to_N b)
    by (rewrite (N.div_mod (Byte.to_N b) 16) at 1 by done; lia).
  by rewrite byte_of_N_to_N.
Qed.

Lemma length_hex l : length (mjoin (byte_hex <$> l)) = (2 * length l)%nat.
Proof.
  induction l as [|b l IH]; [done|]. rewrite fmap_cons.
  change (mjoin (byte_hex b :: ?x)) with (byte_hex b ++ mjoin x).
  rewrite length_app, IH. simpl. lia.
Qed.

Definition cursor_ok (c : CursorState) : Prop :=
  cu_rank_offset c < 2 ^ 64 ∧ cu_last_id c < 2 ^ 128 ∧ f32_ok (cu_last_score c) = true ∧
  cu_fingerprint c < 2 ^ 64.

Lemma decode_encode_token c : cursor_ok c → decode_token (encode_token c) = Ok c.
Proof.
  intros (Hr & Hi & Hs & Hf). destruct (f32_bits_roundtrip _ Hs) as [Hbits Hlt].
  unfold decode_token, encode_token. rewrite length_hex, hex_pairs_bytes.
  assert (Hl : length (token_bytes c) = 37%nat)
    by (unfold token_bytes; by rewrite !length_app, !length_be_bytes).
  rewrite Hl, Nat.eqb_refl. cbn [negb].
  assert (Hfields : be_value (slice 0 1 (token_bytes c)) = 1 ∧
    be_value (slice 1 9 (token_bytes c)) = cu_rank_offset c ∧
    be_value (slice 9 25 (token_bytes c)) = cu_last_id c ∧
    be_value (slice 25 29 (token_bytes c)) = f32_to_bits (cu_last_score c) ∧
    be_value (slice 29 37 (token_bytes c)) = cu_fingerprint c).
  { unfold token_bytes. rewrite <- (app_nil_r (be_bytes 8 (cu_fingerprint c))).
    split_and!;
      repeat (rewrite slice_app_r by (rewrite ?length_be_bytes; lia));
      rewrite ?length_be_bytes; simpl Nat.sub;
      rewrite slice_app_l by apply length_be_bytes; by apply be_value_be_bytes. }
  destruct Hfields as (-> & -> & -> & -> & ->). rewrite Hbits. by destruct c.
Qed.

(** ** Pages *)

(** The order of ranked results: score descending, ties by id. *)
Definition rank_lt (a b : Scored) : Prop :=
  match SFcompare (score_of a) (score_of b) with
  | Some Gt => True
  | Some Eq => sc_id a < sc_id b
  | _ => False
  end.

Definition row_ok (s : Scored) : Prop := f32_ok (score_of s) = true ∧ sc_id s < 2 ^ 128.

Record ranked_ok (ordered : list Scored) : Prop := {
  ro_sorted : StronglySorted rank_lt ordered;
  ro_rows : Forall row_ok ordered;
  ro_length : N.of_nat (length ordered) < 2 ^ 64;
}.

(** Every page starts at the rank the pages before it reached. *)
Fixpoint ranks_from (n : nat) (pages : list RankedPage) : Prop :=
  match pages with
  | [] => True
  | p :: rest => pg_start_rank p = n ∧ ranks_from (n + length (pg_rows p)) rest
  end.

Lemma SFcompare_refl x : SFcompare x x = Some Eq ∨ SFcompare x x = None.
Proof.
  destruct x as [[]|[]| |[] m e]; simpl; auto; left; rewrite Z.compare_refl;
    change (Pos.compare_cont Eq m m) with (Pos.compare m m); by rewrite Pos.compare_refl.
Qed.

Lemma after_key_later a b : rank_lt a b → after_key b (score_of a) (sc_id a) = true.
Proof.
  unfold rank_lt, after_key. rewrite (SFcompare_swap (score_of a)).
  destruct (SFcompare _ _) as [[]|]; try done. simpl. intros Hlt. by apply N.ltb_lt.
Qed.

Lemma after_key_earlier a b : b = a ∨ rank_lt b a → after_key b (score_of a) (sc_id a) = false.
Proof.
  unfold rank_lt, after_key. intros [->|Hlt].
  - destruct (SFcompare_refl (score_of a)) as [-> | ->]; simpl; apply N.ltb_irrefl.
  - destruct (SFcompare (score_of b) (score_of a)) as [[]|]; try done. simpl.
    apply N.ltb_ge. lia.
Qed.

Lemma position_or_len_split {A} (P : A → bool) l k :
  Forall (λ x, P x = false) l → Forall (λ x, P x = true) k → position_or_len P (l ++ k) = length l.
Proof.
  intros Hl Hk. induction Hl as [|x l Hx _ IH]; simpl.
  - destruct k as [|y k]; [done|]. apply Forall_cons in Hk as [Hy _]. simpl. by rewrite Hy.
  - by rewrite Hx, IH.
Qed.

Lemma sorted_app_lt l k a b :
  StronglySorted rank_lt (l ++ k) → a ∈ l → b ∈ k → rank_lt a b.
Proof.
  induction l as [|x l IH]; simpl; [set_solver|]. intros Hs Ha Hb.
  inversion Hs as [|? ? Hs' Hx]; subst. apply elem_of_cons in Ha as [->|Ha]; [|by apply IH].
  rewrite Forall_forall in Hx. apply Hx. set_solver.
Qed.

(** Resuming behind the last row of a page finds the first row of the next. *)
Lemma resume_position ordered n last :
  StronglySorted rank_lt ordered → ordered !! n = Some last →
  position_or_len (λ s, after_key s (score_of last) (sc_id last)) ordered = S n.
Proof.
  intros Hs Hn. pose proof (lookup_lt_Some _ _ _ Hn) as Hlt.
  rewrite <- (take_drop (S n) ordered) at 1. rewrite position_or_len_split.
  - rewrite length_take. lia.
  - apply Forall_forall. intros x Hx. apply after_key_earlier.
    rewrite (take_S_r _ _ _ Hn) in Hx. apply elem_of_app in Hx as [Hx|Hx]; [|set_solver].
    right. rewrite <- (take_drop n ordered) in Hs. eapply sorted_app_lt; [exact Hs|done|].
    rewrite (drop_S _ _ _ Hn). by left.
  - apply Forall_forall. intros x Hx. apply after_key_later.
    rewrite <- (take_drop (S n) ordered) in Hs. eapply sorted_app_lt; [exact Hs| |done].
    rewrite (take_S_r _ _ _ Hn). apply elem_of_app. right. by left.
Qed.

(** The token of a client that has seen [n] rows. *)
Definition cursor_at (fingerprint : N) (ordered : list Scored) (n : nat) : option (list byte) :=
  match n with
  | O => None
  | S m => match ordered !! m with
           | Some last => Some (encode_token (mkCursor (N.of_nat n) (sc_id last) (score_of last)
                                                fingerprint))
           | None => None
           end
  end.

Lemma page_at fingerprint ordered page_size n :
  ranked_ok ordered → fingerprint < 2 ^ 64 → (0 < page_size)%nat → (n ≤ length ordered)%nat →
  let stop := Nat.min (n + page_size) (length ordered) in
  paginate_ranked true fingerprint ordered page_size (cursor_at fingerprint ordered n) =
    Ok (mkPage (slice n stop ordered)
          (if (stop <? length ordered)%nat then cursor_at fingerprint ordered stop else None) n).
Proof.
  intros [Hs Hrows Hlen] Hf Hps Hn stop. unfold paginate_ranked.
  rewrite (proj2 (Nat.eqb_neq page_size 0)) by lia. cbn [negb].
  assert (Hstart : match cursor_at fingerprint ordered n with
      | None => Ok (0%nat, 0%nat)
      | Some token =>
          let? st := decode_token token in
          if negb (cu_fingerprint st =? fingerprint) then Err EInvalidRequest
          else Ok (position_or_len (λ s, after_key s (cu_last_score st) (cu_last_id st)) ordered,
                   N.to_nat (cu_rank_offset st))
      end = Ok (E := Error) (n, n)).
  { unfold cursor_at. destruct n as [|m]; [done|].
    destruct (lookup_lt_is_Some_2 ordered m) as [last Hlast]; [lia|]. rewrite Hlast.
    rewrite Forall_lookup in Hrows. destruct (Hrows _ _ Hlast) as [Hsc Hid].
    rewrite decode_encode_token by (split_and!; simpl; done || lia). cbn [res_bind cu_fingerprint].
    rewrite N.eqb_refl. cbn [negb cu_last_score cu_last_id cu_rank_offset].
    by rewrite (resume_position _ m), Nat2N.id. }
  rewrite Hstart. cbn [res_bind]. fold stop. f_equal. f_equal.
  destruct (stop <? length ordered)%nat eqn:Est; [|done]. apply Nat.ltb_lt in Est.
  assert (Hstop : (n < stop)%nat) by lia. unfold cursor_at.
  destruct stop as [|m] eqn:Em; [lia|]. rewrite Nat.sub_succ, Nat.sub_0_r.
  destruct (ordered !! m); [|done]. rewrite length_slice by lia.
  by replace (n + (S m - n))%nat with (S m) by lia.
Qed.

Lemma follow_from fingerprint ordered page_size :
  ranked_ok ordered → fingerprint < 2 ^ 64 → (0 < page_size)%nat →
  ∀ fuel n, (n ≤ length ordered)%nat → (length ordered - n < fuel)%nat →
  ∃ pages, follow fuel fingerprint ordered page_size (cursor_at fingerprint ordered n) = Ok pages ∧
    mjoin (pg_rows <$> pages) = drop n ordered ∧ ranks_from n pages ∧
    Forall (λ p, (length (pg_rows p) ≤ page_size)%nat) pages.
Proof.
  intros Hok Hf Hps. induction fuel as [|fuel IH]; intros n Hn Hfuel; [lia|].
  cbn [follow]. rewrite page_at by done. cbn [res_bind pg_next_cursor].
  set (stop := Nat.min (n + page_size) (length ordered)).
  assert (Hrows : length (slice n stop ordered) = (stop - n)%nat) by (apply length_slice; lia).
  destruct (stop <? length ordered)%nat eqn:Est.
  - apply Nat.ltb_lt in Est.
    destruct (IH stop) as (pages & Hp & Hj & Hr & Hl); [lia|lia|].
    destruct (cursor_at fingerprint ordered stop) as [token|] eqn:Ec.
    2:{ unfold cursor_at in Ec. destruct stop as [|m] eqn:Em; [lia|].
        destruct (lookup_lt_is_Some_2 ordered m) as [x Hx]; [lia|]. by rewrite Hx in Ec. }
    rewrite Hp. eexists. split; [done|]. split_and!.
    + rewrite fmap_cons. change (mjoin (?x :: ?y)) with (x ++ mjoin y). cbn [pg_rows].
      rewrite Hj. unfold slice.
      replace (drop stop ordered) with (drop (stop - n) (drop n ordered))
        by (rewrite drop_drop; f_equal; lia).
      apply take_drop.
    + split; [done|]. cbn [pg_rows]. rewrite Hrows. by replace (n + (stop - n))%nat with stop by lia.
    + constructor; [|done]. cbn [pg_rows]. lia.
  - apply Nat.ltb_ge in Est. eexists. split; [done|]. split_and!.
    + simpl. rewrite app_nil_r. unfold slice. apply take_ge. rewrite length_drop. lia.
    + by split.
    + constructor; [|constructor]. cbn [pg_rows]. lia.
Qed.

(** Ranked pagination.  A client that follows the cursors of a ranked query receives
    the whole ordered result: every row once and in order, pages of at most the
    requested size, with continuous ranks, and the last page has no cursor. *)
Theorem ranked_pages_complete fingerprint ordered page_size :
  ranked_ok ordered → fingerprint < 2 ^ 64 → (0 < page_size)%nat →
  ∃ pages, follow (S (length ordered)) fingerprint ordered page_size None = Ok pages ∧
    mjoin (pg_rows <$> pages) = ordered ∧ ranks_from 0 pages ∧
    Forall (λ p, (length (pg_rows p) ≤ page_size)%nat) pages.
Proof.
  intros Hok Hf Hps. apply (follow_from fingerprint ordered page_size Hok Hf Hps _ 0); lia.
Qed.

(** Cursor tokens.  A token decodes to the state it was made from (offset, record id,
    score bit for bit, fingerprint), is 74 characters long, and is refused for a
    query with another fingerprint. *)
Theorem cursor_token_roundtrip c other ordered page_size :
  cursor_ok c → other ≠ cu_fingerprint c → (0 < page_size)%nat →
  decode_token (encode_token c) = Ok c ∧ length (encode_token c) = 74%nat ∧
  paginate_ranked true other ordered page_size (Some (encode_token c)) = Err EInvalidRequest.
Proof.
  intros Hc Hne Hps. split_and!.
  - by apply decode_encode_token.
  - unfold encode_token. rewrite length_hex. unfold token_bytes.
    by rewrite !length_app, !length_be_bytes.
  - unfold paginate_ranked. rewrite (proj2 (Nat.eqb_neq page_size 0)) by lia. cbn [negb].
    rewrite decode_encode_token by done. cbn [res_bind].
    by rewrite (proj2 (N.eqb_neq (cu_fingerprint c) other)) by congruence.
Qed.

Lemma ranked_pages_complete_witness :
  let row id score := mkScored id (Some score) None None in
  let ordered := [row 7 (f32_of_f64 (f64_of_i64 3)); row 2 (f32_of_f64 (f64_of_i64 1));
                  row 5 (f32_of_f64 (f64_of_i64 1))] in
  ∃ pages, follow 4 99 ordered 2 None = Ok pages ∧ mjoin (pg_rows <$> pages) = ordered.
Proof.
  intros row ordered.
  destruct (ranked_pages_complete 99 ordered 2) as (pages & Hp & Hj & _).
  - split; [|by repeat constructor|by vm_compute].
    repeat first [apply SSorted_cons|apply SSorted_nil|apply Forall_cons_2|apply Forall_nil_2];
      by vm_compute.
  - by vm_compute.
  - lia.
  - exists pages. split; [exact Hp|exact Hj].
Defined.

Lemma cursor_token_roundtrip_witness :
  let c := mkCursor 42 0x123456789abc (f32_of_f64 (f64_of_i64 3)) 0xdeadbeef in
  decode_token (encode_token c) = Ok c.
Proof.
  intros c. refine (proj1 (cursor_token_roundtrip c 1 [] 1 _ _ _)).
  - by repeat split.
  - by vm_compute.
  - lia.
Defined.

(** ** The cursor registry of the server *)

Section registry.
(** The query a cursor belongs to, and the rows its page is turned into. *)
Context {Query Row : Type}.
Context (materialize : Query → list Scored → nat → Res (list Row)).

Record CursorEntry := mkCursorEntry {
  ce_query : Query;
  ce_ordered : list Scored;
  ce_position : nat;
  ce_base_rank : nat;
  ce_last_used : N;
}.

Record Registry := mkRegistry {
  rg_next_id : N;
  rg_cursors : gmap N CursorEntry;
}.

Definition registry_new : Registry := mkRegistry 1 ∅.

Definition open_at (query : Query) (ordered : list Scored) (base_rank : nat) (now : N)
    (reg : Registry) : Registry * N :=
  let id := rg_next_id reg in
  (mkRegistry (id + 1) (<[id := mkCursorEntry query ordered 0 base_rank now]> (rg_cursors reg)), id).

Definition close_cursor (id : N) (reg : Registry) : Registry * bool :=
  (mkRegistry (rg_next_id reg) (delete id (rg_cursors reg)),
   bool_decide (is_Some (rg_cursors reg !! id))).

(** The part of [fetch_with] under the lock: the position moves before the page is turned
    into rows.  Returns the query, the page, its first rank and whether more follows. *)
Definition take_page (id : N) (limit : nat) (now : N)
  : SE Registry Error (Query * list Scored * nat * bool) := λ reg,
  match rg_cursors reg !! id with
  | None => (reg, Err ENotFound)
  | Some entry =>
      let start := ce_position entry in
      let stop := Nat.min (ce_position entry + Nat.max limit 1) (length (ce_ordered entry)) in
      let page_ids := slice start stop (ce_ordered entry) in
      let more := (stop <? length (ce_ordered entry))%nat in
      let entry := mkCursorEntry (ce_query entry) (ce_ordered entry) stop (ce_base_rank entry) now in
      (mkRegistry (rg_next_id reg) (<[id := entry]> (rg_cursors reg)),
       Ok (ce_query entry, page_ids, (ce_base_rank entry + start)%nat, more))
  end.

(** [fetch_with] over rows that are made without side effects. *)
Definition fetch_with (id : N) (limit : nat) (now : N)
  : SE Registry Error (list Row * bool) :=
  page <~ take_page id limit now ;;
  let '(query, page_ids, start_rank, more) := page in
  λ reg, match materialize query page_ids start_rank with
         | Err e => (reg, Err e)
         | Ok rows => ((if more then reg else (close_cursor id reg).1), Ok (rows, more))
         end.

(** [reap]: cursors idle for the timeout or longer go. *)
Definition reap_cursors (timeout now : N) (reg : Registry) : Registry * nat :=
  let kept := filter (λ kv, now - ce_last_used kv.2 < timeout) (rg_cursors reg) in
  (mkRegistry (rg_next_id reg) kept, (size (rg_cursors reg) - size kept)%nat).

(** A client that fetches until the cursor reports the end. *)
Fixpoint drain (fuel : nat) (id : N) (limit : nat) (now : N)
  : SE Registry Error (list Row) := λ reg,
  match fuel with
  | O => (reg, Ok [])
  | S fuel' =>
      match fetch_with id limit now reg with
      | (reg, Err e) => (reg, Err e)
      | (reg, Ok (rows, more)) =>
          if more then
            match drain fuel' id limit now reg with
            | (reg, Ok rest) => (reg, Ok (rows ++ rest))
            | (reg, Err e) => (reg, Err e)
            end
          else (reg, Ok rows)
      end
  end.

(** Rows are made one by one from the rows of the result and their ranks. *)
Definition row_wise (row : Query → Scored → nat → Row) : Prop :=
  ∀ q page start, materialize q page start =
    Ok (imap (λ k s, row q s (start + k)%nat) page).

Lemma drain_from row id limit now q ordered base :
  row_wise row → ∀ fuel pos used reg,
  rg_cursors reg !! id = Some (mkCursorEntry q ordered pos base used) →
  (pos ≤ length ordered)%nat → (length ordered - pos < fuel)%nat →
  ∃ reg', drain fuel id limit now reg =
    (reg', Ok (imap (λ k s, row q s (base + pos + k)%nat) (drop pos ordered))) ∧
    rg_cursors reg' !! id = None ∧ (∀ j, j ≠ id → rg_cursors reg' !! j = rg_cursors reg !! j).
Proof.
  intros Hrow. induction fuel as [|fuel IH]; intros pos used reg He Hpos Hfuel; [lia|].
  cbn [drain]. unfold fetch_with, se_bind, take_page. rewrite He.
  cbn [ce_position ce_ordered ce_query ce_base_rank].
  set (stop := Nat.min (pos + Nat.max limit 1) (length ordered)).
  rewrite (Hrow q). destruct (stop <? length ordered)%nat eqn:Est.
  - apply Nat.ltb_lt in Est.
    destruct (IH stop now (mkRegistry (rg_next_id reg)
      (<[id := mkCursorEntry q ordered stop base now]> (rg_cursors reg))))
      as (reg' & Hd & Hn & Ho); [by simpl; rewrite lookup_insert_eq|lia|lia|].
    rewrite Hd. exists reg'. split_and!; [|done|].
    + do 2 f_equal.
      replace (drop pos ordered) with (slice pos stop ordered ++ drop stop ordered).
      2:{ unfold slice. replace (drop stop ordered) with (drop (stop - pos) (drop pos ordered))
            by (rewrite drop_drop; f_equal; lia). apply take_drop. }
      rewrite imap_app. f_equal. rewrite length_slice by lia. apply imap_ext. intros k s _. simpl.
      f_equal. lia.
    + intros j Hj. rewrite Ho by done. simpl. by rewrite lookup_insert_ne.
  - apply Nat.ltb_ge in Est. eexists. split_and!; [| |].
    + do 2 f_equal. unfold slice. rewrite take_ge by (rewrite length_drop; lia). done.
    + simpl. apply lookup_delete_eq.
    + intros j Hj. simpl. by rewrite lookup_delete_ne, lookup_insert_ne.
Qed.

(** Server cursors.  A cursor that is opened and fetched to the end delivers every
    row of its result once, in order and with continuous ranks, whatever the page
    size; it is closed with the last page, and other cursors are not disturbed. *)
Theorem server_cursor_complete row query ordered base limit now used reg :
  row_wise row →
  let '(reg1, id) := open_at query ordered base used reg in
  ∃ reg', drain (S (length ordered)) id limit now reg1 =
    (reg', Ok (imap (λ k s, row query s (base + k)%nat) ordered)) ∧
    rg_cursors reg' !! id = None ∧
    ∀ j, j ≠ id → rg_cursors reg' !! j = rg_cursors reg !! j.
Proof.
  intros Hrow. cbn [open_at].
  destruct (drain_from row (rg_next_id reg) limit now query ordered base Hrow
    (S (length ordered)) 0 used (open_at query ordered base used reg).1)
    as (reg' & Hd & Hn & Ho); [by simpl; rewrite lookup_insert_eq|lia|lia|].
  exists reg'. cbn [open_at fst] in Hd, Ho. split_and!; [|done|].
  - rewrite Hd, drop_0. do 2 f_equal. apply imap_ext. intros k s _. f_equal. lia.
  - intros j Hj. rewrite Ho by done. simpl. by rewrite lookup_insert_ne.
Qed.
End registry.

Lemma server_cursor_complete_witness :
  let row := λ (q : unit) (s : Scored) (rank : nat), (sc_id s, rank) in
  let mat := λ (q : unit) page start,
    Ok (E := Error) (imap (λ k s, row q s (start + k)%nat) page) in
  let s := λ id, mkScored id None None None in
  ∃ reg', drain mat 4 1 2 0 (open_at tt [s 4; s 9; s 6] 10 0 registry_new).1 =
    (reg', Ok [(4, 10%nat); (9, 11%nat); (6, 12%nat)]).
Proof.
  intros row mat s.
  destruct (server_cursor_complete mat row tt [s 4; s 9; s 6] 10 2 0 0 registry_new)
    as (reg' & Hd & _); [done|].
  exists reg'. exact Hd.
Defined.
