(* ===== verification/IndexSnapshot.v ===== *)
(** * Index snapshots

    Models the persistence of indexes: [snapshot] and [from_snapshot] of
    [crates/auradb-index/src/lib.rs], the content [fingerprint] of a collection, the file
    format and the directory of [crates/auradb-index/src/persist.rs], and what the engine
    does with them ([persist_indexes] and the loading in [open_with] of
    [crates/auradb/src/engine.rs]).

    The JSON encoding of a snapshot is a parameter.  The maps are written in the order in
    which they are iterated and read back into maps, so the order is immaterial; here it
    is that of [map_to_list].  Files are replaced atomically. *)

From Stdlib Require Import Floats.SpecFloat.
From S2P Require Import Prelude Sorting BTree Text Framing Value Core Eval Index Cursor.

Local Open Scope N_scope.

(** ** Snapshots *)

Record UniqueIndexData := mkUniqueData { ud_field : string; ud_entries : list (string * N) }.
Record SecondaryIndexData := mkSecondaryData { sd_field : string; sd_entries : list (string * list N) }.
Record VectorIndexData := mkVectorData {
  vd_field : string;
  vd_dim : nat;
  vd_entries : list (N * list f32);
}.
Record TextIndexData := mkTextData {
  td_field : string;
  td_postings : list (string * list (N * N));
  td_doc_lengths : list (N * N);
}.
Record HnswMetadata := mkHnswMetadata {
  hm_field : string;
  hm_dim : nat;
  hm_vector_count : nat;
  hm_generation : N;
}.

Record IndexSnapshot := mkSnapshot {
  is_format_version : N;
  is_schema_version : N;
  is_fingerprint : N;
  is_primary_field : option string;
  is_unique : list UniqueIndexData;
  is_secondary : list SecondaryIndexData;
  is_document_paths : list SecondaryIndexData;
  is_vectors : list VectorIndexData;
  is_text : list TextIndexData;
  is_hnsw : list HnswMetadata;
}.

Definition INDEX_FORMAT_VERSION : N := 1.

(** FNV-1a over the id and the version of every record, in scan order. *)
Definition fingerprint (records : list Rec) : N :=
  fnv1a (mjoin ((λ r, be_bytes 16 (rec_id r) ++ rev (be_bytes 8 (rec_version r))) <$> records)).

Definition ann_preview_status (ci : CollectionIndexes) (generation : N) : list HnswMetadata :=
  sort_by (λ a b, String.compare (hm_field a) (hm_field b))
    ((λ '(field, vi), mkHnswMetadata field (vi_dim vi) (size (vi_entries vi)) generation)
       <$> map_to_list (ci_vector_maps ci)).

Definition snapshot (ci : CollectionIndexes) (schema_version fp : N) : IndexSnapshot :=
  let postings (m : gmap string (gmap string (list N))) :=
    (λ '(field, map), mkSecondaryData field (map_to_list map)) <$> map_to_list m in
  mkSnapshot INDEX_FORMAT_VERSION schema_version fp (ci_primary_field ci)
    ((λ '(field, map), mkUniqueData field (map_to_list map)) <$> map_to_list (ci_unique_maps ci))
    (postings (ci_secondary_maps ci)) (postings (ci_doc_path_maps ci))
    ((λ '(field, vi), mkVectorData field (vi_dim vi) (map_to_list (vi_entries vi)))
       <$> map_to_list (ci_vector_maps ci))
    ((λ '(field, ti), mkTextData field
        ((λ '(term, m), (term, map_to_list m)) <$> map_to_list (ti_postings ti))
        (map_to_list (ti_doc_lengths ti))) <$> map_to_list (ci_text_maps ci))
    (ann_preview_status ci fp).

(** [HashMap::extend]. *)
Definition extend {K V} `{Countable K} (entries : list (K * V)) (m : gmap K V) : gmap K V :=
  foldl (λ m '(k, v), <[k := v]> m) m entries.

(** [TextIndex::rebuild_lengths]. *)
Definition rebuild_lengths (ti : TextIndex) : TextIndex :=
  let lengths := foldl (λ lengths '(_, m), foldl (λ lengths '(id, tf),
                          <[id := default 0 (lengths !! id) + tf]> lengths) lengths (map_to_list m))
                   (∅ : gmap N N) (map_to_list (ti_postings ti)) in
  mkTextIndex (ti_postings ti) lengths (foldl (λ acc '(_, l), acc + l) 0 (map_to_list lengths)).

Definition load_text (t : TextIndexData) (ti : TextIndex) : TextIndex :=
  let postings := foldl (λ ps '(term, posting),
                    <[term := extend posting (default ∅ (ps !! term))]> ps)
                    (ti_postings ti) (td_postings t) in
  match td_doc_lengths t with
  | [] => rebuild_lengths (mkTextIndex postings (ti_doc_lengths ti) (ti_total_tokens ti))
  | lengths =>
      mkTextIndex postings
        (foldl (λ m '(id, len), <[id := default 0 (m !! id) + len]> m) (ti_doc_lengths ti) lengths)
        (foldl (λ acc '(_, len), acc + len) (ti_total_tokens ti) lengths)
  end.

(** The loop over the vector fields, which checks their dimension. *)
Fixpoint load_vectors (vectors : list VectorIndexData) (m : gmap string ExactVectorIndex)
  : Res (gmap string ExactVectorIndex) :=
  match vectors with
  | [] => Ok m
  | v :: rest =>
      match m !! vd_field v with
      | None => load_vectors rest m
      | Some vi =>
          if negb (vi_dim vi =? vd_dim v)%nat then Err ECorruption
          else load_vectors rest
                 (<[vd_field v := foldl (λ vi '(id, x), vector_insert id x vi) vi (vd_entries v)]> m)
      end
  end.

(** The fields of the schema and of the snapshot agree. *)
Definition same_fields (ci : CollectionIndexes) (s : IndexSnapshot) : bool :=
  bool_decide (dom (ci_unique_maps ci) = list_to_set (ud_field <$> is_unique s)) &&
  bool_decide (dom (ci_secondary_maps ci) = list_to_set (sd_field <$> is_secondary s)) &&
  bool_decide (dom (ci_vector_maps ci) = list_to_set (vd_field <$> is_vectors s)) &&
  bool_decide (dom (ci_doc_path_maps ci) = list_to_set (sd_field <$> is_document_paths s)) &&
  bool_decide (dom (ci_text_maps ci) = list_to_set (td_field <$> is_text s)).

(** The [get_mut]s behind the check of the fields do not fail, and [alter] does nothing on
    a field that is not there.  The preview metadata is kept for status reports only. *)
Definition from_snapshot (schema : CollectionSchema) (s : IndexSnapshot) : Res CollectionIndexes :=
  let idx := from_schema schema in
  if negb (bool_decide (ci_primary_field idx = is_primary_field s)) then Err ECorruption
  else if negb (same_fields idx s) then Err ECorruption
  else
    let unique := foldl (λ m u, alter (extend (ud_entries u)) (ud_field u) m) (ci_unique_maps idx)
                    (is_unique s) in
    let load_postings := foldl (λ m d, alter (extend (sd_entries d)) (sd_field d) m) in
    let secondary := load_postings (ci_secondary_maps idx) (is_secondary s) in
    let doc_paths := load_postings (ci_doc_path_maps idx) (is_document_paths s) in
    let text := foldl (λ m t, alter (load_text t) (td_field t) m) (ci_text_maps idx) (is_text s) in
    let? vectors := load_vectors (is_vectors s) (ci_vector_maps idx) in
    Ok (mkIndexes (ci_primary_field idx) (ci_unique_fields idx) (ci_secondary_fields idx)
          unique secondary doc_paths text vectors).

(** ** Files *)

(** [serde_json] on a snapshot. *)
Class SnapshotCodec := {
  snapshot_to_json : IndexSnapshot → list byte;
  snapshot_of_json : list byte → option IndexSnapshot;
}.

(** JSON has no infinities and no NaN, and the parser need not read every other float back;
    the rest of a snapshot is integers and texts. *)
Definition snapshot_safe `{FloatText} (s : IndexSnapshot) : Prop :=
  Forall (λ v, Forall (λ e, Forall (λ x, float_finite x = true ∧ f32_reads_back x = true) e.2)
                 (vd_entries v)) (is_vectors s).
Class SnapshotCodecLaws `{FloatText, SnapshotCodec} : Prop :=
  snapshot_json_roundtrip : ∀ s, snapshot_safe s → snapshot_of_json (snapshot_to_json s) = Some s.

Definition INDEX_MAGIC : list byte := bytes_of "AIDX".
Definition INDEX_HEADER_LEN : nat := 16.

Section files.
Context `{Crc32, SnapshotCodec}.

Definition write_snapshot (s : IndexSnapshot) : list byte :=
  let payload := snapshot_to_json s in
  INDEX_MAGIC ++ be_bytes 4 INDEX_FORMAT_VERSION ++ be_bytes 4 (N.of_nat (length payload)) ++
  be_bytes 4 (crc32 payload) ++ payload.

Definition read_snapshot (buf : list byte) : Res IndexSnapshot :=
  if ((length buf <? INDEX_HEADER_LEN)%nat || negb (bool_decide (slice 0 4 buf = INDEX_MAGIC)))%bool
  then Err ECorruption
  else if negb (be_value (slice 4 8 buf) =? INDEX_FORMAT_VERSION) then Err ECorruption
  else
    let len := N.to_nat (be_value (slice 8 12 buf)) in
    let crc := be_value (slice 12 16 buf) in
    if (length buf <? INDEX_HEADER_LEN + len)%nat then Err ECorruption
    else
      let payload := slice INDEX_HEADER_LEN (INDEX_HEADER_LEN + len) buf in
      if negb (crc32 payload =? crc) then Err ECorruption
      else match snapshot_of_json payload with Some s => Ok s | None => Err ECorruption end.

Definition index_filename (collection : string) : string :=
  (string_of (hex_digits 16 (fnv1a (bytes_of collection))) ++ ".idx")%string.

(** The index directory: the manifest, when it can be read, and the snapshot files. *)
Record IndexDir := mkIndexDir {
  id_manifest : option (list (string * string));
  id_files : gmap string (list byte);
}.

(** What [open_with] loads for a collection. *)
Definition load_index (dir : IndexDir) (schema : CollectionSchema) (records : list Rec)
  : option CollectionIndexes :=
  file ← id_manifest dir ≫= bt_get (cs_name schema);
  buf ← id_files dir !! file;
  match read_snapshot buf with
  | Ok s =>
      if is_fingerprint s =? fingerprint records
      then match from_snapshot schema s with Ok ci => Some ci | Err _ => None end
      else None
  | Err _ => None
  end.

(** [name.ends_with(".idx")]. *)
Definition is_idx_file (name : string) : bool :=
  bool_decide (slice (length (bytes_of name) - 4) (length (bytes_of name)) (bytes_of name)
               = bytes_of ".idx").

Definition persist_step (schema_version : N) (scan : string → list Rec)
    (state : gmap string (list byte) * list (string * string)) (index : string * CollectionIndexes)
  : gmap string (list byte) * list (string * string) :=
  let '(files, named) := state in
  let '(name, ci) := index in
  let file := index_filename name in
  (<[file := write_snapshot (snapshot ci schema_version (fingerprint (scan name)))]> files,
   bt_insert name file named).

(** One snapshot per index, then the files of other collections are removed and the
    manifest is replaced. *)
Definition persist_indexes (schema_version : N) (scan : string → list Rec)
    (indexes : gmap string CollectionIndexes) (dir : IndexDir) : IndexDir :=
  let '(files, named) := foldl (persist_step schema_version scan) (id_files dir, []) (map_to_list indexes) in
  mkIndexDir (Some named)
    (filter (λ x, is_idx_file x.1 = false ∨ x.1 ∈ named.*2) files).
End files.

(** ** Reading back what was written *)

Section maps.
Context {K : Type} `{Countable K} {V W : Type}.

(** A loop that sets one entry per key gives the map of the entries. *)
Lemma fold_entries (g : W → option V → V) (l : list (K * W)) : ∀ acc : gmap K V,
  NoDup l.*1 → (∀ k, k ∈ l.*1 → acc !! k = None) →
  foldl (λ m '(k, w), <[k := g w (m !! k)]> m) acc l
  = list_to_map ((λ e, (e.1, g e.2 None)) <$> l) ∪ acc.
Proof.
  induction l as [|[k w] l IH]; intros acc Hnd Hacc; [simpl; by rewrite (left_id_L ∅ (∪))|].
  rewrite fmap_cons in Hnd. apply NoDup_cons in Hnd as [Hk Hnd]. cbn [foldl].
  rewrite (Hacc k) by (by left). rewrite IH; [|done|].
  - rewrite fmap_cons, list_to_map_cons. cbn [fst snd]. rewrite <- insert_union_r, insert_union_l; [done|].
    apply not_elem_of_list_to_map_1. rewrite <- list_fmap_compose. exact Hk.
  - intros k' Hk'. rewrite lookup_insert_ne by (intros ->; done). apply Hacc. by right.
Qed.

Lemma fold_map (g : W → option V → V) (m : gmap K W) :
  foldl (λ m '(k, w), <[k := g w (m !! k)]> m) ∅ (map_to_list m) = (λ w, g w None) <$> m.
Proof.
  rewrite fold_entries, map_union_empty; [|apply NoDup_fst_map_to_list|done].
  apply map_eq. intros k. rewrite lookup_fmap. apply option_eq. intros v.
  rewrite fmap_Some, <- elem_of_list_to_map.
  - rewrite list_elem_of_fmap. split.
    + intros ([k' w] & [= -> ->] & Hin%elem_of_map_to_list). eauto.
    + intros (w & Hw & ->). exists (k, w). by rewrite elem_of_map_to_list.
  - rewrite <- list_fmap_compose. apply NoDup_fst_map_to_list.
Qed.
End maps.

Lemma extend_map {K V} `{Countable K} (m : gmap K V) : extend (map_to_list m) ∅ = m.
Proof.
  unfold extend. rewrite (fold_map (λ v _, v) m). apply map_eq. intros k. by rewrite lookup_fmap, option_fmap_id.
Qed.

(** Loading the data of every field into maps that are empty but for the fields. *)
Lemma alter_fields {A D} (mk : string * A → D) (field : D → string) (f : D → A → A)
    (m base : gmap string A) :
  (∀ p, field (mk p) = p.1) → dom base = dom m →
  (∀ k x b, m !! k = Some x → base !! k = Some b → f (mk (k, x)) b = x) →
  foldl (λ acc d, alter (f d) (field d) acc) base (mk <$> map_to_list m) = m.
Proof.
  intros Hmk Hdom Hf.
  assert (Hloop : ∀ l (acc : gmap string A) k, NoDup (l : list (string * A)).*1 →
    foldl (λ acc d, alter (f d) (field d) acc) acc (mk <$> l) !! k =
      match (list_to_map l : gmap string A) !! k with
      | Some x => f (mk (k, x)) <$> acc !! k
      | None => acc !! k
      end).
  { induction l as [|[k' x] l IH]; intros acc k Hnd; [done|]. rewrite fmap_cons in Hnd.
    apply NoDup_cons in Hnd as [Hk Hnd]. rewrite fmap_cons. cbn [foldl]. rewrite IH by done.
    rewrite Hmk. cbn [fst list_to_map foldr]. destruct (decide (k = k')) as [->|Hne].
    - rewrite (not_elem_of_list_to_map_1 l k') by done. simpl. rewrite lookup_insert_eq.
      by rewrite lookup_alter_eq.
    - simpl. rewrite lookup_insert_ne by done. by rewrite lookup_alter_ne. }
  apply map_eq. intros k. rewrite Hloop by apply NoDup_fst_map_to_list.
  rewrite list_to_map_to_list. destruct (m !! k) as [x|] eqn:Ex.
  - assert (is_Some (base !! k)) as [b Hb] by (apply elem_of_dom; rewrite Hdom; apply elem_of_dom; eauto).
    rewrite Hb. simpl. by rewrite (Hf k x b).
  - apply not_elem_of_dom. rewrite Hdom. by apply not_elem_of_dom.
Qed.

Lemma fields_dom {A D} (mk : string * A → D) (field : D → string) (m : gmap string A) :
  (∀ p, field (mk p) = p.1) →
  (list_to_set (field <$> (mk <$> map_to_list m)) : gset string) = dom m.
Proof.
  intros Hmk. rewrite <- list_fmap_compose. apply set_eq. intros k.
  rewrite elem_of_list_to_set, elem_of_dom, list_elem_of_fmap. split.
  - intros ([k' x] & -> & Hin%elem_of_map_to_list). simpl. rewrite Hmk. eauto.
  - intros [x Hx]. exists (k, x). simpl. by rewrite Hmk, elem_of_map_to_list.
Qed.

(** ** The fields of an index *)

(** The maps of a schema start empty. *)
Lemma from_schema_empty schema f :
  (∀ m, ci_unique_maps (from_schema schema) !! f = Some m → m = ∅) ∧
  (∀ m, ci_secondary_maps (from_schema schema) !! f = Some m → m = ∅) ∧
  (∀ m, ci_doc_path_maps (from_schema schema) !! f = Some m → m = ∅) ∧
  (∀ ti, ci_text_maps (from_schema schema) !! f = Some ti → ti = text_index_default) ∧
  (∀ vi, ci_vector_maps (from_schema schema) !! f = Some vi → vi_entries vi = ∅).
Proof.
  assert (Hor : ∀ A (x : A) l (m : gmap string A), (∀ y, m !! f = Some y → y = x) →
    ∀ y, foldl (λ m k, or_insert k x m) m l !! f = Some y → y = x).
  { intros A x. induction l as [|k l IH]; intros m Hm y; [apply Hm|]. simpl. apply IH. intros z.
    unfold or_insert. destruct (m !! k); [apply Hm|]. rewrite lookup_insert_Some. naive_solver. }
  assert (Hfields : ∀ fields ci,
    (∀ m, ci_unique_maps ci !! f = Some m → m = ∅) → (∀ m, ci_secondary_maps ci !! f = Some m → m = ∅) →
    (∀ vi, ci_vector_maps ci !! f = Some vi → vi_entries vi = ∅) →
    let ci' := foldl index_field ci fields in
    (∀ m, ci_unique_maps ci' !! f = Some m → m = ∅) ∧ (∀ m, ci_secondary_maps ci' !! f = Some m → m = ∅) ∧
    (∀ vi, ci_vector_maps ci' !! f = Some vi → vi_entries vi = ∅)).
  { induction fields as [|fd fields IH]; intros ci Hu Hs Hv; [done|]. simpl.
    unfold index_field at 2 4 6.
    apply IH; destruct (fd_primary_key fd), (fd_unique fd), (fd_indexed fd), (fd_type fd); simpl; try done;
      intros x; rewrite lookup_insert_Some; naive_solver. }
  destruct (Hfields (cs_fields schema) indexes_empty) as (Hu & Hs & Hv); [done..|].
  unfold from_schema. simpl. split_and!; [done|done| | |done]; intros x; apply Hor; done.
Qed.

(** The maps of an index are those of a schema. *)
Record same_maps (ci : CollectionIndexes) (schema : CollectionSchema) : Prop := {
  sm_unique : dom (ci_unique_maps (from_schema schema)) = dom (ci_unique_maps ci);
  sm_secondary : dom (ci_secondary_maps (from_schema schema)) = dom (ci_secondary_maps ci);
  sm_doc_path : dom (ci_doc_path_maps (from_schema schema)) = dom (ci_doc_path_maps ci);
  sm_text : dom (ci_text_maps (from_schema schema)) = dom (ci_text_maps ci);
  sm_vector : ∀ f, vi_dim <$> ci_vector_maps (from_schema schema) !! f = vi_dim <$> ci_vector_maps ci !! f;
}.

(** The index with the field lists of a schema. *)
Definition with_fields (schema : CollectionSchema) (ci : CollectionIndexes) : CollectionIndexes :=
  set_fields (ci_primary_field (from_schema schema)) (ci_unique_fields (from_schema schema))
    (ci_secondary_fields (from_schema schema)) ci.

(** ** Text indexes *)

Lemma sum_entries (l : list (N * N)) : ∀ acc,
  foldl (λ acc '(_, n), acc + n) acc l = acc + foldr (λ '(_, n) acc, n + acc) 0 l.
Proof. induction l as [|[k n] l IH]; intros acc; simpl; [lia|]. rewrite IH. lia. Qed.

Lemma total_length_entries m : foldl (λ acc '(_, n), acc + n) 0 (map_to_list m) = total_length m.
Proof.
  rewrite sum_entries. unfold total_length. rewrite map_fold_foldr, N.add_0_l.
  induction (map_to_list m) as [|[k n] l IH]; [done|]. cbn [foldr]. by rewrite IH.
Qed.

Lemma load_postings (p : gmap string (gmap N N)) :
  foldl (λ ps '(term, posting), <[term := extend posting (default ∅ (ps !! term))]> ps) ∅
    ((λ '(term, m), (term, map_to_list m)) <$> map_to_list p) = p.
Proof.
  rewrite (fold_entries (λ posting o, extend posting (default ∅ o))).
  - rewrite map_union_empty, <- list_fmap_compose.
    rewrite (list_fmap_ext _ id (map_to_list p)); [by rewrite list_fmap_id, list_to_map_to_list|].
    intros i [t m] _. simpl. by rewrite extend_map.
  - rewrite <- list_fmap_compose. rewrite (list_fmap_ext _ fst (map_to_list p)) by (by intros i []).
    apply NoDup_fst_map_to_list.
  - done.
Qed.

Section text_snapshot.
Context `{Unicode}.

(** Without lengths there are no postings. *)
Lemma no_lengths text ti recs :
  text_ok text ti recs → ti_doc_lengths ti = ∅ → ti_postings ti = ∅ ∧ ti_total_tokens ti = 0.
Proof.
  intros Hok He. split; [|by rewrite (to_total _ _ _ Hok), He].
  apply map_empty. intros term. destruct (ti_postings ti !! term) as [m|] eqn:Em; [|done]. exfalso.
  destruct (to_wf _ _ _ Hok term m Em) as [Hne Hpos]. apply map_choose in Hne as (id & n & Hn).
  specialize (Hpos id n Hn). pose proof (to_freq _ _ _ Hok term id) as Hf.
  unfold term_freq in Hf. rewrite Em in Hf. simpl in Hf. rewrite Hn in Hf. simpl in Hf.
  pose proof (to_length _ _ _ Hok id) as Hl. rewrite He, lookup_empty in Hl. unfold nonzero in Hl.
  unfold occurrences in Hf. pose proof (length_filter (λ t, t = term) (tokens_of text recs id)).
  case_match; [|done]. bool_to_prop. lia.
Qed.

Lemma load_text_ok text ti recs field :
  text_ok text ti recs →
  load_text (mkTextData field ((λ '(term, m), (term, map_to_list m)) <$> map_to_list (ti_postings ti))
               (map_to_list (ti_doc_lengths ti))) text_index_default = ti.
Proof.
  intros Hok. unfold load_text. cbn [td_postings td_doc_lengths text_index_default ti_postings ti_doc_lengths ti_total_tokens].
  rewrite load_postings. destruct (map_to_list (ti_doc_lengths ti)) as [|e l] eqn:El.
  - apply map_to_list_empty_iff in El. destruct (no_lengths _ _ _ Hok El) as [Hp Ht].
    destruct ti as [p d t]. simpl in *. by subst.
  - rewrite <- El. clear e l El. destruct ti as [p d t]. simpl in *. f_equal.
    + rewrite (fold_map (λ len o, default 0 o + len) d). apply map_eq. intros k. rewrite lookup_fmap.
      by destruct (d !! k).
    + rewrite total_length_entries. symmetry. exact (to_total _ _ _ Hok).
Qed.
End text_snapshot.

(** ** Vectors *)

Lemma insert_entries (l : list (N * list f32)) : ∀ vi,
  foldl (λ vi '(id, x), vector_insert id x vi) vi l = mkVectorIndex (vi_dim vi) (extend l (vi_entries vi)).
Proof.
  induction l as [|[id x] l IH]; intros vi; [by destruct vi|]. cbn [foldl]. rewrite IH. done.
Qed.

Lemma load_vectors_ok l : ∀ base : gmap string ExactVectorIndex,
  NoDup (l : list (string * ExactVectorIndex)).*1 →
  (∀ f vi, (f, vi) ∈ l → base !! f = Some (vector_index_new (vi_dim vi))) →
  load_vectors ((λ '(field, vi), mkVectorData field (vi_dim vi) (map_to_list (vi_entries vi))) <$> l) base
  = Ok (list_to_map l ∪ base).
Proof.
  induction l as [|[f vi] l IH]; intros base Hnd Hb; [simpl; by rewrite (left_id_L ∅ (∪))|].
  rewrite fmap_cons in Hnd. apply NoDup_cons in Hnd as [Hf Hnd]. cbn [fmap list_fmap load_vectors vd_field].
  rewrite (Hb f vi) by (by left). cbn [vd_dim vi_dim vector_index_new vd_entries].
  rewrite Nat.eqb_refl. simpl negb. cbn iota. rewrite insert_entries. cbn [vi_dim vi_entries vector_index_new].
  rewrite extend_map, IH; [|done|].
  - f_equal. rewrite list_to_map_cons. destruct vi as [d e]. cbn [vi_dim vi_entries].
    rewrite <- insert_union_r, insert_union_l; [done|]. by apply not_elem_of_list_to_map_1.
  - intros g vi' Hin. rewrite lookup_insert_ne; [apply Hb; by right|]. intros ->. apply Hf.
    apply list_elem_of_fmap. by exists (g, vi').
Qed.

(** ** Snapshots of an index *)

Section snapshots.
Context `{Unicode, JsonText}.

Lemma snapshot_fields ci schema v fp :
  same_maps ci schema → same_fields (from_schema schema) (snapshot ci v fp) = true.
Proof.
  intros Hsh. unfold same_fields, snapshot. cbn [is_unique is_secondary is_vectors is_document_paths is_text].
  rewrite !andb_true_iff, !bool_decide_eq_true.
  rewrite !fields_dom by (by intros []). split_and!; try apply Hsh.
  apply set_eq. intros f. rewrite !elem_of_dom. pose proof (sm_vector _ _ Hsh f) as Hv.
  rewrite <- (fmap_is_Some vi_dim), Hv. apply fmap_is_Some.
Qed.

Lemma load_vector_maps ci schema :
  same_maps ci schema →
  load_vectors ((λ '(field, vi), mkVectorData field (vi_dim vi) (map_to_list (vi_entries vi)))
                  <$> map_to_list (ci_vector_maps ci)) (ci_vector_maps (from_schema schema))
  = Ok (ci_vector_maps ci).
Proof.
  intros Hsh. rewrite load_vectors_ok.
  - f_equal. rewrite list_to_map_to_list. apply map_eq. intros f. rewrite lookup_union.
    pose proof (sm_vector _ _ Hsh f) as Hv.
    destruct (ci_vector_maps ci !! f), (ci_vector_maps (from_schema schema) !! f); by simplify_eq/=.
  - apply NoDup_fst_map_to_list.
  - intros f vi Hin%elem_of_map_to_list. pose proof (sm_vector _ _ Hsh f) as Hv. rewrite Hin in Hv.
    destruct (from_schema_empty schema f) as (_ & _ & _ & _ & He).
    destruct (ci_vector_maps (from_schema schema) !! f) as [[d e]|]; [|done]. simplify_eq/=.
    pose proof (He _ eq_refl) as He'. simpl in He'. by subst e.
Qed.

(** An index that agrees with records is read back from its snapshot as it was. *)
Lemma from_snapshot_ok ci schema recs v fp :
  index_ok ci recs → same_maps ci schema → ci_primary_field (from_schema schema) = ci_primary_field ci →
  from_snapshot schema (snapshot ci v fp) = Ok (with_fields schema ci).
Proof.
  intros Hok Hsh Hprim. unfold from_snapshot. rewrite (snapshot_fields ci schema v fp Hsh).
  cbn [is_primary_field snapshot]. rewrite bool_decide_eq_true_2 by done. simpl negb.
  cbn iota. unfold snapshot. cbn [is_vectors is_unique is_secondary is_document_paths is_text].
  rewrite load_vector_maps by done. cbn [res_bind].
  rewrite (alter_fields (λ '(field, map), mkUniqueData field (map_to_list map)) ud_field
    (λ u, extend (ud_entries u)) (ci_unique_maps ci)).
  2:{ by intros []. } 2:{ apply Hsh. }
  2:{ intros k x b _ Hb. apply (proj1 (from_schema_empty schema k)) in Hb as ->. apply extend_map. }
  rewrite (alter_fields (λ '(field, map), mkSecondaryData field (map_to_list map)) sd_field
    (λ d, extend (sd_entries d)) (ci_secondary_maps ci)).
  2:{ by intros []. } 2:{ apply Hsh. }
  2:{ intros k x b _ Hb. apply (proj1 (proj2 (from_schema_empty schema k))) in Hb as ->. apply extend_map. }
  rewrite (alter_fields (λ '(field, map), mkSecondaryData field (map_to_list map)) sd_field
    (λ d, extend (sd_entries d)) (ci_doc_path_maps ci)).
  2:{ by intros []. } 2:{ apply Hsh. }
  2:{ intros k x b _ Hb. apply (proj1 (proj2 (proj2 (from_schema_empty schema k)))) in Hb as ->.
      apply extend_map. }
  rewrite (alter_fields (λ '(field, ti), mkTextData field
    ((λ '(term, m), (term, map_to_list m)) <$> map_to_list (ti_postings ti))
    (map_to_list (ti_doc_lengths ti))) td_field load_text (ci_text_maps ci)).
  2:{ by intros []. } 2:{ apply Hsh. }
  2:{ intros k x b Hx Hb. apply (proj1 (proj2 (proj2 (proj2 (from_schema_empty schema k))))) in Hb as ->.
      by eapply load_text_ok, (ix_text _ _ Hok). }
  done.
Qed.

(** A snapshot is accepted only for the maps of the schema. *)
Lemma load_vectors_dims l : ∀ (base m : gmap string ExactVectorIndex),
  NoDup (l : list (string * ExactVectorIndex)).*1 →
  load_vectors ((λ '(field, vi), mkVectorData field (vi_dim vi) (map_to_list (vi_entries vi))) <$> l) base
  = Ok m → ∀ f vi b, (f, vi) ∈ l → base !! f = Some b → vi_dim b = vi_dim vi.
Proof.
  induction l as [|[g w] l IH]; intros base m Hnd Hl f vi b Hin Hb; [by apply not_elem_of_nil in Hin|].
  rewrite fmap_cons in Hnd. apply NoDup_cons in Hnd as [Hg Hnd].
  cbn [fmap list_fmap load_vectors vd_field vd_dim vd_entries] in Hl.
  destruct (base !! g) as [b'|] eqn:Eb.
  - destruct (negb _) eqn:Ed in Hl; [done|]. apply negb_false_iff, Nat.eqb_eq in Ed.
    apply elem_of_cons in Hin as [[= -> ->]|Hin]; [congruence|]. eapply IH; [done|exact Hl|done|].
    rewrite lookup_insert_ne; [done|]. intros ->. apply Hg, list_elem_of_fmap. by exists (f, vi).
  - apply elem_of_cons in Hin as [[= -> ->]|Hin]; [congruence|]. by eapply IH.
Qed.

Lemma from_snapshot_maps ci schema ci' v fp :
  from_snapshot schema (snapshot ci v fp) = Ok ci' →
  same_maps ci schema ∧ ci_primary_field (from_schema schema) = ci_primary_field ci.
Proof.
  unfold from_snapshot. case_if; [done|]. case_if; [done|]. intros Hl. bool_to_prop.
  destruct (load_vectors _ _) as [m|] eqn:Ev; [|done]. clear Hl.
  match goal with E : same_fields _ _ = true |- _ => unfold same_fields, snapshot in E;
    cbn [is_unique is_secondary is_vectors is_document_paths is_text] in E;
    rewrite !andb_true_iff, !bool_decide_eq_true in E; rewrite !fields_dom in E by (by intros []);
    destruct E as ((((Hu & Hs) & Hv) & Hd) & Ht) end.
  split; [|done]. split; [done..|]. intros f.
  unfold snapshot in Ev. cbn [is_vectors] in Ev.
  destruct (ci_vector_maps ci !! f) as [vi|] eqn:Ef.
  - assert (is_Some (ci_vector_maps (from_schema schema) !! f)) as [b Hb]
      by (apply elem_of_dom; rewrite Hv; apply elem_of_dom; eauto).
    rewrite Hb. simpl. f_equal. apply (load_vectors_dims _ _ _ (NoDup_fst_map_to_list _) Ev f vi b); [|done].
    by apply elem_of_map_to_list.
  - assert (Hn : ci_vector_maps (from_schema schema) !! f = None)
      by (apply not_elem_of_dom; rewrite Hv; by apply not_elem_of_dom).
    by rewrite Hn.
Qed.

Lemma with_fields_ok ci schema recs :
  index_ok ci recs → same_maps ci schema → index_ok (with_fields schema ci) recs.
Proof.
  intros Hok Hsh. split; try apply Hok. intros f. unfold with_fields.
  cbn [ci_unique_fields ci_unique_maps set_fields]. rewrite from_schema_shape.
  rewrite <- !elem_of_dom. by rewrite (sm_unique _ _ Hsh).
Qed.
End snapshots.

(** ** Snapshot files *)

Section snapshot_files.
Context `{Crc32, !Crc32Laws, FT : FloatText, SnapshotCodec, !SnapshotCodecLaws}.

Lemma snapshot_header_fields (magic version len crc payload : list byte) :
  length magic = 4%nat → length version = 4%nat → length len = 4%nat → length crc = 4%nat →
  let buf := magic ++ version ++ len ++ crc ++ payload in
  slice 0 4 buf = magic ∧ slice 4 8 buf = version ∧ slice 8 12 buf = len ∧ slice 12 16 buf = crc ∧
  slice 16 (16 + length payload) buf = payload.
Proof.
  intros Hm Hv Hl Hc. cbv zeta. split_and!.
  - by apply slice_app_l.
  - rewrite (slice_skip 0 4 magic) by lia. by apply slice_app_l.
  - rewrite (slice_skip 4 8 magic), (slice_skip 0 4 version) by lia. by apply slice_app_l.
  - rewrite (slice_skip 8 12 magic), (slice_skip 4 8 version), (slice_skip 0 4 len) by lia.
    by apply slice_app_l.
  - rewrite (slice_skip 12 (12 + length payload) magic), (slice_skip 8 (8 + length payload) version),
      (slice_skip 4 (4 + length payload) len), (slice_skip 0 (length payload) crc) by lia.
    unfold slice. by rewrite Nat.sub_0_r, drop_0, take_ge.
Qed.

Lemma read_written_snapshot s :
  snapshot_safe s → N.of_nat (length (snapshot_to_json s)) < 2 ^ 32 →
  read_snapshot (write_snapshot s) = Ok s.
Proof.
  intros Hfin Hlen. unfold read_snapshot, write_snapshot. set (payload := snapshot_to_json s) in *.
  destruct (snapshot_header_fields INDEX_MAGIC (be_bytes 4 INDEX_FORMAT_VERSION)
    (be_bytes 4 (N.of_nat (length payload))) (be_bytes 4 (crc32 payload)) payload) as (-> & -> & -> & -> & Hp);
    [done|apply length_be_bytes..|].
  assert (Hl : length (INDEX_MAGIC ++ be_bytes 4 INDEX_FORMAT_VERSION ++
    be_bytes 4 (N.of_nat (length payload)) ++ be_bytes 4 (crc32 payload) ++ payload) = (16 + length payload)%nat).
  { rewrite !length_app, !length_be_bytes. done. }
  rewrite Hl, bool_decide_eq_true_2 by done. unfold INDEX_HEADER_LEN.
  rewrite (proj2 (Nat.ltb_ge _ _)) by lia. cbn [negb orb].
  rewrite !be_value_be_bytes by (done || apply crc32_bound). rewrite Nat2N.id, N.eqb_refl. cbn [negb].
  rewrite (proj2 (Nat.ltb_ge _ _)), Hp, N.eqb_refl by lia. cbn [negb].
  unfold payload. by rewrite snapshot_json_roundtrip.
Qed.
End snapshot_files.

(** ** Persisting and loading *)

Section loading.
Context `{Unicode, JsonText, Crc32, !Crc32Laws, FT : FloatText, SnapshotCodec, !SnapshotCodecLaws}.
Implicit Types (ci : CollectionIndexes) (dir : IndexDir) (old now : list Rec).

(** What a fingerprint is taken over. *)
Definition id_version (r : Rec) : N * N := (rec_id r, rec_version r).

(** A record that kept its id and its version kept its contents. *)
Definition versions_identify old now : Prop :=
  ∀ r r', r ∈ old → r' ∈ now → id_version r = id_version r' → r = r'.

(** The directory holds the snapshot of an index for a collection. *)
Definition holds_snapshot dir (name : string) ci (v : N) old : Prop :=
  ∃ file, id_manifest dir ≫= bt_get name = Some file ∧
    id_files dir !! file = Some (write_snapshot (snapshot ci v (fingerprint old))) ∧
    snapshot_safe (snapshot ci v (fingerprint old)) ∧
    N.of_nat (length (snapshot_to_json (snapshot ci v (fingerprint old)))) < 2 ^ 32.

Lemma load_index_held dir schema ci v old now :
  holds_snapshot dir (cs_name schema) ci v old →
  load_index dir schema now =
    if fingerprint old =? fingerprint now
    then match from_snapshot schema (snapshot ci v (fingerprint old)) with Ok ci' => Some ci' | Err _ => None end
    else None.
Proof.
  intros (file & Hm & Hf & Hfin & Hlen). unfold load_index. rewrite Hm. cbn [mbind option_bind].
  rewrite Hf. cbn [mbind option_bind]. by rewrite read_written_snapshot.
Qed.

Lemma same_records old now :
  versions_identify old now → id_version <$> old = id_version <$> now → old = now.
Proof.
  revert now. induction old as [|r old IH]; intros [|r' now] Hv He; try done. simplify_eq/=.
  f_equal.
  - apply Hv; [by left|by left|unfold id_version; congruence].
  - apply IH; [|done]. intros x y Hx Hy. apply Hv; by right.
Qed.

(** An index that is loaded is right.  When the directory holds the snapshot of an
    index that agreed with the records of the collection at some checkpoint, and open
    accepts it for the records it finds, then the loaded index agrees with these:
    provided the fingerprints of two different sequences of ids and versions differ and
    a record that kept its id and version kept its contents. *)
Theorem loaded_index_agrees dir schema ci ci' v old now :
  holds_snapshot dir (cs_name schema) ci v old → index_ok ci (by_id old) →
  (fingerprint old = fingerprint now → id_version <$> old = id_version <$> now) →
  versions_identify old now → load_index dir schema now = Some ci' → index_ok ci' (by_id now).
Proof.
  intros Hd Hok Hfp Hv. rewrite (load_index_held dir schema ci v old now Hd). case_if; [|done].
  bool_to_prop. destruct (from_snapshot _ _) as [ci2|] eqn:El; [|done]. intros [= <-].
  apply from_snapshot_maps in El as Hm. destruct Hm as [Hm Hp].
  rewrite (from_snapshot_ok ci schema _ v _ Hok Hm Hp) in El. injection El as <-.
  rewrite <- (same_records old now) by auto. by apply with_fields_ok.
Qed.

(** The files and the manifest after the loop over the indexes. *)
Lemma persist_loop_other v scan l : ∀ state file name,
  (∀ n, n ∈ (l : list (string * CollectionIndexes)).*1 → index_filename n ≠ file ∧ n ≠ name) →
  (foldl (persist_step v scan) state l).1 !! file = state.1 !! file ∧
  bt_get name (foldl (persist_step v scan) state l).2 = bt_get name state.2.
Proof.
  induction l as [|[n c] l IH]; intros [fs ns] file name Hne; [done|]. cbn [foldl].
  destruct (Hne n) as [Hf Hn]; [by left|].
  destruct (IH (persist_step v scan (fs, ns) (n, c)) file name) as [-> ->].
  { intros n' Hn'. apply Hne. by right. }
  simpl. by rewrite lookup_insert_ne, bt_get_insert_ne.
Qed.

Lemma persist_loop v scan l : ∀ state name ci,
  NoDup (l : list (string * CollectionIndexes)).*1 →
  (∀ n n', n ∈ l.*1 → n' ∈ l.*1 → index_filename n = index_filename n' → n = n') → (name, ci) ∈ l →
  (foldl (persist_step v scan) state l).1 !! index_filename name =
    Some (write_snapshot (snapshot ci v (fingerprint (scan name)))) ∧
  bt_get name (foldl (persist_step v scan) state l).2 = Some (index_filename name).
Proof.
  induction l as [|[n c] l IH]; intros [fs ns] name ci Hnd Hinj Hin; [by apply not_elem_of_nil in Hin|].
  rewrite fmap_cons in Hnd. apply NoDup_cons in Hnd as [Hn Hnd]. cbn [foldl].
  apply elem_of_cons in Hin as [[= -> ->]|Hin].
  - destruct (persist_loop_other v scan l (persist_step v scan (fs, ns) (n, c)) (index_filename n) n) as [-> ->].
    { intros n' Hn'. split; [|by intros ->]. intros He. apply Hn.
      rewrite <- (Hinj n' n); [done|by right|by left|done]. }
    simpl. by rewrite lookup_insert_eq, bt_get_insert_eq.
  - apply IH; [done| |done]. intros a b Ha Hb. apply Hinj; by right.
Qed.

Lemma persisted_snapshot dir schema_version scan indexes name ci :
  indexes !! name = Some ci →
  (∀ n n', is_Some (indexes !! n) → is_Some (indexes !! n') → index_filename n = index_filename n' → n = n') →
  let s := snapshot ci schema_version (fingerprint (scan name)) in
  snapshot_safe s → N.of_nat (length (snapshot_to_json s)) < 2 ^ 32 →
  holds_snapshot (persist_indexes schema_version scan indexes dir) name ci schema_version (scan name).
Proof.
  intros Hci Hinj s Hfin Hlen. unfold persist_indexes.
  destruct (persist_loop schema_version scan (map_to_list indexes) (id_files dir, []) name ci
    (NoDup_fst_map_to_list indexes)) as [Hf Hn].
  { intros n n' Hn Hn'. apply Hinj.
    - apply list_elem_of_fmap in Hn as ([? c] & -> & Hn%elem_of_map_to_list). by exists c.
    - apply list_elem_of_fmap in Hn' as ([? c] & -> & Hn'%elem_of_map_to_list). by exists c. }
  { by apply elem_of_map_to_list. }
  destruct (foldl _ (id_files dir, []) (map_to_list indexes)) as [files named]. simpl in Hf, Hn.
  exists (index_filename name). split_and!; [exact Hn| |done|done].
  simpl. apply map_lookup_filter_Some. split; [exact Hf|]. right. simpl.
  apply bt_get_elem_of in Hn. apply list_elem_of_fmap. by exists (name, index_filename name).
Qed.

(** A checkpoint is loaded back.  After the indexes were persisted, opening the same
    records gives for every collection the very index that was persisted, if its fields
    are those of the schema, its vectors are finite, its encoding fits the length field
    and no other collection hashes to the same file name. *)
Theorem checkpoint_reloads dir schema_version scan indexes name ci schema recs :
  indexes !! name = Some ci → cs_name schema = name → index_ok ci recs → same_maps ci schema →
  with_fields schema ci = ci →
  (∀ n n', is_Some (indexes !! n) → is_Some (indexes !! n') → index_filename n = index_filename n' → n = n') →
  let s := snapshot ci schema_version (fingerprint (scan name)) in
  snapshot_safe s → N.of_nat (length (snapshot_to_json s)) < 2 ^ 32 →
  load_index (persist_indexes schema_version scan indexes dir) schema (scan name) = Some ci.
Proof.
  intros Hci <- Hok Hm Hwf Hinj s Hfin Hlen.
  pose proof (persisted_snapshot dir schema_version scan indexes _ ci Hci Hinj Hfin Hlen) as Hheld.
  rewrite (load_index_held _ schema ci schema_version _ _ Hheld), N.eqb_refl.
  rewrite (from_snapshot_ok ci schema recs); [by rewrite Hwf|done|done|].
  by rewrite <- Hwf.
Qed.
End loading.
