(* ===== verification/Exec.v ===== *)
(** * Query execution

    Models [crates/auradb-query/src/exec.rs]: candidate selection for the access path the
    planner chose, the residual filter, ordering, offset and limit, hybrid fusion of text
    and vector results, projection and relationship hydration of a page, counts and
    existence tests, and the plan reported by EXPLAIN.

    The [DataSource] trait is a record of operations; [source_ok] is what an
    implementation promises.  Deadlines are polled against a clock that is a parameter:
    the time elapsed at each reading.  The approximate vector search is the class
    [AnnSearch], whose instance is the graph search of [Ann]; the theorems about
    execution hold whatever it returns.  The [expect]s of candidate
    selection cannot fail, since the planner chooses a ranked access for a query with
    that clause ([choose_access_clause]); they are errors here. *)

From Stdlib Require Import Floats.SpecFloat.
From S2P Require Import Prelude Sorting BTree Text Value Core Rank Eval Chars Index Vector TextSearch Analyzer AnalyzedSearch Snippet Query Planner Cursor.

(** ** Data sources *)

Record DataSource := mkSource {
  ds_schema : string → option CollectionSchema;
  ds_indexes : string → option CollectionIndexes;
  ds_scan : string → list Rec;
  ds_get : string → RecordId → option Rec;
  ds_resolve_link : string → Value → option Rec;
  ds_stats : string → option CollectionStats;
  ds_stats_version : option N;
}.

(** ** Deadlines *)

(** The nanoseconds elapsed at the n-th reading of the clock. *)
Class ElapsedTime := elapsed_at : nat → N.

Definition DEADLINE_POLL_INTERVAL : nat := 1024.

(** The budget in milliseconds, if one is set. *)
Record Deadline := mkDeadline { dl_limit : option N }.

Definition deadline_none : Deadline := mkDeadline None.
Definition after_ms (limit_ms : N) : Deadline :=
  mkDeadline (if (0 <? limit_ms)%N then Some limit_ms else None).

Definition is_enabled (d : Deadline) : bool := bool_decide (is_Some (dl_limit d)).

Section deadlines.
Context `{ElapsedTime}.

(** The state is the number of readings so far. *)
Definition deadline_check (d : Deadline) : SE nat Error unit := λ n,
  match dl_limit d with
  | Some limit => if (limit * 1000000 <? elapsed_at n)%N then (S n, Err EQueryTimeout) else (S n, Ok tt)
  | None => (n, Ok tt)
  end.

Definition deadline_check_at (d : Deadline) (i : nat) : SE nat Error unit := λ n,
  if (is_enabled d && (i mod DEADLINE_POLL_INTERVAL =? 0))%bool then deadline_check d n else (n, Ok tt).
End deadlines.

(** ** Plans reported *)

Inductive Strategy :=
| SVectorExactScan | SFullTextScan | SFullTextBm25 | SHybrid | SIndexLookup | SFullScan.

Definition strategy_for (a : Access) : Strategy :=
  match a with
  | AVector _ _ _ => SVectorExactScan
  | AFullText _ _ => SFullTextScan
  | ATextRanked _ => SFullTextBm25
  | AHybrid _ _ => SHybrid
  | APointLookup _ _ | AIndexLookup _ _ | ADocumentPath _ _ => SIndexLookup
  | AScan => SFullScan
  end.

Record VectorPlan := mkVectorPlan {
  vp_field : string;
  vp_k : nat;
  vp_metric : string;
  vp_vectors_scored : option nat;
  vp_approximate : bool;
  vp_ef_search : option nat;
  vp_vector_mode : string;
  vp_exact_fallback : bool;
}.

Record TextSearchPlan := mkTextPlan {
  tp_field : string;
  tp_rank : string;
  tp_operator : string;
  tp_analyzer : string;
  tp_query_terms : nat;
  tp_indexed_documents : nat;
  tp_candidates : option nat;
}.

Record HybridPlan := mkHybridPlan {
  hp_text_field : string;
  hp_vector_field : string;
  hp_fusion : string;
  hp_text_source : string;
  hp_vector_source : string;
  hp_weight_text : f32;
  hp_weight_vector : f32;
  hp_top_k : nat;
  hp_analyzer : string;
  hp_text_candidates : option nat;
  hp_vector_candidates : option nat;
}.

(** Warnings by kind, without their text. *)
Inductive Warning := WFullScan (scanned : nat) | WStatistics.

Record ExplainAnalysis := mkAnalysis {
  ea_scanned_rows : nat;
  ea_matched_rows : nat;
  ea_returned_rows : nat;
  ea_snapshot_ts : option N;
  ea_estimated_rows : nat;
  ea_planner_stats_version : option N;
  ea_stale_stats : bool;
  ea_deadline_ms : option N;
  ea_timeout_checked : bool;
}.

Record ExplainPlan := mkExplain {
  ep_collection : string;
  ep_strategy : Strategy;
  ep_used_index : option string;
  ep_estimated_candidates : nat;
  ep_filter_present : bool;
  ep_vector : option VectorPlan;
  ep_text_search : option TextSearchPlan;
  ep_hybrid : option HybridPlan;
  ep_order_by : list OrderKey;
  ep_includes : list string;
  ep_warnings : list Warning;
  ep_estimated_rows : nat;
  ep_estimated_cost : f64;
  ep_plan_tree : PlanNode;
  ep_analysis : option ExplainAnalysis;
}.

(** ** Candidates *)

Definition scored_plain (id : RecordId) : Scored := mkScored id None None None.
Definition scored_ranked (id : RecordId) (score : f32) : Scored := mkScored id (Some score) None None.

Record Selection := mkSelection {
  se_candidates : list Scored;
  se_score_ordered : bool;
  se_text_search : option TextSearchPlan;
  se_hybrid : option HybridPlan;
}.

Record PlannedFind := mkPlanned {
  pf_ordered : list Scored;
  pf_plan : ExplainPlan;
}.

Record ExecCounts := mkCounts {
  ec_scanned : nat;
  ec_matched : nat;
  ec_returned : nat;
}.

Inductive VectorMode := VMExact | VMAnnPreview | VMExactFallback.

Definition vector_mode_name (m : VectorMode) : string :=
  match m with VMExact => "exact" | VMAnnPreview => "ann_preview" | VMExactFallback => "exact_fallback" end.
Definition vector_mode_is_exact (m : VectorMode) : bool :=
  match m with VMAnnPreview => false | _ => true end.

Definition resolve_vector_mode (ann : option AnnParams) (vector_count : nat) : Res VectorMode :=
  match ann with
  | None => Ok VMExact
  | Some a =>
      if ANN_PREVIEW_MIN_VECTORS <=? vector_count then Ok VMAnnPreview
      else match ann_fallback a with
           | FallbackExact => Ok VMExactFallback
           | FallbackError => Err EInvalidRequest
           end
  end.

Definition DEFAULT_ANN_EF_SEARCH : nat := 64.
Definition DEFAULT_ANN_M : nat := 16.
Definition DEFAULT_ANN_EF_CONSTRUCTION : nat := 200.

(** [CollectionIndexes::vector_ann_nearest] with its graph parameters [m],
    [ef_construction] and [ef_search]. *)
Class AnnSearch := vector_ann_nearest :
  CollectionIndexes → string → list f32 → nat → Metric → nat → nat → nat → Res (list Neighbor).

Definition vector_len (ci : CollectionIndexes) (field : string) : option nat :=
  (λ vi, size (vi_entries vi)) <$> ci_vector_maps ci !! field.

(** The [documents] of [text_index_stats]. *)
Definition text_documents (ci : CollectionIndexes) (field : string) : option nat :=
  (λ ti, size (ti_doc_lengths ti)) <$> ci_text_maps ci !! field.

(** ** Fusion *)

Definition RRF_K : f32 := f32_of_N 60.

Definition f32_inf : f32 := S754_infinity false.
Definition f32_neg_inf : f32 := S754_infinity true.
Definition f32_epsilon : f32 := S754_finite false 8388608 (-46).
Definition f32_is_finite (x : f32) : bool :=
  match x with S754_zero _ | S754_finite _ _ _ => true | _ => false end.

Definition min_max (scores : list f32) : f32 * f32 :=
  let min := foldl f32_min f32_inf scores in
  let max := foldl f32_max f32_neg_inf scores in
  if f32_is_finite min then (min, max) else (f32_zero, f32_zero).

Definition normalize (s min max : f32) : f32 :=
  if SFltb (SFabs (f32_sub max min)) f32_epsilon then f32_one
  else f32_div (f32_sub s min) (f32_sub max min).

Definition rank_map (scored : list (N * f32)) : gmap N nat :=
  list_to_map (rev (imap (λ i p, (p.1, S i)) scored)).

(** [ids.sort_unstable(); ids.dedup()]. *)
Definition sorted_ids (ids : gset N) : list N := sort_by N.compare (elements ids).

Definition weighted_sum (hs : HybridSearch) (text vectors : list (N * f32)) (ids : list N)
  : list Scored :=
  let text_map : gmap N f32 := list_to_map (rev text) in
  let vec_map : gmap N f32 := list_to_map (rev vectors) in
  let '(tmin, tmax) := min_max text.*2 in
  let '(vmin, vmax) := min_max vectors.*2 in
  (λ id,
     let t := text_map !! id in
     let v := vec_map !! id in
     let tn := default f32_zero ((λ s, normalize s tmin tmax) <$> t) in
     let vn := default f32_zero ((λ s, normalize s vmin vmax) <$> v) in
     mkScored id (Some (f32_add (f32_mul (hs_weight_text hs) tn) (f32_mul (hs_weight_vector hs) vn))) t v)
    <$> ids.

Definition rank_fusion (hs : HybridSearch) (text vectors : list (N * f32)) (ids : list N)
  : list Scored :=
  let text_map : gmap N f32 := list_to_map (rev text) in
  let vec_map : gmap N f32 := list_to_map (rev vectors) in
  let contribution (w : f32) (r : option nat) : f32 :=
    default f32_zero ((λ r, f32_div w (f32_add RRF_K (f32_of_N (N.of_nat r)))) <$> r) in
  (λ id,
     mkScored id
       (Some (f32_add (contribution (hs_weight_text hs) (rank_map text !! id))
                      (contribution (hs_weight_vector hs) (rank_map vectors !! id))))
       (text_map !! id) (vec_map !! id))
    <$> ids.

(** ** Selection *)

Section selection.
Context `{Unicode, CharCase, NaturalLog, MapOrder, AnnSearch} `{JsonText}.
Implicit Types (ds : DataSource) (indexes : CollectionIndexes).

Definition keyword_candidates ds (collection : string) indexes (field query : string)
    (p : AnalyzerPreset) (k1 b : f32) : Res (list (N * f32)) :=
  match index_terms p query with
  | [] => Ok []
  | q_term :: _ =>
      let? candidates := text_bm25_search indexes field query true k1 b in
      Ok (sort_by (λ a b, N.compare a.1 b.1)
            (omap (λ c, match ds_get ds collection c.1 with
                        | Some record =>
                            match bt_get field (rec_fields record) with
                            | Some (VText s) =>
                                if bool_decide (head (index_terms p s) = Some q_term)
                                then Some (c.1, f32_one) else None
                            | _ => None
                            end
                        | None => None
                        end) candidates))
  end.

(** The per-token branch ends in an [expect]: the search answers for such a preset. *)
Definition analyzed_candidates indexes (field query : string) (p : AnalyzerPreset)
    (bm25 require_all : bool) (k1 b : f32) : Res (list (N * f32)) :=
  let? r := text_search_analyzed indexes field query p bm25 require_all k1 b in
  match r with Some results => Ok results | None => Err EInternal end.

Definition ranked_text_candidates ds (collection : string) indexes (ts : TextSearch)
    (p : AnalyzerPreset) : Res (list Scored) :=
  if bool_decide (tokenize (ts_query ts) = []) then Err EInvalidRequest
  else
    let require_all := op_require_all (ts_operator ts) in
    let bm25 := match ts_rank ts with RankBm25 => true | RankTermFrequency => false end in
    let k1 := default BM25_DEFAULT_K1 (ts_k1 ts) in
    let b := default BM25_DEFAULT_B (ts_b ts) in
    let? results :=
      match p with
      | PDefault | PSimple =>
          if bm25 then text_bm25_search indexes (ts_field ts) (ts_query ts) require_all k1 b
          else text_search indexes (ts_field ts) (ts_query ts)
      | PKeyword => keyword_candidates ds collection indexes (ts_field ts) (ts_query ts) p k1 b
      | PAsciiFold | PEnglishBasic =>
          analyzed_candidates indexes (ts_field ts) (ts_query ts) p bm25 require_all k1 b
      end in
    Ok ((λ r, scored_ranked r.1 r.2) <$> results).

Definition hybrid_candidates ds (collection : string) indexes (hs : HybridSearch)
    (p : AnalyzerPreset) : Res (list Scored * nat * nat) :=
  let wt := hs_weight_text hs in
  let wv := hs_weight_vector hs in
  if bool_decide (tokenize (hs_text_query hs) = []) then Err EInvalidRequest
  else if (negb (f32_is_finite wt && f32_is_finite wv) || SFltb wt f32_zero || SFltb wv f32_zero ||
           (SFeqb wt f32_zero && SFeqb wv f32_zero))%bool then Err EInvalidRequest
  else if hs_top_k hs =? 0 then Err EInvalidRequest
  else
    let k1 := default BM25_DEFAULT_K1 (hs_k1 hs) in
    let b := default BM25_DEFAULT_B (hs_b hs) in
    let require_all := op_require_all (hs_operator hs) in
    let? text :=
      match p with
      | PDefault | PSimple =>
          text_bm25_search indexes (hs_text_field hs) (hs_text_query hs) require_all k1 b
      | PAsciiFold | PEnglishBasic =>
          analyzed_candidates indexes (hs_text_field hs) (hs_text_query hs) p true require_all k1 b
      | PKeyword =>
          keyword_candidates ds collection indexes (hs_text_field hs) (hs_text_query hs) p k1 b
      end in
    let? metric := metric_parse (metric_name_of hs) in
    let pool := Nat.max (hs_top_k hs * 4) (hs_top_k hs) in
    let? neighbors := vector_nearest indexes (hs_vector_field hs) (hs_vector hs) pool metric in
    let vectors := (λ n, (nb_id n, nb_score n)) <$> neighbors in
    let ids := sorted_ids (list_to_set text.*1 ∪ list_to_set vectors.*1) in
    let fused := match hs_fusion hs with
                 | WeightedSum => weighted_sum hs text vectors ids
                 | ReciprocalRankFusion => rank_fusion hs text vectors ids
                 end in
    Ok (fused, length text, length neighbors).

Definition vector_candidates indexes (q : FindQuery) (vs : VectorSearch) : Res (list Neighbor) :=
  let? metric := metric_parse (vs_metric vs) in
  let vector_count := default 0 (vector_len indexes (vs_field vs)) in
  let? mode := resolve_vector_mode (fq_vector_ann q) vector_count in
  match mode, fq_vector_ann q with
  | VMAnnPreview, Some ann =>
      vector_ann_nearest indexes (vs_field vs) (vs_query vs) (vs_k vs) metric
        (default DEFAULT_ANN_M (ann_m ann))
        (default DEFAULT_ANN_EF_CONSTRUCTION (ann_ef_construction ann))
        (Nat.max (default DEFAULT_ANN_EF_SEARCH (ann_ef_search ann)) (vs_k vs))
  | _, _ => vector_nearest indexes (vs_field vs) (vs_query vs) (vs_k vs) metric
  end.

Definition text_summary indexes (ts : TextSearch) (field : string) (p : AnalyzerPreset) (n : nat)
  : TextSearchPlan :=
  mkTextPlan field (rank_name (Some (ts_rank ts))) (operator_name (Some (ts_operator ts)))
    (preset_name p) (length (index_terms p (ts_query ts)))
    (default 0 (text_documents indexes field)) (Some n).

Definition hybrid_summary (hs : HybridSearch) (p : AnalyzerPreset) (text_n vec_n : nat) : HybridPlan :=
  mkHybridPlan (hs_text_field hs) (hs_vector_field hs) (fusion_name (Some (hs_fusion hs)))
    ((match p with PKeyword => "keyword:" | _ => "bm25:" end) ++ hs_text_field hs)
    ("exact_vector:" ++ hs_vector_field hs) (hs_weight_text hs) (hs_weight_vector hs) (hs_top_k hs)
    (preset_name p) (Some text_n) (Some vec_n).

Definition select_candidates ds indexes (q : FindQuery) (access : Access) : Res Selection :=
  match access with
  | AVector _ _ _ =>
      match fq_vector q with
      | None => Err EInternal
      | Some vs =>
          let? neighbors := vector_candidates indexes q vs in
          Ok (mkSelection ((λ n, scored_ranked (nb_id n) (nb_score n)) <$> neighbors) true None None)
      end
  | AFullText field query =>
      let? results := text_search indexes field query in
      Ok (mkSelection ((λ r, scored_ranked r.1 r.2) <$> results) true None None)
  | ATextRanked field =>
      match fq_text_search q with
      | None => Err EInternal
      | Some ts =>
          let? p := resolve_analyzer (ts_analyzer ts) in
          let? candidates := ranked_text_candidates ds (fq_collection q) indexes ts p in
          Ok (mkSelection candidates true (Some (text_summary indexes ts field p (length candidates))) None)
      end
  | AHybrid _ _ =>
      match fq_hybrid q with
      | None => Err EInternal
      | Some hs =>
          let? p := resolve_analyzer (hs_analyzer hs) in
          let? c := hybrid_candidates ds (fq_collection q) indexes hs p in
          let '(candidates, text_n, vec_n) := c in
          Ok (mkSelection candidates true None (Some (hybrid_summary hs p text_n vec_n)))
      end
  | APointLookup field value | AIndexLookup field value | ADocumentPath field value =>
      Ok (mkSelection (scored_plain <$> default [] (lookup_eq indexes field value)) false None None)
  | AScan => Ok (mkSelection ((λ r, scored_plain (rec_id r)) <$> ds_scan ds (fq_collection q)) false None None)
  end.
End selection.

(** ** Ordering *)

(** [Option::partial_cmp] on scores. *)
Definition option_partial_cmp (a b : option f32) : option comparison :=
  match a, b with
  | Some x, Some y => SFcompare x y
  | Some _, None => Some Gt
  | None, Some _ => Some Lt
  | None, None => Some Eq
  end.

Definition scored_cmp (a b : Scored) : comparison :=
  then_cmp (default Eq (option_partial_cmp (sc_score b) (sc_score a))) (sc_id a ?= sc_id b)%N.

Fixpoint order_keys_cmp (ra rb : option Rec) (keys : list OrderKey) : comparison :=
  match keys with
  | [] => Eq
  | key :: keys' =>
      let va := ra ≫= λ r, record_get_path r (ok_field key) in
      let vb := rb ≫= λ r, record_get_path r (ok_field key) in
      let ord := option_cmp (λ x y, default Eq (order x y)) va vb in
      let ord := if ok_desc key then CompOpp ord else ord in
      match ord with Eq => order_keys_cmp ra rb keys' | _ => ord end
  end.

Definition order_cmp (ds : DataSource) (collection : string) (keys : list OrderKey) (a b : Scored)
  : comparison :=
  then_cmp (order_keys_cmp (ds_get ds collection (sc_id a)) (ds_get ds collection (sc_id b)) keys)
    (sc_id a ?= sc_id b)%N.

Definition order_records (ds : DataSource) (collection : string) (keys : list OrderKey)
    (matched : list Scored) : list Scored :=
  sort_by (order_cmp ds collection keys) matched.

(** ** Finds *)

Section find.
Context `{Unicode, CharCase, NaturalLog, MapOrder, AnnSearch, ElapsedTime} `{JsonText}.
Implicit Types (ds : DataSource) (d : Deadline).

Definition passes (filter : option Filter) (record : Rec) : bool :=
  match filter with Some f => matches record f | None => true end.

(** The filter loop, from the [i]-th candidate on. *)
Fixpoint filter_loop ds d (q : FindQuery) (i : nat) (candidates : list Scored)
  : SE nat Error (list Scored) :=
  match candidates with
  | [] => se_ret []
  | cand :: rest =>
      deadline_check_at d i >>>
      matched <~ filter_loop ds d q (S i) rest;;
      se_ret (match ds_get ds (fq_collection q) (sc_id cand) with
              | Some r => if passes (fq_filter q) r then cand :: matched else matched
              | None => matched
              end)
  end.

Definition order_matched ds (q : FindQuery) (score_ordered : bool) (matched : list Scored)
  : list Scored :=
  if score_ordered then sort_by scored_cmp matched
  else match fq_order_by q with
       | [] => matched
       | keys => order_records ds (fq_collection q) keys matched
       end.

(** Offset, then the limit or the [top_k] of a hybrid clause. *)
Definition window (q : FindQuery) (matched : list Scored) : list Scored :=
  let ordered := drop (default 0 (fq_offset q)) matched in
  match (match fq_limit q with
         | Some l => Some l
         | None => hs_top_k <$> fq_hybrid q
         end) with
  | Some limit => take limit ordered
  | None => ordered
  end.

Definition vector_plan (indexes : CollectionIndexes) (q : FindQuery) (v : VectorSearch) : VectorPlan :=
  let vector_count := default 0 (vector_len indexes (vs_field v)) in
  let mode := match resolve_vector_mode (fq_vector_ann q) vector_count with
              | Ok m => m
              | Err _ => VMExact
              end in
  let approximate := negb (vector_mode_is_exact mode) in
  mkVectorPlan (vs_field v) (vs_k v) (vs_metric v)
    (if vector_mode_is_exact mode then vector_len indexes (vs_field v) else None)
    approximate
    (if approximate
     then (λ a, Nat.max (default DEFAULT_ANN_EF_SEARCH (ann_ef_search a)) (vs_k v)) <$> fq_vector_ann q
     else None)
    (vector_mode_name mode)
    (match mode with VMExactFallback => true | _ => false end).

Definition lift_res {A} (r : Res A) : SE nat Error A := λ n, (n, r).

Definition require_schema ds (collection : string) : Res CollectionSchema :=
  match ds_schema ds collection with Some s => Ok s | None => Err ENotFound end.

Definition is_scan (a : Access) : bool := match a with AScan => true | _ => false end.

(** The rows and the report, from the candidates that passed the filter. *)
Definition finish_find ds (q : FindQuery) (indexes : CollectionIndexes) (plan : Plan)
    (selection : Selection) (matched : list Scored) : PlannedFind * ExecCounts :=
  let scanned := length (se_candidates selection) in
  let warnings := if (is_scan (pl_access plan) && (10000 <? N.of_nat scanned)%N)%bool
                  then [WFullScan scanned] else [] in
  let ordered := window q (order_matched ds q (se_score_ordered selection) matched) in
  let explain :=
    mkExplain (fq_collection q) (strategy_for (pl_access plan)) (pl_used_index plan) scanned
      (bool_decide (is_Some (fq_filter q))) (vector_plan indexes q <$> fq_vector q)
      (se_text_search selection) (se_hybrid selection) (fq_order_by q) (fq_includes q) warnings
      (pl_estimated_rows plan) (pl_estimated_cost plan) (pl_node plan) None in
  (mkPlanned ordered explain, mkCounts scanned (length matched) (length ordered)).

Definition source_indexes ds (collection : string) : Res CollectionIndexes :=
  match ds_indexes ds collection with Some ci => Ok ci | None => Err EInternal end.

(** The plan; the live row count is read when there are no statistics. *)
Definition source_plan ds (q : FindQuery) (schema : CollectionSchema) (indexes : CollectionIndexes)
  : Plan :=
  let stats := ds_stats ds (fq_collection q) in
  let live_row_count := match stats with
                        | Some _ => 0
                        | None => length (ds_scan ds (fq_collection q))
                        end in
  plan_find q schema indexes stats live_row_count.

Definition run_find ds (q : FindQuery) d : SE nat Error (PlannedFind * ExecCounts) :=
  lift_res (validate_search_clauses q) >>>
  schema <~ lift_res (require_schema ds (fq_collection q));;
  indexes <~ lift_res (source_indexes ds (fq_collection q));;
  let plan := source_plan ds q schema indexes in
  deadline_check d >>>
  selection <~ lift_res (select_candidates ds indexes q (pl_access plan));;
  deadline_check d >>>
  matched <~ filter_loop ds d q 0 (se_candidates selection);;
  deadline_check d >>>
  se_ret (finish_find ds q indexes plan selection matched).

Definition execute_find_within ds (q : FindQuery) d : SE nat Error PlannedFind :=
  r <~ run_find ds q d;; se_ret r.1.

Definition execute_find ds (q : FindQuery) : SE nat Error PlannedFind :=
  execute_find_within ds q (after_ms (default 0%N (fq_timeout_ms q))).

Definition explain ds (q : FindQuery) : SE nat Error ExplainPlan :=
  r <~ execute_find ds q;; se_ret (pf_plan r).

Definition stale_stats ds (collection : string) : bool :=
  match ds_stats ds collection with
  | None => true
  | Some s => ((0 <? st_row_count s) && bool_decide (st_field_cardinality s = []))%bool
  end.

Definition with_analysis (p : ExplainPlan) (warnings : list Warning) (a : ExplainAnalysis)
  : ExplainPlan :=
  mkExplain (ep_collection p) (ep_strategy p) (ep_used_index p) (ep_estimated_candidates p)
    (ep_filter_present p) (ep_vector p) (ep_text_search p) (ep_hybrid p) (ep_order_by p)
    (ep_includes p) warnings (ep_estimated_rows p) (ep_estimated_cost p) (ep_plan_tree p) (Some a).

(** Without the timings, the plan identifier and the prose. *)
Definition explain_analyze ds (q : FindQuery) (snapshot_ts : option N) : SE nat Error ExplainPlan :=
  let d := after_ms (default 0%N (fq_timeout_ms q)) in
  r <~ run_find ds q d;;
  let plan := pf_plan r.1 in
  let stale := stale_stats ds (fq_collection q) in
  let warnings := if stale then ep_warnings plan ++ [WStatistics] else ep_warnings plan in
  se_ret (with_analysis plan warnings
            (mkAnalysis (ec_scanned r.2) (ec_matched r.2) (ec_returned r.2) snapshot_ts
               (ep_estimated_rows plan) (ds_stats_version ds) stale (fq_timeout_ms q) (is_enabled d))).
End find.

(** ** Rows *)

Definition SNIPPET_MAX_FRAGMENTS_CAP : nat := 10.
Definition SNIPPET_MAX_FRAGMENT_CHARS_CAP : nat := 1000.
Definition SNIPPET_DEFAULT_MAX_FRAGMENTS : nat := 3.
Definition SNIPPET_DEFAULT_FRAGMENT_CHARS : nat := 200.

(** [Ord::clamp]. *)
Definition clamp (v lo hi : nat) : nat := Nat.min (Nat.max v lo) hi.

Definition starts_with_underscore (s : string) : bool := String.prefix "_" s.

Section rows.
Context `{Unicode, CharCase}.
Implicit Types (ds : DataSource).

Definition row_snippet_source (q : FindQuery) : option (string * Res AnalyzerPreset) :=
  match fq_text_search q, fq_hybrid q with
  | Some ts, _ => Some (ts_query ts, resolve_analyzer (ts_analyzer ts))
  | None, Some hs => Some (hs_text_query hs, resolve_analyzer (hs_analyzer hs))
  | None, None => None
  end.

Definition build_row_snippets (q : FindQuery) (record : Rec) : Res (list Snippet) :=
  match fq_snippet q, row_snippet_source q with
  | Some req, Some (text_query, analyzer) =>
      let? p := analyzer in
      let allowed := filter (λ f, starts_with_underscore f = false) (sr_fields req) in
      match allowed with
      | [] => Ok []
      | _ :: _ =>
          let fields := foldl (λ m f, match bt_get f (rec_fields record) with
                                      | Some (VText s) => bt_insert f s m
                                      | _ => m
                                      end) [] allowed in
          let opts := mkSnippetOptions
            (clamp (default SNIPPET_DEFAULT_MAX_FRAGMENTS (sr_max_fragments req)) 1
               SNIPPET_MAX_FRAGMENTS_CAP)
            (clamp (default SNIPPET_DEFAULT_FRAGMENT_CHARS (sr_fragment_chars req)) 1
               SNIPPET_MAX_FRAGMENT_CHARS_CAP) in
          Ok (omap (λ f, match build_snippet f allowed fields text_query p opts with
                         | Some sn => match sn_fragments sn with [] => None | _ => Some sn end
                         | None => None
                         end) allowed)
      end
  | _, _ => Ok []
  end.

Definition hydrate ds (target : string) (card : Cardinality) (value : option Value) : list Document :=
  let keys := match card, value with
              | _, None | _, Some VNull => []
              | ToOne, Some v => [v]
              | ToMany, Some (VArray items) => items
              | _, _ => []
              end in
  omap (λ key, rec_fields <$> ds_resolve_link ds target key) keys.

Definition project (projection : option (list string)) (fields : Document) : Document :=
  match projection with
  | Some proj =>
      foldl (λ m name, match bt_get name fields with
                       | Some v => bt_insert name v m
                       | None => m
                       end) [] proj
  | None => fields
  end.

Fixpoint hydrate_all ds (schema : CollectionSchema) (record : Rec) (names : list string)
    (acc : list (string * list Document)) : Res (list (string * list Document)) :=
  match names with
  | [] => Ok acc
  | name :: names' =>
      match schema_relationship schema name with
      | None => Err EInvalidRequest
      | Some rel =>
          hydrate_all ds schema record names'
            (bt_insert name
               (hydrate ds (rel_target rel) (rel_cardinality rel) (record_get record name)) acc)
      end
  end.

Fixpoint materialize_rows ds (q : FindQuery) (schema : CollectionSchema) (ranked : bool)
    (rank : nat) (page : list Scored) : Res (list Row) :=
  match page with
  | [] => Ok []
  | cand :: rest =>
      match ds_get ds (fq_collection q) (sc_id cand) with
      | None => materialize_rows ds q schema ranked (S rank) rest
      | Some record =>
          let? includes := hydrate_all ds schema record (fq_includes q) [] in
          let? snippets := build_row_snippets q record in
          let row := mkRow (string_of (record_id_display (sc_id cand)))
                       (project (fq_projection q) (rec_fields record))
                       (sc_score cand) (sc_text_score cand) (sc_vector_score cand)
                       (if ranked then Some (rank + 1) else None) includes snippets in
          let? rows := materialize_rows ds q schema ranked (S rank) rest in
          Ok (row :: rows)
      end
  end.

Definition is_ranked (q : FindQuery) : bool :=
  bool_decide (is_Some (fq_vector q) ∨ is_Some (fq_text_search q) ∨ is_Some (fq_hybrid q)).

Definition materialize_page ds (q : FindQuery) (page : list Scored) (start_rank : nat)
  : Res (list Row) :=
  let? schema := require_schema ds (fq_collection q) in
  materialize_rows ds q schema (is_ranked q) start_rank page.

Definition materialize ds (q : FindQuery) (page : list Scored) : Res (list Row) :=
  materialize_page ds q page 0.

Definition execute_count ds (q : CountQuery) : Res nat :=
  let? _ := require_schema ds (cq_collection q) in
  Ok (length (filter (λ r, passes (cq_filter q) r = true) (ds_scan ds (cq_collection q)))).

Definition execute_exists ds (q : ExistsQuery) : Res bool :=
  let? _ := require_schema ds (eq_collection q) in
  Ok (existsb (passes (eq_filter q)) (ds_scan ds (eq_collection q))).
End rows.
