(* ===== verification/Ann.v ===== *)
(** * The cache of approximate graphs

    Models [CollectionIndexes::vector_ann_nearest] of [crates/auradb-index/src/lib.rs] with
    its cache: the graph of a field is built from the exact vectors at the first search
    with a metric and parameters, kept under them, and dropped with every change of the
    indexes.  A search through the cache is therefore a search of the graph of the current
    vectors, which is the instance of [AnnSearch] that the executor calls; and while the
    collection is small it is the exact search. *)

From Stdlib Require Import Floats.SpecFloat.
From S2P Require Import Prelude Sorting BTree Text Value Core Rank Eval Index Vector Hnsw HnswSpec Query Exec.

Local Open Scope nat_scope.

Definition ANN_GRAPH_SEED : N := 0x4155524144425631.

(** [AnnCacheKey]: the field, the name of the metric, [m] and [ef_construction]. *)
Definition AnnCacheKey : Type := string * string * nat * nat.

(** The indexes of a collection with their cache of graphs. *)
Record CachedIndexes := mkCached {
  cx_indexes : CollectionIndexes;
  cx_ann_cache : gmap AnnCacheKey Hnsw;
}.

Section cache.
Context `{HeapOrder, F64Log, MapOrder} `{Unicode, JsonText}.
Implicit Types (cx : CachedIndexes) (ci : CollectionIndexes).

(** Indexes that were built from a schema or read from a snapshot have no graph. *)
Definition uncached ci : CachedIndexes := mkCached ci ∅.

Definition invalidate_ann_cache cx : CachedIndexes := mkCached (cx_indexes cx) ∅.

Definition on_indexes (f : CollectionIndexes → CollectionIndexes) cx : CachedIndexes :=
  mkCached (f (cx_indexes cx)) (cx_ann_cache cx).

Definition cached_insert (record : Rec) cx : CachedIndexes :=
  on_indexes (index_insert record) (invalidate_ann_cache cx).
Definition cached_remove (record : Rec) cx : CachedIndexes :=
  on_indexes (index_remove record) (invalidate_ann_cache cx).
Definition cached_rebuild (records : list Rec) cx : CachedIndexes * Res unit :=
  let cx := invalidate_ann_cache cx in
  let '(ci, r) := rebuild records (cx_indexes cx) in
  (mkCached ci (cx_ann_cache cx), r).

Definition build_graph (vi : ExactVectorIndex) (metric : Metric) (params : HnswParams) : option Hnsw :=
  hnsw_build (map_order (vi_entries vi)) metric params ANN_GRAPH_SEED.

(** The graph of a field: from the cache, or built and put there. *)
Definition graph_for (field : string) (vi : ExactVectorIndex) (metric : Metric) (params : HnswParams) cx
  : option (CachedIndexes * Hnsw) :=
  let key : AnnCacheKey := (field, metric_name metric, hp_m params, hp_ef_construction params) in
  match cx_ann_cache cx !! key with
  | Some g => Some (cx, g)
  | None =>
      g ← build_graph vi metric params;
      Some (mkCached (cx_indexes cx) (<[key := g]> (cx_ann_cache cx)), g)
  end.

(** The checks before the graph is looked up. *)
Definition ann_check ci (field : string) (query : list f32) (params : HnswParams) : Res ExactVectorIndex :=
  match ci_vector_maps ci !! field with
  | None => Err EInvalidRequest
  | Some vi =>
      if negb (length query =? vi_dim vi) then Err EInvalidRequest
      else let? _ := hnsw_params_validate params in Ok vi
  end.

Definition cached_ann_nearest (field : string) (query : list f32) (k : nat) (metric : Metric)
    (params : HnswParams) (ef_search : nat) cx : option (CachedIndexes * Res (list Neighbor)) :=
  match ann_check (cx_indexes cx) field query params with
  | Err e => Some (cx, Err e)
  | Ok vi =>
      '(cx, g) ← graph_for field vi metric params cx;
      result ← hnsw_nearest g query k ef_search;
      Some (cx, Ok result)
  end.

(** A search of the graph of the vectors as they are now. *)
Definition ann_nearest ci (field : string) (query : list f32) (k : nat) (metric : Metric)
    (params : HnswParams) (ef_search : nat) : option (Res (list Neighbor)) :=
  match ann_check ci field query params with
  | Err e => Some (Err e)
  | Ok vi =>
      g ← build_graph vi metric params;
      result ← hnsw_nearest g query k ef_search;
      Some (Ok result)
  end.

(** A history of one collection's indexes. *)
Inductive ann_history (ci : CollectionIndexes) : CachedIndexes → Prop :=
  | history_new : ann_history ci (uncached ci)
  | history_insert record cx : ann_history ci cx → ann_history ci (cached_insert record cx)
  | history_remove record cx : ann_history ci cx → ann_history ci (cached_remove record cx)
  | history_rebuild records cx cx' r :
      ann_history ci cx → cached_rebuild records cx = (cx', r) → ann_history ci cx'
  | history_search field query k metric params ef cx cx' r :
      ann_history ci cx → cached_ann_nearest field query k metric params ef cx = Some (cx', r) →
      ann_history ci cx'.

(** A cached graph is the graph of the current vectors. *)
Definition cache_ok cx : Prop := ∀ field metric params g,
  cx_ann_cache cx !! (field, metric_name metric, hp_m params, hp_ef_construction params) = Some g →
  ∃ vi, ci_vector_maps (cx_indexes cx) !! field = Some vi ∧ build_graph vi metric params = Some g.

Lemma metric_name_inj m1 m2 : metric_name m1 = metric_name m2 → m1 = m2.
Proof. by destruct m1, m2. Qed.

Lemma cache_ok_empty ci : cache_ok (mkCached ci ∅).
Proof. intros field metric params g. simpl. by rewrite lookup_empty. Qed.

Lemma graph_for_ok field vi metric params cx :
  cache_ok cx → ci_vector_maps (cx_indexes cx) !! field = Some vi →
  match graph_for field vi metric params cx with
  | Some (cx', g) => cache_ok cx' ∧ cx_indexes cx' = cx_indexes cx ∧ build_graph vi metric params = Some g
  | None => build_graph vi metric params = None
  end.
Proof.
  intros Hok Hvi. unfold graph_for. destruct (cx_ann_cache cx !! _) as [g|] eqn:E.
  - split_and!; [done|done|]. destruct (Hok _ _ _ _ E) as (vi' & Hvi' & Hb). congruence.
  - destruct (build_graph vi metric params) as [g|] eqn:Eb; simpl; [|done]. split_and!; [|done|done].
    intros field' metric' params' g'. simpl. destruct (decide (
      (field', metric_name metric', hp_m params', hp_ef_construction params') =
      (field, metric_name metric, hp_m params, hp_ef_construction params))) as [Heq|Hne].
    + rewrite Heq, lookup_insert_eq. intros [= <-]. injection Heq as -> Hmn Hm He.
      apply metric_name_inj in Hmn as ->. exists vi. split; [done|].
      destruct params, params'; simpl in *. by subst.
    + rewrite lookup_insert_ne by done. apply Hok.
Qed.

Lemma ann_check_field ci field query params vi :
  ann_check ci field query params = Ok vi →
  ci_vector_maps ci !! field = Some vi ∧ length query = vi_dim vi ∧ hnsw_params_validate params = Ok tt.
Proof.
  unfold ann_check. destruct (ci_vector_maps ci !! field) as [vi'|]; [|done].
  destruct (length query =? vi_dim vi') eqn:E; simpl; [|done]. apply Nat.eqb_eq in E.
  destruct (hnsw_params_validate params) as [[]|]; simpl; [|done]. by intros [= <-].
Qed.

Lemma cached_search_ok field query k metric params ef cx :
  cache_ok cx →
  match cached_ann_nearest field query k metric params ef cx with
  | Some (cx', r) => cache_ok cx' ∧ cx_indexes cx' = cx_indexes cx ∧
      ann_nearest (cx_indexes cx) field query k metric params ef = Some r
  | None => ann_nearest (cx_indexes cx) field query k metric params ef = None
  end.
Proof.
  intros Hok. unfold cached_ann_nearest, ann_nearest.
  destruct (ann_check (cx_indexes cx) field query params) as [vi|e] eqn:E; [|done].
  apply ann_check_field in E as (Hvi & _ & _). pose proof (graph_for_ok field vi metric params cx Hok Hvi) as Hg.
  destruct (graph_for field vi metric params cx) as [[cx' g]|]; simpl.
  - destruct Hg as (Hok' & Hi & ->). simpl. by destruct (hnsw_nearest g query k ef).
  - by rewrite Hg.
Qed.

Lemma history_ok ci cx : ann_history ci cx → cache_ok cx.
Proof.
  induction 1 as [|record cx _ IH|record cx _ IH|records cx cx' r _ IH Hr|field query k metric params ef cx cx' r _ IH Hs].
  - apply cache_ok_empty.
  - apply cache_ok_empty.
  - apply cache_ok_empty.
  - unfold cached_rebuild in Hr. destruct (rebuild records _) as [ci' r']. injection Hr as <- _. apply cache_ok_empty.
  - pose proof (cached_search_ok field query k metric params ef cx IH) as Hk. rewrite Hs in Hk. by destruct Hk.
Qed.

Lemma params_valid p : hnsw_params_validate p = Ok tt → 0 < hp_m p ∧ 0 < hp_ef_construction p.
Proof.
  unfold hnsw_params_validate. destruct (hp_m p); [done|]. destruct (_ || _)%bool eqn:E1; [done|].
  destruct (hp_ef_construction p); [done|]. lia.
Qed.

Context `{!HeapOrderLaws, !MapOrderLaws}.

Lemma map_order_nodup (m : gmap N (list f32)) : NoDup (map_order m).*1.
Proof. rewrite (map_order_perm m). apply NoDup_fst_map_to_list. Qed.

Lemma map_order_length (m : gmap N (list f32)) : length (map_order m) = size m.
Proof. rewrite (map_order_perm m). apply length_map_to_list. Qed.

(** A search never panics. *)
Lemma ann_nearest_total ci field query k metric params ef :
  ∃ r, ann_nearest ci field query k metric params ef = Some r.
Proof.
  unfold ann_nearest. destruct (ann_check ci field query params) as [vi|e]; [|by eexists].
  destruct (hnsw_build_ok (map_order (vi_entries vi)) metric params ANN_GRAPH_SEED) as (g & Hb & Hok & _).
  unfold build_graph. rewrite Hb. simpl.
  destruct (decide (hn_ids g = [] ∨ k = 0)) as [Hz|Hnz].
  - unfold hnsw_nearest. assert (Htriv : (bool_decide (hn_ids g = []) || (k =? 0))%bool = true).
    { destruct Hz as [Hz| ->]; [by rewrite bool_decide_eq_true_2|by rewrite orb_true_r]. }
    rewrite Htriv. by eexists.
  - destruct (hnsw_nearest_ok g query k ef Hok) as (found & scored & -> & _);
      [naive_solver|destruct k; [naive_solver|lia]|]. by eexists.
Qed.

(** A field whose approximate search is exact: few vectors for the links and the beam, all
    of the dimension of the field, with scores that are numbers. *)
Record small_field ci (field : string) (query : list f32) (k : nat) (metric : Metric) (params : HnswParams)
    (ef : nat) (vi : ExactVectorIndex) : Prop := {
  sf_field : ci_vector_maps ci !! field = Some vi;
  sf_query : length query = vi_dim vi;
  sf_params : hnsw_params_validate params = Ok tt;
  sf_links : size (vi_entries vi) ≤ hp_m params * 2 + 1;
  sf_beam : size (vi_entries vi) ≤ Nat.max ef k;
  sf_dim : ∀ id v, vi_entries vi !! id = Some v → length v = vi_dim vi;
  sf_numbers : ∀ id v, vi_entries vi !! id = Some v → similarity metric query v ≠ S754_nan;
}.

Lemma ann_nearest_exact ci field query k metric params ef vi :
  small_field ci field query k metric params ef vi →
  ann_nearest ci field query k metric params ef = Some (vector_nearest ci field query k metric).
Proof.
  intros [Hf Hq Hp Hl Hb Hd Hn]. unfold ann_nearest, ann_check, vector_nearest, build_graph.
  rewrite Hf, Hq, Nat.eqb_refl, Hp. cbn [negb res_bind].
  destruct (hnsw_build_ok (map_order (vi_entries vi)) metric params ANN_GRAPH_SEED) as (g & Hg & _).
  rewrite Hg. cbn [mbind option_bind]. destruct (params_valid params Hp) as [Hm Hefc].
  assert (Hin : ∀ e, e ∈ map_order (vi_entries vi) → vi_entries vi !! e.1 = Some e.2).
  { intros [id v] He. rewrite (map_order_perm (vi_entries vi)) in He. by apply elem_of_map_to_list. }
  rewrite (hnsw_exact (map_order (vi_entries vi)) metric params ANN_GRAPH_SEED g query k ef Hg).
  - done.
  - apply map_order_nodup.
  - done.
  - done.
  - by rewrite map_order_length.
  - by rewrite map_order_length.
  - apply Forall_forall. intros e He. rewrite Hq. by eapply Hd, Hin.
  - apply Forall_forall. intros n ([id v] & He & Hx)%list_elem_of_omap.
    destruct (length v =? length query); [|done]. injection Hx as <-. simpl. by apply (Hn id), (Hin (id, v)).
Qed.

End cache.

(** The search that the executor calls. *)
#[export] Instance hnsw_search `{HeapOrder, F64Log, MapOrder} : AnnSearch :=
  λ ci field query k metric m ef_construction ef_search,
    default (Err EInternal) (ann_nearest ci field query k metric (mkHnswParams m ef_construction) ef_search).

(** The preview of the executor is the exact search on a small collection: with the default
    parameters, on every collection of the 16 vectors it asks for to 33. *)
Lemma ann_preview_exact `{Unicode, CharCase, NaturalLog, JsonText}
    `{HeapOrder, !HeapOrderLaws, F64Log, MapOrder, !MapOrderLaws} indexes q vs ann metric vi :
  fq_vector_ann q = Some ann → metric_parse (vs_metric vs) = Ok metric →
  ANN_PREVIEW_MIN_VECTORS ≤ size (vi_entries vi) →
  small_field indexes (vs_field vs) (vs_query vs) (vs_k vs) metric
    (mkHnswParams (default DEFAULT_ANN_M (ann_m ann))
                  (default DEFAULT_ANN_EF_CONSTRUCTION (ann_ef_construction ann)))
    (Nat.max (default DEFAULT_ANN_EF_SEARCH (ann_ef_search ann)) (vs_k vs)) vi →
  vector_candidates indexes q vs = vector_nearest indexes (vs_field vs) (vs_query vs) (vs_k vs) metric.
Proof.
  intros Hann Hm Hmin Hs. unfold vector_candidates, vector_len, resolve_vector_mode.
  rewrite Hm, Hann, (sf_field _ _ _ _ _ _ _ _ Hs). cbn [res_bind].
  assert (Hmode : (ANN_PREVIEW_MIN_VECTORS <=? default 0 ((λ vi, size (vi_entries vi)) <$> Some vi)) = true)
    by (by apply Nat.leb_le).
  rewrite Hmode. cbn [res_bind].
  unfold vector_ann_nearest, hnsw_search. by rewrite (ann_nearest_exact _ _ _ _ _ _ _ _ Hs).
Qed.
