(* ===== verification/ExecSpec.v ===== *)
(** * What a query returns

    Proves the executor of [Exec] against [source_ok], the contract between the executor
    and the store: the access path the planner picks from whatever statistics changes
    neither the rows found nor, with an ordering that separates them, their order; a
    deadline can only abort a query. *)

From Stdlib Require Import Floats.SpecFloat.
From S2P Require Import Prelude Sorting BTree Text Value Core Rank Eval Chars Index Vector TextSearch Analyzer AnalyzedSearch Snippet Query Planner Cursor Exec.

(** ** The contract of a data source

    [recs] are the records of the collection: reads, scans and indexes agree on them. *)
Record source_ok `{Unicode, JsonText} (ds : DataSource) (collection : string) (recs : gmap N Rec)
  : Prop := {
  sk_get : ∀ id, ds_get ds collection id = recs !! id;
  sk_id : ∀ id r, recs !! id = Some r → rec_id r = id;
  sk_scan : ds_scan ds collection ≡ₚ (map_to_list recs).*2;
  sk_index : ∀ ci, ds_indexes ds collection = Some ci → index_ok ci recs;
}.

(** ** Deadlines *)

Section deadlines.
Context `{ElapsedTime}.

(** A computation that reads the clock either times out or returns [r]. *)
Definition aborts_or {A} (d : Deadline) (m : SE nat Error A) (r : Res A) : Prop :=
  ∀ n, (m n).2 = r ∨ is_enabled d = true ∧ (m n).2 = Err EQueryTimeout.

Lemma aborts_ret {A} d (a : A) : aborts_or d (se_ret a) (Ok a).
Proof. by left. Qed.

Lemma aborts_lift_res {A} d (r : Res A) : aborts_or d (lift_res r) r.
Proof. by left. Qed.

Lemma aborts_check d : aborts_or d (deadline_check d) (Ok tt).
Proof.
  intros n. unfold deadline_check, is_enabled. destruct (dl_limit d) as [l|]; [|by left].
  case_match; [|by left]. right. by rewrite bool_decide_eq_true_2.
Qed.

Lemma aborts_check_at d i : aborts_or d (deadline_check_at d i) (Ok tt).
Proof. intros n. unfold deadline_check_at. case_match; [apply aborts_check|by left]. Qed.

Lemma aborts_bind {A B} d (m : SE nat Error A) (k : A → SE nat Error B) r (r' : A → Res B) :
  aborts_or d m r → (∀ a, r = Ok a → aborts_or d (k a) (r' a)) →
  aborts_or d (se_bind m k) (res_bind r r').
Proof.
  intros Hm Hk n. unfold se_bind. specialize (Hm n). destruct (m n) as [n' [a|e]]; simpl in *.
  - destruct Hm as [<-|[_ [=]]]. by apply (Hk a).
  - destruct Hm as [<-|[Hd [= ->]]]; [by left|by right].
Qed.

Lemma aborts_then {A B} d (m : SE nat Error A) (k : A → SE nat Error B) a (r : Res B) :
  aborts_or d m (Ok a) → aborts_or d (k a) r → aborts_or d (se_bind m k) r.
Proof.
  intros Hm Hk. apply (aborts_bind d m k (Ok a) (λ _, r) Hm). by intros a' [= <-].
Qed.
End deadlines.

(** ** The result without a deadline *)

Section filtering.
Context `{Unicode, CharCase, NaturalLog, MapOrder, AnnSearch, ElapsedTime} `{JsonText}.
Implicit Types (ds : DataSource) (d : Deadline) (q : FindQuery).

(** The candidates the filter keeps. *)
Definition kept ds q (cands : list Scored) : list Scored :=
  filter (λ c, match ds_get ds (fq_collection q) (sc_id c) with
               | Some r => passes (fq_filter q) r
               | None => false
               end = true) cands.

Lemma filter_loop_spec ds d q cands : ∀ i, aborts_or d (filter_loop ds d q i cands) (Ok (kept ds q cands)).
Proof.
  induction cands as [|c cands IH]; intros i; [apply aborts_ret|]. cbn [filter_loop].
  eapply aborts_then; [apply aborts_check_at|]. eapply aborts_then; [apply IH|].
  unfold kept. rewrite filter_cons.
  destruct (ds_get ds (fq_collection q) (sc_id c)) as [r|]; [|apply aborts_ret].
  destruct (passes (fq_filter q) r); apply aborts_ret.
Qed.

(** What a find returns when it is not aborted. *)
Definition find_result ds q : Res (PlannedFind * ExecCounts) :=
  let? _ := validate_search_clauses q in
  let? schema := require_schema ds (fq_collection q) in
  let? indexes := source_indexes ds (fq_collection q) in
  let plan := source_plan ds q schema indexes in
  let? selection := select_candidates ds indexes q (pl_access plan) in
  Ok (finish_find ds q indexes plan selection (kept ds q (se_candidates selection))).

Lemma run_find_aborts ds q d : aborts_or d (run_find ds q d) (find_result ds q).
Proof.
  unfold run_find, find_result.
  apply aborts_bind; [apply aborts_lift_res|]. intros _ _.
  apply aborts_bind; [apply aborts_lift_res|]. intros schema _.
  apply aborts_bind; [apply aborts_lift_res|]. intros indexes _. cbv zeta.
  eapply aborts_then; [apply aborts_check|].
  apply aborts_bind; [apply aborts_lift_res|]. intros selection _.
  eapply aborts_then; [apply aborts_check|]. eapply aborts_then; [apply filter_loop_spec|].
  eapply aborts_then; [apply aborts_check|]. apply aborts_ret.
Qed.

(** C37: a deadline can only abort a find.  Whatever the clock shows at the polls, the
    outcome is the one without a deadline or a query timeout, and the latter only when
    a deadline is set. *)
Theorem find_aborts_or_completes ds q d n :
  (run_find ds q d n).2 = (run_find ds q deadline_none n).2 ∨
  is_enabled d = true ∧ (run_find ds q d n).2 = Err EQueryTimeout.
Proof.
  destruct (run_find_aborts ds q deadline_none n) as [->|[[=] _]]. apply run_find_aborts.
Qed.

Lemma run_find_unbounded ds q n : (run_find ds q deadline_none n).2 = find_result ds q.
Proof. by destruct (run_find_aborts ds q deadline_none n) as [->|[[=] _]]. Qed.

(** ** Seeds *)

(** An index may stand in for the scan when its keys decide the predicate: equality with
    a text or a boolean, on a field that is not read as a path in one place and as a name
    in the other. *)
Definition plain_field (field : string) : bool := bool_decide (split_once_dot field = None).

Fixpoint seeds_exact (ci : CollectionIndexes) (f : Filter) : bool :=
  match f with
  | FCompare field CmpEq v =>
      negb (has_equality_index ci field) ||
      exact_value v && (plain_field field ||
        bool_decide (ci_unique_maps ci !! field = None ∧ ci_secondary_maps ci !! field = None))
  | FContainsText field _ => negb (has_text_index ci field) || plain_field field
  | FAnd fs => forallb (seeds_exact ci) fs
  | _ => true
  end.

(** The candidates an access path yields contain the record. *)
Definition covers (ci : CollectionIndexes) (a : Access) (id : N) : Prop :=
  match a with
  | APointLookup f v | AIndexLookup f v | ADocumentPath f v =>
      ∃ ids, lookup_eq ci f v = Some ids ∧ id ∈ ids
  | AFullText f query => ∃ ti, ci_text_maps ci !! f = Some ti ∧ id ∈ (ti_search ti query).*1
  | _ => False
  end.

(** The access paths that select by a condition of the filter. *)
Definition is_seed (a : Access) : bool :=
  match a with
  | APointLookup _ _ | AIndexLookup _ _ | ADocumentPath _ _ | AFullText _ _ => true
  | _ => false
  end.

Lemma has_equality_index_lookup ci field v :
  has_equality_index ci field = true → ∃ ids, lookup_eq ci field v = Some ids.
Proof.
  unfold has_equality_index, lookup_eq. rewrite !orb_true_iff, !bool_decide_eq_true.
  intros [[[m ->]|[m Hm]]|[m Hm]]; [eauto|..].
  - destruct (ci_unique_maps ci !! field); rewrite ?Hm; eauto.
  - destruct (ci_unique_maps ci !! field), (ci_secondary_maps ci !! field); rewrite ?Hm; eauto.
Qed.

Lemma eq_candidate_access schema stats n field v :
  is_seed (ca_access (eq_candidate schema stats n field v)) = true ∧
  ∀ ci id, covers ci (ca_access (eq_candidate schema stats n field v)) id ↔
    ∃ ids, lookup_eq ci field v = Some ids ∧ id ∈ ids.
Proof. unfold eq_candidate. by repeat case_match. Qed.

Context `{!JsonTextLaws}.

(** The seeds a filter offers. *)
Lemma collect_candidates_seed ci schema stats n f c :
  c ∈ collect_candidates schema ci stats n f → is_seed (ca_access c) = true.
Proof.
  induction f as [fs IH|fs IH|f IH|field op v|field sub|field|field query]
    using Filter_nested_ind; intros Hc; try (by apply not_elem_of_nil in Hc).
  - simpl in *. apply list_elem_of_join in Hc as (l & Hc & Hl).
    apply list_elem_of_In, in_map_iff in Hl as (f & <- & Hf%list_elem_of_In).
    rewrite Forall_forall in IH. by apply (IH f Hf).
  - destruct op; try (by apply not_elem_of_nil in Hc). simpl in Hc.
    case_match; [|by apply not_elem_of_nil in Hc]. apply list_elem_of_singleton in Hc as ->.
    apply eq_candidate_access.
  - simpl in Hc. case_match; [|by apply not_elem_of_nil in Hc]. by apply list_elem_of_singleton in Hc as ->.
Qed.

Lemma collect_candidates_text ci schema stats n f c field query :
  c ∈ collect_candidates schema ci stats n f → ca_access c = AFullText field query →
  is_Some (ci_text_maps ci !! field).
Proof.
  induction f as [fs IH|fs IH|f IH|field' op v|field' sub|field'|field' query']
    using Filter_nested_ind; intros Hc Ha; try (by apply not_elem_of_nil in Hc).
  - simpl in *. apply list_elem_of_join in Hc as (l & Hc & Hl).
    apply list_elem_of_In, in_map_iff in Hl as (f & <- & Hf%list_elem_of_In).
    rewrite Forall_forall in IH. by apply (IH f Hf).
  - destruct op; try (by apply not_elem_of_nil in Hc). simpl in Hc.
    case_match; [|by apply not_elem_of_nil in Hc]. apply list_elem_of_singleton in Hc as ->.
    unfold eq_candidate in Ha. by repeat case_match.
  - simpl in Hc. unfold has_text_index in Hc. case_bool_decide as Hti; [|by apply not_elem_of_nil in Hc].
    apply list_elem_of_singleton in Hc as ->. by simplify_eq/=.
Qed.

(** Every record the filter accepts is among the candidates of each seed. *)
Lemma collect_candidates_cover ci recs schema stats n f c id r :
  index_ok ci recs → seeds_exact ci f = true → recs !! id = Some r → matches r f = true →
  c ∈ collect_candidates schema ci stats n f →
  covers ci (ca_access c) id.
Proof.
  intros Hok. revert c. induction f as [fs IH|fs IH|f IH|field op v|field sub|field|field query]
    using Filter_nested_ind; intros c Hex Hr Hm Hc; try (by apply not_elem_of_nil in Hc).
  - simpl in *. apply list_elem_of_join in Hc as (l & Hc & Hl).
    apply list_elem_of_In, in_map_iff in Hl as (f & <- & Hf%list_elem_of_In).
    rewrite forallb_forall in Hex, Hm. rewrite Forall_forall in IH.
    apply (IH f Hf); [by apply Hex, list_elem_of_In|done|by apply Hm, list_elem_of_In|done].
  - destruct op; try (by apply not_elem_of_nil in Hc). simpl in Hc, Hex.
    destruct (has_equality_index ci field) eqn:Hidx; [|by apply not_elem_of_nil in Hc].
    apply list_elem_of_singleton in Hc as ->. apply andb_true_iff in Hex as [Hv Hf].
    destruct (eq_candidate_access schema stats n field v) as [_ Hcov]. apply Hcov.
    destruct (has_equality_index_lookup ci field v Hidx) as [ids Hids]. exists ids. split; [done|].
    apply (equality_lookup_is_scan ci recs field v ids Hok Hv Hids); [|eauto].
    unfold plain_field in Hf. apply orb_true_iff in Hf. by rewrite !bool_decide_eq_true in Hf.
  - simpl in Hc, Hex. unfold has_text_index in *. case_bool_decide as Hti; [|by apply not_elem_of_nil in Hc].
    apply list_elem_of_singleton in Hc as ->. destruct Hti as [ti Hti]. exists ti.
    split; [done|]. simpl in Hex. apply bool_decide_eq_true in Hex.
    apply (ti_search_spec _ _ _ _ (ix_text _ _ Hok _ _ Hti)). simpl in Hm.
    rewrite record_get_dotless in Hm by done. exists r. unfold field_text, text_of.
    destruct (record_get r field ≫= as_text) as [s|] eqn:Es; [|done]. eauto.
Qed.
(** ** Plans of unranked queries *)

Definition unranked q : Prop := fq_vector q = None ∧ fq_text_search q = None ∧ fq_hybrid q = None.

Lemma min_by_elem {A} (cmp : A → A → comparison) l last : min_by cmp l last ∈ l ++ [last].
Proof.
  destruct l as [|x l]; simpl; [by left|].
  assert (Hf : ∀ k best, foldl (λ best c, match cmp best c with Gt => c | _ => best end) best k ∈ best :: k).
  { induction k as [|y k IH]; intros best; simpl; [by left|].
    specialize (IH (match cmp best y with Gt => y | _ => best end)).
    destruct (cmp best y); set_solver. }
  apply Hf.
Qed.

Lemma choose_unranked q schema ci stats n :
  unranked q →
  let c := choose_access q schema ci stats n in
  ca_access c = AScan ∨
  ∃ f rows, fq_filter q = Some f ∧ c ∈ collect_candidates schema ci stats rows f.
Proof.
  intros (Hv & Ht & Hh). unfold choose_access. rewrite Hv, Ht, Hh. cbv zeta.
  set (rows := match stats with Some s => st_row_count s | None => n end).
  pose proof (min_by_elem cost_cmp
    (match fq_filter q with
     | Some f => collect_candidates schema ci stats rows f
     | None => [] end) (mkCandidate AScan rows (f64_of_nat rows))) as Hin.
  apply elem_of_app in Hin as [Hin|Hin]; [|apply list_elem_of_singleton in Hin as ->; by left].
  destruct (fq_filter q) as [f|]; [|by apply not_elem_of_nil in Hin]. right. eauto.
Qed.

(** The filter of the query accepts the record. *)
Definition accepted q (recs : gmap N Rec) (id : N) : Prop :=
  ∃ r, recs !! id = Some r ∧ passes (fq_filter q) r = true.

Definition seedable (ci : CollectionIndexes) q : bool :=
  match fq_filter q with Some f => seeds_exact ci f | None => true end.

Lemma scan_ids ds collection recs :
  source_ok ds collection recs →
  NoDup (rec_id <$> ds_scan ds collection) ∧
  ∀ id, id ∈ rec_id <$> ds_scan ds collection ↔ is_Some (recs !! id).
Proof.
  intros Hok. assert (Hids : rec_id <$> ds_scan ds collection ≡ₚ (map_to_list recs).*1).
  { rewrite (sk_scan _ _ _ Hok). rewrite <- list_fmap_compose.
    erewrite list_fmap_ext; [done|]. intros i [id r] Hi. simpl. apply (sk_id _ _ _ Hok).
    apply elem_of_map_to_list. by apply list_elem_of_lookup_2 in Hi. }
  rewrite Hids. split; [apply NoDup_fst_map_to_list|]. intros id. rewrite Hids, list_elem_of_fmap. split.
  - intros ([i r] & -> & Hin%elem_of_map_to_list). eauto.
  - intros [r Hr]. exists (id, r). by rewrite elem_of_map_to_list.
Qed.

(** Candidate selection succeeds, lists each record once and misses none that the
    filter accepts. *)
Lemma select_unranked ds q recs ci schema :
  source_ok ds (fq_collection q) recs → ds_indexes ds (fq_collection q) = Some ci →
  unranked q → seedable ci q = true →
  ∃ sel, select_candidates ds ci q (pl_access (source_plan ds q schema ci)) = Ok sel ∧
    NoDup (sc_id <$> se_candidates sel) ∧
    (∀ id, accepted q recs id → id ∈ sc_id <$> se_candidates sel) ∧
    ((∀ f query, pl_access (source_plan ds q schema ci) ≠ AFullText f query) →
     se_score_ordered sel = false ∧
     se_candidates sel = scored_plain <$> (sc_id <$> se_candidates sel)).
Proof.
  intros Hok Hci Hun Hseed. pose proof (sk_index _ _ _ Hok ci Hci) as Hix.
  unfold source_plan, plan_find. set (stats := ds_stats ds (fq_collection q)). cbv zeta.
  set (rows := match stats with Some _ => 0 | None => _ end). cbn [pl_access].
  pose proof (choose_unranked q schema ci stats rows Hun) as Hch. cbv zeta in Hch.
  set (c := choose_access q schema ci stats rows) in *.
  assert (Hplain : ∀ ids : list N, sc_id <$> (scored_plain <$> ids) = ids).
  { intros ids. rewrite <- list_fmap_compose. by apply list_fmap_id. }
  destruct Hch as [->|(f & k & Hf & Hin)].
  - simpl. eexists. split; [done|]. simpl. destruct (scan_ids _ _ _ Hok) as [Hnd Hel].
    rewrite <- list_fmap_compose. split_and!; [done| |].
    + intros id (r & Hr & _). apply Hel. eauto.
    + intros _. split; [done|]. by rewrite <- list_fmap_compose.
  - assert (Hcover : ∀ id, accepted q recs id → covers ci (ca_access c) id).
    { intros id (r & Hr & Hp). unfold seedable, passes in *. rewrite Hf in *.
      by eapply collect_candidates_cover. }
    assert (Hsd : is_seed (ca_access c) = true) by (by eapply collect_candidates_seed).
    destruct (ca_access c) as [field v|field v|field v|field query|?|? ? ?|? ?|] eqn:Ea; try done.
    4: { simpl in Hcover |- *. unfold text_search.
         assert (Hti : is_Some (ci_text_maps ci !! field)) by (by eapply collect_candidates_text).
         destruct Hti as [ti Hti]. rewrite Hti. eexists. split; [done|]. simpl.
         rewrite <- list_fmap_compose. change (sc_id ∘ (λ r : N * f32, scored_ranked r.1 r.2)) with (@fst N f32).
         split_and!; [apply (ti_search_spec _ _ _ _ (ix_text _ _ Hix _ _ Hti))| |
           intros Hno; by destruct (Hno field query)].
         intros id Hid. apply Hcover in Hid as (ti' & Hti' & Hid). by simplify_eq. }
    all: simpl in Hcover |- *; eexists; (split; [done|]); simpl; rewrite Hplain.
    all: split_and!; [|intros id Hid; apply Hcover in Hid as (ids & -> & Hid); done|done].
    all: destruct (lookup_eq ci field v) as [ids|] eqn:El; [|constructor].
    all: apply (lookup_eq_spec ci recs field v ids Hix El).
Qed.
Lemma kept_spec ds q recs cands :
  source_ok ds (fq_collection q) recs → NoDup (sc_id <$> cands) →
  (∀ id, accepted q recs id → id ∈ sc_id <$> cands) →
  NoDup (sc_id <$> kept ds q cands) ∧ ∀ id, id ∈ sc_id <$> kept ds q cands ↔ accepted q recs id.
Proof.
  intros Hok Hnd Hall. split.
  - eapply sublist_NoDup; [exact Hnd|]. apply fmap_sublist, sublist_filter.
  - intros id. unfold kept, accepted. rewrite list_elem_of_fmap. split.
    + intros (c & -> & [Hp Hin]%list_elem_of_filter). rewrite (sk_get _ _ _ Hok) in Hp.
      destruct (recs !! sc_id c) as [r|]; [|done]. eauto.
    + intros Hacc. pose proof (Hall id Hacc) as Hin. apply list_elem_of_fmap in Hin as (c & -> & Hin).
      exists c. split; [done|]. apply list_elem_of_filter. split; [|done].
      destruct Hacc as (r & Hr & Hp). by rewrite (sk_get _ _ _ Hok), Hr.
Qed.

Lemma order_matched_perm ds q b l : order_matched ds q b l ≡ₚ l.
Proof.
  unfold order_matched. destruct b; [apply sort_by_perm|].
  destruct (fq_order_by q); [done|apply sort_by_perm].
Qed.

Lemma unranked_valid q : unranked q → validate_search_clauses q = Ok tt.
Proof. intros (Hv & Ht & Hh). unfold validate_search_clauses. by rewrite Hv, Ht, Hh. Qed.

(** A find over a well-kept source: selected, filtered and ordered. *)
Lemma find_result_unranked ds q recs ci schema :
  source_ok ds (fq_collection q) recs → ds_schema ds (fq_collection q) = Some schema →
  ds_indexes ds (fq_collection q) = Some ci → unranked q → seedable ci q = true →
  ∃ sel, select_candidates ds ci q (pl_access (source_plan ds q schema ci)) = Ok sel ∧
    find_result ds q = Ok (finish_find ds q ci (source_plan ds q schema ci) sel
                             (kept ds q (se_candidates sel))) ∧
    NoDup (sc_id <$> kept ds q (se_candidates sel)) ∧
    (∀ id, id ∈ sc_id <$> kept ds q (se_candidates sel) ↔ accepted q recs id) ∧
    ((∀ f query, pl_access (source_plan ds q schema ci) ≠ AFullText f query) →
     se_score_ordered sel = false ∧
     se_candidates sel = scored_plain <$> (sc_id <$> se_candidates sel)).
Proof.
  intros Hok Hs Hci Hun Hseed.
  destruct (select_unranked ds q recs ci schema Hok Hci Hun Hseed) as (sel & Hsel & Hnd & Hall & Hord).
  destruct (kept_spec ds q recs _ Hok Hnd Hall) as [Hknd Hkel].
  exists sel. split_and!; [done| |done|done|done].
  unfold find_result, require_schema, source_indexes.
  rewrite unranked_valid, Hs, Hci by done. cbn [res_bind]. by rewrite Hsel.
Qed.

Lemma count_spec ds collection filter recs schema :
  source_ok ds collection recs → ds_schema ds collection = Some schema →
  ∃ ids, NoDup ids ∧ execute_count ds (mkCount collection filter) = Ok (length ids) ∧
    execute_exists ds (mkExists collection filter) = Ok (bool_decide (ids ≠ [])) ∧
    ∀ id, id ∈ ids ↔ ∃ r, recs !! id = Some r ∧ passes filter r = true.
Proof.
  intros Hok Hs. destruct (scan_ids _ _ _ Hok) as [Hnd Hel].
  exists (rec_id <$> base.filter (λ r, passes filter r = true) (ds_scan ds collection)). split_and!.
  - eapply sublist_NoDup; [exact Hnd|]. apply fmap_sublist, sublist_filter.
  - unfold execute_count, require_schema. simpl. rewrite Hs. simpl. by rewrite length_fmap.
  - unfold execute_exists, require_schema. simpl. rewrite Hs. simpl. f_equal.
    clear. induction (ds_scan ds collection) as [|r l IH]; [done|]. rewrite filter_cons. simpl.
    case_decide as Hd; [by rewrite Hd|]. destruct (passes filter r); [done|]. simpl. by rewrite IH.
  - intros id. rewrite list_elem_of_fmap. split.
    + intros (r & -> & [Hp Hin]%list_elem_of_filter). exists r. split; [|done].
      rewrite (sk_scan _ _ _ Hok) in Hin. apply list_elem_of_fmap in Hin as ([i r'] & -> & Hin).
      apply elem_of_map_to_list in Hin. simpl. by rewrite (sk_id _ _ _ Hok i r').
    + intros (r & Hr & Hp). exists r. split; [by rewrite (sk_id _ _ _ Hok id r)|].
      apply list_elem_of_filter. split; [done|]. rewrite (sk_scan _ _ _ Hok).
      apply list_elem_of_fmap. exists (id, r). by rewrite elem_of_map_to_list.
Qed.

(** C24: the plan does not change what is found.  Take an unranked find over a source that
    keeps its contract, in which equality conditions on indexed fields are with a text or
    a boolean and the indexed fields have plain names ([seedable]: an index by JSON text
    misses equal numbers).  Whatever the statistics, it succeeds and returns, up to offset
    and limit, the records the filter accepts, each once; the count and the existence test
    with the same filter agree with it. *)
Theorem find_returns_accepted ds q recs ci schema n :
  source_ok ds (fq_collection q) recs → ds_schema ds (fq_collection q) = Some schema →
  ds_indexes ds (fq_collection q) = Some ci → unranked q → seedable ci q = true →
  ∃ all res, (run_find ds q deadline_none n).2 = Ok res ∧ pf_ordered res.1 = window q all ∧
    NoDup (sc_id <$> all) ∧ (∀ id, id ∈ sc_id <$> all ↔ accepted q recs id) ∧
    execute_count ds (mkCount (fq_collection q) (fq_filter q)) = Ok (length all) ∧
    execute_exists ds (mkExists (fq_collection q) (fq_filter q)) = Ok (bool_decide (all ≠ [])).
Proof.
  intros Hok Hs Hci Hun Hseed. rewrite run_find_unbounded.
  destruct (find_result_unranked ds q recs ci schema Hok Hs Hci Hun Hseed)
    as (sel & Hsel & Hres & Hnd & Hel & _).
  eexists (order_matched ds q (se_score_ordered sel) (kept ds q (se_candidates sel))), _.
  split; [exact Hres|]. split; [done|].
  destruct (count_spec ds _ (fq_filter q) recs schema Hok Hs) as (ids & Hidnd & Hcount & Hexists & Hids).
  set (all := order_matched _ _ _ _).
  assert (Hperm : sc_id <$> all ≡ₚ ids).
  { unfold all. rewrite order_matched_perm. apply NoDup_Permutation; [done|done|].
    intros id. by rewrite Hel, Hids. }
  assert (Hlen : length all = length ids) by (by rewrite <- Hperm, length_fmap).
  split_and!.
  - by rewrite Hperm.
  - intros id. by rewrite Hperm, Hids.
  - by rewrite Hcount, Hlen.
  - rewrite Hexists. f_equal. apply bool_decide_ext. by rewrite <- !length_zero_iff_nil, Hlen.
Qed.
End filtering.
