(* ===== verification/ExecOrder.v ===== *)
(** * Ordered results

    [order_by] sorts by the keys in turn and then by record id.  When the values of every
    key can be compared with each other this is a total order, and the rows of a find,
    their order and the part a limit cuts off do not depend on the statistics or on the
    order in which the source scans its records. *)

From Stdlib Require Import Floats.SpecFloat.
From S2P Require Import Prelude Sorting BTree Text Value Core Rank Eval Chars Index Vector TextSearch Analyzer AnalyzedSearch Snippet Query Planner Cursor Exec ExecSpec.

(** ** Values of one kind *)

(** Numbers without NaN, timestamps, texts, booleans and nulls; a kind is ordered in
    itself.  Integers and timestamps can be compared, but integers go through [f64] among
    themselves and not against timestamps. *)
Definition value_kind (v : Value) : option N :=
  (match v with
   | VInt _ => Some 0
   | VFloat S754_nan => None
   | VFloat _ => Some 0
   | VTimestamp _ => Some 1
   | VText _ => Some 2
   | VBool _ => Some 3
   | VNull => Some 4
   | _ => None
   end)%N.

Definition value_cmp (x y : Value) : comparison := default Eq (order x y).

Lemma kcompare_total {K} `{OrdKey K} (P : K → Prop) : total_on kcompare P.
Proof.
  split.
  - intros a b _ _. apply kcompare_antisym.
  - intros a b c _ _ _. apply kcompare_trans.
  - intros a b _ _. apply kcompare_eq.
Qed.

Lemma value_kind_number v : value_kind v = Some 0%N → ∃ x, as_f64 v = Some x ∧ x ≠ S754_nan ∧
  ∀ w y, value_kind w = Some 0%N → as_f64 w = Some y → order v w = SFcompare x y.
Proof.
  destruct v as [| |i|f| | | | | |]; try done; intros Hk.
  - exists (f64_of_i64 i). split_and!; [done|apply binary_normalize_number|].
    intros [] y Hw; try done; by intros [= <-].
  - exists f. split_and!; [done|by destruct f|]. intros [] y Hw; try done; by intros [= <-].
Qed.

Lemma value_cmp_preorder kind : preorder_on value_cmp (λ v, value_kind v = Some kind).
Proof.
  split; [intros a b _ _; unfold value_cmp; rewrite order_swap; by destruct (order a b) as [[]|]|].
  intros a b c Ha Hb Hc. destruct (decide (kind = 0%N)) as [->|Hne].
  - destruct (value_kind_number a Ha) as (x & Hx & Hxn & Hxo).
    destruct (value_kind_number b Hb) as (y & Hy & Hyn & Hyo).
    destruct (value_kind_number c Hc) as (z & Hz & Hzn & Hzo).
    unfold value_cmp. rewrite (Hxo b y), (Hyo c z), (Hxo c z) by done.
    pose proof (SFcompare_key x y Hxn Hyn) as Kxy. pose proof (SFcompare_key y z Hyn Hzn) as Kyz.
    pose proof (SFcompare_key x z Hxn Hzn) as Kxz. unfold key_lt in *.
    destruct (float_key x) as [[x1 x2] x3], (float_key y) as [[y1 y2] y3], (float_key z) as [[z1 z2] z3].
    destruct (SFcompare x y) as [[]|], (SFcompare y z) as [[]|], (SFcompare x z) as [[]|];
      simpl in *; simplify_eq; try done; lia.
  - unfold value_cmp. destruct a as [|a|a|a|a|a|a|a|a|a], b as [|b|b|b|b|b|b|b|b|b],
      c as [|c|c|c|c|c|c|c|c|c]; simpl in *; simplify_eq; try done;
      try (by destruct a; simplify_eq); try (by destruct b; simplify_eq).
    + by destruct a, b, c.
    + exact (pc_trans _ _ (total_preorder _ _ (kcompare_total (λ _ : string, True))) a b c I I I).
    + destruct (Z.compare_spec a b), (Z.compare_spec b c), (Z.compare_spec a c); try done; lia.
Qed.

(** ** Records by keys *)

Definition comparable (keys : list OrderKey) (recs : gmap N Rec) : Prop :=
  ∀ key, key ∈ keys → ∃ kind, ∀ id r v, recs !! id = Some r →
    record_get_path r (ok_field key) = Some v → value_kind v = Some kind.

Definition live_in (recs : gmap N Rec) (o : option Rec) : Prop :=
  ∀ r, o = Some r → ∃ id, recs !! id = Some r.

Lemma order_keys_preorder keys recs :
  comparable keys recs → preorder_on (λ ra rb, order_keys_cmp ra rb keys) (live_in recs).
Proof.
  induction keys as [|key keys IH]; intros Hc; [apply preorder_eq|]. cbn [order_keys_cmp]. cbv zeta.
  destruct (Hc key) as [kind Hkind]; [by left|].
  assert (Hkey : preorder_on (λ ra rb : option Rec,
    option_cmp value_cmp (ra ≫= λ r, record_get_path r (ok_field key))
      (rb ≫= λ r, record_get_path r (ok_field key))) (live_in recs)).
  { apply (preorder_pull (λ ra : option Rec, ra ≫= λ r, record_get_path r (ok_field key)) _
      (λ o, ∀ x, o = Some x → value_kind x = Some kind)).
    - intros o Ho v Hv. apply bind_Some in Hv as (r & -> & Hv). destruct (Ho r eq_refl) as [id Hid]. eauto.
    - apply preorder_option, value_cmp_preorder. }
  apply (preorder_then (λ ra rb : option Rec, if ok_desc key then CompOpp _ else _)).
  - destruct (ok_desc key); [by apply preorder_opp|done].
  - apply IH. intros k Hk. apply Hc. by right.
Qed.

Section ordered.
Context `{Unicode, CharCase, NaturalLog, MapOrder, AnnSearch, ElapsedTime} `{JsonText, !JsonTextLaws}.
Implicit Types (ds : DataSource) (q : FindQuery).

Lemma order_cmp_total ds collection recs keys (l : list Scored) :
  source_ok ds collection recs → comparable keys recs → NoDup (sc_id <$> l) →
  total_on (order_cmp ds collection keys) (.∈ l).
Proof.
  intros Hok Hc Hnd. apply preorder_total.
  - unfold order_cmp, then_cmp. apply preorder_then.
    + apply (preorder_pull (λ s : Scored, ds_get ds collection (sc_id s))
        (λ ra rb, order_keys_cmp ra rb keys) (live_in recs));
        [|by apply order_keys_preorder]. intros s _ r Hr. rewrite (sk_get _ _ _ Hok) in Hr. eauto.
    + apply (preorder_pull sc_id N.compare (λ _, True)); [done|].
      split; [intros a b _ _; apply N.compare_antisym|]. intros a b c _ _ _.
      rewrite !N.compare_gt_iff. lia.
  - intros a b Ha Hb Heq. unfold order_cmp, then_cmp in Heq.
    destruct (order_keys_cmp _ _ _); [|done|done]. apply N.compare_eq in Heq.
    apply list_elem_of_lookup_1 in Ha as [i Hi]. apply list_elem_of_lookup_1 in Hb as [j Hj].
    assert (i = j) as ->; [|congruence].
    apply (NoDup_lookup (sc_id <$> l) i j (sc_id a)); [done|..]; rewrite list_lookup_fmap.
    + by rewrite Hi.
    + rewrite Hj. simpl. by rewrite Heq.
Qed.
(** A conjunct that a text index can seed. *)
Fixpoint text_seeds (ci : CollectionIndexes) (f : Filter) : bool :=
  match f with
  | FContainsText field _ => has_text_index ci field
  | FAnd fs => existsb (text_seeds ci) fs
  | _ => false
  end.

Lemma no_text_seed ci schema stats n f c field query :
  text_seeds ci f = false → c ∈ collect_candidates schema ci stats n f →
  ca_access c ≠ AFullText field query.
Proof.
  induction f as [fs IH|fs IH|f IH|field' op v|field' sub|field'|field' query']
    using Filter_nested_ind; intros Ht Hc; try (by apply not_elem_of_nil in Hc).
  - simpl in *. apply list_elem_of_join in Hc as (l & Hc & Hl).
    apply list_elem_of_In, in_map_iff in Hl as (f & <- & Hf%list_elem_of_In).
    rewrite Forall_forall in IH. apply (IH f Hf); [|done].
    destruct (text_seeds ci f) eqn:E; [|done]. rewrite <- Ht. symmetry. apply existsb_exists.
    exists f. by rewrite <- list_elem_of_In.
  - destruct op; try (by apply not_elem_of_nil in Hc). simpl in Hc.
    case_match; [|by apply not_elem_of_nil in Hc]. apply list_elem_of_singleton in Hc as ->.
    unfold eq_candidate. by repeat case_match.
  - simpl in Ht, Hc. rewrite Ht in Hc. by apply not_elem_of_nil in Hc.
Qed.

Definition text_seeded ci q : bool :=
  match fq_filter q with Some f => text_seeds ci f | None => false end.

Lemma source_plan_no_text ds q schema ci field query :
  unranked q → text_seeded ci q = false →
  pl_access (source_plan ds q schema ci) ≠ AFullText field query.
Proof.
  intros Hun Ht. unfold source_plan, plan_find. cbv zeta. cbn [pl_access].
  set (rows := match ds_stats ds (fq_collection q) with Some _ => 0 | None => _ end).
  destruct (choose_unranked q schema ci (ds_stats ds (fq_collection q)) rows Hun)
    as [->|(f & k & Hf & Hin)]; [done|].
  unfold text_seeded in Ht. rewrite Hf in Ht. by eapply no_text_seed.
Qed.

(** The matched rows of an ordered query. *)
Definition sorted_rows ds q keys (ids : list N) : list Scored :=
  sort_by (order_cmp ds (fq_collection q) keys) (scored_plain <$> ids).

Lemma plain_ids (ids : list N) : sc_id <$> (scored_plain <$> ids) = ids.
Proof. rewrite <- list_fmap_compose. by apply list_fmap_id. Qed.

Lemma find_result_ordered ds q recs ci schema key keys :
  source_ok ds (fq_collection q) recs → ds_schema ds (fq_collection q) = Some schema →
  ds_indexes ds (fq_collection q) = Some ci → unranked q → seedable ci q = true →
  text_seeded ci q = false → fq_order_by q = key :: keys →
  ∃ ids res, find_result ds q = Ok res ∧ NoDup ids ∧ (∀ id, id ∈ ids ↔ accepted q recs id) ∧
    pf_ordered res.1 = window q (sorted_rows ds q (key :: keys) ids).
Proof.
  intros Hok Hs Hci Hun Hseed Htext Hkeys.
  destruct (find_result_unranked ds q recs ci schema Hok Hs Hci Hun Hseed)
    as (sel & Hsel & Hres & Hnd & Hel & Hplain).
  destruct Hplain as [Hso Hcands]; [intros f query; by apply source_plan_no_text|].
  exists (sc_id <$> kept ds q (se_candidates sel)). eexists. split; [exact Hres|].
  split_and!; [done|done|]. simpl. unfold order_matched. rewrite Hso, Hkeys.
  unfold order_records, sorted_rows. do 2 f_equal.
  rewrite Hcands. unfold kept. clear. induction (sc_id <$> se_candidates sel) as [|id l IH]; [done|].
  cbn [fmap list_fmap]. rewrite filter_cons. case_decide; [|exact IH]. cbn [fmap list_fmap]. f_equal. exact IH.
Qed.

(** C25: an ordered find is a function of the records.  Take an unranked find in which
    equality conditions on indexed fields are with a text or a boolean on plain fields
    ([seedable]), that no text index seeds, and whose ordering keys hold values that can
    be compared.  Two sources over the same records and indexes return the same rows in
    the same order, offset and limit included, whatever their statistics and scan order;
    the rows are sorted by the keys, then by id. *)
Theorem ordered_find_deterministic ds ds' q recs ci schema key keys n n' :
  source_ok ds (fq_collection q) recs → source_ok ds' (fq_collection q) recs →
  ds_schema ds (fq_collection q) = Some schema → ds_schema ds' (fq_collection q) = Some schema →
  ds_indexes ds (fq_collection q) = Some ci → ds_indexes ds' (fq_collection q) = Some ci →
  unranked q → seedable ci q = true → text_seeded ci q = false →
  fq_order_by q = key :: keys → comparable (key :: keys) recs →
  ∃ all res res', (run_find ds q deadline_none n).2 = Ok res ∧
    (run_find ds' q deadline_none n').2 = Ok res' ∧
    pf_ordered res.1 = window q all ∧ pf_ordered res'.1 = window q all ∧
    StronglySorted (λ a b, order_cmp ds (fq_collection q) (key :: keys) a b = Lt) all ∧
    ∀ id, id ∈ sc_id <$> all ↔ accepted q recs id.
Proof.
  intros Hok Hok' Hs Hs' Hci Hci' Hun Hseed Htext Hkeys Hc. rewrite !run_find_unbounded.
  destruct (find_result_ordered ds q recs ci schema key keys) as (ids & res & Hres & Hnd & Hel & Hord);
    [done..|].
  destruct (find_result_ordered ds' q recs ci schema key keys) as (ids' & res' & Hres' & Hnd' & Hel' & Hord');
    [done..|].
  assert (Hperm : ids ≡ₚ ids') by (apply NoDup_Permutation; [done|done|]; intros id; by rewrite Hel, Hel').
  assert (Htot : total_on (order_cmp ds (fq_collection q) (key :: keys)) (.∈ scored_plain <$> ids)).
  { apply (order_cmp_total ds _ recs); [done|done|]. by rewrite plain_ids. }
  assert (Hndp : NoDup (scored_plain <$> ids))
    by (apply (NoDup_fmap_1 sc_id); by rewrite plain_ids).
  assert (Hall : Forall (.∈ scored_plain <$> ids) (scored_plain <$> ids)) by (by apply Forall_forall).
  exists (sorted_rows ds q (key :: keys) ids), res, res'. split_and!; [done|done|done| | |].
  - rewrite Hord'. f_equal. unfold sorted_rows.
    rewrite (sort_by_ext _ (order_cmp ds (fq_collection q) (key :: keys))).
    + symmetry. apply (sort_by_permute _ Htot _ _ Hall Hndp). by rewrite Hperm.
    + intros a b _ _. unfold order_cmp. by rewrite !(sk_get _ _ _ Hok), !(sk_get _ _ _ Hok').
  - by apply (sort_by_sorted _ Htot _ Hall Hndp).
  - intros id. unfold sorted_rows. rewrite sort_by_perm, plain_ids. apply Hel.
Qed.
End ordered.
