(* ===== verification/SearchPage.v ===== *)
(** * Paged ranked search

    Models [paginate_ranked] of [crates/auradb-query/src/cursor.rs] as the engine runs it:
    every page evaluates the ranked query without its offset and limit and continues
    behind the cursor's key.  On a store that does not change, following the cursors
    delivers the ranked result of the executor, complete and in order.

    The JSON text a query is fingerprinted from is a parameter. *)

From Stdlib Require Import Floats.SpecFloat.
From stdpp Require Import sorting.
From S2P Require Import Prelude Sorting BTree Text Value Core Rank Eval Chars Index Vector TextSearch Analyzer AnalyzedSearch Snippet Query Planner Cursor Exec ExecSpec.

(** [serde_json::to_vec] of the parts of a query its cursors are bound to. *)
Class QueryJson := query_json :
  string → option Filter → option VectorSearch → option TextSearch → option HybridSearch → list byte.

Definition query_fingerprint `{QueryJson} (q : FindQuery) : N :=
  fnv1a (query_json (fq_collection q) (fq_filter q) (fq_vector q) (fq_text_search q) (fq_hybrid q)).

(** The query with neither offset nor limit. *)
Definition full_query (q : FindQuery) : FindQuery :=
  mkFind (fq_collection q) (fq_filter q) (fq_vector q) (fq_vector_ann q) (fq_text_search q)
    (fq_hybrid q) (fq_order_by q) None None (fq_projection q) (fq_includes q) (fq_timeout_ms q)
    (fq_snippet q).

Section pages.
Context `{Unicode, CharCase, NaturalLog, MapOrder, AnnSearch, ElapsedTime} `{JsonText, QueryJson}.
Implicit Types (ds : DataSource) (q : FindQuery) (d : Deadline).

Definition search_ranked_page ds q (page_size : nat) (cursor : option (list byte)) d
  : SE nat Error RankedPage :=
  if (page_size =? 0) then se_fail EInvalidRequest
  else if negb (is_ranked q) then se_fail EInvalidRequest
  else
    planned <~ execute_find_within ds (full_query q) d;;
    lift_res (paginate_ranked true (query_fingerprint q) (pf_ordered planned) page_size cursor).

(** A client that follows the cursors, at most [fuel] pages. *)
Fixpoint follow_search (fuel : nat) ds q (page_size : nat) (cursor : option (list byte)) d
  : SE nat Error (list RankedPage) :=
  match fuel with
  | O => se_ret []
  | S fuel' =>
      page <~ search_ranked_page ds q page_size cursor d;;
      match pg_next_cursor page with
      | None => se_ret [page]
      | Some token =>
          rest <~ follow_search fuel' ds q page_size (Some token) d;;
          se_ret (page :: rest)
      end
  end.

(** ** The candidates of ranked queries are distinct *)

Lemma keep_best_sub {A} (cmp : A → A → comparison) k h c : keep_best cmp k h c ⊆+ c :: h.
Proof.
  unfold keep_best. destruct (length h <? k); [by rewrite insert_by_perm|].
  destruct (last h) as [w|] eqn:El; [|by apply submseteq_cons].
  destruct (cmp c w); [by apply submseteq_cons| |by apply submseteq_cons].
  rewrite insert_by_perm. apply submseteq_skip.
  apply last_Some in El as [l ->]. rewrite removelast_last. by apply submseteq_inserts_r.
Qed.

Lemma submseteq_distinct {A} (l k : list A) : l ⊆+ k → NoDup k → NoDup l.
Proof. intros [l' ->]%submseteq_Permutation. by intros [? _]%NoDup_app. Qed.

Lemma nearest_sub entries query k metric :
  nearest entries query k metric ⊆+ candidates query metric entries.
Proof.
  destruct k as [|k]; [apply submseteq_nil_l|]. rewrite nearest_selects, sort_by_perm.
  generalize (candidates query metric entries). intros l.
  assert (Hf : ∀ h, foldl (keep_best rank_cmp (S k)) h l ⊆+ h ++ l); [|apply (Hf [])].
  induction l as [|c l IH]; intros h; simpl; [by rewrite app_nil_r|].
  rewrite IH, <- Permutation_middle, app_comm_cons. apply submseteq_skips_r, keep_best_sub.
Qed.

Lemma vector_nearest_ids `{!MapOrderLaws} ci field query k metric ns :
  vector_nearest ci field query k metric = Ok ns → NoDup (nb_id <$> ns).
Proof.
  unfold vector_nearest. destruct (ci_vector_maps ci !! field) as [vi|]; [|done].
  destruct (negb _); [done|]. intros [= <-].
  eapply submseteq_distinct; [apply fmap_submseteq, nearest_sub|].
  apply candidates_ids. rewrite map_order_perm. apply NoDup_fst_map_to_list.
Qed.

Lemma text_bm25_ids ci field query require_all k1 b l :
  text_bm25_search ci field query require_all k1 b = Ok l → NoDup l.*1.
Proof.
  unfold text_bm25_search. destruct (ci_text_maps ci !! field) as [ti|]; [|done]. intros [= <-].
  apply bm25_over_spec.
Qed.

Lemma text_search_ids ci field query l : text_search ci field query = Ok l → NoDup l.*1.
Proof.
  unfold text_search. destruct (ci_text_maps ci !! field) as [ti|]; [|done]. intros [= <-].
  apply search_over_spec.
Qed.

Lemma analyzed_ids ci field query p bm25 require_all k1 b l :
  analyzed_candidates ci field query p bm25 require_all k1 b = Ok l → NoDup l.*1.
Proof.
  unfold analyzed_candidates, text_search_analyzed.
  destruct (ci_text_maps ci !! field) as [ti|]; [|done]. destruct (analyzed_view ti p) as [view|]; [|done].
  simpl. destruct bm25; intros [= <-]; [apply bm25_over_spec|apply search_over_spec].
Qed.

Lemma omap_fst_sublist {A B} (f : N * A → option (N * B)) l :
  (∀ p x, f p = Some x → x.1 = p.1) → (omap f l).*1 `sublist_of` l.*1.
Proof.
  intros Hf. induction l as [|p l IH]; [constructor|]. cbn [omap list_omap]. rewrite fmap_cons.
  destruct (f p) as [x|] eqn:E; [|by apply sublist_cons]. rewrite fmap_cons, (Hf _ _ E). by apply sublist_skip.
Qed.

Lemma keyword_ids ds collection ci field query p k1 b l :
  keyword_candidates ds collection ci field query p k1 b = Ok l → NoDup l.*1.
Proof.
  unfold keyword_candidates. destruct (index_terms p query) as [|t ts]; [intros [= <-]; constructor|].
  destruct (text_bm25_search ci field query true k1 b) as [c|] eqn:E; [|done]. intros [= <-].
  rewrite sort_by_perm. eapply sublist_NoDup; [by eapply text_bm25_ids|].
  apply omap_fst_sublist. intros x y. repeat case_match; try done; by intros [= <-].
Qed.

Lemma ranked_pairs (l : list (N * f32)) :
  NoDup l.*1 →
  NoDup (sc_id <$> ((λ r, scored_ranked r.1 r.2) <$> l)) ∧
  Forall (λ s, is_Some (sc_score s)) ((λ r, scored_ranked r.1 r.2) <$> l).
Proof.
  intros Hnd. rewrite <- list_fmap_compose. split; [exact Hnd|].
  apply Forall_fmap, Forall_forall. intros r _. by eexists.
Qed.

Lemma ranked_text_distinct ds collection ci ts p cands :
  ranked_text_candidates ds collection ci ts p = Ok cands →
  NoDup (sc_id <$> cands) ∧ Forall (λ s, is_Some (sc_score s)) cands.
Proof.
  unfold ranked_text_candidates. case_bool_decide; [done|]. intros Hc.
  match type of Hc with res_bind ?m _ = _ => destruct m as [l|] eqn:El; [|done] end.
  injection Hc as <-. apply ranked_pairs.
  destruct p; [destruct (ts_rank ts)..| |]; eauto using text_bm25_ids, text_search_ids, analyzed_ids, keyword_ids.
Qed.

Lemma sorted_ids_nodup ids : NoDup (sorted_ids ids).
Proof. unfold sorted_ids. rewrite sort_by_perm. apply NoDup_elements. Qed.

Lemma hybrid_distinct ds collection ci hs p cands m n :
  hybrid_candidates ds collection ci hs p = Ok (cands, m, n) →
  NoDup (sc_id <$> cands) ∧ Forall (λ s, is_Some (sc_score s)) cands.
Proof.
  unfold hybrid_candidates. intros Hc. do 3 (case_if; [done|]). res_inv.
  assert (Hids : ∀ (f : N → Scored) ids, (∀ id, sc_id (f id) = id ∧ is_Some (sc_score (f id))) →
    NoDup (sc_id <$> (f <$> sorted_ids ids)) ∧
    Forall (λ s, is_Some (sc_score s)) (f <$> sorted_ids ids)).
  { intros f ids Hf. split; [|apply Forall_fmap, Forall_forall; intros id _; apply Hf].
    rewrite <- list_fmap_compose. replace ((sc_id ∘ f) <$> sorted_ids ids) with (sorted_ids ids);
      [apply sorted_ids_nodup|]. rewrite <- (list_fmap_id (sorted_ids ids)) at 1.
    apply list_fmap_ext. intros i id _. symmetry. apply Hf. }
  destruct (hs_fusion hs).
  - unfold weighted_sum. destruct (min_max _) as [tmin tmax], (min_max _) as [vmin vmax]. apply Hids. eauto.
  - unfold rank_fusion. apply Hids. eauto.
Qed.

(** The plan of a ranked query is that of its clause. *)
Lemma select_ranked `{!MapOrderLaws} ds ci q schema sel :
  is_ranked q = true → fq_vector_ann q = None →
  select_candidates ds ci q (pl_access (source_plan ds q schema ci)) = Ok sel →
  NoDup (sc_id <$> se_candidates sel) ∧ se_score_ordered sel = true ∧
  Forall (λ s, is_Some (sc_score s)) (se_candidates sel).
Proof.
  unfold is_ranked, source_plan, plan_find, choose_access. cbn [pl_access]. intros Hr Hann.
  destruct (fq_hybrid q) as [hs|] eqn:Eh; [|destruct (fq_text_search q) as [ts|] eqn:Et;
    [|destruct (fq_vector q) as [vs|] eqn:Ev; [|by rewrite bool_decide_eq_false_2 in Hr by (intros [[]|[[]|[]]]; done)]]];
    cbn [ca_access select_candidates]; rewrite ?Eh, ?Et, ?Ev; intros Hs; res_inv.
  - match goal with x : (list Scored * nat * nat)%type |- _ => destruct x as [[cands m] k] end.
    simplify_eq. simpl. match goal with E : hybrid_candidates _ _ _ _ _ = _ |- _ =>
      apply hybrid_distinct in E as [? ?] end. done.
  - match goal with E : ranked_text_candidates _ _ _ _ _ = _ |- _ =>
      apply ranked_text_distinct in E as [? ?] end. done.
  - match goal with E : vector_candidates _ _ _ = Ok ?l |- _ => rename E into En end.
    unfold vector_candidates in En. rewrite Hann in En. cbn [resolve_vector_mode] in En. res_inv.
    simpl. rewrite <- list_fmap_compose. split_and!; [by eapply vector_nearest_ids|done|].
    apply Forall_fmap, Forall_forall. intros x _. by eexists.
Qed.

(** ** The ranked result *)

Lemma sublist_forall {A} (P : A → Prop) l k : l `sublist_of` k → Forall P k → Forall P l.
Proof. induction 1; rewrite ?Forall_cons; naive_solver. Qed.

Lemma sorted_drop {A} (R : A → A → Prop) n l : StronglySorted R l → StronglySorted R (drop n l).
Proof. rewrite <- (take_drop n l) at 1. by intros [_ [_ ?]]%StronglySorted_app. Qed.

Lemma sorted_take {A} (R : A → A → Prop) n l : StronglySorted R l → StronglySorted R (take n l).
Proof. rewrite <- (take_drop n l) at 1. by intros [_ [? _]]%StronglySorted_app. Qed.

Lemma scored_cmp_ranked a b :
  is_Some (sc_score a) → is_Some (sc_score b) → scored_cmp a b = ranked_cmp score_of sc_id a b.
Proof.
  intros [x Hx] [y Hy]. unfold scored_cmp, ranked_cmp, option_partial_cmp, score_of. by rewrite Hx, Hy.
Qed.

Lemma ranked_cmp_lt a b :
  score_of a ≠ S754_nan → score_of b ≠ S754_nan → cmp_lt (ranked_cmp score_of sc_id) a b → rank_lt a b.
Proof.
  intros Ha Hb. unfold cmp_lt, ranked_cmp, rank_lt.
  pose proof (SFcompare_key _ _ Ha Hb) as K1. pose proof (SFcompare_key _ _ Hb Ha) as K2.
  unfold key_lt in *. destruct (float_key (score_of a)) as [[x1 x2] x3], (float_key (score_of b)) as [[y1 y2] y3].
  destruct (SFcompare (score_of b) (score_of a)) as [[]|], (SFcompare (score_of a) (score_of b)) as [[]|];
    simpl in *; simplify_eq; try done; try lia.
Qed.

(** Scores that a cursor can carry: real numbers in the format of [f32]. *)
Definition pageable (s : Scored) : Prop := row_ok s ∧ score_of s ≠ S754_nan.

Definition page_scores ds q : Prop :=
  ∀ ci schema sel, ds_indexes ds (fq_collection q) = Some ci → ds_schema ds (fq_collection q) = Some schema →
    select_candidates ds ci q (pl_access (source_plan ds q schema ci)) = Ok sel →
    Forall pageable (se_candidates sel) ∧ (N.of_nat (length (se_candidates sel)) < 2 ^ 64)%N.

Lemma sort_ranked l :
  Forall pageable l → Forall (λ s, is_Some (sc_score s)) l → NoDup (sc_id <$> l) →
  StronglySorted rank_lt (sort_by scored_cmp l).
Proof.
  intros Hp Hs Hnd. rewrite Forall_forall in Hp, Hs.
  rewrite (sort_by_ext scored_cmp (ranked_cmp score_of sc_id)).
  2:{ intros a b Ha Hb. apply scored_cmp_ranked; auto. }
  pose proof (ranked_cmp_total score_of sc_id l Hnd) as Htot.
  assert (Hnan : Forall (λ n, score_of n ≠ S754_nan) l) by (apply Forall_forall; intros s Hin; by apply Hp).
  specialize (Htot Hnan).
  pose proof (sort_by_sorted (ranked_cmp score_of sc_id) Htot l) as Hsort.
  assert (Hall : Forall (.∈ l) l) by (by apply Forall_forall).
  specialize (Hsort Hall (NoDup_fmap_1 _ _ Hnd)).
  assert (Hin : ∀ s, s ∈ sort_by (ranked_cmp score_of sc_id) l → s ∈ l) by (intros s; by rewrite sort_by_perm).
  induction Hsort as [|a k Hk IH Ha]; constructor.
  - apply IH. intros s Hs'. apply Hin. by right.
  - rewrite Forall_forall in Ha. apply Forall_forall. intros b Hb. apply ranked_cmp_lt.
    + apply Hp, Hin. by left.
    + apply Hp, Hin. by right.
    + by apply Ha.
Qed.

Lemma find_ranked `{!MapOrderLaws} ds q planned n :
  is_ranked q = true → fq_vector_ann q = None → page_scores ds q →
  (execute_find_within ds q deadline_none n).2 = Ok planned → ranked_ok (pf_ordered planned).
Proof.
  intros Hr Hann Hps Hf.
  assert (Hres : (let? r := find_result ds q in Ok r.1) = Ok planned).
  { unfold execute_find_within, se_bind in Hf. pose proof (run_find_unbounded ds q n) as Hu.
    destruct (run_find ds q deadline_none n) as [n' [r|e]]; simpl in *; by rewrite <- Hu. }
  unfold find_result, require_schema, source_indexes in Hres. clear Hf.
  destruct (validate_search_clauses q); [|done]. simpl in Hres.
  destruct (ds_schema ds (fq_collection q)) as [schema|] eqn:Es; [|done]. simpl in Hres.
  destruct (ds_indexes ds (fq_collection q)) as [ci|] eqn:Ei; [|done]. simpl in Hres.
  destruct (select_candidates ds ci q _) as [sel|] eqn:Esel; [|done]. simpl in Hres. injection Hres as <-.
  destruct (select_ranked ds ci q schema sel Hr Hann Esel) as (Hnd & Hso & Hsome).
  destruct (Hps ci schema sel Ei Es Esel) as [Hpage Hlen]. cbn [pf_ordered].
  unfold order_matched. rewrite Hso.
  assert (Hsub : kept ds q (se_candidates sel) `sublist_of` se_candidates sel) by apply sublist_filter.
  assert (Hkept : StronglySorted rank_lt (sort_by scored_cmp (kept ds q (se_candidates sel)))).
  { apply sort_ranked; [by eapply sublist_forall..|].
    eapply sublist_NoDup; [exact Hnd|by apply fmap_sublist]. }
  assert (Hrows : Forall row_ok (sort_by scored_cmp (kept ds q (se_candidates sel)))).
  { rewrite sort_by_perm. eapply sublist_forall; [exact Hsub|]. eapply Forall_impl; [exact Hpage|]. by intros s []. }
  assert (Hlk : (length (sort_by scored_cmp (kept ds q (se_candidates sel))) ≤ length (se_candidates sel))%nat).
  { rewrite sort_by_perm. by apply sublist_length. }
  set (l := sort_by scored_cmp (kept ds q (se_candidates sel))) in *.
  unfold window. split.
  - destruct (match fq_limit q with Some _ => _ | None => _ end);
      [apply sorted_take|]; by apply sorted_drop.
  - destruct (match fq_limit q with Some _ => _ | None => _ end);
      [apply Forall_take|]; by apply Forall_drop.
  - destruct (match fq_limit q with Some _ => _ | None => _ end);
      rewrite ?length_take, length_drop; lia.
Qed.

(** Every page is cut from the same result. *)
Lemma search_page_unbounded ds q planned page_size cursor n n' :
  is_ranked q = true → (execute_find_within ds (full_query q) deadline_none n).2 = Ok planned →
  (search_ranked_page ds q page_size cursor deadline_none n').2
  = paginate_ranked true (query_fingerprint q) (pf_ordered planned) page_size cursor.
Proof.
  intros Hr Hf. unfold search_ranked_page, paginate_ranked. destruct (page_size =? 0); [done|]. rewrite Hr.
  assert (Hf' : (execute_find_within ds (full_query q) deadline_none n').2 = Ok planned).
  { rewrite <- Hf. unfold execute_find_within, se_bind.
    pose proof (run_find_unbounded ds (full_query q) n) as E. pose proof (run_find_unbounded ds (full_query q) n') as E'.
    destruct (run_find _ _ _ n) as [? [|]], (run_find _ _ _ n') as [? [|]]; simpl in *; congruence. }
  unfold se_bind, negb. destruct (execute_find_within _ _ _ n') as [n2 [p|e]]; simpl in Hf'; [|done].
  by injection Hf' as ->.
Qed.

Lemma follow_search_follow ds q planned page_size n :
  is_ranked q = true → (execute_find_within ds (full_query q) deadline_none n).2 = Ok planned →
  ∀ fuel cursor n', (follow_search fuel ds q page_size cursor deadline_none n').2
    = follow fuel (query_fingerprint q) (pf_ordered planned) page_size cursor.
Proof.
  intros Hr Hf. induction fuel as [|fuel IH]; intros cursor n'; [done|]. cbn [follow_search follow].
  pose proof (search_page_unbounded ds q planned page_size cursor n n' Hr Hf) as Hp. unfold se_bind.
  destruct (search_ranked_page _ _ _ _ _ n') as [n2 [page|e]]; simpl in Hp; rewrite <- Hp; [|done]. simpl.
  destruct (pg_next_cursor page) as [token|]; [|done]. specialize (IH (Some token) n2).
  destruct (follow_search fuel _ _ _ _ _ n2) as [n3 [rest|e]]; simpl in *; by rewrite <- IH.
Qed.

Lemma fnv1a_bound l : (fnv1a l < 2 ^ 64)%N.
Proof.
  unfold fnv1a. destruct l as [|b l] using rev_ind; [done|]. rewrite foldl_app. simpl.
  by apply N.mod_lt.
Qed.

End pages.
