(* ===== verification/Aggregate.v ===== *)
(** * Aggregations and facets

    Models [crates/auradb-query/src/aggregate.rs]: metrics, terms facets (from the
    postings of an equality index or from the matched records) and GROUP BY, over a full
    scan or the candidates of a ranked search, with the residual filter and the deadline.

    Buckets are collected in hash maps; the order in which these are iterated is a
    parameter. *)

From Stdlib Require Import Floats.SpecFloat.
From stdpp Require Import pretty.
From S2P Require Import Prelude Sorting BTree Text Value Core Rank Eval Chars Index Vector TextSearch Analyzer AnalyzedSearch Snippet Query Planner Cursor Exec ExecSpec ExecOrder.

(** The order in which a hash map with string keys is iterated. *)
Class HashOrder := hash_order : ∀ V : Type, gmap string V → list (string * V).
Class HashOrderLaws `{HashOrder} : Prop :=
  hash_order_perm : ∀ V (m : gmap string V), hash_order V m ≡ₚ map_to_list m.

(** ** Results *)

Record MetricValue := mkMetricValue {
  mv_op : string;
  mv_field : option string;
  mv_value : Value;
}.

Record FacetBucket := mkBucket {
  fb_value : Value;
  fb_count : nat;
}.

Record FacetValues := mkFacetValues {
  fv_field : string;
  fv_used_index : bool;
  fv_buckets : list FacetBucket;
}.

Record GroupBucket := mkGroup {
  gb_key : Value;
  gb_count : nat;
  gb_metrics : list MetricValue;
}.

Record GroupByResult := mkGroups {
  gr_field : string;
  gr_groups : list GroupBucket;
  gr_group_count_total : nat;
  gr_group_limit : nat;
}.

Record AggregateResult := mkAggregateResult {
  ar_collection : string;
  ar_matched : nat;
  ar_scanned : nat;
  ar_filter_present : bool;
  ar_search_scoped : bool;
  ar_metrics : list MetricValue;
  ar_facets : list FacetValues;
  ar_groups : option GroupByResult;
}.

(** ** Buckets *)

(** [validate_field]: a declared field that is not a vector, or a dotted path. *)
Definition validate_agg_field (schema : CollectionSchema) (field : string) : Res unit :=
  match find (λ f, bool_decide (fd_name f = field)) (cs_fields schema) with
  | Some def => match fd_type def with FVector _ => Err EInvalidRequest | _ => Ok tt end
  | None => if bool_decide (split_once_dot field = None) then Err EInvalidRequest else Ok tt
  end.

(** [f64::to_bits]; there is one NaN. *)
Definition f64_to_bits (x : f64) : N :=
  (let sign (s : bool) := if s then 2 ^ 63 else 0 in
   match x with
   | S754_zero s => sign s
   | S754_infinity s => sign s + 2047 * 2 ^ 52
   | S754_nan => 2047 * 2 ^ 52 + 2 ^ 51
   | S754_finite s m e =>
       if (Z.pos m <? 2 ^ 52)%Z then sign s + N.pos m
       else sign s + Z.to_N (e + 1075) * 2 ^ 52 + (N.pos m - 2 ^ 52)
   end)%N.

Definition scalar_key (value : Value) : Res (option string) :=
  match value with
  | VNull => Ok None
  | VBool b => Ok (Some ("b:" ++ (if b then "true" else "false"))%string)
  | VInt i => Ok (Some ("i:" ++ pretty i)%string)
  | VFloat f => Ok (Some ("f:" ++ string_of (hex_digits 16 (f64_to_bits f)))%string)
  | VText s => Ok (Some ("s:" ++ s)%string)
  | VTimestamp t => Ok (Some ("t:" ++ pretty t)%string)
  | VBytes _ | VVector _ | VArray _ | VObject _ => Err EInvalidRequest
  end.

(** [scalar_key(..).ok().flatten()] and the order on options: [None] first. *)
Definition key_of (value : Value) : option string :=
  match scalar_key value with Ok k => k | Err _ => None end.

Definition option_str_cmp (a b : option string) : comparison :=
  match a, b with
  | None, None => Eq
  | None, Some _ => Lt
  | Some _, None => Gt
  | Some x, Some y => String.compare x y
  end.

(** The comparison of bucket values, shared by facets and groups. *)
Definition bucket_value_cmp (a b : Value) : comparison :=
  match order a b with
  | Some c => c
  | None => then_cmp (String.compare (type_name a) (type_name b)) (option_str_cmp (key_of a) (key_of b))
  end.

Definition order_buckets (a b : FacetBucket) : comparison :=
  then_cmp (fb_count b ?= fb_count a)%nat (bucket_value_cmp (fb_value a) (fb_value b)).

Definition order_groups (a b : GroupBucket) : comparison :=
  then_cmp (gb_count b ?= gb_count a)%nat (bucket_value_cmp (gb_key a) (gb_key b)).

(** [entry(key).and_modify(more).or_insert((value, one))]. *)
Definition entry_add {B} (key : string) (value : Value) (one : B) (more : B → B)
    (groups : gmap string (Value * B)) : gmap string (Value * B) :=
  match groups !! key with
  | Some (w, b) => <[key := (w, more b)]> groups
  | None => <[key := (value, one)]> groups
  end.

(** The loops that fill the buckets: an item without a value, or with a null one, is
    skipped; a value that is not a scalar fails the request. *)
Fixpoint bucket_loop {A B} (value_of : A → option Value) (one : A → B) (more : A → B → B)
    (items : list A) (groups : gmap string (Value * B)) : Res (gmap string (Value * B)) :=
  match items with
  | [] => Ok groups
  | a :: items' =>
      match value_of a with
      | None => bucket_loop value_of one more items' groups
      | Some value =>
          let? key := scalar_key value in
          match key with
          | None => bucket_loop value_of one more items' groups
          | Some key =>
              bucket_loop value_of one more items' (entry_add key value (one a) (more a) groups)
          end
      end
  end.

(** ** Metrics *)

Definition agg_op_name (op : AggregateOp) : string :=
  match op with AggCount => "count" | AggMin => "min" | AggMax => "max" | AggAvg => "avg" end.

Definition as_numeric (value : Value) : option f64 :=
  match value with
  | VInt i => Some (f64_of_i64 i)
  | VFloat f => Some f
  | _ => None
  end.

Definition avg_step (field : string) (acc : f64 * N) (rec : Rec) : f64 * N :=
  match record_get_path rec field ≫= as_numeric with
  | Some x => (SFadd f64_prec f64_emax acc.1 x, acc.2 + 1)%N
  | None => acc
  end.

Definition best_step (want_min : bool) (field : string) (best : option Value) (rec : Rec)
  : option Value :=
  match record_get_path rec field with
  | None => best
  | Some v =>
      if is_null v then best
      else Some (match best with
                 | None => v
                 | Some cur =>
                     match order v cur with
                     | Some Lt => if want_min then v else cur
                     | Some Gt => if want_min then cur else v
                     | _ => cur
                     end
                 end)
  end.

Definition compute_metric (m : AggregateMetric) (matched : list Rec) (matched_count : nat)
  : MetricValue :=
  let field := default "" (am_field m) in
  let value :=
    match am_op m with
    | AggCount => VInt (Z.of_nat matched_count)
    | AggAvg =>
        let '(sum, n) := foldl (avg_step field) (S754_zero false, 0%N) matched in
        if (n =? 0)%N then VNull else VFloat (SFdiv f64_prec f64_emax sum (f64_of_i64 (Z.of_N n)))
    | AggMin => default VNull (foldl (best_step true field) None matched)
    | AggMax => default VNull (foldl (best_step false field) None matched)
    end in
  mkMetricValue (agg_op_name (am_op m)) (am_field m) value.

(** ** Facets and groups *)

Section aggregate.
Context `{Unicode, NaturalLog, ElapsedTime, HashOrder} `{JsonText}.
Implicit Types (ds : DataSource) (d : Deadline) (indexes : CollectionIndexes).

(** [CollectionIndexes::facet_postings]. *)
Definition facet_postings indexes (field : string) : option (list (RecordId * nat)) :=
  let representatives (m : gmap string (list N)) :=
    omap (λ ids, (λ rep, (rep, length ids)) <$> head ids) (hash_order _ m).*2 in
  match ci_unique_maps indexes !! field with
  | Some m => Some ((λ id, (id, 1)) <$> (hash_order _ m).*2)
  | None =>
      match ci_secondary_maps indexes !! field with
      | Some m => Some (representatives m)
      | None => representatives <$> ci_doc_path_maps indexes !! field
      end
  end.

(** The buckets of a facet; a missing index is an [expect] that [has_equality_index]
    rules out. *)
Definition facet_groups ds indexes (collection field : string) (matched : list Rec) (use_index : bool)
  : Res (gmap string (Value * nat)) :=
  if use_index then
    match facet_postings indexes field with
    | None => Err EInternal
    | Some postings =>
        bucket_loop (λ p : RecordId * nat, ds_get ds collection p.1 ≫= λ r, record_get_path r field)
          (λ p, p.2) (λ p c, c + p.2) postings ∅
    end
  else bucket_loop (λ r, record_get_path r field) (λ _, 1) (λ _ c, c + 1) matched ∅.

Definition compute_facet ds indexes (collection : string) (f : FacetRequest) (matched : list Rec)
    (can_use_index_base : bool) : Res FacetValues :=
  let use_index := (can_use_index_base && has_equality_index indexes (fr_field f))%bool in
  let? groups := facet_groups ds indexes collection (fr_field f) matched use_index in
  let buckets := (λ p : Value * nat, mkBucket p.1 p.2) <$> (hash_order _ groups).*2 in
  Ok (mkFacetValues (fr_field f) use_index (take (effective_limit f) (sort_by order_buckets buckets))).

(** The loop of [compute_groups], which polls the deadline. *)
Fixpoint group_loop d (field : string) (i : nat) (matched : list Rec)
    (groups : gmap string (Value * list Rec)) : SE nat Error (gmap string (Value * list Rec)) :=
  match matched with
  | [] => se_ret groups
  | rec :: matched' =>
      deadline_check_at d i >>>
      match record_get_path rec field with
      | None => group_loop d field (S i) matched' groups
      | Some value =>
          key <~ lift_res (scalar_key value);;
          match key with
          | None => group_loop d field (S i) matched' groups
          | Some key =>
              group_loop d field (S i) matched'
                (entry_add key value [rec] (λ members, members ++ [rec]) groups)
          end
      end
  end.

Definition group_bucket (metrics : list AggregateMetric) (g : Value * list Rec) : GroupBucket :=
  mkGroup g.1 (length g.2) ((λ m, compute_metric m g.2 (length g.2)) <$> metrics).

Definition finish_groups (q : AggregateQuery) (field : string) (groups : gmap string (Value * list Rec))
  : GroupByResult :=
  let buckets := group_bucket (aq_metrics q) <$> (hash_order _ groups).*2 in
  mkGroups field (take (effective_group_limit q) (sort_by order_groups buckets)) (size groups)
    (effective_group_limit q).

Definition compute_groups d (q : AggregateQuery) (field : string) (matched : list Rec)
  : SE nat Error GroupByResult :=
  groups <~ group_loop d field 0 matched ∅;; se_ret (finish_groups q field groups).

(** ** The request *)

Definition validate_fields (schema : CollectionSchema) (q : AggregateQuery) : Res unit :=
  let? _ := for_each (λ m, match am_field m with
                           | Some field => validate_agg_field schema field
                           | None => Ok tt
                           end) (aq_metrics q) in
  let? _ := for_each (λ f, validate_agg_field schema (fr_field f)) (aq_facets q) in
  match aq_group_by q with Some field => validate_agg_field schema field | None => Ok tt end.

Definition search_candidates indexes (ts : TextSearch) : Res (list RecordId) :=
  let? results :=
    match ts_rank ts with
    | RankTermFrequency => text_search indexes (ts_field ts) (ts_query ts)
    | RankBm25 =>
        text_bm25_search indexes (ts_field ts) (ts_query ts) (op_require_all (ts_operator ts))
          (default BM25_DEFAULT_K1 (ts_k1 ts)) (default BM25_DEFAULT_B (ts_b ts))
    end in
  Ok results.*1.

(** The candidates: those of the ranked clause, or every record. *)
Definition aggregate_candidates ds d indexes (q : AggregateQuery) : SE nat Error (list RecordId) :=
  match aq_text_search q with
  | Some ts => deadline_check d >>> lift_res (search_candidates indexes ts)
  | None => se_ret (rec_id <$> ds_scan ds (aq_collection q))
  end.

Fixpoint match_loop ds d (q : AggregateQuery) (i : nat) (ids : list RecordId) : SE nat Error (list Rec) :=
  match ids with
  | [] => se_ret []
  | id :: rest =>
      deadline_check_at d i >>>
      matched <~ match_loop ds d q (S i) rest;;
      se_ret (match ds_get ds (aq_collection q) id with
              | Some r => if passes (aq_filter q) r then r :: matched else matched
              | None => matched
              end)
  end.

Fixpoint facet_loop ds d indexes (q : AggregateQuery) (matched : list Rec) (can_use_index_base : bool)
    (facets : list FacetRequest) : SE nat Error (list FacetValues) :=
  match facets with
  | [] => se_ret []
  | f :: rest =>
      deadline_check d >>>
      v <~ lift_res (compute_facet ds indexes (aq_collection q) f matched can_use_index_base);;
      vs <~ facet_loop ds d indexes q matched can_use_index_base rest;;
      se_ret (v :: vs)
  end.

Definition execute_aggregate ds (q : AggregateQuery) d : SE nat Error AggregateResult :=
  lift_res (validate_aggregate q) >>>
  schema <~ lift_res (require_schema ds (aq_collection q));;
  indexes <~ lift_res (source_indexes ds (aq_collection q));;
  lift_res (validate_fields schema q) >>>
  ids <~ aggregate_candidates ds d indexes q;;
  matched <~ match_loop ds d q 0 ids;;
  let search_scoped := bool_decide (is_Some (aq_text_search q)) in
  let filter_present := bool_decide (is_Some (aq_filter q)) in
  let metrics := (λ m, compute_metric m matched (length matched)) <$> aq_metrics q in
  facets <~ facet_loop ds d indexes q matched (negb filter_present && negb search_scoped)%bool
              (aq_facets q);;
  groups <~ match aq_group_by q with
            | Some field => g <~ compute_groups d q field matched;; se_ret (Some g)
            | None => se_ret None
            end;;
  se_ret (mkAggregateResult (aq_collection q) (length matched) (length ids) filter_present search_scoped
            metrics facets groups).
End aggregate.
