(* ===== verification/AggregateSpec.v ===== *)
(** * What aggregations compute

    Proves [Aggregate]: the buckets of a facet or a group are the partition of the
    matched records by value, a facet served from an index is the facet of a scan, in
    the same order, and a deadline can only abort an aggregation. *)

From Stdlib Require Import Floats.SpecFloat.
From stdpp Require Import pretty.
From S2P Require Import Prelude Sorting BTree Text Value Core Rank Eval Chars Index Vector TextSearch Analyzer AnalyzedSearch Snippet Query Planner Cursor Exec ExecSpec ExecOrder Aggregate.

(** ** The loops *)

Section loops.
Context {A B : Type} (value_of : A → option Value) (one : A → B) (more : A → B → B).
Implicit Types (items : list A) (groups : gmap string (Value * B)).

Definition item_key (a : A) : option string := value_of a ≫= key_of.

(** The items of a bucket, in order. *)
Definition members (k : string) items : list A := filter (λ a, item_key a = Some k) items.

(** What a bucket holds: the first value, and the items accumulated in order. *)
Definition bucket_of (k : string) items : option (Value * B) :=
  match members k items with
  | [] => None
  | a :: rest => Some (default VNull (value_of a), foldl (λ b x, more x b) (one a) rest)
  end.

Definition item_scalar (a : A) : Prop :=
  match value_of a with Some v => ∃ k, scalar_key v = Ok k | None => True end.

Lemma item_key_entry a v k : value_of a = Some v → scalar_key v = Ok k → item_key a = k.
Proof. intros Hv Hk. unfold item_key, key_of. by rewrite Hv; simpl; rewrite Hk. Qed.

Lemma bucket_loop_lookup items : ∀ groups g k,
  bucket_loop value_of one more items groups = Ok g →
  g !! k = match groups !! k with
           | Some (w, b) => Some (w, foldl (λ b x, more x b) b (members k items))
           | None => bucket_of k items
           end.
Proof.
  induction items as [|a items IH]; intros groups g k; cbn [bucket_loop].
  { intros [= <-]. by destruct (groups !! k) as [[]|]. }
  assert (Hskip : item_key a = None → bucket_loop value_of one more items groups = Ok g →
    g !! k = match groups !! k with
             | Some (w, b) => Some (w, foldl (λ b x, more x b) b (members k (a :: items)))
             | None => bucket_of k (a :: items)
             end).
  { intros Hn Hg. rewrite (IH _ _ k Hg). unfold bucket_of, members. rewrite filter_cons, decide_False by congruence.
    done. }
  destruct (value_of a) as [v|] eqn:Ev; [|apply Hskip; unfold item_key; by rewrite Ev].
  destruct (scalar_key v) as [[key|]|e] eqn:Ek; simpl;
    [|apply Hskip; by eapply item_key_entry|done].
  pose proof (item_key_entry a v _ Ev Ek) as Hkey. intros Hg. rewrite (IH _ _ k Hg).
  unfold bucket_of, members, entry_add. rewrite filter_cons, Hkey.
  destruct (decide (key = k)) as [->|Hne].
  - rewrite decide_True by done. destruct (groups !! k) as [[w b]|] eqn:Eg.
    + by rewrite lookup_insert_eq.
    + rewrite lookup_insert_eq. simpl. by rewrite Ev.
  - rewrite decide_False by congruence. destruct (groups !! key) as [[w b]|];
      by rewrite lookup_insert_ne.
Qed.

Lemma bucket_loop_scalar items : ∀ groups,
  Forall item_scalar items → ∃ g, bucket_loop value_of one more items groups = Ok g.
Proof.
  induction items as [|a items IH]; intros groups Hs; cbn [bucket_loop]; [eauto|].
  apply Forall_cons in Hs as [Ha Hs]. unfold item_scalar in Ha. destruct (value_of a) as [v|]; [|eauto].
  destruct Ha as [[k|] ->]; simpl; eauto.
Qed.

(** The keys in use, each once. *)
Definition bucket_keys items : list string := remove_dups (omap item_key items).

Lemma bucket_of_key items k b : bucket_of k items = Some b → k ∈ bucket_keys items.
Proof.
  unfold bucket_of. destruct (members k items) as [|a l] eqn:E; [done|]. intros _.
  assert (Ha : a ∈ members k items) by (rewrite E; by left).
  apply list_elem_of_filter in Ha as [Hk Ha]. apply elem_of_remove_dups, list_elem_of_omap. eauto.
Qed.

Lemma bucket_key_of items k : k ∈ bucket_keys items → is_Some (bucket_of k items).
Proof.
  unfold bucket_keys. rewrite elem_of_remove_dups, list_elem_of_omap. intros (a & Ha & Hk).
  unfold bucket_of. destruct (members k items) as [|x l] eqn:E; [|eauto].
  assert (Hin : a ∈ members k items) by (by apply list_elem_of_filter). rewrite E in Hin.
  by apply not_elem_of_nil in Hin.
Qed.
End loops.

Section buckets.
Context {A B : Type} (value_of : A → option Value) (one : A → B) (more : A → B → B).
Implicit Types (items : list A).

Lemma bucket_loop_fails items a v e : ∀ groups,
  a ∈ items → value_of a = Some v → scalar_key v = Err e →
  bucket_loop value_of one more items groups = Err EInvalidRequest.
Proof.
  intros groups Ha Hv He. assert (e = EInvalidRequest) as -> by (by destruct v; simplify_eq/=).
  revert groups. induction items as [|x items IH]; intros groups; [by apply not_elem_of_nil in Ha|].
  cbn [bucket_loop]. destruct (value_of x) as [w|] eqn:Ew.
  - destruct (scalar_key w) as [[k|]|e] eqn:Ek; simpl.
    + apply elem_of_cons in Ha as [->|Ha]; [congruence|by apply IH].
    + apply elem_of_cons in Ha as [->|Ha]; [congruence|by apply IH].
    + by destruct w; simplify_eq/=.
  - apply elem_of_cons in Ha as [->|Ha]; [congruence|by apply IH].
Qed.

(** The buckets, listed by key. *)
Definition bucket_list items : list (Value * B) :=
  omap (λ k, bucket_of value_of one more k items) (bucket_keys value_of items).

Lemma bucket_loop_list items g :
  bucket_loop value_of one more items ∅ = Ok g → (map_to_list g).*2 ≡ₚ bucket_list items.
Proof.
  intros Hg.
  assert (Hl : ∀ k, g !! k = bucket_of value_of one more k items)
    by (intros k; by rewrite (bucket_loop_lookup _ _ _ _ _ _ k Hg), lookup_empty).
  assert (Hnd : NoDup (bucket_keys value_of items)) by apply NoDup_remove_dups.
  assert (Hp : map_to_list g ≡ₚ
    omap (λ k, pair k <$> bucket_of value_of one more k items) (bucket_keys value_of items)).
  { apply NoDup_Permutation.
    - apply NoDup_map_to_list.
    - clear Hl. induction Hnd as [|k ks Hk Hnd IH]; [constructor|]. simpl.
      destruct (bucket_of _ _ _ k items) as [b|]; [|done]. simpl. constructor; [|done].
      rewrite list_elem_of_omap. intros (k' & Hk' & Hx). apply fmap_Some in Hx as (b' & _ & [= <- _]). done.
    - intros [k b]. rewrite elem_of_map_to_list, Hl, list_elem_of_omap. split.
      + intros Hb. exists k. rewrite Hb. split; [by eapply bucket_of_key|done].
      + intros (k' & _ & Hx). apply fmap_Some in Hx as (b' & Hb & [= -> ->]). done. }
  rewrite Hp. unfold bucket_list. clear.
  induction (bucket_keys value_of items) as [|k ks IH]; [done|]. simpl.
  destruct (bucket_of _ _ _ k items); simpl; by rewrite IH.
Qed.

Lemma bucket_list_length items : length (bucket_list items) = length (bucket_keys value_of items).
Proof.
  unfold bucket_list. assert (Hk : Forall (λ k, is_Some (bucket_of value_of one more k items))
    (bucket_keys value_of items)) by (apply Forall_forall; intros k; apply bucket_key_of).
  induction Hk as [|k ks [b Hb] Hk IH]; [done|]. cbn [omap list_omap]. rewrite Hb. simpl. by f_equal.
Qed.
End buckets.

(** Every item with a key is a member of one bucket. *)
Lemma members_partition {A} (value_of : A → option Value) items :
  sum_list ((λ k, length (members value_of k items)) <$> bucket_keys value_of items)
  = length (omap (item_key value_of) items).
Proof.
  assert (Hcount : ∀ ks, NoDup ks → (∀ a k, a ∈ items → item_key value_of a = Some k → k ∈ ks) →
    sum_list ((λ k, length (members value_of k items)) <$> ks) = length (omap (item_key value_of) items)).
  { intros ks Hnd. induction items as [|a items IH]; intros Hin.
    - clear. induction ks as [|k ks IH]; [done|]. exact IH.
    - assert (Hrest : ∀ a' k, a' ∈ items → item_key value_of a' = Some k → k ∈ ks)
        by (intros a' k Ha; apply Hin; by right).
      specialize (IH Hrest).
      change (omap (item_key value_of) (a :: items)) with (match item_key value_of a with
        | Some k => k :: omap (item_key value_of) items | None => omap (item_key value_of) items end).
      destruct (item_key value_of a) as [k|] eqn:Ek; [rewrite length_cons|].
      + rewrite <- IH. assert (Hk : k ∈ ks) by (apply (Hin a); [by left|done]). clear -Hnd Hk Ek.
        induction Hnd as [|k' ks Hk' Hnd IHk]; [by apply not_elem_of_nil in Hk|].
        rewrite !fmap_cons. simpl. unfold members at 1. rewrite filter_cons, Ek.
        destruct (decide (k = k')) as [->|Hne].
        * rewrite decide_True by done. simpl. f_equal. f_equal. f_equal. apply list_fmap_ext. intros i x Hx. unfold members. rewrite filter_cons, Ek.
          rewrite decide_False; [done|]. intros [= ->]. apply Hk'. by eapply list_elem_of_lookup_2.
        * rewrite decide_False by congruence. rewrite IHk; [unfold members; lia|].
          by apply elem_of_cons in Hk as [?|?].
      + rewrite <- IH. f_equal. apply list_fmap_ext. intros i k _. unfold members.
        by rewrite filter_cons, decide_False by congruence. }
  apply Hcount; [apply NoDup_remove_dups|]. intros a k Ha Hk.
  apply elem_of_remove_dups, list_elem_of_omap. eauto.
Qed.

(** ** Groups *)

Section groups.
Context `{ElapsedTime, HashOrder, !HashOrderLaws}.
Implicit Types (d : Deadline) (q : AggregateQuery) (matched : list Rec).

(** Records are grouped by the value at a path. *)
Definition path_value (field : string) (r : Rec) : option Value := record_get_path r field.

Definition group_reference (metrics : list AggregateMetric) (field : string) matched
  : list GroupBucket :=
  (λ k, let group := members (path_value field) k matched in
        mkGroup (default VNull (head group ≫= path_value field)) (length group)
          ((λ m, compute_metric m group (length group)) <$> metrics))
    <$> bucket_keys (path_value field) matched.

Lemma group_loop_spec d field matched : ∀ i groups,
  aborts_or d (group_loop d field i matched groups)
    (bucket_loop (path_value field) (λ r, [r]) (λ r ms, ms ++ [r]) matched groups).
Proof.
  induction matched as [|r matched IH]; intros i groups; [apply aborts_ret|].
  cbn [group_loop bucket_loop]. eapply aborts_then; [apply aborts_check_at|].
  unfold path_value at 1. destruct (record_get_path r field) as [v|]; [|apply IH].
  apply aborts_bind; [apply aborts_lift_res|]. intros [k|] _; apply IH.
Qed.

Lemma foldl_snoc {A} (l : list A) : ∀ acc, foldl (λ b x, b ++ [x]) acc l = acc ++ l.
Proof.
  induction l as [|x l IH]; intros acc; simpl; [by rewrite app_nil_r|]. by rewrite IH, <- app_assoc.
Qed.

Lemma group_list_reference metrics field matched :
  group_bucket metrics <$> bucket_list (path_value field) (λ r, [r]) (λ r ms, ms ++ [r]) matched
  = group_reference metrics field matched.
Proof.
  unfold bucket_list, group_reference.
  assert (Hk : Forall (λ k, ∃ a l, members (path_value field) k matched = a :: l)
    (bucket_keys (path_value field) matched)).
  { apply Forall_forall. intros k Hk.
    apply (bucket_key_of (path_value field) (λ r, [r]) (λ r ms, ms ++ [r])) in Hk as [b Hb].
    unfold bucket_of in Hb. destruct (members _ k matched) as [|a l]; [done|eauto]. }
  induction Hk as [|k ks (a & l & Hm) Hk IH]; [done|]. cbn [omap list_omap]. rewrite fmap_cons, Hm.
  unfold bucket_of. rewrite Hm, foldl_snoc. cbn [fmap list_fmap]. unfold bucket_of in IH. f_equal. exact IH.
Qed.

Lemma groups_of_records d q field matched :
  Forall (item_scalar (path_value field)) matched →
  ∃ groups, groups ≡ₚ group_reference (aq_metrics q) field matched ∧
    aborts_or d (compute_groups d q field matched)
      (Ok (mkGroups field (take (effective_group_limit q) (sort_by order_groups groups))
             (length groups) (effective_group_limit q))).
Proof.
  intros Hs. destruct (bucket_loop_scalar (path_value field) (λ r, [r]) (λ r ms, ms ++ [r]) _ ∅ Hs)
    as [g Hg].
  exists (group_bucket (aq_metrics q) <$> (hash_order _ g).*2). split.
  - rewrite hash_order_perm, (bucket_loop_list _ _ _ _ _ Hg). by rewrite group_list_reference.
  - unfold compute_groups. apply (aborts_then d _ _ g).
    + rewrite <- Hg. apply group_loop_spec.
    + unfold finish_groups. rewrite length_fmap, length_fmap.
      rewrite (Permutation_length (hash_order_perm _ g)), length_map_to_list. apply aborts_ret.
Qed.

Lemma groups_of_scalars d q field matched :
  Forall (item_scalar (path_value field)) matched →
  ∃ g, aborts_or d (compute_groups d q field matched) (Ok g).
Proof. intros Hs. destruct (groups_of_records d q field matched Hs) as (groups & _ & Hg). eauto. Qed.

(** Grouping is the partition of the matched records by value.  When every value of
    the field is a scalar or missing, the groups are one per distinct value, each with all
    its records counted and its metrics taken over exactly these; together they hold every
    record that has a value; they come sorted by size and cut at the limit, with the number
    of groups before the cut.  A value that is not a scalar fails the request.  A deadline
    can only abort it. *)
Theorem groups_partition d q field matched :
  (Forall (item_scalar (path_value field)) matched →
   ∃ groups, groups ≡ₚ group_reference (aq_metrics q) field matched ∧
     sum_list (gb_count <$> groups) = length (omap (item_key (path_value field)) matched) ∧
     aborts_or d (compute_groups d q field matched)
       (Ok (mkGroups field (take (effective_group_limit q) (sort_by order_groups groups))
              (length groups) (effective_group_limit q)))) ∧
  (∀ r v e, r ∈ matched → record_get_path r field = Some v → scalar_key v = Err e →
   aborts_or d (compute_groups d q field matched) (Err EInvalidRequest)).
Proof.
  split.
  - intros Hs. destruct (groups_of_records d q field matched Hs) as (groups & Hp & Hg).
    exists groups. split_and!; [done| |done].
    rewrite Hp. unfold group_reference. rewrite <- list_fmap_compose. apply members_partition.
  - intros r v e Hr Hv He. unfold compute_groups.
    apply (aborts_bind d _ _ (Err EInvalidRequest)
      (λ g, Ok (finish_groups q field g))).
    + rewrite <- (bucket_loop_fails (path_value field) (λ r, [r]) (λ r ms, ms ++ [r]) matched r v e ∅
        Hr Hv He). apply group_loop_spec.
    + by intros a [=].
Qed.
End groups.

(** ** Facets *)

(** Values that the order of buckets, their keys and the keys of an index all tell apart. *)
Definition separable (v : Value) : Prop :=
  match v with
  | VText _ | VBool _ => True
  | VInt i => (- 2 ^ 53 < i < 2 ^ 53)%Z
  | VTimestamp t => i64_ok t
  | _ => False
  end.

(** Every value of the field is null or a separable value of one kind. *)
Definition one_kind (field : string) (kind : N) (records : list Rec) : Prop :=
  ∀ r v, r ∈ records → record_get_path r field = Some v → v ≠ VNull →
    separable v ∧ value_kind v = Some kind.

Lemma separable_key v : separable v → ∃ k, scalar_key v = Ok (Some k) ∧ key_of v = Some k ∧ is_null v = false.
Proof. destruct v; simpl; try done; eauto. Qed.

Lemma separable_key_inj v w : separable v → separable w → key_of v = key_of w → v = w.
Proof.
  destruct v as [|b|i| |s| |t| | |], w as [|b'|i'| |s'| |t'| | |]; simpl; try done; intros _ _ Hk;
    try (by destruct b); try (by destruct b');
    [by destruct b, b'|..]; injection Hk as Hk; f_equal; [|done|]; by apply (inj pretty).
Qed.

Lemma separable_order_eq v w kind :
  separable v → separable w → value_kind v = Some kind → value_kind w = Some kind →
  order v w = Some Eq → v = w.
Proof.
  destruct v as [|b|i| |s| |t| | |], w as [|b'|i'| |s'| |t'| | |]; cbn [separable]; try done;
    intros Hv Hw Hkv Hkw; simplify_eq/=; try done.
  - by destruct b, b'.
  - unfold float_partial_cmp. rewrite order_small by done. intros [= ->%Z.compare_eq]. done.
  - intros [= Hc]. f_equal. by apply String.compare_eq_iff.
  - intros [= ->%Z.compare_eq]. done.
Qed.

Lemma separable_index_inj `{JsonText, !JsonTextLaws, !JsonNumberLaws} v w :
  separable v → separable w → index_key v = index_key w → v = w.
Proof.
  intros Hv Hw Hk. unfold index_key in Hk. apply json_text_inj in Hk.
  assert (Hnum : ∀ i j, i64_ok i → i64_ok j → num_of_i64 i = num_of_i64 j → i = j).
  { intros i j Hi Hj He. pose proof (as_i64_of_i64 i Hi) as Hi'. rewrite He, (as_i64_of_i64 j Hj) in Hi'.
    congruence. }
  destruct v as [|b|i| |s| |t| | |], w as [|b'|i'| |s'| |t'| | |]; try done; simpl in *; simplify_eq;
    try done; f_equal; apply Hnum; try done; unfold i64_ok, i64_min, i64_max in *; lia.
Qed.

Section facets.
Context `{Unicode, HashOrder, !HashOrderLaws} `{JsonText, !JsonTextLaws, !JsonNumberLaws}.
Implicit Types (ds : DataSource) (ci : CollectionIndexes) (recs : gmap N Rec) (matched : list Rec).

Definition facet_reference (field : string) matched : list FacetBucket :=
  (λ k, let group := members (path_value field) k matched in
        mkBucket (default VNull (head group ≫= path_value field)) (length group))
    <$> bucket_keys (path_value field) matched.

(** A key of a bucket is that of a separable value. *)
Lemma one_kind_key field kind matched r k :
  one_kind field kind matched → r ∈ matched → item_key (path_value field) r = Some k →
  ∃ v, path_value field r = Some v ∧ key_of v = Some k ∧ separable v ∧ value_kind v = Some kind.
Proof.
  intros Hone Hr Hk. apply bind_Some in Hk as (v & Hv & Hk). exists v.
  destruct (Hone r v Hr Hv) as [Hs Hkind]; [by intros ->|done].
Qed.

Lemma facet_reference_key field kind matched k :
  one_kind field kind matched → k ∈ bucket_keys (path_value field) matched →
  let v := default VNull (head (members (path_value field) k matched) ≫= path_value field) in
  key_of v = Some k ∧ separable v ∧ value_kind v = Some kind.
Proof.
  intros Hone Hk. apply elem_of_remove_dups, list_elem_of_omap in Hk as (r & Hr & Hk).
  assert (Hm : r ∈ members (path_value field) k matched) by (by apply list_elem_of_filter).
  destruct (members _ k matched) as [|r0 l] eqn:E; [by apply not_elem_of_nil in Hm|]. simpl.
  assert (Hr0 : r0 ∈ members (path_value field) k matched) by (rewrite E; by left).
  apply list_elem_of_filter in Hr0 as [Hk0 Hr0].
  by destruct (one_kind_key _ _ _ _ _ Hone Hr0 Hk0) as (v & -> & ? & ? & ?).
Qed.

Lemma facet_reference_value field kind matched b :
  one_kind field kind matched → b ∈ facet_reference field matched →
  separable (fb_value b) ∧ value_kind (fb_value b) = Some kind.
Proof.
  intros Hone Hb. apply list_elem_of_fmap in Hb as (k & -> & Hk). simpl.
  by destruct (facet_reference_key field kind matched k Hone Hk) as (_ & ? & ?).
Qed.

Lemma separable_order a b kind :
  separable a → separable b → value_kind a = Some kind → value_kind b = Some kind →
  ∃ c, order a b = Some c ∧ bucket_value_cmp a b = c ∧ value_cmp a b = c.
Proof.
  intros Ha Hb Hka Hkb. assert (∃ c, order a b = Some c) as [c Hc].
  { destruct a, b; simplify_eq/=; try done; eauto. unfold float_partial_cmp. rewrite order_small by done.
    eauto. }
  exists c. unfold bucket_value_cmp, value_cmp. by rewrite Hc.
Qed.

Lemma bucket_value_kind a b kind :
  separable a → separable b → value_kind a = Some kind → value_kind b = Some kind →
  bucket_value_cmp a b = value_cmp a b.
Proof. intros Ha Hb Hka Hkb. by destruct (separable_order a b kind) as (c & _ & -> & ->). Qed.

Lemma order_buckets_total field kind matched :
  one_kind field kind matched → total_on order_buckets (.∈ facet_reference field matched).
Proof.
  intros Hone. set (P b := separable (fb_value b) ∧ value_kind (fb_value b) = Some kind).
  apply (total_on_mono _ P); [intros b; by apply facet_reference_value|].
  apply preorder_total.
  - unfold order_buckets, then_cmp. apply preorder_then.
    + split; [intros a b _ _; apply Nat.compare_antisym|]. intros a b c _ _ _.
      rewrite !Nat.compare_gt_iff. lia.
    + pose proof (value_cmp_preorder kind) as [Ha Ht]. split.
      * intros a b [] []. rewrite !(bucket_value_kind _ _ kind) by done. by apply Ha.
      * intros a b c [] [] []. rewrite !(bucket_value_kind _ _ kind) by done. by apply Ht.
  - intros [v n] [w m] [Hv Hkv] [Hw Hkw]. unfold order_buckets, then_cmp. simpl in *.
    destruct (m ?= n) eqn:E; [|done|done]. apply Nat.compare_eq in E as ->.
    destruct (separable_order v w kind) as (c & Hc & -> & _); [done..|]. intros ->. f_equal.
    by apply (separable_order_eq v w kind).
Qed.

(** ** Postings *)

Lemma filter_key_unique {A} (f : A → option string) l x k :
  NoDup (f <$> l) → x ∈ l → f x = Some k → filter (λ a, f a = Some k) l = [x].
Proof.
  induction l as [|y l IH]; intros Hnd Hx Hk; [by apply not_elem_of_nil in Hx|].
  rewrite fmap_cons in Hnd. apply NoDup_cons in Hnd as [Hy Hnd]. rewrite filter_cons.
  destruct (decide (f y = Some k)) as [Hyk|Hyk].
  - assert (Hrest : filter (λ a, f a = Some k) l = []).
    { destruct (filter _ l) as [|a l'] eqn:E; [done|]. exfalso. apply Hy. rewrite Hyk.
      assert (Ha : a ∈ filter (λ a, f a = Some k) l) by (rewrite E; by left).
      apply list_elem_of_filter in Ha as [<- Ha]. by apply list_elem_of_fmap_2. }
    rewrite Hrest. apply elem_of_cons in Hx as [->|Hx]; [done|].
    exfalso. apply Hy. rewrite Hyk, <- Hk. by apply list_elem_of_fmap_2.
  - apply elem_of_cons in Hx as [->|Hx]; [done|]. by apply IH.
Qed.

(** What the postings of an index hold: the ids under every key in use. *)
Definition posted_ok (key : Rec → option string) recs (posted : list (string * list N)) : Prop :=
  NoDup posted.*1 ∧
  (∀ k ids, (k, ids) ∈ posted → ids ≠ [] ∧ NoDup ids ∧
     ∀ id, id ∈ ids ↔ ∃ r, recs !! id = Some r ∧ key r = Some k) ∧
  (∀ k id r, recs !! id = Some r → key r = Some k → k ∈ posted.*1).

Definition representatives (posted : list (string * list N)) : list (N * nat) :=
  (λ x, (hd 0%N x.2, length x.2)) <$> posted.

Lemma unique_posted key m recs :
  unique_ok key m recs →
  ∃ posted, posted_ok key recs posted ∧
    (λ id, (id, 1)) <$> (hash_order _ m).*2 = representatives posted.
Proof.
  intros Hu. exists ((λ x, (x.1, [x.2])) <$> hash_order _ m). unfold posted_ok. split_and!.
  - rewrite <- list_fmap_compose. simpl.
    change (NoDup ((hash_order _ m).*1)). rewrite hash_order_perm. apply NoDup_fst_map_to_list.
  - intros k ids Hin. apply list_elem_of_fmap in Hin as ([k' id] & [= -> ->] & Hin).
    rewrite hash_order_perm, elem_of_map_to_list in Hin.
    split_and!; [done|apply NoDup_singleton|]. intros id'. rewrite list_elem_of_singleton, <- (Hu k' id').
    split; [by intros ->|congruence].
  - intros k id r Hr Hk. apply list_elem_of_fmap. exists (k, [id]). split; [done|].
    apply list_elem_of_fmap. exists (k, id). split; [done|].
    rewrite hash_order_perm, elem_of_map_to_list. apply Hu. eauto.
  - unfold representatives. by rewrite <- !list_fmap_compose.
Qed.

Lemma posting_posted key m recs :
  posting_ok key m recs →
  ∃ posted, posted_ok key recs posted ∧
    omap (λ ids, (λ rep, (rep, length ids)) <$> head ids) (hash_order _ m).*2 = representatives posted.
Proof.
  intros Hp. exists (filter (λ x, x.2 ≠ []) (hash_order _ m)). unfold posted_ok. split_and!.
  - apply (sublist_NoDup _ (hash_order _ m).*1).
    + rewrite hash_order_perm. apply NoDup_fst_map_to_list.
    + apply fmap_sublist, sublist_filter.
  - intros k ids [Hne Hin]%list_elem_of_filter. rewrite hash_order_perm, elem_of_map_to_list in Hin.
    destruct (Hp k) as [Hnd Hids]. rewrite Hin in Hnd, Hids. done.
  - intros k id r Hr Hk. destruct (Hp k) as [_ Hids].
    assert (Hid : id ∈ default [] (m !! k)) by (apply Hids; eauto).
    destruct (m !! k) as [ids|] eqn:E; [|by apply not_elem_of_nil in Hid].
    apply list_elem_of_fmap. exists (k, ids). split; [done|]. apply list_elem_of_filter. split.
    + simpl. intros ->. by apply not_elem_of_nil in Hid.
    + by rewrite hash_order_perm, elem_of_map_to_list.
  - unfold representatives. clear. induction (hash_order _ m) as [|[k [|id ids]] l IH]; [done| |].
    + rewrite filter_cons, decide_False by (intros Hx; by apply Hx). exact IH.
    + rewrite filter_cons, decide_True by done. rewrite fmap_cons. simpl. f_equal. exact IH.
Qed.

Lemma facet_postings_spec ci recs field :
  index_ok ci recs → has_equality_index ci field = true →
  ∃ posted, posted_ok (indexed_key ci field) recs posted ∧
    facet_postings ci field = Some (representatives posted).
Proof.
  intros Hok Hix. unfold facet_postings, indexed_key, has_equality_index in *.
  destruct (ci_unique_maps ci !! field) as [m|] eqn:Eu.
  { rewrite bool_decide_eq_true_2 by naive_solver.
    destruct (unique_posted _ _ _ (ix_unique _ _ Hok _ _ Eu)) as (posted & Hp & ->). eauto. }
  destruct (ci_secondary_maps ci !! field) as [m|] eqn:Es.
  { rewrite bool_decide_eq_true_2 by naive_solver.
    destruct (posting_posted _ _ _ (ix_secondary _ _ Hok _ _ Es)) as (posted & Hp & ->). eauto. }
  rewrite bool_decide_eq_false_2 by (intros [[]|[]]; done).
  destruct (ci_doc_path_maps ci !! field) as [m|] eqn:Ed; [|done].
  destruct (posting_posted _ _ _ (ix_doc_path _ _ Hok _ _ Ed)) as (posted & Hp & Heq). simpl.
  rewrite Heq. eauto.
Qed.

(** ** Facets from an index *)

Section indexed.
Context (ds : DataSource) (c field : string) (recs : gmap N Rec) (matched : list Rec) (kind : N)
  (key : Rec → option string).
Hypothesis Hget : ∀ id, ds_get ds c id = recs !! id.
Hypothesis Hid : ∀ id r, recs !! id = Some r → rec_id r = id.
Hypothesis Hall : matched ≡ₚ (map_to_list recs).*2.
Hypothesis Hone : one_kind field kind matched.
Hypothesis Hkey : ∀ r, key r = non_null_key (record_get_path r field).

Lemma all_elem r : r ∈ matched ↔ recs !! rec_id r = Some r.
Proof.
  rewrite Hall, list_elem_of_fmap. split.
  - intros ([id r'] & -> & Hin%elem_of_map_to_list). simpl. by rewrite (Hid _ _ Hin).
  - intros Hr. exists (rec_id r, r). by rewrite elem_of_map_to_list.
Qed.

Lemma all_ids_nodup : NoDup (rec_id <$> matched).
Proof.
  rewrite Hall, <- list_fmap_compose.
  replace ((rec_id ∘ snd) <$> map_to_list recs) with ((map_to_list recs).*1);
    [apply NoDup_fst_map_to_list|].
  apply list_fmap_ext. intros i [id r] Hx. simpl. symmetry. apply Hid, elem_of_map_to_list.
  by eapply list_elem_of_lookup_2.
Qed.

(** Two records under one key of the index are in one bucket, and conversely. *)
Lemma key_bucket r r' v K :
  r ∈ matched → r' ∈ matched → record_get_path r field = Some v → key r = Some K →
  key r' = Some K ↔ item_key (path_value field) r' = item_key (path_value field) r.
Proof.
  intros Hr Hr' Hv HK. rewrite Hkey, Hv in HK. cbn [non_null_key] in HK.
  assert (Hnn : v ≠ VNull) by (by intros ->). destruct (Hone r v Hr Hv Hnn) as [Hs _].
  destruct (separable_key v Hs) as (k & _ & Hk & Hnull). rewrite Hnull in HK. injection HK as <-.
  unfold item_key at 2. unfold path_value at 2. rewrite Hv. cbn [mbind option_bind]. rewrite Hkey.
  destruct (record_get_path r' field) as [w|] eqn:Hw; unfold item_key, path_value; rewrite Hw;
    [|cbn; split; congruence].
  cbn [non_null_key mbind option_bind]. destruct (decide (is_null w = true)) as [Hn|Hn].
  { rewrite Hn. destruct w; try done. rewrite Hk. cbn. split; congruence. }
  destruct (Hone r' w Hr' Hw) as [Hs' _]; [by intros ->|]. apply not_true_is_false in Hn. rewrite Hn.
  split; [|intros He; by rewrite (separable_key_inj w v Hs' Hs He)].
  intros [= He]. by rewrite (separable_index_inj w v Hs' Hs He).
Qed.

Lemma posted_item posted K ids :
  posted_ok key recs posted → (K, ids) ∈ posted →
  ∃ r k, r ∈ matched ∧ recs !! hd 0%N ids = Some r ∧ key r = Some K ∧
    item_key (path_value field) r = Some k ∧ length ids = length (members (path_value field) k matched).
Proof.
  intros (_ & Hids & _) Hin. destruct (Hids _ _ Hin) as (Hne & Hnd & Hel).
  destruct ids as [|id ids']; [done|]. destruct (proj1 (Hel id)) as (r & Hr & HK); [by left|].
  assert (Hm : r ∈ matched) by (apply all_elem; by rewrite (Hid _ _ Hr)).
  assert (∃ v, record_get_path r field = Some v) as [v Hv].
  { rewrite Hkey in HK. destruct (record_get_path r field); [eauto|done]. }
  assert (Hnn : v ≠ VNull) by (intros ->; by rewrite Hkey, Hv in HK).
  destruct (Hone r v Hm Hv Hnn) as [Hs _]. destruct (separable_key v Hs) as (k & _ & Hk & _).
  assert (Hik : item_key (path_value field) r = Some k) by (unfold item_key, path_value; by rewrite Hv).
  exists r, k. split_and!; [done..|].
  rewrite <- (length_fmap rec_id (members (path_value field) k matched)).
  apply Permutation_length, NoDup_Permutation; [done| |].
  - eapply sublist_NoDup; [apply all_ids_nodup|]. apply fmap_sublist, sublist_filter.
  - intros id'. rewrite Hel. split.
    + intros (r' & Hr' & HK'). apply list_elem_of_fmap. exists r'. split; [symmetry; by apply Hid|].
      assert (Hm' : r' ∈ matched) by (apply all_elem; by rewrite (Hid _ _ Hr')).
      apply list_elem_of_filter. split; [|done]. rewrite <- Hik. by apply (key_bucket r r' v K).
    + intros (r' & -> & [Hk' Hm']%list_elem_of_filter)%list_elem_of_fmap. exists r'.
      split; [by apply all_elem|]. apply (key_bucket r r' v K); [done..|]. by rewrite Hk', Hik.
Qed.

(** The value of a posting: that of its representative. *)
Definition rep_value (p : N * nat) : option Value := ds_get ds c p.1 ≫= path_value field.

Lemma rep_item_key ids n r :
  recs !! hd 0%N ids = Some r → item_key rep_value (hd 0%N ids, n) = item_key (path_value field) r.
Proof. intros Hr. unfold item_key, rep_value. simpl. by rewrite Hget, Hr. Qed.

Lemma posted_elem_unique posted K ids ids' :
  NoDup (posted : list (string * list N)).*1 → (K, ids) ∈ posted → (K, ids') ∈ posted → ids = ids'.
Proof.
  intros Hnd Hi Hj. apply (elem_of_list_to_map (M := gmap string)) in Hi, Hj; [congruence|done..].
Qed.

Lemma rep_keys_nodup posted :
  posted_ok key recs posted → NoDup (item_key rep_value <$> representatives posted).
Proof.
  intros Hp. pose proof Hp as (Hnd & _ & _). unfold representatives. rewrite <- list_fmap_compose.
  apply NoDup_fmap_2_strong; [|by apply NoDup_fmap_1 in Hnd].
  intros [K ids] [K' ids'] Hin Hin'. cbn [compose fst snd].
  destruct (posted_item _ _ _ Hp Hin) as (r & k & Hm & Hr & HK & Hik & _).
  destruct (posted_item _ _ _ Hp Hin') as (r' & k' & Hm' & Hr' & HK' & Hik' & _).
  rewrite (rep_item_key ids _ r), (rep_item_key ids' _ r') by done. intros He.
  assert (∃ v, record_get_path r field = Some v) as [v Hv].
  { apply bind_Some in Hik as (v & Hv & _). eauto. }
  pose proof (proj2 (key_bucket r r' v K Hm Hm' Hv HK) (eq_sym He)) as HK2.
  assert (K = K') as <- by congruence. f_equal. by eapply posted_elem_unique.
Qed.

Lemma rep_keys posted :
  posted_ok key recs posted →
  bucket_keys rep_value (representatives posted) ≡ₚ bucket_keys (path_value field) matched.
Proof.
  intros Hp. apply NoDup_Permutation; [apply NoDup_remove_dups..|]. intros k. unfold bucket_keys.
  rewrite !elem_of_remove_dups, !list_elem_of_omap. split.
  - intros (p & Hin & Hk). apply list_elem_of_fmap in Hin as ([K ids] & -> & Hin).
    destruct (posted_item _ _ _ Hp Hin) as (r & k' & Hm & Hr & HK & Hik & _).
    rewrite (rep_item_key ids _ r Hr) in Hk. eauto.
  - intros (r & Hm & Hk). apply bind_Some in Hk as Hk'. destruct Hk' as (v & Hv & Hkv).
    assert (HK : key r = Some (index_key v)).
    { rewrite Hkey. unfold path_value in Hv. rewrite Hv. simpl. by destruct v. }
    destruct Hp as (Hnd & Hids & Hcov). pose proof (Hcov _ _ _ (proj1 (all_elem r) Hm) HK) as Hin.
    apply list_elem_of_fmap in Hin as ([K ids] & HK' & Hin). simpl in HK'. subst K.
    destruct (posted_item posted _ _ (conj Hnd (conj Hids Hcov)) Hin) as (r' & k' & Hm' & Hr' & HK' & Hik' & _).
    exists (hd 0%N ids, length ids). split; [apply list_elem_of_fmap; by exists (index_key v, ids)|].
    rewrite (rep_item_key ids _ r' Hr'), <- Hk. by apply (key_bucket r r' v (index_key v)).
Qed.

(** The bucket of a key, from its posting. *)
Lemma rep_bucket posted k :
  posted_ok key recs posted → k ∈ bucket_keys (path_value field) matched →
  (λ p, mkBucket p.1 p.2) <$> bucket_of rep_value snd (λ p n, n + p.2) k (representatives posted)
  = Some (let group := members (path_value field) k matched in
          mkBucket (default VNull (head group ≫= path_value field)) (length group)).
Proof.
  intros Hp Hk. rewrite <- (rep_keys posted Hp) in Hk.
  apply elem_of_remove_dups, list_elem_of_omap in Hk as (p & Hin & Hk).
  unfold bucket_of, members at 1.
  rewrite (filter_key_unique _ _ _ _ (rep_keys_nodup posted Hp) Hin Hk). simpl.
  apply list_elem_of_fmap in Hin as ([K ids] & -> & Hin).
  destruct (posted_item _ _ _ Hp Hin) as (r & k' & Hm & Hr & HK & Hik & Hlen). cbn [fst snd] in *.
  rewrite (rep_item_key ids _ r Hr) in Hk. assert (k' = k) as -> by congruence. rewrite Hlen.
  assert (Hr' : r ∈ members (path_value field) k matched) by (by apply list_elem_of_filter).
  destruct (members _ k matched) as [|r0 l] eqn:E; [by apply not_elem_of_nil in Hr'|]. simpl.
  assert (Hr0 : r0 ∈ members (path_value field) k matched) by (rewrite E; by left).
  apply list_elem_of_filter in Hr0 as [Hk0 Hm0].
  destruct (one_kind_key _ _ _ _ _ Hone Hm Hk) as (v & Hv & Hkv & Hs & _).
  destruct (one_kind_key _ _ _ _ _ Hone Hm0 Hk0) as (w & Hw & Hkw & Hs' & _).
  unfold rep_value. cbn [fst]. rewrite Hget, Hr. simpl. rewrite Hv, Hw. simpl.
  by rewrite (separable_key_inj v w Hs Hs') by congruence.
Qed.

Lemma index_buckets posted g :
  posted_ok key recs posted →
  bucket_loop rep_value snd (λ p n, n + p.2) (representatives posted) ∅ = Ok g →
  (λ p, mkBucket p.1 p.2) <$> (map_to_list g).*2 ≡ₚ facet_reference field matched.
Proof.
  intros Hp Hg. rewrite (bucket_loop_list _ _ _ _ _ Hg). unfold bucket_list, facet_reference.
  rewrite (rep_keys posted Hp).
  match goal with |- ?l ≡ₚ ?k => cut (l = k); [by intros ->|] end.
  assert (Hk : Forall (.∈ bucket_keys (path_value field) matched) (bucket_keys (path_value field) matched))
    by (by apply Forall_forall).
  induction Hk as [|k ks Hk _ IH]; [done|]. cbn [omap list_omap].
  pose proof (rep_bucket posted k Hp Hk) as Hb.
  destruct (bucket_of rep_value snd _ k _) as [b|]; [|done]. rewrite !fmap_cons. f_equal; [|exact IH].
  simpl in Hb. congruence.
Qed.
End indexed.

Lemma foldl_count {A} (l : list A) n : foldl (λ b _, b + 1) n l = n + length l.
Proof. revert n. induction l as [|x l IH]; intros n; simpl; [lia|]. rewrite IH. lia. Qed.

Lemma scan_buckets field matched g :
  bucket_loop (path_value field) (λ _, 1) (λ _ n, n + 1) matched ∅ = Ok g →
  (λ p, mkBucket p.1 p.2) <$> (map_to_list g).*2 ≡ₚ facet_reference field matched.
Proof.
  intros Hg. rewrite (bucket_loop_list _ _ _ _ _ Hg). unfold bucket_list, facet_reference.
  match goal with |- ?l ≡ₚ ?k => cut (l = k); [by intros ->|] end.
  assert (Hk : Forall (λ k, ∃ r l, members (path_value field) k matched = r :: l)
    (bucket_keys (path_value field) matched)).
  { apply Forall_forall. intros k Hk.
    apply (bucket_key_of (path_value field) (λ _, 1) (λ _ n, n + 1)) in Hk as [b Hb].
    unfold bucket_of in Hb. destruct (members _ k matched) as [|a l]; [done|eauto]. }
  induction Hk as [|k ks (r & l & Hm) Hk IH]; [done|]. cbn [omap list_omap]. unfold bucket_of at 1.
  rewrite Hm, !fmap_cons, foldl_count. cbn [fst snd]. rewrite Hm. f_equal. exact IH.
Qed.

Lemma one_kind_scalar field kind matched :
  one_kind field kind matched → Forall (item_scalar (path_value field)) matched.
Proof.
  intros Hone. apply Forall_forall. intros r Hr. unfold item_scalar.
  destruct (path_value field r) as [v|] eqn:Hv; [|done].
  destruct (decide (is_null v = true)) as [Hn|Hn]; [destruct v; try done; by eexists|].
  destruct (Hone r v Hr Hv) as [Hs _]; [by intros ->|].
  destruct (separable_key v Hs) as (k & Hk & _). eauto.
Qed.

(** Buckets that are the reference in some order are returned as the sorted reference. *)
Lemma finish_facet field kind matched limit (g : gmap string (Value * nat)) :
  one_kind field kind matched →
  (λ p, mkBucket p.1 p.2) <$> (map_to_list g).*2 ≡ₚ facet_reference field matched →
  take limit (sort_by order_buckets ((λ p : Value * nat, mkBucket p.1 p.2) <$> (hash_order _ g).*2))
  = take limit (sort_by order_buckets (facet_reference field matched)).
Proof.
  intros Hone Hp. f_equal. symmetry.
  apply (sort_by_permute order_buckets (order_buckets_total field kind matched Hone)).
  - by apply Forall_forall.
  - unfold facet_reference. apply NoDup_fmap_2_strong; [|apply NoDup_remove_dups].
    intros k k' Hk Hk' [= Hv _]. destruct (facet_reference_key field kind matched k Hone Hk) as [Ek _].
    destruct (facet_reference_key field kind matched k' Hone Hk') as [Ek' _]. congruence.
  - by rewrite hash_order_perm, Hp.
Qed.

(** A field that the index and the scan read alike. *)
Definition read_alike ci (field : string) : Prop :=
  split_once_dot field = None ∨
  ci_unique_maps ci !! field = None ∧ ci_secondary_maps ci !! field = None.

Lemma compute_facet_spec ds c recs ci f matched kind can_use_index :
  source_ok ds c recs → ds_indexes ds c = Some ci → one_kind (fr_field f) kind matched →
  (can_use_index = true → matched ≡ₚ (map_to_list recs).*2 ∧ read_alike ci (fr_field f)) →
  compute_facet ds ci c f matched can_use_index =
    Ok (mkFacetValues (fr_field f) (can_use_index && has_equality_index ci (fr_field f))
          (take (effective_limit f) (sort_by order_buckets (facet_reference (fr_field f) matched)))).
Proof.
  intros Hok Hci Hone Hcan. unfold compute_facet, facet_groups.
  destruct (can_use_index && has_equality_index ci (fr_field f))%bool eqn:Eu.
  - apply andb_true_iff in Eu as [-> Hix]. destruct (Hcan eq_refl) as [Hall Hread].
    destruct (facet_postings_spec ci recs (fr_field f) (sk_index _ _ _ Hok ci Hci) Hix) as (posted & Hp & ->).
    pose proof (λ r, indexed_key_path ci (fr_field f) r Hread) as Hkey.
    destruct (bucket_loop_scalar (rep_value ds c (fr_field f)) snd (λ p n, n + p.2)
      (representatives posted) ∅) as [g Hg].
    { apply Forall_forall. intros p Hin. apply list_elem_of_fmap in Hin as ([K ids] & -> & Hin).
      destruct (posted_item (fr_field f) recs matched kind (indexed_key ci (fr_field f)) (sk_id _ _ _ Hok)
        Hall Hone Hkey posted K ids Hp Hin) as (r & k & Hm & Hr & _).
      pose proof (one_kind_scalar _ _ _ Hone) as Hs. rewrite Forall_forall in Hs. specialize (Hs r Hm).
      unfold item_scalar, rep_value in *. cbn [fst snd]. rewrite (sk_get _ _ _ Hok), Hr. exact Hs. }
    change (bucket_loop _ _ _ (representatives posted) ∅) with
      (bucket_loop (rep_value ds c (fr_field f)) snd (λ p n, n + p.2) (representatives posted) ∅).
    rewrite Hg. simpl. do 2 f_equal. apply (finish_facet (fr_field f) kind); [done|].
    by apply (index_buckets ds c (fr_field f) recs matched kind (indexed_key ci (fr_field f))
      (sk_get _ _ _ Hok) (sk_id _ _ _ Hok) Hall Hone Hkey posted).
  - destruct (bucket_loop_scalar (path_value (fr_field f)) (λ _, 1) (λ _ n, n + 1) matched ∅
      (one_kind_scalar _ _ _ Hone)) as [g Hg].
    change (bucket_loop _ _ _ matched ∅) with
      (bucket_loop (path_value (fr_field f)) (λ _, 1) (λ _ n, n + 1) matched ∅).
    rewrite Hg. simpl. do 2 f_equal. apply (finish_facet (fr_field f) kind); [done|]. by apply scan_buckets.
Qed.
End facets.

(** ** The request *)

Section requests.
Context `{Unicode, NaturalLog, ElapsedTime, HashOrder, !HashOrderLaws}
  `{JsonText, !JsonTextLaws, !JsonNumberLaws}.
Implicit Types (ds : DataSource) (d : Deadline) (q : AggregateQuery).

Definition matched_records ds q (ids : list RecordId) : list Rec :=
  omap (λ id, match ds_get ds (aq_collection q) id with
              | Some r => if passes (aq_filter q) r then Some r else None
              | None => None
              end) ids.

Lemma match_loop_spec ds d q ids : ∀ i, aborts_or d (match_loop ds d q i ids) (Ok (matched_records ds q ids)).
Proof.
  induction ids as [|id ids IH]; intros i; [apply aborts_ret|]. cbn [match_loop].
  eapply aborts_then; [apply aborts_check_at|]. eapply aborts_then; [apply IH|].
  change (matched_records ds q (id :: ids)) with
    (match (match ds_get ds (aq_collection q) id with
            | Some r => if passes (aq_filter q) r then Some r else None
            | None => None
            end) with Some r => r :: matched_records ds q ids | None => matched_records ds q ids end).
  destruct (ds_get _ _ id) as [r|]; [|apply aborts_ret]. destruct (passes _ r); apply aborts_ret.
Qed.

Lemma facet_loop_spec ds d ci q matched can (expect : FacetRequest → FacetValues) facets :
  (∀ f, f ∈ facets → compute_facet ds ci (aq_collection q) f matched can = Ok (expect f)) →
  aborts_or d (facet_loop ds d ci q matched can facets) (Ok (expect <$> facets)).
Proof.
  induction facets as [|f facets IH]; intros He; [apply aborts_ret|]. cbn [facet_loop].
  eapply aborts_then; [apply aborts_check|].
  eapply aborts_then; [rewrite <- (He f) by (by left); apply aborts_lift_res|].
  eapply aborts_then; [apply IH; intros f' Hf'; apply He; by right|]. apply aborts_ret.
Qed.

(** Without a ranked clause the matched records are those of the scan the filter accepts. *)
Lemma scan_matched ds q recs :
  source_ok ds (aq_collection q) recs →
  matched_records ds q (rec_id <$> ds_scan ds (aq_collection q))
  = filter (λ r, passes (aq_filter q) r = true) (ds_scan ds (aq_collection q)).
Proof.
  intros Hok. unfold matched_records.
  assert (Hin : Forall (λ r, ds_get ds (aq_collection q) (rec_id r) = Some r) (ds_scan ds (aq_collection q))).
  { apply Forall_forall. intros r Hr. rewrite (sk_scan _ _ _ Hok), list_elem_of_fmap in Hr.
    destruct Hr as ([id r'] & -> & Hr%elem_of_map_to_list). simpl.
    by rewrite (sk_id _ _ _ Hok _ _ Hr), (sk_get _ _ _ Hok). }
  induction Hin as [|r l Hr _ IH]; [done|]. rewrite fmap_cons. cbn [omap list_omap].
  rewrite Hr, filter_cons. destruct (passes (aq_filter q) r) eqn:Ep.
  - rewrite decide_True by done. by f_equal.
  - rewrite decide_False by done. exact IH.
Qed.

(** The fields of the facets hold one kind of value, told apart alike by the index and the
    scan. *)
Definition facetable (ci : CollectionIndexes) (recs : gmap N Rec) q : Prop :=
  ∀ f, f ∈ aq_facets q → read_alike ci (fr_field f) ∧
    ∃ kind, one_kind (fr_field f) kind (map_to_list recs).*2.

End requests.
