(* ===== verification/QueryTools.v ===== *)
(** * Migration estimates and relevance metrics

    Models [crates/auradb-query/src/migrate.rs] (what applying a schema to a collection
    would change and how many of its records would no longer validate; warnings are kept
    by kind, without their text) and [crates/auradb-query/src/relevance.rs]. *)

From Stdlib Require Import Floats.SpecFloat.
From stdpp Require Import sorting.
From S2P Require Import Prelude Sorting BTree Text Value Core Rank Eval Chars Index Query Planner Cursor Exec.

Inductive MigrationWarning := WFailingRecords (count : nat) | WDroppedFields (fields : list string).

Record MigrationEstimate := mkEstimate {
  me_collection : string;
  me_exists : bool;
  me_records_affected : nat;
  me_added_fields : list string;
  me_removed_fields : list string;
  me_new_indexes : list string;
  me_vector_indexes_to_build : list string;
  me_records_failing_validation : nat;
  me_requires_full_scan : bool;
  me_warnings : list MigrationWarning;
}.

Definition is_indexed (f : FieldDef) : bool := fd_primary_key f || fd_unique f || fd_indexed f.

Definition is_vector (f : FieldDef) : bool := match fd_type f with FVector _ => true | _ => false end.

(** A field that is indexed in the target and was not in the current schema. *)
Definition newly_indexed (current : option CollectionSchema) (f : FieldDef) : bool :=
  let was_indexed :=
    match current ≫= λ s, schema_field s (fd_name f) with
    | Some f' => is_indexed f'
    | None => false
    end in
  is_indexed f && negb was_indexed.

Definition estimate (ds : DataSource) (target : CollectionSchema) : Res MigrationEstimate :=
  let? _ := validate_definition target in
  let current := ds_schema ds (cs_name target) in
  let current_field_names := match current with Some s => fd_name <$> cs_fields s | None => [] end in
  let target_field_names := fd_name <$> cs_fields target in
  let added_fields := filter (λ n, n ∉ current_field_names) target_field_names in
  let removed_fields := filter (λ n, n ∉ target_field_names) current_field_names in
  let new_indexes := fd_name <$> filter (λ f, newly_indexed current f = true) (cs_fields target) in
  let vector_indexes := fd_name <$> filter (λ f, is_vector f = true) (cs_fields target) in
  let records := ds_scan ds (cs_name target) in
  let failing := length (filter (λ r, res_is_ok (validate_record target (rec_fields r)) = false) records) in
  let warnings :=
    (if 0 <? failing then [WFailingRecords failing] else []) ++
    (if bool_decide (removed_fields = []) then [] else [WDroppedFields removed_fields]) in
  Ok (mkEstimate (cs_name target) (bool_decide (is_Some current)) (length records) added_fields
        removed_fields new_indexes vector_indexes failing
        (negb (bool_decide (new_indexes = [])) || negb (bool_decide (vector_indexes = []))
         || (0 <? length records))%bool warnings).

(** A migration without failing records leaves every record valid, and the fields of the
    target are those that stay and those that are added. *)
Lemma estimate_sound ds target e :
  estimate ds target = Ok e →
  (me_records_failing_validation e = 0 ↔
    ∀ r, r ∈ ds_scan ds (cs_name target) → validate_record target (rec_fields r) = Ok tt) ∧
  (∀ s, ds_schema ds (cs_name target) = Some s → ∀ n,
    n ∈ fd_name <$> cs_fields target ↔
      n ∈ me_added_fields e ∨ n ∈ fd_name <$> cs_fields s ∧ n ∉ me_removed_fields e).
Proof.
  unfold estimate. destruct (validate_definition target); [|done]. intros [= <-]. simpl. split.
  - split.
    + intros Hz%nil_length_inv r Hr. destruct (validate_record target (rec_fields r)) as [[]|err] eqn:E; [done|].
      exfalso. assert (Hin : r ∈ filter (λ r, res_is_ok (validate_record target (rec_fields r)) = false)
        (ds_scan ds (cs_name target))) by (apply list_elem_of_filter; by rewrite E).
      rewrite Hz in Hin. by apply not_elem_of_nil in Hin.
    + intros Hall. destruct (filter _ _) as [|r l] eqn:E; [done|]. exfalso.
      assert (Hin : r ∈ r :: l) by (by left). rewrite <- E in Hin.
      apply list_elem_of_filter in Hin as [Hf Hr]. by rewrite (Hall r Hr) in Hf.
  - intros s Hs n. rewrite Hs, !list_elem_of_filter.
    destruct (decide (n ∈ fd_name <$> cs_fields s)), (decide (n ∈ fd_name <$> cs_fields target)); naive_solver.
Qed.

(** ** Relevance of ranked results

    Models [crates/auradb-query/src/relevance.rs]: the reciprocal rank, the recall and the
    discounted gain of a ranked list of document ids against graded judgments.  Judgments
    are a map from ids to grades; the order in which the map lists its grades does not
    matter, since they are sorted.  The logarithm of [f64] is a parameter. *)

Class F64Log2 := f64_log2 : f64 → f64.

Definition RELEVANT_GRADE_THRESHOLD : N := 1.

Definition f64_plus (x : f64) (n : Z) : f64 := SFadd f64_prec f64_emax x (f64_of_i64 n).
Definition f64_over : f64 → f64 → f64 := SFdiv f64_prec f64_emax.
Definition usize_f64 (n : nat) : f64 := f64_of_i64 (Z.of_nat n).

(** The loop of [mrr_at_k] over the ids from position [i] on. *)
Fixpoint mrr_loop (relevant : gset string) (i : nat) (ranked : list string) : f64 :=
  match ranked with
  | [] => f64_of_i64 0
  | id :: rest =>
      if bool_decide (id ∈ relevant) then f64_over (f64_of_i64 1) (f64_plus (usize_f64 i) 1)
      else mrr_loop relevant (S i) rest
  end.

Definition mrr_at_k (ranked : list string) (relevant : gset string) (k : nat) : f64 :=
  mrr_loop relevant 0 (take k ranked).

(** The [hits] of [recall_at_k]. *)
Definition recall_hits (ranked : list string) (relevant : gset string) (k : nat) : nat :=
  length (filter (.∈ relevant) (take k ranked)).

Definition recall_at_k (ranked : list string) (relevant : gset string) (k : nat) : f64 :=
  if bool_decide (relevant = ∅) then f64_of_i64 0
  else f64_over (usize_f64 (recall_hits ranked relevant k)) (usize_f64 (size relevant)).

(** [grade as i32], and [2f64.powi] of it, which is exact in range. *)
Definition as_i32 (g : N) : Z := if (g <? 2 ^ 31)%N then Z.of_N g else (Z.of_N g - 2 ^ 32)%Z.
Definition powi2 (e : Z) : f64 := binary_normalize f64_prec f64_emax 1 e false.

Section gain.
Context `{F64Log2}.

(** The gain of a grade at position [i]. *)
Definition gain_at (grade : N) (i : nat) : f64 :=
  f64_over (SFsub f64_prec f64_emax (powi2 (as_i32 grade)) (f64_of_i64 1)) (f64_log2 (f64_plus (usize_f64 i) 2)).

(** The loop over grades from position [i] on; a grade of zero adds nothing. *)
Fixpoint dcg_loop (acc : f64) (i : nat) (grades : list N) : f64 :=
  match grades with
  | [] => acc
  | grade :: rest =>
      dcg_loop (if (0 <? grade)%N then SFadd f64_prec f64_emax acc (gain_at grade i) else acc) (S i) rest
  end.

Definition grade_of (grades : gmap string N) (id : string) : N := default 0%N (grades !! id).

Definition dcg_at_k (ranked : list string) (grades : gmap string N) (k : nat) : f64 :=
  dcg_loop (f64_of_i64 0) 0 (grade_of grades <$> take k ranked).

(** The positive grades, best first. *)
Definition ideal_grades (grades : gmap string N) : list N :=
  sort_by (λ a b, b ?= a)%N (filter (λ g, 0 < g)%N (map_to_list grades).*2).

Definition ideal_dcg (grades : gmap string N) (k : nat) : f64 :=
  dcg_loop (f64_of_i64 0) 0 (take k (ideal_grades grades)).

Definition ndcg_at_k (ranked : list string) (grades : gmap string N) (k : nat) : f64 :=
  let dcg := dcg_at_k ranked grades k in
  let idcg := ideal_dcg grades k in
  if SFeqb idcg (f64_of_i64 0) then f64_of_i64 0 else f64_over dcg idcg.
End gain.

Definition relevant_set (grades : gmap string N) : gset string :=
  dom (filter (λ '(_, g), RELEVANT_GRADE_THRESHOLD <= g)%N grades).

(** ** What the metrics measure *)

Lemma relevant_set_spec grades id : id ∈ relevant_set grades ↔ (1 <= grade_of grades id)%N.
Proof.
  unfold relevant_set, grade_of, RELEVANT_GRADE_THRESHOLD. rewrite elem_of_dom. split.
  - intros [g Hg]. apply map_lookup_filter_Some in Hg as [-> Hg]. done.
  - destruct (grades !! id) as [g|] eqn:E; simpl; [|lia]. intros Hg. exists g.
    by apply map_lookup_filter_Some.
Qed.

(** The reciprocal of the first relevant position within the first [k], or zero. *)
Lemma mrr_at_k_spec ranked relevant k :
  (∃ i id, ranked !! i = Some id ∧ (i < k)%nat ∧ id ∈ relevant ∧
     (∀ j id', (j < i)%nat → ranked !! j = Some id' → id' ∉ relevant) ∧
     mrr_at_k ranked relevant k = f64_over (f64_of_i64 1) (f64_plus (usize_f64 i) 1)) ∨
  ((∀ i id, (i < k)%nat → ranked !! i = Some id → id ∉ relevant) ∧ mrr_at_k ranked relevant k = f64_of_i64 0).
Proof.
  unfold mrr_at_k.
  assert (Hgen : ∀ l p,
    (∃ i id, l !! i = Some id ∧ id ∈ relevant ∧ (∀ j id', (j < i)%nat → l !! j = Some id' → id' ∉ relevant) ∧
       mrr_loop relevant p l = f64_over (f64_of_i64 1) (f64_plus (usize_f64 (p + i)) 1)) ∨
    ((∀ i id, l !! i = Some id → id ∉ relevant) ∧ mrr_loop relevant p l = f64_of_i64 0)).
  { induction l as [|id l IH]; intros p; simpl; [right; split; [by intros [|i]|done]|].
    case_bool_decide as Hr.
    - left. exists 0%nat, id. rewrite Nat.add_0_r. split_and!; [done|done|lia|done].
    - destruct (IH (S p)) as [(i & id' & Hi & Hin & Hb & ->)|[Hno ->]].
      + left. exists (S i), id'. split_and!; [done|done| |by rewrite <- Nat.add_succ_comm].
        intros [|j] id2 Hj Hl; [by injection Hl as <-|]. simpl in Hl. eapply Hb; [|done]. lia.
      + right. split; [|done]. intros [|i] id2 Hl; [by injection Hl as <-|]. by eapply Hno. }
  destruct (Hgen (take k ranked) 0%nat) as [(i & id & Hi & Hin & Hb & ->)|[Hno ->]].
  - left. apply lookup_take_Some in Hi as [Hi Hlt]. exists i, id. split_and!; [done|done|done| |done].
    intros j id' Hj Hl. apply (Hb j id' Hj). apply lookup_take_Some. split; [done|lia].
  - right. split; [|done]. intros i id Hlt Hi. apply (Hno i). by apply lookup_take_Some.
Qed.

(** Without repeated ids the hits are the relevant documents among the first [k]. *)
Lemma recall_hits_spec ranked relevant k :
  NoDup ranked →
  recall_hits ranked relevant k = size (relevant ∩ list_to_set (take k ranked)) ∧
  (recall_hits ranked relevant k <= size relevant)%nat.
Proof.
  intros Hnd. unfold recall_hits.
  assert (Hs : length (filter (.∈ relevant) (take k ranked)) = size (relevant ∩ list_to_set (take k ranked))).
  { rewrite <- (take_drop k ranked) in Hnd. apply NoDup_app in Hnd as [Hnd _].
    rewrite <- (size_list_to_set (C := gset string)) by (by apply NoDup_filter). f_equal.
    apply set_eq. intros x. rewrite elem_of_list_to_set, list_elem_of_filter, elem_of_intersection, elem_of_list_to_set. done. }
  split; [done|]. rewrite Hs. apply subseteq_size. set_solver.
Qed.

(** A list that starts with the graded documents, best first, has the ideal gain. *)
Lemma dcg_app `{F64Log2} acc i l1 l2 :
  dcg_loop acc i (l1 ++ l2) = dcg_loop (dcg_loop acc i l1) (i + length l1) l2.
Proof.
  revert acc i. induction l1 as [|g l1 IH]; intros acc i; simpl; [by rewrite Nat.add_0_r|].
  by rewrite IH, <- Nat.add_succ_comm.
Qed.

Lemma dcg_zeros `{F64Log2} acc i l : Forall (λ g, g = 0%N) l → dcg_loop acc i l = acc.
Proof. intros Hl. revert i. induction Hl as [|g l -> _ IH]; intros i; [done|]. simpl. apply IH. Qed.

Lemma ideal_order_gain `{F64Log2} ranked grades k rest :
  grade_of grades <$> ranked = ideal_grades grades ++ rest → Forall (λ g, g = 0%N) rest →
  dcg_at_k ranked grades k = ideal_dcg grades k.
Proof.
  intros Hr Hz. unfold dcg_at_k, ideal_dcg. rewrite fmap_take, Hr, take_app, dcg_app.
  apply dcg_zeros. by apply Forall_take.
Qed.

(** ** Concrete judgments *)

(** A list with a repeated id has a recall of two. *)
Example repeated_id_recall :
  recall_at_k ["a"; "a"] {["a"]} 2 = f64_of_i64 2.
Proof. by vm_compute. Qed.

(** A logarithm that is exact at powers of two and rounds down between them. *)
Definition floor_log2 (x : f64) : f64 :=
  match x with
  | S754_finite false m e => f64_of_i64 (Z.pos (digits2_pos m) + e - 1)
  | _ => S754_nan
  end.

Example graded_samples :
  let grades : gmap string N := {["a" := 3%N; "b" := 2%N; "c" := 1%N]} in
  @ndcg_at_k floor_log2 ["a"; "b"; "c"] grades 3 = f64_of_i64 1 ∧
  SFltb (@ndcg_at_k floor_log2 ["c"; "b"; "a"] grades 3) (f64_of_i64 1) = true ∧
  mrr_at_k ["x"; "b"] (relevant_set grades) 2 = f64_over (f64_of_i64 1) (f64_of_i64 2).
Proof. by vm_compute. Qed.
