(* ===== verification/Protocol.v ===== *)
(** * The wire protocol

    Models [crates/auradb-protocol/src/opcode.rs] (the opcodes and their bytes) and
    [crates/auradb-protocol/src/frame.rs] (the frame header, its two checksums, and
    the incremental decoder the connection loop of the server calls on its read
    buffer).  [Frame::json] and [Frame::decode_json] only call [serde_json].
    [crates/auradb-server/src/wire.rs] reads and writes frames on a stream. *)

From S2P Require Import Prelude Framing Core.

Local Open Scope N_scope.

(** ** Opcodes *)

Inductive Opcode :=
| OpHello | OpPing | OpHealth | OpAuth
| OpSchemaCreate | OpSchemaDrop | OpSchemaGet | OpSchemaList
| OpQuery | OpMutate | OpCursorFetch | OpCursorClose | OpExplain | OpMigrationEstimate
| OpTxnBegin | OpTxnCommit | OpTxnRollback
| OpHelloAck | OpPong | OpHealthResult | OpAuthResult
| OpOk | OpQueryResult | OpError.

#[export] Instance Opcode_eq_dec : EqDecision Opcode.
Proof. solve_decision. Defined.

Definition opcode_from_u8 (v : byte) : Res Opcode :=
  match v with
  | x01 => Ok OpHello
  | x02 => Ok OpPing
  | x03 => Ok OpHealth
  | x04 => Ok OpAuth
  | x10 => Ok OpSchemaCreate
  | x11 => Ok OpSchemaDrop
  | x12 => Ok OpSchemaGet
  | x13 => Ok OpSchemaList
  | x20 => Ok OpQuery
  | x21 => Ok OpMutate
  | x22 => Ok OpCursorFetch
  | x23 => Ok OpCursorClose
  | x24 => Ok OpExplain
  | x25 => Ok OpMigrationEstimate
  | x30 => Ok OpTxnBegin
  | x31 => Ok OpTxnCommit
  | x32 => Ok OpTxnRollback
  | x81 => Ok OpHelloAck
  | x82 => Ok OpPong
  | x83 => Ok OpHealthResult
  | x84 => Ok OpAuthResult
  | x90 => Ok OpOk
  | x91 => Ok OpQueryResult
  | xff => Ok OpError
  | _ => Err EProtocol
  end.

(** The discriminants of the enum. *)
Definition opcode_as_u8 (o : Opcode) : byte :=
  match o with
  | OpHello => x01
  | OpPing => x02
  | OpHealth => x03
  | OpAuth => x04
  | OpSchemaCreate => x10
  | OpSchemaDrop => x11
  | OpSchemaGet => x12
  | OpSchemaList => x13
  | OpQuery => x20
  | OpMutate => x21
  | OpCursorFetch => x22
  | OpCursorClose => x23
  | OpExplain => x24
  | OpMigrationEstimate => x25
  | OpTxnBegin => x30
  | OpTxnCommit => x31
  | OpTxnRollback => x32
  | OpHelloAck => x81
  | OpPong => x82
  | OpHealthResult => x83
  | OpAuthResult => x84
  | OpOk => x90
  | OpQueryResult => x91
  | OpError => xff
  end.

Lemma opcode_from_as o : opcode_from_u8 (opcode_as_u8 o) = Ok o.
Proof. by destruct o. Qed.

(** The byte an opcode was read from is the byte it is written as. *)
Lemma opcode_as_from b o : opcode_from_u8 b = Ok o → opcode_as_u8 o = b.
Proof. destruct b; intros [= <-]; done. Qed.

(** ** Frames *)

Definition MAGIC : list byte := [x41; x55; x52; x41].
Definition PROTOCOL_VERSION : N := 1.
Definition HEADER_LEN : nat := 44.
Definition HEADER_CHECKSUM_OFFSET : nat := 40.
Definition DEFAULT_MAX_PAYLOAD : nat := N.to_nat (16 * 1024 * 1024).
Definition FLAG_PAYLOAD_CHECKSUM : N := 1.

Inductive Compression := CompressionNone.

#[export] Instance Compression_eq_dec : EqDecision Compression.
Proof. solve_decision. Defined.

Definition compression_as_u8 (c : Compression) : N :=
  match c with CompressionNone => 0 end.

Definition compression_from_u8 (v : N) : Res Compression :=
  if v =? 0 then Ok CompressionNone else Err EUnsupported.

Record Frame := mkFrame {
  fr_version : N;
  fr_opcode : Opcode;
  fr_flags : N;
  fr_compression : Compression;
  fr_request_id : N;
  fr_txn_id : N;
  fr_payload : list byte;
}.

Definition frame_new (opcode : Opcode) (request_id txn_id : N) (payload : list byte) : Frame :=
  mkFrame PROTOCOL_VERSION opcode FLAG_PAYLOAD_CHECKSUM CompressionNone request_id txn_id payload.

Definition flag_checksum (flags : N) : bool :=
  negb (N.land flags FLAG_PAYLOAD_CHECKSUM =? 0).

Definition has_payload_checksum (f : Frame) : bool := flag_checksum (fr_flags f).

Definition trailer_len (checksum : bool) : nat := if checksum then 4 else 0.

Definition encoded_len (f : Frame) : nat :=
  (HEADER_LEN + length (fr_payload f) + trailer_len (has_payload_checksum f))%nat.

(** The fields a frame can hold: [u8], [u16], [u128], [u64], and a payload whose
    length [encode] writes as a [u32]. *)
Definition frame_ok (f : Frame) : Prop :=
  fr_version f = PROTOCOL_VERSION ∧ fr_flags f < 2 ^ 16 ∧ fr_request_id f < 2 ^ 128 ∧
  fr_txn_id f < 2 ^ 64 ∧ N.of_nat (length (fr_payload f)) < 2 ^ 32.

(** [buf[i]]; the callers have checked the length of the buffer. *)
Definition byte_at (i : nat) (buf : list byte) : byte := default x00 (buf !! i).

Section wire.
Context `{Crc32}.

(** The bytes the header checksum covers. *)
Definition header_bytes (f : Frame) : list byte :=
  MAGIC
  ++ be_bytes 1 (fr_version f)
  ++ [opcode_as_u8 (fr_opcode f)]
  ++ be_bytes 2 (fr_flags f)
  ++ be_bytes 2 (N.of_nat HEADER_LEN)
  ++ be_bytes 1 (compression_as_u8 (fr_compression f))
  ++ be_bytes 1 0
  ++ be_bytes 4 (N.of_nat (length (fr_payload f)))
  ++ be_bytes 16 (fr_request_id f)
  ++ be_bytes 8 (fr_txn_id f).

Definition payload_trailer (f : Frame) : list byte :=
  if has_payload_checksum f then be_bytes 4 (crc32 (fr_payload f)) else [].

Definition encode_frame (f : Frame) : list byte :=
  let buf := header_bytes f in
  buf ++ be_bytes 4 (crc32 (take HEADER_CHECKSUM_OFFSET buf))
  ++ fr_payload f ++ payload_trailer f.

(** [decode]: [Ok None] asks for more bytes, otherwise the frame and the number of
    bytes it took from the front of [buf]. *)
Definition decode_frame (buf : list byte) (max_payload : nat) : Res (option (Frame * nat)) :=
  if (length buf <? HEADER_LEN)%nat then Ok None
  else if negb (bool_decide (slice 0 4 buf = MAGIC)) then Err EProtocol
  else
    let version := Byte.to_N (byte_at 4 buf) in
    if (version =? 0) || (PROTOCOL_VERSION <? version) then Err EProtocol
    else
      let? opcode := opcode_from_u8 (byte_at 5 buf) in
      let flags := be_value (slice 6 8 buf) in
      let header_length := N.to_nat (be_value (slice 8 10 buf)) in
      if negb (header_length =? HEADER_LEN)%nat then Err EProtocol
      else
        let? compression := compression_from_u8 (Byte.to_N (byte_at 10 buf)) in
        let payload_len := N.to_nat (be_value (slice 12 16 buf)) in
        if (max_payload <? payload_len)%nat then Err ELimitExceeded
        else
          let stored_header_checksum := be_value (slice 40 44 buf) in
          let computed := crc32 (take HEADER_CHECKSUM_OFFSET buf) in
          if negb (stored_header_checksum =? computed) then Err ECorruption
          else
            let checksum := flag_checksum flags in
            let total := (HEADER_LEN + payload_len + trailer_len checksum)%nat in
            if (length buf <? total)%nat then Ok None
            else
              let request_id := be_value (slice 16 32 buf) in
              let txn_id := be_value (slice 32 40 buf) in
              let payload := slice HEADER_LEN (HEADER_LEN + payload_len) buf in
              let off := (HEADER_LEN + payload_len)%nat in
              if checksum &&
                 negb (be_value (slice off (off + 4) buf) =? crc32 payload)
              then Err ECorruption
              else Ok (Some (mkFrame version opcode flags compression request_id txn_id payload,
                             total)).

(** [read_frame] of the server, on the bytes the peer sends before it closes the
    connection.  [read_exact] takes all that is left when it meets the end of the
    stream, and errors of the transport itself are not modelled. *)
Definition wire_read_frame (stream : list byte) (max_payload : nat)
  : list byte * Res (option Frame) :=
  if (length stream <? HEADER_LEN)%nat then ([], Ok None)
  else
    let header := take HEADER_LEN stream in
    let rest := drop HEADER_LEN stream in
    let payload_len := N.to_nat (be_value (slice 12 16 header)) in
    if (max_payload <? payload_len)%nat then (rest, Err ELimitExceeded)
    else
      let flags := be_value (slice 6 8 header) in
      let trailer := trailer_len (flag_checksum flags) in
      if (length rest <? payload_len + trailer)%nat then ([], Err EIo)
      else
        let full := header ++ take (payload_len + trailer) rest in
        (drop (payload_len + trailer) rest,
         match decode_frame full max_payload with
         | Err e => Err e
         | Ok (Some (frame, _)) => Ok (Some frame)
         | Ok None => Err EProtocol
         end).

(** The bytes [write_frame] sends. *)
Definition wire_write_frame (f : Frame) : list byte := encode_frame f.

(** The connection loop: frames are delivered one by one until the stream ends, or
    reading fails; [fuel] bounds their number. *)
Fixpoint wire_read_all (fuel : nat) (stream : list byte) (max_payload : nat)
  : list Frame * option Error :=
  match fuel with
  | O => ([], None)
  | S fuel' =>
      match wire_read_frame stream max_payload with
      | (_, Err e) => ([], Some e)
      | (_, Ok None) => ([], None)
      | (rest, Ok (Some f)) =>
          let (fs, e) := wire_read_all fuel' rest max_payload in (f :: fs, e)
      end
  end.
End wire.

#[global] Arguments byte_at : simpl never.

(** ** Lemmas on the header fields *)

Lemma slice_split {A} (a b c : nat) (l : list A) :
  (a ≤ b)%nat → (b ≤ c)%nat → slice a c l = slice a b l ++ slice b c l.
Proof.
  intros Hab Hbc. unfold slice. replace (c - a)%nat with ((b - a) + (c - b))%nat by lia.
  rewrite <- take_take_drop, drop_drop. by replace (a + (b - a))%nat with b by lia.
Qed.

Lemma slice_take {A} (a b n : nat) (l : list A) :
  (b ≤ n)%nat → slice a b (take n l) = slice a b l.
Proof.
  intros Hb. unfold slice. rewrite skipn_firstn_comm, take_take. f_equal. lia.
Qed.

Lemma slice_byte_at i buf : (i < length buf)%nat → slice i (S i) buf = [byte_at i buf].
Proof.
  intros Hi. destruct (lookup_lt_is_Some_2 buf i Hi) as [b Hb].
  unfold slice, byte_at. rewrite Hb, (drop_S _ _ _ Hb). by replace (S i - i)%nat with 1%nat by lia.
Qed.

Lemma byte_at_slice i buf : byte_at i buf = byte_at 0 (slice i (S i) buf).
Proof.
  unfold byte_at, slice. replace (S i - i)%nat with 1%nat by lia.
  by rewrite lookup_take_lt, lookup_drop, Nat.add_0_r by lia.
Qed.

(** A field of a buffer is the encoding of the number read from it. *)
Lemma slice_be_bytes n a b buf :
  b = (a + n)%nat → (b ≤ length buf)%nat → be_bytes n (be_value (slice a b buf)) = slice a b buf.
Proof.
  intros -> Hb. rewrite <- (be_bytes_be_value (slice a (a + n) buf)) at 2.
  f_equal. rewrite length_slice; lia.
Qed.

Lemma be_bytes_one b : be_bytes 1 (Byte.to_N b) = [b].
Proof. by apply (be_bytes_be_value [b]). Qed.

(** Find a field of a concatenation of fields by its offsets. *)
Ltac find_field :=
  repeat (rewrite slice_app_r by (rewrite ?length_be_bytes; simpl; lia));
  rewrite ?length_be_bytes; simpl Nat.sub;
  rewrite slice_app_l by (rewrite ?length_be_bytes; reflexivity).

Section wire_lemmas.
Context `{Crc32, !Crc32Laws}.
Implicit Types (f : Frame) (buf post : list byte).

Lemma length_header_bytes f : length (header_bytes f) = HEADER_CHECKSUM_OFFSET.
Proof. unfold header_bytes. rewrite !length_app, !length_be_bytes. done. Qed.

Lemma length_payload_trailer f :
  length (payload_trailer f) = trailer_len (has_payload_checksum f).
Proof. unfold payload_trailer. case_if; simpl; by rewrite ?length_be_bytes. Qed.

Lemma length_encode_frame f : length (encode_frame f) = encoded_len f.
Proof.
  unfold encode_frame, encoded_len, HEADER_LEN.
  rewrite !length_app, length_header_bytes, length_be_bytes, length_payload_trailer.
  unfold HEADER_CHECKSUM_OFFSET. lia.
Qed.

Ltac wire_lia :=
  unfold encoded_len, HEADER_LEN;
  rewrite ?length_app, ?length_header_bytes, ?length_be_bytes, ?length_payload_trailer;
  unfold HEADER_CHECKSUM_OFFSET; lia.

(** What [decode] reads from a buffer that starts with the header of [f]. *)
Lemma header_fields f post :
  frame_ok f →
  let buf := header_bytes f ++ post in
  slice 0 4 buf = MAGIC ∧ Byte.to_N (byte_at 4 buf) = fr_version f ∧
  byte_at 5 buf = opcode_as_u8 (fr_opcode f) ∧ be_value (slice 6 8 buf) = fr_flags f ∧
  be_value (slice 8 10 buf) = 44 ∧ Byte.to_N (byte_at 10 buf) = 0 ∧
  be_value (slice 12 16 buf) = N.of_nat (length (fr_payload f)) ∧
  be_value (slice 16 32 buf) = fr_request_id f ∧ be_value (slice 32 40 buf) = fr_txn_id f.
Proof.
  intros (Hv & Hf & Hr & Ht & Hp). cbv zeta. unfold header_bytes. rewrite <- !app_assoc.
  rewrite (byte_at_slice 4), (byte_at_slice 5), (byte_at_slice 10).
  split_and!; find_field; rewrite ?Hv; try done;
    first [by apply be_value_be_bytes | by destruct (fr_compression f)].
Qed.

Lemma header_checksummed f post :
  take HEADER_CHECKSUM_OFFSET (header_bytes f ++ post) = header_bytes f.
Proof. apply take_app_length'. by rewrite length_header_bytes. Qed.

(** The tests in front of the length test pass on the encoding of a frame, also
    when only its header is there. *)
Lemma decode_header f post max_payload :
  frame_ok f → (length (fr_payload f) ≤ max_payload)%nat →
  let buf := header_bytes f ++ be_bytes 4 (crc32 (header_bytes f)) ++ post in
  let off := (HEADER_LEN + length (fr_payload f))%nat in
  decode_frame buf max_payload =
    if (length buf <? encoded_len f)%nat then Ok None
    else if has_payload_checksum f
            && negb (be_value (slice off (off + 4) buf) =? crc32 (slice HEADER_LEN off buf))
         then Err ECorruption
         else Ok (Some (mkFrame (fr_version f) (fr_opcode f) (fr_flags f) (fr_compression f)
                          (fr_request_id f) (fr_txn_id f) (slice HEADER_LEN off buf),
                        encoded_len f)).
Proof.
  intros Hok Hmax. cbv zeta.
  destruct (header_fields f (be_bytes 4 (crc32 (header_bytes f)) ++ post) Hok)
    as (Hm & Hv & Ho & Hfl & Hh & Hc & Hp & Hr & Ht).
  destruct Hok as (Hver & _ & _ & _ & Hlen).
  unfold decode_frame. rewrite Hm, Hv, Ho, Hfl, Hh, Hc, Hp, Hr, Ht, header_checksummed, Hver.
  rewrite opcode_from_as, Nat2N.id, bool_decide_eq_true_2 by done.
  change (compression_from_u8 0) with (Ok (E := Error) CompressionNone). cbn [res_bind].
  rewrite (proj2 (Nat.ltb_ge _ _)) by wire_lia.
  rewrite (slice_skip 0 4 _ _ 40 44) by (by rewrite length_header_bytes).
  rewrite slice_app_l by apply length_be_bytes. rewrite be_value_be_bytes by apply crc32_bound.
  rewrite (proj2 (Nat.ltb_ge max_payload _)), N.eqb_refl by lia.
  by destruct (fr_compression f).
Qed.

Lemma encode_frame_split f :
  encode_frame f =
    header_bytes f ++ be_bytes 4 (crc32 (header_bytes f)) ++ fr_payload f ++ payload_trailer f.
Proof.
  unfold encode_frame. by rewrite take_ge by (rewrite length_header_bytes; done).
Qed.

(** A frame is read back from the front of a buffer, and the bytes behind it are
    left for the next call. *)
Lemma decode_encode f post max_payload :
  frame_ok f → (length (fr_payload f) ≤ max_payload)%nat →
  decode_frame (encode_frame f ++ post) max_payload = Ok (Some (f, encoded_len f)).
Proof.
  intros Hok Hmax. rewrite encode_frame_split, <- !app_assoc, decode_header by done.
  set (buf := header_bytes f ++ _). set (off := (HEADER_LEN + _)%nat).
  assert (Hbody : slice HEADER_LEN off buf = fr_payload f).
  { unfold buf, off. rewrite (slice_skip 4 (4 + length (fr_payload f))), (slice_skip 0
      (length (fr_payload f))), slice_app_l;
      first [done | wire_lia]. }
  rewrite (proj2 (Nat.ltb_ge _ _)).
  2:{ unfold buf. wire_lia. }
  rewrite Hbody. destruct (has_payload_checksum f) eqn:Hsum; cbn [andb]; [|by destruct f].
  replace (be_value (slice off (off + 4) buf)) with (crc32 (fr_payload f)).
  - rewrite N.eqb_refl. by destruct f.
  - unfold buf, off, payload_trailer. rewrite Hsum.
    rewrite (slice_skip (4 + length (fr_payload f)) (8 + length (fr_payload f))),
      (slice_skip (length (fr_payload f)) (4 + length (fr_payload f))), (slice_skip 0 4),
      slice_app_l, be_value_be_bytes; first [done | apply crc32_bound | wire_lia].
Qed.

(** A prefix of the encoding asks for more bytes. *)
Lemma decode_partial f k max_payload :
  frame_ok f → (length (fr_payload f) ≤ max_payload)%nat → (k < encoded_len f)%nat →
  decode_frame (take k (encode_frame f)) max_payload = Ok None.
Proof.
  intros Hok Hmax Hk. destruct (decide (k < HEADER_LEN)%nat) as [Hs|Hl].
  - unfold decode_frame. rewrite (proj2 (Nat.ltb_lt _ _)); [done|].
    rewrite length_take, length_encode_frame. lia.
  - rewrite encode_frame_split in *. unfold HEADER_LEN in Hl.
    rewrite (take_app_ge (header_bytes f)), (take_app_ge (be_bytes 4 _)) by wire_lia.
    rewrite decode_header by done. rewrite (proj2 (Nat.ltb_lt _ _)); [done|].
    rewrite !length_app, length_header_bytes, length_be_bytes, length_take.
    unfold HEADER_CHECKSUM_OFFSET. lia.
Qed.

Lemma take_slices a b c n buf :
  (a ≤ b)%nat → (b ≤ c)%nat → (c ≤ n)%nat →
  take n buf = take a buf ++ slice a b buf ++ slice b c buf ++ slice c n buf.
Proof.
  intros Hab Hbc Hcn.
  rewrite <- (slice_split b c n), <- (slice_split a b n) by lia.
  assert (Ht : ∀ m, take m buf = slice 0 m buf)
    by (intros m; unfold slice; by rewrite Nat.sub_0_r, drop_0).
  rewrite !Ht, <- slice_split by lia. done.
Qed.

(** A header with these fields and a zero reserved byte. *)
Lemma header_of_fields buf f :
  (44 ≤ length buf)%nat →
  slice 0 4 buf = MAGIC → Byte.to_N (byte_at 4 buf) = fr_version f →
  opcode_as_u8 (fr_opcode f) = byte_at 5 buf → be_value (slice 6 8 buf) = fr_flags f →
  N.to_nat (be_value (slice 8 10 buf)) = 44%nat → Byte.to_N (byte_at 10 buf) = 0 →
  byte_at 11 buf = x00 →
  N.of_nat (length (fr_payload f)) = be_value (slice 12 16 buf) →
  be_value (slice 16 32 buf) = fr_request_id f → be_value (slice 32 40 buf) = fr_txn_id f →
  take 40 buf = header_bytes f.
Proof.
  intros Hl Hm Hv Ho Hf Hh Hc Hr Hp Hq Ht.
  rewrite (take_slices 4 5 6 40) by lia.
  unfold header_bytes. rewrite Hp, <- Hv, <- Hf, <- Hq, <- Ht.
  replace (N.of_nat HEADER_LEN) with (be_value (slice 8 10 buf)) by (unfold HEADER_LEN; lia).
  replace (compression_as_u8 (fr_compression f)) with (Byte.to_N (byte_at 10 buf))
    by (by destruct (fr_compression f)).
  replace (be_bytes 1 0) with (slice 11 12 buf) by (by rewrite slice_byte_at, Hr by lia).
  rewrite !be_bytes_one, <- !slice_byte_at by lia.
  rewrite !slice_be_bytes by lia.
  rewrite (slice_split 6 8 40), (slice_split 8 10 40), (slice_split 10 11 40),
    (slice_split 11 12 40), (slice_split 12 16 40), (slice_split 16 32 40) by lia.
  rewrite Ho, <- (slice_byte_at 5) by lia. f_equal.
  rewrite <- Hm. unfold slice. by rewrite drop_0.
Qed.

(** A buffer that starts with the header of [f], has its two checksums and its
    payload starts with the encoding of [f]. *)
Lemma canonical_frame buf f (plen : nat) :
  let off := (HEADER_LEN + plen)%nat in
  let total := (off + trailer_len (has_payload_checksum f))%nat in
  (total ≤ length buf)%nat → take 40 buf = header_bytes f →
  be_value (slice 40 44 buf) = crc32 (take 40 buf) → slice HEADER_LEN off buf = fr_payload f →
  (has_payload_checksum f = true →
     be_value (slice off (off + 4) buf) = crc32 (fr_payload f)) →
  take total buf = encode_frame f.
Proof.
  intros off total Htot Hhd Hhc Hbody Hpc. unfold total, off, HEADER_LEN in *.
  rewrite encode_frame_split, <- Hhd, <- Hhc, <- Hbody, slice_be_bytes by lia.
  rewrite (take_slices 40 44 (44 + plen)) by lia. do 3 f_equal.
  unfold payload_trailer. destruct (has_payload_checksum f); unfold trailer_len in *.
  - rewrite <- Hpc, slice_be_bytes by (done || lia). done.
  - unfold slice. by rewrite Nat.add_0_r, Nat.sub_diag.
Qed.

(** What is decoded is what the bytes encode: no bytes but the reserved one can
    change without the change being seen or refused. *)
Lemma decode_frame_inv buf max_payload f n :
  decode_frame buf max_payload = Ok (Some (f, n)) →
  frame_ok f ∧ n = encoded_len f ∧ (n ≤ length buf)%nat ∧
  (length (fr_payload f) ≤ max_payload)%nat ∧
  (byte_at 11 buf = x00 → take n buf = encode_frame f).
Proof.
  unfold decode_frame. case_if; [done|]. bool_to_prop.
  do 2 (case_if; [done|]). bool_to_prop.
  destruct (opcode_from_u8 _) as [o|] eqn:Ho; [|done]. cbn [res_bind].
  case_if; [done|]. bool_to_prop.
  unfold compression_from_u8. case_if; [|done]. cbn [res_bind]. bool_to_prop.
  do 4 (case_if; [done|]). intros [= <- <-]. bool_to_prop.
  set (buf4 := slice 12 16 buf) in *. set (body := slice HEADER_LEN _ buf) in *.
  assert (H40 : (44 ≤ length buf)%nat) by done.
  assert (Hver : Byte.to_N (byte_at 4 buf) = PROTOCOL_VERSION) by (unfold PROTOCOL_VERSION in *; lia).
  assert (Hlen : length body = N.to_nat (be_value buf4)).
  { unfold body. rewrite length_slice; lia. }
  assert (Hb4 : be_value buf4 < 2 ^ 32).
  { pose proof (be_value_bound buf4) as Hb. unfold buf4 in Hb. by rewrite length_slice in Hb by lia. }
  assert (Hfb : ∀ a m, (a + m ≤ 44)%nat → be_value (slice a (a + m) buf) < 256 ^ N.of_nat m).
  { intros a m Ham. pose proof (be_value_bound (slice a (a + m) buf)) as Hb.
    rewrite length_slice in Hb by lia. by replace (a + m - a)%nat with m in Hb by lia. }
  set (f := mkFrame _ _ _ _ _ _ _).
  split_and!.
  - split_and!; simpl; [done|apply (Hfb 6%nat 2%nat); lia|apply (Hfb 16%nat 16%nat); lia
      |apply (Hfb 32%nat 8%nat); lia|lia].
  - unfold encoded_len, has_payload_checksum. cbn [fr_payload fr_flags f]. by rewrite Hlen.
  - done.
  - cbn [fr_payload f]. lia.
  - intros Hres. apply (canonical_frame buf f (N.to_nat (be_value buf4))); try done.
    + apply header_of_fields; try done; simpl; [by apply opcode_as_from|].
      by rewrite Hlen, N2Nat.id.
    + unfold has_payload_checksum. simpl. intros Hs. rewrite Hs in Heqb6. simpl in Heqb6.
      by bool_to_prop.
Qed.

(** The two fields the reader of a stream looks at before it calls the decoder. *)
Lemma stream_header f k post :
  frame_ok f → (HEADER_LEN ≤ k)%nat →
  let stream := take k (encode_frame f) ++ post in
  be_value (slice 12 16 (take HEADER_LEN stream)) = N.of_nat (length (fr_payload f)) ∧
  be_value (slice 6 8 (take HEADER_LEN stream)) = fr_flags f.
Proof.
  intros Hok Hk. cbv zeta.
  rewrite !slice_take by (unfold HEADER_LEN; lia).
  unfold HEADER_LEN in Hk. rewrite encode_frame_split, (take_app_ge (header_bytes f)) by wire_lia.
  rewrite <- app_assoc. by destruct (header_fields f
    (take (k - length (header_bytes f))
       (be_bytes 4 (crc32 (header_bytes f)) ++ fr_payload f ++ payload_trailer f) ++ post) Hok)
    as (_ & _ & _ & -> & _ & _ & -> & _ & _).
Qed.

Lemma wire_read_encoded f post max_payload :
  frame_ok f → (length (fr_payload f) ≤ max_payload)%nat →
  wire_read_frame (encode_frame f ++ post) max_payload = (post, Ok (Some f)).
Proof.
  intros Hok Hmax. pose proof (length_encode_frame f) as Hlen.
  destruct (stream_header f (encoded_len f) post Hok) as [Hp Hfl];
    [unfold encoded_len; lia|].
  rewrite (take_ge (encode_frame f)) in Hp, Hfl by lia.
  unfold wire_read_frame. rewrite Hp, Hfl, Nat2N.id, length_app, Hlen.
  change (flag_checksum (fr_flags f)) with (has_payload_checksum f).
  unfold encoded_len. rewrite (proj2 (Nat.ltb_ge _ HEADER_LEN)) by lia.
  rewrite (proj2 (Nat.ltb_ge max_payload _)) by done.
  rewrite (proj2 (Nat.ltb_ge (length (drop _ _)) _)); cycle 1.
  { rewrite length_drop, length_app, Hlen. unfold encoded_len. lia. }
  rewrite drop_drop, Nat.add_assoc, take_take_drop, Nat.add_assoc.
  change (HEADER_LEN + length (fr_payload f) + trailer_len (has_payload_checksum f))%nat
    with (encoded_len f).
  rewrite <- Hlen, drop_app_length, take_app_length.
  pose proof (decode_encode f [] max_payload Hok Hmax) as Hd. rewrite app_nil_r in Hd.
  by rewrite Hd.
Qed.

(** The peer closes the connection inside a frame. *)
Lemma wire_read_cut f k max_payload :
  frame_ok f → (length (fr_payload f) ≤ max_payload)%nat → (k < encoded_len f)%nat →
  (wire_read_frame (take k (encode_frame f)) max_payload).2 =
    if (k <? HEADER_LEN)%nat then Ok None else Err EIo.
Proof.
  intros Hok Hmax Hk. pose proof (length_encode_frame f) as Hlen.
  assert (Hkl : length (take k (encode_frame f)) = k) by (rewrite length_take; lia).
  unfold wire_read_frame. rewrite Hkl. case_if; bool_to_prop; [done|].
  destruct (stream_header f k [] Hok) as [Hp Hfl]; [done|].
  rewrite app_nil_r in Hp, Hfl. rewrite Hp, Hfl, Nat2N.id.
  rewrite (proj2 (Nat.ltb_ge max_payload _)) by done.
  change (flag_checksum (fr_flags f)) with (has_payload_checksum f).
  rewrite (proj2 (Nat.ltb_lt (length (drop _ _)) _)); [done|].
  rewrite length_drop, Hkl. unfold encoded_len in Hk. lia.
Qed.
End wire_lemmas.

(** ** Properties *)

Section wire_properties.
Context `{Crc32, !Crc32Laws}.

(** A frame that is encoded is decoded to itself from the front of any buffer, with
    its exact length, so the bytes behind it are left untouched; a buffer that
    holds only a part of it makes the decoder ask for more bytes and never fail. *)
Theorem frame_roundtrip f post max_payload :
  frame_ok f → (length (fr_payload f) ≤ max_payload)%nat →
  decode_frame (encode_frame f ++ post) max_payload = Ok (Some (f, encoded_len f)) ∧
  ∀ k, (k < encoded_len f)%nat →
    decode_frame (take k (encode_frame f)) max_payload = Ok None.
Proof. split; [by apply decode_encode|intros; by apply decode_partial]. Qed.

(** Whatever bytes arrive, a frame that is accepted is within the limits and, when its
    reserved byte is zero, its encoding is exactly the bytes consumed: magic,
    version, opcode, lengths and both checksums agree with the frame delivered. *)
Theorem frame_decode_canonical buf max_payload f n :
  decode_frame buf max_payload = Ok (Some (f, n)) →
  frame_ok f ∧ n = encoded_len f ∧ (n ≤ length buf)%nat ∧
  (length (fr_payload f) ≤ max_payload)%nat ∧
  (byte_at 11 buf = x00 → take n buf = encode_frame f).
Proof. apply decode_frame_inv. Qed.

(** Reading a stream whose last frame was cut off. *)
Lemma wire_read_stream fs g k max_payload :
  Forall (λ f, frame_ok f ∧ (length (fr_payload f) ≤ max_payload)%nat) (fs ++ [g]) →
  (k < encoded_len g)%nat →
  wire_read_all (S (length fs))
    (mjoin (wire_write_frame <$> fs) ++ take k (wire_write_frame g)) max_payload =
    (fs, if (k <? HEADER_LEN)%nat then None else Some EIo).
Proof.
  intros Hall Hk. apply Forall_app in Hall as [Hfs Hg].
  apply Forall_cons in Hg as [[Hg1 Hg2] _].
  induction Hfs as [|f fs [Hf1 Hf2] Hfs IH].
  - simpl. pose proof (wire_read_cut g k max_payload Hg1 Hg2 Hk) as Hc.
    change (wire_write_frame g) with (encode_frame g).
    destruct (wire_read_frame _ _) as [rest r]. simpl in Hc. subst r. by case_if.
  - change (length (f :: fs)) with (S (length fs)).
    replace (mjoin (wire_write_frame <$> f :: fs)) with
      (encode_frame f ++ mjoin (wire_write_frame <$> fs)) by done.
    rewrite <- app_assoc. cbn [wire_read_all]. rewrite wire_read_encoded by done.
    cbn [wire_read_all] in IH. by rewrite IH.
Qed.

End wire_properties.

(** ** A concrete instance *)

Module WireSample.
#[export] Instance wire_crc : Crc32 := sample_crc.
#[export] Instance wire_crc_laws : Crc32Laws := sample_crc_bound.

Definition ping : Frame := frame_new OpPing 7 0 [x68; x69].
Definition commit : Frame := frame_new OpTxnCommit 8 3 [].

Lemma ping_ok : frame_ok ping.
Proof. by repeat split. Qed.
Lemma commit_ok : frame_ok commit.
Proof. by repeat split. Qed.

Lemma frame_roundtrip_witness :
  decode_frame (encode_frame ping ++ [x00]) 16 = Ok (Some (ping, 50%nat)) ∧
  ∀ k, (k < 50)%nat → decode_frame (take k (encode_frame ping)) 16 = Ok None.
Proof. apply (frame_roundtrip ping [x00] 16 ping_ok). simpl. lia. Defined.

Lemma frame_decode_canonical_witness :
  take 50 (encode_frame ping ++ [x2a]) = encode_frame ping.
Proof.
  refine (proj2 (proj2 (proj2 (proj2
    (frame_decode_canonical (encode_frame ping ++ [x2a]) 16 ping 50 _)))) _);
    vm_compute; reflexivity.
Defined.


(** A connection that closes behind a header is reported as an I/O error. *)
Example closed_mid_frame :
  wire_read_all 2 (encode_frame ping ++ take 45 (encode_frame commit)) 16 = ([ping], Some EIo).
Proof. by vm_compute. Qed.
End WireSample.
