(* ===== verification/RaftLog.v ===== *)
(** * The Raft log: entries, hard state and the storage trait

    Models [crates/auradb-raft/src/log.rs] and [error.rs]: the data of the log,
    [validate_suffix], the [RaftStorage] trait as a type class of operations, its
    contract as a second class ([RaftStorageSpec]) stated against an abstract log
    view, and the in-memory backend [MemStorage], which discharges it.  The
    durable backend of [RaftFile] discharges the same contract, and the node of
    [RaftNode] is proved against the contract alone.

    Terms, indices and node ids are [u64]s, written [N]. *)

From S2P Require Import Prelude.

Local Open Scope N_scope.

Abbreviation NodeId := N (only parsing).
Abbreviation Term := N (only parsing).
Abbreviation LogIndex := N (only parsing).

(** [LogIndex::next] and [LogIndex::prev]. *)
Definition index_next (i : LogIndex) : LogIndex := i + 1.
Definition index_prev (i : LogIndex) : LogIndex := i - 1.

Inductive CommandKind := Noop | Database | Schema | Metadata | Config.

#[export] Instance CommandKind_eq_dec : EqDecision CommandKind.
Proof. solve_decision. Defined.

Record Command := mkCommand {
  cmd_version : N;
  cmd_kind : CommandKind;
  cmd_payload : list byte;
}.


#[export] Instance Command_eq_dec : EqDecision Command.
Proof. solve_decision. Defined.

Definition COMMAND_VERSION : N := 1.
Definition command_new (kind : CommandKind) (payload : list byte) : Command :=
  mkCommand COMMAND_VERSION kind payload.
Definition command_noop : Command := command_new Noop [].

Record LogEntry := mkEntry {
  e_term : Term;
  e_index : LogIndex;
  e_command : Command;
}.

#[export] Instance LogEntry_eq_dec : EqDecision LogEntry.
Proof. solve_decision. Defined.

Record HardState := mkHard {
  current_term : Term;
  voted_for : option NodeId;
  hs_commit_index : LogIndex;
}.

#[export] Instance HardState_eq_dec : EqDecision HardState.
Proof. solve_decision. Defined.

(** [HardState::default()]. *)
Definition hard_default : HardState := mkHard 0 None 0.

(** Message texts are not modelled; the structured payloads are. *)
Inductive RaftError :=
| RIo
| RCorruption
| RInvalidAppend
| RCompacted (requested last_included : LogIndex)
| RCompactionRefused
| RNotLeader (hint : option NodeId)
| RCodec.

#[export] Instance RaftError_eq_dec : EqDecision RaftError.
Proof. solve_decision. Defined.

(** ** The storage trait *)

Class RaftStorage (S : Type) := {
  append : list LogEntry → SE S RaftError unit;
  truncate_from : LogIndex → SE S RaftError unit;
  term_at : S → LogIndex → option Term;
  entry_at : S → LogIndex → option LogEntry;
  entries_from : S → LogIndex → list LogEntry;
  last_index : S → LogIndex;
  last_term : S → Term;
  save_hard_state : HardState → SE S RaftError unit;
  hard_state : S → HardState;
}.

(** [validate_suffix]: [entries] extend a log whose tail is
    [(last_index, last_term)] without a gap and without a term regression. *)
Fixpoint validate_loop (entries : list LogEntry) (expect_index : LogIndex) (prev_term : Term)
  : Result RaftError unit :=
  match entries with
  | [] => Ok tt
  | entry :: rest =>
      if negb (e_index entry =? expect_index) then Err RInvalidAppend
      else if e_term entry <? prev_term then Err RInvalidAppend
      else validate_loop rest (index_next expect_index) (e_term entry)
  end.

Definition validate_suffix (entries : list LogEntry) (last_index : LogIndex) (last_term : Term)
  : Result RaftError unit :=
  validate_loop entries (index_next last_index) last_term.

(** ** The abstract log

    What a backend promises: a compacted prefix, named by its last index and
    term, followed by the retained entries. *)

Record LogView := mkView {
  lv_base : LogIndex;
  lv_base_term : Term;
  lv_entries : list LogEntry;
}.

Definition lv_last (v : LogView) : LogIndex := lv_base v + N.of_nat (length (lv_entries v)).
Definition lv_last_term (v : LogView) : Term :=
  match last (lv_entries v) with Some e => e_term e | None => lv_base_term v end.

(** The retained entry at an absolute index. *)
Definition lv_entry (v : LogView) (i : LogIndex) : option LogEntry :=
  if i <=? lv_base v then None else lv_entries v !! N.to_nat (i - lv_base v - 1).

Definition lv_term (v : LogView) (i : LogIndex) : option Term :=
  if i =? 0 then Some 0
  else if i =? lv_base v then Some (lv_base_term v)
  else e_term <$> lv_entry v i.

Definition lv_from (v : LogView) (i : LogIndex) : list LogEntry :=
  drop (N.to_nat (i - lv_base v - 1)) (lv_entries v).

Definition lv_append (v : LogView) (es : list LogEntry) : LogView :=
  mkView (lv_base v) (lv_base_term v) (lv_entries v ++ es).

Definition lv_truncate (v : LogView) (i : LogIndex) : LogView :=
  mkView (lv_base v) (lv_base_term v) (take (N.to_nat (i - lv_base v - 1)) (lv_entries v)).

(** The two log invariants the trait asks of every backend, as one predicate:
    indices are contiguous from the boundary, terms never regress. *)
Definition lv_wf (v : LogView) : Prop :=
  validate_suffix (lv_entries v) (lv_base v) (lv_base_term v) = Ok tt ∧
  (lv_base v = 0 → lv_base_term v = 0).

(** ** The contract of the trait *)

Class RaftStorageSpec (S : Type) `{RaftStorage S} := {
  st_inv : S → Prop;
  st_view : S → LogView;
  st_view_wf : ∀ s, st_inv s → lv_wf (st_view s);
  append_ok : ∀ s es, st_inv s →
    validate_suffix es (lv_last (st_view s)) (lv_last_term (st_view s)) = Ok tt →
    ∃ s', append es s = (s', Ok tt) ∧ st_inv s' ∧
          st_view s' = lv_append (st_view s) es ∧ hard_state s' = hard_state s;
  append_err : ∀ s es e, st_inv s →
    validate_suffix es (lv_last (st_view s)) (lv_last_term (st_view s)) = Err e →
    append es s = (s, Err e);
  truncate_ok : ∀ s i, st_inv s → (i = 0 ∨ lv_base (st_view s) < i) →
    ∃ s', truncate_from i s = (s', Ok tt) ∧ st_inv s' ∧
          st_view s' = lv_truncate (st_view s) i ∧ hard_state s' = hard_state s;
  truncate_compacted : ∀ s i, st_inv s → i ≠ 0 → i <= lv_base (st_view s) →
    truncate_from i s = (s, Err (RCompacted i (lv_base (st_view s))));
  term_at_view : ∀ s i, st_inv s → term_at s i = lv_term (st_view s) i;
  entry_at_view : ∀ s i, st_inv s → entry_at s i = lv_entry (st_view s) i;
  entries_from_view : ∀ s i, st_inv s → entries_from s i = lv_from (st_view s) i;
  last_index_view : ∀ s, st_inv s → last_index s = lv_last (st_view s);
  last_term_view : ∀ s, st_inv s → last_term s = lv_last_term (st_view s);
  save_hard_state_ok : ∀ s hs, st_inv s →
    ∃ s', save_hard_state hs s = (s', Ok tt) ∧ st_inv s' ∧
          st_view s' = st_view s ∧ hard_state s' = hs;
}.

(** ** The in-memory backend *)

Record MemStorage := mkMem {
  mem_entries : list LogEntry;
  mem_hard : HardState;
}.

Definition mem_new : MemStorage := mkMem [] hard_default.

Definition mem_last_index (s : MemStorage) : LogIndex := N.of_nat (length (mem_entries s)).
Definition mem_last_term (s : MemStorage) : Term :=
  match last (mem_entries s) with Some e => e_term e | None => 0 end.

Definition mem_append (entries : list LogEntry) : SE MemStorage RaftError unit := λ s,
  match validate_suffix entries (mem_last_index s) (mem_last_term s) with
  | Err e => (s, Err e)
  | Ok _ => (mkMem (mem_entries s ++ entries) (mem_hard s), Ok tt)
  end.

Definition mem_truncate_from (index : LogIndex) : SE MemStorage RaftError unit := λ s,
  let keep := N.to_nat (index - 1) in
  if (keep <? length (mem_entries s))%nat
  then (mkMem (take keep (mem_entries s)) (mem_hard s), Ok tt)
  else (s, Ok tt).

Definition mem_term_at (s : MemStorage) (index : LogIndex) : option Term :=
  if index =? 0 then Some 0
  else e_term <$> mem_entries s !! N.to_nat (index - 1).

Definition mem_entry_at (s : MemStorage) (index : LogIndex) : option LogEntry :=
  if index =? 0 then None
  else mem_entries s !! N.to_nat (index - 1).

(** [self.entries.get(start..)] is [None] past the end, hence the empty default. *)
Definition mem_entries_from (s : MemStorage) (index : LogIndex) : list LogEntry :=
  if index =? 0 then mem_entries s
  else
    let start := N.to_nat (index - 1) in
    if (start <=? length (mem_entries s))%nat then drop start (mem_entries s) else [].

Definition mem_save_hard_state (hs : HardState) : SE MemStorage RaftError unit := λ s,
  (mkMem (mem_entries s) hs, Ok tt).

#[export] Instance mem_storage : RaftStorage MemStorage := {|
  append := mem_append;
  truncate_from := mem_truncate_from;
  term_at := mem_term_at;
  entry_at := mem_entry_at;
  entries_from := mem_entries_from;
  last_index := mem_last_index;
  last_term := mem_last_term;
  save_hard_state := mem_save_hard_state;
  hard_state := mem_hard;
|}.

(** ** Lemmas on well-formed logs *)

Lemma validate_loop_app es fs i t :
  validate_loop (es ++ fs) i t =
    match validate_loop es i t with
    | Ok _ => validate_loop fs (i + N.of_nat (length es))
                (match last es with Some e => e_term e | None => t end)
    | Err e => Err e
    end.
Proof.
  revert i t. induction es as [|e es IH]; intros i t; simpl.
  - by rewrite N.add_0_r.
  - destruct (negb _); [done|]. destruct (_ <? _); [done|].
    rewrite IH. destruct (validate_loop es _ _); [|done].
    unfold index_next. f_equal; [lia|].
    destruct es as [|f es]; [done|]. simpl.
    destruct (last (f :: es)) eqn:E; [done|]. by apply last_None in E.
Qed.

Lemma validate_loop_take es i t n :
  validate_loop es i t = Ok tt → validate_loop (take n es) i t = Ok tt.
Proof.
  intros H. rewrite <- (take_drop n es), validate_loop_app in H.
  destruct (validate_loop (take n es) i t) as [[]|] eqn:E; done.
Qed.

(** The index of an entry of a valid suffix is determined by its position. *)
Lemma validate_loop_index es i t n e :
  validate_loop es i t = Ok tt → es !! n = Some e → e_index e = i + N.of_nat n.
Proof.
  revert i t n. induction es as [|f es IH]; intros i t n; simpl; [done|].
  destruct (negb _) eqn:E1; [done|]. destruct (_ <? _) eqn:E2; [done|].
  bool_to_prop. intros Hv. destruct n as [|n]; simpl.
  - intros [= ->]. lia.
  - intros He. rewrite (IH _ _ _ Hv He). unfold index_next. lia.
Qed.

Lemma validate_loop_terms es i t n e :
  validate_loop es i t = Ok tt → es !! n = Some e → t <= e_term e.
Proof.
  revert i t n. induction es as [|f es IH]; intros i t n; simpl; [done|].
  destruct (negb _) eqn:E1; [done|]. destruct (_ <? _) eqn:E2; [done|].
  bool_to_prop. intros Hv. destruct n as [|n]; simpl.
  - by intros [= ->].
  - intros He. pose proof (IH _ _ _ Hv He). lia.
Qed.

Lemma validate_loop_sorted es i t n m e f :
  validate_loop es i t = Ok tt → es !! n = Some e → es !! m = Some f → (n ≤ m)%nat →
  e_term e <= e_term f.
Proof.
  revert i t n m. induction es as [|g es IH]; intros i t n m; simpl; [done|].
  destruct (negb _) eqn:E1; [done|]. destruct (_ <? _) eqn:E2; [done|].
  intros Hv. destruct n as [|n], m as [|m]; simpl; intros He Hf Hle; simplify_eq; try lia.
  - by eapply validate_loop_terms.
  - eapply IH; eauto. lia.
Qed.

Lemma lv_wf_append v es :
  lv_wf v → validate_suffix es (lv_last v) (lv_last_term v) = Ok tt →
  lv_wf (lv_append v es).
Proof.
  intros [Hv Hb] He. split; [|done]. unfold validate_suffix in *. simpl.
  rewrite validate_loop_app, Hv. unfold index_next, lv_last, lv_last_term in *.
  rewrite <- He. f_equal. lia.
Qed.

Lemma lv_wf_truncate v i : lv_wf v → lv_wf (lv_truncate v i).
Proof.
  intros [Hv Hb]. split; [|done]. by apply validate_loop_take.
Qed.

Lemma lv_entry_index v i e : lv_wf v → lv_entry v i = Some e → e_index e = i.
Proof.
  intros [Hv _]. unfold lv_entry. destruct (_ <=? _) eqn:E; [done|].
  intros He. bool_to_prop. rewrite (validate_loop_index _ _ _ _ _ Hv He).
  unfold index_next. lia.
Qed.

Lemma lv_entry_Some v i : is_Some (lv_entry v i) ↔ lv_base v < i <= lv_last v.
Proof.
  unfold lv_entry, lv_last. destruct (_ <=? _) eqn:E; bool_to_prop.
  - split; [by intros []|lia].
  - rewrite lookup_lt_is_Some. lia.
Qed.

(** ** [MemStorage] implements the contract *)

Definition mem_view (s : MemStorage) : LogView := mkView 0 0 (mem_entries s).

Definition mem_inv (s : MemStorage) : Prop :=
  validate_suffix (mem_entries s) 0 0 = Ok tt.

Lemma mem_last_view s : mem_last_index s = lv_last (mem_view s).
Proof. unfold lv_last, mem_last_index. simpl. lia. Qed.

#[export] Program Instance mem_storage_spec : RaftStorageSpec MemStorage := {|
  st_inv := mem_inv;
  st_view := mem_view;
|}.
Next Obligation. done. Qed.
Next Obligation.
  intros s es Hinv Hv. simpl. unfold mem_append.
  rewrite mem_last_view. change (mem_last_term s) with (lv_last_term (mem_view s)).
  rewrite Hv. eexists. split; [done|]. split; [|done].
  by apply (lv_wf_append (mem_view s)).
Qed.
Next Obligation.
  intros s es e Hinv Hv. simpl. unfold mem_append.
  rewrite mem_last_view. change (mem_last_term s) with (lv_last_term (mem_view s)).
  by rewrite Hv.
Qed.
Next Obligation.
  intros s i Hinv _. simpl. unfold mem_truncate_from, lv_truncate, mem_view. simpl.
  replace (i - 0 - 1) with (i - 1) by lia.
  destruct (_ <? _)%nat eqn:E; bool_to_prop; eexists; (split; [done|]).
  - split; [|done]. by apply validate_loop_take.
  - split; [done|]. split; [|done]. by rewrite take_ge.
Qed.
Next Obligation. simpl. lia. Qed.
Next Obligation.
  intros s i Hinv. simpl. unfold mem_term_at, lv_term, lv_entry. simpl.
  destruct (i =? 0) eqn:E; [done|]. bool_to_prop.
  destruct (i <=? 0) eqn:E'; bool_to_prop; [lia|]. do 2 f_equal. lia.
Qed.
Next Obligation.
  intros s i Hinv. simpl. unfold mem_entry_at, lv_entry. simpl.
  destruct (i =? 0) eqn:E; destruct (i <=? 0) eqn:E'; bool_to_prop; try done; try lia.
  f_equal. lia.
Qed.
Next Obligation.
  intros s i Hinv. simpl. unfold mem_entries_from, lv_from. simpl.
  destruct (i =? 0) eqn:E; bool_to_prop; [by subst|].
  replace (i - 0 - 1) with (i - 1) by lia.
  destruct (_ <=? _)%nat eqn:E'; bool_to_prop; [done|]. by rewrite drop_ge by lia.
Qed.
Next Obligation. intros s _. apply mem_last_view. Qed.
Next Obligation. done. Qed.
Next Obligation. intros s hs Hinv. by eexists. Qed.
