(* ===== verification/RaftBase64.v ===== *)
(** * Base64 of command payloads

    Models the [base64_bytes] module of [crates/auradb-raft/src/log.rs]: the
    payload of a replicated command is kept as text inside the JSON log.  The
    round trip makes the payload survive the log. *)

From S2P Require Import Prelude Text.

Local Open Scope N_scope.

Definition ALPHABET : list byte :=
  bytes_of "ABCDEFGHIJKLMNOPQRSTUVWXYZabcdefghijklmnopqrstuvwxyz0123456789+/".

Definition pad_char : byte := x3d.

Definition alphabet (i : N) : byte := nth (N.to_nat i) ALPHABET x00.

(** [slice::chunks]; a chunk is not empty, so the length bounds their number. *)
Fixpoint chunks_loop {A} (fuel n : nat) (l : list A) : list (list A) :=
  match fuel, l with
  | S fuel', _ :: _ => take n l :: chunks_loop fuel' n (drop n l)
  | _, _ => []
  end.

Definition chunks {A} (n : nat) (l : list A) : list (list A) := chunks_loop (length l) n l.

Definition encode_chunk (chunk : list byte) : list byte :=
  let b i := Byte.to_N (nth i chunk x00) in
  let n := N.lor (N.lor (N.shiftl (b 0%nat) 16) (N.shiftl (b 1%nat) 8)) (b 2%nat) in
  [alphabet (N.land (N.shiftr n 18) 63);
   alphabet (N.land (N.shiftr n 12) 63);
   (if (1 <? length chunk)%nat then alphabet (N.land (N.shiftr n 6) 63) else pad_char);
   (if (2 <? length chunk)%nat then alphabet (N.land n 63) else pad_char)].

Definition base64_encode (bytes : list byte) : list byte :=
  mjoin (encode_chunk <$> chunks 3 bytes).

(** [val]: the sextet of a character. *)
Definition sextet (c : byte) : option N :=
  let v := Byte.to_N c in
  if in_range 65 90 c then Some (v - 65)
  else if in_range 97 122 c then Some (v - 97 + 26)
  else if in_range 48 57 c then Some (v - 48 + 52)
  else if v =? 43 then Some 62
  else if v =? 47 then Some 63
  else None.

(** The accumulator loop over the four characters of a chunk. *)
Fixpoint decode_bits (chunk : list byte) (i : N) (n : N) : option N :=
  match chunk with
  | [] => Some n
  | c :: rest =>
      match (if Byte.eqb c pad_char then Some 0 else sextet c) with
      | Some v => decode_bits rest (i + 1) (N.lor n (N.shiftl v (18 - 6 * i)))
      | None => None
      end
  end.

Definition decode_chunk (chunk : list byte) : option (list byte) :=
  let pad := length (filter (λ c, Byte.eqb c pad_char = true) chunk) in
  match decode_bits chunk 0 0 with
  | None => None
  | Some n =>
      Some ([byte_of_N (N.shiftr n 16)] ++
            (if (pad <? 2)%nat then [byte_of_N (N.shiftr n 8)] else []) ++
            (if (pad <? 1)%nat then [byte_of_N n] else []))
  end.

Fixpoint decode_chunks (cs : list (list byte)) : option (list byte) :=
  match cs with
  | [] => Some []
  | c :: rest => match decode_chunk c with
                 | None => None
                 | Some out => match decode_chunks rest with
                               | None => None
                               | Some outs => Some (out ++ outs)
                               end
                 end
  end.

Definition base64_decode (s : list byte) : option (list byte) :=
  let s := trim s in
  if negb (length s mod 4 =? 0)%nat then None else decode_chunks (chunks 4 s).

(** ** Lemmas *)

Lemma chunks_nil {A} n : chunks (A := A) n [] = [].
Proof. done. Qed.

Lemma chunks_loop_fuel {A} n (l : list A) f1 f2 :
  (0 < n)%nat → (length l ≤ f1)%nat → (length l ≤ f2)%nat →
  chunks_loop f1 n l = chunks_loop f2 n l.
Proof.
  intros Hn. revert l f2. induction f1 as [|f1 IH]; intros l f2 H1 H2.
  - destruct l; [by destruct f2|simpl in H1; lia].
  - destruct l as [|a l]; [by destruct f2|]. destruct f2 as [|f2]; [simpl in H2; lia|].
    cbn [chunks_loop]. f_equal. apply IH; rewrite length_drop; simpl in *; lia.
Qed.

Lemma chunks_loop_S {A} fuel n (l : list A) :
  l ≠ [] → chunks_loop (S fuel) n l = take n l :: chunks_loop fuel n (drop n l).
Proof. by destruct l. Qed.

Lemma chunks_app {A} (l k : list A) n :
  length l = n → (0 < n)%nat → chunks n (l ++ k) = l :: chunks n k.
Proof.
  intros Hl Hn. unfold chunks.
  rewrite (chunks_loop_fuel n (l ++ k) _ (S (length (l ++ k)))) by lia.
  rewrite chunks_loop_S by (destruct l; [simpl in Hl; lia|done]).
  rewrite take_app_length', drop_app_length' by done. f_equal.
  apply chunks_loop_fuel; rewrite ?length_app; lia.
Qed.

Lemma chunks_last {A} (l : list A) n :
  (0 < length l ≤ n)%nat → chunks n l = [l].
Proof.
  intros Hl. unfold chunks. destruct l as [|a l]; [simpl in Hl; lia|].
  cbn [length chunks_loop]. rewrite take_ge, drop_ge by (simpl in *; lia).
  by destruct (length l).
Qed.

(** Every character of the alphabet, by evaluation. *)
Lemma alphabet_facts i :
  i < 64 → sextet (alphabet i) = Some i ∧ Byte.eqb (alphabet i) pad_char = false ∧
           solid (alphabet i) = true.
Proof.
  intros Hi. rewrite <- (N2Nat.id i) in *. generalize (N.to_nat i) Hi. clear. intros n Hn.
  assert (Hn' : (n < 64)%nat) by lia. clear Hn.
  do 64 (destruct n as [|n]; [by vm_compute|]). lia.
Qed.

Lemma byte_bit_high (b : byte) m : 8 <= m → N.testbit (Byte.to_N b) m = false.
Proof.
  intros Hm. rewrite <- (N.mod_small (Byte.to_N b) (2 ^ 8)) by apply byte_to_N_lt.
  by apply N.mod_pow2_bits_high.
Qed.

(** Case analysis on the position of a bit. *)
Ltac solve_bits m cuts :=
  match cuts with
  | (?c, ?rest) => destruct (N.lt_ge_cases m c); solve_bits m rest
  | tt =>
      repeat match goal with
        | |- context [N.testbit (N.lor ?a ?b) ?i] => rewrite (N.lor_spec a b i)
        | |- context [N.testbit (N.land ?a ?b) ?i] => rewrite (N.land_spec a b i)
        | |- context [N.testbit (N.shiftr ?a ?k) ?i] => rewrite (N.shiftr_spec' a k i)
        | |- context [N.testbit (N.shiftl ?a ?k) ?i] =>
            first [rewrite (N.shiftl_spec_low a k i) by lia
                  |rewrite (N.shiftl_spec_high' a k i) by lia]
        | |- context [N.testbit (N.ones ?k) ?i] =>
            first [rewrite (N.ones_spec_low k i) by lia
                  |rewrite (N.ones_spec_high k i) by lia]
        | |- context [N.testbit (Byte.to_N ?b) ?i] => rewrite (byte_bit_high b i) by lia
        | |- context [N.testbit 0 ?i] => rewrite (N.bits_0 i)
        end;
      rewrite ?andb_true_r, ?andb_false_r, ?orb_false_r, ?orb_false_l;
      try reflexivity; try (f_equal; lia); try (f_equal; f_equal; lia)
  end.

Definition word (b0 b1 b2 : byte) : N :=
  N.lor (N.lor (N.shiftl (Byte.to_N b0) 16) (N.shiftl (Byte.to_N b1) 8)) (Byte.to_N b2).

Lemma word_high b0 b1 b2 m : 24 <= m → N.testbit (word b0 b1 b2) m = false.
Proof. intros Hm. unfold word. solve_bits m tt. Qed.

(** The four sextets put together again. *)
Lemma sextets_word b0 b1 b2 :
  let n := word b0 b1 b2 in
  N.lor (N.lor (N.lor (N.lor 0 (N.shiftl (N.land (N.shiftr n 18) 63) 18))
    (N.shiftl (N.land (N.shiftr n 12) 63) 12)) (N.shiftl (N.land (N.shiftr n 6) 63) 6))
    (N.shiftl (N.land n 63) 0) = n.
Proof.
  cbv zeta. pose proof (word_high b0 b1 b2) as Hh. set (n := word b0 b1 b2) in *. clearbody n.
  change 63 with (N.ones 6). apply N.bits_inj. intros m.
  destruct (N.lt_ge_cases m 24) as [Hlt|Hge].
  - solve_bits m (6, (12, (18, tt))).
  - rewrite (Hh m Hge). solve_bits m tt.
Qed.

Lemma word_bytes b0 b1 b2 :
  byte_of_N (N.shiftr (word b0 b1 b2) 16) = b0 ∧
  byte_of_N (N.shiftr (word b0 b1 b2) 8) = b1 ∧
  byte_of_N (word b0 b1 b2) = b2.
Proof.
  assert (Hb : ∀ v b, N.land v (N.ones 8) = Byte.to_N b → byte_of_N v = b).
  { intros v b Hv. rewrite N.land_ones in Hv. rewrite <- (byte_of_N_to_N b), <- Hv.
    unfold byte_of_N. by rewrite N.Div0.mod_mod. }
  unfold word. split_and!; apply Hb; apply N.bits_inj; intros m; solve_bits m (8, (16, tt)).
Qed.

(** A sextet that only reads zero bytes. *)
Lemma low_sextets_zero b0 b1 :
  N.land (word b0 b1 x00) 63 = 0 ∧ N.land (N.shiftr (word b0 x00 x00) 6) 63 = 0.
Proof.
  assert (H0 : Byte.to_N x00 = 0) by done. change 63 with (N.ones 6).
  split; unfold word; rewrite H0; apply N.bits_inj; intros m; solve_bits m (6, (8, tt)).
Qed.

Definition sextet_or_pad (c : byte) : option N :=
  if Byte.eqb c pad_char then Some 0 else sextet c.

Lemma decode_bits_four c0 c1 c2 c3 v0 v1 v2 v3 :
  sextet_or_pad c0 = Some v0 → sextet_or_pad c1 = Some v1 →
  sextet_or_pad c2 = Some v2 → sextet_or_pad c3 = Some v3 →
  decode_bits [c0; c1; c2; c3] 0 0 =
    Some (N.lor (N.lor (N.lor (N.lor 0 (N.shiftl v0 18)) (N.shiftl v1 12)) (N.shiftl v2 6))
            (N.shiftl v3 0)).
Proof.
  unfold sextet_or_pad. intros E0 E1 E2 E3. cbn [decode_bits].
  rewrite E0, E1, E2, E3. done.
Qed.

Lemma land63 n : N.land n 63 < 64.
Proof. change 63 with (N.ones 6). rewrite N.land_ones. by apply N.mod_upper_bound. Qed.

Lemma sextet_or_pad_alphabet n : sextet_or_pad (alphabet (N.land n 63)) = Some (N.land n 63).
Proof.
  unfold sextet_or_pad. destruct (alphabet_facts (N.land n 63) (land63 n)) as (-> & -> & _). done.
Qed.

Lemma decode_encode_chunk c :
  (1 ≤ length c ≤ 3)%nat → decode_chunk (encode_chunk c) = Some c.
Proof.
  intros Hc. assert (Hpad : ∀ n, Byte.eqb (alphabet (N.land n 63)) pad_char = false)
    by (intros n; by apply alphabet_facts, land63).
  assert (Hp : Byte.eqb pad_char pad_char = true) by done.
  assert (Hpv : sextet_or_pad pad_char = Some 0) by done.
  unfold decode_chunk, encode_chunk. cbv beta zeta.
  destruct c as [|b0 [|b1 [|b2 [|]]]]; simpl in Hc; try lia; cbn [nth length Nat.ltb Nat.leb];
    fold (word b0 x00 x00); try fold (word b0 b1 x00); try fold (word b0 b1 b2);
    (erewrite decode_bits_four;
       [|apply sextet_or_pad_alphabet || exact Hpv..]);
    repeat first [rewrite filter_cons_True by done
                 |rewrite filter_cons_False by (cbv beta; by rewrite Hpad)];
    cbn [filter list_filter length Nat.ltb Nat.leb app].
  - pose proof (sextets_word b0 x00 x00) as Hs. cbv zeta in Hs.
    rewrite (proj1 (low_sextets_zero b0 x00)), (proj2 (low_sextets_zero b0 x00)) in Hs.
    rewrite Hs. by destruct (word_bytes b0 x00 x00) as (-> & _ & _).
  - pose proof (sextets_word b0 b1 x00) as Hs. cbv zeta in Hs.
    rewrite (proj1 (low_sextets_zero b0 b1)) in Hs.
    rewrite Hs. by destruct (word_bytes b0 b1 x00) as (-> & -> & _).
  - pose proof (sextets_word b0 b1 b2) as Hs. cbv zeta in Hs.
    rewrite Hs. by destruct (word_bytes b0 b1 b2) as (-> & -> & ->).
Qed.

Lemma length_encode_chunk c : length (encode_chunk c) = 4%nat.
Proof. done. Qed.

Lemma encode_chunk_solid c : Forall (λ b, solid b = true) (encode_chunk c).
Proof.
  assert (Ha : ∀ n, solid (alphabet (N.land n 63)) = true)
    by (intros n; by apply alphabet_facts, land63).
  unfold encode_chunk. repeat constructor; auto; case_if; auto.
Qed.

(** Induction on a payload by its chunks. *)
Lemma chunks3_ind (P : list byte → Prop) :
  P [] → (∀ c, (1 ≤ length c ≤ 3)%nat → P c) →
  (∀ c k, length c = 3%nat → P k → P (c ++ k)) → ∀ l, P l.
Proof.
  intros Hn Hl Hs l. remember (length l) as n eqn:Hlen. revert l Hlen.
  induction (lt_wf n) as [n _ IH]. intros l ->.
  destruct (decide (length l ≤ 3)%nat) as [Hle|Hgt].
  - destruct l as [|b l]; [done|]. apply Hl. simpl in *. lia.
  - rewrite <- (take_drop 3 l). apply Hs; [rewrite length_take; lia|].
    eapply IH; [|done]. rewrite length_drop. lia.
Qed.

Lemma base64_encode_app c k :
  length c = 3%nat → base64_encode (c ++ k) = encode_chunk c ++ base64_encode k.
Proof. intros Hc. unfold base64_encode. by rewrite chunks_app by lia. Qed.

Lemma base64_encode_last c : (1 ≤ length c ≤ 3)%nat → base64_encode c = encode_chunk c.
Proof. intros Hc. unfold base64_encode. rewrite chunks_last by lia. apply app_nil_r. Qed.

(** Base64 round trip.  Decoding the text a payload was encoded to gives the
    payload back, for every payload. *)
Theorem base64_roundtrip bytes : base64_decode (base64_encode bytes) = Some bytes.
Proof.
  assert (Hsolid : Forall (λ b, solid b = true) (base64_encode bytes)).
  { unfold base64_encode. apply Forall_join, Forall_fmap, Forall_true.
    intros c. apply encode_chunk_solid. }
  unfold base64_decode. rewrite trim_solid by done.
  assert (Hrt : (length (base64_encode bytes) mod 4 = 0)%nat ∧
                decode_chunks (chunks 4 (base64_encode bytes)) = Some bytes).
  { clear Hsolid. induction bytes as [|c Hc|c k Hc [IHm IHd]] using chunks3_ind; [done| |].
    - rewrite base64_encode_last by done. split; [done|].
      rewrite chunks_last by (rewrite length_encode_chunk; lia). cbn [decode_chunks].
      rewrite decode_encode_chunk by done. by rewrite app_nil_r.
    - rewrite base64_encode_app by done. split.
      + rewrite length_app, length_encode_chunk, Nat.Div0.add_mod, IHm. done.
      + rewrite chunks_app by (rewrite ?length_encode_chunk; lia). cbn [decode_chunks].
        rewrite decode_encode_chunk, IHd by lia. done. }
  destruct Hrt as [-> ->]. done.
Qed.
