(* ===== verification/RaftNode.v ===== *)
(** * The Raft node

    Models [crates/auradb-raft/src/node.rs]: the configuration, the messages, the
    whole node state and every operation of [RaftNode<S>], over any storage that
    implements the trait of [RaftLog].  Operations that return a [Result] are
    state transformers with an error ([SE]); operations that the source calls for
    their effect only are plain functions on the node.

    Ticks and timeouts are [u32]s, the generator state is a [u64]; both are [N]
    with the source's wrapping and saturating operations written out.  The hash
    maps are [gmap]s: the code never depends on their iteration order. *)

From S2P Require Import Prelude RaftLog.

Local Open Scope N_scope.

(** ** Configuration and messages *)

Inductive NodeRole := Follower | Candidate | Leader.

#[export] Instance NodeRole_eq_dec : EqDecision NodeRole.
Proof. solve_decision. Defined.

Record RaftConfig := mkConfig {
  cfg_id : NodeId;
  cfg_peers : list NodeId;
  election_timeout_min : N;
  election_timeout_max : N;
  heartbeat_interval : N;
}.

(** [RaftConfig::single_node]. *)
Definition config_single_node (id : NodeId) : RaftConfig := mkConfig id [] 10 20 3.

Definition voters (c : RaftConfig) : nat := (length (cfg_peers c) + 1)%nat.
Definition majority (c : RaftConfig) : nat := (voters c / 2 + 1)%nat.

Inductive Message :=
| RequestVote (term : Term) (last_log_index : LogIndex) (last_log_term : Term)
| RequestVoteResp (term : Term) (granted : bool)
| AppendEntries (term : Term) (prev_log_index : LogIndex) (prev_log_term : Term)
    (entries : list LogEntry) (leader_commit : LogIndex)
| AppendEntriesResp (term : Term) (success : bool) (match_index : LogIndex).

#[export] Instance Message_eq_dec : EqDecision Message.
Proof. solve_decision. Defined.

Record Envelope := mkEnvelope {
  env_to : NodeId;
  env_message : Message;
}.

#[export] Instance Envelope_eq_dec : EqDecision Envelope.
Proof. solve_decision. Defined.

Definition message_term (m : Message) : Term :=
  match m with
  | RequestVote term _ _ => term
  | RequestVoteResp term _ => term
  | AppendEntries term _ _ _ _ => term
  | AppendEntriesResp term _ _ => term
  end.

Definition min_index (a b : LogIndex) : LogIndex := if a <? b then a else b.

Record RaftMetrics := mkMetrics {
  leader_changes : N;
  votes_granted : N;
  append_entries_sent : N;
  append_entries_received : N;
}.

Definition metrics_default : RaftMetrics := mkMetrics 0 0 0 0.
Definition bump_leader_changes (m : RaftMetrics) : RaftMetrics :=
  mkMetrics (leader_changes m + 1) (votes_granted m) (append_entries_sent m)
    (append_entries_received m).
Definition bump_votes_granted (m : RaftMetrics) : RaftMetrics :=
  mkMetrics (leader_changes m) (votes_granted m + 1) (append_entries_sent m)
    (append_entries_received m).
Definition bump_sent (m : RaftMetrics) : RaftMetrics :=
  mkMetrics (leader_changes m) (votes_granted m) (append_entries_sent m + 1)
    (append_entries_received m).
Definition bump_received (m : RaftMetrics) : RaftMetrics :=
  mkMetrics (leader_changes m) (votes_granted m) (append_entries_sent m)
    (append_entries_received m + 1).

(** ** Node state *)

Record RaftNode (S : Type) := mkNode {
  config : RaftConfig;
  storage : S;
  role : NodeRole;
  leader_id : option NodeId;
  commit_index : LogIndex;
  last_applied : LogIndex;
  election_elapsed : N;
  heartbeat_elapsed : N;
  randomized_election_timeout : N;
  next_index : gmap NodeId LogIndex;
  match_index : gmap NodeId LogIndex;
  votes : gmap NodeId bool;
  rng_state : N;
  outbox : list Envelope;
  metrics : RaftMetrics;
}.
Arguments mkNode {S}.
Arguments config {S} _.
Arguments storage {S} _.
Arguments role {S} _.
Arguments leader_id {S} _.
Arguments commit_index {S} _.
Arguments last_applied {S} _.
Arguments election_elapsed {S} _.
Arguments heartbeat_elapsed {S} _.
Arguments randomized_election_timeout {S} _.
Arguments next_index {S} _.
Arguments match_index {S} _.
Arguments votes {S} _.
Arguments rng_state {S} _.
Arguments outbox {S} _.
Arguments metrics {S} _.

Section setters.
Context {S : Type}.
Definition set_storage (x : S) (n : RaftNode S) : RaftNode S :=
  mkNode (config n) x (role n) (leader_id n) (commit_index n) (last_applied n) (election_elapsed n) (heartbeat_elapsed n) (randomized_election_timeout n) (next_index n) (match_index n) (votes n) (rng_state n) (outbox n) (metrics n).
Definition set_role (x : NodeRole) (n : RaftNode S) : RaftNode S :=
  mkNode (config n) (storage n) x (leader_id n) (commit_index n) (last_applied n) (election_elapsed n) (heartbeat_elapsed n) (randomized_election_timeout n) (next_index n) (match_index n) (votes n) (rng_state n) (outbox n) (metrics n).
Definition set_leader_id (x : option NodeId) (n : RaftNode S) : RaftNode S :=
  mkNode (config n) (storage n) (role n) x (commit_index n) (last_applied n) (election_elapsed n) (heartbeat_elapsed n) (randomized_election_timeout n) (next_index n) (match_index n) (votes n) (rng_state n) (outbox n) (metrics n).
Definition set_commit_index (x : LogIndex) (n : RaftNode S) : RaftNode S :=
  mkNode (config n) (storage n) (role n) (leader_id n) x (last_applied n) (election_elapsed n) (heartbeat_elapsed n) (randomized_election_timeout n) (next_index n) (match_index n) (votes n) (rng_state n) (outbox n) (metrics n).
Definition set_last_applied (x : LogIndex) (n : RaftNode S) : RaftNode S :=
  mkNode (config n) (storage n) (role n) (leader_id n) (commit_index n) x (election_elapsed n) (heartbeat_elapsed n) (randomized_election_timeout n) (next_index n) (match_index n) (votes n) (rng_state n) (outbox n) (metrics n).
Definition set_election_elapsed (x : N) (n : RaftNode S) : RaftNode S :=
  mkNode (config n) (storage n) (role n) (leader_id n) (commit_index n) (last_applied n) x (heartbeat_elapsed n) (randomized_election_timeout n) (next_index n) (match_index n) (votes n) (rng_state n) (outbox n) (metrics n).
Definition set_heartbeat_elapsed (x : N) (n : RaftNode S) : RaftNode S :=
  mkNode (config n) (storage n) (role n) (leader_id n) (commit_index n) (last_applied n) (election_elapsed n) x (randomized_election_timeout n) (next_index n) (match_index n) (votes n) (rng_state n) (outbox n) (metrics n).
Definition set_randomized_election_timeout (x : N) (n : RaftNode S) : RaftNode S :=
  mkNode (config n) (storage n) (role n) (leader_id n) (commit_index n) (last_applied n) (election_elapsed n) (heartbeat_elapsed n) x (next_index n) (match_index n) (votes n) (rng_state n) (outbox n) (metrics n).
Definition set_next_index (x : gmap NodeId LogIndex) (n : RaftNode S) : RaftNode S :=
  mkNode (config n) (storage n) (role n) (leader_id n) (commit_index n) (last_applied n) (election_elapsed n) (heartbeat_elapsed n) (randomized_election_timeout n) x (match_index n) (votes n) (rng_state n) (outbox n) (metrics n).
Definition set_match_index (x : gmap NodeId LogIndex) (n : RaftNode S) : RaftNode S :=
  mkNode (config n) (storage n) (role n) (leader_id n) (commit_index n) (last_applied n) (election_elapsed n) (heartbeat_elapsed n) (randomized_election_timeout n) (next_index n) x (votes n) (rng_state n) (outbox n) (metrics n).
Definition set_votes (x : gmap NodeId bool) (n : RaftNode S) : RaftNode S :=
  mkNode (config n) (storage n) (role n) (leader_id n) (commit_index n) (last_applied n) (election_elapsed n) (heartbeat_elapsed n) (randomized_election_timeout n) (next_index n) (match_index n) x (rng_state n) (outbox n) (metrics n).
Definition set_rng_state (x : N) (n : RaftNode S) : RaftNode S :=
  mkNode (config n) (storage n) (role n) (leader_id n) (commit_index n) (last_applied n) (election_elapsed n) (heartbeat_elapsed n) (randomized_election_timeout n) (next_index n) (match_index n) (votes n) x (outbox n) (metrics n).
Definition set_outbox (x : list Envelope) (n : RaftNode S) : RaftNode S :=
  mkNode (config n) (storage n) (role n) (leader_id n) (commit_index n) (last_applied n) (election_elapsed n) (heartbeat_elapsed n) (randomized_election_timeout n) (next_index n) (match_index n) (votes n) (rng_state n) x (metrics n).
Definition set_metrics (x : RaftMetrics) (n : RaftNode S) : RaftNode S :=
  mkNode (config n) (storage n) (role n) (leader_id n) (commit_index n) (last_applied n) (election_elapsed n) (heartbeat_elapsed n) (randomized_election_timeout n) (next_index n) (match_index n) (votes n) (rng_state n) (outbox n) x.
End setters.

(** SplitMix64, one step: the new state and the output. *)
Definition splitmix64 (state : N) : N * N :=
  let st := wrap64 (state + 0x9e3779b97f4a7c15) in
  let z1 := wrap64 (N.lxor st (N.shiftr st 30) * 0xbf58476d1ce4e5b9) in
  let z2 := wrap64 (N.lxor z1 (N.shiftr z1 27) * 0x94d049bb133111eb) in
  (st, N.lxor z2 (N.shiftr z2 31)).

Section node.
Context {S : Type} `{RaftStorage S}.
Implicit Types n : RaftNode S.

(** Run a storage operation on the node's storage, keeping its effect. *)
Definition on_storage {A} (op : SE S RaftError A) : SE (RaftNode S) RaftError A := λ n,
  let r := op (storage n) in (set_storage r.1 n, r.2).

Definition term (n : RaftNode S) : Term := current_term (hard_state (storage n)).

Definition send (to : NodeId) (m : Message) (n : RaftNode S) : RaftNode S :=
  set_outbox (outbox n ++ [mkEnvelope to m]) n.

Definition next_rand (n : RaftNode S) : N * RaftNode S :=
  let r := splitmix64 (rng_state n) in (r.2, set_rng_state r.1 n).

Definition election_span (c : RaftConfig) : N :=
  N.max 1 (sat_add32 (election_timeout_max c - election_timeout_min c) 1).

Definition reset_election_timeout (n : RaftNode S) : RaftNode S :=
  let n := set_election_elapsed 0 n in
  let span := election_span (config n) in
  let '(x, n) := next_rand n in
  let r := x mod span in
  set_randomized_election_timeout ((election_timeout_min (config n) + r) mod 2 ^ 32) n.

(** [RaftNode::new]: term, vote and commit index come back from storage. *)
Definition node_new (c : RaftConfig) (s : S) : RaftNode S :=
  let hs := hard_state s in
  let seed := N.lxor (cfg_id c) 0x9e3779b97f4a7c15 in
  reset_election_timeout
    (mkNode c s Follower None (hs_commit_index hs) (hs_commit_index hs) 0 0 0
       ∅ ∅ ∅ seed [] metrics_default).

(** ** Replication helpers *)

Definition persist_commit_index : SE (RaftNode S) RaftError unit := λ n,
  let hs := hard_state (storage n) in
  if negb (hs_commit_index hs =? commit_index n)
  then on_storage (save_hard_state
         (mkHard (current_term hs) (voted_for hs) (commit_index n))) n
  else (n, Ok tt).

Definition peer_next (n : RaftNode S) (peer : NodeId) : LogIndex :=
  match next_index n !! peer with
  | Some i => i
  | None => index_next (last_index (storage n))
  end.

Definition send_append_to (peer : NodeId) (n : RaftNode S) : RaftNode S :=
  let next := peer_next n peer in
  let prev_log_index := index_prev next in
  let prev_log_term :=
    match term_at (storage n) prev_log_index with Some t => t | None => 0 end in
  let entries := entries_from (storage n) next in
  let n := set_metrics (bump_sent (metrics n)) n in
  send peer (AppendEntries (term n) prev_log_index prev_log_term entries (commit_index n)) n.

Definition broadcast_append (n : RaftNode S) : RaftNode S :=
  foldl (λ n peer, send_append_to peer n) n (cfg_peers (config n)).

Definition replicated (n : RaftNode S) (i : LogIndex) : nat :=
  size (filter (λ kv, i <= kv.2) (match_index n)).

(** The [while n <= last] loop of [maybe_advance_commit]; [count] is the number
    of indices left to look at. *)
Fixpoint advance_loop (nd : RaftNode S) (i new_commit : LogIndex) (count : nat) : LogIndex :=
  match count with
  | O => new_commit
  | Datatypes.S count' =>
      let from_current_term := bool_decide (term_at (storage nd) i = Some (term nd)) in
      let new_commit :=
        if ((majority (config nd) <=? replicated nd i)%nat && from_current_term)%bool
        then i else new_commit in
      advance_loop nd (index_next i) new_commit count'
  end.

Definition maybe_advance_commit : SE (RaftNode S) RaftError unit := λ n,
  let last := last_index (storage n) in
  let new_commit :=
    advance_loop n (index_next (commit_index n)) (commit_index n)
      (N.to_nat (last - commit_index n)) in
  if commit_index n <? new_commit
  then persist_commit_index (set_commit_index new_commit n)
  else (n, Ok tt).

(** ** Role transitions *)

Definition become_follower (t : Term) (leader : option NodeId)
  : SE (RaftNode S) RaftError unit :=
  (λ n, let hs := hard_state (storage n) in
        if current_term hs <? t
        then on_storage (save_hard_state (mkHard t None (hs_commit_index hs))) n
        else (n, Ok tt)) >>>
  se_modify (set_role Follower) >>>
  se_modify (λ n, if leader is Some _ then set_leader_id leader n else n) >>>
  se_modify (set_votes ∅).

Definition init_peers (last : LogIndex) (n : RaftNode S) : RaftNode S :=
  foldl (λ n peer,
           set_match_index (<[peer := 0]> (match_index n))
             (set_next_index (<[peer := index_next last]> (next_index n)) n))
    (set_match_index ∅ (set_next_index ∅ n)) (cfg_peers (config n)).

Definition become_leader : SE (RaftNode S) RaftError unit := λ n,
  let n := set_role Leader n in
  let n := set_leader_id (Some (cfg_id (config n))) n in
  let n := set_metrics (bump_leader_changes (metrics n)) n in
  let n := set_heartbeat_elapsed 0 n in
  let last := last_index (storage n) in
  let n := init_peers last n in
  let n := set_match_index (<[cfg_id (config n) := last]> (match_index n)) n in
  let index := index_next last in
  let entry := mkEntry (term n) index command_noop in
  (on_storage (append [entry]) >>>
   se_modify (λ n, set_match_index (<[cfg_id (config n) := index]> (match_index n)) n) >>>
   maybe_advance_commit >>>
   se_modify broadcast_append) n.

Definition request_votes (t : Term) (lli : LogIndex) (llt : Term) (n : RaftNode S)
  : RaftNode S :=
  foldl (λ n peer, send peer (RequestVote t lli llt) n) n (cfg_peers (config n)).

(** [campaign]: the errors of the save and of [become_leader] are dropped. *)
Definition campaign (n : RaftNode S) : RaftNode S :=
  let hs := hard_state (storage n) in
  let hs' := mkHard (current_term hs + 1) (Some (cfg_id (config n))) (hs_commit_index hs) in
  let n := (on_storage (save_hard_state hs') n).1 in
  let n := set_role Candidate n in
  let n := set_leader_id None n in
  let n := set_votes {[cfg_id (config n) := true]} n in
  let n := reset_election_timeout n in
  if (majority (config n) <=? 1)%nat
  then (become_leader n).1
  else request_votes (term n) (last_index (storage n)) (last_term (storage n)) n.

(** ** Message handlers *)

(** Lexicographic comparison of [(term, index)] pairs. *)
Definition log_up_to_date (t1 : Term) (i1 : LogIndex) (t2 : Term) (i2 : LogIndex) : bool :=
  ((t2 <? t1) || ((t2 =? t1) && (i2 <=? i1)))%bool.

Definition handle_request_vote (from : NodeId) (t : Term) (lli : LogIndex) (llt : Term)
  : SE (RaftNode S) RaftError unit := λ n,
  let hs := hard_state (storage n) in
  let decide_vote : SE (RaftNode S) RaftError bool :=
    if t <? current_term hs then se_ret false
    else
      let can_vote := (bool_decide (voted_for hs = None)
                       || bool_decide (voted_for hs = Some from))%bool in
      let log_ok := log_up_to_date llt lli (last_term (storage n)) (last_index (storage n)) in
      if (can_vote && log_ok)%bool
      then
        on_storage (save_hard_state
          (mkHard (current_term hs) (Some from) (hs_commit_index hs))) >>>
        se_modify (set_election_elapsed 0) >>>
        se_modify (λ n, set_metrics (bump_votes_granted (metrics n)) n) >>>
        se_ret true
      else se_ret false in
  (granted <~ decide_vote ;;
   se_modify (λ n, send from (RequestVoteResp (term n) granted) n)) n.

Definition yes_votes (n : RaftNode S) : nat :=
  size (filter (λ kv, kv.2 = true) (votes n)).

Definition handle_vote_resp (from : NodeId) (t : Term) (granted : bool)
  : SE (RaftNode S) RaftError unit := λ n,
  if (negb (bool_decide (role n = Candidate)) || negb (t =? term n))%bool then (n, Ok tt)
  else
    let n := set_votes (<[from := granted]> (votes n)) n in
    if (majority (config n) <=? yes_votes n)%nat then become_leader n else (n, Ok tt).

(** The append loop: entries already present are kept, a conflicting suffix is
    truncated first.  The result is the last index looked at. *)
Fixpoint append_loop (entries : list LogEntry) (mi : LogIndex)
  : SE (RaftNode S) RaftError LogIndex := λ n,
  match entries with
  | [] => (n, Ok mi)
  | entry :: rest =>
      (match term_at (storage n) (e_index entry) with
       | Some existing =>
           if existing =? e_term entry then se_ret tt
           else on_storage (truncate_from (e_index entry)) >>> on_storage (append [entry])
       | None => on_storage (append [entry])
       end >>>
       append_loop rest (e_index entry)) n
  end.

Definition handle_append_entries (from : NodeId) (t : Term) (pli : LogIndex) (plt : Term)
  (entries : list LogEntry) (leader_commit : LogIndex) : SE (RaftNode S) RaftError unit := λ n,
  let n := set_metrics (bump_received (metrics n)) n in
  let current := term n in
  if t <? current then (send from (AppendEntriesResp current false 0) n, Ok tt)
  else
    (become_follower t (Some from) >>>
     se_modify (set_election_elapsed 0) >>>
     λ n,
       let prev_ok := match term_at (storage n) pli with
                      | Some x => x =? plt
                      | None => false
                      end in
       if negb prev_ok then (send from (AppendEntriesResp (term n) false 0) n, Ok tt)
       else
         (mi <~ append_loop entries pli ;;
          (λ n, if commit_index n <? leader_commit
                then persist_commit_index
                       (set_commit_index (min_index leader_commit (last_index (storage n))) n)
                else (n, Ok tt)) >>>
          se_modify (λ n, send from (AppendEntriesResp (term n) true mi) n)) n) n.

Definition handle_append_resp (from : NodeId) (t : Term) (success : bool) (mi : LogIndex)
  : SE (RaftNode S) RaftError unit := λ n,
  if (negb (bool_decide (role n = Leader)) || negb (t =? term n))%bool then (n, Ok tt)
  else if success then
    maybe_advance_commit
      (set_next_index (<[from := index_next mi]> (next_index n))
        (set_match_index (<[from := mi]> (match_index n)) n))
  else
    let backed := N.max (peer_next n from - 1) 1 in
    (send_append_to from (set_next_index (<[from := backed]> (next_index n)) n), Ok tt).

Definition dispatch (from : NodeId) (m : Message) : SE (RaftNode S) RaftError unit :=
  match m with
  | RequestVote t lli llt => handle_request_vote from t lli llt
  | RequestVoteResp t granted => handle_vote_resp from t granted
  | AppendEntries t pli plt es lc => handle_append_entries from t pli plt es lc
  | AppendEntriesResp t success mi => handle_append_resp from t success mi
  end.

(** [RaftNode::step]: a newer term is adopted before the message is handled. *)
Definition step (from : NodeId) (m : Message) : SE (RaftNode S) RaftError unit :=
  (λ n, if term n <? message_term m
        then become_follower (message_term m) None n
        else (n, Ok tt)) >>>
  dispatch from m.

(** ** Driving the node *)

Definition tick (n : RaftNode S) : RaftNode S :=
  match role n with
  | Leader =>
      let n := set_heartbeat_elapsed (heartbeat_elapsed n + 1) n in
      if heartbeat_interval (config n) <=? heartbeat_elapsed n
      then broadcast_append (set_heartbeat_elapsed 0 n)
      else n
  | Follower | Candidate =>
      let n := set_election_elapsed (election_elapsed n + 1) n in
      if randomized_election_timeout n <=? election_elapsed n then campaign n else n
  end.

Definition take_messages (n : RaftNode S) : list Envelope * RaftNode S :=
  (outbox n, set_outbox [] n).

(** The [while idx <= self.commit_index] loop of [take_committed]. *)
Fixpoint committed_range (s : S) (idx : LogIndex) (count : nat) : list LogEntry :=
  match count with
  | O => []
  | Datatypes.S count' =>
      match entry_at s idx with
      | Some entry => entry :: committed_range s (index_next idx) count'
      | None => committed_range s (index_next idx) count'
      end
  end.

Definition take_committed (n : RaftNode S) : list LogEntry * RaftNode S :=
  (committed_range (storage n) (index_next (last_applied n))
     (N.to_nat (commit_index n - last_applied n)),
   set_last_applied (commit_index n) n).

Definition propose (c : Command) : SE (RaftNode S) RaftError LogIndex := λ n,
  if negb (bool_decide (role n = Leader)) then (n, Err (RNotLeader (leader_id n)))
  else
    let index := index_next (last_index (storage n)) in
    let entry := mkEntry (term n) index c in
    (on_storage (append [entry]) >>>
     se_modify (λ n, set_match_index (<[cfg_id (config n) := index]> (match_index n)) n) >>>
     maybe_advance_commit >>>
     se_modify broadcast_append >>>
     se_ret index) n.

Definition adopt_snapshot (last_included_index : LogIndex) (n : RaftNode S) : RaftNode S :=
  let n := if commit_index n <? last_included_index
           then set_commit_index last_included_index n else n in
  if last_applied n <? last_included_index
  then set_last_applied last_included_index n else n.

Definition on_snapshot_installed (peer : NodeId) (lii : LogIndex) (n : RaftNode S)
  : RaftNode S :=
  if negb (bool_decide (role n = Leader)) then n
  else
    let cur_match := default 0 (match_index n !! peer) in
    let n := if cur_match <? lii
             then set_match_index (<[peer := lii]> (match_index n)) n else n in
    let next := index_next lii in
    let cur_next := default 0 (next_index n !! peer) in
    let n := if cur_next <? next
             then set_next_index (<[peer := next]> (next_index n)) n else n in
    send_append_to peer n.
End node.
