(* ===== verification/Voting.v ===== *)
(** * The voting protocol behind leader election

    An abstract specification of what the vote handling of the Raft node has to
    guarantee, apart from logs, timers and replication: every server has a term,
    a vote, a role and the votes it collected; servers exchange vote requests and
    granted votes over a soup of messages that is never emptied, so a message may
    be lost, delayed, reordered or delivered many times.  The one theorem is
    election safety: over the whole life of the system a term has at most one
    leader.  [RaftElection] shows that the nodes of [RaftNode] refine this
    protocol. *)

From S2P Require Import Prelude RaftLog RaftNode.

Local Open Scope N_scope.

(** What a node has to remember of elections. *)
Record VState := mkV {
  v_term : Term;
  v_vote : option NodeId;
  v_role : NodeRole;
  v_votes : gmap NodeId bool;
}.

Definition v_yes (v : VState) : gset NodeId :=
  dom (filter (λ kv, kv.2 = true) (v_votes v)).

Record VNet := mkVNet {
  vn_nodes : gmap NodeId VState;
  vn_soup : list (NodeId * Envelope);
}.

Section voting.
Context (members : list NodeId) (peers : NodeId → list NodeId).

Definition quorum : nat := (length members / 2 + 1)%nat.

(** A vote of [v] for [c] in term [t] that was sent out. *)
Definition granted (soup : list (NodeId * Envelope)) (v c : NodeId) (t : Term) : Prop :=
  (v, mkEnvelope c (RequestVoteResp t true)) ∈ soup.

(** [c] asked for votes in term [t]. *)
Definition requested (soup : list (NodeId * Envelope)) (c : NodeId) (t : Term) : Prop :=
  ∃ p li lt, (c, mkEnvelope p (RequestVote t li lt)) ∈ soup.

(** Messages that neither ask for nor grant a vote. *)
Definition harmless (e : Envelope) : Prop :=
  match env_message e with
  | RequestVote _ _ _ => False
  | RequestVoteResp _ granted => granted = false
  | _ => True
  end.

(** One action of server [i], with the messages it sends. *)
Inductive v_action (soup : list (NodeId * Envelope)) (i : NodeId)
  : VState → list Envelope → VState → Prop :=
| va_other v out : Forall harmless out → v_action soup i v out v
| va_adopt v t : v_term v < t →
    v_action soup i v [] (mkV t None Follower ∅)
| va_demote v :
    v_action soup i v [] (mkV (v_term v) (v_vote v) Follower ∅)
| va_grant v c : v_vote v = None ∨ v_vote v = Some c →
    v_action soup i v [mkEnvelope c (RequestVoteResp (v_term v) true)]
      (mkV (v_term v) (Some c) (v_role v) (v_votes v))
| va_tally v f g : v_role v = Candidate → f ∈ members →
    (f, mkEnvelope i (RequestVoteResp (v_term v) g)) ∈ soup →
    v_action soup i v [] (mkV (v_term v) (v_vote v) Candidate (<[f := g]> (v_votes v)))
| va_elect v : v_role v = Candidate → (quorum ≤ size (v_yes v))%nat →
    v_action soup i v [] (mkV (v_term v) (v_vote v) Leader (v_votes v))
| va_campaign v li lt :
    v_action soup i v
      ((λ p, mkEnvelope p (RequestVote (v_term v + 1) li lt)) <$> peers i)
      (mkV (v_term v + 1) (Some i) Candidate {[i := true]}).

Inductive v_step : VNet → VNet → Prop :=
| vs_action net i v out v' :
    vn_nodes net !! i = Some v → i ∈ members →
    v_action (vn_soup net) i v out v' →
    v_step net (mkVNet (<[i := v']> (vn_nodes net))
                       (vn_soup net ++ ((λ e, (i, e)) <$> out))).

Definition v_initial (net : VNet) : Prop :=
  vn_soup net = [] ∧
  ∀ i v, vn_nodes net !! i = Some v → v_role v = Follower.

Definition v_leader (net : VNet) (i : NodeId) (t : Term) : Prop :=
  ∃ v, vn_nodes net !! i = Some v ∧ v_role v = Leader ∧ v_term v = t.

(** ** Invariant *)

(** A vote that left its voter is remembered until the voter's term moves on. *)
Definition inv_remember (net : VNet) : Prop :=
  (∀ v c t, granted (vn_soup net) v c t →
     ∃ s, vn_nodes net !! v = Some s ∧ t <= v_term s ∧ (t = v_term s → v_vote s = Some c)) ∧
  (∀ c t, requested (vn_soup net) c t →
     ∃ s, vn_nodes net !! c = Some s ∧ t <= v_term s ∧ (t = v_term s → v_vote s = Some c)).

(** A server votes for one candidate per term, itself when it campaigned. *)
Definition soup_unique (soup : list (NodeId * Envelope)) : Prop :=
  (∀ v c1 c2 t, granted soup v c1 t → granted soup v c2 t → c1 = c2) ∧
  (∀ v c t, requested soup v t → granted soup v c t → c = v).

(** What stands behind a server that campaigned in its current term. *)
Definition campaigner (soup : list (NodeId * Envelope)) (i : NodeId) (s : VState) : Prop :=
  v_vote s = Some i ∧
  (peers i = [] ∨ requested soup i (v_term s)) ∧
  (∀ v, v_votes s !! v = Some true →
     v ∈ members ∧ (v = i ∨ granted soup v i (v_term s))) ∧
  (v_role s = Leader → (quorum ≤ size (v_yes s))%nat).

Definition inv_campaign (net : VNet) : Prop :=
  ∀ i s, vn_nodes net !! i = Some s → v_role s ≠ Follower →
    campaigner (vn_soup net) i s.

Definition v_inv (net : VNet) : Prop :=
  inv_remember net ∧ soup_unique (vn_soup net) ∧ inv_campaign net.

Lemma v_inv_initial net : v_initial net → v_inv net.
Proof.
  intros [Hs Hf]. unfold v_inv, inv_remember, soup_unique, inv_campaign, granted, requested.
  rewrite Hs. split_and!; set_solver.
Qed.

(** *** Soup growth *)

Lemma granted_app soup es v c t :
  granted soup v c t → granted (soup ++ es) v c t.
Proof. unfold granted. set_solver. Qed.

Lemma requested_app soup es c t : requested soup c t → requested (soup ++ es) c t.
Proof. unfold requested. set_solver. Qed.

Lemma campaigner_app soup es i s : campaigner soup i s → campaigner (soup ++ es) i s.
Proof.
  intros (Hv & Hr & Hy & Hq). split; [done|]. split; [naive_solver eauto using requested_app|].
  split; [|done]. intros v Hin. destruct (Hy v Hin) as [? [?|?]]; auto using granted_app.
Qed.

Lemma granted_new soup i out v c t :
  granted (soup ++ ((λ e, (i, e)) <$> out)) v c t →
  granted soup v c t ∨ (v = i ∧ mkEnvelope c (RequestVoteResp t true) ∈ out).
Proof.
  unfold granted. rewrite elem_of_app, list_elem_of_fmap.
  intros [?|(e & [= -> ->] & ?)]; auto.
Qed.

Lemma requested_new soup i out c t :
  requested (soup ++ ((λ e, (i, e)) <$> out)) c t →
  requested soup c t ∨
  (c = i ∧ ∃ p li lt, mkEnvelope p (RequestVote t li lt) ∈ out).
Proof.
  unfold requested. intros (p & li & lt & Hin). revert Hin.
  rewrite elem_of_app, list_elem_of_fmap. intros [?|(e & [= -> <-] & ?)]; eauto 10.
Qed.

(** *** What an action can send and how it moves the server *)

Definition sent_ok (i : NodeId) (v : VState) (out : list Envelope) (v' : VState) : Prop :=
  (∀ c t, mkEnvelope c (RequestVoteResp t true) ∈ out →
     t = v_term v' ∧ v_vote v' = Some c ∧ v_term v = t ∧
     (v_vote v = None ∨ v_vote v = Some c)) ∧
  (∀ p t li lt, mkEnvelope p (RequestVote t li lt) ∈ out →
     t = v_term v' ∧ v_vote v' = Some i ∧ v_term v < t).

Lemma v_action_sent soup i v out v' : v_action soup i v out v' → sent_ok i v out v'.
Proof.
  destruct 1 as [v out Hout| | | | | |]; split; simpl; try (intros; set_solver).
  - intros c t Hin. by pose proof (proj1 (Forall_forall _ _) Hout _ Hin).
  - intros p t li lt Hin. by pose proof (proj1 (Forall_forall _ _) Hout _ Hin).
  - intros p t li' lt' (q & [= -> -> -> ->] & _)%list_elem_of_fmap. auto with lia.
Qed.

(** The vote of a term, once cast, is kept while the term lasts. *)
Lemma v_action_mono soup i v out v' :
  v_action soup i v out v' →
  v_term v <= v_term v' ∧
  (v_term v' = v_term v → ∀ c, v_vote v = Some c → v_vote v' = Some c).
Proof.
  destruct 1; simpl; (split; [lia|]); try done; try lia.
  intros _ c' Hc'. naive_solver.
Qed.

Lemma remember_step soup nodes i v out v' :
  inv_remember (mkVNet nodes soup) → nodes !! i = Some v →
  v_action soup i v out v' →
  inv_remember (mkVNet (<[i := v']> nodes) (soup ++ ((λ e, (i, e)) <$> out))).
Proof.
  intros [Hg Hr] Hi Hact.
  pose proof (v_action_mono _ _ _ _ _ Hact) as [Hmono Hkeep].
  pose proof (v_action_sent _ _ _ _ _ Hact) as [Hsg Hsr].
  assert (Hold : ∀ x c t s, nodes !! x = Some s → t <= v_term s →
    (t = v_term s → v_vote s = Some c) →
    ∃ s', <[i := v']> nodes !! x = Some s' ∧ t <= v_term s' ∧
          (t = v_term s' → v_vote s' = Some c)).
  { intros x c t s Hx Hle Hv. destruct (decide (x = i)) as [->|Hne].
    - simplify_eq. exists v'. rewrite lookup_insert_eq. split; [done|]. split; [lia|].
      intros ->. apply Hkeep; [lia|]. apply Hv. lia.
    - exists s. rewrite lookup_insert_ne by done. auto. }
  split; simpl.
  - intros x c t [Hin|[-> Hin]]%granted_new.
    + destruct (Hg _ _ _ Hin) as (s & ? & ? & ?). eauto.
    + destruct (Hsg _ _ Hin) as (-> & ? & _). exists v'. rewrite lookup_insert_eq. auto with lia.
  - intros c t [Hin|(-> & p & li & lt & Hin)]%requested_new.
    + destruct (Hr _ _ Hin) as (s & ? & ? & ?). eauto.
    + destruct (Hsr _ _ _ _ Hin) as (-> & ? & _). exists v'. rewrite lookup_insert_eq.
      auto with lia.
Qed.

Lemma unique_step soup nodes i v out v' :
  inv_remember (mkVNet nodes soup) → soup_unique soup → nodes !! i = Some v →
  v_action soup i v out v' →
  soup_unique (soup ++ ((λ e, (i, e)) <$> out)).
Proof.
  intros [Hg Hr] [Hu1 Hu2] Hi Hact.
  pose proof (v_action_sent _ _ _ _ _ Hact) as [Hsg Hsr].
  (* a vote of [i] already sent agrees with a new one of the same term *)
  assert (Hagree : ∀ c1 c2 t, granted soup i c1 t →
    mkEnvelope c2 (RequestVoteResp t true) ∈ out → c1 = c2).
  { intros c1 c2 t Hin Hout. destruct (Hg _ _ _ Hin) as (s & ? & ? & Hv). simpl in *.
    destruct (Hsg _ _ Hout) as (-> & ? & Ht & ?). simplify_eq.
    specialize (Hv (eq_sym Ht)). naive_solver. }
  split.
  - intros x c1 c2 t [H1|[-> H1]]%granted_new [H2|[? H2]]%granted_new; subst; eauto.
    + symmetry. eauto.
    + destruct (Hsg _ _ H1) as (-> & ? & _), (Hsg _ _ H2) as (_ & ? & _). congruence.
  - intros x c t [H1|(-> & p & li & lt & H1)]%requested_new [H2|[? H2]]%granted_new;
      subst; eauto.
    + destruct (Hr _ _ H1) as (s & ? & ? & Hv). simpl in *.
      destruct (Hsg _ _ H2) as (-> & ? & Ht & ?). simplify_eq.
      specialize (Hv (eq_sym Ht)). naive_solver.
    + destruct (Hg _ _ _ H2) as (s & ? & ? & _). simpl in *.
      destruct (Hsr _ _ _ _ H1) as (-> & ? & ?). simplify_eq. lia.
    + destruct (Hsr _ _ _ _ H1) as (-> & ? & _), (Hsg _ _ H2) as (_ & ? & _). congruence.
Qed.

Lemma campaigner_step soup i v out v' :
  i ∈ members → (v_role v ≠ Follower → campaigner soup i v) →
  v_action soup i v out v' → v_role v' ≠ Follower →
  campaigner (soup ++ ((λ e, (i, e)) <$> out)) i v'.
Proof.
  intros Him Hc Hact Hr. destruct Hact as [v out Hout|v t| v |v c Hcan|v f g Hrole Hf Hin|v Hrole Hq|v li lt];
    simpl in *; try done.
  - apply campaigner_app. auto.
  - destruct (Hc Hr) as (Hv & Hrest). assert (c = i) as -> by naive_solver.
    apply campaigner_app. split; [done|]. exact Hrest.
  - rewrite app_nil_r. destruct Hc as (Hv & Hreq & Hy & _); [congruence|].
    split; [done|]. split; [done|]. split; [|done]. simpl. intros x Hx.
    destruct (decide (f = x)) as [->|Hne].
    + rewrite lookup_insert_eq in Hx. simplify_eq. auto.
    + rewrite lookup_insert_ne in Hx by done. auto.
  - rewrite app_nil_r. destruct Hc as (Hv & Hreq & Hy & _); [congruence|].
    split; [done|]. split; [done|]. split; [done|]. by intros _.
  - split; [done|]. split; [|split; [|done]]; simpl.
    + destruct (peers i) as [|p ps] eqn:E; [by left|]. right.
      exists p, li, lt. set_solver.
    + intros x Hx. apply lookup_singleton_Some in Hx as [<- _]. auto.
Qed.

Lemma v_inv_step net net' : v_inv net → v_step net net' → v_inv net'.
Proof.
  intros (Hrem & Huniq & Hcamp) Hstep.
  destruct Hstep as [[nodes soup] i v out v' Hi Him Hact]. simpl in *.
  split; [by eapply remember_step|]. split; [by eapply unique_step|].
  intros j s Hj Hrole. simpl in *. destruct (decide (i = j)) as [<-|Hne].
  - rewrite lookup_insert_eq in Hj. simplify_eq.
    eapply campaigner_step; [done| |done|done]. intros ?. by eapply (Hcamp i).
  - rewrite lookup_insert_ne in Hj by done.
    apply campaigner_app. by eapply (Hcamp j).
Qed.

Lemma v_inv_reachable net0 net : v_initial net0 → rtc v_step net0 net → v_inv net.
Proof.
  intros Hi Hr. assert (v_inv net0) as Hinv by by apply v_inv_initial.
  clear Hi. induction Hr; eauto using v_inv_step.
Qed.

Lemma v_soup_mono net net' :
  rtc v_step net net' → ∃ es, vn_soup net' = vn_soup net ++ es.
Proof.
  induction 1 as [net|net1 net2 net3 Hstep _ [es IH]].
  - exists []. by rewrite app_nil_r.
  - destruct Hstep as [net i v out v' ???]. simpl in IH.
    eexists. by rewrite IH, <- app_assoc.
Qed.

(** ** Election safety *)

(** The lasting evidence of an election: it only grows with the soup. *)
Definition certificate (soup : list (NodeId * Envelope)) (i : NodeId) (t : Term) : Prop :=
  i ∈ members ∧ (peers i = [] ∨ requested soup i t) ∧
  ∃ Q : gset NodeId, (quorum ≤ size Q)%nat ∧
    ∀ v, v ∈ Q → v ∈ members ∧ (v = i ∨ granted soup v i t).

Lemma certificate_app soup es i t : certificate soup i t → certificate (soup ++ es) i t.
Proof.
  intros (Hm & Hr & Q & Hq & HQ). split; [done|].
  split; [naive_solver eauto using requested_app|]. exists Q. split; [done|].
  intros v Hv. destruct (HQ v Hv) as [? [?|?]]; auto using granted_app.
Qed.

Lemma leader_certificate net i t :
  v_inv net → (∀ j s, vn_nodes net !! j = Some s → j ∈ members) →
  v_leader net i t → certificate (vn_soup net) i t.
Proof.
  intros (_ & _ & Hcamp) Hdom (v & Hi & Hrole & <-).
  destruct (Hcamp i v Hi) as (_ & Hreq & Hy & Hq); [congruence|].
  split; [by eapply Hdom|]. split; [done|]. exists (v_yes v). split; [by apply Hq|].
  intros x. unfold v_yes. rewrite elem_of_dom.
  intros [b [Hx Hb]%map_lookup_filter_Some]. simpl in Hb. subst. by apply Hy.
Qed.

Lemma quorum_intersect (Q1 Q2 : gset NodeId) :
  (∀ v, v ∈ Q1 → v ∈ members) → (∀ v, v ∈ Q2 → v ∈ members) →
  (quorum ≤ size Q1)%nat → (quorum ≤ size Q2)%nat → ∃ v, v ∈ Q1 ∧ v ∈ Q2.
Proof.
  intros H1 H2 Hq1 Hq2. destruct (decide (Q1 ∩ Q2 = ∅)) as [Hdisj|Hne].
  - exfalso. assert (size (Q1 ∪ Q2) = size Q1 + size Q2)%nat as Hu
      by (apply size_union; set_solver).
    assert (size (Q1 ∪ Q2) ≤ size (list_to_set members : gset NodeId))%nat as Hle
      by (apply subseteq_size; intros v; rewrite elem_of_union, elem_of_list_to_set; naive_solver).
    assert (size (list_to_set members : gset NodeId) ≤ length members)%nat as Hm.
    { clear. induction members as [|m ms IH]; simpl; [done|].
      pose proof (size_union_alt {[m]} (list_to_set ms : gset NodeId)) as ->.
      rewrite size_singleton.
      assert (size ((list_to_set ms : gset NodeId) ∖ {[m]}) ≤ size (list_to_set ms : gset NodeId))%nat
        by (apply subseteq_size; set_solver). lia. }
    unfold quorum in *. pose proof (Nat.div_mod_eq (length members) 2).
    pose proof (Nat.mod_upper_bound (length members) 2). lia.
  - apply set_choose_L in Hne as [v Hv]. set_solver.
Qed.

(** Servers that know no peer are alone. *)
Definition peers_complete : Prop :=
  ∀ i j, i ∈ members → j ∈ members → peers i = [] → i = j.

Lemma certificate_unique soup i j t :
  peers_complete → soup_unique soup →
  certificate soup i t → certificate soup j t → i = j.
Proof.
  intros Hp [Hu1 Hu2] (Him & Hri & Q1 & Hq1 & HQ1) (Hjm & Hrj & Q2 & Hq2 & HQ2).
  destruct (quorum_intersect Q1 Q2) as (v & Hv1 & Hv2); [naive_solver|naive_solver|done|done|].
  destruct (HQ1 v Hv1) as [_ [E1|Hg1]], (HQ2 v Hv2) as [_ [E2|Hg2]]; [congruence| | |].
  - subst v. destruct Hri as [?|?]; [by apply Hp|]. symmetry. eauto.
  - subst v. destruct Hrj as [?|?]; [symmetry; by apply Hp|]. eauto.
  - eauto.
Qed.

Lemma v_nodes_dom net net' :
  rtc v_step net net' → dom (vn_nodes net') = dom (vn_nodes net).
Proof.
  induction 1 as [|net1 net2 net3 Hstep _ IH]; [done|]. rewrite IH.
  destruct Hstep as [net i v out v' Hi ??]. simpl. rewrite dom_insert_L.
  apply elem_of_dom_2 in Hi. set_solver.
Qed.

Lemma v_election_safety net0 net1 net2 i j t :
  peers_complete → v_initial net0 →
  (∀ k s, vn_nodes net0 !! k = Some s → k ∈ members) →
  rtc v_step net0 net1 → rtc v_step net1 net2 →
  v_leader net1 i t → v_leader net2 j t → i = j.
Proof.
  intros Hp Hinit Hdom H01 H12 Hi Hj.
  assert (Hd : ∀ net, rtc v_step net0 net → ∀ k s, vn_nodes net !! k = Some s → k ∈ members).
  { intros net Hr k s Hk. apply elem_of_dom_2 in Hk. rewrite (v_nodes_dom _ _ Hr) in Hk.
    apply elem_of_dom in Hk as [s' Hs']. by eapply Hdom. }
  assert (v_inv net1) as Hinv1 by by eapply v_inv_reachable.
  assert (rtc v_step net0 net2) as H02 by by etransitivity.
  assert (v_inv net2) as Hinv2 by by eapply v_inv_reachable.
  apply leader_certificate in Hi; [|done|by apply Hd].
  apply leader_certificate in Hj; [|done|by apply Hd].
  destruct (v_soup_mono _ _ H12) as [es Hes].
  eapply (certificate_unique (vn_soup net2)); [done|apply Hinv2| |done].
  rewrite Hes. by apply certificate_app.
Qed.
End voting.
