(* ===== verification/RaftElection.v ===== *)
(** * Leader election of the Raft nodes

    A cluster of the nodes of [RaftNode] over any storage that keeps the contract
    of [RaftLog], driven the way [crates/auradb-raft/src/sim.rs] and the peer
    driver drive it: an event runs one entry point of one node and its outbox is
    collected ([take_messages]) onto the network.  The network never forgets a
    message, so it may lose (never deliver), delay, reorder and duplicate; a node
    may crash between events and come back from its storage ([node_new]).

    Every event of a node is shown to be a sequence of actions of the protocol of
    [Voting]; election safety of the cluster follows from that refinement. *)

From S2P Require Import Prelude RaftLog RaftNode Voting.

Local Open Scope N_scope.

(** ** The cluster *)

Inductive Event :=
| EvTick
| EvCampaign
| EvDeliver (from : NodeId) (e : Envelope)
| EvPropose (c : Command)
| EvTakeCommitted
| EvAdoptSnapshot (last_included : LogIndex)
| EvSnapshotInstalled (peer : NodeId) (last_included : LogIndex)
| EvRestart.

Record Net (S : Type) := mkNet {
  net_nodes : gmap NodeId (RaftNode S);
  net_soup : list (NodeId * Envelope);
}.
Arguments mkNet {S}.
Arguments net_nodes {S} _.
Arguments net_soup {S} _.

Section cluster.
Context {S : Type} `{RaftStorage S}.

(** One entry point of the node.  An [Err] leaves the mutations made so far. *)
Definition run_event (ev : Event) (n : RaftNode S) : RaftNode S :=
  match ev with
  | EvTick => tick n
  | EvCampaign => campaign n
  | EvDeliver from e => (step from (env_message e) n).1
  | EvPropose c => (propose c n).1
  | EvTakeCommitted => (take_committed n).2
  | EvAdoptSnapshot lii => adopt_snapshot lii n
  | EvSnapshotInstalled peer lii => on_snapshot_installed peer lii n
  | EvRestart => node_new (config n) (storage n)
  end.

(** A delivery is possible when the message was sent to this node. *)
Definition enabled (soup : list (NodeId * Envelope)) (i : NodeId) (ev : Event) : Prop :=
  match ev with
  | EvDeliver from e => (from, e) ∈ soup ∧ env_to e = i
  | _ => True
  end.

#[export] Instance enabled_dec soup i ev : Decision (enabled soup i ev).
Proof. destruct ev; simpl; apply _. Defined.

(** [Sim::collect]: the outbox of node [i] goes onto the bus. *)
Definition collect (i : NodeId) (n : RaftNode S) (net : Net S) : Net S :=
  let r := take_messages n in
  mkNet (<[i := r.2]> (net_nodes net)) (net_soup net ++ ((λ e, (i, e)) <$> r.1)).

Inductive net_step : Net S → Net S → Prop :=
| ns_event net i n ev :
    net_nodes net !! i = Some n → enabled (net_soup net) i ev →
    net_step net (collect i (run_event ev n) net).

(** Run a schedule; [None] when an event names an unknown node or delivers a
    message that was never sent. *)
Fixpoint run_schedule (sched : list (NodeId * Event)) (net : Net S) : option (Net S) :=
  match sched with
  | [] => Some net
  | (i, ev) :: rest =>
      match net_nodes net !! i with
      | Some n => if decide (enabled (net_soup net) i ev)
                  then run_schedule rest (collect i (run_event ev n) net)
                  else None
      | None => None
      end
  end.

Lemma run_schedule_steps sched net net' :
  run_schedule sched net = Some net' → rtc net_step net net'.
Proof.
  revert net. induction sched as [|[i ev] sched IH]; intros net; simpl.
  - intros [= ->]. apply rtc_refl.
  - destruct (net_nodes net !! i) as [n|] eqn:Hn; [|done].
    case_decide as He; [|done]. intros Hr.
    eapply rtc_l; [by econstructor|]. by apply IH.
Qed.

Definition net_leader (net : Net S) (i : NodeId) (t : Term) : Prop :=
  ∃ n, net_nodes net !! i = Some n ∧ role n = Leader ∧ term n = t.
End cluster.

(** ** From nodes to voting states *)

Section refinement.
Context {S : Type} `{RaftStorageSpec S}.
Context (members : list NodeId) (peers : NodeId → list NodeId).
Implicit Types n : RaftNode S.

Definition vproj (n : RaftNode S) : VState :=
  mkV (term n) (voted_for (hard_state (storage n))) (role n) (votes n).

(** A node that belongs to the cluster. *)
Definition node_ok (i : NodeId) (n : RaftNode S) : Prop :=
  st_inv (storage n) ∧ cfg_id (config n) = i ∧ cfg_peers (config n) = peers i ∧
  i ∈ members ∧ length members = (length (peers i) + 1)%nat.

Lemma node_ok_majority i n : node_ok i n → majority (config n) = quorum members.
Proof. intros (_ & _ & Hp & _ & Hl). unfold majority, voters, quorum. by rewrite Hp, Hl. Qed.

(** Several actions of one server against a fixed soup. *)
Inductive v_run (soup : list (NodeId * Envelope)) (i : NodeId)
  : VState → list Envelope → VState → Prop :=
| vr_nil v : v_run soup i v [] v
| vr_cons v o1 v1 o2 v2 :
    v_action members peers soup i v o1 v1 → v_run soup i v1 o2 v2 →
    v_run soup i v (o1 ++ o2) v2.

Lemma v_run_one soup i v o v' :
  v_action members peers soup i v o v' → v_run soup i v o v'.
Proof. intros Ha. rewrite <- (app_nil_r o). eapply vr_cons; [done|constructor]. Qed.

Lemma v_run_trans soup i v o1 v1 o2 v2 :
  v_run soup i v o1 v1 → v_run soup i v1 o2 v2 → v_run soup i v (o1 ++ o2) v2.
Proof.
  induction 1 as [|v o1 v1 o2' v2' Ha _ IH]; intros Hr; [done|].
  rewrite <- app_assoc. eapply vr_cons; eauto.
Qed.

Lemma v_action_soup soup es i v o v' :
  v_action members peers soup i v o v' → v_action members peers (soup ++ es) i v o v'.
Proof. destruct 1; constructor; auto. set_solver. Qed.

Lemma v_run_steps soup i v o v' nodes :
  v_run soup i v o v' → i ∈ members → nodes !! i = Some v →
  rtc (v_step members peers) (mkVNet nodes soup)
    (mkVNet (<[i := v']> nodes) (soup ++ ((λ e, (i, e)) <$> o))).
Proof.
  intros Hr Him. revert nodes.
  cut (∀ es nodes, nodes !! i = Some v →
    rtc (v_step members peers) (mkVNet nodes (soup ++ es))
      (mkVNet (<[i := v']> nodes) ((soup ++ es) ++ ((λ e, (i, e)) <$> o)))).
  { intros Hc nodes Hn. specialize (Hc [] nodes Hn). by rewrite app_nil_r in Hc. }
  induction Hr as [v|v o1 v1 o2 v2 Ha _ IH]; intros es nodes Hn.
  - simpl. rewrite app_nil_r, insert_id by done. apply rtc_refl.
  - eapply rtc_l.
    { eapply vs_action; [exact Hn|done|]. by apply v_action_soup. }
    simpl. rewrite fmap_app, app_assoc.
    specialize (IH (es ++ ((λ e, (i, e)) <$> o1)) (<[i := v1]> nodes)).
    rewrite lookup_insert_eq, insert_insert_eq, !app_assoc in IH. by apply IH.
Qed.

(** [n'] comes from [n] by protocol actions that send what was added to the
    outbox. *)
Definition evolves (soup : list (NodeId * Envelope)) (i : NodeId) (n n' : RaftNode S) : Prop :=
  node_ok i n → node_ok i n' ∧
  ∃ out, outbox n' = outbox n ++ out ∧ v_run soup i (vproj n) out (vproj n').

#[export] Instance evolves_refl soup i : Reflexive (evolves soup i).
Proof. intros n Hok. split; [done|]. exists []. rewrite app_nil_r. split; [done|constructor]. Qed.

#[export] Instance evolves_trans soup i : Transitive (evolves soup i).
Proof.
  intros n1 n2 n3 H12 H23 Hok. destruct (H12 Hok) as (Hok2 & o1 & E1 & R1).
  destruct (H23 Hok2) as (Hok3 & o2 & E2 & R2). split; [done|]. exists (o1 ++ o2).
  split; [by rewrite E2, E1, app_assoc|]. by eapply v_run_trans.
Qed.

(** Steps that do not touch the vote and send no vote message. *)
Definition quiet (n n' : RaftNode S) : Prop :=
  st_inv (storage n) →
  st_inv (storage n') ∧ config n' = config n ∧ vproj n' = vproj n ∧
  ∃ out, outbox n' = outbox n ++ out ∧ Forall harmless out.

#[export] Instance quiet_refl : Reflexive quiet.
Proof. intros n Hi. split_and!; try done. exists []. by rewrite app_nil_r. Qed.

#[export] Instance quiet_trans : Transitive quiet.
Proof.
  intros n1 n2 n3 H12 H23 Hi. destruct (H12 Hi) as (I2 & C2 & V2 & o2 & O2 & F2).
  destruct (H23 I2) as (I3 & C3 & V3 & o3 & O3 & F3).
  split_and!; [done|congruence|congruence|]. exists (o2 ++ o3).
  split; [by rewrite O3, O2, app_assoc|]. by apply Forall_app.
Qed.

Lemma quiet_evolves soup i n n' : quiet n n' → evolves soup i n n'.
Proof.
  intros Hq (Hi & Hid & Hp & Hm). destruct (Hq Hi) as (Hi' & Hc & Hv & out & Ho & Hf).
  split; [by unfold node_ok; rewrite Hc|]. exists out. split; [done|]. rewrite Hv.
  by apply v_run_one, va_other.
Qed.
End refinement.

(** ** Quiet operations *)

Ltac quiet_done :=
  let Hi := fresh in
  intros Hi; split_and!; [exact Hi|done|done|exists []; by rewrite app_nil_r].

Section quiet_ops.
Context {S : Type} `{RaftStorageSpec S}.
Implicit Types n : RaftNode S.

Lemma quiet_send n to m : harmless (mkEnvelope to m) → quiet n (send to m n).
Proof.
  intros Hm Hi. split_and!; try done. eexists. split; [done|]. by constructor.
Qed.

(** Storage operations that leave the term and the vote alone. *)
Lemma quiet_storage n s' :
  (st_inv (storage n) → st_inv s' ∧
     current_term (hard_state s') = current_term (hard_state (storage n)) ∧
     voted_for (hard_state s') = voted_for (hard_state (storage n))) →
  quiet n (set_storage s' n).
Proof.
  intros Hs Hi. destruct (Hs Hi) as (Hi' & Ht & Hv). split_and!; try done.
  - unfold vproj, term. simpl. by rewrite Ht, Hv.
  - exists []. by rewrite app_nil_r.
Qed.

Lemma quiet_append es n : quiet n (on_storage (append es) n).1.
Proof.
  apply quiet_storage. intros Hi.
  destruct (validate_suffix es (lv_last (st_view (storage n)))
              (lv_last_term (st_view (storage n)))) as [[]|e] eqn:E.
  - destruct (append_ok _ _ Hi E) as (s' & -> & Hi' & _ & Hh). simpl. by rewrite Hh.
  - by rewrite (append_err _ _ _ Hi E).
Qed.

Lemma quiet_truncate i n : quiet n (on_storage (truncate_from i) n).1.
Proof.
  apply quiet_storage. intros Hi.
  destruct (decide (i = 0 ∨ lv_base (st_view (storage n)) < i)) as [Hc|Hc].
  - destruct (truncate_ok _ _ Hi Hc) as (s' & -> & Hi' & _ & Hh). simpl. by rewrite Hh.
  - rewrite (truncate_compacted (storage n) i) by (done || lia). done.
Qed.

Lemma quiet_save hs n :
  current_term hs = term n → voted_for hs = voted_for (hard_state (storage n)) →
  quiet n (on_storage (save_hard_state hs) n).1.
Proof.
  intros Ht Hv. apply quiet_storage. intros Hi.
  destruct (save_hard_state_ok (storage n) hs Hi) as (s' & -> & Hi' & _ & Hh).
  simpl. by rewrite Hh.
Qed.

Lemma quiet_persist n : quiet n (persist_commit_index n).1.
Proof. unfold persist_commit_index. case_if; [|done]. by apply quiet_save. Qed.

Lemma quiet_persist_commit i n : quiet n (persist_commit_index (set_commit_index i n)).1.
Proof. transitivity (set_commit_index i n); [quiet_done|apply quiet_persist]. Qed.

Lemma quiet_send_append peer n : quiet n (send_append_to peer n).
Proof. unfold send_append_to. etransitivity; [|by apply quiet_send]. quiet_done. Qed.

Lemma quiet_broadcast n : quiet n (broadcast_append n).
Proof. apply (foldl_rel quiet). intros. apply quiet_send_append. Qed.

Lemma quiet_advance n : quiet n (maybe_advance_commit n).1.
Proof. unfold maybe_advance_commit. case_if; [apply quiet_persist_commit|done]. Qed.

Lemma quiet_init_peers last n : quiet n (init_peers last n).
Proof.
  unfold init_peers. etransitivity; [|apply (foldl_rel quiet); intros; quiet_done].
  quiet_done.
Qed.

(** [append], the leader's own match index, the commit rule and a broadcast: the
    common tail of [propose] and [become_leader]. *)
Lemma quiet_replicate {A} es i (k : SE (RaftNode S) RaftError A) n :
  (∀ n, quiet n (k n).1) →
  quiet n ((on_storage (append es) >>>
    se_modify (λ n, set_match_index (<[cfg_id (config n) := i]> (match_index n)) n) >>>
    maybe_advance_commit >>>
    se_modify broadcast_append >>> k) n).1.
Proof.
  intros Hk. repeat (apply (se_bind_rel quiet); [ |intros _ ? _]); auto using quiet_append,
    quiet_advance.
  - quiet_done.
  - apply quiet_broadcast.
Qed.

Lemma quiet_append_loop es mi n : quiet n (append_loop es mi n).1.
Proof.
  revert mi n. induction es as [|e es IH]; intros mi n; simpl; [done|].
  apply (se_bind_rel quiet); [ |intros; apply IH].
  destruct (term_at _ _) as [t|]; [|apply quiet_append].
  case_if; [done|]. apply (se_bind_rel quiet); [apply quiet_truncate|].
  intros. apply quiet_append.
Qed.

Lemma quiet_handle_append_resp from t success mi n :
  quiet n (handle_append_resp from t success mi n).1.
Proof.
  unfold handle_append_resp. case_if; [done|]. destruct success.
  - etransitivity; [|apply quiet_advance]. quiet_done.
  - etransitivity; [|apply quiet_send_append]. quiet_done.
Qed.

Lemma quiet_propose c n : quiet n (propose c n).1.
Proof. unfold propose. case_if; [done|]. by apply quiet_replicate. Qed.

Lemma quiet_adopt_snapshot lii n : quiet n (adopt_snapshot lii n).
Proof. unfold adopt_snapshot. repeat case_if; quiet_done. Qed.

Lemma quiet_snapshot_installed peer lii n : quiet n (on_snapshot_installed peer lii n).
Proof.
  unfold on_snapshot_installed. case_if; [done|].
  etransitivity; [|apply quiet_send_append]. repeat case_if; quiet_done.
Qed.

Lemma quiet_set_match_index m n : quiet n (set_match_index m n).
Proof. quiet_done. Qed.

Lemma quiet_reset n : quiet n (reset_election_timeout n).
Proof. quiet_done. Qed.
End quiet_ops.

(** ** Every event is a run of the protocol *)

Section events.
Context {S : Type} `{RaftStorageSpec S}.
Context (members : list NodeId) (peers : NodeId → list NodeId).
Implicit Types n : RaftNode S.

Local Abbreviation evolves := (evolves (S := S) members peers).

(** One protocol action that sends [out]. *)
Lemma evolves_action soup i n n' out :
  (node_ok members peers i n →
     st_inv (storage n') ∧ config n' = config n ∧ outbox n' = outbox n ++ out ∧
     v_action members peers soup i (vproj n) out (vproj n')) →
  evolves soup i n n'.
Proof.
  intros Ha Hok. destruct (Ha Hok) as (Hi & Hc & Ho & Hv).
  split; [|exists out; split; [done|by apply v_run_one]].
  destruct Hok as (_ & Hid & Hp). unfold node_ok. by rewrite Hc.
Qed.

Lemma evolves_become_follower soup i t l n : evolves soup i n (become_follower t l n).1.
Proof.
  unfold become_follower, se_bind, se_modify. case_if; bool_to_prop.
  - apply (evolves_action _ _ _ _ []). intros (Hi & Hid & Hp).
    destruct (save_hard_state_ok (storage n)
      (mkHard t None (hs_commit_index (hard_state (storage n)))) Hi)
      as (s' & Hs & Hi' & _ & Hh).
    unfold on_storage. rewrite Hs. simpl.
    assert (Hv : v_action members peers soup i (vproj n) [] (mkV t None Follower ∅))
      by by apply va_adopt.
    destruct l; simpl; rewrite app_nil_r; unfold vproj, term; simpl; by rewrite Hh.
  - apply (evolves_action _ _ _ _ []). intros (Hi & Hid & Hp). simpl.
    pose proof (va_demote members peers soup i (vproj n)) as Hv.
    by destruct l; simpl; rewrite app_nil_r.
Qed.

Lemma evolves_become_leader soup i n :
  role n = Candidate → (majority (config n) ≤ yes_votes n)%nat →
  evolves soup i n (become_leader n).1.
Proof.
  intros Hr Hm. transitivity (set_role Leader n).
  - apply (evolves_action _ _ _ _ []). intros Hok. simpl. rewrite app_nil_r.
    pose proof Hok as (Hi & _). split_and!; try done.
    pose proof (va_elect members peers soup i (vproj n) Hr) as Hv. apply Hv.
    unfold v_yes. rewrite size_dom.
    by rewrite <- (node_ok_majority _ _ i n Hok).
  - apply quiet_evolves. unfold become_leader. cbv zeta.
    etransitivity; [|by apply (quiet_replicate _ _ (se_ret tt))].
    etransitivity; [|apply quiet_set_match_index].
    etransitivity; [|apply quiet_init_peers]. quiet_done.
Qed.

Lemma request_votes_effect t li lt n :
  outbox (request_votes t li lt n) =
    outbox n ++ ((λ p, mkEnvelope p (RequestVote t li lt)) <$> cfg_peers (config n)) ∧
  vproj (request_votes t li lt n) = vproj n ∧
  storage (request_votes t li lt n) = storage n ∧
  config (request_votes t li lt n) = config n.
Proof.
  unfold request_votes. generalize (cfg_peers (config n)) as ps. intros ps. revert n.
  induction ps as [|p ps IH]; intros n; simpl; [by rewrite app_nil_r|].
  destruct (IH (send p (RequestVote t li lt) n)) as (-> & -> & -> & ->).
  simpl. by rewrite <- app_assoc.
Qed.

(** The first half of [campaign], up to the single-node test. *)
Definition candidate (n : RaftNode S) (s' : S) : RaftNode S :=
  reset_election_timeout
    (set_votes {[cfg_id (config n) := true]}
      (set_leader_id None (set_role Candidate (set_storage s' n)))).

Lemma evolves_campaign soup i n : evolves soup i n (campaign n).
Proof.
  intros Hok. revert Hok. unfold campaign. cbv zeta.
  match goal with |- context [save_hard_state ?h] => set (hs := h) end.
  intros Hok. pose proof Hok as (Hi & Hid & Hp & Hm & Hl).
  destruct (save_hard_state_ok (storage n) hs Hi) as (s' & Hs & Hi' & _ & Hh).
  unfold on_storage. rewrite Hs. cbn [fst snd].
  change (reset_election_timeout _) with (candidate n s').
  set (c := candidate n s'). change (config (set_storage s' n)) with (config n).
  assert (Hterm : term c = term n + 1) by (unfold term; simpl; by rewrite Hh).
  assert (Hvc : vproj c = mkV (term n + 1) (Some i) Candidate {[i := true]}).
  { unfold vproj. rewrite Hterm. simpl. by rewrite Hh, <- Hid. }
  revert Hok. change (config c) with (config n). case_if; bool_to_prop.
  - assert (Hnil : peers i = []).
    { unfold majority, voters in *. rewrite Hp in *. destruct (peers i) as [|p ps]; [done|].
      exfalso. assert (1 ≤ (length (p :: ps) + 1) / 2)%nat
        by (apply Nat.div_le_lower_bound; simpl; lia). lia. }
    change (evolves soup i n (become_leader c).1). transitivity c.
    + apply (evolves_action _ _ _ _ []). intros _. rewrite Hvc. simpl. rewrite app_nil_r.
      split_and!; try done.
      pose proof (va_campaign members peers soup i (vproj n) 0 0) as Hv.
      by rewrite Hnil in Hv.
    + apply evolves_become_leader; [done|]. unfold yes_votes. simpl.
      rewrite map_filter_singleton_True, map_size_singleton by done. done.
  - change (evolves soup i n (request_votes (term c) (last_index (storage c))
              (last_term (storage c)) c)).
    destruct (request_votes_effect (term c) (last_index (storage c))
                (last_term (storage c)) c) as (Eo & Ev & Es & Ec).
    eapply evolves_action. intros _. rewrite Es, Ec, Eo, Ev, Hvc.
    split_and!; [done|done|done|]. simpl. rewrite Hp, Hterm.
    apply (va_campaign members peers soup i (vproj n)).
Qed.

Lemma evolves_handle_request_vote soup i from t li lt n :
  t <= term n → evolves soup i n (handle_request_vote from t li lt n).1.
Proof.
  intros Ht. unfold handle_request_vote. cbv zeta.
  assert (Hno : evolves soup i n (send from (RequestVoteResp (term n) false) n))
    by by apply quiet_evolves, quiet_send.
  case_if; [done|]. case_if; [|done]. bool_to_prop.
  match goal with |- context [save_hard_state ?h] => set (hs := h) end.
  apply (evolves_action _ _ _ _ [mkEnvelope from (RequestVoteResp (term n) true)]).
  intros (Hi & Hid & Hp).
  destruct (save_hard_state_ok (storage n) hs Hi) as (s' & Hs & Hi' & _ & Hh).
  unfold se_bind, se_modify, se_ret, on_storage. rewrite Hs. simpl.
  unfold vproj, term. simpl. rewrite Hh. simpl. split_and!; [done|done|done|].
  apply (va_grant members peers soup i (vproj n)). simpl.
  apply orb_true_iff in H1 as [?|?]; bool_to_prop; auto.
Qed.

Lemma evolves_handle_vote_resp soup i from t g n :
  (from, mkEnvelope i (RequestVoteResp t g)) ∈ soup → from ∈ members →
  evolves soup i n (handle_vote_resp from t g n).1.
Proof.
  intros Hin Hfrom. unfold handle_vote_resp. destruct (_ || _)%bool eqn:E; [done|].
  bool_to_prop. subst t. cbv zeta.
  transitivity (set_votes (<[from := g]> (votes n)) n).
  - apply (evolves_action _ _ _ _ []). intros (Hi & _). simpl. rewrite app_nil_r.
    split_and!; try done.
    pose proof (va_tally members peers soup i (vproj n) from g H1 Hfrom Hin) as Hv.
    unfold vproj in *. simpl in *. by rewrite H1 in Hv |- *.
  - case_if; [|done]. bool_to_prop. by apply evolves_become_leader.
Qed.

Lemma evolves_handle_append_entries soup i from t pli plt es lc n :
  evolves soup i n (handle_append_entries from t pli plt es lc n).1.
Proof.
  unfold handle_append_entries. cbv zeta.
  transitivity (set_metrics (bump_received (metrics n)) n); [apply quiet_evolves; quiet_done|].
  case_if; [by apply quiet_evolves, quiet_send|].
  apply (se_bind_rel (evolves soup i)); [apply evolves_become_follower|intros _ n1 _].
  apply quiet_evolves, (se_bind_rel quiet); [quiet_done|intros _ n2 _].
  case_if; [by apply quiet_send|].
  apply (se_bind_rel quiet); [apply quiet_append_loop|intros mi n3 _].
  apply (se_bind_rel quiet); [case_if; [apply quiet_persist_commit|done]|intros _ n4 _].
  by apply quiet_send.
Qed.

Lemma become_follower_term t l n :
  st_inv (storage n) → term n < t → term (become_follower t l n).1 = t.
Proof.
  intros Hi Ht. unfold become_follower, se_bind, se_modify.
  change (current_term (hard_state (storage n))) with (term n).
  apply N.ltb_lt in Ht as ->. unfold on_storage.
  destruct (save_hard_state_ok (storage n)
    (mkHard t None (hs_commit_index (hard_state (storage n)))) Hi) as (s' & -> & _ & _ & Hh).
  simpl. destruct l; unfold term; simpl; by rewrite Hh.
Qed.

Lemma evolves_step soup i from m n :
  (from, mkEnvelope i m) ∈ soup → from ∈ members → evolves soup i n (step from m n).1.
Proof.
  intros Hin Hfrom Hok. revert Hok. unfold step.
  set (adopt := λ n : RaftNode S, if term n <? message_term m then _ else _).
  intros Hok. pose proof Hok as (Hi & _). revert Hok.
  change (evolves soup i n ((adopt >>> dispatch from m) n).1).
  apply (se_bind_rel (evolves soup i)).
  { unfold adopt. case_if; [apply evolves_become_follower|done]. }
  intros [] n1 E1. assert (Hle : message_term m <= term n1).
  { unfold adopt in E1. destruct (_ <? _) eqn:E; bool_to_prop; [|by simplify_eq].
    pose proof (become_follower_term _ None n Hi E) as Ht. rewrite E1 in Ht.
    simpl in Ht. lia. }
  destruct m as [t li lt|t g|t pli plt es lc|t s mi]; simpl in *.
  - by apply evolves_handle_request_vote.
  - by apply evolves_handle_vote_resp.
  - apply evolves_handle_append_entries.
  - apply quiet_evolves, quiet_handle_append_resp.
Qed.

Lemma evolves_tick soup i n : evolves soup i n (tick n).
Proof.
  unfold tick. destruct (role n); cbv zeta; case_if.
  all: try (apply quiet_evolves; quiet_done).
  1, 2: etransitivity; [|apply evolves_campaign]; apply quiet_evolves; quiet_done.
  apply quiet_evolves. etransitivity; [|apply quiet_broadcast]. quiet_done.
Qed.

Lemma evolves_restart soup i n :
  outbox n = [] → evolves soup i n (node_new (config n) (storage n)).
Proof.
  intros Ho. apply (evolves_action _ _ _ _ []). intros (Hi & _). rewrite Ho.
  split_and!; try done. apply (va_demote members peers soup i (vproj n)).
Qed.

Lemma evolves_run_event soup i ev n :
  outbox n = [] → enabled soup i ev → (∀ f e, (f, e) ∈ soup → f ∈ members) →
  evolves soup i n (run_event ev n).
Proof.
  intros Ho Hen Hs. destruct ev as [| |from [to m]| | | | |]; simpl in *.
  - apply evolves_tick.
  - apply evolves_campaign.
  - destruct Hen as [Hin ->]. eapply evolves_step; eauto.
  - apply quiet_evolves, quiet_propose.
  - apply quiet_evolves. quiet_done.
  - apply quiet_evolves, quiet_adopt_snapshot.
  - apply quiet_evolves, quiet_snapshot_installed.
  - by apply evolves_restart.
Qed.
End events.

(** ** Refinement of the cluster *)

Section refine.
Context {S : Type} `{RaftStorageSpec S}.
Context (members : list NodeId) (peers : NodeId → list NodeId).
Implicit Types net : Net S.

Definition vnet (net : Net S) : VNet := mkVNet (vproj <$> net_nodes net) (net_soup net).

Definition cluster_inv (net : Net S) : Prop :=
  (∀ i n, net_nodes net !! i = Some n → node_ok members peers i n ∧ outbox n = []) ∧
  (∀ f e, (f, e) ∈ net_soup net → f ∈ members).

(** A cluster that starts: nodes just recovered from their storage. *)
Definition cluster_initial (net : Net S) : Prop :=
  cluster_inv net ∧ net_soup net = [] ∧
  (∀ i n, net_nodes net !! i = Some n → role n = Follower) ∧
  (∀ i, i ∈ members → length members = (length (peers i) + 1)%nat).

Lemma net_step_refines net net' :
  cluster_inv net → net_step net net' →
  cluster_inv net' ∧ rtc (v_step members peers) (vnet net) (vnet net').
Proof.
  intros [Hnodes Hsoup] Hstep. destruct Hstep as [net i n ev Hn Hen].
  destruct (Hnodes i n Hn) as [Hok Ho].
  destruct (evolves_run_event members peers _ i ev n Ho Hen Hsoup Hok)
    as (Hok' & out & Hout & Hrun).
  rewrite Ho in Hout. simpl in Hout. split.
  - split; simpl.
    + intros j m. destruct (decide (i = j)) as [<-|Hne].
      * rewrite lookup_insert_eq. intros [= <-]. done.
      * rewrite lookup_insert_ne by done. apply Hnodes.
    + intros f e [Hin|(e' & [= -> _] & _)%list_elem_of_fmap]%elem_of_app; [eauto|].
      by destruct Hok as (_ & _ & _ & ? & _).
  - unfold vnet, collect. simpl. rewrite fmap_insert, Hout.
    eapply v_run_steps; [done| |].
    + by destruct Hok as (_ & _ & _ & ? & _).
    + by rewrite lookup_fmap, Hn.
Qed.

Lemma net_steps_refine net net' :
  cluster_inv net → rtc net_step net net' →
  cluster_inv net' ∧ rtc (v_step members peers) (vnet net) (vnet net').
Proof.
  intros Hinv Hr. induction Hr as [net|net1 net2 net3 Hs _ IH]; [by split; [|apply rtc_refl]|].
  destruct (net_step_refines _ _ Hinv Hs) as [Hinv2 H12].
  destruct (IH Hinv2) as [Hinv3 H23]. split; [done|]. by etransitivity.
Qed.

Lemma net_leader_vproj net i t : net_leader net i t → v_leader (vnet net) i t.
Proof.
  intros (n & Hn & Hr & Ht). exists (vproj n). simpl. by rewrite lookup_fmap, Hn.
Qed.

Lemma lone_member a b :
  (∀ i, i ∈ members → length members = (length (peers i) + 1)%nat) →
  a ∈ members → b ∈ members → peers a = [] → a = b.
Proof.
  intros Hl Ha Hb Hnil. specialize (Hl a Ha). rewrite Hnil in Hl.
  destruct members as [|x [|y l]]; simpl in *; try lia. set_solver.
Qed.

(** C1: election safety.  Over the whole life of a cluster (any interleaving of
    ticks, campaigns, deliveries, proposals, snapshot installs and restarts, with
    messages lost, delayed, reordered and duplicated), two nodes that are ever
    leader in the same term, at the same moment or at different ones, are the
    same node. *)
Theorem election_safety net0 net1 net2 i j t :
  cluster_initial net0 → rtc net_step net0 net1 → rtc net_step net1 net2 →
  net_leader net1 i t → net_leader net2 j t → i = j.
Proof.
  intros (Hinv & Hsoup & Hfol & Hlen) H01 H12 Hi Hj.
  destruct (net_steps_refine _ _ Hinv H01) as [Hinv1 R01].
  destruct (net_steps_refine _ _ Hinv1 H12) as [_ R12].
  assert (Hdom : ∀ k s, vn_nodes (vnet net0) !! k = Some s →
    k ∈ members ∧ v_role s = Follower).
  { intros k s. simpl. rewrite lookup_fmap, fmap_Some. intros (n & Hn & ->).
    destruct (proj1 Hinv k n Hn) as [(_ & _ & _ & Hm & _) _]. simpl. eauto. }
  apply (v_election_safety members peers (vnet net0) (vnet net1) (vnet net2) i j t);
    auto using net_leader_vproj.
  - intros a b. by apply lone_member.
  - split; [done|]. intros k s Hk. by apply Hdom in Hk as [_ ?].
  - intros k s Hk. by apply Hdom in Hk as [? _].
Qed.
End refine.

(** ** A concrete election *)

Definition cfg3 (i : NodeId) (ps : list NodeId) : RaftConfig := mkConfig i ps 10 20 3.

Definition peers3 (i : NodeId) : list NodeId := filter (λ j, j ≠ i) [1; 2; 3].

(** Three fresh nodes over in-memory storage. *)
Definition net3 : Net MemStorage :=
  mkNet (list_to_map ((λ i, (i, node_new (cfg3 i (peers3 i)) mem_new)) <$> [1; 2; 3])) [].

(** Node 1 campaigns, node 2 grants its vote, node 1 wins. *)
Definition election3 : list (NodeId * Event) :=
  [(1, EvCampaign);
   (2, EvDeliver 1 (mkEnvelope 2 (RequestVote 1 0 0)));
   (1, EvDeliver 2 (mkEnvelope 1 (RequestVoteResp 1 true)))].

Definition net_default : Net MemStorage := mkNet ∅ [].

Definition net3_elected : Net MemStorage := default net_default (run_schedule election3 net3).

Lemma net3_initial : cluster_initial [1; 2; 3] peers3 net3.
Proof.
  split_and!; try done.
  - split; [|set_solver]. intros i n Hn.
    apply elem_of_list_to_map_2, list_elem_of_fmap in Hn as (j & [= <- ->] & Hj).
    split; [|done]. split_and!; try done. set_unfold in Hj. naive_solver.
  - intros i n Hn. by apply elem_of_list_to_map_2, list_elem_of_fmap in Hn as (j & [= <- ->] & Hj).
  - intros i Hi. set_unfold in Hi. naive_solver.
Qed.

Lemma net3_elected_steps : rtc net_step net3 net3_elected.
Proof. apply (run_schedule_steps election3). by vm_compute. Qed.

Lemma net3_elected_leader : net_leader net3_elected 1 1.
Proof. eexists. split; [by vm_compute|]. by vm_compute. Qed.

Lemma election_safety_witness :
  net_leader net3_elected 1 1 ∧ ∀ j, net_leader net3_elected j 1 → 1 = j.
Proof.
  split; [exact net3_elected_leader|]. intros j Hj.
  apply (election_safety [1; 2; 3] peers3 net3 net3_elected net3_elected 1 j 1).
  - exact net3_initial.
  - exact net3_elected_steps.
  - apply rtc_refl.
  - exact net3_elected_leader.
  - exact Hj.
Defined.
