(* ===== verification/Consensus.v ===== *)
(** * Log replication behind the Raft node

    An abstract specification of what the log handling of the Raft node has to guarantee:
    the protocol of [Voting], in which every server also has a log and a commit index, vote
    requests carry the end of the candidate's log, and a leader appends to its log, sends
    parts of it, and commits what a quorum acknowledged.  Messages are never forgotten, so
    they may be lost, delayed, reordered and delivered many times.

    The invariant speaks of the terms that had a leader: [Epoch] keeps for each of them the
    leader, its log when it was elected and its log at the end.  From it follow log
    matching, leader completeness and the agreement of committed logs.  [RaftSafety] shows
    that the nodes of [RaftNode] refine this protocol. *)

From S2P Require Import Prelude RaftLog RaftNode Voting.

Local Open Scope N_scope.

(** ** Logs *)

Abbreviation Log := (list LogEntry) (only parsing).

Definition log_term (L : Log) : Term := match last L with Some e => e_term e | None => 0 end.

(** The term at an index; index 0 is before the log. *)
Definition term_before (L : Log) (k : nat) : option Term :=
  match k with O => Some 0 | S k => e_term <$> L !! k end.

(** What the append loop makes of the part of a log behind the matching entry: entries of
    the same term are kept, the first conflict cuts the rest off. *)
Fixpoint merge (L es : Log) : Log :=
  match L, es with
  | l :: L', e :: es' => if e_term l =? e_term e then l :: merge L' es' else es
  | [], es => es
  | L, [] => L
  end.

Definition merge_at (L : Log) (k : nat) (es : Log) : Log := take k L ++ merge (drop k L) es.

(** The order of the election restriction. *)
Definition up_to_date (C V : Log) : Prop :=
  log_up_to_date (log_term C) (N.of_nat (length C)) (log_term V) (N.of_nat (length V)) = true.

Definition terms_below (t : Term) (L : Log) : Prop := Forall (λ e, e_term e < t) L.
Definition terms_upto (t : Term) (L : Log) : Prop := Forall (λ e, e_term e <= t) L.

(** ** The protocol *)

Record RState := mkR {
  r_v : VState;
  r_log : Log;
  r_commit : nat;
  r_saved : nat;
}.

Definition r_term (r : RState) : Term := v_term (r_v r).
Definition r_role (r : RState) : NodeRole := v_role (r_v r).
Definition with_v (v : VState) (r : RState) : RState := mkR v (r_log r) (r_commit r) (r_saved r).

Record RNet := mkRNet {
  rn_nodes : gmap NodeId RState;
  rn_soup : list (NodeId * Envelope);
}.

Section protocol.
Context (members : list NodeId) (peers : NodeId → list NodeId).
Implicit Types (soup : list (NodeId * Envelope)) (i : NodeId) (r : RState).

(** Refusals carry nothing. *)
Definition inert (e : Envelope) : Prop :=
  match env_message e with
  | RequestVoteResp _ granted => granted = false
  | AppendEntriesResp _ success _ => success = false
  | _ => False
  end.

(** [s] confirmed to [c] that its log has the leader's first [k] entries. *)
Definition confirmed soup (s c : NodeId) (t : Term) (k : nat) : Prop :=
  ∃ mi, (s, mkEnvelope c (AppendEntriesResp t true mi)) ∈ soup ∧ (k ≤ N.to_nat mi)%nat.

(** The evidence for a commit of the leader [i]. *)
Definition commit_evidence soup i (t : Term) (k : nat) : Prop :=
  ∃ Q : gset NodeId, (quorum members ≤ size Q)%nat ∧
    ∀ s, s ∈ Q → s ∈ members ∧ (s = i ∨ confirmed soup s i t k).

Inductive r_action soup i : RState → list Envelope → RState → Prop :=
| ra_other r out : Forall inert out → r_action soup i r out r
| ra_adopt r t : r_term r < t →
    r_action soup i r [] (with_v (mkV t None Follower ∅) r)
| ra_demote r :
    r_action soup i r [] (with_v (mkV (r_term r) (v_vote (r_v r)) Follower ∅) r)
| ra_restart r :
    r_action soup i r []
      (mkR (mkV (r_term r) (v_vote (r_v r)) Follower ∅) (r_log r) (r_saved r) (r_saved r))
| ra_grant r c li lt :
    v_vote (r_v r) = None ∨ v_vote (r_v r) = Some c →
    (c, mkEnvelope i (RequestVote (r_term r) li lt)) ∈ soup →
    log_up_to_date lt li (log_term (r_log r)) (N.of_nat (length (r_log r))) = true →
    r_action soup i r [mkEnvelope c (RequestVoteResp (r_term r) true)]
      (with_v (mkV (r_term r) (Some c) (r_role r) (v_votes (r_v r))) r)
| ra_tally r f g : r_role r = Candidate → f ∈ members →
    (f, mkEnvelope i (RequestVoteResp (r_term r) g)) ∈ soup →
    r_action soup i r []
      (with_v (mkV (r_term r) (v_vote (r_v r)) Candidate (<[f := g]> (v_votes (r_v r)))) r)
| ra_elect r : r_role r = Candidate → (quorum members ≤ size (v_yes (r_v r)))%nat →
    r_action soup i r [] (with_v (mkV (r_term r) (v_vote (r_v r)) Leader (v_votes (r_v r))) r)
| ra_campaign r :
    r_action soup i r
      ((λ p, mkEnvelope p (RequestVote (r_term r + 1) (N.of_nat (length (r_log r)))
                             (log_term (r_log r)))) <$> peers i)
      (with_v (mkV (r_term r + 1) (Some i) Candidate {[i := true]}) r)
| ra_own r c : r_role r = Leader →
    r_action soup i r []
      (mkR (r_v r) (r_log r ++ [mkEntry (r_term r) (N.of_nat (length (r_log r)) + 1) c])
         (r_commit r) (r_saved r))
| ra_commit r k : r_role r = Leader → term_before (r_log r) k = Some (r_term r) → (0 < k)%nat →
    commit_evidence soup i (r_term r) k →
    r_action soup i r [] (mkR (r_v r) (r_log r) k (r_saved r))
| ra_save r :
    r_action soup i r [] (mkR (r_v r) (r_log r) (r_commit r) (r_commit r))
| ra_send r p k plt : r_role r = Leader → (k ≤ length (r_log r))%nat →
    term_before (r_log r) k = Some plt →
    r_action soup i r
      [mkEnvelope p (AppendEntries (r_term r) (N.of_nat k) plt (drop k (r_log r))
                       (N.of_nat (r_commit r)))] r
| ra_accept r from k plt es lc commit' : r_role r = Follower →
    (from, mkEnvelope i (AppendEntries (r_term r) (N.of_nat k) plt es lc)) ∈ soup →
    term_before (r_log r) k = Some plt →
    (let log' := merge_at (r_log r) k es in
     commit' = if (r_commit r <? N.to_nat lc)%nat
               then Nat.min (N.to_nat lc) (length log') else r_commit r) →
    r_action soup i r
      [mkEnvelope from (AppendEntriesResp (r_term r) true (N.of_nat (k + length es)))]
      (mkR (r_v r) (merge_at (r_log r) k es) commit' (r_saved r)).

Inductive r_step : RNet → RNet → Prop :=
| rs_action net i r out r' :
    rn_nodes net !! i = Some r → i ∈ members →
    r_action (rn_soup net) i r out r' →
    r_step net (mkRNet (<[i := r']> (rn_nodes net))
                       (rn_soup net ++ ((λ e, (i, e)) <$> out))).

(** Every action is an action of the voting protocol. *)
Definition vnet_of (net : RNet) : VNet := mkVNet (r_v <$> rn_nodes net) (rn_soup net).

Lemma inert_harmless out : Forall inert out → Forall harmless out.
Proof. intros Hf. apply (Forall_impl _ _ _ Hf). by intros [? []]; unfold inert, harmless. Qed.

Lemma r_action_votes soup i r out r' :
  r_action soup i r out r' → v_action members peers soup i (r_v r) out (r_v r').
Proof.
  destruct 1; simpl; destruct (r_v _) eqn:Ev; unfold r_term, r_role in *; simpl in *;
    rewrite ?Ev in *; simpl in *; subst.
  all: try (apply va_other; (by apply inert_harmless) || (by repeat constructor)).
  - by apply (va_adopt members peers soup i (mkV _ _ _ _)).
  - apply (va_demote members peers soup i (mkV _ _ _ _)).
  - apply (va_demote members peers soup i (mkV _ _ _ _)).
  - by apply (va_grant members peers soup i (mkV _ _ _ _)).
  - by apply (va_tally members peers soup i (mkV _ _ Candidate _)).
  - by apply (va_elect members peers soup i (mkV _ _ Candidate _)).
  - apply (va_campaign members peers soup i (mkV _ _ _ _)).
Qed.

Lemma r_step_votes net net' :
  r_step net net' → v_step members peers (vnet_of net) (vnet_of net').
Proof.
  destruct 1 as [net i r out r' Hi Him Hact]. unfold vnet_of. simpl. rewrite fmap_insert.
  eapply (vs_action members peers (vnet_of net)); [|done|by apply r_action_votes].
  simpl. by rewrite lookup_fmap, Hi.
Qed.
End protocol.

(** ** Merging logs *)

Lemma merge_cases (L es : Log) :
  (∀ j a b, L !! j = Some a → es !! j = Some b → e_term a = e_term b → a = b) →
  (merge L es = L ∧ es `prefix_of` L) ∨
  (merge L es = es ∧
   ∃ j, (j < length es)%nat ∧ ∀ a b, L !! j = Some a → es !! j = Some b → e_term a ≠ e_term b).
Proof.
  revert es. induction L as [|l L IH]; intros es Hm.
  - destruct es as [|e es]; [by left|]. right. split; [done|]. exists 0%nat. simpl. auto with lia.
  - destruct es as [|e es]; simpl; [left; split; [done|apply prefix_nil]|].
    destruct (_ =? _) eqn:E; bool_to_prop.
    + assert (l = e) as <- by (by apply (Hm 0%nat)).
      destruct (IH es) as [[-> Hp]|(-> & j & Hj & Hne)].
      { intros j. apply (Hm (S j)). }
      * left. split; [done|]. by apply prefix_cons.
      * right. split; [done|]. exists (S j). simpl. auto with lia.
    + right. split; [done|]. exists 0%nat. simpl. split; [lia|]. by intros a b [= <-] [= <-].
Qed.

Lemma take_prefix_of (L P : Log) n : P `prefix_of` L → (n ≤ length P)%nat → take n L `prefix_of` P.
Proof. intros [x ->] Hn. rewrite take_app_le by done. apply prefix_take. Qed.

Lemma segment_lookup (LL es : Log) k j b :
  (k ≤ length LL)%nat → take k LL ++ es `prefix_of` LL → es !! j = Some b → LL !! (k + j)%nat = Some b.
Proof.
  intros Hlen Hes Hb. apply (prefix_lookup_Some (take k LL ++ es)); [|done].
  rewrite lookup_app_r, length_take by (rewrite length_take; lia). rewrite <- Hb. f_equal. lia.
Qed.

(** A follower that merges a part of the leader's log [LL] covers that part, ends with its
    own log or with the leader's, and keeps what it had in common with the leader. *)
Lemma merge_at_spec (L LL : Log) k es :
  (∀ j a b, L !! j = Some a → LL !! j = Some b → e_term a = e_term b → a = b) →
  take k L = take k LL → (k ≤ length LL)%nat → take k LL ++ es `prefix_of` LL →
  take k LL ++ es `prefix_of` merge_at L k es ∧
  (merge_at L k es = L ∨ merge_at L k es = take k LL ++ es) ∧
  ∀ P, P `prefix_of` L → P `prefix_of` LL → P `prefix_of` merge_at L k es.
Proof.
  intros Hm Hk Hlen Hes. unfold merge_at.
  assert (Hkl : (k ≤ length L)%nat).
  { apply (f_equal length) in Hk. rewrite !length_take in Hk. lia. }
  destruct (merge_cases (drop k L) es) as [[-> Hp]|(-> & j & Hj & Hne)].
  - intros j a b Ha Hb. rewrite lookup_drop in Ha. apply (Hm _ _ _ Ha).
    by apply (segment_lookup LL es).
  - rewrite take_drop. split_and!; [|by left|done]. rewrite <- Hk. rewrite <- (take_drop k L) at 2.
    by apply prefix_app.
  - rewrite Hk. split_and!; [done|by right|]. intros P HL HLL.
    destruct (decide (length P ≤ k + length es)%nat) as [Hle|Hgt].
    + destruct (prefix_weak_total P (take k LL ++ es) LL) as [?|Hq]; [done..|].
      rewrite (prefix_length_eq _ _ Hq); [done|]. rewrite length_app, length_take. lia.
    + exfalso. destruct (lookup_lt_is_Some_2 P (k + j)) as [a Ha]; [lia|].
      apply (Hne a a); [..|done].
      * rewrite lookup_drop. by apply (prefix_lookup_Some _ _ _ _ Ha HL).
      * destruct (lookup_lt_is_Some_2 es j Hj) as [b Hb]. rewrite Hb. f_equal.
        pose proof (segment_lookup LL es k j b Hlen Hes Hb) as Hb'.
        apply (prefix_lookup_Some _ _ _ _ Ha) in HLL. congruence.
Qed.

Lemma term_before_Some (L : Log) k t :
  (0 < k)%nat → term_before L k = Some t → ∃ e, L !! (k - 1)%nat = Some e ∧ e_term e = t.
Proof.
  intros Hk. destruct k as [|k]; [lia|]. simpl. rewrite fmap_Some, Nat.sub_0_r.
  intros (e & He & ->). eauto.
Qed.

Lemma term_before_le (L : Log) k t : term_before L k = Some t → (k ≤ length L)%nat.
Proof.
  destruct k as [|k]; simpl; [lia|]. rewrite fmap_Some. intros (e & He & _).
  apply lookup_lt_Some in He. lia.
Qed.

Lemma term_before_prefix (L1 L2 : Log) k t :
  L1 `prefix_of` L2 → term_before L1 k = Some t → term_before L2 k = Some t.
Proof.
  destruct k as [|k]; [done|]. simpl. rewrite !fmap_Some. intros Hp (e & He & ->).
  exists e. split; [|done]. by apply (prefix_lookup_Some _ _ _ _ He).
Qed.

(** ** Terms that had a leader *)

Record Epoch := mkEpoch {
  ep_leader : NodeId;
  ep_start : Log;
  ep_log : Log;
}.

Abbreviation History := (gmap Term Epoch) (only parsing).

Definition log_wf (L : Log) : Prop := validate_suffix L 0 0 = Ok tt.

(** Every entry of the log, with all before it, is in the log of the leader of its term. *)
Definition consistent (G : History) (L : Log) : Prop :=
  ∀ k e, L !! k = Some e →
    ∃ ep, G !! e_term e = Some ep ∧ take (S k) L `prefix_of` ep_log ep.

(** Leaders stay what they are and only append. *)
Definition hist_le (G G' : History) : Prop :=
  ∀ t ep, G !! t = Some ep →
    ∃ ep', G' !! t = Some ep' ∧ ep_leader ep' = ep_leader ep ∧ ep_start ep' = ep_start ep ∧
      ep_log ep `prefix_of` ep_log ep'.

#[export] Instance hist_le_refl : Reflexive hist_le.
Proof. intros G t ep Ht. by exists ep. Qed.

#[export] Instance hist_le_trans : Transitive hist_le.
Proof.
  intros G1 G2 G3 H12 H23 t ep Ht. destruct (H12 t ep Ht) as (ep2 & H2 & Hl2 & Hs2 & Hp2).
  destruct (H23 t ep2 H2) as (ep3 & H3 & Hl3 & Hs3 & Hp3). exists ep3.
  split_and!; [done|congruence|congruence|by etransitivity].
Qed.

Lemma consistent_prefix G L L' : L' `prefix_of` L → consistent G L → consistent G L'.
Proof.
  intros Hp Hc k e He. pose proof (prefix_lookup_Some _ _ _ _ He Hp) as He'.
  destruct (Hc k e He') as (ep & Hep & Hpre). exists ep. split; [done|].
  destruct Hp as [x ->]. apply lookup_lt_Some in He. by rewrite take_app_le in Hpre by lia.
Qed.

Lemma consistent_mono G G' L : hist_le G G' → consistent G L → consistent G' L.
Proof.
  intros Hle Hc k e He. destruct (Hc k e He) as (ep & Hep & Hpre).
  destruct (Hle _ _ Hep) as (ep' & Hep' & _ & _ & Hlog). exists ep'. split; [done|].
  by etransitivity.
Qed.

(** Two consistent logs that have an entry of one term at one place agree up to it. *)
Lemma consistent_matching G L1 L2 k e1 e2 :
  consistent G L1 → consistent G L2 → L1 !! k = Some e1 → L2 !! k = Some e2 →
  e_term e1 = e_term e2 → take (S k) L1 = take (S k) L2.
Proof.
  intros H1 H2 E1 E2 Ht. destruct (H1 k e1 E1) as (ep & Hep & Hp1).
  destruct (H2 k e2 E2) as (ep' & Hep' & Hp2). rewrite Ht in Hep. simplify_eq.
  apply lookup_lt_Some in E1, E2.
  destruct (prefix_weak_total _ _ _ Hp1 Hp2) as [Hp|Hp].
  - apply prefix_length_eq; [done|]. rewrite !length_take. lia.
  - symmetry. apply prefix_length_eq; [done|]. rewrite !length_take. lia.
Qed.

Lemma consistent_lookup G L1 L2 k e1 e2 :
  consistent G L1 → consistent G L2 → L1 !! k = Some e1 → L2 !! k = Some e2 →
  e_term e1 = e_term e2 → e1 = e2.
Proof.
  intros H1 H2 E1 E2 Ht. pose proof (consistent_matching G _ _ _ _ _ H1 H2 E1 E2 Ht) as He.
  assert (take (S k) L1 !! k = Some e1) as Hx by (by rewrite lookup_take_lt by lia).
  rewrite He, lookup_take_lt in Hx by lia. congruence.
Qed.

(** The log of the leader up to an entry of its term is what everybody has there. *)
Lemma consistent_term_before G L1 L2 k t :
  consistent G L1 → consistent G L2 → term_before L1 k = Some t → term_before L2 k = Some t →
  take k L1 = take k L2.
Proof.
  intros H1 H2. destruct k as [|k]; [by rewrite !take_0|]. simpl. rewrite !fmap_Some.
  intros (e1 & E1 & ->) (e2 & E2 & Ht). by apply (consistent_matching G _ _ k e1 e2).
Qed.

Lemma log_wf_index L k e : log_wf L → L !! k = Some e → e_index e = N.of_nat k + 1.
Proof. intros Hw He. rewrite (validate_loop_index _ _ _ _ _ Hw He). unfold index_next. lia. Qed.

Lemma log_wf_sorted L j k e f :
  log_wf L → L !! j = Some e → L !! k = Some f → (j ≤ k)%nat → e_term e <= e_term f.
Proof. intros Hw. by apply (validate_loop_sorted _ _ _ _ _ _ _ Hw). Qed.

Lemma log_wf_prefix L L' : L' `prefix_of` L → log_wf L → log_wf L'.
Proof.
  intros [x ->] Hw. unfold log_wf, validate_suffix in *. rewrite validate_loop_app in Hw.
  by destruct (validate_loop L' _ _) as [[]|].
Qed.

Lemma log_term_last L e : last L = Some e → L !! (length L - 1)%nat = Some e ∧ log_term L = e_term e.
Proof. intros He. unfold log_term. rewrite He. by rewrite last_lookup, <- Nat.sub_1_r in He. Qed.

Lemma log_term_ge L k e : log_wf L → L !! k = Some e → e_term e <= log_term L.
Proof.
  intros Hw He. destruct (last L) as [l|] eqn:El; [|by apply last_None in El as ->].
  destruct (log_term_last L l El) as [Hl ->]. apply (log_wf_sorted _ _ _ _ _ Hw He Hl).
  apply lookup_lt_Some in He. lia.
Qed.

(** ** The invariant *)

Section invariant.
Context (members : list NodeId) (peers : NodeId → list NodeId).
Implicit Types (soup : list (NodeId * Envelope)) (nodes : gmap NodeId RState) (G : History).

(** [s] has or had the first [k] entries of the leader of term [t]. *)
Definition acked G soup (s : NodeId) (t : Term) (k : nat) : Prop :=
  (∃ c, confirmed soup s c t k) ∨
  ∃ ep, G !! t = Some ep ∧ ep_leader ep = s ∧ (k ≤ length (ep_log ep))%nat.

(** The log [V] starts with the first [k] entries of the leader of term [t]. *)
Definition held G (t : Term) (k : nat) (V : Log) : Prop :=
  ∃ ep, G !! t = Some ep ∧ (k ≤ length (ep_log ep))%nat ∧ take k (ep_log ep) `prefix_of` V.

(** The leader of term [t1] was elected without them. *)
Definition lost G (t : Term) (k : nat) (t1 : Term) : Prop :=
  ∃ ep ep1, G !! t = Some ep ∧ G !! t1 = Some ep1 ∧ (k ≤ length (ep_log ep))%nat ∧
    ¬ take k (ep_log ep) `prefix_of` ep_start ep1.

(** What [s] acknowledged in terms before [T] is in [V], unless a leader before [T1] was
    elected without it. *)
Definition remembers G soup (s : NodeId) (T T1 : Term) (V : Log) : Prop :=
  ∀ t k, acked G soup s t k → t < T → held G t k V ∨ ∃ t1, t < t1 ∧ t1 < T1 ∧ lost G t k t1.

(** An entry of the term of its leader that a quorum acknowledged. *)
Definition chosen G soup (t : Term) (k : nat) : Prop :=
  ∃ ep, G !! t = Some ep ∧ term_before (ep_log ep) k = Some t ∧ (0 < k)%nat ∧
    ∃ Q : gset NodeId, (quorum members ≤ size Q)%nat ∧
      ∀ s, s ∈ Q → s ∈ members ∧ acked G soup s t k.

(** The first [c] entries of [L] were chosen in a term up to [T]. *)
Definition stable G soup (T : Term) (L : Log) (c : nat) : Prop :=
  (c ≤ length L)%nat ∧
  (c = 0%nat ∨ ∃ t k ep, t <= T ∧ chosen G soup t k ∧ G !! t = Some ep ∧ (c ≤ k)%nat ∧
     take c L = take c (ep_log ep)).

Definition reached nodes (s : NodeId) (t : Term) : Prop := ∃ r, nodes !! s = Some r ∧ t <= r_term r.

Record epoch_ok G soup nodes (t : Term) (ep : Epoch) : Prop := {
  eo_start : ep_start ep `prefix_of` ep_log ep;
  eo_below : terms_below t (ep_start ep);
  eo_own : ∀ j e, (length (ep_start ep) ≤ j)%nat → ep_log ep !! j = Some e → e_term e = t;
  eo_consistent : consistent G (ep_log ep);
  eo_wf : log_wf (ep_log ep);
  eo_certificate : certificate members peers soup (ep_leader ep) t;
  eo_leader : ∃ r, nodes !! ep_leader ep = Some r ∧
    (t < r_term r ∨ (r_term r = t ∧ r_role r ≠ Candidate));
  eo_elected : ∃ Q : gset NodeId, (quorum members ≤ size Q)%nat ∧
    ∀ s, s ∈ Q → s ∈ members ∧ reached nodes s t ∧
      ∃ V, consistent G V ∧ log_wf V ∧ up_to_date (ep_start ep) V ∧ remembers G soup s t t V;
}.

Record rnode_ok G soup (i : NodeId) (r : RState) : Prop := {
  no_wf : log_wf (r_log r);
  no_consistent : consistent G (r_log r);
  no_terms : terms_upto (r_term r) (r_log r);
  no_leader : r_role r = Leader →
    ∃ ep, G !! r_term r = Some ep ∧ ep_leader ep = i ∧ ep_log ep = r_log r;
  no_candidate : r_role r = Candidate → ∀ p li lt,
    (i, mkEnvelope p (RequestVote (r_term r) li lt)) ∈ soup →
    li = N.of_nat (length (r_log r)) ∧ lt = log_term (r_log r);
  no_acks : remembers G soup i (r_term r + 1) (r_term r + 1) (r_log r);
  no_commit : stable G soup (r_term r) (r_log r) (r_commit r);
  no_saved : stable G soup (r_term r) (r_log r) (r_saved r);
}.

Definition message_ok G soup nodes (s : NodeId) (e : Envelope) : Prop :=
  match env_message e with
  | AppendEntries t pli plt es lc =>
      ∃ ep, G !! t = Some ep ∧ term_before (ep_log ep) (N.to_nat pli) = Some plt ∧
        take (N.to_nat pli) (ep_log ep) ++ es `prefix_of` ep_log ep ∧
        (N.to_nat lc ≤ N.to_nat pli + length es)%nat ∧ stable G soup t (ep_log ep) (N.to_nat lc)
  | AppendEntriesResp t true mi =>
      reached nodes s t ∧ ∃ ep, G !! t = Some ep ∧ (N.to_nat mi ≤ length (ep_log ep))%nat
  | RequestVoteResp t true =>
      ∃ V li lt, consistent G V ∧ log_wf V ∧
        (env_to e, mkEnvelope s (RequestVote t li lt)) ∈ soup ∧
        log_up_to_date lt li (log_term V) (N.of_nat (length V)) = true ∧
        remembers G soup s t (t + 1) V
  | _ => True
  end.

Record r_inv G (net : RNet) : Prop := {
  ri_votes : v_inv members peers (vnet_of net);
  ri_members : ∀ i r, rn_nodes net !! i = Some r → i ∈ members;
  ri_nodes : ∀ i r, rn_nodes net !! i = Some r → rnode_ok G (rn_soup net) i r;
  ri_epochs : ∀ t ep, G !! t = Some ep → epoch_ok G (rn_soup net) (rn_nodes net) t ep;
  ri_messages : ∀ s e, (s, e) ∈ rn_soup net → message_ok G (rn_soup net) (rn_nodes net) s e;
}.

(** *** Leader completeness *)

Lemma held_take G t k V ep :
  G !! t = Some ep → held G t k V → take k (ep_log ep) `prefix_of` V ∧ (k ≤ length (ep_log ep))%nat.
Proof. intros Ht (ep' & Ht' & Hk & Hp). by simplify_eq. Qed.

Lemma acked_bound G net s t k :
  r_inv G net → acked G (rn_soup net) s t k →
  reached (rn_nodes net) s t ∧ ∃ ep, G !! t = Some ep ∧ (k ≤ length (ep_log ep))%nat.
Proof.
  intros Hinv [(c & mi & Hin & Hk)|(ep & Ht & <- & Hk)].
  - destruct (ri_messages _ _ Hinv _ _ Hin) as (Hr & ep & Ht & Hmi). split; [done|].
    exists ep. split; [done|lia].
  - split; [|eauto]. destruct (eo_leader _ _ _ _ _ (ri_epochs _ _ Hinv _ _ Ht)) as (r & Hr & Hor).
    exists r. split; [done|lia].
Qed.

Lemma up_to_date_log_term C V : up_to_date C V → log_term V <= log_term C.
Proof.
  unfold up_to_date, log_up_to_date. rewrite orb_true_iff, andb_true_iff.
  intros [?|[? _]]; bool_to_prop; lia.
Qed.

(** A log that is up to date with one that has [P], whose last entry has term [t], has [P]
    too, if every leader between [t] and [T] had it when it was elected. *)
Lemma up_to_date_keeps G C V P t T :
  (∀ u ep, G !! u = Some ep → ep_start ep `prefix_of` ep_log ep ∧ terms_below u (ep_start ep)) →
  consistent G C → consistent G V → log_wf V → up_to_date C V → terms_below T C →
  P `prefix_of` V → P ≠ [] → log_term P = t →
  (∀ u ep, t < u → u < T → G !! u = Some ep → P `prefix_of` ep_start ep) →
  P `prefix_of` C.
Proof.
  intros HG HC HV Hwf Hup Hbelow HP Hne Ht Hbetween.
  destruct (last P) as [p|] eqn:Ep; [|by apply last_None in Ep].
  destruct (log_term_last P p Ep) as [Hp Hpt].
  pose proof (prefix_lookup_Some _ _ _ _ Hp HP) as HpV.
  pose proof (log_term_ge V _ _ Hwf HpV) as HtV.
  pose proof (up_to_date_log_term C V Hup) as HVC.
  destruct (last V) as [v|] eqn:Ev; [|by apply last_None in Ev as ->].
  destruct (log_term_last V v Ev) as [Hv HvV].
  destruct (HV _ _ Hv) as (epv & Hepv & Hpv).
  assert (HVlen : take (S (length V - 1)) V = V).
  { apply lookup_lt_Some in HpV. by rewrite take_ge by lia. }
  rewrite HVlen in Hpv.
  destruct (last C) as [c|] eqn:Ec.
  - destruct (log_term_last C c Ec) as [Hc HcC]. destruct (HC _ _ Hc) as (epc & Hepc & Hpc).
    assert (HClen : take (S (length C - 1)) C = C).
    { apply lookup_lt_Some in Hc. by rewrite take_ge by lia. }
    rewrite HClen in Hpc.
    destruct (decide (e_term c = e_term v)) as [Heq|Hdiff].
    + rewrite Heq in Hepc. simplify_eq.
      assert (length V ≤ length C)%nat as Hlen.
      { unfold up_to_date, log_up_to_date in Hup. rewrite HcC, HvV, Heq in Hup.
        rewrite N.ltb_irrefl, N.eqb_refl in Hup. simpl in Hup. bool_to_prop. lia. }
      destruct (prefix_weak_total V C (ep_log epv)) as [?|Hcv]; [done..|by etransitivity|].
      by rewrite (prefix_length_eq _ _ Hcv Hlen).
    + assert (Hct : t < e_term c) by (rewrite HcC, HvV in *; lia).
      assert (HcT : e_term c < T).
      { apply (proj1 (Forall_lookup _ _) Hbelow _ _ Hc). }
      pose proof (Hbetween _ _ Hct HcT Hepc) as Hstart.
      destruct (HG _ _ Hepc) as [Hsl Hsb]. transitivity (ep_start epc); [done|].
      destruct (prefix_weak_total (ep_start epc) C (ep_log epc)) as [?|Hcs]; [done..|].
      exfalso. pose proof (prefix_lookup_Some _ _ _ _ Hc Hcs) as Hx.
      pose proof (proj1 (Forall_lookup _ _) Hsb _ _ Hx) as Hy. simpl in Hy. lia.
  - exfalso. apply last_None in Ec as ->. unfold up_to_date, log_up_to_date in Hup.
    change (log_term []) with 0 in *. apply lookup_lt_Some in HpV.
    rewrite orb_true_iff, andb_true_iff in Hup. simpl in Hup.
    destruct Hup as [?|[_ ?]]; bool_to_prop; lia.
Qed.

Lemma chosen_prefix G net t k ep :
  r_inv G net → chosen G (rn_soup net) t k → G !! t = Some ep →
  (k ≤ length (ep_log ep))%nat ∧ take k (ep_log ep) ≠ [] ∧ log_term (take k (ep_log ep)) = t.
Proof.
  intros Hinv (ep' & Ht & Htb & Hk & _) Ht'.
  assert (ep' = ep) as -> by congruence. clear Ht'.
  pose proof (term_before_le _ _ _ Htb) as Hlen. split; [done|].
  destruct (term_before_Some _ _ _ Hk Htb) as (e & He & Het).
  destruct k as [|k]; [lia|]. rewrite Nat.sub_1_r in He. simpl in He.
  rewrite (take_S_r _ _ _ He). split; [by destruct (take k (ep_log ep))|].
  unfold log_term. by rewrite last_snoc.
Qed.

(** What was chosen in a term is in the log of every later leader from its election on. *)
Lemma leader_completeness_inv G net t k :
  r_inv G net → chosen G (rn_soup net) t k →
  ∀ u ep, t < u → G !! u = Some ep → held G t k (ep_start ep).
Proof.
  intros Hinv Hch u. induction u as [u IH] using (well_founded_induction N.lt_wf_0).
  intros ep Htu Hu. pose proof Hch as (ep0 & Ht & _ & _ & Q1 & Hq1 & HQ1).
  destruct (chosen_prefix G net t k ep0 Hinv Hch Ht) as (Hk & Hne & Hlt).
  pose proof (ri_epochs _ _ Hinv _ _ Hu) as Heo.
  destruct (eo_elected _ _ _ _ _ Heo) as (Q2 & Hq2 & HQ2).
  destruct (quorum_intersect members peers Q1 Q2) as (s & Hs1 & Hs2); [naive_solver..|].
  destruct (HQ1 s Hs1) as [_ Hack]. destruct (HQ2 s Hs2) as (_ & _ & V & HcV & HwV & Hup & Hrem).
  assert (HV : take k (ep_log ep0) `prefix_of` V).
  { destruct (Hrem t k Hack Htu) as [Hh|(t1 & Ht1 & Hu1 & ep' & ep1 & Ht' & H1' & _ & Hnot)].
    - by apply (held_take _ _ _ _ _ Ht) in Hh as [? _].
    - assert (ep' = ep0) as -> by congruence. destruct Hnot. by apply (held_take G t k), (IH t1). }
  exists ep0. split_and!; [done|done|].
  apply (up_to_date_keeps G (ep_start ep) V _ t u); try done.
  - intros u' ep' Hu'. pose proof (ri_epochs _ _ Hinv _ _ Hu') as Heo'.
    split; [by eapply eo_start|by eapply eo_below].
  - eapply consistent_prefix; [by eapply eo_start|by eapply eo_consistent].
  - by eapply eo_below.
  - intros u' ep' Htu' Huu' Hu'. by apply (held_take G t k), (IH u').
Qed.

(** The log of a leader has everything chosen up to its term. *)
Lemma chosen_in_log G net t k u ep :
  r_inv G net → chosen G (rn_soup net) t k → t <= u → G !! u = Some ep → held G t k (ep_log ep).
Proof.
  intros Hinv Hch Htu Hu. destruct (decide (t = u)) as [->|Hne].
  - destruct (chosen_prefix G net u k ep Hinv Hch Hu) as (Hk & _). exists ep.
    split_and!; [done|done|apply prefix_take].
  - destruct (leader_completeness_inv G net t k Hinv Hch u ep) as (ep0 & H0 & Hk & Hp); [lia|done|].
    exists ep0. split_and!; [done|done|]. etransitivity; [done|].
    by eapply eo_start, ri_epochs.
Qed.

(** What is stable in a log is in the log of every leader of the term or a later one. *)
Lemma stable_in_log G net T L c u ep :
  r_inv G net → stable G (rn_soup net) T L c → T <= u → G !! u = Some ep → take c L `prefix_of` ep_log ep.
Proof.
  intros Hinv [Hc [->|(t & k & ep0 & HtT & Hch & Ht & Hck & Htake)]] HTu Hu; [apply prefix_nil|].
  destruct (chosen_in_log G net t k u ep) as (ep' & Ht' & Hk & Hp); [done|done|lia|done|].
  simplify_eq. rewrite Htake. transitivity (take k (ep_log ep0)); [|done].
  rewrite <- (Nat.min_l c k) by lia. rewrite <- take_take. apply prefix_take.
Qed.

(** Two stable logs agree as far as both are. *)
Lemma stable_agree G net T1 L1 c1 T2 L2 c2 k :
  r_inv G net → stable G (rn_soup net) T1 L1 c1 → stable G (rn_soup net) T2 L2 c2 →
  (k < c1)%nat → (k < c2)%nat → L1 !! k = L2 !! k.
Proof.
  intros Hinv.
  assert (Hwlog : ∀ t1 k1 ep1 t2 ep2 (M1 M2 : Log) d1 d2,
    chosen G (rn_soup net) t1 k1 → G !! t1 = Some ep1 → (d1 ≤ k1)%nat → take d1 M1 = take d1 (ep_log ep1) →
    G !! t2 = Some ep2 → take d2 M2 = take d2 (ep_log ep2) → t1 <= t2 → (k < d1)%nat → (k < d2)%nat →
    M1 !! k = M2 !! k).
  { intros t1 k1 ep1 t2 ep2 M1 M2 d1 d2 Hch1 Hep1 Hdk1 E1 Hep2 E2 Hle Hk1 Hk2.
    destruct (chosen_in_log G net t1 k1 t2 ep2) as (ep' & Hep' & Hkl & Hp); [done..|]. simplify_eq.
    rewrite <- (lookup_take_lt M1 d1), <- (lookup_take_lt M2 d2), E1, E2 by lia.
    rewrite !lookup_take_lt by lia. rewrite <- (lookup_take_lt (ep_log ep1) k1) by lia.
    destruct (take k1 (ep_log ep1) !! k) as [e|] eqn:He.
    - symmetry. by apply (prefix_lookup_Some _ _ _ _ He).
    - apply lookup_ge_None in He. rewrite length_take in He. lia. }
  intros [Hc1 [->|(t1 & k1 & ep1 & _ & Hch1 & Hep1 & Hck1 & E1)]]
    [Hc2 [->|(t2 & k2 & ep2 & _ & Hch2 & Hep2 & Hck2 & E2)]] Hk1 Hk2; try lia.
  destruct (decide (t1 <= t2)).
  - by apply (Hwlog t1 k1 ep1 t2 ep2 L1 L2 c1 c2).
  - symmetry. apply (Hwlog t2 k2 ep2 t1 ep1 L2 L1 c2 c1); auto. lia.
Qed.

(** *** Growth *)

Lemma held_mono G G' t k V : hist_le G G' → held G t k V → held G' t k V.
Proof.
  intros Hle (ep & Ht & Hk & Hp). destruct (Hle _ _ Ht) as (ep' & Ht' & _ & _ & [x Hx]).
  exists ep'. rewrite Hx, length_app, take_app_le by lia. split_and!; [done|lia|done].
Qed.

Lemma lost_mono G G' t k t1 : hist_le G G' → lost G t k t1 → lost G' t k t1.
Proof.
  intros Hle (ep & ep1 & Ht & Ht1 & Hk & Hn). destruct (Hle _ _ Ht) as (ep' & Ht' & _ & _ & [x Hx]).
  destruct (Hle _ _ Ht1) as (ep1' & Ht1' & _ & Hs & _). exists ep', ep1'.
  rewrite Hx, Hs, length_app, take_app_le by lia. split_and!; [done|done|lia|done].
Qed.

Lemma confirmed_app soup es s c t k : confirmed soup s c t k → confirmed (soup ++ es) s c t k.
Proof. intros (mi & Hin & Hk). exists mi. split; [set_solver|done]. Qed.

Lemma acked_mono G G' soup es s t k :
  hist_le G G' → acked G soup s t k → acked G' (soup ++ es) s t k.
Proof.
  intros Hle [[c Hc]|(ep & Ht & <- & Hk)]; [left; exists c; by apply confirmed_app|].
  right. destruct (Hle _ _ Ht) as (ep' & Ht' & Hl & _ & Hp%prefix_length). exists ep'.
  split_and!; [done|done|lia].
Qed.

Lemma chosen_mono G G' soup es t k :
  hist_le G G' → chosen G soup t k → chosen G' (soup ++ es) t k.
Proof.
  intros Hle (ep & Ht & Htb & Hk & Q & Hq & HQ). destruct (Hle _ _ Ht) as (ep' & Ht' & _ & _ & Hp).
  exists ep'. split_and!; [done|by eapply term_before_prefix|done|]. exists Q. split; [done|].
  intros s Hs. destruct (HQ s Hs). split; [done|by eapply acked_mono].
Qed.

Lemma stable_mono G G' soup es T T' L c :
  hist_le G G' → T <= T' → stable G soup T L c → stable G' (soup ++ es) T' L c.
Proof.
  intros Hle HT [Hc Hst]. split; [done|]. destruct Hst as [?|(t & k & ep & Ht & Hch & Hep & Hck & E)]; [by left|].
  right. destruct (Hle _ _ Hep) as (ep' & Hep' & _ & _ & [x Hx]). exists t, k, ep'.
  split_and!; [lia|by eapply chosen_mono|done|done|].
  assert (length (take c (ep_log ep)) = c) as Hl by (rewrite <- E, length_take; lia).
  rewrite length_take in Hl. by rewrite Hx, take_app_le by lia.
Qed.

(** A prefix of a log is stable as far as it goes. *)
Lemma stable_prefix G soup T L L' c :
  stable G soup T L c → take c L `prefix_of` L' → stable G soup T L' c.
Proof.
  intros [Hc Hst] Hp. assert (Hl : length (take c L) = c) by (rewrite length_take; lia).
  pose proof (prefix_length _ _ Hp) as Hlen. split; [lia|].
  destruct Hst as [?|(t & k & ep & Ht & Hch & Hep & Hck & E)]; [by left|].
  right. exists t, k, ep. split_and!; try done. rewrite <- E. destruct Hp as [x ->].
  rewrite take_app_le by lia. rewrite <- Hl at 1. by rewrite firstn_all.
Qed.

Lemma remembers_mono G G' soup es s T T1 T1' V V' :
  hist_le G G' → T1 <= T1' →
  (∀ t k, acked G' (soup ++ es) s t k → t < T → acked G soup s t k) →
  (∀ t k, acked G soup s t k → held G t k V → held G' t k V' ∨ ∃ t1, t < t1 ∧ t1 < T1' ∧ lost G' t k t1) →
  remembers G soup s T T1 V → remembers G' (soup ++ es) s T T1' V'.
Proof.
  intros Hle HT Hold HV Hrem t k Hack Ht. pose proof (Hold t k Hack Ht) as Hack0.
  destruct (Hrem t k Hack0 Ht) as [Hh|(t1 & H1 & H2 & Hl)]; [by apply HV|].
  right. exists t1. split_and!; [done|lia|by eapply lost_mono].
Qed.

(** *** One step *)

(** How a step of server [i] from [r] to [r'] changes the history. *)
Record grows G G' soup nodes (i : NodeId) (r : RState) (out : list Envelope) (r' : RState) : Prop := {
  gr_hist : hist_le G G';
  gr_node : nodes !! i = Some r;
  gr_member : i ∈ members;
  gr_term : r_term r <= r_term r';
  gr_candidate : r_role r' = Candidate → r_term r < r_term r' ∨ r_role r = Candidate;
  gr_acks : ∀ s t k, acked G' (soup ++ ((λ e, (i, e)) <$> out)) s t k →
    acked G soup s t k ∨ (s = i ∧ t = r_term r');
  gr_others : ∀ t ep, G !! t = Some ep → ep_leader ep ≠ i → G' !! t = Some ep;
}.

Section growth.
Context (G G' : History) (soup : list (NodeId * Envelope)) (nodes : gmap NodeId RState)
  (i : NodeId) (r : RState) (out : list Envelope) (r' : RState).
Hypothesis Hinv : r_inv G (mkRNet nodes soup).
Hypothesis Hgr : grows G G' soup nodes i r out r'.

Local Abbreviation soup' := (soup ++ ((λ e, (i, e)) <$> out)).
Local Abbreviation nodes' := (<[i := r']> nodes).

Lemma reached_step s t : reached nodes s t → reached nodes' s t.
Proof.
  intros (x & Hx & Ht). destruct (decide (i = s)) as [<-|Hne].
  - exists r'. rewrite lookup_insert_eq. split; [done|]. rewrite (gr_node _ _ _ _ _ _ _ _ Hgr) in Hx.
    simplify_eq. pose proof (gr_term _ _ _ _ _ _ _ _ Hgr). lia.
  - exists x. by rewrite lookup_insert_ne.
Qed.

(** Acknowledgements of earlier terms are old. *)
Lemma acked_old s t k T :
  reached nodes s T → acked G' soup' s t k → t < T → acked G soup s t k.
Proof.
  intros (x & Hx & HT) Hack Ht. destruct (gr_acks _ _ _ _ _ _ _ _ Hgr _ _ _ Hack) as [?|[-> ->]]; [done|].
  rewrite (gr_node _ _ _ _ _ _ _ _ Hgr) in Hx. simplify_eq.
  pose proof (gr_term _ _ _ _ _ _ _ _ Hgr). lia.
Qed.

Lemma remembers_step s T T1 V :
  reached nodes s T → remembers G soup s T T1 V → remembers G' soup' s T T1 V.
Proof.
  intros Hr. apply remembers_mono; [apply Hgr|lia|by intros t k; apply acked_old|].
  intros t k _ Hh. left. eapply held_mono; [apply Hgr|done].
Qed.

Lemma epoch_step t ep : epoch_ok G soup nodes t ep → epoch_ok G' soup' nodes' t ep.
Proof.
  intros []. split; try done.
  - eapply consistent_mono; [apply Hgr|done].
  - by apply certificate_app.
  - destruct eo_leader0 as (x & Hx & Hor). destruct (decide (i = ep_leader ep)) as [Heq|Hne].
    + pose proof (gr_node _ _ _ _ _ _ _ _ Hgr) as Hn. rewrite Heq in Hn.
      assert (x = r) as -> by congruence. exists r'.
      rewrite <- Heq, lookup_insert_eq. split; [done|].
      pose proof (gr_term _ _ _ _ _ _ _ _ Hgr). destruct (decide (t < r_term r')); [by left|].
      right. split; [lia|]. intros Hc. destruct (gr_candidate _ _ _ _ _ _ _ _ Hgr Hc); [lia|].
      destruct Hor as [?|[? ?]]; [lia|done].
    + exists x. by rewrite lookup_insert_ne.
  - destruct eo_elected0 as (Q & Hq & HQ). exists Q. split; [done|]. intros s Hs.
    destruct (HQ s Hs) as (Hm & Hr & V & HcV & HwV & Hup & Hrem).
    split_and!; [done|by apply reached_step|]. exists V. split_and!; try done.
    + eapply consistent_mono; [apply Hgr|done].
    + by apply remembers_step.
Qed.

Lemma message_step s e : (s, e) ∈ soup → message_ok G' soup' nodes' s e.
Proof.
  intros Hin. pose proof (ri_messages _ _ Hinv _ _ Hin) as Hok. destruct e as [p m].
  unfold message_ok in *. simpl in *. destruct m as [|t g|t pli plt es lc|t g mi]; try done.
  - destruct g; [|done]. destruct Hok as (V & li & lt & HcV & HwV & Hreq & Hup & Hrem).
    exists V, li, lt. split_and!; try done; [|set_solver|].
    + eapply consistent_mono; [apply Hgr|done].
    + apply remembers_step; [|done].
      destruct (proj1 (proj1 (ri_votes _ _ Hinv)) s p t Hin) as (v & Hv & Ht & _).
      simpl in Hv. rewrite lookup_fmap, fmap_Some in Hv. destruct Hv as (x & Hx & ->). by exists x.
  - destruct Hok as (ep & Ht & Htb & Hp & Hlc & Hst).
    destruct (gr_hist _ _ _ _ _ _ _ _ Hgr _ _ Ht) as (ep' & Ht' & _ & _ & Hpre).
    pose proof (term_before_le _ _ _ Htb) as Hle. exists ep'.
    split_and!; [done|by eapply term_before_prefix| |done|].
    + destruct Hpre as [x ->]. rewrite take_app_le by done. by apply prefix_app_r.
    + apply (stable_prefix _ _ _ (ep_log ep)).
      * eapply stable_mono; [apply Hgr|apply N.le_refl|done].
      * etransitivity; [apply prefix_take|done].
  - destruct g; [|done]. destruct Hok as (Hr & ep & Ht & Hmi). split; [by apply reached_step|].
    destruct (gr_hist _ _ _ _ _ _ _ _ Hgr _ _ Ht) as (ep' & Ht' & _ & _ & Hpre%prefix_length).
    exists ep'. split; [done|lia].
Qed.

(** The other servers, and the candidate's own requests. *)
Lemma node_step j x : nodes !! j = Some x → j ≠ i → rnode_ok G' soup' j x.
Proof.
  intros Hj Hne. destruct (ri_nodes _ _ Hinv _ _ Hj) as [Hw Hc Ht Hl Hcand Ha Hco Hsa]. split; try done.
  - eapply consistent_mono; [apply Hgr|done].
  - intros Hr. destruct (Hl Hr) as (ep & Hep & Hid & Hlog). exists ep. split; [|done].
    apply (gr_others _ _ _ _ _ _ _ _ Hgr); [done|congruence].
  - intros Hr p li lt [Hin|(e & [=] & _)%list_elem_of_fmap]%elem_of_app; [by eapply Hcand|congruence].
  - revert Ha. apply remembers_mono; [apply Hgr|lia| |].
    + intros t k Hack _. by destruct (gr_acks _ _ _ _ _ _ _ _ Hgr _ _ _ Hack) as [?|[-> _]].
    + intros t k _ Hh. left. eapply held_mono; [apply Hgr|done].
  - eapply stable_mono; [apply Hgr|apply N.le_refl|done].
  - eapply stable_mono; [apply Hgr|apply N.le_refl|done].
Qed.

(** The invariant after the step, from what is new: the server, its messages and the
    epochs it changed. *)
Lemma inv_frame :
  r_action members peers soup i r out r' →
  rnode_ok G' soup' i r' →
  (∀ t ep, G' !! t = Some ep → G !! t = Some ep ∨ epoch_ok G' soup' nodes' t ep) →
  (∀ e, e ∈ out → message_ok G' soup' nodes' i e) →
  r_inv G' (mkRNet nodes' soup').
Proof.
  intros Hact Hr He Hm. split; simpl.
  - apply (v_inv_step members peers (vnet_of (mkRNet nodes soup))); [apply Hinv|].
    apply (r_step_votes members peers (mkRNet nodes soup)).
    by apply (rs_action members peers (mkRNet nodes soup) i r); [apply Hgr|apply Hgr|].
  - intros j x. destruct (decide (i = j)) as [<-|Hne]; [intros _; apply Hgr|].
    rewrite lookup_insert_ne by done. apply Hinv.
  - intros j x. destruct (decide (i = j)) as [<-|Hne].
    + rewrite lookup_insert_eq. by intros [= <-].
    + rewrite lookup_insert_ne by done. intros Hx. by apply node_step.
  - intros t ep Ht. destruct (He t ep Ht) as [Hold|?]; [|done]. apply epoch_step. by apply Hinv.
  - intros s e [Hin|(e' & [= -> ->] & Hin)%list_elem_of_fmap]%elem_of_app; [by apply message_step|auto].
Qed.
End growth.
End invariant.
