(* ===== verification/ConsensusSafety.v ===== *)
(** * Safety of log replication

    Every action of the protocol of [Consensus] keeps its invariant; with it log matching,
    leader completeness and the agreement of committed logs hold in every reachable state
    of the protocol. *)

From S2P Require Import Prelude RaftLog RaftNode Voting Consensus.

Local Open Scope N_scope.

Section steps.
Context (members : list NodeId) (peers : NodeId → list NodeId).
Implicit Types (soup : list (NodeId * Envelope)) (nodes : gmap NodeId RState) (G : History)
  (i : NodeId) (r : RState).

Local Abbreviation r_inv := (r_inv members peers).
Local Abbreviation r_action := (r_action members peers).

Lemma own_acks_reached G nodes soup i r t k :
  r_inv G (mkRNet nodes soup) → nodes !! i = Some r → acked G soup i t k → t <= r_term r.
Proof.
  intros Hinv Hi Hack. destruct (acked_bound _ _ _ _ _ _ _ Hinv Hack) as [(x & Hx & Ht) _].
  simpl in Hx. by simplify_eq.
Qed.

(** ** Steps that leave the history alone *)

Definition no_confirm (e : Envelope) : Prop :=
  match env_message e with AppendEntriesResp _ success _ => success = false | _ => True end.
Definition no_request (e : Envelope) : Prop :=
  match env_message e with RequestVote _ _ _ => False | _ => True end.

Lemma acked_calm G soup i out s t k :
  Forall no_confirm out → acked G (soup ++ ((λ e, (i, e)) <$> out)) s t k → acked G soup s t k.
Proof.
  intros Hout [(c & mi & Hin & Hk)|?]; [|by right]. left. exists c, mi. split; [|done].
  apply elem_of_app in Hin as [?|(e & [= -> <-] & Hin)%list_elem_of_fmap]; [done|].
  by pose proof (proj1 (Forall_forall _ _) Hout _ Hin).
Qed.

Lemma grows_calm G soup nodes i r out r' :
  nodes !! i = Some r → i ∈ members → r_term r <= r_term r' →
  (r_role r' = Candidate → r_term r < r_term r' ∨ r_role r = Candidate) →
  Forall no_confirm out → grows members G G soup nodes i r out r'.
Proof.
  intros Hi Hm Ht Hc Hout. split; try done. intros s t k Hack. left. by eapply acked_calm.
Qed.

(** Requests of a server that was a candidate before. *)
Lemma same_candidate G nodes soup i r out r' :
  r_inv G (mkRNet nodes soup) → nodes !! i = Some r → r_log r' = r_log r → r_term r' = r_term r →
  r_role r = Candidate → Forall no_request out → ∀ p li lt,
  (i, mkEnvelope p (RequestVote (r_term r') li lt)) ∈ soup ++ ((λ e, (i, e)) <$> out) →
  li = N.of_nat (length (r_log r')) ∧ lt = log_term (r_log r').
Proof.
  intros Hinv Hi Hl Ht Hr Hout p li lt. rewrite Hl, Ht. intros [Hin|Hin]%elem_of_app.
  - by apply (no_candidate _ _ _ _ _ (ri_nodes _ _ _ _ Hinv i r Hi) Hr p).
  - apply list_elem_of_fmap in Hin as (e & [= <-] & Hin).
    by pose proof (proj1 (Forall_forall _ _) Hout _ Hin).
Qed.

Lemma inv_calm G nodes soup i r out r' :
  r_inv G (mkRNet nodes soup) → nodes !! i = Some r → i ∈ members →
  r_action soup i r out r' → r_log r' = r_log r → r_term r <= r_term r' →
  Forall no_confirm out →
  (r_role r' = Leader → r_role r = Leader ∧ r_term r' = r_term r) →
  (r_role r' = Candidate → (r_term r' = r_term r ∧ r_role r = Candidate ∧ Forall no_request out) ∨
     (r_term r < r_term r' ∧ ∀ p li lt,
      (i, mkEnvelope p (RequestVote (r_term r') li lt)) ∈ soup ++ ((λ e, (i, e)) <$> out) →
      li = N.of_nat (length (r_log r)) ∧ lt = log_term (r_log r))) →
  stable members G soup (r_term r') (r_log r) (r_commit r') →
  stable members G soup (r_term r') (r_log r) (r_saved r') →
  (∀ e, e ∈ out → message_ok members G (soup ++ ((λ e, (i, e)) <$> out)) (<[i := r']> nodes) i e) →
  r_inv G (mkRNet (<[i := r']> nodes) (soup ++ ((λ e, (i, e)) <$> out))).
Proof.
  intros Hinv Hi Him Hact Hlog Hterm Hout Hlead Hcand Hcommit Hsaved Hmsg.
  pose proof (ri_nodes _ _ _ _ Hinv i r Hi) as Hok.
  assert (Hgr : grows members G G soup nodes i r out r').
  { apply grows_calm; try done. intros Hc. destruct (Hcand Hc) as [(? & ? & _)|[? _]]; auto. }
  eapply (inv_frame members peers); try done; [|by left]. destruct Hok. split; rewrite ?Hlog; try done.
  - eapply Forall_impl; [done|]. simpl. intros. lia.
  - intros Hr. destruct (Hlead Hr) as [Hr0 ->]. auto.
  - intros Hc p li lt Hin. destruct (Hcand Hc) as [(Ht & Hr & Hno)|[_ Hreq]]; [|by eapply Hreq].
    rewrite <- Hlog. by eapply same_candidate.
  - intros t k Hack%acked_calm Ht; [|done]. destruct (no_acks t k) as [?|(t1 & ? & ? & ?)]; [done| |by left|].
    + pose proof (own_acks_reached G nodes soup i r t k Hinv Hi Hack). lia.
    + right. exists t1. split_and!; [done|lia|done].
  - eapply (stable_mono members peers); [exact (hist_le_refl G)|apply N.le_refl|done].
  - eapply (stable_mono members peers); [exact (hist_le_refl G)|apply N.le_refl|done].
Qed.

Lemma stable_up G soup T T' L c : stable members G soup T L c → T <= T' → stable members G soup T' L c.
Proof.
  intros Hs HT. pose proof (stable_mono members peers G G soup [] T T' L c (hist_le_refl G) HT Hs) as H.
  by rewrite app_nil_r in H.
Qed.

Section calm_steps.
Context (G : History) (nodes : gmap NodeId RState) (soup : list (NodeId * Envelope)) (i : NodeId) (r : RState).
Hypothesis Hinv : r_inv G (mkRNet nodes soup).
Hypothesis Hi : nodes !! i = Some r.
Hypothesis Him : i ∈ members.

Local Abbreviation after out r' := (mkRNet (<[i := r']> nodes) (soup ++ ((λ e, (i, e)) <$> out))).

Lemma inv_other out : Forall inert out → r_inv G (after out r).
Proof.
  intros Hf. pose proof (ri_nodes _ _ _ _ Hinv i r Hi) as [].
  assert (Hinert : ∀ e, e ∈ out → inert e) by (by apply Forall_forall).
  eapply inv_calm; try done.
  - by constructor.
  - apply Forall_forall. intros [p []] He%Hinert; by unfold inert, no_confirm in *.
  - intros Hc. left. split_and!; [done|done|].
    apply Forall_forall. intros [p []] He%Hinert; by unfold inert, no_request in *.
  - intros [p []] He%Hinert; unfold inert, message_ok in *; simpl in *; by subst.
Qed.

Lemma inv_adopt t : r_term r < t → r_inv G (after [] (with_v (mkV t None Follower ∅) r)).
Proof.
  intros Ht. pose proof (ri_nodes _ _ _ _ Hinv i r Hi) as [].
  eapply inv_calm; try done; [by constructor|unfold r_term in *; simpl; lia|..].
  all: try (by intros ? ?%not_elem_of_nil). all: eapply stable_up; [done|unfold r_term in *; simpl; lia].
Qed.

Lemma inv_demote : r_inv G (after [] (with_v (mkV (r_term r) (v_vote (r_v r)) Follower ∅) r)).
Proof.
  pose proof (ri_nodes _ _ _ _ Hinv i r Hi) as [].
  eapply inv_calm; try done; [by constructor|]. by intros ? ?%not_elem_of_nil.
Qed.

Lemma inv_restart :
  r_inv G (after [] (mkR (mkV (r_term r) (v_vote (r_v r)) Follower ∅) (r_log r) (r_saved r) (r_saved r))).
Proof.
  pose proof (ri_nodes _ _ _ _ Hinv i r Hi) as [].
  eapply inv_calm; try done; [by constructor|]. by intros ? ?%not_elem_of_nil.
Qed.

Lemma inv_save : r_inv G (after [] (mkR (r_v r) (r_log r) (r_commit r) (r_commit r))).
Proof.
  pose proof (ri_nodes _ _ _ _ Hinv i r Hi) as [].
  eapply inv_calm; try done; [by constructor|by left|]. by intros ? ?%not_elem_of_nil.
Qed.

Lemma inv_tally f g :
  r_role r = Candidate → f ∈ members → (f, mkEnvelope i (RequestVoteResp (r_term r) g)) ∈ soup →
  r_inv G (after [] (with_v (mkV (r_term r) (v_vote (r_v r)) Candidate (<[f := g]> (v_votes (r_v r)))) r)).
Proof.
  intros Hr Hf Hin. pose proof (ri_nodes _ _ _ _ Hinv i r Hi) as [].
  eapply inv_calm; try done; [by constructor|by left|]. by intros ? ?%not_elem_of_nil.
Qed.

Lemma inv_grant c li lt :
  v_vote (r_v r) = None ∨ v_vote (r_v r) = Some c →
  (c, mkEnvelope i (RequestVote (r_term r) li lt)) ∈ soup →
  log_up_to_date lt li (log_term (r_log r)) (N.of_nat (length (r_log r))) = true →
  r_inv G (after [mkEnvelope c (RequestVoteResp (r_term r) true)]
             (with_v (mkV (r_term r) (Some c) (r_role r) (v_votes (r_v r))) r)).
Proof.
  intros Hv Hin Hup. pose proof (ri_nodes _ _ _ _ Hinv i r Hi) as Hok. pose proof Hok as [].
  eapply inv_calm; try done; [by econstructor|by repeat constructor|..].
  - intros Hc. left. split_and!; [done|done|by repeat constructor].
  - intros e ->%list_elem_of_singleton. exists (r_log r), li, lt.
    split_and!; try done; [simpl; set_solver|].
    intros t k Hack%acked_calm Ht; [|by repeat constructor].
    destruct (no_acks t k Hack) as [?|?]; [lia|by left|by right].
Qed.

Lemma inv_campaign :
  r_inv G (after ((λ p, mkEnvelope p (RequestVote (r_term r + 1) (N.of_nat (length (r_log r)))
                             (log_term (r_log r)))) <$> peers i)
             (with_v (mkV (r_term r + 1) (Some i) Candidate {[i := true]}) r)).
Proof.
  pose proof (ri_nodes _ _ _ _ Hinv i r Hi) as [].
  eapply inv_calm; try done; [by constructor|unfold r_term, with_v; cbn [r_v v_term]; lia|..].
  - apply Forall_forall. by intros e (p & -> & _)%list_elem_of_fmap.
  - intros _. right. split; [unfold r_term, with_v; cbn [r_v v_term]; lia|].
    intros p li lt [Hin|Hin]%elem_of_app.
    + destruct (proj2 (proj1 (ri_votes _ _ _ _ Hinv)) i (r_term r + 1)) as (v & Hv & Ht & _).
      { exists p, li, lt. exact Hin. }
      simpl in Hv. rewrite lookup_fmap, Hi in Hv. simpl in Hv. injection Hv as <-.
      change (v_term (r_v r)) with (r_term r) in Ht. lia.
    + apply list_elem_of_fmap in Hin as (e & [= <-] & (q & [= -> -> ->] & _)%list_elem_of_fmap). done.
  - eapply stable_up; [done|unfold r_term, with_v; cbn [r_v v_term]; lia].
  - eapply stable_up; [done|unfold r_term, with_v; cbn [r_v v_term]; lia].
  - by intros e (p & -> & _)%list_elem_of_fmap.
Qed.

Lemma inv_commit k :
  r_role r = Leader → term_before (r_log r) k = Some (r_term r) → (0 < k)%nat →
  commit_evidence members soup i (r_term r) k →
  r_inv G (after [] (mkR (r_v r) (r_log r) k (r_saved r))).
Proof.
  intros Hr Htb Hk Hev. pose proof Hev as (Q & Hq & HQ). pose proof (ri_nodes _ _ _ _ Hinv i r Hi) as [].
  destruct (no_leader Hr) as (ep & Hep & Hid & Hlog).
  eapply inv_calm; try done; [by constructor|by left| |by intros ? ?%not_elem_of_nil].
  pose proof (term_before_le _ _ _ Htb). split; [done|]. right. exists (r_term r), k, ep.
  split_and!; [apply N.le_refl| |done|done|by rewrite Hlog].
  exists ep. rewrite Hlog. split_and!; try done. exists Q. split; [done|].
  intros s Hs. destruct (HQ s Hs) as [Hm [->|Hc]]; (split; [done|]); [right|left; by exists i].
  exists ep. rewrite Hlog. split_and!; try done.
Qed.

Lemma inv_send p k plt :
  r_role r = Leader → (k ≤ length (r_log r))%nat → term_before (r_log r) k = Some plt →
  r_inv G (after [mkEnvelope p (AppendEntries (r_term r) (N.of_nat k) plt (drop k (r_log r))
                       (N.of_nat (r_commit r)))] r).
Proof.
  intros Hr Hk Htb. pose proof (ri_nodes _ _ _ _ Hinv i r Hi) as [].
  destruct (no_leader Hr) as (ep & Hep & Hid & Hlog).
  eapply inv_calm; try done; [by constructor|by repeat constructor|..].
  - intros Hc. left. split_and!; [done|done|by repeat constructor].
  - intros e ->%list_elem_of_singleton. unfold message_ok. simpl. exists ep.
    rewrite Hlog, !Nat2N.id, take_drop, length_drop. destruct no_commit as [Hc Hst].
    split_and!; try done; [lia|].
    eapply (stable_mono members peers); [exact (hist_le_refl G)|apply N.le_refl|]. by split.
Qed.
End calm_steps.

(** ** Elections *)

Section log_steps.
Context (G : History) (nodes : gmap NodeId RState) (soup : list (NodeId * Envelope)) (i : NodeId) (r : RState).
Hypothesis Hpeers : peers_complete members peers.
Hypothesis Hinv : r_inv G (mkRNet nodes soup).
Hypothesis Hi : nodes !! i = Some r.
Hypothesis Him : i ∈ members.

Local Abbreviation after out r' := (mkRNet (<[i := r']> nodes) (soup ++ ((λ e, (i, e)) <$> out))).

Lemma candidate_votes :
  r_role r = Candidate → ∀ s, s ∈ v_yes (r_v r) →
  s ∈ members ∧ (s = i ∨ granted soup s i (r_term r)).
Proof.
  intros Hr s Hs. destruct (ri_votes _ _ _ _ Hinv) as (_ & _ & Hcamp).
  destruct (Hcamp i (r_v r)) as (_ & _ & Hy & _).
  - simpl. by rewrite lookup_fmap, Hi.
  - unfold r_role in Hr. congruence.
  - unfold v_yes in Hs. rewrite elem_of_dom in Hs.
    destruct Hs as [b [Hs Hb]%map_lookup_filter_Some]. simpl in Hb. subst. by apply Hy.
Qed.

Lemma candidate_certificate :
  r_role r = Candidate → (quorum members ≤ size (v_yes (r_v r)))%nat →
  certificate members peers soup i (r_term r).
Proof.
  intros Hr Hq. split; [done|]. destruct (ri_votes _ _ _ _ Hinv) as (_ & _ & Hcamp).
  destruct (Hcamp i (r_v r)) as (_ & Hreq & _).
  - simpl. by rewrite lookup_fmap, Hi.
  - unfold r_role in Hr. congruence.
  - split; [done|]. exists (v_yes (r_v r)). split; [done|]. by apply candidate_votes.
Qed.

(** A term has a leader once. *)
Lemma elect_fresh :
  r_role r = Candidate → (quorum members ≤ size (v_yes (r_v r)))%nat → G !! r_term r = None.
Proof.
  intros Hr Hq. destruct (G !! r_term r) as [ep|] eqn:Hep; [|done]. exfalso.
  pose proof (ri_epochs _ _ _ _ Hinv _ _ Hep) as Heo.
  assert (ep_leader ep = i) as Hl.
  { apply (certificate_unique members peers soup _ _ (r_term r)); [done|apply Hinv| |].
    - by eapply eo_certificate.
    - by apply candidate_certificate. }
  destruct (eo_leader _ _ _ _ _ _ _ Heo) as (x & Hx & Hor). simpl in Hx.
  rewrite Hl, Hi in Hx. injection Hx as <-. destruct Hor as [?|[_ ?]]; [lia|done].
Qed.

Lemma hist_le_insert t ep : G !! t = None → hist_le G (<[t := ep]> G).
Proof.
  intros Hn u epu Hu. exists epu. rewrite lookup_insert_ne by congruence. done.
Qed.

(** Acknowledgements after the epoch of the server's own term changed. *)
Lemma acked_insert s t k start L :
  acked (<[r_term r := mkEpoch i start L]> G) soup s t k →
  acked G soup s t k ∨ (s = i ∧ t = r_term r ∧ (k ≤ length L)%nat).
Proof.
  intros [?|(ep & Ht & Hl & Hk)]; [by left; left|].
  destruct (decide (t = r_term r)) as [->|Hne].
  - rewrite lookup_insert_eq in Ht. injection Ht as <-. right. by simpl in *.
  - rewrite lookup_insert_ne in Ht by done. left. right. eauto.
Qed.

(** After a change of that epoch the server has what it acknowledged. *)
Lemma own_remembers start L :
  hist_le G (<[r_term r := mkEpoch i start L]> G) → r_log r `prefix_of` L →
  remembers (<[r_term r := mkEpoch i start L]> G) soup i (r_term r + 1) (r_term r + 1) L.
Proof.
  intros Hle Hp t k Hack Ht. pose proof (ri_nodes _ _ _ _ Hinv i r Hi) as [].
  apply acked_insert in Hack as [Hack|(_ & -> & Hk)].
  - destruct (no_acks t k Hack Ht) as [(ep & Hep & Hk & Hpre)|(t1 & ? & ? & Hl)].
    + left. eapply held_mono; [done|]. exists ep. split_and!; [done|done|by etransitivity].
    + right. exists t1. split_and!; [done|done|by eapply lost_mono].
  - left. exists (mkEpoch i start L). rewrite lookup_insert_eq.
    split_and!; [done|done|apply prefix_take].
Qed.

(** No entry of a term that has no leader. *)
Lemma fresh_terms : G !! r_term r = None → terms_below (r_term r) (r_log r).
Proof.
  intros Hn. pose proof (ri_nodes _ _ _ _ Hinv i r Hi) as []. apply Forall_lookup. intros k e He.
  pose proof (proj1 (Forall_lookup _ _) no_terms _ _ He) as Hle. simpl in Hle.
  destruct (no_consistent k e He) as (ep & Hep & _).
  assert (e_term e ≠ r_term r) by congruence. lia.
Qed.

(** The votes of the quorum, with the logs of the voters. *)
Lemma elected_by s :
  r_role r = Candidate → G !! r_term r = None → s ∈ v_yes (r_v r) →
  reached nodes s (r_term r) ∧
  ∃ V, consistent G V ∧ log_wf V ∧ up_to_date (r_log r) V ∧
    remembers G soup s (r_term r) (r_term r) V.
Proof.
  intros Hr Hn Hs. pose proof (ri_nodes _ _ _ _ Hinv i r Hi) as [].
  destruct (candidate_votes Hr s Hs) as [Hm [->|Hg]].
  - split; [exists r; split; [done|lia]|]. exists (r_log r). split_and!; try done.
    + unfold up_to_date, log_up_to_date. rewrite N.eqb_refl, N.leb_refl. apply orb_true_r.
    + intros t k Hack Ht. destruct (no_acks t k Hack) as [?|(t1 & ? & ? & Hl)]; [lia|by left|].
      right. exists t1. split_and!; [done| |done]. destruct Hl as (ep & ep1 & _ & H1 & _).
      assert (t1 ≠ r_term r) by congruence. lia.
  - pose proof (ri_messages _ _ _ _ Hinv _ _ Hg) as (V & li & lt & HcV & HwV & Hreq & Hup & Hrem).
    split.
    + destruct (proj1 (proj1 (ri_votes _ _ _ _ Hinv)) s i _ Hg) as (v & Hv & Ht & _).
      simpl in Hv. rewrite lookup_fmap, fmap_Some in Hv. destruct Hv as (x & Hx & ->). by exists x.
    + exists V. split_and!; try done.
      * destruct (no_candidate Hr s li lt Hreq) as [-> ->]. exact Hup.
      * intros t k Hack Ht. destruct (Hrem t k Hack Ht) as [?|(t1 & ? & ? & Hl)]; [by left|].
        right. exists t1. split_and!; [done| |done]. destruct Hl as (ep & ep1 & _ & H1 & _).
        assert (t1 ≠ r_term r) by congruence. lia.
Qed.

Lemma inv_elect :
  r_role r = Candidate → (quorum members ≤ size (v_yes (r_v r)))%nat →
  ∃ G', hist_le G G' ∧
    r_inv G' (after [] (with_v (mkV (r_term r) (v_vote (r_v r)) Leader (v_votes (r_v r))) r)).
Proof.
  intros Hr Hq. pose proof (elect_fresh Hr Hq) as Hn. pose proof (ri_nodes _ _ _ _ Hinv i r Hi) as [].
  set (ep := mkEpoch i (r_log r) (r_log r)). set (G' := <[r_term r := ep]> G).
  set (r' := with_v _ r).
  assert (Hle : hist_le G G') by (by apply hist_le_insert).
  assert (Hgr : grows members G G' soup nodes i r [] r').
  { split; try done.
    - simpl. intros s t k. rewrite app_nil_r. intros [?|(-> & -> & _)]%acked_insert; auto.
    - intros t ep' Ht Hne. unfold G'. rewrite lookup_insert_ne by congruence. done. }
  exists G'. split; [done|].
  eapply (inv_frame members peers); [exact Hinv|exact Hgr|by constructor| | |by intros ? ?%not_elem_of_nil].
  - simpl. rewrite app_nil_r. split; try done.
    + by eapply consistent_mono.
    + intros _. exists ep. unfold G'. by rewrite lookup_insert_eq.
    + by apply own_remembers.
    + rewrite <- (app_nil_r soup). eapply (stable_mono members peers); [done|apply N.le_refl|done].
    + rewrite <- (app_nil_r soup). eapply (stable_mono members peers); [done|apply N.le_refl|done].
  - intros t ep' Ht. unfold G' in Ht. destruct (decide (t = r_term r)) as [->|Hne];
      [|rewrite lookup_insert_ne in Ht by done; by left].
    rewrite lookup_insert_eq in Ht. injection Ht as <-. right.
    assert (Hstep : ∀ s V, reached nodes s (r_term r) → remembers G soup s (r_term r) (r_term r) V →
      remembers G' (soup ++ ((λ e, (i, e)) <$> [])) s (r_term r) (r_term r) V).
    { intros s V Hs Hrem. by eapply remembers_step. }
    split; simpl; try done.
    + by apply fresh_terms.
    + intros j e Hj He. apply lookup_lt_Some in He. lia.
    + by eapply consistent_mono.
    + rewrite app_nil_r. by apply candidate_certificate.
    + exists r'. rewrite lookup_insert_eq. split; [done|]. right. done.
    + exists (v_yes (r_v r)). split; [done|]. intros s Hs.
      destruct (elected_by s Hr Hn Hs) as (Hre & V & HcV & HwV & Hup & Hrem).
      split_and!; [by apply candidate_votes|by eapply reached_step|]. exists V.
      split_and!; try done; [by eapply consistent_mono|by apply Hstep].
Qed.

(** ** Appending *)

Lemma append_own_wf c :
  log_wf (r_log r ++ [mkEntry (r_term r) (N.of_nat (length (r_log r)) + 1) c]).
Proof.
  pose proof (ri_nodes _ _ _ _ Hinv i r Hi) as []. unfold log_wf, validate_suffix in *.
  rewrite validate_loop_app, no_wf. simpl. unfold index_next.
  rewrite (proj2 (N.eqb_eq _ _)) by lia. simpl.
  change (match last (r_log r) with Some e => e_term e | None => 0 end) with (log_term (r_log r)).
  assert (Hle : log_term (r_log r) <= r_term r).
  { unfold log_term. destruct (last (r_log r)) as [e|] eqn:El; [|lia].
    apply log_term_last in El as [He _]. by apply (proj1 (Forall_lookup _ _) no_terms _ _ He). }
  by apply N.ltb_ge in Hle as ->.
Qed.

Lemma inv_own c :
  r_role r = Leader →
  let r' := mkR (r_v r) (r_log r ++ [mkEntry (r_term r) (N.of_nat (length (r_log r)) + 1) c])
              (r_commit r) (r_saved r) in
  ∃ G', hist_le G G' ∧ r_inv G' (after [] r').
Proof.
  intros Hr r'. pose proof (append_own_wf c) as Hwf. pose proof (ri_nodes _ _ _ _ Hinv i r Hi) as [].
  destruct (no_leader Hr) as (ep & Hep & Hid & Hlog). pose proof (ri_epochs _ _ _ _ Hinv _ _ Hep) as Heo.
  set (e := mkEntry _ _ c) in *. set (L := r_log r ++ [e]) in *.
  assert (Hpre : r_log r `prefix_of` L) by (by apply prefix_app_r).
  set (ep' := mkEpoch i (ep_start ep) L). set (G' := <[r_term r := ep']> G).
  assert (Hle : hist_le G G').
  { intros u epu Hu. unfold G'. destruct (decide (u = r_term r)) as [->|Hne].
    - assert (epu = ep) as -> by congruence. exists ep'. rewrite lookup_insert_eq. by rewrite Hlog.
    - exists epu. by rewrite lookup_insert_ne. }
  assert (HcL : consistent G' L).
  { intros k x Hx. unfold L in Hx. apply lookup_app_Some in Hx as [Hx|[Hk Hx]].
    - destruct (consistent_mono _ _ _ Hle no_consistent k x Hx) as (epx & Hepx & Hp). exists epx.
      split; [done|]. apply lookup_lt_Some in Hx. unfold L. by rewrite take_app_le by lia.
    - apply list_lookup_singleton_Some in Hx as [Hk0 <-]. exists ep'. unfold G'. simpl.
      rewrite lookup_insert_eq. split; [done|]. apply prefix_take. }
  assert (Hgr : grows members G G' soup nodes i r [] r').
  { split; try done.
    - intros Hc. by right.
    - simpl. intros s t k. rewrite app_nil_r. intros [?|(-> & -> & _)]%acked_insert; auto.
    - intros t ep0 Ht Hne. unfold G'. rewrite lookup_insert_ne by congruence. done. }
  exists G'. split; [done|].
  assert (Hst : ∀ n, stable members G soup (r_term r) (r_log r) n →
    stable members G' (soup ++ []) (r_term r) L n).
  { intros n Hs. apply (stable_prefix _ _ _ _ (r_log r)).
    - by eapply (stable_mono members peers); [done|apply N.le_refl|].
    - etransitivity; [apply prefix_take|done]. }
  eapply (inv_frame members peers); [exact Hinv|exact Hgr|by constructor| | |by intros ? ?%not_elem_of_nil].
  - simpl. split; try done.
    + apply Forall_app. split; [done|]. repeat constructor. simpl. unfold r_term. simpl. lia.
    + intros _. exists ep'. unfold G', r_term. simpl. by rewrite lookup_insert_eq.
    + intros Hc. unfold r_role in *. simpl in Hc. congruence.
    + rewrite app_nil_r. by apply own_remembers.
    + by apply Hst.
    + by apply Hst.
  - intros t ep0 Ht. unfold G' in Ht. destruct (decide (t = r_term r)) as [->|Hne];
      [|rewrite lookup_insert_ne in Ht by done; by left].
    rewrite lookup_insert_eq in Ht. injection Ht as <-. right.
    destruct (epoch_step members peers G G' soup nodes i r [] r' Hgr _ _ Heo) as [H1 H2 H3 _ _ H6 H7 H8].
    rewrite Hid in H6, H7. rewrite Hlog in H1, H3. split; simpl; try done.
    + by etransitivity.
    + intros j x Hj Hx. apply lookup_app_Some in Hx as [Hx|[_ Hx]]; [by eapply H3|].
      by apply list_lookup_singleton_Some in Hx as [_ <-].
Qed.

Lemma epoch_terms t ep : G !! t = Some ep → terms_upto t (ep_log ep).
Proof.
  intros Hep. pose proof (ri_epochs _ _ _ _ Hinv _ _ Hep) as Heo. apply Forall_lookup. intros j e He.
  destruct (decide (length (ep_start ep) ≤ j)%nat) as [Hj|Hj].
  - by rewrite (eo_own _ _ _ _ _ _ _ Heo j e Hj He).
  - destruct (lookup_lt_is_Some_2 (ep_start ep) j) as [x Hx]; [lia|].
    pose proof (prefix_lookup_Some _ _ _ _ Hx (eo_start _ _ _ _ _ _ _ Heo)) as Hx'.
    assert (x = e) as -> by congruence.
    pose proof (proj1 (Forall_lookup _ _) (eo_below _ _ _ _ _ _ _ Heo) _ _ Hx) as Hlt. simpl in Hlt. lia.
Qed.

(** *** Accepting entries *)

Section accept.
Context (from : NodeId) (k : nat) (plt : Term) (es : Log) (lc : LogIndex) (ep : Epoch).
Hypothesis Hep : G !! r_term r = Some ep.
Hypothesis Htb : term_before (r_log r) k = Some plt.
Hypothesis Htb' : term_before (ep_log ep) k = Some plt.
Hypothesis Hseg : take k (ep_log ep) ++ es `prefix_of` ep_log ep.

Local Abbreviation L' := (merge_at (r_log r) k es).
Local Abbreviation X := (take k (ep_log ep) ++ es).

Lemma accepted :
  X `prefix_of` L' ∧ (L' = r_log r ∨ L' = X) ∧
  ∀ P, P `prefix_of` r_log r → P `prefix_of` ep_log ep → P `prefix_of` L'.
Proof.
  pose proof (ri_nodes _ _ _ _ Hinv i r Hi) as [].
  pose proof (eo_consistent _ _ _ _ _ _ _ (ri_epochs _ _ _ _ Hinv _ _ Hep)) as Hc.
  apply merge_at_spec; [|by eapply consistent_term_before|by eapply term_before_le|done].
  intros j a b. by apply (consistent_lookup G).
Qed.

Lemma accepted_length :
  length X = (k + length es)%nat ∧ (k + length es ≤ length (ep_log ep))%nat ∧ (k + length es ≤ length L')%nat.
Proof.
  pose proof (term_before_le _ _ _ Htb') as Hk. destruct accepted as (Hcover & _).
  pose proof (prefix_length _ _ Hcover) as H1. pose proof (prefix_length _ _ Hseg) as H2.
  rewrite length_app, length_take in *. lia.
Qed.

Lemma accepted_log : log_wf L' ∧ consistent G L' ∧ terms_upto (r_term r) L'.
Proof.
  pose proof (ri_nodes _ _ _ _ Hinv i r Hi) as []. pose proof (ri_epochs _ _ _ _ Hinv _ _ Hep) as Heo.
  destruct accepted as (_ & [E|E] & _); rewrite E; [done|]. split_and!.
  - eapply log_wf_prefix; [done|by eapply eo_wf].
  - eapply consistent_prefix; [done|by eapply eo_consistent].
  - pose proof (epoch_terms _ _ Hep) as Ht. destruct Hseg as [x Hx]. rewrite Hx in Ht.
    by apply Forall_app in Ht as [? _].
Qed.

(** The first entries of the leader's log are there, as many as the message covers. *)
Lemma accepted_leader n : (n ≤ k + length es)%nat → take n (ep_log ep) `prefix_of` L'.
Proof.
  intros Hn. destruct accepted_length as (HX & _). destruct accepted as (Hcover & _).
  etransitivity; [|exact Hcover]. apply take_prefix_of; [done|lia].
Qed.

Lemma accepted_stable c :
  stable members G soup (r_term r) (r_log r) c → stable members G soup (r_term r) L' c.
Proof.
  intros Hs. apply (stable_prefix _ _ _ _ (r_log r)); [done|]. apply accepted; [apply prefix_take|].
  by apply (stable_in_log members peers G (mkRNet nodes soup) (r_term r) (r_log r) c (r_term r) ep).
Qed.

Lemma accepted_acks t n :
  acked G soup i t n → t < r_term r + 1 →
  held G t n L' ∨ ∃ t1, t < t1 ∧ t1 < r_term r + 1 ∧ lost G t n t1.
Proof.
  pose proof (ri_nodes _ _ _ _ Hinv i r Hi) as []. pose proof (ri_epochs _ _ _ _ Hinv _ _ Hep) as Heo.
  intros Hack Ht. destruct (no_acks t n Hack Ht) as [(ep0 & Hep0 & Hn & Hp)|?]; [|by right].
  destruct (decide (take n (ep_log ep0) `prefix_of` ep_log ep)) as [HpLL|Hno].
  - left. exists ep0. split_and!; [done|done|by apply accepted].
  - right. exists (r_term r). assert (t ≠ r_term r).
    { intros ->. assert (ep0 = ep) as -> by congruence. apply Hno, prefix_take. }
    split_and!; [lia|lia|]. exists ep0, ep. split_and!; try done. intros Hs. apply Hno.
    etransitivity; [exact Hs|]. by eapply eo_start.
Qed.

Lemma accepted_commit :
  (N.to_nat lc ≤ k + length es)%nat → stable members G soup (r_term r) (ep_log ep) (N.to_nat lc) →
  stable members G soup (r_term r) L'
    (if (r_commit r <? N.to_nat lc)%nat then Nat.min (N.to_nat lc) (length L') else r_commit r).
Proof.
  intros Hlc Hst. pose proof (ri_nodes _ _ _ _ Hinv i r Hi) as []. destruct accepted_length as (_ & _ & Hl).
  case_if; [|by apply accepted_stable]. rewrite Nat.min_l by lia.
  apply (stable_prefix _ _ _ _ (ep_log ep)); [done|]. by apply accepted_leader.
Qed.
End accept.

Lemma inv_accept from k plt es lc commit' :
  r_role r = Follower →
  (from, mkEnvelope i (AppendEntries (r_term r) (N.of_nat k) plt es lc)) ∈ soup →
  term_before (r_log r) k = Some plt →
  commit' = (if (r_commit r <? N.to_nat lc)%nat
             then Nat.min (N.to_nat lc) (length (merge_at (r_log r) k es)) else r_commit r) →
  r_inv G (after [mkEnvelope from (AppendEntriesResp (r_term r) true (N.of_nat (k + length es)))]
             (mkR (r_v r) (merge_at (r_log r) k es) commit' (r_saved r))).
Proof.
  intros Hr Hin Htb ->. pose proof (ri_nodes _ _ _ _ Hinv i r Hi) as [].
  pose proof (ri_messages _ _ _ _ Hinv _ _ Hin) as Hmsg. unfold message_ok in Hmsg. simpl in Hmsg.
  rewrite Nat2N.id in Hmsg. destruct Hmsg as (ep & Hep & Htb' & Hseg & Hlc & Hst).
  destruct (accepted_length k plt es ep) as (_ & Hlen & _); [done..|].
  destruct (accepted_log k plt es ep) as (Hwf' & Hc' & Ht'); [done..|].
  set (m := mkEnvelope from _). set (r' := mkR _ _ _ _).
  assert (Hnew : ∀ s t n, acked G (soup ++ ((λ e, (i, e)) <$> [m])) s t n →
    acked G soup s t n ∨ (s = i ∧ t = r_term r ∧ (n ≤ k + length es)%nat)).
  { intros s t n [(c & mi & Hc & Hn)|?]; [|by left; right].
    apply elem_of_app in Hc as [Hc|Hc]; [left; left; by exists c, mi|].
    apply list_elem_of_singleton in Hc. injection Hc as -> _ -> ->. right. split_and!; [done|done|lia]. }
  assert (Hst' : ∀ c, stable members G soup (r_term r) (r_log r') c →
    stable members G (soup ++ ((λ e, (i, e)) <$> [m])) (r_term r') (r_log r') c).
  { intros c. eapply (stable_mono members peers); [exact (hist_le_refl G)|apply N.le_refl]. }
  eapply (inv_frame members peers); [exact Hinv| |by econstructor| |by left|].
  - split; try done; [by right|]. intros s t n [?|(-> & -> & _)]%Hnew; auto.
  - split; try done; [by intros Hl; unfold r_role in *; simpl in Hl; congruence..| | |].
    + change (r_term r') with (r_term r). intros t n [Hack|(_ & -> & Hn)]%Hnew Ht.
      * by apply (accepted_acks k plt es ep).
      * left. exists ep. split_and!; [done|lia|by eapply accepted_leader].
    + by eapply Hst', accepted_commit.
    + by eapply Hst', accepted_stable.
  - intros e ->%list_elem_of_singleton. unfold m, message_ok. simpl. split.
    + exists r'. rewrite lookup_insert_eq. split; [done|apply N.le_refl].
    + exists ep. split; [done|]. lia.
Qed.
End log_steps.

(** ** Runs *)

Lemma r_inv_step G net net' :
  peers_complete members peers → r_inv G net → r_step members peers net net' →
  ∃ G', hist_le G G' ∧ r_inv G' net'.
Proof.
  intros Hp Hinv Hstep. destruct Hstep as [[nodes soup] i r out r' Hi Him Hact]. simpl in *.
  assert (Hsame : ∀ n, r_inv G n → ∃ G', hist_le G G' ∧ r_inv G' n) by (intros n Hn; by exists G).
  destruct Hact.
  - by apply Hsame, inv_other.
  - by apply Hsame, inv_adopt.
  - by apply Hsame, inv_demote.
  - by apply Hsame, inv_restart.
  - by eapply Hsame, inv_grant.
  - by apply Hsame, inv_tally.
  - by apply inv_elect.
  - by apply Hsame, inv_campaign.
  - by apply inv_own.
  - by apply Hsame, inv_commit.
  - by apply Hsame, inv_save.
  - by apply Hsame, inv_send.
  - by eapply Hsame, inv_accept.
Qed.

Lemma r_inv_steps G net net' :
  peers_complete members peers → r_inv G net → rtc (r_step members peers) net net' →
  ∃ G', hist_le G G' ∧ r_inv G' net'.
Proof.
  intros Hp Hinv Hr. revert G Hinv. induction Hr as [net|net1 net2 net3 Hs _ IH]; intros G Hinv.
  - by exists G.
  - destruct (r_inv_step _ _ _ Hp Hinv Hs) as (G1 & H1 & Hinv1).
    destruct (IH G1 Hinv1) as (G2 & H2 & Hinv2). exists G2. split; [by etransitivity|done].
Qed.

(** Servers that start with nothing. *)
Definition r_initial (net : RNet) : Prop :=
  rn_soup net = [] ∧
  ∀ i r, rn_nodes net !! i = Some r →
    i ∈ members ∧ r_role r = Follower ∧ r_log r = [] ∧ r_commit r = 0%nat ∧ r_saved r = 0%nat.

Lemma r_inv_initial net : r_initial net → r_inv ∅ net.
Proof.
  intros [Hs Hn]. split.
  - apply v_inv_initial. split; [done|]. intros i v. simpl. rewrite lookup_fmap, fmap_Some.
    intros (r & Hr & ->). by destruct (Hn i r Hr) as (_ & ? & _).
  - intros i r Hr. by destruct (Hn i r Hr).
  - intros i r Hr. destruct (Hn i r Hr) as (_ & Hrole & Hl & Hc & Hsv). rewrite Hs. split.
    all: rewrite ?Hl, ?Hc, ?Hsv, ?Hrole; try done.
    + apply Forall_nil. done.
    + intros t k [(c & mi & Hin & _)|(ep & Hep & _)]; [by apply not_elem_of_nil in Hin|done].
    + split; [done|by left].
    + split; [done|by left].
  - done.
  - intros s e. rewrite Hs. by intros ?%not_elem_of_nil.
Qed.
End steps.
