(* ===== verification/RaftSafety.v ===== *)
(** * Safety of the Raft nodes

    The nodes of [RaftNode], over any storage that keeps the contract of [RaftLog], refine
    the protocol of [Consensus]: every event of a node that does not install a snapshot is a
    sequence of its actions.  With it hold for a cluster that starts with empty logs: log
    matching, leader completeness and state machine safety. *)

From S2P Require Import Prelude RaftLog RaftNode Voting RaftElection Consensus ConsensusSafety.

Local Open Scope N_scope.

(** ** Nodes as servers of the protocol *)

Section refinement.
Context {S : Type} `{RaftStorageSpec S}.
Context (members : list NodeId) (peers : NodeId → list NodeId).
Implicit Types n : RaftNode S.

Definition node_log (n : RaftNode S) : Log := lv_entries (st_view (storage n)).

Definition rproj (n : RaftNode S) : RState :=
  mkR (vproj n) (node_log n) (N.to_nat (commit_index n))
    (N.to_nat (hs_commit_index (hard_state (storage n)))).

(** The log was never compacted. *)
Definition whole (n : RaftNode S) : Prop := lv_base (st_view (storage n)) = 0.

(** What a leader notes about its peers is true. *)
Definition noted soup (i : NodeId) (n : RaftNode S) : Prop :=
  role n = Leader →
  (∀ p k, match_index n !! p = Some k → k ≠ 0 →
     p ∈ members ∧ ((p = i ∧ k <= last_index (storage n)) ∨
                    confirmed soup p i (term n) (N.to_nat k))) ∧
  (∀ p k, next_index n !! p = Some k → 1 <= k ∧ k <= last_index (storage n) + 1).

Definition rnode soup (i : NodeId) (n : RaftNode S) : Prop :=
  node_ok members peers i n ∧ whole n ∧ noted soup i n.

Lemma whole_view n : st_inv (storage n) → whole n → st_view (storage n) = mkView 0 0 (node_log n).
Proof.
  intros Hi Hw. destruct (st_view_wf _ Hi) as [_ Hb]. unfold whole, node_log in *.
  destruct (st_view (storage n)) as [b t es]. simpl in *. subst. by rewrite Hb.
Qed.

Lemma whole_last n :
  st_inv (storage n) → whole n →
  last_index (storage n) = N.of_nat (length (node_log n)) ∧ last_term (storage n) = log_term (node_log n).
Proof.
  intros Hi Hw. rewrite last_index_view, last_term_view, (whole_view n Hi Hw) by done.
  split; [|done]. unfold lv_last. simpl. lia.
Qed.

Lemma whole_term_at n k :
  st_inv (storage n) → whole n → term_at (storage n) k = term_before (node_log n) (N.to_nat k).
Proof.
  intros Hi Hw. rewrite term_at_view, (whole_view n Hi Hw) by done. unfold lv_term, lv_entry. simpl.
  destruct (k =? 0) eqn:E; bool_to_prop; [by subst|].
  rewrite (proj2 (N.leb_gt k 0)) by lia. destruct (N.to_nat k) as [|j] eqn:Ek; [lia|]. simpl.
  do 2 f_equal. lia.
Qed.

Lemma whole_entry_at n k :
  st_inv (storage n) → whole n → 0 < k → entry_at (storage n) k = node_log n !! N.to_nat (k - 1).
Proof.
  intros Hi Hw Hk. rewrite entry_at_view, (whole_view n Hi Hw) by done. unfold lv_entry. simpl.
  rewrite (proj2 (N.leb_gt k 0)) by lia. f_equal. lia.
Qed.

(** Several actions of one server against a fixed soup. *)
Inductive r_run soup (i : NodeId) : RState → list Envelope → RState → Prop :=
| rr_nil r : r_run soup i r [] r
| rr_cons r o1 r1 o2 r2 :
    r_action members peers soup i r o1 r1 → r_run soup i r1 o2 r2 →
    r_run soup i r (o1 ++ o2) r2.

Lemma r_run_one soup i r o r' : r_action members peers soup i r o r' → r_run soup i r o r'.
Proof. intros Ha. rewrite <- (app_nil_r o). eapply rr_cons; [done|constructor]. Qed.

Lemma r_run_trans soup i r o1 r1 o2 r2 :
  r_run soup i r o1 r1 → r_run soup i r1 o2 r2 → r_run soup i r (o1 ++ o2) r2.
Proof.
  induction 1 as [|r o1 r1 o2' r2' Ha _ IH]; intros Hr; [done|].
  rewrite <- app_assoc. eapply rr_cons; eauto.
Qed.

Lemma r_action_soup soup es i r o r' :
  r_action members peers soup i r o r' → r_action members peers (soup ++ es) i r o r'.
Proof.
  destruct 1 as [| | | |r c li lt Hv Hin Hup|r f g Hr Hf Hin| | | |r k Hr Ht Hk Hev| | |r f k plt es' lc c Hr Hin Ht Hc];
    try (by constructor).
  - apply (ra_grant _ _ _ _ r c li lt); [done|set_solver|done].
  - apply ra_tally; [done|done|set_solver].
  - apply ra_commit; [done..|]. destruct Hev as (Q & Hq & HQ). exists Q. split; [done|].
    intros s Hs. destruct (HQ s Hs) as [? [?|?]]; auto using confirmed_app.
  - apply (ra_accept _ _ _ _ r f k plt es' lc); [done|set_solver|done..].
Qed.

Lemma r_run_steps soup i r o r' nodes :
  r_run soup i r o r' → i ∈ members → nodes !! i = Some r →
  rtc (r_step members peers) (mkRNet nodes soup)
    (mkRNet (<[i := r']> nodes) (soup ++ ((λ e, (i, e)) <$> o))).
Proof.
  intros Hr Him. revert nodes.
  cut (∀ es nodes, nodes !! i = Some r →
    rtc (r_step members peers) (mkRNet nodes (soup ++ es))
      (mkRNet (<[i := r']> nodes) ((soup ++ es) ++ ((λ e, (i, e)) <$> o)))).
  { intros Hc nodes Hn. specialize (Hc [] nodes Hn). by rewrite app_nil_r in Hc. }
  induction Hr as [r|r o1 r1 o2 r2 Ha _ IH]; intros es nodes Hn.
  - simpl. rewrite app_nil_r, insert_id by done. apply rtc_refl.
  - eapply rtc_l.
    { eapply rs_action; [exact Hn|done|]. by apply r_action_soup. }
    simpl. rewrite fmap_app, app_assoc.
    specialize (IH (es ++ ((λ e, (i, e)) <$> o1)) (<[i := r1]> nodes)).
    rewrite lookup_insert_eq, insert_insert_eq, !app_assoc in IH. by apply IH.
Qed.

(** [n'] comes from [n] by actions that send what was added to the outbox. *)
Definition moves soup (i : NodeId) (n n' : RaftNode S) : Prop :=
  rnode soup i n → rnode soup i n' ∧
  ∃ out, outbox n' = outbox n ++ out ∧ r_run soup i (rproj n) out (rproj n').

#[export] Instance moves_refl soup i : Reflexive (moves soup i).
Proof. intros n Hok. split; [done|]. exists []. rewrite app_nil_r. split; [done|constructor]. Qed.

#[export] Instance moves_trans soup i : Transitive (moves soup i).
Proof.
  intros n1 n2 n3 H12 H23 Hok. destruct (H12 Hok) as (Hok2 & o1 & E1 & R1).
  destruct (H23 Hok2) as (Hok3 & o2 & E2 & R2). split; [done|]. exists (o1 ++ o2).
  split; [by rewrite E2, E1, app_assoc|]. by eapply r_run_trans.
Qed.

Lemma moves_action soup i n n' out :
  (rnode soup i n → st_inv (storage n') ∧ config n' = config n ∧ whole n' ∧ noted soup i n' ∧
     outbox n' = outbox n ++ out ∧ r_action members peers soup i (rproj n) out (rproj n')) →
  moves soup i n n'.
Proof.
  intros Ha Hok. destruct (Ha Hok) as (Hi & Hc & Hw & Hn & Ho & Hr).
  split; [|exists out; split; [done|by apply r_run_one]].
  destruct Hok as ((_ & Hid & Hp) & _). split; [|done]. unfold node_ok. by rewrite Hc.
Qed.

Lemma moves_known soup i n n' : (rnode soup i n → moves soup i n n') → moves soup i n n'.
Proof. intros Hm Hok. by apply Hm. Qed.

(** Changes the protocol does not see. *)
Definition unseen (n n' : RaftNode S) : Prop :=
  storage n' = storage n ∧ config n' = config n ∧ role n' = role n ∧ votes n' = votes n ∧
  commit_index n' = commit_index n ∧ match_index n' = match_index n ∧ next_index n' = next_index n ∧
  outbox n' = outbox n.

Lemma unseen_moves soup i n n' : unseen n n' → moves soup i n n'.
Proof.
  intros (Hs & Hc & Hr & Hv & Hci & Hm & Hx & Ho). apply (moves_action _ _ _ _ []).
  intros ((Hi & Hok) & Hw & Hn). rewrite app_nil_r.
  assert (Hp : rproj n' = rproj n) by (unfold rproj, vproj, term, node_log; by rewrite Hs, Hr, Hv, Hci).
  rewrite Hp, Hs. split_and!; try done.
  - unfold whole. by rewrite Hs.
  - unfold noted, term. by rewrite Hr, Hm, Hx, Hs.
  - by apply ra_other.
Qed.

(** Sending a refusal. *)
Lemma moves_refuse soup i n to m : inert (mkEnvelope to m) → moves soup i n (send to m n).
Proof.
  intros Hm. apply (moves_action _ _ _ _ [mkEnvelope to m]). intros ((Hi & _) & Hw & Hn).
  split_and!; try done. apply ra_other. by repeat constructor.
Qed.
End refinement.

(** ** The operations *)

Section operations.
Context {S : Type} `{RaftStorageSpec S}.
Context (members : list NodeId) (peers : NodeId → list NodeId) (soup : list (NodeId * Envelope)) (i : NodeId).
Implicit Types n : RaftNode S.

Local Abbreviation moves := (moves (S := S) members peers soup i).
Local Abbreviation rnode := (rnode (S := S) members peers soup i).
Local Abbreviation noted := (noted (S := S) members soup i).

(** A new storage of the same term whose log does not end earlier. *)
Lemma noted_storage n s' :
  st_inv (storage n) → st_inv s' → lv_last (st_view (storage n)) <= lv_last (st_view s') →
  current_term (hard_state s') = term n → noted n → noted (set_storage s' n).
Proof.
  intros Hi Hi' Hl Ht Hn Hr. destruct (Hn Hr) as [Hm Hx]. simpl.
  rewrite (last_index_view (storage n) Hi) in Hm, Hx. rewrite (last_index_view s' Hi').
  change (term (set_storage s' n)) with (current_term (hard_state s')). rewrite Ht. split.
  - intros p k Hp Hk. destruct (Hm p k Hp Hk) as [? [[? ?]|?]]; (split; [done|]); [left; split; [done|lia]|by right].
  - intros p k Hp. specialize (Hx p k Hp). lia.
Qed.

Lemma moves_persist n : moves n (persist_commit_index n).1.
Proof.
  unfold persist_commit_index. case_if; [|done]. apply (moves_action _ _ _ _ _ _ []).
  intros ((Hi & _) & Hw & Hn). rewrite app_nil_r. unfold on_storage.
  destruct (save_hard_state_ok (storage n) (mkHard (current_term (hard_state (storage n)))
    (voted_for (hard_state (storage n))) (commit_index n)) Hi) as (s' & -> & Hi' & Hv & Hh). simpl.
  split_and!; try done.
  - unfold whole. simpl. by rewrite Hv.
  - apply noted_storage; [done|done|by rewrite Hv|by rewrite Hh|done].
  - pose proof (ra_save members peers soup i (rproj n)) as Ha.
    unfold rproj, vproj, term, node_log in *. simpl. by rewrite Hv, Hh.
Qed.

(** *** The commit rule *)

Lemma advance_loop_spec n count : ∀ k c c',
  advance_loop n k c count = c' →
  c' = c ∨ (k <= c' ∧ (majority (config n) ≤ replicated n c')%nat ∧ term_at (storage n) c' = Some (term n)).
Proof.
  induction count as [|count IH]; intros k c c'; simpl; [by left|].
  unfold index_next at 1. intros Hc. destruct (_ && _)%bool eqn:E.
  - apply andb_true_iff in E as [Em Et]. bool_to_prop.
    destruct (IH _ _ _ Hc) as [->|(Hk & ? & ?)]; right; split_and!; (done || lia).
  - destruct (IH _ _ _ Hc) as [?|(Hk & ? & ?)]; [by left|]. right. split_and!; (done || lia).
Qed.

Lemma replicated_evidence n k :
  rnode n → role n = Leader → 0 < k → (majority (config n) ≤ replicated n k)%nat →
  commit_evidence members soup i (term n) (N.to_nat k).
Proof.
  intros (Hok & Hw & Hn) Hr Hk Hm. destruct (Hn Hr) as [Hmatch _].
  exists (dom (filter (λ kv, k <= kv.2) (match_index n))). split.
  - rewrite size_dom. by rewrite <- (node_ok_majority members peers i n Hok).
  - intros s [m [Hs Hle]%map_lookup_filter_Some]%elem_of_dom. simpl in Hle.
    destruct (Hmatch s m Hs) as [Hsm [[-> _]|(mi & Hin & Hmi)]]; [lia|by auto|].
    split; [done|]. right. exists mi. split; [done|lia].
Qed.

Lemma moves_advance n : role n = Leader → moves n (maybe_advance_commit n).1.
Proof.
  intros Hr. unfold maybe_advance_commit.
  set (c' := advance_loop _ _ _ _).
  destruct (advance_loop_spec n _ _ _ c' eq_refl) as [->|(Hk & Hm & Ht)]; [by rewrite N.ltb_irrefl|].
  case_if; [|done].
  transitivity (set_commit_index c' n); [|apply moves_persist].
  apply (moves_action _ _ _ _ _ _ []). intros Hrn. pose proof Hrn as ((Hi & _) & Hw & Hn).
  rewrite app_nil_r. split_and!; try done. unfold index_next in Hk.
  apply (ra_commit members peers soup i (rproj n) (N.to_nat c')); [done| |lia|].
  - rewrite (whole_term_at n c' Hi Hw) in Ht. exact Ht.
  - apply replicated_evidence; [done|done|lia|done].
Qed.

(** *** Sending entries *)

(** Steps of a leader that stays one. *)
Definition leads (n n' : RaftNode S) : Prop := role n = Leader → role n' = Leader ∧ moves n n'.

#[export] Instance leads_refl : Reflexive leads.
Proof. intros n Hr. by split. Qed.

#[export] Instance leads_trans : Transitive leads.
Proof.
  intros n1 n2 n3 H12 H23 Hr. destruct (H12 Hr) as [H2 M12]. destruct (H23 H2) as [H3 M23].
  split; [done|by etransitivity].
Qed.

Lemma peer_next_bounds n peer :
  rnode n → role n = Leader → 1 <= peer_next n peer ∧ peer_next n peer <= last_index (storage n) + 1.
Proof.
  intros (_ & _ & Hn) Hr. destruct (Hn Hr) as [_ Hx]. unfold peer_next.
  destruct (next_index n !! peer) as [k|] eqn:E; [by eapply Hx|]. unfold index_next. lia.
Qed.

Lemma leads_send_append peer n : leads n (send_append_to peer n).
Proof.
  intros Hr. split; [done|]. unfold send_append_to.
  eapply (moves_action _ _ _ _ _ _ [_]). intros Hrn. pose proof Hrn as ((Hi & _) & Hw & Hn).
  split_and!; try done. cbn [term storage set_metrics commit_index].
  destruct (peer_next_bounds n peer Hrn Hr) as [Hlo Hhi].
  destruct (whole_last n Hi Hw) as [Hl _]. set (next := peer_next n peer) in *.
  rewrite (whole_term_at n _ Hi Hw), (entries_from_view _ _ Hi), (whole_view n Hi Hw).
  unfold lv_from. cbn [lv_base lv_entries].
  set (k := N.to_nat (index_prev next)). assert (Hk : (k ≤ length (node_log n))%nat).
  { unfold k, index_prev. lia. }
  assert (Htb : is_Some (term_before (node_log n) k)).
  { destruct k as [|k']; [by eexists|]. simpl. apply fmap_is_Some, lookup_lt_is_Some. lia. }
  destruct Htb as [plt Htb]. rewrite Htb.
  replace (N.to_nat (next - 0 - 1)) with k by (unfold k, index_prev; lia).
  pose proof (ra_send members peers soup i (rproj n) peer k plt Hr Hk Htb) as Ha.
  cbn [r_commit rproj r_log] in Ha. unfold k in Ha at 1. rewrite !N2Nat.id in Ha. exact Ha.
Qed.

Lemma leads_broadcast n : leads n (broadcast_append n).
Proof. apply (foldl_rel leads). intros. apply leads_send_append. Qed.

Lemma moves_note_match n p k :
  role n = Leader →
  (rnode n → k ≠ 0 → p ∈ members ∧ ((p = i ∧ k <= last_index (storage n)) ∨ confirmed soup p i (term n) (N.to_nat k))) →
  moves n (set_match_index (<[p := k]> (match_index n)) n).
Proof.
  intros Hr Hk. apply (moves_action _ _ _ _ _ _ []). intros Hrn. specialize (Hk Hrn).
  destruct Hrn as ((Hi & _) & Hw & Hn). rewrite app_nil_r. split_and!; try done.
  - intros _. destruct (Hn Hr) as [Hm Hx]. split; [|done]. simpl. intros q m.
    destruct (decide (p = q)) as [<-|Hne].
    + rewrite lookup_insert_eq. intros [= <-]. apply Hk.
    + rewrite lookup_insert_ne by done. apply Hm.
  - by apply ra_other.
Qed.

Lemma moves_note_next n p k :
  role n = Leader → (rnode n → 1 <= k ∧ k <= last_index (storage n) + 1) →
  moves n (set_next_index (<[p := k]> (next_index n)) n).
Proof.
  intros Hr Hk. apply (moves_action _ _ _ _ _ _ []). intros Hrn. specialize (Hk Hrn).
  destruct Hrn as ((Hi & _) & Hw & Hn). rewrite app_nil_r. split_and!; try done.
  - intros _. destruct (Hn Hr) as [Hm Hx]. split; [done|]. simpl. intros q m.
    destruct (decide (p = q)) as [<-|Hne].
    + rewrite lookup_insert_eq. by intros [= <-].
    + rewrite lookup_insert_ne by done. apply Hx.
  - by apply ra_other.
Qed.

(** *** A leader's own entries *)

(** Appending an entry of its own either fails and leaves the leader as it was, or is an
    action of the protocol. *)
Lemma append_own c n :
  rnode n → role n = Leader →
  let entry := mkEntry (term n) (index_next (last_index (storage n))) c in
  (∃ e, on_storage (append [entry]) n = (n, Err e)) ∨
  ∃ s', on_storage (append [entry]) n = (set_storage s' n, Ok tt) ∧
    last_index s' = index_next (last_index (storage n)) ∧ moves n (set_storage s' n).
Proof.
  intros Hrn Hr entry. pose proof Hrn as ((Hi & _) & Hw & Hn). unfold on_storage.
  destruct (validate_suffix [entry] (lv_last (st_view (storage n))) (lv_last_term (st_view (storage n))))
    as [[]|e] eqn:Ev.
  - right. destruct (append_ok _ _ Hi Ev) as (s' & -> & Hi' & Hv & Hh). exists s'. simpl. split; [done|].
    assert (Hl : last_index s' = index_next (last_index (storage n))).
    { rewrite !last_index_view, Hv by done. unfold lv_last, index_next. simpl. rewrite length_app. simpl. lia. }
    split; [done|]. apply (moves_action _ _ _ _ _ _ []). intros _. rewrite app_nil_r. split_and!; try done.
    + unfold whole in *. simpl. by rewrite Hv.
    + apply noted_storage; [done|done| |by rewrite Hh|done].
      rewrite <- !last_index_view, Hl by done. unfold index_next. lia.
    + pose proof (ra_own members peers soup i (rproj n) c Hr) as Ha.
      destruct (whole_last n Hi Hw) as [Hlast _]. unfold entry in *. rewrite Hlast in *.
      unfold rproj, vproj, term, node_log in *. simpl in *. by rewrite Hv, Hh.
  - left. exists e. rewrite (append_err _ _ _ Hi Ev). by destruct n.
Qed.

Lemma moves_replicate {A} c (k : SE (RaftNode S) RaftError A) n :
  role n = Leader → i ∈ members → cfg_id (config n) = i → (∀ n, moves n (k n).1) →
  let index := index_next (last_index (storage n)) in
  moves n ((on_storage (append [mkEntry (term n) index c]) >>>
    se_modify (λ n, set_match_index (<[cfg_id (config n) := index]> (match_index n)) n) >>>
    maybe_advance_commit >>> se_modify broadcast_append >>> k) n).1.
Proof.
  intros Hr Him Hid Hk index. apply moves_known. intros Hrn.
  destruct (append_own c n Hrn Hr) as [[e He]|(s' & Hs' & Hl & Hm)].
  - unfold se_bind at 1. fold index in He. by rewrite He.
  - fold index in Hs', Hl. unfold se_bind at 1. rewrite Hs'.
    change (moves n ((se_modify (λ n, set_match_index (<[cfg_id (config n) := index]> (match_index n)) n) >>>
      maybe_advance_commit >>> se_modify broadcast_append >>> k) (set_storage s' n)).1).
    transitivity (set_storage s' n); [done|].
    unfold se_bind at 1, se_modify at 1. cbn [config set_storage]. rewrite Hid.
    transitivity (set_match_index (<[i := index]> (match_index (set_storage s' n))) (set_storage s' n)).
    { apply moves_note_match; [done|]. intros _ _. split; [done|]. left. split; [done|]. simpl. rewrite Hl. lia. }
    apply (se_bind_rel moves); [by apply moves_advance|]. intros [] n2 E2.
    assert (Hr2 : role n2 = Leader).
    { unfold maybe_advance_commit, persist_commit_index, on_storage in E2.
      repeat case_if; simplify_eq; done. }
    unfold se_bind, se_modify. destruct (leads_broadcast n2 Hr2) as [_ Hb].
    transitivity (broadcast_append n2); [done|apply Hk].
Qed.

(** *** The append loop *)

Lemma term_before_last (L : Log) p t :
  term_before L p = Some t → match last (take p L) with Some e => e_term e | None => 0 end = t.
Proof.
  destruct p as [|p]; simpl; [by intros [= <-]|]. rewrite fmap_Some. intros (e & He & ->).
  destruct L as [|l L]; [done|]. change (match last (take (Datatypes.S p) (l :: L)) with Some e => e_term e | None => 0 end = e_term e).
  by rewrite (take_S_r _ _ _ He), last_snoc.
Qed.

(** Appending an entry behind the first [p] entries, the rest having been cut off. *)
Lemma append_behind (L : Log) s e :
  st_inv s → st_view s = mkView 0 0 L → log_term L <= e_term e → e_index e = N.of_nat (length L) + 1 →
  ∃ s', append [e] s = (s', Ok tt) ∧ st_inv s' ∧ st_view s' = mkView 0 0 (L ++ [e]) ∧
    hard_state s' = hard_state s.
Proof.
  intros Hi Hv Ht Hidx. destruct (append_ok s [e] Hi) as (s' & Ha & Hi' & Hv' & Hh).
  - rewrite Hv. unfold validate_suffix, lv_last, lv_last_term, index_next. simpl.
    rewrite Hidx, (proj2 (N.eqb_eq _ _)) by lia. simpl.
    change (match last L with Some e => e_term e | None => 0 end) with (log_term L).
    by rewrite (proj2 (N.ltb_ge _ _)).
  - exists s'. split_and!; try done. by rewrite Hv', Hv.
Qed.

(** What the loop leaves: a storage whose log is [L], and the last index looked at. *)
Definition loop_result (n : RaftNode S) (L : Log) (last : nat) (res : RaftNode S * Result RaftError LogIndex) : Prop :=
  ∃ s', res = (set_storage s' n, Ok (N.of_nat last)) ∧ st_inv s' ∧ st_view s' = mkView 0 0 L ∧
    hard_state s' = hard_state (storage n).

(** Entries behind the end of the log are all appended. *)
Lemma append_tail es : ∀ L n,
  st_inv (storage n) → st_view (storage n) = mkView 0 0 L →
  validate_loop es (N.of_nat (length L) + 1) (log_term L) = Ok tt →
  loop_result n (L ++ es) (length L + length es) (append_loop es (N.of_nat (length L)) n).
Proof.
  induction es as [|e es IH]; intros L n Hi Hv Hval; simpl.
  { exists (storage n). rewrite Nat.add_0_r, app_nil_r. split_and!; [by destruct n|done..]. }
  simpl in Hval. destruct (negb _) eqn:E1; [done|]. destruct (_ <? _) eqn:E2; [done|]. bool_to_prop.
  unfold index_next in Hval. unfold se_bind.
  rewrite (term_at_view _ _ Hi), Hv, E1. unfold lv_term, lv_entry. simpl.
  rewrite (proj2 (N.eqb_neq _ _)), (proj2 (N.leb_gt _ _)) by lia.
  rewrite lookup_ge_None_2 by lia. simpl. unfold on_storage.
  destruct (append_behind L (storage n) e Hi Hv) as (s1 & -> & Hi1 & Hv1 & Hh1); [done..|]. simpl.
  destruct (IH (L ++ [e]) (set_storage s1 n)) as (s' & Hs' & Hi' & Hv' & Hh'); [done|done| |].
  { unfold log_term. rewrite last_snoc, length_app. simpl. rewrite <- Hval. f_equal. lia. }
  rewrite length_app in Hs'. simpl in Hs'.
  replace (N.of_nat (length L) + 1) with (N.of_nat (length L + 1)) by lia. exists s'.
  rewrite Hs'. split_and!; [do 3 f_equal; lia|done| |by rewrite Hh'].
  by rewrite Hv', <- app_assoc.
Qed.

Lemma merge_at_keep (L : Log) p e es x :
  L !! p = Some x → e_term x = e_term e → merge_at L p (e :: es) = merge_at L (Datatypes.S p) es.
Proof.
  intros Hx He. unfold merge_at. rewrite (drop_S _ _ _ Hx). simpl. rewrite He, N.eqb_refl.
  by rewrite (take_S_r _ _ _ Hx), <- app_assoc.
Qed.

Lemma merge_at_cut (L : Log) p e es x :
  L !! p = Some x → e_term x ≠ e_term e → merge_at L p (e :: es) = take p L ++ e :: es.
Proof.
  intros Hx He. unfold merge_at. rewrite (drop_S _ _ _ Hx). simpl. by rewrite (proj2 (N.eqb_neq _ _) He).
Qed.

Lemma merge_at_end (L : Log) es : merge_at L (length L) es = L ++ es.
Proof. unfold merge_at. by rewrite drop_ge, firstn_all by lia. Qed.

Lemma merge_at_nil (L : Log) p : merge_at L p [] = L.
Proof.
  unfold merge_at. destruct (drop p L) eqn:E; simpl; rewrite <- E; apply take_drop.
Qed.

(** The conflicting entry and all after it replace the rest of the log. *)
Lemma append_conflict n p e es :
  st_inv (storage n) → whole n → (p ≤ length (node_log n))%nat → log_term (take p (node_log n)) <= e_term e →
  e_index e = N.of_nat p + 1 → validate_loop es (N.of_nat p + 2) (e_term e) = Ok tt →
  loop_result n (take p (node_log n) ++ e :: es) (p + Datatypes.S (length es))
    ((on_storage (truncate_from (e_index e)) >>> on_storage (append [e]) >>> append_loop es (e_index e)) n).
Proof.
  intros Hi Hw Hp Ht Hidx Hval. unfold se_bind, on_storage. rewrite Hidx.
  assert (Hlen : length (take p (node_log n)) = p) by (rewrite length_take; lia).
  destruct (truncate_ok (storage n) (N.of_nat p + 1) Hi) as (s1 & -> & Hi1 & Hv1 & Hh1).
  { right. unfold whole in Hw. lia. }
  rewrite (whole_view n Hi Hw) in Hv1. unfold lv_truncate in Hv1. simpl in Hv1.
  replace (N.to_nat (N.of_nat p + 1 - 0 - 1)) with p in Hv1 by lia. simpl.
  destruct (append_behind _ s1 e Hi1 Hv1 Ht) as (s2 & -> & Hi2 & Hv2 & Hh2); [by rewrite Hlen|]. simpl.
  destruct (append_tail es _ (set_storage s2 n) Hi2 Hv2) as (s' & Hs' & Hi' & Hv' & Hh').
  { unfold log_term. rewrite last_snoc, length_app, Hlen. simpl. rewrite <- Hval. f_equal. lia. }
  rewrite length_app, Hlen in Hs'. simpl in Hs'. exists s'.
  replace (N.of_nat p + 1) with (N.of_nat (p + 1)) by lia.
  change (set_storage s2 (set_storage s1 n)) with (set_storage s2 n). rewrite Hs'.
  split_and!; [do 3 f_equal; lia|done| |by rewrite Hh', <- Hh1, <- Hh2].
  by rewrite Hv', <- app_assoc.
Qed.

Lemma append_loop_spec es : ∀ p pt n,
  st_inv (storage n) → whole n → term_before (node_log n) p = Some pt →
  validate_loop es (N.of_nat p + 1) pt = Ok tt →
  loop_result n (merge_at (node_log n) p es) (p + length es) (append_loop es (N.of_nat p) n).
Proof.
  induction es as [|e es IH]; intros p pt n Hi Hw Htb Hval.
  { exists (storage n). simpl. rewrite merge_at_nil, Nat.add_0_r.
    split_and!; [by destruct n|done|by apply whole_view|done]. }
  pose proof (term_before_le _ _ _ Htb) as Hp. pose proof (term_before_last _ _ _ Htb) as Hlt.
  destruct (node_log n !! p) as [x|] eqn:Ex.
  - simpl in Hval. destruct (negb _) eqn:E1; [done|]. destruct (e_term e <? pt) eqn:E2; [done|]. bool_to_prop.
    unfold index_next in Hval. cbn [append_loop]. rewrite E1 at 1. rewrite (whole_term_at n _ Hi Hw).
    replace (N.to_nat (N.of_nat p + 1)) with (Datatypes.S p) by lia. cbn [term_before]. rewrite Ex.
    cbn [fmap option_fmap option_map]. destruct (e_term x =? e_term e) eqn:Ee; bool_to_prop.
    + rewrite (merge_at_keep _ _ _ _ x) by done. unfold se_bind, se_ret. rewrite E1.
      replace (N.of_nat p + 1) with (N.of_nat (Datatypes.S p)) by lia.
      replace (p + length (e :: es))%nat with (Datatypes.S p + length es)%nat by (simpl; lia).
      apply (IH _ (e_term e)); [done|done|simpl; by rewrite Ex, <- Ee|].
      rewrite <- Hval. f_equal. lia.
    + rewrite (merge_at_cut _ _ _ _ x) by done.
      assert (Hc := append_conflict n p e es Hi Hw Hp). unfold log_term in Hc. rewrite Hlt in Hc.
      destruct Hc as (s' & Hs' & Hrest); [done|done|rewrite <- Hval; f_equal; lia|].
      exists s'. split; [|done]. cbn [length]. rewrite <- Hs'. unfold se_bind.
      by destruct (on_storage (truncate_from (e_index e)) n) as [n1 [[]|]].
  - assert (Hlen : length (node_log n) = p) by (apply lookup_ge_None in Ex; lia). subst p.
    rewrite merge_at_end. apply append_tail; [done|by apply whole_view|].
    rewrite firstn_all in Hlt. unfold log_term. by rewrite Hlt.
Qed.
End operations.

(** ** Roles and messages *)

Section handlers.
Context {S : Type} `{RaftStorageSpec S}.
Context (members : list NodeId) (peers : NodeId → list NodeId) (soup : list (NodeId * Envelope)) (i : NodeId).
Implicit Types n : RaftNode S.

Local Abbreviation moves := (moves (S := S) members peers soup i).
Local Abbreviation rnode := (rnode (S := S) members peers soup i).
Local Abbreviation noted := (noted (S := S) members soup i).

Lemma noted_no_leader n : role n ≠ Leader → noted n.
Proof. by intros Hr Hl. Qed.

(** A save of the hard state that keeps the commit index. *)
Lemma save_hard hs n :
  rnode n → ∃ s', on_storage (save_hard_state hs) n = (set_storage s' n, Ok tt) ∧
    st_inv s' ∧ whole (set_storage s' n) ∧ st_view s' = st_view (storage n) ∧ hard_state s' = hs.
Proof.
  intros ((Hi & _) & Hw & _). unfold on_storage.
  destruct (save_hard_state_ok (storage n) hs Hi) as (s' & -> & Hi' & Hv & Hh). exists s'. simpl.
  split_and!; try done. unfold whole in *. simpl. by rewrite Hv.
Qed.

Lemma moves_become_follower t l n : moves n (become_follower t l n).1.
Proof.
  apply moves_known. intros Hrn. unfold become_follower, se_bind, se_modify. case_if; bool_to_prop.
  - destruct (save_hard (mkHard t None (hs_commit_index (hard_state (storage n)))) n Hrn)
      as (s' & -> & Hi' & Hw' & Hv & Hh).
    apply (moves_action _ _ _ _ _ _ []). intros _.
    pose proof (ra_adopt members peers soup i (rproj n) t Heqb) as Ha.
    destruct l; simpl; rewrite app_nil_r; (split_and!; try done); unfold rproj, vproj, term, node_log in *;
      simpl; by rewrite Hv, Hh.
  - apply (moves_action _ _ _ _ _ _ []). intros ((Hi & _) & Hw & _).
    pose proof (ra_demote members peers soup i (rproj n)) as Ha.
    by destruct l; simpl; rewrite app_nil_r.
Qed.

Lemma become_follower_result t l n :
  rnode n → ∃ n', become_follower t l n = (n', Ok tt) ∧ role n' = Follower ∧
    (t <= term n → storage n' = storage n).
Proof.
  intros Hrn. unfold become_follower, se_bind, se_modify. case_if; bool_to_prop.
  - destruct (save_hard (mkHard t None (hs_commit_index (hard_state (storage n)))) n Hrn) as (s' & -> & _).
    simpl. destruct l; eexists; (split_and!; [done|done|unfold term; lia]).
  - simpl. destruct l; eexists; by split_and!.
Qed.

Lemma init_peers_spec last n :
  let n' := init_peers last n in
  storage n' = storage n ∧ config n' = config n ∧ role n' = role n ∧ votes n' = votes n ∧
  commit_index n' = commit_index n ∧ outbox n' = outbox n ∧
  (∀ p k, match_index n' !! p = Some k → k = 0) ∧
  (∀ p k, next_index n' !! p = Some k → k = index_next last).
Proof.
  unfold init_peers. set (n0 := set_match_index ∅ _).
  assert (H0' : storage n0 = storage n ∧ config n0 = config n ∧ role n0 = role n ∧ votes n0 = votes n ∧
    commit_index n0 = commit_index n ∧ outbox n0 = outbox n ∧
    (∀ p k, match_index n0 !! p = Some k → k = 0) ∧
    (∀ p k, next_index n0 !! p = Some k → k = index_next last)) by (by split_and!).
  generalize (cfg_peers (config n)) as ps. clearbody n0. intros ps. revert n0 H0'.
  induction ps as [|p ps IH]; intros n0 (Hs & Hc & Hr & Hv & Hci & Ho & Hm & Hx); simpl; [done|].
  apply IH. simpl. split_and!; try done.
  - intros q k. destruct (decide (p = q)) as [<-|Hne]; [rewrite lookup_insert_eq|rewrite lookup_insert_ne by done]; [by intros [= <-]|apply Hm].
  - intros q k. destruct (decide (p = q)) as [<-|Hne]; [rewrite lookup_insert_eq|rewrite lookup_insert_ne by done]; [by intros [= <-]|apply Hx].
Qed.

Lemma moves_become_leader n :
  role n = Candidate → (majority (config n) ≤ yes_votes n)%nat → moves n (become_leader n).1.
Proof.
  intros Hr Hm. apply moves_known. intros Hrn. pose proof Hrn as (Hok & Hw & _).
  pose proof Hok as (Hi & Hid & _ & Him & _). unfold become_leader. cbv zeta. set (n0 := set_heartbeat_elapsed 0 _).
  destruct (init_peers_spec (last_index (storage n0)) n0) as (Hs & Hc & Hro & Hv & Hci & Ho & Hma & Hne).
  set (n1 := init_peers _ n0) in *. set (n2 := set_match_index _ n1).
  assert (Hn2 : moves n n2).
  { apply (moves_action _ _ _ _ _ _ []). intros _. rewrite app_nil_r. unfold n2. cbn [storage set_match_index config outbox].
    rewrite Hs, Hc, Ho. split_and!; try done.
    - unfold whole in *. simpl. by rewrite Hs.
    - intros _. cbn [match_index set_match_index next_index storage]. rewrite Hs. split.
      + intros p k. destruct (decide (cfg_id (config n0) = p)) as [<-|Hnep].
        * rewrite lookup_insert_eq. intros [= <-] _. split; [by rewrite <- Hid in Him|]. left. split; [done|]. simpl. lia.
        * rewrite lookup_insert_ne by done. intros Hk Hk0. by apply Hma in Hk.
      + intros p k Hk%Hne. subst k. unfold index_next. lia.
    - assert (Hp : rproj (set_match_index (<[cfg_id (config n1) := last_index (storage n1)]> (match_index n1)) n1) =
        with_v (mkV (r_term (rproj n)) (v_vote (r_v (rproj n))) Leader (v_votes (r_v (rproj n)))) (rproj n)).
      { unfold rproj, vproj, term, node_log, with_v. simpl. by rewrite Hs, Hro, Hv, Hci. }
      rewrite Hs, Hc in Hp. rewrite Hp. apply ra_elect; [done|]. unfold v_yes. rewrite size_dom.
      by rewrite <- (node_ok_majority _ _ i n Hok). }
  transitivity n2; [done|].
  assert (Hcfg : cfg_id (config n2) = i) by (unfold n2; simpl; by rewrite Hc).
  assert (Hlast : last_index (storage n0) = last_index (storage n2)) by (unfold n2; simpl; by rewrite Hs).
  rewrite Hlast.
  apply (moves_replicate members peers soup i command_noop (se_ret tt) n2); done.
Qed.

Lemma request_votes_rproj t li lt n :
  let n' := request_votes t li lt n in
  outbox n' = outbox n ++ ((λ p, mkEnvelope p (RequestVote t li lt)) <$> cfg_peers (config n)) ∧
  storage n' = storage n ∧ config n' = config n ∧ role n' = role n ∧ rproj n' = rproj n.
Proof.
  unfold request_votes. generalize (cfg_peers (config n)) as ps. intros ps. revert n.
  induction ps as [|p ps IH]; intros n; simpl; [by rewrite app_nil_r|].
  destruct (IH (send p (RequestVote t li lt) n)) as (-> & -> & -> & -> & ->).
  simpl. by rewrite <- app_assoc.
Qed.

Lemma moves_campaign n : moves n (campaign n).
Proof.
  apply moves_known. intros Hrn. pose proof Hrn as (Hok & Hw & _). pose proof Hok as (Hi & Hid & Hp & Him & Hl).
  unfold campaign. cbv zeta. match goal with |- context [save_hard_state ?h] => set (hs := h) end.
  destruct (save_hard hs n Hrn) as (s' & -> & Hi' & Hw' & Hv & Hh). cbn [fst].
  change (reset_election_timeout _) with (candidate n s'). set (c := candidate n s').
  assert (Hpc : rproj c = with_v (mkV (r_term (rproj n) + 1) (Some i) Candidate {[i := true]}) (rproj n)).
  { unfold rproj, vproj, term, node_log, with_v, r_term. simpl. rewrite Hh, Hv. unfold hs. simpl. by rewrite Hid. }
  pose proof (ra_campaign members peers soup i (rproj n)) as Ha.
  change (config c) with (config n). case_if; bool_to_prop.
  - assert (Hnil : peers i = []).
    { unfold majority, voters in *. rewrite Hp in *. destruct (peers i) as [|p ps]; [done|].
      exfalso. assert (1 ≤ (length (p :: ps) + 1) / 2)%nat
        by (apply Nat.div_le_lower_bound; simpl; lia). lia. }
    transitivity c.
    + apply (moves_action _ _ _ _ _ _ []). intros _. rewrite app_nil_r, Hpc. rewrite Hnil in Ha.
      split_and!; try done.
    + apply moves_become_leader; [done|]. unfold yes_votes. simpl.
      rewrite map_filter_singleton_True, map_size_singleton by done. done.
  - destruct (request_votes_rproj (term c) (last_index (storage c)) (last_term (storage c)) c)
      as (Eo & Es & Ec & Er & Ep).
    eapply moves_action. intros _. rewrite Es, Ec, Ep, Eo, Hpc. split_and!; [done|done| | |done|].
    + unfold whole. rewrite Es. exact Hw'.
    + apply noted_no_leader. by rewrite Er.
    + cbn [config candidate]. change (cfg_peers (config c)) with (cfg_peers (config n)). rewrite Hp.
      destruct (whole_last c Hi' Hw') as [-> ->].
      assert (node_log c = node_log n) as -> by (unfold node_log; simpl; by rewrite Hv).
      assert (term c = r_term (rproj n) + 1) as -> by (unfold term; simpl; by rewrite Hh).
      exact Ha.
Qed.

Lemma moves_request_vote from t li lt n :
  (from, mkEnvelope i (RequestVote t li lt)) ∈ soup → t <= term n →
  moves n (handle_request_vote from t li lt n).1.
Proof.
  intros Hin Ht. unfold handle_request_vote. cbv zeta.
  assert (Hno : moves n (send from (RequestVoteResp (term n) false) n)) by by apply moves_refuse.
  case_if; [done|]. case_if; [|done]. bool_to_prop.
  match goal with |- context [save_hard_state ?h] => set (hs := h) end.
  apply moves_known. intros Hrn. pose proof Hrn as ((Hi & _) & Hw & Hn).
  destruct (save_hard hs n Hrn) as (s' & Hs & Hi' & Hw' & Hv & Hh).
  apply (moves_action _ _ _ _ _ _ [mkEnvelope from (RequestVoteResp (term n) true)]). intros _.
  unfold se_bind, se_modify, se_ret. rewrite Hs. simpl. unfold term. simpl. rewrite Hh. simpl.
  split_and!; try done.
  - pose proof (noted_storage members soup i n s' Hi Hi') as Hns. rewrite Hv, Hh in Hns. apply Hns; [lia|done|done].
  - assert (Hterm : t = r_term (rproj n)).
    { change (t = term n). unfold term in *. lia. }
    pose proof (ra_grant members peers soup i (rproj n) from li lt) as Ha.
    unfold rproj, vproj, term, node_log, with_v in *. simpl in *. rewrite Hv, Hh. simpl. apply Ha.
    + match goal with Hb : _ || _ = true |- _ => apply orb_true_iff in Hb as [?|?] end; bool_to_prop; auto.
    + change (r_term (rproj n)) with (term n) in Hterm. unfold term in Hterm. by rewrite Hterm in Hin.
    + destruct (whole_last n Hi Hw) as [Hl1 Hl2]. unfold node_log in *. by rewrite <- Hl1, <- Hl2.
Qed.

Lemma moves_vote_resp from t g n :
  (from, mkEnvelope i (RequestVoteResp t g)) ∈ soup → from ∈ members →
  moves n (handle_vote_resp from t g n).1.
Proof.
  intros Hin Hfrom. unfold handle_vote_resp. destruct (_ || _)%bool eqn:E; [done|].
  bool_to_prop. subst t. cbv zeta. assert (Hr : role n = Candidate) by done.
  transitivity (set_votes (<[from := g]> (votes n)) n).
  - apply (moves_action _ _ _ _ _ _ []). intros ((Hi & _) & Hw & _). simpl. rewrite app_nil_r.
    split_and!; try done; [apply noted_no_leader; simpl; congruence|].
    pose proof (ra_tally members peers soup i (rproj n) from g Hr Hfrom Hin) as Hv.
    unfold rproj, vproj, with_v in *. simpl in *. by rewrite Hr in Hv |- *.
  - case_if; [|done]. bool_to_prop. by apply moves_become_leader.
Qed.

(** The entries of a message that continue a well-formed log. *)
Definition continues (pli : LogIndex) (plt : Term) (es : list LogEntry) : Prop :=
  validate_loop es (pli + 1) plt = Ok tt.

Lemma persist_send to m n : (persist_commit_index (send to m n)).1 = send to m (persist_commit_index n).1.
Proof. unfold persist_commit_index. simpl. by case_if. Qed.

Lemma persist_result n :
  st_inv (storage n) → persist_commit_index n = ((persist_commit_index n).1, Ok tt) ∧
    term (persist_commit_index n).1 = term n.
Proof.
  intros Hi. unfold persist_commit_index. case_if; [|done]. unfold on_storage.
  match goal with |- context [save_hard_state ?h] => destruct (save_hard_state_ok (storage n) h Hi) as (s' & -> & _ & _ & Hh) end.
  split; [done|]. unfold term. simpl. by rewrite Hh.
Qed.

(** Accepting entries: the append loop, the commit index and the confirmation. *)
Lemma moves_accept from pli plt es lc n :
  (from, mkEnvelope i (AppendEntries (term n) pli plt es lc)) ∈ soup → continues pli plt es →
  role n = Follower → term_at (storage n) pli = Some plt →
  moves n ((mi <~ append_loop es pli ;;
    (λ n, if commit_index n <? lc
          then persist_commit_index (set_commit_index (min_index lc (last_index (storage n))) n)
          else (n, Ok tt)) >>>
    se_modify (λ n, send from (AppendEntriesResp (term n) true mi) n)) n).1.
Proof.
  intros Hin Hval Hr Hterm. apply moves_known. intros Hrn. pose proof Hrn as ((Hi & Hcfg) & Hw & Hn).
  rewrite (whole_term_at n _ Hi Hw) in Hterm. set (p := N.to_nat pli) in *.
  assert (Hp : pli = N.of_nat p) by (unfold p; lia). rewrite Hp in *.
  destruct (append_loop_spec es p plt n Hi Hw Hterm Hval) as (s' & Hs' & Hi' & Hv & Hh).
  unfold se_bind at 1. rewrite Hs'. set (n1 := set_storage s' n). set (mi := N.of_nat (p + length es)).
  set (c := if commit_index n <? lc then min_index lc (last_index s') else commit_index n).
  assert (Hlog1 : node_log n1 = merge_at (node_log n) p es) by (unfold node_log; simpl; by rewrite Hv).
  assert (Hw1 : whole n1) by (unfold whole; simpl; by rewrite Hv).
  assert (Hterm1 : term n1 = term n) by (unfold term; simpl; by rewrite Hh).
  (* the accepting action, as if the commit index were not saved *)
  assert (Hacc : moves n (send from (AppendEntriesResp (term n1) true mi) (set_commit_index c n1))).
  { apply (moves_action _ _ _ _ _ _ [mkEnvelope from (AppendEntriesResp (term n1) true mi)]). intros _.
    split_and!; try done; [apply noted_no_leader; simpl; congruence|]. rewrite Hterm1.
    pose proof (ra_accept members peers soup i (rproj n) from p plt es lc (N.to_nat c) Hr Hin Hterm) as Ha.
    unfold rproj, vproj in *. cbn [r_v r_log r_commit r_saved] in *.
    replace (node_log (send from (AppendEntriesResp (term n) true mi) (set_commit_index c n1)))
      with (merge_at (node_log n) p es) by (rewrite <- Hlog1; done).
    assert (Hv1 : term (send from (AppendEntriesResp (term n) true mi) (set_commit_index c n1)) = term n) by done.
    rewrite Hv1. simpl. rewrite Hh. apply Ha. simpl. rewrite <- Hlog1. unfold c.
    destruct (whole_last n1 Hi' Hw1) as [Hl1 _]. change (storage n1) with s' in Hl1. rewrite Hl1.
    destruct (commit_index n <? lc) eqn:Ec; bool_to_prop.
    - rewrite (proj2 (Nat.ltb_lt _ _)) by lia. unfold min_index. case_if; bool_to_prop; lia.
    - by rewrite (proj2 (Nat.ltb_ge _ _)) by lia. }
  unfold se_bind, se_modify. destruct (commit_index n1 <? lc) eqn:Ec.
  - set (n2 := set_commit_index _ n1). change (commit_index n1) with (commit_index n) in Ec.
    unfold c in Hacc. rewrite Ec in Hacc. destruct (persist_result n2 Hi') as [E Ht2]. rewrite E. cbn [fst]. rewrite Ht2.
    change (term n2) with (term n1). rewrite <- persist_send.
    etransitivity; [exact Hacc|]. apply moves_persist.
  - unfold c in Hacc. change (commit_index n1) with (commit_index n) in Ec. rewrite Ec in Hacc.
    change (set_commit_index (commit_index n) n1) with (set_commit_index (commit_index n1) n1) in Hacc.
    exact Hacc.
Qed.

Lemma moves_append_entries from t pli plt es lc n :
  (from, mkEnvelope i (AppendEntries t pli plt es lc)) ∈ soup → continues pli plt es → t <= term n →
  moves n (handle_append_entries from t pli plt es lc n).1.
Proof.
  intros Hin Hval Ht. unfold handle_append_entries. cbv zeta. set (n0 := set_metrics _ n).
  transitivity n0; [by apply unseen_moves|]. change (term n0) with (term n).
  case_if; bool_to_prop; [by apply moves_refuse|]. assert (Hterm : term n = t) by lia.
  apply moves_known. intros Hrn. destruct (become_follower_result t (Some from) n0 Hrn)
    as (n1 & E1 & Hr1 & Hs1).
  pose proof (moves_become_follower t (Some from) n0) as Hm1. rewrite E1 in Hm1.
  unfold se_bind at 1. rewrite E1. change (moves n0 n1) in Hm1. transitivity n1; [done|].
  set (n2 := set_election_elapsed 0 n1). unfold se_bind at 1, se_modify at 1.
  transitivity n2; [by apply unseen_moves|]. fold n2.
  assert (Ht2 : term n2 = t) by (unfold term; simpl; rewrite Hs1; [done|change (t <= term n); lia]).
  case_if; [by apply moves_refuse|]. rewrite <- Ht2 in Hin.
  destruct (term_at (storage n2) pli) as [x|] eqn:Ex; [|done]. bool_to_prop. subst x.
  by apply (moves_accept from pli plt es lc n2).
Qed.

Lemma moves_append_resp from t success mi n :
  (from, mkEnvelope i (AppendEntriesResp t success mi)) ∈ soup → from ∈ members →
  (role n = Leader → t = term n → success = true → mi <= last_index (storage n)) →
  moves n (handle_append_resp from t success mi n).1.
Proof.
  intros Hin Hfrom Hmi. unfold handle_append_resp. destruct (_ || _)%bool eqn:E; [done|].
  bool_to_prop. assert (Hr : role n = Leader) by done. subst t. specialize (Hmi Hr eq_refl). destruct success.
  - specialize (Hmi eq_refl). set (n1 := set_match_index (<[from := mi]> (match_index n)) n).
    transitivity n1.
    { apply moves_note_match; [done|]. intros _ _. split; [done|]. right. by exists mi. }
    set (n2 := set_next_index _ n1). transitivity n2.
    { apply (moves_note_next members peers soup i n1 from (index_next mi)); [done|].
      intros _. unfold index_next. simpl. lia. }
    by apply moves_advance.
  - apply moves_known. intros Hrn. destruct (peer_next_bounds members peers soup i n from Hrn Hr) as [Hlo Hhi].
    set (n1 := set_next_index _ n). transitivity n1.
    + apply moves_note_next; [done|]. intros _. lia.
    + by apply leads_send_append.
Qed.

(** What is known of a message before it is delivered to [n]. *)
Definition credible (from : NodeId) (m : Message) (n : RaftNode S) : Prop :=
  match m with
  | AppendEntries _ pli plt es _ => continues pli plt es
  | AppendEntriesResp t true mi => role n = Leader → t = term n → mi <= last_index (storage n)
  | _ => True
  end.

Lemma moves_step from m n :
  (from, mkEnvelope i m) ∈ soup → from ∈ members → credible from m n → moves n (step from m n).1.
Proof.
  intros Hin Hfrom Hcred. apply moves_known. intros Hrn. unfold step. unfold se_bind at 1.
  destruct (term n <? message_term m) eqn:E; bool_to_prop.
  - destruct (become_follower_result (message_term m) None n Hrn) as (n1 & E1 & Hr1 & _).
    pose proof (moves_become_follower (message_term m) None n) as Hm.
    pose proof (become_follower_term (message_term m) None n (proj1 (proj1 Hrn)) E) as Ht.
    rewrite E1 in Hm, Ht |- *. cbn [fst] in Hm, Ht. transitivity n1; [done|].
    destruct m as [t li lt|t g|t pli plt es lc|t s mi]; simpl in *.
    + apply moves_request_vote; [done|lia].
    + by apply moves_vote_resp.
    + apply moves_append_entries; [done|done|lia].
    + apply moves_append_resp; [done|done|congruence].
  - destruct m as [t li lt|t g|t pli plt es lc|t s mi]; simpl in *.
    + by apply moves_request_vote.
    + by apply moves_vote_resp.
    + by apply moves_append_entries.
    + apply moves_append_resp; [done|done|]. by intros Hl Ht ->; apply Hcred.
Qed.

Lemma moves_tick n : moves n (tick n).
Proof.
  unfold tick. destruct (role n) eqn:Hr; cbv zeta; case_if.
  all: try (by apply unseen_moves).
  1, 2: etransitivity; [|apply moves_campaign]; by apply unseen_moves.
  etransitivity; [|by apply leads_broadcast]. by apply unseen_moves.
Qed.

Lemma moves_propose c n : moves n (propose c n).1.
Proof.
  unfold propose. case_if; [done|]. bool_to_prop. apply moves_known. intros Hrn.
  pose proof Hrn as ((Hi & Hid & _ & Him & _) & _).
  apply (moves_replicate members peers soup i c
    (se_ret (index_next (last_index (storage n)))) n); try done.
Qed.

Lemma moves_restart n : outbox n = [] → moves n (node_new (config n) (storage n)).
Proof.
  intros Ho. apply (moves_action _ _ _ _ _ _ []). intros ((Hi & _) & Hw & _). rewrite Ho.
  split_and!; try done. apply (ra_restart members peers soup i (rproj n)).
Qed.
End handlers.

(** ** The cluster *)

(** Events that do not install a snapshot. *)
Definition snapshot_free (ev : Event) : Prop :=
  match ev with EvAdoptSnapshot _ | EvSnapshotInstalled _ _ => False | _ => True end.

#[export] Instance snapshot_free_dec ev : Decision (snapshot_free ev).
Proof. destruct ev; simpl; apply _. Defined.

(** One event of a cluster that neither compacts its logs nor installs snapshots.  With a
    compacted prefix the code does not keep the properties below: the leader's check of the
    previous entry degenerates at index 1 ([compacted_leader_commits_stale]). *)
Inductive log_step {S} `{RaftStorage S} : Net S → Net S → Prop :=
| ls_event net i n ev :
    net_nodes net !! i = Some n → enabled (net_soup net) i ev → snapshot_free ev →
    log_step net (collect i (run_event ev n) net).

Section cluster.
Context {S : Type} `{RaftStorageSpec S}.
Context (members : list NodeId) (peers : NodeId → list NodeId).
Implicit Types (n : RaftNode S) (net : Net S).

Definition rnet (net : Net S) : RNet := mkRNet (rproj <$> net_nodes net) (net_soup net).

Definition replica_inv (net : Net S) : Prop :=
  (∀ i n, net_nodes net !! i = Some n → rnode members peers (net_soup net) i n ∧ outbox n = []) ∧
  (∀ f e, (f, e) ∈ net_soup net → f ∈ members).

(** Nodes that start with nothing in their storage. *)
Definition fresh_cluster (net : Net S) : Prop :=
  cluster_initial members peers net ∧
  ∀ i n, net_nodes net !! i = Some n →
    st_view (storage n) = mkView 0 0 [] ∧ commit_index n = 0 ∧ hs_commit_index (hard_state (storage n)) = 0.

Lemma moves_event soup i ev n :
  outbox n = [] → enabled soup i ev → snapshot_free ev → (∀ f e, (f, e) ∈ soup → f ∈ members) →
  (∀ f e, ev = EvDeliver f e → credible f (env_message e) n) →
  moves members peers soup i n (run_event ev n).
Proof.
  intros Ho Hen Hsf Hs Hc. destruct ev as [| |from [to m]| | | | |]; simpl in *; try done.
  - apply moves_tick.
  - apply moves_campaign.
  - destruct Hen as [Hin ->]. apply moves_step; [done|by eapply Hs|by apply (Hc from (mkEnvelope i m))].
  - apply moves_propose.
  - by apply unseen_moves.
  - by apply moves_restart.
Qed.

(** What the invariant of the protocol says of the messages on the network. *)
Lemma credible_message G nodes soup n from e :
  r_inv members peers G (mkRNet nodes soup) → nodes !! env_to e = Some (rproj n) →
  rnode members peers soup (env_to e) n → (from, e) ∈ soup → credible from (env_message e) n.
Proof.
  intros Hinv Hn Hnode Hin. pose proof (ri_messages _ _ _ _ Hinv _ _ Hin) as Hok.
  destruct e as [to [| |t pli plt es lc|t [] mi]]; try done; unfold message_ok in Hok; simpl in *.
  - destruct Hok as (ep & Hep & Htb & Hseg & _). pose proof (term_before_le _ _ _ Htb) as Hle.
    pose proof (log_wf_prefix _ _ Hseg (eo_wf _ _ _ _ _ _ _ (ri_epochs _ _ _ _ Hinv _ _ Hep))) as Hwf.
    unfold log_wf, validate_suffix in Hwf. rewrite validate_loop_app in Hwf.
    destruct (validate_loop (take _ _) _ _) as [[]|]; [|done].
    rewrite (term_before_last _ _ _ Htb), length_take in Hwf. unfold continues. rewrite <- Hwf.
    f_equal. unfold index_next. lia.
  - intros Hr ->. destruct Hok as (_ & ep & Hep & Hmi).
    destruct (no_leader _ _ _ _ _ (ri_nodes _ _ _ _ Hinv to (rproj n) Hn) Hr) as (ep' & Hep' & _ & Hlog).
    change (r_term (rproj n)) with (term n) in Hep'. assert (ep' = ep) as -> by congruence.
    destruct Hnode as ((Hi & _) & Hw & _).
    destruct (whole_last n Hi Hw) as [-> _]. rewrite Hlog in Hmi. change (r_log (rproj n)) with (node_log n) in Hmi. lia.
Qed.

Lemma deliverable G net i n from e :
  r_inv members peers G (rnet net) → replica_inv net → net_nodes net !! i = Some n →
  (from, e) ∈ net_soup net → env_to e = i → credible from (env_message e) n.
Proof.
  intros Hinv [Hnodes _] Hn Hin <-. eapply credible_message; [exact Hinv| | |done].
  - by rewrite lookup_fmap, Hn.
  - by apply (Hnodes _ _ Hn).
Qed.

Lemma noted_soup soup es i n : noted members soup i n → noted members (soup ++ es) i n.
Proof.
  intros Hn Hr. destruct (Hn Hr) as [Hm Hx]. split; [|done]. intros p k Hp Hk.
  destruct (Hm p k Hp Hk) as [? [?|?]]; auto using confirmed_app.
Qed.

Lemma log_step_refines G net net' :
  replica_inv net → r_inv members peers G (rnet net) → log_step net net' →
  replica_inv net' ∧ rtc (r_step members peers) (rnet net) (rnet net').
Proof.
  intros Hrep Hinv Hstep. pose proof Hrep as [Hnodes Hsoup]. destruct Hstep as [net i n ev Hn Hen Hsf].
  destruct (Hnodes i n Hn) as [Hok Ho].
  destruct (moves_event (net_soup net) i ev n Ho Hen Hsf Hsoup) as (Hok' & out & Hout & Hrun); [|done|].
  { intros f e ->. destruct Hen as [Hin Hto]. by eapply deliverable. }
  rewrite Ho in Hout. simpl in Hout. assert (Him : i ∈ members) by (by destruct Hok as ((_ & _ & _ & ? & _) & _)).
  split.
  - split; simpl.
    + intros j m. destruct (decide (i = j)) as [<-|Hne].
      * rewrite lookup_insert_eq. intros [= <-]. split; [|done].
        destruct Hok' as (? & ? & ?). split_and!; [done|done|by apply noted_soup].
      * rewrite lookup_insert_ne by done. intros Hj. destruct (Hnodes j m Hj) as [(? & ? & ?) ?].
        split; [|done]. split_and!; [done|done|by apply noted_soup].
    + intros f e [Hin|(e' & [= -> _] & _)%list_elem_of_fmap]%elem_of_app; [by eapply Hsoup|done].
  - unfold rnet, collect. simpl. rewrite fmap_insert, Hout.
    eapply r_run_steps; [done|done|]. by rewrite lookup_fmap, Hn.
Qed.

Lemma log_steps_refine G net net' :
  peers_complete members peers → replica_inv net → r_inv members peers G (rnet net) → rtc log_step net net' →
  ∃ G', hist_le G G' ∧ replica_inv net' ∧ r_inv members peers G' (rnet net').
Proof.
  intros Hp Hrep Hinv Hr. revert G Hrep Hinv. induction Hr as [net|net1 net2 net3 Hs _ IH]; intros G Hrep Hinv.
  - by exists G.
  - destruct (log_step_refines G net1 net2 Hrep Hinv Hs) as [Hrep2 Hr12].
    destruct (r_inv_steps members peers G _ _ Hp Hinv Hr12) as (G2 & H12 & Hinv2).
    destruct (IH G2 Hrep2 Hinv2) as (G3 & H23 & Hrep3 & Hinv3). exists G3.
    split_and!; [by etransitivity|done|done].
Qed.

Lemma fresh_cluster_inv net :
  fresh_cluster net → replica_inv net ∧ r_inv members peers ∅ (rnet net) ∧ peers_complete members peers.
Proof.
  intros [([Hnodes Hsoup] & Hempty & Hfol & Hlen) Hst]. split_and!.
  - split; [|done]. intros i n Hn. destruct (Hnodes i n Hn) as [Hok Ho]. destruct (Hst i n Hn) as (Hv & _).
    split; [|done]. split_and!; [done|unfold whole; by rewrite Hv|].
    apply noted_no_leader. rewrite (Hfol i n Hn). done.
  - apply r_inv_initial. split; [done|]. intros i r. simpl. rewrite lookup_fmap, fmap_Some.
    intros (n & Hn & ->). destruct (Hst i n Hn) as (Hv & Hc & Hsv).
    destruct (Hnodes i n Hn) as [(_ & _ & _ & Him & _) _]. split_and!; [done|by apply (Hfol i)| | |]; simpl.
    + unfold node_log. by rewrite Hv.
    + by rewrite Hc.
    + by rewrite Hsv.
  - intros a b. by apply lone_member.
Qed.

(** Two moments of a run that started fresh. *)
Lemma two_moments net0 net1 net2 i j n1 n2 :
  fresh_cluster net0 → rtc log_step net0 net1 → rtc log_step net1 net2 →
  net_nodes net1 !! i = Some n1 → net_nodes net2 !! j = Some n2 →
  ∃ G, r_inv members peers G (rnet net2) ∧
    consistent G (node_log n1) ∧ stable members G (net_soup net2) (term n1) (node_log n1) (N.to_nat (commit_index n1)) ∧
    rnode_ok members G (net_soup net2) j (rproj n2) ∧
    (st_inv (storage n1) ∧ whole n1) ∧ (st_inv (storage n2) ∧ whole n2).
Proof.
  intros Hf H01 H12 Hn1 Hn2. destruct (fresh_cluster_inv net0 Hf) as (Hrep0 & Hinv0 & Hp).
  destruct (log_steps_refine ∅ net0 net1 Hp Hrep0 Hinv0 H01) as (G1 & _ & Hrep1 & Hinv1).
  destruct (log_steps_refine G1 net1 net2 Hp Hrep1 Hinv1 H12) as (G2 & HG & Hrep2 & Hinv2).
  assert (Hsoup : ∃ es, net_soup net2 = net_soup net1 ++ es).
  { clear -H12. induction H12 as [net|na nb nc Hs _ [es IH]]; [exists []; by rewrite app_nil_r|].
    destruct Hs as [na i n ev Hn Hen Hsf]. simpl in IH. eexists. by rewrite IH, <- app_assoc. }
  destruct Hsoup as [es Hes]. exists G2. destruct (proj1 Hrep1 i n1 Hn1) as [((Hi1 & _) & Hw1 & _) _].
  destruct (proj1 Hrep2 j n2 Hn2) as [((Hi2 & _) & Hw2 & _) _].
  assert (Hok1 : rnode_ok members G1 (net_soup net1) i (rproj n1)).
  { apply (ri_nodes _ _ _ _ Hinv1 i). simpl. by rewrite lookup_fmap, Hn1. }
  assert (Hok2 : rnode_ok members G2 (net_soup net2) j (rproj n2)).
  { apply (ri_nodes _ _ _ _ Hinv2 j). simpl. by rewrite lookup_fmap, Hn2. }
  split_and!; try done.
  - eapply consistent_mono; [done|]. apply (no_consistent _ _ _ _ _ Hok1).
  - rewrite Hes. eapply (stable_mono members peers); [done|apply N.le_refl|]. apply (no_commit _ _ _ _ _ Hok1).
Qed.

(** C23: log matching.  At any two moments of a run without compaction and snapshots of a
    cluster that started with empty logs, two nodes whose logs have an entry of the same term at the same index have the
    same entries up to that index. *)
Theorem log_matching net0 net1 net2 i j n1 n2 idx e1 e2 :
  fresh_cluster net0 → rtc log_step net0 net1 → rtc log_step net1 net2 →
  net_nodes net1 !! i = Some n1 → net_nodes net2 !! j = Some n2 →
  entry_at (storage n1) idx = Some e1 → entry_at (storage n2) idx = Some e2 → e_term e1 = e_term e2 →
  ∀ k, 0 < k → k <= idx → entry_at (storage n1) k = entry_at (storage n2) k.
Proof.
  intros Hf H01 H12 Hn1 Hn2 He1 He2 Ht k Hk Hle.
  destruct (two_moments _ _ _ _ _ _ _ Hf H01 H12 Hn1 Hn2)
    as (G & Hinv & Hc1 & _ & Hok2 & [Hi1 Hw1] & [Hi2 Hw2]).
  rewrite whole_entry_at in He1, He2 |- * by (done || lia). rewrite whole_entry_at by done.
  pose proof (consistent_matching G _ _ _ _ _ Hc1 (no_consistent _ _ _ _ _ Hok2) He1 He2 Ht) as Heq.
  cbn [r_log rproj] in Heq.
  rewrite <- (lookup_take_lt (node_log n1) (Datatypes.S (N.to_nat (idx - 1)))), Heq by lia.
  by rewrite lookup_take_lt by lia.
Qed.

(** C3: leader completeness.  In a run without compaction and snapshots of a cluster that
    started with empty logs, an entry that a node committed is in the log of every leader
    of that node's term or a later one, then and at any later moment, whatever is lost,
    delayed, reordered or delivered twice and whichever nodes restart. *)
Theorem leader_completeness net0 net1 net2 i j n1 n2 idx :
  fresh_cluster net0 → rtc log_step net0 net1 → rtc log_step net1 net2 →
  net_nodes net1 !! i = Some n1 → net_nodes net2 !! j = Some n2 →
  0 < idx → idx <= commit_index n1 → role n2 = Leader → term n1 <= term n2 →
  ∃ e, entry_at (storage n1) idx = Some e ∧ entry_at (storage n2) idx = Some e.
Proof.
  intros Hf H01 H12 Hn1 Hn2 Hpos Hc Hr Ht.
  destruct (two_moments _ _ _ _ _ _ _ Hf H01 H12 Hn1 Hn2)
    as (G & Hinv & _ & Hst & Hok2 & [Hi1 Hw1] & [Hi2 Hw2]).
  destruct (no_leader _ _ _ _ _ Hok2 Hr) as (ep & Hep & _ & Hlog).
  pose proof (stable_in_log members peers G (rnet net2) _ _ _ _ ep Hinv Hst Ht Hep) as Hp.
  rewrite Hlog in Hp. rewrite !whole_entry_at by done. destruct Hst as [Hlen _].
  destruct (lookup_lt_is_Some_2 (node_log n1) (N.to_nat (idx - 1))) as [e He]; [lia|].
  exists e. split; [done|]. apply (prefix_lookup_Some (take (N.to_nat (commit_index n1)) (node_log n1))); [|done].
  by rewrite lookup_take_lt by lia.
Qed.

(** C2: state machine safety.  In a run without compaction and snapshots of a cluster that
    started with empty logs, whatever happens to the messages and whichever nodes restart,
    two nodes that committed an index, at the same moment or at different ones,
    committed the same entry there: what is applied at an index is the same everywhere and
    for ever. *)
Theorem state_machine_safety net0 net1 net2 i j n1 n2 idx :
  fresh_cluster net0 → rtc log_step net0 net1 → rtc log_step net1 net2 →
  net_nodes net1 !! i = Some n1 → net_nodes net2 !! j = Some n2 →
  0 < idx → idx <= commit_index n1 → idx <= commit_index n2 →
  ∃ e, entry_at (storage n1) idx = Some e ∧ entry_at (storage n2) idx = Some e.
Proof.
  intros Hf H01 H12 Hn1 Hn2 Hpos Hc1 Hc2.
  destruct (two_moments _ _ _ _ _ _ _ Hf H01 H12 Hn1 Hn2)
    as (G & Hinv & _ & Hst & Hok2 & [Hi1 Hw1] & [Hi2 Hw2]).
  pose proof (no_commit _ _ _ _ _ Hok2) as Hst2.
  rewrite !whole_entry_at by done.
  pose proof (stable_agree members peers G (rnet net2) _ _ _ _ _ _ (N.to_nat (idx - 1)) Hinv Hst Hst2) as Hag.
  cbn [r_log r_commit rproj] in Hag. rewrite <- Hag by lia. destruct Hst as [Hlen _].
  destruct (lookup_lt_is_Some_2 (node_log n1) (N.to_nat (idx - 1))) as [e He]; [lia|]. by exists e.
Qed.
End cluster.

(** ** A concrete run *)

Lemma run_schedule_log_steps {S} `{RaftStorage S} sched (net net' : Net S) :
  Forall (λ x, snapshot_free x.2) sched → run_schedule sched net = Some net' → rtc log_step net net'.
Proof.
  intros Hf. revert net. induction Hf as [|[i ev] sched Hx _ IH]; intros net; simpl.
  - intros [= ->]. apply rtc_refl.
  - destruct (net_nodes net !! i) as [n|] eqn:Hn; [|done].
    case_decide as He; [|done]. intros Hr. eapply rtc_l; [by econstructor|]. by apply IH.
Qed.

(** After its election node 1 replicates its first entry to node 2 and commits it, then a
    command to node 3, which learns of the commit. *)
Definition first_entry : LogEntry := mkEntry 1 1 command_noop.
Definition write_x : Command := command_new Database [x78].
Definition second_entry : LogEntry := mkEntry 1 2 write_x.

Definition replication3 : list (NodeId * Event) :=
  [(2, EvDeliver 1 (mkEnvelope 2 (AppendEntries 1 0 0 [first_entry] 0)));
   (1, EvDeliver 2 (mkEnvelope 1 (AppendEntriesResp 1 true 1)));
   (1, EvPropose write_x);
   (3, EvDeliver 1 (mkEnvelope 3 (AppendEntries 1 0 0 [first_entry; second_entry] 1)))].

Definition net3_replicated : Net MemStorage := default net_default (run_schedule replication3 net3_elected).

Definition lonely : RaftNode MemStorage := node_new (cfg3 0 []) mem_new.
Definition replica (i : NodeId) : RaftNode MemStorage := default lonely (net_nodes net3_replicated !! i).

Lemma net3_fresh : fresh_cluster [1; 2; 3] peers3 net3.
Proof.
  split; [exact net3_initial|]. intros i n Hn.
  by apply elem_of_list_to_map_2, list_elem_of_fmap in Hn as (j & [= <- ->] & Hj).
Qed.

Lemma net3_elected_log_steps : rtc log_step net3 net3_elected.
Proof. apply (run_schedule_log_steps election3); [by repeat constructor|by vm_compute]. Qed.

Lemma net3_replicated_steps : rtc log_step net3_elected net3_replicated.
Proof. apply (run_schedule_log_steps replication3); [by repeat constructor|by vm_compute]. Qed.

Lemma net3_all_steps : rtc log_step net3 net3_replicated.
Proof. etransitivity; [exact net3_elected_log_steps|exact net3_replicated_steps]. Qed.

Lemma log_matching_witness : entry_at (storage (replica 1)) 1 = entry_at (storage (replica 3)) 1.
Proof.
  apply (log_matching [1; 2; 3] peers3 net3 net3_replicated net3_replicated 1 3 (replica 1) (replica 3) 2
    second_entry second_entry).
  - exact net3_fresh.
  - exact net3_all_steps.
  - apply rtc_refl.
  - by vm_compute.
  - by vm_compute.
  - by vm_compute.
  - by vm_compute.
  - reflexivity.
  - lia.
  - lia.
Defined.

Lemma leader_completeness_witness :
  ∃ e, entry_at (storage (replica 3)) 1 = Some e ∧ entry_at (storage (replica 1)) 1 = Some e.
Proof.
  apply (leader_completeness [1; 2; 3] peers3 net3 net3_replicated net3_replicated 3 1 (replica 3) (replica 1) 1).
  - exact net3_fresh.
  - exact net3_all_steps.
  - apply rtc_refl.
  - by vm_compute.
  - by vm_compute.
  - lia.
  - by vm_compute.
  - by vm_compute.
  - by vm_compute.
Defined.

Lemma state_machine_safety_witness :
  ∃ e, entry_at (storage (replica 1)) 1 = Some e ∧ entry_at (storage (replica 3)) 1 = Some e.
Proof.
  apply (state_machine_safety [1; 2; 3] peers3 net3 net3_replicated net3_replicated 1 3 (replica 1) (replica 3) 1).
  - exact net3_fresh.
  - exact net3_all_steps.
  - apply rtc_refl.
  - by vm_compute.
  - by vm_compute.
  - lia.
  - by vm_compute.
  - by vm_compute.
Defined.
