(* ===== verification/RaftKeep.v ===== *)
(** * What every event of a Raft node keeps

    Two facts about the nodes of a cluster that a client of the log needs next to the
    safety theorems: a server never removes entries that it committed, whatever it does
    next; and every entry in a log or in a message was proposed, or is the one a leader
    starts with.  Both are stated for the steps of one node, so that a driver that calls
    the node in its own way can use them. *)

From S2P Require Import Prelude RaftLog RaftNode Voting RaftElection Consensus ConsensusSafety RaftSafety.

Local Open Scope N_scope.

(** ** Committed entries stay *)

Section stability.
Context (members : list NodeId) (peers : NodeId → list NodeId).

Lemma stable_kept_action G nodes soup i r out r' c :
  r_inv members peers G (mkRNet nodes soup) → nodes !! i = Some r →
  r_action members peers soup i r out r' → stable members G soup (r_term r) (r_log r) c →
  r_term r <= r_term r' ∧ take c (r_log r) `prefix_of` r_log r'.
Proof.
  intros Hinv Hi Ha Hst. pose proof (prefix_take (r_log r) c) as Hself.
  destruct Ha as [| | | | | | | | | | | |r f k plt es lc c' Hrole Hin Htb Hc]; simpl;
    try (split; [unfold r_term in *; simpl in *; lia|done]).
  - split; [apply N.le_refl|]. etransitivity; [done|]. by apply prefix_app_r.
  - split; [apply N.le_refl|].
    pose proof (ri_messages _ _ _ _ Hinv _ _ Hin) as (ep & Hep & Htb' & Hseg & _).
    rewrite Nat2N.id in Htb', Hseg.
    apply (accepted members peers G nodes soup i r Hinv Hi k plt es ep); [done|done|done|done|done|].
    by apply (stable_in_log members peers G (mkRNet nodes soup) (r_term r) (r_log r) c (r_term r) ep).
Qed.

(** What a node knows to be stable stays in its log through the steps of the cluster. *)
Lemma stable_kept G net net' i r c :
  peers_complete members peers → r_inv members peers G net → rtc (r_step members peers) net net' →
  rn_nodes net !! i = Some r → stable members G (rn_soup net) (r_term r) (r_log r) c →
  ∃ r', rn_nodes net' !! i = Some r' ∧ r_term r <= r_term r' ∧ take c (r_log r) `prefix_of` r_log r'.
Proof.
  intros Hp Hinv Hr. revert G r Hinv. induction Hr as [net|net1 net2 net3 Hs _ IH]; intros G r Hinv Hi Hst.
  { exists r. split_and!; [done|lia|apply prefix_take]. }
  destruct (r_inv_step members peers G net1 net2 Hp Hinv Hs) as (G2 & HG & Hinv2).
  destruct Hs as [[nodes soup] j x out x' Hj Hm Ha]. simpl in *.
  assert (Hnext : ∃ r2, (<[j := x']> nodes : gmap NodeId RState) !! i = Some r2 ∧ r_term r <= r_term r2 ∧
    take c (r_log r) `prefix_of` r_log r2).
  { destruct (decide (j = i)) as [->|Hne].
    - rewrite lookup_insert_eq. exists x'. split; [done|]. assert (x = r) as -> by congruence.
      by apply (stable_kept_action G nodes soup i r out x' c).
    - rewrite lookup_insert_ne by done. exists r. split_and!; [done|lia|apply prefix_take]. }
  destruct Hnext as (r2 & Hr2 & Ht & Hpre).
  assert (Hst2 : stable members G2 (soup ++ ((λ e, (j, e)) <$> out)) (r_term r2) (r_log r2) c).
  { apply (stable_prefix members G2 _ _ (r_log r)); [|done].
    by apply (stable_mono members peers G G2 soup _ (r_term r)). }
  destruct (IH G2 r2 Hinv2 Hr2 Hst2) as (r3 & Hr3 & Ht3 & Hp3).
  exists r3. split_and!; [done|lia|].
  destruct Hst as [Hlen _]. rewrite (prefix_length_eq (take c (r_log r)) (take c (r_log r2))); [done| |].
  - destruct Hpre as [x2 Hx2]. rewrite Hx2. rewrite take_app_le by (rewrite length_take; lia).
    rewrite take_take. by rewrite Nat.min_id.
  - pose proof (prefix_length _ _ Hpre) as Hl. rewrite !length_take in *. lia.
Qed.
End stability.

(** ** Where entries come from *)

Section tidy.
Context {S : Type} `{RaftStorageSpec S}.
Context (P : LogEntry → Prop).
Hypothesis Pnoop : ∀ t i, P (mkEntry t i command_noop).
Implicit Types n : RaftNode S.

Definition msg_tidy (m : Message) : Prop :=
  match m with AppendEntries _ _ _ es _ => Forall P es | _ => True end.

(** Every entry of the log and of the outbox satisfies [P], and the commit index has been
    saved. *)
Record tidy n : Prop := {
  td_inv : st_inv (storage n);
  td_log : Forall P (node_log n);
  td_out : Forall (λ e, msg_tidy (env_message e)) (outbox n);
  td_saved : hs_commit_index (hard_state (storage n)) = commit_index n;
}.

Definition keep n n' : Prop := tidy n → tidy n'.

#[local] Instance keep_refl : Reflexive keep.
Proof. intros n Ht. exact Ht. Qed.
#[local] Instance keep_trans : Transitive keep.
Proof. intros n1 n2 n3 H12 H23 Ht. by apply H23, H12. Qed.

Lemma keep_same n n' :
  storage n' = storage n → outbox n' = outbox n → commit_index n' = commit_index n → keep n n'.
Proof. intros Hs Ho Hc [Hi Hl Hout Hsv]. split; unfold node_log in *; rewrite ?Hs, ?Ho, ?Hc; done. Qed.

Lemma keep_send to m n : msg_tidy m → keep n (send to m n).
Proof.
  intros Hm [Hi Hl Ho Hs]. split; try done. simpl. apply Forall_app. split; [done|]. by apply Forall_singleton.
Qed.

Lemma keep_send_append p n : keep n (send_append_to p n).
Proof.
  intros Ht. unfold send_append_to. apply keep_send; [|by eapply keep_same in Ht].
  simpl. rewrite entries_from_view by apply Ht. unfold lv_from. apply Forall_drop, Ht.
Qed.

Lemma keep_broadcast n : keep n (broadcast_append n).
Proof. apply (foldl_rel keep). intros m p. apply keep_send_append. Qed.

Lemma keep_append es n : Forall P es → keep n (on_storage (append es) n).1.
Proof.
  intros Hes [Hi Hl Ho Hs]. unfold on_storage. simpl.
  destruct (validate_suffix es (lv_last (st_view (storage n))) (lv_last_term (st_view (storage n)))) as [[]|e] eqn:E.
  - destruct (append_ok (storage n) es Hi E) as (s' & -> & Hi' & Hv & Hh). simpl.
    split; simpl; unfold node_log; simpl; [done| |done|by rewrite Hh].
    rewrite Hv. simpl. by apply Forall_app.
  - rewrite (append_err (storage n) es e Hi E). by split.
Qed.

Lemma keep_truncate idx n : keep n (on_storage (truncate_from idx) n).1.
Proof.
  intros [Hi Hl Ho Hs]. unfold on_storage. simpl.
  destruct (decide (idx = 0 ∨ lv_base (st_view (storage n)) < idx)) as [Hd|Hd].
  - destruct (truncate_ok (storage n) idx Hi Hd) as (s' & -> & Hi' & Hv & Hh). simpl.
    split; simpl; unfold node_log; simpl; [done| |done|by rewrite Hh].
    rewrite Hv. simpl. by apply Forall_take.
  - rewrite truncate_compacted by (done || lia). by split.
Qed.

Lemma keep_save hs n :
  hs_commit_index hs = hs_commit_index (hard_state (storage n)) → keep n (on_storage (save_hard_state hs) n).1.
Proof.
  intros Hc [Hi Hl Ho Hs]. unfold on_storage. simpl.
  destruct (save_hard_state_ok (storage n) hs Hi) as (s' & -> & Hi' & Hv & Hh). simpl.
  split; simpl; unfold node_log; simpl; [done|by rewrite Hv|done|]. rewrite Hh. congruence.
Qed.

(** Setting the commit index and saving it. *)
Lemma keep_commit c n : keep n (persist_commit_index (set_commit_index c n)).1.
Proof.
  intros [Hi Hl Ho Hs]. unfold persist_commit_index. simpl. case_if.
  - unfold on_storage. simpl.
    destruct (save_hard_state_ok (storage n) (mkHard (current_term (hard_state (storage n)))
      (voted_for (hard_state (storage n))) c) Hi) as (s' & -> & Hi' & Hv & Hh). simpl.
    split; simpl; unfold node_log; simpl; [done|by rewrite Hv|done|by rewrite Hh].
  - bool_to_prop. by split.
Qed.

Lemma keep_advance n : keep n (maybe_advance_commit n).1.
Proof. unfold maybe_advance_commit. cbv zeta. case_if; [apply keep_commit|done]. Qed.

Lemma keep_become_follower t l n : keep n (become_follower t l n).1.
Proof.
  unfold become_follower. repeat (apply (se_bind_rel keep); [|intros ? ? _]).
  - case_if; [by apply keep_save|done].
  - by apply keep_same.
  - destruct l; by apply keep_same.
  - by apply keep_same.
Qed.

Lemma keep_init_peers last n : keep n (init_peers last n).
Proof.
  unfold init_peers. etransitivity; [|apply (foldl_rel keep); intros m p; by apply keep_same].
  by apply keep_same.
Qed.

Lemma keep_become_leader n : keep n (become_leader n).1.
Proof.
  unfold become_leader. cbv zeta.
  match goal with |- keep _ (se_bind _ _ ?m).1 => transitivity m end.
  { match goal with |- keep _ (set_match_index _ (init_peers ?last ?m)) =>
      transitivity (init_peers last m); [transitivity m; [|apply keep_init_peers]|] end; by apply keep_same. }
  repeat (apply (se_bind_rel keep); [|intros ? ? _]).
  - apply keep_append. by repeat constructor.
  - by apply keep_same.
  - apply keep_advance.
  - apply keep_broadcast.
Qed.

Lemma keep_request_votes t i lt n : keep n (request_votes t i lt n).
Proof. unfold request_votes. apply (foldl_rel keep). intros m p. by apply keep_send. Qed.

Lemma keep_campaign n : keep n (campaign n).
Proof.
  unfold campaign. cbv zeta.
  match goal with |- keep _ (if _ then (become_leader ?m).1 else _) => transitivity m end.
  { transitivity (on_storage (save_hard_state (mkHard (current_term (hard_state (storage n)) + 1)
      (Some (cfg_id (config n))) (hs_commit_index (hard_state (storage n))))) n).1; [by apply keep_save|].
    by apply keep_same. }
  case_if; [apply keep_become_leader|apply keep_request_votes].
Qed.

Lemma keep_append_loop es : ∀ mi n, Forall P es → keep n (append_loop es mi n).1.
Proof.
  induction es as [|e es IH]; intros mi n Hes; [done|]. apply Forall_cons in Hes as [He Hes].
  assert (He1 : Forall P [e]) by by constructor. cbn [append_loop].
  apply (se_bind_rel keep); [|intros ? ? _; by apply IH].
  destruct (term_at (storage n) (e_index e)) as [x|]; [|by apply keep_append].
  case_if; [done|]. apply (se_bind_rel keep); [apply keep_truncate|]. intros ? ? _. by apply keep_append.
Qed.

Lemma keep_append_entries from t pli plt es lc n :
  Forall P es → keep n (handle_append_entries from t pli plt es lc n).1.
Proof.
  intros Hes. unfold handle_append_entries. cbv zeta.
  transitivity (set_metrics (bump_received (metrics n)) n); [by apply keep_same|]. case_if; [by apply keep_send|].
  apply (se_bind_rel keep); [apply keep_become_follower|intros ? ? _].
  apply (se_bind_rel keep); [by apply keep_same|intros ? ? _]. cbv zeta.
  case_if; [by apply keep_send|].
  apply (se_bind_rel keep); [by apply keep_append_loop|intros ? ? _].
  apply (se_bind_rel keep); [case_if; [apply keep_commit|done]|intros ? ? _]. by apply keep_send.
Qed.

Lemma keep_step from m n : msg_tidy m → keep n (step from m n).1.
Proof.
  intros Hm. unfold step. apply (se_bind_rel keep).
  { case_if; [apply keep_become_follower|done]. }
  intros [] n' _. destruct m as [t li lt|t g|t pli plt es lc|t sc mi]; simpl.
  - unfold handle_request_vote. cbv zeta. apply (se_bind_rel keep); [|intros ? ? _; by apply keep_send].
    case_if; [done|]. case_if; [|done]. repeat (apply (se_bind_rel keep); [|intros ? ? _]).
    + by apply keep_save.
    + by apply keep_same.
    + by apply keep_same.
    + done.
  - unfold handle_vote_resp. case_if; [done|]. cbv zeta. case_if; [|by apply keep_same].
    etransitivity; [|apply keep_become_leader]. by apply keep_same.
  - by apply keep_append_entries.
  - unfold handle_append_resp. case_if; [done|]. destruct sc.
    + etransitivity; [|apply keep_advance]. by apply keep_same.
    + cbv zeta. etransitivity; [|apply keep_send_append]. by apply keep_same.
Qed.

Lemma keep_tick n : keep n (tick n).
Proof.
  unfold tick. destruct (role n); cbv zeta; case_if.
  all: try (by apply keep_same).
  1, 2: etransitivity; [|apply keep_campaign]; by apply keep_same.
  etransitivity; [|apply keep_broadcast]. by apply keep_same.
Qed.

Lemma keep_propose c n : (∀ t i, P (mkEntry t i c)) → keep n (propose c n).1.
Proof.
  intros Hc. unfold propose. case_if; [done|]. cbv zeta.
  repeat (apply (se_bind_rel keep); [|intros ? ? _]).
  - apply keep_append. by repeat constructor.
  - by apply keep_same.
  - apply keep_advance.
  - apply keep_broadcast.
  - done.
Qed.
End tidy.

(** ** The commit index moves forward *)

Section forward.
Context {S : Type} `{RaftStorageSpec S}.
Implicit Types n : RaftNode S.

Definition forward n n' : Prop := last_applied n' = last_applied n ∧ commit_index n <= commit_index n'.

#[local] Instance forward_refl : Reflexive forward.
Proof. intros n. split; [done|lia]. Qed.
#[local] Instance forward_trans : Transitive forward.
Proof. intros n1 n2 n3 [E12 H12] [E23 H23]. split; [congruence|lia]. Qed.

Lemma forward_same n n' :
  last_applied n' = last_applied n → commit_index n' = commit_index n → forward n n'.
Proof. intros Hl Hc. split; [done|]. rewrite Hc. lia. Qed.

Lemma forward_send_append p n : forward n (send_append_to p n).
Proof. by apply forward_same. Qed.

Lemma forward_broadcast n : forward n (broadcast_append n).
Proof. apply (foldl_rel forward). intros m p. apply forward_send_append. Qed.

Lemma forward_commit c n : commit_index n <= c → forward n (persist_commit_index (set_commit_index c n)).1.
Proof. intros Hc. unfold persist_commit_index. simpl. case_if; split; simpl; done. Qed.

Lemma forward_advance n : forward n (maybe_advance_commit n).1.
Proof.
  unfold maybe_advance_commit. cbv zeta. case_if; [|done]. bool_to_prop. apply forward_commit. lia.
Qed.

Lemma forward_become_follower t l n : forward n (become_follower t l n).1.
Proof.
  unfold become_follower. repeat (apply (se_bind_rel forward); [|intros ? ? _]).
  - case_if; by apply forward_same.
  - by apply forward_same.
  - destruct l; by apply forward_same.
  - by apply forward_same.
Qed.

Lemma forward_become_leader n : forward n (become_leader n).1.
Proof.
  unfold become_leader. cbv zeta.
  match goal with |- forward _ (se_bind _ _ ?m).1 => transitivity m end.
  { match goal with |- forward _ (set_match_index _ (init_peers ?last ?m)) =>
      transitivity (init_peers last m); [transitivity m|] end; try by apply forward_same.
    unfold init_peers. etransitivity; [|apply (foldl_rel forward); intros; by apply forward_same].
    by apply forward_same. }
  repeat (apply (se_bind_rel forward); [|intros ? ? _]).
  - by apply forward_same.
  - by apply forward_same.
  - apply forward_advance.
  - apply forward_broadcast.
Qed.

Lemma forward_campaign n : forward n (campaign n).
Proof.
  unfold campaign. cbv zeta.
  match goal with |- forward _ (if _ then (become_leader ?m).1 else _) => transitivity m end.
  { by apply forward_same. }
  case_if; [apply forward_become_leader|].
  unfold request_votes. apply (foldl_rel forward). intros. by apply forward_same.
Qed.

Lemma forward_tick n : forward n (tick n).
Proof.
  unfold tick. destruct (role n); cbv zeta; case_if.
  all: try (by apply forward_same).
  1, 2: etransitivity; [|apply forward_campaign]; by apply forward_same.
  etransitivity; [|apply forward_broadcast]. by apply forward_same.
Qed.

Lemma forward_propose c n : forward n (propose c n).1.
Proof.
  unfold propose. case_if; [done|]. cbv zeta.
  repeat (apply (se_bind_rel forward); [|intros ? ? _]); try by apply forward_same.
  - apply forward_advance.
  - apply forward_broadcast.
Qed.

Lemma forward_append_loop es : ∀ mi n, forward n (append_loop es mi n).1.
Proof.
  induction es as [|e es IH]; intros mi n; [done|]. cbn [append_loop].
  apply (se_bind_rel forward); [|intros ? ? _; apply IH].
  destruct (term_at (storage n) (e_index e)) as [x|]; [|by apply forward_same].
  case_if; [done|]. apply (se_bind_rel forward); [by apply forward_same|]. intros ? ? _. by apply forward_same.
Qed.

(** Entries accepted from a leader can only pull the commit index down to the end of the
    log. *)
Definition bounded n n' : Prop :=
  last_applied n' = last_applied n ∧
  (commit_index n <= commit_index n' ∨ commit_index n' = last_index (storage n')).

Lemma forward_bounded n n1 n2 : forward n n1 → bounded n1 n2 → bounded n n2.
Proof. intros [E1 H1] [E2 H2]. split; [congruence|]. destruct H2; [left; lia|by right]. Qed.

Lemma forward_is_bounded n n' : forward n n' → bounded n n'.
Proof. intros [E1 H1]. split; [done|by left]. Qed.

Lemma tidy_any (P : LogEntry → Prop) n : tidy P n → tidy (λ _, True) n.
Proof.
  intros [Hi Hl Ho Hs]. split; [done|by apply Forall_true| |done]. apply Forall_true.
  intros e. unfold msg_tidy. destruct (env_message e); try done. by apply Forall_true.
Qed.

Lemma bounded_commit_step lc n : st_inv (storage n) → commit_index n < lc →
  bounded n (persist_commit_index (set_commit_index (min_index lc (last_index (storage n))) n)).1.
Proof.
  intros Hi Hc. set (c := min_index lc (last_index (storage n))).
  assert (Hlast : last_index (storage (persist_commit_index (set_commit_index c n)).1) = last_index (storage n)).
  { unfold persist_commit_index. simpl. case_if; simpl; [|done].
    destruct (save_hard_state_ok (storage n) (mkHard (current_term (hard_state (storage n)))
      (voted_for (hard_state (storage n))) c) Hi) as (s' & -> & Hi' & Hv & Hh). simpl.
    by rewrite !last_index_view, Hv. }
  assert (Hci : commit_index (persist_commit_index (set_commit_index c n)).1 = c)
    by (unfold persist_commit_index; simpl; case_if; done).
  split; [unfold persist_commit_index; simpl; case_if; done|].
  rewrite Hci, Hlast. unfold c, min_index. case_if; bool_to_prop; [left; lia|by right].
Qed.

Lemma bounded_append_entries from t pli plt es lc n : tidy (λ _, True) n →
  bounded n (handle_append_entries from t pli plt es lc n).1.
Proof.
  intros Ht. unfold handle_append_entries. cbv zeta.
  set (n0 := set_metrics (bump_received (metrics n)) n).
  assert (Ht0 : tidy (λ _, True) n0) by (revert Ht; by apply keep_same).
  apply (forward_bounded n n0); [by apply forward_same|]. case_if; [by apply forward_is_bounded, forward_same|].
  unfold se_bind at 1. pose proof (forward_become_follower t (Some from) n0) as Hf.
  pose proof (keep_become_follower (λ _, True) t (Some from) n0 Ht0) as Ht1.
  destruct (become_follower t (Some from) n0) as [n1 [[]|e]]; [|by apply forward_is_bounded].
  apply (forward_bounded n0 n1); [done|]. cbn [fst] in Ht1. cbn [se_bind se_modify].
  apply (forward_bounded n1 (set_election_elapsed 0 n1)); [by apply forward_same|].
  assert (Ht2 : tidy (λ _, True) (set_election_elapsed 0 n1)) by (revert Ht1; by apply keep_same).
  revert Ht2. generalize (set_election_elapsed 0 n1). intros n2 Ht2.
  unfold se_bind at 1. cbn [se_modify]. case_if; [by apply forward_is_bounded, forward_same|].
  unfold se_bind at 1. pose proof (forward_append_loop es pli n2) as Hl.
  pose proof (keep_append_loop (λ _, True) es pli n2 ltac:(by apply Forall_true) Ht2) as Ht3.
  destruct (append_loop es pli n2) as [n3 [mi|e]]; [|by apply forward_is_bounded].
  apply (forward_bounded n2 n3); [done|]. cbn [fst] in Ht3. unfold se_bind.
  destruct (commit_index n3 <? lc) eqn:Ec; [|by apply forward_is_bounded, forward_same]. bool_to_prop.
  pose proof (bounded_commit_step lc n3 (td_inv _ _ Ht3) Ec) as Hb.
  destruct (persist_commit_index _) as [n4 [[]|e]]; done.
Qed.

Lemma bounded_step from m n : tidy (λ _, True) n → bounded n (step from m n).1.
Proof.
  intros Ht. unfold step. unfold se_bind at 1.
  assert (Hf : ∀ n' : RaftNode S, tidy (λ _, True) n' → bounded n' (dispatch from m n').1).
  { intros n' Ht'. destruct m as [t li lt|t g|t pli plt es lc|t sc mi]; simpl.
    - apply forward_is_bounded. unfold handle_request_vote. cbv zeta.
      apply (se_bind_rel forward); [|intros ? ? _; by apply forward_same].
      case_if; [done|]. case_if; [|done].
      repeat (apply (se_bind_rel forward); [|intros ? ? _]); by apply forward_same.
    - apply forward_is_bounded. unfold handle_vote_resp. case_if; [done|]. cbv zeta.
      case_if; [|by apply forward_same]. etransitivity; [|apply forward_become_leader]. by apply forward_same.
    - by apply bounded_append_entries.
    - apply forward_is_bounded. unfold handle_append_resp. case_if; [done|]. destruct sc.
      + etransitivity; [|apply forward_advance]. by apply forward_same.
      + cbv zeta. etransitivity; [|apply forward_send_append]. by apply forward_same. }
  case_if; [|by apply Hf].
  pose proof (forward_become_follower (message_term m) None n) as Hb.
  pose proof (keep_become_follower (λ _, True) (message_term m) None n Ht) as Hk.
  destruct (become_follower (message_term m) None n) as [n1 [[]|e]]; [|by apply forward_is_bounded].
  apply (forward_bounded n n1); [done|]. by apply Hf.
Qed.
End forward.

(** ** The entry of a proposal *)

Section proposal.
Context {S : Type} `{RaftStorageSpec S}.
Implicit Types n : RaftNode S.

(** Role, term and log are as before. *)
Definition steady n n' : Prop :=
  st_inv (storage n) →
  st_inv (storage n') ∧ role n' = role n ∧ term n' = term n ∧ node_log n' = node_log n.

#[local] Instance steady_refl : Reflexive steady.
Proof. by intros n Hi. Qed.
#[local] Instance steady_trans : Transitive steady.
Proof.
  intros n1 n2 n3 H12 H23 Hi. destruct (H12 Hi) as (Hi2 & ? & ? & ?).
  destruct (H23 Hi2) as (? & ? & ? & ?). split_and!; congruence.
Qed.

Lemma steady_advance n : steady n (maybe_advance_commit n).1.
Proof.
  unfold maybe_advance_commit. cbv zeta. case_if; [|done]. intros Hi.
  unfold persist_commit_index. simpl. case_if; [|done]. unfold on_storage. simpl.
  match goal with |- context [save_hard_state ?hs ?s] =>
    destruct (save_hard_state_ok s hs Hi) as (s' & -> & Hi' & Hv & Hh) end.
  simpl. split_and!; [done|done| |]; unfold term, node_log; simpl; by rewrite ?Hh, ?Hv.
Qed.

Lemma steady_broadcast n : steady n (broadcast_append n).
Proof. apply (foldl_rel steady). by intros m p Hi. Qed.

(** An accepted proposal is the last entry of the log. *)
Lemma propose_appends c n n' idx :
  st_inv (storage n) → whole n → propose c n = (n', Ok idx) →
  role n' = Leader ∧ term n' = term n ∧ idx = N.of_nat (length (node_log n)) + 1 ∧
  node_log n' = node_log n ++ [mkEntry (term n) idx c].
Proof.
  intros Hi Hw. unfold propose. case_if; [done|]. bool_to_prop. cbv zeta.
  destruct (whole_last n Hi Hw) as [Hlast _]. rewrite Hlast. set (e := mkEntry _ _ _).
  unfold se_bind at 1, on_storage. destruct (append [e] (storage n)) as [s' [[]|er]] eqn:Ea; [|done].
  destruct (validate_suffix [e] (lv_last (st_view (storage n))) (lv_last_term (st_view (storage n)))) as [[]|er] eqn:Ev.
  2:{ by rewrite (append_err _ _ _ Hi Ev) in Ea. }
  destruct (append_ok _ _ Hi Ev) as (s2 & Ha2 & Hi' & Hv & Hh). rewrite Ha2 in Ea. injection Ea as ->.
  unfold se_bind, se_modify, se_ret.
  match goal with |- context [maybe_advance_commit ?m] => set (n2 := m); pose proof (steady_advance n2 Hi') as Hst end.
  destruct (maybe_advance_commit n2) as [n3 [[]|er]]; [|done]. simpl in Hst. destruct Hst as (Hi3 & Hr3 & Ht3 & Hl3).
  intros [= <- <-]. destruct (steady_broadcast n3 Hi3) as (_ & Hr4 & Ht4 & Hl4).
  assert (Hr2 : role n2 = Leader) by (by unfold n2).
  split_and!; [congruence| |done|].
  - rewrite Ht4, Ht3. unfold term. simpl. by rewrite Hh.
  - rewrite Hl4, Hl3. unfold node_log. simpl. by rewrite Hv.
Qed.
End proposal.
