(* ===== verification/RaftFile.v ===== *)
(** * The durable Raft log

    Models [crates/auradb-raft/src/storage.rs]: the three files of a Raft
    directory, [FileStorage] over them, its trait implementation, compaction and
    snapshot install, and recovery from the files.

    A file is an optional byte string ([None]: the file is absent).  A write that
    the source performs by writing a temporary file and renaming it over the target
    is one replacement of the target; an append extends the file.  Input and output
    are assumed to succeed; what a crash leaves behind is stated by theorems about
    [file_open] on a torn or half-updated directory.  [serde_json] and
    [crc32fast] are parameters ([RaftCodec]). *)

From S2P Require Import Prelude Text Framing RaftLog.

Local Open Scope N_scope.

Record CompactionMeta := mkMeta {
  cm_format_version : N;
  cm_last_included_index : N;
  cm_last_included_term : N;
}.

Definition COMPACTION_FORMAT_VERSION : N := 1.

(** The JSON encodings of [serde_json], with the checksum of [crc32fast]. *)
Class RaftCodec := {
  enc_entry : LogEntry → list byte;
  dec_entry : list byte → option LogEntry;
  enc_hard : HardState → list byte;
  dec_hard : list byte → option HardState;
  enc_meta : CompactionMeta → list byte;
  dec_meta : list byte → option CompactionMeta;
  #[global] raft_crc :: Crc32;
}.

(** Their documented behaviour: what was serialised is read back, text is UTF-8, a
    checksum is a [u32]. *)
Class RaftCodecLaws `{RaftCodec} : Prop := {
  dec_enc_entry : ∀ e, dec_entry (enc_entry e) = Some e;
  dec_enc_hard : ∀ h, dec_hard (enc_hard h) = Some h;
  dec_enc_meta : ∀ m, dec_meta (enc_meta m) = Some m;
  utf8_enc_hard : ∀ h, utf8_valid (enc_hard h) = true;
  utf8_enc_meta : ∀ m, utf8_valid (enc_meta m) = true;
  #[global] raft_crc_laws :: Crc32Laws;
}.

(** ** The directory *)

Record RaftDir := mkDir {
  log_file : option (list byte);
  state_file : option (list byte);
  compaction_file : option (list byte);
}.

Record FileStorage := mkFile {
  fs_dir : RaftDir;
  fs_entries : list LogEntry;
  fs_hard_state : HardState;
  fs_base_index : LogIndex;
  fs_base_term : Term;
}.

Record CompactionOutcome := mkOutcome {
  co_compacted : bool;
  co_entries_discarded : N;
  co_last_included_index : LogIndex;
  co_last_included_term : Term;
  co_last_index : LogIndex;
  co_dry_run : bool;
}.

Section file.
Context `{RaftCodec}.
Implicit Types s : FileStorage.

Definition set_log_file (bytes : list byte) (d : RaftDir) : RaftDir :=
  mkDir (Some bytes) (state_file d) (compaction_file d).
Definition set_state_file (bytes : list byte) (d : RaftDir) : RaftDir :=
  mkDir (log_file d) (Some bytes) (compaction_file d).
Definition set_compaction_file (bytes : list byte) (d : RaftDir) : RaftDir :=
  mkDir (log_file d) (state_file d) (Some bytes).

(** ** Frames *)

Definition encode_frame (entry : LogEntry) : list byte := frame (enc_entry entry).

Definition read_entry : list byte → nat → FrameRead LogEntry := read_frame dec_entry.

(** The loop; every good frame is at least twelve bytes long, so the length of
    the file bounds the number of passes. *)
Fixpoint replay_loop (fuel : nat) (buf : list byte) (base_index : LogIndex)
    (offset : nat) (last_index : LogIndex) (last_term : Term) (first : bool)
    (entries : list LogEntry) : Result RaftError (list LogEntry * nat) :=
  match fuel with
  | O => Ok (entries, offset)
  | Datatypes.S fuel' =>
      if (offset <? length buf)%nat then
        match read_entry buf offset with
        | FrTorn => Ok (entries, offset)
        | FrBad => Err RCorruption
        | FrOk entry body_end =>
            if (first && negb (base_index =? 0)
                && negb (e_index entry =? index_next base_index))%bool
            then Err RCorruption
            else match validate_suffix [entry] last_index last_term with
                 | Err _ => Err RCorruption
                 | Ok _ =>
                     replay_loop fuel' buf base_index body_end (e_index entry)
                       (e_term entry) false (entries ++ [entry])
                 end
        end
      else Ok (entries, offset)
  end.

Definition replay_log (log : option (list byte)) (base_index : LogIndex) (base_term : Term)
  : Result RaftError (list LogEntry * nat) :=
  match log with
  | None => Ok ([], O)
  | Some buf => replay_loop (length buf) buf base_index 0 base_index base_term true []
  end.

(** ** Opening a directory *)

Definition load_compaction (file : option (list byte)) : Result RaftError (LogIndex * Term) :=
  match file with
  | None => Ok (0, 0)
  | Some text =>
      if negb (utf8_valid text) then Err RIo
      else match dec_meta text with
           | None => Err RCorruption
           | Some meta =>
               if COMPACTION_FORMAT_VERSION <? cm_format_version meta then Err RCorruption
               else Ok (cm_last_included_index meta, cm_last_included_term meta)
           end
  end.

Definition load_state (file : option (list byte)) : Result RaftError HardState :=
  match file with
  | None => Ok hard_default
  | Some text =>
      if negb (utf8_valid text) then Err RIo
      else match dec_hard text with
           | None => Err RCorruption
           | Some hs => Ok hs
           end
  end.

(** [FileStorage::open]: a torn tail is cut off the file. *)
Definition file_open (d : RaftDir) : Result RaftError FileStorage :=
  let? (base_index, base_term) := load_compaction (compaction_file d) in
  let? (entries, valid_len) := replay_log (log_file d) base_index base_term in
  let log := match log_file d with Some l => l | None => [] end in
  let d := set_log_file (take valid_len log) d in
  let? hard := load_state (state_file d) in
  Ok (mkFile d entries hard base_index base_term).

(** ** The trait *)

Definition fs_last_index (s : FileStorage) : LogIndex :=
  fs_base_index s + N.of_nat (length (fs_entries s)).

Definition fs_last_term (s : FileStorage) : Term :=
  match last (fs_entries s) with Some e => e_term e | None => fs_base_term s end.

Definition slot (s : FileStorage) (index : LogIndex) : option nat :=
  if index <=? fs_base_index s then None
  else
    let rel := N.to_nat (index - fs_base_index s - 1) in
    if (rel <? length (fs_entries s))%nat then Some rel else None.

Definition fs_term_at (s : FileStorage) (index : LogIndex) : option Term :=
  if index =? 0 then Some 0
  else if index =? fs_base_index s then Some (fs_base_term s)
  else match slot s index with
       | Some rel => e_term <$> fs_entries s !! rel
       | None => None
       end.

Definition fs_entry_at (s : FileStorage) (index : LogIndex) : option LogEntry :=
  match slot s index with
  | Some rel => fs_entries s !! rel
  | None => None
  end.

Definition fs_entries_from (s : FileStorage) (index : LogIndex) : list LogEntry :=
  let start_abs := N.max index (fs_base_index s + 1) in
  match slot s start_abs with
  | Some rel => drop rel (fs_entries s)
  | None => []
  end.

Definition set_fs_dir (d : RaftDir) (s : FileStorage) : FileStorage :=
  mkFile d (fs_entries s) (fs_hard_state s) (fs_base_index s) (fs_base_term s).

Definition set_fs_entries (es : list LogEntry) (s : FileStorage) : FileStorage :=
  mkFile (fs_dir s) es (fs_hard_state s) (fs_base_index s) (fs_base_term s).

Definition encode_log (entries : list LogEntry) : list byte := frames (enc_entry <$> entries).

Definition rewrite_log (s : FileStorage) : FileStorage :=
  set_fs_dir (set_log_file (encode_log (fs_entries s)) (fs_dir s)) s.

Definition fs_append (entries : list LogEntry) : SE FileStorage RaftError unit := λ s,
  match validate_suffix entries (fs_last_index s) (fs_last_term s) with
  | Err e => (s, Err e)
  | Ok _ =>
      match entries with
      | [] => (s, Ok tt)
      | _ :: _ =>
          let log := match log_file (fs_dir s) with Some l => l | None => [] end in
          let s := set_fs_dir (set_log_file (log ++ encode_log entries) (fs_dir s)) s in
          (set_fs_entries (fs_entries s ++ entries) s, Ok tt)
      end
  end.

Definition fs_truncate_from (index : LogIndex) : SE FileStorage RaftError unit := λ s,
  if (negb (index =? 0) && (index <=? fs_base_index s))%bool
  then (s, Err (RCompacted index (fs_base_index s)))
  else
    let keep_rel := N.to_nat (index - fs_base_index s - 1) in
    if (keep_rel <? length (fs_entries s))%nat
    then (rewrite_log (set_fs_entries (take keep_rel (fs_entries s)) s), Ok tt)
    else (s, Ok tt).

Definition fs_save_hard_state (hs : HardState) : SE FileStorage RaftError unit := λ s,
  (mkFile (set_state_file (enc_hard hs) (fs_dir s)) (fs_entries s) hs
     (fs_base_index s) (fs_base_term s), Ok tt).

#[export] Instance file_storage : RaftStorage FileStorage := {|
  append := fs_append;
  truncate_from := fs_truncate_from;
  term_at := fs_term_at;
  entry_at := fs_entry_at;
  entries_from := fs_entries_from;
  last_index := fs_last_index;
  last_term := fs_last_term;
  save_hard_state := fs_save_hard_state;
  hard_state := fs_hard_state;
|}.

(** ** Compaction *)

Definition compactable_prefix (s : FileStorage) (applied : LogIndex) : LogIndex :=
  let bound := N.min (N.min applied (hs_commit_index (fs_hard_state s))) (fs_last_index s) in
  N.max bound (fs_base_index s).

Definition read_at (s : FileStorage) (index : LogIndex)
  : Result RaftError (option LogEntry) :=
  if (negb (index =? 0) && (index <=? fs_base_index s))%bool
  then Err (RCompacted index (fs_base_index s))
  else Ok (fs_entry_at s index).

Definition plan_compaction (s : FileStorage) (up_to applied : LogIndex) (dry_run : bool)
  : Result RaftError CompactionOutcome :=
  let last := fs_last_index s in
  if last <? up_to then Err RCompactionRefused
  else if hs_commit_index (fs_hard_state s) <? up_to then Err RCompactionRefused
  else if applied <? up_to then Err RCompactionRefused
  else if up_to <=? fs_base_index s then
    Ok (mkOutcome false 0 (fs_base_index s) (fs_base_term s) last dry_run)
  else match fs_term_at s up_to with
       | None => Err RCompactionRefused
       | Some t => Ok (mkOutcome true (up_to - fs_base_index s) up_to t last dry_run)
       end.

Definition compact_dry_run (s : FileStorage) (up_to applied : LogIndex)
  : Result RaftError CompactionOutcome := plan_compaction s up_to applied true.

Definition write_compaction (i : LogIndex) (t : Term) (s : FileStorage) : FileStorage :=
  set_fs_dir (set_compaction_file (enc_meta (mkMeta COMPACTION_FORMAT_VERSION i t))
                (fs_dir s)) s.

Definition set_base (i : LogIndex) (t : Term) (s : FileStorage) : FileStorage :=
  mkFile (fs_dir s) (fs_entries s) (fs_hard_state s) i t.

Definition retain_after (i : LogIndex) (es : list LogEntry) : list LogEntry :=
  filter (λ e, i < e_index e) es.

Definition compact (up_to applied : LogIndex)
  : SE FileStorage RaftError CompactionOutcome := λ s,
  match plan_compaction s up_to applied false with
  | Err e => (s, Err e)
  | Ok plan =>
      if negb (co_compacted plan) then (s, Ok plan)
      else
        let t := co_last_included_term plan in
        let s := write_compaction up_to t s in
        let s := set_base up_to t s in
        let s := set_fs_entries (retain_after up_to (fs_entries s)) s in
        (rewrite_log s, Ok plan)
  end.

Definition install_snapshot (lii : LogIndex) (lit : Term) : SE FileStorage RaftError bool := λ s,
  if lii <=? fs_base_index s then (s, Ok false)
  else
    let retain_suffix := bool_decide (fs_term_at s lii = Some lit) in
    let s := write_compaction lii lit s in
    let s := set_fs_entries (if retain_suffix then retain_after lii (fs_entries s) else []) s in
    let s := set_base lii lit s in
    let s := rewrite_log s in
    let hs := fs_hard_state s in
    let s := if hs_commit_index hs <? lii
             then (fs_save_hard_state (mkHard (current_term hs) (voted_for hs) lii) s).1
             else s in
    (s, Ok true).
End file.

#[global] Arguments encode_frame : simpl never.
#[global] Arguments encode_log : simpl never.

(** ** Frames are read back *)

Section frames.
Context `{RaftCodec, !RaftCodecLaws}.

Lemma length_raft_frame e : length (encode_frame e) = (12 + length (enc_entry e))%nat.
Proof. apply length_frame. Qed.

Lemma encode_log_cons e es : encode_log (e :: es) = encode_frame e ++ encode_log es.
Proof. done. Qed.

Lemma encode_log_app es fs : encode_log (es ++ fs) = encode_log es ++ encode_log fs.
Proof. unfold encode_log. by rewrite fmap_app, frames_app. Qed.

Lemma read_entry_encode pre e post :
  addressable (pre ++ encode_frame e) →
  read_entry (pre ++ encode_frame e ++ post) (length pre)
    = FrOk e (length (pre ++ encode_frame e)).
Proof. intros Ha. apply read_frame_ok; [done|apply dec_enc_entry]. Qed.
End frames.

(** ** Replay *)

Section replay.
Context `{RaftCodec, !RaftCodecLaws}.

Lemma validate_suffix_one e li lt :
  validate_suffix [e] li lt = Ok tt ↔ e_index e = index_next li ∧ lt <= e_term e.
Proof.
  unfold validate_suffix. simpl. repeat case_if; bool_to_prop; intuition (try congruence; lia).
Qed.

Lemma validate_loop_cons e es li lt :
  validate_loop (e :: es) (index_next li) lt = Ok tt ↔
  validate_suffix [e] li lt = Ok tt ∧
  validate_loop es (index_next (e_index e)) (e_term e) = Ok tt.
Proof.
  rewrite validate_suffix_one. simpl.
  destruct (e_index e =? index_next li) eqn:E1; simpl; bool_to_prop; [|naive_solver].
  destruct (e_term e <? lt) eqn:E2; bool_to_prop.
  - split; [done|]. intros [[_ ?] _]. lia.
  - rewrite <- E1. naive_solver.
Qed.

(** What follows the last complete frame. *)
Definition log_ends (buf : list byte) (offset : nat) : Prop :=
  offset = length buf ∨ read_entry buf offset = FrTorn.

(** Complete frames of a valid suffix are consumed one pass each. *)
Lemma replay_loop_frames es fuel pre tail base li lt first acc :
  addressable (pre ++ encode_log es) → (first = true → li = base) →
  validate_loop es (index_next li) lt = Ok tt →
  ∃ li' lt' first', (first' = true → li' = base) ∧
    replay_loop (length es + fuel) (pre ++ encode_log es ++ tail) base (length pre)
      li lt first acc
    = replay_loop fuel (pre ++ encode_log es ++ tail) base (length (pre ++ encode_log es))
        li' lt' first' (acc ++ es).
Proof.
  revert pre li lt first acc.
  induction es as [|e es IH]; intros pre li lt first acc Ha Hfirst Hv.
  { exists li, lt, first. split; [done|]. by rewrite !app_nil_r. }
  apply validate_loop_cons in Hv as [Hv1 Hv2].
  pose proof (proj1 (validate_suffix_one _ _ _) Hv1) as [Hidx _].
  rewrite encode_log_cons in Ha |- *.
  assert (Ha1 : addressable (pre ++ encode_frame e)).
  { unfold addressable in *. rewrite !length_app in *. lia. }
  destruct (IH (pre ++ encode_frame e) (e_index e) (e_term e) false (acc ++ [e]))
    as (li' & lt' & first' & Hf & Hr); [by rewrite <- app_assoc|done|done|].
  exists li', lt', first'. split; [done|].
  rewrite <- !app_assoc in Hr. change ([e] ++ es) with (e :: es) in Hr.
  rewrite <- !app_assoc, <- Hr. cbn [replay_loop length Nat.add].
  rewrite read_entry_encode by done.
  assert ((length pre <? length (pre ++ encode_frame e ++ encode_log es ++ tail))%nat = true)
    as -> by (apply Nat.ltb_lt; rewrite !length_app, length_raft_frame; lia).
  assert ((first && negb (base =? 0) && negb (e_index e =? index_next base))%bool = false)
    as ->.
  { destruct first; [|done]. rewrite (Hfirst eq_refl) in Hidx. rewrite Hidx, N.eqb_refl.
    by rewrite andb_false_r. }
  by rewrite Hv1.
Qed.

Lemma length_encode_log es : (length es ≤ length (encode_log es))%nat.
Proof. unfold encode_log. rewrite <- (length_fmap enc_entry es) at 1. apply length_frames. Qed.

Lemma replay_log_frames es tail base base_term :
  addressable (encode_log es) → validate_suffix es base base_term = Ok tt →
  ∃ fuel li lt first, (length tail ≤ fuel)%nat ∧ (first = true → li = base) ∧
    replay_log (Some (encode_log es ++ tail)) base base_term
    = replay_loop fuel (encode_log es ++ tail) base (length (encode_log es)) li lt first es.
Proof.
  intros Ha Hv. pose proof (length_encode_log es) as Hl.
  destruct (replay_loop_frames es (length (encode_log es ++ tail) - length es) [] tail base
    base base_term true []) as (li & lt & first & Hf & Hr); [done..|].
  exists (length (encode_log es ++ tail) - length es)%nat, li, lt, first.
  split; [rewrite length_app; lia|]. split; [done|]. unfold replay_log.
  simpl in Hr. rewrite <- Hr. f_equal. rewrite length_app. lia.
Qed.

Lemma replay_log_valid es tail base base_term :
  addressable (encode_log es) → validate_suffix es base base_term = Ok tt →
  log_ends (encode_log es ++ tail) (length (encode_log es)) →
  replay_log (Some (encode_log es ++ tail)) base base_term
    = Ok (es, length (encode_log es)).
Proof.
  intros Ha Hv Hend.
  destruct (replay_log_frames es tail base base_term Ha Hv)
    as (fuel & li & lt & first & Hf & _ & ->).
  destruct fuel as [|fuel]; [done|]. simpl.
  destruct Hend as [<-| ->]; [by rewrite Nat.ltb_irrefl|by case_if].
Qed.

(** Whatever the file holds, an accepted log is contiguous and its terms never
    regress. *)
Lemma replay_loop_sound fuel buf base offset li lt first acc es off :
  replay_loop fuel buf base offset li lt first acc = Ok (es, off) →
  ∃ es', es = acc ++ es' ∧ validate_loop es' (index_next li) lt = Ok tt.
Proof.
  revert offset li lt first acc.
  induction fuel as [|fuel IH]; intros offset li lt first acc; simpl.
  - intros [= <- <-]. exists []. by rewrite app_nil_r.
  - case_if; [|intros [= <- <-]; exists []; by rewrite app_nil_r].
    destruct (read_entry buf offset) as [| |e n] eqn:E; [|done|].
    { intros [= <- <-]. exists []. by rewrite app_nil_r. }
    case_if; [done|]. destruct (validate_suffix [e] li lt) as [[]|] eqn:Ev; [|done].
    intros Hr. apply IH in Hr as (es' & -> & Hv). exists (e :: es').
    rewrite <- app_assoc. split; [done|]. by apply validate_loop_cons.
Qed.

End replay.

(** ** The contract *)

Section contract.
Context `{RaftCodec, !RaftCodecLaws}.
Implicit Types s : FileStorage.

Definition fs_view (s : FileStorage) : LogView :=
  mkView (fs_base_index s) (fs_base_term s) (fs_entries s).

(** The files describe the state in memory. *)
Definition fs_durable (s : FileStorage) : Prop :=
  log_file (fs_dir s) = Some (encode_log (fs_entries s)) ∧
  load_state (state_file (fs_dir s)) = Ok (fs_hard_state s) ∧
  load_compaction (compaction_file (fs_dir s)) = Ok (fs_base_index s, fs_base_term s).

Definition fs_inv (s : FileStorage) : Prop := lv_wf (fs_view s) ∧ fs_durable s.

Lemma load_state_enc h : load_state (Some (enc_hard h)) = Ok h.
Proof. unfold load_state. by rewrite utf8_enc_hard, dec_enc_hard. Qed.

Lemma load_compaction_enc i t :
  load_compaction (Some (enc_meta (mkMeta COMPACTION_FORMAT_VERSION i t))) = Ok (i, t).
Proof. unfold load_compaction. by rewrite utf8_enc_meta, dec_enc_meta. Qed.

Lemma slot_Some s i rel :
  slot s i = Some rel ↔
  fs_base_index s < i ∧ rel = N.to_nat (i - fs_base_index s - 1) ∧
  (rel < length (fs_entries s))%nat.
Proof.
  unfold slot. repeat case_if; bool_to_prop; intuition (try congruence; try lia).
Qed.

Lemma slot_None s i :
  slot s i = None ↔ i <= fs_base_index s ∨ fs_last_index s < i.
Proof.
  unfold slot, fs_last_index. repeat case_if; bool_to_prop; intuition (try congruence; try lia).
Qed.

Lemma fs_entry_at_view s i : fs_entry_at s i = lv_entry (fs_view s) i.
Proof.
  unfold fs_entry_at, lv_entry. simpl. destruct (slot s i) as [rel|] eqn:E.
  - apply slot_Some in E as (Hb & -> & Hl). case_if; bool_to_prop; [lia|done].
  - apply slot_None in E. unfold fs_last_index in E. case_if; bool_to_prop; [done|].
    symmetry. apply lookup_ge_None. lia.
Qed.

Lemma fs_term_at_view s i : fs_term_at s i = lv_term (fs_view s) i.
Proof.
  unfold fs_term_at, lv_term. rewrite <- fs_entry_at_view. simpl.
  repeat case_if; try done. unfold fs_entry_at. by destruct (slot s i).
Qed.

Lemma fs_entries_from_view s i : fs_entries_from s i = lv_from (fs_view s) i.
Proof.
  unfold fs_entries_from, lv_from. simpl. destruct (slot _ _) as [rel|] eqn:E.
  - apply slot_Some in E as (Hb & -> & Hl). f_equal. lia.
  - apply slot_None in E. unfold fs_last_index in E. rewrite drop_ge; [done|lia].
Qed.

Lemma rewrite_log_inv s :
  lv_wf (fs_view s) → load_state (state_file (fs_dir s)) = Ok (fs_hard_state s) →
  load_compaction (compaction_file (fs_dir s)) = Ok (fs_base_index s, fs_base_term s) →
  fs_inv (rewrite_log s).
Proof. intros. by split. Qed.

#[export] Program Instance file_storage_spec : RaftStorageSpec FileStorage := {|
  st_inv := fs_inv;
  st_view := fs_view;
|}.
Next Obligation. by intros s [? _]. Qed.
Next Obligation.
  intros s es (Hwf & Hl & Hs & Hc) Hv. simpl. unfold fs_append.
  change (fs_last_index s) with (lv_last (fs_view s)).
  change (fs_last_term s) with (lv_last_term (fs_view s)). rewrite Hv.
  destruct es as [|e es].
  - exists s. split; [done|]. split; [by split|]. split; [|done].
    unfold lv_append, fs_view. simpl. by rewrite app_nil_r.
  - eexists. split; [done|]. split; [|done]. split; [by apply (lv_wf_append (fs_view s))|].
    split; [|done]. simpl. by rewrite Hl, encode_log_app.
Qed.
Next Obligation.
  intros s es e _ Hv. simpl. unfold fs_append.
  change (fs_last_index s) with (lv_last (fs_view s)).
  change (fs_last_term s) with (lv_last_term (fs_view s)). by rewrite Hv.
Qed.
Next Obligation.
  intros s i (Hwf & Hl & Hs & Hc) Hi. simpl in *. unfold fs_truncate_from.
  assert ((negb (i =? 0) && (i <=? fs_base_index s))%bool = false) as ->.
  { destruct Hi as [->|Hi]; [done|]. apply N.leb_gt in Hi as ->. apply andb_false_r. }
  case_if; bool_to_prop; eexists; (split; [done|]).
  - split; [|done]. apply rewrite_log_inv; try done. by apply (lv_wf_truncate (fs_view s)).
  - split; [by split|]. split; [|done]. unfold lv_truncate, fs_view. simpl.
    by rewrite take_ge.
Qed.
Next Obligation.
  intros s i _ Hi Hb. simpl in *. unfold fs_truncate_from.
  apply N.eqb_neq in Hi as ->. apply N.leb_le in Hb as ->. done.
Qed.
Next Obligation. intros s i _. apply fs_term_at_view. Qed.
Next Obligation. intros s i _. apply fs_entry_at_view. Qed.
Next Obligation. intros s i _. apply fs_entries_from_view. Qed.
Next Obligation. done. Qed.
Next Obligation. done. Qed.
Next Obligation.
  intros s hs (Hwf & Hl & Hs & Hc). eexists. split; [done|]. split; [|done].
  split; [done|]. split; [done|]. split; [apply load_state_enc|done].
Qed.
End contract.

(** ** Recovery *)

Section recovery.
Context `{RaftCodec, !RaftCodecLaws}.
Implicit Types s : FileStorage.

(** A directory whose log holds the entries [es] and perhaps a torn frame. *)
Lemma file_open_ends s es tail :
  fs_durable s → validate_suffix es (fs_base_index s) (fs_base_term s) = Ok tt →
  addressable (encode_log es) →
  log_ends (encode_log es ++ tail) (length (encode_log es)) →
  file_open (set_log_file (encode_log es ++ tail) (fs_dir s)) =
    Ok (mkFile (set_log_file (encode_log es) (fs_dir s)) es (fs_hard_state s)
          (fs_base_index s) (fs_base_term s)).
Proof.
  intros (Hl & Hs & Hc) Hv Ha Hend. unfold file_open.
  cbn [log_file state_file compaction_file set_log_file]. rewrite Hc. cbn [res_bind].
  rewrite replay_log_valid by done. cbn [res_bind]. rewrite Hs. cbn [res_bind].
  by rewrite take_app_length.
Qed.

Lemma file_reopen_any s :
  fs_inv s → addressable (encode_log (fs_entries s)) → file_open (fs_dir s) = Ok s.
Proof.
  intros [[Hwf _] Hd] Ha. pose proof Hd as (Hl & _).
  pose proof (file_open_ends s (fs_entries s) [] Hd Hwf Ha) as Ho.
  rewrite app_nil_r in Ho. destruct s as [[l st c] es h bi bt]; simpl in *; subst.
  apply Ho. by left.
Qed.

(** C27: durability.  Reopening the directory of a storage that satisfies its
    invariant gives back exactly that storage: entries, hard state and compaction
    boundary. *)
Theorem file_reopen s :
  fs_inv s → addressable (encode_log (fs_entries s)) → file_open (fs_dir s) = Ok s.
Proof. apply file_reopen_any. Qed.

(** C28: crash during an append.  Whatever part of the new frames reached the
    file, the directory reopens with the old entries followed by a prefix of the
    new ones, the torn frame is cut off, and the invariant holds again. *)
Theorem append_crash_recovers s es k :
  fs_inv s →
  validate_suffix es (fs_last_index s) (fs_last_term s) = Ok tt →
  addressable (encode_log (fs_entries s ++ es)) →
  ∃ j s', (j ≤ length es)%nat ∧
    file_open (set_log_file (encode_log (fs_entries s) ++ take k (encode_log es)) (fs_dir s))
      = Ok s' ∧
    fs_inv s' ∧ fs_entries s' = fs_entries s ++ take j es ∧
    fs_hard_state s' = fs_hard_state s ∧ fs_base_index s' = fs_base_index s.
Proof.
  intros [Hwf Hd] Hv Ha. unfold encode_log at 2.
  destruct (take_frames (enc_entry <$> es) k) as (j & tail & Hj & Heq & Htail).
  rewrite length_fmap in Hj. rewrite <- fmap_take in Heq. fold (encode_log (take j es)) in Heq.
  set (all := fs_entries s ++ take j es).
  assert (Hall : encode_log (fs_entries s) ++ encode_log (take j es) = encode_log all)
    by (by rewrite <- encode_log_app).
  assert (Hn : take (length (fs_entries s) + j) (enc_entry <$> fs_entries s ++ es)
               = enc_entry <$> all).
  { rewrite <- fmap_take. by rewrite take_app_add. }
  assert (Hwf' : lv_wf (lv_append (fs_view s) (take j es)))
    by (apply lv_wf_append; [done|by apply validate_loop_take]).
  exists j. eexists. split; [done|]. split.
  { rewrite Heq, app_assoc, Hall. apply file_open_ends; try done.
    - apply Hwf'.
    - unfold encode_log at 1. rewrite <- Hn. by apply addressable_frames_prefix.
    - destruct Htail as [->|(p & m & Hp & Hm & ->)]; [left; by rewrite app_nil_r|].
      right. apply read_frame_torn; [|done]. unfold encode_log at 1. rewrite <- Hn.
      apply addressable_frames_take; [done|].
      rewrite fmap_app, lookup_app_r, length_fmap by (rewrite length_fmap; lia).
      by replace (length (fs_entries s) + j - length (fs_entries s))%nat with j by lia. }
  split; [|done]. split; [exact Hwf'|]. destruct Hd as (_ & Hs & Hc). done.
Qed.

(** Fail closed.  A fully present frame whose payload does not match its
    checksum makes the directory refuse to open, whatever follows it. *)
Theorem damaged_frame_refused s crc payload post :
  fs_inv s → crc < 2 ^ 32 → crc32 payload ≠ crc →
  let log := encode_log (fs_entries s) ++ be_bytes 8 (N.of_nat (length payload))
               ++ be_bytes 4 crc ++ payload ++ post in
  addressable log →
  file_open (set_log_file log (fs_dir s)) = Err RCorruption.
Proof.
  intros [[Hwf _] (Hl & Hs & Hc)] Hcrc Hne log Ha. unfold file_open.
  cbn [log_file state_file compaction_file set_log_file]. rewrite Hc. cbn [res_bind].
  assert (Ha' : addressable (encode_log (fs_entries s))).
  { unfold addressable, log in *. rewrite length_app in Ha. lia. }
  destruct (replay_log_frames (fs_entries s) (be_bytes 8 (N.of_nat (length payload))
    ++ be_bytes 4 crc ++ payload ++ post) (fs_base_index s) (fs_base_term s) Ha' Hwf)
    as (fuel & li & lt & first & Hf & _ & Hr).
  unfold log. rewrite Hr.
  destruct fuel as [|fuel]; [rewrite !length_app, !length_be_bytes in Hf; lia|].
  cbn [replay_loop]. unfold read_entry at 1. rewrite read_frame_damaged by done.
  case_if; bool_to_prop; [done|]. rewrite !length_app, !length_be_bytes in *. lia.
Qed.

(** Soundness of recovery.  Whatever bytes the files hold, a directory that
    opens has a log that is contiguous from the compaction boundary and whose
    terms never regress. *)
Theorem file_open_sound d s :
  file_open d = Ok s →
  validate_suffix (fs_entries s) (fs_base_index s) (fs_base_term s) = Ok tt.
Proof.
  unfold file_open. intros Ho. destruct (load_compaction _) as [[bi bt]|]; simpl in Ho; [|done].
  destruct (replay_log _ bi bt) as [[es n]|] eqn:Er; simpl in Ho; [|done].
  destruct (load_state _); simpl in Ho; [|done]. injection Ho as <-. simpl.
  destruct (log_file d) as [buf|]; simpl in Er; [|by injection Er as <- _].
  apply replay_loop_sound in Er as (es' & -> & Hv). done.
Qed.
End recovery.

(** ** Compaction *)

Section compaction.
Context `{RaftCodec, !RaftCodecLaws}.
Implicit Types s : FileStorage.

(** Dropping by index is dropping by position in a contiguous log. *)
Lemma retain_after_drop es base bt i :
  validate_suffix es base bt = Ok tt → base <= i →
  retain_after i es = drop (N.to_nat (i - base)) es.
Proof.
  unfold validate_suffix, retain_after. revert base bt.
  induction es as [|e es IH]; intros base bt; simpl.
  - intros _ _. by rewrite drop_nil.
  - intros Hv Hi. pose proof (proj1 (validate_loop_cons e es base bt) Hv) as [H1 H2].
    apply validate_suffix_one in H1 as [Hidx _]. unfold index_next in Hidx.
    rewrite filter_cons. case_decide as Hlt.
    + replace (N.to_nat (i - base)) with 0%nat by lia. rewrite drop_0. f_equal.
      rewrite list_filter_all; [done|]. apply Forall_lookup. intros n f Hf.
      rewrite (validate_loop_index _ _ _ _ _ H2 Hf). unfold index_next. lia.
    + rewrite (IH (e_index e) (e_term e)) by (done || lia).
      replace (N.to_nat (i - base)) with (S (N.to_nat (i - e_index e))) by lia. done.
Qed.

(** The view of a log whose prefix up to [i] is gone. *)
Definition lv_compact (v : LogView) (i : LogIndex) (t : Term) : LogView :=
  mkView i t (drop (N.to_nat (i - lv_base v)) (lv_entries v)).

Lemma lv_term_base v i t :
  lv_term v i = Some t → lv_base v < i →
  ∃ e, lv_entries v !! N.to_nat (i - lv_base v - 1) = Some e ∧ e_term e = t.
Proof.
  unfold lv_term, lv_entry. intros Ht Hi. repeat case_if; bool_to_prop; try lia; try done.
  by apply fmap_Some in Ht as (e & ? & ->); eauto.
Qed.

Lemma lv_wf_compact v i t :
  lv_wf v → lv_base v < i → lv_term v i = Some t → lv_wf (lv_compact v i t).
Proof.
  intros [Hv Hb] Hi Ht. destruct (lv_term_base _ _ _ Ht Hi) as (e & He & <-).
  split; [|simpl; lia]. unfold validate_suffix in *. simpl.
  set (n := N.to_nat (i - lv_base v)) in *.
  rewrite <- (take_drop n (lv_entries v)), validate_loop_app in Hv.
  assert (Hn : n = S (N.to_nat (i - lv_base v - 1))) by lia.
  assert (Hlast : last (take n (lv_entries v)) = Some e).
  { rewrite Hn, (take_S_r _ _ e) by done. apply last_snoc. }
  destruct (validate_loop (take n _) _ _); [|done]. rewrite Hlast in Hv.
  assert (Hlen : length (take n (lv_entries v)) = n).
  { rewrite length_take. apply lookup_lt_Some in He. lia. }
  rewrite Hlen in Hv. rewrite <- Hv. unfold index_next. f_equal. lia.
Qed.

Lemma lv_compact_last v i t :
  lv_base v < i → lv_term v i = Some t →
  lv_last (lv_compact v i t) = lv_last v ∧ lv_last_term (lv_compact v i t) = lv_last_term v.
Proof.
  intros Hi Ht. destruct (lv_term_base _ _ _ Ht Hi) as (e & He & <-).
  pose proof (lookup_lt_Some _ _ _ He) as Hlt. unfold lv_last, lv_last_term. simpl.
  split; [rewrite length_drop; lia|].
  set (n := N.to_nat (i - lv_base v)) in *.
  assert (Hn : n = S (N.to_nat (i - lv_base v - 1))) by lia.
  rewrite <- (take_drop n (lv_entries v)) at 2.
  rewrite last_app. destruct (last (drop n (lv_entries v))) eqn:E; [done|].
  rewrite Hn, (take_S_r _ _ e) by done. by rewrite last_snoc.
Qed.

Lemma lv_compact_entry v i t j :
  lv_base v < i → i < j → lv_entry (lv_compact v i t) j = lv_entry v j.
Proof.
  intros Hi Hj. unfold lv_entry. simpl. repeat case_if; bool_to_prop; try lia.
  rewrite lookup_drop. f_equal. lia.
Qed.

Lemma lv_compact_term v i t j :
  lv_base v < i → lv_term v i = Some t → i <= j → lv_term (lv_compact v i t) j = lv_term v j.
Proof.
  intros Hi Ht Hj. destruct (decide (i = j)) as [<-|Hne].
  - rewrite Ht. unfold lv_term. simpl. rewrite N.eqb_refl. case_if; bool_to_prop; [lia|done].
  - unfold lv_term. rewrite lv_compact_entry by lia. simpl.
    repeat case_if; bool_to_prop; done || lia.
Qed.

Lemma compact_effect s up_to applied plan :
  fs_inv s → plan_compaction s up_to applied false = Ok plan → co_compacted plan = true →
  ∃ t, lv_term (fs_view s) up_to = Some t ∧ fs_base_index s < up_to ∧
    up_to <= applied ∧ up_to <= hs_commit_index (fs_hard_state s) ∧
    co_last_included_index plan = up_to ∧ co_last_included_term plan = t ∧
    co_entries_discarded plan = up_to - fs_base_index s ∧
    let s' := (compact up_to applied s).1 in
    fs_inv s' ∧ fs_view s' = lv_compact (fs_view s) up_to t ∧
    fs_hard_state s' = fs_hard_state s.
Proof.
  intros [Hwf Hd] Hp Hc. unfold compact. rewrite Hp, Hc. simpl.
  unfold plan_compaction in Hp. repeat case_if; bool_to_prop; try done.
  { by injection Hp as <-. }
  rewrite fs_term_at_view in Hp. destruct (lv_term (fs_view s) up_to) as [t|] eqn:Et; [|done].
  injection Hp as <-. simpl. exists t. do 7 (split; [done || lia|]).
  destruct Hd as (_ & Hs & _). rewrite (retain_after_drop _ (fs_base_index s) (fs_base_term s));
    [|apply Hwf|lia]. split; [|done]. apply rewrite_log_inv; simpl.
  - by apply (lv_wf_compact (fs_view s)).
  - done.
  - apply load_compaction_enc.
Qed.

Lemma compact_noop s up_to applied :
  match plan_compaction s up_to applied false with
  | Ok plan => co_compacted plan = false
  | Err _ => True
  end → (compact up_to applied s).1 = s.
Proof.
  unfold compact. destruct (plan_compaction _ _ _ _) as [plan|]; [|done]. by intros ->.
Qed.

(** Compaction keeps the log.  Whatever the request, the invariant and the
    end of the log are kept, every entry above the new boundary and every term at
    or above it reads as before, and nothing that is uncommitted or not applied is
    discarded. *)
Theorem compact_preserves s up_to applied :
  fs_inv s →
  let s' := (compact up_to applied s).1 in
  fs_inv s' ∧ last_index s' = last_index s ∧ last_term s' = last_term s ∧
  hard_state s' = hard_state s ∧
  (∀ j, fs_base_index s' < j → entry_at s' j = entry_at s j) ∧
  (∀ j, fs_base_index s' <= j → term_at s' j = term_at s j) ∧
  (fs_base_index s' = fs_base_index s ∨
   fs_base_index s' <= applied ∧ fs_base_index s' <= hs_commit_index (hard_state s)).
Proof.
  intros Hinv s'. destruct (plan_compaction s up_to applied false) as [plan|e] eqn:Hp.
  - destruct (co_compacted plan) eqn:Hc.
    + destruct (compact_effect _ _ _ _ Hinv Hp Hc)
        as (t & Ht & Hb & Ha & Hcm & _ & _ & _ & Hinv' & Hview & Hhard).
      fold s' in Hinv', Hview, Hhard.
      assert (Hbase : fs_base_index s' = up_to) by by apply (f_equal lv_base) in Hview.
      split; [done|]. rewrite !(last_index_view), !last_term_view by done.
      cbn [st_view file_storage_spec]. rewrite Hview, Hbase.
      destruct (lv_compact_last (fs_view s) up_to t Hb Ht) as [-> ->].
      split_and!; try done.
      * intros j Hj. rewrite !entry_at_view by done. simpl. rewrite Hview.
        by apply lv_compact_entry.
      * intros j Hj. rewrite !term_at_view by done. simpl. rewrite Hview.
        by apply lv_compact_term.
      * by right.
    + assert (s' = s) as -> by (apply compact_noop; by rewrite Hp). auto 10.
  - assert (s' = s) as -> by (apply compact_noop; by rewrite Hp). auto 10.
Qed.

(** What may be compacted.  A request discards something exactly when it lies
    above the current boundary and at or below [compactable_prefix], and then it
    discards the whole prefix up to the request; a dry run reports the same. *)
Theorem compaction_bounds s up_to applied :
  fs_inv s →
  (fs_base_index s < up_to <= compactable_prefix s applied ↔
   ∃ plan, compact_dry_run s up_to applied = Ok plan ∧ co_compacted plan = true ∧
     co_last_included_index plan = up_to ∧
     co_entries_discarded plan = up_to - fs_base_index s ∧
     (compact up_to applied s).2 = Ok (mkOutcome true (up_to - fs_base_index s) up_to
        (co_last_included_term plan) (co_last_index plan) false) ∧
     fs_base_index (compact up_to applied s).1 = up_to).
Proof.
  intros Hinv. unfold compactable_prefix, compact_dry_run. split.
  - intros [Hb Hu].
    assert (Hle : up_to <= fs_last_index s ∧ up_to <= hs_commit_index (fs_hard_state s) ∧
                  up_to <= applied) by lia.
    destruct Hle as (Hl & Hc & Ha).
    assert (∃ t, fs_term_at s up_to = Some t) as [t Ht].
    { rewrite fs_term_at_view. unfold lv_term. repeat case_if; bool_to_prop; eauto.
      destruct (proj2 (lv_entry_Some (fs_view s) up_to)) as [e ->]; [by split|]. eauto. }
    assert (Hplan : ∀ b, plan_compaction s up_to applied b =
      Ok (mkOutcome true (up_to - fs_base_index s) up_to t (fs_last_index s) b)).
    { intros b. unfold plan_compaction. rewrite Ht. repeat case_if; bool_to_prop; done || lia. }
    eexists. split; [apply Hplan|]. simpl. unfold compact. rewrite Hplan. simpl. auto.
  - intros (plan & Hp & Hc & _). unfold plan_compaction in Hp.
    repeat case_if; bool_to_prop; try done; [by injection Hp as <-|]. lia.
Qed.

(** Crash inside a compaction.  Once the new boundary is on disk and before
    the log is rewritten, the directory refuses to open instead of losing the
    boundary. *)
Theorem compact_crash_refused s up_to t :
  fs_inv s → addressable (encode_log (fs_entries s)) →
  fs_base_index s < up_to <= fs_last_index s →
  file_open (fs_dir (write_compaction up_to t s)) = Err RCorruption.
Proof.
  intros [[Hwf _] (Hl & Hs & Hc)] Ha [Hb Hu]. unfold file_open, write_compaction.
  cbn [fs_dir set_fs_dir log_file state_file compaction_file set_compaction_file].
  rewrite load_compaction_enc. cbn [res_bind]. rewrite Hl. unfold replay_log.
  unfold fs_last_index in Hu. unfold fs_view in Hwf. simpl in *.
  destruct (fs_entries s) as [|e es]; [simpl in Hu; lia|].
  apply validate_loop_cons in Hwf as [[Hidx _]%validate_suffix_one _].
  rewrite encode_log_cons in Ha |- *.
  pose proof (read_entry_encode [] e (encode_log es)) as Hr.
  rewrite !app_nil_l in Hr. change (length []) with 0%nat in Hr.
  destruct (length (encode_frame e ++ encode_log es)) as [|n] eqn:El.
  { rewrite length_app, length_raft_frame in El. lia. }
  cbn [replay_loop]. rewrite El, Hr.
  - assert ((true && negb (up_to =? 0) && negb (e_index e =? index_next up_to))%bool = true)
      as ->; [|done]. rewrite Hidx. unfold index_next. simpl.
    apply andb_true_iff. rewrite !negb_true_iff, !N.eqb_neq. lia.
  - unfold addressable in *. rewrite length_app in Ha. lia.
Qed.

(** Snapshot install on a follower.  A snapshot at or below the boundary is a
    no-op; otherwise the boundary moves to the snapshot, the commit index covers
    it, term and vote are kept, and the log behind the boundary survives exactly
    when the follower's own entry there has the snapshot's term. *)
Theorem install_snapshot_spec s lii lit :
  fs_inv s →
  let r := install_snapshot lii lit s in
  fs_inv r.1 ∧
  (lii <= fs_base_index s → r = (s, Ok false)) ∧
  (fs_base_index s < lii →
     r.2 = Ok true ∧ fs_base_index r.1 = lii ∧ fs_base_term r.1 = lit ∧
     lii <= hs_commit_index (hard_state r.1) ∧
     current_term (hard_state r.1) = current_term (hard_state s) ∧
     voted_for (hard_state r.1) = voted_for (hard_state s) ∧
     fs_entries r.1 = if decide (term_at s lii = Some lit) then entries_from s (index_next lii)
                      else []).
Proof.
  intros Hinv. pose proof Hinv as [Hwf (Hl & Hs & Hc)]. cbv zeta.
  unfold install_snapshot. case_if; bool_to_prop.
  { split; [done|]. split; [done|]. lia. }
  assert (Hret : fs_term_at s lii = Some lit → retain_after lii (fs_entries s) =
                 fs_entries_from s (index_next lii)).
  { intros _. rewrite (retain_after_drop _ (fs_base_index s) (fs_base_term s)), 
      fs_entries_from_view; [|apply Hwf|lia]. unfold lv_from, index_next. simpl.
    f_equal. lia. }
  assert (Hwf' : ∀ es, es = (if bool_decide (fs_term_at s lii = Some lit)
                   then retain_after lii (fs_entries s) else []) → lv_wf (mkView lii lit es)).
  { intros es ->. case_bool_decide as Ht; [|split; [done|simpl; lia]].
    rewrite (retain_after_drop _ (fs_base_index s) (fs_base_term s)); [|apply Hwf|lia].
    rewrite fs_term_at_view in Ht. by apply (lv_wf_compact (fs_view s)). }
  assert (Hents : (if bool_decide (fs_term_at s lii = Some lit)
                   then retain_after lii (fs_entries s) else []) =
     if decide (term_at s lii = Some lit) then entries_from s (index_next lii) else []).
  { simpl. case_bool_decide as Ht; case_decide; try done. by apply Hret. }
  simpl. case_if; bool_to_prop; simpl.
  - split; [|split; [lia|]].
    + split; [by apply Hwf'|]. split; [done|].
      split; [apply load_state_enc|apply load_compaction_enc].
    + intros _. split_and!; done.
  - split; [|split; [lia|]].
    + split; [by apply Hwf'|]. split; [done|]. split; [done|apply load_compaction_enc].
    + intros _. split_and!; done.
Qed.
End compaction.

(** ** A concrete directory *)

Module RaftSample.

#[export] Instance CommandKind_countable : Countable CommandKind.
Proof.
refine (inj_countable'
  (λ k, match k with Noop => 0 | Database => 1 | Schema => 2 | Metadata => 3 | Config => 4 end)
  (λ n, if n =? 0 then Noop else if n =? 1 then Database else if n =? 2 then Schema
        else if n =? 3 then Metadata else Config) _).
by intros [].
Defined.

#[export] Instance LogEntry_countable : Countable LogEntry.
Proof.
refine (inj_countable'
  (λ e, (e_term e, e_index e, (cmd_version (e_command e), cmd_kind (e_command e),
                               cmd_payload (e_command e))))
  (λ '(t, i, (v, k, p)), mkEntry t i (mkCommand v k p)) _).
by intros [? ? []].
Defined.

#[export] Instance HardState_countable : Countable HardState.
Proof.
refine (inj_countable' (λ h, (current_term h, voted_for h, hs_commit_index h))
  (λ '(t, v, c), mkHard t v c) _).
by intros [].
Defined.

#[export] Instance CompactionMeta_eq_dec : EqDecision CompactionMeta.
Proof. solve_decision. Defined.

#[export] Instance CompactionMeta_countable : Countable CompactionMeta.
Proof.
refine (inj_countable'
  (λ m, (cm_format_version m, cm_last_included_index m, cm_last_included_term m))
  (λ '(v, i, t), mkMeta v i t) _).
by intros [].
Defined.

#[export] Instance sample_codec : RaftCodec := {|
enc_entry := sample_enc; dec_entry := sample_dec;
enc_hard := sample_enc; dec_hard := sample_dec;
enc_meta := sample_enc; dec_meta := sample_dec;
raft_crc := sample_crc;
|}.

#[export] Instance sample_codec_laws : RaftCodecLaws.
Proof.
split; intros; solve [apply sample_dec_enc | apply sample_enc_utf8 | exact sample_crc_bound].
Qed.

Definition sample_entry (t i : N) : LogEntry := mkEntry t i (command_new Database [x01; x02]).

Definition empty_storage : FileStorage := mkFile (mkDir (Some []) None None) [] hard_default 0 0.

(** Three entries of terms 1, 1, 2, the first two committed. *)
Definition sample_storage : FileStorage :=
(fs_save_hard_state (mkHard 2 (Some 1) 2)
  (fs_append [sample_entry 1 1; sample_entry 1 2; sample_entry 2 3] empty_storage).1).1.

Lemma open_empty : file_open (mkDir None None None) = Ok empty_storage.
Proof. done. Qed.

Lemma sample_inv : fs_inv sample_storage.
Proof. split; [by split|]. by split_and!; vm_compute. Qed.

(** Checks of the size of a concrete file, by evaluation. *)
Lemma addressable_dec buf : (N.of_nat (length buf) <=? u64_max) = true → addressable buf.
Proof. apply N.leb_le. Qed.

Lemma file_reopen_witness : file_open (fs_dir sample_storage) = Ok sample_storage.
Proof. apply file_reopen; [exact sample_inv|by vm_compute]. Defined.

Lemma append_crash_recovers_witness :
∃ j s', (j ≤ 1)%nat ∧
  file_open (set_log_file (encode_log (fs_entries sample_storage) ++
               take 40 (encode_log [sample_entry 2 4])) (fs_dir sample_storage)) = Ok s' ∧
  fs_inv s' ∧ fs_entries s' = fs_entries sample_storage ++ take j [sample_entry 2 4] ∧
  fs_hard_state s' = fs_hard_state sample_storage ∧
  fs_base_index s' = fs_base_index sample_storage.
Proof.
apply (append_crash_recovers sample_storage [sample_entry 2 4] 40);
  [exact sample_inv|by vm_compute|by vm_compute].
Defined.

Lemma damaged_frame_refused_witness :
file_open (set_log_file (encode_log (fs_entries sample_storage) ++
  be_bytes 8 2 ++ be_bytes 4 7 ++ [x01; x02] ++ [x00]) (fs_dir sample_storage))
= Err RCorruption.
Proof.
apply (damaged_frame_refused sample_storage 7 [x01; x02] [x00]);
  [exact sample_inv|done|by vm_compute|by vm_compute].
Defined.

Lemma file_open_sound_witness :
validate_suffix (fs_entries sample_storage) 0 0 = Ok tt.
Proof.
apply (file_open_sound (fs_dir sample_storage) sample_storage). by vm_compute.
Defined.

Lemma compact_preserves_witness :
fs_inv sample_storage ∧ last_index (compact 2 2 sample_storage).1 = 3 ∧
fs_base_index (compact 2 2 sample_storage).1 = 2.
Proof.
split; [exact sample_inv|].
destruct (compact_preserves sample_storage 2 2 sample_inv) as (_ & -> & _).
by vm_compute.
Defined.

Lemma compaction_bounds_witness :
0 < 2 <= compactable_prefix sample_storage 2 ∧
∃ plan, compact_dry_run sample_storage 2 2 = Ok plan ∧ co_compacted plan = true.
Proof.
assert (Hb : 0 < 2 <= compactable_prefix sample_storage 2) by by vm_compute.
split; [exact Hb|].
destruct (proj1 (compaction_bounds sample_storage 2 2 sample_inv) Hb) as (plan & ? & ? & _).
eauto.
Defined.

Lemma compact_crash_refused_witness :
file_open (fs_dir (write_compaction 2 1 sample_storage)) = Err RCorruption.
Proof.
apply (compact_crash_refused sample_storage 2 1);
  [exact sample_inv|by vm_compute|by vm_compute].
Defined.

Lemma install_snapshot_spec_witness :
fs_inv (install_snapshot 5 2 sample_storage).1 ∧
fs_base_index (install_snapshot 5 2 sample_storage).1 = 5.
Proof.
destruct (install_snapshot_spec sample_storage 5 2 sample_inv) as (Hi & _ & Hm).
split; [exact Hi|]. apply Hm. by vm_compute.
Defined.

End RaftSample.
