(* ===== verification/Cluster.v ===== *)
(** * Cluster identity and configuration

    Models [crates/auradb-cluster]: the ids of nodes and clusters and their text
    ([id.rs]), the validation of the cluster section of the configuration ([config.rs]),
    the identity files ([metadata.rs]) and the status record ([lib.rs]).

    Random ids are arguments.  The two identity files are byte strings that are replaced
    as a whole; their JSON is a parameter ([IdentityCodec]). *)

From S2P Require Import Prelude Text Core RaftLog RaftNode.

Local Open Scope N_scope.

(** [ClusterError] without its texts and paths. *)
Inductive ClusterError :=
| CIo
| CCorrupt
| CUnsupportedFormat (found supported : N)
| CIdentityConflict
| CConfig.

Abbreviation CRes := (Result ClusterError).

(** ** Ids *)

Abbreviation ClusterId := N (only parsing).

Definition id_new (value : N) : option N := if value =? 0 then None else Some value.

Definition node_id_display (id : NodeId) : list byte := hex_digits 16 id.
Definition cluster_id_display (id : ClusterId) : list byte := hex_digits 32 id.

(** [u64::from_str_radix]: the digits only grow the value, so the bound can be looked at
    in the end. *)
Definition u64_from_str_radix16 (l : list byte) : option N :=
  match from_str_radix16 l with
  | Some v => if v <? 2 ^ 64 then Some v else None
  | None => None
  end.

Definition node_id_from_str (s : list byte) : CRes NodeId :=
  match u64_from_str_radix16 (trim s) with
  | None => Err CIdentityConflict
  | Some v => match id_new v with Some id => Ok id | None => Err CIdentityConflict end
  end.

Definition cluster_id_from_str (s : list byte) : CRes ClusterId :=
  match from_str_radix16 (trim s) with
  | None => Err CIdentityConflict
  | Some v => match id_new v with Some id => Ok id | None => Err CIdentityConflict end
  end.

(** ** Configuration *)

Record PeerConfig := mkPeerConfig {
  pc_node_id : list byte;
  pc_addr : list byte;
  pc_client_addr : option (list byte);
}.

Record ClusterTlsConfig := mkClusterTls {
  ct_enabled : bool;
  ct_cert_path : option (list byte);
  ct_key_path : option (list byte);
  ct_ca_path : option (list byte);
}.

Record ClusterConfig := mkClusterConfig {
  cc_enabled : bool;
  cc_experimental_multi_node : bool;
  cc_allow_experimental_public_cluster : bool;
  cc_cluster_id : list byte;
  cc_node_id : list byte;
  cc_listen_addr : list byte;
  cc_advertise_addr : list byte;
  cc_advertise_client_addr : option (list byte);
  cc_bootstrap : bool;
  cc_peers : list PeerConfig;
  cc_peer_auth_token : list byte;
  cc_tls : ClusterTlsConfig;
}.

Definition DEFAULT_CLUSTER_ADDR : list byte := bytes_of "127.0.0.1:7172".

Definition cluster_config_default : ClusterConfig :=
  mkClusterConfig false false false [] [] DEFAULT_CLUSTER_ADDR DEFAULT_CLUSTER_ADDR None true [] []
    (mkClusterTls false None None None).

Definition cluster_config_single_node : ClusterConfig :=
  mkClusterConfig true false false [] [] DEFAULT_CLUSTER_ADDR DEFAULT_CLUSTER_ADDR None true [] []
    (mkClusterTls false None None None).

Definition is_multi_node (c : ClusterConfig) : bool :=
  (cc_enabled c && negb (bool_decide (cc_peers c = [])))%bool.

Definition colon : byte := x3a.

(** [str::rsplit_once(':')]. *)
Fixpoint rsplit_once (l : list byte) : option (list byte * list byte) :=
  match l with
  | [] => None
  | c :: rest =>
      match rsplit_once rest with
      | Some (h, p) => Some (c :: h, p)
      | None => if Byte.eqb c colon then Some ([], rest) else None
      end
  end.

Definition host_of (addr : list byte) : option (list byte) := fst <$> rsplit_once addr.

(** [addr.rsplit(':').next().unwrap_or("")]: what follows the last colon, or all of it. *)
Definition port_of (addr : list byte) : list byte :=
  match rsplit_once addr with Some (_, p) => p | None => addr end.

Definition decimal_value (c : byte) : option N :=
  if in_range 48 57 c then Some (Byte.to_N c - 48) else None.

Fixpoint parse_decimal (l : list byte) (acc : N) : option N :=
  match l with
  | [] => Some acc
  | c :: l' => match decimal_value c with
               | None => None
               | Some d => parse_decimal l' (acc * 10 + d)
               end
  end.

(** [parse::<u16>()]: a leading plus is allowed, an empty text is not. *)
Definition parse_u16 (l : list byte) : option N :=
  let digits := match l with
                | c :: l' => if Byte.eqb c x2b then l' else l
                | [] => []
                end in
  match digits with
  | [] => None
  | _ => match parse_decimal digits 0 with
         | Some v => if v <? 65536 then Some v else None
         | None => None
         end
  end.

Definition is_loopback_host (host : list byte) : bool :=
  (bool_decide (host = bytes_of "127.0.0.1") || bool_decide (host = bytes_of "::1")
   || bool_decide (host = bytes_of "localhost") || bool_decide (host = bytes_of "[::1]"))%bool.

Definition validate_addr (addr : list byte) : CRes unit :=
  match host_of addr with
  | None => Err CConfig
  | Some host =>
      if bool_decide (host = []) then Err CConfig
      else match parse_u16 (port_of addr) with Some _ => Ok tt | None => Err CConfig end
  end.

Definition validate_opt_addr (addr : option (list byte)) : CRes unit :=
  match addr with Some a => validate_addr a | None => Ok tt end.

Definition is_loopback (c : ClusterConfig) : bool :=
  match host_of (cc_listen_addr c) with Some h => is_loopback_host h | None => false end.

Definition non_loopback (addr : list byte) : bool :=
  negb (bool_decide (is_loopback_host <$> host_of addr = Some true)).

Definition is_public (c : ClusterConfig) : bool :=
  (non_loopback (cc_listen_addr c) || non_loopback (cc_advertise_addr c)
   || existsb (λ p, non_loopback (pc_addr p)) (cc_peers c))%bool.

(** [map_err(ClusterError::Config)] on a parsed id. *)
Definition as_config {A} (r : CRes A) : CRes A :=
  match r with Ok a => Ok a | Err _ => Err CConfig end.

(** The loop over the peers; the sets are those of the addresses and ids seen so far. *)
Fixpoint validate_peers (c : ClusterConfig) (own_node : option NodeId)
    (seen_addr : list (list byte)) (seen_node : gset NodeId) (ps : list PeerConfig) : CRes unit :=
  match ps with
  | [] => Ok tt
  | peer :: rest =>
      let? _ := validate_addr (pc_addr peer) in
      let? _ := validate_opt_addr (pc_client_addr peer) in
      if bool_decide (pc_node_id peer = []) then Err CConfig
      else
        let? peer_node := as_config (node_id_from_str (pc_node_id peer)) in
        let norm := trim (pc_addr peer) in
        if bool_decide (norm ∈ seen_addr) then Err CConfig
        else if bool_decide (peer_node ∈ seen_node) then Err CConfig
        else if (bool_decide (norm = trim (cc_listen_addr c))
                 || bool_decide (norm = trim (cc_advertise_addr c)))%bool then Err CConfig
        else if bool_decide (Some peer_node = own_node) then Err CConfig
        else validate_peers c own_node (norm :: seen_addr) ({[peer_node]} ∪ seen_node) rest
  end.

Definition tls_complete (t : ClusterTlsConfig) : bool :=
  (bool_decide (is_Some (ct_cert_path t)) && bool_decide (is_Some (ct_key_path t))
   && bool_decide (is_Some (ct_ca_path t)))%bool.

Definition validate_config (c : ClusterConfig) : CRes unit :=
  if negb (cc_enabled c) then Ok tt
  else
    let? _ := validate_addr (cc_listen_addr c) in
    let? _ := validate_addr (cc_advertise_addr c) in
    let? _ := validate_opt_addr (cc_advertise_client_addr c) in
    let? own_node :=
      if bool_decide (cc_node_id c = []) then Ok None
      else let? id := as_config (node_id_from_str (cc_node_id c)) in Ok (Some id) in
    let? _ :=
      if bool_decide (cc_cluster_id c = []) then Ok tt
      else let? _ := as_config (cluster_id_from_str (cc_cluster_id c)) in Ok tt in
    if (negb (bool_decide (cc_peers c = [])) && negb (cc_experimental_multi_node c))%bool
    then Err CConfig
    else
      let? _ := validate_peers c own_node [] ∅ (cc_peers c) in
      if (negb (cc_bootstrap c) && bool_decide (cc_peers c = []))%bool then Err CConfig
      else
        let? _ :=
          if is_public c then
            if negb (cc_allow_experimental_public_cluster c) then Err CConfig
            else if negb (ct_enabled (cc_tls c)) then Err CConfig
            else if bool_decide (cc_peer_auth_token c = []) then Err CConfig
            else Ok tt
          else Ok tt in
        if (ct_enabled (cc_tls c) && negb (tls_complete (cc_tls c)))%bool
        then Err CConfig
        else Ok tt.

(** ** Identity files *)

Definition METADATA_FORMAT_VERSION : N := 1.

Record NodeMetadata := mkNodeMeta {
  nm_format_version : N;
  nm_node_id : NodeId;
  nm_created_by_version : string;
}.

Record ClusterMetadata := mkClusterMeta {
  cm_format_version : N;
  cm_cluster_id : ClusterId;
  cm_created_by_version : string;
}.

Record ClusterIdentity := mkIdentity {
  ci_node : NodeMetadata;
  ci_cluster : ClusterMetadata;
}.

Definition identity_node_id (i : ClusterIdentity) : NodeId := nm_node_id (ci_node i).
Definition identity_cluster_id (i : ClusterIdentity) : ClusterId := cm_cluster_id (ci_cluster i).

Class IdentityCodec := {
  enc_node_meta : NodeMetadata → list byte;
  dec_node_meta : list byte → option NodeMetadata;
  enc_cluster_meta : ClusterMetadata → list byte;
  dec_cluster_meta : list byte → option ClusterMetadata;
}.

(** JSON text is UTF-8, and ids of their width are read back. *)
Class IdentityCodecLaws `{IdentityCodec} : Prop := {
  dec_enc_node_meta : ∀ m, nm_node_id m < 2 ^ 64 →
    utf8_valid (enc_node_meta m) = true ∧ dec_node_meta (enc_node_meta m) = Some m;
  dec_enc_cluster_meta : ∀ m, cm_cluster_id m < 2 ^ 128 →
    utf8_valid (enc_cluster_meta m) = true ∧ dec_cluster_meta (enc_cluster_meta m) = Some m;
}.

(** The directory [cluster/]; a file is there with its contents or missing. *)
Record IdentityDir := mkIdentityDir {
  id_node_file : option (list byte);
  id_cluster_file : option (list byte);
}.

Section identity.
Context `{IdentityCodec}.

Definition is_initialized (d : IdentityDir) : bool :=
  (bool_decide (is_Some (id_node_file d)) && bool_decide (is_Some (id_cluster_file d)))%bool.

Definition check_format (found : N) : CRes unit :=
  if METADATA_FORMAT_VERSION <? found then Err (CUnsupportedFormat found METADATA_FORMAT_VERSION)
  else Ok tt.

Definition read_json {A} (dec : list byte → option A) (file : option (list byte)) : CRes A :=
  match file with
  | None => Err CIo
  | Some text =>
      if utf8_valid text
      then match dec text with Some a => Ok a | None => Err CCorrupt end
      else Err CIo
  end.

Definition load_identity (d : IdentityDir) : CRes (option ClusterIdentity) :=
  if negb (is_initialized d) then
    if (bool_decide (is_Some (id_node_file d)) || bool_decide (is_Some (id_cluster_file d)))%bool
    then Err CIdentityConflict
    else Ok None
  else
    let? node := read_json dec_node_meta (id_node_file d) in
    let? _ := check_format (nm_format_version node) in
    let? cluster := read_json dec_cluster_meta (id_cluster_file d) in
    let? _ := check_format (cm_format_version cluster) in
    Ok (Some (mkIdentity node cluster)).

Definition pin_differs (pinned : option N) (existing : N) : bool :=
  match pinned with Some want => negb (existing =? want) | None => false end.

(** [ClusterStore::init]: the directories that a crash can leave, the last one being the
    one it ends with.  [fresh_node] and [fresh_cluster_id] are the random ids. *)
Definition init_identity (pinned_node : option NodeId) (pinned_cluster : option ClusterId)
    (version : string) (fresh_node : NodeId) (fresh_cluster_id : ClusterId) (d : IdentityDir)
  : list IdentityDir * CRes ClusterIdentity :=
  match load_identity d with
  | Err e => ([d], Err e)
  | Ok (Some existing) =>
      ([d],
       if pin_differs pinned_node (nm_node_id (ci_node existing)) then Err CIdentityConflict
       else if pin_differs pinned_cluster (cm_cluster_id (ci_cluster existing))
       then Err CIdentityConflict
       else Ok existing)
  | Ok None =>
      let node := mkNodeMeta METADATA_FORMAT_VERSION (default fresh_node pinned_node) version in
      let cluster := mkClusterMeta METADATA_FORMAT_VERSION (default fresh_cluster_id pinned_cluster) version in
      let d1 := mkIdentityDir (Some (enc_node_meta node)) (id_cluster_file d) in
      let d2 := mkIdentityDir (id_node_file d1) (Some (enc_cluster_meta cluster)) in
      ([d; d1; d2], Ok (mkIdentity node cluster))
  end.
End identity.

(** ** Status *)

Record ClusterStatus := mkClusterStatus {
  cs_enabled : bool;
  cs_node_id : option N;
  cs_cluster_id : option N;
  cs_role : NodeRole;
  cs_term : N;
  cs_leader_id : option N;
  cs_commit_index : N;
  cs_applied_index : N;
  cs_last_log_index : N;
  cs_peer_count : nat;
  cs_single_node : bool;
}.

Definition status_disabled : ClusterStatus :=
  mkClusterStatus false None None Follower 0 None 0 0 0 0 false.

Definition status_idle_single_node (i : ClusterIdentity) : ClusterStatus :=
  mkClusterStatus true (Some (identity_node_id i)) (Some (identity_cluster_id i)) Follower 0 None
    0 0 0 0 true.

Definition role_accepts_writes (r : NodeRole) : bool := bool_decide (r = Leader).

Definition accepts_writes (s : ClusterStatus) : bool :=
  (negb (cs_enabled s) || role_accepts_writes (cs_role s))%bool.

Definition replication_lag_entries (s : ClusterStatus) : N := cs_commit_index s - cs_applied_index s.

(** What a leader knows of a peer. *)
Inductive CatchUpState :=
| CatchUnknown | CatchNormal | CatchProbing | CatchSnapshotNeeded | CatchSnapshotInstalling | CaughtUp.
