(* ===== verification/Config.v ===== *)
(** * Configuration and authentication of the server

    Models [crates/auradb-server/src/auth.rs] (hashing and verifying the static token) and
    [crates/auradb-server/src/config.rs] (the configuration, its defaults and its
    validation), with the parser of IP addresses of the standard library that
    [is_public_bind] calls.

    Argon2 and its hash format are a parameter ([Argon2]), and so is the file system that
    [validate] asks for certificates.  Reading the TOML text is not modelled. *)

From S2P Require Import Prelude Text Core RaftLog RaftNode Cluster Protocol.

Local Open Scope N_scope.

(** ** IP addresses *)

Module Net.

(** [std::net::parser]: a parser takes what it accepts off the front, or gives up and
    leaves the input as it was. *)
Definition Parser (A : Type) : Type := list byte → option (A * list byte).

Definition read_given_char (c : byte) : Parser unit := λ l,
  match l with
  | b :: l' => if Byte.eqb b c then Some (tt, l') else None
  | [] => None
  end.

Definition to_digit (radix : N) (c : byte) : option N :=
  let v := Byte.to_N c in
  let d := if in_range 48 57 c then Some (v - 48)
           else if in_range 97 122 c then Some (v - 87)
           else if in_range 65 90 c then Some (v - 55) else None in
  match d with Some d => if d <? radix then Some d else None | None => None end.

(** The digits at the front. *)
Fixpoint read_digits (radix : N) (l : list byte) : list N * list byte :=
  match l with
  | [] => ([], [])
  | c :: l' => match to_digit radix c with
               | None => ([], l)
               | Some d => let '(ds, rest) := read_digits radix l' in (d :: ds, rest)
               end
  end.

(** [read_number]: at most [max_digits] digits, a value that fits the type, and no
    leading zero unless allowed. *)
Definition read_number (radix : N) (max_digits : nat) (bound : N) (allow_zero_prefix : bool)
  : Parser N := λ l,
  let '(ds, rest) := read_digits radix l in
  let v := foldl (λ acc d, acc * radix + d) 0 ds in
  if (bool_decide (ds = []) || (max_digits <? length ds)%nat || (bound <=? v)
      || (negb allow_zero_prefix && bool_decide (head ds = Some 0) && (1 <? length ds)%nat))%bool
  then None else Some (v, rest).

Definition read_separator {A} (sep : byte) (index : nat) (inner : Parser A) : Parser A := λ l,
  match index with
  | O => inner l
  | S _ => match read_given_char sep l with Some (_, l') => inner l' | None => None end
  end.

Definition period : byte := x2e.

Fixpoint read_octets (count index : nat) : Parser (list N) := λ l,
  match count with
  | O => Some ([], l)
  | S count' =>
      match read_separator period index (read_number 10 3 256 false) l with
      | None => None
      | Some (o, l') =>
          match read_octets count' (S index) l' with
          | None => None
          | Some (os, rest) => Some (o :: os, rest)
          end
      end
  end.

Definition read_ipv4_addr : Parser (list N) := read_octets 4 0.

(** [read_groups]: fills up to [limit] groups, starting at [index]; says whether the last
    two come from an IPv4 address. *)
Fixpoint read_groups (left index : nat) (l : list byte) : list N * bool * list byte :=
  match left with
  | O => ([], false, l)
  | S left' =>
      let v4 := match left' with
                | O => None
                | S _ => read_separator colon index read_ipv4_addr l
                end in
      match v4 with
      | Some ([a; b; c; d], rest) => ([a * 256 + b; c * 256 + d], true, rest)
      | _ => match read_separator colon index (read_number 16 4 65536 true) l with
             | None => ([], false, l)
             | Some (g, l') =>
                 let '(gs, v4, rest) := read_groups left' (S index) l' in (g :: gs, v4, rest)
             end
      end
  end.

Definition read_ipv6_addr : Parser (list N) := λ l,
  let '(head, head_ipv4, l) := read_groups 8 0 l in
  if (length head =? 8)%nat then Some (head, l)
  else if head_ipv4 then None
  else match read_given_char colon l with
       | None => None
       | Some (_, l) =>
           match read_given_char colon l with
           | None => None
           | Some (_, l) =>
               let limit := (8 - (length head + 1))%nat in
               let '(tail, _, l) := read_groups limit 0 l in
               Some (head ++ replicate (8 - length head - length tail) 0 ++ tail, l)
           end
       end.

Inductive IpAddr :=
| V4 (octets : list N)
| V6 (groups : list N).

Definition read_ip_addr : Parser IpAddr := λ l,
  match read_ipv4_addr l with
  | Some (os, rest) => Some (V4 os, rest)
  | None => match read_ipv6_addr l with
            | Some (gs, rest) => Some (V6 gs, rest)
            | None => None
            end
  end.

(** [parse::<IpAddr>()]: all of the text is used. *)
Definition parse_ip (l : list byte) : option IpAddr :=
  match read_ip_addr l with
  | Some (ip, []) => Some ip
  | _ => None
  end.

Definition ip_is_loopback (ip : IpAddr) : bool :=
  match ip with
  | V4 os => bool_decide (head os = Some 127)
  | V6 gs => bool_decide (gs = [0; 0; 0; 0; 0; 0; 0; 1])
  end.

Definition to_ascii_lower (c : byte) : byte :=
  if in_range 65 90 c then byte_of_N (Byte.to_N c + 32) else c.

Definition eq_ignore_ascii_case (a b : list byte) : bool :=
  bool_decide (to_ascii_lower <$> a = to_ascii_lower <$> b).
End Net.

(** ** Static tokens *)

(** [verify_password]: a match, [Error::Password], or another error. *)
Inductive Verdict := VMatch | VMismatch | VFailed.

Class Argon2 := {
  phc_algorithm : string → option string;
  argon2_hash : string → string → option string;
  argon2_verify : string → string → Verdict;
}.

(** What the crate documents: a hash is a PHC string of Argon2id, and verifies the token it
    was made from. *)
Class Argon2Laws `{Argon2} : Prop := {
  argon2_hash_phc : ∀ token salt hash,
    argon2_hash token salt = Some hash → phc_algorithm hash = Some "argon2id"%string;
  argon2_verify_hash : ∀ token salt hash,
    argon2_hash token salt = Some hash → argon2_verify hash token = VMatch;
}.

Section auth.
Context `{Argon2}.

(** The random salt is an argument. *)
Definition hash_token (salt token : string) : Res string :=
  if bool_decide (token = ""%string) then Err EInvalidRequest
  else match argon2_hash token salt with Some hash => Ok hash | None => Err EInternal end.

Definition verify_token (stored_hash candidate : string) : Res bool :=
  match phc_algorithm stored_hash with
  | None => Err EConfig
  | Some _ =>
      match argon2_verify stored_hash candidate with
      | VMatch => Ok true
      | VMismatch => Ok false
      | VFailed => Err EInternal
      end
  end.

Definition validate_hash (stored_hash : string) : Res unit :=
  match phc_algorithm stored_hash with
  | None => Err EConfig
  | Some algorithm => if String.prefix "argon2" algorithm then Ok tt else Err EConfig
  end.
End auth.

(** ** The configuration *)

Record TlsConfig := mkTls {
  tls_enabled : bool;
  tls_cert_path : option (list byte);
  tls_key_path : option (list byte);
  tls_client_ca_path : option (list byte);
  tls_require_client_cert : bool;
}.

Definition tls_default : TlsConfig := mkTls false None None None false.

Inductive AuthMode := StaticToken.
Inductive TokenHashAlgorithm := Argon2id.

Record AuthConfig := mkAuth {
  au_enabled : bool;
  au_mode : AuthMode;
  au_token_hash : option string;
  au_token_hash_algorithm : TokenHashAlgorithm;
}.

Definition auth_default : AuthConfig := mkAuth false StaticToken None Argon2id.

Record MvccConfig := mkMvcc {
  mv_gc_enabled : bool;
  mv_gc_interval_secs : N;
  mv_min_retained_versions : nat;
  mv_transaction_timeout_secs : N;
  mv_abandoned_transaction_reaper_secs : N;
}.

Definition mvcc_default : MvccConfig := mkMvcc true 300 1 300 30.

Record LimitsConfig := mkLimits {
  lm_max_query_limit : nat;
  lm_max_full_text_query_tokens : nat;
  lm_max_document_depth : nat;
  lm_max_vector_dimension : nat;
  lm_max_transaction_write_set : nat;
  lm_max_query_time_ms : N;
}.

Definition limits_default : LimitsConfig :=
  mkLimits (N.to_nat 1000000) 64 64 (N.to_nat 4096) (N.to_nat 100000) 30000.

Record Config := mkConfig {
  cf_bind : list byte;
  cf_port : N;
  cf_data_dir : list byte;
  cf_max_payload_bytes : nat;
  cf_log_level : string;
  cf_log_json : bool;
  cf_cursor_timeout_secs : N;
  cf_page_size : nat;
  cf_sync_on_commit : bool;
  cf_metrics_enabled : bool;
  cf_allow_insecure_bind : bool;
  cf_tls : TlsConfig;
  cf_auth : AuthConfig;
  cf_mvcc : MvccConfig;
  cf_cluster : ClusterConfig;
  cf_limits : LimitsConfig;
}.

Definition config_default : Config :=
  mkConfig (bytes_of "127.0.0.1") 7171 (bytes_of ".local/auradb") DEFAULT_MAX_PAYLOAD "info" false
    300 100 true true false tls_default auth_default mvcc_default cluster_config_default
    limits_default.

Definition is_public_bind (c : Config) : bool :=
  let host := trim (cf_bind c) in
  if Net.eq_ignore_ascii_case host (bytes_of "localhost") then false
  else match Net.parse_ip host with
       | Some ip => negb (Net.ip_is_loopback ip)
       | None => true
       end.

Definition validate_limits (l : LimitsConfig) : Res unit :=
  if existsb (λ v, v =? 0)%nat
       [lm_max_query_limit l; lm_max_full_text_query_tokens l; lm_max_document_depth l;
        lm_max_vector_dimension l; lm_max_transaction_write_set l]
  then Err EConfig else Ok tt.

Definition validate_auth `{Argon2} (a : AuthConfig) : Res unit :=
  if negb (au_enabled a) then Ok tt
  else match au_token_hash a with
       | None => Err EConfig
       | Some hash => validate_hash hash
       end.

(** [self.cluster.validate().map_err(..)]. *)
Definition validate_cluster (c : ClusterConfig) : Res unit :=
  if negb (cc_enabled c) then Ok tt
  else match validate_config c with Ok _ => Ok tt | Err _ => Err EConfig end.

Section validate.
Context `{Argon2}.
(** [Path::exists]. *)
Variable exists_file : list byte → bool.

Definition file_missing (check_files : bool) (path : list byte) : bool :=
  (check_files && negb (exists_file path))%bool.

Definition validate_tls (check_files : bool) (t : TlsConfig) : Res unit :=
  if negb (tls_enabled t) then Ok tt
  else match tls_cert_path t, tls_key_path t with
       | Some cert, Some key =>
           if file_missing check_files cert then Err EConfig
           else if file_missing check_files key then Err EConfig
           else if tls_require_client_cert t then
             match tls_client_ca_path t with
             | None => Err EConfig
             | Some ca => if file_missing check_files ca then Err EConfig else Ok tt
             end
           else Ok tt
       | _, _ => Err EConfig
       end.

Definition validate_inner (check_files : bool) (c : Config) : Res unit :=
  let m := cf_mvcc c in
  if cf_port c =? 0 then Err EConfig
  else if (cf_max_payload_bytes c =? 0)%nat then Err EConfig
  else if (cf_page_size c =? 0)%nat then Err EConfig
  else if (mv_gc_enabled m && (mv_gc_interval_secs m =? 0))%bool then Err EConfig
  else if ((0 <? mv_transaction_timeout_secs m) && (mv_abandoned_transaction_reaper_secs m =? 0))%bool
  then Err EConfig
  else
    let? _ := validate_limits (cf_limits c) in
    let? _ := validate_auth (cf_auth c) in
    let? _ := validate_tls check_files (cf_tls c) in
    let? _ := validate_cluster (cf_cluster c) in
    if (is_public_bind c && negb (au_enabled (cf_auth c)) && negb (cf_allow_insecure_bind c))%bool
    then Err EConfig else Ok tt.

Definition validate (c : Config) : Res unit := validate_inner true c.
Definition validate_structural (c : Config) : Res unit := validate_inner false c.
End validate.

(** ** What a validated configuration guarantees *)

Section validated.
Context `{Argon2}.
Variable exists_file : list byte → bool.
Implicit Types c : Config.

(** The file is named and, if files are checked, there. *)
Definition file_ok (check_files : bool) (path : option (list byte)) : Prop :=
  ∃ p, path = Some p ∧ (check_files = true → exists_file p = true).

Record config_ok (check_files : bool) c : Prop := {
  co_port : cf_port c ≠ 0;
  co_payload : cf_max_payload_bytes c ≠ 0%nat;
  co_page : cf_page_size c ≠ 0%nat;
  co_gc : mv_gc_enabled (cf_mvcc c) = true → mv_gc_interval_secs (cf_mvcc c) ≠ 0;
  co_reaper : mv_transaction_timeout_secs (cf_mvcc c) ≠ 0 →
    mv_abandoned_transaction_reaper_secs (cf_mvcc c) ≠ 0;
  co_limits : Forall (λ v, v ≠ 0%nat)
    [lm_max_query_limit (cf_limits c); lm_max_full_text_query_tokens (cf_limits c);
     lm_max_document_depth (cf_limits c); lm_max_vector_dimension (cf_limits c);
     lm_max_transaction_write_set (cf_limits c)];
  co_auth : au_enabled (cf_auth c) = true → ∃ hash algorithm,
    au_token_hash (cf_auth c) = Some hash ∧ phc_algorithm hash = Some algorithm ∧
    String.prefix "argon2" algorithm = true;
  co_tls : tls_enabled (cf_tls c) = true →
    file_ok check_files (tls_cert_path (cf_tls c)) ∧ file_ok check_files (tls_key_path (cf_tls c)) ∧
    (tls_require_client_cert (cf_tls c) = true →
     file_ok check_files (tls_client_ca_path (cf_tls c)));
  co_cluster : validate_config (cf_cluster c) = Ok tt;
  co_bind : is_public_bind c = true → au_enabled (cf_auth c) = true ∨ cf_allow_insecure_bind c = true;
}.

Lemma validate_limits_spec l :
  validate_limits l = Ok tt ↔
  Forall (λ v, v ≠ 0%nat)
    [lm_max_query_limit l; lm_max_full_text_query_tokens l; lm_max_document_depth l;
     lm_max_vector_dimension l; lm_max_transaction_write_set l].
Proof.
  unfold validate_limits. set (vs := [_; _; _; _; _]).
  destruct (existsb (λ v, v =? 0)%nat vs) eqn:E.
  - split; [done|]. intros Hf. apply existsb_exists in E as (v & Hin & Hv). apply Nat.eqb_eq in Hv.
    apply list_elem_of_In in Hin. rewrite Forall_forall in Hf. by apply Hf in Hin.
  - split; [|done]. intros _. apply Forall_forall. intros v Hin ->.
    apply not_true_iff_false in E. apply E, existsb_exists. exists 0%nat.
    by rewrite <- list_elem_of_In.
Qed.

Lemma validate_auth_spec a :
  validate_auth a = Ok tt ↔
  (au_enabled a = true → ∃ hash algorithm, au_token_hash a = Some hash ∧
    phc_algorithm hash = Some algorithm ∧ String.prefix "argon2" algorithm = true).
Proof.
  unfold validate_auth, validate_hash. destruct (au_enabled a); cbn [negb]; [|done].
  destruct (au_token_hash a) as [h|]; [|split; [done|]; intros (? & ? & ? & _)%(λ F, F eq_refl); done].
  destruct (phc_algorithm h) as [alg|] eqn:E.
  - destruct (String.prefix "argon2" alg) eqn:E2.
    + split; [|done]. intros _ _. by exists h, alg.
    + split; [done|]. intros (h' & alg' & [= <-] & Ha & Hp)%(λ F, F eq_refl). congruence.
  - split; [done|]. intros (h' & alg' & [= <-] & Ha & _)%(λ F, F eq_refl). congruence.
Qed.

Lemma file_missing_spec check p :
  file_missing exists_file check p = false ↔ (check = true → exists_file p = true).
Proof. unfold file_missing. destruct check, (exists_file p); naive_solver. Qed.

Lemma validate_tls_spec check t :
  validate_tls exists_file check t = Ok tt ↔
  (tls_enabled t = true →
    file_ok check (tls_cert_path t) ∧ file_ok check (tls_key_path t) ∧
    (tls_require_client_cert t = true → file_ok check (tls_client_ca_path t))).
Proof.
  assert (Hsome : ∀ p, file_ok check (Some p) ↔ file_missing exists_file check p = false).
  { intros p. rewrite file_missing_spec. unfold file_ok. naive_solver. }
  assert (Hnone : ¬ file_ok check None) by (intros (? & ? & ?); done).
  unfold validate_tls. destruct (tls_enabled t); cbn [negb]; [|done].
  destruct (tls_cert_path t) as [cert|], (tls_key_path t) as [key|]; [|naive_solver..].
  rewrite !Hsome. destruct (file_missing exists_file check cert); [naive_solver|].
  destruct (file_missing exists_file check key); [naive_solver|].
  destruct (tls_require_client_cert t); [|naive_solver].
  destruct (tls_client_ca_path t) as [ca|]; [rewrite Hsome|naive_solver].
  destruct (file_missing exists_file check ca); naive_solver.
Qed.

Lemma validate_cluster_spec cc : validate_cluster cc = Ok tt ↔ validate_config cc = Ok tt.
Proof.
  unfold validate_cluster. destruct (cc_enabled cc) eqn:E; cbn [negb].
  - destruct (validate_config cc) as [[]|]; naive_solver.
  - unfold validate_config. by rewrite E.
Qed.

Lemma validate_inner_spec check c : validate_inner exists_file check c = Ok tt ↔ config_ok check c.
Proof.
  assert (Hunit : ∀ (r : Res unit), r = Ok tt ∨ ∃ e, r = Err e) by (intros [[]|e]; eauto).
  unfold validate_inner. split.
  - intros Hv. repeat (case_if; [done|]).
    destruct (Hunit (validate_limits (cf_limits c))) as [El|[e El]]; rewrite El in Hv; [|done].
    destruct (Hunit (validate_auth (cf_auth c))) as [Ea|[e Ea]]; rewrite Ea in Hv; [|done].
    destruct (Hunit (validate_tls exists_file check (cf_tls c))) as [Et|[e Et]]; rewrite Et in Hv; [|done].
    destruct (Hunit (validate_cluster (cf_cluster c))) as [Ec|[e Ec]]; rewrite Ec in Hv; [|done].
    cbn [res_bind] in Hv. case_if; [done|]. bool_to_prop. split; try done.
    + intros Hg. by destruct (mv_gc_enabled _), (N.eqb_spec (mv_gc_interval_secs (cf_mvcc c)) 0).
    + intros Hg. destruct (N.eqb_spec (mv_abandoned_transaction_reaper_secs (cf_mvcc c)) 0); [|done].
      destruct (0 <? mv_transaction_timeout_secs _) eqn:E0; [done|]. bool_to_prop. lia.
    + by apply validate_limits_spec.
    + by apply validate_auth_spec.
    + by apply validate_tls_spec.
    + by apply validate_cluster_spec.
    + intros Hb. destruct (is_public_bind c), (au_enabled _), (cf_allow_insecure_bind c); naive_solver.
  - intros [Hp Hy Hs Hg Hr Hl Ha Ht Hc Hb].
    rewrite (proj2 (N.eqb_neq _ _) Hp), (proj2 (Nat.eqb_neq _ _) Hy), (proj2 (Nat.eqb_neq _ _) Hs).
    apply validate_limits_spec in Hl. apply validate_auth_spec in Ha. apply validate_tls_spec in Ht.
    apply validate_cluster_spec in Hc. rewrite Hl, Ha, Ht, Hc. cbn [res_bind].
    replace (mv_gc_enabled _ && _)%bool with false
      by (destruct (mv_gc_enabled _); [symmetry; apply N.eqb_neq; auto|done]).
    replace ((0 <? _) && _)%bool with false.
    + destruct (is_public_bind c), (au_enabled _), (cf_allow_insecure_bind c); naive_solver.
    + destruct (0 <? _) eqn:E0; [|done]. symmetry. apply N.eqb_neq, Hr. apply N.ltb_lt in E0. lia.
Qed.

(** A token that was hashed for the configuration is accepted, and the configuration that
    names the hash validates. *)
Lemma hashed_token_accepted `{!Argon2Laws} salt token hash mode alg :
  hash_token salt token = Ok hash →
  validate_auth (mkAuth true mode (Some hash) alg) = Ok tt ∧ verify_token hash token = Ok true.
Proof.
  unfold hash_token. case_bool_decide; [done|].
  destruct (argon2_hash token salt) as [h|] eqn:E; [|done]. intros [= <-].
  pose proof (argon2_hash_phc _ _ _ E) as Hp. pose proof (argon2_verify_hash _ _ _ E) as Hv.
  unfold validate_auth, validate_hash, verify_token. simpl. by rewrite Hp, Hv.
Qed.
End validated.

(** The addresses of a loopback interface, and what is treated as public. *)
Lemma bind_samples :
  (λ s, is_public_bind (mkConfig (bytes_of s) 7171 [] 1 "" false 0 1 true true false tls_default
     auth_default mvcc_default cluster_config_default limits_default)) <$>
    ["127.0.0.1"; " LocalHost "; "::1"; "0:0:0:0:0:0:0:1"; "127.9.8.7";
     "0.0.0.0"; "::"; "::ffff:127.0.0.1"; "127.0.0.01"; "127.0.0"; "[::1]"; "db.local"]%string =
  [false; false; false; false; false; true; true; true; true; true; true; true].
Proof. by vm_compute. Qed.
