(* ===== verification/Message.v ===== *)
(** * Protocol messages

    Models [crates/auradb-protocol/src/message.rs] (the payloads of the handshake, of
    authentication, of errors, of cursors and of health reports) and
    [crates/auradb-core/src/capability.rs] (the capabilities a server advertises).  The
    texts of errors are left out; their JSON is a parameter of the server. *)

From S2P Require Import Prelude Core Protocol.

Local Open Scope N_scope.

(** ** Capabilities *)

Inductive Capability :=
| CapPersistentStorage | CapTransactions | CapSecondaryIndexes | CapDocumentFields
| CapVectorExactSearch | CapRelationships | CapServerCursors | CapExplain | CapMigrationEstimate
| CapObservability | CapAuthentication | CapTls | CapPersistedIndexes | CapDocumentPathIndexes
| CapFullTextSearch | CapFullTextBm25Ranking | CapHybridSearch | CapAggregationsAndFacets
| CapQueryTimeouts | CapRankedPagination | CapApproximateVectorSearchPreview
| CapGroupByAggregation | CapQueryProfile | CapRankedSearchCursor | CapApproximateVectorSearch
| CapQueryAnalyzers | CapSearchSnippets.

#[export] Instance Capability_eq_dec : EqDecision Capability.
Proof. solve_decision. Defined.

Definition implemented : list Capability :=
  [CapPersistentStorage; CapTransactions; CapSecondaryIndexes; CapDocumentFields;
   CapVectorExactSearch; CapRelationships; CapServerCursors; CapExplain; CapMigrationEstimate;
   CapObservability; CapAuthentication; CapTls; CapPersistedIndexes; CapDocumentPathIndexes;
   CapFullTextSearch; CapFullTextBm25Ranking; CapHybridSearch; CapAggregationsAndFacets;
   CapQueryTimeouts; CapRankedPagination; CapApproximateVectorSearchPreview;
   CapGroupByAggregation; CapQueryProfile; CapRankedSearchCursor; CapApproximateVectorSearch;
   CapQueryAnalyzers; CapSearchSnippets].

Record ServerCapabilities := mkCapabilities {
  cp_server_version : string;
  cp_protocol_version : N;
  cp_capabilities : list Capability;
}.

(** The version of the package is an argument. *)
Definition capabilities_current (version : string) (protocol_version : N) : ServerCapabilities :=
  mkCapabilities version protocol_version implemented.

Definition has (caps : ServerCapabilities) (cap : Capability) : bool :=
  bool_decide (cap ∈ cp_capabilities caps).

(** Every capability the enumeration names is advertised. *)
Lemma all_capabilities_advertised version pv cap : has (capabilities_current version pv) cap = true.
Proof. by destruct cap. Qed.

(** ** Handshake and authentication *)

Record HelloRequest := mkHelloRequest {
  hr_client_version : string;
  hr_protocol_version : N;
  hr_auth_token : option string;
}.

Record HelloAck := mkHelloAck {
  ha_protocol_version : N;
  ha_capabilities : ServerCapabilities;
  ha_auth_required : bool;
  ha_authenticated : bool;
}.

Record AuthRequest := mkAuthRequest { ar_token : string }.
Record AuthResult := mkAuthResult { ares_authenticated : bool }.

(** ** Errors *)

Record NotLeaderDetails := mkNotLeader {
  nl_current_node_id : option (list byte);
  nl_leader_node_id : option (list byte);
  nl_leader_client_addr : option (list byte);
  nl_leader_hint : option (list byte);
  nl_term : N;
  nl_role : string;
}.

Record ErrorPayload := mkErrorPayload {
  ep_code : string;
  ep_retryable : option bool;
  ep_not_leader : option NotLeaderDetails;
}.

(** By the error, whose constructors are the codes. *)
Definition retryable_for (e : Error) : option bool :=
  match e with
  | ENotLeader | EConflict | ETransactionTimeout => Some true
  | EInvalidRequest | ESchemaViolation | EUniqueViolation | ENotFound | EUnsupported
  | EUnauthenticated | EInvalidCredentials => Some false
  | _ => None
  end.

Definition payload_from_error (e : Error) : ErrorPayload :=
  mkErrorPayload (error_code e) (retryable_for e) None.

Definition with_not_leader (details : option NotLeaderDetails) (p : ErrorPayload) : ErrorPayload :=
  mkErrorPayload (ep_code p) (ep_retryable p) details.

(** ** Cursors *)

Record CursorFetchRequest := mkFetch { cfr_cursor_id : N; cfr_limit : nat }.
Record CursorCloseRequest := mkClose { ccr_cursor_id : N }.

(** ** Health *)

Inductive HealthStatus := Healthy | Degraded.

Record MvccHealth := mkMvccHealth {
  mh_active_transactions : nat;
  mh_timed_out_transactions : nat;
  mh_oldest_active_read_ts : option N;
  mh_oldest_transaction_age_secs : option N;
  mh_retained_versions : nat;
  mh_transaction_timeouts_total : N;
  mh_transaction_timeout_secs : N;
  mh_gc_enabled : bool;
}.

Record ClusterPeerHealth := mkPeerHealth {
  ph_node_id : list byte;
  ph_addr : list byte;
  ph_client_addr : option (list byte);
  ph_connected : bool;
  ph_connect_attempts : N;
  ph_match_index : option N;
  ph_next_index : option N;
  ph_lag_entries : option N;
  ph_needs_snapshot : bool;
  ph_snapshot_in_progress : bool;
  ph_catch_up_state : string;
}.

(** The text of the last rejection is reduced to whether there is one. *)
Record ClusterSnapshotHealth := mkSnapshotHealth {
  sh_last_included_index : N;
  sh_last_included_term : N;
  sh_last_install_unix : option N;
  sh_last_error : bool;
  sh_bytes_sent : N;
  sh_bytes_installed : N;
  sh_in_progress : N;
  sh_needed_total : N;
}.

Record ClusterHealth := mkClusterHealth {
  ch_enabled : bool;
  ch_node_id : option (list byte);
  ch_cluster_id : option (list byte);
  ch_role : string;
  ch_term : N;
  ch_leader_id : option (list byte);
  ch_leader_client_addr : option (list byte);
  ch_commit_index : N;
  ch_applied_index : N;
  ch_last_log_index : N;
  ch_peer_count : nat;
  ch_single_node : bool;
  ch_replication_lag_entries : N;
  ch_preview_multi_node : bool;
  ch_quorum_available : bool;
  ch_peers : list ClusterPeerHealth;
  ch_snapshot : option ClusterSnapshotHealth;
  ch_leader_changes : N;
}.

Record HealthReport := mkHealth {
  hp_status : HealthStatus;
  hp_ready : bool;
  hp_version : string;
  hp_collections : nat;
  hp_mvcc : option MvccHealth;
  hp_cluster : option ClusterHealth;
}.
