(* ===== verification/ClusterSpec.v ===== *)
(** * What the cluster crate promises

    Ids are read back from their text and never zero; validation accepts exactly the
    configurations that its comments describe; an identity, once written, is never
    replaced. *)

From S2P Require Import Prelude Text Core RaftLog RaftNode Cluster.

Local Open Scope N_scope.

(** ** Ids *)

Lemma hex_char_solid d : d < 16 → solid (hex_char d) = true.
Proof.
  intros Hd. rewrite <- (N2Nat.id d) in *. generalize (N.to_nat d) Hd. clear. intros n Hn.
  do 16 (destruct n as [|n]; [by vm_compute|]). lia.
Qed.

Lemma hex_digits_solid n v : Forall (λ b, solid b = true) (hex_digits n v).
Proof.
  induction n as [|n IH]; [constructor|]. cbn [hex_digits]. constructor; [|done].
  apply hex_char_solid. by apply N.mod_upper_bound.
Qed.

Lemma radix16_digits n v :
  (0 < n ≤ 32)%nat → v < 16 ^ N.of_nat n → from_str_radix16 (trim (hex_digits n v)) = Some v.
Proof.
  intros Hn Hv. rewrite trim_solid by apply hex_digits_solid.
  destruct n as [|n]; [lia|]. unfold from_str_radix16. cbn [hex_digits].
  rewrite (proj2 (hex_char_facts _ (N.mod_upper_bound _ 16 ltac:(done)))). cbv zeta.
  change (parse_hex (hex_digits (S n) v) 0 = Some v).
  rewrite parse_hex_digits; [by rewrite N.mod_small by done| |lia].
  assert (1 <= 16 ^ (32 - N.of_nat (S n))); [|lia].
  change 1 with (16 ^ 0). apply N.pow_le_mono_r; lia.
Qed.

(** The text of an id is read back to it, and reading never gives the reserved id. *)
Lemma node_id_roundtrip id :
  0 < id → id < 2 ^ 64 → node_id_from_str (node_id_display id) = Ok id.
Proof.
  intros H0 Hid. unfold node_id_from_str, node_id_display, u64_from_str_radix16.
  rewrite radix16_digits by (done || lia). rewrite (proj2 (N.ltb_lt _ _)) by done.
  unfold id_new. by rewrite (proj2 (N.eqb_neq _ _)) by lia.
Qed.

Lemma cluster_id_roundtrip id :
  0 < id → id < 2 ^ 128 → cluster_id_from_str (cluster_id_display id) = Ok id.
Proof.
  intros H0 Hid. unfold cluster_id_from_str, cluster_id_display.
  rewrite radix16_digits by (done || lia). unfold id_new. by rewrite (proj2 (N.eqb_neq _ _)) by lia.
Qed.

Lemma node_id_from_str_range s id : node_id_from_str s = Ok id → 0 < id ∧ id < 2 ^ 64.
Proof.
  unfold node_id_from_str, u64_from_str_radix16, id_new. destruct (from_str_radix16 (trim s)) as [v|]; [|done].
  destruct (v <? 2 ^ 64) eqn:E; [|done]. destruct (v =? 0) eqn:E0; [done|]. intros [= <-].
  bool_to_prop. lia.
Qed.

(** Different nodes have different texts, so a text names one node. *)
Lemma node_id_display_inj a b :
  a < 2 ^ 64 → b < 2 ^ 64 → node_id_display a = node_id_display b → a = b.
Proof.
  intros Ha Hb Heq. assert (Hab : Some a = Some b); [|by injection Hab].
  rewrite <- (radix16_digits 16 a), <- (radix16_digits 16 b) by (done || lia). f_equal. by f_equal.
Qed.

(** ** Addresses *)

(** [host:port] with a host, and a port of sixteen bits after the last colon. *)
Definition socket_addr (a : list byte) : Prop :=
  ∃ host port v, a = host ++ colon :: port ∧ (colon ∉ port) ∧ host ≠ [] ∧ parse_u16 port = Some v.

Lemma rsplit_once_spec l h p : rsplit_once l = Some (h, p) ↔ l = h ++ colon :: p ∧ colon ∉ p.
Proof.
  revert h p. induction l as [|c l IH]; intros h p; simpl.
  { split; [done|]. intros [E _]. by destruct h. }
  destruct (rsplit_once l) as [[h' p']|] eqn:E.
  - destruct (proj1 (IH h' p') eq_refl) as [El Hp]. split.
    + intros [= <- <-]. by rewrite El.
    + intros [Ec Hc]. destruct h as [|c' h]; injection Ec as -> Ec.
      * exfalso. apply Hc. rewrite <- Ec, El. set_solver.
      * by injection (proj2 (IH h p) (conj Ec Hc)) as -> ->.
  - assert (Hno : colon ∉ l).
    { intros Hin. apply list_elem_of_split in Hin as (l1 & l2 & ->).
      clear -E. assert (Hs : is_Some (rsplit_once (l1 ++ colon :: l2))); [|by destruct Hs; congruence].
      clear E. induction l1 as [|c l1 IH]; simpl.
      - destruct (rsplit_once l2) as [[]|]; [by eexists|]. by eexists.
      - destruct IH as [[h p] ->]. by eexists. }
    destruct (Byte.eqb c colon) eqn:Ec.
    + apply Byte.byte_dec_bl in Ec as ->. split.
      * intros [= <- <-]. done.
      * intros [El Hc]. destruct h as [|c' h]; simplify_eq/=; [done|]. exfalso. apply Hno. set_solver.
    + split; [done|]. intros [El Hc]. destruct h as [|c' h]; simplify_eq/=.
      exfalso. apply Hno. set_solver.
Qed.

Lemma validate_addr_spec a : validate_addr a = Ok tt ↔ socket_addr a.
Proof.
  unfold validate_addr, host_of, port_of, socket_addr.
  destruct (rsplit_once a) as [[h p]|] eqn:E; simpl.
  - pose proof (proj1 (rsplit_once_spec _ _ _) E) as [-> Hp]. case_bool_decide as Hh.
    + split; [done|]. intros (h' & p' & v & Ea & Hp' & Hh' & _).
      assert (Hx : rsplit_once (h ++ colon :: p) = Some (h', p')) by by apply rsplit_once_spec.
      rewrite E in Hx. by simplify_eq.
    + destruct (parse_u16 p) as [v|] eqn:Ev.
      * split; [|done]. intros _. by exists h, p, v.
      * split; [done|]. intros (h' & p' & v & Ea & Hp' & Hh' & Hv).
        assert (Hx : rsplit_once (h ++ colon :: p) = Some (h', p')) by by apply rsplit_once_spec.
        rewrite E in Hx. by simplify_eq.
  - split; [done|]. intros (h & p & v & Ea & Hp & _).
    by rewrite (proj2 (rsplit_once_spec a h p)) in E.
Qed.

(** ** Configurations *)

Definition opt_addr_ok (a : option (list byte)) : Prop :=
  match a with Some a => socket_addr a | None => True end.

(** A peer that is not this node. *)
Definition peer_ok (c : ClusterConfig) (own : option NodeId) (p : PeerConfig) (id : NodeId) : Prop :=
  socket_addr (pc_addr p) ∧ opt_addr_ok (pc_client_addr p) ∧ pc_node_id p ≠ [] ∧
  node_id_from_str (pc_node_id p) = Ok id ∧
  trim (pc_addr p) ≠ trim (cc_listen_addr c) ∧ trim (pc_addr p) ≠ trim (cc_advertise_addr c) ∧
  Some id ≠ own.

(** The pinned id of this node: none, or one that parses. *)
Definition pinned_node_id (c : ClusterConfig) (own : option NodeId) : Prop :=
  (cc_node_id c = [] ∧ own = None) ∨
  (cc_node_id c ≠ [] ∧ ∃ id, node_id_from_str (cc_node_id c) = Ok id ∧ own = Some id).

(** An address of the transport that is reachable from other machines. *)
Definition reaches_out (c : ClusterConfig) : Prop :=
  non_loopback (cc_listen_addr c) = true ∨ non_loopback (cc_advertise_addr c) = true ∨
  ∃ p, p ∈ cc_peers c ∧ non_loopback (pc_addr p) = true.

Record configured (c : ClusterConfig) : Prop := {
  cg_listen : socket_addr (cc_listen_addr c);
  cg_advertise : socket_addr (cc_advertise_addr c);
  cg_client : opt_addr_ok (cc_advertise_client_addr c);
  cg_cluster_id : cc_cluster_id c ≠ [] → ∃ id, cluster_id_from_str (cc_cluster_id c) = Ok id;
  cg_opt_in : cc_peers c ≠ [] → cc_experimental_multi_node c = true;
  cg_peers : ∃ own ids, pinned_node_id c own ∧ Forall2 (peer_ok c own) (cc_peers c) ids ∧
               NoDup ((λ p, trim (pc_addr p)) <$> cc_peers c) ∧ NoDup ids;
  cg_joins : cc_bootstrap c = false → cc_peers c ≠ [];
  cg_public : reaches_out c → cc_allow_experimental_public_cluster c = true ∧
                ct_enabled (cc_tls c) = true ∧ cc_peer_auth_token c ≠ [];
  cg_tls : ct_enabled (cc_tls c) = true →
             is_Some (ct_cert_path (cc_tls c)) ∧ is_Some (ct_key_path (cc_tls c)) ∧
             is_Some (ct_ca_path (cc_tls c));
}.

Lemma validate_opt_addr_spec a : validate_opt_addr a = Ok tt ↔ opt_addr_ok a.
Proof. destruct a; simpl; [apply validate_addr_spec|done]. Qed.

Lemma is_public_spec c : is_public c = true ↔ reaches_out c.
Proof.
  unfold is_public, reaches_out. rewrite !orb_true_iff, existsb_exists.
  setoid_rewrite list_elem_of_In. tauto.
Qed.

Lemma unit_bind_ok (m : CRes unit) (k : CRes unit) :
  (let? _ := m in k) = Ok tt ↔ m = Ok tt ∧ k = Ok tt.
Proof. destruct m as [[]|]; simpl; [tauto|]. split; [done|]. by intros []. Qed.

Lemma guard_ok (b : bool) (k : CRes unit) :
  (if b then Err CConfig else k) = Ok tt ↔ b = false ∧ k = Ok tt.
Proof. destruct b; [|tauto]. split; [done|]. by intros []. Qed.

Lemma validate_peers_spec c own ps : ∀ addrs ids0,
  validate_peers c own addrs ids0 ps = Ok tt ↔
  ∃ ids, Forall2 (peer_ok c own) ps ids ∧
    NoDup ((λ p, trim (pc_addr p)) <$> ps) ∧ NoDup ids ∧
    Forall (λ p, trim (pc_addr p) ∉ addrs) ps ∧ Forall (λ id, id ∉ ids0) ids.
Proof.
  induction ps as [|p ps IH]; intros addrs ids0; simpl.
  { split; [|done]. intros _. exists []. by repeat constructor. }
  rewrite !unit_bind_ok, guard_ok, validate_addr_spec, validate_opt_addr_spec, bool_decide_eq_false.
  destruct (node_id_from_str (pc_node_id p)) as [id|e] eqn:Eid; simpl.
  2: { split; [by intros (_ & _ & _ & ?)|]. intros (ids & Hf & _).
       apply Forall2_cons_inv_l in Hf as (id & ids' & (_ & _ & _ & Hx & _) & _). congruence. }
  rewrite !guard_ok, IH, orb_false_iff, !bool_decide_eq_false. split.
  - intros (Ha & Hc & Hne & Hs & Hsn & [Hl Had] & Hown & ids & Hf & Hna & Hni & Hfa & Hfi).
    exists (id :: ids). split_and!.
    + by repeat constructor.
    + simpl. apply NoDup_cons. split; [|done]. intros (q & Hq & Hin)%list_elem_of_fmap.
      rewrite Forall_forall in Hfa. specialize (Hfa q Hin). set_solver.
    + apply NoDup_cons. split; [|done]. rewrite Forall_forall in Hfi. intros Hin. specialize (Hfi id Hin). set_solver.
    + constructor; [done|]. eapply Forall_impl; [done|]. simpl. set_solver.
    + constructor; [done|]. eapply Forall_impl; [done|]. simpl. set_solver.
  - intros (ids & Hf & Hna & Hni & Hfa & Hfi).
    apply Forall2_cons_inv_l in Hf as (id' & ids' & (Ha & Hc & Hne & Hx & Hl & Had & Hown) & Hf & ->).
    assert (id' = id) as -> by congruence.
    apply Forall_cons in Hfa as [Hs Hfa]. apply Forall_cons in Hfi as [Hsn Hfi].
    simpl in Hna. apply NoDup_cons in Hna as [Hna1 Hna]. apply NoDup_cons in Hni as [Hni1 Hni].
    split_and!; try done. exists ids'. split_and!; try done.
    + apply Forall_forall. intros q Hq. rewrite Forall_forall in Hfa. specialize (Hfa q Hq).
      intros [Heq|]%elem_of_cons; [|done]. apply Hna1. apply list_elem_of_fmap. by exists q.
    + apply Forall_forall. intros q Hq. rewrite Forall_forall in Hfi. specialize (Hfi q Hq). set_solver.
Qed.

(** Validation accepts exactly the configurations it describes.  A disabled section is
    always accepted.  Otherwise the addresses are well formed and the ids parse; peers
    need the opt-in of the preview, are pairwise different in address and id and are never
    this node; a node that does not bootstrap has peers; an address beyond the loopback
    interface needs the public opt-in, TLS and a token; and TLS needs all its files. *)
Theorem validate_config_accepts c :
  validate_config c = Ok tt ↔ cc_enabled c = false ∨ configured c.
Proof.
  unfold validate_config. destruct (cc_enabled c); simpl; [|tauto].
  rewrite !unit_bind_ok, !validate_addr_spec, validate_opt_addr_spec.
  assert (Hown : ∀ k : option NodeId → CRes unit,
    (let? own := if bool_decide (cc_node_id c = []) then Ok None
                 else let? id := as_config (node_id_from_str (cc_node_id c)) in Ok (Some id) in k own) = Ok tt
    ↔ ∃ own, pinned_node_id c own ∧ k own = Ok tt).
  { intros k. unfold pinned_node_id. case_bool_decide as Hn; simpl.
    - split.
      + intros Hk. exists None. auto.
      + intros (own & [[_ ->]|[? _]] & Hk); done.
    - destruct (node_id_from_str (cc_node_id c)) as [id|e]; simpl.
      + split.
        * intros Hk. exists (Some id). split; [right|]; eauto.
        * intros (own & [[? _]|[_ (? & [= <-] & ->)]] & Hk); done.
      + split; [done|]. intros (own & [[? _]|[_ (? & ? & _)]] & _); done. }
  rewrite Hown. clear Hown. split.
  - intros (Hl & Ha & Hc & own & Hpin & Hk). right.
    rewrite !unit_bind_ok in Hk.
    destruct Hk as [Hcid Hk]. apply guard_ok in Hk as [Hopt Hk]. apply unit_bind_ok in Hk as [Hps Hk].
    apply guard_ok in Hk as [Hboot Hk]. apply unit_bind_ok in Hk as [Hpub Hk].
    apply guard_ok in Hk as [Htls _].
    apply validate_peers_spec in Hps as (ids & Hf & Hna & Hni & _). split; try done.
    + intros Hne. rewrite bool_decide_false in Hcid by done.
      destruct (cluster_id_from_str (cc_cluster_id c)) as [id|]; [by exists id|done].
    + intros Hne. rewrite bool_decide_false in Hopt by done. by destruct (cc_experimental_multi_node c).
    + by exists own, ids.
    + intros Hb Hne. by rewrite Hb, Hne in Hboot.
    + intros Hr%is_public_spec. rewrite Hr in Hpub. rewrite !guard_ok in Hpub.
      destruct Hpub as (H1 & H2 & H3 & _). apply negb_false_iff in H1, H2. by apply bool_decide_eq_false in H3.
    + intros Ht. rewrite Ht in Htls. simpl in Htls. apply negb_false_iff in Htls.
      unfold tls_complete in Htls. rewrite !andb_true_iff, !bool_decide_eq_true in Htls. tauto.
  - intros [?|Hcfg]; [done|]. destruct Hcfg as [Hl Ha Hc Hcid Hopt (own & ids & Hpin & Hf & Hna & Hni) Hj Hpub Htls].
    split_and!; try done. exists own. split; [done|]. rewrite unit_bind_ok, guard_ok, unit_bind_ok, guard_ok, unit_bind_ok, guard_ok.
    split_and!; try done.
    + case_bool_decide as Hne; [done|]. destruct (Hcid Hne) as [id ->]. done.
    + case_bool_decide as Hne; [done|]. simpl. by rewrite (Hopt Hne).
    + apply validate_peers_spec. exists ids. split_and!; try done; apply Forall_forall; set_solver.
    + destruct (cc_bootstrap c); [done|]. simpl. apply bool_decide_eq_false. by apply Hj.
    + destruct (is_public c) eqn:Ep; [|done]. apply is_public_spec in Ep. destruct (Hpub Ep) as (-> & -> & Ht).
      simpl. by rewrite bool_decide_false.
    + destruct (ct_enabled (cc_tls c)); [|done]. destruct (Htls eq_refl) as (? & ? & ?).
      simpl. apply negb_false_iff. unfold tls_complete. by rewrite !bool_decide_true.
Qed.

(** ** Identity *)

Section identity.
Context `{IdentityCodec, !IdentityCodecLaws}.

Definition ids_in_range (pn : option NodeId) (pc : option N) (fresh_n fresh_c : N) : Prop :=
  default fresh_n pn < 2 ^ 64 ∧ default fresh_c pc < 2 ^ 128.

Lemma load_written node cluster :
  nm_format_version node = METADATA_FORMAT_VERSION → cm_format_version cluster = METADATA_FORMAT_VERSION →
  nm_node_id node < 2 ^ 64 → cm_cluster_id cluster < 2 ^ 128 →
  load_identity (mkIdentityDir (Some (enc_node_meta node)) (Some (enc_cluster_meta cluster))) =
    Ok (Some (mkIdentity node cluster)).
Proof.
  intros Hfn Hfc Hn Hc. unfold load_identity, read_json. simpl.
  destruct (dec_enc_node_meta node Hn) as [-> ->]. destruct (dec_enc_cluster_meta cluster Hc) as [-> ->].
  simpl. by rewrite Hfn, Hfc.
Qed.

(** The identity of a node is chosen once.  Initialising an empty directory either
    finishes, and then every later initialisation gives back the same ids whatever random
    ids it drew, refuses pinned ids that differ and writes nothing; or it is cut off, and
    then the directory is still empty or is refused. *)
Lemma identity_stable pn pc version fresh_n fresh_c d :
  id_node_file d = None → id_cluster_file d = None → ids_in_range pn pc fresh_n fresh_c →
  let '(dirs, r) := init_identity pn pc version fresh_n fresh_c d in
  ∃ identity d', r = Ok identity ∧ last dirs = Some d' ∧
    identity_node_id identity = default fresh_n pn ∧ identity_cluster_id identity = default fresh_c pc ∧
    (∀ pn' pc' version' n' c', init_identity pn' pc' version' n' c' d' =
       ([d'], if (pin_differs pn' (identity_node_id identity) || pin_differs pc' (identity_cluster_id identity))%bool
              then Err CIdentityConflict else Ok identity)) ∧
    Forall (λ x, load_identity x = Ok None ∨ load_identity x = Err CIdentityConflict ∨
                 load_identity x = Ok (Some identity)) dirs.
Proof.
  intros Hn Hc [Hrn Hrc]. unfold init_identity.
  assert (Hl : load_identity d = Ok None) by (unfold load_identity, is_initialized; by rewrite Hn, Hc).
  rewrite Hl. cbv zeta. eexists _, _. split; [done|]. split; [done|]. split; [done|]. split; [done|].
  rewrite Hc. cbn [id_node_file]. split.
  - intros pn' pc' version' n' c'. rewrite load_written by done. simpl.
    by destruct (pin_differs pn' _), (pin_differs pc' _).
  - apply Forall_cons. split; [by left|]. apply Forall_cons. split; [by right; left|].
    apply Forall_singleton. right. right. by apply load_written.
Qed.
End identity.

Module ClusterSample.
Definition three_nodes : ClusterConfig :=
  mkClusterConfig true true false [] (bytes_of "a1") (bytes_of "127.0.0.1:7172") (bytes_of "127.0.0.1:7172")
    None true
    [mkPeerConfig (bytes_of "a2") (bytes_of "127.0.0.1:7272") None;
     mkPeerConfig (bytes_of "a3") (bytes_of "[::1]:7372") (Some (bytes_of "localhost:7100"))] []
    (mkClusterTls false None None None).

Example three_nodes_valid : validate_config three_nodes = Ok tt.
Proof. by vm_compute. Qed.

(** The id of the node in the file is not the pinned one, so a peer list that names this
    very node is accepted when no id is pinned. *)
Example unpinned_self_peer_accepted :
  let c := mkClusterConfig true true false [] [] (bytes_of "127.0.0.1:7172") (bytes_of "127.0.0.1:7172")
    None true [mkPeerConfig (bytes_of "a1") (bytes_of "localhost:7172") None] [] (mkClusterTls false None None None) in
  validate_config c = Ok tt.
Proof. by vm_compute. Qed.
End ClusterSample.
