(* ===== verification/Transport.v ===== *)
(** * The peer transport

    Models [crates/auradb-replication/src/transport.rs]: the messages between the
    processes of a cluster, their frames on a stream, the base64 of a shipped snapshot and
    the validation of a handshake.  The JSON of a message is a parameter ([PeerCodec]);
    a snapshot is in it as base64 text.  TLS is outside the model. *)

From S2P Require Import Prelude Text Framing RaftBase64 RaftLog RaftNode Cluster.

Local Open Scope N_scope.

Definition PEER_MAGIC : list byte := bytes_of "APR1".
Definition PEER_PROTOCOL_VERSION : byte := x01.
Definition MAX_FRAME_BYTES : N := 16 * 1024 * 1024.
Definition MAX_SNAPSHOT_BYTES : N := 8 * 1024 * 1024.

Inductive PeerError :=
| ClusterIdMismatch
| UnknownNode
| DuplicateNode
| AuthFailed
| PeerUnsupported (request : string)
| PeerOther (reason : string).

Record Hello := mkHello {
  he_cluster_id : ClusterId;
  he_node_id : NodeId;
  he_advertise_addr : list byte;
  he_token : list byte;
}.

Inductive PeerMessage :=
| PmHello (h : Hello)
| PmHelloAck (node_id : NodeId)
| PmRaft (from : NodeId) (message : Message)
| PmInstallSnapshotRequest (from : NodeId) (term last_included_index last_included_term : N)
    (snapshot : list byte)
| PmInstallSnapshotResponse (from : NodeId) (term : N) (success : bool) (last_included_index : N)
| PmUnsupported (request : string)
| PmError (e : PeerError).

Inductive TransportError :=
| TIo
| TBadMagic
| TBadVersion (found expected : byte)
| TOversized (len limit : N)
| TBadChecksum
| TDecode
| TRejected (e : PeerError)
| TNoHello.

(** ** Base64 of a snapshot

    The encoder is the one of [RaftBase64]; the decoder shifts its accumulator. *)

Fixpoint peer_decode_bits (chunk : list byte) (n : N) : option N :=
  match chunk with
  | [] => Some n
  | c :: rest =>
      match (if Byte.eqb c pad_char then Some 0 else sextet c) with
      | Some v => peer_decode_bits rest (N.lor (N.shiftl n 6) v)
      | None => None
      end
  end.

Definition peer_decode_chunk (chunk : list byte) : option (list byte) :=
  let pad := length (filter (λ c, Byte.eqb c pad_char = true) chunk) in
  match peer_decode_bits chunk 0 with
  | None => None
  | Some n =>
      Some ([byte_of_N (N.shiftr n 16)] ++
            (if (pad <? 2)%nat then [byte_of_N (N.shiftr n 8)] else []) ++
            (if (pad <? 1)%nat then [byte_of_N n] else []))
  end.

Fixpoint peer_decode_chunks (cs : list (list byte)) : option (list byte) :=
  match cs with
  | [] => Some []
  | c :: rest => match peer_decode_chunk c with
                 | None => None
                 | Some out => match peer_decode_chunks rest with
                               | None => None
                               | Some outs => Some (out ++ outs)
                               end
                 end
  end.

Definition peer_base64_decode (s : list byte) : option (list byte) :=
  let s := trim s in
  if negb (length s mod 4 =? 0)%nat then None else peer_decode_chunks (chunks 4 s).

(** ** Frames *)

(** JSON of a message whose snapshot is text, and the checksum. *)
Class PeerCodec := {
  enc_peer : PeerMessage → list byte;
  dec_peer : list byte → option PeerMessage;
  #[global] peer_crc :: Crc32;
}.

Class PeerCodecLaws `{PeerCodec} : Prop := {
  dec_enc_peer : ∀ m, dec_peer (enc_peer m) = Some m;
  #[global] peer_crc_laws :: Crc32Laws;
}.

Section frames.
Context `{PeerCodec}.

Definition to_json (m : PeerMessage) : list byte :=
  enc_peer
    match m with
    | PmInstallSnapshotRequest from t i it snapshot =>
        PmInstallSnapshotRequest from t i it (base64_encode snapshot)
    | _ => m
    end.

Definition from_json (payload : list byte) : option PeerMessage :=
  match dec_peer payload with
  | Some (PmInstallSnapshotRequest from t i it text) =>
      PmInstallSnapshotRequest from t i it <$> peer_base64_decode text
  | r => r
  end.

(** The bytes of [write_message]: the length is cut to 32 bits. *)
Definition write_message (m : PeerMessage) : list byte :=
  let payload := to_json m in
  let len := N.of_nat (length payload) mod 2 ^ 32 in
  let crc := crc32 payload in
  (PEER_MAGIC ++ [PEER_PROTOCOL_VERSION] ++ be_bytes 4 len ++ be_bytes 4 crc) ++ payload.

(** [read_message] on what the stream will deliver before it ends: what is left of it,
    and the message. *)
Definition read_message (max_bytes : N) (stream : list byte)
  : list byte * Result TransportError PeerMessage :=
  if (length stream <? 13)%nat then ([], Err TIo)
  else
    let header := take 13 stream in
    let rest := drop 13 stream in
    if negb (bool_decide (slice 0 4 header = PEER_MAGIC)) then (rest, Err TBadMagic)
    else
      let version := default x00 (header !! 4%nat) in
      if negb (Byte.eqb version PEER_PROTOCOL_VERSION)
      then (rest, Err (TBadVersion version PEER_PROTOCOL_VERSION))
      else
        let len := be_value (slice 5 9 header) in
        if max_bytes <? len then (rest, Err (TOversized len max_bytes))
        else
          let crc := be_value (slice 9 13 header) in
          if (length rest <? N.to_nat len)%nat then ([], Err TIo)
          else
            let payload := take (N.to_nat len) rest in
            (drop (N.to_nat len) rest,
             if negb (crc32 payload =? crc) then Err TBadChecksum
             else match from_json payload with
                  | Some m => Ok m
                  | None => Err TDecode
                  end).

(** Messages until the first error, as the read loop takes them. *)
Fixpoint read_messages (fuel : nat) (max_bytes : N) (stream : list byte)
  : list PeerMessage * option TransportError :=
  match fuel with
  | O => ([], None)
  | S fuel' =>
      match read_message max_bytes stream with
      | (_, Err e) => ([], Some e)
      | (rest, Ok m) => let (ms, e) := read_messages fuel' max_bytes rest in (m :: ms, e)
      end
  end.
End frames.

(** ** Handshake *)

Record Membership := mkMembership {
  mb_cluster_id : ClusterId;
  mb_peer_ids : list NodeId;
  mb_token : list byte;
}.

Definition knows (m : Membership) (id : NodeId) : bool := bool_decide (id ∈ mb_peer_ids m).

Definition validate_hello (hello : Hello) (m : Membership) (connected : gset NodeId)
  : Result PeerError NodeId :=
  if negb (he_cluster_id hello =? mb_cluster_id m) then Err ClusterIdMismatch
  else if negb (knows m (he_node_id hello)) then Err UnknownNode
  else if (negb (bool_decide (mb_token m = [])) && negb (bool_decide (he_token hello = mb_token m)))%bool
  then Err AuthFailed
  else if bool_decide (he_node_id hello ∈ connected) then Err DuplicateNode
  else Ok (he_node_id hello).

(** ** Lemmas *)

Lemma peer_decode_bits_four c0 c1 c2 c3 :
  peer_decode_bits [c0; c1; c2; c3] 0 = decode_bits [c0; c1; c2; c3] 0 0.
Proof.
  cbn [peer_decode_bits decode_bits].
  destruct (if Byte.eqb c0 pad_char then Some 0 else sextet c0) as [v0|]; [|done].
  destruct (if Byte.eqb c1 pad_char then Some 0 else sextet c1) as [v1|]; [|done].
  destruct (if Byte.eqb c2 pad_char then Some 0 else sextet c2) as [v2|]; [|done].
  destruct (if Byte.eqb c3 pad_char then Some 0 else sextet c3) as [v3|]; [|done].
  f_equal. change (18 - 6 * 0) with 18. change (18 - 6 * (0 + 1)) with 12.
  change (18 - 6 * (0 + 1 + 1)) with 6. change (18 - 6 * (0 + 1 + 1 + 1)) with 0.
  rewrite !N.shiftl_lor, !N.shiftl_shiftl, !N.shiftl_0_l, !N.lor_0_l, !N.shiftl_0_r. done.
Qed.

Lemma peer_decode_chunk_eq c : length c = 4%nat → peer_decode_chunk c = decode_chunk c.
Proof.
  intros Hc. destruct c as [|c0 [|c1 [|c2 [|c3 [|]]]]]; try done.
  unfold peer_decode_chunk, decode_chunk. by rewrite peer_decode_bits_four.
Qed.

(** The two decoders of base64 are one function. *)
Lemma peer_base64_decode_eq s : peer_base64_decode s = base64_decode s.
Proof.
  unfold peer_base64_decode, base64_decode. cbv zeta. generalize (trim s). clear s. intros s.
  destruct (length s mod 4 =? 0)%nat eqn:E; [|done]. simpl. bool_to_prop.
  unfold chunks.
  assert (Hgen : ∀ fuel l, (length l mod 4 = 0)%nat → (length l ≤ fuel)%nat →
    peer_decode_chunks (chunks_loop fuel 4 l) = decode_chunks (chunks_loop fuel 4 l)).
  { clear s E. induction fuel as [|fuel IH]; intros l Hm Hl; [done|].
    destruct l as [|a l]; [done|].
    assert (Hlen : (4 ≤ length (a :: l))%nat).
    { destruct (decide (4 ≤ length (a :: l))%nat); [done|].
      rewrite Nat.mod_small in Hm by lia. done. }
    cbn [chunks_loop peer_decode_chunks decode_chunks].
    rewrite peer_decode_chunk_eq by (rewrite length_take; lia).
    destruct (decode_chunk (take 4 (a :: l))); [|done]. rewrite IH; [done| |].
    - rewrite length_drop. rewrite <- (Nat.Div0.mod_add (length (a :: l) - 4) 1 4).
      by replace (length (a :: l) - 4 + 1 * 4)%nat with (length (a :: l)) by lia.
    - rewrite length_drop. simpl in *. lia. }
  by apply Hgen.
Qed.

Section frame_lemmas.
Context `{PeerCodec, !PeerCodecLaws}.

Lemma from_to_json m : from_json (to_json m) = Some m.
Proof.
  unfold from_json, to_json. rewrite dec_enc_peer. destruct m; try done.
  by rewrite peer_base64_decode_eq, base64_roundtrip.
Qed.

Definition fits_frame (max_bytes : N) (m : PeerMessage) : Prop :=
  N.of_nat (length (to_json m)) <= max_bytes ∧ N.of_nat (length (to_json m)) < 2 ^ 32.

Lemma length_write m : length (write_message m) = (13 + length (to_json m))%nat.
Proof. unfold write_message. rewrite !length_app, !length_be_bytes. done. Qed.

Lemma read_header (a b c d : byte) (len crc : list byte) rest :
  length len = 4%nat → length crc = 4%nat →
  let stream := ([a; b; c; d] ++ [PEER_PROTOCOL_VERSION] ++ len ++ crc) ++ rest in
  take 13 stream = [a; b; c; d] ++ [PEER_PROTOCOL_VERSION] ++ len ++ crc ∧ drop 13 stream = rest ∧
  slice 5 9 (take 13 stream) = len ∧ slice 9 13 (take 13 stream) = crc.
Proof.
  intros Hl Hc. destruct len as [|l0 [|l1 [|l2 [|l3 [|]]]]]; try done.
  destruct crc as [|r0 [|r1 [|r2 [|r3 [|]]]]]; done.
Qed.

Lemma read_written m max_bytes rest :
  fits_frame max_bytes m → read_message max_bytes (write_message m ++ rest) = (rest, Ok m).
Proof.
  intros [Hmax Hw]. unfold read_message.
  rewrite length_app, length_write. case_if; bool_to_prop; [lia|].
  unfold write_message. rewrite <- !(app_assoc _ (to_json m) rest).
  pose proof (read_header x41 x50 x52 x31 (be_bytes 4 (N.of_nat (length (to_json m)) mod 2 ^ 32))
    (be_bytes 4 (crc32 (to_json m))) (to_json m ++ rest) (length_be_bytes _ _) (length_be_bytes _ _)) as Hh.
  cbv zeta in Hh. destruct Hh as (Ht & Hd & Hlen & Hcrc).
  change PEER_MAGIC with [x41; x50; x52; x31].
  rewrite Hlen, Hcrc, Hd, Ht. cbn [bool_decide negb slice take drop app lookup list_lookup].
  rewrite (N.mod_small (N.of_nat (length (to_json m)))) by done.
  rewrite be_value_be_bytes by (change (256 ^ N.of_nat 4) with (2 ^ 32); done).
  rewrite be_value_be_bytes by (change (256 ^ N.of_nat 4) with (2 ^ 32); apply crc32_bound).
  rewrite bool_decide_true by done. cbn [negb Byte.eqb].
  rewrite (proj2 (N.ltb_ge _ _)) by done. rewrite Nat2N.id, length_app.
  rewrite (proj2 (Nat.ltb_ge _ _)) by lia. rewrite take_app_length, drop_app_length, N.eqb_refl.
  by rewrite from_to_json.
Qed.

Lemma read_cut m max_bytes k :
  fits_frame max_bytes m → (k < length (write_message m))%nat →
  (read_message max_bytes (take k (write_message m))).2 = Err TIo.
Proof.
  intros [Hmax Hw] Hk. rewrite length_write in Hk. unfold read_message.
  rewrite length_take, length_write. case_if; bool_to_prop; [done|].
  assert (Hsplit : take k (write_message m) =
    (PEER_MAGIC ++ [PEER_PROTOCOL_VERSION] ++ be_bytes 4 (N.of_nat (length (to_json m)) mod 2 ^ 32)
     ++ be_bytes 4 (crc32 (to_json m))) ++ take (k - 13) (to_json m)).
  { unfold write_message. rewrite take_app_ge; rewrite !length_app, !length_be_bytes; simpl; [done|lia]. }
  rewrite Hsplit.
  pose proof (read_header x41 x50 x52 x31 (be_bytes 4 (N.of_nat (length (to_json m)) mod 2 ^ 32))
    (be_bytes 4 (crc32 (to_json m))) (take (k - 13) (to_json m)) (length_be_bytes _ _) (length_be_bytes _ _)) as Hh.
  cbv zeta in Hh. destruct Hh as (Ht & Hd & Hlen & Hcrc).
  change PEER_MAGIC with [x41; x50; x52; x31].
  rewrite Hlen, Hcrc, Hd, Ht. cbn [slice take drop app lookup list_lookup].
  rewrite (N.mod_small (N.of_nat (length (to_json m)))) by done.
  rewrite be_value_be_bytes by (change (256 ^ N.of_nat 4) with (2 ^ 32); done).
  rewrite bool_decide_true by done. cbn [negb Byte.eqb].
  rewrite (proj2 (N.ltb_ge _ _)) by done. rewrite Nat2N.id, length_take.
  by rewrite (proj2 (Nat.ltb_lt _ _)) by lia.
Qed.

(** The messages written to a peer connection are read in order, once and unchanged; a
    connection that ends inside a later frame, or after the last one, loses nothing before
    it and reports the end as an I/O error. *)
Theorem peer_stream_delivery ms m k max_bytes :
  Forall (fits_frame max_bytes) ms → fits_frame max_bytes m → (k < length (write_message m))%nat →
  read_messages (S (length ms)) max_bytes (mjoin (write_message <$> ms) ++ take k (write_message m)) =
    (ms, Some TIo).
Proof.
  intros Hms Hm Hk. induction Hms as [|x ms Hx _ IH].
  - cbn [length read_messages fmap list_fmap mjoin list_join app].
    pose proof (read_cut m max_bytes k Hm Hk) as Hc. by destruct (read_message _ _) as [rest r]; simpl in Hc; subst.
  - change (mjoin (write_message <$> x :: ms)) with (write_message x ++ mjoin (write_message <$> ms)).
    rewrite <- app_assoc. cbn [length]. cbn [read_messages].
    rewrite read_written by done. cbn [read_messages] in IH. by rewrite IH.
Qed.
End frame_lemmas.

(** A handshake is accepted exactly from a configured member of this cluster that shows
    the token, when one is set, and has no connection yet. *)
Theorem validate_hello_accepts hello m connected id :
  validate_hello hello m connected = Ok id ↔
  id = he_node_id hello ∧ he_cluster_id hello = mb_cluster_id m ∧ (id ∈ mb_peer_ids m) ∧
  (mb_token m ≠ [] → he_token hello = mb_token m) ∧ (id ∉ connected).
Proof.
  unfold validate_hello, knows. destruct (he_cluster_id hello =? mb_cluster_id m) eqn:E; bool_to_prop; simpl.
  2: { split; [done|]. naive_solver. }
  case_bool_decide as Hk; simpl; [|split; [done|naive_solver]].
  destruct (decide (mb_token m = [])) as [Ht|Ht].
  - rewrite bool_decide_true by done. simpl. case_bool_decide; [split; [done|naive_solver]|].
    split; [intros [= <-]; naive_solver|by intros (-> & _)].
  - rewrite bool_decide_false by done. simpl. case_bool_decide as Htk; simpl; [|split; [done|naive_solver]].
    case_bool_decide; [split; [done|naive_solver]|].
    split; [intros [= <-]; naive_solver|by intros (-> & _)].
Qed.
