(* ===== verification/Mvcc.v ===== *)
(** * Version chains

    Models the multi-version record map of [crates/auradb-storage/src/lib.rs] and
    the log operations of [format.rs]: chains of committed versions, visibility at a
    read timestamp, the application of batches, the reads, and the pruning of a
    chain by garbage collection.

    A chain is kept ascending by commit timestamp.  [insert_version] places a version
    where [binary_search_by] finds its position in such a chain. *)

From S2P Require Import Prelude BTree Value Core.

Local Open Scope N_scope.

Record Version := mkVersion {
  v_commit_ts : N;
  v_value : option Rec;
}.

Abbreviation Chain := (list Version) (only parsing).
Abbreviation RecordMap := (list (string * list (N * list Version))) (only parsing).

Definition visible_at (chain : Chain) (read_ts : N) : option Version :=
  find_last (λ v, v_commit_ts v <=? read_ts) chain.

Definition latest (chain : Chain) : option Version := last chain.

Fixpoint insert_version (version : Version) (chain : Chain) : Chain :=
  match chain with
  | [] => [version]
  | v :: rest =>
      match v_commit_ts version ?= v_commit_ts v with
      | Eq => version :: rest
      | Lt => version :: v :: rest
      | Gt => v :: insert_version version rest
      end
  end.

(** ** Log operations *)

Inductive LogOp :=
| OpPut (commit_ts : N) (record : Rec)
| OpDelete (commit_ts : N) (collection : CollectionId) (id : RecordId).

Definition op_commit_ts (op : LogOp) : N :=
  match op with OpPut ts _ => ts | OpDelete ts _ _ => ts end.

Definition op_set_commit_ts (ts : N) (op : LogOp) : LogOp :=
  match op with
  | OpPut _ r => OpPut ts r
  | OpDelete _ c id => OpDelete ts c id
  end.

(** The chain an operation goes to and the version it adds. *)
Definition op_collection (op : LogOp) : CollectionId :=
  match op with OpPut _ r => rec_collection r | OpDelete _ c _ => c end.
Definition op_id (op : LogOp) : RecordId :=
  match op with OpPut _ r => rec_id r | OpDelete _ _ id => id end.
Definition op_value (op : LogOp) : option Rec :=
  match op with OpPut _ r => Some r | OpDelete _ _ _ => None end.
Definition op_version (op : LogOp) : Version := mkVersion (op_commit_ts op) (op_value op).

Record Batch := mkBatch {
  b_txn_id : TxnId;
  b_ops : list LogOp;
}.

Definition apply_op (records : RecordMap) (op : LogOp) : RecordMap :=
  bt_alter (λ m,
    bt_alter (λ chain, insert_version (op_version op) (default [] chain))
      (op_id op) (default [] m))
    (op_collection op) records.

Definition apply_ops (records : RecordMap) (ops : list LogOp) : RecordMap :=
  foldl apply_op records ops.

Definition apply_batch (records : RecordMap) (batch : Batch) : RecordMap :=
  apply_ops records (b_ops batch).

(** ** Reads *)

Definition inner (records : RecordMap) (c : CollectionId) : list (N * list Version) :=
  default [] (bt_get c records).

(** The chain of a record; an id that was never written has none. *)
Definition chain_of (records : RecordMap) (c : CollectionId) (id : RecordId) : option Chain :=
  bt_get c records ≫= bt_get id.

Definition rm_get (records : RecordMap) (c : CollectionId) (id : RecordId) : option Rec :=
  (chain_of records c id ≫= latest) ≫= v_value.

Definition rm_get_as_of (records : RecordMap) (c : CollectionId) (id : RecordId) (read_ts : N)
  : option Rec :=
  (chain_of records c id ≫= (λ chain, visible_at chain read_ts)) ≫= v_value.

Definition rm_scan (records : RecordMap) (c : CollectionId) : list Rec :=
  omap (λ chain, latest chain ≫= v_value) (bt_values (inner records c)).

Definition rm_scan_as_of (records : RecordMap) (c : CollectionId) (read_ts : N) : list Rec :=
  omap (λ chain, visible_at chain read_ts ≫= v_value) (bt_values (inner records c)).

Definition rm_latest_commit_ts (records : RecordMap) (c : CollectionId) (id : RecordId)
  : option N :=
  v_commit_ts <$> (chain_of records c id ≫= latest).

Definition live (chain : Chain) : bool :=
  match latest chain with Some v => match v_value v with Some _ => true | None => false end
                        | None => false end.

Definition rm_count (records : RecordMap) (c : CollectionId) : nat :=
  length (filter (λ chain, live chain = true) (bt_values (inner records c))).

Definition rm_total_records (records : RecordMap) : nat :=
  sum_list (rm_count records <$> bt_keys records).

Definition rm_total_versions (records : RecordMap) : nat :=
  sum_list (length <$> mjoin (bt_values <$> bt_values records)).

(** ** Garbage collection of a chain *)

(** [chain.iter().rposition(p)]: the last position that satisfies the test. *)
Fixpoint rposition (P : Version → bool) (chain : Chain) : option nat :=
  match chain with
  | [] => None
  | v :: rest => match rposition P rest with
                 | Some i => Some (S i)
                 | None => if P v then Some 0%nat else None
                 end
  end.

(** The chain is a tombstone that every reader at or after [cutoff] sees. *)
Definition fully_dead (cutoff : N) (chain : Chain) : bool :=
  match last chain with
  | Some v => match v_value v with
              | None => v_commit_ts v <=? cutoff
              | Some _ => false
              end
  | None => false
  end.

Definition removable (cutoff : N) (keep : nat) (chain : Chain) : nat :=
  match rposition (λ v, v_commit_ts v <=? cutoff) chain with
  | Some floor => Nat.min floor (length chain - keep)
  | None => 0%nat
  end.

(** The chain that stays after a collection, if any. *)
Definition gc_chain (cutoff : N) (keep : nat) (chain : Chain) : option Chain :=
  if fully_dead cutoff chain then None
  else Some (drop (removable cutoff keep chain) chain).

(** The [retain] loops of [gc]: the counters of reclaimed versions and removed
    records are threaded through the closure. *)
Fixpoint gc_inner (cutoff : N) (keep : nat) (chains : list (N * list Version))
    (acc : nat * nat) : list (N * list Version) * (nat * nat) :=
  match chains with
  | [] => ([], acc)
  | (id, chain) :: rest =>
      if fully_dead cutoff chain
      then gc_inner cutoff keep rest (acc.1 + length chain, acc.2 + 1)%nat
      else
        let n := removable cutoff keep chain in
        let r := gc_inner cutoff keep rest (acc.1 + n, acc.2)%nat in
        ((id, drop n chain) :: r.1, r.2)
  end.

Fixpoint gc_outer (cutoff : N) (keep : nat) (records : RecordMap) (acc : nat * nat)
  : RecordMap * (nat * nat) :=
  match records with
  | [] => ([], acc)
  | (c, chains) :: rest =>
      let r := gc_inner cutoff keep chains acc in
      let r' := gc_outer cutoff keep rest r.2 in
      ((c, r.1) :: r'.1, r'.2)
  end.

(** The counting loops of [gc_preview]. *)
Definition preview_chain (cutoff : N) (keep : nat) (acc : nat * nat) (chain : Chain) : nat * nat :=
  if fully_dead cutoff chain then (acc.1 + length chain, acc.2 + 1)%nat
  else match rposition (λ v, v_commit_ts v <=? cutoff) chain with
       | Some floor => (acc.1 + Nat.min floor (length chain - keep), acc.2)%nat
       | None => acc
       end.

Definition preview_counts (cutoff : N) (keep : nat) (records : RecordMap) : nat * nat :=
  foldl (λ acc chains, foldl (preview_chain cutoff keep) acc (bt_values chains))
    (0, 0)%nat (bt_values records).

(** The map of a collection, as a map operation. *)
Definition rm_gc (cutoff : N) (keep : nat) (records : RecordMap) : RecordMap :=
  bt_retain (λ _ chains, Some (bt_retain (λ _ chain, gc_chain cutoff keep chain) chains)) records.

Definition all_chains (records : RecordMap) : list Chain :=
  mjoin (bt_values <$> bt_values records).

(** ** Chains *)

Definition ts_lt (v w : Version) : Prop := v_commit_ts v < v_commit_ts w.

Definition chain_wf (chain : Chain) : Prop := StronglySorted ts_lt chain.

Lemma chain_wf_app c1 c2 :
  chain_wf (c1 ++ c2) ↔
  chain_wf c1 ∧ chain_wf c2 ∧ ∀ v w, v ∈ c1 → w ∈ c2 → ts_lt v w.
Proof.
  unfold chain_wf. induction c1 as [|x c1 IH]; simpl.
  - split; [intros; split_and!; [constructor|done|set_solver]|naive_solver].
  - split.
    + intros Hs. inversion Hs as [|? ? Hs' Hx]; subst. apply IH in Hs' as (H1 & H2 & H3).
      apply Forall_app in Hx as [Hx1 Hx2]. split_and!; [by constructor|done|].
      intros v w [->|Hv]%elem_of_cons Hw; [|by apply H3].
      rewrite Forall_forall in Hx2. by apply Hx2.
    + intros (H1 & H2 & H3). inversion H1 as [|? ? H1' Hx]; subst. constructor.
      * apply IH. split_and!; try done. intros v w Hv Hw. apply H3; [by right|done].
      * apply Forall_app. split; [done|]. apply Forall_forall. intros w Hw. apply H3; [by left|done].
Qed.

Lemma insert_version_elem v chain w :
  w ∈ insert_version v chain → w = v ∨ w ∈ chain.
Proof.
  induction chain as [|x chain IH]; simpl; [set_solver|].
  destruct (_ ?= _); set_solver.
Qed.

Lemma insert_version_wf v chain : chain_wf chain → chain_wf (insert_version v chain).
Proof.
  unfold chain_wf. induction 1 as [|x chain Hs IH Hx]; simpl; [repeat constructor|].
  destruct (_ ?= _) eqn:E.
  - apply N.compare_eq_iff in E. constructor; [done|].
    eapply Forall_impl; [exact Hx|]. unfold ts_lt. intros w. by rewrite E.
  - rewrite N.compare_lt_iff in E. constructor; [by constructor|]. constructor; [done|].
    eapply Forall_impl; [exact Hx|]. unfold ts_lt. intros w Hw. lia.
  - rewrite N.compare_gt_iff in E. constructor; [done|]. apply Forall_forall.
    intros w [->|Hw]%insert_version_elem; [done|]. rewrite Forall_forall in Hx. by apply Hx.
Qed.

(** A version newer than the whole chain goes to its end. *)
Lemma insert_version_newest v chain :
  Forall (λ w, v_commit_ts w < v_commit_ts v) chain → insert_version v chain = chain ++ [v].
Proof.
  induction 1 as [|x chain Hx _ IH]; simpl; [done|].
  destruct (_ ?= _) eqn:E; [apply N.compare_eq_iff in E; lia|rewrite N.compare_lt_iff in E; lia|].
  by rewrite IH.
Qed.

(** A version at the timestamp of the last one replaces it. *)
Lemma insert_version_last v w chain :
  Forall (λ u, v_commit_ts u < v_commit_ts v) chain → v_commit_ts w = v_commit_ts v →
  insert_version v (chain ++ [w]) = chain ++ [v].
Proof.
  intros Hf Hw. induction Hf as [|x chain Hx _ IH]; simpl.
  - by rewrite Hw, N.compare_refl.
  - destruct (_ ?= _) eqn:E; [apply N.compare_eq_iff in E; lia|rewrite N.compare_lt_iff in E; lia|].
    by rewrite IH.
Qed.

Lemma insert_version_older_visible v chain read_ts :
  read_ts < v_commit_ts v → visible_at (insert_version v chain) read_ts = visible_at chain read_ts.
Proof.
  intros Hts. assert (Hv : (v_commit_ts v <=? read_ts) = false) by (apply N.leb_gt; lia).
  unfold visible_at. induction chain as [|x chain IH]; simpl; [by rewrite Hv|].
  destruct (_ ?= _) eqn:E; simpl.
  - apply N.compare_eq_iff in E. rewrite <- E, Hv. by destruct (find_last _ chain).
  - rewrite Hv. by destruct (find_last _ chain), (v_commit_ts x <=? read_ts).
  - by rewrite IH.
Qed.

(** What a snapshot read finds: the newest version at or before its timestamp. *)
Lemma visible_at_spec chain read_ts v :
  chain_wf chain →
  visible_at chain read_ts = Some v ↔
  v ∈ chain ∧ v_commit_ts v <= read_ts ∧
  ∀ w, w ∈ chain → v_commit_ts w <= read_ts → v_commit_ts w <= v_commit_ts v.
Proof.
  intros Hwf. unfold visible_at. split.
  - intros (c1 & c2 & -> & Hv & Hc2)%find_last_Some. apply N.leb_le in Hv.
    rewrite Forall_forall in Hc2. apply chain_wf_app in Hwf as (H1 & H2 & H3).
    split_and!; [set_solver|done|]. intros w Hw Hle. apply elem_of_app in Hw as [Hw|Hw].
    + assert (ts_lt w v) as Hlt by (apply H3; [done|by left]). unfold ts_lt in Hlt. lia.
    + apply elem_of_cons in Hw as [->|Hw]; [lia|]. apply Hc2, N.leb_gt in Hw. lia.
  - intros (Hin & Hle & Hmax). apply list_elem_of_split in Hin as (c1 & c2 & ->).
    apply find_last_split; [by apply N.leb_le|]. apply Forall_forall. intros w Hw.
    apply N.leb_gt. apply chain_wf_app in Hwf as (_ & H2 & _). inversion H2 as [|? ? _ Hx]; subst.
    rewrite Forall_forall in Hx. specialize (Hx w Hw). unfold ts_lt in Hx.
    destruct (N.le_gt_cases (v_commit_ts w) read_ts) as [Hwr|]; [|lia].
    specialize (Hmax w ltac:(set_solver) Hwr). lia.
Qed.

Lemma visible_at_latest chain read_ts v :
  last chain = Some v → v_commit_ts v <= read_ts → visible_at chain read_ts = Some v.
Proof.
  intros Hl Hle. apply last_Some in Hl as [c ->]. unfold visible_at.
  apply find_last_split; [by apply N.leb_le|constructor].
Qed.

(** ** The record map *)

(** A live version sits in the chain of its own collection and id. *)
Definition placed (c : CollectionId) (id : RecordId) (v : Version) : Prop :=
  ∀ r, v_value v = Some r → rec_collection r = c ∧ rec_id r = id.

Definition chain_ok (c : CollectionId) (id : RecordId) (chain : Chain) : Prop :=
  chain_wf chain ∧ chain ≠ [] ∧ Forall (placed c id) chain.

Definition inner_wf (c : CollectionId) (m : list (N * list Version)) : Prop :=
  bt_wf m ∧ ∀ id chain, bt_get id m = Some chain → chain_ok c id chain.

Definition rm_wf (records : RecordMap) : Prop :=
  bt_wf records ∧ ∀ c m, bt_get c records = Some m → inner_wf c m.

(** Maps that hold the same chains: a collection without records is as good as
    none. *)
Definition rm_equiv (r1 r2 : RecordMap) : Prop :=
  ∀ c id, chain_of r1 c id = chain_of r2 c id.

#[export] Instance rm_equiv_equivalence : Equivalence rm_equiv.
Proof.
  split; [by intros ?? ?|by intros ?? Heq ??|intros ??? H1 H2 ??; by rewrite H1, H2].
Qed.

#[export] Instance rm_get_proper : Proper (rm_equiv ==> eq ==> eq ==> eq) rm_get.
Proof. intros r1 r2 Heq c ? <- id ? <-. unfold rm_get. by rewrite Heq. Qed.

#[export] Instance rm_get_as_of_proper :
  Proper (rm_equiv ==> eq ==> eq ==> eq ==> eq) rm_get_as_of.
Proof. intros r1 r2 Heq c ? <- id ? <- ts ? <-. unfold rm_get_as_of. by rewrite Heq. Qed.

#[export] Instance rm_latest_commit_ts_proper :
  Proper (rm_equiv ==> eq ==> eq ==> eq) rm_latest_commit_ts.
Proof. intros r1 r2 Heq c ? <- id ? <-. unfold rm_latest_commit_ts. by rewrite Heq. Qed.

Lemma inner_wf_nil c : inner_wf c [].
Proof. by repeat constructor. Qed.

Lemma inner_wf_of r c : rm_wf r → inner_wf c (inner r c).
Proof.
  intros [_ Hr]. unfold inner. destruct (bt_get c r) eqn:E; simpl; [by apply Hr|apply inner_wf_nil].
Qed.

Lemma chain_of_inner r c id : chain_of r c id = bt_get id (inner r c).
Proof. unfold chain_of, inner. by destruct (bt_get c r). Qed.

Lemma chain_of_wf r c id chain : rm_wf r → chain_of r c id = Some chain → chain_ok c id chain.
Proof. intros Hr. rewrite chain_of_inner. apply (inner_wf_of r c Hr). Qed.

Lemma chain_of_apply_op r op c id :
  chain_of (apply_op r op) c id =
    if decide (op_collection op = c ∧ op_id op = id)
    then Some (insert_version (op_version op) (default [] (chain_of r c id)))
    else chain_of r c id.
Proof.
  unfold chain_of, apply_op. rewrite bt_get_alter.
  destruct (decide (op_collection op = c)) as [->|Hc].
  - simpl. rewrite bt_get_alter. destruct (decide (op_id op = id)) as [->|Hid].
    + rewrite decide_True by done. by destruct (bt_get c r).
    + rewrite decide_False by naive_solver. by destruct (bt_get c r).
  - rewrite decide_False by naive_solver. done.
Qed.

Lemma insert_version_ne_nil v chain : insert_version v chain ≠ [].
Proof. destruct chain as [|x chain]; simpl; [done|]. by destruct (_ ?= _). Qed.

Lemma op_version_placed op : placed (op_collection op) (op_id op) (op_version op).
Proof. intros r. destruct op; simpl; naive_solver. Qed.

Lemma chain_ok_insert op chain :
  chain_wf chain → Forall (placed (op_collection op) (op_id op)) chain →
  chain_ok (op_collection op) (op_id op) (insert_version (op_version op) chain).
Proof.
  intros Hwf Hp. split_and!.
  - by apply insert_version_wf.
  - apply insert_version_ne_nil.
  - apply Forall_forall. intros w [->|Hw]%insert_version_elem; [apply op_version_placed|].
    rewrite Forall_forall in Hp. by apply Hp.
Qed.

Lemma inner_wf_alter op m :
  inner_wf (op_collection op) m →
  inner_wf (op_collection op)
    (bt_alter (λ chain, insert_version (op_version op) (default [] chain)) (op_id op) m).
Proof.
  intros [Hm Hc]. split; [by apply bt_wf_alter|]. intros id chain. rewrite bt_get_alter.
  case_decide as Hid; [|apply Hc]. subst id. intros [= <-].
  destruct (bt_get (op_id op) m) as [ch|] eqn:E; simpl.
  - destruct (Hc _ _ E) as (? & _ & ?). by apply chain_ok_insert.
  - apply (chain_ok_insert op []); constructor.
Qed.

Lemma rm_wf_apply_op r op : rm_wf r → rm_wf (apply_op r op).
Proof.
  intros Hr. pose proof Hr as [Hb Hi]. split; [by apply bt_wf_alter|].
  intros c m. unfold apply_op. rewrite bt_get_alter. case_decide as Hc; [|apply Hi].
  subst c. intros [= <-]. apply inner_wf_alter.
  destruct (bt_get (op_collection op) r) eqn:E; simpl; [by apply Hi|apply inner_wf_nil].
Qed.

Lemma rm_wf_apply_ops r ops : rm_wf r → rm_wf (apply_ops r ops).
Proof.
  unfold apply_ops. revert r. induction ops as [|op ops IH]; intros r Hr; simpl; [done|].
  by apply IH, rm_wf_apply_op.
Qed.

#[export] Instance apply_op_proper : Proper (rm_equiv ==> eq ==> rm_equiv) apply_op.
Proof. intros r1 r2 Heq op ? <- c id. rewrite !chain_of_apply_op. by rewrite Heq. Qed.

#[export] Instance apply_ops_proper : Proper (rm_equiv ==> eq ==> rm_equiv) apply_ops.
Proof.
  intros r1 r2 Heq ops ? <-. unfold apply_ops. revert r1 r2 Heq.
  induction ops as [|op ops IH]; intros r1 r2 Heq; simpl; [done|].
  apply IH. by rewrite Heq.
Qed.

(** ** Scans are determined by point reads *)

(** A scan is the values of a map, in the order of the ids. *)
Lemma omap_values_retain (m : list (N * list Version)) (f : list Version → option Rec) :
  omap f (bt_values m) = bt_values (bt_retain (λ _, f) m).
Proof.
  unfold bt_values, bt_retain. induction m as [|[id ch] m IH]; csimpl; [done|].
  destruct (f ch); csimpl; by rewrite IH.
Qed.

Lemma scan_ext_inner (m1 m2 : list (N * list Version)) (f g : list Version → option Rec) :
  bt_wf m1 → bt_wf m2 → (∀ id, bt_get id m1 ≫= f = bt_get id m2 ≫= g) →
  omap f (bt_values m1) = omap g (bt_values m2).
Proof.
  intros H1 H2 Heq. rewrite !omap_values_retain. f_equal.
  apply bt_ext; [by apply bt_wf_retain..|]. intros id. by rewrite !bt_get_retain.
Qed.

Lemma scan_ext r1 r2 c :
  rm_wf r1 → rm_wf r2 → (∀ id, rm_get r1 c id = rm_get r2 c id) → rm_scan r1 c = rm_scan r2 c.
Proof.
  intros H1 H2 Heq. apply scan_ext_inner; [by apply inner_wf_of..|]. intros id.
  specialize (Heq id). unfold rm_get in Heq. rewrite !chain_of_inner in Heq.
  by destruct (bt_get id (inner r1 c)), (bt_get id (inner r2 c)).
Qed.

Lemma scan_as_of_ext r1 r2 c ts1 ts2 :
  rm_wf r1 → rm_wf r2 → (∀ id, rm_get_as_of r1 c id ts1 = rm_get_as_of r2 c id ts2) →
  rm_scan_as_of r1 c ts1 = rm_scan_as_of r2 c ts2.
Proof.
  intros H1 H2 Heq. apply scan_ext_inner; [by apply inner_wf_of..|]. intros id.
  specialize (Heq id). unfold rm_get_as_of in Heq. rewrite !chain_of_inner in Heq.
  by destruct (bt_get id (inner r1 c)), (bt_get id (inner r2 c)).
Qed.

(** ** Snapshots *)

Lemma get_as_of_apply_newer r op c id read_ts :
  read_ts < op_commit_ts op →
  rm_get_as_of (apply_op r op) c id read_ts = rm_get_as_of r c id read_ts.
Proof.
  intros Hts. unfold rm_get_as_of. rewrite chain_of_apply_op. case_decide; [|done]. simpl.
  rewrite insert_version_older_visible by done. by destruct (chain_of r c id).
Qed.

Lemma get_as_of_apply_ops_newer r ops c id read_ts :
  Forall (λ op, read_ts < op_commit_ts op) ops →
  rm_get_as_of (apply_ops r ops) c id read_ts = rm_get_as_of r c id read_ts.
Proof.
  intros Hops. unfold apply_ops. revert r. induction Hops as [|op ops Hop _ IH]; intros r; simpl;
    [done|]. rewrite IH. by apply get_as_of_apply_newer.
Qed.

(** ** Committing a batch *)

(** Everything in the map was committed at or before [ts]. *)
Definition rm_below (ts : N) (r : RecordMap) : Prop :=
  ∀ c id chain, chain_of r c id = Some chain → Forall (λ v, v_commit_ts v <= ts) chain.

(** The last operation of a batch on a record decides its new version. *)
Definition last_op_on (c : CollectionId) (id : RecordId) (ops : list LogOp) : option LogOp :=
  find_last (λ op, bool_decide (op_collection op = c ∧ op_id op = id)) ops.

Lemma chain_of_apply_stamped r ops ts c id :
  (∀ chain, chain_of r c id = Some chain → Forall (λ v, v_commit_ts v < ts) chain) →
  Forall (λ op, op_commit_ts op = ts) ops →
  chain_of (apply_ops r ops) c id =
    match last_op_on c id ops with
    | Some op => Some (default [] (chain_of r c id) ++ [op_version op])
    | None => chain_of r c id
    end.
Proof.
  intros Hold. unfold apply_ops, last_op_on.
  induction ops as [|op ops IH] using rev_ind; intros Hts; [done|].
  apply Forall_app in Hts as [Hts Hop]. apply Forall_cons in Hop as [Hop _].
  rewrite foldl_snoc, find_last_app, chain_of_apply_op, IH by done. simpl.
  assert (Hlt : Forall (λ w, v_commit_ts w < v_commit_ts (op_version op))
                  (default [] (chain_of r c id))).
  { unfold op_version. simpl. rewrite Hop. destruct (chain_of r c id); simpl; auto. }
  destruct (decide (op_collection op = c ∧ op_id op = id)) as [Hk|Hk];
    [rewrite bool_decide_true by done|rewrite bool_decide_false by done; done].
  destruct (find_last _ ops) as [op'|] eqn:E; simpl.
  - f_equal. apply insert_version_last; [done|]. unfold op_version. simpl.
    apply find_last_Some in E as (l1 & l2 & -> & _ & _).
    apply Forall_app in Hts as [_ [Ht _]%Forall_cons]. congruence.
  - f_equal. by apply insert_version_newest.
Qed.

Lemma rm_below_apply_ops r ops ts ts' :
  rm_below ts r → ts <= ts' → Forall (λ op, op_commit_ts op <= ts') ops →
  rm_below ts' (apply_ops r ops).
Proof.
  intros Hr Hle Hops.
  assert (Hr' : rm_below ts' r).
  { intros c id chain Hc. eapply Forall_impl; [by eapply Hr|]. simpl. lia. }
  clear Hr. unfold apply_ops. revert r Hr'. induction Hops as [|op ops Hop _ IH]; intros r Hr;
    simpl; [done|]. apply IH. intros c id chain. rewrite chain_of_apply_op.
  case_decide; [|apply Hr]. intros [= <-]. apply Forall_forall.
  intros w [->|Hw]%insert_version_elem; [done|].
  destruct (chain_of r c id) as [ch|] eqn:E; simpl in Hw; [|set_solver].
  specialize (Hr _ _ _ E). rewrite Forall_forall in Hr. by apply Hr.
Qed.

(** ** Pruning *)

Lemma rposition_Some P (chain : Chain) i :
  rposition P chain = Some i → ∃ v, chain !! i = Some v ∧ P v = true.
Proof.
  revert i. induction chain as [|x chain IH]; intros i; simpl; [done|].
  destruct (rposition P chain) as [j|] eqn:E.
  - intros [= <-]. by apply IH.
  - destruct (P x) eqn:Hx; [|done]. intros [= <-]. by exists x.
Qed.

Lemma removable_lt cutoff keep (chain : Chain) :
  chain ≠ [] → (removable cutoff keep chain < length chain)%nat.
Proof.
  intros Hne. unfold removable. destruct (rposition _ chain) as [i|] eqn:E.
  - apply rposition_Some in E as (v & Hv & _). apply lookup_lt_Some in Hv. lia.
  - destruct chain; [done|simpl; lia].
Qed.

(** What is cut off was not visible to any reader at or after the cutoff. *)
Lemma visible_at_pruned cutoff keep chain read_ts :
  cutoff <= read_ts →
  visible_at (drop (removable cutoff keep chain) chain) read_ts = visible_at chain read_ts.
Proof.
  intros Hle. unfold removable. destruct (rposition _ chain) as [i|] eqn:E; [|by rewrite drop_0].
  apply rposition_Some in E as (v & Hv & Hc). apply N.leb_le in Hc.
  set (n := Nat.min i (length chain - keep)). unfold visible_at.
  rewrite <- (take_drop n chain) at 2. rewrite find_last_app.
  destruct (find_last _ (drop n chain)) eqn:Ef; [done|].
  apply find_last_None in Ef. rewrite Forall_lookup in Ef.
  assert (Hn : drop n chain !! (i - n)%nat = Some v)
    by (rewrite lookup_drop; replace (n + (i - n))%nat with i by lia; done).
  apply Ef, N.leb_gt in Hn. lia.
Qed.

Lemma last_pruned cutoff keep chain :
  chain ≠ [] → last (drop (removable cutoff keep chain) chain) = last chain.
Proof.
  intros Hne. pose proof (removable_lt cutoff keep chain Hne) as Hlt.
  set (n := removable cutoff keep chain) in *. rewrite <- (take_drop n chain) at 2.
  rewrite last_app. destruct (last (drop n chain)) eqn:E; [done|].
  apply last_None in E. apply (f_equal length) in E. rewrite length_drop in E. simpl in E. lia.
Qed.

Lemma chain_of_gc cutoff keep r c id :
  rm_wf r → chain_of (rm_gc cutoff keep r) c id = chain_of r c id ≫= gc_chain cutoff keep.
Proof.
  intros [Hb Hi]. unfold chain_of, rm_gc. rewrite bt_get_retain by done.
  destruct (bt_get c r) as [m|] eqn:E; simpl; [|done].
  destruct (Hi _ _ E) as [Hm _]. by rewrite bt_get_retain.
Qed.

Lemma chain_ok_gc cutoff keep c id chain chain' :
  chain_ok c id chain → gc_chain cutoff keep chain = Some chain' → chain_ok c id chain'.
Proof.
  intros (Hwf & Hne & Hp). unfold gc_chain. case_if; [done|]. intros [= <-].
  pose proof (removable_lt cutoff keep chain Hne) as Hlt.
  set (n := removable cutoff keep chain) in *. rewrite <- (take_drop n chain) in Hwf, Hp.
  apply chain_wf_app in Hwf as (_ & Hwf & _). apply Forall_app in Hp as [_ Hp].
  split_and!; [done| |done]. intros Hnil. apply (f_equal length) in Hnil.
  rewrite length_drop in Hnil. simpl in Hnil. lia.
Qed.

Lemma rm_wf_gc cutoff keep r : rm_wf r → rm_wf (rm_gc cutoff keep r).
Proof.
  intros [Hb Hi]. split; [by apply bt_wf_retain|]. intros c m. unfold rm_gc.
  rewrite bt_get_retain by done. destruct (bt_get c r) as [m0|] eqn:E; simpl; [|done].
  intros [= <-]. destruct (Hi _ _ E) as [Hm Hc]. split; [by apply bt_wf_retain|].
  intros id chain. rewrite bt_get_retain by done.
  destruct (bt_get id m0) as [ch|] eqn:Ec; simpl; [|done]. intros Hg.
  eapply chain_ok_gc; [by apply Hc|done].
Qed.

(** A chain that goes away was a tombstone to every reader that is left. *)
Lemma gc_chain_visible cutoff keep chain read_ts :
  cutoff <= read_ts →
  (gc_chain cutoff keep chain ≫= (λ ch, visible_at ch read_ts)) ≫= v_value =
  visible_at chain read_ts ≫= v_value.
Proof.
  intros Hle. unfold gc_chain. destruct (fully_dead cutoff chain) eqn:E; simpl.
  - unfold fully_dead in E. destruct (last chain) as [v|] eqn:El; [|done].
    destruct (v_value v) eqn:Ev; [done|]. apply N.leb_le in E.
    rewrite (visible_at_latest chain read_ts v) by (done || lia). simpl. by rewrite Ev.
  - by rewrite visible_at_pruned.
Qed.

Lemma gc_chain_latest cutoff keep chain :
  chain ≠ [] → (gc_chain cutoff keep chain ≫= latest) ≫= v_value = latest chain ≫= v_value.
Proof.
  intros Hne. unfold gc_chain, latest. destruct (fully_dead cutoff chain) eqn:E; simpl.
  - unfold fully_dead in E. destruct (last chain) as [v|]; [|done]. simpl.
    by destruct (v_value v).
  - by rewrite last_pruned.
Qed.

Lemma gc_get_as_of cutoff keep r c id read_ts :
  rm_wf r → cutoff <= read_ts →
  rm_get_as_of (rm_gc cutoff keep r) c id read_ts = rm_get_as_of r c id read_ts.
Proof.
  intros Hr Hle. unfold rm_get_as_of. rewrite chain_of_gc by done.
  destruct (chain_of r c id) as [chain|]; simpl; [|done]. by apply gc_chain_visible.
Qed.

Lemma gc_get cutoff keep r c id :
  rm_wf r → rm_get (rm_gc cutoff keep r) c id = rm_get r c id.
Proof.
  intros Hr. unfold rm_get. rewrite chain_of_gc by done.
  destruct (chain_of r c id) as [chain|] eqn:E; simpl; [|done].
  apply gc_chain_latest. by apply (chain_of_wf r c id chain Hr) in E as (_ & ? & _).
Qed.

(** ** Counting *)

Lemma gc_inner_spec cutoff keep m acc :
  gc_inner cutoff keep m acc =
    (bt_retain (λ _ chain, gc_chain cutoff keep chain) m,
     foldl (preview_chain cutoff keep) acc (bt_values m)).
Proof.
  revert acc. unfold bt_retain, bt_values. induction m as [|[id ch] m IH]; intros acc; csimpl; [done|].
  unfold gc_chain, preview_chain at 2. destruct (fully_dead cutoff ch); csimpl; rewrite IH; [done|].
  unfold removable. destruct (rposition _ ch); csimpl; [done|].
  rewrite Nat.add_0_r. by destruct acc.
Qed.

Lemma gc_outer_spec cutoff keep r acc :
  gc_outer cutoff keep r acc =
    (rm_gc cutoff keep r,
     foldl (λ acc chains, foldl (preview_chain cutoff keep) acc (bt_values chains)) acc
       (bt_values r)).
Proof.
  revert acc. unfold rm_gc, bt_retain, bt_values.
  induction r as [|[c m] r IH]; intros acc; csimpl; [done|].
  rewrite gc_inner_spec. simpl. by rewrite IH.
Qed.

Lemma all_chains_gc cutoff keep r :
  all_chains (rm_gc cutoff keep r) = omap (gc_chain cutoff keep) (all_chains r).
Proof.
  unfold all_chains, rm_gc, bt_values. induction r as [|[c m] r IH]; csimpl; [done|].
  rewrite omap_app, IH. f_equal. clear. unfold bt_retain.
  induction m as [|[id ch] m IH]; csimpl; [done|].
  destruct (gc_chain cutoff keep ch); csimpl; by rewrite IH.
Qed.

Lemma preview_all_chains cutoff keep r acc :
  foldl (λ acc chains, foldl (preview_chain cutoff keep) acc (bt_values chains)) acc (bt_values r)
  = foldl (preview_chain cutoff keep) acc (all_chains r).
Proof.
  revert acc. unfold all_chains, bt_values. induction r as [|[c m] r IH]; intros acc; csimpl; [done|].
  by rewrite foldl_app, IH.
Qed.

(** The versions that stay and the versions reported make up all of them. *)
Lemma preview_chain_count cutoff keep acc (ch : Chain) :
  ((preview_chain cutoff keep acc ch).1 + length (default [] (gc_chain cutoff keep ch))
   = acc.1 + length ch)%nat.
Proof.
  assert (Hle : (removable cutoff keep ch ≤ length ch)%nat).
  { destruct ch as [|v ch]; [done|].
    pose proof (removable_lt cutoff keep (v :: ch) ltac:(done)). lia. }
  unfold preview_chain, gc_chain. destruct (fully_dead cutoff ch); simpl; [lia|].
  rewrite length_drop. unfold removable in *. destruct (rposition _ ch); simpl in *; lia.
Qed.

Lemma preview_chain_total cutoff keep (chains : list Chain) acc :
  (sum_list (length <$> omap (gc_chain cutoff keep) chains)
   + (foldl (preview_chain cutoff keep) acc chains).1
   = acc.1 + sum_list (length <$> chains))%nat.
Proof.
  revert acc. induction chains as [|ch chains IH]; intros acc; csimpl; [lia|].
  specialize (IH (preview_chain cutoff keep acc ch)).
  pose proof (preview_chain_count cutoff keep acc ch) as Hc.
  destruct (gc_chain cutoff keep ch); csimpl; simpl in Hc; lia.
Qed.

Lemma rm_total_versions_gc cutoff keep r :
  (rm_total_versions (rm_gc cutoff keep r) + (preview_counts cutoff keep r).1
   = rm_total_versions r)%nat.
Proof.
  unfold rm_total_versions, preview_counts.
  change (mjoin (bt_values <$> bt_values ?x)) with (all_chains x).
  rewrite all_chains_gc, preview_all_chains. apply preview_chain_total.
Qed.
