(* ===== verification/Storage.v ===== *)
(** * The storage engine

    Models [crates/auradb-storage/src]: segment files of checksummed batches
    ([format.rs]), the manifest ([manifest.rs]), the schema catalog ([catalog.rs])
    and the [Storage] engine over them ([lib.rs]): opening with recovery and
    migration, commits, applied replicated batches, schema changes, compaction and
    garbage collection.

    The directory is a record of files: the manifest, the catalog and the segments
    by their id (their names are an injective rendering of the id).  Input and output
    succeed; a crash is a directory in between, and the theorems say what opening it
    gives.  [serde_json] is a parameter ([StorageCodec]). *)

From S2P Require Import Prelude BTree Text Framing Value Core Mvcc.

Local Open Scope N_scope.

(** ** Manifest and catalog *)

Definition FORMAT_VERSION : N := 2.
Definition MIN_READABLE_FORMAT_VERSION : N := 1.

Record Manifest := mkManifest {
  m_format_version : N;
  m_segments : list N;
  m_next_segment_id : N;
  m_last_txn_id : N;
  m_last_commit_ts : N;
}.

Definition manifest_default : Manifest := mkManifest FORMAT_VERSION [1] 2 0 0.

Record Catalog := mkCatalog {
  cat_schemas : list (string * CollectionSchema);
  cat_schema_version : N;
}.

Definition catalog_default : Catalog := mkCatalog [] 0.

Definition catalog_put (schema : CollectionSchema) (c : Catalog) : Catalog :=
  mkCatalog (bt_insert (cs_name schema) schema (cat_schemas c)) (cat_schema_version c + 1).

(** [Catalog::remove]: the version moves only when the schema existed. *)
Definition catalog_remove (name : string) (c : Catalog) : Catalog :=
  match bt_get name (cat_schemas c) with
  | Some _ => mkCatalog (bt_remove name (cat_schemas c)) (cat_schema_version c + 1)
  | None => c
  end.

Class StorageCodec := {
  enc_batch : Batch → list byte;
  dec_batch : list byte → option Batch;
  enc_manifest : Manifest → list byte;
  dec_manifest : list byte → option Manifest;
  enc_catalog : Catalog → list byte;
  dec_catalog : list byte → option Catalog;
  #[global] storage_crc :: Crc32;
}.

(** What its JSON text keeps of a batch: every value of every record is one that JSON can
    hold, that is not nested too deeply and whose floats are read back; the rest of a batch
    is integers and names. *)
Definition record_safe `{FloatText} (r : Rec) : bool :=
  forallb (λ kv, text_safe kv.2) (rec_fields r).
Definition op_safe `{FloatText} (op : LogOp) : bool :=
  match op with OpPut _ r => record_safe r | OpDelete _ _ _ => true end.
Definition batch_safe `{FloatText} (b : Batch) : bool := forallb op_safe (b_ops b).

Class StorageCodecLaws `{FloatText, StorageCodec} : Prop := {
  dec_enc_batch : ∀ b, batch_safe b = true → dec_batch (enc_batch b) = Some b;
  dec_enc_manifest : ∀ m, dec_manifest (enc_manifest m) = Some m;
  dec_enc_catalog : ∀ c, dec_catalog (enc_catalog c) = Some c;
  #[global] storage_crc_laws :: Crc32Laws;
}.

Record Dir := mkDbDir {
  d_manifest : option (list byte);
  d_catalog : option (list byte);
  d_segments : gmap N (list byte);
}.

Record GcReport := mkGcReport {
  versions_reclaimed : nat;
  records_removed : nat;
  versions_after : nat;
  bytes_reclaimed : N;
}.

Record CompactionReport := mkCompactionReport {
  segments_before : nat;
  segments_after : nat;
  live_records : nat;
}.

Record Storage := mkStorage {
  st_dir : Dir;
  st_manifest : Manifest;
  st_catalog : Catalog;
  st_records : list (string * list (N * list Version));
  st_max_txn_id : N;
  st_last_commit_ts : N;
}.

Section storage.
Context `{StorageCodec}.

(** ** Segments *)

Definition batch_encode (b : Batch) : list byte := frame (enc_batch b).

Record ParsedSegment := mkParsed {
  ps_batches : list Batch;
  ps_valid_len : nat;
  ps_truncated : bool;
}.

(** The [loop] of [parse_segment]; a frame is at least twelve bytes long, so the
    length of the buffer bounds the passes. *)
Fixpoint parse_loop (fuel : nat) (buf : list byte) (offset : nat) (batches : list Batch)
  : Res ParsedSegment :=
  match fuel with
  | O => Ok (mkParsed batches offset false)
  | S fuel' =>
      if (offset =? length buf)%nat then Ok (mkParsed batches offset false)
      else match read_frame dec_batch buf offset with
           | FrTorn => Ok (mkParsed batches offset true)
           | FrBad => Err ECorruption
           | FrOk batch body_end => parse_loop fuel' buf body_end (batches ++ [batch])
           end
  end.

Definition parse_segment (buf : list byte) : Res ParsedSegment :=
  parse_loop (S (length buf)) buf 0 [].

(** ** Loading *)

Definition manifest_load (bytes : list byte) : Res Manifest :=
  match dec_manifest bytes with
  | None => Err ECorruption
  | Some m =>
      if ((FORMAT_VERSION <? m_format_version m)
          || (m_format_version m <? MIN_READABLE_FORMAT_VERSION))%bool
      then Err EUnsupported
      else match m_segments m with
           | [] => Err ECorruption
           | _ :: _ => Ok m
           end
  end.

Definition catalog_load (file : option (list byte)) : Res Catalog :=
  match file with
  | None => Ok catalog_default
  | Some bytes => match dec_catalog bytes with
                  | Some c => Ok c
                  | None => Err ECorruption
                  end
  end.

Definition set_manifest_file (m : Manifest) (d : Dir) : Dir :=
  mkDbDir (Some (enc_manifest m)) (d_catalog d) (d_segments d).
Definition set_catalog_file (c : Catalog) (d : Dir) : Dir :=
  mkDbDir (d_manifest d) (Some (enc_catalog c)) (d_segments d).
Definition set_segments (segs : gmap N (list byte)) (d : Dir) : Dir :=
  mkDbDir (d_manifest d) (d_catalog d) segs.

(** [Manifest::active]; the manifest lists at least one segment. *)
Definition manifest_active (m : Manifest) : N := List.last (m_segments m) 0.

Definition segment_file (d : Dir) (id : N) : list byte := default [] (d_segments d !! id).

(** What the replay accumulates: the map, the highest transaction id, the highest
    commit timestamp and the migration counter. *)
Record Replay := mkReplay {
  rp_records : list (string * list (N * list Version));
  rp_max_txn_id : N;
  rp_last_commit_ts : N;
  rp_migrate_ts : N;
}.

(** Migration stamps every operation with the next timestamp. *)
Fixpoint restamp (ops : list LogOp) (ts : N) : list LogOp :=
  match ops with
  | [] => []
  | op :: rest => op_set_commit_ts (ts + 1) op :: restamp rest (ts + 1)
  end.

Definition max_op_ts (ops : list LogOp) (ts : N) : N :=
  foldl (λ acc op, N.max acc (op_commit_ts op)) ts ops.

Definition replay_batch (migrating : bool) (rp : Replay) (b : Batch) : Replay :=
  let ops := if migrating then restamp (b_ops b) (rp_migrate_ts rp) else b_ops b in
  mkReplay (apply_ops (rp_records rp) ops) (N.max (rp_max_txn_id rp) (b_txn_id b))
    (max_op_ts ops (rp_last_commit_ts rp))
    (if migrating then rp_migrate_ts rp + N.of_nat (length (b_ops b)) else rp_migrate_ts rp).

(** The loop over the segments; only the last one may have a torn tail, which is
    cut off its file. *)
Fixpoint replay_segments (migrating : bool) (segs : list N) (d : Dir) (rp : Replay)
  : Res (Dir * Replay) :=
  match segs with
  | [] => Ok (d, rp)
  | seg :: rest =>
      let buf := segment_file d seg in
      let? parsed := parse_segment buf in
      if (ps_truncated parsed && negb (bool_decide (rest = [])))%bool then Err ECorruption
      else
        let d := if ps_truncated parsed
                 then set_segments (<[seg := take (ps_valid_len parsed) buf]> (d_segments d)) d
                 else d in
        replay_segments migrating rest d
          (foldl (replay_batch migrating) rp (ps_batches parsed))
  end.

(** Every catalogued collection has an entry. *)
Definition ensure_collections (names : list string)
  (records : list (string * list (N * list Version))) :=
  foldl (λ r name, bt_alter (λ m, default [] m) name r) records names.

(** ** Rewriting the live chains into one segment *)

Definition version_op (c : CollectionId) (id : RecordId) (v : Version) : LogOp :=
  match v_value v with
  | Some record => OpPut (v_commit_ts v) record
  | None => OpDelete (v_commit_ts v) c id
  end.

Definition snapshot_ops (records : list (string * list (N * list Version))) : list LogOp :=
  mjoin ((λ '(c, chains), mjoin ((λ '(id, chain), version_op c id <$> chain) <$> chains))
           <$> records).

Definition rewrite_segment (s : Storage) : Storage :=
  let ops := snapshot_ops (st_records s) in
  let new_id := m_next_segment_id (st_manifest s) in
  let content := match ops with
                 | [] => []
                 | _ :: _ => batch_encode (mkBatch (st_max_txn_id s) ops)
                 end in
  let d := st_dir s in
  let d := set_segments (<[new_id := content]> (d_segments d)) d in
  let old_segments := m_segments (st_manifest s) in
  let m := mkManifest FORMAT_VERSION [new_id] (new_id + 1) (st_max_txn_id s)
             (st_last_commit_ts s) in
  let d := set_manifest_file m d in
  let d := set_segments
             (foldl (λ segs seg, if negb (seg =? new_id) then delete seg segs else segs)
                (d_segments d) old_segments) d in
  mkStorage d m (st_catalog s) (st_records s) (st_max_txn_id s) (st_last_commit_ts s).

(** ** Opening *)

Definition open_with (d : Dir) : Res Storage :=
  let? (d, m) := match d_manifest d with
                 | Some bytes => let? m := manifest_load bytes in Ok (d, m)
                 | None => Ok (set_manifest_file manifest_default d, manifest_default)
                 end in
  let? catalog := catalog_load (d_catalog d) in
  let migrating := m_format_version m <? FORMAT_VERSION in
  let? (d, rp) := replay_segments migrating (m_segments m) d
                    (mkReplay [] 0 (m_last_commit_ts m) 0) in
  let records := ensure_collections (bt_keys (cat_schemas catalog)) (rp_records rp) in
  let active := manifest_active m in
  let d := set_segments (<[active := segment_file d active]> (d_segments d)) d in
  let s := mkStorage d m catalog records (rp_max_txn_id rp) (rp_last_commit_ts rp) in
  Ok (if migrating then rewrite_segment s else s).

(** ** Writes *)

Definition set_st_dir (d : Dir) (s : Storage) : Storage :=
  mkStorage d (st_manifest s) (st_catalog s) (st_records s) (st_max_txn_id s)
    (st_last_commit_ts s).
Definition set_st_catalog (c : Catalog) (s : Storage) : Storage :=
  mkStorage (st_dir s) (st_manifest s) c (st_records s) (st_max_txn_id s)
    (st_last_commit_ts s).
Definition set_st_records (r : list (string * list (N * list Version))) (s : Storage) : Storage :=
  mkStorage (st_dir s) (st_manifest s) (st_catalog s) r (st_max_txn_id s)
    (st_last_commit_ts s).

(** [active_file.write_all(..)]: an append to the active segment. *)
Definition append_active (bytes : list byte) (s : Storage) : Storage :=
  let active := manifest_active (st_manifest s) in
  set_st_dir (set_segments
    (<[active := segment_file (st_dir s) active ++ bytes]> (d_segments (st_dir s))) (st_dir s)) s.

(** The common tail of the two commit paths: stamp, append, apply. *)
Definition log_and_apply (batch : Batch) (commit_ts : N) (s : Storage) : Storage :=
  let batch := mkBatch (b_txn_id batch) (op_set_commit_ts commit_ts <$> b_ops batch) in
  let s := append_active (batch_encode batch) s in
  mkStorage (st_dir s) (st_manifest s) (st_catalog s) (apply_batch (st_records s) batch)
    (N.max (st_max_txn_id s) (b_txn_id batch)) commit_ts.

Definition commit_batch (batch : Batch) (s : Storage) : Storage * N :=
  match b_ops batch with
  | [] => (s, st_last_commit_ts s)
  | _ :: _ =>
      let commit_ts := st_last_commit_ts s + 1 in
      (log_and_apply batch commit_ts s, commit_ts)
  end.

Definition apply_committed_batch (batch : Batch) (commit_ts : N) (s : Storage) : Storage :=
  if commit_ts <=? st_last_commit_ts s then s
  else match b_ops batch with
       | [] => mkStorage (st_dir s) (st_manifest s) (st_catalog s) (st_records s)
                 (st_max_txn_id s) commit_ts
       | _ :: _ => log_and_apply batch commit_ts s
       end.

Definition put (record : Rec) (s : Storage) : Storage * N :=
  commit_batch (mkBatch txn_auto [OpPut 0 record]) s.

Definition delete_record (c : CollectionId) (id : RecordId) (s : Storage) : Storage * N :=
  commit_batch (mkBatch txn_auto [OpDelete 0 c id]) s.

(** ** Schemas *)

Definition put_schema (schema : CollectionSchema) : SE Storage Error unit := λ s,
  match validate_definition schema with
  | Err e => (s, Err e)
  | Ok _ =>
      let s := set_st_catalog (catalog_put schema (st_catalog s)) s in
      let s := set_st_dir (set_catalog_file (st_catalog s) (st_dir s)) s in
      (set_st_records (bt_alter (λ m, default [] m) (cs_name schema) (st_records s)) s, Ok tt)
  end.

Definition get_schema (s : Storage) (name : string) : option CollectionSchema :=
  bt_get name (cat_schemas (st_catalog s)).

Definition live_ids (s : Storage) (c : CollectionId) : list RecordId :=
  omap (λ '(id, chain), if live chain then Some id else None) (inner (st_records s) c).

Definition drop_schema (name : string) : SE Storage Error unit := λ s,
  match get_schema s name with
  | None => (s, Err ENotFound)
  | Some _ =>
      let ids := live_ids s name in
      let s := match ids with
               | [] => s
               | _ :: _ => (commit_batch (mkBatch txn_auto (OpDelete 0 name <$> ids)) s).1
               end in
      let s := set_st_records (bt_remove name (st_records s)) s in
      let s := set_st_catalog (catalog_remove name (st_catalog s)) s in
      (set_st_dir (set_catalog_file (st_catalog s) (st_dir s)) s, Ok tt)
  end.

(** ** Maintenance *)

Definition segment_bytes (s : Storage) : N :=
  foldl (λ acc seg, acc + N.of_nat (length (segment_file (st_dir s) seg))) 0
    (m_segments (st_manifest s)).

Definition gc (cutoff : N) (min_retained_versions : nat) (s : Storage) : Storage * GcReport :=
  let keep := Nat.max min_retained_versions 1 in
  let bytes_before := segment_bytes s in
  let '(records, (reclaimed, removed)) := gc_outer cutoff keep (st_records s) (0, 0)%nat in
  let s := rewrite_segment (set_st_records records s) in
  (s, mkGcReport reclaimed removed (rm_total_versions (st_records s))
        (bytes_before - segment_bytes s)).

Definition gc_preview (s : Storage) (cutoff : N) (min_retained_versions : nat) : GcReport :=
  let keep := Nat.max min_retained_versions 1 in
  let '(reclaimed, removed) := preview_counts cutoff keep (st_records s) in
  mkGcReport reclaimed removed (rm_total_versions (st_records s) - reclaimed) 0.

Definition compact_storage (s : Storage) : Storage * CompactionReport :=
  let before := length (m_segments (st_manifest s)) in
  let live := rm_total_records (st_records s) in
  (rewrite_segment s, mkCompactionReport before 1 live).

Definition flush (s : Storage) : Storage :=
  set_st_dir (set_manifest_file (st_manifest s) (st_dir s)) s.
End storage.
