(* ===== verification/StorageRecovery.v ===== *)
(** * Recovery of the storage engine

    What the log on disk says about the state in memory: the invariant of [Storage],
    its preservation by every operation, and the theorems that opening a directory,
    after a clean stop or after a crash in the middle of a commit or of a rewrite,
    gives the committed data back. *)

From S2P Require Import Prelude BTree Text Framing Value Core Mvcc Storage.

Local Open Scope N_scope.

(** ** Operations by the record they touch *)

Definition on_key (c : CollectionId) (id : RecordId) (op : LogOp) : Prop :=
  op_collection op = c ∧ op_id op = id.

#[export] Instance on_key_dec c id op : Decision (on_key c id op).
Proof. unfold on_key. apply _. Defined.

Definition insert_all (chain : list Version) (vs : list Version) : list Version :=
  foldl (λ ch v, insert_version v ch) chain vs.

(** A chain depends only on the operations on its record. *)
Lemma chain_of_apply_ops r ops c id :
  chain_of (apply_ops r ops) c id =
    match filter (on_key c id) ops with
    | [] => chain_of r c id
    | ks => Some (insert_all (default [] (chain_of r c id)) (op_version <$> ks))
    end.
Proof.
  unfold apply_ops. revert r. induction ops as [|op ops IH]; intros r; simpl; [done|].
  rewrite IH, chain_of_apply_op. unfold on_key in *. rewrite filter_cons.
  destruct (decide (op_collection op = c ∧ op_id op = id)) as [Hk|Hk]; [|done].
  by destruct (filter _ ops).
Qed.

Lemma insert_all_sorted pre vs : chain_wf (pre ++ vs) → insert_all pre vs = pre ++ vs.
Proof.
  unfold insert_all. revert pre. induction vs as [|v vs IH]; intros pre Hwf; simpl;
    [by rewrite app_nil_r|].
  rewrite insert_version_newest.
  - rewrite IH by by rewrite <- app_assoc. by rewrite <- app_assoc.
  - apply chain_wf_app in Hwf as (_ & _ & Hlt). apply Forall_forall. intros w Hw.
    apply Hlt; [done|by left].
Qed.

(** ** The snapshot of a map *)

Lemma version_op_key c id v :
  placed c id v → on_key c id (version_op c id v) ∧ op_version (version_op c id v) = v.
Proof.
  intros Hp. unfold version_op, on_key, op_version. destruct v as [ts [r|]]; simpl; [|done].
  destruct (Hp r eq_refl) as [<- <-]. done.
Qed.

Lemma filter_version_ops c id c' id' chain :
  Forall (placed c id) chain →
  filter (on_key c' id') (version_op c id <$> chain) =
    if decide (c = c' ∧ id = id') then version_op c id <$> chain else [].
Proof.
  induction 1 as [|v chain Hv _ IH]; csimpl; [by case_decide|].
  destruct (version_op_key c id v Hv) as [[H1 H2] _]. rewrite filter_cons, IH.
  destruct (decide (on_key c' id' (version_op c id v))) as [Hk|Hk];
    unfold on_key in Hk; rewrite H1, H2 in Hk;
    [rewrite !(decide_True (P := c = c' ∧ id = id')) by done
    |rewrite !(decide_False (P := c = c' ∧ id = id')) by done]; done.
Qed.

Lemma filter_mjoin {A} (P : A → Prop) `{∀ x, Decision (P x)} (ls : list (list A)) :
  filter P (mjoin ls) = mjoin (filter P <$> ls).
Proof. induction ls as [|l ls IH]; csimpl; [done|]. by rewrite filter_app, IH. Qed.

(** Exactly one entry of a map contributes. *)
Lemma mjoin_one {K V A} `{OrdKey K} (f : K * V → list A) (m : list (K * V)) k :
  bt_wf m → (∀ j v, (j, v) ∈ m → j ≠ k → f (j, v) = []) →
  mjoin (f <$> m) = match bt_get k m with Some v => f (k, v) | None => [] end.
Proof.
  induction m as [|[j v] m IH]; [done|]. rewrite bt_wf_cons. intros [Hj Hm] Hf. csimpl.
  destruct (kcompare k j) eqn:E.
  - apply kcompare_eq in E as ->. rewrite IH, bt_get_None_below, app_nil_r; [done|done|done|].
    intros j' v' Hin. apply Hf. by right.
  - rewrite (Hf j v); [|by left|intros ->; by rewrite kcompare_refl in E].
    apply IH; [done|]. intros j' v' Hin. apply Hf. by right.
  - rewrite (Hf j v); [|by left|intros ->; by rewrite kcompare_refl in E].
    apply IH; [done|]. intros j' v' Hin. apply Hf. by right.
Qed.

Definition inner_ops (c : CollectionId) (chains : list (N * list Version)) : list LogOp :=
  mjoin ((λ '(id, chain), version_op c id <$> chain) <$> chains).

Lemma filter_inner_ops c m c' id :
  inner_wf c m →
  filter (on_key c' id) (inner_ops c m) =
    if decide (c = c')
    then match bt_get id m with Some chain => version_op c id <$> chain | None => [] end
    else [].
Proof.
  intros [Hm Hc]. unfold inner_ops. rewrite filter_mjoin, <- list_fmap_compose.
  assert (Hf : ∀ j chain, (j, chain) ∈ m →
    filter (on_key c' id) (version_op c j <$> chain) =
      if decide (c = c' ∧ j = id) then version_op c j <$> chain else []).
  { intros j chain Hin. apply bt_elem_of_get in Hin; [|done].
    apply filter_version_ops. by destruct (Hc _ _ Hin) as (_ & _ & ?). }
  rewrite (mjoin_one _ m id Hm).
  - simpl. destruct (bt_get id m) as [chain|] eqn:E; [|by case_decide].
    rewrite Hf by by apply bt_elem_of_get. repeat case_decide; naive_solver.
  - intros j chain Hin Hne. simpl. rewrite Hf by done. rewrite decide_False; naive_solver.
Qed.

Lemma snapshot_ops_inner r : snapshot_ops r = mjoin ((λ '(c, m), inner_ops c m) <$> r).
Proof. done. Qed.

Lemma filter_snapshot_ops r c id :
  rm_wf r →
  filter (on_key c id) (snapshot_ops r) =
    match chain_of r c id with Some chain => version_op c id <$> chain | None => [] end.
Proof.
  intros [Hb Hi]. rewrite snapshot_ops_inner, filter_mjoin, <- list_fmap_compose.
  rewrite (mjoin_one _ r c Hb).
  - unfold chain_of. simpl. destruct (bt_get c r) as [m|] eqn:E; [|done]. simpl.
    rewrite filter_inner_ops by by apply Hi. by rewrite decide_True.
  - intros c' m Hin Hne. apply bt_elem_of_get in Hin; [|done]. simpl.
    rewrite filter_inner_ops by by apply Hi. by rewrite decide_False.
Qed.

(** Replaying the snapshot of a map gives the map back. *)
Lemma apply_snapshot_ops r : rm_wf r → rm_equiv (apply_ops [] (snapshot_ops r)) r.
Proof.
  intros Hr c id. rewrite chain_of_apply_ops, filter_snapshot_ops by done.
  change (chain_of [] c id) with (@None (list Version)).
  destruct (chain_of r c id) as [chain|] eqn:E; [|done].
  destruct (chain_of_wf r c id chain Hr E) as (Hwf & Hne & Hp).
  assert (Hid : op_version <$> (version_op c id <$> chain) = chain).
  { rewrite <- list_fmap_compose. rewrite <- (list_fmap_id chain) at 2. apply list_fmap_ext.
    intros i w Hw. simpl. apply version_op_key. by eapply Forall_lookup_1 in Hp. }
  destruct (version_op c id <$> chain) as [|k ks] eqn:Ek.
  { by rewrite <- Hid in Hne. }
  rewrite Hid. f_equal. by apply (insert_all_sorted []).
Qed.

Lemma snapshot_ops_below r ts :
  rm_wf r → rm_below ts r → Forall (λ op, op_commit_ts op <= ts) (snapshot_ops r).
Proof.
  intros Hr Hb. apply Forall_forall. intros op Hop.
  assert (Hin : op ∈ filter (on_key (op_collection op) (op_id op)) (snapshot_ops r))
    by by apply list_elem_of_filter.
  rewrite filter_snapshot_ops in Hin by done.
  destruct (chain_of r (op_collection op) (op_id op)) as [chain|] eqn:E; [|set_solver].
  apply list_elem_of_fmap in Hin as (v & -> & Hv). specialize (Hb _ _ _ E).
  rewrite Forall_forall in Hb. specialize (Hb v Hv). unfold version_op.
  by destruct (v_value v).
Qed.

(** ** Reading segments *)

Section segments.
Context `{FT : FloatText, StorageCodec, !StorageCodecLaws}.

Definition encode_batches (bs : list Batch) : list byte := frames (enc_batch <$> bs).

Lemma encode_batches_app bs cs :
  encode_batches (bs ++ cs) = encode_batches bs ++ encode_batches cs.
Proof. unfold encode_batches. by rewrite fmap_app, frames_app. Qed.

Lemma encode_batches_one b : encode_batches [b] = batch_encode b.
Proof. apply app_nil_r. Qed.

(** Batches that a segment file can hold and give back. *)
Definition storable (bs : list Batch) : Prop :=
  addressable (encode_batches bs) ∧ Forall (λ b, batch_safe b = true) bs.

Lemma storable_app_l bs cs : storable (bs ++ cs) → storable bs.
Proof.
  unfold storable, addressable. rewrite encode_batches_app, length_app, Forall_app. intros [Ha [? ?]].
  split; [lia|done].
Qed.

Lemma parse_loop_frames bs fuel pre tail acc :
  addressable (pre ++ encode_batches bs) → Forall (λ b, batch_safe b = true) bs →
  parse_loop (length bs + fuel) (pre ++ encode_batches bs ++ tail) (length pre) acc =
  parse_loop fuel (pre ++ encode_batches bs ++ tail) (length (pre ++ encode_batches bs))
    (acc ++ bs).
Proof.
  revert pre acc. induction bs as [|b bs IH]; intros pre acc Ha Hs.
  { by rewrite !app_nil_r. }
  apply Forall_cons in Hs as [Hb Hs].
  assert (Hc : encode_batches (b :: bs) = frame (enc_batch b) ++ encode_batches bs) by done.
  rewrite Hc in Ha |- *. rewrite <- !app_assoc.
  assert (Ha1 : addressable (pre ++ frame (enc_batch b))).
  { unfold addressable in *. rewrite !length_app in *. lia. }
  pose proof (IH (pre ++ frame (enc_batch b)) (acc ++ [b])) as IH'.
  rewrite <- !app_assoc in IH'. change ([b] ++ bs) with (b :: bs) in IH'.
  rewrite <- IH' by done. cbn [length Nat.add parse_loop].
  assert ((length pre =? length (pre ++ frame (enc_batch b) ++ encode_batches bs ++ tail))%nat
          = false) as ->.
  { apply Nat.eqb_neq. rewrite !length_app, length_frame. lia. }
  rewrite (read_frame_ok dec_batch _ _ _ b) by (done || by apply dec_enc_batch). done.
Qed.

Lemma length_encode_batches bs : (length bs ≤ length (encode_batches bs))%nat.
Proof.
  unfold encode_batches. rewrite <- (length_fmap enc_batch bs) at 1. apply length_frames.
Qed.

Lemma parse_segment_frames bs tail :
  storable bs →
  ∃ fuel, (length tail < fuel)%nat ∧
    parse_segment (encode_batches bs ++ tail) =
    parse_loop fuel (encode_batches bs ++ tail) (length (encode_batches bs)) bs.
Proof.
  intros [Ha Hs]. pose proof (length_encode_batches bs) as Hl.
  exists (S (length (encode_batches bs ++ tail)) - length bs)%nat.
  split; [rewrite length_app; lia|]. unfold parse_segment.
  pose proof (parse_loop_frames bs (S (length (encode_batches bs ++ tail)) - length bs) [] tail []
    Ha Hs) as Hp. simpl in Hp. rewrite <- Hp. f_equal. rewrite length_app. lia.
Qed.

Lemma parse_segment_valid bs :
  storable bs →
  parse_segment (encode_batches bs) = Ok (mkParsed bs (length (encode_batches bs)) false).
Proof.
  intros Ha. destruct (parse_segment_frames bs [] Ha) as (fuel & Hf & Hp).
  rewrite !app_nil_r in Hp. rewrite Hp. destruct fuel as [|fuel]; [simpl in Hf; lia|].
  cbn [parse_loop]. by rewrite Nat.eqb_refl.
Qed.

Lemma parse_segment_torn bs b k :
  storable (bs ++ [b]) → (0 < k < length (batch_encode b))%nat →
  parse_segment (encode_batches bs ++ take k (batch_encode b)) =
    Ok (mkParsed bs (length (encode_batches bs)) true).
Proof.
  intros Hst Hk. pose proof (storable_app_l _ _ Hst) as Ha'.
  destruct Hst as [Ha _]. rewrite encode_batches_app, encode_batches_one in Ha.
  destruct (parse_segment_frames bs (take k (batch_encode b)) Ha') as (fuel & Hf & ->).
  destruct fuel as [|fuel]; [lia|]. cbn [parse_loop].
  assert ((length (encode_batches bs) =?
           length (encode_batches bs ++ take k (batch_encode b)))%nat = false) as ->.
  { apply Nat.eqb_neq. rewrite length_app, length_take. lia. }
  unfold batch_encode in *. rewrite read_frame_torn; [done|done|lia].
Qed.

(** A batch that is present but damaged. *)
Lemma parse_segment_damaged bs crc payload post :
  crc < 2 ^ 32 → crc32 payload ≠ crc → Forall (λ b, batch_safe b = true) bs →
  let buf := encode_batches bs ++ be_bytes 8 (N.of_nat (length payload)) ++ be_bytes 4 crc
               ++ payload ++ post in
  addressable buf → parse_segment buf = Err ECorruption.
Proof.
  intros Hcrc Hne Hs buf Ha. subst buf.
  assert (Ha' : storable bs).
  { split; [|done]. unfold addressable in *. rewrite length_app in Ha. lia. }
  destruct (parse_segment_frames bs (be_bytes 8 (N.of_nat (length payload)) ++ be_bytes 4 crc
    ++ payload ++ post) Ha') as (fuel & Hf & ->).
  destruct fuel as [|fuel]; [lia|]. cbn [parse_loop].
  rewrite read_frame_damaged by done. case_if; [|done]. bool_to_prop.
  rewrite !length_app, !length_be_bytes in *. lia.
Qed.

(** ** Replay *)

Definition replay_all (rp : Replay) (bs : list Batch) : Replay :=
  foldl (replay_batch false) rp bs.

Lemma replay_all_app rp bs cs : replay_all rp (bs ++ cs) = replay_all (replay_all rp bs) cs.
Proof. apply foldl_app. Qed.

Lemma rp_records_all rp bs :
  rp_records (replay_all rp bs) = apply_ops (rp_records rp) (mjoin (b_ops <$> bs)).
Proof.
  unfold replay_all. revert rp. induction bs as [|b bs IH]; intros rp; csimpl; [done|].
  rewrite IH. simpl. unfold apply_ops. by rewrite foldl_app.
Qed.

Lemma max_op_ts_app ops ops' ts :
  max_op_ts (ops ++ ops') ts = max_op_ts ops' (max_op_ts ops ts).
Proof. apply foldl_app. Qed.

Lemma rp_ts_all rp bs :
  rp_last_commit_ts (replay_all rp bs) =
    max_op_ts (mjoin (b_ops <$> bs)) (rp_last_commit_ts rp).
Proof.
  unfold replay_all. revert rp. induction bs as [|b bs IH]; intros rp; csimpl; [done|].
  rewrite IH. simpl. by rewrite max_op_ts_app.
Qed.

Lemma rp_txn_all rp bs :
  rp_max_txn_id (replay_all rp bs) =
    foldl (λ acc b, N.max acc (b_txn_id b)) (rp_max_txn_id rp) bs.
Proof.
  unfold replay_all. revert rp. induction bs as [|b bs IH]; intros rp; simpl; [done|].
  by rewrite IH.
Qed.

Lemma max_op_ts_spec ops ts :
  ts <= max_op_ts ops ts ∧ Forall (λ op, op_commit_ts op <= max_op_ts ops ts) ops.
Proof.
  unfold max_op_ts. revert ts. induction ops as [|op ops IH]; intros ts; simpl; [done|].
  destruct (IH (N.max ts (op_commit_ts op))) as [H1 H2]. split; [lia|].
  constructor; [lia|done].
Qed.

Lemma max_op_ts_bound ops ts bound :
  ts <= bound → Forall (λ op, op_commit_ts op <= bound) ops → max_op_ts ops ts <= bound.
Proof.
  unfold max_op_ts. intros Hts Hops. revert ts Hts.
  induction Hops as [|op ops Hop _ IH]; intros ts Hts; simpl; [done|]. apply IH. lia.
Qed.

(** The segments of a manifest hold these batches. *)
Definition segments_hold (d : Dir) (segs : list N) (bss : list (list Batch)) : Prop :=
  Forall2 (λ seg bs, segment_file d seg = encode_batches bs ∧ storable bs) segs bss.

Lemma replay_segments_valid mig segs bss d rp :
  segments_hold d segs bss →
  replay_segments mig segs d rp = Ok (d, foldl (replay_batch mig) rp (mjoin bss)).
Proof.
  intros Hh. revert rp. induction Hh as [|seg bs segs bss [Hf Ha] _ IH]; intros rp;
    cbn [replay_segments]; [done|].
  rewrite Hf, parse_segment_valid by done. simpl. rewrite IH.
  by rewrite <- foldl_app.
Qed.

(** The last segment has a torn tail: it is cut off and the rest is replayed. *)
Lemma replay_segments_torn segs seg bss bs b k d rp :
  segments_hold d segs bss → 
  segment_file d seg = encode_batches bs ++ take k (batch_encode b) →
  storable (bs ++ [b]) → (0 < k < length (batch_encode b))%nat →
  replay_segments false (segs ++ [seg]) d rp =
    Ok (set_segments (<[seg := encode_batches bs]> (d_segments d)) d,
        replay_all rp (mjoin bss ++ bs)).
Proof.
  intros Hh Hf Ha Hk. revert rp. induction Hh as [|seg' bs' segs bss [Hf' Ha'] _ IH]; intros rp.
  - cbn [replay_segments app]. rewrite Hf, parse_segment_torn by done. simpl.
    by rewrite take_app_length.
  - cbn [replay_segments app]. rewrite Hf', parse_segment_valid by done. simpl.
    rewrite IH. by rewrite <- replay_all_app, app_assoc.
Qed.
End segments.

(** ** Log and memory *)

(** The log may remember more of a chain than memory does, when its collection was
    dropped: what is forgotten ends in a tombstone. *)
Definition chain_rel (l m : option (list Version)) : Prop :=
  ∃ pre, default [] l = pre ++ default [] m ∧ ∀ v, last pre = Some v → v_value v = None.

Definition log_rel (log mem : list (string * list (N * list Version))) : Prop :=
  ∀ c id, chain_rel (chain_of log c id) (chain_of mem c id).

Lemma log_rel_equiv log mem : rm_equiv log mem → log_rel log mem.
Proof. intros Heq c id. rewrite Heq. by exists []. Qed.

Lemma latest_default (o : option (list Version)) : o ≫= latest = latest (default [] o).
Proof. by destruct o. Qed.

Lemma log_rel_get log mem c id : log_rel log mem → rm_get log c id = rm_get mem c id.
Proof.
  intros Hr. destruct (Hr c id) as (pre & Heq & Hpre). unfold rm_get.
  rewrite !latest_default, Heq. unfold latest. rewrite last_app.
  destruct (last (default [] (chain_of mem c id))); [done|]. simpl.
  destruct (last pre) as [v|]; [|done]. simpl. by apply Hpre.
Qed.

Lemma log_rel_apply log mem ops ts t :
  log_rel log mem → rm_below ts log → rm_below ts mem →
  ts < t → Forall (λ op, op_commit_ts op = t) ops →
  log_rel (apply_ops log ops) (apply_ops mem ops).
Proof.
  intros Hr Hl Hm Ht Hops c id.
  assert (Hlt : ∀ r, rm_below ts r → ∀ chain, chain_of r c id = Some chain →
    Forall (λ v, v_commit_ts v < t) chain).
  { intros r Hb chain Hc. eapply Forall_impl; [by eapply Hb|]. intros v. simpl. lia. }
  rewrite !(chain_of_apply_stamped _ ops t) by eauto.
  destruct (Hr c id) as (pre & Heq & Hpre). destruct (last_op_on c id ops) as [op|]; [|by exists pre].
  exists pre. simpl. by rewrite Heq, app_assoc.
Qed.

(** ** The invariant *)

Section invariant.
Context `{FT : FloatText, StorageCodec, !StorageCodecLaws}.
Implicit Types s : Storage.

Definition log_ops (bss : list (list Batch)) : list LogOp := mjoin (b_ops <$> mjoin bss).

(** The batches [bss] of the segments account for the state in memory. *)
Record logged (s : Storage) (bss : list (list Batch)) : Prop := {
  lg_hold : segments_hold (st_dir s) (m_segments (st_manifest s)) bss;
  lg_rel : log_rel (apply_ops [] (log_ops bss)) (st_records s);
  lg_ts : Forall (λ op, op_commit_ts op <= st_last_commit_ts s) (log_ops bss);
  lg_txn : Forall (λ b, b_txn_id b <= st_max_txn_id s) (mjoin bss);
}.

Record storage_wf (s : Storage) : Prop := {
  sw_manifest : d_manifest (st_dir s) = Some (enc_manifest (st_manifest s));
  sw_version : m_format_version (st_manifest s) = FORMAT_VERSION;
  sw_segments : m_segments (st_manifest s) ≠ [];
  sw_nodup : NoDup (m_segments (st_manifest s));
  sw_next : Forall (λ seg, seg < m_next_segment_id (st_manifest s))
              (m_segments (st_manifest s));
  sw_catalog : catalog_load (d_catalog (st_dir s)) = Ok (st_catalog s);
  sw_records : rm_wf (st_records s);
  sw_below : rm_below (st_last_commit_ts s) (st_records s);
  sw_watermark : m_last_commit_ts (st_manifest s) <= st_last_commit_ts s;
}.

Definition storage_inv (s : Storage) : Prop := storage_wf s ∧ ∃ bss, logged s bss.

Lemma rm_wf_nil : rm_wf [].
Proof. by repeat constructor. Qed.

Lemma rm_below_nil ts : rm_below ts [].
Proof. done. Qed.

Lemma logged_below s bss : logged s bss → rm_below (st_last_commit_ts s) (apply_ops [] (log_ops bss)).
Proof.
  intros Hl. eapply rm_below_apply_ops; [apply (rm_below_nil 0)|lia|apply Hl].
Qed.

(** *** Writing to the active segment *)

Lemma manifest_active_last m segs seg : m_segments m = segs ++ [seg] → manifest_active m = seg.
Proof. intros E. unfold manifest_active. rewrite E. apply List.last_last. Qed.

Lemma segments_split m : m_segments m ≠ [] → ∃ segs, m_segments m = segs ++ [manifest_active m].
Proof.
  intros Hne. destruct (m_segments m) as [|seg segs _] eqn:E using rev_ind; [done|].
  exists segs. by rewrite (manifest_active_last m segs seg).
Qed.

Lemma segment_file_set d id bytes seg :
  segment_file (set_segments (<[id := bytes]> (d_segments d)) d) seg =
    if decide (seg = id) then bytes else segment_file d seg.
Proof.
  unfold segment_file. simpl. case_decide as E.
  - subst. by rewrite lookup_insert_eq.
  - by rewrite lookup_insert_ne.
Qed.

Lemma segments_hold_ext d d' segs bss :
  (∀ seg, seg ∈ segs → segment_file d' seg = segment_file d seg) →
  segments_hold d segs bss → segments_hold d' segs bss.
Proof.
  intros Heq Hh. unfold segments_hold in *.
  induction Hh as [|seg bs segs bss [Hf Ha] Hh IH]; constructor.
  - rewrite Heq by by left. done.
  - apply IH. intros seg' Hin. apply Heq. by right.
Qed.

Lemma segments_hold_snoc d segs seg bss bs :
  segments_hold d (segs ++ [seg]) (bss ++ [bs]) ↔
  segments_hold d segs bss ∧ segment_file d seg = encode_batches bs ∧ storable bs.
Proof.
  unfold segments_hold. split.
  - intros Hh. assert (length segs = length bss) as Hlen.
    { apply Forall2_length in Hh. rewrite !length_app in Hh. simpl in Hh. lia. }
    destruct (Forall2_app_inv _ _ _ _ _ Hlen Hh) as [H1 H2].
    split; [done|]. by apply Forall2_cons in H2 as [? _].
  - intros (H1 & H2). apply Forall2_app; [done|]. apply Forall2_cons. split; [done|constructor].
Qed.

(** Appending a frame to the last segment. *)
Lemma segments_hold_append d segs seg bss bs b :
  NoDup (segs ++ [seg]) → segments_hold d (segs ++ [seg]) (bss ++ [bs]) →
  storable (bs ++ [b]) →
  segments_hold (set_segments (<[seg := segment_file d seg ++ batch_encode b]> (d_segments d)) d)
    (segs ++ [seg]) (bss ++ [bs ++ [b]]).
Proof.
  intros Hnd (Hh1 & Hf & _)%segments_hold_snoc Ha. apply segments_hold_snoc. split_and!.
  - eapply (segments_hold_ext d); [|exact Hh1]. intros seg' Hin.
    rewrite segment_file_set, decide_False; [done|]. intros ->.
    apply NoDup_app in Hnd as (_ & Hd & _). apply (Hd seg Hin). by left.
  - rewrite segment_file_set, decide_True by done.
    by rewrite Hf, encode_batches_app, encode_batches_one.
  - done.
Qed.

Lemma log_ops_snoc bss bs b :
  log_ops (bss ++ [bs ++ [b]]) = log_ops (bss ++ [bs]) ++ b_ops b.
Proof.
  unfold log_ops. rewrite !join_app. simpl. rewrite !app_nil_r, app_assoc, fmap_app, join_app.
  simpl. by rewrite app_nil_r.
Qed.

Lemma segments_hold_split d segs seg bss :
  segments_hold d (segs ++ [seg]) bss → ∃ bss' bs, bss = bss' ++ [bs].
Proof.
  intros Hh. destruct bss as [|bs bss' _] using rev_ind; [|eauto].
  apply Forall2_length in Hh. rewrite length_app in Hh. simpl in Hh. lia.
Qed.

(** The batch that is written for the operations of a commit. *)
Definition stamped (batch : Batch) (ts : N) : Batch :=
  mkBatch (b_txn_id batch) (op_set_commit_ts ts <$> b_ops batch).

(** What is on disk after the commit can still be held in memory, and JSON keeps the
    values of the batch. *)
Definition commit_fits (batch : Batch) (ts : N) (s : Storage) : Prop :=
  addressable (segment_file (st_dir s) (manifest_active (st_manifest s))
               ++ batch_encode (stamped batch ts)) ∧
  batch_safe batch = true.

Lemma stamped_safe batch ts : batch_safe (stamped batch ts) = batch_safe batch.
Proof.
  unfold batch_safe, stamped. simpl. induction (b_ops batch) as [|op ops IH]; [done|].
  csimpl. rewrite IH. by destruct op.
Qed.

Lemma commit_fits_storable batch ts s bs :
  segment_file (st_dir s) (manifest_active (st_manifest s)) = encode_batches bs →
  storable bs → commit_fits batch ts s → storable (bs ++ [stamped batch ts]).
Proof.
  intros Hf [_ Hs] [Ha Hb]. split.
  - by rewrite encode_batches_app, encode_batches_one, <- Hf.
  - apply Forall_app. split; [done|]. constructor; [by rewrite stamped_safe|constructor].
Qed.

Lemma stamped_ts batch ts : Forall (λ op, op_commit_ts op = ts) (b_ops (stamped batch ts)).
Proof. apply Forall_fmap, Forall_true. by intros []. Qed.

Lemma logged_split s bss : storage_wf s → logged s bss → ∃ bss' bs, bss = bss' ++ [bs].
Proof.
  intros Hwf Hl. destruct (segments_split _ (sw_segments _ Hwf)) as [segs Hsegs].
  pose proof (lg_hold _ _ Hl) as Hh. rewrite Hsegs in Hh. by eapply segments_hold_split.
Qed.

(** A commit adds its stamped batch to the log. *)
Lemma log_and_apply_logged batch ts s bss bs :
  storage_wf s → logged s (bss ++ [bs]) → st_last_commit_ts s < ts → commit_fits batch ts s →
  storage_wf (log_and_apply batch ts s) ∧
  logged (log_and_apply batch ts s) (bss ++ [bs ++ [stamped batch ts]]).
Proof.
  intros Hwf Hl Hts Hfit. destruct (segments_split _ (sw_segments _ Hwf)) as [segs Hsegs].
  pose proof (lg_hold _ _ Hl) as Hh. rewrite Hsegs in Hh.
  set (b := stamped batch ts). pose proof (stamped_ts batch ts) as Hst. fold b in Hst.
  apply segments_hold_snoc in Hh as Hh'. destruct Hh' as (_ & Hbs & Hsb).
  split.
  - destruct Hwf. split; simpl; try done.
    + by apply rm_wf_apply_ops.
    + eapply rm_below_apply_ops; [done|lia|]. eapply Forall_impl; [exact Hst|]. intros op ->. lia.
    + lia.
  - split; simpl.
    + rewrite Hsegs. apply segments_hold_append; [by rewrite <- Hsegs; apply Hwf|done|].
      by eapply commit_fits_storable.
    + rewrite log_ops_snoc. unfold apply_ops at 1. rewrite foldl_app.
      eapply log_rel_apply; [apply Hl|by eapply logged_below|apply Hwf|done|done].
    + rewrite log_ops_snoc. apply Forall_app. split.
      * eapply Forall_impl; [apply Hl|]. simpl. lia.
      * eapply Forall_impl; [exact Hst|]. intros op ->. lia.
    + pose proof (lg_txn _ _ Hl) as Htxn. rewrite join_app in *. simpl in *.
      rewrite app_nil_r in *. rewrite app_assoc. apply Forall_app. split.
      * eapply Forall_impl; [exact Htxn|]. simpl. lia.
      * constructor; [simpl; lia|constructor].
Qed.

Lemma log_and_apply_inv batch ts s :
  storage_inv s → st_last_commit_ts s < ts → commit_fits batch ts s →
  storage_inv (log_and_apply batch ts s).
Proof.
  intros [Hwf [bss Hl]] Hts Hfit. destruct (logged_split _ _ Hwf Hl) as (bss' & bs & ->).
  destruct (log_and_apply_logged batch ts s bss' bs Hwf Hl Hts Hfit). split; eauto.
Qed.
End invariant.

(** ** Every operation keeps the invariant *)

Lemma last_op_on_deletes c ids id :
  last_op_on c id (OpDelete 0 c <$> ids) =
    if decide (id ∈ ids) then Some (OpDelete 0 c id) else None.
Proof.
  unfold last_op_on. induction ids as [|i ids IH].
  - rewrite decide_False; [done|set_solver].
  - rewrite fmap_cons. cbn [find_last]. rewrite IH. clear IH.
    destruct (decide (id ∈ ids)) as [Hin|Hin].
    + by rewrite decide_True by set_solver.
    + case_bool_decide as Hk; simpl in Hk.
      * destruct Hk as [_ ->]. by rewrite decide_True by set_solver.
      * rewrite decide_False by set_solver. done.
Qed.

Section operations.
Context `{FT : FloatText, StorageCodec, !StorageCodecLaws}.
Implicit Types s : Storage.

Lemma commit_batch_inv batch s :
  storage_inv s → commit_fits batch (st_last_commit_ts s + 1) s →
  storage_inv (commit_batch batch s).1.
Proof.
  intros Hinv Hfit. unfold commit_batch. destruct (b_ops batch); [done|].
  apply log_and_apply_inv; [done|lia|done].
Qed.

Lemma apply_committed_batch_inv batch ts s :
  storage_inv s → commit_fits batch ts s → storage_inv (apply_committed_batch batch ts s).
Proof.
  intros Hinv Hfit. unfold apply_committed_batch. case_if; bool_to_prop; [done|].
  destruct (b_ops batch) eqn:E; [|by apply log_and_apply_inv].
  destruct Hinv as [Hwf [bss Hl]]. split.
  - destruct Hwf. split; simpl; try done; [|lia]. intros c id chain Hc.
    eapply Forall_impl; [by eapply sw_below0|]. simpl. lia.
  - exists bss. destruct Hl. split; simpl; try done.
    eapply Forall_impl; [done|]. simpl. lia.
Qed.

Lemma delete_old_segments segs new_id (m : gmap N (list byte)) :
  foldl (λ m seg, if negb (seg =? new_id) then delete seg m else m) m segs !! new_id
  = m !! new_id.
Proof.
  revert m. induction segs as [|seg segs IH]; intros m; simpl; [done|].
  rewrite IH. case_if; [|done]. bool_to_prop. by rewrite lookup_delete_ne.
Qed.

(** The segment that a rewrite produces fits in memory, and JSON keeps its values. *)
Definition rewrite_fits (s : Storage) : Prop :=
  storable [mkBatch (st_max_txn_id s) (snapshot_ops (st_records s))].

Definition rewrite_batches (s : Storage) : list Batch :=
  match snapshot_ops (st_records s) with
  | [] => []
  | ops => [mkBatch (st_max_txn_id s) ops]
  end.

Lemma rewrite_batches_ops s : log_ops [rewrite_batches s] = snapshot_ops (st_records s).
Proof.
  unfold log_ops, rewrite_batches. simpl. rewrite app_nil_r.
  destruct (snapshot_ops (st_records s)); simpl; [done|]. by rewrite app_nil_r.
Qed.

Lemma rewrite_content s :
  match snapshot_ops (st_records s) with
  | [] => []
  | _ :: _ => batch_encode (mkBatch (st_max_txn_id s) (snapshot_ops (st_records s)))
  end = encode_batches (rewrite_batches s).
Proof.
  unfold rewrite_batches. destruct (snapshot_ops (st_records s)); [done|].
  by rewrite encode_batches_one.
Qed.

(** Rewriting needs nothing of the old segments. *)
Lemma rewrite_segment_any s :
  catalog_load (d_catalog (st_dir s)) = Ok (st_catalog s) → rm_wf (st_records s) →
  rm_below (st_last_commit_ts s) (st_records s) → rewrite_fits s →
  storage_inv (rewrite_segment s).
Proof.
  intros Hcat Hwf Hbelow Hfit. split.
  - split; simpl; try done; [apply NoDup_singleton|constructor; [lia|done]].
  - exists [rewrite_batches s]. split.
    + unfold segments_hold. simpl. apply Forall2_cons. split; [|constructor]. split.
      * unfold segment_file. simpl. rewrite delete_old_segments, lookup_insert_eq.
        apply rewrite_content.
      * unfold rewrite_batches, rewrite_fits in *.
        destruct (snapshot_ops (st_records s)) eqn:E; [by split|done].
    + rewrite rewrite_batches_ops. simpl. by apply log_rel_equiv, apply_snapshot_ops.
    + rewrite rewrite_batches_ops. simpl. by apply snapshot_ops_below.
    + unfold rewrite_batches. simpl.
      destruct (snapshot_ops (st_records s)); simpl; repeat constructor; simpl; lia.
Qed.

Lemma rewrite_segment_inv s :
  storage_wf s → rewrite_fits s → storage_inv (rewrite_segment s).
Proof. intros Hwf Hfit. apply rewrite_segment_any; [apply Hwf..|done]. Qed.

Lemma gc_records cutoff n s :
  st_records (gc cutoff n s).1 = rm_gc cutoff (Nat.max n 1) (st_records s).
Proof. unfold gc. rewrite gc_outer_spec. by destruct (foldl _ _ _). Qed.

Lemma gc_state cutoff n s :
  (gc cutoff n s).1 =
    rewrite_segment (set_st_records (rm_gc cutoff (Nat.max n 1) (st_records s)) s).
Proof. unfold gc. rewrite gc_outer_spec. by destruct (foldl _ _ _). Qed.

Lemma gc_wf cutoff keep s :
  storage_wf s → storage_wf (set_st_records (rm_gc cutoff keep (st_records s)) s).
Proof.
  intros []. split; simpl; try done; [by apply rm_wf_gc|].
  intros c id chain. rewrite chain_of_gc by done.
  destruct (chain_of (st_records s) c id) as [ch|] eqn:E; simpl; [|done].
  unfold gc_chain. case_if; [done|]. intros [= <-]. by eapply Forall_drop, sw_below0.
Qed.

Lemma gc_inv cutoff n s :
  storage_inv s →
  rewrite_fits (set_st_records (rm_gc cutoff (Nat.max n 1) (st_records s)) s) →
  storage_inv (gc cutoff n s).1.
Proof.
  intros [Hwf _] Hfit. rewrite gc_state. apply rewrite_segment_inv; [by apply gc_wf|done].
Qed.

Lemma compact_inv s : storage_inv s → rewrite_fits s → storage_inv (compact_storage s).1.
Proof. intros [Hwf _] Hfit. by apply rewrite_segment_inv. Qed.

Lemma flush_inv s : storage_inv s → storage_inv (flush s).
Proof. intros [[] [bss []]]. split; [by split|]. by exists bss. Qed.

(** Adding an empty collection adds no chain. *)
Lemma chain_of_ensure c name (r : list (string * list (N * list Version))) id :
  chain_of (bt_alter (λ m, default [] m) name r) c id = chain_of r c id.
Proof.
  unfold chain_of. rewrite bt_get_alter. case_decide; [|done]. subst.
  by destruct (bt_get c r).
Qed.

Lemma rm_wf_ensure name (r : list (string * list (N * list Version))) :
  rm_wf r → rm_wf (bt_alter (λ m, default [] m) name r).
Proof.
  intros [Hb Hi]. split; [by apply bt_wf_alter|]. intros c m. rewrite bt_get_alter.
  case_decide; [|apply Hi]. subst. intros [= <-].
  destruct (bt_get c r) eqn:E; simpl; [by apply Hi|apply inner_wf_nil].
Qed.

Lemma ensure_collections_spec names (r : list (string * list (N * list Version))) :
  rm_wf r → rm_wf (ensure_collections names r) ∧ rm_equiv (ensure_collections names r) r.
Proof.
  unfold ensure_collections. revert r. induction names as [|name names IH]; intros r Hr; simpl;
    [done|]. destruct (IH _ (rm_wf_ensure name r Hr)) as [H1 H2]. split; [done|].
  rewrite H2. intros c id. apply chain_of_ensure.
Qed.

Lemma catalog_load_enc c : catalog_load (Some (enc_catalog c)) = Ok c.
Proof. unfold catalog_load. by rewrite dec_enc_catalog. Qed.

Lemma put_schema_inv schema s : storage_inv s → storage_inv (put_schema schema s).1.
Proof.
  intros [Hwf [bss Hl]]. unfold put_schema. destruct (validate_definition schema); [|by split; eauto].
  split.
  - destruct Hwf. split; simpl; try done.
    + apply catalog_load_enc.
    + by apply rm_wf_ensure.
    + intros c id chain. rewrite chain_of_ensure. apply sw_below0.
  - exists bss. destruct Hl. split; simpl; try done.
    intros c id. rewrite chain_of_ensure. apply lg_rel0.
Qed.

(** *** Dropping a collection *)

Lemma live_ids_elem s c id :
  storage_wf s → id ∈ live_ids s c ↔
  ∃ chain, chain_of (st_records s) c id = Some chain ∧ live chain = true.
Proof.
  intros Hwf. unfold live_ids. rewrite list_elem_of_omap.
  destruct (inner_wf_of (st_records s) c (sw_records _ Hwf)) as [Hm _].
  rewrite chain_of_inner. split.
  - intros ([id' chain] & Hin & Hl). destruct (live chain) eqn:E; [|done].
    injection Hl as ->. apply bt_elem_of_get in Hin; [|done]. eauto.
  - intros (chain & Hc & Hl). exists (id, chain).
    apply bt_elem_of_get in Hc; [|done]. by rewrite Hl.
Qed.

Lemma last_op_on_stamped c id ts ops :
  last_op_on c id (op_set_commit_ts ts <$> ops) = op_set_commit_ts ts <$> last_op_on c id ops.
Proof.
  unfold last_op_on. induction ops as [|op ops IH]; [done|]. rewrite fmap_cons.
  cbn [find_last]. rewrite IH. destruct (find_last _ ops); [done|].
  destruct op; simpl; by case_bool_decide.
Qed.

(** What a reader finds after a commit. *)
Lemma log_and_apply_get batch ts s c id :
  rm_below (st_last_commit_ts s) (st_records s) → st_last_commit_ts s < ts →
  rm_get (st_records (log_and_apply batch ts s)) c id =
    match last_op_on c id (b_ops batch) with
    | Some op => op_value op
    | None => rm_get (st_records s) c id
    end.
Proof.
  intros Hwf Hts. unfold rm_get. simpl. unfold apply_batch.
  rewrite (chain_of_apply_stamped _ _ ts); [| |apply stamped_ts].
  - simpl. rewrite last_op_on_stamped. destruct (last_op_on c id (b_ops batch)) as [op|]; [|done].
    simpl. unfold latest. rewrite last_snoc. by destruct op.
  - intros chain Hc. eapply Forall_impl; [by eapply Hwf|]. simpl. lia.
Qed.

(** Forgetting the chains of a collection that has no live record left. *)
Lemma forget_collection s name c' :
  storage_inv s → (∀ id, rm_get (st_records s) name id = None) →
  storage_inv (set_st_dir (set_catalog_file c' (st_dir s))
    (set_st_catalog c' (set_st_records (bt_remove name (st_records s)) s))).
Proof.
  intros [Hwf [bss Hl]] Hdead.
  assert (Hch : ∀ c id, chain_of (bt_remove name (st_records s)) c id =
    if decide (name = c) then None else chain_of (st_records s) c id).
  { intros c id. unfold chain_of. destruct (sw_records _ Hwf) as [Hb _]. case_decide as E.
    - subst. by rewrite bt_get_remove_eq.
    - by rewrite bt_get_remove_ne. }
  split.
  - destruct Hwf. split; simpl; try done.
    + apply catalog_load_enc.
    + destruct sw_records0 as [Hb Hi]. split; [by apply bt_wf_remove|]. intros c m.
      destruct (decide (name = c)) as [<-|Hne]; [by rewrite bt_get_remove_eq|].
      rewrite bt_get_remove_ne by done. apply Hi.
    + intros c id chain. rewrite Hch. case_decide; [done|]. apply sw_below0.
  - exists bss. pose proof (lg_rel _ _ Hl) as Hrel. destruct Hl. split; simpl; try done.
    intros c id. rewrite Hch. case_decide as E; [|apply lg_rel0]. subst c.
    exists (default [] (chain_of (apply_ops [] (log_ops bss)) name id)).
    split; [by rewrite app_nil_r|]. intros v Hv.
    pose proof (log_rel_get _ _ name id Hrel) as Hg. rewrite Hdead in Hg.
    unfold rm_get in Hg. rewrite latest_default in Hg. unfold latest in Hg.
    by rewrite Hv in Hg.
Qed.

Lemma drop_schema_inv name s :
  storage_inv s →
  commit_fits (mkBatch txn_auto (OpDelete 0 name <$> live_ids s name))
    (st_last_commit_ts s + 1) s →
  storage_inv (drop_schema name s).1.
Proof.
  intros Hinv Hfit. unfold drop_schema. destruct (get_schema s name); [|done].
  pose proof Hinv as [Hwf _].
  assert (Hdead : ∀ id, id ∉ live_ids s name → rm_get (st_records s) name id = None).
  { intros id Hid. unfold rm_get. destruct (chain_of (st_records s) name id) as [chain|] eqn:E;
      [|done]. simpl. destruct (live chain) eqn:El.
    - exfalso. apply Hid. apply live_ids_elem; eauto.
    - unfold live in El. destruct (latest chain) as [v|]; [|done]. simpl. by destruct (v_value v). }
  destruct (live_ids s name) as [|i ids] eqn:Eids.
  - apply (forget_collection s); [done|]. intros id. apply Hdead. set_solver.
  - rewrite <- Eids in *.
    apply (forget_collection
      (commit_batch (mkBatch txn_auto (OpDelete 0 name <$> live_ids s name)) s).1);
      [by apply commit_batch_inv|]. intros id.
    assert (Hc : commit_batch (mkBatch txn_auto (OpDelete 0 name <$> live_ids s name)) s =
      (log_and_apply (mkBatch txn_auto (OpDelete 0 name <$> live_ids s name))
         (st_last_commit_ts s + 1) s, st_last_commit_ts s + 1))
      by (unfold commit_batch; simpl; by rewrite Eids).
    rewrite Hc. cbn [fst]. rewrite log_and_apply_get by (by apply sw_below || lia). simpl. rewrite last_op_on_deletes.
    case_decide; [done|]. by apply Hdead.
Qed.
End operations.

(** ** Opening a directory *)

Section recovery.
Context `{FT : FloatText, StorageCodec, !StorageCodecLaws}.
Implicit Types s : Storage.

(** [s'] serves what [s] served: the same records, schemas and segments, and a
    watermark that is not ahead of what was committed. *)
Definition recovered (s s' : Storage) : Prop :=
  (∀ c id, rm_get (st_records s') c id = rm_get (st_records s) c id) ∧
  (∀ c, rm_scan (st_records s') c = rm_scan (st_records s) c) ∧
  st_catalog s' = st_catalog s ∧ st_manifest s' = st_manifest s ∧
  st_last_commit_ts s' <= st_last_commit_ts s ∧ st_max_txn_id s' <= st_max_txn_id s.

Lemma manifest_load_enc m :
  m_format_version m = FORMAT_VERSION → m_segments m ≠ [] → manifest_load (enc_manifest m) = Ok m.
Proof.
  intros Hv Hs. unfold manifest_load. rewrite dec_enc_manifest, Hv.
  by destruct (m_segments m).
Qed.

(** The state [open_with] builds from a replay. *)
Definition opened (m : Manifest) (catalog : Catalog) (d : Dir) (rp : Replay) : Storage :=
  mkStorage (set_segments (<[manifest_active m := segment_file d (manifest_active m)]>
               (d_segments d)) d) m catalog
    (ensure_collections (bt_keys (cat_schemas catalog)) (rp_records rp))
    (rp_max_txn_id rp) (rp_last_commit_ts rp).

Lemma open_with_replay m catalog d d' rp :
  d_manifest d = Some (enc_manifest m) → m_format_version m = FORMAT_VERSION →
  m_segments m ≠ [] → catalog_load (d_catalog d) = Ok catalog →
  replay_segments false (m_segments m) d (mkReplay [] 0 (m_last_commit_ts m) 0) = Ok (d', rp) →
  open_with d = Ok (opened m catalog d' rp).
Proof.
  intros Hm Hv Hs Hc Hr. unfold open_with. rewrite Hm, manifest_load_enc by done.
  cbn [res_bind]. rewrite Hc. cbn [res_bind]. rewrite Hv.
  change (FORMAT_VERSION <? FORMAT_VERSION) with false. rewrite Hr. done.
Qed.

Lemma max_txn_bound bs acc bound :
  acc <= bound → Forall (λ b, b_txn_id b <= bound) bs →
  foldl (λ acc b, N.max acc (b_txn_id b)) acc bs <= bound ∧
  acc <= foldl (λ acc b, N.max acc (b_txn_id b)) acc bs ∧
  Forall (λ b, b_txn_id b <= foldl (λ acc b, N.max acc (b_txn_id b)) acc bs) bs.
Proof.
  intros Ha Hf. revert acc Ha. induction Hf as [|b bs Hb _ IH]; intros acc Ha; simpl.
  - split_and!; [done|lia|done].
  - destruct (IH (N.max acc (b_txn_id b))) as (H1 & H2 & H3); [lia|].
    split_and!; [done|lia|]. constructor; [lia|done].
Qed.

(** The log of [s], found in a directory [d]. *)
Lemma opened_recovers s bss d :
  storage_wf s → logged s bss →
  d_manifest d = Some (enc_manifest (st_manifest s)) →
  catalog_load (d_catalog d) = Ok (st_catalog s) →
  segments_hold d (m_segments (st_manifest s)) bss →
  let s' := opened (st_manifest s) (st_catalog s) d
              (replay_all (mkReplay [] 0 (m_last_commit_ts (st_manifest s)) 0) (mjoin bss)) in
  storage_wf s' ∧ logged s' bss ∧ recovered s s' ∧
  st_last_commit_ts s' = max_op_ts (log_ops bss) (m_last_commit_ts (st_manifest s)).
Proof.
  intros Hwf Hl Hm Hc Hh. cbv zeta. set (rp := replay_all _ _).
  assert (Hrec : rp_records rp = apply_ops [] (log_ops bss)) by apply rp_records_all.
  assert (Hts : rp_last_commit_ts rp =
    max_op_ts (log_ops bss) (m_last_commit_ts (st_manifest s))) by apply rp_ts_all.
  assert (Htxn : rp_max_txn_id rp = foldl (λ acc b, N.max acc (b_txn_id b)) 0 (mjoin bss))
    by apply rp_txn_all.
  pose proof (max_op_ts_spec (log_ops bss) (m_last_commit_ts (st_manifest s))) as [Hge Hall].
  rewrite <- Hts in Hge, Hall.
  destruct (max_txn_bound (mjoin bss) 0 (st_max_txn_id s)) as (Ht1 & _ & Ht3);
    [lia|apply Hl|]. rewrite <- Htxn in Ht1, Ht3.
  assert (Hlogwf : rm_wf (rp_records rp)) by (rewrite Hrec; apply rm_wf_apply_ops, rm_wf_nil).
  destruct (ensure_collections_spec (bt_keys (cat_schemas (st_catalog s))) _ Hlogwf)
    as [Hewf Heq].
  assert (Hbelow : rm_below (rp_last_commit_ts rp) (rp_records rp)).
  { rewrite Hrec. eapply rm_below_apply_ops; [apply (rm_below_nil 0)|lia|exact Hall]. }
  assert (Hget : ∀ c id, rm_get (ensure_collections (bt_keys (cat_schemas (st_catalog s)))
    (rp_records rp)) c id = rm_get (st_records s) c id).
  { intros c id. rewrite Heq, Hrec. apply log_rel_get, Hl. }
  split_and!; [| | |exact Hts].
  - split; simpl; try done; try apply Hwf.
    intros c id chain. rewrite Heq. apply Hbelow.
  - split; simpl.
    + eapply (segments_hold_ext d); [|exact Hh]. intros seg _. rewrite segment_file_set.
      case_decide; congruence.
    + rewrite <- Hrec. apply log_rel_equiv. by symmetry.
    + done.
    + done.
  - split_and!; simpl; try done.
    + intros c. apply scan_ext; [done|apply Hwf|]. intros id. apply Hget.
    + rewrite Hts. apply max_op_ts_bound; [apply Hwf|apply Hl].
Qed.

Lemma open_logged s bss d :
  storage_wf s → logged s bss →
  d_manifest d = Some (enc_manifest (st_manifest s)) →
  catalog_load (d_catalog d) = Ok (st_catalog s) →
  segments_hold d (m_segments (st_manifest s)) bss →
  ∃ s', open_with d = Ok s' ∧ storage_inv s' ∧ recovered s s'.
Proof.
  intros Hwf Hl Hm Hc Hh.
  destruct (opened_recovers s bss d Hwf Hl Hm Hc Hh) as (Hwf' & Hl' & Hr & _).
  eexists. split; [|split; [split; [exact Hwf'|by exists bss]|exact Hr]].
  apply open_with_replay; try done; [apply Hwf|apply Hwf|].
  by apply (replay_segments_valid false).
Qed.

Lemma open_recovers s :
  storage_inv s → ∃ s', open_with (st_dir s) = Ok s' ∧ storage_inv s' ∧ recovered s s'.
Proof.
  intros [Hwf [bss Hl]]. eapply open_logged; [done|done|apply Hwf|apply Hwf|apply Hl].
Qed.

(** One operation of a running engine, or a restart from its directory. *)
Inductive storage_step : Storage → Storage → Prop :=
| ss_commit s batch : commit_fits batch (st_last_commit_ts s + 1) s →
    storage_step s (commit_batch batch s).1
| ss_apply s batch ts : commit_fits batch ts s →
    storage_step s (apply_committed_batch batch ts s)
| ss_put_schema s schema : storage_step s (put_schema schema s).1
| ss_drop_schema s name :
    commit_fits (mkBatch txn_auto (OpDelete 0 name <$> live_ids s name))
      (st_last_commit_ts s + 1) s →
    storage_step s (drop_schema name s).1
| ss_gc s cutoff n :
    rewrite_fits (set_st_records (rm_gc cutoff (Nat.max n 1) (st_records s)) s) →
    storage_step s (gc cutoff n s).1
| ss_compact s : rewrite_fits s → storage_step s (compact_storage s).1
| ss_flush s : storage_step s (flush s)
| ss_restart s s' : open_with (st_dir s) = Ok s' → storage_step s s'.

Lemma storage_step_inv s s' : storage_inv s → storage_step s s' → storage_inv s'.
Proof.
  intros Hinv Hs. destruct Hs.
  - by apply commit_batch_inv.
  - by apply apply_committed_batch_inv.
  - by apply put_schema_inv.
  - by apply drop_schema_inv.
  - by apply gc_inv.
  - by apply compact_inv.
  - by apply flush_inv.
  - destruct (open_recovers s Hinv) as (s2 & Ho & Hinv2 & _). congruence.
Qed.

Lemma storage_steps_inv s s' : storage_inv s → rtc storage_step s s' → storage_inv s'.
Proof. intros Hinv Hr. induction Hr; eauto using storage_step_inv. Qed.

Definition empty_dir : Dir := mkDbDir None None ∅.

(** The engine that [open_with] creates in an empty directory. *)
Definition fresh_storage : Storage :=
  mkStorage (mkDbDir (Some (enc_manifest manifest_default)) None (<[1 := []]> ∅))
    manifest_default catalog_default [] 0 0.

Lemma open_empty_dir : open_with empty_dir = Ok fresh_storage.
Proof. done. Qed.

Lemma fresh_storage_inv : storage_inv fresh_storage.
Proof.
  split.
  - split; try done; [apply NoDup_singleton|by repeat constructor|apply rm_wf_nil].
  - exists [[]]. split; [|apply log_rel_equiv; done|by constructor..]. apply Forall2_cons.
    split; [|constructor]. done.
Qed.

(** C7: durability of the engine.  After any sequence of commits, replicated batches,
    schema changes and drops, garbage collections, compactions, flushes and restarts,
    starting from a fresh directory, where every batch has only values that their JSON
    text keeps ([batch_safe]) and the segments stay within the addressable size
    ([commit_fits], [rewrite_fits]), opening the directory succeeds and the engine it
    gives serves the same records, scans and schemas. *)
Theorem storage_durable s0 s :
  open_with empty_dir = Ok s0 → rtc storage_step s0 s →
  ∃ s', open_with (st_dir s) = Ok s' ∧ recovered s s'.
Proof.
  rewrite open_empty_dir. intros [= <-] Hr.
  apply (storage_steps_inv _ _ fresh_storage_inv) in Hr.
  destruct (open_recovers s Hr) as (s' & Ho & _ & Hrec). eauto.
Qed.

(** The directory when a commit was interrupted after [k] bytes. *)
Definition crashed_commit (batch : Batch) (ts : N) (k : nat) (s : Storage) : Dir :=
  let active := manifest_active (st_manifest s) in
  set_segments (<[active := segment_file (st_dir s) active
                             ++ take k (batch_encode (stamped batch ts))]>
                  (d_segments (st_dir s))) (st_dir s).

(** C11: a commit is atomic.  Take a batch whose values their JSON text keeps
    ([batch_safe]) and that fits in the segment ([commit_fits]).  Whatever part of its
    bytes reached the segment when the process died, opening the directory recovers the
    state before the commit, or, once all bytes are there, the state after it; never a
    part of the batch. *)
Theorem commit_crash_atomic batch ts k s :
  storage_inv s → st_last_commit_ts s < ts → commit_fits batch ts s →
  ∃ s', open_with (crashed_commit batch ts k s) = Ok s' ∧ storage_inv s' ∧
    if decide (k < length (batch_encode (stamped batch ts)))%nat
    then recovered s s' else recovered (log_and_apply batch ts s) s'.
Proof.
  intros Hinv Hts Hfit. set (b := stamped batch ts).
  case_decide as Hk.
  - destruct Hinv as [Hwf [bss Hl]].
    destruct (segments_split _ (sw_segments _ Hwf)) as [segs Hsegs].
    pose proof (lg_hold _ _ Hl) as Hh. rewrite Hsegs in Hh.
    destruct (segments_hold_split _ _ _ _ Hh) as (bss' & bs & ->).
    apply segments_hold_snoc in Hh as (Hh1 & Hf & Ha).
    assert (Hout : ∀ bytes, segments_hold (set_segments
      (<[manifest_active (st_manifest s) := bytes]> (d_segments (st_dir s))) (st_dir s)) segs bss').
    { intros bytes. eapply segments_hold_ext; [|exact Hh1]. intros seg Hin.
      rewrite segment_file_set, decide_False; [done|]. intros ->.
      pose proof (sw_nodup _ Hwf) as Hnd. rewrite Hsegs in Hnd.
      apply NoDup_app in Hnd as (_ & Hd & _). apply (Hd _ Hin). by left. }
    destruct (decide (k = 0%nat)) as [->|Hk0].
    + apply (open_logged s (bss' ++ [bs])); try done; try apply Hwf.
      rewrite Hsegs. apply segments_hold_snoc. split; [apply Hout|]. split; [|done].
      unfold crashed_commit. rewrite segment_file_set, decide_True by done.
      by rewrite take_0, app_nil_r.
    + set (d' := set_segments (<[manifest_active (st_manifest s) := encode_batches bs]>
        (d_segments (crashed_commit batch ts k s))) (crashed_commit batch ts k s)).
      assert (Hd' : segments_hold d' (m_segments (st_manifest s)) (bss' ++ [bs])).
      { rewrite Hsegs. apply segments_hold_snoc. unfold d'. split_and!; [|by rewrite
          segment_file_set, decide_True|done].
        eapply segments_hold_ext; [|apply (Hout (encode_batches bs))]. intros seg Hin.
        rewrite !segment_file_set. case_decide; [done|]. unfold crashed_commit.
        by rewrite segment_file_set, decide_False. }
      destruct (opened_recovers s (bss' ++ [bs]) d' Hwf Hl) as (Hwf' & Hl' & Hr & _);
        [apply Hwf|apply Hwf|done|].
      eexists. split; [|split; [split; [exact Hwf'|by eexists]|exact Hr]].
      apply open_with_replay; try apply Hwf. rewrite Hsegs.
      rewrite (replay_segments_torn segs _ bss' bs b k).
      * rewrite join_app. simpl. by rewrite app_nil_r.
      * apply Hout.
      * unfold crashed_commit. rewrite segment_file_set, decide_True by done. by rewrite Hf.
      * by apply (commit_fits_storable _ _ s).
      * split; [lia|done].
  - assert (Hd : crashed_commit batch ts k s = st_dir (log_and_apply batch ts s)).
    { unfold crashed_commit. rewrite take_ge by (fold b; lia). done. }
    rewrite Hd. apply open_recovers. by apply log_and_apply_inv.
Qed.
End recovery.

(** ** The watermark that a restart finds

    The watermark in memory may be ahead of the one that opening the directory computes,
    from the operations in the segments and the manifest.  [persisted w s]: opening finds
    at least [w]. *)

Section watermark.
Context `{FT : FloatText, StorageCodec, !StorageCodecLaws}.
Implicit Types s : Storage.

Definition persisted (w : N) s : Prop :=
  storage_wf s ∧
  ∃ bss, logged s bss ∧ w <= max_op_ts (log_ops bss) (m_last_commit_ts (st_manifest s)).

Lemma persisted_inv w s : persisted w s → storage_inv s.
Proof. intros (Hwf & bss & Hl & _). split; eauto. Qed.

Lemma inv_persisted s : storage_inv s → persisted 0 s.
Proof. intros [Hwf [bss Hl]]. split; [done|]. exists bss. split; [done|lia]. Qed.

Lemma persisted_mono w w' s : w' <= w → persisted w s → persisted w' s.
Proof. intros Hle (Hwf & bss & Hl & Hw). split; [done|]. exists bss. split; [done|lia]. Qed.

Lemma persisted_le w s : persisted w s → w <= st_last_commit_ts s.
Proof.
  intros (Hwf & bss & Hl & Hw). etrans; [exact Hw|].
  apply max_op_ts_bound; [apply Hwf|apply Hl].
Qed.

(** A committed operation is found again, with its timestamp. *)
Lemma log_and_apply_persisted w batch ts s :
  persisted w s → st_last_commit_ts s < ts → commit_fits batch ts s →
  persisted w (log_and_apply batch ts s) ∧
  (b_ops batch ≠ [] → persisted ts (log_and_apply batch ts s)).
Proof.
  intros (Hwf & bss & Hl & Hw) Hts Hfit. destruct (logged_split _ _ Hwf Hl) as (bss' & bs & ->).
  destruct (log_and_apply_logged batch ts s bss' bs Hwf Hl Hts Hfit) as [Hwf' Hl'].
  assert (Hmax : max_op_ts (log_ops (bss' ++ [bs ++ [stamped batch ts]]))
            (m_last_commit_ts (st_manifest s))
          = max_op_ts (b_ops (stamped batch ts))
              (max_op_ts (log_ops (bss' ++ [bs])) (m_last_commit_ts (st_manifest s)))).
  { by rewrite log_ops_snoc, max_op_ts_app. }
  destruct (max_op_ts_spec (b_ops (stamped batch ts))
    (max_op_ts (log_ops (bss' ++ [bs])) (m_last_commit_ts (st_manifest s)))) as [Hge Hall].
  split; [|intros Hne]; (split; [done|]; eexists; split; [exact Hl'|]; simpl; rewrite Hmax).
  - lia.
  - pose proof (stamped_ts batch ts) as Hst. unfold stamped in *. simpl in *.
    destruct (b_ops batch) as [|op ops]; [done|]. csimpl in *.
    apply Forall_cons in Hall as [Hop _]. apply Forall_cons in Hst as [Hst _].
    rewrite <- Hst at 1. exact Hop.
Qed.

Lemma apply_committed_persisted w batch ts s :
  persisted w s → commit_fits batch ts s → persisted w (apply_committed_batch batch ts s).
Proof.
  intros Hp Hfit. unfold apply_committed_batch. case_if; bool_to_prop; [done|].
  destruct (b_ops batch) eqn:E; [|by apply log_and_apply_persisted].
  assert (Hinv : storage_inv (apply_committed_batch batch ts s)).
  { apply apply_committed_batch_inv; [by eapply persisted_inv|done]. }
  unfold apply_committed_batch in Hinv. rewrite E in Hinv.
  replace (ts <=? st_last_commit_ts s) with false in Hinv by (symmetry; by apply N.leb_gt).
  destruct Hp as (Hwf & bss & Hl & Hw). split; [apply Hinv|]. exists bss. split; [|done].
  destruct Hl. split; simpl; try done. eapply Forall_impl; [done|]. simpl. lia.
Qed.

Lemma rewrite_persisted s :
  storage_wf s → rewrite_fits s → persisted (st_last_commit_ts s) (rewrite_segment s).
Proof.
  intros Hwf Hfit. destruct (rewrite_segment_inv s Hwf Hfit) as [Hwf' [bss Hl]].
  split; [done|]. exists bss. split; [done|]. apply max_op_ts_spec.
Qed.

Lemma gc_persisted w cutoff n s :
  persisted w s → rewrite_fits (set_st_records (rm_gc cutoff (Nat.max n 1) (st_records s)) s) →
  persisted w (gc cutoff n s).1.
Proof.
  intros Hp Hfit. rewrite gc_state. apply (persisted_mono (st_last_commit_ts s)).
  - by apply persisted_le.
  - apply (rewrite_persisted (set_st_records _ s)); [|done]. apply gc_wf, Hp.
Qed.

Lemma compact_persisted w s : persisted w s → rewrite_fits s → persisted w (compact_storage s).1.
Proof.
  intros Hp Hfit. apply (persisted_mono (st_last_commit_ts s)); [by apply persisted_le|].
  apply rewrite_persisted; [apply Hp|done].
Qed.

Lemma open_persisted w s :
  persisted w s →
  ∃ s', open_with (st_dir s) = Ok s' ∧ persisted w s' ∧ recovered s s' ∧ w <= st_last_commit_ts s'.
Proof.
  intros (Hwf & bss & Hl & Hw).
  destruct (opened_recovers s bss (st_dir s) Hwf Hl) as (Hwf' & Hl' & Hr & Hts);
    [apply Hwf|apply Hwf|apply Hl|].
  eexists. split_and!; [|split; [exact Hwf'|by exists bss]|exact Hr|by rewrite Hts].
  apply open_with_replay; [apply Hwf..|]. by apply (replay_segments_valid false), Hl.
Qed.
End watermark.
