(* ===== verification/StorageSpec.v ===== *)
(** * What the storage engine promises

    The contract of [Storage] towards the engine above it: snapshot reads, the
    effect of a commit, replication of batches, garbage collection and its preview,
    the crash windows of a segment rewrite, and migration of an old log. *)

From S2P Require Import Prelude BTree Text Framing Value Core Mvcc Storage StorageRecovery.

Local Open Scope N_scope.

Section promises.
Context `{FT : FloatText, StorageCodec, !StorageCodecLaws}.
Implicit Types s : Storage.

(** ** Snapshots *)

Lemma log_and_apply_snapshot batch ts s c id read_ts :
  read_ts < ts →
  rm_get_as_of (st_records (log_and_apply batch ts s)) c id read_ts =
  rm_get_as_of (st_records s) c id read_ts.
Proof.
  intros Hts. simpl. apply get_as_of_apply_ops_newer.
  eapply Forall_impl; [apply (stamped_ts batch ts)|]. intros op ->. done.
Qed.

(** Snapshot isolation of reads.  A reader pinned at or below the watermark
    sees the same record under every id and the same scans, before and after any
    commit. *)
Theorem snapshot_unaffected_by_commit batch s c read_ts :
  storage_inv s → read_ts <= st_last_commit_ts s →
  (∀ id, rm_get_as_of (st_records (commit_batch batch s).1) c id read_ts =
         rm_get_as_of (st_records s) c id read_ts) ∧
  rm_scan_as_of (st_records (commit_batch batch s).1) c read_ts =
  rm_scan_as_of (st_records s) c read_ts.
Proof.
  intros [Hwf _] Hle. unfold commit_batch. destruct (b_ops batch) as [|op ops] eqn:E; [done|].
  assert (Hget : ∀ id, rm_get_as_of (st_records (log_and_apply batch
    (st_last_commit_ts s + 1) s)) c id read_ts = rm_get_as_of (st_records s) c id read_ts)
    by (intros id; apply log_and_apply_snapshot; lia).
  split; [exact Hget|]. apply scan_as_of_ext; [|apply Hwf|exact Hget].
  apply rm_wf_apply_ops, Hwf.
Qed.

(** ** Commits *)

Lemma get_as_of_watermark s c id ts :
  rm_below ts (st_records s) →
  rm_get_as_of (st_records s) c id ts = rm_get (st_records s) c id.
Proof.
  intros Hb. unfold rm_get_as_of, rm_get.
  destruct (chain_of (st_records s) c id) as [chain|] eqn:E; [|done]. simpl.
  unfold latest. destruct (last chain) as [v|] eqn:El.
  - rewrite (visible_at_latest chain ts v); [done|done|].
    apply Hb in E. rewrite Forall_forall in E. apply E. apply last_Some_elem_of in El. done.
  - apply last_None in El. by subst.
Qed.

(** The effect of a commit.  It takes one fresh timestamp for all its
    operations; afterwards every record reads as the last operation of the batch
    on it left it, and records the batch does not touch are unchanged, both for
    latest reads and for a snapshot at the new timestamp. *)
Theorem commit_batch_effect batch s c id :
  storage_inv s → b_ops batch ≠ [] → commit_fits batch (st_last_commit_ts s + 1) s →
  let '(s', ts) := commit_batch batch s in
  ts = st_last_commit_ts s + 1 ∧ st_last_commit_ts s' = ts ∧
  rm_get (st_records s') c id =
    match last_op_on c id (b_ops batch) with
    | Some op => op_value op
    | None => rm_get (st_records s) c id
    end ∧
  rm_get_as_of (st_records s') c id ts = rm_get (st_records s') c id.
Proof.
  intros Hinv Hne Hfit. unfold commit_batch. destruct (b_ops batch) as [|op ops] eqn:E; [done|].
  rewrite <- E. split_and!; [done|done| |].
  - apply log_and_apply_get; [apply sw_below, Hinv|lia].
  - apply get_as_of_watermark.
    apply (sw_below (log_and_apply batch (st_last_commit_ts s + 1) s)).
    apply log_and_apply_inv; [done|lia|done].
Qed.

(** Replicated batches are applied once.  Applying a batch at a timestamp a
    second time, or at any timestamp at or below the watermark, changes nothing. *)
Theorem apply_committed_idempotent batch batch' ts ts' s :
  ts' <= ts → st_last_commit_ts s < ts →
  let s' := apply_committed_batch batch ts s in
  st_last_commit_ts s' = ts ∧ apply_committed_batch batch' ts' s' = s'.
Proof.
  intros Hle Hts s'.
  assert (Hw : st_last_commit_ts s' = ts).
  { unfold s', apply_committed_batch. case_if; bool_to_prop; [lia|].
    by destruct (b_ops batch). }
  split; [done|]. unfold apply_committed_batch at 1. rewrite Hw.
  case_if; bool_to_prop; [done|lia].
Qed.

(** ** Garbage collection *)

(** C13: garbage collection is invisible.  For every reader at or after the cutoff,
    point reads and scans are the same before and after, and so are latest reads. *)
Theorem gc_invisible cutoff n s c read_ts :
  storage_inv s → cutoff <= read_ts →
  let s' := (gc cutoff n s).1 in
  (∀ id, rm_get_as_of (st_records s') c id read_ts = rm_get_as_of (st_records s) c id read_ts) ∧
  rm_scan_as_of (st_records s') c read_ts = rm_scan_as_of (st_records s) c read_ts ∧
  (∀ id, rm_get (st_records s') c id = rm_get (st_records s) c id) ∧
  rm_scan (st_records s') c = rm_scan (st_records s) c.
Proof.
  intros [Hwf _] Hle. cbv zeta. rewrite gc_records. pose proof (sw_records _ Hwf) as Hr.
  split_and!.
  - intros id. by apply gc_get_as_of.
  - apply scan_as_of_ext; [by apply rm_wf_gc|done|]. intros id. by apply gc_get_as_of.
  - intros id. by apply gc_get.
  - apply scan_ext; [by apply rm_wf_gc|done|]. intros id. by apply gc_get.
Qed.

(** The preview is exact.  [gc_preview] reports the versions reclaimed, the
    records removed and the versions left that the collection then reports, and
    reclaimed plus left is what was there. *)
Theorem gc_preview_exact cutoff n s :
  let report := (gc cutoff n s).2 in
  let preview := gc_preview s cutoff n in
  versions_reclaimed preview = versions_reclaimed report ∧
  records_removed preview = records_removed report ∧
  versions_after preview = versions_after report ∧
  (versions_after report + versions_reclaimed report
   = rm_total_versions (st_records s))%nat ∧
  versions_after report = rm_total_versions (st_records (gc cutoff n s).1).
Proof.
  cbv zeta. rewrite gc_records. unfold gc, gc_preview. rewrite gc_outer_spec.
  change (foldl _ (0, 0)%nat (bt_values (st_records s)))
    with (preview_counts cutoff (Nat.max n 1) (st_records s)).
  pose proof (rm_total_versions_gc cutoff (Nat.max n 1) (st_records s)) as Ht.
  destruct (preview_counts _ _ _) as [reclaimed removed]. simpl in *.
  split_and!; try done; lia.
Qed.

(** ** Crashes while rewriting *)

(** The new segment is (partly) written, the manifest is still the old one. *)
Definition crashed_rewrite_data (bytes : list byte) (s : Storage) : Dir :=
  set_segments (<[m_next_segment_id (st_manifest s) := bytes]> (d_segments (st_dir s)))
    (st_dir s).

(** The new manifest is in place, the old segments are not yet removed. *)
Definition crashed_rewrite_manifest (s : Storage) : Dir :=
  set_manifest_file (st_manifest (rewrite_segment s))
    (crashed_rewrite_data (segment_file (st_dir (rewrite_segment s))
       (m_next_segment_id (st_manifest s))) s).

(** Rewriting is crash safe.  A crash while the new segment is being written
    recovers the old state from the old segments; a crash after the manifest was
    replaced recovers the rewritten state, whichever old files are still there. *)
Theorem rewrite_crash_safe s bytes :
  storage_inv s → rewrite_fits s →
  (∃ s', open_with (crashed_rewrite_data bytes s) = Ok s' ∧ recovered s s') ∧
  (∃ s', open_with (crashed_rewrite_manifest s) = Ok s' ∧ recovered (rewrite_segment s) s').
Proof.
  intros [Hwf [bss Hl]] Hfit. split.
  - destruct (open_logged s bss (crashed_rewrite_data bytes s)) as (s' & Ho & _ & Hr);
      [done|done|apply Hwf|apply Hwf| |eauto].
    eapply segments_hold_ext; [|apply Hl]. intros seg Hin. unfold crashed_rewrite_data.
    rewrite segment_file_set, decide_False; [done|]. intros ->.
    pose proof (sw_next _ Hwf) as Hn. rewrite Forall_forall in Hn. apply Hn in Hin. lia.
  - destruct (rewrite_segment_inv s Hwf Hfit) as [Hwf' [bss' Hl']].
    destruct (open_logged _ bss' (crashed_rewrite_manifest s) Hwf' Hl') as (s' & Ho & _ & Hr);
      [done|apply Hwf| |eauto].
    eapply segments_hold_ext; [|apply Hl']. intros seg Hin. simpl in Hin.
    apply list_elem_of_singleton in Hin as ->. unfold crashed_rewrite_manifest.
    unfold segment_file at 1. simpl. by rewrite lookup_insert_eq.
Qed.
End promises.

(** ** Migration of a format-1 log *)

Lemma restamp_app ops ops' ts :
  restamp (ops ++ ops') ts = restamp ops ts ++ restamp ops' (ts + N.of_nat (length ops)).
Proof.
  revert ts. induction ops as [|op ops IH]; intros ts; simpl; [by rewrite N.add_0_r|].
  rewrite IH. do 3 f_equal. lia.
Qed.

(** Timestamps of a migrated log follow its order. *)
Lemma restamp_chain_wf P `{∀ x, Decision (P x)} ops ts :
  chain_wf (op_version <$> filter P (restamp ops ts)) ∧
  Forall (λ v, ts < v_commit_ts v) (op_version <$> filter P (restamp ops ts)).
Proof.
  revert ts. induction ops as [|op ops IH]; intros ts; simpl; [split; constructor|].
  destruct (IH (ts + 1)) as [Hwf Hlt].
  assert (Hlt' : Forall (λ v, ts < v_commit_ts v)
                   (op_version <$> filter P (restamp ops (ts + 1))))
    by (eapply Forall_impl; [exact Hlt|]; simpl; lia).
  assert (Hts : v_commit_ts (op_version (op_set_commit_ts (ts + 1) op)) = ts + 1)
    by by destruct op.
  rewrite filter_cons. case_decide; [|done]. rewrite fmap_cons. split.
  - constructor; [done|]. eapply Forall_impl; [exact Hlt|]. intros v. unfold ts_lt. by rewrite Hts.
  - constructor; [lia|done].
Qed.

Lemma last_op_on_filter c id ops : last_op_on c id ops = last (filter (on_key c id) ops).
Proof.
  unfold last_op_on. induction ops as [|op ops IH]; [done|]. cbn [find_last].
  rewrite IH, filter_cons. case_bool_decide as Hk.
  - rewrite (decide_True (P := on_key c id op)) by done.
    rewrite last_cons. by destruct (last _).
  - rewrite (decide_False (P := on_key c id op)) by done. by destruct (last _).
Qed.

Lemma last_op_on_restamp c id ops ts :
  op_value <$> last_op_on c id (restamp ops ts) = op_value <$> last_op_on c id ops.
Proof.
  unfold last_op_on. revert ts. induction ops as [|op ops IH]; intros ts; [done|].
  cbn [restamp find_last]. specialize (IH (ts + 1)).
  destruct (find_last _ (restamp ops (ts + 1))), (find_last _ ops); simpl in *; try done.
  destruct op; simpl; by case_bool_decide.
Qed.

(** Replaying a migrated log: the last operation on a record wins. *)
Lemma get_restamped c id ops ts :
  rm_get (apply_ops [] (restamp ops ts)) c id =
    match last_op_on c id ops with Some op => op_value op | None => None end.
Proof.
  unfold rm_get. rewrite chain_of_apply_ops. change (chain_of [] c id) with (@None (list Version)).
  pose proof (last_op_on_restamp c id ops ts) as Hl. rewrite last_op_on_filter in Hl.
  destruct (restamp_chain_wf (on_key c id) ops ts) as [Hwf _].
  destruct (filter (on_key c id) (restamp ops ts)) as [|k ks] eqn:E.
  - simpl in Hl. by destruct (last_op_on c id ops).
  - cbn [default mbind option_bind]. rewrite (insert_all_sorted []) by done.
    unfold latest. rewrite app_nil_l, fmap_last.
    destruct (last (k :: ks)) as [op|] eqn:El; [|by apply last_None in El].
    simpl in Hl. destruct (last_op_on c id ops) as [op'|]; simpl in *; [|done]. congruence.
Qed.

Section migration.
Context `{FT : FloatText, StorageCodec, !StorageCodecLaws}.

Lemma replay_migrating rp bs :
  let rp' := foldl (replay_batch true) rp bs in
  let ops := restamp (mjoin (b_ops <$> bs)) (rp_migrate_ts rp) in
  rp_records rp' = apply_ops (rp_records rp) ops ∧
  rp_last_commit_ts rp' = max_op_ts ops (rp_last_commit_ts rp).
Proof.
  revert rp. induction bs as [|b bs IH]; intros rp; csimpl; [done|].
  destruct (IH (replay_batch true rp b)) as [H1 H2]. cbv zeta in H1, H2.
  rewrite H1, H2. simpl. rewrite restamp_app. unfold apply_ops, max_op_ts.
  by rewrite !foldl_app.
Qed.

(** Migration.  A format-1 directory opens as a format-2 engine that satisfies
    the invariant, in which every record reads as the last operation on it in the
    old log left it. *)
Theorem migration_keeps_data d m catalog bss :
  d_manifest d = Some (enc_manifest m) → m_format_version m = 1 → m_segments m ≠ [] →
  catalog_load (d_catalog d) = Ok catalog → segments_hold d (m_segments m) bss →
  let rp := foldl (replay_batch true) (mkReplay [] 0 (m_last_commit_ts m) 0) (mjoin bss) in
  rewrite_fits (opened m catalog d rp) →
  ∃ s, open_with d = Ok s ∧ storage_inv s ∧
    m_format_version (st_manifest s) = FORMAT_VERSION ∧ st_catalog s = catalog ∧
    ∀ c id, rm_get (st_records s) c id =
      match last_op_on c id (log_ops bss) with Some op => op_value op | None => None end.
Proof.
  intros Hm Hv Hs Hc Hh rp Hfit.
  destruct (replay_migrating (mkReplay [] 0 (m_last_commit_ts m) 0) (mjoin bss)) as [Hr Ht].
  fold rp in Hr, Ht. simpl in Hr, Ht. fold (log_ops bss) in Hr, Ht.
  set (ops := restamp (log_ops bss) 0) in *.
  assert (Hwf : rm_wf (rp_records rp)) by (rewrite Hr; apply rm_wf_apply_ops, rm_wf_nil).
  destruct (ensure_collections_spec (bt_keys (cat_schemas catalog)) _ Hwf) as [Hewf Heq].
  exists (rewrite_segment (opened m catalog d rp)). split_and!; try done.
  - unfold open_with. rewrite Hm. unfold manifest_load. rewrite dec_enc_manifest, Hv.
    destruct (m_segments m) as [|seg segs] eqn:Es; [done|]. cbn [res_bind]. simpl.
    rewrite Hc. cbn [res_bind]. rewrite Hv, Es.
    change (1 <? FORMAT_VERSION) with true.
    rewrite (replay_segments_valid true _ bss) by done. done.
  - apply rewrite_segment_any; [done|done| |done]. intros c id chain. simpl. rewrite Heq, Hr, Ht.
    apply (rm_below_apply_ops [] ops 0 _ (rm_below_nil 0)); [lia|apply max_op_ts_spec].
  - intros c id. simpl. rewrite Heq, Hr. apply get_restamped.
Qed.
End migration.
