(* ===== verification/StorageSample.v ===== *)
(** * A concrete storage engine

    Countable encodings of values, schemas and batches, hence a concrete instance of
    the serialisers the storage engine is parameterised by, and one small database
    on which the promises of [StorageSpec] are exercised. *)

From Stdlib Require Import Floats.SpecFloat.
From S2P Require Import Prelude BTree Text Framing Value Core Mvcc Storage.
From S2P Require Import StorageRecovery StorageSpec.

Local Open Scope N_scope.

(** ** Encodings *)

#[export] Instance spec_float_countable : Countable spec_float.
Proof.
  refine (inj_countable'
    (λ f, match f with
          | S754_zero s => (0, s, 1%positive, 0%Z)
          | S754_infinity s => (1, s, 1%positive, 0%Z)
          | S754_nan => (2, false, 1%positive, 0%Z)
          | S754_finite s m e => (3, s, m, e)
          end)
    (λ '(k, s, m, e), if k =? 0 then S754_zero s else if k =? 1 then S754_infinity s
                      else if k =? 2 then S754_nan else S754_finite s m e) _).
  by intros [].
Defined.

Abbreviation leaf := ((bool + Z) + (string + spec_float) + (list byte + list spec_float))%type
  (only parsing).

(** A value as a tree with tagged nodes. *)
Fixpoint value_tree (v : Value) : gen_tree leaf :=
  match v with
  | VNull => GenNode 0 []
  | VBool b => GenNode 1 [GenLeaf (inl (inl (inl b)))]
  | VInt i => GenNode 2 [GenLeaf (inl (inl (inr i)))]
  | VFloat f => GenNode 3 [GenLeaf (inl (inr (inr f)))]
  | VText s => GenNode 4 [GenLeaf (inl (inr (inl s)))]
  | VBytes b => GenNode 5 [GenLeaf (inr (inl b))]
  | VTimestamp ms => GenNode 6 [GenLeaf (inl (inl (inr ms)))]
  | VVector l => GenNode 7 [GenLeaf (inr (inr l))]
  | VArray items => GenNode 8 (map value_tree items)
  | VObject m => GenNode 9
      (map (λ kv, GenNode 0 [GenLeaf (inl (inr (inl kv.1))); value_tree kv.2]) m)
  end.

Fixpoint tree_value (t : gen_tree leaf) : Value :=
  match t with
  | GenNode 1 [GenLeaf (inl (inl (inl b)))] => VBool b
  | GenNode 2 [GenLeaf (inl (inl (inr i)))] => VInt i
  | GenNode 3 [GenLeaf (inl (inr (inr f)))] => VFloat f
  | GenNode 4 [GenLeaf (inl (inr (inl s)))] => VText s
  | GenNode 5 [GenLeaf (inr (inl b))] => VBytes b
  | GenNode 6 [GenLeaf (inl (inl (inr ms)))] => VTimestamp ms
  | GenNode 7 [GenLeaf (inr (inr l))] => VVector l
  | GenNode 8 ts => VArray (map tree_value ts)
  | GenNode 9 ts => VObject
      (map (λ t, match t with
                 | GenNode _ [GenLeaf (inl (inr (inl k))); tv] => (k, tree_value tv)
                 | _ => (EmptyString, VNull)
                 end) ts)
  | _ => VNull
  end.

Lemma tree_value_tree v : tree_value (value_tree v) = v.
Proof.
  induction v as [|b|i|f|s|b|ms|l|items IH|m IH] using Value_nested_ind; simpl; try done.
  - f_equal. rewrite map_map. rewrite <- (map_id items) at 2. apply map_ext_in.
    intros v Hv. rewrite Forall_forall in IH. apply IH. by apply list_elem_of_In.
  - f_equal. rewrite map_map. rewrite <- (map_id m) at 2. apply map_ext_in.
    intros [k v] Hv. simpl. f_equal. rewrite Forall_forall in IH.
    apply (IH (k, v)). by apply list_elem_of_In.
Qed.

#[export] Instance Value_eq_dec : EqDecision Value.
Proof.
  intros v w. destruct (decide (value_tree v = value_tree w)) as [E|E].
  - left. by rewrite <- (tree_value_tree v), E, tree_value_tree.
  - right. congruence.
Defined.

#[export] Instance Value_countable : Countable Value :=
  inj_countable' value_tree tree_value tree_value_tree.

#[export] Instance Rec_eq_dec : EqDecision Rec.
Proof. solve_decision. Defined.

#[export] Instance Rec_countable : Countable Rec.
Proof.
  refine (inj_countable'
    (λ r, (rec_id r, rec_collection r, rec_fields r, rec_version r, rec_created_txn r))
    (λ '(i, c, f, v, t), mkRec i c f v t) _).
  by intros [].
Defined.

#[export] Instance LogOp_eq_dec : EqDecision LogOp.
Proof. solve_decision. Defined.

#[export] Instance LogOp_countable : Countable LogOp.
Proof.
  refine (inj_countable'
    (λ op, match op with OpPut ts r => inl (ts, r) | OpDelete ts c i => inr (ts, c, i) end)
    (λ x, match x with inl (ts, r) => OpPut ts r | inr (ts, c, i) => OpDelete ts c i end) _).
  by intros [].
Defined.

#[export] Instance Batch_eq_dec : EqDecision Batch.
Proof. solve_decision. Defined.

#[export] Instance Batch_countable : Countable Batch.
Proof.
  refine (inj_countable' (λ b, (b_txn_id b, b_ops b)) (λ '(t, o), mkBatch t o) _).
  by intros [].
Defined.

#[export] Instance Manifest_eq_dec : EqDecision Manifest.
Proof. solve_decision. Defined.

#[export] Instance Manifest_countable : Countable Manifest.
Proof.
  refine (inj_countable'
    (λ m, (m_format_version m, m_segments m, m_next_segment_id m, m_last_txn_id m,
           m_last_commit_ts m))
    (λ '(v, s, n, t, c), mkManifest v s n t c) _).
  by intros [].
Defined.

#[export] Instance FieldType_countable : Countable FieldType.
Proof.
  refine (inj_countable'
    (λ t, match t with
          | FUuid => (0, 0%nat) | FString => (1, 0%nat) | FInt => (2, 0%nat)
          | FFloat => (3, 0%nat) | FBool => (4, 0%nat) | FTimestamp => (5, 0%nat)
          | FDocument => (6, 0%nat) | FBytes => (7, 0%nat) | FVector d => (8, d)
          end)
    (λ '(k, d), if k =? 0 then FUuid else if k =? 1 then FString else if k =? 2 then FInt
      else if k =? 3 then FFloat else if k =? 4 then FBool else if k =? 5 then FTimestamp
      else if k =? 6 then FDocument else if k =? 7 then FBytes else FVector d) _).
  by intros [].
Defined.

#[export] Instance FieldDef_eq_dec : EqDecision FieldDef.
Proof. solve_decision. Defined.

#[export] Instance FieldDef_countable : Countable FieldDef.
Proof.
  refine (inj_countable'
    (λ f, (fd_name f, fd_type f, fd_primary_key f, fd_unique f, fd_nullable f, fd_indexed f))
    (λ '(n, t, p, u, l, i), mkField n t p u l i) _).
  by intros [].
Defined.

#[export] Instance Cardinality_eq_dec : EqDecision Cardinality.
Proof. solve_decision. Defined.
#[export] Instance OnDelete_eq_dec : EqDecision OnDelete.
Proof. solve_decision. Defined.
#[export] Instance IndexKind_eq_dec : EqDecision IndexKind.
Proof. solve_decision. Defined.
#[export] Instance Relationship_eq_dec : EqDecision Relationship.
Proof. solve_decision. Defined.
#[export] Instance IndexDef_eq_dec : EqDecision IndexDef.
Proof. solve_decision. Defined.
#[export] Instance CollectionSchema_eq_dec : EqDecision CollectionSchema.
Proof. solve_decision. Defined.
#[export] Instance Catalog_eq_dec : EqDecision Catalog.
Proof. solve_decision. Defined.

#[export] Instance Relationship_countable : Countable Relationship.
Proof.
  refine (inj_countable'
    (λ r, (rel_name r, rel_target r,
           match rel_cardinality r with ToOne => true | ToMany => false end,
           match rel_on_delete r with Restrict => true | SetNull => false end))
    (λ '(n, t, c, d), mkRel n t (if c : bool then ToOne else ToMany)
                        (if d : bool then Restrict else SetNull)) _).
  by intros [? ? [] []].
Defined.

#[export] Instance IndexDef_countable : Countable IndexDef.
Proof.
  refine (inj_countable'
    (λ i, (ix_path i, match ix_kind i with DocumentPath => true | FullText => false end))
    (λ '(p, k), mkIndex p (if k : bool then DocumentPath else FullText)) _).
  by intros [? []].
Defined.

#[export] Instance CollectionSchema_countable : Countable CollectionSchema.
Proof.
  refine (inj_countable'
    (λ s, (cs_name s, cs_fields s, cs_relationships s, cs_indexes s))
    (λ '(n, f, r, i), mkSchema n f r i) _).
  by intros [].
Defined.

#[export] Instance Catalog_countable : Countable Catalog.
Proof.
  refine (inj_countable' (λ c, (cat_schemas c, cat_schema_version c))
    (λ '(s, v), mkCatalog s v) _).
  by intros [].
Defined.

#[export] Instance sample_storage_codec : StorageCodec := {|
  enc_batch := sample_enc; dec_batch := sample_dec;
  enc_manifest := sample_enc; dec_manifest := sample_dec;
  enc_catalog := sample_enc; dec_catalog := sample_dec;
  storage_crc := sample_crc;
|}.

(** A parser that reads every finite float back. *)
#[export] Instance sample_float_text : FloatText := {|
  f64_reads_back := float_finite; f32_reads_back := float_finite;
|}.

#[export] Instance sample_storage_codec_laws : StorageCodecLaws.
Proof. split; intros; solve [apply sample_dec_enc | exact sample_crc_bound]. Qed.

(** ** A small database *)

Definition row (id : RecordId) (n : Z) : Rec := record_new id "c" [("n", VInt n)].

Definition put_row (id : RecordId) (n : Z) (s : Storage) : Storage := (put (row id n) s).1.

(** Record 1 written twice, record 2 written and deleted. *)
Definition db : Storage :=
  (delete_record "c" 2 (put_row 2 7 (put_row 1 20 (put_row 1 10 fresh_storage)))).1.

Lemma fits_by_computation buf : (N.of_nat (length buf) <=? u64_max) = true → addressable buf.
Proof. apply N.leb_le. Qed.

Lemma commit_fits_by_computation batch ts s :
  (N.of_nat (length (segment_file (st_dir s) (manifest_active (st_manifest s))
                     ++ batch_encode (stamped batch ts))) <=? u64_max) = true →
  batch_safe batch = true → commit_fits batch ts s.
Proof. intros Ha Hs. split; [by apply fits_by_computation|done]. Qed.

Lemma storable_by_computation bs :
  (N.of_nat (length (encode_batches bs)) <=? u64_max) = true → forallb batch_safe bs = true →
  storable bs.
Proof.
  intros Ha Hs. split; [by apply fits_by_computation|].
  apply Forall_forall. intros b Hb. rewrite forallb_forall in Hs.
  apply Hs. by apply list_elem_of_In.
Qed.

Lemma db_steps : rtc storage_step fresh_storage db.
Proof.
  unfold db, put_row, put, delete_record.
  do 3 (eapply rtc_r; [|apply ss_commit; apply commit_fits_by_computation; by vm_compute]).
  eapply rtc_r; [apply rtc_refl|apply ss_commit; apply commit_fits_by_computation; by vm_compute].
Qed.

Lemma db_inv : storage_inv db.
Proof. exact (storage_steps_inv _ _ fresh_storage_inv db_steps). Qed.

(** ** The promises on the small database *)

Lemma storage_durable_witness :
  ∃ s', open_with (st_dir db) = Ok s' ∧ recovered db s'.
Proof. apply (storage_durable fresh_storage db); [exact open_empty_dir|exact db_steps]. Defined.

Definition new_batch : Batch := mkBatch 9 [OpPut 0 (row 1 30); OpPut 0 (row 3 1)].

Lemma commit_crash_atomic_witness :
  ∃ s', open_with (crashed_commit new_batch 5 20 db) = Ok s' ∧ recovered db s'.
Proof.
  destruct (commit_crash_atomic new_batch 5 20 db) as (s' & Ho & _ & Hr);
    [exact db_inv|by vm_compute|apply commit_fits_by_computation; by vm_compute|].
  rewrite decide_True in Hr by (apply Nat.ltb_lt; by vm_compute).
  exists s'. split; [exact Ho|exact Hr].
Defined.

Lemma snapshot_unaffected_by_commit_witness :
  rm_get_as_of (st_records (commit_batch new_batch db).1) "c" 1 1 = Some (row 1 10) ∧
  rm_get (st_records (commit_batch new_batch db).1) "c" 1 = Some (row 1 30).
Proof.
  split; [|by vm_compute].
  rewrite (proj1 (snapshot_unaffected_by_commit new_batch db "c" 1 db_inv
    ltac:(vm_compute; discriminate)) 1). by vm_compute.
Defined.

Lemma commit_batch_effect_witness :
  (commit_batch new_batch db).2 = 5 ∧
  rm_get (st_records (commit_batch new_batch db).1) "c" 3 = Some (row 3 1).
Proof.
  pose proof (commit_batch_effect new_batch db "c" 3 db_inv ltac:(done)
    ltac:(apply commit_fits_by_computation; by vm_compute)) as He.
  destruct (commit_batch new_batch db) as [s' ts] eqn:E. destruct He as (Ht & _ & Hg & _).
  split; [rewrite Ht; by vm_compute|]. simpl. rewrite Hg. by vm_compute.
Defined.

Lemma apply_committed_idempotent_witness :
  let s' := apply_committed_batch new_batch 10 db in
  st_last_commit_ts s' = 10 ∧ apply_committed_batch new_batch 10 s' = s'.
Proof.
  apply (apply_committed_idempotent new_batch new_batch 10 10 db);
    [vm_compute; discriminate|by vm_compute].
Defined.

Lemma gc_invisible_witness :
  rm_total_versions (st_records (gc 4 1 db).1) = 1%nat ∧
  rm_get_as_of (st_records (gc 4 1 db).1) "c" 1 4 = Some (row 1 20).
Proof.
  split; [by vm_compute|].
  rewrite (proj1 (gc_invisible 4 1 db "c" 4 db_inv ltac:(vm_compute; discriminate)) 1).
  by vm_compute.
Defined.

Lemma rewrite_crash_safe_witness :
  ∃ s', open_with (crashed_rewrite_data [x00; x01] db) = Ok s' ∧ recovered db s'.
Proof.
  destruct (rewrite_crash_safe db [x00; x01]) as [Hr _]; [exact db_inv| |exact Hr].
  apply storable_by_computation; by vm_compute.
Defined.

(** A format-1 directory: two batches, the second deletes what the first wrote. *)
Definition old_log : list (list Batch) :=
  [[mkBatch 1 [OpPut 0 (row 1 10); OpPut 0 (row 2 20)]; mkBatch 2 [OpDelete 0 "c" 1]]].

Definition old_manifest : Manifest := mkManifest 1 [1] 2 2 0.

Definition old_dir : Dir :=
  mkDbDir (Some (enc_manifest old_manifest)) None
    (<[1 := encode_batches (List.hd [] old_log)]> ∅).

Lemma migration_keeps_data_witness :
  ∃ s, open_with old_dir = Ok s ∧ storage_inv s ∧
    rm_get (st_records s) "c" 1 = None ∧ rm_get (st_records s) "c" 2 = Some (row 2 20).
Proof.
  destruct (migration_keeps_data old_dir old_manifest catalog_default old_log)
    as (s & Ho & Hi & _ & _ & Hg); [reflexivity|reflexivity|discriminate|reflexivity| | |].
  - apply Forall2_cons. split; [|constructor]. split; [by vm_compute|].
    apply storable_by_computation; by vm_compute.
  - apply storable_by_computation; by vm_compute.
  - exists s. split_and!; [exact Ho|exact Hi|rewrite Hg; by vm_compute|rewrite Hg; by vm_compute].
Defined.

(** ** The transaction id is not recovered *)

(** After everything was deleted and collected, a restart forgets the highest
    transaction id: the manifest records it ([last_txn_id]), but [open_with] only
    looks at the batches that are left. *)
Theorem restart_forgets_txn_id :
  let s1 := (commit_batch (mkBatch 8 [OpPut 0 (row 1 10)]) fresh_storage).1 in
  let s2 := (commit_batch (mkBatch 9 [OpDelete 0 "c" 1]) s1).1 in
  let s3 := (gc 2 1 s2).1 in
  st_max_txn_id s3 = 9 ∧ m_last_txn_id (st_manifest s3) = 9 ∧
  ∃ s4, open_with (st_dir s3) = Ok s4 ∧ m_last_txn_id (st_manifest s4) = 9 ∧
        st_max_txn_id s4 = 0.
Proof.
  cbv zeta. split; [by vm_compute|]. split; [by vm_compute|].
  eexists. split; [by vm_compute|]. by vm_compute.
Qed.
