(* ===== verification/Txn.v ===== *)
(** * Transactions

    Models [crates/auradb-txn/src/lib.rs]: the staged write set of a transaction, the
    versions it observed, and the batch it turns into.  Reads through a transaction
    and the commit protocol are in [Engine]. *)

From S2P Require Import Prelude BTree Value Core Mvcc.

Local Open Scope N_scope.

(** [Key], ordered by collection, then by id. *)
Abbreviation Key := (string * N)%type (only parsing).

Inductive StagedOp :=
| SPut (record : Rec)
| SDelete.

Record Transaction := mkTxn {
  tx_id : TxnId;
  tx_read_ts : N;
  tx_observed : list (Key * option N);
  tx_staged : list (Key * StagedOp);
  tx_finished : bool;
}.

Definition begin_at (id : TxnId) (read_ts : N) : Transaction := mkTxn id read_ts [] [] false.

Definition tx_is_empty (t : Transaction) : bool :=
  match tx_staged t with [] => true | _ :: _ => false end.

(** The first observation wins. *)
Definition observe (key : Key) (version : option N) (t : Transaction) : Transaction :=
  match bt_get key (tx_observed t) with
  | Some _ => t
  | None => mkTxn (tx_id t) (tx_read_ts t) (bt_insert key version (tx_observed t)) (tx_staged t)
              (tx_finished t)
  end.

Definition set_staged (m : list (Key * StagedOp)) (t : Transaction) : Transaction :=
  mkTxn (tx_id t) (tx_read_ts t) (tx_observed t) m (tx_finished t).

Definition stage_put (record : Rec) (prior_version : option N) (t : Transaction) : Transaction :=
  let key := (rec_collection record, rec_id record) in
  let t := observe key prior_version t in
  set_staged (bt_insert key (SPut record) (tx_staged t)) t.

Definition stage_delete (collection : CollectionId) (id : RecordId) (prior_version : option N)
    (t : Transaction) : Transaction :=
  let key := (collection, id) in
  let t := observe key prior_version t in
  set_staged (bt_insert key SDelete (tx_staged t)) t.

Definition staged (t : Transaction) (key : Key) : option StagedOp := bt_get key (tx_staged t).

Definition into_batch (version_for : Key → N) (t : Transaction) : Batch :=
  mkBatch (tx_id t)
    ((λ '(key, op),
        match op with
        | SPut record =>
            OpPut 0 (mkRec (rec_id record) (rec_collection record) (rec_fields record)
                       (version_for key) (tx_id t))
        | SDelete => OpDelete 0 key.1 key.2
        end) <$> tx_staged t).

Definition finish (t : Transaction) : Transaction :=
  mkTxn (tx_id t) (tx_read_ts t) (tx_observed t) (tx_staged t) true.

Definition into_parts (t : Transaction) : list (Key * option N) * list (Key * StagedOp) :=
  (tx_observed t, tx_staged t).

(** ** The write set *)

(** Keys in order, each staged record under its own key. *)
Record txn_wf (t : Transaction) : Prop := {
  tw_staged : bt_wf (tx_staged t);
  tw_placed : ∀ c id r, bt_get (c, id) (tx_staged t) = Some (SPut r) →
    rec_collection r = c ∧ rec_id r = id;
}.

Lemma observe_same key v t :
  tx_staged (observe key v t) = tx_staged t ∧ tx_read_ts (observe key v t) = tx_read_ts t ∧
  tx_id (observe key v t) = tx_id t.
Proof. unfold observe. by destruct (bt_get key (tx_observed t)). Qed.

Lemma begin_at_wf id ts : txn_wf (begin_at id ts).
Proof. split; [constructor|done]. Qed.

Lemma staged_put r v t key :
  staged (stage_put r v t) key =
    if decide (key = (rec_collection r, rec_id r)) then Some (SPut r) else staged t key.
Proof.
  unfold staged, stage_put, set_staged. simpl.
  destruct (observe_same (rec_collection r, rec_id r) v t) as (-> & _ & _).
  case_decide as Hk; subst; [apply bt_get_insert_eq|]. by apply bt_get_insert_ne.
Qed.

Lemma staged_delete c id v t key :
  staged (stage_delete c id v t) key =
    if decide (key = (c, id)) then Some SDelete else staged t key.
Proof.
  unfold staged, stage_delete, set_staged. simpl.
  destruct (observe_same (c, id) v t) as (-> & _ & _).
  case_decide as Hk; subst; [apply bt_get_insert_eq|]. by apply bt_get_insert_ne.
Qed.

Lemma stage_put_wf r v t : txn_wf t → txn_wf (stage_put r v t).
Proof.
  intros [Hwf Hp]. split.
  - unfold stage_put, set_staged. simpl. destruct (observe_same (rec_collection r, rec_id r) v t)
      as (-> & _ & _). by apply bt_wf_insert.
  - intros c id r'. pose proof (staged_put r v t (c, id)) as Hs. unfold staged in Hs. rewrite Hs.
    case_decide as Hk; [|apply Hp]. intros [= <-]. by injection Hk.
Qed.

Lemma stage_delete_wf c id v t : txn_wf t → txn_wf (stage_delete c id v t).
Proof.
  intros [Hwf Hp]. split.
  - unfold stage_delete, set_staged. simpl.
    destruct (observe_same (c, id) v t) as (-> & _ & _). by apply bt_wf_insert.
  - intros c' id' r'. pose proof (staged_delete c id v t (c', id')) as Hs. unfold staged in Hs.
    rewrite Hs. case_decide; [done|apply Hp].
Qed.
