(* ===== verification/Engine.v ===== *)
(** * The engine

    Models [crates/auradb/src/engine.rs] and [idgen.rs]: the engine core that the
    embedded API and the server share.  It owns the storage, the indexes, the logical
    clock, the registry of active transactions and, in cluster mode, a replicated log.

    Every public operation takes the engine lock for its whole body, so an operation
    is one atomic step on [Inner]; transactions live outside and are passed in.  A
    [panic!] or a failed [expect] is the result [Panicked].  The wall clock is a field
    the environment moves; planner statistics are kept for their row counts only. *)

From S2P Require Import Prelude BTree Text Framing Value Core Eval Index Mvcc Storage Txn.

Local Open Scope N_scope.

(** A request fails with an error or takes the engine down. *)
Inductive Fault :=
| Failed (e : Error)
| Panicked.

Inductive TxnState := TActive | TTimedOut.

#[export] Instance TxnState_eq_dec : EqDecision TxnState.
Proof. solve_decision. Defined.

Record TxnEntry := mkEntry {
  te_read_ts : N;
  te_started_at : N;
  te_last_activity : N;
  te_connection_id : option N;
  te_state : TxnState;
}.

(** The [ReplicatedLog] trait: append, wait for consensus, return the log index. *)
Class ReplicatedLog (L : Type) := log_replicate : Batch → L → L * Res N.

Record Inner (L : Type) := mkInner {
  in_storage : Storage;
  in_indexes : gmap string CollectionIndexes;
  in_clock : N;
  in_txns : list (N * TxnEntry);
  in_now : N;
  in_timeout_secs : N;
  in_timeouts_total : N;
  in_gc_min_retained : nat;
  in_row_counts : gmap string nat;
  in_cluster : option L;
}.
Arguments mkInner {L}.
Arguments in_storage {L}.
Arguments in_indexes {L}.
Arguments in_clock {L}.
Arguments in_txns {L}.
Arguments in_now {L}.
Arguments in_timeout_secs {L}.
Arguments in_timeouts_total {L}.
Arguments in_gc_min_retained {L}.
Arguments in_row_counts {L}.
Arguments in_cluster {L}.

Section setters.
Context {L : Type}.
Implicit Types i : Inner L.

Definition set_storage s i :=
  mkInner s (in_indexes i) (in_clock i) (in_txns i) (in_now i) (in_timeout_secs i)
    (in_timeouts_total i) (in_gc_min_retained i) (in_row_counts i) (in_cluster i).
Definition set_indexes x i :=
  mkInner (in_storage i) x (in_clock i) (in_txns i) (in_now i) (in_timeout_secs i)
    (in_timeouts_total i) (in_gc_min_retained i) (in_row_counts i) (in_cluster i).
Definition set_clock c i :=
  mkInner (in_storage i) (in_indexes i) c (in_txns i) (in_now i) (in_timeout_secs i)
    (in_timeouts_total i) (in_gc_min_retained i) (in_row_counts i) (in_cluster i).
Definition set_txns t i :=
  mkInner (in_storage i) (in_indexes i) (in_clock i) t (in_now i) (in_timeout_secs i)
    (in_timeouts_total i) (in_gc_min_retained i) (in_row_counts i) (in_cluster i).
Definition set_now n i :=
  mkInner (in_storage i) (in_indexes i) (in_clock i) (in_txns i) n (in_timeout_secs i)
    (in_timeouts_total i) (in_gc_min_retained i) (in_row_counts i) (in_cluster i).
Definition set_timeouts_total n i :=
  mkInner (in_storage i) (in_indexes i) (in_clock i) (in_txns i) (in_now i) (in_timeout_secs i)
    n (in_gc_min_retained i) (in_row_counts i) (in_cluster i).
Definition set_row_counts m i :=
  mkInner (in_storage i) (in_indexes i) (in_clock i) (in_txns i) (in_now i) (in_timeout_secs i)
    (in_timeouts_total i) (in_gc_min_retained i) m (in_cluster i).
Definition set_cluster (c : option L) i :=
  mkInner (in_storage i) (in_indexes i) (in_clock i) (in_txns i) (in_now i) (in_timeout_secs i)
    (in_timeouts_total i) (in_gc_min_retained i) (in_row_counts i) c.
End setters.

(** ** Record ids *)

Definition FNV_OFFSET : N := 0x6c62272e07bb014262b821756295c58d.
Definition FNV_PRIME : N := 0x0000000001000000000000000000013b.

Definition fnv1a_128 (bytes : list byte) : N :=
  foldl (λ hash b, wrap128 (N.lxor hash (Byte.to_N b) * FNV_PRIME)) FNV_OFFSET bytes.

Section ids.
Context `{JsonText}.

Definition canonical (value : Value) : string := json_text (to_json value).

Definition derive_id (collection : string) (pk_value : Value) : RecordId :=
  fnv1a_128 (bytes_of collection ++ [x00] ++ bytes_of (canonical pk_value)).

Definition record_id_for (schema : CollectionSchema) (fields : Document) (fallback : N)
  : Res RecordId :=
  match schema_primary_key schema with
  | Some pk =>
      match bt_get (fd_name pk) fields with
      | None => Err ESchemaViolation
      | Some value => if is_null value then Err ESchemaViolation
                      else Ok (derive_id (cs_name schema) value)
      end
  | None => Ok fallback
  end.
End ids.

(** ** Requests and results *)

Inductive Mutation :=
| MInsert (collection : string) (fields : Document)
| MBulkInsert (collection : string) (records : list Document)
| MUpdate (collection : string) (filter : option Filter) (set : Document)
| MDelete (collection : string) (filter : option Filter)
| MUpsert (collection : string) (fields : Document).

Definition mutation_collection (m : Mutation) : string :=
  match m with
  | MInsert c _ | MBulkInsert c _ | MUpdate c _ _ | MDelete c _ | MUpsert c _ => c
  end.

Record MutationResult := mkResult {
  mr_inserted : nat;
  mr_updated : nat;
  mr_deleted : nat;
  mr_ids : list (list byte);
}.

Definition result_empty : MutationResult := mkResult 0 0 0 [].

Definition count_inserted (id : RecordId) (r : MutationResult) : MutationResult :=
  mkResult (S (mr_inserted r)) (mr_updated r) (mr_deleted r) (mr_ids r ++ [record_id_display id]).
Definition count_updated (id : RecordId) (r : MutationResult) : MutationResult :=
  mkResult (mr_inserted r) (S (mr_updated r)) (mr_deleted r) (mr_ids r ++ [record_id_display id]).
Definition count_deleted (id : RecordId) (r : MutationResult) : MutationResult :=
  mkResult (mr_inserted r) (mr_updated r) (S (mr_deleted r)) (mr_ids r ++ [record_id_display id]).

Inductive WriteMode := WInsert | WUpsert.

#[export] Instance WriteMode_eq_dec : EqDecision WriteMode.
Proof. solve_decision. Defined.

(** [old.fields] with the assignments of an update merged in. *)
Definition merge_fields (fields set : Document) : Document :=
  foldl (λ m kv, bt_insert kv.1 kv.2 m) fields set.

Section engine.
Context `{Unicode, JsonText, StorageCodec}.
Context {L : Type} `{ReplicatedLog L}.
Implicit Types i : Inner L.

Abbreviation EngineOp A := (SE (Inner L) Fault A) (only parsing).

Definition lift {A} (r : Res A) : EngineOp A := λ i,
  match r with Ok a => (i, Ok a) | Err e => (i, Err (Failed e)) end.

Definition records_of i := st_records (in_storage i).

(** [clock.tick()]. *)
Definition next_id : EngineOp N := λ i,
  (set_clock (wrap64 (in_clock i + 1)) i, Ok (in_clock i)).

(** ** Reads through a transaction *)

Definition overlay_scan i (t : Transaction) (c : string) : list Rec :=
  filter (λ r, staged t (c, rec_id r) = None) (rm_scan_as_of (records_of i) c (tx_read_ts t))
  ++ omap (λ '(_, op), match op with
                       | SPut record => if bool_decide (rec_collection record = c)
                                        then Some record else None
                       | SDelete => None
                       end) (tx_staged t).

(** [TxnView::get], [txn_get] and [txn_get_visible]. *)
Definition txn_get i (t : Transaction) (c : string) (id : RecordId) : option Rec :=
  match staged t (c, id) with
  | Some (SPut record) => Some record
  | Some SDelete => None
  | None => rm_get_as_of (records_of i) c id (tx_read_ts t)
  end.

(** ** Checks *)

Definition schema_for i (collection : string) : Res CollectionSchema :=
  match get_schema (in_storage i) collection with
  | Some s => Ok s
  | None => Err ENotFound
  end.

Definition resolve_link i (target : string) (key : Value) : option Rec :=
  rm_get (records_of i) target (derive_id target key).

Definition referential_rel i (fields : Document) (rel : Relationship) : Res unit :=
  match bt_get (rel_name rel) fields with
  | None => Ok tt
  | Some value =>
      let? keys := match rel_cardinality rel, value with
                   | _, VNull => Ok []
                   | ToOne, v => Ok [v]
                   | ToMany, VArray items => Ok items
                   | ToMany, _ => Err ESchemaViolation
                   end in
      for_each (λ key, match resolve_link i (rel_target rel) key with
                       | Some _ => Ok tt
                       | None => Err ESchemaViolation
                       end) keys
  end.

Definition referential_check i (schema : CollectionSchema) (fields : Document) : Res unit :=
  for_each (referential_rel i fields) (cs_relationships schema).

(** Whether a record refers to the primary key through a relationship. *)
Definition refers_to (rel : Relationship) (pk_value : Value) (record : Rec) : bool :=
  match record_get record (rel_name rel) with
  | Some (VText s) => value_eq (VText s) pk_value
  | Some (VArray items) => existsb (λ v, value_eq v pk_value) items
  | _ => false
  end.

Definition inbound_link_check i (collection : string) (target : Rec) : Res unit :=
  match get_schema (in_storage i) collection with
  | None => Ok tt
  | Some schema =>
      match schema_primary_key schema with
      | None => Ok tt
      | Some pk =>
          match bt_get (fd_name pk) (rec_fields target) with
          | None => Ok tt
          | Some pk_value =>
              for_each (λ ref_schema : CollectionSchema,
                for_each (λ rel,
                  if negb (bool_decide (rel_target rel = collection))
                     || negb (bool_decide (rel_on_delete rel = Restrict))
                  then Ok tt
                  else for_each (λ record, if refers_to rel pk_value record
                                           then Err EConflict else Ok tt)
                         (rm_scan (records_of i) (cs_name ref_schema)))
                  (cs_relationships ref_schema))
                (bt_values (cat_schemas (st_catalog (in_storage i))))
          end
      end
  end.

(** ** Committing *)

(** The choke point of every data-plane commit. *)
Definition engine_commit_batch (batch : Batch) : EngineOp N := λ i,
  match in_cluster i with
  | Some log =>
      let '(log', r) := log_replicate batch log in
      let i := set_cluster (Some log') i in
      match r with
      | Err e => (i, Err (Failed e))
      | Ok index =>
          (set_storage (apply_committed_batch batch index (in_storage i)) i, Ok index)
      end
  | None =>
      let '(s, ts) := commit_batch batch (in_storage i) in
      (set_storage s i, Ok ts)
  end.

Definition refresh_stats_row_count (collection : string) i : Inner L :=
  set_row_counts (<[collection := rm_count (records_of i) collection]> (in_row_counts i)) i.

(** One index update: the old version out, the new version in, if the collection
    has an index. *)
Definition update_index (old new : option Rec) (ci : CollectionIndexes) : CollectionIndexes :=
  let ci := match old with Some r => index_remove r ci | None => ci end in
  match new with Some r => index_insert r ci | None => ci end.

(** The collection of an update; both sides missing is an [expect] that fails. *)
Definition delta_collection (old new : option Rec) : option string :=
  match old, new with
  | Some r, _ => Some (rec_collection r)
  | None, Some r => Some (rec_collection r)
  | None, None => None
  end.

(** The index updates behind a commit, then the row counts. *)
Fixpoint apply_deltas (deltas : list (option Rec * option Rec)) (affected : gset string)
  : EngineOp unit := λ i,
  match deltas with
  | [] => (foldl (λ i c, refresh_stats_row_count c i) i (elements affected), Ok tt)
  | (old, new) :: rest =>
      match delta_collection old new with
      | None => (i, Err Panicked)
      | Some c =>
          apply_deltas rest ({[c]} ∪ affected)
            (set_indexes (alter (update_index old new) c (in_indexes i)) i)
      end
  end.

Definition op_delta i (op : LogOp) : option Rec * option Rec :=
  match op with
  | OpPut _ record =>
      (rm_get (records_of i) (rec_collection record) (rec_id record), Some record)
  | OpDelete _ c id => (rm_get (records_of i) c id, None)
  end.

Definition apply_replicated_batch (batch : Batch) (log_index : N) : EngineOp unit := λ i,
  if log_index <=? st_last_commit_ts (in_storage i) then (i, Ok tt)
  else
    let deltas := op_delta i <$> b_ops batch in
    let i := set_storage (apply_committed_batch batch log_index (in_storage i)) i in
    apply_deltas deltas ∅ i.

(** ** Auto-commit writes *)

(** The uniqueness keys already used by the batch. *)
Definition pending_key (field : FieldDef) (value : Value) : string :=
  string_of (bytes_of (fd_name field) ++ [x00] ++ bytes_of (canonical value)).

Fixpoint check_pending_unique (fields : list FieldDef) (record : Rec) (pending : gset string)
  : Res (gset string) :=
  match fields with
  | [] => Ok pending
  | field :: rest =>
      if negb (fd_primary_key field || fd_unique field)
      then check_pending_unique rest record pending
      else match record_get record (fd_name field) with
           | None => check_pending_unique rest record pending
           | Some value =>
               if is_null value then check_pending_unique rest record pending
               else
                 let key := pending_key field value in
                 if bool_decide (key ∈ pending) then Err EUniqueViolation
                 else check_pending_unique rest record ({[key]} ∪ pending)
           end
  end.

(** The body of the loop that prepares one record of a write. *)
Definition prepare_record (schema : CollectionSchema) (collection : string) (mode : WriteMode)
    (txn_id : TxnId) (fields : Document) (pending : gset string)
  : EngineOp (option Rec * Rec * gset string) :=
  _ <~ lift (validate_record schema fields) ;;
  fallback <~ next_id ;;
  id <~ lift (record_id_for schema fields fallback) ;;
  existing <~ se_get (λ i, rm_get (records_of i) collection id) ;;
  (if bool_decide (is_Some existing) && bool_decide (mode = WInsert)
   then se_fail (Failed EUniqueViolation)
   else
     _ <~ (λ i, lift (referential_check i schema fields) i) ;;
     let version := match existing with Some r => rec_version r + 1 | None => 1 end in
     let record := mkRec id collection fields version txn_id in
     _ <~ (λ i, match in_indexes i !! collection with
                | None => (i, Err Panicked)
                | Some ci => lift (check_unique ci record (rec_id <$> existing)) i
                end) ;;
     pending <~ lift (check_pending_unique (cs_fields schema) record pending) ;;
     se_ret (existing, record, pending)).

Fixpoint prepare_records (schema : CollectionSchema) (collection : string) (mode : WriteMode)
    (txn_id : TxnId) (docs : list Document) (pending : gset string)
  : EngineOp (list (option Rec * Rec)) :=
  match docs with
  | [] => se_ret []
  | fields :: rest =>
      p <~ prepare_record schema collection mode txn_id fields pending ;;
      ps <~ prepare_records schema collection mode txn_id rest p.2 ;;
      se_ret (p.1 :: ps)
  end.

(** The index updates behind a write to one collection; [expect] on its index. *)
Definition update_collection_index (collection : string)
    (deltas : list (option Rec * option Rec)) : EngineOp unit := λ i,
  match in_indexes i !! collection with
  | None => (i, Err Panicked)
  | Some ci =>
      (set_indexes (<[collection := foldl (λ ci d, update_index d.1 d.2 ci) ci deltas]>
                      (in_indexes i)) i, Ok tt)
  end.

Definition write_result (prepared : list (option Rec * Rec)) : MutationResult :=
  foldl (λ res p, match p.1 with
                  | Some _ => count_updated (rec_id p.2) res
                  | None => count_inserted (rec_id p.2) res
                  end) result_empty prepared.

Definition write_records (collection : string) (docs : list Document) (mode : WriteMode)
    (txn_id : TxnId) : EngineOp MutationResult :=
  schema <~ (λ i, lift (schema_for i collection) i) ;;
  prepared <~ prepare_records schema collection mode txn_id docs ∅ ;;
  _ <~ engine_commit_batch (mkBatch txn_id ((λ p, OpPut 0 p.2) <$> prepared)) ;;
  _ <~ update_collection_index collection ((λ p, (p.1, Some p.2)) <$> prepared) ;;
  se_ret (write_result prepared).

(** The records of a collection a filter selects. *)
Definition selected (filter : option Filter) (r : Rec) : bool :=
  match filter with Some f => matches r f | None => true end.

Definition targets i (collection : string) (filter : option Filter) : list Rec :=
  List.filter (selected filter) (rm_scan (records_of i) collection).

Definition prepare_update (schema : CollectionSchema) (collection : string) (set : Document)
    (txn_id : TxnId) (old : Rec) : EngineOp (Rec * Rec) := λ i,
  let fields := merge_fields (rec_fields old) set in
  (_ <~ lift (validate_record schema fields) ;;
   _ <~ lift (referential_check i schema fields) ;;
   let new := mkRec (rec_id old) collection fields (rec_version old + 1) txn_id in
   _ <~ (λ i, match in_indexes i !! collection with
              | None => (i, Err Panicked)
              | Some ci => lift (check_unique ci new (Some (rec_id old))) i
              end) ;;
   se_ret (old, new)) i.

Fixpoint prepare_updates (schema : CollectionSchema) (collection : string) (set : Document)
    (txn_id : TxnId) (olds : list Rec) : EngineOp (list (Rec * Rec)) :=
  match olds with
  | [] => se_ret []
  | old :: rest =>
      p <~ prepare_update schema collection set txn_id old ;;
      ps <~ prepare_updates schema collection set txn_id rest ;;
      se_ret (p :: ps)
  end.

Definition update_records (collection : string) (filter : option Filter) (set : Document)
    (txn_id : TxnId) : EngineOp MutationResult :=
  schema <~ (λ i, lift (schema_for i collection) i) ;;
  (if match schema_primary_key schema with
      | Some pk => bool_decide (is_Some (bt_get (fd_name pk) set))
      | None => false
      end
   then se_fail (Failed EInvalidRequest)
   else
     olds <~ se_get (λ i, targets i collection filter) ;;
     prepared <~ prepare_updates schema collection set txn_id olds ;;
     match prepared with
     | [] => se_ret result_empty
     | _ :: _ =>
         _ <~ engine_commit_batch (mkBatch txn_id ((λ p, OpPut 0 p.2) <$> prepared)) ;;
         _ <~ update_collection_index collection ((λ p, (Some p.1, Some p.2)) <$> prepared) ;;
         se_ret (foldl (λ res p, count_updated (rec_id p.2) res) result_empty prepared)
     end).

Definition delete_records (collection : string) (filter : option Filter) (txn_id : TxnId)
  : EngineOp MutationResult :=
  _ <~ (λ i, lift (schema_for i collection) i) ;;
  olds <~ se_get (λ i, targets i collection filter) ;;
  _ <~ (λ i, lift (for_each (inbound_link_check i collection) olds) i) ;;
  match olds with
  | [] => se_ret result_empty
  | _ :: _ =>
      _ <~ engine_commit_batch
             (mkBatch txn_id ((λ r, OpDelete 0 collection (rec_id r)) <$> olds)) ;;
      _ <~ update_collection_index collection ((λ r, (Some r, None)) <$> olds) ;;
      se_ret (foldl (λ res r, count_deleted (rec_id r) res) result_empty olds)
  end.

Definition apply_mutation (mutation : Mutation) : EngineOp MutationResult :=
  let txn_id := txn_auto in
  result <~ match mutation with
            | MInsert c fields => write_records c [fields] WInsert txn_id
            | MUpsert c fields => write_records c [fields] WUpsert txn_id
            | MBulkInsert c records => write_records c records WInsert txn_id
            | MUpdate c filter set => update_records c filter set txn_id
            | MDelete c filter => delete_records c filter txn_id
            end ;;
  _ <~ se_modify (refresh_stats_row_count (mutation_collection mutation)) ;;
  se_ret result.

(** ** The transaction registry *)

Definition begin_with_connection (connection_id : option N) : SE (Inner L) Fault Transaction := λ i,
  let read_ts := st_last_commit_ts (in_storage i) in
  let id := in_clock i in
  let i := set_clock (wrap64 (in_clock i + 1)) i in
  let now := in_now i in
  let i := set_txns (bt_insert id (mkEntry read_ts now now connection_id TActive) (in_txns i)) i in
  (i, Ok (begin_at id read_ts)).

Definition touch_txn (id : N) : EngineOp unit := λ i,
  match bt_get id (in_txns i) with
  | Some entry =>
      match te_state entry with
      | TActive =>
          (set_txns (bt_insert id (mkEntry (te_read_ts entry) (te_started_at entry) (in_now i)
                                     (te_connection_id entry) TActive) (in_txns i)) i, Ok tt)
      | TTimedOut => (i, Err (Failed ETransactionTimeout))
      end
  | None => (i, Ok tt)
  end.

Definition expired (now timeout : N) (entry : TxnEntry) : bool :=
  bool_decide (te_state entry = TActive) && (timeout <=? now - te_last_activity entry).

Definition time_out (entry : TxnEntry) : TxnEntry :=
  mkEntry (te_read_ts entry) (te_started_at entry) (te_last_activity entry)
    (te_connection_id entry) TTimedOut.

Definition reap_transactions i : Inner L * nat :=
  if in_timeout_secs i =? 0 then (i, 0%nat)
  else
    let dead := expired (in_now i) (in_timeout_secs i) in
    let reaped := length (List.filter dead (bt_values (in_txns i))) in
    let txns := (λ '(id, e), (id, if dead e then time_out e else e)) <$> in_txns i in
    (set_timeouts_total (in_timeouts_total i + N.of_nat reaped) (set_txns txns i), reaped).

Definition oldest_active_read_ts i : option N :=
  foldr (λ e acc, if bool_decide (te_state e = TActive)
                  then Some (match acc with Some m => N.min (te_read_ts e) m
                                          | None => te_read_ts e end)
                  else acc) None (bt_values (in_txns i)).

Definition gc_cutoff i : N :=
  match oldest_active_read_ts i with
  | Some ts => ts
  | None => st_last_commit_ts (in_storage i)
  end.

Definition engine_gc i : Inner L * GcReport :=
  let '(s, report) := gc (gc_cutoff i) (in_gc_min_retained i) (in_storage i) in
  (set_storage s i, report).

Definition gc_dry_run i : GcReport :=
  gc_preview (in_storage i) (gc_cutoff i) (in_gc_min_retained i).

(** ** Staging *)

(** Staging mutates the transaction; what was staged before an error stays. *)
Abbreviation StageOp A := (SE (Inner L * Transaction) Fault A) (only parsing).

Definition on_inner {A} (op : EngineOp A) : StageOp A := λ '(i, t),
  let '(i, r) := op i in ((i, t), r).

Definition on_txn (f : Transaction → Transaction) : StageOp unit := λ '(i, t), ((i, f t), Ok tt).

Definition stage_insert (schema : CollectionSchema) (collection : string) (fields : Document)
  : StageOp (bool * RecordId) :=
  _ <~ on_inner (lift (validate_record schema fields)) ;;
  fallback <~ on_inner next_id ;;
  id <~ on_inner (lift (record_id_for schema fields fallback)) ;;
  existing <~ se_get (λ '(i, t), txn_get i t collection id) ;;
  _ <~ on_inner (λ i, lift (referential_check i schema fields) i) ;;
  _ <~ on_txn (λ t, stage_put (mkRec id collection fields 0 (tx_id t)) (rec_version <$> existing) t) ;;
  se_ret (bool_decide (is_Some existing), id).

Fixpoint stage_bulk (schema : CollectionSchema) (collection : string) (docs : list Document)
    (result : MutationResult) : StageOp MutationResult :=
  match docs with
  | [] => se_ret result
  | fields :: rest =>
      r <~ stage_insert schema collection fields ;;
      stage_bulk schema collection rest (count_inserted r.2 result)
  end.

Definition stage_update (schema : CollectionSchema) (collection : string) (set : Document)
    (old : Rec) : StageOp unit :=
  let fields := merge_fields (rec_fields old) set in
  _ <~ on_inner (lift (validate_record schema fields)) ;;
  _ <~ on_inner (λ i, lift (referential_check i schema fields) i) ;;
  on_txn (λ t, stage_put (mkRec (rec_id old) collection fields 0 (tx_id t))
                 (Some (rec_version old)) t).

Fixpoint stage_updates (schema : CollectionSchema) (collection : string) (set : Document)
    (olds : list Rec) (result : MutationResult) : StageOp MutationResult :=
  match olds with
  | [] => se_ret result
  | old :: rest =>
      _ <~ stage_update schema collection set old ;;
      stage_updates schema collection set rest (count_updated (rec_id old) result)
  end.

Definition stage_deletes (collection : string) (olds : list Rec) (t : Transaction) : Transaction :=
  foldl (λ t old, stage_delete collection (rec_id old) (Some (rec_version old)) t) t olds.

Definition txn_targets i (t : Transaction) (collection : string) (filter : option Filter)
  : list Rec :=
  List.filter (selected filter) (overlay_scan i t collection).

Definition stage_mutation (mutation : Mutation) : StageOp MutationResult :=
  let collection := mutation_collection mutation in
  schema <~ on_inner (λ i, lift (schema_for i collection) i) ;;
  match mutation with
  | MInsert _ fields | MUpsert _ fields =>
      r <~ stage_insert schema collection fields ;;
      se_ret (if r.1 then count_updated r.2 result_empty else count_inserted r.2 result_empty)
  | MBulkInsert _ records => stage_bulk schema collection records result_empty
  | MUpdate _ filter set =>
      olds <~ se_get (λ '(i, t), txn_targets i t collection filter) ;;
      stage_updates schema collection set olds result_empty
  | MDelete _ filter =>
      olds <~ se_get (λ '(i, t), txn_targets i t collection filter) ;;
      _ <~ on_txn (stage_deletes collection olds) ;;
      se_ret (foldl (λ res r, count_deleted (rec_id r) res) result_empty olds)
  end.

Definition stage (mutation : Mutation) : StageOp MutationResult :=
  _ <~ (λ '(i, t), on_inner (touch_txn (tx_id t)) (i, t)) ;;
  stage_mutation mutation.

(** ** Commit *)

(** Step 1: a record of the write set has a version newer than the snapshot. *)
Definition write_conflict i (read_ts : N) (key : string * N) : bool :=
  match rm_latest_commit_ts (records_of i) key.1 key.2 with
  | Some latest => read_ts <? latest
  | None => false
  end.

(** Step 2, for one staged operation: the operation to log and the index update. *)
Definition validate_op i (txn_id : TxnId) (key : string * N) (op : StagedOp)
  : Res (LogOp * (option Rec * option Rec)) :=
  let existing := rm_get (records_of i) key.1 key.2 in
  match op with
  | SPut record =>
      let? schema := schema_for i key.1 in
      let? _ := referential_check i schema (rec_fields record) in
      let? _ := match in_indexes i !! key.1 with
                | Some ci => check_unique ci record (rec_id <$> existing)
                | None => Ok tt
                end in
      let version := match existing with Some r => rec_version r + 1 | None => 1 end in
      let record := mkRec (rec_id record) (rec_collection record) (rec_fields record)
                      version txn_id in
      Ok (OpPut 0 record, (existing, Some record))
  | SDelete =>
      let? _ := match existing with
                | Some r => inbound_link_check i key.1 r
                | None => Ok tt
                end in
      Ok (OpDelete 0 key.1 key.2, (existing, None))
  end.

Fixpoint validate_ops i (txn_id : TxnId) (ops : list ((string * N) * StagedOp))
  : Res (list (LogOp * (option Rec * option Rec))) :=
  match ops with
  | [] => Ok []
  | (key, op) :: rest =>
      let? x := validate_op i txn_id key op in
      let? xs := validate_ops i txn_id rest in
      Ok (x :: xs)
  end.

Definition commit_transaction (t : Transaction) : EngineOp unit := λ i,
  if existsb (write_conflict i (tx_read_ts t)) (bt_keys (tx_staged t))
  then (i, Err (Failed EConflict))
  else match validate_ops i (tx_id t) (tx_staged t) with
       | Err e => (i, Err (Failed e))
       | Ok [] => (i, Ok tt)
       | Ok ((_ :: _) as validated) =>
           (_ <~ engine_commit_batch (mkBatch (tx_id t) validated.*1) ;;
            apply_deltas validated.*2 ∅) i
       end.

Definition unregister (id : N) i : Inner L := set_txns (bt_remove id (in_txns i)) i.

Definition commit (t : Transaction) : EngineOp unit := λ i,
  let id := tx_id t in
  match te_state <$> bt_get id (in_txns i) with
  | Some TTimedOut => (unregister id i, Err (Failed ETransactionTimeout))
  | _ =>
      match commit_transaction t i with
      | (i, Err Panicked) => (i, Err Panicked)
      | (i, r) => (unregister id i, r)
      end
  end.

Definition rollback (t : Transaction) i : Inner L := unregister (tx_id t) i.

(** ** Schemas *)

(** [create_schema]: the catalogue is written before the indexes are rebuilt. *)
Definition create_schema (schema : CollectionSchema) : EngineOp unit := λ i,
  match validate_definition schema with
  | Err e => (i, Err (Failed e))
  | Ok _ =>
      let name := cs_name schema in
      match put_schema schema (in_storage i) with
      | (s, Err e) => (set_storage s i, Err (Failed e))
      | (s, Ok _) =>
          let i := set_storage s i in
          let records := rm_scan (records_of i) name in
          match rebuild records (from_schema schema) with
          | (_, Err e) => (i, Err (Failed e))
          | (ci, Ok _) =>
              let i := set_indexes (<[name := ci]> (in_indexes i)) i in
              (set_row_counts (<[name := length records]> (in_row_counts i)) i, Ok tt)
          end
      end
  end.

Definition engine_drop_schema (name : string) : EngineOp unit := λ i,
  match drop_schema name (in_storage i) with
  | (s, Err e) => (set_storage s i, Err (Failed e))
  | (s, Ok _) => (set_indexes (delete name (in_indexes i)) (set_storage s i), Ok tt)
  end.

(** ** Opening *)

(** The indexes of the catalogued collections: a valid persisted snapshot where
    [loaded] has one, otherwise rebuilt from the live records. *)
Fixpoint open_indexes (s : Storage) (loaded : string → option CollectionIndexes)
    (schemas : list CollectionSchema) (indexes : gmap string CollectionIndexes)
  : Res (gmap string CollectionIndexes) :=
  match schemas with
  | [] => Ok indexes
  | schema :: rest =>
      let name := cs_name schema in
      let? ci := match loaded name with
                 | Some ci => Ok ci
                 | None => (match rebuild (rm_scan (st_records s) name) (from_schema schema) with
                            | (ci, Ok _) => Ok ci
                            | (_, Err e) => Err e
                            end)
                 end in
      open_indexes s loaded rest (<[name := ci]> indexes)
  end.

Definition engine_open (s : Storage) (loaded : string → option CollectionIndexes)
    (row_counts : gmap string nat) (now timeout : N) (gc_min : nat) : Res (Inner L) :=
  let clock := st_max_txn_id s + 1 in
  let? indexes := open_indexes s loaded (bt_values (cat_schemas (st_catalog s))) ∅ in
  Ok (mkInner s indexes clock [] now timeout 0 (Nat.max gc_min 1) row_counts None).
End engine.
