(* ===== verification/EngineSpec.v ===== *)
(** * What the engine promises to transactions

    Snapshot isolation as the engine implements it: an active transaction keeps
    reading the state it began with, whatever other requests, garbage collections,
    replicated batches and timeouts happen in between; its own writes are overlaid;
    and of two concurrent transactions that write the same record only the first to
    commit succeeds.  At the end, what every request has in common: it commits through
    one function. *)

From S2P Require Import Prelude BTree Text Framing Value Core Eval Index Mvcc Storage.
From S2P Require Import StorageRecovery StorageSpec Txn Engine.

Local Open Scope N_scope.

(** The part of the storage invariant the engine relies on. *)
Definition store_ok (s : Storage) : Prop :=
  rm_wf (st_records s) ∧ rm_below (st_last_commit_ts s) (st_records s).

(** [s'] is a later state of the store in which a snapshot at [ts] reads the same and
    a record changed behind [ts] still shows it. *)
Record keeps (ts : N) (s s' : Storage) : Prop := {
  kp_ok : store_ok s → store_ok s';
  kp_watermark : st_last_commit_ts s <= st_last_commit_ts s';
  kp_reads : store_ok s → ts <= st_last_commit_ts s → ∀ c id,
    rm_get_as_of (st_records s') c id ts = rm_get_as_of (st_records s) c id ts;
  kp_newer : store_ok s → ts <= st_last_commit_ts s → ∀ c id l,
    rm_latest_commit_ts (st_records s) c id = Some l → ts < l →
    ∃ l', rm_latest_commit_ts (st_records s') c id = Some l' ∧ ts < l';
}.

#[export] Instance keeps_refl ts : Reflexive (keeps ts).
Proof. intros s. split; eauto; lia. Qed.

#[export] Instance keeps_trans ts : Transitive (keeps ts).
Proof.
  intros s1 s2 s3 H1 H2. split.
  - intros Hok. by apply (kp_ok _ _ _ H2), (kp_ok _ _ _ H1).
  - pose proof (kp_watermark _ _ _ H1). pose proof (kp_watermark _ _ _ H2). lia.
  - intros Hok Hts c id. pose proof (kp_watermark _ _ _ H1).
    rewrite (kp_reads _ _ _ H2) by (first [by apply (kp_ok _ _ _ H1)|lia]).
    by apply (kp_reads _ _ _ H1).
  - intros Hok Hts c id l Hl Hlt. pose proof (kp_watermark _ _ _ H1).
    destruct (kp_newer _ _ _ H1 Hok Hts _ _ _ Hl Hlt) as (l' & Hl' & Hlt').
    apply (kp_newer _ _ _ H2) with l'; [by apply (kp_ok _ _ _ H1)|lia|done..].
Qed.

(** The same for one collection. *)
Record keeps_in (c : string) (ts : N) (s s' : Storage) : Prop := {
  ki_ok : store_ok s → store_ok s';
  ki_watermark : st_last_commit_ts s <= st_last_commit_ts s';
  ki_reads : store_ok s → ts <= st_last_commit_ts s → ∀ id,
    rm_get_as_of (st_records s') c id ts = rm_get_as_of (st_records s) c id ts;
  ki_newer : store_ok s → ts <= st_last_commit_ts s → ∀ id l,
    rm_latest_commit_ts (st_records s) c id = Some l → ts < l →
    ∃ l', rm_latest_commit_ts (st_records s') c id = Some l' ∧ ts < l';
}.

Lemma keeps_each c ts s s' : keeps ts s s' → keeps_in c ts s s'.
Proof.
  intros [Hok Hw Hr Hn]. split; [done|done|intros Hs Ht id; by apply Hr|].
  intros Hs Ht id l. by apply Hn.
Qed.

#[export] Instance keeps_in_refl c ts : Reflexive (keeps_in c ts).
Proof. intros s. by apply keeps_each. Qed.

#[export] Instance keeps_in_trans c ts : Transitive (keeps_in c ts).
Proof.
  intros s1 s2 s3 H1 H2. split.
  - intros Hok. by apply (ki_ok _ _ _ _ H2), (ki_ok _ _ _ _ H1).
  - pose proof (ki_watermark _ _ _ _ H1). pose proof (ki_watermark _ _ _ _ H2). lia.
  - intros Hok Hts id. pose proof (ki_watermark _ _ _ _ H1).
    rewrite (ki_reads _ _ _ _ H2) by (first [by apply (ki_ok _ _ _ _ H1)|lia]).
    by apply (ki_reads _ _ _ _ H1).
  - intros Hok Hts id l Hl Hlt. pose proof (ki_watermark _ _ _ _ H1).
    destruct (ki_newer _ _ _ _ H1 Hok Hts _ _ Hl Hlt) as (l' & Hl' & Hlt').
    apply (ki_newer _ _ _ _ H2) with l'; [by apply (ki_ok _ _ _ _ H1)|lia|done..].
Qed.

Section storage_keeps.
Context `{StorageCodec}.

Lemma log_and_apply_ok batch ts s :
  store_ok s → st_last_commit_ts s < ts → store_ok (log_and_apply batch ts s).
Proof.
  intros [Hwf Hb] Hlt. split; simpl; [by apply rm_wf_apply_ops|].
  eapply rm_below_apply_ops; [exact Hb|lia|].
  eapply Forall_impl; [apply (stamped_ts batch ts)|]. intros op ->. lia.
Qed.

Lemma latest_after_commit batch ts s c id :
  store_ok s → st_last_commit_ts s < ts →
  rm_latest_commit_ts (st_records (log_and_apply batch ts s)) c id =
    match last_op_on c id (b_ops batch) with
    | Some _ => Some ts
    | None => rm_latest_commit_ts (st_records s) c id
    end.
Proof.
  intros [_ Hb] Hlt. unfold rm_latest_commit_ts. simpl. unfold apply_batch.
  rewrite (chain_of_apply_stamped _ _ ts); [| |apply (stamped_ts batch ts)].
  - simpl. rewrite last_op_on_stamped. destruct (last_op_on c id (b_ops batch)) as [op|]; [|done].
    simpl. unfold latest. rewrite last_snoc. by destruct op.
  - intros chain Hc. eapply Forall_impl; [by eapply Hb|]. simpl. lia.
Qed.

Lemma log_and_apply_keeps ts batch cts s :
  st_last_commit_ts s < cts → keeps ts s (log_and_apply batch cts s).
Proof.
  intros Hlt. split.
  - intros Hok. by apply log_and_apply_ok.
  - simpl. lia.
  - intros Hok Hts c id. apply log_and_apply_snapshot. lia.
  - intros Hok Hts c id l Hl Hll. rewrite latest_after_commit by done.
    destruct (last_op_on _ _ _); [exists cts|exists l]; split; done || lia.
Qed.

Lemma commit_batch_keeps ts batch s : keeps ts s (commit_batch batch s).1.
Proof.
  unfold commit_batch. destruct (b_ops batch) as [|op ops]; [done|].
  apply log_and_apply_keeps. lia.
Qed.

Lemma same_records_keeps ts s s' :
  st_records s' = st_records s → st_last_commit_ts s <= st_last_commit_ts s' → keeps ts s s'.
Proof.
  intros Hr Hw. split; [|done|by rewrite Hr|rewrite Hr; eauto].
  intros [Hwf Hb]. split; [by rewrite Hr|]. rewrite Hr. intros c id chain Hc.
  eapply Forall_impl; [by eapply Hb|]. simpl. lia.
Qed.

Lemma apply_committed_keeps ts batch cts s : keeps ts s (apply_committed_batch batch cts s).
Proof.
  unfold apply_committed_batch. case_if; bool_to_prop; [done|].
  destruct (b_ops batch); [|by apply log_and_apply_keeps].
  apply same_records_keeps; [done|]. simpl. lia.
Qed.

(** A collection keeps every record whose latest version is behind the cutoff. *)
Lemma gc_latest cutoff keep r c id l :
  rm_wf r → rm_latest_commit_ts r c id = Some l → cutoff < l →
  rm_latest_commit_ts (rm_gc cutoff keep r) c id = Some l.
Proof.
  intros Hr Hl Hlt. unfold rm_latest_commit_ts in *. rewrite chain_of_gc by done.
  destruct (chain_of r c id) as [chain|] eqn:E; [|done]. simpl in *.
  apply (chain_of_wf r c id chain Hr) in E as (_ & Hne & _).
  unfold gc_chain. replace (fully_dead cutoff chain) with false.
  - simpl. unfold latest in *. by rewrite last_pruned.
  - unfold fully_dead. unfold latest in Hl. destruct (last chain) as [v|]; [|done].
    injection Hl as Hv. destruct (v_value v); [done|]. symmetry. apply N.leb_gt. lia.
Qed.

Lemma gc_keeps ts cutoff n s : cutoff <= ts → keeps ts s (gc cutoff n s).1.
Proof.
  intros Hle. split.
  - intros [Hwf Hb]. rewrite gc_state. unfold rewrite_segment. split; simpl; [by apply rm_wf_gc|].
    intros c id chain. rewrite chain_of_gc by done.
    destruct (chain_of (st_records s) c id) as [ch|] eqn:E; simpl; [|done].
    unfold gc_chain. destruct (fully_dead cutoff ch); [done|]. intros [= <-].
    by eapply Forall_drop, Hb.
  - rewrite gc_state. done.
  - intros [Hwf _] _ c id. rewrite gc_records. by apply gc_get_as_of.
  - intros [Hwf _] _ c id l Hl Hlt. exists l. rewrite gc_records.
    split; [|done]. apply gc_latest; [done..|]. lia.
Qed.

Lemma put_schema_keeps ts schema s : keeps ts s (put_schema schema s).1.
Proof.
  unfold put_schema. destruct (validate_definition schema); [|done].
  assert (Hch : ∀ c id, chain_of (bt_alter (λ m, default [] m) (cs_name schema) (st_records s)) c id
                        = chain_of (st_records s) c id) by (intros c id; apply chain_of_ensure).
  split; simpl.
  - intros [Hwf Hb]. split; simpl; [by apply rm_wf_ensure|].
    intros c id chain. rewrite Hch. apply Hb.
  - done.
  - intros _ _ c id. unfold rm_get_as_of. by rewrite Hch.
  - intros _ _ c id l. unfold rm_latest_commit_ts. rewrite Hch. eauto.
Qed.
Lemma compact_keeps ts s : keeps ts s (compact_storage s).1.
Proof. by apply same_records_keeps. Qed.

Lemma chain_of_remove name (r : list (string * list (N * list Version))) c id :
  rm_wf r → chain_of (bt_remove name r) c id = if decide (name = c) then None else chain_of r c id.
Proof.
  intros [Hb _]. unfold chain_of. case_decide as E; [subst; by rewrite bt_get_remove_eq|].
  by rewrite bt_get_remove_ne.
Qed.

Lemma rm_wf_remove name (r : list (string * list (N * list Version))) : rm_wf r → rm_wf (bt_remove name r).
Proof.
  intros [Hb Hi]. split; [by apply bt_wf_remove|]. intros c m.
  destruct (decide (name = c)) as [<-|Hne]; [by rewrite bt_get_remove_eq|].
  rewrite bt_get_remove_ne by done. apply Hi.
Qed.

(** Dropping a collection: the store stays right, and other collections are kept. *)
Lemma drop_schema_ok name s :
  store_ok s → store_ok (drop_schema name s).1 ∧
  st_last_commit_ts s <= st_last_commit_ts (drop_schema name s).1.
Proof.
  intros Hok. unfold drop_schema. destruct (get_schema s name); [|done].
  set (s1 := match live_ids s name with [] => s | _ => _ end).
  assert (Hk : keeps 0 s s1) by (unfold s1; destruct (live_ids s name); [done|apply commit_batch_keeps]).
  destruct (kp_ok _ _ _ Hk Hok) as [Hwf Hb]. split; [|exact (kp_watermark _ _ _ Hk)].
  split; simpl; [by apply rm_wf_remove|]. intros c' id chain. rewrite chain_of_remove by done.
  case_decide; [done|]. apply Hb.
Qed.

Lemma drop_schema_keeps_in name c ts s : name ≠ c → keeps_in c ts s (drop_schema name s).1.
Proof.
  intros Hne. unfold drop_schema. destruct (get_schema s name) eqn:Eg; [|done].
  set (s1 := match live_ids s name with [] => s | _ => _ end).
  assert (Hk : keeps ts s s1) by (unfold s1; destruct (live_ids s name); [done|apply commit_batch_keeps]).
  assert (Hch : ∀ id, store_ok s → chain_of (bt_remove name (st_records s1)) c id = chain_of (st_records s1) c id).
  { intros id Hok. destruct (kp_ok _ _ _ Hk Hok) as [Hwf _]. rewrite chain_of_remove by done. by case_decide. }
  split.
  - intros Hok. pose proof (drop_schema_ok name s Hok) as [Hd _]. revert Hd. unfold drop_schema. by rewrite Eg.
  - exact (kp_watermark _ _ _ Hk).
  - intros Hok Hts id. unfold rm_get_as_of. simpl. rewrite Hch by done. by apply (kp_reads _ _ _ Hk).
  - intros Hok Hts id l Hl Hlt. unfold rm_latest_commit_ts at 1. simpl. rewrite Hch by done.
    by apply (kp_newer _ _ _ Hk Hok Hts c id l).
Qed.
End storage_keeps.

(** ** Requests *)

Section requests.
Context `{Unicode, JsonText, StorageCodec}.
Context {L : Type} `{ReplicatedLog L}.
Implicit Types (i : Inner L) (t : Transaction).

(** A request that leaves the registry of transactions alone. *)
Definition ekeeps (ts : N) i i' : Prop :=
  keeps ts (in_storage i) (in_storage i') ∧ in_txns i' = in_txns i.

#[local] Instance ekeeps_refl ts : Reflexive (ekeeps ts).
Proof. by split. Qed.
#[local] Instance ekeeps_trans ts : Transitive (ekeeps ts).
Proof. intros i1 i2 i3 [Ha Ta] [Hb Tb]. split; [by etrans|congruence]. Qed.

Lemma ekeeps_same ts i i' :
  in_storage i' = in_storage i → in_txns i' = in_txns i → ekeeps ts i i'.
Proof. intros Hs Ht. split; [by rewrite Hs|done]. Qed.

Lemma lift_keeps {A} ts (r : Res A) i : ekeeps ts i (lift r i).1.
Proof. by destruct r. Qed.

Lemma next_id_keeps ts i : ekeeps ts i (next_id i).1.
Proof. by apply ekeeps_same. Qed.

Lemma engine_commit_batch_keeps ts batch i : ekeeps ts i (engine_commit_batch batch i).1.
Proof.
  unfold engine_commit_batch. destruct (in_cluster i) as [log|].
  - destruct (log_replicate batch log) as [log' [index|e]]; [|by apply ekeeps_same].
    split; [|done]. apply apply_committed_keeps.
  - pose proof (commit_batch_keeps ts batch (in_storage i)) as Hk.
    destruct (commit_batch batch (in_storage i)) as [s cts]. by split.
Qed.

Lemma check_index_keeps ts c i (f : CollectionIndexes → Res unit) :
  ekeeps ts i (match in_indexes i !! c with
               | None => (i, Err Panicked)
               | Some ci => lift (f ci) i
               end).1.
Proof. destruct (in_indexes i !! c); [apply lift_keeps|done]. Qed.

Lemma update_collection_index_keeps ts c deltas i :
  ekeeps ts i (update_collection_index c deltas i).1.
Proof. unfold update_collection_index. destruct (in_indexes i !! c); [|done]. by apply ekeeps_same. Qed.

(** Run through the steps of a request. *)
Ltac walk :=
  repeat first
    [ done
    | apply lift_keeps | apply next_id_keeps | apply engine_commit_batch_keeps
    | apply update_collection_index_keeps | apply check_index_keeps
    | apply se_bind_rel; [apply _| |intros]
    | match goal with |- ekeeps _ _ ((if ?b then _ else _) _).1 => destruct b end ].

Lemma prepare_record_keeps ts schema c mode txn fields pending i :
  ekeeps ts i (prepare_record schema c mode txn fields pending i).1.
Proof. unfold prepare_record. walk. Qed.

Lemma prepare_records_keeps ts schema c mode txn docs : ∀ pending i,
  ekeeps ts i (prepare_records schema c mode txn docs pending i).1.
Proof.
  induction docs as [|fields docs IH]; intros pending i; simpl; [done|].
  apply se_bind_rel; [apply _|apply prepare_record_keeps|intros p i' _].
  apply se_bind_rel; [apply _|apply IH|done].
Qed.

Lemma write_records_keeps ts c docs mode txn i : ekeeps ts i (write_records c docs mode txn i).1.
Proof.
  unfold write_records. apply se_bind_rel; [apply _|walk|intros schema i1 _].
  apply se_bind_rel; [apply _|apply prepare_records_keeps|intros prepared i2 _]. walk.
Qed.

Lemma prepare_updates_keeps ts schema c set txn olds : ∀ i,
  ekeeps ts i (prepare_updates schema c set txn olds i).1.
Proof.
  induction olds as [|old olds IH]; intros i; simpl; [done|].
  apply se_bind_rel; [apply _|unfold prepare_update; walk|intros p i' _].
  apply se_bind_rel; [apply _|apply IH|done].
Qed.

Lemma update_records_keeps ts c filter set txn i : ekeeps ts i (update_records c filter set txn i).1.
Proof.
  unfold update_records. apply se_bind_rel; [apply _|walk|intros schema i1 _]. case_if; [done|].
  apply se_bind_rel; [apply _|done|intros olds i2 _].
  apply se_bind_rel; [apply _|apply prepare_updates_keeps|intros prepared i3 _].
  destruct prepared; walk.
Qed.

Lemma delete_records_keeps ts c filter txn i : ekeeps ts i (delete_records c filter txn i).1.
Proof.
  unfold delete_records. do 3 (apply se_bind_rel; [apply _|walk|intros]).
  match goal with |- context [match ?l with [] => _ | _ :: _ => _ end] => destruct l end; walk.
Qed.

Lemma apply_mutation_keeps ts m i : ekeeps ts i (apply_mutation m i).1.
Proof.
  unfold apply_mutation. apply se_bind_rel; [apply _| |intros; walk; by apply ekeeps_same].
  destruct m; first [apply write_records_keeps|apply update_records_keeps|apply delete_records_keeps].
Qed.

Lemma apply_deltas_same deltas : ∀ affected i,
  let i' := (apply_deltas deltas affected i).1 in
  in_storage i' = in_storage i ∧ in_txns i' = in_txns i ∧ in_cluster i' = in_cluster i.
Proof.
  induction deltas as [|[old new] deltas IH]; intros affected i; simpl.
  - generalize (elements affected). intros l. revert i.
    induction l as [|c l IHl]; intros i; simpl; [done|].
    by destruct (IHl (refresh_stats_row_count c i)) as (-> & -> & ->).
  - destruct (delta_collection old new) as [c|]; [|done].
    by destruct (IH ({[c]} ∪ affected)
      (set_indexes (alter (update_index old new) c (in_indexes i)) i)) as (-> & -> & ->).
Qed.

Lemma apply_replicated_keeps ts batch index i :
  ekeeps ts i (apply_replicated_batch batch index i).1.
Proof.
  unfold apply_replicated_batch. case_if; [done|]. cbv zeta.
  destruct (apply_deltas_same (op_delta i <$> b_ops batch) ∅
    (set_storage (apply_committed_batch batch index (in_storage i)) i)) as (Hs & Ht & _).
  split; [rewrite Hs; apply apply_committed_keeps|by rewrite Ht].
Qed.

Lemma commit_transaction_keeps ts t i : ekeeps ts i (commit_transaction t i).1.
Proof.
  unfold commit_transaction. case_if; [done|].
  destruct (validate_ops i (tx_id t) (tx_staged t)) as [[|x xs]|e]; try done.
  apply se_bind_rel; [apply _|apply engine_commit_batch_keeps|intros cts i' _].
  edestruct apply_deltas_same as (Hs & Ht & _). apply ekeeps_same; [exact Hs|exact Ht].
Qed.

Lemma create_schema_keeps ts schema i : ekeeps ts i (create_schema schema i).1.
Proof.
  unfold create_schema. destruct (validate_definition schema); [|done].
  pose proof (put_schema_keeps ts schema (in_storage i)) as Hk.
  destruct (put_schema schema (in_storage i)) as [s [[]|e]]; [|by split].
  destruct (rebuild _ _) as [ci [[]|e]]; by split.
Qed.

(** Staging touches the clock and the transaction that stages, nothing else. *)
Definition skeeps (ts : N) (p p' : Inner L * Transaction) : Prop :=
  ekeeps ts p.1 p'.1 ∧ tx_id p'.2 = tx_id p.2 ∧ tx_read_ts p'.2 = tx_read_ts p.2.

#[local] Instance skeeps_refl ts : Reflexive (skeeps ts).
Proof. intros p. split; [apply ekeeps_refl|done]. Qed.
#[local] Instance skeeps_trans ts : Transitive (skeeps ts).
Proof.
  intros p1 p2 p3 (Ha & Ia & Ra) (Hb & Ib & Rb). split; [by etrans|]. split; congruence.
Qed.

Lemma on_inner_keeps {A} ts (op : SE (Inner L) Fault A) p :
  ekeeps ts p.1 (op p.1).1 → skeeps ts p (on_inner op p).1.
Proof. destruct p as [i t]. simpl. intros Hk. destruct (op i) as [i' r]. by split_and!. Qed.

Lemma on_txn_keeps ts (f : Transaction → Transaction) p :
  tx_id (f p.2) = tx_id p.2 → tx_read_ts (f p.2) = tx_read_ts p.2 → skeeps ts p (on_txn f p).1.
Proof. destruct p as [i t]. intros Hid Hts. split; [apply ekeeps_refl|done]. Qed.

Lemma stage_put_ids r v t :
  tx_id (stage_put r v t) = tx_id t ∧ tx_read_ts (stage_put r v t) = tx_read_ts t.
Proof. destruct (observe_same (rec_collection r, rec_id r) v t) as (_ & Ha & Hb). by split. Qed.

Lemma stage_deletes_ids c olds : ∀ t,
  tx_id (stage_deletes c olds t) = tx_id t ∧ tx_read_ts (stage_deletes c olds t) = tx_read_ts t.
Proof.
  unfold stage_deletes. induction olds as [|old olds IH]; intros t; simpl; [done|].
  destruct (IH (stage_delete c (rec_id old) (Some (rec_version old)) t)) as [-> ->].
  destruct (observe_same (c, rec_id old) (Some (rec_version old)) t) as (_ & Ha & Hb). by split.
Qed.

Ltac swalk :=
  repeat first
    [ done
    | apply on_inner_keeps; first [apply lift_keeps|apply next_id_keeps]
    | apply on_txn_keeps; apply stage_put_ids
    | apply se_bind_rel; [apply _| |intros] ].

Lemma stage_insert_keeps ts schema c fields p : skeeps ts p (stage_insert schema c fields p).1.
Proof. unfold stage_insert. swalk. Qed.

Lemma stage_bulk_keeps ts schema c docs : ∀ result p,
  skeeps ts p (stage_bulk schema c docs result p).1.
Proof.
  induction docs as [|fields docs IH]; intros result p; simpl; [done|].
  apply se_bind_rel; [apply _|apply stage_insert_keeps|intros r p' _; apply IH].
Qed.

Lemma stage_updates_keeps ts schema c set olds : ∀ result p,
  skeeps ts p (stage_updates schema c set olds result p).1.
Proof.
  induction olds as [|old olds IH]; intros result p; simpl; [done|].
  apply se_bind_rel; [apply _|unfold stage_update; swalk|intros r p' _; apply IH].
Qed.

Lemma stage_mutation_keeps ts m p : skeeps ts p (stage_mutation m p).1.
Proof.
  unfold stage_mutation. apply se_bind_rel; [apply _|swalk|intros schema p1 _].
  destruct m; simpl.
  - apply se_bind_rel; [apply _|apply stage_insert_keeps|by intros].
  - apply stage_bulk_keeps.
  - apply se_bind_rel; [apply _|done|intros olds p2 _]. apply stage_updates_keeps.
  - apply se_bind_rel; [apply _|done|intros olds p2 _].
    apply se_bind_rel; [apply _|apply on_txn_keeps; apply stage_deletes_ids|by intros].
  - apply se_bind_rel; [apply _|apply stage_insert_keeps|by intros].
Qed.

(** Staging keeps the write set a map from keys to records under their own keys. *)
Definition wkeeps (p p' : Inner L * Transaction) : Prop := txn_wf p.2 → txn_wf p'.2.

#[local] Instance wkeeps_refl : Reflexive wkeeps.
Proof. intros p. by unfold wkeeps. Qed.
#[local] Instance wkeeps_trans : Transitive wkeeps.
Proof. unfold wkeeps. intros p1 p2 p3. auto. Qed.

Lemma on_inner_wkeeps {A} (op : SE (Inner L) Fault A) p : wkeeps p (on_inner op p).1.
Proof. destruct p as [i t]. unfold wkeeps. simpl. by destruct (op i). Qed.

Lemma on_txn_wkeeps (f : Transaction → Transaction) p :
  (∀ t, txn_wf t → txn_wf (f t)) → wkeeps p (on_txn f p).1.
Proof. destruct p as [i t]. unfold wkeeps. simpl. auto. Qed.

Lemma stage_deletes_wf c olds : ∀ t, txn_wf t → txn_wf (stage_deletes c olds t).
Proof.
  unfold stage_deletes. induction olds as [|old olds IH]; intros t Ht; simpl; [done|].
  by apply IH, stage_delete_wf.
Qed.

Ltac wwalk :=
  repeat first
    [ apply on_inner_wkeeps
    | apply on_txn_wkeeps; intros; by apply stage_put_wf
    | apply se_bind_rel; [apply _| |intros]
    | reflexivity ].

Lemma stage_bulk_wkeeps schema c docs : ∀ result p, wkeeps p (stage_bulk schema c docs result p).1.
Proof.
  induction docs as [|fields docs IH]; intros result p; simpl; [reflexivity|].
  apply se_bind_rel; [apply _|unfold stage_insert; wwalk|intros r p' _; apply IH].
Qed.

Lemma stage_updates_wkeeps schema c set olds : ∀ result p,
  wkeeps p (stage_updates schema c set olds result p).1.
Proof.
  induction olds as [|old olds IH]; intros result p; simpl; [reflexivity|].
  apply se_bind_rel; [apply _|unfold stage_update; wwalk|intros r p' _; apply IH].
Qed.

Lemma stage_wf m i t : txn_wf t → txn_wf (stage m (i, t)).1.2.
Proof.
  change (wkeeps (i, t) (stage m (i, t)).1). unfold stage.
  apply se_bind_rel; [apply _|apply on_inner_wkeeps|intros [] p1 _]. unfold stage_mutation. apply se_bind_rel; [apply _|wwalk|intros schema p2 _].
  destruct m; simpl.
  - unfold stage_insert. wwalk.
  - apply stage_bulk_wkeeps.
  - apply se_bind_rel; [apply _|reflexivity|intros olds p3 _]. apply stage_updates_wkeeps.
  - apply se_bind_rel; [apply _|reflexivity|intros olds p3 _].
    apply se_bind_rel; [apply _|apply on_txn_wkeeps; apply stage_deletes_wf|intros; reflexivity].
  - unfold stage_insert. wwalk.
Qed.

(** ** The registry *)

(** A registered transaction that has not timed out, with its snapshot. *)
Definition active i (id ts : N) : Prop :=
  ∃ e, bt_get id (in_txns i) = Some e ∧ te_state e = TActive ∧ te_read_ts e = ts.

(** The registry is a map and no snapshot lies behind the watermark. *)
Record engine_ok i : Prop := {
  eo_store : store_ok (in_storage i);
  eo_txns : bt_wf (in_txns i);
  eo_reads : ∀ id e, bt_get id (in_txns i) = Some e →
    te_read_ts e <= st_last_commit_ts (in_storage i);
}.

Lemma oldest_active_le entries :
  ∀ e, e ∈ entries → te_state e = TActive →
  ∃ m, foldr (λ e acc, if bool_decide (te_state e = TActive)
                  then Some (match acc with Some m => N.min (te_read_ts e) m
                                          | None => te_read_ts e end)
                  else acc) None entries = Some m ∧ m <= te_read_ts e.
Proof.
  induction entries as [|x entries IH]; intros e He Ha; [set_solver|]. simpl.
  apply elem_of_cons in He as [->|He].
  - rewrite bool_decide_eq_true_2 by done. destruct (foldr _ _ _); eexists; split; done || lia.
  - destruct (IH e He Ha) as (m & -> & Hm). case_bool_decide; [|eauto].
    eexists. split; [done|]. lia.
Qed.

(** The horizon of a collection is never past an active snapshot. *)
Lemma gc_cutoff_le i id ts : active i id ts → gc_cutoff i <= ts.
Proof.
  intros (e & He & Ha & <-). unfold gc_cutoff, oldest_active_read_ts.
  apply bt_get_elem_of in He.
  destruct (oldest_active_le (bt_values (in_txns i)) e) as (m & -> & Hm); [|done|done].
  unfold bt_values. apply list_elem_of_fmap. by exists (id, e).
Qed.

Lemma active_read_le i id ts : engine_ok i → active i id ts → ts <= st_last_commit_ts (in_storage i).
Proof. intros Hok (e & He & _ & <-). by eapply eo_reads. Qed.

(** One request, background task or tick of the wall clock; [droppable] says which
    collections the run may drop.  Compaction and a rebuild of the indexes leave new
    statistics and indexes, which are advisory here.  A peer's snapshot is installed by
    schema changes and one replicated batch. *)
Inductive engine_step (droppable : string → Prop) : Inner L → Inner L → Prop :=
| es_mutation m i : engine_step droppable i (apply_mutation m i).1
| es_begin conn i : engine_step droppable i (begin_with_connection conn i).1
| es_read t i : engine_step droppable i (touch_txn (tx_id t) i).1
| es_stage t m i : engine_step droppable i (stage m (i, t)).1.1
| es_commit t i : engine_step droppable i (commit t i).1
| es_rollback t i : engine_step droppable i (rollback t i)
| es_reap i : engine_step droppable i (reap_transactions i).1
| es_gc i : engine_step droppable i (engine_gc i).1
| es_compact counts i :
    engine_step droppable i (set_row_counts counts (set_storage (compact_storage (in_storage i)).1 i))
| es_rebuild indexes i : engine_step droppable i (set_indexes indexes i)
| es_replicated batch index i : engine_step droppable i (apply_replicated_batch batch index i).1
| es_schema schema i : engine_step droppable i (create_schema schema i).1
| es_drop name i : droppable name → engine_step droppable i (engine_drop_schema name i).1
| es_clock now i : engine_step droppable i (set_now now i).

Lemma engine_ok_ekeeps i i' : engine_ok i → ekeeps 0 i i' → engine_ok i'.
Proof.
  intros [Hs Ht Hr] [Hk Heq]. split.
  - by apply (kp_ok _ _ _ Hk).
  - by rewrite Heq.
  - intros id e. rewrite Heq. intros He%Hr. pose proof (kp_watermark _ _ _ Hk). lia.
Qed.

(** A step that only changes the registry. *)
Lemma engine_ok_registry i i' :
  engine_ok i → in_storage i' = in_storage i → bt_wf (in_txns i') →
  (∀ id e, bt_get id (in_txns i') = Some e → te_read_ts e <= st_last_commit_ts (in_storage i)) →
  engine_ok i'.
Proof. intros [Hs _ _] Heq Hwf Hr. split; rewrite ?Heq; done. Qed.

Lemma touch_txn_ok id i : engine_ok i → engine_ok (touch_txn id i).1.
Proof.
  intros Hok. unfold touch_txn. destruct (bt_get id (in_txns i)) as [e|] eqn:E; [|done].
  destruct (te_state e); [|done]. apply (engine_ok_registry i); [done|done| |].
  - apply bt_wf_insert, Hok.
  - intros id' e'. simpl. rewrite bt_get_insert. case_decide; [|apply Hok].
    intros [= <-]. simpl. by apply (eo_reads _ Hok id).
Qed.

Lemma unregister_ok id i : engine_ok i → engine_ok (unregister id i).
Proof.
  intros Hok. apply (engine_ok_registry i); [done|done|apply bt_wf_remove, Hok|].
  intros id' e. simpl. destruct (decide (id = id')) as [->|Hne].
  - by rewrite bt_get_remove_eq by apply Hok.
  - rewrite bt_get_remove_ne by done. apply Hok.
Qed.

Lemma reaped_get (f : TxnEntry → TxnEntry) (m : list (N * TxnEntry)) id :
  bt_get id ((λ '(k, e), (k, f e)) <$> m) = f <$> bt_get id m.
Proof. induction m as [|[k e] m IH]; [done|]. simpl. destruct (id ?= k); [done|apply IH..]. Qed.

Lemma reap_ok i : engine_ok i → engine_ok (reap_transactions i).1.
Proof.
  intros Hok. unfold reap_transactions. case_if; [done|]. apply (engine_ok_registry i); [done|done| |].
  - simpl. unfold bt_wf, bt_keys. rewrite <- list_fmap_compose.
    erewrite list_fmap_ext; [apply Hok|]. by intros _ [k e] _.
  - intros id e. simpl. rewrite reaped_get. destruct (bt_get id (in_txns i)) as [e0|] eqn:E; [|done].
    intros [= <-]. apply (eo_reads _ Hok) in E. by case_if.
Qed.

Lemma commit_cases t i :
  (commit t i).1 = unregister (tx_id t) i ∨
  (commit t i).1 = unregister (tx_id t) (commit_transaction t i).1 ∨
  (commit t i).1 = (commit_transaction t i).1.
Proof.
  unfold commit. destruct (commit_transaction t i) as [i' [[]|[e|]]];
    destruct (te_state <$> _) as [[]|]; simpl; auto.
Qed.

Lemma engine_gc_storage i :
  in_storage (engine_gc i).1 = (gc (gc_cutoff i) (in_gc_min_retained i) (in_storage i)).1.
Proof. unfold engine_gc. by destruct (gc _ _ _). Qed.

Lemma touch_txn_storage id i : in_storage (touch_txn id i).1 = in_storage i.
Proof. unfold touch_txn. destruct (bt_get _ _) as [e|]; [|done]. by destruct (te_state e). Qed.

Lemma stage_keeps ts m t i : keeps ts (in_storage i) (in_storage (stage m (i, t)).1.1).
Proof.
  unfold stage, se_bind. simpl. pose proof (touch_txn_storage (tx_id t) i) as Heq.
  destruct (touch_txn (tx_id t) i) as [i1 [[]|e]]; simpl in *; [|by rewrite Heq].
  rewrite <- Heq. apply (stage_mutation_keeps ts m (i1, t)).
Qed.

Lemma commit_keeps ts t i : keeps ts (in_storage i) (in_storage (commit t i).1).
Proof. destruct (commit_cases t i) as [->|[->| ->]]; [done|..]; apply commit_transaction_keeps. Qed.

Lemma engine_drop_storage name i :
  in_storage (engine_drop_schema name i).1 = (drop_schema name (in_storage i)).1 ∧
  in_txns (engine_drop_schema name i).1 = in_txns i.
Proof. unfold engine_drop_schema. by destruct (drop_schema name (in_storage i)) as [s [[]|e]]. Qed.

(** Whatever the step, an active snapshot and what changed behind it are kept, in the
    collections that are not dropped. *)
Lemma step_keeps D c id ts i i' :
  ¬ D c → engine_step D i i' → active i id ts → keeps_in c ts (in_storage i) (in_storage i').
Proof.
  intros Hc Hs Ha. destruct Hs.
  - apply keeps_each, apply_mutation_keeps.
  - done.
  - by rewrite touch_txn_storage.
  - apply keeps_each, stage_keeps.
  - apply keeps_each, commit_keeps.
  - done.
  - unfold reap_transactions. by case_if.
  - apply keeps_each. rewrite engine_gc_storage. apply gc_keeps. by eapply gc_cutoff_le.
  - apply keeps_each, compact_keeps.
  - done.
  - apply keeps_each, apply_replicated_keeps.
  - apply keeps_each, create_schema_keeps.
  - rewrite (proj1 (engine_drop_storage name i)). apply drop_schema_keeps_in. by intros ->.
  - done.
Qed.

Lemma step_ok D i i' : engine_ok i → engine_step D i i' → engine_ok i'.
Proof.
  intros Hok Hs. destruct Hs.
  - by apply (engine_ok_ekeeps i), apply_mutation_keeps.
  - apply (engine_ok_registry i); [done|done|apply bt_wf_insert, Hok|].
    intros id e. simpl. rewrite bt_get_insert. case_decide; [|apply Hok]. by intros [= <-].
  - by apply touch_txn_ok.
  - unfold stage, se_bind. simpl. pose proof (touch_txn_ok (tx_id t) i Hok) as Ht.
    destruct (touch_txn (tx_id t) i) as [i1 [[]|e]]; [|done].
    apply (engine_ok_ekeeps i1); [done|]. apply (stage_mutation_keeps 0 m (i1, t)).
  - assert (Hc : engine_ok (commit_transaction t i).1)
      by (by apply (engine_ok_ekeeps i), commit_transaction_keeps).
    destruct (commit_cases t i) as [->|[->| ->]]; [by apply unregister_ok..|done].
  - by apply unregister_ok.
  - by apply reap_ok.
  - pose proof (gc_keeps (gc_cutoff i) (gc_cutoff i) (in_gc_min_retained i) (in_storage i)) as Hk.
    rewrite <- engine_gc_storage in Hk.
    assert (Ht : in_txns (engine_gc i).1 = in_txns i)
      by (unfold engine_gc; by destruct (gc _ _ _)).
    destruct (Hk ltac:(lia)) as [Hk1 Hk2 _ _]. split.
    + apply Hk1, Hok.
    + rewrite Ht. apply Hok.
    + intros id e. rewrite Ht. intros He%(eo_reads _ Hok). lia.
  - apply (engine_ok_ekeeps i); [done|]. split; [apply compact_keeps|done].
  - by apply (engine_ok_ekeeps i).
  - by apply (engine_ok_ekeeps i), apply_replicated_keeps.
  - by apply (engine_ok_ekeeps i), create_schema_keeps.
  - destruct (engine_drop_storage name i) as [Hst Ht].
    destruct (drop_schema_ok name (in_storage i) (eo_store _ Hok)) as [Hd Hw].
    split; rewrite ?Hst, ?Ht; [done|apply Hok|]. intros id e He%(eo_reads _ Hok). lia.
  - by apply (engine_ok_registry i); [..|apply Hok|apply Hok].
Qed.

(** Steps during which a transaction stays active. *)
Definition active_step (D : string → Prop) (id ts : N) i i' : Prop := engine_step D i i' ∧ active i id ts.

Lemma active_steps_keep D c id ts i i' :
  ¬ D c → engine_ok i → rtc (active_step D id ts) i i' →
  engine_ok i' ∧ keeps_in c ts (in_storage i) (in_storage i').
Proof.
  intros Hc Hok Hrun. revert Hok. induction Hrun as [i|i1 i2 i3 [Hs Ha] _ IH]; intros Hok; [done|].
  destruct IH as [Hok' Hk]; [by eapply step_ok|]. split; [done|].
  etrans; [by eapply step_keeps|done].
Qed.
End requests.

(** ** Properties *)

Section engine_properties.
Context `{Unicode, JsonText, StorageCodec}.
Context {L : Type} `{ReplicatedLog L}.
Implicit Types (i : Inner L) (t : Transaction).

(** Reads through an active transaction give the same answers after steps of others. *)
Lemma active_reads_kept D c t i i' :
  ¬ D c → engine_ok i → active i (tx_id t) (tx_read_ts t) →
  rtc (active_step D (tx_id t) (tx_read_ts t)) i i' →
  (∀ id, txn_get i' t c id = txn_get i t c id) ∧ overlay_scan i' t c = overlay_scan i t c.
Proof.
  intros Hc Hok Ha Hrun. destruct (active_steps_keep _ c _ _ _ _ Hc Hok Hrun) as [Hok' Hk].
  pose proof (active_read_le _ _ _ Hok Ha) as Hle.
  pose proof (ki_reads _ _ _ _ Hk (eo_store _ Hok) Hle) as Hr. split.
  - intros id. unfold txn_get, records_of. destruct (staged t (c, id)) as [[]|]; [done..|].
    apply Hr.
  - unfold overlay_scan, records_of. do 2 f_equal.
    apply scan_as_of_ext; [apply Hok'|apply Hok|]. intros id. apply Hr.
Qed.

(** C12: repeatable reads.  As long as a transaction stays registered and active, every
    point read and every scan of a collection through it gives the same answer, through
    any sequence of writes, commits, replicated batches, garbage collections, compactions,
    timeouts, schema changes and drops of other collections: only dropping the collection
    itself is left out, since that forgets its versions. *)
Theorem snapshot_reads_stable c t i i' :
  engine_ok i → active i (tx_id t) (tx_read_ts t) →
  rtc (active_step (λ name, name ≠ c) (tx_id t) (tx_read_ts t)) i i' →
  (∀ id, txn_get i' t c id = txn_get i t c id) ∧ overlay_scan i' t c = overlay_scan i t c.
Proof. apply active_reads_kept. intros Hne. by apply Hne. Qed.

(** A record of the write set that is newer than the snapshot refuses the commit. *)
Lemma commit_refused t i c id op l :
  bt_get (c, id) (tx_staged t) = Some op →
  rm_latest_commit_ts (records_of i) c id = Some l → tx_read_ts t < l →
  ∃ e, (commit t i).2 = Err (Failed e) ∧ (e = EConflict ∨ e = ETransactionTimeout).
Proof.
  intros Hop Hl Hlt. unfold commit, commit_transaction.
  assert (Hc : existsb (write_conflict i (tx_read_ts t)) (bt_keys (tx_staged t)) = true).
  { apply existsb_exists. exists (c, id). split.
    - apply list_elem_of_In. unfold bt_keys. apply list_elem_of_fmap.
      exists ((c, id), op). split; [done|]. by apply bt_get_elem_of.
    - unfold write_conflict. simpl. rewrite Hl. by apply N.ltb_lt. }
  rewrite Hc. destruct (te_state <$> _) as [[]|]; eauto.
Qed.

(** What a successful commit did to the store of a single node. *)
Lemma commit_single_node t i i' :
  in_cluster i = None → commit t i = (i', Ok tt) →
  existsb (write_conflict i (tx_read_ts t)) (bt_keys (tx_staged t)) = false ∧
  ∃ vs, validate_ops i (tx_id t) (tx_staged t) = Ok vs ∧
    in_storage i' = (commit_batch (mkBatch (tx_id t) vs.*1) (in_storage i)).1.
Proof.
  intros Hcl. unfold commit, commit_transaction.
  destruct (existsb _ _) eqn:Ec; [by destruct (te_state <$> _) as [[]|]|].
  intros Hco. split; [done|].
  destruct (validate_ops i (tx_id t) (tx_staged t)) as [[|v vs]|e] eqn:Ev;
    [| |by destruct (te_state <$> _) as [[]|]].
  - exists []. split; [done|]. simpl.
    destruct (te_state <$> _) as [[]|]; cbn in Hco; by simplify_eq.
  - exists (v :: vs). split; [done|].
    unfold se_bind, engine_commit_batch in Hco. rewrite Hcl in Hco.
    destruct (commit_batch (mkBatch (tx_id t) (v :: vs).*1) (in_storage i)) as [s cts].
    destruct (apply_deltas_same (v :: vs).*2 ∅ (set_storage s i)) as (Hs & _ & _).
    destruct (apply_deltas (v :: vs).*2 ∅ (set_storage s i)) as [i2 [[]|[e|]]];
      destruct (te_state <$> _) as [[]|]; by simplify_eq.
Qed.

(** The operation a staged write becomes when its checks pass. *)
Definition logged_op i (txn_id : TxnId) (key : string * N) (op : StagedOp) : LogOp :=
  match op with
  | SPut r =>
      OpPut 0 (mkRec (rec_id r) (rec_collection r) (rec_fields r)
                 (match rm_get (records_of i) key.1 key.2 with
                  | Some old => rec_version old + 1
                  | None => 1
                  end) txn_id)
  | SDelete => OpDelete 0 key.1 key.2
  end.

Lemma validate_op_logged i txn key op x :
  validate_op i txn key op = Ok x → x.1 = logged_op i txn key op.
Proof.
  unfold validate_op, logged_op. destruct op as [r|]; intros Hv.
  - res_inv. done.
  - res_inv. done.
Qed.

Lemma validate_ops_logged i txn m : ∀ vs,
  validate_ops i txn m = Ok vs → vs.*1 = (λ '(k, op), logged_op i txn k op) <$> m.
Proof.
  induction m as [|[key op] m IH]; intros vs Hv; simpl in Hv; [by injection Hv as <-|].
  res_inv. rewrite !fmap_cons. f_equal; [by eapply validate_op_logged|by apply IH].
Qed.

Lemma last_op_on_logged i txn m c id :
  bt_wf m → (∀ c id r, bt_get (c, id) m = Some (SPut r) → rec_collection r = c ∧ rec_id r = id) →
  last_op_on c id ((λ '(k, op), logged_op i txn k op) <$> m) =
    logged_op i txn (c, id) <$> bt_get (c, id) m.
Proof.
  intros Hwf Hp.
  assert (Hkey : ∀ k op, (k, op) ∈ m →
    op_collection (logged_op i txn k op) = k.1 ∧ op_id (logged_op i txn k op) = k.2).
  { intros [c' id'] op Hin. destruct op as [r|]; [|done]. simpl. apply (Hp c' id').
    by apply bt_elem_of_get. }
  clear Hp. unfold last_op_on. induction m as [|[[c' id'] op] m IH]; [done|].
  apply bt_wf_cons in Hwf as [Hlt Hwf]. rewrite fmap_cons. cbn [find_last].
  rewrite IH; [|done|intros k o Hin; apply Hkey; by right].
  destruct (Hkey (c', id') op) as [Hc Hi]; [by left|]. rewrite Hc, Hi. cbn [fst snd bt_get].
  destruct (kcompare (c, id) (c', id')) eqn:Ek.
  - apply kcompare_eq in Ek as [= -> ->]. rewrite (bt_get_None_below _ _ Hlt). cbn [fmap option_fmap option_map].
    by rewrite bool_decide_eq_true_2.
  - destruct (bt_get (c, id) m); simpl; [done|]. rewrite bool_decide_eq_false_2; [done|].
    intros [-> ->]. by rewrite kcompare_refl in Ek.
  - destruct (bt_get (c, id) m); simpl; [done|]. rewrite bool_decide_eq_false_2; [done|].
    intros [-> ->]. by rewrite kcompare_refl in Ek.
Qed.

Lemma validated_nil i txn m : validate_ops i txn m = Ok [] → m = [].
Proof. destruct m as [|[k op] m]; [done|]. simpl. intros Hv. by res_inv. Qed.

(** The store behind a successful commit, by its write set. *)
Lemma commit_stores t i i' :
  txn_wf t → engine_ok i → in_cluster i = None → commit t i = (i', Ok tt) →
  ∀ c id,
    rm_get (records_of i') c id =
      (match staged t (c, id) with
       | Some op => op_value (logged_op i (tx_id t) (c, id) op)
       | None => rm_get (records_of i) c id
       end) ∧
    rm_latest_commit_ts (records_of i') c id =
      (match staged t (c, id) with
       | Some _ => Some (st_last_commit_ts (in_storage i) + 1)
       | None => rm_latest_commit_ts (records_of i) c id
       end).
Proof.
  intros [Hwf Hp] Hok Hcl Hc c id.
  destruct (commit_single_node _ _ _ Hcl Hc) as (_ & vs & Hvs & Hst).
  pose proof (validate_ops_logged _ _ _ _ Hvs) as Hlog.
  pose proof (last_op_on_logged i (tx_id t) (tx_staged t) c id Hwf Hp) as Hlast.
  rewrite <- Hlog in Hlast. unfold records_of. rewrite Hst. unfold commit_batch. cbn [b_ops].
  destruct vs.*1 as [|op ops] eqn:Ev.
  - apply fmap_nil_inv in Ev as ->. apply validated_nil in Hvs. unfold staged. rewrite Hvs. done.
  - cbn [fst]. destruct (eo_store _ Hok) as [Hrw Hb].
    rewrite log_and_apply_get by (done || lia).
    rewrite latest_after_commit by (done || lia). cbn [b_ops]. rewrite Hlast. unfold staged.
    by destruct (bt_get (c, id) (tx_staged t)).
Qed.

(** C14: the effect of a commit.  On an engine without a replicated log, a transaction that
    commits installs exactly its write
    set, all of it at one new timestamp: staged records with the next version
    number and the transaction's id, staged deletions as absent, and every other
    record as it was. *)
Theorem commit_installs_write_set t i i' c id :
  txn_wf t → engine_ok i → in_cluster i = None → commit t i = (i', Ok tt) →
  rm_get (records_of i') c id =
    match staged t (c, id) with
    | Some (SPut r) =>
        Some (mkRec id c (rec_fields r)
                (match rm_get (records_of i) c id with
                 | Some old => rec_version old + 1
                 | None => 1
                 end) (tx_id t))
    | Some SDelete => None
    | None => rm_get (records_of i) c id
    end ∧
  rm_latest_commit_ts (records_of i') c id =
    match staged t (c, id) with
    | Some _ => Some (st_last_commit_ts (in_storage i) + 1)
    | None => rm_latest_commit_ts (records_of i) c id
    end.
Proof.
  intros Hwf Hok Hcl Hc. destruct (commit_stores _ _ _ Hwf Hok Hcl Hc c id) as [-> ->].
  split; [|done]. unfold staged. destruct (bt_get (c, id) (tx_staged t)) as [[r|]|] eqn:E; try done.
  apply (tw_placed _ Hwf) in E as [<- <-]. done.
Qed.

(** C6: first committer wins.  On an engine without a replicated log, when one of two
    concurrent transactions has committed a write to a record, the other, begun before that
    commit and still active, cannot commit a write to the same record any more, through any
    sequence of requests and background work in between that does not drop the record's
    collection (which would forget the versions the check compares): no update is lost. *)
Theorem no_lost_update t1 t2 i1 i2 i3 c id :
  txn_wf t1 → engine_ok i1 → in_cluster i1 = None →
  active i1 (tx_id t2) (tx_read_ts t2) →
  is_Some (staged t1 (c, id)) → is_Some (staged t2 (c, id)) →
  commit t1 i1 = (i2, Ok tt) →
  rtc (active_step (λ name, name ≠ c) (tx_id t2) (tx_read_ts t2)) i2 i3 →
  ∃ e, (commit t2 i3).2 = Err (Failed e) ∧ (e = EConflict ∨ e = ETransactionTimeout).
Proof.
  intros Hwf Hok Hcl Ha [op1 Hs1] [op2 Hs2] Hc Hrun.
  pose proof (active_read_le _ _ _ Hok Ha) as Hle.
  destruct (commit_stores _ _ _ Hwf Hok Hcl Hc c id) as [_ Hlatest]. rewrite Hs1 in Hlatest.
  assert (Hok2 : engine_ok i2) by (replace i2 with (commit t1 i1).1 by (by rewrite Hc);
    eapply step_ok, (es_commit (λ _, False)); done).
  pose proof (kp_watermark _ _ _ (commit_keeps 0 t1 i1)) as Hw. rewrite Hc in Hw. cbn [fst] in Hw.
  destruct (active_steps_keep (λ name, name ≠ c) c _ _ _ _ (λ Hne, Hne eq_refl) Hok2 Hrun) as [_ Hk].
  destruct (ki_newer _ _ _ _ Hk (eo_store _ Hok2) ltac:(lia) _ _ Hlatest ltac:(lia))
    as (l & Hl & Hlt).
  by eapply commit_refused.
Qed.

(** ** Reads through a transaction *)

Lemma scan_as_of_elem r c ts x :
  rm_wf r → x ∈ rm_scan_as_of r c ts ↔ rm_get_as_of r c (rec_id x) ts = Some x.
Proof.
  intros Hwf. unfold rm_scan_as_of, rm_get_as_of. rewrite chain_of_inner.
  destruct (inner_wf_of r c Hwf) as [Hb Hi]. rewrite list_elem_of_omap. split.
  - intros (chain & Hin & Hx). unfold bt_values in Hin.
    apply list_elem_of_fmap in Hin as ([k chain'] & -> & Hin). simpl in Hx.
    apply bt_elem_of_get in Hin; [|done].
    assert (Hk : rec_id x = k).
    { destruct (Hi _ _ Hin) as (_ & _ & Hp). rewrite Forall_forall in Hp.
      destruct (visible_at chain' ts) as [v|] eqn:Ev; [|done]. simpl in Hx.
      apply (Hp v); [|done]. unfold visible_at in Ev.
      apply find_last_Some in Ev as (l1 & l2 & -> & _). set_solver. }
    rewrite Hk, Hin. done.
  - destruct (bt_get (rec_id x) (inner r c)) as [chain|] eqn:E; [|done]. simpl. intros Hx.
    exists chain. split; [|done]. unfold bt_values. apply list_elem_of_fmap.
    exists (rec_id x, chain). split; [done|]. by apply bt_get_elem_of.
Qed.

Lemma get_as_of_placed r c id ts x :
  rm_wf r → rm_get_as_of r c id ts = Some x → rec_collection x = c ∧ rec_id x = id.
Proof.
  intros Hwf. unfold rm_get_as_of. destruct (chain_of r c id) as [chain|] eqn:E; [|done].
  apply (chain_of_wf _ _ _ _ Hwf) in E as (_ & _ & Hp). simpl.
  destruct (visible_at chain ts) as [v|] eqn:Ev; [|done]. simpl. intros Hx.
  unfold visible_at in Ev. apply find_last_Some in Ev as (l1 & l2 & -> & _).
  rewrite Forall_forall in Hp. apply (Hp v); set_solver.
Qed.

(** What a scan through a transaction returns. *)
Lemma overlay_scan_elem t i c r :
  engine_ok i → txn_wf t → rec_collection r = c →
  r ∈ overlay_scan i t c ↔ txn_get i t c (rec_id r) = Some r.
Proof.
  intros Hok [Hwf Hp] Hc. unfold overlay_scan, txn_get.
  rewrite elem_of_app, list_elem_of_filter, scan_as_of_elem by apply Hok.
  rewrite list_elem_of_omap.
  assert (Hst : (∃ x, x ∈ tx_staged t ∧ (let '(_, op) := x in match op with
      | SPut record => if bool_decide (rec_collection record = c) then Some record else None
      | SDelete => None end) = Some r) ↔ staged t (c, rec_id r) = Some (SPut r)).
  { split.
    - intros ([[c' id'] [r'|]] & Hin & Hx); [|done]. case_bool_decide; [|done].
      injection Hx as ->. apply bt_elem_of_get in Hin; [|done]. destruct (Hp _ _ _ Hin) as [<- <-].
      unfold staged. by subst.
    - intros Hs. exists ((c, rec_id r), SPut r). split; [by apply bt_get_elem_of|].
      by rewrite bool_decide_eq_true_2. }
  rewrite Hst. destruct (staged t (c, rec_id r)) as [[r'|]|]; naive_solver.
Qed.
End engine_properties.

(** ** What a request does to the store

    Every request of [crates/auradb/src/engine.rs] reads, counts and stages, and writes to
    the store and the replicated log only through [commit_batch].  [commits] is the
    relation this leaves on the pair of store and log: an invariant of the pair that one
    [engine_commit_batch] keeps is kept by every request. *)

Section trace.
Context `{Unicode, JsonText, StorageCodec}.
Context {L : Type} `{ReplicatedLog L}.
Implicit Types (i : Inner L) (t : Transaction).

(** One batch through the choke point, seen from the store and the log. *)
Definition batch_step (p p' : Storage * option L) : Prop :=
  ∃ batch i, (in_storage i, in_cluster i) = p ∧
    (in_storage (engine_commit_batch batch i).1, in_cluster (engine_commit_batch batch i).1) = p'.

Definition commits i i' : Prop :=
  rtc batch_step (in_storage i, in_cluster i) (in_storage i', in_cluster i').

#[export] Instance commits_refl : Reflexive commits.
Proof. intros i. apply rtc_refl. Qed.
#[export] Instance commits_trans : Transitive commits.
Proof. intros i1 i2 i3 Ha Hb. unfold commits in *. by etrans. Qed.

Lemma commits_same i i' :
  in_storage i' = in_storage i → in_cluster i' = in_cluster i → commits i i'.
Proof. unfold commits. intros -> ->. apply rtc_refl. Qed.

Lemma commits_batch batch i : commits i (engine_commit_batch batch i).1.
Proof. apply rtc_once. by exists batch, i. Qed.

Lemma commits_lift {A} (r : Res A) i : commits i (lift r i).1.
Proof. by destruct r. Qed.

Lemma commits_next_id i : commits i (next_id i).1.
Proof. by apply commits_same. Qed.

Lemma commits_check_index c i (f : CollectionIndexes → Res unit) :
  commits i (match in_indexes i !! c with
             | None => (i, Err Panicked)
             | Some ci => lift (f ci) i
             end).1.
Proof. destruct (in_indexes i !! c); [apply commits_lift|reflexivity]. Qed.

Lemma commits_update_index c deltas i : commits i (update_collection_index c deltas i).1.
Proof.
  unfold update_collection_index. destruct (in_indexes i !! c); [|reflexivity].
  by apply commits_same.
Qed.

Lemma commits_deltas deltas affected i : commits i (apply_deltas deltas affected i).1.
Proof. destruct (apply_deltas_same deltas affected i) as (Hs & _ & Hc). by apply commits_same. Qed.

Create HintDb trace.
Hint Resolve commits_lift commits_next_id commits_batch commits_update_index commits_check_index
  commits_deltas : trace.

(** Run through the steps of a request. *)
Ltac run_steps :=
  repeat first
    [ reflexivity | solve [auto with trace]
    | apply se_bind_rel; [apply _| |intros]
    | match goal with |- commits _ ((if ?b then _ else _) _).1 => destruct b end ].

Lemma commits_prepare_records schema c mode txn docs : ∀ pending i,
  commits i (prepare_records schema c mode txn docs pending i).1.
Proof.
  induction docs as [|fields docs IH]; intros pending i; simpl; [reflexivity|].
  apply se_bind_rel; [apply _|unfold prepare_record; run_steps|intros p i' _].
  apply se_bind_rel; [apply _|apply IH|intros; reflexivity].
Qed.

Lemma commits_prepare_updates schema c set txn olds : ∀ i,
  commits i (prepare_updates schema c set txn olds i).1.
Proof.
  induction olds as [|old olds IH]; intros i; simpl; [reflexivity|].
  apply se_bind_rel; [apply _|unfold prepare_update; run_steps|intros p i' _].
  apply se_bind_rel; [apply _|apply IH|intros; reflexivity].
Qed.
Hint Resolve commits_prepare_records commits_prepare_updates : trace.

Lemma commits_mutation m i : commits i (apply_mutation m i).1.
Proof.
  unfold apply_mutation. apply se_bind_rel; [apply _| |intros; run_steps; by apply commits_same].
  destruct m; unfold write_records, update_records, delete_records; run_steps.
  all: match goal with |- context [match ?l with [] => _ | _ :: _ => _ end] => destruct l end; run_steps.
Qed.

Lemma commits_commit t i : commits i (commit t i).1.
Proof.
  assert (Hct : commits i (commit_transaction t i).1).
  { unfold commit_transaction. case_if; [reflexivity|].
    destruct (validate_ops i (tx_id t) (tx_staged t)) as [[|x xs]|e]; run_steps. }
  unfold commit. destruct (te_state <$> bt_get (tx_id t) (in_txns i)) as [[]|];
    try by apply commits_same.
  all: destruct (commit_transaction t i) as [i' [[]|[e|]]]; exact Hct.
Qed.

Definition stages (p p' : Inner L * Transaction) : Prop := commits p.1 p'.1.

#[export] Instance stages_refl : Reflexive stages.
Proof. intros p. apply rtc_refl. Qed.
#[export] Instance stages_trans : Transitive stages.
Proof. intros p1 p2 p3 Ha Hb. unfold stages in *. by etrans. Qed.

Lemma stages_inner {A} (op : SE (Inner L) Fault A) p :
  commits p.1 (op p.1).1 → stages p (on_inner op p).1.
Proof. destruct p as [i t]. simpl. by destruct (op i). Qed.

Lemma stages_txn (f : Transaction → Transaction) p : stages p (on_txn f p).1.
Proof. destruct p as [i t]. apply rtc_refl. Qed.

Ltac run_stages :=
  repeat first
    [ reflexivity | apply stages_txn | apply stages_inner; solve [auto with trace]
    | apply se_bind_rel; [apply _| |intros] ].

Lemma stages_bulk schema c docs : ∀ result p, stages p (stage_bulk schema c docs result p).1.
Proof.
  induction docs as [|fields docs IH]; intros result p; simpl; [reflexivity|].
  apply se_bind_rel; [apply _|unfold stage_insert; run_stages|intros r p' _; apply IH].
Qed.

Lemma stages_updates schema c set olds : ∀ result p,
  stages p (stage_updates schema c set olds result p).1.
Proof.
  induction olds as [|old olds IH]; intros result p; simpl; [reflexivity|].
  apply se_bind_rel; [apply _|unfold stage_update; run_stages|intros r p' _; apply IH].
Qed.
Hint Resolve stages_bulk stages_updates : trace.

Lemma commits_touch id i : commits i (touch_txn id i).1.
Proof.
  unfold touch_txn. destruct (bt_get id (in_txns i)) as [e|]; [|reflexivity].
  destruct (te_state e); [by apply commits_same|reflexivity].
Qed.

Lemma commits_stage m i t : commits i (stage m (i, t)).1.1.
Proof.
  change (stages (i, t) (stage m (i, t)).1). unfold stage.
  apply se_bind_rel; [apply _|apply stages_inner, commits_touch|intros [] p1 _].
  unfold stage_mutation. apply se_bind_rel; [apply _|run_stages|intros schema p2 _].
  destruct m; simpl; unfold stage_insert; run_stages; auto with trace.
Qed.

Lemma commits_reap i : commits i (reap_transactions i).1.
Proof. unfold reap_transactions. case_if; [reflexivity|]. by apply commits_same. Qed.

(** An invariant of the pair that one batch keeps is kept by the request. *)
Lemma commits_inv (P : Storage → option L → Prop) i i' :
  (∀ batch i, P (in_storage i) (in_cluster i) →
     P (in_storage (engine_commit_batch batch i).1) (in_cluster (engine_commit_batch batch i).1)) →
  commits i i' → P (in_storage i) (in_cluster i) → P (in_storage i') (in_cluster i').
Proof.
  intros Hstep Hc. unfold commits in Hc.
  assert (Hgen : ∀ p p', rtc batch_step p p' → P p.1 p.2 → P p'.1 p'.2); [|by apply (Hgen _ _ Hc)].
  clear Hc. intros p p'. induction 1 as [|p1 p2 p3 (b & i0 & <- & <-) _ IH]; [done|].
  intros HP. apply IH. by apply Hstep.
Qed.

Lemma apply_deltas_ok deltas : ∀ affected i,
  Forall (λ d, is_Some (delta_collection d.1 d.2)) deltas → (apply_deltas deltas affected i).2 = Ok tt.
Proof.
  induction deltas as [|[old new] deltas IH]; intros affected i Hd; simpl; [done|].
  apply Forall_cons in Hd as [[c Hc] Hd]. simpl in Hc. rewrite Hc. by apply IH.
Qed.

(** Applying a replicated batch: the storage, and when it goes through. *)
Lemma apply_replicated_spec b ts i :
  let r := apply_replicated_batch b ts i in
  in_storage r.1 = apply_committed_batch b ts (in_storage i) ∧ in_cluster r.1 = in_cluster i ∧
  (r.2 = Ok tt ∨ r.2 = Err Panicked) ∧
  (st_last_commit_ts (in_storage i) < ts → Forall (λ op,
     match op with OpPut _ _ => True | OpDelete _ c id => is_Some (rm_get (records_of i) c id) end)
     (b_ops b) → r.2 = Ok tt).
Proof.
  unfold apply_replicated_batch, apply_committed_batch. case_if.
  { simpl. split_and!; [done|done|by left|done]. }
  cbv zeta. set (s' := match b_ops b with [] => _ | _ :: _ => _ end).
  destruct (apply_deltas_same (op_delta i <$> b_ops b) ∅ (set_storage s' i)) as (Hs & _ & Hc).
  split_and!; [exact Hs|exact Hc| |].
  - clear. generalize (set_storage s' i). generalize (∅ : gset string).
    induction (op_delta i <$> b_ops b) as [|[old new] l IH]; intros g i'; simpl; [by left|].
    destruct (delta_collection old new); [apply IH|by right].
  - intros _ Hops. apply apply_deltas_ok. apply Forall_fmap. eapply Forall_impl; [exact Hops|].
    intros [cts r|cts c id]; simpl; [by destruct (rm_get _ _ _)|]. intros [r Hr].
    rewrite Hr. simpl. eauto.
Qed.
End trace.
