(* ===== verification/EngineIndex.v ===== *)
(** * Indexes and constraints of the engine

    Auto-commit inserts, upserts and deletes keep every index of the engine in
    agreement with the live records, and with them the unique fields unique; a delete
    leaves no restricting reference behind.  [indexed_run] collects the runs from an
    opening that keep this. *)

From S2P Require Import Prelude BTree Text Framing Value Core Eval Index Mvcc Storage.
From S2P Require Import StorageRecovery StorageSpec Txn Engine EngineSpec.

Local Open Scope N_scope.

(** The live records of a collection, by id. *)
Definition live_map (r : list (string * list (N * list Version))) (c : string) : gmap N Rec :=
  by_id (rm_scan r c).

Lemma scan_values r c :
  rm_scan r c = bt_values (bt_retain (λ _ chain, latest chain ≫= v_value) (inner r c)).
Proof. apply omap_values_retain. Qed.

Lemma get_placed r c id x :
  rm_wf r → rm_get r c id = Some x → rec_collection x = c ∧ rec_id x = id.
Proof.
  intros Hwf. unfold rm_get. destruct (chain_of r c id) as [chain|] eqn:E; [|done].
  apply (chain_of_wf _ _ _ _ Hwf) in E as (_ & _ & Hp). simpl.
  destruct (latest chain) as [v|] eqn:Ev; [|done]. simpl. intros Hx.
  rewrite Forall_forall in Hp. apply (Hp v); [|done]. by apply last_Some_elem_of.
Qed.

Lemma scan_keys_ids (m : list (N * Rec)) :
  (∀ id x, (id, x) ∈ m → rec_id x = id) → rec_id <$> bt_values m = bt_keys m.
Proof.
  induction m as [|[id x] m IH]; intros Hm; [done|]. simpl. f_equal.
  - apply Hm. by left.
  - apply IH. intros id' x' Hin. apply Hm. by right.
Qed.

Lemma scan_facts r c :
  rm_wf r →
  NoDup (rec_id <$> rm_scan r c) ∧
  ∀ x, x ∈ rm_scan r c ↔ rm_get r c (rec_id x) = Some x.
Proof.
  intros Hwf. rewrite scan_values. set (m := bt_retain _ (inner r c)).
  destruct (inner_wf_of r c Hwf) as [Hb Hi].
  assert (Hm : bt_wf m) by by apply bt_wf_retain.
  assert (Hget : ∀ id, bt_get id m = rm_get r c id).
  { intros id. unfold m, rm_get. rewrite bt_get_retain, chain_of_inner by done.
    by destruct (bt_get id (inner r c)). }
  assert (Hids : ∀ id x, (id, x) ∈ m → rec_id x = id).
  { intros id x Hin. apply bt_elem_of_get in Hin; [|done]. rewrite Hget in Hin.
    by apply get_placed in Hin as [_ ?]. }
  split.
  - rewrite scan_keys_ids by done. unfold bt_wf in Hm. clear Hids Hget.
    induction Hm as [|k ks Hs IH Hk]; [constructor|]. constructor; [|done].
    intros Hin. rewrite Forall_forall in Hk. by apply Hk, klt_irrefl in Hin.
  - intros x. unfold bt_values. rewrite list_elem_of_fmap. split.
    + intros ([id x'] & -> & Hin). simpl. pose proof (Hids _ _ Hin) as Hid. rewrite Hid.
      rewrite <- Hget. by apply bt_elem_of_get.
    + intros Hx. exists (rec_id x, x). split; [done|]. apply bt_elem_of_get; [done|]. by rewrite Hget.
Qed.

(** A point read is a lookup in the live records. *)
Lemma live_map_get r c id : rm_wf r → live_map r c !! id = rm_get r c id.
Proof.
  intros Hwf. destruct (scan_facts r c Hwf) as [Hnd Hin]. unfold live_map.
  destruct (rm_get r c id) as [x|] eqn:E.
  - pose proof (get_placed _ _ _ _ Hwf E) as [_ <-]. apply by_id_elem; [done|]. by apply Hin.
  - apply not_elem_of_list_to_map_1. intros Hid. rewrite <- list_fmap_compose in Hid.
    apply list_elem_of_fmap in Hid as (x & -> & Hx). simpl in E. apply Hin in Hx. congruence.
Qed.

(** ** Updating an index by a list of changes *)

Definition put_all (recs : gmap N Rec) (new : list Rec) : gmap N Rec :=
  foldl (λ m r, <[rec_id r := r]> m) recs new.

Section index_updates.
Context `{Unicode, JsonText}.
Implicit Types (ci : CollectionIndexes) (recs : gmap N Rec).

(** No two of the records share a key of a unique field. *)
Definition disjoint_keys (fields : list string) (new : list Rec) : Prop :=
  ∀ a b f k, a ∈ new → b ∈ new → rec_id a ≠ rec_id b → f ∈ fields →
    field_key f a = Some k → field_key f b ≠ Some k.

Lemma index_updates_ok prepared : ∀ ci recs,
  index_ok ci recs → (∀ id s, recs !! id = Some s → rec_id s = id) →
  NoDup (rec_id <$> prepared.*2) →
  Forall (λ p, p.1 = recs !! rec_id p.2) prepared →
  Forall (λ r, ¬ clashes (ci_unique_fields ci) recs r) prepared.*2 →
  disjoint_keys (ci_unique_fields ci) prepared.*2 →
  index_ok (foldl (λ ci d, update_index d.1 d.2 ci) ci ((λ p, (p.1, Some p.2)) <$> prepared))
    (put_all recs prepared.*2).
Proof.
  induction prepared as [|[old new] prepared IH]; intros ci recs Hok Hids Hnd Hold Hfree Hdis;
    [done|].
  rewrite !fmap_cons in *. apply NoDup_cons in Hnd as [Hfresh Hnd].
  apply Forall_cons in Hold as [Ho Hold]. apply Forall_cons in Hfree as [Hf Hfree].
  simpl in Ho, Hf, Hfresh. subst old. cbn [foldl put_all]. apply IH.
  - unfold update_index. cbn [fst snd]. destruct (recs !! rec_id new) as [old|] eqn:E.
    + apply index_replace_ok; [done..|by apply Hids in E|done].
    + by apply index_insert_ok.
  - intros id s [[<- <-]|[_ Hs]]%lookup_insert_Some; [done|by apply Hids].
  - done.
  - apply Forall_forall. intros [o n] Hin. simpl. rewrite Forall_forall in Hold.
    specialize (Hold _ Hin). simpl in Hold. rewrite lookup_insert_ne; [done|].
    intros Heq. apply Hfresh. rewrite Heq. apply list_elem_of_fmap. exists n. split; [done|].
    apply list_elem_of_fmap. by exists (o, n).
  - replace (ci_unique_fields (update_index _ _ ci)) with (ci_unique_fields ci)
      by (unfold update_index; by destruct (recs !! rec_id new)).
    apply Forall_forall. intros n Hin (f & j & s & k & Hff & Hs & Hne & Hk & Hk').
    apply lookup_insert_Some in Hs as [[<- <-]|[Hj Hs]].
    + by apply (Hdis n new f k); [right|left|..].
    + rewrite Forall_forall in Hfree. apply (Hfree n Hin). by exists f, j, s, k.
  - replace (ci_unique_fields (update_index _ _ ci)) with (ci_unique_fields ci)
      by (unfold update_index; by destruct (recs !! rec_id new)).
    intros a b f k Ha Hb. apply Hdis; by right.
Qed.

Lemma index_removes_ok olds : ∀ ci recs,
  index_ok ci recs → (∀ id s, recs !! id = Some s → rec_id s = id) →
  NoDup (rec_id <$> olds) → Forall (λ r, recs !! rec_id r = Some r) olds →
  index_ok (foldl (λ ci d, update_index d.1 d.2 ci) ci ((λ r, (Some r, None)) <$> olds))
    (foldl (λ m r, delete (rec_id r) m) recs olds).
Proof.
  induction olds as [|r olds IH]; intros ci recs Hok Hids Hnd Hin; [done|].
  rewrite !fmap_cons in *. apply NoDup_cons in Hnd as [Hfresh Hnd].
  apply Forall_cons in Hin as [Hr Hin]. cbn [foldl]. apply IH.
  - unfold update_index. cbn [fst snd]. by apply index_remove_ok.
  - intros id s [_ Hs]%lookup_delete_Some. by apply Hids.
  - done.
  - apply Forall_forall. intros x Hx. rewrite Forall_forall in Hin.
    rewrite lookup_delete_ne; [by apply Hin|]. intros Heq. apply Hfresh. rewrite Heq.
    apply list_elem_of_fmap. by exists x.
Qed.
End index_updates.

(** ** Preparing a write *)

Section preparing.
Context `{Unicode, JsonText, StorageCodec}.
Context {L : Type} `{ReplicatedLog L}.
Implicit Types (i : Inner L).

(** The record carries [key] in the set of values used by a batch. *)
Definition holds_key (fields : list FieldDef) (r : Rec) (key : string) : Prop :=
  ∃ fd v, fd ∈ fields ∧ (fd_primary_key fd || fd_unique fd) = true ∧
    record_get r (fd_name fd) = Some v ∧ is_null v = false ∧ key = pending_key fd v.

Lemma check_pending_spec fields r : ∀ pending pending',
  check_pending_unique fields r pending = Ok pending' →
  pending ⊆ pending' ∧
  ∀ key, holds_key fields r key → key ∈ pending' ∧ key ∉ pending.
Proof.
  induction fields as [|fd fields IH]; intros pending pending' Hc; simpl in Hc.
  - injection Hc as <-. split; [done|]. intros key (fd & v & Hin & _). set_solver.
  - assert (Hskip : check_pending_unique fields r pending = Ok pending' →
      (∀ v, (fd_primary_key fd || fd_unique fd) = true → record_get r (fd_name fd) = Some v →
         is_null v = false → False) →
      pending ⊆ pending' ∧
      ∀ key, holds_key (fd :: fields) r key → key ∈ pending' ∧ key ∉ pending).
    { intros Hr Hno. destruct (IH _ _ Hr) as [Hsub Hk]. split; [done|].
      intros key (fd' & v & Hin & Hu & Hg & Hn & ->). apply elem_of_cons in Hin as [->|Hin].
      - exfalso. by eapply Hno.
      - apply Hk. by exists fd', v. }
    destruct (fd_primary_key fd || fd_unique fd) eqn:Eu; simpl in Hc; [|by apply Hskip].
    destruct (record_get r (fd_name fd)) as [v|] eqn:Eg; [|by apply Hskip].
    destruct (is_null v) eqn:En; [by apply Hskip; [|intros; simplify_eq; congruence]|].
    case_bool_decide as Hp; [done|]. destruct (IH _ _ Hc) as [Hsub Hk]. split; [set_solver|].
    intros key (fd' & w & Hin & Hu & Hg & Hn & ->). apply elem_of_cons in Hin as [->|Hin].
    + rewrite Eg in Hg. injection Hg as <-. split; [set_solver|done].
    + destruct (Hk (pending_key fd' w)) as [Hk1 Hk2]; [by exists fd', w|]. set_solver.
Qed.

(** What stays the same while a write is prepared. *)
Definition same_data i i' : Prop :=
  in_storage i' = in_storage i ∧ in_indexes i' = in_indexes i ∧ in_cluster i' = in_cluster i.

Lemma prepare_record_spec schema c mode txn fields pending i i' ex r pending' :
  prepare_record schema c mode txn fields pending i = (i', Ok (ex, r, pending')) →
  same_data i i' ∧ ex = rm_get (records_of i) c (rec_id r) ∧ rec_collection r = c ∧
  (mode = WInsert → ex = None) ∧
  (∃ ci, in_indexes i !! c = Some ci ∧ check_unique ci r (rec_id <$> ex) = Ok tt) ∧
  check_pending_unique (cs_fields schema) r pending = Ok pending'.
Proof.
  unfold prepare_record, se_bind, se_get, lift, next_id, se_ret, se_fail.
  destruct (validate_record schema fields); [|done].
  destruct (record_id_for schema fields (in_clock i)) as [id|]; [|done].
  change (records_of (set_clock (wrap64 (in_clock i + 1)) i)) with (records_of i).
  destruct (rm_get (records_of i) c id) as [old|] eqn:Eg.
  - rewrite bool_decide_eq_true_2 by eauto. cbn [andb]. case_bool_decide as Hm; [done|].
    destruct (referential_check _ schema fields); [|done]. simpl.
    destruct (in_indexes i !! c) as [ci|]; [|done].
    destruct (check_unique ci _ _) as [[]|] eqn:Ecu; [|done].
    destruct (check_pending_unique _ _ _) eqn:Ep; [|done].
    intros Heq. simplify_eq. split_and!; [by split_and!|by simpl|done|by intros|by eauto|done].
  - rewrite bool_decide_eq_false_2 by (by intros []). cbn [andb].
    destruct (referential_check _ schema fields); [|done]. simpl.
    destruct (in_indexes i !! c) as [ci|]; [|done].
    destruct (check_unique ci _ _) as [[]|] eqn:Ecu; [|done].
    destruct (check_pending_unique _ _ _) eqn:Ep; [|done].
    intros Heq. simplify_eq. split_and!; [by split_and!|by simpl|done|done|by eauto|done].
Qed.

Lemma prepare_records_spec schema c mode txn docs : ∀ pending i i' prepared,
  prepare_records schema c mode txn docs pending i = (i', Ok prepared) →
  same_data i i' ∧
  Forall (λ p, p.1 = rm_get (records_of i) c (rec_id p.2) ∧ rec_collection p.2 = c ∧
    (∃ ci, in_indexes i !! c = Some ci ∧ check_unique ci p.2 (rec_id <$> p.1) = Ok tt)) prepared ∧
  (∀ r key, r ∈ prepared.*2 → holds_key (cs_fields schema) r key → key ∉ pending) ∧
  (∀ a b key, a ∈ prepared.*2 → b ∈ prepared.*2 → rec_id a ≠ rec_id b →
     holds_key (cs_fields schema) a key → ¬ holds_key (cs_fields schema) b key).
Proof.
  induction docs as [|fields docs IH]; intros pending i i' prepared Hp.
  - injection Hp as <- <-. split_and!; try done; set_solver.
  - simpl in Hp. unfold se_bind at 1 in Hp.
    destruct (prepare_record schema c mode txn fields pending i) as [i1 [[[ex r] pending1]|]] eqn:E1;
      [|done].
    unfold se_bind in Hp. cbn [fst snd] in Hp.
    destruct (prepare_records schema c mode txn docs pending1 i1) as [i2 [ps|]] eqn:E2; [|done].
    injection Hp as <- <-.
    apply prepare_record_spec in E1 as ((Hs & Hi & Hc) & Hex & Hcol & _ & Hu & Hpend).
    apply IH in E2 as ((Hs' & Hi' & Hc') & Hall & Hfresh & Hdis).
    apply check_pending_spec in Hpend as [Hsub Hkeys]. split_and!.
    + split_and!; congruence.
    + constructor; [done|]. eapply Forall_impl; [exact Hall|]. unfold records_of in *.
      rewrite Hs, Hi. done.
    + intros x key Hx Hk. apply elem_of_cons in Hx as [->|Hx]; [by apply Hkeys|].
      specialize (Hfresh x key Hx Hk). set_solver.
    + intros a b key Ha Hb Hne Hka Hkb.
      apply elem_of_cons in Ha as [->|Ha]; apply elem_of_cons in Hb as [->|Hb]; [done|..].
      * apply Hkeys in Hka as [Hka _]. by apply (Hfresh b key Hb).
      * apply Hkeys in Hkb as [Hkb _]. by apply (Hfresh a key Ha).
      * by apply (Hdis a b key).
Qed.

(** The value keys of the batch cover the unique fields of the index. *)
Definition fields_unique (schema : CollectionSchema) (ci : CollectionIndexes) : Prop :=
  ∀ f, f ∈ ci_unique_fields ci →
    ∃ fd, fd ∈ cs_fields schema ∧ fd_name fd = f ∧ (fd_primary_key fd || fd_unique fd) = true.

Lemma disjoint_of_pending schema ci new :
  fields_unique schema ci →
  (∀ a b key, a ∈ new → b ∈ new → rec_id a ≠ rec_id b →
     holds_key (cs_fields schema) a key → ¬ holds_key (cs_fields schema) b key) →
  disjoint_keys (ci_unique_fields ci) new.
Proof.
  intros Hfu Hdis a b f k Ha Hb Hne Hf Hka Hkb.
  destruct (Hfu f Hf) as (fd & Hfd & <- & Hu). unfold field_key in *.
  destruct (record_get a (fd_name fd)) as [v|] eqn:Ea; [|done]. simpl in Hka.
  destruct (is_null v) eqn:En; [done|]. injection Hka as Hka.
  destruct (record_get b (fd_name fd)) as [w|] eqn:Eb; [|done]. simpl in Hkb.
  destruct (is_null w) eqn:Em; [done|]. injection Hkb as Hkb.
  apply (Hdis a b (pending_key fd v) Ha Hb Hne); [by exists fd, v|].
  exists fd, w. split_and!; try done. unfold pending_key, canonical.
  change (json_text (to_json v)) with (index_key v). by rewrite Hka, <- Hkb.
Qed.
End preparing.

(** ** The live records behind a batch *)

Lemma put_all_lookup new : ∀ recs id,
  put_all recs new !! id =
    match find_last (λ r, rec_id r =? id) new with Some r => Some r | None => recs !! id end.
Proof.
  induction new as [|r new IH]; intros recs id; [done|]. cbn [put_all foldl].
  change (foldl _ _ new) with (put_all (<[rec_id r := r]> recs) new). rewrite IH. cbn [find_last].
  destruct (find_last _ new); [done|]. destruct (rec_id r =? id) eqn:E; bool_to_prop; subst.
  - by rewrite lookup_insert_eq.
  - by rewrite lookup_insert_ne.
Qed.

Lemma delete_all_lookup olds : ∀ (recs : gmap N Rec) id,
  foldl (λ m r, delete (rec_id r) m) recs olds !! id =
    if decide (id ∈ rec_id <$> olds) then None else recs !! id.
Proof.
  induction olds as [|r olds IH]; intros recs id; [done|]. cbn [foldl]. rewrite IH, fmap_cons.
  destruct (decide (id = rec_id r)) as [->|Hne].
  - rewrite lookup_delete_eq, (decide_True (P := rec_id r ∈ rec_id r :: _)) by by left.
    by case_decide.
  - rewrite lookup_delete_ne by done. by repeat case_decide; set_solver.
Qed.

Lemma last_op_on_puts c c' id new :
  Forall (λ r, rec_collection r = c) new →
  last_op_on c' id (OpPut 0 <$> new) =
    if decide (c' = c) then OpPut 0 <$> find_last (λ r, rec_id r =? id) new else None.
Proof.
  intros Hc. unfold last_op_on. induction Hc as [|r new Hr _ IH]; [by case_decide|].
  rewrite fmap_cons. cbn [find_last]. rewrite IH. simpl.
  destruct (decide (c' = c)) as [->|Hne].
  - destruct (find_last _ new); [done|]. simpl.
    destruct (rec_id r =? id) eqn:E; bool_to_prop; simpl.
    + by rewrite bool_decide_eq_true_2.
    + rewrite bool_decide_eq_false_2; [done|]. naive_solver.
  - rewrite bool_decide_eq_false_2; [done|]. naive_solver.
Qed.

Section index_kept.
Context `{Unicode, JsonText, StorageCodec}.
Context {L : Type} `{ReplicatedLog L}.
Implicit Types (i : Inner L).

(** Every index agrees with the live records of its collection. *)
Definition engine_indexed i : Prop :=
  ∀ c ci, in_indexes i !! c = Some ci → index_ok ci (live_map (records_of i) c).

Lemma index_ok_unique ci recs :
  index_ok ci recs → unique_values (ci_unique_fields ci) recs.
Proof.
  intros Hok f a b r s k Hf Hr Hs Hkr Hks. apply (ix_fields _ _ Hok) in Hf as [m Hm].
  pose proof (ix_unique _ _ Hok _ _ Hm k) as Hu.
  assert (m !! k = Some a) by (apply Hu; eauto). assert (m !! k = Some b) by (apply Hu; eauto).
  congruence.
Qed.

Lemma live_map_ids r c id x : rm_wf r → live_map r c !! id = Some x → rec_id x = id.
Proof. intros Hwf. rewrite live_map_get by done. by intros [_ ?]%get_placed. Qed.

Lemma commit_batch_get batch s c id :
  store_ok s →
  rm_get (st_records (commit_batch batch s).1) c id =
    match last_op_on c id (b_ops batch) with
    | Some op => op_value op
    | None => rm_get (st_records s) c id
    end.
Proof.
  intros [Hwf Hb]. unfold commit_batch. destruct (b_ops batch) as [|op ops] eqn:E; [done|].
  rewrite <- E. apply log_and_apply_get; [done|lia].
Qed.

Lemma live_map_puts txn new c c' s :
  store_ok s → Forall (λ r, rec_collection r = c) new →
  live_map (st_records (commit_batch (mkBatch txn (OpPut 0 <$> new)) s).1) c' =
    if decide (c' = c) then put_all (live_map (st_records s) c) new
    else live_map (st_records s) c'.
Proof.
  intros Hok Hc. apply map_eq. intros id.
  assert (Hok' : store_ok (commit_batch (mkBatch txn (OpPut 0 <$> new)) s).1)
    by (by apply (kp_ok 0 s), Hok; apply commit_batch_keeps).
  rewrite live_map_get, commit_batch_get by (done || apply Hok').
  cbn [b_ops]. rewrite (last_op_on_puts c) by done. case_decide as Hcc; subst.
  - rewrite put_all_lookup, live_map_get by apply Hok. by destruct (find_last _ new).
  - by rewrite live_map_get by apply Hok.
Qed.

Lemma live_map_deletes txn olds c c' s :
  store_ok s →
  live_map (st_records (commit_batch (mkBatch txn ((λ r, OpDelete 0 c (rec_id r)) <$> olds)) s).1) c'
    = if decide (c' = c) then foldl (λ m r, delete (rec_id r) m) (live_map (st_records s) c) olds
      else live_map (st_records s) c'.
Proof.
  intros Hok. apply map_eq. intros id.
  assert (Hok' : store_ok (commit_batch (mkBatch txn
    ((λ r, OpDelete 0 c (rec_id r)) <$> olds)) s).1)
    by (by apply (kp_ok 0 s), Hok; apply commit_batch_keeps).
  rewrite live_map_get, commit_batch_get by (done || apply Hok'). cbn [b_ops].
  replace ((λ r, OpDelete 0 c (rec_id r)) <$> olds) with (OpDelete 0 c <$> (rec_id <$> olds))
    by (by rewrite <- list_fmap_compose).
  destruct (decide (c' = c)) as [->|Hne].
  - rewrite last_op_on_deletes, delete_all_lookup, live_map_get by apply Hok. by case_decide.
  - rewrite live_map_get by apply Hok.
    replace (last_op_on c' id _) with (@None LogOp); [done|]. symmetry. unfold last_op_on.
    apply find_last_None, Forall_fmap, Forall_true. intros x. simpl.
    apply bool_decide_eq_false_2. naive_solver.
Qed.

Lemma write_result_ids prepared :
  mr_ids (write_result prepared) = record_id_display ∘ rec_id <$> prepared.*2.
Proof.
  unfold write_result.
  assert (Hgen : ∀ res, mr_ids (foldl (λ res p, match p.1 with
      | Some _ => count_updated (rec_id p.2) res
      | None => count_inserted (rec_id p.2) res end) res prepared) =
    mr_ids res ++ (record_id_display ∘ rec_id <$> prepared.*2)).
  { induction prepared as [|[o n] prepared IH]; intros res; [by rewrite app_nil_r|].
    cbn [foldl]. rewrite IH. destruct o; simpl; by rewrite <- app_assoc. }
  apply Hgen.
Qed.

(** A successful write leaves indexes that agree with the live records. *)
Lemma write_records_indexed c docs mode txn i i' res schema :
  engine_ok i → engine_indexed i → in_cluster i = None →
  get_schema (in_storage i) c = Some schema →
  (∀ ci, in_indexes i !! c = Some ci → fields_unique schema ci) →
  write_records c docs mode txn i = (i', Ok res) → NoDup (mr_ids res) →
  engine_indexed i'.
Proof.
  intros Hok Hidx Hcl Hsch Hfu Hw Hnd.
  unfold write_records, se_bind, schema_for in Hw. rewrite Hsch in Hw. cbn [lift] in Hw.
  destruct (prepare_records schema c mode txn docs ∅ i) as [i1 [prepared|]] eqn:Ep; [|done].
  apply prepare_records_spec in Ep as ((Hs & Hi & Hc) & Hall & _ & Hdis).
  unfold engine_commit_batch in Hw. rewrite Hc, Hcl, Hs in Hw.
  pose proof (live_map_puts txn prepared.*2 c) as Hlive.
  replace (OpPut 0 <$> prepared.*2) with ((λ p, OpPut 0 p.2) <$> prepared) in Hlive
    by (by rewrite <- list_fmap_compose).
  specialize (λ c', Hlive c' (in_storage i) (eo_store _ Hok)).
  destruct (commit_batch _ (in_storage i)) as [s cts]. cbn [fst] in Hlive.
  unfold update_collection_index in Hw. cbn [in_indexes set_storage] in Hw. rewrite Hi in Hw.
  destruct (in_indexes i !! c) as [ci|] eqn:Eci; [|done]. injection Hw as <- <-.
  rewrite write_result_ids, list_fmap_compose in Hnd. apply NoDup_fmap_1 in Hnd.
  assert (Hcol : Forall (λ r, rec_collection r = c) prepared.*2).
  { apply Forall_fmap. eapply Forall_impl; [exact Hall|]. by intros p (_ & ? & _). }
  intros c' ci'. unfold records_of. cbn [in_indexes set_indexes in_storage set_storage].
  rewrite (Hlive c' Hcol). intros [[<- <-]|[Hne Hci']]%lookup_insert_Some.
  2:{ rewrite decide_False by done. by apply Hidx. }
  rewrite decide_True by done. apply index_updates_ok.
  - by apply Hidx.
  - intros id x. apply live_map_ids, Hok.
  - done.
  - eapply Forall_impl; [exact Hall|]. intros p (Hp & _). by rewrite live_map_get by apply Hok.
  - apply Forall_fmap. eapply Forall_impl; [exact Hall|]. intros p (Hp & _ & ci0 & Hci0 & Hu).
    injection Hci0 as <-. simpl.
    apply (check_unique_spec ci (live_map (records_of i) c) p.2 (rec_id <$> p.1)) in Hu;
      [done|by apply Hidx|].
    rewrite Hp. destruct (rm_get (records_of i) c (rec_id p.2)) as [x|] eqn:Ex; [|by left].
    apply get_placed in Ex as [_ Hx]; [|apply Hok]. right. simpl. by rewrite Hx.
  - apply (disjoint_of_pending schema); [by apply Hfu|done].
Qed.

(** C15: constraints and indexes of auto-commit writes.  On an engine without a replicated
    log whose indexes agree with the records and whose unique fields are those of the
    schema, when an insert, bulk insert or upsert succeeds and its records got different
    ids, every index of the engine agrees with the live records again, so equality lookups,
    text statistics and vectors are those of the new state, and no two live records share a
    value of a unique field. *)
Theorem write_keeps_indexes c docs mode txn i i' res schema :
  engine_ok i → engine_indexed i → in_cluster i = None →
  get_schema (in_storage i) c = Some schema →
  (∀ ci, in_indexes i !! c = Some ci → fields_unique schema ci) →
  write_records c docs mode txn i = (i', Ok res) → NoDup (mr_ids res) →
  engine_indexed i' ∧
  ∀ ci, in_indexes i' !! c = Some ci →
    unique_values (ci_unique_fields ci) (live_map (records_of i') c).
Proof.
  intros Hok Hidx Hcl Hsch Hfu Hw Hnd.
  assert (Hgoal : engine_indexed i') by (by eapply write_records_indexed).
  split; [done|]. intros ci Hci. by apply index_ok_unique, Hgoal.
Qed.

Lemma targets_spec i c filter :
  engine_ok i → ∀ r, r ∈ targets i c filter ↔
    rm_get (records_of i) c (rec_id r) = Some r ∧ selected filter r = true.
Proof.
  intros Hok r. destruct (scan_facts (records_of i) c) as [_ Hscan]; [apply Hok|].
  unfold targets. by rewrite list_elem_of_In, filter_In, <- list_elem_of_In, Hscan.
Qed.

Lemma targets_nodup i c filter : engine_ok i → NoDup (rec_id <$> targets i c filter).
Proof.
  intros Hok. destruct (scan_facts (records_of i) c) as [Hnd _]; [apply Hok|].
  unfold targets. induction (rm_scan (records_of i) c) as [|x l IH]; [done|].
  rewrite fmap_cons in Hnd. apply NoDup_cons in Hnd as [Hx Hnd]. simpl. case_if; [|by apply IH].
  rewrite fmap_cons. apply NoDup_cons. split; [|by apply IH]. intros Hin. apply Hx.
  apply list_elem_of_fmap in Hin as (y & -> & Hy). apply list_elem_of_fmap. exists y.
  split; [done|]. apply list_elem_of_In, filter_In in Hy as [Hy _]. by apply list_elem_of_In.
Qed.

(** Taking the selected records out of the live ones. *)
Lemma targets_deleted i c filter :
  engine_ok i → ∀ id,
  foldl (λ m r, delete (rec_id r) m) (live_map (records_of i) c) (targets i c filter) !! id =
    match rm_get (records_of i) c id with
    | Some r => if selected filter r then None else Some r
    | None => None
    end.
Proof.
  intros Hok id. rewrite delete_all_lookup, live_map_get by apply Hok.
  destruct (rm_get (records_of i) c id) as [r|] eqn:E; [|by case_decide].
  pose proof (get_placed _ _ _ _ (proj1 (eo_store _ Hok)) E) as [_ <-].
  destruct (selected filter r) eqn:Es.
  - rewrite decide_True; [done|]. apply list_elem_of_fmap. exists r. split; [done|].
    by apply targets_spec.
  - rewrite decide_False; [done|]. intros (x & Hx & Hin)%list_elem_of_fmap.
    apply targets_spec in Hin as [Hin Hsx]; [|done]. rewrite <- Hx, E in Hin. congruence.
Qed.

(** A record refers to a key through a relationship: a text that equals the key, or an
    array that has it. *)
Inductive links_to (rel : Relationship) (key : Value) (x : Rec) : Prop :=
| links_one s :
    record_get x (rel_name rel) = Some (VText s) → value_eq (VText s) key = true → links_to rel key x
| links_many items v :
    record_get x (rel_name rel) = Some (VArray items) → v ∈ items → value_eq v key = true →
    links_to rel key x.

(** Some live record refers to the primary key of [r] through a relationship to [c] that
    restricts deletion. *)
Definition restricted i (c : string) (r : Rec) : Prop :=
  ∃ schema pk key name ref_schema rel id x,
    get_schema (in_storage i) c = Some schema ∧ schema_primary_key schema = Some pk ∧
    bt_get (fd_name pk) (rec_fields r) = Some key ∧
    get_schema (in_storage i) name = Some ref_schema ∧ rel ∈ cs_relationships ref_schema ∧
    rel_target rel = c ∧ rel_on_delete rel = Restrict ∧
    rm_get (records_of i) (cs_name ref_schema) id = Some x ∧ links_to rel key x.

Lemma refers_to_links rel key x : links_to rel key x → refers_to rel key x = true.
Proof.
  unfold refers_to. intros [s -> ?|items v -> Hv ?]; [done|].
  apply existsb_exists. exists v. split; [by apply list_elem_of_In|done].
Qed.

Lemma inbound_link_check_sound i c r :
  engine_ok i → inbound_link_check i c r = Ok tt → ¬ restricted i c r.
Proof.
  intros Hok Hc (schema & pk & key & name & rs & rel & id & x & Hs & Hpk & Hk & Hn & Hrel & Ht & Hd & Hx & Hl).
  unfold inbound_link_check in Hc. rewrite Hs, Hpk, Hk in Hc.
  apply for_each_ok in Hc. rewrite Forall_forall in Hc.
  assert (Hin : rs ∈ bt_values (cat_schemas (st_catalog (in_storage i)))).
  { apply list_elem_of_fmap. exists (name, rs). split; [done|]. by apply bt_get_elem_of. }
  apply Hc in Hin. apply for_each_ok in Hin. rewrite Forall_forall in Hin. apply Hin in Hrel.
  rewrite bool_decide_eq_true_2, bool_decide_eq_true_2 in Hrel by done. cbn [negb orb] in Hrel.
  apply for_each_ok in Hrel. rewrite Forall_forall in Hrel.
  assert (Hsc : x ∈ rm_scan (records_of i) (cs_name rs)).
  { apply (proj2 (scan_facts (records_of i) (cs_name rs) (proj1 (eo_store _ Hok)))).
    by destruct (get_placed _ _ _ _ (proj1 (eo_store _ Hok)) Hx) as [_ ->]. }
  apply Hrel in Hsc. by rewrite (refers_to_links _ _ _ Hl) in Hsc.
Qed.

(** What a successful delete does. *)
Lemma delete_records_effect c filter txn i i' res :
  engine_ok i → engine_indexed i → in_cluster i = None →
  delete_records c filter txn i = (i', Ok res) →
  engine_indexed i' ∧
  (∀ id, rm_get (records_of i') c id =
     match rm_get (records_of i) c id with
     | Some r => if selected filter r then None else Some r
     | None => None
     end) ∧
  ∀ id r, rm_get (records_of i) c id = Some r → selected filter r = true → ¬ restricted i c r.
Proof.
  intros Hok Hidx Hcl Hd. unfold delete_records, se_bind, schema_for, se_get in Hd.
  destruct (get_schema (in_storage i) c) as [schema|]; [|done]. cbn [lift] in Hd.
  pose proof (targets_spec i c filter Hok) as Htg. pose proof (targets_nodup i c filter Hok) as Hndt.
  pose proof (targets_deleted i c filter Hok) as Hget.
  destruct (for_each (inbound_link_check i c) (targets i c filter)) as [[]|e] eqn:Ef; [|done].
  apply for_each_ok in Ef. rewrite Forall_forall in Ef. cbn [lift] in Hd.
  assert (Hfree : ∀ id r, rm_get (records_of i) c id = Some r → selected filter r = true → ¬ restricted i c r).
  { intros id r Hr Hsel. apply inbound_link_check_sound; [done|]. apply Ef, Htg. split; [|done].
    by destruct (get_placed _ _ _ _ (proj1 (eo_store _ Hok)) Hr) as [_ ->]. }
  destruct (targets i c filter) as [|x l] eqn:Et.
  - injection Hd as <- <-. split_and!; [done| |done]. intros id. rewrite <- Hget. simpl.
    by rewrite live_map_get by apply Hok.
  - rewrite <- Et in *. unfold engine_commit_batch in Hd. rewrite Hcl in Hd.
    pose proof (live_map_deletes txn (targets i c filter) c) as Hlive.
    specialize (λ c', Hlive c' (in_storage i) (eo_store _ Hok)).
    assert (Hok' := commit_batch_keeps 0 (mkBatch txn ((λ r, OpDelete 0 c (rec_id r)) <$>
      targets i c filter)) (in_storage i)).
    destruct (commit_batch _ (in_storage i)) as [s cts]. cbn [fst] in *.
    unfold update_collection_index in Hd. cbn [in_indexes set_storage] in Hd.
    destruct (in_indexes i !! c) as [ci|] eqn:Eci; [|done]. injection Hd as <- <-.
    unfold records_of. cbn [in_storage set_indexes set_storage]. split_and!; [| |done].
    + intros c' ci'. cbn [in_indexes set_indexes]. unfold records_of.
      cbn [in_storage set_indexes set_storage]. rewrite (Hlive c').
      intros [[<- <-]|[Hne Hci']]%lookup_insert_Some.
      2:{ rewrite decide_False by done. by apply Hidx. }
      rewrite decide_True by done. apply index_removes_ok; [by apply Hidx| |done|].
      * intros id y. apply live_map_ids, Hok.
      * apply Forall_forall. intros y Hy. rewrite live_map_get by apply Hok. by apply Htg in Hy as [? _].
    + intros id. rewrite <- Hget, <- (live_map_get (st_records s)).
      * by rewrite Hlive, decide_True.
      * apply (kp_ok _ _ _ Hok' (eo_store _ Hok)).
Qed.


(** C16: deletes.  On an engine without a replicated log whose indexes agree with the
    records, a successful delete removes exactly the records the filter selects, keeps
    every index in agreement with the live records, and none of the deleted records was
    referred to by a live record through a relationship that restricts deletion. *)
Theorem delete_keeps_indexes c filter txn i i' res :
  engine_ok i → engine_indexed i → in_cluster i = None →
  delete_records c filter txn i = (i', Ok res) →
  engine_indexed i' ∧
  (∀ id, rm_get (records_of i') c id =
     match rm_get (records_of i) c id with
     | Some r => if selected filter r then None else Some r
     | None => None
     end) ∧
  ∀ id r, rm_get (records_of i) c id = Some r → selected filter r = true → ¬ restricted i c r.
Proof. apply delete_records_effect. Qed.

(** ** Runs that keep the indexes

    An engine that was opened with its indexes rebuilt, and then only saw schema creations,
    inserts, upserts, bulk inserts and deletes that succeeded, collections, and whatever
    touches neither store nor indexes (reads, the registry, staging, refused requests). *)

(** The unique fields an index watches are those of the schema. *)
Definition schema_indexes i : Prop := ∀ c schema ci,
  get_schema (in_storage i) c = Some schema → in_indexes i !! c = Some ci →
  ci_unique_fields ci = ci_unique_fields (from_schema schema).

(** The catalogue is a map from names to schemas of that name. *)
Definition catalog_ok s : Prop :=
  bt_wf (cat_schemas (st_catalog s)) ∧
  ∀ c schema, get_schema s c = Some schema → cs_name schema = c.

Definition no_update (m : Mutation) : bool := match m with MUpdate _ _ _ => false | _ => true end.

Inductive indexed_run : Inner L → Prop :=
| ir_open s counts now timeout gc_min i :
    store_ok s → catalog_ok s → engine_open s (λ _, None) counts now timeout gc_min = Ok i →
    indexed_run i
| ir_schema schema i i' :
    indexed_run i → create_schema schema i = (i', Ok tt) → indexed_run i'
| ir_mutation m i i' res :
    indexed_run i → no_update m = true → apply_mutation m i = (i', Ok res) → NoDup (mr_ids res) →
    indexed_run i'
| ir_gc i : indexed_run i → indexed_run (engine_gc i).1
| ir_other i i' :
    indexed_run i → engine_step (λ _, False) i i' → in_storage i' = in_storage i →
    in_indexes i' = in_indexes i → in_cluster i' = in_cluster i → indexed_run i'.

Record index_inv i : Prop := {
  iv_ok : engine_ok i;
  iv_indexed : engine_indexed i;
  iv_local : in_cluster i = None;
  iv_catalog : catalog_ok (in_storage i);
  iv_schemas : schema_indexes i;
}.

Lemma from_schema_unique schema f :
  f ∈ ci_unique_fields (from_schema schema) →
  ∃ fd, fd ∈ cs_fields schema ∧ fd_name fd = f ∧ (fd_primary_key fd || fd_unique fd) = true.
Proof.
  unfold from_schema. cbn [ci_unique_fields].
  assert (Hgen : ∀ fds ci, f ∈ ci_unique_fields (foldl index_field ci fds) →
    f ∈ ci_unique_fields ci ∨ ∃ fd, fd ∈ fds ∧ fd_name fd = f ∧ (fd_primary_key fd || fd_unique fd) = true).
  { induction fds as [|fd fds IH]; intros ci Hf; [by left|]. simpl in Hf. apply IH in Hf as [Hf|(fd' & ? & ?)].
    - unfold index_field in Hf. destruct (fd_primary_key fd) eqn:Ep, (fd_unique fd) eqn:Eu, (fd_type fd);
        cbn in Hf; try (destruct (fd_indexed fd); by left);
        (apply elem_of_app in Hf as [Hf|Hf%list_elem_of_singleton]; [by left|right]);
        exists fd; (split_and!; [by left|done|by rewrite Ep, Eu]).
    - right. exists fd'. split; [by right|done]. }
  intros [Hf|?]%Hgen; [by apply not_elem_of_nil in Hf|done].
Qed.

Lemma schema_indexes_unique i c schema ci :
  schema_indexes i → get_schema (in_storage i) c = Some schema → in_indexes i !! c = Some ci →
  fields_unique schema ci.
Proof. intros Hs Hc Hi f Hf. rewrite (Hs _ _ _ Hc Hi) in Hf. by apply from_schema_unique. Qed.

Lemma rebuild_unique_fields records ci :
  ci_unique_fields (rebuild records ci).1 = ci_unique_fields ci.
Proof.
  unfold rebuild.
  assert (Hgen : ∀ ci, ci_unique_fields (rebuild_loop records ci).1 = ci_unique_fields ci).
  { induction records as [|r records IH]; intros ci0; simpl; [done|]. destruct (check_unique _ _ _); [|done].
    by rewrite IH. }
  by rewrite Hgen.
Qed.

Lemma rebuild_indexes_ok (r : list (string * list (N * list Version))) c schema ci :
  rm_wf r → rebuild (rm_scan r c) (from_schema schema) = (ci, Ok tt) →
  index_ok ci (live_map r c) ∧ ci_unique_fields ci = ci_unique_fields (from_schema schema).
Proof.
  intros Hwf Hr. destruct (scan_facts r c Hwf) as [Hnd _]. split.
  - pose proof (rebuild_spec schema (rm_scan r c) _ eq_refl Hnd) as Hs. by rewrite Hr in Hs.
  - pose proof (rebuild_unique_fields (rm_scan r c) (from_schema schema)) as Hu. by rewrite Hr in Hu.
Qed.

(** *** Opening *)

Lemma open_indexes_spec s schemas : ∀ idx idx' c ci,
  open_indexes s (λ _, None) schemas idx = Ok idx' → idx' !! c = Some ci →
  idx !! c = Some ci ∨
  ∃ schema, schema ∈ schemas ∧ cs_name schema = c ∧
    rebuild (rm_scan (st_records s) c) (from_schema schema) = (ci, Ok tt).
Proof.
  induction schemas as [|schema schemas IH]; intros idx idx' c ci Ho Hci; simpl in Ho.
  { injection Ho as <-. by left. }
  destruct (rebuild (rm_scan (st_records s) (cs_name schema)) (from_schema schema)) as [ci0 [[]|e]] eqn:Er; [|done].
  destruct (IH _ _ _ _ Ho Hci) as [Hl|(sc & Hin & Hrest)]; [|right; exists sc; split; [by right|done]].
  apply lookup_insert_Some in Hl as [[<- <-]|[_ Hl]]; [|by left].
  right. exists schema. split; [by left|done].
Qed.

Lemma open_inv s counts now timeout gc_min i :
  store_ok s → catalog_ok s → engine_open s (λ _, None) counts now timeout gc_min = Ok i → index_inv i.
Proof.
  intros Hok [Hwf Hn] Ho. unfold engine_open in Ho.
  destruct (open_indexes s (λ _, None) _ ∅) as [idx|] eqn:Eo; [|done]. injection Ho as <-.
  assert (Hix : ∀ c ci, idx !! c = Some ci → ∃ schema, get_schema s c = Some schema ∧
    rebuild (rm_scan (st_records s) c) (from_schema schema) = (ci, Ok tt)).
  { intros c ci Hci. destruct (open_indexes_spec _ _ _ _ _ _ Eo Hci) as [Hl|(schema & Hin & Hc & Hr)]; [done|].
    exists schema. split; [|done]. apply list_elem_of_fmap in Hin as ([k sc] & -> & Hin).
    apply bt_elem_of_get in Hin; [|done]. simpl in *. by rewrite <- (Hn _ _ Hin), Hc in Hin. }
  split; simpl; [split; [done|constructor|done]| |done|done|].
  - intros c ci (schema & _ & Hr)%Hix. exact (proj1 (rebuild_indexes_ok _ _ _ _ (proj1 Hok) Hr)).
  - intros c schema ci Hs (schema' & Hs' & Hr)%Hix. simpl in Hs. assert (schema' = schema) as -> by congruence.
    exact (proj2 (rebuild_indexes_ok _ _ _ _ (proj1 Hok) Hr)).
Qed.

(** *** What requests leave alone *)

(** Catalogue and unique fields, on an engine without a replicated log. *)
Definition ikeeps i i' : Prop :=
  in_cluster i = None → in_cluster i' = None ∧ st_catalog (in_storage i') = st_catalog (in_storage i) ∧
  ∀ c ci', in_indexes i' !! c = Some ci' →
    ∃ ci, in_indexes i !! c = Some ci ∧ ci_unique_fields ci' = ci_unique_fields ci.

#[local] Instance ikeeps_refl : Reflexive ikeeps.
Proof. intros i Hc. split_and!; eauto. Qed.
#[local] Instance ikeeps_trans : Transitive ikeeps.
Proof.
  intros i1 i2 i3 Ha Hb Hc. destruct (Ha Hc) as (Hc2 & Hs2 & Hi2). destruct (Hb Hc2) as (Hc3 & Hs3 & Hi3).
  split_and!; [done|congruence|]. intros c ci (ci2 & Hci2 & ->)%Hi3. by apply Hi2.
Qed.

Lemma ikeeps_same i i' :
  in_storage i' = in_storage i → in_indexes i' = in_indexes i → in_cluster i' = in_cluster i → ikeeps i i'.
Proof. unfold ikeeps. intros -> -> ->. intros Hc. split_and!; eauto. Qed.

Lemma ikeeps_commit batch i : ikeeps i (engine_commit_batch batch i).1.
Proof.
  intros Hc. unfold engine_commit_batch. rewrite Hc.
  assert (Hcat : st_catalog (commit_batch batch (in_storage i)).1 = st_catalog (in_storage i))
    by (unfold commit_batch; by destruct (b_ops batch)).
  destruct (commit_batch batch (in_storage i)) as [s ts]. split_and!; [done|done|]. simpl. eauto.
Qed.

Lemma ikeeps_update c deltas i : ikeeps i (update_collection_index c deltas i).1.
Proof.
  intros Hc. unfold update_collection_index. destruct (in_indexes i !! c) as [ci|] eqn:E; simpl; [|by apply ikeeps_refl].
  split_and!; [done|done|]. intros c' ci'. rewrite lookup_insert_Some. intros [[<- <-]|[_ Hci]]; [|eauto].
  exists ci. split; [done|]. clear E. revert ci. induction deltas as [|[o n] deltas IH]; intros ci; simpl; [done|].
  rewrite IH. by destruct o, n.
Qed.

Lemma ikeeps_lift {A} (r : Res A) i : ikeeps i (lift r i).1.
Proof. by destruct r. Qed.

Lemma ikeeps_next_id i : ikeeps i (next_id i).1.
Proof. by apply ikeeps_same. Qed.

Lemma ikeeps_check_index c i (f : CollectionIndexes → Res unit) :
  ikeeps i (match in_indexes i !! c with
            | None => (i, Err Panicked)
            | Some ci => lift (f ci) i
            end).1.
Proof. destruct (in_indexes i !! c); [apply ikeeps_lift|done]. Qed.

Ltac iwalk :=
  repeat first
    [ done
    | apply ikeeps_lift | apply ikeeps_next_id | apply ikeeps_commit
    | apply ikeeps_update | apply ikeeps_check_index
    | apply se_bind_rel; [apply _| |intros]
    | match goal with |- ikeeps _ ((if ?b then _ else _) _).1 => destruct b end ].

Lemma write_records_ikeeps c docs mode txn i : ikeeps i (write_records c docs mode txn i).1.
Proof.
  unfold write_records. apply se_bind_rel; [apply _|iwalk|intros schema i1 _].
  apply se_bind_rel; [apply _| |intros; iwalk]. clear. generalize (∅ : gset string).
  revert i1. induction docs as [|fields docs IH]; intros i1 pending; simpl; [done|].
  apply se_bind_rel; [apply _|unfold prepare_record; iwalk|intros p i2 _].
  apply se_bind_rel; [apply _|apply IH|done].
Qed.

Lemma delete_records_ikeeps c filter txn i : ikeeps i (delete_records c filter txn i).1.
Proof.
  unfold delete_records. do 3 (apply se_bind_rel; [apply _|iwalk|intros]).
  match goal with |- context [match ?l with [] => _ | _ :: _ => _ end] => destruct l end; iwalk.
Qed.

Lemma ikeeps_schemas i i' : in_cluster i = None → ikeeps i i' → schema_indexes i → schema_indexes i'.
Proof.
  intros Hl Hk Hs c schema ci. destruct (Hk Hl) as (_ & Hcat & Hi). unfold get_schema. rewrite Hcat.
  intros Hc (ci0 & Hci0 & ->)%Hi. by apply (Hs c).
Qed.

(** *** The invariant *)

(** A step that changes the records of no collection and no index. *)
Lemma index_inv_same i i' :
  index_inv i → engine_ok i' → (∀ c id, rm_get (records_of i') c id = rm_get (records_of i) c id) →
  st_catalog (in_storage i') = st_catalog (in_storage i) → in_indexes i' = in_indexes i →
  in_cluster i' = in_cluster i → index_inv i'.
Proof.
  intros [Hok Hix Hl Hcat Hs] Hok' Hr Hc Hi Hcl. split.
  - done.
  - intros c ci. rewrite Hi. intros Hci. replace (live_map (records_of i') c) with (live_map (records_of i) c).
    + by apply Hix.
    + apply map_eq. intros id. by rewrite !live_map_get, Hr by (apply Hok || apply Hok').
  - by rewrite Hcl.
  - unfold catalog_ok, get_schema. rewrite Hc. exact Hcat.
  - intros c schema ci. unfold get_schema. rewrite Hc, Hi. apply Hs.
Qed.

Lemma index_inv_keeps i i' :
  index_inv i → engine_ok i' → engine_indexed i' → ikeeps i i' → index_inv i'.
Proof.
  intros [Hok Hix Hl Hcat Hs] Hok' Hix' Hk. destruct (Hk Hl) as (Hl' & Hc & _).
  split; [done|done|done| |exact (ikeeps_schemas i i' Hl Hk Hs)].
  unfold catalog_ok, get_schema. rewrite Hc. exact Hcat.
Qed.

Lemma mutation_inv m i i' res :
  index_inv i → no_update m = true → apply_mutation m i = (i', Ok res) → NoDup (mr_ids res) → index_inv i'.
Proof.
  intros Hinv Hm Ha Hnd. pose proof Hinv as [Hok Hix Hl Hcat Hs].
  assert (Hok' : engine_ok i').
  { replace i' with (apply_mutation m i).1 by (by rewrite Ha). eapply step_ok, (es_mutation (λ _, False)); done. }
  unfold apply_mutation, se_bind, se_modify, se_ret in Ha.
  assert (Hwrite : ∀ c docs mode, match write_records c docs mode txn_auto i with
      | (i1, Ok a) => (refresh_stats_row_count (mutation_collection m) i1, Ok a)
      | (i1, Err e) => (i1, Err e)
      end = (i', Ok res) → index_inv i').
  { intros c docs mode Hw. pose proof (write_records_ikeeps c docs mode txn_auto i) as Hk.
    destruct (write_records c docs mode txn_auto i) as [i1 [r|e]] eqn:Ew; [|done]. injection Hw as <- <-.
    apply (index_inv_keeps i); [done|done| |by intros Hl'; apply Hk].
    assert (Hsch : ∃ schema, get_schema (in_storage i) c = Some schema).
    { unfold write_records, se_bind, schema_for in Ew. destruct (get_schema (in_storage i) c); [eauto|done]. }
    destruct Hsch as [schema Hsch]. intros c' ci. simpl.
    apply (write_records_indexed c docs mode txn_auto i i1 r schema); try done.
    intros ci0 Hci0. by eapply schema_indexes_unique. }
  destruct m as [c fields|c docs|c filter set|c filter|c fields]; try done; try (eapply Hwrite, Ha).
  pose proof (delete_records_ikeeps c filter txn_auto i) as Hk.
  destruct (delete_records c filter txn_auto i) as [i1 [r|e]] eqn:Ed; [|done]. injection Ha as <- <-.
  apply (index_inv_keeps i); [done|done| |by intros Hl'; apply Hk]. intros c' ci. simpl.
  by apply (delete_records_effect c filter txn_auto i i1 r).
Qed.

Lemma schema_inv schema i i' : index_inv i → create_schema schema i = (i', Ok tt) → index_inv i'.
Proof.
  intros [Hok Hix Hl [Hcw Hcn] Hs] Hc.
  assert (Hok' : engine_ok i').
  { replace i' with (create_schema schema i).1 by (by rewrite Hc). eapply step_ok, (es_schema (λ _, False)); done. }
  unfold create_schema in Hc. destruct (validate_definition schema) eqn:Ev; [|done].
  unfold put_schema in Hc. rewrite Ev in Hc.
  match type of Hc with context [set_storage ?x i] => set (s1 := x) in Hc end.
  destruct (rebuild _ _) as [ci [[]|e]] eqn:Er in Hc; [|done]. injection Hc as <-.
  assert (Hlive : ∀ c, live_map (st_records s1) c = live_map (records_of i) c).
  { intros c. apply map_eq. intros id. rewrite !live_map_get by (apply Hok || apply Hok').
    unfold rm_get. by rewrite <- (chain_of_ensure c (cs_name schema) (records_of i) id). }
  destruct (rebuild_indexes_ok (st_records s1) (cs_name schema) schema ci) as [Hci Hu]; [apply Hok'|exact Er|].
  assert (Hget : ∀ c, get_schema s1 c = if decide (c = cs_name schema) then Some schema else get_schema (in_storage i) c).
  { intros c. unfold s1, get_schema. simpl. rewrite bt_get_insert. repeat case_decide; congruence. }
  split; [done| |done| |].
  - intros c ci'. change (records_of _) with (st_records s1). cbn [in_indexes set_indexes set_row_counts].
    rewrite lookup_insert_Some. intros [[<- <-]|[_ Hci']]; [done|].
    rewrite (Hlive c). by apply Hix.
  - split; [by apply bt_wf_insert|]. intros c sc. change (get_schema (in_storage _) c) with (get_schema s1 c). rewrite Hget. case_decide; [congruence|apply Hcn].
  - intros c sc ci'. change (get_schema (in_storage _) c) with (get_schema s1 c).
    cbn [in_indexes set_indexes set_row_counts]. rewrite Hget, lookup_insert_Some. case_decide as E.
    + intros [= <-] [[_ <-]|[Hne _]]; [done|by subst].
    + intros Hsc [[<- _]|[_ Hci']]; [done|]. by apply (Hs c).
Qed.

Lemma gc_inv_indexes i : index_inv i → index_inv (engine_gc i).1.
Proof.
  intros Hinv. pose proof (iv_ok _ Hinv) as Hok.
  assert (Hok' : engine_ok (engine_gc i).1) by (eapply step_ok, (es_gc (λ _, False)); done).
  apply (index_inv_same i); [done|done| | | |]; try (unfold engine_gc; by destruct (gc _ _ _) eqn:E).
  - intros c id. unfold records_of. rewrite engine_gc_storage, gc_records. apply gc_get, Hok.
  - by rewrite engine_gc_storage, gc_state.
Qed.

Lemma indexed_run_inv i : indexed_run i → index_inv i.
Proof.
  intros Hr. induction Hr as [s counts now timeout gc_min i Hs Hc Ho|schema i i' _ IH Hc|m i i' res _ IH Hm Ha Hnd
    |i _ IH|i i' _ IH Hst Hs Hi Hl].
  - by eapply open_inv.
  - by eapply schema_inv.
  - by eapply mutation_inv.
  - by apply gc_inv_indexes.
  - apply (index_inv_same i); [done|by eapply step_ok, Hst; apply IH|..|done|done]; intros; by rewrite ?Hs;
      unfold records_of; rewrite ?Hs.
Qed.
End index_kept.
