(* ===== verification/EngineRead.v ===== *)
(** * Reads through the engine

    Models the two data sources of [crates/auradb/src/engine.rs] (the engine and a
    transaction's view of it), the read requests that run on them, and index
    maintenance ([rebuild_indexes], [check_consistency], [analyze]).  Both sources are
    shown to keep the contract of [ExecSpec], so its theorems hold of the engine.  The
    report on search indexes is at the end.

    The planner statistics are an argument: the contract does not mention them.  The
    clock of the deadlines starts at the reading [0]. *)

From Stdlib Require Import Floats.SpecFloat.
From stdpp Require Import sorting.
From S2P Require Import Prelude Sorting BTree Text Value Core Rank Eval Chars Index Vector TextSearch Analyzer AnalyzedSearch Snippet Query Planner Cursor Exec ExecSpec IndexSnapshot SearchPage Aggregate QueryTools Mvcc Storage Txn Engine EngineSpec EngineIndex.

Local Open Scope N_scope.

Section sources.
Context `{Unicode, CharCase, NaturalLog, MapOrder, AnnSearch, ElapsedTime, HashOrder}
  `{JsonText, StorageCodec, QueryJson}.
Context {L : Type} `{ReplicatedLog L}.
Implicit Types (i : Inner L) (t : Transaction) (stats : string → option CollectionStats).

(** ** Data sources *)

Definition engine_source i stats : DataSource :=
  mkSource (get_schema (in_storage i)) (λ c, in_indexes i !! c) (rm_scan (records_of i))
    (rm_get (records_of i)) (resolve_link i) stats (Some STATS_FORMAT_VERSION).

(** The indexes of a view: those built over the transaction's records, if any. *)
Definition view_indexes i (collection : string) (overlay : option CollectionIndexes) (c : string)
  : option CollectionIndexes :=
  match overlay with
  | Some ci => if bool_decide (c = collection) then Some ci else in_indexes i !! c
  | None => in_indexes i !! c
  end.

Definition txn_overlay i t (collection : string) : Res (option CollectionIndexes) :=
  if tx_is_empty t then Ok None
  else match get_schema (in_storage i) collection with
       | Some schema =>
           match rebuild (overlay_scan i t collection) (from_schema schema) with
           | (ci, Ok _) => Ok (Some ci)
           | (_, Err e) => Err e
           end
       | None => Ok None
       end.

Definition txn_view i t (collection : string) stats : Res DataSource :=
  let? overlay := txn_overlay i t collection in
  Ok (mkSource (get_schema (in_storage i)) (view_indexes i collection overlay) (overlay_scan i t)
        (txn_get i t) (λ target key, txn_get i t target (derive_id target key)) stats
        (Some STATS_FORMAT_VERSION)).

(** ** Reads *)

Definition engine_plan_find stats (q : FindQuery) i : Res PlannedFind :=
  (execute_find (engine_source i stats) q 0%nat).2.

Definition engine_find stats (q : FindQuery) i : Res (list Row) :=
  let? planned := engine_plan_find stats q i in
  materialize (engine_source i stats) q (pf_ordered planned).

Definition engine_count stats (q : CountQuery) i : Res nat := execute_count (engine_source i stats) q.
Definition engine_exists stats (q : ExistsQuery) i : Res bool := execute_exists (engine_source i stats) q.
Definition engine_explain stats (q : FindQuery) i : Res ExplainPlan :=
  (explain (engine_source i stats) q 0%nat).2.
Definition engine_explain_analyze stats (q : FindQuery) i : Res ExplainPlan :=
  (explain_analyze (engine_source i stats) q None 0%nat).2.

(** A read within a transaction: the transaction is touched first, then the view is
    built for the queried collection. *)
Definition in_view {A} stats t (collection : string) (read : DataSource → Res A)
  : SE (Inner L) Fault A :=
  touch_txn (tx_id t) >>>
  (λ i, lift (let? view := txn_view i t collection stats in read view) i).

Definition txn_plan_find stats t (q : FindQuery) : SE (Inner L) Fault PlannedFind :=
  in_view stats t (fq_collection q) (λ view, (execute_find view q 0%nat).2).

Definition txn_find stats t (q : FindQuery) : SE (Inner L) Fault (list Row) :=
  in_view stats t (fq_collection q)
    (λ view, let? planned := (execute_find view q 0%nat).2 in materialize view q (pf_ordered planned)).

Definition txn_materialize_page stats t (q : FindQuery) (page : list Scored) (start_rank : nat)
  : SE (Inner L) Fault (list Row) :=
  in_view stats t (fq_collection q) (λ view, materialize_page view q page start_rank).

Definition txn_count stats t (q : CountQuery) : SE (Inner L) Fault nat :=
  in_view stats t (cq_collection q) (λ view, execute_count view q).

Definition txn_exists stats t (q : ExistsQuery) : SE (Inner L) Fault bool :=
  in_view stats t (eq_collection q) (λ view, execute_exists view q).

Definition txn_explain stats t (q : FindQuery) : SE (Inner L) Fault ExplainPlan :=
  in_view stats t (fq_collection q) (λ view, (explain view q 0%nat).2).

Definition txn_explain_analyze stats t (q : FindQuery) : SE (Inner L) Fault ExplainPlan :=
  in_view stats t (fq_collection q)
    (λ view, (explain_analyze view q (Some (tx_read_ts t)) 0%nat).2).

(** A page of a ranked search, as rows. *)
Definition page_rows (ds : DataSource) (q : FindQuery) (page_size : nat) (cursor : option (list byte))
  : Res (list Row * option (list byte)) :=
  let d := after_ms (default 0 (fq_timeout_ms q)) in
  let? page := (search_ranked_page ds q page_size cursor d 0%nat).2 in
  let? rows := materialize_page ds q (pg_rows page) (pg_start_rank page) in
  Ok (rows, pg_next_cursor page).

Definition engine_search_page stats (q : FindQuery) (page_size : nat) (cursor : option (list byte)) i
  : Res (list Row * option (list byte)) :=
  page_rows (engine_source i stats) q page_size cursor.

Definition txn_search_page stats t (q : FindQuery) (page_size : nat) (cursor : option (list byte))
  : SE (Inner L) Fault (list Row * option (list byte)) :=
  in_view stats t (fq_collection q) (λ view, page_rows view q page_size cursor).

Definition run_aggregate (ds : DataSource) (q : AggregateQuery) : Res AggregateResult :=
  (execute_aggregate ds q (after_ms (default 0 (aq_timeout_ms q))) 0%nat).2.

Definition engine_aggregate stats (q : AggregateQuery) i : Res AggregateResult :=
  run_aggregate (engine_source i stats) q.

Definition txn_aggregate stats t (q : AggregateQuery) : SE (Inner L) Fault AggregateResult :=
  in_view stats t (aq_collection q) (λ view, run_aggregate view q).

Definition migration_estimate stats (target : CollectionSchema) i : Res MigrationEstimate :=
  estimate (engine_source i stats) target.

(** ** Observation *)

Record ActiveTransaction := mkActiveTxn {
  at_id : N;
  at_read_ts : N;
  at_age_secs : N;
  at_idle_secs : N;
  at_connection_id : option N;
  at_state : TxnState;
}.

(** The subtractions saturate. *)
Definition active_transactions i : list ActiveTransaction :=
  (λ '(id, e), mkActiveTxn id (te_read_ts e) (in_now i - te_started_at e)
                 (in_now i - te_last_activity e) (te_connection_id e) (te_state e)) <$> in_txns i.

Record EngineStats := mkEngineStats {
  es_collections : nat;
  es_records : nat;
  es_versions : nat;
  es_active_transactions : nat;
  es_timed_out_transactions : nat;
  es_oldest_active_read_ts : option N;
  es_oldest_transaction_age_secs : option N;
  es_transaction_timeouts_total : N;
  es_schema_version : N;
}.

(** [Iterator::max]. *)
Definition max_of (l : list N) : option N :=
  match l with [] => None | x :: l' => Some (foldl N.max x l') end.

Definition engine_stats i : EngineStats :=
  let active := filter (λ e, te_state e = TActive) (in_txns i).*2 in
  let timed_out := filter (λ e, te_state e = TTimedOut) (in_txns i).*2 in
  mkEngineStats (length (cat_schemas (st_catalog (in_storage i)))) (rm_total_records (records_of i))
    (rm_total_versions (records_of i)) (length active) (length timed_out) (oldest_active_read_ts i)
    (max_of ((λ e, in_now i - te_started_at e) <$> active)) (in_timeouts_total i)
    (cat_schema_version (st_catalog (in_storage i))).

(** ** Maintenance *)

Fixpoint rebuild_all (s : Storage) (schemas : list CollectionSchema)
    (indexes : gmap string CollectionIndexes) : gmap string CollectionIndexes * Res unit :=
  match schemas with
  | [] => (indexes, Ok tt)
  | schema :: schemas' =>
      match rebuild (rm_scan (st_records s) (cs_name schema)) (from_schema schema) with
      | (ci, Ok _) => rebuild_all s schemas' (<[cs_name schema := ci]> indexes)
      | (_, Err e) => (indexes, Err e)
      end
  end.

(** Returns the number of indexes rebuilt; persisting the snapshots is not modelled. *)
Definition rebuild_indexes : SE (Inner L) Fault nat := λ i,
  let schemas := bt_values (cat_schemas (st_catalog (in_storage i))) in
  let '(indexes, r) := rebuild_all (in_storage i) schemas ∅ in
  (set_indexes indexes i, match r with Ok _ => Ok (length schemas) | Err e => Err (Failed e) end).

Fixpoint check_all (s : Storage) (indexes : list (string * CollectionIndexes)) : Res nat :=
  match indexes with
  | [] => Ok 0%nat
  | (name, ci) :: rest =>
      let? n := consistency_check ci (rm_scan (st_records s) name) in
      let? total := check_all s rest in
      Ok (n + total)%nat
  end.

Definition check_consistency i : Res nat := check_all (in_storage i) (map_to_list (in_indexes i)).

(** [analyze_all]: the statistics of every collection. *)
Definition analyze_all i : list (string * CollectionStats) :=
  foldl (λ m schema, bt_insert (cs_name schema)
                       (compute_stats schema (rm_scan (records_of i) (cs_name schema))) m)
    [] (bt_values (cat_schemas (st_catalog (in_storage i)))).
(** ** The engine keeps the contract *)

Lemma by_id_source (records : list Rec) (get : N → option Rec) :
  NoDup (rec_id <$> records) → (∀ r, r ∈ records ↔ get (rec_id r) = Some r) →
  (∀ id r, get id = Some r → rec_id r = id) →
  (∀ id, get id = by_id records !! id) ∧ records ≡ₚ (map_to_list (by_id records)).*2.
Proof.
  intros Hnd Hin Hid.
  assert (Hget : ∀ id, get id = by_id records !! id).
  { intros id. destruct (get id) as [r|] eqn:E.
    - pose proof (Hid _ _ E) as <-. symmetry. apply by_id_elem; [done|]. by apply Hin.
    - symmetry. apply not_elem_of_list_to_map_1. rewrite <- list_fmap_compose.
      intros (r & -> & Hr)%list_elem_of_fmap. apply Hin in Hr. simpl in E. congruence. }
  split; [done|]. unfold by_id. rewrite map_to_list_to_map.
  - rewrite <- list_fmap_compose. symmetry. by rewrite list_fmap_id.
  - by rewrite <- list_fmap_compose.
Qed.

Lemma engine_source_ok i stats c :
  engine_ok i → engine_indexed i → source_ok (engine_source i stats) c (live_map (records_of i) c).
Proof.
  intros Hok Hix. destruct (scan_facts (records_of i) c) as [Hnd Hin]; [apply Hok|].
  destruct (by_id_source (rm_scan (records_of i) c) (rm_get (records_of i) c)) as [Hget Hperm];
    [done|done| |].
  { intros id x Hx. apply get_placed in Hx as [_ ?]; [done|apply Hok]. }
  split; simpl; [exact Hget| |exact Hperm|intros ci Hci; by apply Hix].
  intros id r Hr. by eapply live_map_ids; [apply Hok|].
Qed.

(** ** A transaction's view *)

(** The records a transaction sees. *)
Definition txn_map i t (c : string) : gmap N Rec := by_id (overlay_scan i t c).

Lemma scan_as_of_nodup (r : RecordMap) c ts : rm_wf r → NoDup (rec_id <$> rm_scan_as_of r c ts).
Proof.
  intros Hwf. unfold rm_scan_as_of. destruct (inner_wf_of r c Hwf) as [Hb Hi].
  assert (Hids : ∀ id chain x, (id, chain) ∈ inner r c → visible_at chain ts ≫= v_value = Some x →
    rec_id x = id).
  { intros id chain x Hin Hx. apply bt_elem_of_get in Hin as Hg; [|done].
    assert (Hgx : rm_get_as_of r c id ts = Some x)
      by (unfold rm_get_as_of; by rewrite chain_of_inner, Hg).
    by apply get_as_of_placed in Hgx as [_ ?]. }
  unfold bt_wf, bt_keys in Hb. unfold bt_values. clear Hi.
  induction (inner r c) as [|[k chain] m IH]; [constructor|]. simpl in *.
  apply StronglySorted_inv in Hb as [Hb Hk].
  assert (IHm : NoDup (rec_id <$> omap (λ chain, visible_at chain ts ≫= v_value) m.*2)).
  { apply IH; [done|]. intros id ch x Hin. apply Hids. by right. }
  destruct (visible_at chain ts ≫= v_value) as [x|] eqn:Ex; [|done]. rewrite fmap_cons.
  apply NoDup_cons. split; [|done]. rewrite (Hids k chain x) by (done || by left).
  intros (y & -> & Hy)%list_elem_of_fmap. apply list_elem_of_omap in Hy as (ch & Hch & Hy).
  apply list_elem_of_fmap in Hch as ([k' ch'] & -> & Hin). simpl in Hy.
  rewrite Forall_forall in Hk. rewrite (Hids k' ch' y) in Hk by (done || by right).
  apply (klt_irrefl k'), Hk. apply list_elem_of_fmap. by exists (k', ch').
Qed.

(** The staged records of a collection. *)
Definition staged_puts t (c : string) : list Rec :=
  omap (λ '(_, op), match op with
                    | SPut record => if bool_decide (rec_collection record = c)
                                     then Some record else None
                    | SDelete => None
                    end) (tx_staged t).

Lemma staged_puts_elem t c r :
  txn_wf t → r ∈ staged_puts t c → staged t (c, rec_id r) = Some (SPut r) ∧ rec_collection r = c.
Proof.
  intros [Hwf Hp] Hin. apply list_elem_of_omap in Hin as ([[c' id] op] & Hin & Hx).
  destruct op as [r'|]; [|done]. case_bool_decide as Hc; [|done]. injection Hx as ->.
  apply bt_elem_of_get in Hin; [|done]. destruct (Hp _ _ _ Hin) as [<- <-]. subst c. done.
Qed.

Lemma staged_puts_nodup t c : txn_wf t → NoDup (rec_id <$> staged_puts t c).
Proof.
  intros [Hwf Hp]. unfold staged_puts.
  assert (Hkey : ∀ k r, (k, SPut r) ∈ tx_staged t → k = (rec_collection r, rec_id r)).
  { intros [c' id] r Hin. apply bt_elem_of_get in Hin; [|done]. by destruct (Hp _ _ _ Hin) as [-> ->]. }
  unfold bt_wf, bt_keys in Hwf. clear Hp.
  induction (tx_staged t) as [|[k op] m IH]; [constructor|]. simpl in *.
  apply StronglySorted_inv in Hwf as [Hwf Hk].
  assert (IHm : NoDup (rec_id <$> omap (λ '(_, op), match op with
    | SPut record => if bool_decide (rec_collection record = c) then Some record else None
    | SDelete => None end) m)).
  { apply IH; [done|]. intros k' r Hin. apply Hkey. by right. }
  destruct op as [r|]; [|done]. case_bool_decide as Hc; [|done]. rewrite fmap_cons.
  apply NoDup_cons. split; [|done]. intros (y & Hid & Hy)%list_elem_of_fmap.
  apply list_elem_of_omap in Hy as ([k' [r'|]] & Hin & Hy); [|done]. case_bool_decide as Hc'; [|done].
  injection Hy as ->. rewrite Forall_forall in Hk. apply (klt_irrefl k).
  replace k with k' at 2.
  - apply Hk. apply list_elem_of_fmap. by exists (k', SPut y).
  - rewrite (Hkey k' y) by (by right). rewrite (Hkey k r) by (by left). by rewrite Hid, Hc, Hc'.
Qed.

Lemma overlay_nodup i t c : engine_ok i → txn_wf t → NoDup (rec_id <$> overlay_scan i t c).
Proof.
  intros Hok Hwf. unfold overlay_scan. fold (staged_puts t c). rewrite fmap_app. apply NoDup_app.
  split_and!.
  - eapply sublist_NoDup; [apply (scan_as_of_nodup (records_of i) c (tx_read_ts t)); apply Hok|].
    apply fmap_sublist, sublist_filter.
  - intros id (r & -> & [Hst _]%list_elem_of_filter)%list_elem_of_fmap Hin.
    apply list_elem_of_fmap in Hin as (r' & Hid & Hr').
    apply (staged_puts_elem t c r' Hwf) in Hr' as [Hs _]. congruence.
  - by apply staged_puts_nodup.
Qed.

Lemma overlay_collection i t c r :
  engine_ok i → txn_wf t → r ∈ overlay_scan i t c → rec_collection r = c.
Proof.
  intros Hok Hwf. unfold overlay_scan. fold (staged_puts t c). rewrite elem_of_app.
  intros [[_ Hin]%list_elem_of_filter|Hin].
  - apply scan_as_of_elem in Hin; [|apply Hok]. apply get_as_of_placed in Hin as [? _]; [done|apply Hok].
  - by apply staged_puts_elem in Hin as [_ ?].
Qed.

Lemma txn_get_placed i t c id r :
  engine_ok i → txn_wf t → txn_get i t c id = Some r → rec_collection r = c ∧ rec_id r = id.
Proof.
  intros Hok [_ Hp]. unfold txn_get, staged. destruct (bt_get (c, id) (tx_staged t)) as [[r'|]|] eqn:E.
  - intros [= <-]. by eapply Hp.
  - done.
  - apply get_as_of_placed. apply Hok.
Qed.

(** Reads and scans of a view agree, with or without staged writes. *)
Lemma view_records i t c :
  engine_ok i → txn_wf t →
  (∀ id, txn_get i t c id = txn_map i t c !! id) ∧
  overlay_scan i t c ≡ₚ (map_to_list (txn_map i t c)).*2.
Proof.
  intros Hok Hwf. apply (by_id_source _ (txn_get i t c)); [by apply overlay_nodup| |].
  - intros r. split.
    + intros Hin. apply overlay_scan_elem; [done|done|by eapply overlay_collection|done].
    + intros Hg. apply overlay_scan_elem; [done|done| |done]. by apply txn_get_placed in Hg as [? _].
  - intros id r Hg. by apply txn_get_placed in Hg as [_ ?].
Qed.

Lemma txn_view_source_ok i t c stats view :
  engine_ok i → txn_wf t → tx_is_empty t = false → is_Some (get_schema (in_storage i) c) →
  txn_view i t c stats = Ok view → source_ok view c (txn_map i t c).
Proof.
  intros Hok Hwf Hne [schema Hs] Hv. destruct (view_records i t c Hok Hwf) as [Hget Hscan].
  unfold txn_view, txn_overlay in Hv. rewrite Hne, Hs in Hv.
  pose proof (rebuild_spec schema (overlay_scan i t c) _ eq_refl (overlay_nodup i t c Hok Hwf)) as Hr.
  destruct (rebuild _ _) as [ci [[]|e]]; [|done]. simpl in Hv. injection Hv as <-.
  split; simpl; [done| |done|].
  - intros id r Hr'. rewrite <- Hget in Hr'. by apply txn_get_placed in Hr' as [_ ?].
  - rewrite bool_decide_eq_true_2 by done. by intros ci' [= <-].
Qed.

(** C26: the engine keeps the contract its queries rely on.  Take an engine without a
    replicated log that opened a store by rebuilding its indexes and since then served
    schema creations, inserts, upserts, bulk inserts and deletes that succeeded (an insert
    giving its records different ids), collections, and requests that change neither store
    nor indexes.  Then reads, scans and indexes of the committed state agree on the live
    records; and in a transaction that has staged writes they agree on the records it sees:
    its own writes over its snapshot. *)
Theorem engine_sources_ok i t c stats stats' view :
  indexed_run i → txn_wf t → tx_is_empty t = false →
  is_Some (get_schema (in_storage i) c) → txn_view i t c stats' = Ok view →
  source_ok (engine_source i stats) c (live_map (records_of i) c) ∧
  (∀ id, live_map (records_of i) c !! id = rm_get (records_of i) c id) ∧
  source_ok view c (txn_map i t c) ∧
  ∀ id, txn_map i t c !! id = txn_get i t c id.
Proof.
  intros Hrun Hwf Hne Hs Hv. destruct (indexed_run_inv i Hrun) as [Hok Hix _ _ _]. split_and!.
  - by apply engine_source_ok.
  - intros id. apply live_map_get, Hok.
  - by eapply txn_view_source_ok.
  - intros id. symmetry. by apply view_records.
Qed.
End sources.

(** ** The report on search indexes

    Models [Engine::search_index_report] of [crates/auradb/src/engine.rs] and the listings
    of [crates/auradb-index/src/lib.rs] it reads: the statistics of every full-text and
    vector index, for the status commands.  Hash maps are listed in the order of
    [map_to_list]; the report sorts what it lists.  The graph metadata of a loaded snapshot
    is an argument. *)

Local Open Scope nat_scope.

Record TextIndexStats := mkTextStats {
  ts_documents : nat;
  ts_distinct_terms : nat;
  ts_avg_doc_len : f32;
}.

Record TextIndexInfo := mkTextInfo {
  tf_field : string;
  tf_documents : nat;
  tf_distinct_terms : nat;
  tf_avg_doc_len : f32;
  tf_warning : bool;
}.

Record VectorIndexInfo := mkVectorInfo {
  vf_field : string;
  vf_dim : nat;
  vf_vectors : nat;
  vf_ann_preview_eligible : bool;
  vf_ann_preview_status : string;
  vf_ann_generation : option N;
}.

Record SearchIndexInfo := mkSearchInfo {
  si_collection : string;
  si_text_fields : list TextIndexInfo;
  si_vector_fields : list VectorIndexInfo;
}.

(** [avg_doc_len]: zero when empty. *)
Definition avg_doc_len (ti : TextIndex) : f32 :=
  if bool_decide (size (ti_doc_lengths ti) = 0) then f32_zero
  else f32_div (f32_of_N (ti_total_tokens ti)) (f32_of_N (N.of_nat (size (ti_doc_lengths ti)))).

Definition text_index_stats (ci : CollectionIndexes) (field : string) : option TextIndexStats :=
  (λ ti, mkTextStats (size (ti_doc_lengths ti)) (size (ti_postings ti)) (avg_doc_len ti))
    <$> ci_text_maps ci !! field.

Definition text_field_names (ci : CollectionIndexes) : list string := (map_to_list (ci_text_maps ci)).*1.

Definition vector_field_stats (ci : CollectionIndexes) : list (string * nat * nat) :=
  (λ '(field, vi), (field, vi_dim vi, size (vi_entries vi))) <$> map_to_list (ci_vector_maps ci).

Definition text_info (ci : CollectionIndexes) (field : string) : option TextIndexInfo :=
  (λ s, mkTextInfo field (ts_documents s) (ts_distinct_terms s) (ts_avg_doc_len s)
          ((0 <? ts_documents s) && SFleb (ts_avg_doc_len s) f32_zero)%bool) <$> text_index_stats ci field.

Definition vector_info (loaded : list HnswMetadata) : string * nat * nat → VectorIndexInfo :=
  λ '(field, dim, count),
    let eligible := ANN_PREVIEW_MIN_VECTORS <=? count in
    mkVectorInfo field dim count eligible
      (if eligible then "ready_on_use" else "exact_only_below_threshold")
      (hm_generation <$> head (filter (λ m, hm_field m = field) loaded)).

Definition collection_report (loaded : list HnswMetadata) (name : string) (ci : CollectionIndexes)
  : option SearchIndexInfo :=
  let text_fields := sort_by (λ a b, String.compare (tf_field a) (tf_field b))
                       (omap (text_info ci) (text_field_names ci)) in
  let vector_fields := sort_by (λ a b, String.compare (vf_field a) (vf_field b))
                         (vector_info loaded <$> vector_field_stats ci) in
  if (bool_decide (text_fields = []) && bool_decide (vector_fields = []))%bool then None
  else Some (mkSearchInfo name text_fields vector_fields).

Definition search_index_report {L} (loaded : string → list HnswMetadata) (i : Inner L) : list SearchIndexInfo :=
  omap (λ schema, in_indexes i !! cs_name schema ≫= collection_report (loaded (cs_name schema)) (cs_name schema))
    (bt_values (cat_schemas (st_catalog (in_storage i)))).

(** The report lists a vector field as eligible exactly when the executor answers a
    request for the preview with the approximate search. *)
Lemma report_eligible_runs_preview loaded ci field vi ann :
  ci_vector_maps ci !! field = Some vi →
  ∃ info, info ∈ vector_info loaded <$> vector_field_stats ci ∧ vf_field info = field ∧
    vf_vectors info = size (vi_entries vi) ∧
    (vf_ann_preview_eligible info = true ↔
     resolve_vector_mode (Some ann) (default 0 (vector_len ci field)) = Ok VMAnnPreview).
Proof.
  intros Hvi. exists (vector_info loaded (field, vi_dim vi, size (vi_entries vi))). split_and!; [|done|done|].
  - apply list_elem_of_fmap_2. unfold vector_field_stats.
    apply (list_elem_of_fmap_2' _ _ (field, vi)); [by apply elem_of_map_to_list|done].
  - unfold vector_len, resolve_vector_mode, vector_info. rewrite Hvi.
    change (default 0 _) with (size (vi_entries vi)). cbn [vf_ann_preview_eligible].
    destruct (ANN_PREVIEW_MIN_VECTORS <=? size (vi_entries vi)); [by split|].
    split; [done|]. by destruct (ann_fallback ann).
Qed.

(** A text index is reported with a warning exactly when it has documents whose lengths
    were lost. *)
Lemma report_warning ci field info :
  text_info ci field = Some info →
  tf_warning info = true ↔
    ∃ ti, ci_text_maps ci !! field = Some ti ∧ ti_doc_lengths ti ≠ ∅ ∧ SFleb (avg_doc_len ti) f32_zero = true.
Proof.
  unfold text_info, text_index_stats. destruct (ci_text_maps ci !! field) as [ti|]; [|done]. simpl.
  intros [= <-]. simpl. rewrite andb_true_iff, Nat.ltb_lt. split.
  - intros [Hs Ha]. exists ti. split_and!; [done| |done]. intros He. rewrite He, map_size_empty in Hs. lia.
  - intros (ti' & [= <-] & Hne & Ha). split; [|done].
    apply Nat.neq_0_lt_0. intros Hz%map_size_empty_iff. done.
Qed.
