(* ===== verification/EngineSample.v ===== *)
(** * A concrete engine

    Concrete instances of what the engine is parameterised by (number and text form of
    JSON, character tables, a replicated log that is never attached), one small
    database, and runs of the engine on it: the promises of [Index], [EngineSpec] and
    [EngineIndex] on concrete states, and the runs in which the engine does not do what
    it means to. *)

From Stdlib Require Import Floats.SpecFloat.
From S2P Require Import Prelude BTree Text Framing Value Core Eval Index Mvcc Storage.
From S2P Require Import StorageRecovery StorageSpec StorageSample Txn Engine EngineSpec EngineIndex.

Local Open Scope N_scope.

(** ** Instances *)

Import JsonSample.

(** JSON trees as values, numbers under distinct constructors. *)
Fixpoint json_value (j : Json) : Value :=
  match j with
  | JNull => VNull
  | JBool b => VBool b
  | JNumber (SPosInt n) => VTimestamp (Z.of_N n)
  | JNumber (SNegInt z) => VInt z
  | JNumber (SFloat f) => VFloat f
  | JString s => VText s
  | JArray items => VArray (map json_value items)
  | JObject m => VObject (map (λ kv, (kv.1, json_value kv.2)) m)
  end.

Fixpoint value_json (v : Value) : Json :=
  match v with
  | VBool b => JBool b
  | VTimestamp z => JNumber (SPosInt (Z.to_N z))
  | VInt z => JNumber (SNegInt z)
  | VFloat f => JNumber (SFloat f)
  | VText s => JString s
  | VArray items => JArray (map value_json items)
  | VObject m => JObject (map (λ kv, (kv.1, value_json kv.2)) m)
  | _ => JNull
  end.

Fixpoint value_json_value (j : Json) : value_json (json_value j) = j.
Proof.
  destruct j as [| |n| |items|m]; simpl; try done.
  - destruct n; simpl; try done. by rewrite N2Z.id.
  - f_equal. induction items as [|x items IH]; [done|]. simpl.
    rewrite value_json_value. f_equal. exact IH.
  - f_equal. induction m as [|[k x] m IH]; [done|]. simpl.
    rewrite value_json_value. f_equal. exact IH.
Qed.

#[export] Instance sample_json_text : JsonText :=
  λ j, string_of (sample_enc (json_value j)).

#[export] Instance sample_json_text_laws : JsonTextLaws.
Proof.
  intros j k Heq. unfold json_text, sample_json_text in Heq.
  apply (f_equal bytes_of) in Heq. rewrite !bytes_of_string_of in Heq.
  apply (f_equal (sample_dec (A := Value))) in Heq. rewrite !sample_dec_enc in Heq.
  injection Heq as Heq. by rewrite <- (value_json_value j), <- (value_json_value k), Heq.
Qed.

(** ASCII letters and digits. *)
#[export] Instance sample_unicode : Unicode := {|
  is_alphanumeric c :=
    ((48 <=? c) && (c <=? 57)) || ((65 <=? c) && (c <=? 90)) || ((97 <=? c) && (c <=? 122));
  to_lowercase l := (λ c, if (65 <=? c) && (c <=? 90) then c + 32 else c) <$> l;
|}.

(** No log is attached in these runs. *)
#[export] Instance sample_log : ReplicatedLog unit := λ _ l, (l, Err ENotLeader).

(** ** A database of users *)

Definition user_schema : CollectionSchema :=
  mkSchema "User" [mkField "id" FUuid true true false false;
                   mkField "email" FString false true true false] [] [].

Definition user (id email : string) : Document := [("email", VText email); ("id", VText id)].

Abbreviation Eng := (Inner unit) (only parsing).

Definition engine_of (s : Storage) : Res Eng := engine_open s (λ _, None) ∅ 0 60 1.

Definition empty_engine : Eng :=
  mkInner fresh_storage ∅ 1 [] 0 60 0 1 ∅ None.

Definition users0 : Eng := (create_schema user_schema empty_engine).1.
Definition new_users : list Document := [user "u1" "a@x"; user "u2" "b@x"].
Definition users : Eng := (apply_mutation (MBulkInsert "User" new_users) users0).1.

Definition id_of (key : string) : RecordId := derive_id "User" (VText key).

Example users_loaded :
  rm_count (records_of users) "User" = 2%nat ∧
  (rm_get (records_of users) "User" (id_of "u1") ≫= λ r, record_get r "email")
    = Some (VText "a@x").
Proof. by vm_compute. Qed.

(** ** The invariants hold of it *)

Lemma empty_engine_ok : engine_ok empty_engine.
Proof. split; [split; [apply rm_wf_nil|done]|constructor|done]. Qed.

Lemma users0_ok : engine_ok users0.
Proof. exact (step_ok (λ _, False) _ _ empty_engine_ok (es_schema _ user_schema empty_engine)). Qed.

Lemma users_ok : engine_ok users.
Proof. exact (step_ok (λ _, False) _ _ users0_ok (es_mutation _ _ users0)). Qed.

Definition user_index0 : CollectionIndexes := clear_indexes (from_schema user_schema).

Lemma user_index0_ok : index_ok user_index0 ∅.
Proof. apply (clear_indexes_ok _ ∅). right. apply from_schema_shape. Qed.

Lemma users0_indexes : in_indexes users0 = {["User" := user_index0]}.
Proof. by vm_compute. Qed.

Lemma users0_indexed : engine_indexed users0.
Proof.
  intros c ci. rewrite users0_indexes. intros [<- <-]%lookup_singleton_Some.
  exact user_index0_ok.
Qed.

Lemma users0_unique ci :
  in_indexes users0 !! "User" = Some ci → fields_unique user_schema ci.
Proof.
  rewrite users0_indexes, lookup_singleton_eq. intros [= <-] f Hf.
  assert (Hin : f ∈ ["id"; "email"]) by exact Hf.
  apply elem_of_cons in Hin as [->|Hin%list_elem_of_singleton]; [|subst f].
  - eexists. split; [by left|done].
  - eexists. split; [by right; left|done].
Qed.

(** A result by its second component: the state itself is not evaluated. *)
Lemma pair_eq_2 {A B} (p : A * B) b : p.2 = b → p = (p.1, b).
Proof. destruct p. by intros <-. Qed.

Lemma bulk_insert_state c docs (i i' : Eng) res :
  write_records c docs WInsert txn_auto i = (i', Ok res) →
  (apply_mutation (MBulkInsert c docs) i).1 = refresh_stats_row_count c i'.
Proof. unfold apply_mutation, se_bind. by intros ->. Qed.

Lemma refresh_indexed c (i : Eng) : engine_indexed i → engine_indexed (refresh_stats_row_count c i).
Proof. intros Hi c' ci. apply Hi. Qed.

(** The write behind [users]. *)
Definition users_write : Eng * Result Fault MutationResult :=
  write_records "User" new_users WInsert txn_auto users0.
Definition users_result : MutationResult :=
  mkResult 2 0 0 (record_id_display ∘ id_of <$> ["u1"; "u2"]).

Lemma users_write_ok : users_write = (users_write.1, Ok users_result).
Proof. apply pair_eq_2. by vm_compute. Qed.

Lemma users_result_nodup : NoDup (mr_ids users_result).
Proof. vm_compute. repeat constructor; set_solver. Qed.

Lemma users_indexed : engine_indexed users.
Proof.
  assert (Hw : engine_indexed users_write.1).
  { apply (write_records_indexed "User" new_users WInsert txn_auto users0 _ users_result user_schema).
    - exact users0_ok.
    - exact users0_indexed.
    - reflexivity.
    - vm_compute. reflexivity.
    - exact users0_unique.
    - exact users_write_ok.
    - exact users_result_nodup. }
  unfold users. rewrite (bulk_insert_state _ _ _ _ _ users_write_ok).
  exact (refresh_indexed "User" _ Hw).
Qed.

Lemma write_keeps_indexes_witness : engine_indexed users_write.1.
Proof.
  apply (write_keeps_indexes "User" new_users WInsert txn_auto users0 _ users_result user_schema).
  - exact users0_ok.
  - exact users0_indexed.
  - reflexivity.
  - vm_compute. reflexivity.
  - exact users0_unique.
  - exact users_write_ok.
  - exact users_result_nodup.
Defined.

(** The second user is deleted. *)
Definition only_b : option Filter := Some (FCompare "email" CmpEq (VText "b@x")).
Definition users_delete : Eng * Result Fault MutationResult :=
  delete_records "User" only_b txn_auto users.

Lemma delete_keeps_indexes_witness :
  engine_indexed users_delete.1 ∧
  rm_get (records_of users_delete.1) "User" (id_of "u2") = None.
Proof.
  assert (Hd : users_delete = (users_delete.1, Ok (mkResult 0 0 1 [record_id_display (id_of "u2")])))
    by (apply pair_eq_2; by vm_compute).
  destruct (delete_keeps_indexes "User" only_b txn_auto users _ _ users_ok users_indexed
    ltac:(by vm_compute) Hd) as (Hi & Hg & _).
  split; [exact Hi|]. rewrite (Hg (id_of "u2")). by vm_compute.
Defined.

(** ** Witnesses of the index theorems *)

Definition user_index : CollectionIndexes := default user_index0 (in_indexes users !! "User").

Lemma user_index_ok : index_ok user_index (live_map (records_of users) "User").
Proof.
  apply users_indexed. unfold user_index.
  assert (Hs : is_Some (in_indexes users !! "User"))
    by (apply (bool_decide_unpack _); by vm_compute).
  by destruct Hs as [ci ->].
Qed.

Lemma user_ids id s : live_map (records_of users) "User" !! id = Some s → rec_id s = id.
Proof. apply live_map_ids, users_ok. Qed.

Definition user_rows : list Rec := rm_scan (records_of users) "User".

Lemma rebuild_exact_witness :
  index_ok (rebuild user_rows (from_schema user_schema)).1 (by_id user_rows).
Proof.
  pose proof (rebuild_exact user_schema user_rows (from_schema user_schema) eq_refl) as Hr.
  assert (Hok : (rebuild user_rows (from_schema user_schema)).2 = Ok tt) by (by vm_compute).
  destruct (rebuild user_rows (from_schema user_schema)) as [ci r]. cbn [fst snd] in *. subst r.
  apply Hr. apply (bool_decide_unpack _). by vm_compute.
Defined.

(** [u1] takes the address [c@x]. *)
Definition moved : Rec := mkRec (id_of "u1") "User" (user "u1" "c@x") 2 0.

Lemma index_maintained_witness :
  index_ok (index_insert moved
    (match live_map (records_of users) "User" !! rec_id moved with
     | Some old => index_remove old user_index
     | None => user_index
     end)) (<[rec_id moved := moved]> (live_map (records_of users) "User")).
Proof.
  pose proof (index_maintained user_index (live_map (records_of users) "User") moved
    user_index_ok user_ids) as [Hc _]. apply Hc.
  by vm_compute.
Defined.

Lemma equality_lookup_is_scan_witness :
  lookup_eq user_index "email" (VText "a@x") = Some [id_of "u1"] ∧
  ∃ r, live_map (records_of users) "User" !! id_of "u1" = Some r ∧
    matches r (FCompare "email" CmpEq (VText "a@x")) = true.
Proof.
  assert (Hl : lookup_eq user_index "email" (VText "a@x") = Some [id_of "u1"]) by (by vm_compute).
  split; [exact Hl|].
  apply (equality_lookup_is_scan user_index (live_map (records_of users) "User") "email"
    (VText "a@x") [id_of "u1"] user_index_ok eq_refl Hl (or_introl eq_refl)).
  by left.
Defined.

(** ** Two concurrent transactions *)

Definition only_a : option Filter := Some (FCompare "email" CmpEq (VText "a@x")).
Definition set_email (e : string) : Mutation := MUpdate "User" only_a [("email", VText e)].

(** Both begin on [users] and change the address of the same user. *)
Definition begin1 : Transaction := begin_at (in_clock users) (st_last_commit_ts (in_storage users)).
Definition conc1 : Eng := (begin_with_connection None users).1.
Definition begin2 : Transaction := begin_at (in_clock conc1) (st_last_commit_ts (in_storage conc1)).
Definition conc2 : Eng := (begin_with_connection None conc1).1.
Definition conc3 : Eng := (stage (set_email "c@x") (conc2, begin1)).1.1.
Definition txn1 : Transaction := (stage (set_email "c@x") (conc2, begin1)).1.2.
Definition conc4 : Eng := (stage (set_email "d@x") (conc3, begin2)).1.1.
Definition txn2 : Transaction := (stage (set_email "d@x") (conc3, begin2)).1.2.
(** The first commits; a collection runs. *)
Definition conc5 : Eng := (commit txn1 conc4).1.
Definition conc6 : Eng := (engine_gc conc5).1.

Lemma conc4_ok : engine_ok conc4.
Proof.
  assert (H1 : engine_ok conc1) by exact (step_ok (λ _, False) _ _ users_ok (es_begin _ None users)).
  assert (H2 : engine_ok conc2) by exact (step_ok (λ _, False) _ _ H1 (es_begin _ None conc1)).
  assert (H3 : engine_ok conc3) by exact (step_ok (λ _, False) _ _ H2 (es_stage _ begin1 (set_email "c@x") conc2)).
  exact (step_ok (λ _, False) _ _ H3 (es_stage _ begin2 (set_email "d@x") conc3)).
Qed.

Lemma txn1_wf : txn_wf txn1.
Proof. apply stage_wf, begin_at_wf. Qed.

(** [active] as a test. *)
Definition active_b (i : Eng) (id ts : N) : bool :=
  match bt_get id (in_txns i) with
  | Some e => bool_decide (te_state e = TActive) && (te_read_ts e =? ts)
  | None => false
  end.

Lemma active_b_ok i id ts : active_b i id ts = true → active i id ts.
Proof.
  unfold active_b, active. destruct (bt_get id (in_txns i)) as [e|]; [|done].
  intros [?%bool_decide_eq_true ?%N.eqb_eq]%andb_prop. eauto.
Qed.

Lemma conc_steps : rtc (active_step (λ name, name ≠ "User") (tx_id txn2) (tx_read_ts txn2)) conc5 conc6.
Proof.
  apply rtc_once. split; [exact (es_gc _ conc5)|]. apply active_b_ok. by vm_compute.
Qed.

Example first_commit_succeeds :
  (commit txn1 conc4).2 = Ok tt ∧
  staged txn1 ("User", id_of "u1") = Some (SPut (mkRec (id_of "u1") "User" (user "u1" "c@x") 0 (tx_id txn1))).
Proof. by vm_compute. Qed.

Lemma no_lost_update_witness :
  ∃ e, (commit txn2 conc6).2 = Err (Failed e) ∧ (e = EConflict ∨ e = ETransactionTimeout).
Proof.
  apply (no_lost_update txn1 txn2 conc4 conc5 conc6 "User" (id_of "u1")).
  - exact txn1_wf.
  - exact conc4_ok.
  - by vm_compute.
  - apply active_b_ok. by vm_compute.
  - apply (bool_decide_unpack _). by vm_compute.
  - apply (bool_decide_unpack _). by vm_compute.
  - apply pair_eq_2. by vm_compute.
  - exact conc_steps.
Defined.

Lemma commit_installs_write_set_witness :
  rm_get (records_of conc5) "User" (id_of "u1")
    = Some (mkRec (id_of "u1") "User" (user "u1" "c@x") 2 (tx_id txn1)).
Proof.
  destruct (commit_installs_write_set txn1 conc4 conc5 "User" (id_of "u1") txn1_wf conc4_ok)
    as [Hg _].
  - by vm_compute.
  - apply pair_eq_2. by vm_compute.
  - rewrite Hg. by vm_compute.
Defined.

Lemma snapshot_reads_stable_witness :
  txn_get conc6 begin2 "User" (id_of "u1") = txn_get conc4 begin2 "User" (id_of "u1") ∧
  rm_get (records_of conc6) "User" (id_of "u1") ≠ rm_get (records_of conc4) "User" (id_of "u1").
Proof.
  split; [|by vm_compute].
  apply (snapshot_reads_stable "User" begin2 conc4 conc6 conc4_ok).
  - apply active_b_ok. by vm_compute.
  - apply (rtc_l _ _ conc5); [|exact conc_steps].
    split; [exact (es_commit _ txn1 conc4)|]. apply active_b_ok. by vm_compute.
Defined.

Definition staged_row : Rec := mkRec (id_of "u1") "User" (user "u1" "c@x") 0 (tx_id txn1).


(** ** Runs in which the engine does not do what it means to

    Each is an evaluation of the operations above on a concrete state. *)

Definition opened {A} (r : Res A) : Result Error unit :=
  match r with Ok _ => Ok tt | Err e => Err e end.

(** How many live users hold an address. *)
Definition holders (i : Eng) (e : string) : nat :=
  length (targets i "User" (Some (FCompare "email" CmpEq (VText e)))).

(** One auto-commit update gives every matching record the same value of a unique
    field: uniqueness is checked against the committed index only, not within the
    batch.  The store then cannot be opened any more, because the index rebuild
    reports the violation. *)
Example update_breaks_uniqueness :
  let '(i, r) := apply_mutation (MUpdate "User" None [("email", VText "z@x")]) users in
  mr_updated <$> (match r with Ok m => Some m | Err _ => None end) = Some 2%nat ∧
  holders i "z@x" = 2%nat ∧
  opened (engine_of (in_storage users)) = Ok tt ∧
  opened (engine_of (in_storage i)) = Err EUniqueViolation.
Proof. by vm_compute. Qed.

(** The same through a transaction that inserts two records. *)
Example transaction_breaks_uniqueness :
  let '((i1, t1), r1) := stage (MInsert "User" (user "u3" "z@x")) (conc1, begin1) in
  let '((i2, t2), r2) := stage (MInsert "User" (user "u4" "z@x")) (i1, t1) in
  let '(i, r) := commit t2 i2 in
  r = Ok tt ∧ holders i "z@x" = 2%nat ∧ opened (engine_of (in_storage i)) = Err EUniqueViolation.
Proof. by vm_compute. Qed.

(** A transaction that inserts a record and deletes it again: the batch is durable,
    then the index update finds neither an old nor a new version and panics. *)
Example insert_then_delete_panics :
  let '((i1, t1), r1) := stage (MInsert "User" (user "u3" "c@x")) (conc1, begin1) in
  let '((i2, t2), r2) :=
    stage (MDelete "User" (Some (FCompare "email" CmpEq (VText "c@x")))) (i1, t1) in
  let '(i, r) := commit t2 i2 in
  r = Err Panicked ∧
  st_last_commit_ts (in_storage i) = st_last_commit_ts (in_storage i2) + 1.
Proof. by vm_compute. Qed.

(** A transactional update may set the primary key, which the auto-commit update
    refuses: the record then lives under the id of its old key. *)
Example transaction_moves_primary_key :
  let rename := MUpdate "User" only_a [("id", VText "u9")] in
  let '((i1, t1), r1) := stage rename (conc1, begin1) in
  let '(i, r) := commit t1 i1 in
  (apply_mutation rename users).2 = Err (Failed EInvalidRequest) ∧
  r = Ok tt ∧
  rm_get (records_of i) "User" (id_of "u9") = None ∧
  (rm_get (records_of i) "User" (id_of "u1") ≫= λ x, record_get x "id") = Some (VText "u9").
Proof. by vm_compute. Qed.

(** ** A collection without constraints, and one without a key *)

Definition loose_schema : CollectionSchema :=
  mkSchema "User" [mkField "id" FUuid true true false false;
                   mkField "email" FString false false true false] [] [].

(** Two users with one address, which this schema allows. *)
Definition loose : Eng :=
  (apply_mutation (MBulkInsert "User" [user "u1" "a@x"; user "u2" "a@x"])
     (create_schema loose_schema empty_engine).1).1.

(** Making the field unique fails, but the schema is already in the catalogue: the
    store cannot be opened any more. *)
Example failed_schema_change_persists :
  let '(i, r) := create_schema user_schema loose in
  opened (engine_of (in_storage loose)) = Ok tt ∧
  r = Err (Failed EUniqueViolation) ∧
  opened (engine_of (in_storage i)) = Err EUniqueViolation.
Proof. by vm_compute. Qed.

Definition event_schema : CollectionSchema :=
  mkSchema "Event" [mkField "what" FString false false true false] [] [].

Definition event (w : string) : Document := [("what", VText w)].

Definition events : Eng :=
  (apply_mutation (MInsert "Event" (event "one")) (create_schema event_schema empty_engine).1).1.

(** Records without a key get their id from the clock, which restarts one behind the
    highest transaction id; auto-commit writes have id 0, so after a restart the
    same ids come again. *)
Example keyless_ids_repeat :
  match engine_of (in_storage events) with
  | Err _ => False
  | Ok i =>
      (apply_mutation (MInsert "Event" (event "two")) i).2 = Err (Failed EUniqueViolation) ∧
      let i' := (apply_mutation (MUpsert "Event" (event "two")) i).1 in
      rm_count (records_of i') "Event" = 1%nat ∧
      (omap (λ r, record_get r "what") (rm_scan (records_of i') "Event")) = [VText "two"]
  end.
Proof. by vm_compute. Qed.

(** ** Numbers in an index *)

Definition reading_schema : CollectionSchema :=
  mkSchema "Reading" [mkField "n" FFloat false false true true] [] [].

Definition reading : Rec := mkRec 1 "Reading" [("n", VInt 1)] 1 0.

(** An integer stored in an indexed field satisfies an equality filter with the equal
    float, but the index is keyed by JSON text and does not return it. *)
Example index_misses_equal_number :
  let ci := index_insert reading (from_schema reading_schema) in
  let one := VFloat (S754_finite false 4503599627370496 (-52)) in
  validate_record reading_schema (rec_fields reading) = Ok tt ∧
  matches reading (FCompare "n" CmpEq one) = true ∧
  lookup_eq ci "n" one = Some [].
Proof. by vm_compute. Qed.
