(* ===== verification/SoleVoter.v ===== *)
(** * A cluster of one voter

    A node without peers ([crates/auradb-raft/src/node.rs], as [ClusterNode] of the
    replication layer runs it) is its own majority: campaigning makes it the leader with
    everything it has committed, and a proposal is committed when it returns.  Proved for
    every storage that keeps the contract of the trait. *)

From S2P Require Import Prelude RaftLog RaftNode RaftFile.

Local Open Scope N_scope.

Section sole.
Context {S : Type} `{RaftStorageSpec S}.
Implicit Types (n : RaftNode S) (s : S).

(** A log that was never compacted, whose hard state does not run ahead of it. *)
Record log_ok s : Prop := {
  lo_inv : st_inv s;
  lo_whole : lv_base (st_view s) = 0;
  lo_term : lv_last_term (st_view s) <= current_term (hard_state s);
  lo_commit : hs_commit_index (hard_state s) <= lv_last (st_view s);
}.

(** The only voter, elected, with its whole log committed and handed out. *)
Record sole n : Prop := {
  so_leader : role n = Leader;
  so_peers : cfg_peers (config n) = [];
  so_log : log_ok (storage n);
  so_commit : commit_index n = lv_last (st_view (storage n));
}.

Definition sole_entries n : list LogEntry := lv_entries (st_view (storage n)).

Lemma advance_loop_last n i nc count :
  cfg_peers (config n) = [] → (∃ m, match_index n !! cfg_id (config n) = Some m ∧
    i + N.of_nat count <= m) →
  term_at (storage n) (i + N.of_nat count) = Some (term n) →
  advance_loop n i nc (Datatypes.S count) = i + N.of_nat count.
Proof.
  intros Hp (m & Hm & Hle) Ht. revert i nc Hle Ht. induction count as [|count IH]; intros i nc Hle Ht.
  - cbn [advance_loop]. replace (i + N.of_nat 0) with i in * by lia.
    rewrite bool_decide_eq_true_2 by done. rewrite andb_true_r.
    assert (Hr : (majority (config n) <=? replicated n i)%nat = true); [|by rewrite Hr].
    apply Nat.leb_le. unfold majority, voters, replicated. rewrite Hp. simpl.
    destruct (size (filter (λ kv, i <= kv.2) (match_index n))) eqn:E; [|lia].
    apply map_size_empty_iff in E. exfalso.
    assert (Hf : filter (λ kv, i <= kv.2) (match_index n) !! cfg_id (config n) = Some m).
    { apply map_lookup_filter_Some. split; [done|simpl; lia]. }
    rewrite E in Hf. by rewrite lookup_empty in Hf.
  - cbn [advance_loop]. cbn [advance_loop] in IH.
    rewrite IH; unfold index_next; [lia|lia|]. by replace (i + 1 + N.of_nat count)
      with (i + N.of_nat (Datatypes.S count)) by lia.
Qed.

(** What the tail of an election and of a proposal do: commit the last entry. *)
Lemma commit_last n :
  st_inv (storage n) → cfg_peers (config n) = [] →
  match_index n !! cfg_id (config n) = Some (lv_last (st_view (storage n))) →
  lv_term (st_view (storage n)) (lv_last (st_view (storage n))) = Some (term n) →
  commit_index n < lv_last (st_view (storage n)) →
  ∃ n', maybe_advance_commit n = (n', Ok tt) ∧
    commit_index n' = lv_last (st_view (storage n)) ∧ st_inv (storage n') ∧
    st_view (storage n') = st_view (storage n) ∧ term n' = term n ∧
    hs_commit_index (hard_state (storage n')) = commit_index n' ∧
    role n' = role n ∧ config n' = config n ∧ last_applied n' = last_applied n.
Proof.
  intros Hinv Hp Hm Ht Hlt. unfold maybe_advance_commit. rewrite last_index_view by done.
  set (last := lv_last (st_view (storage n))) in *.
  assert (Hc : N.to_nat (last - commit_index n) =
    Datatypes.S (N.to_nat (last - commit_index n - 1))) by lia.
  assert (Hi : index_next (commit_index n) + N.of_nat (N.to_nat (last - commit_index n - 1)) = last)
    by (unfold index_next; lia).
  rewrite Hc, advance_loop_last; rewrite ?Hi; [|done|by exists last|by rewrite term_at_view].
  rewrite (proj2 (N.ltb_lt _ _)) by done. unfold persist_commit_index. simpl. case_if.
  - destruct (save_hard_state_ok (storage n)
      (mkHard (current_term (hard_state (storage n))) (voted_for (hard_state (storage n))) last) Hinv)
      as (s' & Hs & Hinv' & Hv & Hh).
    eexists. split; [unfold on_storage; simpl; by rewrite Hs|]. simpl. unfold term. simpl.
    by rewrite Hh, Hv.
  - eexists. split; [done|]. simpl. unfold term. simpl.
    split_and!; try done. destruct (_ =? last) eqn:E; [|done]. by apply N.eqb_eq in E.
Qed.

Lemma lv_last_append v e : lv_last (lv_append v [e]) = lv_last v + 1.
Proof. unfold lv_last. simpl. rewrite length_app. simpl. lia. Qed.

Lemma lv_term_append_last v e :
  lv_base v = 0 → lv_term (lv_append v [e]) (lv_last v + 1) = Some (e_term e).
Proof.
  intros Hb. unfold lv_term, lv_entry, lv_last, lv_append. simpl. rewrite Hb.
  replace (0 + N.of_nat (length (lv_entries v)) + 1 =? 0) with false by (symmetry; apply N.eqb_neq; lia).
  replace (_ <=? 0) with false by (symmetry; apply N.leb_gt; lia).
  rewrite lookup_app_r by lia.
  by replace (_ - _)%nat with 0%nat by lia.
Qed.

(** Appending one entry of the current term, then committing it. *)
Lemma append_and_commit n c :
  log_ok (storage n) → cfg_peers (config n) = [] →
  commit_index n <= lv_last (st_view (storage n)) →
  let last := lv_last (st_view (storage n)) in
  let entry := mkEntry (term n) (index_next last) c in
  ∃ s' n', append [entry] (storage n) = (s', Ok tt) ∧ log_ok s' ∧
    maybe_advance_commit
      (set_match_index (<[cfg_id (config n) := index_next last]> (match_index n))
         (set_storage s' n)) = (n', Ok tt) ∧
    log_ok (storage n') ∧ commit_index n' = lv_last (st_view (storage n')) ∧
    st_view (storage n') = lv_append (st_view (storage n)) [entry] ∧
    role n' = role n ∧ config n' = config n ∧ term n' = term n ∧
    st_view s' = lv_append (st_view (storage n)) [entry].
Proof.
  intros [Hinv Hw Ht Hc] Hp Hci last entry.
  destruct (append_ok (storage n) [entry] Hinv) as (s' & Ha & Hinv' & Hv & Hh).
  { apply validate_suffix_one. by split. }
  assert (Hl : lv_last (st_view s') = last + 1) by by rewrite Hv, lv_last_append.
  assert (Htl : lv_last_term (st_view s') = term n)
    by (rewrite Hv; unfold lv_last_term; simpl; by rewrite last_snoc).
  assert (Hlog : ∀ s2, st_inv s2 → st_view s2 = st_view s' →
    current_term (hard_state s2) = term n → hs_commit_index (hard_state s2) <= last + 1 → log_ok s2).
  { intros s2 Hi2 Hv2 Ht2 Hc2. split; [done|by rewrite Hv2, Hv|by rewrite Hv2, Htl, Ht2|].
    by rewrite Hv2, Hl. }
  destruct (commit_last (set_match_index (<[cfg_id (config n) := index_next last]> (match_index n))
    (set_storage s' n))) as (n' & Hm & Hci' & Hinv2 & Hv2 & Ht2 & Hhs & Hr & Hcf & _).
  - done.
  - done.
  - simpl. by rewrite lookup_insert_eq, Hl.
  - simpl. unfold term. simpl. rewrite Hl, Hv, Hh. by apply lv_term_append_last.
  - simpl. rewrite Hl. fold last in Hci. lia.
  - simpl in *. unfold term in Ht2. simpl in Ht2.
    exists s', n'. split_and!; try done.
    + apply Hlog; [done|done|by rewrite Hh|]. rewrite Hh. fold last in Hc. lia.
    + apply Hlog; [done|done|by rewrite Ht2, Hh|]. rewrite Hhs, Hci', Hl. done.
    + by rewrite Hv2.
    + by rewrite Hv2.
    + unfold term. by rewrite Ht2, Hh.
Qed.

Lemma broadcast_sole n : cfg_peers (config n) = [] → broadcast_append n = n.
Proof. unfold broadcast_append. by intros ->. Qed.

Lemma init_peers_sole last n :
  cfg_peers (config n) = [] → init_peers last n = set_match_index ∅ (set_next_index ∅ n).
Proof. unfold init_peers. by intros ->. Qed.

(** A proposal to the only voter is committed when it returns. *)
Lemma propose_sole n c :
  sole n →
  ∃ n', propose c n = (n', Ok (lv_last (st_view (storage n)) + 1)) ∧ sole n' ∧
    config n' = config n ∧ term n' = term n ∧
    sole_entries n' = sole_entries n ++ [mkEntry (term n) (lv_last (st_view (storage n)) + 1) c].
Proof.
  intros [Hr Hp Hlog Hc]. unfold propose. rewrite Hr, bool_decide_eq_true_2 by done.
  cbn [negb]. rewrite last_index_view by apply Hlog.
  destruct (append_and_commit n c Hlog Hp) as
    (s' & n' & Ha & _ & Hm & Hlog' & Hc' & Hv & Hr' & Hcf & Ht & _); [lia|].
  exists n'. split_and!; [|split; congruence|done|done|].
  - unfold se_bind, on_storage. rewrite Ha. cbn [fst snd se_modify].
    change (cfg_id (config (set_storage s' n))) with (cfg_id (config n)).
    change (match_index (set_storage s' n)) with (match_index n). rewrite Hm.
    cbn [se_modify]. rewrite broadcast_sole by congruence. done.
  - unfold sole_entries. by rewrite Hv.
Qed.

Lemma take_committed_sole n : sole n → sole (take_committed n).2.
Proof. intros [Hr Hp Hlog Hc]. by split. Qed.

Lemma become_leader_sole n :
  log_ok (storage n) → cfg_peers (config n) = [] →
  commit_index n <= lv_last (st_view (storage n)) →
  let n' := (become_leader n).1 in
  sole n' ∧ config n' = config n ∧
  sole_entries n' = sole_entries n ++
    [mkEntry (term n) (lv_last (st_view (storage n)) + 1) command_noop].
Proof.
  intros Hlog Hp Hc. unfold become_leader. rewrite init_peers_sole by done. cbv zeta.
  match goal with |- context [se_bind (on_storage _) _ ?m] => set (n2 := m) end.
  change (index_next (last_index (storage (set_heartbeat_elapsed 0 _)))) with
    (index_next (last_index (storage n))).
  rewrite last_index_view by apply Hlog.
  destruct (append_and_commit n2 command_noop) as
    (s' & n' & Ha & _ & Hm & Hlog' & Hc' & Hv & Hr' & Hcf & Ht & _); [done..|].
  change (lv_last (st_view (storage n2))) with (lv_last (st_view (storage n))) in Ha, Hm.
  change (term n2) with (term n) in Ha.
  unfold se_bind, on_storage. change (storage n2) with (storage n) in *.
  match goal with |- context [append [?e] (storage n)] =>
    change e with (mkEntry (term n) (index_next (lv_last (st_view (storage n)))) command_noop) end.
  rewrite Ha. cbn [fst snd se_modify].
  change (cfg_id (config (set_storage s' n2))) with (cfg_id (config n2)).
  change (match_index (set_storage s' n2)) with (match_index n2). rewrite Hm.
  cbn [se_modify fst]. rewrite broadcast_sole by by rewrite Hcf.
  split_and!.
  - split; [by rewrite Hr'|by rewrite Hcf|done|done].
  - by rewrite Hcf.
  - unfold sole_entries. by rewrite Hv.
Qed.

(** Starting the only voter: it elects itself and commits what its log has. *)
Lemma campaign_sole c s :
  cfg_peers c = [] → log_ok s →
  let n := campaign (node_new c s) in
  sole n ∧ config n = c ∧
  sole_entries n = lv_entries (st_view s) ++
    [mkEntry (current_term (hard_state s) + 1) (lv_last (st_view s) + 1) command_noop].
Proof.
  intros Hp Hlog n. subst n. unfold campaign.
  destruct (save_hard_state_ok s (mkHard (current_term (hard_state s) + 1) (Some (cfg_id c))
    (hs_commit_index (hard_state s))) (lo_inv _ Hlog)) as (s1 & Hs & Hinv1 & Hv1 & Hh1).
  assert (Hlog1 : log_ok s1).
  { destruct Hlog. split; rewrite ?Hv1, ?Hh1; simpl; try done. lia. }
  unfold on_storage. change (storage (node_new c s)) with s. change (config (node_new c s)) with c.
  rewrite Hs. cbn [fst]. cbv zeta.
  match goal with |- context [reset_election_timeout ?m] => set (n1 := reset_election_timeout m) end.
  replace (majority (config n1) <=? 1)%nat with true; last first.
  { change (config n1) with c. unfold majority, voters. by rewrite Hp. }
  destruct (become_leader_sole n1) as (Hso & Hcf & He); [done|done| |].
  { change (commit_index n1) with (hs_commit_index (hard_state s)).
    change (storage n1) with s1. rewrite Hv1. apply Hlog. }
  split_and!; [done|by rewrite Hcf|]. rewrite He.
  change (storage n1) with s1. unfold sole_entries, term. change (storage n1) with s1.
  by rewrite Hv1, Hh1.
Qed.
End sole.
