(* ===== verification/Replication.v ===== *)
(** * The replication layer of a single-node cluster

    Models [crates/auradb-replication/src]: the replicated commands and their envelope
    ([command.rs]), their application to the engine ([apply.rs]), the errors
    ([error.rs]) and the single-node coordinator ([node.rs]): bootstrap with recovery,
    the write log that the engine commits through, the commit-timestamp base, status,
    metrics and log compaction.

    The Raft node is shared, behind a mutex, by the coordinator and by the write log of
    the engine.  Before the log is attached the coordinator has it ([cn_raft]); afterwards
    it is the log of the engine ([in_cluster]), and the coordinator's views of it are
    functions of that node.  The JSON of the envelope and of the base file is a
    parameter ([CommandCodec]). *)

From S2P Require Import Prelude BTree Text Framing Value Core Eval Index Mvcc Storage.
From S2P Require Import RaftLog RaftNode RaftFile Txn Engine Cluster.

Local Open Scope N_scope.

(** ** Commands *)

Definition ENVELOPE_VERSION : N := 1.

Inductive SchemaCommand :=
| CmdCreate (schema : CollectionSchema)
| CmdDrop (name : string).

Inductive ReplicatedCommand :=
| CmdNoop
| CmdWrite (batch : Batch)
| CmdSchema (command : SchemaCommand).

Definition command_kind (c : ReplicatedCommand) : CommandKind :=
  match c with
  | CmdNoop => Noop
  | CmdWrite _ => Database
  | CmdSchema _ => Schema
  end.

Inductive ReplicationError :=
| RepCodec
| RepUnsupportedVersion (found supported : N)
| RepRaft (e : RaftError)
| RepTransport
| RepApply (e : Error)
| RepUnsupportedSnapshot (found supported : N)
| RepSnapshotMalformed
| RepSnapshotRestoreRefused.

(** The envelope's JSON may refuse to serialise; the version is written in front of the
    command.  The base file is a record of one number. *)
Class CommandCodec := {
  enc_envelope : N → ReplicatedCommand → option (list byte);
  dec_envelope : list byte → option (N * ReplicatedCommand);
  enc_base : N → list byte;
  dec_base : list byte → option N;
}.

(** The commands that their JSON text keeps: a write whose values it keeps. *)
Definition command_safe `{FloatText} (c : ReplicatedCommand) : bool :=
  match c with CmdWrite b => batch_safe b | _ => true end.

(** [serde] does not serialise an internally tagged newtype variant that holds a
    string; every other command is read back as it was. *)
Definition encodable (c : ReplicatedCommand) : bool :=
  match c with CmdSchema (CmdDrop _) => false | _ => true end.

Class CommandCodecLaws `{FloatText, CommandCodec} : Prop := {
  dec_enc_envelope : ∀ v c, command_safe c = true → encodable c = true →
    ∃ payload, enc_envelope v c = Some payload ∧ dec_envelope payload = Some (v, c);
  enc_envelope_drop : ∀ v name, enc_envelope v (CmdSchema (CmdDrop name)) = None;
  dec_enc_base : ∀ b, dec_base (enc_base b) = Some b;
  utf8_enc_base : ∀ b, utf8_valid (enc_base b) = true;
}.

Section commands.
Context `{CommandCodec}.

Definition encode (c : ReplicatedCommand) : Result ReplicationError Command :=
  match enc_envelope ENVELOPE_VERSION c with
  | None => Err RepCodec
  | Some payload => Ok (command_new (command_kind c) payload)
  end.

Definition decode (command : Command) : Result ReplicationError ReplicatedCommand :=
  if (bool_decide (cmd_kind command = Noop) && bool_decide (cmd_payload command = []))%bool
  then Ok CmdNoop
  else match dec_envelope (cmd_payload command) with
       | None => Err RepCodec
       | Some (version, c) =>
           if ENVELOPE_VERSION <? version
           then Err (RepUnsupportedVersion version ENVELOPE_VERSION)
           else Ok c
       end.
End commands.

(** ** Errors of the layer, and a panic of the engine *)

Inductive RepFault :=
| RepFailed (e : ReplicationError)
| RepPanicked.

Definition rep_fault (f : Fault) : RepFault :=
  match f with
  | Failed e => RepFailed (RepApply e)
  | Panicked => RepPanicked
  end.

(** [?] on a result of the engine. *)
Definition of_engine {S A} (op : SE S Fault A) : SE S RepFault A := λ s,
  let '(s, r) := op s in
  (s, match r with Ok a => Ok a | Err f => Err (rep_fault f) end).

Definition raft_err_to_core (e : RaftError) : Error :=
  match e with
  | RNotLeader _ => ENotLeader
  | _ => EInternal
  end.

Definition repl_err_to_core (e : ReplicationError) : Error :=
  match e with
  | RepApply err => err
  | _ => EInternal
  end.

(** ** The write log *)

Record RaftWriteLog (S : Type) := mkWriteLog {
  wl_raft : RaftNode S;
  wl_base : N;
}.
Arguments mkWriteLog {S}.
Arguments wl_raft {S}.
Arguments wl_base {S}.

Section write_log.
Context `{CommandCodec} {S : Type} `{RaftStorage S}.

Definition replicate (batch : Batch) (w : RaftWriteLog S) : RaftWriteLog S * Res N :=
  let node := wl_raft w in
  if negb (bool_decide (role node = Leader)) then (w, Err ENotLeader)
  else match encode (CmdWrite batch) with
       | Err e => (w, Err (repl_err_to_core e))
       | Ok command =>
           match propose command node with
           | (node, Err e) => (mkWriteLog node (wl_base w), Err (raft_err_to_core e))
           | (node, Ok index) =>
               let node := (take_committed node).2 in
               (mkWriteLog node (wl_base w), Ok (wl_base w + index))
           end
       end.

#[export] Instance raft_write_log : ReplicatedLog (RaftWriteLog S) := replicate.
End write_log.

(** ** The coordinator *)

Record ReplicationMetrics := mkReplicationMetrics {
  rm_leader_changes : N;
  rm_votes_granted : N;
  rm_append_entries_sent : N;
  rm_append_entries_received : N;
  rm_replication_lag_entries : N;
  rm_apply_errors : N;
}.

Record LogCompactionReport := mkLogCompaction {
  lc_compacted : bool;
  lc_entries_discarded : N;
  lc_last_included_index : N;
  lc_last_included_term : N;
  lc_commit_index : N;
  lc_applied_index : N;
  lc_last_log_index : N;
  lc_dry_run : bool;
}.

Section coordinator.
Context `{Unicode, JsonText, StorageCodec, CommandCodec, RaftCodec}.

(** Applying a command does not go through the log, whichever is attached. *)
Definition apply_command {L} (command : ReplicatedCommand) (log_index : N)
  : SE (Inner L) RepFault unit :=
  match command with
  | CmdNoop => se_ret tt
  | CmdWrite batch => of_engine (apply_replicated_batch batch log_index)
  | CmdSchema (CmdCreate schema) => of_engine (create_schema schema)
  | CmdSchema (CmdDrop name) => of_engine (engine_drop_schema name)
  end.

Abbreviation WriteLog := (RaftWriteLog FileStorage) (only parsing).
Abbreviation Node := (Inner WriteLog) (only parsing).

(** The coordinator before its log is attached to the engine. *)
Record ClusterNode := mkClusterNode {
  cn_raft : RaftNode FileStorage;
  cn_engine : Node;
  cn_node_id : N;
  cn_cluster_id : N;
  cn_peers : nat;
  cn_apply_errors : N;
  cn_base : N;
}.

(** The [while idx <= commit] loop of [recover], on the engine and the error counter. *)
Fixpoint recover_loop {L} (node : RaftNode FileStorage) (base idx : N) (count : nat)
  : SE (Inner L * N) RepFault unit := λ st,
  match count with
  | O => (st, Ok tt)
  | Datatypes.S count' =>
      match entry_at (storage node) idx with
      | None => recover_loop node base (idx + 1) count' st
      | Some entry =>
          match decode (e_command entry) with
          | Err e => (st, Err (RepFailed e))
          | Ok command =>
              match apply_command command (base + idx) st.1 with
              | (engine, Ok _) => recover_loop node base (idx + 1) count' (engine, st.2)
              | (engine, Err RepPanicked) => ((engine, st.2), Err RepPanicked)
              | (engine, Err e) => ((engine, st.2 + 1), Err e)
              end
          end
      end
  end.

Definition recover : SE ClusterNode RepFault unit := λ c,
  let commit := commit_index (cn_raft c) in
  let '((engine, errors), r) :=
    recover_loop (cn_raft c) (cn_base c) 1 (N.to_nat commit) (cn_engine c, cn_apply_errors c) in
  (mkClusterNode (cn_raft c) engine (cn_node_id c) (cn_cluster_id c) (cn_peers c) errors
     (cn_base c), r).

(** The base and the file that holds it afterwards; a file that cannot be read as text
    counts as missing. *)
Definition load_or_init_commit_base {L} (file : option (list byte)) (engine : Inner L)
  : Result ReplicationError (N * option (list byte)) :=
  let init := let base := st_last_commit_ts (in_storage engine) in
              Ok (base, Some (enc_base base)) in
  match file with
  | Some text =>
      if utf8_valid text
      then match dec_base text with
           | Some base => Ok (base, file)
           | None => Err RepCodec
           end
      else init
  | None => init
  end.

(** [bootstrap]: what it leaves is the coordinator and the base file. *)
Definition bootstrap (engine : Node) (node_id cluster_id : N) (peers : nat) (dir : RaftDir)
    (base_file : option (list byte)) : Result RepFault (ClusterNode * option (list byte)) :=
  match file_open dir with
  | Err e => Err (RepFailed (RepRaft e))
  | Ok st =>
      match load_or_init_commit_base base_file engine with
      | Err e => Err (RepFailed e)
      | Ok (base, file) =>
          let node := node_new (config_single_node node_id) st in
          let node := campaign node in
          let node := (take_committed node).2 in
          match recover (mkClusterNode node engine node_id cluster_id peers 0 base) with
          | (_, Err e) => Err e
          | (c, Ok _) => Ok (c, file)
          end
      end
  end.

(** [engine.attach_replicated_log(cluster.write_log())]. *)
Definition attach (c : ClusterNode) : Node :=
  set_cluster (Some (mkWriteLog (cn_raft c) (cn_base c))) (cn_engine c).

Definition cluster_status (c : ClusterNode) (node : RaftNode FileStorage) : ClusterStatus :=
  mkClusterStatus true (Some (cn_node_id c)) (Some (cn_cluster_id c)) (role node) (term node)
    (leader_id node) (commit_index node) (last_applied node) (last_index (storage node))
    (cn_peers c) (cn_peers c =? 0)%nat.

Definition is_leader (node : RaftNode FileStorage) : bool := bool_decide (role node = Leader).

Definition replication_lag (node : RaftNode FileStorage) : N := commit_index node - last_applied node.

Definition cluster_metrics (apply_errors : N) (node : RaftNode FileStorage) : ReplicationMetrics :=
  let raft := metrics node in
  mkReplicationMetrics (leader_changes raft) (votes_granted raft) (append_entries_sent raft)
    (append_entries_received raft) (replication_lag node) apply_errors.

Definition compact_log (dry_run : bool)
  : SE (RaftNode FileStorage) ReplicationError LogCompactionReport := λ node,
  let applied := last_applied node in
  let commit := commit_index node in
  let up_to := compactable_prefix (storage node) applied in
  let '(node, r) :=
    if dry_run then (node, compact_dry_run (storage node) up_to applied)
    else on_storage (RaftFile.compact up_to applied) node in
  match r with
  | Err e => (node, Err (RepRaft e))
  | Ok outcome =>
      (node, Ok (mkLogCompaction (co_compacted outcome) (co_entries_discarded outcome)
                   (co_last_included_index outcome) (co_last_included_term outcome)
                   commit applied (co_last_index outcome) (co_dry_run outcome)))
  end.
End coordinator.
