(* ===== verification/ReplicationSpec.v ===== *)
(** * What the single-node cluster promises

    The commands of the committed Raft log determine the records: in every state that
    requests, collections, restarts and crashes between the two logs lead to, the live
    records are those that the commands produce, and a write that was acknowledged is one
    of them for ever. *)

From S2P Require Import Prelude BTree Text Framing Value Core Eval Index Mvcc Storage.
From S2P Require Import RaftLog RaftNode RaftFile SoleVoter StorageRecovery StorageSpec Txn.
From S2P Require Import Engine EngineSpec Replication.

Local Open Scope N_scope.

(** ** Commands and what they mean *)

Section commands.
Context `{FT : FloatText, CommandCodec, !CommandCodecLaws}.

(** A command survives the log: decoding gives back what was encoded, for every command
    that [serde] serialises. *)
Lemma command_decode_encode c :
  command_safe c = true → encodable c = true → ∃ cmd, encode c = Ok cmd ∧ decode cmd = Ok c.
Proof.
  intros Hs He. destruct (dec_enc_envelope ENVELOPE_VERSION c Hs He) as (p & Hp & Hd).
  unfold encode. rewrite Hp. eexists. split; [done|]. unfold decode. simpl.
  destruct (bool_decide (command_kind c = Noop)) eqn:Ek; simpl.
  - apply bool_decide_eq_true in Ek. case_bool_decide; [by destruct c|]. by rewrite Hd.
  - by rewrite Hd.
Qed.

Lemma decode_command_noop : decode command_noop = Ok CmdNoop.
Proof. done. Qed.

(** The commands of a log. *)
Definition log_commands (es : list LogEntry) : option (list ReplicatedCommand) :=
  mapM (λ e, match decode (e_command e) with Ok c => Some c | Err _ => None end) es.

Lemma log_commands_snoc es cmds e c :
  log_commands es = Some cmds → decode (e_command e) = Ok c →
  log_commands (es ++ [e]) = Some (cmds ++ [c]).
Proof.
  intros He Hc. unfold log_commands in *. apply mapM_Some. apply mapM_Some in He.
  apply Forall2_app; [done|]. constructor; [by rewrite Hc|constructor].
Qed.

Lemma log_commands_lookup es cmds j e :
  log_commands es = Some cmds → es !! j = Some e →
  ∃ c, cmds !! j = Some c ∧ decode (e_command e) = Ok c.
Proof.
  intros He%mapM_Some Hj. destruct (Forall2_lookup_l _ _ _ _ _ He Hj) as (c & Hc & Hd).
  exists c. split; [done|]. by destruct (decode (e_command e)); simplify_eq.
Qed.

Lemma log_commands_length es cmds : log_commands es = Some cmds → length cmds = length es.
Proof. intros He%mapM_Some. symmetry. by eapply Forall2_length. Qed.
End commands.

(** The live records as a function of collection and id. *)
Definition View : Type := string → N → option Rec.

Definition live_view (s : Storage) : View := rm_get (st_records s).

Definition apply_view (v : View) (b : Batch) : View := λ c id,
  match last_op_on c id (b_ops b) with Some op => op_value op | None => v c id end.

(** What a log of commands makes of the records; only writes touch them. *)
Definition replay_view (v : View) (cmds : list ReplicatedCommand) : View :=
  foldl (λ v c, match c with CmdWrite b => apply_view v b | _ => v end) v cmds.

(** The commands that the write path proposes. *)
Definition data_command (c : ReplicatedCommand) : Prop :=
  match c with CmdNoop | CmdWrite _ => True | CmdSchema _ => False end.

(** No delete of the log misses its record when its turn comes. *)
Definition clean (v0 : View) (cmds : list ReplicatedCommand) : Prop :=
  ∀ j b, cmds !! j = Some (CmdWrite b) → Forall (λ op,
    match op with
    | OpPut _ _ => True
    | OpDelete _ c id => is_Some (replay_view v0 (take j cmds) c id)
    end) (b_ops b).

(** ** The store against the log *)

Section synced.
Context `{FT : FloatText, StorageCodec, !StorageCodecLaws}.
Implicit Types s : Storage.

(** [w] is at or past the timestamp of every write of the log that has operations. *)
Definition covers (base : N) (cmds : list ReplicatedCommand) (w : N) : Prop :=
  ∀ j b, cmds !! j = Some (CmdWrite b) → b_ops b ≠ [] → base + N.of_nat (S j) <= w.

(** The active segment can be held in memory. *)
Definition roomy s : Prop :=
  addressable (segment_file (st_dir s) (manifest_active (st_manifest s))).

(** The store holds what the commands say, and a restart will not forget it. *)
Record synced (base : N) (v0 : View) (cmds : list ReplicatedCommand) s : Prop := {
  sy_view : ∀ c id, live_view s c id = replay_view v0 cmds c id;
  sy_low : st_last_commit_ts s <= base + N.of_nat (length cmds);
  sy_disk : ∃ w, covers base cmds w ∧ persisted w s;
}.

Lemma synced_covers base v0 cmds s : synced base v0 cmds s → covers base cmds (st_last_commit_ts s).
Proof.
  intros [_ _ (w & Hc & Hp)] j b Hj Hb. pose proof (Hc j b Hj Hb). apply persisted_le in Hp. lia.
Qed.

Lemma synced_wf base v0 cmds s : synced base v0 cmds s → storage_wf s.
Proof. by intros [_ _ (w & _ & Hwf & _)]. Qed.

Lemma replay_view_snoc v0 cmds c :
  replay_view v0 (cmds ++ [c]) =
    match c with CmdWrite b => apply_view (replay_view v0 cmds) b | _ => replay_view v0 cmds end.
Proof. unfold replay_view. by rewrite foldl_app. Qed.

Lemma covers_snoc base cmds c w :
  covers base cmds w →
  match c with CmdWrite b => b_ops b ≠ [] → base + N.of_nat (length cmds) + 1 <= w | _ => True end →
  covers base (cmds ++ [c]) w.
Proof.
  intros Hc Hn j b Hj Hb. apply lookup_snoc_Some in Hj as [[Hlt Hj]|[-> ->]].
  - by apply (Hc j b).
  - specialize (Hn Hb). lia.
Qed.

(** The storage side of applying a log from an index on. *)
Definition apply_logged (base idx : N) (c : ReplicatedCommand) s : Storage :=
  match c with CmdWrite b => apply_committed_batch b (base + idx) s | _ => s end.

Fixpoint replay_storage (base idx : N) (cmds : list ReplicatedCommand) s : Storage :=
  match cmds with
  | [] => s
  | c :: rest => replay_storage base (idx + 1) rest (apply_logged base idx c s)
  end.

Lemma apply_committed_active b ts s :
  let s' := apply_committed_batch b ts s in
  (length (segment_file (st_dir s) (manifest_active (st_manifest s))) ≤
   length (segment_file (st_dir s') (manifest_active (st_manifest s'))))%nat.
Proof.
  unfold apply_committed_batch. case_if; [done|]. destruct (b_ops b); [done|].
  unfold log_and_apply. cbn [st_dir st_manifest].
  unfold append_active. simpl. rewrite segment_file_set, decide_True, length_app by done. lia.
Qed.

Lemma replay_roomy base cmds : ∀ idx s, roomy (replay_storage base idx cmds s) → roomy s.
Proof.
  induction cmds as [|c cmds IH]; intros idx s; simpl; [done|]. intros Hr%IH.
  destruct c as [|b|]; simpl in Hr; [done| |done].
  pose proof (apply_committed_active b (base + idx) s). unfold roomy, addressable in *. simpl in *. lia.
Qed.

Lemma roomy_fits b ts s :
  st_last_commit_ts s < ts → b_ops b ≠ [] → batch_safe b = true →
  roomy (apply_committed_batch b ts s) → commit_fits b ts s.
Proof.
  intros Hlt Hne Hs Hr. split; [|done]. unfold roomy, apply_committed_batch in Hr.
  rewrite (proj2 (N.leb_gt _ _)) in Hr by done. destruct (b_ops b) eqn:E; [done|].
  unfold log_and_apply, append_active in Hr. cbn [st_dir st_manifest set_st_dir] in Hr.
  by rewrite segment_file_set, decide_True in Hr.
Qed.

(** The next command of the log. *)
Lemma synced_next base v0 cmds c s :
  data_command c → command_safe c = true → synced base v0 cmds s →
  let s' := apply_logged base (N.of_nat (length cmds) + 1) c s in
  roomy s' → synced base v0 (cmds ++ [c]) s'.
Proof.
  intros Hd Hs Hsy s' Hr. pose proof (synced_wf _ _ _ _ Hsy) as Hwf.
  destruct Hsy as [Hv Hl (w & Hc & Hp)]. subst s'.
  destruct c as [|b|c]; simpl in *; [| |done].
  - split; [by rewrite replay_view_snoc|rewrite length_app; simpl; lia|].
    exists w. split; [by apply covers_snoc|done].
  - set (ts := base + (N.of_nat (length cmds) + 1)) in *.
    assert (Hlt : st_last_commit_ts s < ts) by lia.
    pose proof (roomy_fits b ts s Hlt) as Hfit.
    unfold apply_committed_batch in Hr, Hfit |- *. rewrite (proj2 (N.leb_gt _ _)) in * by done.
    destruct (b_ops b) as [|op ops] eqn:E.
    + split.
      * intros c id. rewrite replay_view_snoc. unfold apply_view. rewrite E. apply Hv.
      * simpl. rewrite length_app. simpl. lia.
      * exists w. split; [by apply covers_snoc; [|rewrite E]|].
        assert (Hp' : persisted w (apply_committed_batch b ts s)).
        { destruct Hp as (_ & bss & Hlg & Hw). unfold apply_committed_batch.
          rewrite (proj2 (N.leb_gt _ _)), E by done. split.
          - destruct Hwf. split; simpl; try done; [|lia]. intros c id chain Hch.
            eapply Forall_impl; [by eapply sw_below|]. simpl. lia.
          - exists bss. split; [|done]. destruct Hlg. split; simpl; try done.
            eapply Forall_impl; [done|]. simpl. lia. }
        unfold apply_committed_batch in Hp'. by rewrite (proj2 (N.leb_gt _ _)), E in Hp'.
    + specialize (Hfit ltac:(done) Hs Hr).
      destruct (log_and_apply_persisted w b ts s Hp Hlt Hfit) as [_ Hp'].
      split.
      * intros c id. rewrite replay_view_snoc. unfold live_view, apply_view.
        rewrite log_and_apply_get by (by apply Hwf || lia). rewrite <- Hv. done.
      * simpl. rewrite length_app. simpl. lia.
      * exists ts. split; [|apply Hp'; by rewrite E].
        apply covers_snoc; [|intros _; lia].
        intros j b' Hj Hb'. pose proof (Hc j b' Hj Hb'). apply persisted_le in Hp. lia.
Qed.

(** A command the store already has. *)
Lemma synced_again base v0 cmds j c s :
  cmds !! j = Some c → data_command c → synced base v0 cmds s →
  synced base v0 cmds (apply_logged base (N.of_nat j + 1) c s).
Proof.
  intros Hj Hd Hsy. destruct c as [|b|c]; simpl in *; [done| |done].
  pose proof (synced_covers _ _ _ _ Hsy) as Hcov.
  unfold apply_committed_batch. case_if; bool_to_prop; [done|].
  destruct (b_ops b) as [|op ops] eqn:E.
  - pose proof (synced_wf _ _ _ _ Hsy) as Hwf. destruct Hsy as [Hv Hl (w & Hc & _ & bss & Hlg & Hw)].
    apply lookup_lt_Some in Hj. split; [done|simpl; lia|]. exists w. split; [done|]. split.
    + destruct Hwf. split; simpl; try done; [|lia]. intros c id chain Hch.
      eapply Forall_impl; [by eapply sw_below|]. simpl. lia.
    + exists bss. split; [|done]. destruct Hlg. split; simpl; try done.
      eapply Forall_impl; [done|]. simpl. lia.
  - exfalso. pose proof (Hcov j b Hj ltac:(by rewrite E)). lia.
Qed.

(** Replaying the log over a store that has a prefix of it. *)
Lemma replay_synced base v0 todo : ∀ before k s,
  Forall data_command (before ++ todo) → Forall (λ c, command_safe c = true) (before ++ todo) →
  synced base v0 (take (Nat.max k (length before)) (before ++ todo)) s →
  roomy (replay_storage base (N.of_nat (length before) + 1) todo s) →
  synced base v0 (before ++ todo) (replay_storage base (N.of_nat (length before) + 1) todo s).
Proof.
  induction todo as [|c todo IH]; intros before k s Hd Hs Hsy Hr.
  { simpl. rewrite take_ge in Hsy; [done|]. rewrite app_nil_r. lia. }
  cbn [replay_storage] in *.
  replace (before ++ c :: todo) with ((before ++ [c]) ++ todo) in * by by rewrite <- app_assoc.
  replace (N.of_nat (length before) + 1 + 1) with (N.of_nat (length (before ++ [c])) + 1) in *
    by (rewrite length_app; simpl; lia).
  apply (IH (before ++ [c]) k); [done|done| |done]. pose proof (replay_roomy _ _ _ _ Hr) as Hr1.
  assert (Hdc : data_command c).
  { apply Forall_app in Hd as [Hd _]. apply Forall_app in Hd as [_ Hd]. by apply Forall_cons in Hd as [? _]. }
  assert (Hsc : command_safe c = true).
  { apply Forall_app in Hs as [Hs _]. apply Forall_app in Hs as [_ Hs]. by apply Forall_cons in Hs as [? _]. }
  rewrite length_app. simpl. destruct (decide (length before < k)%nat) as [Hlt|Hge].
  - replace (Nat.max k (length before + 1)) with (Nat.max k (length before)) by lia.
    apply synced_again; [|done|done].
    rewrite lookup_take_lt by lia. rewrite lookup_app_l by (rewrite length_app; simpl; lia).
    rewrite lookup_app_r by lia. by rewrite Nat.sub_diag.
  - replace (Nat.max k (length before + 1)) with (length (before ++ [c])) by (rewrite length_app; simpl; lia).
    replace (Nat.max k (length before)) with (length before) in Hsy by lia.
    rewrite take_app_length. rewrite <- app_assoc, take_app_length in Hsy. by apply synced_next.
Qed.

(** Reopening the directory. *)
Lemma synced_open base v0 cmds s s' :
  synced base v0 cmds s → open_with (st_dir s) = Ok s' → synced base v0 cmds s'.
Proof.
  intros [Hv Hl (w & Hc & Hp)] Ho. destruct (open_persisted w s Hp) as (s2 & Ho2 & Hp2 & Hr & Hw).
  assert (s2 = s') as -> by congruence. destruct Hr as (Hg & _ & _ & _ & Hle & _).
  split; [|lia|by exists w]. intros c id. unfold live_view. rewrite Hg. apply Hv.
Qed.

Lemma synced_gc base v0 cmds cutoff n s :
  synced base v0 cmds s →
  rewrite_fits (set_st_records (rm_gc cutoff (Nat.max n 1) (st_records s)) s) →
  cutoff <= st_last_commit_ts s →
  synced base v0 cmds (gc cutoff n s).1.
Proof.
  intros Hsy Hfit Hcut. pose proof (synced_wf _ _ _ _ Hsy) as Hwf.
  assert (Hok : rm_below (st_last_commit_ts s) (st_records s)) by apply Hwf.
  destruct Hsy as [Hv Hl (w & Hc & Hp)].
  pose proof (gc_persisted w cutoff n s Hp Hfit) as Hp'. split.
  - intros c id. rewrite <- Hv. unfold live_view.
    assert (Hts : st_last_commit_ts (gc cutoff n s).1 = st_last_commit_ts s) by by rewrite gc_state.
    rewrite <- (get_as_of_watermark (gc cutoff n s).1 c id (st_last_commit_ts s)),
      <- (get_as_of_watermark s c id (st_last_commit_ts s)) by
      (done || rewrite <- Hts; apply sw_below; apply Hp').
    rewrite gc_records. by apply gc_get_as_of; [apply Hwf|].
  - by rewrite gc_state.
  - by exists w.
Qed.
End synced.

(** ** The engine on top *)

Section cluster.
Context `{Unicode, JsonText, FT : FloatText, StorageCodec, !StorageCodecLaws}.
Context `{CommandCodec, !CommandCodecLaws, RaftCodec, !RaftCodecLaws}.

Abbreviation WriteLog := (RaftWriteLog FileStorage) (only parsing).
Abbreviation Node := (Inner WriteLog) (only parsing).
Implicit Types (i : Node) (w : WriteLog).

(** The entry that recovery reads after those of [before]. *)
Lemma logged_command (node : RaftNode FileStorage) es before c todo :
  st_inv (storage node) → lv_base (st_view (storage node)) = 0 → es `prefix_of` sole_entries node →
  log_commands es = Some (before ++ c :: todo) →
  ∃ e, entry_at (storage node) (N.of_nat (length before) + 1) = Some e ∧
       decode (e_command e) = Ok c.
Proof.
  intros Hinv Hw Hpre Hl.
  assert (Hlen := log_commands_length _ _ Hl). rewrite length_app in Hlen. simpl in Hlen.
  destruct (lookup_lt_is_Some_2 es (length before)) as [e He]; [lia|].
  destruct (log_commands_lookup _ _ _ _ Hl He) as (c' & Hc' & Hdec).
  rewrite lookup_app_r, Nat.sub_diag in Hc' by lia. injection Hc' as <-.
  exists e. split; [|done]. pose proof (prefix_lookup_Some _ _ _ _ He Hpre) as He'.
  rewrite entry_at_view by done. unfold lv_entry. rewrite Hw, (proj2 (N.leb_gt _ _)) by lia.
  by replace (N.to_nat (N.of_nat (length before) + 1 - 0 - 1)) with (length before) by lia.
Qed.

(** What recovery does to the store, and when it ends well. *)
Lemma recover_loop_spec {L} node es base cmds todo : ∀ before (st : Inner L * N),
  st_inv (storage node) → lv_base (st_view (storage node)) = 0 → es `prefix_of` sole_entries node →
  log_commands es = Some (before ++ todo) → Forall data_command todo →
  cmds = before ++ todo →
  let r := recover_loop node base (N.of_nat (length before) + 1) (length todo) st in
  (r.2 = Ok tt ∨ r.2 = Err RepPanicked) ∧ in_cluster r.1.1 = in_cluster st.1 ∧ r.1.2 = st.2 ∧
  (r.2 = Ok tt → in_storage r.1.1 =
     replay_storage base (N.of_nat (length before) + 1) todo (in_storage st.1)).
Proof.
  induction todo as [|c todo IH]; intros before st Hinv Hw Hpre Hl Hd ->; cbn [length recover_loop].
  { simpl. split_and!; [by left|done..]. }
  apply Forall_cons in Hd as [Hc Hd].
  destruct (logged_command node es before c todo Hinv Hw Hpre Hl) as (e & -> & ->). cbn [replay_storage].
  assert (Hnext : ∀ st' : Inner L * N, in_cluster st'.1 = in_cluster st.1 → st'.2 = st.2 →
    in_storage st'.1 = apply_logged base (N.of_nat (length before) + 1) c (in_storage st.1) →
    let r := recover_loop node base (N.of_nat (length before) + 1 + 1) (length todo) st' in
    (r.2 = Ok tt ∨ r.2 = Err RepPanicked) ∧ in_cluster r.1.1 = in_cluster st.1 ∧ r.1.2 = st.2 ∧
    (r.2 = Ok tt → in_storage r.1.1 =
       replay_storage base (N.of_nat (length before) + 1 + 1) todo
         (apply_logged base (N.of_nat (length before) + 1) c (in_storage st.1)))).
  { intros st' Hcl He2 Hst. pose proof (IH (before ++ [c]) st' Hinv Hw Hpre) as IH'.
    rewrite <- app_assoc in IH'. specialize (IH' Hl Hd eq_refl).
    rewrite length_app in IH'. cbn [length] in IH'.
    replace (N.of_nat (length before + 1) + 1) with (N.of_nat (length before) + 1 + 1) in IH' by lia.
    by rewrite Hcl, He2, Hst in IH'. }
  destruct c as [|b|c]; [| |done]; cbn [apply_command se_ret].
  - destruct st. by apply Hnext.
  - unfold of_engine.
    destruct (apply_replicated_spec b (base + (N.of_nat (length before) + 1)) st.1)
      as (Hs & Hcl & Hr & _).
    destruct (apply_replicated_batch b _ st.1) as [i' r]. simpl in Hs, Hcl, Hr.
    destruct Hr as [-> | ->]; simpl.
    + apply Hnext; done.
    + split_and!; [by right|done|done|done].
Qed.

(** With a clean log, recovery goes through. *)
Lemma recover_loop_ok {L} node es base v0 k todo : ∀ before (st : Inner L * N),
  st_inv (storage node) → lv_base (st_view (storage node)) = 0 → es `prefix_of` sole_entries node →
  log_commands es = Some (before ++ todo) → Forall data_command (before ++ todo) →
  Forall (λ c, command_safe c = true) (before ++ todo) → clean v0 (before ++ todo) →
  synced base v0 (take (Nat.max k (length before)) (before ++ todo)) (in_storage st.1) →
  roomy (replay_storage base (N.of_nat (length before) + 1) todo (in_storage st.1)) →
  (recover_loop node base (N.of_nat (length before) + 1) (length todo) st).2 = Ok tt.
Proof.
  induction todo as [|c todo IH]; intros before st Hinv Hw Hpre Hl Hd Hsafe Hcl Hsy Hr;
    cbn [length recover_loop replay_storage] in *; [done|].
  destruct (logged_command node es before c todo Hinv Hw Hpre Hl) as (e & -> & ->).
  assert (Hj : (before ++ c :: todo) !! length before = Some c)
    by by rewrite lookup_app_r, Nat.sub_diag by lia.
  assert (Hdc : data_command c) by by eapply Forall_lookup_1 in Hd.
  assert (Hone : synced base v0 (take (Nat.max k (length (before ++ [c]))) (before ++ c :: todo))
    (apply_logged base (N.of_nat (length before) + 1) c (in_storage st.1))).
  { pose proof (replay_roomy _ _ _ _ Hr) as Hr1. rewrite length_app. simpl.
    destruct (decide (length before < k)%nat) as [Hlt|Hge].
    - replace (Nat.max k (length before + 1)) with (Nat.max k (length before)) by lia.
      apply synced_again; [|done|done]. by rewrite lookup_take_lt by lia.
    - replace (Nat.max k (length before + 1)) with (length (before ++ [c]))
        by (rewrite length_app; simpl; lia).
      replace (Nat.max k (length before)) with (length before) in Hsy by lia.
      change (c :: todo) with ([c] ++ todo). rewrite app_assoc, take_app_length.
      rewrite take_app_length in Hsy. apply synced_next; [done| |done|done].
      by eapply Forall_lookup_1 in Hsafe. }
  assert (Hnext : ∀ st' : Inner L * N, in_storage st'.1 = apply_logged base (N.of_nat (length before) + 1) c (in_storage st.1) →
    (recover_loop node base (N.of_nat (length before) + 1 + 1) (length todo) st').2 = Ok tt).
  { intros st' Hst. pose proof (IH (before ++ [c]) st' Hinv Hw Hpre) as IH'.
    rewrite <- app_assoc in IH'. simpl in IH'. rewrite Hst in IH'.
    replace (N.of_nat (length (before ++ [c])) + 1) with (N.of_nat (length before) + 1 + 1) in IH'
      by (rewrite length_app; simpl; lia).
    by apply IH'. }
  destruct c as [|b|c]; [| |done]; cbn [apply_command se_ret].
  - destruct st. by apply Hnext.
  - unfold of_engine.
    destruct (apply_replicated_spec b (base + (N.of_nat (length before) + 1)) st.1)
      as (Hs & _ & Hr' & Hok).
    assert (Hgo : (apply_replicated_batch b (base + (N.of_nat (length before) + 1)) st.1).2 = Ok tt).
    { destruct (decide (base + (N.of_nat (length before) + 1) <= st_last_commit_ts (in_storage st.1)))
        as [Hle|Hgt].
      - unfold apply_replicated_batch. by rewrite (proj2 (N.leb_le _ _)).
      - apply Hok; [lia|]. destruct (b_ops b) as [|op ops] eqn:E; [constructor|]. rewrite <- E.
        destruct (decide (length before < k)%nat) as [Hlt|Hge].
        { exfalso. apply synced_covers in Hsy. apply Hgt.
          pose proof (Hsy (length before) b) as Hcv. rewrite lookup_take_lt in Hcv by lia.
          specialize (Hcv Hj ltac:(by rewrite E)). lia. }
        eapply Forall_impl; [exact (Hcl _ _ Hj)|]. intros [|cts c id]; [done|].
        replace (Nat.max k (length before)) with (length before) in Hsy by lia.
        change (rm_get (records_of st.1) c id) with (live_view (in_storage st.1) c id). by rewrite (sy_view _ _ _ _ Hsy). }
    destruct (apply_replicated_batch b _ st.1) as [i' r]. simpl in Hs, Hgo. subst r. simpl.
    by apply Hnext.
Qed.

(** ** Runs *)

(** The server starts: storage, engine, coordinator, and the log attached.  What is
    loaded from index snapshots and statistics, and the clock, are arguments. *)
Definition reboot (dir : Dir) (raft : RaftDir) (base_file : option (list byte))
    (node_id cluster_id : N) (loaded : string → option CollectionIndexes)
    (row_counts : gmap string nat) (now timeout : N) (gc_min : nat)
  : Result RepFault (Node * option (list byte)) :=
  match open_with dir with
  | Err e => Err (RepFailed (RepApply e))
  | Ok s =>
      match engine_open s loaded row_counts now timeout gc_min with
      | Err e => Err (RepFailed (RepApply e))
      | Ok engine =>
          let? (c, file) := bootstrap engine node_id cluster_id 0 raft base_file in
          Ok (attach c, file)
      end
  end.

(** The Raft directory at the moments of a write: before the entry is appended, after
    it, and after the commit index was saved; the store has not been touched yet. *)
Inductive crash_point (batch : Batch) w : RaftDir → Prop :=
| cp_before : crash_point batch w (fs_dir (storage (wl_raft w)))
| cp_appended cmd : encode (CmdWrite batch) = Ok cmd →
    crash_point batch w (fs_dir (append [RaftLog.mkEntry (term (wl_raft w))
      (lv_last (st_view (storage (wl_raft w))) + 1) cmd] (storage (wl_raft w))).1)
| cp_committed : crash_point batch w (fs_dir (storage (wl_raft (replicate batch w).1))).

(** A batch through the write path; anything that leaves store and log alone (reads,
    staging, the registry, index work); a collection; a crash and restart. *)
Inductive cluster_step : Node * option (list byte) → Node * option (list byte) → Prop :=
| cl_commit batch i f :
    batch_safe batch = true → roomy (in_storage (engine_commit_batch batch i).1) →
    cluster_step (i, f) ((engine_commit_batch batch i).1, f)
| cl_local i i' f :
    in_storage i' = in_storage i → in_cluster i' = in_cluster i → cluster_step (i, f) (i', f)
| cl_gc i f :
    rewrite_fits (set_st_records (rm_gc (gc_cutoff i) (Nat.max (in_gc_min_retained i) 1)
                                    (st_records (in_storage i))) (in_storage i)) →
    gc_cutoff i <= st_last_commit_ts (in_storage i) →
    cluster_step (i, f) ((engine_gc i).1, f)
| cl_crash i f w batch d node_id cluster_id loaded counts now timeout gc_min i' f' :
    in_cluster i = Some w → batch_safe batch = true → crash_point batch w d →
    addressable (default [] (log_file d)) →
    reboot (st_dir (in_storage i)) d f node_id cluster_id loaded counts now timeout gc_min
      = Ok (i', f') →
    roomy (in_storage i') →
    cluster_step (i, f) (i', f').

(** The committed commands of a node. *)
Definition committed_commands i : option (list ReplicatedCommand) :=
  w ← in_cluster i; log_commands (take (N.to_nat (commit_index (wl_raft w)))
                                    (sole_entries (wl_raft w))).

Record cluster_inv (v0 : View) (cmds : list ReplicatedCommand) i (f : option (list byte))
    w : Prop := {
  ci_log : in_cluster i = Some w;
  ci_sole : sole (wl_raft w);
  ci_commands : log_commands (sole_entries (wl_raft w)) = Some cmds;
  ci_data : Forall data_command cmds;
  ci_safe : Forall (λ c, command_safe c = true) cmds;
  ci_synced : synced (wl_base w) v0 cmds (in_storage i);
  ci_file : f = Some (enc_base (wl_base w));
}.

Lemma lv_last_sole (n : RaftNode FileStorage) :
  sole n → lv_last (st_view (storage n)) = N.of_nat (length (sole_entries n)).
Proof. intros [_ _ [_ Hw _ _] _]. unfold lv_last. rewrite Hw. done. Qed.

(** A write on the leader: the log has it, committed, at the returned index. *)
Lemma replicate_sole batch w cmds :
  sole (wl_raft w) → log_commands (sole_entries (wl_raft w)) = Some cmds →
  batch_safe batch = true →
  ∃ w', replicate batch w = (w', Ok (wl_base w + (N.of_nat (length cmds) + 1))) ∧
    sole (wl_raft w') ∧ wl_base w' = wl_base w ∧
    log_commands (sole_entries (wl_raft w')) = Some (cmds ++ [CmdWrite batch]).
Proof.
  intros Hso Hl Hs. unfold replicate. rewrite (so_leader _ Hso), bool_decide_eq_true_2 by done.
  cbn [negb]. destruct (command_decode_encode (CmdWrite batch) Hs eq_refl) as (cmd & -> & Hd).
  destruct (propose_sole _ cmd Hso) as (n' & -> & Hso' & _ & _ & He).
  rewrite lv_last_sole in * by done. rewrite <- (log_commands_length _ _ Hl) in *.
  eexists. split_and!; [done|by apply take_committed_sole|done|]. cbn [wl_raft].
  change (sole_entries (take_committed n').2) with (sole_entries n'). rewrite He.
  by apply log_commands_snoc.
Qed.

Lemma commit_inv v0 cmds batch i f w :
  cluster_inv v0 cmds i f w → batch_safe batch = true →
  roomy (in_storage (engine_commit_batch batch i).1) →
  ∃ w' ts, cluster_inv v0 (cmds ++ [CmdWrite batch]) (engine_commit_batch batch i).1 f w' ∧
    (engine_commit_batch batch i).2 = Ok ts.
Proof.
  intros [Hc Hso Hl Hd Hsf Hsy Hf] Hs Hr.
  destruct (replicate_sole batch w cmds Hso Hl Hs) as (w' & Hrep & Hso' & Hb & Hl').
  exists w', (wl_base w + (N.of_nat (length cmds) + 1)).
  unfold engine_commit_batch in *. rewrite Hc in *.
  change (log_replicate batch w) with (replicate batch w) in *. rewrite Hrep in *.
  split; [|done]. split; [done|done|done|..].
  - apply Forall_app. split; [done|by repeat constructor].
  - apply Forall_app. split; [done|by repeat constructor].
  - rewrite Hb. by apply (synced_next _ _ _ (CmdWrite batch)).
  - by rewrite Hb.
Qed.

(** A directory of the log that a restart may find, with its commands. *)
Definition found (d : RaftDir) (cmds : list ReplicatedCommand) : Prop :=
  ∃ s, file_open d = Ok s ∧ log_ok s ∧ log_commands (fs_entries s) = Some cmds.

Lemma found_of (s : FileStorage) cmds :
  log_ok s → log_commands (fs_entries s) = Some cmds →
  addressable (default [] (log_file (fs_dir s))) → found (fs_dir s) cmds.
Proof.
  intros Hlog Hl Ha. exists s. split_and!; [|done|done].
  destruct (lo_inv _ Hlog) as [Hwf Hd]. apply file_reopen_any; [by split|].
  destruct Hd as (Hlf & _). by rewrite Hlf in Ha.
Qed.

Lemma replicated_found v0 cmds i f w batch :
  cluster_inv v0 cmds i f w → batch_safe batch = true →
  addressable (default [] (log_file (fs_dir (storage (wl_raft (replicate batch w).1))))) →
  found (fs_dir (storage (wl_raft (replicate batch w).1))) (cmds ++ [CmdWrite batch]).
Proof.
  intros Hci Hs Ha.
  destruct (replicate_sole batch w cmds (ci_sole _ _ _ _ _ Hci) (ci_commands _ _ _ _ _ Hci) Hs)
    as (w' & Hrep & Hso' & _ & Hl').
  rewrite Hrep in *. by apply found_of; [apply Hso'| |].
Qed.

Lemma crash_point_found v0 cmds i f w batch d :
  cluster_inv v0 cmds i f w → batch_safe batch = true → crash_point batch w d →
  addressable (default [] (log_file d)) →
  found d cmds ∨ found d (cmds ++ [CmdWrite batch]).
Proof.
  intros Hci Hs Hcp Ha. pose proof Hci as [Hc Hso Hl _ _ _ _].
  pose proof (so_log _ Hso) as Hlog.
  destruct Hcp as [|cmd He|].
  - left. by apply found_of.
  - right. destruct (append_and_commit (wl_raft w) cmd Hlog (so_peers _ Hso))
      as (s' & _ & Hap & Hlog' & _ & _ & _ & _ & _ & _ & _ & Hv).
    { by rewrite (so_commit _ Hso). }
    unfold index_next in Hap. rewrite Hap in Ha |- *. cbn [fst] in *. apply found_of; [done| |done].
    change (fs_entries s') with (lv_entries (st_view s')). rewrite Hv.
    apply log_commands_snoc; [done|]. simpl.
    destruct (command_decode_encode (CmdWrite batch) Hs eq_refl) as (cmd' & He' & Hd').
    by assert (cmd' = cmd) as -> by congruence.
  - right. by eapply replicated_found.
Qed.

Lemma take_committed_entries (n : RaftNode FileStorage) :
  sole_entries (take_committed n).2 = sole_entries n.
Proof. done. Qed.

Lemma replay_storage_noop base cmds : ∀ idx s,
  replay_storage base idx (cmds ++ [CmdNoop]) s = replay_storage base idx cmds s.
Proof. induction cmds as [|c l IH]; intros idx s; simpl; [done|apply IH]. Qed.

Lemma clean_noop v0 cmds : clean v0 cmds → clean v0 (cmds ++ [CmdNoop]).
Proof.
  intros Hc j b Hj. apply lookup_snoc_Some in Hj as [[Hlt Hj]|[_ ?]]; [|done].
  rewrite take_app_le by lia. by apply Hc.
Qed.

(** Starting on a store that has a prefix of the log. *)
Lemma bootstrap_inv v0 cmds k engine node_id cluster_id peers d bf base :
  load_or_init_commit_base bf engine = Ok (base, Some (enc_base base)) → found d cmds → Forall data_command cmds → Forall (λ c, command_safe c = true) cmds →
  synced base v0 (take k cmds) (in_storage engine) →
  (∀ c f, bootstrap engine node_id cluster_id peers d bf = Ok (c, f) →
     roomy (in_storage (cn_engine c)) →
     cluster_inv v0 (cmds ++ [CmdNoop]) (attach c) f (mkWriteLog (cn_raft c) base) ∧
     cn_apply_errors c = 0) ∧
  (clean v0 cmds → roomy (replay_storage base 1 cmds (in_storage engine)) →
     ∃ c f, bootstrap engine node_id cluster_id peers d bf = Ok (c, f) ∧
       in_storage (cn_engine c) = replay_storage base 1 cmds (in_storage engine)).
Proof.
  intros Hbf (s & Ho & Hlog & Hl) Hd Hsf Hsy. unfold bootstrap. rewrite Ho, Hbf.
  destruct (campaign_sole (config_single_node node_id) s eq_refl Hlog) as (Hso & _ & He).
  revert Hso He. generalize (campaign (node_new (config_single_node node_id) s)). intros n0 Hso He.
  pose proof (take_committed_sole _ Hso) as Hso'.
  rewrite <- take_committed_entries in He. revert Hso' He. clear Hso.
  generalize (take_committed n0).2. clear n0. intros n Hso' He.
  assert (Hl' : log_commands (sole_entries n) = Some (cmds ++ [CmdNoop])).
  { rewrite He. by apply log_commands_snoc. }
  assert (Hd' : Forall data_command (cmds ++ [CmdNoop])) by (apply Forall_app; split; [done|by repeat constructor]).
  assert (Hsf' : Forall (λ c, command_safe c = true) (cmds ++ [CmdNoop]))
    by (apply Forall_app; split; [done|by repeat constructor]).
  assert (Hcount : N.to_nat (commit_index n) = length (cmds ++ [CmdNoop])).
  { rewrite (so_commit _ Hso'), lv_last_sole, Nat2N.id by done. symmetry. by apply log_commands_length. }
  assert (Hsy' : synced base v0 (take (Nat.max (Nat.min k (length cmds)) 0) (cmds ++ [CmdNoop])) (in_storage engine)).
  { rewrite take_app_le by lia. rewrite Nat.max_0_r.
    by destruct (Nat.min_spec k (length cmds)) as [[_ ->]|[Hle ->]]; [|rewrite take_ge in Hsy by done; rewrite take_ge]. }
  unfold recover. cbn [cn_raft cn_engine cn_base cn_apply_errors cn_node_id cn_cluster_id cn_peers].
  rewrite Hcount.
  destruct (recover_loop_spec n (sole_entries n) base _ (cmds ++ [CmdNoop]) [] (engine, 0)
    (lo_inv _ (so_log _ Hso')) (lo_whole _ (so_log _ Hso')) (reflexivity _) Hl' Hd' eq_refl) as (Hres & Hcl & Herr & Hst).
  pose proof (recover_loop_ok n (sole_entries n) base v0 (Nat.min k (length cmds)) (cmds ++ [CmdNoop]) [] (engine, 0)
    (lo_inv _ (so_log _ Hso')) (lo_whole _ (so_log _ Hso')) (reflexivity _) Hl' Hd' Hsf') as Hok.
  change (N.of_nat (length []) + 1) with 1 in *. cbn [length app fst snd] in *.
  destruct (recover_loop n base 1 _ (engine, 0)) as [[e' er] r]. cbn [fst snd] in *. split.
  - intros c f Hb Hr. destruct Hres as [-> | ->]; [|done]. injection Hb as <- <-.
    cbn [cn_raft cn_apply_errors cn_engine attach] in *. split; [|done].
    split; try done. simpl. rewrite (Hst eq_refl) in Hr |- *.
    apply (replay_synced base v0 (cmds ++ [CmdNoop]) [] (Nat.min k (length cmds))); done.
  - intros Hclean%clean_noop Hr. rewrite <- (replay_storage_noop base cmds) in Hr |- *.
    specialize (Hok Hclean Hsy' Hr). subst r. eexists _, _. split; [done|]. by apply Hst.
Qed.

Lemma load_enc_base {L} base (engine : Inner L) :
  load_or_init_commit_base (Some (enc_base base)) engine = Ok (base, Some (enc_base base)).
Proof. unfold load_or_init_commit_base. by rewrite utf8_enc_base, dec_enc_base. Qed.

Lemma bootstrap_base engine node_id cluster_id peers d bf c f :
  bootstrap engine node_id cluster_id peers d bf = Ok (c, f) →
  ∀ base file, load_or_init_commit_base bf engine = Ok (base, file) → cn_base c = base.
Proof.
  unfold bootstrap. intros Hb base file Hl. destruct (file_open d) as [s|]; [|done].
  rewrite Hl in Hb. revert Hb. generalize (campaign (node_new (config_single_node node_id) s)).
  intros n. generalize (take_committed n).2. clear n. intros n. unfold recover.
  destruct (recover_loop _ _ _ _ _) as [[e er] [u|u]]; [|done]. by intros [= <- _].
Qed.

Lemma reboot_inv v0 cmds k dir s d bf base node_id cluster_id loaded counts now timeout gc_min i f :
  open_with dir = Ok s →
  (∀ engine : Node, in_storage engine = s →
     load_or_init_commit_base bf engine = Ok (base, Some (enc_base base))) →
  found d cmds → Forall data_command cmds → Forall (λ c, command_safe c = true) cmds →
  synced base v0 (take k cmds) s →
  reboot dir d bf node_id cluster_id loaded counts now timeout gc_min = Ok (i, f) →
  roomy (in_storage i) → ∃ w, cluster_inv v0 (cmds ++ [CmdNoop]) i f w.
Proof.
  intros Ho Hbf Hfd Hd Hsf Hsy Hb Hr. unfold reboot in Hb. rewrite Ho in Hb.
  destruct (engine_open s loaded counts now timeout gc_min) as [engine|] eqn:Ee; [|done].
  assert (Hs : in_storage engine = s).
  { unfold engine_open in Ee. destruct (open_indexes _ _ _ _); simplify_eq/=. done. }
  destruct (bootstrap engine node_id cluster_id 0 d bf) as [[c file]|] eqn:Ebt; simpl in Hb; [|done].
  injection Hb as <- <-.
  destruct (bootstrap_inv v0 cmds k engine node_id cluster_id 0 d bf base (Hbf _ Hs) Hfd Hd Hsf)
    as [Hinv _]; [by rewrite Hs|].
  destruct (Hinv _ _ Ebt Hr) as [Hci _]. eauto.
Qed.

Lemma step_inv v0 cmds i f w i' f' :
  cluster_inv v0 cmds i f w → cluster_step (i, f) (i', f') →
  ∃ ext w', cluster_inv v0 (cmds ++ ext) i' f' w'.
Proof.
  intros Hci Hst. inversion Hst; subst; clear Hst.
  - edestruct commit_inv as (w' & ts & Hinv & _); [done..|]. eauto.
  - exists [], w. rewrite app_nil_r. destruct Hci. split; congruence.
  - exists [], w. rewrite app_nil_r. unfold engine_gc.
    pose proof (synced_gc _ _ _ (gc_cutoff i) (in_gc_min_retained i) _ (ci_synced _ _ _ _ _ Hci)) as Hg.
    destruct (gc _ _ _) as [s report]. destruct Hci. split; simpl; try done. by apply Hg.
  - assert (w0 = w) as -> by (pose proof (ci_log _ _ _ _ _ Hci); congruence).
    pose proof (ci_synced _ _ _ _ _ Hci) as Hsy.
    destruct (sy_disk _ _ _ _ Hsy) as (t & _ & Hp).
    destruct (open_persisted t _ Hp) as (s' & Ho & _).
    pose proof (synced_open _ _ _ _ _ Hsy Ho) as Hsy'.
    rewrite (ci_file _ _ _ _ _ Hci) in *.
    edestruct crash_point_found as [Hfd|Hfd]; [done..| |].
    + exists [CmdNoop]. eapply (reboot_inv v0 cmds (length cmds)); eauto using load_enc_base.
      * apply Hci.
      * apply Hci.
      * by rewrite take_ge by done.
    + exists ([CmdWrite batch] ++ [CmdNoop]). rewrite app_assoc.
      eapply (reboot_inv v0 (cmds ++ [CmdWrite batch]) (length cmds)); eauto using load_enc_base.
      * apply Forall_app. split; [apply Hci|by repeat constructor].
      * apply Forall_app. split; [apply Hci|by repeat constructor].
      * by rewrite take_app_length.
Qed.

Lemma steps_inv v0 cmds p w p' :
  rtc cluster_step p p' → cluster_inv v0 cmds p.1 p.2 w →
  ∃ ext w', cluster_inv v0 (cmds ++ ext) p'.1 p'.2 w'.
Proof.
  intros Hr. revert cmds w. induction Hr as [p|[i1 f1] [i2 f2] p' Hs _ IH]; intros cmds w Hci.
  - exists [], w. by rewrite app_nil_r.
  - destruct (step_inv _ _ _ _ _ _ _ Hci Hs) as (ext & w1 & Hci1).
    destruct (IH _ _ Hci1) as (ext' & w2 & Hci2). exists (ext ++ ext'), w2. by rewrite app_assoc.
Qed.

(** A data directory that never ran in cluster mode, and the first start in it. *)
Definition no_raft : RaftDir := mkDir None None None.

Lemma first_boot s0 node_id cluster_id loaded counts now timeout gc_min i f :
  storage_inv s0 →
  reboot (st_dir s0) no_raft None node_id cluster_id loaded counts now timeout gc_min = Ok (i, f) →
  roomy (in_storage i) → ∃ w, cluster_inv (live_view s0) [CmdNoop] i f w.
Proof.
  intros Hinv Hb Hr.
  destruct (open_persisted 0 s0 (inv_persisted _ Hinv)) as (s & Ho & Hp & (Hg & _) & _).
  apply (reboot_inv (live_view s0) [] 0 (st_dir s0) s no_raft None (st_last_commit_ts s)
    node_id cluster_id loaded counts now timeout gc_min); try done.
  - intros engine <-. done.
  - exists (mkFile (mkDir (Some []) None None) [] hard_default 0 0). split_and!; [done| |done].
    split; simpl; done.
  - split; [done|simpl; lia|]. exists 0. split; [|done]. by intros j b.
Qed.

Lemma inv_committed v0 cmds i f w :
  cluster_inv v0 cmds i f w → committed_commands i = Some cmds.
Proof.
  intros [Hc Hso Hl _ _ _ _]. unfold committed_commands. rewrite Hc. simpl.
  by rewrite (so_commit _ Hso), lv_last_sole, Nat2N.id, take_ge by done.
Qed.

Section runs.
Context (s0 : Storage) (node_id cluster_id : N) (loaded : string → option CollectionIndexes).
Context (counts : gmap string nat) (now timeout : N) (gc_min : nat).

(** The states of a cluster that was first started on the data of [s0]. *)
Definition cluster_run i (f : option (list byte)) : Prop :=
  storage_inv s0 ∧ ∃ i0 f0,
  reboot (st_dir s0) no_raft None node_id cluster_id loaded counts now timeout gc_min = Ok (i0, f0) ∧
  roomy (in_storage i0) ∧ rtc cluster_step (i0, f0) (i, f).

Lemma run_inv i f : cluster_run i f → ∃ cmds w, cluster_inv (live_view s0) cmds i f w.
Proof.
  intros (Hinv & i0 & f0 & Hb & Hr & Hs).
  destruct (first_boot _ _ _ _ _ _ _ _ _ _ Hinv Hb Hr) as [w0 Hci].
  destruct (steps_inv _ _ _ _ _ Hs Hci) as (ext & w & Hci'). eauto.
Qed.

(** C8: acknowledged writes survive.  In a single-node cluster, started on any existing
    data, over runs of writes of batches whose values their JSON text keeps ([batch_safe])
    and that fit in the files, collections and crashes, without schema changes, a write
    that was acknowledged is part of the committed log after any number of further writes,
    collections and crashes (before, between or after the steps of a write), behind the
    commands that were committed before it; and the live records are always the original
    data with the committed log applied. *)
Theorem acknowledged_writes_survive i1 f1 batch i2 ts i3 f3 :
  cluster_run i1 f1 → batch_safe batch = true → engine_commit_batch batch i1 = (i2, Ok ts) →
  roomy (in_storage i2) → rtc cluster_step (i2, f1) (i3, f3) →
  ∃ cmds later,
    committed_commands i1 = Some cmds ∧
    committed_commands i3 = Some (cmds ++ CmdWrite batch :: later) ∧
    ∀ c id, rm_get (records_of i3) c id =
            replay_view (live_view s0) (cmds ++ CmdWrite batch :: later) c id.
Proof.
  intros Hrun Hs Hco Hr Hsteps. destruct (run_inv _ _ Hrun) as (cmds & w & Hci).
  destruct (commit_inv _ _ batch _ _ _ Hci Hs) as (w2 & ts2 & Hci2 & _); [by rewrite Hco|].
  rewrite Hco in Hci2. destruct (steps_inv _ _ _ _ _ Hsteps Hci2) as (ext & w3 & Hci3).
  rewrite <- app_assoc in Hci3. exists cmds, ext. split_and!.
  - by eapply inv_committed.
  - by eapply inv_committed.
  - intros c id. apply (sy_view _ _ _ _ (ci_synced _ _ _ _ _ Hci3)).
Qed.

(** C9: writes make progress.  The only voter is always the leader: in every state of a
    run, a write of a batch whose values their JSON text keeps ([batch_safe]) and that
    fits in the files is committed at once, at a new timestamp, and is visible when the
    call returns. *)
Theorem write_commits i f batch :
  cluster_run i f → batch_safe batch = true → roomy (in_storage (engine_commit_batch batch i).1) →
  ∃ i' ts cmds, engine_commit_batch batch i = (i', Ok ts) ∧
    st_last_commit_ts (in_storage i) < ts ∧ st_last_commit_ts (in_storage i') = ts ∧
    committed_commands i' = Some (cmds ++ [CmdWrite batch]) ∧
    ∀ c id, rm_get (records_of i') c id =
      match last_op_on c id (b_ops batch) with
      | Some op => op_value op
      | None => rm_get (records_of i) c id
      end.
Proof.
  intros Hrun Hs Hr. destruct (run_inv _ _ Hrun) as (cmds & w & Hci).
  destruct (commit_inv _ _ batch _ _ _ Hci Hs Hr) as (w2 & ts & Hci2 & Hok).
  destruct (replicate_sole batch w cmds) as (w' & Hrep & _); [apply Hci..|done|].
  pose proof (sy_low _ _ _ _ (ci_synced _ _ _ _ _ Hci)) as Hlow.
  assert (Hts : ts = wl_base w + (N.of_nat (length cmds) + 1) ∧
    in_storage (engine_commit_batch batch i).1 = apply_committed_batch batch ts (in_storage i)).
  { unfold engine_commit_batch in Hok |- *. rewrite (ci_log _ _ _ _ _ Hci) in Hok |- *.
    change (log_replicate batch w) with (replicate batch w) in *. rewrite Hrep in Hok |- *.
    by injection Hok as <-. }
  destruct Hts as [Hts Hst]. exists (engine_commit_batch batch i).1, ts, cmds. split_and!.
  - rewrite <- Hok. by destruct (engine_commit_batch batch i).
  - lia.
  - rewrite Hst. unfold apply_committed_batch. rewrite (proj2 (N.leb_gt _ _)) by lia.
    by destruct (b_ops batch).
  - by eapply inv_committed.
  - intros c id. unfold records_of.
    etrans; [apply (sy_view _ _ _ _ (ci_synced _ _ _ _ _ Hci2))|].
    rewrite replay_view_snoc. unfold apply_view.
    destruct (last_op_on c id (b_ops batch)); [done|].
    symmetry. apply (sy_view _ _ _ _ (ci_synced _ _ _ _ _ Hci)).
Qed.
End runs.

(** C10: recovery closes the crash window.  When the log that a node finds has only writes
    and no-ops, with values that their JSON text keeps, no delete of it misses its record
    ([clean]; such a delete makes the replay panic), and the store holds any prefix of its
    commands, bootstrap succeeds: the node is the leader, no apply error was counted, and
    the records are those the whole log produces. *)
Theorem bootstrap_recovers v0 cmds k engine node_id cluster_id peers d base :
  found d cmds → Forall data_command cmds → Forall (λ c, command_safe c = true) cmds →
  clean v0 cmds → synced base v0 (take k cmds) (in_storage engine) →
  roomy (replay_storage base 1 cmds (in_storage engine)) →
  ∃ c f, bootstrap engine node_id cluster_id peers d (Some (enc_base base)) = Ok (c, f) ∧
    is_leader (cn_raft c) = true ∧ cn_apply_errors c = 0 ∧ cn_base c = base ∧
    ∀ col id, rm_get (records_of (cn_engine c)) col id = replay_view v0 cmds col id.
Proof.
  intros Hfd Hd Hsf Hcl Hsy Hr.
  destruct (bootstrap_inv v0 cmds k engine node_id cluster_id peers d (Some (enc_base base)) base
    (load_enc_base _ _) Hfd Hd Hsf Hsy) as [Hinv Hok].
  destruct (Hok Hcl Hr) as (c & f & Hb & Hst). exists c, f.
  destruct (Hinv _ _ Hb) as [Hci Herr]; [by rewrite Hst|]. split_and!; try done.
  - unfold is_leader. apply bool_decide_eq_true_2. apply (so_leader _ (ci_sole _ _ _ _ _ Hci)).
  - by rewrite (bootstrap_base _ _ _ _ _ _ _ _ Hb _ _ (load_enc_base _ _)).
  - intros col id. pose proof (sy_view _ _ _ _ (ci_synced _ _ _ _ _ Hci) col id) as Hv.
    by rewrite replay_view_snoc in Hv.
Qed.
End cluster.
