(* ===== verification/ReplicationSample.v ===== *)
(** * A concrete single-node cluster

    A concrete envelope codec, a cluster started on the small database of
    [StorageSample], the promises of [ReplicationSpec] on it, and the runs in which the
    commit-timestamp mapping loses an acknowledged write. *)

From S2P Require Import Prelude BTree Text Framing Value Core Eval Index Mvcc Storage.
From S2P Require Import RaftLog RaftNode RaftFile SoleVoter StorageRecovery StorageSpec StorageSample.
From S2P Require Import Txn Engine EngineSpec EngineSample Replication ReplicationSpec.

Import JsonSample.

Local Open Scope N_scope.

(** ** Codecs

    Values that occur in the runs below have one-byte codes, everything else the sample
    encoding behind two marker bytes. *)

Definition command_sum (c : ReplicatedCommand) : option (Batch + (CollectionSchema + string)) :=
  match c with
  | CmdNoop => None
  | CmdWrite b => Some (inl b)
  | CmdSchema (CmdCreate s) => Some (inr (inl s))
  | CmdSchema (CmdDrop n) => Some (inr (inr n))
  end.

Definition sum_command (x : option (Batch + (CollectionSchema + string))) : ReplicatedCommand :=
  match x with
  | None => CmdNoop
  | Some (inl b) => CmdWrite b
  | Some (inr (inl s)) => CmdSchema (CmdCreate s)
  | Some (inr (inr n)) => CmdSchema (CmdDrop n)
  end.

Lemma sum_command_sum c : sum_command (command_sum c) = c.
Proof. by destruct c as [| |[]]. Qed.

(** What the runs write. *)
Definition first_batch : Batch := mkBatch 8 [OpPut 0 (row 1 10)].
Definition write_batch : Batch := mkBatch 9 [OpPut 0 (row 5 50)].
Definition lost_batch : Batch := mkBatch 10 [OpPut 0 (row 6 60)].

Definition at_ts (ts : N) (b : Batch) : Batch := stamped b ts.

Definition batch_table : list Batch :=
  [at_ts 1 first_batch; at_ts 3 write_batch; at_ts 4 lost_batch; at_ts 5 lost_batch; at_ts 4 write_batch;
   at_ts 5 write_batch; at_ts 6 write_batch].

Definition command_table : list (N * option (Batch + (CollectionSchema + string))) :=
  [(1, None); (1, Some (inl write_batch)); (1, Some (inl lost_batch));
   (1, Some (inl (mkBatch 11 [OpPut 0 (row 7 70)])))].

Definition row_schema : CollectionSchema := mkSchema "c" [mkField "n" FInt false false true false] [] [].

Definition catalog_table : list Catalog :=
  [mkCatalog [("c", row_schema)] 1; mkCatalog [] 2].

#[export] Instance cluster_storage_codec : StorageCodec := {|
  enc_batch := coded_enc batch_table; dec_batch := coded_dec batch_table;
  enc_manifest := coded_enc [manifest_default]; dec_manifest := coded_dec [manifest_default];
  enc_catalog := coded_enc catalog_table; dec_catalog := coded_dec catalog_table;
  storage_crc := sample_crc;
|}.

#[export] Instance cluster_storage_codec_laws : StorageCodecLaws.
Proof. split; intros; first [apply coded_dec_enc; simpl; lia | exact sample_crc_bound]. Qed.

#[export] Instance sample_command_codec : CommandCodec := {|
  enc_envelope v c := if encodable c then Some (coded_enc command_table (v, command_sum c)) else None;
  dec_envelope l := (λ p, (p.1, sum_command p.2)) <$> coded_dec command_table l;
  enc_base := sample_enc;
  dec_base := sample_dec;
|}.

#[export] Instance sample_command_codec_laws : CommandCodecLaws.
Proof.
  split.
  - intros v c _ He. cbn [enc_envelope dec_envelope sample_command_codec]. rewrite He. eexists.
    split; [done|]. rewrite coded_dec_enc by (simpl; lia). simpl. by rewrite sum_command_sum.
  - done.
  - intros b. apply sample_dec_enc.
  - intros b. apply sample_enc_utf8.
Qed.

(** The codec of [RaftSample], with the payload of an entry behind its other fields. *)
Fixpoint until_space (l : list byte) : list byte * list byte :=
  match l with
  | [] => ([], [])
  | b :: l' => if Byte.eqb b x20 then ([], l')
               else let '(h, t) := until_space l' in (b :: h, t)
  end.

Lemma until_space_pos p rest : until_space (pos_bytes p ++ x20 :: rest) = (pos_bytes p, rest).
Proof. induction p as [p IH|p IH|]; simpl; [by rewrite IH|by rewrite IH|done]. Qed.

Definition entry_head (e : LogEntry) : N * N * (N * CommandKind) :=
  (e_term e, e_index e, (cmd_version (e_command e), cmd_kind (e_command e))).

Definition cluster_enc_entry (e : LogEntry) : list byte :=
  @sample_enc _ _ (@prod_countable _ _ _ _ _ (@prod_countable _ _ _ _ _ RaftSample.CommandKind_countable))
    (entry_head e) ++ x20 :: cmd_payload (e_command e).

Definition cluster_dec_entry (l : list byte) : option LogEntry :=
  let '(h, payload) := until_space l in
  '(t, i, (v, k)) ← @sample_dec _ _ (@prod_countable _ _ _ _ _
    (@prod_countable _ _ _ _ _ RaftSample.CommandKind_countable)) h;
  Some (RaftLog.mkEntry t i (mkCommand v k payload)).

#[export] Instance cluster_codec : RaftCodec := {|
  enc_entry := cluster_enc_entry; dec_entry := cluster_dec_entry;
  enc_hard := @enc_hard RaftSample.sample_codec; dec_hard := @dec_hard RaftSample.sample_codec;
  enc_meta := @enc_meta RaftSample.sample_codec; dec_meta := @dec_meta RaftSample.sample_codec;
  raft_crc := sample_crc;
|}.

#[export] Instance cluster_codec_laws : RaftCodecLaws.
Proof.
  split.
  - intros [t i [v k p]]. cbn [enc_entry dec_entry cluster_codec].
    unfold cluster_dec_entry, cluster_enc_entry, sample_enc. rewrite until_space_pos.
    unfold sample_dec. rewrite bytes_pos_bytes, decode_encode. done.
  - apply (@dec_enc_hard _ RaftSample.sample_codec_laws).
  - apply (@dec_enc_meta _ RaftSample.sample_codec_laws).
  - apply (@utf8_enc_hard _ RaftSample.sample_codec_laws).
  - apply (@utf8_enc_meta _ RaftSample.sample_codec_laws).
  - exact sample_crc_bound.
Qed.

(** ** A run *)

Abbreviation Node := (Inner (RaftWriteLog FileStorage)) (only parsing).

Abbreviation start s d f := (reboot (st_dir s) d f 7 9 (λ _, None) ∅ 0 60 1) (only parsing).

Definition idle : Node := mkInner fresh_storage ∅ 1 [] 0 60 0 1 ∅ None.
Definition started (r : Result RepFault (Node * option (list byte))) : Node * option (list byte) :=
  match r with Ok p => p | Err _ => (idle, None) end.

(** One record, written before the cluster was. *)
Definition db1 : Storage := (commit_batch first_batch fresh_storage).1.

Lemma db1_inv : storage_inv db1.
Proof.
  apply commit_batch_inv; [exact fresh_storage_inv|].
  split; [apply fits_by_computation; by vm_compute|done].
Qed.

Definition node0 : Node := (started (start db1 no_raft None)).1.
Definition file0 : option (list byte) := (started (start db1 no_raft None)).2.

Definition raft_files (i : Node) : RaftDir :=
  match in_cluster i with Some w => fs_dir (storage (wl_raft w)) | None => no_raft end.

Lemma start_ok s d f : res_is_ok (start s d f) = true →
  start s d f = Ok ((started (start s d f)).1, (started (start s d f)).2).
Proof. by destruct (start s d f) as [[]|]. Qed.

Lemma roomy_by_computation s :
  (N.of_nat (length (segment_file (st_dir s) (manifest_active (st_manifest s)))) <=? u64_max) = true →
  roomy s.
Proof. apply N.leb_le. Qed.

Lemma node0_started : start db1 no_raft None = Ok (node0, file0).
Proof. apply (start_ok db1 no_raft None). by vm_compute. Qed.

Lemma node0_run : cluster_run db1 7 9 (λ _, None) ∅ 0 60 1 node0 file0.
Proof.
  split; [exact db1_inv|]. exists node0, file0. split_and!.
  - exact node0_started.
  - apply roomy_by_computation. by vm_compute.
  - apply rtc_refl.
Qed.

Definition node1 : Node := (engine_commit_batch write_batch node0).1.

(** The machine dies with the next write in the log and not in the store. *)
Definition log1 : RaftWriteLog FileStorage :=
  default (mkWriteLog (node_new (config_single_node 7) RaftSample.empty_storage) 0)
    (in_cluster node1).
Definition crashed_files : RaftDir := fs_dir (storage (wl_raft (replicate lost_batch log1).1)).
Definition node2 : Node := (started (start (in_storage node1) crashed_files file0)).1.
Definition file2 : option (list byte) := (started (start (in_storage node1) crashed_files file0)).2.

Lemma node2_started : start (in_storage node1) crashed_files file0 = Ok (node2, file2).
Proof. apply (start_ok (in_storage node1) crashed_files file0). by vm_compute. Qed.

Lemma log1_attached : bool_decide (is_Some (in_cluster node1)) = true → in_cluster node1 = Some log1.
Proof. unfold log1. by destruct (in_cluster node1). Qed.

Lemma node1_crash : cluster_step (node1, file0) (node2, file2).
Proof.
  apply (cl_crash node1 file0 log1 lost_batch crashed_files 7 9 (λ _, None) ∅ 0 60 1).
  - apply log1_attached. by vm_compute.
  - done.
  - unfold crashed_files. apply cp_committed.
  - apply RaftSample.addressable_dec. by vm_compute.
  - exact node2_started.
  - apply roomy_by_computation. by vm_compute.
Qed.

Lemma write_commits_witness :
  ∃ i' ts cmds, engine_commit_batch write_batch node0 = (i', Ok ts) ∧
    st_last_commit_ts (in_storage node0) < ts ∧
    committed_commands i' = Some (cmds ++ [CmdWrite write_batch]).
Proof.
  destruct (write_commits db1 7 9 (λ _, None) ∅ 0 60 1 node0 file0 write_batch node0_run)
    as (i' & ts & cmds & He & Hlt & _ & Hc & _).
  - reflexivity.
  - apply roomy_by_computation. by vm_compute.
  - exists i', ts, cmds. split; [exact He|]. split; [exact Hlt|exact Hc].
Defined.

Lemma acknowledged_writes_survive_witness :
  ∃ cmds later, committed_commands node2 = Some (cmds ++ CmdWrite write_batch :: later) ∧
    rm_get (records_of node2) "c" 5 = Some (row 5 50).
Proof.
  destruct (acknowledged_writes_survive db1 7 9 (λ _, None) ∅ 0 60 1 node0 file0 write_batch node1 3
    node2 file2 node0_run) as (cmds & later & _ & Hc & _).
  - reflexivity.
  - refine (pair_eq_2 (engine_commit_batch write_batch node0) (Ok 3) _). by vm_compute.
  - apply roomy_by_computation. by vm_compute.
  - apply rtc_once. exact node1_crash.
  - exists cmds, later. split; [exact Hc|by vm_compute].
Defined.

(** The store is one write behind the log. *)
Definition log0 : RaftWriteLog FileStorage :=
  default (mkWriteLog (node_new (config_single_node 7) RaftSample.empty_storage) 0)
    (in_cluster node0).
Abbreviation ahead_files := (fs_dir (storage (wl_raft (replicate write_batch log0).1))).

Lemma node0_inv : cluster_inv (live_view db1) [CmdNoop] node0 file0 log0.
Proof.
  destruct (run_inv _ _ _ _ _ _ _ _ _ _ node0_run) as (cmds & w & Hci).
  assert (Hc : committed_commands node0 = Some [CmdNoop]) by by vm_compute.
  rewrite (inv_committed _ _ _ _ _ Hci) in Hc. injection Hc as ->.
  replace log0 with w; [exact Hci|]. unfold log0. by rewrite (ci_log _ _ _ _ _ Hci).
Qed.

Lemma log0_base : wl_base log0 = 1.
Proof. by vm_compute. Qed.

Lemma ahead_found : found ahead_files ([CmdNoop] ++ [CmdWrite write_batch]).
Proof.
  assert (Ha : (N.of_nat (length (default [] (log_file ahead_files))) <=? u64_max) = true)
    by by vm_compute.
  apply RaftSample.addressable_dec in Ha.
  exact (replicated_found (live_view db1) [CmdNoop] node0 file0 log0 write_batch node0_inv eq_refl Ha).
Qed.

Lemma bootstrap_recovers_witness :
  ∃ c f, bootstrap node0 7 9 0 ahead_files (Some (enc_base 1)) = Ok (c, f) ∧
    is_leader (cn_raft c) = true ∧ rm_get (records_of (cn_engine c)) "c" 5 = Some (row 5 50).
Proof.
  destruct (bootstrap_recovers (live_view db1) [CmdNoop; CmdWrite write_batch] 1 node0 7 9 0
    ahead_files 1) as (c & f & Hb & Hl & _ & _ & Hv).
  - exact ahead_found.
  - by repeat constructor.
  - by repeat constructor.
  - intros [|[|j]] b Hj; [discriminate| |discriminate]. injection Hj as <-. by repeat constructor.
  - rewrite <- log0_base. exact (ci_synced _ _ _ _ _ node0_inv).
  - apply roomy_by_computation. by vm_compute.
  - exists c, f. split; [exact Hb|]. split; [exact Hl|]. rewrite Hv. by vm_compute.
Defined.

(** ** Acknowledged and lost *)

(** A write is acknowledged at the timestamp of its log index, and the store ignores a
    batch at or below its watermark.  Whatever else moves the watermark makes the next
    replicated write disappear.  Dropping a collection that has records does, since it
    commits their deletion locally. *)
Definition with_schema : Node := (create_schema row_schema node1).1.
Definition dropped : Node := (engine_drop_schema "c" with_schema).1.

Example write_after_drop_is_lost :
  (engine_drop_schema "c" with_schema).2 = Ok tt ∧
  (engine_commit_batch lost_batch dropped).2 = Ok 4 ∧
  rm_get (records_of (engine_commit_batch lost_batch dropped).1) "c" 6 = None.
Proof. by vm_compute. Qed.

(** So do writes made while cluster mode was switched off: the base is not moved when it
    is switched on again. *)
Definition local_writes (s : Storage) : Storage :=
  (commit_batch lost_batch (commit_batch write_batch s).1).1.
Definition new_row : Batch := mkBatch 11 [OpPut 0 (row 7 70)].
Definition reenabled : Node :=
  (started (start (local_writes (in_storage node1)) (raft_files node1) file0)).1.

Example write_after_reenabling_is_lost :
  (engine_commit_batch new_row reenabled).2 = Ok 5 ∧
  rm_get (records_of (engine_commit_batch new_row reenabled).1) "c" 7 = None.
Proof. by vm_compute. Qed.

(** A drop of a collection cannot be put into the log. *)
Example drop_is_not_encodable : encode (CmdSchema (CmdDrop "User")) = Err RepCodec.
Proof. done. Qed.
