(* ===== verification/Snapshot.v ===== *)
(** * Snapshots of the state machine

    Models [crates/auradb-replication/src/snapshot.rs] (capture, verification, decoding
    and restore of a logical dump of the engine) and [Engine::install_snapshot] of
    [crates/auradb/src/engine.rs], the follower side of a peer snapshot.

    A restore works on two directories, the target and the staging directory beside it;
    each is missing or holds the files of a storage and other entries.  The calls of the
    file system may fail, and a removal may stop half way: their outcomes are an argument
    ([RestoreIo]).  The JSON of the payload and of the manifest
    is a parameter ([ManifestCodec]); the clock reading and the texts of versions and ids
    are arguments. *)

From S2P Require Import Prelude Sorting BTree Text Framing Value Core Rank Eval Chars Index Vector TextSearch Analyzer AnalyzedSearch Snippet Query Planner Cursor Exec SearchPage Aggregate QueryTools Mvcc Storage StorageRecovery Txn Engine EngineRead.
From S2P Require Import RaftLog Replication.

Local Open Scope N_scope.

Definition SNAPSHOT_FORMAT_VERSION : N := 1.

Record SnapshotMeta := mkSnapMeta {
  sm_format_version : N;
  sm_cluster_id : option string;
  sm_node_id : option string;
  sm_last_included_index : N;
  sm_last_included_term : N;
  sm_storage_format_version : N;
  sm_collections : nat;
  sm_records : nat;
  sm_digest : N;
  sm_created_by_version : string;
  sm_created_at_unix : N;
}.

Record RestoreOptions := mkRestoreOptions {
  ro_force : bool;
  ro_expected_cluster_id : option string;
  ro_allow_cluster_mismatch : bool;
}.

Record SnapshotData := mkSnapData {
  sd_schemas : list CollectionSchema;
  sd_records : list (string * Document);
}.

Record SnapshotManifest := mkSnapManifest {
  sn_meta : SnapshotMeta;
  sn_payload : list byte;
}.

(** What its JSON text keeps of a dump. *)
Definition document_safe `{FloatText} (d : Document) : bool := forallb (λ kv, text_safe kv.2) d.
Definition data_safe `{FloatText} (d : SnapshotData) : bool := forallb (λ r, document_safe r.2) (sd_records d).

Class ManifestCodec := {
  enc_data : SnapshotData → list byte;
  dec_data : list byte → option SnapshotData;
  enc_snapshot : SnapshotManifest → list byte;
  dec_snapshot : list byte → option SnapshotManifest;
  #[global] snapshot_crc :: Crc32;
}.

Class ManifestCodecLaws `{FloatText, ManifestCodec} : Prop := {
  dec_enc_data : ∀ d, data_safe d = true → dec_data (enc_data d) = Some d;
  dec_enc_snapshot : ∀ m, dec_snapshot (enc_snapshot m) = Some m;
}.

(** ** The manifest *)

Section manifest.
Context `{ManifestCodec}.

Definition with_identity (m : SnapshotManifest) (cluster_id node_id : option string)
  : SnapshotManifest :=
  let t := sn_meta m in
  mkSnapManifest
    (mkSnapMeta (sm_format_version t) cluster_id node_id (sm_last_included_index t)
       (sm_last_included_term t) (sm_storage_format_version t) (sm_collections t)
       (sm_records t) (sm_digest t) (sm_created_by_version t) (sm_created_at_unix t))
    (sn_payload m).

Definition verified_payload (m : SnapshotManifest) : Result ReplicationError (list byte) :=
  if SNAPSHOT_FORMAT_VERSION <? sm_format_version (sn_meta m)
  then Err (RepUnsupportedSnapshot (sm_format_version (sn_meta m)) SNAPSHOT_FORMAT_VERSION)
  else if negb (crc32 (sn_payload m) =? sm_digest (sn_meta m)) then Err RepSnapshotMalformed
  else Ok (sn_payload m).

Definition validate_for_restore (m : SnapshotManifest) (opts : RestoreOptions)
  : Result ReplicationError unit :=
  let? _ := verified_payload m in
  if FORMAT_VERSION <? sm_storage_format_version (sn_meta m) then Err RepSnapshotRestoreRefused
  else match ro_expected_cluster_id opts, sm_cluster_id (sn_meta m) with
       | Some expected, Some found =>
           if (negb (bool_decide (expected = found)) && negb (ro_allow_cluster_mismatch opts))%bool
           then Err RepSnapshotRestoreRefused
           else Ok tt
       | _, _ => Ok tt
       end.

Definition decode_data (m : SnapshotManifest) : Result ReplicationError SnapshotData :=
  let? payload := verified_payload m in
  match dec_data payload with
  | Some data => Ok data
  | None => Err RepSnapshotMalformed
  end.

Definition decode_state (m : SnapshotManifest)
  : Result ReplicationError (list CollectionSchema * list (string * Document)) :=
  let? data := decode_data m in
  Ok (sd_schemas data, sd_records data).

Definition snapshot_encode (m : SnapshotManifest) : list byte := enc_snapshot m.

Definition snapshot_decode (bytes : list byte) : Result ReplicationError SnapshotManifest :=
  match dec_snapshot bytes with
  | None => Err RepSnapshotMalformed
  | Some m =>
      if SNAPSHOT_FORMAT_VERSION <? sm_format_version (sn_meta m)
      then Err (RepUnsupportedSnapshot (sm_format_version (sn_meta m)) SNAPSHOT_FORMAT_VERSION)
      else Ok m
  end.
End manifest.

(** ** The engine *)

Section engine.
Context `{Unicode, CharCase, NaturalLog, MapOrder, AnnSearch, ElapsedTime, HashOrder}
  `{JsonText, StorageCodec, QueryJson, ManifestCodec}.
Context {L : Type} `{ReplicatedLog L}.
Implicit Types (i : Inner L) (stats : string → option CollectionStats).

Definition list_schemas i : list CollectionSchema := bt_values (cat_schemas (st_catalog (in_storage i))).

(** The rows of every collection, in the order of the catalogue. *)
Fixpoint capture stats i (schemas : list CollectionSchema)
  : Result ReplicationError (list (string * Document)) :=
  match schemas with
  | [] => Ok []
  | schema :: rest =>
      match engine_find stats (find_new (cs_name schema)) i with
      | Err _ => Err RepSnapshotMalformed
      | Ok rows =>
          let? more := capture stats i rest in
          Ok (((λ row, (cs_name schema, row_fields row)) <$> rows) ++ more)
      end
  end.

Definition snapshot_create stats i (index term : N) (version : string) (now : N)
  : Result ReplicationError SnapshotManifest :=
  let schemas := list_schemas i in
  let? records := capture stats i schemas in
  let data := mkSnapData schemas records in
  let payload := enc_data data in
  let digest := crc32 payload in
  Ok (mkSnapManifest
        (mkSnapMeta SNAPSHOT_FORMAT_VERSION None None index term FORMAT_VERSION
           (length schemas) (length records) digest version now)
        payload).

(** ** Install into a live engine *)

Fixpoint install_schemas (schemas : list CollectionSchema) : SE (Inner L) Fault unit :=
  match schemas with
  | [] => se_ret tt
  | schema :: rest => _ <~ create_schema schema ;; install_schemas rest
  end.

Definition snapshot_op (collection : string) (fields : Document) : SE (Inner L) Fault LogOp :=
  schema <~ (λ i, lift (schema_for i collection) i) ;;
  fallback <~ next_id ;;
  id <~ lift (record_id_for schema fields fallback) ;;
  existing <~ se_get (λ i, rm_get (records_of i) collection id) ;;
  let version := match existing with Some r => rec_version r + 1 | None => 1 end in
  se_ret (OpPut 0 (mkRec id collection fields version txn_auto)).

Fixpoint snapshot_ops_of (records : list (string * Document)) : SE (Inner L) Fault (list LogOp) :=
  match records with
  | [] => se_ret []
  | (collection, fields) :: rest =>
      op <~ snapshot_op collection fields ;;
      ops <~ snapshot_ops_of rest ;;
      se_ret (op :: ops)
  end.

(** [analyze_all], for the row counts that the engine model keeps. *)
Definition refresh_row_counts i : Inner L :=
  set_row_counts
    (foldl (λ m schema, <[cs_name schema := length (rm_scan (records_of i) (cs_name schema))]> m)
       ∅ (list_schemas i)) i.

Definition engine_install_snapshot (schemas : list CollectionSchema)
    (records : list (string * Document)) (log_index : N) : SE (Inner L) Fault unit := λ i,
  if log_index <=? st_last_commit_ts (in_storage i) then (i, Ok tt)
  else
    (_ <~ install_schemas schemas ;;
     ops <~ snapshot_ops_of records ;;
     _ <~ apply_replicated_batch (mkBatch txn_auto ops) log_index ;;
     se_modify refresh_row_counts) i.

(** ** Restore into a directory *)

Fixpoint upsert_all (records : list (string * Document)) : SE (Inner L) Fault unit :=
  match records with
  | [] => se_ret tt
  | (collection, fields) :: rest =>
      _ <~ apply_mutation (MUpsert collection fields) ;; upsert_all rest
  end.

(** [Engine::open]: a new engine with default options. *)
Definition open_engine (d : Dir) (now : N) : Res (Inner L) :=
  let? s := open_with d in engine_open s (λ _, None) ∅ now 300 1.

(** A directory on disk: the files of the storage, and the names of whatever else is in it. *)
Record HostDir := mkHostDir {
  hd_data : Dir;
  hd_other : gset string;
}.

(** [materialize_into]: the directory that is left, and the engine.  The directory is made
    when the engine opens. *)
Definition materialize_into (m : SnapshotManifest) (d : option HostDir) (now : N)
  : option HostDir * Result RepFault (Inner L) :=
  match decode_data m with
  | Err e => (d, Err (RepFailed e))
  | Ok data =>
      let host := default (mkHostDir empty_dir ∅) d in
      match open_engine (hd_data host) now with
      | Err e => (Some host, Err (RepFailed (RepApply e)))
      | Ok i =>
          let '(i, r) := (_ <~ install_schemas (sd_schemas data) ;;
                          _ <~ upsert_all (sd_records data) ;;
                          se_modify refresh_row_counts) i in
          (Some (mkHostDir (st_dir (in_storage i)) (hd_other host)),
           match r with Ok _ => Ok i | Err f => Err (rep_fault f) end)
      end
  end.

(** What a removal that failed half way left of a directory. *)
Record Kept := mkKept {
  kt_manifest : bool;
  kt_catalog : bool;
  kt_segments : gset N;
  kt_other : gset string;
}.

Definition part_of (k : Kept) (d : HostDir) : HostDir :=
  mkHostDir
    (mkDbDir (if kt_manifest k then d_manifest (hd_data d) else None)
             (if kt_catalog k then d_catalog (hd_data d) else None)
             (filter (λ kv, kv.1 ∈ kt_segments k) (d_segments (hd_data d))))
    (hd_other d ∩ kt_other k).

(** [std::fs::remove_dir_all]: it removes everything, or fails and leaves a part; on a
    missing directory it fails. *)
Definition remove_dir_all (outcome : option Kept) (d : option HostDir) : option HostDir * bool :=
  match d, outcome with
  | None, _ => (None, false)
  | Some _, None => (None, true)
  | Some d, Some k => (Some (part_of k d), false)
  end.

(** What the file system answers to the calls of a restore: reading the target, clearing a
    left-over staging directory, cleaning up after a failed build, removing the old
    target, making its parent and the rename. *)
Record RestoreIo := mkRestoreIo {
  io_read_dir : bool;
  io_clear : option Kept;
  io_cleanup : option Kept;
  io_remove : option Kept;
  io_parent : bool;
  io_rename : bool;
}.

Record RestoreFs := mkRestoreFs {
  rf_target : option HostDir;
  rf_staging : option HostDir;
}.

(** [dir_is_nonempty]: at least one entry, of whatever kind; an error reads as empty. *)
Definition dir_nonempty (readable : bool) (d : option HostDir) : bool :=
  match d with
  | None => false
  | Some d =>
      readable &&
      (bool_decide (is_Some (d_manifest (hd_data d))) || bool_decide (is_Some (d_catalog (hd_data d)))
       || negb (bool_decide (d_segments (hd_data d) = ∅)) || negb (bool_decide (hd_other d = ∅)))
  end.

(** A panic leaves the staging directory behind; the errors of clearing and cleaning up the
    staging directory are dropped. *)
Definition restore_to (m : SnapshotManifest) (opts : RestoreOptions) (io : RestoreIo) (now : N)
    (fs : RestoreFs) : RestoreFs * Result RepFault (Inner L) :=
  match validate_for_restore m opts with
  | Err e => (fs, Err (RepFailed e))
  | Ok _ =>
      if (dir_nonempty (io_read_dir io) (rf_target fs) && negb (ro_force opts))%bool
      then (fs, Err (RepFailed RepSnapshotRestoreRefused))
      else
        match materialize_into m (remove_dir_all (io_clear io) (rf_staging fs)).1 now with
        | (staging, Err (RepFailed e)) =>
            (mkRestoreFs (rf_target fs) (remove_dir_all (io_cleanup io) staging).1, Err (RepFailed e))
        | (staging, Err RepPanicked) => (mkRestoreFs (rf_target fs) staging, Err RepPanicked)
        | (staging, Ok _) =>
            let '(target, removed) :=
              match rf_target fs with
              | Some d => remove_dir_all (io_remove io) (Some d)
              | None => (None, true)
              end in
            if negb removed then (mkRestoreFs target staging, Err (RepFailed RepSnapshotMalformed))
            else if negb (io_parent io)
            then (mkRestoreFs target staging, Err (RepFailed RepSnapshotMalformed))
            else if negb (io_rename io)
            then (mkRestoreFs target staging, Err (RepFailed RepSnapshotMalformed))
            else
              (mkRestoreFs staging None,
               match open_engine (hd_data (default (mkHostDir empty_dir ∅) staging)) now with
               | Ok i => Ok i
               | Err e => Err (RepFailed (RepApply e))
               end)
        end
  end.
End engine.
