(* ===== verification/SnapshotSpec.v ===== *)
(** * What a snapshot carries

    Capturing the engine, sending the manifest and installing it into an empty follower
    gives the follower the schemas and the records of the leader, at the boundary of the
    snapshot; a restore, whatever fails in it, leaves the old target or a complete copy. *)

From S2P Require Import Prelude Sorting BTree Text Framing Value Core Rank Eval Chars Index Vector TextSearch Analyzer AnalyzedSearch Snippet Query Planner Cursor Exec ExecSpec SearchPage Aggregate QueryTools Mvcc Storage StorageRecovery Txn Engine EngineSpec EngineIndex EngineRead.
From S2P Require Import RaftLog Replication ReplicationSpec Snapshot.

Local Open Scope N_scope.

Section manifest.
Context `{FT : FloatText, ManifestCodec, !ManifestCodecLaws}.

Lemma decode_data_created data meta :
  data_safe data = true → sm_format_version meta = SNAPSHOT_FORMAT_VERSION →
  sm_digest meta = crc32 (enc_data data) →
  decode_data (mkSnapManifest meta (enc_data data)) = Ok data.
Proof.
  intros Hs Hv Hd. unfold decode_data, verified_payload. simpl. rewrite Hv, Hd, N.eqb_refl. simpl.
  by rewrite dec_enc_data.
Qed.
End manifest.

(** ** Capture *)

Section capture.
Context `{Unicode, CharCase, NaturalLog, MapOrder, AnnSearch, ElapsedTime, HashOrder}
  `{JsonText, !JsonTextLaws, StorageCodec, QueryJson, ManifestCodec}.
Context {L : Type} `{ReplicatedLog L}.
Implicit Types (i : Inner L) (stats : string → option CollectionStats).

(** The catalogue lists each collection under its name, and every one has its index. *)
Record catalogued i : Prop := {
  ct_wf : bt_wf (cat_schemas (st_catalog (in_storage i)));
  ct_names : ∀ c schema, get_schema (in_storage i) c = Some schema → cs_name schema = c;
  ct_indexed : ∀ c schema, get_schema (in_storage i) c = Some schema →
    is_Some (in_indexes i !! c);
}.

Lemma materialize_plain ds c schema all rank :
  materialize_rows ds (find_new c) schema false rank all =
    Ok (omap (λ cand, (λ r, mkRow (string_of (record_id_display (sc_id cand))) (rec_fields r)
                         (sc_score cand) (sc_text_score cand) (sc_vector_score cand) None [] [])
                      <$> ds_get ds c (sc_id cand)) all).
Proof.
  revert rank. induction all as [|cand all IH]; intros rank; [done|]. cbn [materialize_rows omap].
  simpl. destruct (ds_get ds c (sc_id cand)) as [r|]; simpl; [|apply IH]. by rewrite IH.
Qed.

(** A find without clauses returns every record once. *)
Lemma find_all stats i c schema :
  engine_ok i → engine_indexed i → catalogued i → get_schema (in_storage i) c = Some schema →
  ∃ rs rows, engine_find stats (find_new c) i = Ok rows ∧ row_fields <$> rows = rec_fields <$> rs ∧
    rs ≡ₚ rm_scan (records_of i) c.
Proof.
  intros Hok Hix Hcat Hs. destruct (ct_indexed _ Hcat _ _ Hs) as [ci Hci].
  pose proof (engine_source_ok i stats c Hok Hix) as Hso.
  destruct (find_result_unranked (engine_source i stats) (find_new c) _ ci schema Hso Hs Hci)
    as (sel & _ & Hres & Hnd & Hel & _); [done|done|].
  set (ds := engine_source i stats) in *.
  set (all := order_matched ds (find_new c) (se_score_ordered sel)
                (kept ds (find_new c) (se_candidates sel))).
  assert (Hperm : sc_id <$> all ≡ₚ rec_id <$> rm_scan (records_of i) c).
  { unfold all. rewrite order_matched_perm. destruct (scan_facts (records_of i) c) as [Hnd' Hin];
      [apply Hok|].
    apply NoDup_Permutation; [done|done|]. intros id. rewrite Hel. split.
    - intros (r & Hr & _). apply list_elem_of_fmap. exists r.
      pose proof (sk_id _ _ _ Hso _ _ Hr) as <-. split; [done|]. apply Hin.
      by rewrite <- (sk_get _ _ _ Hso) in Hr.
    - intros (r & -> & Hr)%list_elem_of_fmap. exists r. split; [|done].
      rewrite <- (sk_get _ _ _ Hso). by apply Hin. }
  exists (omap (λ id, rm_get (records_of i) c id) (sc_id <$> all)), (omap (λ cand,
    (λ r, mkRow (string_of (record_id_display (sc_id cand))) (rec_fields r)
            (sc_score cand) (sc_text_score cand) (sc_vector_score cand) None [] [])
     <$> rm_get (records_of i) c (sc_id cand)) all).
  split_and!.
  - unfold engine_find, engine_plan_find, execute_find, execute_find_within. unfold se_bind.
    assert (Hrun : (run_find ds (find_new c) (after_ms 0) 0%nat).2 = find_result ds (find_new c))
      by apply run_find_unbounded.
    change (default 0 (fq_timeout_ms (find_new c))) with 0. fold ds.
    destruct (run_find ds (find_new c) (after_ms 0) 0%nat) as [n' r]. simpl in Hrun. subst r.
    rewrite Hres. simpl. unfold materialize, materialize_page, require_schema. simpl.
    rewrite Hs. simpl. apply (materialize_plain ds c schema).
  - clear. induction all as [|cand all IH]; csimpl; [done|].
    destruct (rm_get (records_of i) c (sc_id cand)); csimpl; [by rewrite IH|done].
  - rewrite Hperm. destruct (scan_facts (records_of i) c) as [_ Hin]; [apply Hok|].
    assert (Hall : ∀ r, r ∈ rm_scan (records_of i) c → rm_get (records_of i) c (rec_id r) = Some r)
      by (intros r; apply Hin).
    clear -Hall. induction (rm_scan (records_of i) c) as [|r l IH]; csimpl; [done|].
    rewrite Hall by by left. rewrite IH; [done|]. intros r' Hr'. apply Hall. by right.
Qed.

(** A key of a record. *)
Definition rec_key (r : Rec) : string * N := (rec_collection r, rec_id r).

Lemma capture_spec stats i schemas :
  engine_ok i → engine_indexed i → catalogued i →
  NoDup (cs_name <$> schemas) →
  Forall (λ schema, get_schema (in_storage i) (cs_name schema) = Some schema) schemas →
  ∃ rs, capture stats i schemas = Ok ((λ r, (rec_collection r, rec_fields r)) <$> rs) ∧
    NoDup (rec_key <$> rs) ∧
    ∀ r, r ∈ rs ↔ rec_collection r ∈ cs_name <$> schemas ∧
                  rm_get (records_of i) (rec_collection r) (rec_id r) = Some r.
Proof.
  intros Hok Hix Hcat. induction schemas as [|schema schemas IH]; intros Hnd Hall.
  { exists []. split; [done|]. split; [constructor|]. set_solver. }
  csimpl in *. apply NoDup_cons in Hnd as [Hni Hnd]. apply Forall_cons in Hall as [Hs Hall].
  destruct (IH Hnd Hall) as (rs & -> & Hk & Hel).
  destruct (find_all stats i (cs_name schema) schema Hok Hix Hcat Hs) as (ss & rows & -> & Hrow & Hp).
  destruct (scan_facts (records_of i) (cs_name schema)) as [Hsnd Hsin]; [apply Hok|].
  assert (Hin : ∀ r, r ∈ ss ↔ rec_collection r = cs_name schema ∧
    rm_get (records_of i) (rec_collection r) (rec_id r) = Some r).
  { intros r. rewrite Hp, Hsin. split.
    - intros Hr. pose proof (get_placed _ _ _ _ (proj1 (eo_store _ Hok)) Hr) as [Hc _].
      split; [done|]. by rewrite Hc.
    - intros [Hc Hr]. by rewrite Hc in Hr. }
  exists (ss ++ rs). simpl. split_and!.
  - f_equal. rewrite fmap_app. f_equal.
    assert (Hcol : Forall (λ r, rec_collection r = cs_name schema) ss)
      by (apply Forall_forall; intros r Hr; by apply Hin in Hr as [? _]).
    clear -Hrow Hcol. revert rows Hrow.
    induction Hcol as [|r ss Hr _ IH]; intros [|row rows] Hrow; csimpl in *; try done.
    injection Hrow as Hf Hrow. by rewrite (IH rows Hrow), Hf, Hr.
  - rewrite fmap_app. apply NoDup_app. split_and!; [|  |done].
    + assert (Hndss : NoDup (rec_id <$> ss)) by by rewrite Hp.
      clear -Hndss. induction ss as [|r ss IH]; csimpl in *; [constructor|].
      apply NoDup_cons in Hndss as [Hni Hnd]. constructor; [|by apply IH].
      intros (r' & Hr' & Hin)%list_elem_of_fmap. apply Hni. apply list_elem_of_fmap.
      exists r'. split; [|done]. by injection Hr'.
    + intros k (r & -> & Hr)%list_elem_of_fmap (r' & Hkk & Hr')%list_elem_of_fmap.
      apply Hin in Hr as [Hc _]. apply Hel in Hr' as [Hc' _]. injection Hkk as Hkk _.
      rewrite <- Hkk, Hc in Hc'. done.
  - intros r. rewrite elem_of_app, Hin, Hel, elem_of_cons. tauto.
Qed.
End capture.

(** ** Install *)

Section install.
Context `{Unicode, CharCase, NaturalLog, MapOrder, AnnSearch, ElapsedTime, HashOrder}
  `{JsonText, !JsonTextLaws, StorageCodec, QueryJson, FT : FloatText, ManifestCodec, !ManifestCodecLaws}.
Context {L : Type} `{ReplicatedLog L}.
Implicit Types (i j : Inner L) (stats : string → option CollectionStats).

Definition no_records j : Prop := ∀ c id, rm_get (records_of j) c id = None.

Lemma no_records_scan j c : store_ok (in_storage j) → no_records j → rm_scan (records_of j) c = [].
Proof.
  intros [Hwf _] Hn. destruct (scan_facts (records_of j) c Hwf) as [_ Hin].
  destruct (rm_scan (records_of j) c) as [|r l]; [done|]. exfalso.
  pose proof (proj1 (Hin r) ltac:(by left)) as Hr. by rewrite Hn in Hr.
Qed.

(** Registering a schema while there are no records. *)
Lemma create_schema_empty schema j :
  store_ok (in_storage j) → no_records j → validate_definition schema = Ok tt →
  ∃ j', create_schema schema j = (j', Ok tt) ∧ store_ok (in_storage j') ∧ no_records j' ∧
    st_last_commit_ts (in_storage j') = st_last_commit_ts (in_storage j) ∧
    cat_schemas (st_catalog (in_storage j')) =
      bt_insert (cs_name schema) schema (cat_schemas (st_catalog (in_storage j))).
Proof.
  intros Hst Hn Hv. unfold create_schema, put_schema. rewrite Hv.
  pose proof (put_schema_keeps 0 schema (in_storage j)) as Hk. unfold put_schema in Hk. rewrite Hv in Hk.
  set (s := set_st_records _ _) in *. cbn [fst] in Hk.
  assert (Hst' : store_ok s) by by apply (kp_ok _ _ _ Hk).
  assert (Hn' : no_records (set_storage s j)).
  { intros c id. unfold records_of, rm_get. simpl. rewrite chain_of_ensure. apply Hn. }
  change (records_of (set_storage s j)) with (st_records s).
  assert (Hsc : rm_scan (st_records s) (cs_name schema) = [])
    by exact (no_records_scan (set_storage s j) _ Hst' Hn').
  rewrite Hsc. cbn [rebuild rebuild_loop].
  eexists. split; [done|]. split_and!; [exact Hst'|exact Hn'|done|done].
Qed.

Lemma install_schemas_empty schemas : ∀ j,
  store_ok (in_storage j) → no_records j → bt_wf (cat_schemas (st_catalog (in_storage j))) →
  NoDup (cs_name <$> schemas) → Forall (λ schema, validate_definition schema = Ok tt) schemas →
  ∃ j', install_schemas schemas j = (j', Ok tt) ∧ store_ok (in_storage j') ∧ no_records j' ∧
    st_last_commit_ts (in_storage j') = st_last_commit_ts (in_storage j) ∧
    (∀ schema, schema ∈ schemas → get_schema (in_storage j') (cs_name schema) = Some schema) ∧
    (∀ c, c ∉ cs_name <$> schemas → get_schema (in_storage j') c = get_schema (in_storage j) c).
Proof.
  induction schemas as [|schema schemas IH]; intros j Hst Hn Hwf Hnd Hv.
  { exists j. split_and!; try done. set_solver. }
  csimpl in *. apply NoDup_cons in Hnd as [Hni Hnd]. apply Forall_cons in Hv as [Hv Hvs].
  destruct (create_schema_empty schema j Hst Hn Hv) as (j1 & He & Hst1 & Hn1 & Hts & Hcat).
  destruct (IH j1 Hst1 Hn1) as (j' & Hi & Hst' & Hn' & Hts' & Hin & Hout); [|done|done|].
  { rewrite Hcat. by apply bt_wf_insert. }
  exists j'. unfold se_bind. rewrite He, Hi. split_and!; try done; [congruence| |].
  - intros sc [->|Hsc]%elem_of_cons; [|by apply Hin].
    rewrite Hout by done. unfold get_schema. rewrite Hcat, bt_get_insert. by rewrite decide_True.
  - intros c [Hne Hnc]%not_elem_of_cons. rewrite Hout by done. unfold get_schema.
    rewrite Hcat, bt_get_insert. by rewrite decide_False.
Qed.

Definition put_of (r : Rec) (op : LogOp) : Prop :=
  ∃ v, op = OpPut 0 (mkRec (rec_id r) (rec_collection r) (rec_fields r) v txn_auto).

Lemma snapshot_ops_ok rs : ∀ j,
  Forall (λ r, ∃ schema, schema_for j (rec_collection r) = Ok schema ∧
    ∀ fallback, record_id_for schema (rec_fields r) fallback = Ok (rec_id r)) rs →
  ∃ j' ops, snapshot_ops_of ((λ r, (rec_collection r, rec_fields r)) <$> rs) j = (j', Ok ops) ∧
    in_storage j' = in_storage j ∧ Forall2 put_of rs ops.
Proof.
  induction rs as [|r rs IH]; intros j Hall.
  { exists j, []. split_and!; [done|done|constructor]. }
  apply Forall_cons in Hall as [(schema & Hs & Hid) Hall].
  set (j1 := set_clock (wrap64 (in_clock j + 1)) j). destruct (IH j1 Hall) as (j' & ops & He & Hst & Hf).
  eexists j', (_ :: ops). split_and!; [|done|constructor; [by eexists|done]].
  csimpl. unfold snapshot_op, se_bind, se_get. rewrite Hs. cbn [lift next_id].
  rewrite Hid. cbn [lift se_ret]. fold j1. by rewrite He.
Qed.

Lemma last_put rs ops c id :
  Forall2 put_of rs ops → NoDup (rec_key <$> rs) →
  match last_op_on c id ops with
  | Some op => ∃ r, r ∈ rs ∧ rec_key r = (c, id) ∧ rec_fields <$> op_value op = Some (rec_fields r)
  | None => ∀ r, r ∈ rs → rec_key r ≠ (c, id)
  end.
Proof.
  unfold last_op_on. induction 1 as [|r op rs ops (v & ->) _ IH]; csimpl; [set_solver|].
  intros [Hni Hnd]%NoDup_cons. specialize (IH Hnd). cbn [find_last].
  destruct (find_last _ ops) as [op'|].
  - destruct IH as (r' & Hr' & Hk & Hf). exists r'. split; [by right|done].
  - case_bool_decide as Hk.
    + exists r. split; [by left|]. unfold rec_key. simpl in *. by destruct Hk as [-> ->].
    + intros r' [->|Hr']%elem_of_cons; [|by apply IH]. unfold rec_key. intros [=]. by apply Hk.
Qed.

(** Every live record has the id that its primary key gives. *)
Definition keyed i : Prop := ∀ c schema id r,
  get_schema (in_storage i) c = Some schema → rm_get (records_of i) c id = Some r →
  ∀ fallback, record_id_for schema (rec_fields r) fallback = Ok id.

Lemma list_schemas_get i schema :
  catalogued i → schema ∈ list_schemas i ↔ get_schema (in_storage i) (cs_name schema) = Some schema.
Proof.
  intros Hcat. unfold list_schemas, bt_values, get_schema. split.
  - intros ([c sc] & -> & Hin)%list_elem_of_fmap. simpl.
    assert (Hg : bt_get c (cat_schemas (st_catalog (in_storage i))) = Some sc)
      by by apply bt_elem_of_get; [apply Hcat|].
    by rewrite (ct_names _ Hcat _ _ Hg).
  - intros Hg. apply bt_get_elem_of in Hg. apply list_elem_of_fmap. by exists (cs_name schema, schema).
Qed.

Lemma bt_wf_nodup {V} (m : list (string * V)) : bt_wf m → NoDup m.*1.
Proof.
  induction m as [|[k v] m IH]; [constructor|]. intros [Hk Hm]%bt_wf_cons. csimpl.
  constructor; [|by apply IH]. intros Hin. rewrite Forall_forall in Hk.
  apply Hk in Hin. unfold klt in Hin. by rewrite kcompare_refl in Hin.
Qed.

Lemma list_schemas_nodup i : catalogued i → NoDup (cs_name <$> list_schemas i).
Proof.
  intros Hcat. unfold list_schemas, bt_values.
  assert (Heq : cs_name <$> (cat_schemas (st_catalog (in_storage i))).*2
                = (cat_schemas (st_catalog (in_storage i))).*1).
  { rewrite <- list_fmap_compose. apply list_fmap_ext. intros k [c sc] Hk. simpl.
    apply (ct_names _ Hcat). apply bt_elem_of_get; [apply Hcat|]. by apply list_elem_of_lookup_2 in Hk. }
  rewrite Heq. apply bt_wf_nodup, Hcat.
Qed.

(** Installing captured records into a follower without records. *)
Lemma install_empty i j schemas rs log_index :
  catalogued i → keyed i → schemas = list_schemas i →
  NoDup (rec_key <$> rs) →
  (∀ r, r ∈ rs ↔ rec_collection r ∈ cs_name <$> schemas ∧
                 rm_get (records_of i) (rec_collection r) (rec_id r) = Some r) →
  rm_wf (records_of i) →
  Forall (λ schema, validate_definition schema = Ok tt) schemas →
  store_ok (in_storage j) → no_records j → bt_wf (cat_schemas (st_catalog (in_storage j))) →
  st_last_commit_ts (in_storage j) < log_index →
  ∃ j', engine_install_snapshot schemas ((λ r, (rec_collection r, rec_fields r)) <$> rs) log_index j
          = (j', Ok tt) ∧
    st_last_commit_ts (in_storage j') = log_index ∧
    ∀ c schema, get_schema (in_storage i) c = Some schema →
      get_schema (in_storage j') c = Some schema ∧
      ∀ id, rec_fields <$> rm_get (records_of j') c id = rec_fields <$> rm_get (records_of i) c id.
Proof.
  intros Hcat Hkey -> Hnd Hel Hwfi Hv Hst Hn Hbt Hlt. unfold engine_install_snapshot.
  rewrite (proj2 (N.leb_gt _ _)) by done.
  destruct (install_schemas_empty _ j Hst Hn Hbt (list_schemas_nodup _ Hcat) Hv)
    as (j1 & He & Hst1 & Hn1 & Hts1 & Hin & _).
  destruct (snapshot_ops_ok rs j1) as (j2 & ops & Ho & Hst2 & Hf).
  { apply Forall_forall. intros r [Hc Hr]%Hel.
    apply list_elem_of_fmap in Hc as (schema & Hc & Hs).
    exists schema. unfold schema_for. rewrite Hc, (Hin _ Hs). split; [done|].
    apply list_schemas_get in Hs; [|done]. rewrite <- Hc in Hs. by eapply Hkey. }
  unfold se_bind. rewrite He, Ho.
  destruct (apply_replicated_spec (mkBatch txn_auto ops) log_index j2) as (Hap & _ & _ & Hok).
  destruct (apply_replicated_batch _ _ j2) as [j3 r]. cbn [fst snd] in *.
  assert (r = Ok tt) as ->.
  { apply Hok; [rewrite Hst2; lia|]. simpl. clear -Hf. induction Hf as [|? ? ? ? (v & ->)]; by constructor. }
  eexists. split; [done|].
  assert (Hlt2 : st_last_commit_ts (in_storage j1) < log_index) by lia.
  rewrite Hst2 in Hap. unfold apply_committed_batch in Hap.
  rewrite (proj2 (N.leb_gt _ _)) in Hap by done.
  assert (Hres : st_last_commit_ts (in_storage j3) = log_index ∧
    st_catalog (in_storage j3) = st_catalog (in_storage j1) ∧
    ∀ c id, rm_get (records_of j3) c id =
      match last_op_on c id ops with Some op => op_value op | None => None end).
  { unfold records_of. rewrite Hap. cbn [b_ops]. destruct ops as [|op ops].
    - split; [done|]. split; [done|]. intros c id. apply Hn1.
    - split; [done|]. split; [done|]. intros c id.
      rewrite log_and_apply_get by (done || apply Hst1). simpl.
      destruct (last_op_on c id (op :: ops)); [done|]. apply Hn1. }
  destruct Hres as (Hts3 & Hcat3 & Hget3). split; [exact Hts3|]. intros c schema Hs. split.
  - unfold get_schema. simpl. rewrite Hcat3.
    pose proof (ct_names _ Hcat _ _ Hs) as Hnm.
    rewrite <- Hnm. apply Hin. apply list_schemas_get; [done|]. by rewrite Hnm.
  - intros id. change (records_of (refresh_row_counts j3)) with (records_of j3). rewrite Hget3.
    pose proof (last_put rs ops c id Hf Hnd) as Hlast.
    pose proof (ct_names _ Hcat _ _ Hs) as Hnm.
    assert (Hcin : c ∈ cs_name <$> list_schemas i).
    { apply list_elem_of_fmap. exists schema. split; [done|]. apply list_schemas_get; [done|].
      by rewrite Hnm. }
    destruct (last_op_on c id ops) as [op|].
    + destruct Hlast as (r & [_ Hr]%Hel & Hk & ->). injection Hk as <- <-. by rewrite Hr.
    + destruct (rm_get (records_of i) c id) as [r|] eqn:Er; [|done]. exfalso.
      pose proof (get_placed _ _ _ _ Hwfi Er) as [<- <-].
      apply (Hlast r); [|done]. by apply Hel.
Qed.

(** What a capture sends and what an install makes of it, whoever the sender says it is. *)
Lemma transfer stats i j index term version now log_index :
  engine_ok i → engine_indexed i → catalogued i → keyed i →
  Forall (λ schema, validate_definition schema = Ok tt) (list_schemas i) →
  (∀ c id r, rm_get (records_of i) c id = Some r → document_safe (rec_fields r) = true) →
  store_ok (in_storage j) → no_records j → bt_wf (cat_schemas (st_catalog (in_storage j))) →
  st_last_commit_ts (in_storage j) < log_index →
  ∃ m schemas records j',
    snapshot_create stats i index term version now = Ok m ∧
    (sm_last_included_index (sn_meta m) = index ∧ sm_last_included_term (sn_meta m) = term ∧
     sm_storage_format_version (sn_meta m) = FORMAT_VERSION ∧ sm_records (sn_meta m) = length records ∧
     with_identity m None None = m) ∧
    (∀ cid nid, snapshot_decode (snapshot_encode (with_identity m cid nid)) = Ok (with_identity m cid nid) ∧
       decode_state (with_identity m cid nid) = Ok (schemas, records)) ∧
    engine_install_snapshot schemas records log_index j = (j', Ok tt) ∧
    st_last_commit_ts (in_storage j') = log_index ∧
    ∀ c schema, get_schema (in_storage i) c = Some schema →
      get_schema (in_storage j') c = Some schema ∧
      ∀ id, rec_fields <$> rm_get (records_of j') c id = rec_fields <$> rm_get (records_of i) c id.
Proof.
  intros Hok Hix Hcat Hkey Hv Hsafe Hst Hn Hbt Hlt.
  destruct (capture_spec stats i (list_schemas i) Hok Hix Hcat (list_schemas_nodup _ Hcat))
    as (rs & Hcap & Hnd & Hel).
  { apply Forall_forall. intros schema Hs. by apply list_schemas_get. }
  destruct (install_empty i j _ rs log_index Hcat Hkey eq_refl Hnd Hel (proj1 (eo_store _ Hok))
    Hv Hst Hn Hbt Hlt) as (j' & Hinst & Hres).
  set (records := (λ r, (rec_collection r, rec_fields r)) <$> rs) in *.
  unfold snapshot_create. rewrite Hcap. cbn [res_bind].
  eexists _, (list_schemas i), records, j'. split; [done|]. split; [by split_and!|].
  split; [|by split_and!; try apply Hres]. intros cid nid. split.
  - unfold snapshot_decode, snapshot_encode. by rewrite dec_enc_snapshot.
  - unfold decode_state, with_identity. cbn [sn_meta sn_payload]. rewrite decode_data_created; [done| |done|done].
    unfold data_safe, records. cbn [sd_records]. apply forallb_forall.
    intros x (r & -> & [_ Hr]%Hel)%list_elem_of_In%list_elem_of_fmap. by eapply Hsafe.
Qed.

(** A snapshot carries the state.  The snapshot of an engine whose records have the
    ids of their primary keys is captured whatever the planner's statistics, survives its
    encoding, and when a follower without records installs it beyond its watermark, the
    follower has every schema and every record of the leader, field by field, and its
    watermark is the boundary of the snapshot. *)
Theorem snapshot_transfer stats i j index term version now log_index :
  engine_ok i → engine_indexed i → catalogued i → keyed i →
  Forall (λ schema, validate_definition schema = Ok tt) (list_schemas i) →
  (∀ c id r, rm_get (records_of i) c id = Some r → document_safe (rec_fields r) = true) →
  store_ok (in_storage j) → no_records j → bt_wf (cat_schemas (st_catalog (in_storage j))) →
  st_last_commit_ts (in_storage j) < log_index →
  ∃ m m' schemas records j',
    snapshot_create stats i index term version now = Ok m ∧
    snapshot_decode (snapshot_encode m) = Ok m' ∧ decode_state m' = Ok (schemas, records) ∧
    sm_records (sn_meta m') = length records ∧
    engine_install_snapshot schemas records log_index j = (j', Ok tt) ∧
    st_last_commit_ts (in_storage j') = log_index ∧
    ∀ c schema, get_schema (in_storage i) c = Some schema →
      get_schema (in_storage j') c = Some schema ∧
      ∀ id, rec_fields <$> rm_get (records_of j') c id = rec_fields <$> rm_get (records_of i) c id.
Proof.
  intros Hok Hix Hcat Hkey Hv Hsafe Hst Hn Hbt Hlt.
  destruct (transfer stats i j index term version now log_index Hok Hix Hcat Hkey Hv Hsafe Hst Hn Hbt Hlt)
    as (m & schemas & records & j' & Hm & (_ & _ & _ & Hc & Hid) & Hd & Hrest).
  destruct (Hd None None) as [Hdec Hst']. rewrite Hid in Hdec, Hst'.
  exists m, m, schemas, records, j'. by split_and!; try apply Hrest.
Qed.

End install.

(** ** Restore *)

(** An engine whose records a snapshot keeps: its invariants, ids derived from primary
    keys, valid schemas, and values that their JSON text keeps. *)
Section portable.
Context `{Unicode, JsonText, FT : FloatText, StorageCodec}.
Context {L : Type} `{ReplicatedLog L}.

Record portable (i : Inner L) : Prop := {
  po_ok : engine_ok i;
  po_indexed : engine_indexed i;
  po_catalogued : catalogued i;
  po_keyed : keyed i;
  po_valid : Forall (λ schema, validate_definition schema = Ok tt) (list_schemas i);
  po_safe : ∀ c id r, rm_get (records_of i) c id = Some r → document_safe (rec_fields r) = true;
}.
End portable.

Section restore.
Context `{Unicode, CharCase, NaturalLog, MapOrder, AnnSearch, ElapsedTime, HashOrder}
  `{JsonText, !JsonTextLaws, FT : FloatText, StorageCodec, !StorageCodecLaws, QueryJson}
  `{ManifestCodec, !ManifestCodecLaws}.
Context {L : Type} `{ReplicatedLog L}.
Implicit Types (i j : Inner L) (stats : string → option CollectionStats).

(** What a capture writes. *)
Lemma captured stats i index term version nu m cluster_id node_id :
  portable i → snapshot_create stats i index term version nu = Ok m →
  ∃ rs, decode_data (with_identity m cluster_id node_id) = Ok (mkSnapData (list_schemas i) ((λ r, (rec_collection r, rec_fields r)) <$> rs)) ∧
    NoDup (rec_key <$> rs) ∧
    ∀ r, r ∈ rs ↔ rec_collection r ∈ cs_name <$> list_schemas i ∧
                  rm_get (records_of i) (rec_collection r) (rec_id r) = Some r.
Proof.
  intros [Hok Hix Hcat Hkey Hv Hsafe] Hm.
  destruct (capture_spec stats i (list_schemas i) Hok Hix Hcat (list_schemas_nodup _ Hcat))
    as (rs & Hcap & Hnd & Hel).
  { apply Forall_forall. intros schema Hs. by apply list_schemas_get. }
  unfold snapshot_create in Hm. rewrite Hcap in Hm. injection Hm as <-.
  exists rs. split_and!; [|done|done]. apply decode_data_created; [|done|done].
  unfold data_safe. cbn [sd_records]. apply forallb_forall.
  intros x (r & -> & [_ Hr]%Hel)%list_elem_of_In%list_elem_of_fmap. by eapply Hsafe.
Qed.

(** One upsert is one commit of the record under its id. *)
Lemma upsert_effect c fields j j' res :
  in_cluster j = None → apply_mutation (MUpsert c fields) j = (j', Ok res) →
  ∃ schema id v, get_schema (in_storage j) c = Some schema ∧
    record_id_for schema fields (in_clock j) = Ok id ∧ in_cluster j' = None ∧
    in_storage j' =
      (commit_batch (mkBatch txn_auto [OpPut 0 (mkRec id c fields v txn_auto)]) (in_storage j)).1.
Proof.
  intros Hcl. unfold apply_mutation, write_records, schema_for, se_bind at 1 2.
  destruct (get_schema (in_storage j) c) as [schema|] eqn:Hs; [|done]. cbn [lift].
  unfold prepare_records, prepare_record, se_bind, se_get, se_ret, se_modify, se_fail, lift, next_id.
  destruct (validate_record schema fields); [|done].
  destruct (record_id_for schema fields (in_clock j)) as [id|] eqn:Eid; [|done].
  rewrite andb_false_r. destruct (referential_check _ schema fields); [|done].
  set (v := match rm_get _ c id with Some r => _ | None => 1 end).
  cbn [in_indexes set_clock]. destruct (in_indexes j !! c) as [ci|] eqn:Eci; [|done].
  destruct (check_unique ci _ _); [|done]. destruct (check_pending_unique _ _ _); [|done].
  unfold engine_commit_batch. cbn [in_cluster set_clock in_storage]. rewrite Hcl.
  cbn [fmap list_fmap fst snd]. destruct (commit_batch _ (in_storage j)) as [s ts] eqn:Ec.
  unfold update_collection_index. cbn [in_indexes set_storage set_clock]. rewrite Eci.
  intros [= <- <-]. exists schema, id, v. split_and!; [done|done|done|]. by rewrite Ec.
Qed.

Lemma storage_inv_store s : storage_inv s → store_ok s.
Proof. intros [Hwf _]. split; apply Hwf. Qed.

Lemma commit_roomy b s : roomy (commit_batch b s).1 → roomy s.
Proof.
  unfold commit_batch. destruct (b_ops b) eqn:E; [done|]. intros Hr.
  apply (replay_roomy 0 [CmdWrite b] (st_last_commit_ts s + 1)). simpl. unfold apply_committed_batch.
  rewrite (proj2 (N.leb_gt _ _)) by lia. by rewrite E, N.add_0_l.
Qed.

Lemma commit_fits_roomy b s :
  b_ops b ≠ [] → batch_safe b = true → roomy (commit_batch b s).1 → commit_fits b (st_last_commit_ts s + 1) s.
Proof.
  intros Hne Hs Hr. apply roomy_fits; [lia|done|done|]. unfold apply_committed_batch, commit_batch in *.
  rewrite (proj2 (N.leb_gt _ _)) by lia. by destruct (b_ops b).
Qed.

Lemma upsert_all_grows records : ∀ j j',
  in_cluster j = None → upsert_all records j = (j', Ok tt) →
  (roomy (in_storage j') → roomy (in_storage j)) ∧ in_cluster j' = None ∧
  st_catalog (in_storage j') = st_catalog (in_storage j).
Proof.
  induction records as [|[c fields] records IH]; intros j j' Hcl Hu; simpl in Hu; [by injection Hu as <-|].
  unfold se_bind in Hu. destruct (apply_mutation (MUpsert _ _) j) as [j1 [res|f]] eqn:Ea; [|done].
  destruct (upsert_effect _ _ _ _ _ Hcl Ea) as (schema & id & v & _ & _ & Hcl1 & Hst1).
  destruct (IH j1 j' Hcl1 Hu) as (Hr & Hcl' & Hcat). rewrite Hst1 in Hr, Hcat. split_and!; [|done|done].
  intros Hj'. exact (commit_roomy _ _ (Hr Hj')).
Qed.

(** A record that can be written back: its collection is known, its key gives its id and
    its values are kept. *)
Definition restorable j (r : Rec) : Prop :=
  document_safe (rec_fields r) = true ∧
  ∃ schema, get_schema (in_storage j) (rec_collection r) = Some schema ∧
    ∀ fallback, record_id_for schema (rec_fields r) fallback = Ok (rec_id r).

Lemma upsert_get j j1 r v c id :
  storage_inv (in_storage j) →
  in_storage j1 = (commit_batch (mkBatch txn_auto
    [OpPut 0 (mkRec (rec_id r) (rec_collection r) (rec_fields r) v txn_auto)]) (in_storage j)).1 →
  rm_get (records_of j1) c id =
    if decide (rec_key r = (c, id)) then Some (mkRec (rec_id r) (rec_collection r) (rec_fields r) v txn_auto)
    else rm_get (records_of j) c id.
Proof.
  intros Hinv Hst1. unfold records_of. rewrite Hst1, commit_batch_get by by apply storage_inv_store.
  unfold last_op_on. cbn [b_ops find_last]. unfold rec_key. case_bool_decide as E; case_decide as E'; simpl in *.
  - done.
  - destruct E as [<- <-]. done.
  - injection E' as <- <-. by destruct E.
  - done.
Qed.

Lemma upsert_all_spec rs : ∀ j j',
  in_cluster j = None → storage_inv (in_storage j) → Forall (restorable j) rs → NoDup (rec_key <$> rs) →
  upsert_all ((λ r, (rec_collection r, rec_fields r)) <$> rs) j = (j', Ok tt) → roomy (in_storage j') →
  storage_inv (in_storage j') ∧
  (∀ r, r ∈ rs → rec_fields <$> rm_get (records_of j') (rec_collection r) (rec_id r) = Some (rec_fields r)) ∧
  ∀ c id, (∀ r, r ∈ rs → rec_key r ≠ (c, id)) → rm_get (records_of j') c id = rm_get (records_of j) c id.
Proof.
  induction rs as [|r rs IH]; intros j j' Hcl Hinv Hall Hnd Hu Hroom.
  { injection Hu as <-. split_and!; [done|set_solver|done]. }
  apply Forall_cons in Hall as [(Hsafe & schema & Hs & Hid) Hall]. csimpl in *. apply NoDup_cons in Hnd as [Hni Hnd].
  unfold se_bind in Hu. destruct (apply_mutation (MUpsert _ _) j) as [j1 [res|f]] eqn:Ea; [|done].
  destruct (upsert_effect _ _ _ _ _ Hcl Ea) as (schema' & id & v & Hs' & Hid' & Hcl1 & Hst1).
  assert (schema' = schema) as -> by congruence. rewrite Hid in Hid'. injection Hid' as <-.
  destruct (upsert_all_grows _ j1 j' Hcl1 Hu) as (Hgrow & _ & _).
  assert (Hinv1 : storage_inv (in_storage j1)).
  { apply Hgrow in Hroom as Hr1. rewrite Hst1 in *. apply commit_batch_inv; [done|].
    apply commit_fits_roomy; [done| |done]. unfold batch_safe, record_safe. simpl. by rewrite andb_true_r. }
  pose proof (λ c id, upsert_get j j1 r v c id Hinv Hst1) as Hget.
  destruct (IH j1 j' Hcl1 Hinv1) as (Hinv' & Hin & Hout); [|done|done|done|].
  { eapply Forall_impl; [exact Hall|]. intros x (Hx & sc & Hsc & Hxi). split; [done|]. exists sc.
    unfold get_schema in *. by rewrite Hst1. }
  split_and!; [done| |].
  - intros x [->|Hx]%elem_of_cons; [|by apply Hin]. rewrite Hout, Hget.
    + by rewrite decide_True.
    + intros y Hy Hk. apply Hni. apply list_elem_of_fmap. by exists y.
  - intros c id Hk. rewrite Hout, Hget by (intros y Hy; apply Hk; by right).
    rewrite decide_False; [done|]. apply Hk. by left.
Qed.

Lemma install_schemas_inv schemas : ∀ j j',
  install_schemas schemas j = (j', Ok tt) → storage_inv (in_storage j) → in_cluster j = None →
  storage_inv (in_storage j') ∧ in_cluster j' = None.
Proof.
  induction schemas as [|schema schemas IH]; intros j j' Hi Hinv Hcl; simpl in Hi; [by injection Hi as <-|].
  unfold se_bind in Hi. destruct (create_schema schema j) as [j1 [[]|f]] eqn:Ec; [|done].
  apply (IH j1 j' Hi); unfold create_schema in Ec; destruct (validate_definition schema) eqn:Ev; try done;
    pose proof (put_schema_inv schema (in_storage j) Hinv) as Hp;
    destruct (put_schema schema (in_storage j)) as [s [[]|e]]; try done;
    destruct (rebuild _ _) as [ci [[]|e]]; try done; by injection Ec as <-.
Qed.

(** A directory that opens with the schemas and records of an engine. *)
Definition same_content i (s : Storage) : Prop :=
  ∀ c schema, get_schema (in_storage i) c = Some schema →
    get_schema s c = Some schema ∧
    ∀ id, rec_fields <$> rm_get (st_records s) c id = rec_fields <$> rm_get (records_of i) c id.

Definition serves i (d : HostDir) : Prop :=
  ∃ s, open_with (hd_data d) = Ok s ∧ same_content i s.

(** What is built in an empty directory from a capture opens with all that was captured. *)
Lemma materialize_serves stats i index term version nu m cluster_id node_id now d j :
  portable i → snapshot_create stats i index term version nu = Ok m →
  materialize_into (L := L) (with_identity m cluster_id node_id) None now = (d, Ok j) → roomy (in_storage j) →
  ∃ host, d = Some host ∧ serves i host.
Proof.
  intros Hp Hm Hb Hroom. destruct (captured _ _ _ _ _ _ _ cluster_id node_id Hp Hm) as (rs & Hd & Hnd & Hel).
  destruct Hp as [Hok Hix Hcat Hkey Hv Hsafe].
  unfold materialize_into in Hb. rewrite Hd in Hb. cbn [default sd_schemas sd_records hd_data] in Hb.
  set (j0 := mkInner fresh_storage ∅ 1 [] now 300 0 1 ∅ None : Inner L).
  change (open_engine empty_dir now) with (Ok (E := Error) j0) in Hb. cbv beta match in Hb.
  destruct (install_schemas_empty (list_schemas i) j0) as (j1 & Hi & _ & Hn1 & _ & Hsch & _);
    [by split; [apply rm_wf_nil|]|done|constructor|by apply list_schemas_nodup|done|].
  destruct (install_schemas_inv _ _ _ Hi fresh_storage_inv eq_refl) as [Hinv1 Hcl1].
  unfold se_bind, se_modify in Hb. rewrite Hi in Hb.
  destruct (upsert_all _ j1) as [j2 [[]|f]] eqn:Eu; [|done]. injection Hb as <- <-.
  destruct (upsert_all_grows _ _ _ Hcl1 Eu) as (_ & _ & Hcat2).
  destruct (upsert_all_spec rs j1 j2 Hcl1 Hinv1) as (Hinv2 & Hin & Hout); [|done|done|exact Hroom|].
  { apply Forall_forall. intros r [Hc Hr]%Hel. split; [by eapply Hsafe|].
    apply list_elem_of_fmap in Hc as (schema & Hc & Hs). exists schema. rewrite Hc, (Hsch _ Hs). split; [done|].
    apply list_schemas_get in Hs; [|done]. rewrite <- Hc in Hs. by eapply Hkey. }
  eexists. split; [done|]. destruct (open_recovers _ Hinv2) as (s & Ho & _ & (Hg & _ & Hc & _)).
  exists s. split; [exact Ho|]. intros c schema Hs. pose proof (ct_names _ Hcat _ _ Hs) as Hnm.
  assert (Hl : schema ∈ list_schemas i) by (apply list_schemas_get; [done|by rewrite Hnm]). split.
  - unfold get_schema. rewrite Hc, Hcat2. rewrite <- Hnm. by apply Hsch.
  - intros id. rewrite Hg. change (st_records (in_storage j2)) with (records_of j2).
    destruct (rm_get (records_of i) c id) as [r|] eqn:Er.
    + pose proof (get_placed _ _ _ _ (proj1 (eo_store _ Hok)) Er) as [<- <-]. rewrite Hin; [done|].
      apply Hel. split; [|done]. apply list_elem_of_fmap. by exists schema.
    + rewrite Hout, Hn1; [done|]. intros r [_ Hr]%Hel [= <- <-]. congruence.
Qed.

End restore.
