(* ===== verification/Peer.v ===== *)
(** * The driver of a multi-node cluster

    Models [crates/auradb-replication/src/multi.rs]: the state a node process shares
    between its threads, the Raft driver, the write path of the leader, the handling of
    peer messages, the shipping and installation of snapshots, and the reports.

    [drive] works in sections, each under one lock; the sections that follow the one under
    the Raft lock are a list of tasks, so that other threads can run between them.  The
    write path is split where it waits: [replicate_propose] under the Raft lock and
    [replicate_poll] on the published commit state.  A write holds the engine lock all the
    time, so the engine only sees the answer of its log: the log of the engine is the
    answer itself.  Times are milliseconds; sockets and TLS are outside the model. *)

From S2P Require Import Prelude Sorting BTree Text Framing Value Core Rank Eval Chars Index Vector TextSearch Analyzer AnalyzedSearch Snippet Query Planner Cursor Exec SearchPage Aggregate QueryTools Mvcc Storage StorageRecovery Txn Engine EngineRead.
From S2P Require Import RaftLog RaftNode RaftFile Cluster Transport Replication Snapshot.

Local Open Scope N_scope.

Definition ELECTION_MIN_TICKS : N := 9.
Definition ELECTION_MAX_TICKS : N := 18.
Definition HEARTBEAT_TICKS : N := 3.
Definition BACKOFF_MIN : N := 50.
Definition BACKOFF_MAX : N := 2000.
Definition OUTBOUND_QUEUE : nat := 1024.
Definition SNAPSHOT_RESEND_COOLDOWN : N := 500.

(** The answer of the replicated log, as the engine sees it. *)
#[export] Instance answer_log : ReplicatedLog (Res N) := λ _ answer, (answer, answer).

(** ** Shared state *)

(** Why a snapshot was rejected. *)
Inductive RejectReason :=
| RjOversized
| RjStaleTerm
| RjDecode
| RjOtherCluster
| RjNewerStorage
| RjBoundary
| RjDigest.

Record LastSnapshotInfo := mkLastSnapshot {
  ls_last_error : option RejectReason;
  ls_last_included_index : N;
  ls_last_included_term : N;
  ls_last_install_unix : option N;
}.

Record Counters := mkCounters {
  ct_elections : N;
  ct_election_timeouts : N;
  ct_append_entries_failures : N;
  ct_heartbeat_latency_ms : N;
  ct_apply_errors : N;
  ct_snapshots_sent : N;
  ct_snapshots_installed : N;
  ct_snapshots_rejected : N;
  ct_snapshot_needed : N;
  ct_snapshot_bytes_sent : N;
  ct_snapshot_bytes_installed : N;
  ct_snapshot_in_progress : N;
  ct_last_snapshot : LastSnapshotInfo;
}.

Definition counters_default : Counters :=
  mkCounters 0 0 0 0 0 0 0 0 0 0 0 0 (mkLastSnapshot None 0 0 None).

Record SnapshotSendState := mkSendState {
  ss_last_sent : gmap NodeId (N * N);
  ss_needed_flagged : gset NodeId;
}.

Record PeerLink := mkLink {
  pl_queue : list PeerMessage;
  pl_connected : bool;
  pl_attempts : N;
}.

Record CommitState := mkCommitState {
  cst_commit_index : N;
  cst_term : N;
  cst_is_leader : bool;
}.

Definition commit_state_default : CommitState := mkCommitState 0 0 false.

Abbreviation PeerEngine := (Inner (Res N)) (only parsing).

Record Shared := mkShared {
  sh_raft : RaftNode FileStorage;
  sh_engine : PeerEngine;
  sh_identity : ClusterIdentity;
  sh_config : ClusterConfig;
  sh_base : N;
  sh_commit_state : CommitState;
  sh_links : gmap NodeId PeerLink;
  sh_connected_in : gset NodeId;
  sh_counters : Counters;
  sh_snapshot_send : SnapshotSendState;
  sh_dropped_peers : gset NodeId;
}.

Definition set_sh_raft x (s : Shared) : Shared :=
  mkShared x (sh_engine s) (sh_identity s) (sh_config s) (sh_base s) (sh_commit_state s) (sh_links s) (sh_connected_in s) (sh_counters s) (sh_snapshot_send s) (sh_dropped_peers s).
Definition set_sh_engine x (s : Shared) : Shared :=
  mkShared (sh_raft s) x (sh_identity s) (sh_config s) (sh_base s) (sh_commit_state s) (sh_links s) (sh_connected_in s) (sh_counters s) (sh_snapshot_send s) (sh_dropped_peers s).
Definition set_sh_commit_state x (s : Shared) : Shared :=
  mkShared (sh_raft s) (sh_engine s) (sh_identity s) (sh_config s) (sh_base s) x (sh_links s) (sh_connected_in s) (sh_counters s) (sh_snapshot_send s) (sh_dropped_peers s).
Definition set_sh_links x (s : Shared) : Shared :=
  mkShared (sh_raft s) (sh_engine s) (sh_identity s) (sh_config s) (sh_base s) (sh_commit_state s) x (sh_connected_in s) (sh_counters s) (sh_snapshot_send s) (sh_dropped_peers s).
Definition set_sh_connected_in x (s : Shared) : Shared :=
  mkShared (sh_raft s) (sh_engine s) (sh_identity s) (sh_config s) (sh_base s) (sh_commit_state s) (sh_links s) x (sh_counters s) (sh_snapshot_send s) (sh_dropped_peers s).
Definition set_sh_counters x (s : Shared) : Shared :=
  mkShared (sh_raft s) (sh_engine s) (sh_identity s) (sh_config s) (sh_base s) (sh_commit_state s) (sh_links s) (sh_connected_in s) x (sh_snapshot_send s) (sh_dropped_peers s).
Definition set_sh_snapshot_send x (s : Shared) : Shared :=
  mkShared (sh_raft s) (sh_engine s) (sh_identity s) (sh_config s) (sh_base s) (sh_commit_state s) (sh_links s) (sh_connected_in s) (sh_counters s) x (sh_dropped_peers s).
Definition set_sh_dropped_peers x (s : Shared) : Shared :=
  mkShared (sh_raft s) (sh_engine s) (sh_identity s) (sh_config s) (sh_base s) (sh_commit_state s) (sh_links s) (sh_connected_in s) (sh_counters s) (sh_snapshot_send s) x.

Definition bump_elections (c : Counters) : Counters :=
  mkCounters (ct_elections c + 1) (ct_election_timeouts c) (ct_append_entries_failures c) (ct_heartbeat_latency_ms c) (ct_apply_errors c) (ct_snapshots_sent c) (ct_snapshots_installed c) (ct_snapshots_rejected c) (ct_snapshot_needed c) (ct_snapshot_bytes_sent c) (ct_snapshot_bytes_installed c) (ct_snapshot_in_progress c) (ct_last_snapshot c).
Definition bump_apply_errors (c : Counters) : Counters :=
  mkCounters (ct_elections c) (ct_election_timeouts c) (ct_append_entries_failures c) (ct_heartbeat_latency_ms c) (ct_apply_errors c + 1) (ct_snapshots_sent c) (ct_snapshots_installed c) (ct_snapshots_rejected c) (ct_snapshot_needed c) (ct_snapshot_bytes_sent c) (ct_snapshot_bytes_installed c) (ct_snapshot_in_progress c) (ct_last_snapshot c).
Definition bump_sent_snapshot (bytes : N) (c : Counters) : Counters :=
  mkCounters (ct_elections c) (ct_election_timeouts c) (ct_append_entries_failures c) (ct_heartbeat_latency_ms c) (ct_apply_errors c) (ct_snapshots_sent c + 1) (ct_snapshots_installed c) (ct_snapshots_rejected c) (ct_snapshot_needed c) (ct_snapshot_bytes_sent c + bytes) (ct_snapshot_bytes_installed c) (ct_snapshot_in_progress c) (ct_last_snapshot c).
Definition bump_rejected (c : Counters) : Counters :=
  mkCounters (ct_elections c) (ct_election_timeouts c) (ct_append_entries_failures c) (ct_heartbeat_latency_ms c) (ct_apply_errors c) (ct_snapshots_sent c) (ct_snapshots_installed c) (ct_snapshots_rejected c + 1) (ct_snapshot_needed c) (ct_snapshot_bytes_sent c) (ct_snapshot_bytes_installed c) (ct_snapshot_in_progress c) (ct_last_snapshot c).
Definition bump_installed (bytes : N) (info : LastSnapshotInfo) (c : Counters) : Counters :=
  mkCounters (ct_elections c) (ct_election_timeouts c) (ct_append_entries_failures c) (ct_heartbeat_latency_ms c) (ct_apply_errors c) (ct_snapshots_sent c) (ct_snapshots_installed c + 1) (ct_snapshots_rejected c) (ct_snapshot_needed c) (ct_snapshot_bytes_sent c) (ct_snapshot_bytes_installed c + bytes) (ct_snapshot_in_progress c) info.
Definition set_progress (in_progress needed : N) (c : Counters) : Counters :=
  mkCounters (ct_elections c) (ct_election_timeouts c) (ct_append_entries_failures c) (ct_heartbeat_latency_ms c) (ct_apply_errors c) (ct_snapshots_sent c) (ct_snapshots_installed c) (ct_snapshots_rejected c) (ct_snapshot_needed c + needed) (ct_snapshot_bytes_sent c) (ct_snapshot_bytes_installed c) in_progress (ct_last_snapshot c).
Definition set_last_error (r : RejectReason) (c : Counters) : Counters :=
  let l := ct_last_snapshot c in
  mkCounters (ct_elections c) (ct_election_timeouts c) (ct_append_entries_failures c) (ct_heartbeat_latency_ms c) (ct_apply_errors c) (ct_snapshots_sent c) (ct_snapshots_installed c) (ct_snapshots_rejected c) (ct_snapshot_needed c) (ct_snapshot_bytes_sent c) (ct_snapshot_bytes_installed c) (ct_snapshot_in_progress c)
    (mkLastSnapshot (Some r) (ls_last_included_index l) (ls_last_included_term l) (ls_last_install_unix l)).

Definition own_id (s : Shared) : NodeId := identity_node_id (sh_identity s).

(** ** Links *)

(** [try_send] on the bounded queue of a link. *)
Definition try_send (m : PeerMessage) (l : PeerLink) : option PeerLink :=
  if (length (pl_queue l) <? OUTBOUND_QUEUE)%nat
  then Some (mkLink (pl_queue l ++ [m]) (pl_connected l) (pl_attempts l))
  else None.

(** Whether the message was queued. *)
Definition send_to (peer : NodeId) (m : PeerMessage) (s : Shared) : Shared * bool :=
  match sh_links s !! peer ≫= try_send m with
  | Some l => (set_sh_links (<[peer := l]> (sh_links s)) s, true)
  | None => (s, false)
  end.

Definition route (outbox : list Envelope) (s : Shared) : Shared :=
  foldl (λ s e, (send_to (env_to e) (PmRaft (own_id s) (env_message e)) s).1) s outbox.

(** One round of a dialer: an attempt, and the backoff that follows it. *)
Definition dial (ok : bool) (backoff : N) (l : PeerLink) : PeerLink * N :=
  (mkLink (pl_queue l) ok (pl_attempts l + 1),
   let backoff := if ok then BACKOFF_MIN else backoff in N.min (backoff * 2) BACKOFF_MAX).

(** A message leaves the queue; when it cannot be written the link is down and the
    message is gone. *)
Definition dial_write (ok : bool) (l : PeerLink) : PeerLink * option PeerMessage :=
  match pl_queue l with
  | [] => (l, None)
  | m :: rest => (mkLink rest ok (pl_attempts l), if ok then Some m else None)
  end.

(** ** Reports *)

Definition names_node (leader : NodeId) (p : PeerConfig) : bool :=
  match node_id_from_str (pc_node_id p) with Ok id => id =? leader | Err _ => false end.

Definition leader_client_addr (s : Shared) (leader : NodeId) : option (list byte) :=
  if leader =? own_id s then cc_advertise_client_addr (sh_config s)
  else
    match List.find (names_node leader) (cc_peers (sh_config s)) with
    | Some p => pc_client_addr p
    | None => None
    end.

Definition connected_peers (s : Shared) : nat :=
  size (filter (λ kv, pl_connected kv.2 = true) (sh_links s)).

Definition quorum_available (s : Shared) : bool :=
  let voters := (length (cc_peers (sh_config s)) + 1)%nat in
  (voters / 2 + 1 <=? connected_peers s + 1)%nat.

Record PeerStatus := mkPeerStatus {
  ps_node_id : list byte;
  ps_addr : list byte;
  ps_client_addr : option (list byte);
  ps_connected : bool;
  ps_connect_attempts : N;
  ps_match_index : option N;
  ps_next_index : option N;
  ps_lag_entries : option N;
  ps_needs_snapshot : bool;
  ps_snapshot_in_progress : bool;
  ps_catch_up_state : CatchUpState;
}.

(** Lag, need of a snapshot, installation and state of a peer, from the leader's view. *)
Definition catch_up (commit base mi ni : N) (sent_at : option N) (now : N)
  : N * bool * bool * CatchUpState :=
  let lag := commit - mi in
  let needs := ((0 <? base) && (ni <=? base))%bool in
  let installing :=
    (needs && match sent_at with Some t => now - t <? SNAPSHOT_RESEND_COOLDOWN | None => false end)%bool in
  let state :=
    if needs then if installing then CatchSnapshotInstalling else CatchSnapshotNeeded
    else if commit <=? mi then CaughtUp
    else if ((mi =? 0) && (1 <? ni))%bool then CatchProbing
    else CatchNormal in
  (lag, needs, installing, state).

Definition peer_status_of (s : Shared) (now : N) (p : PeerConfig) : PeerStatus :=
  let node := sh_raft s in
  let id := match node_id_from_str (pc_node_id p) with Ok id => Some id | Err _ => None end in
  let link := id ≫= λ id, sh_links s !! id in
  let mi := id ≫= λ id, match_index node !! id in
  let ni := id ≫= λ id, next_index node !! id in
  let '(lag, needs, installing, state) :=
    match bool_decide (role node = Leader), mi with
    | true, Some mi =>
        let ni := default (mi + 1) ni in
        let sent := id ≫= λ id, snd <$> ss_last_sent (sh_snapshot_send s) !! id in
        let '(lag, needs, installing, state) :=
          catch_up (commit_index node) (fs_base_index (storage node)) mi ni sent now in
        (Some lag, needs, installing, state)
    | _, _ => (None, false, false, CatchUnknown)
    end in
  mkPeerStatus (pc_node_id p) (pc_addr p) (pc_client_addr p)
    (match link with Some l => pl_connected l | None => false end)
    (match link with Some l => pl_attempts l | None => 0 end)
    mi ni lag needs installing state.

Definition peer_status (s : Shared) (now : N) : list PeerStatus :=
  peer_status_of s now <$> cc_peers (sh_config s).

Definition peer_cluster_status `{RaftCodec} (s : Shared) : ClusterStatus :=
  let node := sh_raft s in
  mkClusterStatus true (Some (own_id s)) (Some (identity_cluster_id (sh_identity s))) (role node)
    (term node) (leader_id node) (commit_index node) (last_applied node) (last_index (storage node))
    (length (cc_peers (sh_config s))) false.

(** The address of the leader that this node recognizes. *)
Definition known_leader_addr (s : Shared) : option (list byte) :=
  leader_id (sh_raft s) ≫= leader_client_addr s.

Record PeerMetrics := mkPeerMetrics {
  pm_peers_connected : N;
  pm_elections : N;
  pm_election_timeouts : N;
  pm_append_entries_failures : N;
  pm_heartbeat_latency_ms : N;
  pm_quorum_available : bool;
  pm_snapshots_sent : N;
  pm_snapshots_installed : N;
  pm_snapshots_rejected : N;
  pm_snapshot_needed : N;
  pm_snapshot_bytes_sent : N;
  pm_snapshot_bytes_installed : N;
  pm_snapshot_in_progress : N;
}.

Definition peer_metrics (s : Shared) : PeerMetrics :=
  let c := sh_counters s in
  mkPeerMetrics (N.of_nat (connected_peers s)) (ct_elections c) (ct_election_timeouts c)
    (ct_append_entries_failures c) (ct_heartbeat_latency_ms c) (quorum_available s)
    (ct_snapshots_sent c) (ct_snapshots_installed c) (ct_snapshots_rejected c)
    (ct_snapshot_needed c) (ct_snapshot_bytes_sent c) (ct_snapshot_bytes_installed c)
    (ct_snapshot_in_progress c).

Definition peer_replication_metrics (s : Shared) : ReplicationMetrics :=
  cluster_metrics (ct_apply_errors (sh_counters s)) (sh_raft s).

Record SnapshotDiagnostics := mkDiagnostics {
  dg_last_included_index : N;
  dg_last_included_term : N;
  dg_last_install_unix : option N;
  dg_last_error : option RejectReason;
  dg_bytes_sent : N;
  dg_bytes_installed : N;
  dg_in_progress : N;
  dg_needed_total : N;
}.

Definition snapshot_diagnostics (s : Shared) : SnapshotDiagnostics :=
  let c := sh_counters s in
  let info := ct_last_snapshot c in
  mkDiagnostics (ls_last_included_index info) (ls_last_included_term info) (ls_last_install_unix info)
    (ls_last_error info) (ct_snapshot_bytes_sent c) (ct_snapshot_bytes_installed c)
    (ct_snapshot_in_progress c) (ct_snapshot_needed c).

Definition snapshot_counters (s : Shared) : N * N * N :=
  (ct_snapshots_sent (sh_counters s), ct_snapshots_installed (sh_counters s), ct_snapshots_rejected (sh_counters s)).

Definition peer_connect_attempts (s : Shared) (peer : NodeId) : N :=
  match sh_links s !! peer with Some l => pl_attempts l | None => 0 end.

(** ** Snapshots for lagging peers *)

Record SnapshotPlan := mkPlan {
  sp_last_included_index : N;
  sp_last_included_term : N;
  sp_peers : list NodeId;
}.

Definition behind (node : RaftNode FileStorage) (p : NodeId) : bool :=
  match next_index node !! p with
  | Some n => n <=? fs_base_index (storage node)
  | None => false
  end.

Definition snapshot_plan (node : RaftNode FileStorage) : option SnapshotPlan :=
  if negb (bool_decide (role node = Leader)) then None
  else if fs_base_index (storage node) =? 0 then None
  else
    match filter (λ p, behind node p = true) (cfg_peers (config node)) with
    | [] => None
    | ps =>
        let lii := commit_index node in
        Some (mkPlan lii (default 0 (fs_term_at (storage node) lii)) ps)
    end.

(** The peers that are newly behind are counted once. *)
Definition update_snapshot_progress (plan : option SnapshotPlan) (s : Shared) : Shared :=
  let ps := match plan with Some p => sp_peers p | None => [] end in
  let flagged := ss_needed_flagged (sh_snapshot_send s) in
  let newly : gset NodeId := list_to_set ps ∖ flagged in
  set_sh_snapshot_send
    (mkSendState (ss_last_sent (sh_snapshot_send s)) ((flagged ∪ newly) ∩ list_to_set ps))
    (set_sh_counters
       (set_progress (N.of_nat (length ps)) (N.of_nat (size newly)) (sh_counters s)) s).

(** Whether a peer is due a snapshot of this boundary. *)
Definition due (links : gmap NodeId PeerLink) (sent : gmap NodeId (N * N)) (lii now : N)
    (peer : NodeId) : bool :=
  match links !! peer with
  | Some l =>
      if negb (pl_connected l) then false
      else match sent !! peer with
           | Some (idx, t) => negb ((idx =? lii) && (now - t <? SNAPSHOT_RESEND_COOLDOWN))
           | None => true
           end
  | None => false
  end.

(** The filter over the peers of a plan, which notes what it lets through. *)
Fixpoint due_peers (links : gmap NodeId PeerLink) (lii now : N) (peers : list NodeId)
    (sent : gmap NodeId (N * N)) : gmap NodeId (N * N) * list NodeId :=
  match peers with
  | [] => (sent, [])
  | peer :: rest =>
      if due links sent lii now peer then
        let '(sent, out) := due_peers links lii now rest (<[peer := (lii, now)]> sent) in
        (sent, peer :: out)
      else due_peers links lii now rest sent
  end.

Section driver.
Context `{Unicode, CharCase, NaturalLog, MapOrder, AnnSearch, ElapsedTime, HashOrder}
  `{JsonText, StorageCodec, QueryJson, ManifestCodec, CommandCodec, RaftCodec}.
Implicit Types (s : Shared) (stats : string → option CollectionStats).

Definition ship (plan : SnapshotPlan) (t : N) (bytes : list byte) (peer : NodeId) s : Shared :=
  match send_to peer (PmInstallSnapshotRequest (own_id s) t (sp_last_included_index plan)
                        (sp_last_included_term plan) bytes) s with
  | (s, true) => set_sh_counters (bump_sent_snapshot (N.of_nat (length bytes)) (sh_counters s)) s
  | (s, false) => s
  end.

(** A capture that fails or is too large for one message is given up silently. *)
Definition send_snapshots stats (version : string) (now_unix now : N) (plan : SnapshotPlan) s : Shared :=
  let '(sent, peers) :=
    due_peers (sh_links s) (sp_last_included_index plan) now (sp_peers plan)
      (ss_last_sent (sh_snapshot_send s)) in
  let s := set_sh_snapshot_send (mkSendState sent (ss_needed_flagged (sh_snapshot_send s))) s in
  match peers with
  | [] => s
  | _ =>
      match snapshot_create stats (sh_engine s) (sp_last_included_index plan)
              (sp_last_included_term plan) version now_unix with
      | Err _ => s
      | Ok m =>
          let m := with_identity m
                     (Some (string_of (cluster_id_display (identity_cluster_id (sh_identity s)))))
                     (Some (string_of (node_id_display (own_id s)))) in
          let bytes := snapshot_encode m in
          if MAX_SNAPSHOT_BYTES <? N.of_nat (length bytes) then s
          else foldl (λ s peer, ship plan (term (sh_raft s)) bytes peer s) s peers
      end
  end.

Definition reject (reason : RejectReason) (current_term : N) s : Shared * Result RepFault (bool * N) :=
  (set_sh_counters (set_last_error reason (bump_rejected (sh_counters s))) s, Ok (false, current_term)).

(** The checks before anything is installed. *)
Definition check_snapshot s (leader_term lii lit : N) (snapshot : list byte)
  : Result RejectReason (list CollectionSchema * list (string * Document)) :=
  if MAX_SNAPSHOT_BYTES <? N.of_nat (length snapshot) then Err RjOversized
  else if leader_term <? term (sh_raft s) then Err RjStaleTerm
  else match snapshot_decode snapshot with
  | Err _ => Err RjDecode
  | Ok m =>
      let ours := string_of (cluster_id_display (identity_cluster_id (sh_identity s))) in
      let foreign := match sm_cluster_id (sn_meta m) with
                     | Some found => negb (bool_decide (found = ours))
                     | None => false
                     end in
      if foreign then Err RjOtherCluster
      else if FORMAT_VERSION <? sm_storage_format_version (sn_meta m) then Err RjNewerStorage
      else if (negb (sm_last_included_index (sn_meta m) =? lii)
               || negb (sm_last_included_term (sn_meta m) =? lit))%bool then Err RjBoundary
      else match decode_state m with
           | Err _ => Err RjDigest
           | Ok state => Ok state
           end
  end.

(** Validation, installation into the engine, then into the Raft log. *)
Definition install_snapshot_from_leader (now_unix leader_term lii lit : N) (snapshot : list byte) s
  : Shared * Result RepFault (bool * N) :=
  let current_term := term (sh_raft s) in
  match check_snapshot s leader_term lii lit snapshot with
  | Err reason => reject reason current_term s
  | Ok (schemas, records) =>
      match engine_install_snapshot schemas records (sh_base s + lii) (sh_engine s) with
      | (engine, Err Panicked) => (set_sh_engine engine s, Err RepPanicked)
      | (engine, Err (Failed _)) =>
          let s := set_sh_engine engine s in
          (set_sh_counters (bump_rejected (sh_counters s)) s, Ok (false, current_term))
      | (engine, Ok _) =>
          let s := set_sh_engine engine s in
          match on_storage (RaftFile.install_snapshot lii lit) (sh_raft s) with
          | (node, Ok _) =>
              let s := set_sh_raft (adopt_snapshot lii node) s in
              (set_sh_counters
                 (bump_installed (N.of_nat (length snapshot)) (mkLastSnapshot None lii lit (Some now_unix))
                    (sh_counters s)) s, Ok (true, current_term))
          | (node, Err _) =>
              let s := set_sh_raft node s in
              (set_sh_counters (bump_rejected (sh_counters s)) s, Ok (false, current_term))
          end
      end
  end.

Definition ack_snapshot_installed (peer : NodeId) (lii : N) s : Shared :=
  let node := on_snapshot_installed peer lii (sh_raft s) in
  let '(outbox, node) := take_messages node in
  route outbox (set_sh_raft node s).

(** One message of an accepted connection of [from]; the second result is what goes to
    the driver. *)
Definition handle_peer_message (now_unix : N) (from : NodeId) (m : PeerMessage) s
  : Shared * Result RepFault (option Message) :=
  if bool_decide (from ∈ sh_dropped_peers s) then (s, Ok None)
  else match m with
  | PmRaft claimed message => (s, Ok (if claimed =? from then Some message else None))
  | PmInstallSnapshotRequest claimed t lii lit snapshot =>
      if negb (claimed =? from) then (s, Ok None)
      else match install_snapshot_from_leader now_unix t lii lit snapshot s with
           | (s, Err e) => (s, Err e)
           | (s, Ok (success, follower_term)) =>
               ((send_to from (PmInstallSnapshotResponse (own_id s) follower_term success lii) s).1, Ok None)
           end
  | PmInstallSnapshotResponse claimed _ success lii =>
      if negb (claimed =? from) then (s, Ok None)
      else (if success then ack_snapshot_installed from lii s else s, Ok None)
  | _ => (s, Ok None)
  end.

(** ** The driver *)

Inductive DriveEvent :=
| DeTick
| DeInbound (from : NodeId) (m : Message).

(** What [drive] does after it has released the Raft lock. *)
Inductive DriverTask :=
| TPublish (c : CommitState)
| TRoute (outbox : list Envelope)
| TApply (entry : LogEntry)
| TProgress (plan : option SnapshotPlan)
| TSend (plan : SnapshotPlan).

Definition drive_event (ev : DriveEvent) (n : RaftNode FileStorage) : RaftNode FileStorage :=
  match ev with
  | DeTick => tick n
  | DeInbound from m => (step from m n).1
  end.

Definition drive_raft (ev : DriveEvent) s : Shared * list DriverTask :=
  let prev_term := term (sh_raft s) in
  let node := drive_event ev (sh_raft s) in
  let '(outbox, node) := take_messages node in
  let '(committed, node) := take_committed node in
  let new_term := term node in
  let state := mkCommitState (commit_index node) new_term (bool_decide (role node = Leader)) in
  let plan := snapshot_plan node in
  let s := set_sh_raft node s in
  let s := if prev_term <? new_term then set_sh_counters (bump_elections (sh_counters s)) s else s in
  (s, TPublish state :: TRoute outbox :: (TApply <$> committed) ++ TProgress plan ::
      match plan with Some p => [TSend p] | None => [] end).

(** An entry that does not decode is skipped; an error of the engine is counted. *)
Definition apply_entry (entry : LogEntry) s : Shared * Result RepFault unit :=
  match decode (e_command entry) with
  | Err _ => (s, Ok tt)
  | Ok cmd =>
      match apply_command cmd (sh_base s + e_index entry) (sh_engine s) with
      | (engine, Ok _) => (set_sh_engine engine s, Ok tt)
      | (engine, Err RepPanicked) => (set_sh_engine engine s, Err RepPanicked)
      | (engine, Err (RepFailed _)) =>
          let s := set_sh_engine engine s in
          (set_sh_counters (bump_apply_errors (sh_counters s)) s, Ok tt)
      end
  end.

Definition run_task stats (version : string) (now_unix now : N) (t : DriverTask) s
  : Shared * Result RepFault unit :=
  match t with
  | TPublish c => (set_sh_commit_state c s, Ok tt)
  | TRoute outbox => (route outbox s, Ok tt)
  | TApply entry => apply_entry entry s
  | TProgress plan => (update_snapshot_progress plan s, Ok tt)
  | TSend plan => (send_snapshots stats version now_unix now plan s, Ok tt)
  end.

Fixpoint run_tasks stats (version : string) (now_unix now : N) (ts : list DriverTask) s
  : Shared * Result RepFault unit :=
  match ts with
  | [] => (s, Ok tt)
  | t :: rest =>
      match run_task stats version now_unix now t s with
      | (s, Ok _) => run_tasks stats version now_unix now rest s
      | (s, Err e) => (s, Err e)
      end
  end.

(** [drive], undisturbed. *)
Definition drive stats (version : string) (now_unix now : N) (ev : DriveEvent) s
  : Shared * Result RepFault unit :=
  let '(s, ts) := drive_raft ev s in run_tasks stats version now_unix now ts s.

(** ** The write path of the leader *)

(** The index and the term of the proposal. *)
Definition replicate_propose (batch : Batch) s : Shared * Res (N * N) :=
  let node := sh_raft s in
  if negb (bool_decide (role node = Leader)) then (s, Err ENotLeader)
  else match encode (CmdWrite batch) with
       | Err e => (s, Err (repl_err_to_core e))
       | Ok command =>
           match propose command node with
           | (node, Err e) => (set_sh_raft node s, Err (raft_err_to_core e))
           | (node, Ok index) => (set_sh_raft node s, Ok (index, term node))
           end
       end.

(** One look at the published state: an answer, or [None] to wait on.  [expired] tells
    whether the deadline has passed. *)
Definition replicate_poll (base target proposal_term : N) (expired : bool) (c : CommitState)
  : option (Res N) :=
  if target <=? cst_commit_index c then Some (Ok (base + target))
  else if (negb (cst_is_leader c) || (proposal_term <? cst_term c))%bool then Some (Err ENotLeader)
  else if expired then Some (Err EInternal)
  else None.

(** The commit of the engine when its log has answered. *)
Definition commit_answered (batch : Batch) (answer : Res N) s : Shared * Result Fault N :=
  let '(engine, r) := engine_commit_batch batch (set_cluster (Some answer) (sh_engine s)) in
  (set_sh_engine engine s, r).

(** ** Start *)

Fixpoint parse_peers (ps : list PeerConfig) : Result ReplicationError (list NodeId) :=
  match ps with
  | [] => Ok []
  | p :: rest =>
      match node_id_from_str (pc_node_id p) with
      | Err _ => Err RepCodec
      | Ok id => let? ids := parse_peers rest in Ok (id :: ids)
      end
  end.

(** [spawn] up to the tasks it starts. *)
Definition spawn (engine : PeerEngine) (identity : ClusterIdentity) (cfg : ClusterConfig)
    (dir : RaftDir) (base_file : option (list byte)) : Result RepFault (Shared * option (list byte)) :=
  match file_open dir with
  | Err e => Err (RepFailed (RepRaft e))
  | Ok st =>
      match load_or_init_commit_base base_file engine with
      | Err e => Err (RepFailed e)
      | Ok (base, file) =>
          match parse_peers (cc_peers cfg) with
          | Err e => Err (RepFailed e)
          | Ok peer_ids =>
              let node := node_new (mkConfig (identity_node_id identity) peer_ids ELECTION_MIN_TICKS
                                      ELECTION_MAX_TICKS HEARTBEAT_TICKS) st in
              let node := if cc_bootstrap cfg then campaign node else node in
              match recover_loop node base 1 (N.to_nat (commit_index node)) (engine, 0) with
              | (_, Err e) => Err e
              | ((engine, errors), Ok _) =>
                  let links := list_to_map ((λ id, (id, mkLink [] false 0)) <$> peer_ids) in
                  Ok (mkShared node engine identity cfg base commit_state_default links ∅
                        counters_default (mkSendState ∅ ∅) ∅, file)
              end
          end
      end
  end.

Definition membership_of s (peer_ids : list NodeId) : Membership :=
  mkMembership (identity_cluster_id (sh_identity s)) peer_ids (cc_peer_auth_token (sh_config s)).

(** [handle_inbound]: the check, the registration under a second lock, and the end. *)
Definition inbound_check (hello : Hello) (m : Membership) s : Result PeerError NodeId :=
  validate_hello hello m (sh_connected_in s).
Definition inbound_register (id : NodeId) s : Shared :=
  set_sh_connected_in ({[id]} ∪ sh_connected_in s) s.
Definition inbound_end (id : NodeId) s : Shared :=
  set_sh_connected_in (sh_connected_in s ∖ {[id]}) s.

Definition drop_peer_link (peer : NodeId) s : Shared :=
  set_sh_dropped_peers ({[peer]} ∪ sh_dropped_peers s) s.
Definition heal_peer_link (peer : NodeId) s : Shared :=
  set_sh_dropped_peers (sh_dropped_peers s ∖ {[peer]}) s.

Definition peer_link_dropped (peer : NodeId) s : bool := bool_decide (peer ∈ sh_dropped_peers s).

Definition peer_compact_log : SE Shared RaftError CompactionOutcome := λ s,
  let node := sh_raft s in
  let applied := last_applied node in
  let up_to := compactable_prefix (storage node) applied in
  let '(node, r) := on_storage (RaftFile.compact up_to applied) node in
  (set_sh_raft node s, r).
End driver.
