(* ===== verification/Runtime.v ===== *)
(** * The cluster runtime of the server

    Models [crates/auradb-server/src/cluster_runtime.rs]: the handle to a single node or to
    a node of the multi-node preview, with one surface for status and metrics; and, from
    [dispatch.rs], the health summary, the routing hints of a [not_leader] error and the
    mirror of the cluster state into the metrics.

    A handle is what the node holds at the time of the request: the coordinator with its
    live Raft node, or the shared state of a peer. *)

From S2P Require Import Prelude Text Core Metrics RaftLog RaftNode RaftFile Cluster Protocol Message Mvcc Storage.
From S2P Require Import Txn Engine Replication Transport Peer.

Local Open Scope N_scope.

Inductive ClusterRuntime :=
| Single (node : ClusterNode) (live : RaftNode FileStorage)
| Multi (node : Shared).

Definition role_text (r : NodeRole) : string :=
  match r with Follower => "follower" | Candidate => "candidate" | Leader => "leader" end.

Definition role_code (r : NodeRole) : N :=
  match r with Follower => 0 | Candidate => 1 | Leader => 2 end.

Definition catch_up_text (s : CatchUpState) : string :=
  match s with
  | CatchUnknown => "unknown"
  | CatchNormal => "normal"
  | CatchProbing => "probing"
  | CatchSnapshotNeeded => "snapshot_needed"
  | CatchSnapshotInstalling => "snapshot_installing"
  | CaughtUp => "caught_up"
  end.

Section runtime.
Context `{RaftCodec}.
Implicit Types r : ClusterRuntime.

Definition runtime_status r : ClusterStatus :=
  match r with Single n live => cluster_status n live | Multi s => peer_cluster_status s end.

Definition runtime_metrics r : ReplicationMetrics :=
  match r with
  | Single n live => cluster_metrics (cn_apply_errors n) live
  | Multi s => peer_replication_metrics s
  end.

Definition runtime_is_leader r : bool :=
  match r with Single _ live => is_leader live | Multi s => is_leader (sh_raft s) end.

Definition runtime_is_multi_node r : bool := match r with Single _ _ => false | Multi _ => true end.

Definition runtime_peer_status (now : N) r : list PeerStatus :=
  match r with Single _ _ => [] | Multi s => peer_status s now end.

Definition runtime_peer_metrics r : option PeerMetrics :=
  match r with Single _ _ => None | Multi s => Some (peer_metrics s) end.

Definition runtime_snapshot_diagnostics r : option SnapshotDiagnostics :=
  match r with Single _ _ => None | Multi s => Some (snapshot_diagnostics s) end.

Definition runtime_leader_client_addr r : option (list byte) :=
  match r with Single _ _ => None | Multi s => known_leader_addr s end.

Definition runtime_quorum_available r : bool :=
  match r with Single _ _ => true | Multi s => quorum_available s end.

(** ** Reports *)

Definition peer_health (p : PeerStatus) : ClusterPeerHealth :=
  mkPeerHealth (ps_node_id p) (ps_addr p) (ps_client_addr p) (ps_connected p)
    (ps_connect_attempts p) (ps_match_index p) (ps_next_index p) (ps_lag_entries p)
    (ps_needs_snapshot p) (ps_snapshot_in_progress p) (catch_up_text (ps_catch_up_state p)).

Definition has_error (d : SnapshotDiagnostics) : bool := bool_decide (is_Some (dg_last_error d)).

Definition snapshot_health (d : SnapshotDiagnostics) : ClusterSnapshotHealth :=
  mkSnapshotHealth (dg_last_included_index d) (dg_last_included_term d) (dg_last_install_unix d)
    (has_error d) (dg_bytes_sent d) (dg_bytes_installed d) (dg_in_progress d) (dg_needed_total d).

Definition cluster_health (now : N) (cluster : option ClusterRuntime) : option ClusterHealth :=
  match cluster with
  | None => None
  | Some r =>
      let status := runtime_status r in
      Some (mkClusterHealth (cs_enabled status) (node_id_display <$> cs_node_id status)
        (cluster_id_display <$> cs_cluster_id status) (role_text (cs_role status)) (cs_term status)
        (node_id_display <$> cs_leader_id status) (runtime_leader_client_addr r)
        (cs_commit_index status) (cs_applied_index status) (cs_last_log_index status)
        (cs_peer_count status) (cs_single_node status) (replication_lag_entries status)
        (runtime_is_multi_node r) (runtime_quorum_available r)
        (peer_health <$> runtime_peer_status now r)
        (snapshot_health <$> runtime_snapshot_diagnostics r)
        (rm_leader_changes (runtime_metrics r)))
  end.

Definition not_leader_details (cluster : option ClusterRuntime) : option NotLeaderDetails :=
  match cluster with
  | None => None
  | Some r =>
      let status := runtime_status r in
      let leader_addr := runtime_leader_client_addr r in
      Some (mkNotLeader (node_id_display <$> cs_node_id status)
        (node_id_display <$> cs_leader_id status) leader_addr leader_addr (cs_term status)
        (role_text (cs_role status)))
  end.

Definition refresh_cluster_metrics (cluster : option ClusterRuntime) (x : Metrics) : Metrics :=
  match cluster with
  | None => x
  | Some r =>
      let status := runtime_status r in
      let m := runtime_metrics r in
      let x := set_cluster_metrics (cs_enabled status) (role_code (cs_role status)) (cs_term status)
                 (cs_commit_index status) (cs_applied_index status) (cs_last_log_index status)
                 (replication_lag_entries status) (rm_leader_changes m) (rm_votes_granted m)
                 (rm_append_entries_sent m) (rm_append_entries_received m) (rm_apply_errors m) x in
      match runtime_peer_metrics r with
      | None => x
      | Some pm =>
          let x := set_peer_metrics (pm_peers_connected pm) (replication_lag_entries status)
                     (pm_elections pm) (pm_election_timeouts pm) (pm_append_entries_failures pm)
                     (pm_heartbeat_latency_ms pm) (pm_quorum_available pm) (pm_snapshots_sent pm)
                     (pm_snapshots_installed pm) (pm_snapshots_rejected pm) x in
          set_snapshot_metrics (pm_snapshot_needed pm) (pm_snapshot_bytes_sent pm)
            (pm_snapshot_bytes_installed pm) (pm_snapshot_in_progress pm)
            (default false (has_error <$> runtime_snapshot_diagnostics r)) x
      end
  end.

(** ** The reports agree *)

(** The routing hint is the address declared for the leader the node recognizes, never
    another node's; a node that knows no leader gives no hint. *)
Lemma not_leader_hint r d :
  not_leader_details (Some r) = Some d →
  nl_leader_hint d = nl_leader_client_addr d ∧
  (nl_leader_node_id d = None → nl_leader_hint d = None) ∧
  (∀ addr, nl_leader_hint d = Some addr → ∃ s leader, r = Multi s ∧
    leader_id (sh_raft s) = Some leader ∧ leader_client_addr s leader = Some addr).
Proof.
  intros [= <-]. simpl. split; [done|]. destruct r as [n live|s]; simpl; [by split|].
  unfold known_leader_addr. destruct (leader_id (sh_raft s)) as [leader|] eqn:E; simpl; [|by split].
  split; [done|]. intros addr Ha. by exists s, leader.
Qed.

(** The exported gauges show the term, the role and the log positions of the node. *)
Lemma mirrored_metrics r x :
  let y := refresh_cluster_metrics (Some r) x in
  let status := runtime_status r in
  mx_value y M_raft_current_term = cs_term status ∧
  mx_value y M_node_role = role_code (cs_role status) ∧
  mx_value y M_raft_commit_index = cs_commit_index status ∧
  mx_value y M_raft_applied_index = cs_applied_index status ∧
  mx_value y M_raft_log_last_index = cs_last_log_index status ∧
  mx_value y M_raft_replication_lag_entries = replication_lag_entries status ∧
  mx_value y M_requests_total = mx_value x M_requests_total.
Proof.
  simpl. unfold refresh_cluster_metrics. destruct (runtime_peer_metrics r);
    unfold set_snapshot_metrics, set_peer_metrics, set_cluster_metrics;
    rewrite !set_all_value; by split_and!.
Qed.
End runtime.
