(* ===== verification/PeerSpec.v ===== *)
(** * What a peer process does with snapshots

    A follower that is behind the compacted log of its leader is brought up to date by a
    snapshot: whatever the leader queues for it, the follower can install, and then it has
    the records of the leader and a log that starts at the boundary.  A snapshot that does
    not check leaves engine and log as they were. *)

From S2P Require Import Prelude Sorting BTree Text Framing Value Core Rank Eval Chars Index Vector TextSearch Analyzer AnalyzedSearch Snippet Query Planner Cursor Exec ExecSpec SearchPage Aggregate QueryTools Mvcc Storage StorageRecovery Txn Engine EngineSpec EngineIndex EngineRead.
From S2P Require Import RaftLog RaftNode RaftFile Cluster Transport Replication Snapshot SnapshotSpec Peer.

Local Open Scope N_scope.

Section driver.
Context `{Unicode, CharCase, NaturalLog, MapOrder, AnnSearch, ElapsedTime, HashOrder}
  `{JsonText, StorageCodec, QueryJson, ManifestCodec, CommandCodec, RaftCodec}.
Implicit Types (sh : Shared) (stats : string → option CollectionStats).

(** Nothing that matters to the replica changes. *)
Definition same_core (sh sh' : Shared) : Prop :=
  sh_raft sh' = sh_raft sh ∧ sh_engine sh' = sh_engine sh ∧ sh_identity sh' = sh_identity sh ∧
  sh_config sh' = sh_config sh ∧ sh_base sh' = sh_base sh ∧ sh_commit_state sh' = sh_commit_state sh.

#[export] Instance same_core_refl : Reflexive same_core.
Proof. done. Qed.
#[export] Instance same_core_trans : Transitive same_core.
Proof. intros a b c (? & ? & ? & ? & ? & ?) (? & ? & ? & ? & ? & ?). split_and!; congruence. Qed.

Lemma same_core_send peer m sh : same_core sh (send_to peer m sh).1.
Proof. unfold send_to. by destruct (sh_links sh !! peer ≫= try_send m). Qed.

Lemma same_core_route outbox sh : same_core sh (route outbox sh).
Proof. apply (foldl_rel same_core). intros s' e. apply same_core_send. Qed.

Lemma same_core_ship plan t bytes peer sh : same_core sh (ship plan t bytes peer sh).
Proof.
  unfold ship. match goal with |- context [send_to ?a ?b ?c] => pose proof (same_core_send a b c) as Hs;
    destruct (send_to a b c) as [s' []] end; [|done]. etransitivity; [exact Hs|done].
Qed.

Lemma same_core_send_snapshots stats version nu now plan sh :
  same_core sh (send_snapshots stats version nu now plan sh).
Proof.
  unfold send_snapshots. destruct (due_peers _ _ _ _ _) as [sent ps]. cbv zeta. destruct ps; [done|].
  destruct (snapshot_create _ _ _ _ _ _); [|done]. case_if; [done|].
  match goal with |- same_core _ (foldl _ ?s0 _) => transitivity s0; [done|] end.
  apply (foldl_rel same_core). intros s' e. apply same_core_ship.
Qed.

(** ** Rejections *)

(** Engine and log are untouched when the checks fail. *)
Lemma rejected_install now t lii lit bytes sh reason :
  check_snapshot sh t lii lit bytes = Err reason →
  install_snapshot_from_leader now t lii lit bytes sh =
    (set_sh_counters (set_last_error reason (bump_rejected (sh_counters sh))) sh, Ok (false, term (sh_raft sh))).
Proof. intros Hc. unfold install_snapshot_from_leader. by rewrite Hc. Qed.

(** ** What is queued *)

Definition queued (P : NodeId → PeerMessage → Prop) sh : Prop :=
  ∀ peer l m, sh_links sh !! peer = Some l → m ∈ pl_queue l → P peer m.

Lemma queued_send P peer m sh : queued P sh → P peer m → queued P (send_to peer m sh).1.
Proof.
  intros Hq Hm. unfold send_to. destruct (sh_links sh !! peer) as [l|] eqn:El; [|done]. simpl.
  unfold try_send. case_if; [|done]. simpl. intros q l' m'. simpl. destruct (decide (peer = q)) as [<-|Hne].
  - rewrite lookup_insert_eq. intros [= <-]. simpl. intros [Hin|Hin]%elem_of_app; [by eapply Hq|].
    by apply list_elem_of_singleton in Hin as ->.
  - rewrite lookup_insert_ne by done. apply Hq.
Qed.

Lemma queued_ship P plan t bytes peer sh :
  queued P sh →
  P peer (PmInstallSnapshotRequest (own_id sh) t (sp_last_included_index plan) (sp_last_included_term plan) bytes) →
  queued P (ship plan t bytes peer sh).
Proof.
  intros Hq Hm. unfold ship. pose proof (queued_send P _ _ _ Hq Hm) as Hs.
  match goal with |- context [send_to ?a ?b ?c] => destruct (send_to a b c) as [s' []] end; exact Hs.
Qed.

(** The request that carries a capture of this process. *)
Definition snapshot_request sh (plan : SnapshotPlan) (m : SnapshotManifest) : PeerMessage :=
  PmInstallSnapshotRequest (own_id sh) (term (sh_raft sh)) (sp_last_included_index plan) (sp_last_included_term plan)
    (snapshot_encode (with_identity m
       (Some (string_of (cluster_id_display (identity_cluster_id (sh_identity sh)))))
       (Some (string_of (node_id_display (own_id sh)))))).

(** Whatever is new in a queue is the capture, and small enough to be accepted. *)
Lemma send_snapshots_queued stats version nu now plan sh peer l l' m :
  sh_links sh !! peer = Some l → sh_links (send_snapshots stats version nu now plan sh) !! peer = Some l' →
  m ∈ pl_queue l' → m ∉ pl_queue l →
  ∃ man, snapshot_create stats (sh_engine sh) (sp_last_included_index plan) (sp_last_included_term plan) version nu = Ok man ∧
    m = snapshot_request sh plan man ∧
    (MAX_SNAPSHOT_BYTES <? N.of_nat (length (snapshot_encode (with_identity man
       (Some (string_of (cluster_id_display (identity_cluster_id (sh_identity sh)))))
       (Some (string_of (node_id_display (own_id sh)))))))) = false.
Proof.
  intros Hl. unfold send_snapshots. destruct (due_peers _ _ _ _ _) as [sent ps]. cbv zeta.
  set (s0 := set_sh_snapshot_send _ sh).
  assert (Hsame : sh_links s0 !! peer = Some l' → m ∈ pl_queue l' → m ∉ pl_queue l → False).
  { simpl. rewrite Hl. by intros [= ->]. }
  destruct ps as [|p0 ps]; [intros; exfalso; eauto|].
  change (sh_engine s0) with (sh_engine sh).
  destruct (snapshot_create stats (sh_engine sh) _ _ version nu) as [man|]; [|intros; exfalso; eauto].
  change (identity_cluster_id (sh_identity s0)) with (identity_cluster_id (sh_identity sh)).
  change (own_id s0) with (own_id sh). case_if; [intros; exfalso; eauto|].
  set (bytes := snapshot_encode _) in *. intros Hl' Hm Hnew. exists man. split_and!; [done| |done].
  assert (Hq : ∀ ps s, same_core s0 s →
    queued (λ q m', (∃ l, sh_links sh !! q = Some l ∧ m' ∈ pl_queue l) ∨ m' = snapshot_request sh plan man) s →
    queued (λ q m', (∃ l, sh_links sh !! q = Some l ∧ m' ∈ pl_queue l) ∨ m' = snapshot_request sh plan man)
      (foldl (λ s peer, ship plan (term (sh_raft s)) bytes peer s) s ps)).
  { induction ps0 as [|q qs IH]; intros s Hc Hs; [done|]. simpl. apply IH.
    - etransitivity; [exact Hc|apply same_core_ship].
    - apply queued_ship; [done|]. right. destruct Hc as (Hr & _ & Hid & _).
      unfold snapshot_request, own_id. rewrite Hr, Hid. done. }
  specialize (Hq (p0 :: ps) s0 (reflexivity _)).
  destruct (Hq (λ q l2 m2 Hl2 Hin, or_introl (ex_intro _ l2 (conj Hl2 Hin))) peer l' m Hl' Hm) as [(l2 & Hl2 & Hin)| ->].
  - rewrite Hl in Hl2. injection Hl2 as <-. done.
  - done.
Qed.
End driver.

(** ** Catching up *)

Section catch_up.
Context `{Unicode, CharCase, NaturalLog, MapOrder, AnnSearch, ElapsedTime, HashOrder}
  `{JsonText, !JsonTextLaws, FT : FloatText, StorageCodec, !StorageCodecLaws, QueryJson, ManifestCodec, !ManifestCodecLaws}
  `{CommandCodec, RaftCodec, !RaftCodecLaws}.
Implicit Types (sh : Shared) (stats : string → option CollectionStats).

(** The log of the follower moves to the boundary. *)
Lemma install_in_log lii lit (node : RaftNode FileStorage) :
  fs_inv (storage node) → fs_base_index (storage node) < lii →
  ∃ node', on_storage (RaftFile.install_snapshot lii lit) node = (node', Ok true) ∧
    let node2 := adopt_snapshot lii node' in
    fs_inv (storage node2) ∧ fs_base_index (storage node2) = lii ∧ fs_base_term (storage node2) = lit ∧
    lii <= commit_index node2 ∧ lii <= last_applied node2 ∧ term node2 = term node ∧
    role node2 = role node ∧ config node2 = config node.
Proof.
  intros Hi Hlt. destruct (install_snapshot_spec (storage node) lii lit Hi) as (Hi' & _ & Hm).
  destruct (Hm Hlt) as (Hr & Hb & Hbt & _ & Ht & _). unfold on_storage.
  destruct (RaftFile.install_snapshot lii lit (storage node)) as [s' r]. cbn [fst snd] in *. subst r.
  eexists. split; [done|]. unfold adopt_snapshot, term. simpl.
  repeat case_if; bool_to_prop; simpl in *; split_and!; done || lia.
Qed.

Lemma install_whole now t lii lit bytes sh schemas records engine' :
  check_snapshot sh t lii lit bytes = Ok (schemas, records) →
  engine_install_snapshot schemas records (sh_base sh + lii) (sh_engine sh) = (engine', Ok tt) →
  fs_inv (storage (sh_raft sh)) → fs_base_index (storage (sh_raft sh)) < lii →
  ∃ sh', install_snapshot_from_leader now t lii lit bytes sh = (sh', Ok (true, term (sh_raft sh))) ∧
    sh_engine sh' = engine' ∧ sh_links sh' = sh_links sh ∧ sh_identity sh' = sh_identity sh ∧
    fs_base_index (storage (sh_raft sh')) = lii ∧ fs_base_term (storage (sh_raft sh')) = lit ∧
    fs_inv (storage (sh_raft sh')) ∧ lii <= commit_index (sh_raft sh') ∧ lii <= last_applied (sh_raft sh').
Proof.
  intros Hc He Hi Hlt. destruct (install_in_log lii lit (sh_raft sh) Hi Hlt) as (node' & Hn & Hi' & Hb & Hbt & Hci & Hla & _).
  unfold install_snapshot_from_leader. rewrite Hc, He. cbn [sh_raft set_sh_engine]. rewrite Hn.
  eexists. split; [done|]. by split_and!.
Qed.

(** The follower was told that the leader is at least in its term, belongs to the same
    cluster, has no records of its own and a log that ends before the boundary. *)
Record waiting (leader follower : Shared) (lii : N) : Prop := {
  wt_cluster : identity_cluster_id (sh_identity follower) = identity_cluster_id (sh_identity leader);
  wt_term : term (sh_raft follower) <= term (sh_raft leader);
  wt_reachable : own_id leader ∉ sh_dropped_peers follower;
  wt_store : store_ok (in_storage (sh_engine follower));
  wt_empty : no_records (sh_engine follower);
  wt_catalog : bt_wf (cat_schemas (st_catalog (in_storage (sh_engine follower))));
  wt_watermark : st_last_commit_ts (in_storage (sh_engine follower)) < sh_base follower + lii;
  wt_log : fs_inv (storage (sh_raft follower)) ∧ fs_base_index (storage (sh_raft follower)) < lii;
}.

End catch_up.
