(* ===== verification/PeerNet.v ===== *)
(** * A cluster of peer processes

    The processes of [Peer] over an unreliable network.  In a process the driver, the
    write path and restarts interleave between their locked sections: a write holds the
    engine lock from its proposal to its answer, so the driver cannot apply meanwhile, but
    it goes on publishing.  Messages are on the network from the moment the driver routes
    them; they may be lost, delayed, reordered and delivered more than once.

    A write of the source is acknowledged as soon as the published commit index reaches
    its index.  [in_order] says what has to hold at that moment for the answer to be right:
    the published state is that of the leader of the term of the proposal, and no entry
    before the write is still to be applied.  The source checks neither. *)

From S2P Require Import Prelude Sorting BTree Text Framing Value Core Rank Eval Chars Index Vector TextSearch Analyzer AnalyzedSearch Snippet Query Planner Cursor Exec SearchPage Aggregate QueryTools Mvcc Storage StorageRecovery StorageSpec Txn Engine EngineSpec EngineRead.
From S2P Require Import RaftLog RaftNode Voting RaftElection Consensus ConsensusSafety RaftSafety RaftKeep RaftFile SoleVoter Cluster Transport Replication ReplicationSpec Snapshot Peer.

Local Open Scope N_scope.

(** ** Processes *)

Record Proc := mkProc {
  pr_shared : Shared;
  pr_tasks : list DriverTask;
  pr_writer : option (Batch * N * N);
  pr_alive : bool;
  pr_base_file : option (list byte);
}.

Inductive Act :=
| ADrive (ev : DriveEvent)
| ATask (stats : string → option CollectionStats) (version : string) (now_unix now : N)
| AWrite (batch : Batch)
| AFinish (expired : bool)
| ARestart (loaded : string → option CollectionIndexes) (row_counts : gmap string nat)
    (now timeout : N) (gc_min : nat).

(** The tasks that take the engine lock. *)
Definition needs_engine (t : DriverTask) : bool :=
  match t with TApply _ | TSend _ => true | _ => false end.

Definition routed (t : DriverTask) : list Envelope :=
  match t with TRoute outbox => outbox | _ => [] end.

Definition applies (ts : list DriverTask) : list LogEntry :=
  omap (λ t, match t with TApply e => Some e | _ => None end) ts.

Section processes.
Context `{Unicode, CharCase, NaturalLog, MapOrder, AnnSearch, ElapsedTime, HashOrder}
  `{JsonText, FT : FloatText, StorageCodec, QueryJson, ManifestCodec, CommandCodec, RaftCodec}.
Implicit Types p : Proc.

(** A message may be handled when it was sent to this node. *)
Definition deliverable_event (soup : list (NodeId * Envelope)) (i : NodeId) (ev : DriveEvent) : bool :=
  match ev with
  | DeTick => true
  | DeInbound from m => bool_decide ((from, mkEnvelope i m) ∈ soup)
  end.

(** The process starts over its directories. *)
Definition restart (loaded : string → option CollectionIndexes) (row_counts : gmap string nat)
    (now timeout : N) (gc_min : nat) p : option Proc :=
  let s := pr_shared p in
  match open_with (st_dir (in_storage (sh_engine s))) with
  | Err _ => None
  | Ok st =>
      match engine_open st loaded row_counts now timeout gc_min with
      | Err _ => None
      | Ok engine =>
          match spawn engine (sh_identity s) (sh_config s) (fs_dir (storage (sh_raft s))) (pr_base_file p) with
          | Err _ => None
          | Ok (s, file) => Some (mkProc s [] None true file)
          end
      end
  end.

(** One action of a process, with the messages it puts on the network; [None] when it
    cannot happen. *)
Definition exec_act (soup : list (NodeId * Envelope)) (i : NodeId) (a : Act) p
  : option (Proc * list Envelope) :=
  match a with
  | ADrive ev =>
      if (pr_alive p && bool_decide (pr_tasks p = []) && deliverable_event soup i ev)%bool
      then let '(s, ts) := drive_raft ev (pr_shared p) in
           Some (mkProc s ts (pr_writer p) true (pr_base_file p), [])
      else None
  | ATask stats version now_unix now =>
      match pr_tasks p with
      | t :: rest =>
          if (pr_alive p && negb (needs_engine t && bool_decide (is_Some (pr_writer p))))%bool
          then match run_task stats version now_unix now t (pr_shared p) with
               | (s, Ok _) => Some (mkProc s rest (pr_writer p) true (pr_base_file p), routed t)
               | (s, Err _) => Some (mkProc s [] (pr_writer p) false (pr_base_file p), [])
               end
          else None
      | [] => None
      end
  | AWrite batch =>
      if (pr_alive p && negb (bool_decide (is_Some (pr_writer p))))%bool
      then match replicate_propose batch (pr_shared p) with
           | (s, Ok (index, t)) => Some (mkProc s (pr_tasks p) (Some (batch, index, t)) true (pr_base_file p), [])
           | (s, Err _) => Some (mkProc s (pr_tasks p) None true (pr_base_file p), [])
           end
      else None
  | AFinish expired =>
      match pr_alive p, pr_writer p with
      | true, Some (batch, target, t) =>
          match replicate_poll (sh_base (pr_shared p)) target t expired (sh_commit_state (pr_shared p)) with
          | None => None
          | Some answer =>
              Some (mkProc (commit_answered batch answer (pr_shared p)).1 (pr_tasks p) None true (pr_base_file p), [])
          end
      | _, _ => None
      end
  | ARestart loaded row_counts now timeout gc_min =>
      match restart loaded row_counts now timeout gc_min p with
      | Some p => Some (p, [])
      | None => None
      end
  end.

(** ** The network *)

Record PNet := mkPNet {
  pn_procs : gmap NodeId Proc;
  pn_soup : list (NodeId * Envelope);
}.

Definition pnet_after (net : PNet) (i : NodeId) (r : Proc * list Envelope) : PNet :=
  mkPNet (<[i := r.1]> (pn_procs net)) (pn_soup net ++ ((λ e, (i, e)) <$> r.2)).

Inductive pnet_step : PNet → PNet → Prop :=
| pn_act net i p a r :
    pn_procs net !! i = Some p → exec_act (pn_soup net) i a p = Some r →
    pnet_step net (pnet_after net i r).

(** What the acknowledgement of a write needs, and a batch that JSON keeps. *)
Definition in_order (a : Act) p : bool :=
  match a with
  | AWrite batch => batch_safe batch
  | AFinish _ =>
      match pr_writer p with
      | Some (_, target, t) =>
          let c := sh_commit_state (pr_shared p) in
          negb (target <=? cst_commit_index c) ||
          (cst_is_leader c && (cst_term c =? t)
           && forallb (λ e, target <=? e_index e) (applies (pr_tasks p)))
      | None => true
      end
  | _ => true
  end.

(** The files of a process can be held in memory. *)
Definition proc_roomy p : Prop :=
  roomy (in_storage (sh_engine (pr_shared p))) ∧
  addressable (encode_log (fs_entries (storage (sh_raft (pr_shared p))))).

Inductive orderly_step : PNet → PNet → Prop :=
| os_act net i p a r :
    pn_procs net !! i = Some p → exec_act (pn_soup net) i a p = Some r →
    in_order a p = true → proc_roomy r.1 →
    orderly_step net (pnet_after net i r).

Definition proc_roomy_b p : bool :=
  let s := in_storage (sh_engine (pr_shared p)) in
  (N.of_nat (length (segment_file (st_dir s) (manifest_active (st_manifest s)))) <=? u64_max) &&
  (N.of_nat (length (encode_log (fs_entries (storage (sh_raft (pr_shared p)))))) <=? u64_max).

(** Run a schedule, as long as it is orderly. *)
Fixpoint run_orderly (sched : list (NodeId * Act)) (net : PNet) : option PNet :=
  match sched with
  | [] => Some net
  | (i, a) :: rest =>
      p ← pn_procs net !! i;
      r ← exec_act (pn_soup net) i a p;
      if (in_order a p && proc_roomy_b r.1)%bool then run_orderly rest (pnet_after net i r) else None
  end.

Lemma run_orderly_sound sched : ∀ net net', run_orderly sched net = Some net' → rtc orderly_step net net'.
Proof.
  induction sched as [|[i a] sched IH]; intros net net'; cbn [run_orderly].
  { intros [= <-]. apply rtc_refl. }
  destruct (pn_procs net !! i) as [p|] eqn:Hp; [|done]. cbn [mbind option_bind].
  destruct (exec_act (pn_soup net) i a p) as [r|] eqn:Hr; [|done]. cbn [mbind option_bind].
  destruct (in_order a p) eqn:Ho; [|done]. destruct (proc_roomy_b r.1) eqn:Hb; [|done]. cbn [andb]. intros Hn%IH.
  eapply rtc_l; [|exact Hn]. apply andb_true_iff in Hb as [Hs Hl]. eapply os_act; [done|done|done|].
  split; by apply N.leb_le.
Qed.

(** Run a schedule. *)
Fixpoint run_acts (sched : list (NodeId * Act)) (net : PNet) : option PNet :=
  match sched with
  | [] => Some net
  | (i, a) :: rest =>
      match pn_procs net !! i with
      | Some p =>
          match exec_act (pn_soup net) i a p with
          | Some r => run_acts rest (pnet_after net i r)
          | None => None
          end
      | None => None
      end
  end.
End processes.
