(* ===== verification/PeerSafety.v ===== *)
(** * Replicas agree

    In every orderly run of a cluster of peer processes the records of each process are
    what the committed commands of the log produce, up to some point of that log; since
    all nodes commit the same log, one replica is always a prefix of another.  A write that
    was acknowledged is in the log of every node that has committed that far, for ever. *)

From S2P Require Import Prelude Sorting BTree Text Framing Value Core Rank Eval Chars Index Vector TextSearch Analyzer AnalyzedSearch Snippet Query Planner Cursor Exec SearchPage Aggregate QueryTools Mvcc Storage StorageRecovery StorageSpec Txn Engine EngineSpec EngineRead.
From S2P Require Import RaftLog RaftNode Voting RaftElection Consensus ConsensusSafety RaftSafety RaftKeep RaftFile SoleVoter Cluster Transport Replication ReplicationSpec Snapshot Peer PeerSpec PeerNet.

Local Open Scope N_scope.

(** ** The Raft nodes of the processes *)

Definition raft_of (p : Proc) : RaftNode FileStorage := sh_raft (pr_shared p).
Definition store_of (p : Proc) : Storage := in_storage (sh_engine (pr_shared p)).

Definition tagged (i : NodeId) (es : list Envelope) : list (NodeId * Envelope) := (λ e, (i, e)) <$> es.

Section raft.
Context `{RaftCodec, !RaftCodecLaws}.
Context (members : list NodeId) (peers : NodeId → list NodeId).
Implicit Types (n : RaftNode FileStorage) (procs : gmap NodeId Proc).

Definition raft_map procs : gmap NodeId RState := (λ p, rproj (raft_of p)) <$> procs.

(** The invariant of the protocol, for a network that may hold more messages than those
    sent so far. *)
Record raft_inv (G : History) (soup : list (NodeId * Envelope)) procs : Prop := {
  ra_inv : r_inv members peers G (mkRNet (raft_map procs) soup);
  ra_nodes : ∀ i p, procs !! i = Some p → rnode members peers soup i (raft_of p);
  ra_senders : ∀ f e, (f, e) ∈ soup → f ∈ members;
  ra_complete : peers_complete members peers;
}.

(** A node starts over its storage with nothing left to send. *)
Lemma moves_start soup i cfg n :
  outbox n = [] → cfg_id cfg = i → cfg_peers cfg = peers i → moves members peers soup i n (node_new cfg (storage n)).
Proof.
  intros Ho Hid Hps ((Hi & _ & _ & Him & Hl) & Hw & _). split.
  - split_and!; [unfold node_ok; by split_and!|done|done].
  - exists []. split; [by rewrite Ho|]. apply r_run_one, (ra_restart members peers soup i (rproj n)).
Qed.

(** The committed prefix of the log of a node. *)
Definition committed n : Log := take (N.to_nat (commit_index n)) (node_log n).

(** [n2] shows the protocol what [n1] does. *)
Definition alike n1 n2 : Prop :=
  storage n2 = storage n1 ∧ config n2 = config n1 ∧ role n2 = role n1 ∧ votes n2 = votes n1 ∧
  commit_index n2 = commit_index n1 ∧ match_index n2 = match_index n1 ∧ next_index n2 = next_index n1.

Lemma alike_refl n1 n2 : n2 = n1 → alike n1 n2.
Proof. by intros ->. Qed.

Lemma alike_rproj n1 n2 : alike n1 n2 → rproj n2 = rproj n1.
Proof. intros (Hs & Hc & Hr & Hv & Hci & _). unfold rproj, vproj, term, node_log. by rewrite Hs, Hr, Hv, Hci. Qed.

Lemma alike_rnode soup i n1 n2 : alike n1 n2 → rnode members peers soup i n1 → rnode members peers soup i n2.
Proof.
  intros (Hs & Hc & Hr & Hv & Hci & Hm & Hx) (Hok & Hw & Hn). split_and!.
  - unfold node_ok. by rewrite Hs, Hc.
  - unfold whole. by rewrite Hs.
  - unfold noted, term. by rewrite Hr, Hm, Hx, Hs.
Qed.

Lemma raft_committed_length G soup procs i p :
  raft_inv G soup procs → procs !! i = Some p →
  (N.to_nat (commit_index (raft_of p)) ≤ length (node_log (raft_of p)))%nat ∧
  stable members G soup (term (raft_of p)) (node_log (raft_of p)) (N.to_nat (commit_index (raft_of p))).
Proof.
  intros Hinv Hp.
  assert (Hok : rnode_ok members G soup i (rproj (raft_of p))).
  { apply (ri_nodes _ _ _ _ (ra_inv _ _ _ Hinv) i). simpl. unfold raft_map. by rewrite lookup_fmap, Hp. }
  pose proof (no_commit _ _ _ _ _ Hok) as Hst. split; [apply Hst|done].
Qed.

(** The replicas of a run: the invariant moves on, and what was committed stays. *)
Lemma raft_step G soup procs i p n1 p' :
  raft_inv G soup procs → procs !! i = Some p → moves members peers soup i (raft_of p) n1 →
  alike n1 (raft_of p') →
  ∃ G' out, hist_le G G' ∧ outbox n1 = outbox (raft_of p) ++ out ∧
    raft_inv G' (soup ++ tagged i out) (<[i := p']> procs) ∧
    take (N.to_nat (commit_index (raft_of p))) (node_log (raft_of p)) `prefix_of` node_log (raft_of p').
Proof.
  intros Hinv Hp Hm Hal. pose proof (ra_nodes _ _ _ Hinv i p Hp) as Hn.
  destruct (Hm Hn) as (Hn1 & out & Hout & Hrun).
  assert (Him : i ∈ members) by (by destruct Hn as ((_ & _ & _ & ? & _) & _)).
  assert (Hlook : raft_map procs !! i = Some (rproj (raft_of p))) by (unfold raft_map; by rewrite lookup_fmap, Hp).
  pose proof (r_run_steps members peers soup i _ _ _ (raft_map procs) Hrun Him Hlook) as Hsteps.
  assert (Hmap : <[i := rproj n1]> (raft_map procs) = raft_map (<[i := p']> procs)).
  { unfold raft_map. rewrite fmap_insert. by rewrite (alike_rproj _ _ Hal). }
  rewrite Hmap in Hsteps.
  destruct (r_inv_steps members peers G _ _ (ra_complete _ _ _ Hinv) (ra_inv _ _ _ Hinv) Hsteps) as (G' & HG & Hinv').
  exists G', out. split_and!; [done|done| |].
  - split; [done| | |apply Hinv].
    + intros j q. assert (Hgrow : ∀ j n, rnode members peers soup j n → rnode members peers (soup ++ tagged i out) j n).
      { intros j' n' (? & ? & ?). split_and!; [done|done|]. by apply noted_soup. }
      destruct (decide (i = j)) as [<-|Hne].
      * rewrite lookup_insert_eq. intros [= <-]. eapply alike_rnode; [done|]. by apply Hgrow.
      * rewrite lookup_insert_ne by done. intros Hq. apply Hgrow. by apply (ra_nodes _ _ _ Hinv).
    + intros f e [Hin|(e' & [= -> _] & _)%list_elem_of_fmap]%elem_of_app; [by eapply ra_senders|done].
  - destruct (raft_committed_length _ _ _ _ _ Hinv Hp) as [_ Hst].
    destruct (stable_kept members peers G _ _ i (rproj (raft_of p)) (N.to_nat (commit_index (raft_of p)))
      (ra_complete _ _ _ Hinv) (ra_inv _ _ _ Hinv) Hsteps Hlook Hst) as (r' & Hr' & _ & Hpre).
    simpl in Hr'. unfold raft_map in Hr'. rewrite lookup_fmap, lookup_insert_eq in Hr'. simplify_eq/=. done.
Qed.

Lemma committed_grows n n' :
  commit_index n <= commit_index n' → take (N.to_nat (commit_index n)) (node_log n) `prefix_of` node_log n' →
  (N.to_nat (commit_index n) ≤ length (node_log n))%nat → committed n `prefix_of` committed n'.
Proof.
  intros Hle Hpre Hlen. unfold committed. destruct Hpre as [x Hx]. rewrite Hx.
  rewrite take_app_ge by (rewrite length_take; lia). by apply prefix_app_r.
Qed.

Lemma take_agree (L1 L2 : Log) c1 c2 :
  (c1 ≤ c2)%nat → (∀ k, (k < c1)%nat → L1 !! k = L2 !! k) → take c1 L1 `prefix_of` take c2 L2.
Proof.
  intros Hc Hk. replace (take c1 L1) with (take c1 (take c2 L2)); [apply prefix_take|].
  rewrite take_take, Nat.min_l by done. apply list_eq. intros k. destruct (decide (k < c1)%nat).
  - rewrite !lookup_take_lt by done. symmetry. by apply Hk.
  - by rewrite !lookup_take_ge by lia.
Qed.

(** Two stable prefixes: one continues the other. *)
Lemma stable_prefixes G net T1 L1 c1 T2 L2 c2 :
  r_inv members peers G net → stable members G (rn_soup net) T1 L1 c1 → stable members G (rn_soup net) T2 L2 c2 →
  take c1 L1 `prefix_of` take c2 L2 ∨ take c2 L2 `prefix_of` take c1 L1.
Proof.
  intros Hinv H1 H2. destruct (decide (c1 ≤ c2)%nat).
  - left. apply take_agree; [done|]. intros k Hk.
    apply (stable_agree members peers G net T1 L1 c1 T2 L2 c2 k Hinv H1 H2); lia.
  - right. apply take_agree; [lia|]. intros k Hk.
    apply (stable_agree members peers G net T2 L2 c2 T1 L1 c1 k Hinv H2 H1); lia.
Qed.
End raft.

(** ** Entries and commands *)

Section invariant.
Context `{Unicode, CharCase, NaturalLog, MapOrder, AnnSearch, ElapsedTime, HashOrder}
  `{JsonText, FT : FloatText, StorageCodec, !StorageCodecLaws, QueryJson, ManifestCodec}
  `{CommandCodec, !CommandCodecLaws, RaftCodec, !RaftCodecLaws}.
Context (members : list NodeId) (peers : NodeId → list NodeId) (v0 : View).
Implicit Types (n : RaftNode FileStorage) (p : Proc) (s : Storage).

Definition entry_ok (e : LogEntry) : Prop :=
  ∃ c, decode (e_command e) = Ok c ∧ data_command c ∧ command_safe c = true.

Lemma entry_ok_noop t i : entry_ok (mkEntry t i command_noop).
Proof. by exists CmdNoop. Qed.

Lemma entries_commands es :
  Forall entry_ok es →
  ∃ cmds, log_commands es = Some cmds ∧ Forall data_command cmds ∧ Forall (λ c, command_safe c = true) cmds.
Proof.
  induction 1 as [|e es (c & Hc & Hd & Hs) _ (cmds & Hcmds & Hds & Hss)]; [by exists []|].
  exists (c :: cmds). split_and!; [|by constructor|by constructor].
  unfold log_commands in *. simpl. by rewrite Hc, Hcmds.
Qed.

Lemma log_commands_prefix es es' cmds' :
  es `prefix_of` es' → log_commands es' = Some cmds' → log_commands es = Some (take (length es) cmds').
Proof.
  intros [x ->] Hl. unfold log_commands in *. apply mapM_Some in Hl.
  apply Forall2_app_inv_l in Hl as (k1 & k2 & Hk1 & Hk2 & ->). pose proof (Forall2_length _ _ _ Hk1) as Hlen.
  apply mapM_Some. by rewrite Hlen, take_app_length.
Qed.

(** The store has the first [k] committed commands. *)
Definition holds (base : N) (committed : Log) (k : nat) s : Prop :=
  ∃ cmds, log_commands committed = Some cmds ∧ (k ≤ length cmds)%nat ∧ synced base v0 (take k cmds) s.

Lemma holds_grows base C C' k s :
  C `prefix_of` C' → Forall entry_ok C' → holds base C k s → holds base C' k s.
Proof.
  intros Hpre Hok (cmds & Hc & Hk & Hsy). destruct (entries_commands C' Hok) as (cmds' & Hc' & _).
  exists cmds'. pose proof (log_commands_prefix _ _ _ Hpre Hc') as Hx. rewrite Hc in Hx. injection Hx as ->.
  rewrite length_take in Hk. split_and!; [done|lia|]. by rewrite take_take, Nat.min_l in Hsy by lia.
Qed.

(** The next entry of the log, or one the store already has. *)
Lemma holds_apply base C k j e c s :
  Forall entry_ok C → C !! j = Some e → decode (e_command e) = Ok c → (j ≤ k)%nat → holds base C k s →
  let s' := apply_logged base (N.of_nat j + 1) c s in
  roomy s' → holds base C (Nat.max k (S j)) s'.
Proof.
  intros Hok Hj Hdec Hjk (cmds & Hc & Hk & Hsy) s' Hr.
  destruct (entries_commands C Hok) as (cmds' & Hc' & Hd & Hsf). rewrite Hc in Hc'. injection Hc' as <-.
  destruct (log_commands_lookup _ _ _ _ Hc Hj) as (c' & Hcj & Hdec'). assert (c' = c) as -> by congruence.
  pose proof (lookup_lt_Some _ _ _ Hcj) as Hlt. exists cmds. split; [done|]. split; [lia|].
  destruct (decide (j < k)%nat) as [Hlt2|Hge].
  - rewrite Nat.max_l by lia. apply synced_again; [by rewrite lookup_take_lt|by eapply Forall_lookup_1 in Hd|done].
  - assert (k = j) as -> by lia. rewrite Nat.max_r by lia. rewrite (take_S_r _ _ _ Hcj).
    subst s'. replace (N.of_nat j) with (N.of_nat (length (take j cmds))) in * by (rewrite length_take; lia).
    apply synced_next; [by eapply Forall_lookup_1 in Hd|by eapply Forall_lookup_1 in Hsf|done|done].
Qed.

(** ** The invariant of a process *)

(** A published state is about committed and handed-out entries, and the state of a leader
    about entries of its own log. *)
Definition published (G : History) n (c : CommitState) : Prop :=
  cst_commit_index c <= last_applied n ∧
  (cst_is_leader c = true →
   ∃ ep, G !! cst_term c = Some ep ∧ take (N.to_nat (cst_commit_index c)) (committed n) `prefix_of` ep_log ep).

(** The proposal of a writer is in the log of the leader of its term. *)
Definition wrote (G : History) (b : Batch) (target t : N) : Prop :=
  0 < target ∧ ∃ ep e, G !! t = Some ep ∧ ep_log ep !! N.to_nat (target - 1) = Some e ∧
    decode (e_command e) = Ok (CmdWrite b).

(** The configuration of the process is that of node [i]. *)
Definition driver_config (i : NodeId) (p : Proc) : Prop :=
  own_id (pr_shared p) = i ∧ parse_peers (cc_peers (sh_config (pr_shared p))) = Ok (peers i).

(** How far the driver has applied the entries it took. *)
Definition driven (p : Proc) : nat :=
  (N.to_nat (last_applied (raft_of p)) - length (applies (pr_tasks p)))%nat.

Record live (G : History) (soup : list (NodeId * Envelope)) (i : NodeId) p : Prop := {
  lv_file : pr_base_file p = Some (enc_base (sh_base (pr_shared p)));
  lv_applied : last_applied (raft_of p) <= commit_index (raft_of p);
  lv_pending : applies (pr_tasks p) =
    drop (driven p) (take (N.to_nat (last_applied (raft_of p))) (committed (raft_of p)));
  lv_holds : ∃ k, holds (sh_base (pr_shared p)) (committed (raft_of p)) k (store_of p) ∧ (driven p ≤ k)%nat;
  lv_published : published G (raft_of p) (sh_commit_state (pr_shared p)) ∧
    ∀ c, TPublish c ∈ pr_tasks p → published G (raft_of p) c;
  lv_writer : ∀ b target t, pr_writer p = Some (b, target, t) → wrote G b target t;
  lv_out : ∀ e, (e ∈ outbox (raft_of p) ∨ ∃ o, TRoute o ∈ pr_tasks p ∧ e ∈ o) → (i, e) ∈ soup;
}.

(** What the directories of a process hold, started or not. *)
Definition stored p : Prop :=
  (pr_base_file p = Some (enc_base (sh_base (pr_shared p))) ∧
   ∃ k, holds (sh_base (pr_shared p)) (committed (raft_of p)) k (store_of p)) ∨
  (pr_base_file p = None ∧ pr_alive p = false ∧ commit_index (raft_of p) = 0 ∧
   (∀ c id, live_view (store_of p) c id = v0 c id) ∧ ∃ w, persisted w (store_of p)).

Record proc_inv (G : History) (soup : list (NodeId * Envelope)) (i : NodeId) p : Prop := {
  pi_tidy : tidy entry_ok (raft_of p);
  pi_config : driver_config i p;
  pi_stored : stored p;
  pi_live : pr_alive p = true → live G soup i p;
}.

Lemma published_mono G G' n c : hist_le G G' → published G n c → published G' n c.
Proof.
  intros HG [Hc Hl]. split; [done|]. intros Hb. destruct (Hl Hb) as (ep & Hep & Hp).
  destruct (HG _ _ Hep) as (ep' & Hep' & _ & _ & Hx). exists ep'. split; [done|]. by etransitivity.
Qed.

Lemma wrote_mono G G' b target t : hist_le G G' → wrote G b target t → wrote G' b target t.
Proof.
  intros HG (Hpos & ep & e & Hep & He & Hd). split; [done|].
  destruct (HG _ _ Hep) as (ep' & Hep' & _ & _ & Hx). exists ep', e. split_and!; [done| |done].
  by eapply prefix_lookup_Some.
Qed.

Lemma proc_inv_mono G G' soup es i p :
  hist_le G G' → proc_inv G soup i p → proc_inv G' (soup ++ es) i p.
Proof.
  intros HG [Ht Hc Hs Hl]. split; [done|done|done|]. intros Ha. destruct (Hl Ha) as [? ? ? ? [? ?] ? ?].
  split; try done.
  - split; [by eapply published_mono|]. intros c Hin. eapply published_mono; eauto.
  - intros b target t Hw. eapply wrote_mono; eauto.
  - intros e He. apply elem_of_app. left. auto.
Qed.

(** The committed log of a process grows. *)
Lemma published_grows G n n' c :
  committed n `prefix_of` committed n' → last_applied n <= last_applied n' →
  last_applied n <= commit_index n → (N.to_nat (commit_index n) ≤ length (node_log n))%nat →
  published G n c → published G n' c.
Proof.
  intros Hpre Hla Hac Hlen [Hc Hl]. split; [lia|]. intros Hb. destruct (Hl Hb) as (ep & Hep & Hp).
  exists ep. split; [done|]. destruct Hpre as [x Hx]. rewrite Hx.
  rewrite take_app_le; [done|]. unfold committed. rewrite length_take. lia.
Qed.

Record net_inv (G : History) (soup : list (NodeId * Envelope)) (net : PNet) : Prop := {
  ni_raft : raft_inv members peers G soup (pn_procs net);
  ni_sent : ∀ x, x ∈ pn_soup net → x ∈ soup;
  ni_tidy : ∀ f e, (f, e) ∈ soup → msg_tidy entry_ok (env_message e);
  ni_procs : ∀ i p, pn_procs net !! i = Some p → proc_inv G soup i p;
}.

(** ** Actions *)

Lemma others_inv G G' soup es net i p' :
  hist_le G G' → net_inv G soup net → proc_inv G' (soup ++ es) i p' →
  ∀ j q, (<[i := p']> (pn_procs net) : gmap NodeId Proc) !! j = Some q → proc_inv G' (soup ++ es) j q.
Proof.
  intros HG Hinv Hp' j q. destruct (decide (i = j)) as [<-|Hne].
  - rewrite lookup_insert_eq. by intros [= <-].
  - rewrite lookup_insert_ne by done. intros Hq. eapply proc_inv_mono; [done|]. by apply (ni_procs _ _ _ Hinv).
Qed.

(** An action that the protocol does not see. *)
Lemma local_act G soup net i p p' msgs :
  net_inv G soup net → pn_procs net !! i = Some p → alike (raft_of p) (raft_of p') →
  (∀ e, e ∈ msgs → (i, e) ∈ soup) → proc_inv G soup i p' → net_inv G soup (pnet_after net i (p', msgs)).
Proof.
  intros Hinv Hp Hr Hm Hp'. destruct Hinv as [Hra Hsent Htidy Hprocs] eqn:E. clear E. split; simpl.
  - destruct Hra as [Hi Hn Hs Hc]. split; [|intros j q|done|done].
    + replace (raft_map (<[i := p']> (pn_procs net))) with (raft_map (pn_procs net)); [done|].
      unfold raft_map. rewrite fmap_insert, (alike_rproj _ _ Hr). symmetry. apply insert_id. by rewrite lookup_fmap, Hp.
    + destruct (decide (i = j)) as [<-|Hne].
      * rewrite lookup_insert_eq. intros [= <-]. eapply alike_rnode; [done|]. by apply Hn.
      * rewrite lookup_insert_ne by done. apply Hn.
  - intros x [Hx|(e & -> & He)%list_elem_of_fmap]%elem_of_app; auto.
  - done.
  - intros j q. destruct (decide (i = j)) as [<-|Hne].
    + rewrite lookup_insert_eq. by intros [= <-].
    + rewrite lookup_insert_ne by done. apply Hprocs.
Qed.

(** An action that moves the Raft node. *)
Lemma node_act G soup net i p n1 p' :
  net_inv G soup net → pn_procs net !! i = Some p → moves members peers soup i (raft_of p) n1 →
  alike n1 (raft_of p') → tidy entry_ok n1 →
  (commit_index (raft_of p) <= commit_index n1 ∨ commit_index n1 = last_index (storage n1)) →
  ∃ G' out, hist_le G G' ∧ outbox n1 = outbox (raft_of p) ++ out ∧
    commit_index (raft_of p) <= commit_index (raft_of p') ∧
    committed (raft_of p) `prefix_of` committed (raft_of p') ∧
    (N.to_nat (commit_index (raft_of p)) ≤ length (node_log (raft_of p)))%nat ∧
    (N.to_nat (commit_index (raft_of p')) ≤ length (node_log (raft_of p')))%nat ∧
    raft_inv members peers G' (soup ++ tagged i out) (<[i := p']> (pn_procs net)) ∧
    (proc_inv G' (soup ++ tagged i out) i p' →
     net_inv G' (soup ++ tagged i out) (pnet_after net i (p', []))).
Proof.
  intros Hinv Hp Hm Hal Ht Hbd. pose proof (ni_raft _ _ _ Hinv) as Hra.
  destruct (raft_step members peers G soup (pn_procs net) i p n1 p' Hra Hp Hm Hal)
    as (G' & out & HG & Hout & Hra' & Hpre).
  destruct (raft_committed_length members peers _ _ _ _ _ Hra Hp) as [Hlen _].
  destruct (raft_committed_length members peers _ _ _ i p' Hra' ltac:(by rewrite lookup_insert_eq)) as [Hlen' _].
  assert (Hci : commit_index (raft_of p') = commit_index n1) by apply Hal.
  assert (Hle : commit_index (raft_of p) <= commit_index (raft_of p')).
  { rewrite Hci. destruct Hbd as [?|Hl]; [done|].
    pose proof (ra_nodes _ _ _ _ _ Hra' i p' ltac:(by rewrite lookup_insert_eq)) as ((Hi' & _) & Hw' & _).
    destruct (whole_last (raft_of p') Hi' Hw') as [Hlast _].
    assert (Hst : storage (raft_of p') = storage n1) by apply Hal. rewrite Hst in Hlast.
    rewrite Hl, Hlast. apply prefix_length in Hpre. rewrite length_take in Hpre. lia. }
  exists G', out. split_and!; try done.
  - by apply committed_grows.
  - intros Hpi. split; simpl.
    + done.
    + intros x. rewrite app_nil_r. intros Hx. apply elem_of_app. left. by apply (ni_sent _ _ _ Hinv).
    + intros f e [Hin|(e' & [= -> ->] & He)%list_elem_of_fmap]%elem_of_app; [by eapply ni_tidy|].
      pose proof (td_out _ _ Ht) as Ho. rewrite Hout in Ho. apply Forall_app in Ho as [_ Ho].
      by eapply (proj1 (Forall_forall _ _) Ho).
    + by apply (others_inv G G').
Qed.

(** [take_committed] hands out the entries between the applied and the commit index. *)
Lemma committed_range_whole (st : FileStorage) count : ∀ idx,
  st_inv st → lv_base (st_view st) = 0 → (idx + count ≤ length (lv_entries (st_view st)))%nat →
  committed_range st (N.of_nat idx + 1) count = take count (drop idx (lv_entries (st_view st))).
Proof.
  induction count as [|count IH]; intros idx Hi Hb Hl; [done|]. cbn [committed_range].
  destruct (lookup_lt_is_Some_2 (lv_entries (st_view st)) idx) as [e He]; [lia|].
  assert (Hat : entry_at st (N.of_nat idx + 1) = Some e).
  { rewrite entry_at_view by done. unfold lv_entry. rewrite Hb, (proj2 (N.leb_gt _ _)) by lia.
    by replace (N.to_nat (N.of_nat idx + 1 - 0 - 1)) with idx by lia. }
  rewrite Hat. unfold index_next. replace (N.of_nat idx + 1 + 1) with (N.of_nat (S idx) + 1) by lia.
  rewrite IH by (done || lia). by rewrite (drop_S _ _ _ He).
Qed.

Lemma drive_raft_shape ev sh :
  let n1 := drive_event ev (sh_raft sh) in
  let n2 := (take_committed (take_messages n1).2).2 in
  let sh' := (drive_raft ev sh).1 in
  sh_raft sh' = n2 ∧ sh_engine sh' = sh_engine sh ∧ sh_identity sh' = sh_identity sh ∧
  sh_config sh' = sh_config sh ∧ sh_base sh' = sh_base sh ∧ sh_commit_state sh' = sh_commit_state sh ∧
  (drive_raft ev sh).2 =
    TPublish (mkCommitState (commit_index n2) (term n2) (bool_decide (role n2 = Leader))) ::
    TRoute (outbox n1) :: (TApply <$> (take_committed (take_messages n1).2).1) ++
    TProgress (snapshot_plan n2) :: match snapshot_plan n2 with Some q => [TSend q] | None => [] end.
Proof. unfold drive_raft. simpl. by case_if. Qed.

Lemma applies_app ts1 ts2 : applies (ts1 ++ ts2) = applies ts1 ++ applies ts2.
Proof. apply omap_app. Qed.

Lemma applies_entries es : applies (TApply <$> es) = es.
Proof. induction es as [|e es IH]; [done|]. unfold applies in *. simpl. by f_equal. Qed.

Lemma drive_event_moves G soup net i p ev :
  net_inv G soup net → pn_procs net !! i = Some p → deliverable_event (pn_soup net) i ev = true →
  let n1 := drive_event ev (raft_of p) in
  moves members peers soup i (raft_of p) n1 ∧ tidy entry_ok n1 ∧ bounded (raft_of p) n1.
Proof.
  intros Hinv Hp Hd. pose proof (ni_procs _ _ _ Hinv i p Hp) as [Ht _ _ _].
  destruct ev as [|from m]; simpl in *.
  - split_and!; [apply moves_tick|by apply keep_tick; [apply entry_ok_noop|]|].
    apply forward_is_bounded, forward_tick.
  - apply bool_decide_eq_true in Hd. apply (ni_sent _ _ _ Hinv) in Hd.
    pose proof (ni_raft _ _ _ Hinv) as [Hr Hn Hsnd _]. split_and!.
    + apply moves_step; [done|by eapply Hsnd|].
      apply (credible_message members peers G (raft_map (pn_procs net)) soup (raft_of p) from (mkEnvelope i m)); [done| | |done].
      * simpl. unfold raft_map. by rewrite lookup_fmap, Hp.
      * by apply Hn.
    + apply keep_step; [apply entry_ok_noop|by apply (ni_tidy _ _ _ Hinv from (mkEnvelope i m))|done].
    + apply bounded_step. by eapply tidy_any.
Qed.

(** The entries that a drive hands out are those between the applied and the commit
    index. *)
Lemma handed_out (n1 : RaftNode FileStorage) :
  st_inv (storage n1) → whole n1 → last_applied n1 <= commit_index n1 →
  (N.to_nat (commit_index n1) ≤ length (node_log n1))%nat →
  (take_committed (take_messages n1).2).1 = drop (N.to_nat (last_applied n1)) (committed n1).
Proof.
  intros Hi Hw Hle Hlen. unfold take_committed. simpl. unfold index_next, committed.
  rewrite <- (N2Nat.id (last_applied n1)) at 1. rewrite committed_range_whole; [|done|done|].
  - rewrite skipn_firstn_comm. f_equal. lia.
  - unfold node_log in Hlen. lia.
Qed.

(** What is in the list of tasks that follow a drive. *)
Definition drive_tasks n2 (sent : list Envelope) (handed : list LogEntry) : list DriverTask :=
  TPublish (mkCommitState (commit_index n2) (term n2) (bool_decide (role n2 = Leader))) ::
  TRoute sent :: (TApply <$> handed) ++
  TProgress (snapshot_plan n2) :: match snapshot_plan n2 with Some q => [TSend q] | None => [] end.

Lemma drive_tasks_elem n2 sent handed t :
  t ∈ drive_tasks n2 sent handed →
  match t with
  | TPublish c => c = mkCommitState (commit_index n2) (term n2) (bool_decide (role n2 = Leader))
  | TRoute o => o = sent
  | _ => True
  end.
Proof.
  unfold drive_tasks. intros [->|[->|[(e & -> & _)%list_elem_of_fmap|Ht]%elem_of_app]%elem_of_cons]%elem_of_cons; try done.
  apply elem_of_cons in Ht as [->|Ht]; [done|].
  destruct (snapshot_plan n2); [|by apply not_elem_of_nil in Ht]. by apply list_elem_of_singleton in Ht as ->.
Qed.

Lemma drive_tasks_applies n2 sent handed : applies (drive_tasks n2 sent handed) = handed.
Proof.
  unfold drive_tasks. change (applies (?a :: ?b :: ?l)) with (applies l). rewrite applies_app, applies_entries.
  destruct (snapshot_plan n2); simpl; by rewrite app_nil_r.
Qed.

(** A leader's published state is about its own log. *)
Lemma published_now G soup procs i p :
  raft_inv members peers G soup procs → procs !! i = Some p →
  last_applied (raft_of p) = commit_index (raft_of p) →
  published G (raft_of p) (mkCommitState (commit_index (raft_of p)) (term (raft_of p))
    (bool_decide (role (raft_of p) = Leader))).
Proof.
  intros Hra Hp Hla. split; simpl; [lia|]. intros Hl%bool_decide_eq_true.
  assert (Hrn : rnode_ok members G soup i (rproj (raft_of p))).
  { apply (ri_nodes _ _ _ _ (ra_inv _ _ _ _ _ Hra) i). simpl. unfold raft_map. by rewrite lookup_fmap, Hp. }
  destruct (no_leader _ _ _ _ _ Hrn Hl) as (ep & Hep & _ & Hlog). exists ep. split; [done|].
  rewrite Hlog. etransitivity; [apply prefix_take|]. apply prefix_take.
Qed.

Lemma act_drive G soup net i p ev r :
  net_inv G soup net → pn_procs net !! i = Some p →
  exec_act (pn_soup net) i (ADrive ev) p = Some r →
  ∃ G' es, hist_le G G' ∧ net_inv G' (soup ++ es) (pnet_after net i r).
Proof.
  intros Hinv Hp. unfold exec_act. destruct (pr_alive p) eqn:Ha; [|done]. cbn [andb].
  case_bool_decide as Htasks; [|done]. cbn [andb]. destruct (deliverable_event _ _ _) eqn:Hd; [|done].
  pose proof (drive_raft_shape ev (pr_shared p)) as Hsh. cbv zeta in Hsh.
  destruct (drive_event_moves G soup net i p ev Hinv Hp Hd) as (Hm & Ht1 & Hb1).
  pose proof (ni_procs _ _ _ Hinv i p Hp) as [Ht Hcfg Hst Hlive]. specialize (Hlive Ha).
  destruct (drive_raft ev (pr_shared p)) as [sh ts]. cbn [fst snd] in Hsh.
  change (sh_raft (pr_shared p)) with (raft_of p) in Hsh.
  destruct Hsh as (Hraft & Heng & Hid & Hcf & Hbase & Hcs & Hts). intros [= <-].
  set (n1 := drive_event ev (raft_of p)) in *. set (n2 := (take_committed (take_messages n1).2).2) in *.
  set (p' := mkProc sh ts (pr_writer p) true (pr_base_file p)).
  assert (Hrp : raft_of p' = n2) by done.
  destruct Hlive as [Hf Hla Hpend (k & Hk & Hdk) [Hpub _] Hwr Hout].
  destruct (node_act G soup net i p n1 p' Hinv Hp Hm ltac:(by rewrite Hrp) Ht1 (proj2 Hb1))
    as (G' & out & HG & Ho & Hci & Hpre & Hlen & Hlen' & Hra' & Hnet).
  exists G', (tagged i out). split; [done|]. apply Hnet. clear Hnet.
  assert (Hlook : (<[i := p']> (pn_procs net) : gmap NodeId Proc) !! i = Some p') by by rewrite lookup_insert_eq.
  assert (Ht2 : tidy entry_ok n2) by (destruct Ht1; split; [done|done|constructor|done]).
  assert (Hhand : (take_committed (take_messages n1).2).1 = drop (N.to_nat (last_applied (raft_of p))) (committed n2)).
  { rewrite (handed_out n1); [by rewrite (proj1 Hb1)|apply Ht1| | |].
    - destruct (ra_nodes _ _ _ _ _ Hra' i p' Hlook) as (_ & Hw & _). rewrite Hrp in Hw. exact Hw.
    - rewrite (proj1 Hb1). rewrite Hrp in Hci. etransitivity; [exact Hla|exact Hci].
    - rewrite Hrp in Hlen'. exact Hlen'. }
  rewrite Hhand in Hts. fold (drive_tasks n2 (outbox n1) (drop (N.to_nat (last_applied (raft_of p))) (committed n2))) in Hts.
  assert (Hclen : length (committed n2) = N.to_nat (commit_index n2)).
  { unfold committed. rewrite length_take. rewrite Hrp in Hlen'. lia. }
  assert (Hdr : driven p' = N.to_nat (last_applied (raft_of p)) ∧ driven p = N.to_nat (last_applied (raft_of p))).
  { unfold driven. rewrite Hrp, Htasks. cbn [pr_tasks p']. rewrite Hts, drive_tasks_applies, length_drop, Hclen.
    change (last_applied n2) with (commit_index n2). rewrite Hrp in Hci. change (length (applies [])) with 0%nat. lia. }
  destruct Hdr as [Hdr Hdr0].
  assert (Hholds : holds (sh_base sh) (committed n2) k (store_of p')).
  { unfold store_of. cbn [pr_shared p']. rewrite Hbase, Heng. rewrite Hrp in Hpre.
    eapply holds_grows; [exact Hpre| |exact Hk]. apply Forall_take, Ht2. }
  split; [by rewrite Hrp| | |].
  - destruct Hcfg as [Hown Hpp]. unfold driver_config, own_id. cbn [pr_shared p']. by rewrite Hid, Hcf.
  - left. cbn [pr_base_file pr_shared p']. rewrite Hbase. split; [done|]. exists k. by rewrite Hrp, <- Hbase.
  - intros _. split.
    + cbn [pr_base_file pr_shared p']. by rewrite Hbase.
    + rewrite Hrp. change (last_applied n2) with (commit_index n2). lia.
    + rewrite Hdr, Hrp. cbn [pr_tasks p']. rewrite Hts, drive_tasks_applies.
      change (last_applied n2) with (commit_index n2). by rewrite <- Hclen, firstn_all.
    + exists k. rewrite Hdr, <- Hdr0, Hrp. by split.
    + cbn [pr_shared pr_tasks p']. rewrite Hcs. split.
      * eapply published_mono; [done|]. eapply published_grows; [exact Hpre| |done|done|done].
        rewrite Hrp in *. change (last_applied n2) with (commit_index n2). lia.
      * intros c Hc. rewrite Hts in Hc. apply drive_tasks_elem in Hc as ->.
        pose proof (published_now G' _ _ i p' Hra' Hlook) as Hnow. rewrite Hrp in Hnow |- *. by apply Hnow.
    + intros b target t Hw. eapply wrote_mono; [done|]. by apply Hwr.
    + intros e [He|(o & Hin & He)].
      * rewrite Hrp in He. by apply not_elem_of_nil in He.
      * cbn [pr_tasks p'] in Hin. rewrite Hts in Hin. apply drive_tasks_elem in Hin as ->.
        rewrite Ho in He. apply elem_of_app in He as [He|He]; apply elem_of_app.
        -- left. apply Hout. by left.
        -- right. by apply list_elem_of_fmap_2.
Qed.

(** *** Tasks *)

Lemma quiet_task stats version nu now t sh :
  match t with
  | TApply _ => True
  | TPublish c => run_task stats version nu now t sh = (set_sh_commit_state c sh, Ok tt)
  | _ => ∃ sh', run_task stats version nu now t sh = (sh', Ok tt) ∧ same_core sh sh'
  end.
Proof.
  destruct t; simpl; try done.
  - eexists. split; [done|]. apply same_core_route.
  - eexists. split; [done|]. done.
  - eexists. split; [done|]. apply same_core_send_snapshots.
Qed.

Lemma committed_wf G soup procs i p j e :
  raft_inv members peers G soup procs → procs !! i = Some p →
  committed (raft_of p) !! j = Some e → e_index e = N.of_nat j + 1.
Proof.
  intros Hra Hp Hj.
  assert (Hrn : rnode_ok members G soup i (rproj (raft_of p))).
  { apply (ri_nodes _ _ _ _ (ra_inv _ _ _ _ _ Hra) i). simpl. unfold raft_map. by rewrite lookup_fmap, Hp. }
  apply (log_wf_index (node_log (raft_of p))); [apply (no_wf _ _ _ _ _ Hrn)|].
  apply lookup_take_Some in Hj. apply Hj.
Qed.

(** The store after an entry was applied. *)
Lemma apply_entry_store e c sh :
  decode (e_command e) = Ok c → data_command c →
  let r := apply_entry e sh in
  (r.2 = Ok tt ∨ r.2 = Err RepPanicked) ∧
  sh_raft r.1 = sh_raft sh ∧ sh_identity r.1 = sh_identity sh ∧ sh_config r.1 = sh_config sh ∧
  sh_base r.1 = sh_base sh ∧ sh_commit_state r.1 = sh_commit_state sh ∧
  in_storage (sh_engine r.1) = apply_logged (sh_base sh) (e_index e) c (in_storage (sh_engine sh)).
Proof.
  intros Hd Hc. unfold apply_entry. rewrite Hd. destruct c as [|b|]; [| |done]; simpl.
  - split_and!; [by left|done..].
  - unfold of_engine.
    destruct (apply_replicated_spec b (sh_base sh + e_index e) (sh_engine sh)) as (Hs & _ & Hr & _).
    destruct (apply_replicated_batch b _ (sh_engine sh)) as [e' r]. simpl in Hs, Hr.
    destruct Hr as [-> | ->]; simpl; split_and!; auto.
Qed.

(** A process whose Raft node and store are as before. *)
Lemma live_same G soup i p p' :
  live G soup i p → raft_of p' = raft_of p → store_of p' = store_of p →
  sh_base (pr_shared p') = sh_base (pr_shared p) → pr_base_file p' = pr_base_file p →
  applies (pr_tasks p') = applies (pr_tasks p) →
  (∀ t, t ∈ pr_tasks p' → t ∈ pr_tasks p) →
  published G (raft_of p) (sh_commit_state (pr_shared p')) →
  (∀ b target t, pr_writer p' = Some (b, target, t) → pr_writer p = Some (b, target, t)) →
  live G soup i p'.
Proof.
  intros [Hf Hla Hpe Hh [_ Hpt] Hw Ho] Hr Hs Hb Hbf Hap Hsub Hpub Hwr.
  assert (Hd : driven p' = driven p) by (unfold driven; by rewrite Hr, Hap).
  split; rewrite ?Hr, ?Hs, ?Hb, ?Hbf, ?Hap, ?Hd; try done.
  - split; [done|]. auto.
  - eauto.
  - intros e [He|(o & Hin & He)]; apply Ho; [by left|right; eauto].
Qed.

Lemma stored_same p p' :
  stored p → pr_base_file p ≠ None → raft_of p' = raft_of p → store_of p' = store_of p →
  sh_base (pr_shared p') = sh_base (pr_shared p) → pr_base_file p' = pr_base_file p → stored p'.
Proof.
  intros [[Hf Hk]|(Hf & _)] Hne Hr Hs Hb Hbf; [|done]. left. by rewrite Hr, Hs, Hb, Hbf.
Qed.

Lemma act_quiet_task G soup net i p t rest sh' msgs :
  net_inv G soup net → pn_procs net !! i = Some p → pr_alive p = true → pr_tasks p = t :: rest →
  applies rest = applies (pr_tasks p) →
  sh_raft sh' = sh_raft (pr_shared p) → sh_engine sh' = sh_engine (pr_shared p) →
  sh_identity sh' = sh_identity (pr_shared p) → sh_config sh' = sh_config (pr_shared p) →
  sh_base sh' = sh_base (pr_shared p) → published G (raft_of p) (sh_commit_state sh') →
  (∀ e, e ∈ msgs → (i, e) ∈ soup) →
  net_inv G soup (pnet_after net i (mkProc sh' rest (pr_writer p) true (pr_base_file p), msgs)).
Proof.
  intros Hinv Hp Ha Ht Hap Hr He Hid Hcf Hb Hpub Hm.
  pose proof (ni_procs _ _ _ Hinv i p Hp) as [Hti Hcfg Hst Hlive]. specialize (Hlive Ha).
  assert (Hraft : raft_of (mkProc sh' rest (pr_writer p) true (pr_base_file p)) = raft_of p) by done.
  assert (Hstore : store_of (mkProc sh' rest (pr_writer p) true (pr_base_file p)) = store_of p)
    by (unfold store_of; simpl; by rewrite He).
  apply (local_act G soup net i p); [done|done|by apply alike_refl|done|]. split.
  - by rewrite Hraft.
  - destruct Hcfg as [Hown Hpp]. unfold driver_config, own_id. simpl. by rewrite Hid, Hcf.
  - apply (stored_same p); [done| |done|done|done|done]. by rewrite (lv_file _ _ _ _ Hlive).
  - intros _. apply (live_same G soup i p); try done. intros x Hx. rewrite Ht. by apply elem_of_cons; right.
Qed.

(** The driver applies the next committed entry, or stops at it. *)
Lemma act_apply G soup net i p e rest r :
  net_inv G soup net → pn_procs net !! i = Some p → pr_alive p = true → pr_tasks p = TApply e :: rest →
  match apply_entry e (pr_shared p) with
  | (s0, Ok _) => Some (mkProc s0 rest (pr_writer p) true (pr_base_file p), [])
  | (s0, Err _) => Some (mkProc s0 [] (pr_writer p) false (pr_base_file p), [])
  end = Some r → proc_roomy r.1 →
  net_inv G soup (pnet_after net i r).
Proof.
  intros Hinv Hp Ha Ht Hr Hroom. pose proof (ni_procs _ _ _ Hinv i p Hp) as [Hti Hcfg Hst Hlive].
  specialize (Hlive Ha).
  destruct Hlive as [Hf Hla Hpend (k & Hk & Hdk) [Hpub Hpt] Hwr Hout].
  assert (Hap : applies (pr_tasks p) = e :: applies rest) by by rewrite Ht.
  assert (Hje : committed (raft_of p) !! driven p = Some e).
  { rewrite Hap in Hpend. assert (Hx : (e :: applies rest) !! 0%nat = Some e) by done.
    rewrite Hpend, lookup_drop in Hx. apply lookup_take_Some in Hx as [Hx _]. by rewrite Nat.add_0_r in Hx. }
  assert (Hok : Forall entry_ok (committed (raft_of p))) by (apply Forall_take, Hti).
  destruct (proj1 (Forall_lookup _ _) Hok _ _ Hje) as (c & Hdec & Hdc & _).
  pose proof (committed_wf _ _ _ _ _ _ _ (ni_raft _ _ _ Hinv) Hp Hje) as Hidx.
  destruct (apply_entry_store e c (pr_shared p) Hdec Hdc) as (Hres & Hraft & Hid & Hcf & Hb & Hcs & Hstore).
  destruct (apply_entry e (pr_shared p)) as [sh' res]. cbn [fst snd] in *.
  rewrite Hidx in Hstore. change (in_storage (sh_engine (pr_shared p))) with (store_of p) in Hstore.
  assert (Hdr : ∀ w a f, driven (mkProc sh' rest w a f) = S (driven p)).
  { intros w a f. unfold driven, raft_of in *. cbn [pr_tasks pr_shared]. rewrite Hraft, Hap. simpl.
    assert (Hx : (length (e :: applies rest) ≤ N.to_nat (last_applied (sh_raft (pr_shared p))))%nat).
    { rewrite <- Hap, Hpend, length_drop, length_take. lia. }
    simpl in Hx. lia. }
  assert (Hh : roomy (in_storage (sh_engine sh')) →
    holds (sh_base sh') (committed (raft_of p)) (Nat.max k (S (driven p))) (in_storage (sh_engine sh'))).
  { rewrite Hb, Hstore. intros Hroomy. by eapply holds_apply. }
  destruct Hres as [-> | ->]; injection Hr as <-; destruct Hroom as [Hroom _]; specialize (Hh Hroom);
    (apply (local_act G soup net i p); [done|done|by apply alike_refl|by intros ? ?%not_elem_of_nil|]); split.
  - unfold raft_of. simpl. by rewrite Hraft.
  - destruct Hcfg as [Hown Hpp]. unfold driver_config, own_id. simpl. by rewrite Hid, Hcf.
  - left. simpl. rewrite Hb in *. split; [done|]. eexists. unfold raft_of, store_of. simpl. rewrite Hraft. exact Hh.
  - intros _. split.
    + simpl. by rewrite Hb.
    + unfold raft_of. simpl. by rewrite Hraft.
    + rewrite Hdr. unfold raft_of. cbn [pr_tasks pr_shared]. rewrite Hraft.
      assert (Hx : drop 1 (applies (pr_tasks p)) = applies rest) by by rewrite Hap.
      rewrite <- Hx, Hpend, drop_drop. do 2 f_equal. lia.
    + exists (Nat.max k (S (driven p))). rewrite Hdr. unfold raft_of, store_of. simpl. rewrite Hraft. split; [exact Hh|lia].
    + unfold raft_of. simpl. rewrite Hraft, Hcs. split; [done|]. intros c' Hc'. apply Hpt. rewrite Ht. by right.
    + done.
    + unfold raft_of. simpl. rewrite Hraft. intros x [Hx|(o & Ho & Hx)]; apply Hout; [by left|]. right. exists o.
      rewrite Ht. split; [by right|done].
  - unfold raft_of. simpl. by rewrite Hraft.
  - destruct Hcfg as [Hown Hpp]. unfold driver_config, own_id. simpl. by rewrite Hid, Hcf.
  - left. simpl. rewrite Hb in *. split; [done|]. eexists. unfold raft_of, store_of. simpl. rewrite Hraft. exact Hh.
  - done.
Qed.

Lemma act_task G soup net i p stats version nu now r :
  net_inv G soup net → pn_procs net !! i = Some p →
  exec_act (pn_soup net) i (ATask stats version nu now) p = Some r → proc_roomy r.1 →
  net_inv G soup (pnet_after net i r).
Proof.
  intros Hinv Hp. unfold exec_act. destruct (pr_tasks p) as [|t rest] eqn:Ht; [done|].
  destruct (pr_alive p) eqn:Ha; [|done]. cbn [andb]. case_if; [|done]. clear Heqb.
  pose proof (ni_procs _ _ _ Hinv i p Hp) as Hpi. pose proof (pi_live _ _ _ _ Hpi Ha) as Hlive.
  pose proof (quiet_task stats version nu now t (pr_shared p)) as Hq.
  assert (Hquiet : applies rest = applies (pr_tasks p) → (∃ sh', run_task stats version nu now t (pr_shared p) = (sh', Ok tt) ∧
    same_core (pr_shared p) sh') → match run_task stats version nu now t (pr_shared p) with
      | (s0, Ok _) => Some (mkProc s0 rest (pr_writer p) true (pr_base_file p), routed t)
      | (s0, Err _) => Some (mkProc s0 [] (pr_writer p) false (pr_base_file p), []) end = Some r →
    net_inv G soup (pnet_after net i r)).
  { intros Hap (sh' & -> & Hr & He & Hid & Hcf & Hb & Hcs) [= <-].
    eapply act_quiet_task; try done.
    - rewrite Hcs. apply (proj1 (lv_published _ _ _ _ Hlive)).
    - intros e Hin. apply (lv_out _ _ _ _ Hlive). right. destruct t; simpl in Hin; try by apply not_elem_of_nil in Hin.
      exists outbox. rewrite Ht. split; [by left|done]. }
  destruct t as [c|o|e|plan|plan]; try (intros Hr _; apply Hquiet; [by rewrite Ht|exact Hq|exact Hr]).
  - rewrite Hq. intros [= <-] _. eapply act_quiet_task; try done.
    + by rewrite Ht.
    + simpl. apply (proj2 (lv_published _ _ _ _ Hlive)). rewrite Ht. by left.
    + by intros ? ?%not_elem_of_nil.
  - intros Hr Hroom. by eapply act_apply.
Qed.

(** *** Writes *)

(** The replica of a process whose Raft node moved on and whose store stayed. *)
Lemma live_moved G G' soup out i p p' :
  hist_le G G' → live G soup i p → outbox (raft_of p') = outbox (raft_of p) ++ out →
  last_applied (raft_of p') = last_applied (raft_of p) →
  commit_index (raft_of p) <= commit_index (raft_of p') →
  committed (raft_of p) `prefix_of` committed (raft_of p') →
  (N.to_nat (commit_index (raft_of p)) ≤ length (node_log (raft_of p)))%nat →
  Forall entry_ok (committed (raft_of p')) → store_of p' = store_of p →
  sh_base (pr_shared p') = sh_base (pr_shared p) → pr_base_file p' = pr_base_file p →
  pr_tasks p' = pr_tasks p → sh_commit_state (pr_shared p') = sh_commit_state (pr_shared p) →
  (∀ b target t, pr_writer p' = Some (b, target, t) → wrote G' b target t) →
  live G' (soup ++ tagged i out) i p'.
Proof.
  intros HG [Hf Hla Hpe (k & Hk & Hdk) [Hpub Hpt] _ Ho] Hout Hl Hci Hpre Hlen Hok Hs Hb Hbf Ht Hcs Hw.
  assert (Hd : driven p' = driven p) by (unfold driven; by rewrite Hl, Ht).
  assert (Hpg : ∀ c, published G (raft_of p) c → published G' (raft_of p') c).
  { intros c Hc. eapply published_mono; [done|]. eapply published_grows; [exact Hpre|lia|done|done|done]. }
  split; rewrite ?Hs, ?Hb, ?Hbf, ?Ht, ?Hd, ?Hl, ?Hcs; try done.
  - lia.
  - rewrite Hpe. f_equal. destruct Hpre as [x ->]. rewrite take_app_le; [done|].
    unfold committed. rewrite length_take. lia.
  - exists k. split; [by eapply holds_grows|done].
  - split; [by apply Hpg|]. intros c Hc. by apply Hpg, Hpt.
  - intros e [He|Hr]; apply elem_of_app.
    + rewrite Hout in He. apply elem_of_app in He as [He|He]; [left; apply Ho; by left|].
      right. by apply list_elem_of_fmap_2.
    + left. apply Ho. by right.
Qed.

Lemma act_write G soup net i p b r :
  net_inv G soup net → pn_procs net !! i = Some p →
  exec_act (pn_soup net) i (AWrite b) p = Some r → batch_safe b = true →
  ∃ G' es, hist_le G G' ∧ net_inv G' (soup ++ es) (pnet_after net i r).
Proof.
  intros Hinv Hp. unfold exec_act. destruct (pr_alive p) eqn:Ha; [|done]. cbn [andb].
  destruct (negb _) eqn:Hnw; [|done]. intros Hr Hsafe.
  pose proof (ni_procs _ _ _ Hinv i p Hp) as [Ht Hcfg Hst Hlive]. specialize (Hlive Ha).
  unfold replicate_propose in Hr. change (sh_raft (pr_shared p)) with (raft_of p) in Hr.
  destruct (command_decode_encode (CmdWrite b) Hsafe eq_refl) as (cmd & Henc & Hdec). rewrite Henc in Hr.
  assert (Hnone : pr_writer p = None).
  { apply negb_true_iff, bool_decide_eq_false in Hnw. by apply eq_None_not_Some. }
  destruct (negb (bool_decide (role (raft_of p) = Leader))) eqn:Hrole.
  { injection Hr as <-. exists G, []. split; [done|]. rewrite app_nil_r.
    apply (local_act G soup net i p); [done|done|by apply alike_refl|by intros ? ?%not_elem_of_nil|].
    split; [done|done| |].
    - apply (stored_same p); try done. by rewrite (lv_file _ _ _ _ Hlive).
    - intros _. apply (live_same G soup i p); try done. apply (proj1 (lv_published _ _ _ _ Hlive)). }
  assert (Hentry : ∀ t k, entry_ok (mkEntry t k cmd)) by (intros t k; by exists (CmdWrite b)).
  pose proof (moves_propose members peers soup i cmd (raft_of p)) as Hm.
  pose proof (keep_propose entry_ok cmd (raft_of p) Hentry Ht) as Ht1.
  pose proof (forward_propose cmd (raft_of p)) as [Hla Hci].
  pose proof (ra_nodes _ _ _ _ _ (ni_raft _ _ _ Hinv) i p Hp) as ((Hi & _) & Hw & _).
  pose proof (propose_appends cmd (raft_of p)) as Happ.
  destruct (propose cmd (raft_of p)) as [n1 res] eqn:Epr. cbn [fst] in Hm, Ht1, Hla, Hci.
  set (wr := match res with Ok idx => Some (b, idx, term n1) | Err _ => None end).
  assert (Hreq : r = (mkProc (set_sh_raft n1 (pr_shared p)) (pr_tasks p) wr true (pr_base_file p), []))
    by (subst wr; destruct res; by injection Hr as <-).
  subst r. clear Hr. set (p' := mkProc _ _ _ _ _).
  assert (Hrp : raft_of p' = n1) by done.
  destruct (node_act G soup net i p n1 p' Hinv Hp Hm ltac:(by apply alike_refl) Ht1 ltac:(by left))
    as (G' & out & HG & Ho & Hci' & Hpre & Hlen & Hlen' & Hra' & Hnet).
  exists G', (tagged i out). split; [done|]. apply Hnet. clear Hnet.
  assert (Hok : Forall entry_ok (committed (raft_of p'))) by (rewrite Hrp; apply Forall_take, Ht1).
  split; [done|done| |].
  - left. split; [apply (lv_file _ _ _ _ Hlive)|]. destruct (lv_holds _ _ _ _ Hlive) as (k & Hk & _).
    exists k. by eapply holds_grows.
  - intros _. eapply (live_moved G G'); [done|exact Hlive|..]; try done.
    intros b' target t Hwr. cbn [pr_writer p'] in Hwr. subst wr. destruct res as [idx|]; [|done].
    injection Hwr as <- <- <-. destruct (Happ n1 idx Hi Hw eq_refl) as (Hr1 & Ht1' & Hidx & Hlog).
    split; [lia|].
    assert (Hrn : rnode_ok members G' (soup ++ tagged i out) i (rproj n1)).
    { apply (ri_nodes _ _ _ _ (ra_inv _ _ _ _ _ Hra') i). simpl. unfold raft_map.
      by rewrite lookup_fmap, lookup_insert_eq. }
    destruct (no_leader _ _ _ _ _ Hrn Hr1) as (ep & Hep & _ & Heplog). simpl in Heplog.
    exists ep, (mkEntry (term (raft_of p)) idx cmd). split_and!; [done| |done].
    rewrite Heplog, Hlog. replace (N.to_nat (idx - 1)) with (length (node_log (raft_of p))) by lia.
    by rewrite lookup_app_r, Nat.sub_diag by lia.
Qed.

(** The store after a write was answered. *)
Lemma commit_answered_store b answer sh :
  let sh' := (commit_answered b answer sh).1 in
  sh_raft sh' = sh_raft sh ∧ sh_identity sh' = sh_identity sh ∧ sh_config sh' = sh_config sh ∧
  sh_base sh' = sh_base sh ∧ sh_commit_state sh' = sh_commit_state sh ∧
  in_storage (sh_engine sh') =
    match answer with
    | Ok ts => apply_committed_batch b ts (in_storage (sh_engine sh))
    | Err _ => in_storage (sh_engine sh)
    end.
Proof. unfold commit_answered, engine_commit_batch. simpl. by destruct answer. Qed.

(** An acknowledged write is in the committed log, and nothing before it is missing. *)
Lemma acknowledged_entry G soup procs i p b target t :
  raft_inv members peers G soup procs → procs !! i = Some p → live G soup i p →
  pr_writer p = Some (b, target, t) → in_order (AFinish false) p = true →
  target <= cst_commit_index (sh_commit_state (pr_shared p)) →
  ∃ e k, committed (raft_of p) !! N.to_nat (target - 1) = Some e ∧ decode (e_command e) = Ok (CmdWrite b) ∧
    0 < target ∧ (N.to_nat (target - 1) ≤ k)%nat ∧ (driven p ≤ k)%nat ∧
    holds (sh_base (pr_shared p)) (committed (raft_of p)) k (store_of p).
Proof.
  intros Hra Hp Hlive Hw Hord Hle. unfold in_order in Hord. rewrite Hw in Hord.
  apply orb_true_iff in Hord as [Hord%negb_true_iff|((Hl & Ht)%andb_true_iff & Hpend)%andb_true_iff]; bool_to_prop; [lia|].
  subst t.
  destruct (lv_published _ _ _ _ Hlive) as [[Hpc Hpl] _]. destruct (Hpl Hl) as (ep & Hep & Hpre).
  destruct (lv_writer _ _ _ _ Hlive _ _ _ Hw) as (Hpos & ep' & e & Hep' & He & Hd).
  assert (ep' = ep) as -> by congruence.
  destruct (raft_committed_length members peers _ _ _ _ _ Hra Hp) as [Hlen _].
  pose proof (lv_applied _ _ _ _ Hlive) as Hla.
  assert (Hclen : length (committed (raft_of p)) = N.to_nat (commit_index (raft_of p)))
    by (unfold committed; rewrite length_take; lia).
  destruct (lookup_lt_is_Some_2 (committed (raft_of p)) (N.to_nat (target - 1))) as [e2 He2]; [lia|].
  assert (Hsame : ep_log ep !! N.to_nat (target - 1) = Some e2).
  { eapply prefix_lookup_Some; [|exact Hpre]. rewrite lookup_take_lt by lia. done. }
  assert (e2 = e) as -> by congruence.
  destruct (lv_holds _ _ _ _ Hlive) as (k & Hk & Hdk). exists e, k. split_and!; try done.
  etransitivity; [|exact Hdk]. pose proof (lv_pending _ _ _ _ Hlive) as Hpd.
  destruct (decide (driven p < N.to_nat (last_applied (raft_of p)))%nat) as [Hlt|Hge]; [|lia].
  destruct (lookup_lt_is_Some_2 (committed (raft_of p)) (driven p)) as [x Hx]; [lia|].
  assert (Hin : x ∈ applies (pr_tasks p)).
  { rewrite Hpd. apply list_elem_of_lookup. exists 0%nat. rewrite lookup_drop, Nat.add_0_r, lookup_take_lt by lia. done. }
  rewrite forallb_forall in Hpend. apply list_elem_of_In, Hpend, N.leb_le in Hin.
  rewrite (committed_wf _ _ _ _ _ _ _ Hra Hp Hx) in Hin. lia.
Qed.

Lemma act_finish G soup net i p expired r :
  net_inv G soup net → pn_procs net !! i = Some p →
  exec_act (pn_soup net) i (AFinish expired) p = Some r → in_order (AFinish expired) p = true →
  proc_roomy r.1 → net_inv G soup (pnet_after net i r).
Proof.
  intros Hinv Hp. unfold exec_act. destruct (pr_alive p) eqn:Ha; [|done].
  destruct (pr_writer p) as [[[b target] t]|] eqn:Hw; [|done].
  destruct (replicate_poll _ _ _ _ _) as [answer|] eqn:Hpoll; [|done]. intros [= <-] Hord [Hroom _].
  pose proof (ni_procs _ _ _ Hinv i p Hp) as [Hti Hcfg Hst Hlive]. specialize (Hlive Ha).
  pose proof (commit_answered_store b answer (pr_shared p)) as Hca. simpl in Hca, Hroom.
  set (sh' := (commit_answered b answer (pr_shared p)).1) in *.
  destruct Hca as (Hr & Hid & Hcf & Hb & Hcs & Hs). change (in_storage (sh_engine (pr_shared p))) with (store_of p) in Hs.
  set (p' := mkProc sh' (pr_tasks p) None true (pr_base_file p)).
  assert (Hrp : raft_of p' = raft_of p) by done.
  assert (Hholds : ∃ k, holds (sh_base (pr_shared p)) (committed (raft_of p)) k (store_of p') ∧ (driven p ≤ k)%nat).
  { unfold store_of at 1. cbn [pr_shared p']. unfold replicate_poll in Hpoll.
    destruct (target <=? _) eqn:Hle; bool_to_prop.
    - injection Hpoll as <-.
      destruct (acknowledged_entry G soup _ i p b target t (ni_raft _ _ _ Hinv) Hp Hlive Hw Hord Hle)
        as (e & k & He & Hd & Hpos & Hjk & Hdk & Hk).
      exists (Nat.max k (S (N.to_nat (target - 1)))). split; [|lia].
      replace (apply_committed_batch _ _ _) with (apply_logged (sh_base (pr_shared p)) (N.of_nat (N.to_nat (target - 1)) + 1) (CmdWrite b) (store_of p)) in Hs
        by (simpl; do 2 f_equal; lia).
      rewrite Hs in Hroom |- *. eapply holds_apply; [apply Forall_take, Hti|done..].
    - assert (∃ er, answer = Err er) as [er ->].
      { repeat case_if; simplify_eq; eauto. }
      rewrite Hs. apply (lv_holds _ _ _ _ Hlive). }
  destruct Hholds as (k & Hk & Hdk).
  apply (local_act G soup net i p); [done|done|by apply alike_refl|by intros ? ?%not_elem_of_nil|].
  destruct Hlive as [Hf Hla Hpend _ [Hpub Hpt] Hwr Hout].
  assert (Hdr : driven p' = driven p) by (unfold driven; by rewrite Hrp).
  split.
  - by rewrite Hrp.
  - destruct Hcfg as [Hown Hpp]. unfold driver_config, own_id. cbn [pr_shared p']. by rewrite Hid, Hcf.
  - left. cbn [pr_base_file pr_shared p']. rewrite Hb. split; [done|]. exists k. by rewrite Hrp.
  - intros _. split; rewrite ?Hrp, ?Hdr; cbn [pr_base_file pr_shared pr_tasks pr_writer p']; rewrite ?Hb, ?Hcs; try done.
    by exists k.
Qed.

(** *** Restarts *)

Lemma engine_open_storage {L} st loaded counts now timeout gc_min (e : Inner L) :
  engine_open st loaded counts now timeout gc_min = Ok e → in_storage e = st.
Proof. unfold engine_open. intros He. destruct (open_indexes _ _ _ _); simplify_eq/=. done. Qed.

(** Recovery brings the store up to the commit index. *)
Lemma recovered_store {L} n base k (engine engine' : Inner L) errs :
  tidy entry_ok n → whole n → (N.to_nat (commit_index n) ≤ length (node_log n))%nat →
  holds base (committed n) k (in_storage engine) →
  recover_loop n base 1 (N.to_nat (commit_index n)) (engine, 0) = ((engine', errs), Ok tt) →
  roomy (in_storage engine') → holds base (committed n) (length (committed n)) (in_storage engine').
Proof.
  intros Ht Hw Hlen (cmds & Hc & Hk & Hsy) Hrec Hroom.
  destruct (entries_commands (committed n) ltac:(apply Forall_take, Ht)) as (cmds' & Hc' & Hd & Hs).
  rewrite Hc in Hc'. injection Hc' as <-. pose proof (log_commands_length _ _ Hc) as Hcl.
  assert (Hlc : N.to_nat (commit_index n) = length cmds).
  { rewrite Hcl. unfold committed. rewrite length_take. lia. }
  rewrite Hlc in Hrec.
  destruct (recover_loop_spec n (committed n) base cmds cmds [] (engine, 0) (td_inv _ _ Ht) Hw
    (prefix_take _ _) Hc Hd eq_refl) as (_ & _ & _ & Hst).
  change (N.of_nat (length []) + 1) with 1 in Hst. rewrite Hrec in Hst. cbn [fst snd] in Hst.
  rewrite (Hst eq_refl) in Hroom |- *. exists cmds. rewrite <- Hcl, firstn_all. split_and!; [done|lia|].
  apply (replay_synced base v0 cmds [] k); try done. simpl. by rewrite Nat.max_0_r.
Qed.

(** The store that a restart finds, and its base. *)
Lemma stored_open p st engine base file :
  stored p → open_with (st_dir (store_of p)) = Ok st → in_storage engine = st →
  load_or_init_commit_base (L := Res N) (pr_base_file p) engine = Ok (base, file) →
  file = Some (enc_base base) ∧ ∃ k, holds base (committed (raft_of p)) k st.
Proof.
  intros [[Hf (k & cmds & Hc & Hk & Hsy)]|(Hf & _ & Hci & Hv & w & Hp)] Ho He; rewrite Hf.
  - rewrite load_enc_base. intros [= <- <-]. split; [done|]. exists k, cmds. split_and!; [done|done|].
    by eapply synced_open.
  - unfold load_or_init_commit_base. rewrite He. intros [= <- <-]. split; [done|]. exists 0%nat, [].
    unfold committed. rewrite Hci. split_and!; [done|done|].
    destruct (open_persisted w _ Hp) as (s2 & Ho2 & Hp2 & Hr & Hw). assert (s2 = st) as -> by congruence.
    destruct Hr as (Hg & _). split; [|simpl; lia|].
    + intros c id. unfold live_view. rewrite Hg. apply Hv.
    + exists w. split; [|done]. intros j b Hj. done.
Qed.

(** The process between its end and its next start. *)
Definition stopped p : Proc :=
  mkProc (set_sh_raft (set_outbox [] (raft_of p)) (pr_shared p)) [] None false (pr_base_file p).

Lemma stopped_inv G soup net i p :
  net_inv G soup net → pn_procs net !! i = Some p → net_inv G soup (pnet_after net i (stopped p, [])).
Proof.
  intros Hinv Hp. apply (local_act G soup net i p); [done|done|done|by intros ? ?%not_elem_of_nil|].
  destruct (ni_procs _ _ _ Hinv i p Hp) as [[Hi Hl Ho Hs] Hc Hst _].
  split; [by split; [..|constructor|]|done| |done].
  destruct Hst as [[Hf Hk]|(Hf & _ & Hci & Hv & Hw)]; [by left|right]. by split_and!.
Qed.

(** The Raft node that [spawn] starts with. *)
Definition started (id : NodeId) (ps : list NodeId) (boot : bool) (st : FileStorage) : RaftNode FileStorage :=
  let node := node_new (mkConfig id ps ELECTION_MIN_TICKS ELECTION_MAX_TICKS HEARTBEAT_TICKS) st in
  if boot then campaign node else node.

Lemma started_moves soup i boot n :
  outbox n = [] → tidy entry_ok n →
  let n1 := started i (peers i) boot (storage n) in
  moves members peers soup i n n1 ∧ tidy entry_ok n1 ∧ last_applied n1 = commit_index n ∧
  commit_index n <= commit_index n1.
Proof.
  intros Ho Ht n1. unfold started in n1. set (n0 := node_new _ _) in n1.
  assert (Hm : moves members peers soup i n n0) by by apply moves_start.
  assert (Ht0 : tidy entry_ok n0) by (destruct Ht; by split; [..|constructor|]).
  assert (Hc0 : commit_index n0 = commit_index n ∧ last_applied n0 = commit_index n)
    by (destruct Ht as [_ _ _ Hs]; split; exact Hs).
  destruct boot; subst n1.
  - destruct (forward_campaign n0) as [Hla Hci]. split_and!; [|by apply keep_campaign; [apply entry_ok_noop|]|lia|lia].
    etransitivity; [exact Hm|apply moves_campaign].
  - by split_and!; [..|lia|lia].
Qed.

Lemma act_restart G soup net i p loaded counts now timeout gc_min r :
  net_inv G soup net → pn_procs net !! i = Some p → addressable (encode_log (fs_entries (storage (raft_of p)))) →
  exec_act (pn_soup net) i (ARestart loaded counts now timeout gc_min) p = Some r → proc_roomy r.1 →
  ∃ G' es, hist_le G G' ∧ net_inv G' (soup ++ es) (pnet_after net i r).
Proof.
  intros Hinv Hp Hadr. unfold exec_act, restart. change (in_storage (sh_engine (pr_shared p))) with (store_of p).
  destruct (open_with (st_dir (store_of p))) as [st|] eqn:Hopen; [|done].
  destruct (engine_open st loaded counts now timeout gc_min) as [engine|] eqn:Heng; [|done].
  apply engine_open_storage in Heng. unfold spawn. change (sh_raft (pr_shared p)) with (raft_of p).
  pose proof (ni_procs _ _ _ Hinv i p Hp) as [Ht [Hown Hpp] Hst _].
  rewrite (file_reopen_any _ (td_inv _ _ Ht) Hadr).
  destruct (load_or_init_commit_base _ engine) as [[base file]|] eqn:Hload; [|done].
  destruct (stored_open p st engine base file Hst Hopen Heng Hload) as (-> & k & Hk).
  rewrite Hpp. unfold own_id in Hown. rewrite Hown. fold (started i (peers i) (cc_bootstrap (sh_config (pr_shared p))) (storage (raft_of p))).
  pose proof (stopped_inv G soup net i p Hinv Hp) as Hinv0. set (net0 := pnet_after net i (stopped p, [])) in *.
  assert (Hp0 : pn_procs net0 !! i = Some (stopped p)) by (simpl; by rewrite lookup_insert_eq).
  destruct (started_moves soup i (cc_bootstrap (sh_config (pr_shared p))) (raft_of (stopped p)) eq_refl
    (pi_tidy _ _ _ _ (ni_procs _ _ _ Hinv0 i _ Hp0))) as (Hm & Ht1 & Hla1 & Hci1).
  change (storage (raft_of (stopped p))) with (storage (raft_of p)) in Hm, Ht1, Hla1, Hci1.
  set (n1 := started _ _ _ _) in *.
  destruct (recover_loop n1 base 1 (N.to_nat (commit_index n1)) (engine, 0)) as [[engine' errs] [[]|er]] eqn:Hrec; [|done].
  intros [= <-] [Hroom _]. set (p' := mkProc _ _ _ _ _) in *.
  assert (Hrp : raft_of p' = n1) by done.
  destruct (node_act G soup net0 i (stopped p) n1 p' Hinv0 Hp0 Hm ltac:(by apply alike_refl) Ht1 ltac:(by left))
    as (G' & out & HG & Ho & Hci & Hpre & Hlen & Hlen' & Hra' & Hnet).
  exists G', (tagged i out). split; [done|].
  replace (pnet_after net i (p', [])) with (pnet_after net0 i (p', []))
    by (unfold pnet_after; simpl; by rewrite insert_insert_eq, app_nil_r).
  apply Hnet. clear Hnet.
  destruct (ra_nodes _ _ _ _ _ Hra' i p' ltac:(by rewrite lookup_insert_eq)) as (_ & Hw & _).
  assert (Hh : holds base (committed n1) (length (committed n1)) (in_storage engine')).
  { eapply (recovered_store n1 base k); [done|done|done| |exact Hrec|exact Hroom].
    rewrite Heng. eapply holds_grows; [exact Hpre|apply Forall_take, Ht1|exact Hk]. }
  assert (Hd : driven p' = N.to_nat (last_applied n1)) by (unfold driven; rewrite Hrp; simpl; lia).
  split; [done|by split| |].
  - left. split; [done|]. by exists (length (committed n1)).
  - intros _. split; rewrite ?Hd, ?Hrp; cbn [pr_base_file pr_shared pr_tasks pr_writer p' sh_base sh_commit_state]; try done.
    + change (commit_index (raft_of (stopped p))) with (commit_index (raft_of p)) in Hci1, Hla1. lia.
    + symmetry. apply drop_ge. rewrite length_take. lia.
    + exists (length (committed n1)). split; [done|]. unfold committed. rewrite length_take, Nat.min_l by done. lia.
    + split; [|by intros c ?%not_elem_of_nil]. by split; simpl; [lia|].
    + intros e [He|(o & Hin & _)]; [|by apply not_elem_of_nil in Hin]. apply elem_of_app. right.
      rewrite Ho in He. simpl in He. by apply list_elem_of_fmap_2.
Qed.

(** ** Runs *)

Definition pnet_inv (G : History) (soup : list (NodeId * Envelope)) (net : PNet) : Prop :=
  net_inv G soup net ∧
  ∀ i p, pn_procs net !! i = Some p → addressable (encode_log (fs_entries (storage (raft_of p)))).

Lemma orderly_inv G soup net net' :
  pnet_inv G soup net → orderly_step net net' →
  ∃ G' es, hist_le G G' ∧ pnet_inv G' (soup ++ es) net'.
Proof.
  intros [Hinv Hadr] Hs. destruct Hs as [net i p a r Hp Hex Hord Hroom].
  assert (Hn : ∃ G' es, hist_le G G' ∧ net_inv G' (soup ++ es) (pnet_after net i r)).
  { assert (Hstay : net_inv G soup (pnet_after net i r) → ∃ G' es, hist_le G G' ∧ net_inv G' (soup ++ es) (pnet_after net i r))
      by (exists G, []; by rewrite app_nil_r).
    destruct a; [by eapply act_drive|..].
    - by eapply Hstay, act_task.
    - by eapply act_write.
    - by eapply Hstay, act_finish.
    - eapply act_restart; [exact Hinv|exact Hp|by eapply Hadr|exact Hex|exact Hroom]. }
  destruct Hn as (G' & es & HG & Hn). exists G', es. split; [done|]. split; [done|].
  intros j q. simpl. destruct (decide (i = j)) as [<-|Hne].
  - rewrite lookup_insert_eq. intros [= <-]. apply Hroom.
  - rewrite lookup_insert_ne by done. apply Hadr.
Qed.

Lemma orderly_run_inv G soup net net' :
  pnet_inv G soup net → rtc orderly_step net net' → ∃ G' es, hist_le G G' ∧ pnet_inv G' (soup ++ es) net'.
Proof.
  intros Hinv Hr. revert G soup Hinv. induction Hr as [net|n1 n2 n3 Hs _ IH]; intros G soup Hinv.
  - exists G, []. by rewrite app_nil_r.
  - destruct (orderly_inv G soup n1 n2 Hinv Hs) as (G2 & es2 & HG2 & Hinv2).
    destruct (IH G2 _ Hinv2) as (G3 & es3 & HG3 & Hinv3). exists G3, (es2 ++ es3).
    rewrite app_assoc. split; [by etransitivity|done].
Qed.

(** What opening an empty log directory leaves. *)
Definition empty_log : FileStorage := mkFile (mkDir (Some []) None None) [] hard_default 0 0.

(** A node that has not been started: an empty log and a store with the records [v0]. *)
Record fresh_proc (i : NodeId) p : Prop := {
  fp_stopped : pr_alive p = false ∧ pr_base_file p = None;
  fp_config : driver_config i p;
  fp_log : raft_of p = node_new (mkConfig i (peers i) ELECTION_MIN_TICKS ELECTION_MAX_TICKS HEARTBEAT_TICKS)
             empty_log;
  fp_view : ∀ c id, live_view (store_of p) c id = v0 c id;
  fp_store : ∃ w, persisted w (store_of p);
}.

(** Every member of the cluster knows all the others. *)
Definition fresh_pnet (net : PNet) : Prop :=
  pn_soup net = [] ∧
  (∀ i p, pn_procs net !! i = Some p → i ∈ members ∧ fresh_proc i p) ∧
  (∀ i, i ∈ members → length members = (length (peers i) + 1)%nat).

Lemma fresh_pnet_inv net : fresh_pnet net → pnet_inv ∅ [] net.
Proof.
  intros (Hsoup & Hprocs & Hlen).
  assert (Hst : st_inv empty_log) by (split; [by split|by split_and!]).
  split; [split|].
  - split.
    + apply r_inv_initial. split; [done|]. intros i r. simpl. unfold raft_map. rewrite lookup_fmap, fmap_Some.
      intros (p & Hp & ->). destruct (Hprocs i p Hp) as [Him Hf]. by rewrite (fp_log _ _ Hf).
    + intros i p Hp. destruct (Hprocs i p Hp) as [Him Hf]. rewrite (fp_log _ _ Hf).
      split_and!; [|done|done]. split_and!; try done. by apply Hlen.
    + by intros f e ?%not_elem_of_nil.
    + intros a b. by apply lone_member.
  - by rewrite Hsoup.
  - by intros f e ?%not_elem_of_nil.
  - intros i p Hp. destruct (Hprocs i p Hp) as [Him [[Hal Hbf] Hc Hl Hv Hpst]]. split; [| |right|by rewrite Hal].
    + rewrite Hl. by split; [|constructor|constructor|].
    + done.
    + by rewrite Hl.
  - intros i p Hp. destruct (Hprocs i p Hp) as [Him Hf]. rewrite (fp_log _ _ Hf). done.
Qed.

(** The records of a process are what a prefix [cmds] of the commands it has committed
    produces; a running process has all that its driver applied. *)
Definition replica p (cmds : list ReplicatedCommand) : Prop :=
  (∃ all, log_commands (committed (raft_of p)) = Some all ∧ cmds `prefix_of` all) ∧
  (∀ c id, live_view (store_of p) c id = replay_view v0 cmds c id) ∧
  (pr_alive p = true → (driven p ≤ length cmds)%nat).

Lemma proc_replica G soup i p : proc_inv G soup i p → ∃ cmds, replica p cmds.
Proof.
  intros [_ _ Hst Hlive]. destruct (pr_alive p) eqn:Ha.
  - destruct (lv_holds _ _ _ _ (Hlive eq_refl)) as (k & (cmds & Hc & Hk & Hsy) & Hd).
    exists (take k cmds). split_and!; [exists cmds; split; [done|apply prefix_take]|apply Hsy|].
    intros _. rewrite length_take. lia.
  - destruct Hst as [[_ (k & cmds & Hc & Hk & Hsy)]|(_ & _ & Hci & Hv & _)].
    + exists (take k cmds). split_and!; [exists cmds; split; [done|apply prefix_take]|apply Hsy|by rewrite Ha].
    + exists []. split_and!; [|done|by rewrite Ha]. exists []. unfold committed. by rewrite Hci.
Qed.

(** Commands of two logs of which one continues the other. *)
Lemma replicas_prefix p1 p2 cmds1 cmds2 :
  committed (raft_of p1) `prefix_of` committed (raft_of p2) ∨ committed (raft_of p2) `prefix_of` committed (raft_of p1) →
  replica p1 cmds1 → replica p2 cmds2 → cmds1 `prefix_of` cmds2 ∨ cmds2 `prefix_of` cmds1.
Proof.
  intros Hp ((all1 & Hl1 & Hp1) & _) ((all2 & Hl2 & Hp2) & _).
  assert (Hall : ∃ all, cmds1 `prefix_of` all ∧ cmds2 `prefix_of` all).
  { destruct Hp as [Hp|Hp].
    - pose proof (log_commands_prefix _ _ _ Hp Hl2) as Hx. rewrite Hl1 in Hx. injection Hx as ->.
      exists all2. split; [etransitivity; [done|apply prefix_take]|done].
    - pose proof (log_commands_prefix _ _ _ Hp Hl1) as Hx. rewrite Hl2 in Hx. injection Hx as ->.
      exists all1. split; [done|etransitivity; [done|apply prefix_take]]. }
  destruct Hall as (all & Ha1 & Ha2). by eapply prefix_weak_total.
Qed.

(** Two moments of a run. *)
Lemma pnet_two_moments net0 net1 net2 i j p1 p2 :
  fresh_pnet net0 → rtc orderly_step net0 net1 → rtc orderly_step net1 net2 →
  pn_procs net1 !! i = Some p1 → pn_procs net2 !! j = Some p2 →
  ∃ G soup, proc_inv G soup i p1 ∧ proc_inv G soup j p2 ∧
    raft_inv members peers G soup (pn_procs net2) ∧
    stable members G soup (term (raft_of p1)) (node_log (raft_of p1)) (N.to_nat (commit_index (raft_of p1))) ∧
    stable members G soup (term (raft_of p2)) (node_log (raft_of p2)) (N.to_nat (commit_index (raft_of p2))).
Proof.
  intros Hf Hrun Hlater Hp1 Hp2. pose proof (fresh_pnet_inv net0 Hf) as Hinv0.
  destruct (orderly_run_inv _ _ _ _ Hinv0 Hrun) as (G1 & es1 & _ & Hinv1).
  destruct (orderly_run_inv _ _ _ _ Hinv1 Hlater) as (G2 & es2 & HG & Hinv2).
  destruct Hinv1 as [Hn1 _], Hinv2 as [Hn2 _]. exists G2, (([] ++ es1) ++ es2).
  destruct (raft_committed_length members peers _ _ _ _ _ (ni_raft _ _ _ Hn1) Hp1) as [_ Hs1].
  destruct (raft_committed_length members peers _ _ _ _ _ (ni_raft _ _ _ Hn2) Hp2) as [_ Hs2].
  split_and!; [|by apply (ni_procs _ _ _ Hn2)|apply Hn2| |done].
  - eapply proc_inv_mono; [done|]. by apply (ni_procs _ _ _ Hn1).
  - eapply (stable_mono members peers); [done|apply N.le_refl|done].
Qed.

(** C5: replicas agree.  Take a cluster of peer processes with empty logs over equal
    stores that does not compact its logs, and let it run: ticks, messages lost, delayed,
    reordered and delivered twice, writes and their answers, applications and crashes
    interleaved in any order, as long as every batch is one whose values their JSON text
    keeps ([batch_safe]), the files fit in memory, and every answered write was answered
    in order.  At any two moments the records of any two processes are what two lists of
    committed commands produce, one a prefix of the other, and a running process has
    everything that its driver has applied. *)
Theorem replicas_agree net0 net1 net2 i j p1 p2 :
  fresh_pnet net0 → rtc orderly_step net0 net1 → rtc orderly_step net1 net2 →
  pn_procs net1 !! i = Some p1 → pn_procs net2 !! j = Some p2 →
  ∃ cmds1 cmds2, replica p1 cmds1 ∧ replica p2 cmds2 ∧
    (cmds1 `prefix_of` cmds2 ∨ cmds2 `prefix_of` cmds1).
Proof.
  intros Hf Hrun Hlater Hp1 Hp2.
  destruct (pnet_two_moments _ _ _ _ _ _ _ Hf Hrun Hlater Hp1 Hp2) as (G & soup & Hi1 & Hi2 & Hra & Hs1 & Hs2).
  destruct (proc_replica _ _ _ _ Hi1) as (cmds1 & Hr1), (proc_replica _ _ _ _ Hi2) as (cmds2 & Hr2).
  exists cmds1, cmds2. split_and!; [done|done|]. eapply replicas_prefix; [|done|done].
  exact (stable_prefixes members peers G (mkRNet (raft_map (pn_procs net2)) soup) _ _ _ _ _ _ (ra_inv _ _ _ _ _ Hra) Hs1 Hs2).
Qed.

(** What the answer of a write leaves in the log of the process that gave it. *)
Lemma acknowledged_committed net0 net1 i p b target t expired ts r :
  fresh_pnet net0 → rtc orderly_step net0 net1 → pn_procs net1 !! i = Some p →
  pr_writer p = Some (b, target, t) → in_order (AFinish expired) p = true →
  exec_act (pn_soup net1) i (AFinish expired) p = Some r →
  replicate_poll (sh_base (pr_shared p)) target t expired (sh_commit_state (pr_shared p)) = Some (Ok ts) →
  raft_of r.1 = raft_of p ∧ ts = sh_base (pr_shared p) + target ∧ target <= commit_index (raft_of p) ∧
  ∃ e, committed (raft_of p) !! N.to_nat (target - 1) = Some e ∧ decode (e_command e) = Ok (CmdWrite b).
Proof.
  intros Hf Hrun Hp Hw Hord Hex Hpoll.
  destruct (orderly_run_inv _ _ _ _ (fresh_pnet_inv net0 Hf) Hrun) as (G & es & _ & [Hinv _]).
  unfold exec_act in Hex. destruct (pr_alive p) eqn:Ha; [|done]. rewrite Hw, Hpoll in Hex. injection Hex as <-.
  assert (Hle : target <= cst_commit_index (sh_commit_state (pr_shared p)) ∧ ts = sh_base (pr_shared p) + target).
  { unfold replicate_poll in Hpoll. destruct (target <=? _) eqn:E; bool_to_prop; [by injection Hpoll as <-|].
    by repeat case_if. }
  destruct Hle as [Hle ->]. pose proof (pi_live _ _ _ _ (ni_procs _ _ _ Hinv i p Hp) Ha) as Hlive.
  destruct (acknowledged_entry G _ _ i p b target t (ni_raft _ _ _ Hinv) Hp Hlive Hw Hord Hle)
    as (e & k & He & Hd & _). split_and!; [|done| |by exists e].
  - done.
  - destruct (lv_published _ _ _ _ Hlive) as [[Hc _] _]. pose proof (lv_applied _ _ _ _ Hlive). lia.
Qed.

(** C4: acknowledged writes stay.  Take a cluster of peer processes with empty logs over
    equal stores that does not compact its logs, and an orderly run of it: every batch is
    one whose values their JSON text keeps ([batch_safe]), the files fit in memory, and
    every answered write was answered in order, that is, while the published state was
    that of the leader of its term and no earlier entry waited to be applied.  When a
    write was answered, then from that moment on, through elections and crashes, its batch
    is at its index in the log of every node that has committed that far and of every
    leader of that term or a later one, and among the commands of every replica that is
    long enough. *)
Theorem acknowledged_writes_replicated net0 net1 net2 i j p1 p2 b target t expired ts r :
  fresh_pnet net0 → rtc orderly_step net0 net1 → pn_procs net1 !! i = Some p1 →
  pr_writer p1 = Some (b, target, t) → in_order (AFinish expired) p1 = true →
  exec_act (pn_soup net1) i (AFinish expired) p1 = Some r → proc_roomy r.1 →
  replicate_poll (sh_base (pr_shared p1)) target t expired (sh_commit_state (pr_shared p1)) = Some (Ok ts) →
  rtc orderly_step (pnet_after net1 i r) net2 → pn_procs net2 !! j = Some p2 →
  (target <= commit_index (raft_of p2) ∨ (role (raft_of p2) = Leader ∧ term (raft_of p1) <= term (raft_of p2)) →
     ∃ e, entry_at (storage (raft_of p2)) target = Some e ∧ decode (e_command e) = Ok (CmdWrite b)) ∧
  (∀ cmds, replica p2 cmds → (N.to_nat target ≤ length cmds)%nat →
     cmds !! N.to_nat (target - 1) = Some (CmdWrite b)).
Proof.
  intros Hf Hrun Hp1 Hw Hord Hex Hroom Hpoll Hlater Hp2.
  destruct (acknowledged_committed _ _ _ _ _ _ _ _ _ _ Hf Hrun Hp1 Hw Hord Hex Hpoll) as (Hr & _ & Hle & e & He & Hd).
  assert (Hstep : rtc orderly_step net0 (pnet_after net1 i r)) by (eapply rtc_r; [done|by econstructor]).
  destruct (pnet_two_moments net0 _ net2 i j r.1 p2 Hf Hstep Hlater ltac:(simpl; by rewrite lookup_insert_eq) Hp2)
    as (G & soup & _ & Hi2 & Hra & Hs1 & Hs2). rewrite Hr in Hs1.
  assert (Hpos : 0 < target).
  { destruct (orderly_run_inv _ _ _ _ (fresh_pnet_inv net0 Hf) Hrun) as (G1 & es & _ & [Hinv _]).
    unfold exec_act in Hex. destruct (pr_alive p1) eqn:Ha; [|done].
    by destruct (lv_writer _ _ _ _ (pi_live _ _ _ _ (ni_procs _ _ _ Hinv i p1 Hp1) Ha) _ _ _ Hw). }
  destruct (ra_nodes _ _ _ _ _ Hra j p2 Hp2) as ((Hi & _) & Hwh & _).
  assert (Hcom : target <= commit_index (raft_of p2) → committed (raft_of p2) !! N.to_nat (target - 1) = Some e).
  { intros Hc.
    destruct (stable_prefixes members peers G (mkRNet (raft_map (pn_procs net2)) soup) _ _ _ _ _ _ (ra_inv _ _ _ _ _ Hra) Hs1 Hs2) as [Hp|Hp].
    - by eapply prefix_lookup_Some.
    - pose proof (proj1 Hs2). apply (prefix_lookup_lt _ _ (N.to_nat (target - 1))) in Hp; [by rewrite <- He|].
      rewrite length_take. lia. }
  split.
  - intros Hc. exists e. split; [|done]. rewrite whole_entry_at by (done || lia).
    destruct Hc as [Hc|[Hl Ht]].
    + apply Hcom in Hc. by apply lookup_take_Some in Hc as [? _].
    + assert (Hrn : rnode_ok members G soup j (rproj (raft_of p2))).
      { apply (ri_nodes _ _ _ _ (ra_inv _ _ _ _ _ Hra) j). simpl. unfold raft_map. by rewrite lookup_fmap, Hp2. }
      destruct (no_leader _ _ _ _ _ Hrn Hl) as (ep & Hep & _ & Hlog).
      pose proof (stable_in_log members peers G _ _ _ _ _ ep (ra_inv _ _ _ _ _ Hra) Hs1 Ht Hep) as Hp.
      rewrite Hlog in Hp. by eapply prefix_lookup_Some.
  - intros cmds ((all & Hall & Hpre) & _) Hlen.
    pose proof (log_commands_length _ _ Hall) as Hl. pose proof (prefix_length _ _ Hpre) as Hl2.
    assert (Hc : target <= commit_index (raft_of p2)).
    { unfold committed in Hl. rewrite length_take in Hl. lia. }
    destruct (log_commands_lookup _ _ _ _ Hall (Hcom Hc)) as (c & Hc' & Hdc). rewrite Hd in Hdc. injection Hdc as <-.
    rewrite <- Hc'. apply (prefix_lookup_lt _ _ (N.to_nat (target - 1))) in Hpre; [done|lia].
Qed.
End invariant.
