(* ===== verification/Limits.v ===== *)
(** * Resource limits at the request boundary

    Models the [enforce_*] functions of [crates/auradb-server/src/dispatch.rs], the
    counting functions they use, [effective_query_timeout_ms], and the read requests of
    [crates/auradb-query/src/ir.rs] they look at. *)

From S2P Require Import Prelude Text Value Core Eval Query Mvcc Storage Txn Engine Cluster Config.

Local Open Scope N_scope.

(** ** Read requests *)

Record SearchPageRequest := mkSearchPage {
  sp_find : FindQuery;
  sp_page_size : nat;
  sp_cursor : option (list byte);
}.

Inductive ReadRequest :=
| RFind (q : FindQuery)
| RCount (q : CountQuery)
| RExists (q : ExistsQuery)
| RAggregate (q : AggregateQuery)
| RSearchPage (req : SearchPageRequest).

(** ** Documents and schemas *)

(** [iter().max().unwrap_or(0)]. *)
Definition max_or_0 (l : list nat) : nat := foldr Nat.max 0%nat l.

Definition document_depth (doc : Document) : nat := (1 + max_or_0 (nesting_depth <$> doc.*2))%nat.

Definition document_vector_dim (doc : Document) : nat := max_or_0 (max_vector_dim <$> doc.*2).

Definition enforce_schema_limits (limits : LimitsConfig) (schema : CollectionSchema) : Res unit :=
  if existsb (λ f, match fd_type f with
                   | FVector dim => (lm_max_vector_dimension limits <? dim)%nat
                   | _ => false
                   end) (cs_fields schema)
  then Err ELimitExceeded else Ok tt.

Definition enforce_document_limits (limits : LimitsConfig) (doc : Document) : Res unit :=
  if (lm_max_document_depth limits <? document_depth doc)%nat then Err ELimitExceeded
  else if (lm_max_vector_dimension limits <? document_vector_dim doc)%nat then Err ELimitExceeded
  else Ok tt.

(** A [for] loop over fallible checks. *)
Fixpoint all_ok {A} (f : A → Res unit) (l : list A) : Res unit :=
  match l with
  | [] => Ok tt
  | x :: l' => let? _ := f x in all_ok f l'
  end.

Definition mutation_documents (m : Mutation) : list Document :=
  match m with
  | MInsert _ fields | MUpsert _ fields => [fields]
  | MUpdate _ _ set => [set]
  | MBulkInsert _ records => records
  | MDelete _ _ => []
  end.

Definition enforce_mutation_limits (limits : LimitsConfig) (m : Mutation) : Res unit :=
  match m with
  | MInsert _ fields | MUpsert _ fields => enforce_document_limits limits fields
  | MUpdate _ _ set => enforce_document_limits limits set
  | MBulkInsert _ records => all_ok (enforce_document_limits limits) records
  | MDelete _ _ => Ok tt
  end.

Definition mutation_write_count (m : Mutation) : nat :=
  match m with
  | MBulkInsert _ records => Nat.max (length records) 1
  | _ => 1
  end.

(** ** Queries *)

Section queries.
Context `{Unicode}.

Definition full_text_token_count (query : string) : nat :=
  length (filter (λ t, t ≠ [])
    (split_on (λ c, negb (is_alphanumeric c)) (utf8_chars (bytes_of query)))).

Fixpoint enforce_filter_limits (limits : LimitsConfig) (f : Filter) : Res unit :=
  let enforce_all := fix enforce_all (fs : list Filter) : Res unit :=
    match fs with
    | [] => Ok tt
    | f :: fs' => let? _ := enforce_filter_limits limits f in enforce_all fs'
    end in
  match f with
  | FAnd filters | FOr filters => enforce_all filters
  | FNot filter => enforce_filter_limits limits filter
  | FContainsText _ query =>
      if (lm_max_full_text_query_tokens limits <? full_text_token_count query)%nat
      then Err ELimitExceeded else Ok tt
  | FCompare _ _ _ | FContains _ _ | FExists _ => Ok tt
  end.

Definition over (bound : nat) (v : option nat) : bool :=
  match v with Some n => (bound <? n)%nat | None => false end.

Definition enforce_pagination_limits (limits : LimitsConfig) (limit offset : option nat) : Res unit :=
  if over (lm_max_query_limit limits) limit then Err ELimitExceeded
  else if over (lm_max_query_limit limits) offset then Err ELimitExceeded
  else Ok tt.

Definition enforce_opt_filter (limits : LimitsConfig) (f : option Filter) : Res unit :=
  match f with Some f => enforce_filter_limits limits f | None => Ok tt end.

Definition enforce_read_limits (limits : LimitsConfig) (req : ReadRequest) : Res unit :=
  match req with
  | RFind q =>
      let? _ := enforce_pagination_limits limits (fq_limit q) (fq_offset q) in
      enforce_opt_filter limits (fq_filter q)
  | RCount q => enforce_opt_filter limits (cq_filter q)
  | RExists q => enforce_opt_filter limits (eq_filter q)
  | RAggregate q => enforce_opt_filter limits (aq_filter q)
  | RSearchPage req =>
      let? _ := enforce_pagination_limits limits (Some (sp_page_size req)) None in
      enforce_opt_filter limits (fq_filter (sp_find req))
  end.
End queries.

(** ** Deadlines *)

Definition effective_query_timeout_ms (server_max_ms : N) (per_query_ms : option N) : N :=
  match server_max_ms, per_query_ms with
  | 0, None => 0
  | 0, Some 0 => 0
  | 0, Some pq => pq
  | max, None | max, Some 0 => max
  | max, Some pq => N.min max pq
  end.

Definition set_find_timeout (t : option N) (q : FindQuery) : FindQuery :=
  mkFind (fq_collection q) (fq_filter q) (fq_vector q) (fq_vector_ann q) (fq_text_search q)
    (fq_hybrid q) (fq_order_by q) (fq_limit q) (fq_offset q) (fq_projection q) (fq_includes q) t
    (fq_snippet q).

(** [(effective > 0).then_some(effective)]. *)
Definition budget (server_max_ms : N) (per_query_ms : option N) : option N :=
  let effective := effective_query_timeout_ms server_max_ms per_query_ms in
  if 0 <? effective then Some effective else None.

Definition set_aggregate_timeout (t : option N) (q : AggregateQuery) : AggregateQuery :=
  mkAggregate (aq_collection q) (aq_filter q) (aq_text_search q) (aq_facets q) (aq_metrics q)
    (aq_group_by q) (aq_group_limit q) t.

(** The resolved budget is written back into the request. *)
Definition apply_deadline (server_max_ms : N) (req : ReadRequest) : ReadRequest :=
  match req with
  | RFind q => RFind (set_find_timeout (budget server_max_ms (fq_timeout_ms q)) q)
  | RAggregate q => RAggregate (set_aggregate_timeout (budget server_max_ms (aq_timeout_ms q)) q)
  | RSearchPage req =>
      RSearchPage (mkSearchPage
        (set_find_timeout (budget server_max_ms (fq_timeout_ms (sp_find req))) (sp_find req))
        (sp_page_size req) (sp_cursor req))
  | RCount _ | RExists _ => req
  end.

(** ** What the limits guarantee *)

Lemma all_ok_spec {A} (f : A → Res unit) l : all_ok f l = Ok tt ↔ Forall (λ x, f x = Ok tt) l.
Proof.
  induction l as [|x l IH]; simpl; [done|]. rewrite Forall_cons, <- IH.
  destruct (f x) as [[]|e]; simpl; naive_solver.
Qed.

Lemma max_or_0_le l n : (max_or_0 l ≤ n)%nat ↔ Forall (λ x, x ≤ n)%nat l.
Proof.
  induction l as [|x l IH]; simpl; [split; [done|lia]|]. rewrite Forall_cons, <- IH. lia.
Qed.

(** Within the bounds: every value of the document is shallow and its vectors short. *)
Definition document_within (limits : LimitsConfig) (doc : Document) : Prop :=
  (document_depth doc ≤ lm_max_document_depth limits)%nat ∧
  Forall (λ v, max_vector_dim v ≤ lm_max_vector_dimension limits)%nat doc.*2.

Lemma document_limits_spec limits doc :
  enforce_document_limits limits doc = Ok tt ↔ document_within limits doc.
Proof.
  unfold enforce_document_limits, document_within.
  assert (Hd : Forall (λ v, max_vector_dim v ≤ lm_max_vector_dimension limits)%nat doc.*2 ↔
    (document_vector_dim doc ≤ lm_max_vector_dimension limits)%nat)
    by (unfold document_vector_dim; rewrite max_or_0_le; symmetry; apply Forall_fmap).
  rewrite Hd. repeat case_if; bool_to_prop; split; intros Hx; try done; lia.
Qed.

(** A mutation passes exactly if every document it carries is within the bounds. *)
Lemma mutation_limits_spec limits m :
  enforce_mutation_limits limits m = Ok tt ↔ Forall (document_within limits) (mutation_documents m).
Proof.
  assert (Hs : ∀ d, enforce_document_limits limits d = Ok tt ↔ Forall (document_within limits) [d])
    by (intros d; rewrite Forall_singleton; apply document_limits_spec).
  destruct m; simpl; [apply Hs| |apply Hs|done|apply Hs].
  rewrite all_ok_spec. apply Forall_iff. intros d. apply document_limits_spec.
Qed.

Section query_limits.
Context `{Unicode}.

(** The full-text clauses of a filter. *)
Fixpoint text_clauses (f : Filter) : list string :=
  match f with
  | FAnd filters | FOr filters => mjoin (map text_clauses filters)
  | FNot filter => text_clauses filter
  | FContainsText _ query => [query]
  | FCompare _ _ _ | FContains _ _ | FExists _ => []
  end.

(** The bound is on the tokens of the search path, repetitions included. *)
Lemma token_count_tokenize query : full_text_token_count query = length (tokenize query).
Proof. unfold full_text_token_count, tokenize. by rewrite length_fmap. Qed.

Lemma filter_limits_spec limits f :
  enforce_filter_limits limits f = Ok tt ↔
  Forall (λ query, length (tokenize query) ≤ lm_max_full_text_query_tokens limits)%nat (text_clauses f).
Proof.
  assert (Hall : ∀ fs, Forall (λ f, enforce_filter_limits limits f = Ok tt ↔
      Forall (λ query, length (tokenize query) ≤ lm_max_full_text_query_tokens limits)%nat
        (text_clauses f)) fs →
    (fix enforce_all (fs : list Filter) : Res unit :=
       match fs with
       | [] => Ok tt
       | f :: fs' => let? _ := enforce_filter_limits limits f in enforce_all fs'
       end) fs = Ok tt ↔
    Forall (λ query, length (tokenize query) ≤ lm_max_full_text_query_tokens limits)%nat
      (mjoin (map text_clauses fs))).
  { induction 1 as [|f' fs Hf _ IH]; simpl; [done|]. rewrite Forall_app, <- Hf, <- IH.
    destruct (enforce_filter_limits limits f') as [[]|e]; simpl; naive_solver. }
  induction f using Filter_nested_ind; simpl; [by apply Hall|by apply Hall|done|done|done|done|].
  rewrite Forall_singleton, <- token_count_tokenize. case_if; bool_to_prop; (split; [|]); done || lia.
Qed.

(** What the bounds leave of a request. *)
Definition read_within (limits : LimitsConfig) (req : ReadRequest) : Prop :=
  let paged l o := over (lm_max_query_limit limits) l = false ∧ over (lm_max_query_limit limits) o = false in
  let texts f := ∀ f', f = Some f' →
    Forall (λ query, length (tokenize query) ≤ lm_max_full_text_query_tokens limits)%nat (text_clauses f') in
  match req with
  | RFind q => paged (fq_limit q) (fq_offset q) ∧ texts (fq_filter q)
  | RCount q => texts (cq_filter q)
  | RExists q => texts (eq_filter q)
  | RAggregate q => texts (aq_filter q)
  | RSearchPage req => paged (Some (sp_page_size req)) None ∧ texts (fq_filter (sp_find req))
  end.

Lemma opt_filter_spec limits f :
  enforce_opt_filter limits f = Ok tt ↔ ∀ f', f = Some f' →
    Forall (λ query, length (tokenize query) ≤ lm_max_full_text_query_tokens limits)%nat (text_clauses f').
Proof.
  destruct f as [f|]; simpl; [|done]. rewrite filter_limits_spec. split; [by intros Hf f' [= <-]|auto].
Qed.

Lemma pagination_spec limits l o :
  enforce_pagination_limits limits l o = Ok tt ↔
  over (lm_max_query_limit limits) l = false ∧ over (lm_max_query_limit limits) o = false.
Proof. unfold enforce_pagination_limits. by destruct (over _ l), (over _ o); naive_solver. Qed.

Lemma read_limits_spec limits req : enforce_read_limits limits req = Ok tt ↔ read_within limits req.
Proof.
  assert (Hbind : ∀ (a b : Res unit), (let? _ := a in b) = Ok tt ↔ a = Ok tt ∧ b = Ok tt)
    by (intros [[]|e] b; simpl; naive_solver).
  destruct req; simpl; rewrite ?Hbind, ?pagination_spec, ?opt_filter_spec; done.
Qed.
End query_limits.

(** A client may only lower the deadline of the server. *)
Lemma budget_spec max pq :
  (max ≠ 0 → ∃ t, budget max pq = Some t ∧ 0 < t <= max) ∧
  (∀ p, pq = Some p → p ≠ 0 → ∃ t, budget max pq = Some t ∧ t <= p) ∧
  (max = 0 → budget max pq = if decide (pq = Some 0) then None else pq).
Proof.
  unfold budget, effective_query_timeout_ms. split_and!.
  - intros Hm. destruct max as [|p], pq as [[|q]|]; try done;
      (case_if; bool_to_prop; [eexists; split; [done|lia]|lia]).
  - intros p -> Hp. destruct max as [|m], p as [|p]; try done;
      (case_if; bool_to_prop; [eexists; split; [done|lia]|lia]).
  - intros ->. destruct pq as [[|q]|]; case_decide; done.
Qed.
