(* ===== verification/Server.v ===== *)
(** * Request dispatch

    Models [crates/auradb-server/src/dispatch.rs]: the session of a connection, the handler
    of every opcode, and [respond], which turns errors into error frames.

    A handler runs on the shared state of the server and the session of its connection.
    The locks of the engine and of the cursor registry are taken per call, so two handlers
    run in several critical sections; what other connections and background tasks do
    in between is a function of the environment ([en_other]).  The planner statistics, the
    state of the cluster runtime, the clocks and the version text come from there too.

    The JSON of requests and replies is a parameter ([MessageJson]); serializing a reply
    does not fail.  A panic of the engine is the result [None] of [respond]. *)

From S2P Require Import Prelude BTree Text Value Core Eval Chars Index Vector TextSearch Analyzer AnalyzedSearch Snippet.
From S2P Require Import Query Planner Cursor Exec SearchPage Aggregate QueryTools Metrics Protocol RaftLog RaftNode RaftFile.
From S2P Require Import Cluster Config Message Mvcc Storage Txn Engine EngineRead Replication Transport Peer Runtime.
From S2P Require Import Snapshot Limits.

Local Open Scope N_scope.

(** ** State *)

Record Session := mkSession {
  sess_connection_id : N;
  sess_negotiated_version : N;
  sess_authenticated : bool;
  sess_transactions : gmap N Transaction;
  sess_staged_writes : gmap N nat;
  sess_cursor_ids : gset N;
}.

Definition session_new (connection_id : N) : Session := mkSession connection_id 0 false ∅ ∅ ∅.

Definition set_negotiated v (s : Session) :=
  mkSession (sess_connection_id s) v (sess_authenticated s) (sess_transactions s)
    (sess_staged_writes s) (sess_cursor_ids s).
Definition set_authenticated b (s : Session) :=
  mkSession (sess_connection_id s) (sess_negotiated_version s) b (sess_transactions s)
    (sess_staged_writes s) (sess_cursor_ids s).
Definition set_transactions x (s : Session) :=
  mkSession (sess_connection_id s) (sess_negotiated_version s) (sess_authenticated s) x
    (sess_staged_writes s) (sess_cursor_ids s).
Definition set_staged_writes x (s : Session) :=
  mkSession (sess_connection_id s) (sess_negotiated_version s) (sess_authenticated s)
    (sess_transactions s) x (sess_cursor_ids s).
Definition set_cursor_ids x (s : Session) :=
  mkSession (sess_connection_id s) (sess_negotiated_version s) (sess_authenticated s)
    (sess_transactions s) (sess_staged_writes s) x.

(** [ServerContext]: what connections share. *)
Record Server (L : Type) := mkServer {
  sv_engine : Inner L;
  sv_cursors : Registry (Query := FindQuery);
  sv_metrics : Metrics;
  sv_connection_counter : N;
}.
Arguments mkServer {L}.
Arguments sv_engine {L}.
Arguments sv_cursors {L}.
Arguments sv_metrics {L}.
Arguments sv_connection_counter {L}.

Definition set_engine {L} (i : Inner L) (sv : Server L) : Server L :=
  mkServer i (sv_cursors sv) (sv_metrics sv) (sv_connection_counter sv).
Definition set_cursors {L} reg (sv : Server L) : Server L :=
  mkServer (sv_engine sv) reg (sv_metrics sv) (sv_connection_counter sv).
Definition set_sv_metrics {L} x (sv : Server L) : Server L :=
  mkServer (sv_engine sv) (sv_cursors sv) x (sv_connection_counter sv).

(** The surroundings of a request. *)
Record RequestEnv (L : Type) := mkEnv {
  en_stats : string → option CollectionStats;
  en_cluster : option ClusterRuntime;
  en_now : N;
  en_elapsed_us : N;
  en_version : string;
  en_other : Server L → Server L;
}.
Arguments mkEnv {L}.
Arguments en_stats {L}.
Arguments en_cluster {L}.
Arguments en_now {L}.
Arguments en_elapsed_us {L}.
Arguments en_version {L}.
Arguments en_other {L}.

(** ** Replies *)

Inductive Reply :=
| RpHelloAck (a : HelloAck)
| RpAuthResult (a : AuthResult)
| RpHealth (h : HealthReport)
| RpOk
| RpSchema (s : CollectionSchema)
| RpSchemas (l : list CollectionSchema)
| RpPage (rows : list Row) (cursor_id : option N)
| RpCount (n : nat)
| RpExists (b : bool)
| RpAggregate (r : AggregateResult)
| RpRankedPage (rows : list Row) (next_cursor : option (list byte))
| RpPlan (p : ExplainPlan)
| RpEstimate (e : MigrationEstimate)
| RpTxnBegin (txn_id : N)
| RpMutation (r : MutationResult)
| RpError (p : ErrorPayload).

(** [serde_json] on the payloads.  [explain_of_json] gives the value of the [analyze] key
    and the query, if the object is one. *)
Class MessageJson := {
  hello_of_json : list byte → option HelloRequest;
  auth_of_json : list byte → option AuthRequest;
  schema_of_json : list byte → option CollectionSchema;
  name_of_json : list byte → option string;
  read_of_json : list byte → option ReadRequest;
  mutation_of_json : list byte → option Mutation;
  fetch_of_json : list byte → option CursorFetchRequest;
  close_of_json : list byte → option CursorCloseRequest;
  explain_of_json : list byte → option (bool * option FindQuery);
  reply_json : Reply → list byte;
}.

Section server.
Context `{Unicode, CharCase, NaturalLog, MapOrder, AnnSearch, ElapsedTime, HashOrder}
  `{JsonText, StorageCodec, QueryJson, RaftCodec, Argon2, MessageJson}.
Context {L : Type} `{ReplicatedLog L}.
Variable cfg : Config.
Implicit Types (env : RequestEnv L) (sv : Server L) (ss : Session) (f : Frame).

Abbreviation State := (Server L * Session)%type (only parsing).
Abbreviation Handler A := (SE (Server L * Session) Fault A) (only parsing).

(** ** Building blocks *)

Definition on_engine {A} (op : SE (Inner L) Fault A) : Handler A := λ '(sv, ss),
  let '(i, r) := op (sv_engine sv) in ((set_engine i sv, ss), r).

Definition read_engine {A} (read : Inner L → Res A) : Handler A := on_engine (λ i, lift (read i) i).

Definition on_cursors {A} (op : SE Registry Error A) : Handler A := λ '(sv, ss),
  match op (sv_cursors sv) with
  | (reg, Ok a) => ((set_cursors reg sv, ss), Ok a)
  | (reg, Err e) => ((set_cursors reg sv, ss), Err (Failed e))
  end.

Definition on_metrics (g : Metrics → Metrics) : Handler unit := λ '(sv, ss),
  ((set_sv_metrics (g (sv_metrics sv)) sv, ss), Ok tt).

Definition on_session (g : Session → Session) : Handler unit := λ '(sv, ss), ((sv, g ss), Ok tt).

Definition interfere env : Handler unit := λ '(sv, ss), ((en_other env sv, ss), Ok tt).

Definition fail {A} (e : Error) : Handler A := se_fail (Failed e).

Definition checked {A} (r : Res A) : Handler A :=
  match r with Ok a => se_ret a | Err e => fail e end.

(** [frame.decode_json()?]. *)
Definition decode {A} (of_json : list byte → option A) f : Handler A :=
  match of_json (fr_payload f) with Some a => se_ret a | None => fail EProtocol end.

(** [Frame::json(opcode, frame.request_id, txn_id, ..)]. *)
Definition answer (opcode : Opcode) f (txn_id : N) (r : Reply) : Frame :=
  frame_new opcode (fr_request_id f) txn_id (reply_json r).

Definition ok_ok f : Frame := answer OpOk f (fr_txn_id f) RpOk.

Definition session_txn (id : N) : Handler Transaction := λ '(sv, ss),
  match sess_transactions ss !! id with
  | Some t => ((sv, ss), Ok t)
  | None => ((sv, ss), Err (Failed ENotFound))
  end.

Definition gauge_cursors : Handler unit := λ '(sv, ss),
  ((set_sv_metrics (gauge_set (N.of_nat (size (rg_cursors (sv_cursors sv)))) M_active_cursors
                   (sv_metrics sv)) sv, ss), Ok tt).

Definition gauge_transactions : Handler unit := λ '(sv, ss),
  ((set_sv_metrics (gauge_set (N.of_nat (size (sess_transactions ss))) M_active_transactions
                   (sv_metrics sv)) sv, ss), Ok tt).

(** A read in the transaction the frame names, or outside one. *)
Definition read_in {A} f (in_txn : Transaction → SE (Inner L) Fault A) (plain : Inner L → Res A)
  : Handler A :=
  if fr_txn_id f =? 0 then read_engine plain
  else t <~ session_txn (fr_txn_id f) ;; on_engine (in_txn t).

(** ** Disconnection *)

(** [Session::cleanup]; the order in which the maps are drained does not matter. *)
Definition cleanup : State → State := λ '(sv, ss),
  let reg := foldr (λ id reg, (close_cursor id reg).1) (sv_cursors sv) (elements (sess_cursor_ids ss)) in
  let i := foldr (λ t i, rollback t i) (sv_engine sv) (map_to_list (sess_transactions ss)).*2 in
  let ss := set_cursor_ids ∅ (set_staged_writes ∅ (set_transactions ∅ ss)) in
  let x := gauge_set (N.of_nat (size (rg_cursors reg))) M_active_cursors (sv_metrics sv) in
  let x := gauge_set (N.of_nat (size (sess_transactions ss))) M_active_transactions x in
  (mkServer i reg x (sv_connection_counter sv), ss).

(** ** Authentication *)

Definition requires_auth (o : Opcode) : bool :=
  match o with OpHello | OpAuth | OpPing | OpHealth => false | _ => true end.

Definition verify_session_token (token : string) : bool :=
  match au_token_hash (cf_auth cfg) with
  | Some hash => match verify_token hash token with Ok b => b | Err _ => false end
  | None => false
  end.

Definition handle_hello env f : Handler Frame :=
  req <~ decode hello_of_json f ;;
  let negotiated := N.min (hr_protocol_version req) PROTOCOL_VERSION in
  _ <~ on_session (set_negotiated negotiated) ;;
  let auth_required := au_enabled (cf_auth cfg) in
  _ <~ (if negb auth_required then on_session (set_authenticated true)
        else match hr_auth_token req with
             | Some token => if verify_session_token token then on_session (set_authenticated true)
                             else on_metrics (incr M_auth_failures_total)
             | None => se_ret tt
             end) ;;
  authenticated <~ se_get (λ st, sess_authenticated st.2) ;;
  se_ret (answer OpHelloAck f 0
    (RpHelloAck (mkHelloAck negotiated (capabilities_current (en_version env) PROTOCOL_VERSION)
                   auth_required authenticated))).

Definition handle_auth f : Handler Frame :=
  req <~ decode auth_of_json f ;;
  if (negb (au_enabled (cf_auth cfg)) || verify_session_token (ar_token req))%bool then
    _ <~ on_session (set_authenticated true) ;;
    se_ret (answer OpAuthResult f 0 (RpAuthResult (mkAuthResult true)))
  else
    _ <~ on_metrics (incr M_auth_failures_total) ;;
    fail EInvalidCredentials.

(** ** Health *)

Definition health_report env sv : HealthReport :=
  let stats := engine_stats (sv_engine sv) in
  mkHealth Healthy true (en_version env) (es_collections stats)
    (Some (mkMvccHealth (es_active_transactions stats) (es_timed_out_transactions stats)
             (es_oldest_active_read_ts stats) (es_oldest_transaction_age_secs stats)
             (es_versions stats) (es_transaction_timeouts_total stats)
             (mv_transaction_timeout_secs (cf_mvcc cfg)) (mv_gc_enabled (cf_mvcc cfg))))
    (cluster_health (en_now env) (en_cluster env)).

Definition handle_health env f : Handler Frame :=
  report <~ se_get (λ st, health_report env st.1) ;;
  se_ret (answer OpHealthResult f 0 (RpHealth report)).

(** ** Schemas *)

Definition handle_schema_create f : Handler Frame :=
  schema <~ decode schema_of_json f ;;
  _ <~ checked (enforce_schema_limits (cf_limits cfg) schema) ;;
  _ <~ on_engine (create_schema schema) ;;
  se_ret (ok_ok f).

Definition handle_schema_drop f : Handler Frame :=
  name <~ decode name_of_json f ;;
  _ <~ on_engine (engine_drop_schema name) ;;
  se_ret (ok_ok f).

Definition handle_schema_get f : Handler Frame :=
  name <~ decode name_of_json f ;;
  schema <~ read_engine (λ i, match get_schema (in_storage i) name with
                              | Some s => Ok s
                              | None => Err ENotFound
                              end) ;;
  se_ret (answer OpOk f 0 (RpSchema schema)).

Definition handle_schema_list f : Handler Frame :=
  schemas <~ read_engine (λ i, Ok (list_schemas i)) ;;
  se_ret (answer OpOk f 0 (RpSchemas schemas)).

(** ** Queries *)

Definition handle_find env f (q : FindQuery) : Handler Frame :=
  planned <~ read_in f (λ t, txn_plan_find (en_stats env) t q) (engine_plan_find (en_stats env) q) ;;
  let ordered := pf_ordered planned in
  let first_end := Nat.min (length ordered) (cf_page_size cfg) in
  _ <~ interfere env ;;
  rows <~ read_in f (λ t, txn_materialize_page (en_stats env) t q (take first_end ordered) 0)
            (λ i, materialize (engine_source i (en_stats env)) q (take first_end ordered)) ;;
  let remaining := drop first_end ordered in
  cursor_id <~ (match remaining with
                | [] => se_ret None
                | _ :: _ =>
                    id <~ on_cursors (λ reg, let '(reg, id) := open_at q remaining first_end (en_now env) reg
                                             in (reg, Ok id)) ;;
                    _ <~ on_session (λ ss, set_cursor_ids ({[id]} ∪ sess_cursor_ids ss) ss) ;;
                    _ <~ gauge_cursors ;;
                    se_ret (Some id)
                end) ;;
  se_ret (answer OpQueryResult f (fr_txn_id f) (RpPage rows cursor_id)).

Definition handle_query env f (req : ReadRequest) : Handler Frame :=
  match req with
  | RFind q => handle_find env f q
  | RCount q =>
      n <~ read_in f (λ t, txn_count (en_stats env) t q) (engine_count (en_stats env) q) ;;
      se_ret (answer OpOk f (fr_txn_id f) (RpCount n))
  | RExists q =>
      b <~ read_in f (λ t, txn_exists (en_stats env) t q) (engine_exists (en_stats env) q) ;;
      se_ret (answer OpOk f (fr_txn_id f) (RpExists b))
  | RAggregate q =>
      r <~ read_in f (λ t, txn_aggregate (en_stats env) t q) (engine_aggregate (en_stats env) q) ;;
      se_ret (answer OpQueryResult f (fr_txn_id f) (RpAggregate r))
  | RSearchPage req =>
      p <~ read_in f
             (λ t, txn_search_page (en_stats env) t (sp_find req) (sp_page_size req) (sp_cursor req))
             (engine_search_page (en_stats env) (sp_find req) (sp_page_size req) (sp_cursor req)) ;;
      se_ret (answer OpQueryResult f (fr_txn_id f) (RpRankedPage p.1 p.2))
  end.

(** The counters of a query, by its shape. *)
Definition search_metric (q : FindQuery) : option Counter :=
  if bool_decide (is_Some (fq_hybrid q)) then Some M_search_hybrid_queries_total
  else if bool_decide (is_Some (fq_text_search q)) then Some M_search_text_queries_total
  else if bool_decide (is_Some (fq_vector q)) then Some M_search_vector_queries_total
  else None.

Definition incr_opt (m : option Counter) (x : Metrics) : Metrics :=
  match m with Some m => incr m x | None => x end.

Definition count_shape (req : ReadRequest) (x : Metrics) : Metrics :=
  match req with
  | RAggregate q =>
      let x := incr M_aggregation_queries_total x in
      if bool_decide (aq_facets q = []) then x else incr M_facets_queries_total x
  | RFind q =>
      let x := incr_opt (search_metric q) x in
      if (bool_decide (search_metric q = Some M_search_vector_queries_total)
          && bool_decide (is_Some (fq_vector_ann q)))%bool
      then incr M_ann_preview_queries_total x else x
  | RSearchPage req => incr_opt (search_metric (sp_find req)) x
  | RCount _ | RExists _ => x
  end.

(** Ranked retrievals are timed, whether they fail or not. *)
Definition is_timed (req : ReadRequest) : bool :=
  match req with
  | RFind q => bool_decide (is_Some (search_metric q))
  | RSearchPage _ => true
  | _ => false
  end.

Definition timed {A} env (op : Handler A) : Handler A := λ st,
  let '((sv, ss), r) := op st in
  ((set_sv_metrics (record_latency L_ranking_latency (en_elapsed_us env) (sv_metrics sv)) sv, ss), r).

Definition handle_query_op env f : Handler Frame :=
  _ <~ on_metrics (incr M_queries_total) ;;
  req <~ decode read_of_json f ;;
  _ <~ checked (enforce_read_limits (cf_limits cfg) req) ;;
  let req := apply_deadline (lm_max_query_time_ms (cf_limits cfg)) req in
  _ <~ on_metrics (count_shape req) ;;
  if is_timed req then timed env (handle_query env f req) else handle_query env f req.

(** ** Mutations *)

(** [engine.stage(txn, mutation)] on the transaction of the session, in place. *)
Definition stage_in (id : N) (m : Mutation) : Handler MutationResult := λ '(sv, ss),
  match sess_transactions ss !! id with
  | None => ((sv, ss), Err (Failed ENotFound))
  | Some t =>
      let '((i, t'), r) := stage m (sv_engine sv, t) in
      ((set_engine i sv, set_transactions (<[id := t']> (sess_transactions ss)) ss), r)
  end.

Definition handle_mutation f (m : Mutation) : Handler Frame :=
  _ <~ checked (enforce_mutation_limits (cf_limits cfg) m) ;;
  result <~
    (if fr_txn_id f =? 0 then on_engine (apply_mutation m)
     else
       let id := fr_txn_id f in
       let max := lm_max_transaction_write_set (cf_limits cfg) in
       staged <~ (λ '(sv, ss),
                    let n := default 0%nat (sess_staged_writes ss !! id) in
                    ((sv, set_staged_writes (<[id := n]> (sess_staged_writes ss)) ss), Ok n)) ;;
       let next := (staged + mutation_write_count m)%nat in
       if (max <? next)%nat then fail ELimitExceeded
       else
         r <~ stage_in id m ;;
         _ <~ on_session (λ ss, set_staged_writes (<[id := next]> (sess_staged_writes ss)) ss) ;;
         se_ret r) ;;
  se_ret (answer OpOk f (fr_txn_id f) (RpMutation result)).

Definition handle_mutate f : Handler Frame :=
  _ <~ on_metrics (incr M_mutations_total) ;;
  m <~ decode mutation_of_json f ;;
  handle_mutation f m.

(** ** Cursors *)

Definition handle_cursor_fetch env f : Handler Frame :=
  req <~ decode fetch_of_json f ;;
  _ <~ checked (enforce_pagination_limits (cf_limits cfg) (Some (cfr_limit req)) None) ;;
  let id := cfr_cursor_id req in
  _ <~ (if fr_txn_id f =? 0 then se_ret tt else session_txn (fr_txn_id f) >>> se_ret tt) ;;
  page <~ on_cursors (take_page id (cfr_limit req) (en_now env)) ;;
  let '(query, page_ids, start_rank, more) := page in
  _ <~ interfere env ;;
  rows <~ read_in f (λ t, txn_materialize_page (en_stats env) t query page_ids start_rank)
            (λ i, materialize_page (engine_source i (en_stats env)) query page_ids start_rank) ;;
  _ <~ (if more then se_ret tt
        else
          _ <~ on_cursors (λ reg, ((close_cursor id reg).1, Ok tt)) ;;
          on_session (λ ss, set_cursor_ids (sess_cursor_ids ss ∖ {[id]}) ss)) ;;
  _ <~ gauge_cursors ;;
  se_ret (answer OpQueryResult f (fr_txn_id f) (RpPage rows (if more then Some id else None))).

Definition handle_cursor_close f : Handler Frame :=
  req <~ decode close_of_json f ;;
  let id := ccr_cursor_id req in
  _ <~ on_cursors (λ reg, ((close_cursor id reg).1, Ok tt)) ;;
  _ <~ on_session (λ ss, set_cursor_ids (sess_cursor_ids ss ∖ {[id]}) ss) ;;
  _ <~ gauge_cursors ;;
  se_ret (ok_ok f).

(** ** Plans and estimates *)

Definition handle_explain env f : Handler Frame :=
  value <~ decode explain_of_json f ;;
  let '(analyze, query) := value in
  q <~ checked (match query with Some q => Ok q | None => Err EInvalidRequest end) ;;
  plan <~ read_in f
            (λ t, if analyze then txn_explain_analyze (en_stats env) t q else txn_explain (en_stats env) t q)
            (if analyze then engine_explain_analyze (en_stats env) q else engine_explain (en_stats env) q) ;;
  se_ret (answer OpOk f 0 (RpPlan plan)).

Definition handle_migration_estimate env f : Handler Frame :=
  target <~ decode schema_of_json f ;;
  e <~ read_engine (migration_estimate (en_stats env) target) ;;
  se_ret (answer OpOk f 0 (RpEstimate e)).

(** ** Transactions *)

Definition handle_txn_begin f : Handler Frame :=
  c <~ se_get (λ st, sess_connection_id st.2) ;;
  t <~ on_engine (begin_with_connection (Some c)) ;;
  let id := tx_id t in
  _ <~ on_session (λ ss, set_transactions (<[id := t]> (sess_transactions ss)) ss) ;;
  _ <~ gauge_transactions ;;
  se_ret (answer OpOk f id (RpTxnBegin id)).

(** [session.transactions.remove(..)] and the counter of staged writes with it. *)
Definition take_txn (id : N) : Handler Transaction :=
  t <~ session_txn id ;;
  _ <~ on_session (λ ss, set_staged_writes (delete id (sess_staged_writes ss))
                           (set_transactions (delete id (sess_transactions ss)) ss)) ;;
  se_ret t.

Definition handle_txn_commit f : Handler Frame :=
  t <~ take_txn (fr_txn_id f) ;;
  _ <~ on_engine (commit t) ;;
  _ <~ gauge_transactions ;;
  se_ret (ok_ok f).

Definition handle_txn_rollback f : Handler Frame :=
  t <~ take_txn (fr_txn_id f) ;;
  _ <~ on_engine (se_modify (rollback t)) ;;
  _ <~ gauge_transactions ;;
  se_ret (ok_ok f).

(** ** Dispatch *)

Definition handle_op env f : Handler Frame :=
  match fr_opcode f with
  | OpHello => handle_hello env f
  | OpAuth => handle_auth f
  | OpPing => se_ret (frame_new OpPong (fr_request_id f) (fr_txn_id f) (fr_payload f))
  | OpHealth => handle_health env f
  | OpSchemaCreate => handle_schema_create f
  | OpSchemaDrop => handle_schema_drop f
  | OpSchemaGet => handle_schema_get f
  | OpSchemaList => handle_schema_list f
  | OpQuery => handle_query_op env f
  | OpMutate => handle_mutate f
  | OpCursorFetch => handle_cursor_fetch env f
  | OpCursorClose => handle_cursor_close f
  | OpExplain => handle_explain env f
  | OpMigrationEstimate => handle_migration_estimate env f
  | OpTxnBegin => handle_txn_begin f
  | OpTxnCommit => handle_txn_commit f
  | OpTxnRollback => handle_txn_rollback f
  | OpHelloAck | OpPong | OpHealthResult | OpAuthResult | OpOk | OpQueryResult | OpError => fail EProtocol
  end.

Definition handle env f : Handler Frame := λ st,
  if (au_enabled (cf_auth cfg) && negb (sess_authenticated st.2) && requires_auth (fr_opcode f))%bool
  then (_ <~ on_metrics (incr M_auth_failures_total) ;; fail EUnauthenticated) st
  else handle_op env f st.

(** The counters of a failed request. *)
Definition count_error (e : Error) (x : Metrics) : Metrics :=
  let x := incr M_errors_total x in
  match e with
  | EConflict => incr M_mvcc_conflicts_total x
  | ETransactionTimeout => incr M_mvcc_transaction_timeouts_total x
  | EQueryTimeout => incr M_query_timeouts_total x
  | _ => x
  end.

Definition error_frame env (e : Error) f : Frame :=
  let payload := payload_from_error e in
  let payload := if bool_decide (e = ENotLeader)
                 then with_not_leader (not_leader_details (en_cluster env)) payload else payload in
  answer OpError f (fr_txn_id f) (RpError payload).

Definition respond env f : State → State * option Frame := λ '(sv, ss),
  let sv := set_sv_metrics (incr M_requests_total (sv_metrics sv)) sv in
  match handle env f (sv, ss) with
  | (st, Ok response) => (st, Some response)
  | ((sv, ss), Err (Failed e)) =>
      ((set_sv_metrics (count_error e (sv_metrics sv)) sv, ss), Some (error_frame env e f))
  | (st, Err Panicked) => (st, None)
  end.

(** ** Background tasks *)

Definition reaper_tick (now : N) sv : Server L :=
  let '(reg, _) := reap_cursors (cf_cursor_timeout_secs cfg) now (sv_cursors sv) in
  set_sv_metrics (gauge_set (N.of_nat (size (rg_cursors reg))) M_active_cursors (sv_metrics sv))
    (set_cursors reg sv).

Definition refresh_mvcc_metrics sv : Server L :=
  let stats := engine_stats (sv_engine sv) in
  set_sv_metrics
    (set_all [(M_mvcc_active_transactions, N.of_nat (es_active_transactions stats));
              (M_mvcc_oldest_snapshot_age_seconds, default 0 (es_oldest_transaction_age_secs stats));
              (M_mvcc_retained_versions, N.of_nat (es_versions stats));
              (M_mvcc_transaction_timeouts_total, es_transaction_timeouts_total stats)]
       (sv_metrics sv)) sv.

Definition gc_tick sv : Server L :=
  let '(i, report) := engine_gc (sv_engine sv) in
  let x := incr M_mvcc_gc_runs_total (sv_metrics sv) in
  let x := add (N.of_nat (versions_reclaimed report)) M_mvcc_gc_reclaimed_versions_total x in
  let x := add (bytes_reclaimed report) M_mvcc_gc_reclaimed_bytes_total x in
  refresh_mvcc_metrics (set_sv_metrics x (set_engine i sv)).

Definition txn_reaper_tick sv : Server L :=
  refresh_mvcc_metrics (set_engine (reap_transactions (sv_engine sv)).1 sv).
End server.
