(* ===== verification/ServerSpec.v ===== *)
(** * What the server promises its clients

    Theorems about [Server]: authentication fails closed, the write set of a transaction
    is bounded as far as it is counted, requests are accounted for in the metrics, a
    connection owns its transactions and gives them back, and the requests of one
    connection do not disturb the snapshot of another. *)

From S2P Require Import Prelude BTree Text Value Core Eval Chars Index Vector TextSearch Analyzer AnalyzedSearch Snippet.
From S2P Require Import Query Planner Cursor Exec SearchPage Aggregate QueryTools Metrics Protocol RaftLog RaftNode RaftFile.
From S2P Require Import Cluster Config Message Mvcc Storage Txn Engine EngineSpec EngineRead Replication Transport Peer.
From S2P Require Import Runtime Snapshot Limits Server.

Local Open Scope N_scope.

Section authentication.
Context `{Unicode, CharCase, NaturalLog, MapOrder, AnnSearch, ElapsedTime, HashOrder}
  `{JsonText, StorageCodec, QueryJson, RaftCodec, Argon2, MessageJson}.
Context {L : Type} `{ReplicatedLog L}.
Variable cfg : Config.
Implicit Types (env : RequestEnv L) (sv : Server L) (ss : Session) (f : Frame).

(** The frame carries a token that the configured hash verifies. *)
Definition presents f : bool :=
  match fr_opcode f with
  | OpHello => match hello_of_json (fr_payload f) ≫= hr_auth_token with
               | Some token => verify_session_token cfg token
               | None => false
               end
  | OpAuth => match auth_of_json (fr_payload f) with
              | Some req => verify_session_token cfg (ar_token req)
              | None => false
              end
  | _ => false
  end.

(** A request as an observer of the server sees it. *)
Record Logged := mkLogged {
  lg_env : RequestEnv L;
  lg_frame : Frame;
  lg_before : Server L;
  lg_after : Server L;
  lg_reply : option Frame;
}.

(** The life of a connection: its requests in order, and whatever else happens to the
    server in between. *)
Inductive served : list Logged → Server L * Session → Server L * Session → Prop :=
| served_nil st : served [] st st
| served_other log sv sv' ss st' : served log (sv', ss) st' → served log (sv, ss) st'
| served_request log env f sv ss sv1 ss1 reply st' :
    respond cfg env f (sv, ss) = ((sv1, ss1), reply) → served log (sv1, ss1) st' →
    served (mkLogged env f sv sv1 reply :: log) (sv, ss) st'.

Lemma served_step log env f st st' :
  served log (respond cfg env f st).1 st' →
  served (mkLogged env f st.1 (respond cfg env f st).1.1 (respond cfg env f st).2 :: log) st st'.
Proof.
  destruct st as [sv ss]. destruct (respond cfg env f (sv, ss)) as [[sv1 ss1] reply] eqn:E.
  by apply served_request.
Qed.

(** Locked out: not authenticated and without transactions, staged writes or cursors. *)
Definition locked ss : Prop :=
  sess_authenticated ss = false ∧ sess_transactions ss = ∅ ∧ sess_staged_writes ss = ∅ ∧
  sess_cursor_ids ss = ∅.

(** The request did nothing but count itself, and a gated one was refused. *)
Definition refused (e : Logged) : Prop :=
  sv_engine (lg_after e) = sv_engine (lg_before e) ∧
  sv_cursors (lg_after e) = sv_cursors (lg_before e) ∧
  ∃ reply, lg_reply e = Some reply ∧
    (requires_auth (fr_opcode (lg_frame e)) = true →
     reply = error_frame (lg_env e) EUnauthenticated (lg_frame e)).

Lemma unauthenticated_request env f sv ss sv1 ss1 reply :
  au_enabled (cf_auth cfg) = true → locked ss → presents f = false →
  respond cfg env f (sv, ss) = ((sv1, ss1), reply) →
  locked ss1 ∧ refused (mkLogged env f sv sv1 reply).
Proof.
  intros Hen Hl Hp Hr. pose proof Hl as (Ha & Ht & Hw & Hc). unfold respond, handle in Hr.
  rewrite Hen in Hr. simpl in Hr. rewrite Ha in Hr. cbn [negb andb] in Hr.
  destruct (requires_auth (fr_opcode f)) eqn:Hq.
  - simpl in Hr. injection Hr as <- <- <-. split; [done|]. split_and!; [done|done|by eexists].
  - assert (Hop : fr_opcode f = OpHello ∨ fr_opcode f = OpAuth ∨ fr_opcode f = OpPing ∨
      fr_opcode f = OpHealth) by (destruct (fr_opcode f); auto; done).
    unfold refused. simpl. rewrite Hq. unfold handle_op in Hr. unfold presents in Hp.
    destruct Hop as [Eo|[Eo|[Eo|Eo]]]; rewrite Eo in Hr, Hp.
    + unfold handle_hello, se_bind, decode in Hr.
      destruct (hello_of_json (fr_payload f)) as [req|]; simpl in Hr, Hp.
      * rewrite Hen in Hr. simpl in Hr. destruct (hr_auth_token req) as [token|]; simpl in Hr, Hp.
        -- rewrite Hp in Hr. simpl in Hr. injection Hr as <- <- <-. split_and!; try done. by eexists.
        -- injection Hr as <- <- <-. split_and!; try done. by eexists.
      * injection Hr as <- <- <-. split_and!; try done. by eexists.
    + unfold handle_auth, se_bind, decode in Hr.
      destruct (auth_of_json (fr_payload f)) as [req|]; simpl in Hr, Hp.
      * rewrite Hen, Hp in Hr. simpl in Hr. injection Hr as <- <- <-. split_and!; try done. by eexists.
      * injection Hr as <- <- <-. split_and!; try done. by eexists.
    + simpl in Hr. injection Hr as <- <- <-. split_and!; try done. by eexists.
    + simpl in Hr. injection Hr as <- <- <-. split_and!; try done. by eexists.
Qed.

Lemma unauthenticated_run log st st' :
  au_enabled (cf_auth cfg) = true → served log st st' → locked st.2 →
  Forall (λ e, presents (lg_frame e) = false) log → locked st'.2 ∧ Forall refused log.
Proof.
  intros Hen Hs. induction Hs as [st|log sv sv' ss st' _ IH|log env f sv ss sv1 ss1 reply st' Hr _ IH];
    intros Hl Hp.
  - done.
  - by apply IH.
  - apply Forall_cons in Hp as [Hp Hps]. simpl in Hp.
    destruct (unauthenticated_request _ _ _ _ _ _ _ Hen Hl Hp Hr) as [Hl1 He].
    destruct (IH Hl1 Hps) as [Hl' Hf]. split; [done|]. by constructor.
Qed.

(** C18: an exposed server is closed to strangers.  A validated configuration that binds a
    public interface, without the explicit override, has authentication on; and a
    connection that never presents a token the configured hash verifies stays
    unauthenticated for life, whatever it sends and whatever happens around it: it gets
    no transaction and no cursor, none of its requests changes the engine or the cursors
    of others, and every gated request is answered with an [unauthenticated] error. *)
Theorem exposed_server_requires_token exists_file log sv c st' :
  validate exists_file cfg = Ok tt → is_public_bind cfg = true → cf_allow_insecure_bind cfg = false →
  served log (sv, session_new c) st' →
  Forall (λ e, presents (lg_frame e) = false) log →
  sess_authenticated st'.2 = false ∧ sess_transactions st'.2 = ∅ ∧ sess_cursor_ids st'.2 = ∅ ∧
  Forall refused log.
Proof.
  intros Hv Hb Hi Hs Hp. apply validate_inner_spec in Hv.
  assert (Hen : au_enabled (cf_auth cfg) = true).
  { destruct (co_bind _ _ _ Hv Hb) as [He|He]; [done|congruence]. }
  destruct (unauthenticated_run _ _ _ Hen Hs) as [(Ha & Ht & _ & Hc) Hf]; [by split_and!|done|].
  by split_and!.
Qed.
End authentication.

(** ** Who owns a transaction *)

Section owners.
Context `{Unicode, JsonText, StorageCodec}.
Context {L : Type} `{ReplicatedLog L}.
Implicit Types (i : Inner L).

(** No transaction of connection [c] appears in the registry. *)
Definition quiet (c : N) i i' : Prop :=
  bt_wf (in_txns i) → bt_wf (in_txns i') ∧
  ∀ id e, bt_get id (in_txns i') = Some e → te_connection_id e = Some c →
    ∃ e0, bt_get id (in_txns i) = Some e0 ∧ te_connection_id e0 = Some c.

#[export] Instance quiet_refl c : Reflexive (quiet c).
Proof. intros i Hwf. split; [done|]. intros id e He Hc. by exists e. Qed.
#[export] Instance quiet_trans c : Transitive (quiet c).
Proof.
  intros i1 i2 i3 Ha Hb Hwf. destruct (Ha Hwf) as [Hwf2 Ha2]. destruct (Hb Hwf2) as [Hwf3 Hb3].
  split; [done|]. intros id e He Hc. destruct (Hb3 _ _ He Hc) as (e0 & He0 & Hc0). by eapply Ha2.
Qed.

Lemma quiet_same c i i' : in_txns i' = in_txns i → quiet c i i'.
Proof. unfold quiet. intros ->. apply quiet_refl. Qed.

Lemma touch_txn_quiet c id i : quiet c i (touch_txn id i).1.
Proof.
  unfold touch_txn. destruct (bt_get id (in_txns i)) as [e|] eqn:E; [|reflexivity].
  destruct (te_state e); [|reflexivity]. intros Hwf. simpl. split; [by apply bt_wf_insert|].
  intros id' e'. rewrite bt_get_insert. case_decide as Hd; [|eauto]. intros [= <-]. simpl. subst.
  intros Hc. by exists e.
Qed.

Lemma in_view_quiet `{CharCase, NaturalLog, MapOrder, AnnSearch, ElapsedTime, HashOrder} {A} c stats t coll
    (read : DataSource → Res A) i :
  quiet c i (in_view stats t coll read i).1.
Proof.
  unfold in_view. apply se_bind_rel; [apply _|apply touch_txn_quiet|intros a i' _].
  apply quiet_same. by destruct (res_bind _ _).
Qed.

Lemma lift_quiet {A} c (r : Inner L → Res A) i : quiet c i (lift (r i) i).1.
Proof. apply quiet_same. by destruct (r i). Qed.

Lemma apply_mutation_quiet c m i : quiet c i (apply_mutation m i).1.
Proof. apply quiet_same. apply (apply_mutation_keeps 0). Qed.

Lemma create_schema_quiet c s i : quiet c i (create_schema s i).1.
Proof. apply quiet_same. apply (create_schema_keeps 0). Qed.

Lemma drop_schema_quiet c name i : quiet c i (engine_drop_schema name i).1.
Proof. apply quiet_same. unfold engine_drop_schema. by destruct (drop_schema _ _) as [s [|]]. Qed.

Lemma stage_quiet c m i t :
  quiet c i (stage m (i, t)).1.1 ∧ tx_id (stage m (i, t)).1.2 = tx_id t.
Proof.
  unfold stage, se_bind. simpl. pose proof (touch_txn_quiet c (tx_id t) i) as Hq.
  destruct (touch_txn (tx_id t) i) as [i1 [[]|e]]; simpl in *; [|done].
  destruct (stage_mutation_keeps 0 m (i1, t)) as ((_ & Ht) & Hid & _). split; [|done].
  etrans; [done|]. by apply quiet_same.
Qed.

Lemma begin_quiet c c' i : c ≠ c' → quiet c i (begin_with_connection (Some c') i).1.
Proof.
  intros Hne Hwf. simpl. split; [by apply bt_wf_insert|]. intros id e. rewrite bt_get_insert.
  case_decide; [|eauto]. intros [= <-]. simpl. congruence.
Qed.

Lemma unregister_quiet c id i : quiet c i (unregister id i).
Proof.
  intros Hwf. simpl. split; [by apply bt_wf_remove|]. intros id' e He Hc. exists e. split; [|done].
  destruct (decide (id = id')) as [->|Hne].
  - by rewrite bt_get_remove_eq in He.
  - by rewrite bt_get_remove_ne in He.
Qed.

Lemma commit_quiet c t i : quiet c i (commit t i).1.
Proof.
  assert (Hq : quiet c i (commit_transaction t i).1)
    by (apply quiet_same; apply (commit_transaction_keeps 0)).
  destruct (commit_cases t i) as [->|[->| ->]]; [apply unregister_quiet| |done].
  etrans; [done|apply unregister_quiet].
Qed.

(** After a commit that returns, the transaction is no longer registered. *)
Lemma commit_unregisters t i i' r :
  bt_wf (in_txns i) → commit t i = (i', r) → r ≠ Err Panicked → bt_get (tx_id t) (in_txns i') = None.
Proof.
  intros Hwf. unfold commit.
  assert (Hk : in_txns (commit_transaction t i).1 = in_txns i) by apply (commit_transaction_keeps 0).
  destruct (commit_transaction t i) as [i1 r1]. simpl in Hk.
  destruct (te_state <$> _) as [[]|]; destruct r1 as [[]|[e|]]; intros [= <- <-] Hne;
    try done; simpl; rewrite ?Hk; by rewrite bt_get_remove_eq.
Qed.
End owners.

(** ** Walking through a handler

    A relation between the states before and after a request follows from what it says of
    the building blocks.  Requests that open or close transactions are looked at
    separately. *)

(** A change of the metrics that leaves the counts of requests and errors alone. *)
Definition harmless (g : Metrics → Metrics) : Prop :=
  ∀ x, mx_value (g x) M_requests_total = mx_value x M_requests_total ∧
       mx_value (g x) M_errors_total = mx_value x M_errors_total.

Lemma harmless_metric h m :
  m ≠ M_requests_total → m ≠ M_errors_total → harmless (on_metric h m).
Proof. intros Hr He x. rewrite !on_metric_value. by rewrite !decide_False. Qed.

Lemma harmless_shape req : harmless (count_shape req).
Proof.
  assert (Hopt : ∀ q, harmless (incr_opt (search_metric q))).
  { intros q x. unfold search_metric. repeat case_if; [by apply harmless_metric..|done]. }
  destruct req as [q|q|q|q|p]; intros x; simpl; [|done|done| |apply Hopt].
  - destruct (Hopt q x) as [<- <-]. case_if; [by apply harmless_metric|done].
  - case_if; [by apply harmless_metric|]. unfold incr. by rewrite !on_metric_value.
Qed.

Section walk.
Context `{Unicode, CharCase, NaturalLog, MapOrder, AnnSearch, ElapsedTime, HashOrder}
  `{JsonText, StorageCodec, QueryJson, RaftCodec, Argon2, MessageJson}.
Context {L : Type} `{ReplicatedLog L}.
Variable cfg : Config.
Context (env : RequestEnv L) (f : Frame).
Context (R : Server L * Session → Server L * Session → Prop) `{!Reflexive R, !Transitive R}.
Implicit Types (sv : Server L) (ss : Session) (st : Server L * Session).

Hypothesis R_metrics : ∀ sv ss g, harmless g → R (sv, ss) (set_sv_metrics (g (sv_metrics sv)) sv, ss).
Hypothesis R_cursors : ∀ sv ss reg, R (sv, ss) (set_cursors reg sv, ss).
Hypothesis R_negotiated : ∀ sv ss v, R (sv, ss) (sv, set_negotiated v ss).
Hypothesis R_authenticated : ∀ sv ss b, R (sv, ss) (sv, set_authenticated b ss).
Hypothesis R_cursor_ids : ∀ sv ss ids, R (sv, ss) (sv, set_cursor_ids ids ss).
Hypothesis R_touch : ∀ sv ss id, R (sv, ss) (set_engine (touch_txn id (sv_engine sv)).1 sv, ss).
Hypothesis R_schema : ∀ sv ss s, R (sv, ss) (set_engine (create_schema s (sv_engine sv)).1 sv, ss).
Hypothesis R_other : ∀ sv ss, R (sv, ss) (en_other env sv, ss).
Hypothesis R_drop : fr_opcode f = OpSchemaDrop → ∀ sv ss name,
  R (sv, ss) (set_engine (engine_drop_schema name (sv_engine sv)).1 sv, ss).
Hypothesis R_mutation : fr_opcode f = OpMutate → ∀ m st, R st (handle_mutation cfg f m st).1.

Lemma rel_engine {A} (op : SE (Inner L) Fault A) st :
  R st (set_engine (op (sv_engine st.1)).1 st.1, st.2) → R st (on_engine op st).1.
Proof. destruct st as [sv ss]. simpl. by destruct (op (sv_engine sv)). Qed.

Lemma rel_read {A} (read : Inner L → Res A) st : R st (read_engine read st).1.
Proof.
  apply rel_engine. destruct st as [[i reg x n] ss]. simpl. destruct (read i); reflexivity.
Qed.

Lemma rel_in_view {A} stats t coll (read : DataSource → Res A) st :
  R st (on_engine (in_view stats t coll read) st).1.
Proof.
  apply rel_engine. destruct st as [sv ss]. simpl.
  replace (in_view stats t coll read (sv_engine sv)).1 with (touch_txn (tx_id t) (sv_engine sv)).1;
    [apply R_touch|].
  unfold in_view, se_bind. destruct (touch_txn (tx_id t) (sv_engine sv)) as [i [[]|e]]; [|done].
  simpl. by destruct (res_bind _ _).
Qed.

Lemma rel_cursors {A} (op : SE Registry Error A) st : R st (on_cursors op st).1.
Proof. destruct st as [sv ss]. simpl. destruct (op _) as [reg [a|e]]; apply R_cursors. Qed.

Lemma rel_session g st :
  (∀ ss, (∃ v, g ss = set_negotiated v ss) ∨ (∃ b, g ss = set_authenticated b ss) ∨
         (∃ ids, g ss = set_cursor_ids ids ss)) → R st (on_session g st).1.
Proof.
  intros Hg. destruct st as [sv ss]. simpl.
  destruct (Hg ss) as [[? ->]|[[? ->]|[? ->]]]; [apply R_negotiated|apply R_authenticated|apply R_cursor_ids].
Qed.

Lemma rel_metrics g st : harmless g → R st (on_metrics g st).1.
Proof. destruct st. apply R_metrics. Qed.

Lemma rel_gauge_cursors st : R st (gauge_cursors st).1.
Proof. destruct st as [sv ss]. simpl. by apply R_metrics, harmless_metric. Qed.

Lemma rel_session_txn id st : R st (session_txn id st).1.
Proof. destruct st as [sv ss]. simpl. destruct (_ !! _); reflexivity. Qed.

Lemma rel_read_in {A} (in_txn : Transaction → SE (Inner L) Fault A) plain st :
  (∀ t st, R st (on_engine (in_txn t) st).1) → R st (read_in f in_txn plain st).1.
Proof.
  intros Hq. unfold read_in. case_if; [apply rel_read|].
  apply se_bind_rel; [apply _|apply rel_session_txn|intros t st' _; apply Hq].
Qed.

Lemma rel_timed {A} (op : SE (Server L * Session) Fault A) st :
  R st (op st).1 → R st (timed env op st).1.
Proof.
  unfold timed. destruct (op st) as [[sv ss] r]. intros Hc. etrans; [exact Hc|]. by apply R_metrics.
Qed.

Ltac rel_leaf :=
  first
    [ reflexivity
    | apply rel_session; by eauto 6
    | apply rel_cursors | apply rel_read | apply rel_session_txn
    | apply rel_read_in; intros; repeat case_if; apply rel_in_view
    | apply rel_engine; match goal with s : (Server L * Session)%type |- _ => destruct s; apply R_schema end
    | apply rel_timed | apply rel_gauge_cursors
    | apply rel_metrics; first [apply harmless_shape | by apply harmless_metric]
    | match goal with |- R ?s (?m ?s).1 => destruct s; simpl; first [reflexivity | apply R_other] end ].

Ltac rel_walk :=
  repeat first
    [ rel_leaf
    | apply se_bind_rel; [apply _| |intros]
    | progress (unfold decode, checked)
    | progress case_match
    | progress case_if ].

Lemma rel_query req st : R st (handle_query cfg env f req st).1.
Proof. destruct req; unfold handle_query, handle_find; rel_walk. Qed.

Lemma rel_handle_op st :
  fr_opcode f ≠ OpTxnBegin → fr_opcode f ≠ OpTxnCommit → fr_opcode f ≠ OpTxnRollback →
  R st (handle_op cfg env f st).1.
Proof.
  intros Hb Hc Hr. unfold handle_op. destruct (fr_opcode f) eqn:Eo; try done; try reflexivity.
  - unfold handle_hello. rel_walk.
  - unfold handle_auth. rel_walk.
  - unfold handle_schema_create. rel_walk.
  - unfold handle_schema_drop. apply se_bind_rel; [apply _|rel_walk|intros name [sv ss] _].
    apply se_bind_rel; [apply _| |intros; reflexivity]. apply rel_engine, R_drop; done.
  - unfold handle_schema_get. rel_walk.
  - unfold handle_schema_list. rel_walk.
  - unfold handle_query_op. rel_walk; apply rel_query.
  - unfold handle_mutate. rel_walk. by apply R_mutation.
  - unfold handle_cursor_fetch. rel_walk.
  - unfold handle_cursor_close. rel_walk.
  - unfold handle_explain. rel_walk.
  - unfold handle_migration_estimate. rel_walk.
Qed.
End walk.

(** ** A request keeps to its own transactions *)

Section ownership.
Context `{Unicode, CharCase, NaturalLog, MapOrder, AnnSearch, ElapsedTime, HashOrder}
  `{JsonText, StorageCodec, QueryJson, RaftCodec, Argon2, MessageJson}.
Context {L : Type} `{ReplicatedLog L}.
Variable cfg : Config.
Implicit Types (env : RequestEnv L) (sv : Server L) (ss : Session) (f : Frame)
  (st : Server L * Session).

(** Nothing of connection [c] is registered, and the session keeps its transactions. *)
Definition calm (c : N) st st' : Prop :=
  quiet c (sv_engine st.1) (sv_engine st'.1) ∧
  sess_connection_id st'.2 = sess_connection_id st.2 ∧
  ∀ id, tx_id <$> sess_transactions st'.2 !! id = tx_id <$> sess_transactions st.2 !! id.

#[local] Instance calm_refl c : Reflexive (calm c).
Proof. intros st. split_and!; [reflexivity|done|done]. Qed.
#[local] Instance calm_trans c : Transitive (calm c).
Proof.
  intros s1 s2 s3 (Qa & Ca & Ta) (Qb & Cb & Tb). split_and!; [by etrans|congruence|].
  intros id. by rewrite Tb, Ta.
Qed.

Lemma calm_parts c st st' :
  in_txns (sv_engine st'.1) = in_txns (sv_engine st.1) →
  sess_connection_id st'.2 = sess_connection_id st.2 →
  sess_transactions st'.2 = sess_transactions st.2 → calm c st st'.
Proof. intros He Hc Ht. split_and!; [by apply quiet_same|done|by rewrite Ht]. Qed.

Lemma calm_stage_in c id m st : calm c st (stage_in id m st).1.
Proof.
  destruct st as [sv ss]. unfold stage_in. destruct (sess_transactions ss !! id) as [t|] eqn:E; [|reflexivity].
  destruct (stage_quiet c m (sv_engine sv) t) as [Hq Hid].
  destruct (stage m (sv_engine sv, t)) as [[i t'] r]. simpl in *. split_and!; [done|done|].
  intros id'. simpl. destruct (decide (id = id')) as [<-|Hne].
  - rewrite lookup_insert_eq, E. simpl. by rewrite Hid.
  - by rewrite lookup_insert_ne.
Qed.

Lemma calm_mutation c f m st : calm c st (handle_mutation cfg f m st).1.
Proof.
  unfold handle_mutation. apply se_bind_rel; [apply _| |intros _ s1 _].
  { unfold checked. by destruct (enforce_mutation_limits _ m). }
  apply se_bind_rel; [apply _| |by intros]. case_if.
  - destruct s1 as [sv ss]. unfold on_engine.
    pose proof (apply_mutation_quiet c m (sv_engine sv)) as Hq.
    destruct (apply_mutation m (sv_engine sv)) as [i r]. split_and!; [exact Hq|done|done].
  - apply se_bind_rel; [apply _| |intros n s2 _]; [destruct s1; by apply calm_parts|].
    case_if; [done|]. apply se_bind_rel; [apply _|apply calm_stage_in|intros r s3 _].
    apply se_bind_rel; [apply _| |by intros]. destruct s3. by apply calm_parts.
Qed.

(** All requests but the three that open and close transactions. *)
Lemma calm_handle_op c env f st :
  (∀ sv, quiet c (sv_engine sv) (sv_engine (en_other env sv))) →
  fr_opcode f ≠ OpTxnBegin → fr_opcode f ≠ OpTxnCommit → fr_opcode f ≠ OpTxnRollback →
  calm c st (handle_op cfg env f st).1.
Proof.
  intros Hother. apply rel_handle_op; try apply _; intros; try by apply calm_parts.
  - split_and!; [apply touch_txn_quiet|done|done].
  - split_and!; [apply create_schema_quiet|done|done].
  - split_and!; [apply Hother|done|done].
  - split_and!; [apply drop_schema_quiet|done|done].
  - apply calm_mutation.
Qed.

(** Every registered transaction of the connection is one that its session holds. *)
Record owned st : Prop := {
  ow_wf : bt_wf (in_txns (sv_engine st.1));
  ow_keys : ∀ id t, sess_transactions st.2 !! id = Some t → tx_id t = id;
  ow_held : ∀ id e, bt_get id (in_txns (sv_engine st.1)) = Some e →
    te_connection_id e = Some (sess_connection_id st.2) → is_Some (sess_transactions st.2 !! id);
}.

Lemma owned_calm st st' : calm (sess_connection_id st.2) st st' → owned st → owned st'.
Proof.
  intros (Hq & Hc & Ht) [Hwf Hk Hh]. destruct (Hq Hwf) as [Hwf' Hq']. split; [done| |].
  - intros id t Hi. specialize (Ht id). rewrite Hi in Ht.
    destruct (sess_transactions st.2 !! id) as [t0|] eqn:E; [|done]. injection Ht as ->. by apply Hk.
  - intros id e He Hce. rewrite Hc in Hce. destruct (Hq' _ _ He Hce) as (e0 & He0 & Hc0).
    destruct (Hh _ _ He0 Hc0) as [t0 Ht0]. specialize (Ht id). rewrite Ht0 in Ht.
    destruct (sess_transactions st'.2 !! id); [by eexists|done].
Qed.

Lemma owned_begin f st : owned st → owned (handle_txn_begin f st).1.
Proof.
  destruct st as [sv ss]. intros [Hwf Hk Hh]. split; simpl in *.
  - by apply bt_wf_insert.
  - intros id t. destruct (decide (in_clock (sv_engine sv) = id)) as [<-|Hne].
    + rewrite lookup_insert_eq. by intros [= <-].
    + rewrite lookup_insert_ne by done. apply Hk.
  - intros id e. rewrite bt_get_insert. case_decide as Hd.
    + intros _ _. subst id. rewrite lookup_insert_eq. by eexists.
    + rewrite lookup_insert_ne by done. apply Hh.
Qed.

(** Closing: the entry goes with the transaction. *)
Lemma owned_closed sv sv' ss id t :
  owned (sv, ss) → sess_transactions ss !! id = Some t →
  quiet (sess_connection_id ss) (sv_engine sv) (sv_engine sv') →
  bt_get (tx_id t) (in_txns (sv_engine sv')) = None →
  owned (sv', set_staged_writes (delete id (sess_staged_writes ss))
                (set_transactions (delete id (sess_transactions ss)) ss)).
Proof.
  intros [Hwf Hk Hh] Ht Hq Hn. simpl in *. destruct (Hq Hwf) as [Hwf' Hq']. split; simpl; [done| |].
  - intros id' t' [_ Hl]%lookup_delete_Some. by apply Hk.
  - intros id' e He Hc. destruct (Hq' _ _ He Hc) as (e0 & He0 & Hc0).
    rewrite lookup_delete_ne; [by eapply Hh|]. intros <-. rewrite (Hk _ _ Ht) in Hn. congruence.
Qed.

Lemma owned_commit f st st' r :
  owned st → handle_txn_commit f st = (st', r) → r ≠ Err Panicked → owned st'.
Proof.
  destruct st as [sv ss]. intros Ho. unfold handle_txn_commit, take_txn, se_bind. simpl.
  destruct (sess_transactions ss !! fr_txn_id f) as [t|] eqn:E; simpl; [|by intros [= <- <-]].
  pose proof (commit_quiet (sess_connection_id ss) t (sv_engine sv)) as Hq.
  destruct (commit t (sv_engine sv)) as [i' r'] eqn:Ec. simpl in Hq.
  assert (Hn : r' ≠ Err Panicked → bt_get (tx_id t) (in_txns i') = None)
    by (intros Hr'; by eapply commit_unregisters; [apply Ho|done|]).
  pose proof (owned_closed sv (set_engine i' sv) ss _ t Ho E Hq) as Hclosed. simpl in Hclosed.
  destruct r' as [[]|[e|]]; simpl; intros [= <- <-] Hne; [..|done].
  - destruct (Hclosed (Hn ltac:(done))) as [? ? ?]. by split.
  - by apply Hclosed, Hn.
Qed.

Lemma owned_rollback f st : owned st → owned (handle_txn_rollback f st).1.
Proof.
  destruct st as [sv ss]. intros Ho. unfold handle_txn_rollback, take_txn, se_bind. simpl.
  destruct (sess_transactions ss !! fr_txn_id f) as [t|] eqn:E; simpl; [|done].
  destruct (owned_closed sv (set_engine (rollback t (sv_engine sv)) sv) ss _ t Ho E) as [? ? ?].
  - apply unregister_quiet.
  - simpl. apply bt_get_remove_eq, Ho.
  - by split.
Qed.

(** The connection that serves a request is the same afterwards. *)
Lemma txn_requests_connection f st :
  sess_connection_id (handle_txn_begin f st).1.2 = sess_connection_id st.2 ∧
  sess_connection_id (handle_txn_commit f st).1.2 = sess_connection_id st.2 ∧
  sess_connection_id (handle_txn_rollback f st).1.2 = sess_connection_id st.2.
Proof.
  destruct st as [sv ss]. split_and!; [done|..];
    unfold handle_txn_commit, handle_txn_rollback, take_txn, se_bind; simpl;
    destruct (sess_transactions ss !! fr_txn_id f) as [t|]; simpl; try done.
  by destruct (commit t (sv_engine sv)) as [i' [[]|e]].
Qed.

(** A request that returns keeps the invariant of its connection, if nobody else opens
    transactions in its name. *)
Lemma respond_owned env f st st' reply :
  (∀ sv, quiet (sess_connection_id st.2) (sv_engine sv) (sv_engine (en_other env sv))) →
  owned st → respond cfg env f st = (st', Some reply) →
  owned st' ∧ sess_connection_id st'.2 = sess_connection_id st.2.
Proof.
  intros Hq Ho. destruct st as [sv ss]. unfold respond.
  set (st0 := (set_sv_metrics (incr M_requests_total (sv_metrics sv)) sv, ss)).
  assert (Ho0 : owned st0) by (destruct Ho as [? ? ?]; by split).
  assert (Hh : ∀ st1 r, handle cfg env f st0 = (st1, r) → r ≠ Err Panicked →
    owned st1 ∧ sess_connection_id st1.2 = sess_connection_id ss).
  { intros st1 r Hr Hne. destruct (txn_requests_connection f st0) as (Ib & Ic & Ir).
    unfold handle in Hr. case_if.
    - injection Hr as <- _. destruct Ho0 as [? ? ?]. by split.
    - destruct (decide (fr_opcode f = OpTxnBegin)) as [Eo|Nb];
        [|destruct (decide (fr_opcode f = OpTxnCommit)) as [Eo|Nc];
        [|destruct (decide (fr_opcode f = OpTxnRollback)) as [Eo|Nr]]].
      + unfold handle_op in Hr. rewrite Eo in Hr. pose proof (owned_begin f _ Ho0) as Hb.
        rewrite Hr in Hb, Ib. by split.
      + unfold handle_op in Hr. rewrite Eo in Hr. split; [by eapply owned_commit|]. by rewrite Hr in Ic.
      + unfold handle_op in Hr. rewrite Eo in Hr. pose proof (owned_rollback f _ Ho0) as Hb.
        rewrite Hr in Hb, Ir. by split.
      + pose proof (calm_handle_op _ env f st0 Hq Nb Nc Nr) as Hc. rewrite Hr in Hc.
        split; [by apply (owned_calm st0)|apply Hc]. }
  destruct (handle cfg env f st0) as [[sv1 ss1] [fr|[e|]]]; intros [= <- <-].
  - by eapply Hh.
  - destruct (Hh _ _ eq_refl ltac:(done)) as [[? ? ?] Hi]. by split.
Qed.

(** The other half: a request opens no transaction in the name of another connection. *)
Lemma respond_quiet env f st st' reply c :
  sess_connection_id st.2 ≠ c →
  (∀ sv, quiet c (sv_engine sv) (sv_engine (en_other env sv))) →
  respond cfg env f st = (st', reply) →
  quiet c (sv_engine st.1) (sv_engine st'.1) ∧ sess_connection_id st'.2 = sess_connection_id st.2.
Proof.
  intros Hne Hq. destruct st as [sv ss]. unfold respond.
  set (st0 := (set_sv_metrics (incr M_requests_total (sv_metrics sv)) sv, ss)).
  assert (Hh : quiet c (sv_engine sv) (sv_engine (handle cfg env f st0).1.1) ∧
    sess_connection_id (handle cfg env f st0).1.2 = sess_connection_id ss).
  { unfold handle. case_if; [split; [by apply quiet_same|done]|].
    destruct (decide (fr_opcode f = OpTxnBegin)) as [Eo|Nb];
      [|destruct (decide (fr_opcode f = OpTxnCommit)) as [Eo|Nc];
      [|destruct (decide (fr_opcode f = OpTxnRollback)) as [Eo|Nr]]];
      [unfold handle_op; rewrite Eo..|].
    - split; [|done]. apply (begin_quiet c (sess_connection_id ss) (sv_engine sv)). done.
    - unfold handle_txn_commit, take_txn, se_bind. simpl.
      destruct (sess_transactions ss !! fr_txn_id f) as [t|]; simpl; [|by split].
      pose proof (commit_quiet c t (sv_engine sv)) as Hc.
      destruct (commit t (sv_engine sv)) as [i' [[]|e]]; by split.
    - unfold handle_txn_rollback, take_txn, se_bind. simpl.
      destruct (sess_transactions ss !! fr_txn_id f) as [t|]; simpl; [|by split].
      split; [apply unregister_quiet|done].
    - destruct (calm_handle_op c env f st0 Hq Nb Nc Nr) as (Hc & Hi & _). by split. }
  destruct (handle cfg env f st0) as [[sv1 ss1] [fr|[e|]]]; intros [= <- <-]; exact Hh.
Qed.
End ownership.
