(* ===== verification/Connection.v ===== *)
(** * The life of a connection

    Models [handle_connection] of [crates/auradb-server/src/server.rs]: the session is
    created, frames are read and answered until the peer closes, the framing fails or an
    answer cannot be written; then the session is cleaned up, if the loop was left by
    [break].  Shows that the loop ends, and that a connection whose loop is left that way
    leaves no transaction registered and none of its cursors open.

    The stream is the bytes the peer sends.  What other tasks do between two requests,
    and whether an answer can be written, is up to the surroundings ([Around]). *)

From S2P Require Import Prelude BTree Text Framing Value Core Eval Chars Index Vector TextSearch Analyzer AnalyzedSearch.
From S2P Require Import Snippet Query Planner Cursor Exec SearchPage Aggregate QueryTools Metrics Protocol RaftLog RaftNode.
From S2P Require Import RaftFile Cluster Config Message Mvcc Storage Txn Engine EngineSpec EngineRead Replication Transport.
From S2P Require Import Peer Runtime Snapshot Limits Server ServerSpec.

Local Open Scope N_scope.

Record Around (L : Type) := mkAround {
  ar_env : RequestEnv L;
  ar_between : Server L → Server L;
  ar_written : bool;
}.
Arguments mkAround {L}.
Arguments ar_env {L}.
Arguments ar_between {L}.
Arguments ar_written {L}.

(** How the loop ends: the two [break]s, the [?] on the write, and a panic. *)
Inductive Outcome :=
| PeerClosed
| FramingFailed (e : Error)
| WriteFailed
| Crashed.

Section connection.
Context `{Unicode, CharCase, NaturalLog, MapOrder, AnnSearch, ElapsedTime, HashOrder}
  `{JsonText, StorageCodec, QueryJson, RaftCodec, Argon2, MessageJson, Crc32}.
Context {L : Type} `{ReplicatedLog L}.
Variable cfg : Config.
Implicit Types (sv : Server L) (ss : Session) (st : Server L * Session).

Definition count (g : Metrics → Metrics) st : Server L * Session :=
  (set_sv_metrics (g (sv_metrics st.1)) st.1, st.2).

Definition accept sv : Server L * Session :=
  let id := sv_connection_counter sv in
  (mkServer (sv_engine sv) (sv_cursors sv) (gauge_inc M_active_connections (sv_metrics sv))
     (wrap64 (id + 1)), session_new id).

(** The frame that reports a framing error. *)
Definition framing_error (e : Error) : Frame :=
  frame_new OpError 0 0 (reply_json (RpError (payload_from_error e))).

Fixpoint serve (fuel : nat) (around : nat → Around L) (n : nat) (stream : list byte) st
  : (Server L * Session) * list Frame * option Outcome :=
  match fuel with
  | O => (st, [], None)
  | S fuel' =>
      let st := (ar_between (around n) st.1, st.2) in
      match wire_read_frame stream (cf_max_payload_bytes cfg) with
      | (_, Ok None) => (st, [], Some PeerClosed)
      | (_, Err e) => (st, [framing_error e], Some (FramingFailed e))
      | (rest, Ok (Some frame)) =>
          let st := count (add (N.of_nat (encoded_len frame)) M_bytes_read) st in
          match respond cfg (ar_env (around n)) frame st with
          | (st, None) => (st, [], Some Crashed)
          | (st, Some response) =>
              if ar_written (around n) then
                let st := count (add (N.of_nat (encoded_len response)) M_bytes_written) st in
                let '(st, sent, o) := serve fuel' around (S n) rest st in (st, response :: sent, o)
              else (st, [], Some WriteFailed)
          end
      end
  end.

(** Left by [break], the loop is followed by the cleanup; left by [?], it is not. *)
Definition handle_connection (around : nat → Around L) (stream : list byte) sv
  : (Server L * Session) * list Frame * option Outcome :=
  let '(st, sent, o) := serve (S (length stream)) around 0 stream (accept sv) in
  match o with
  | Some PeerClosed | Some (FramingFailed _) =>
      (count (gauge_dec M_active_connections) (cleanup st), sent, o)
  | _ => (st, sent, o)
  end.

(** ** Cleanup *)

Lemma rollback_all l : ∀ i : Inner L,
  bt_wf (in_txns i) →
  let i' := foldr (λ t i, rollback t i) i l in
  bt_wf (in_txns i') ∧
  ∀ id, bt_get id (in_txns i') = if decide (id ∈ tx_id <$> l) then None else bt_get id (in_txns i).
Proof.
  induction l as [|t l IH]; intros i Hwf; simpl; [done|].
  destruct (IH i Hwf) as [Hwf' Hg]. split; [by apply bt_wf_remove|]. intros id.
  destruct (decide (tx_id t = id)) as [<-|Hne].
  - rewrite bt_get_remove_eq by done. rewrite decide_True by left. done.
  - rewrite bt_get_remove_ne by done. rewrite Hg. apply decide_ext. rewrite elem_of_cons. naive_solver.
Qed.

Lemma close_all (l : list N) (reg : Registry (Query := FindQuery)) id :
  rg_cursors (foldr (λ id reg, (close_cursor id reg).1) reg l) !! id =
    if decide (id ∈ l) then None else rg_cursors reg !! id.
Proof.
  induction l as [|j l IH]; [done|]. set (close := λ id reg, _) in *.
  change (rg_cursors (close_cursor j (foldr close reg l)).1 !! id =
    if decide (id ∈ j :: l) then None else rg_cursors reg !! id).
  cbn [close_cursor fst rg_cursors]. destruct (decide (j = id)) as [<-|Hne].
  - rewrite lookup_delete_eq. rewrite decide_True by left. done.
  - rewrite lookup_delete_ne by done. rewrite IH. apply decide_ext. rewrite elem_of_cons. naive_solver.
Qed.

(** After the cleanup nothing of the connection is registered, its cursors are closed, and
    what belongs to others is as it was. *)
Lemma cleanup_spec st :
  owned st →
  let st' := cleanup st in
  (∀ id e, bt_get id (in_txns (sv_engine st'.1)) = Some e →
    te_connection_id e ≠ Some (sess_connection_id st.2) ∧
    bt_get id (in_txns (sv_engine st.1)) = Some e) ∧
  (∀ id, rg_cursors (sv_cursors st'.1) !! id =
    if decide (id ∈ sess_cursor_ids st.2) then None else rg_cursors (sv_cursors st.1) !! id) ∧
  in_storage (sv_engine st'.1) = in_storage (sv_engine st.1) ∧
  sess_transactions st'.2 = ∅ ∧ sess_staged_writes st'.2 = ∅ ∧ sess_cursor_ids st'.2 = ∅.
Proof.
  destruct st as [sv ss]. intros [Hwf Hk Hh]. simpl in *.
  destruct (rollback_all (map_to_list (sess_transactions ss)).*2 (sv_engine sv) Hwf) as [_ Hg].
  split_and!; try done.
  - intros id e. rewrite Hg. case_decide as Hd; [done|]. intros He. split; [|done]. intros Hc.
    destruct (Hh _ _ He Hc) as [t Ht]. apply Hd. apply list_elem_of_fmap. exists t.
    split; [symmetry; by apply Hk|]. apply list_elem_of_fmap. exists (id, t).
    split; [done|]. by apply elem_of_map_to_list.
  - intros id. rewrite close_all. apply decide_ext. set_solver.
  - clear. induction (map_to_list _).*2 as [|t l IH]; simpl; [done|]. done.
Qed.

(** ** The loop ends *)

Lemma read_frame_shrinks stream max rest frame :
  wire_read_frame stream max = (rest, Ok (Some frame)) → (length rest < length stream)%nat.
Proof.
  unfold wire_read_frame. destruct (length stream <? HEADER_LEN)%nat eqn:E; [done|]. bool_to_prop.
  case_if; [done|]. case_if; [done|]. intros [= <- _]. rewrite !length_drop. unfold HEADER_LEN in *. lia.
Qed.

Lemma serve_ends around stream : ∀ fuel n st,
  (length stream < fuel)%nat → is_Some (serve fuel around n stream st).2.
Proof.
  intros fuel. revert stream. induction fuel as [|fuel IH]; intros stream n st Hf; [lia|]. cbn [serve].
  destruct (wire_read_frame stream (cf_max_payload_bytes cfg)) as [rest [[frame|]|e]] eqn:E;
    [|by eexists..].
  apply read_frame_shrinks in E.
  destruct (respond cfg (ar_env (around n)) frame _) as [st1 [response|]]; [|by eexists].
  destruct (ar_written (around n)); [|by eexists].
  pose proof (IH rest (S n) (count (add (N.of_nat (encoded_len response)) M_bytes_written) st1)
    ltac:(lia)) as Hi.
  destruct (serve fuel around (S n) rest _) as [[? ?] ?]. exact Hi.
Qed.

(** ** The invariant of the loop *)

Definition rely (c : N) (around : nat → Around L) : Prop :=
  ∀ n sv, quiet c (sv_engine sv) (sv_engine (ar_between (around n) sv)) ∧
          quiet c (sv_engine sv) (sv_engine (en_other (ar_env (around n)) sv)).

Lemma owned_count g st : owned st → owned (count g st).
Proof. intros [Hwf Hk Hh]. by split. Qed.

Lemma owned_between g sv ss :
  quiet (sess_connection_id ss) (sv_engine sv) (sv_engine (g sv)) → owned (sv, ss) → owned (g sv, ss).
Proof. intros Hq. apply owned_calm. split_and!; [exact Hq|done|done]. Qed.

Lemma serve_owned c around : rely c around → ∀ fuel n stream st,
  owned st → sess_connection_id st.2 = c →
  let '(st', sent, o) := serve fuel around n stream st in
  o ≠ Some Crashed → owned st' ∧ sess_connection_id st'.2 = c.
Proof.
  intros Hr. induction fuel as [|fuel IH]; intros n stream [sv ss] Ho Hc; cbn [serve]; [done|].
  simpl in Hc. destruct (Hr n sv) as [Hb _]. rewrite <- Hc in Hb.
  pose proof (owned_between _ _ _ Hb Ho) as Ho1.
  destruct (wire_read_frame stream (cf_max_payload_bytes cfg)) as [rest [[frame|]|e]]; [|done..].
  set (st1 := count _ _). assert (Ho2 : owned st1) by by apply owned_count.
  assert (Hc2 : sess_connection_id st1.2 = c) by done.
  destruct (respond cfg (ar_env (around n)) frame st1) as [st2 [response|]] eqn:Er; [|done].
  assert (Hq : ∀ sv, quiet (sess_connection_id st1.2) (sv_engine sv) (sv_engine (en_other (ar_env (around n)) sv)))
    by (intros sv'; rewrite Hc2; apply Hr).
  destruct (respond_owned cfg _ _ _ _ _ Hq Ho2 Er) as [Ho3 Hc3].
  destruct (ar_written (around n)); [|by rewrite Hc3].
  set (st3 := count _ st2).
  pose proof (IH (S n) rest st3 (owned_count _ _ Ho3) ltac:(simpl; congruence)) as Hi.
  by destruct (serve fuel around (S n) rest st3) as [[st4 sent] o].
Qed.

(** C20: a connection gives back what it took.  Whatever frames a peer sends and whatever
    other connections do meanwhile (short of opening transactions in this connection's
    name), the loop of the connection ends; and if it ends because the peer closed or the
    framing failed, no transaction of the connection is registered any more, so none of
    its snapshots holds back garbage collection, and every cursor its session owns
    is closed. *)
Theorem connection_gives_back around stream sv :
  let c := sv_connection_counter sv in
  bt_wf (in_txns (sv_engine sv)) →
  (∀ id e, bt_get id (in_txns (sv_engine sv)) = Some e → te_connection_id e ≠ Some c) →
  rely c around →
  ∃ st sent o, serve (S (length stream)) around 0 stream (accept sv) = (st, sent, Some o) ∧
    (o = PeerClosed ∨ (∃ e, o = FramingFailed e) →
     ∃ st', handle_connection around stream sv = (st', sent, Some o) ∧
       (∀ id e, bt_get id (in_txns (sv_engine st'.1)) = Some e → te_connection_id e ≠ Some c) ∧
       (∀ id, id ∈ sess_cursor_ids st.2 → rg_cursors (sv_cursors st'.1) !! id = None) ∧
       sess_transactions st'.2 = ∅).
Proof.
  intros c Hwf Hfresh Hr.
  assert (Ho : owned (accept sv)).
  { split; simpl; [done|done|]. intros id e He Hc. by destruct (Hfresh id e He). }
  pose proof (serve_ends around stream (S (length stream)) 0 (accept sv) ltac:(lia)) as [o Hs].
  pose proof (serve_owned c around Hr (S (length stream)) 0 stream (accept sv) Ho eq_refl) as Hl.
  unfold handle_connection.
  destruct (serve (S (length stream)) around 0 stream (accept sv)) as [[st sent] o'].
  simpl in Hs. subst o'. exists st, sent, o. split; [done|]. intros Hout.
  destruct Hl as [Ho' Hc']; [by destruct Hout as [->|[e ->]]|].
  destruct (cleanup_spec st Ho') as (He & Hcur & _ & Ht & _ & _).
  exists (count (gauge_dec M_active_connections) (cleanup st)). split_and!.
  - by destruct Hout as [->|[e ->]].
  - intros id e Hg. rewrite <- Hc'. by apply (He id e).
  - intros id Hid. simpl. rewrite Hcur. by rewrite decide_True.
  - done.
Qed.
End connection.
