(* ===== verification/ServerTrace.v ===== *)
(** * Requests over time

    Theorems about runs of requests of [Server]: how far the write set of a transaction is
    bounded, what the replies and the counters say, and that the requests of one
    connection do not change what a transaction of another connection reads. *)

From S2P Require Import Prelude BTree Text Value Core Eval Chars Index Vector TextSearch Analyzer AnalyzedSearch Snippet.
From S2P Require Import Query Planner Cursor Exec SearchPage Aggregate QueryTools Metrics Protocol RaftLog RaftNode RaftFile.
From S2P Require Import Cluster Config Message Mvcc Storage Txn Engine EngineSpec EngineRead Replication Transport Peer.
From S2P Require Import Runtime Snapshot Limits Server ServerSpec.

Local Open Scope N_scope.

(** ** The size of a write set *)

Lemma length_bt_insert `{OrdKey K} {V} (k : K) (v : V) m : (length (bt_insert k v m) ≤ S (length m))%nat.
Proof.
  induction m as [|[k' v'] m IH]; simpl; [lia|]. destruct (kcompare k k'); simpl; lia.
Qed.

Section staging.
Context `{Unicode, JsonText, StorageCodec}.
Context {L : Type} `{ReplicatedLog L}.
Implicit Types (i : Inner L) (t : Transaction) (p : Inner L * Transaction).

Definition write_set p : nat := length (tx_staged p.2).

(** A relation of states that lets the write set grow by [n] at most. *)
Definition grows (n : nat) p p' : Prop := (write_set p' ≤ write_set p + n)%nat.

Lemma grows_bind {A B} n m (op : SE (Inner L * Transaction) Fault A) (k : A → SE (Inner L * Transaction) Fault B) p :
  grows n p (op p).1 → (∀ a p', grows m p' (k a p').1) → grows (n + m) p (se_bind op k p).1.
Proof.
  unfold grows, se_bind. destruct (op p) as [p' [a|e]]; simpl; intros Hn Hm; [specialize (Hm a p'); lia|lia].
Qed.

Lemma grows_inner {A} (op : SE (Inner L) Fault A) p : grows 0 p (on_inner op p).1.
Proof. unfold grows, write_set. destruct p as [i t]. simpl. destruct (op i); simpl; lia. Qed.

Lemma grows_get {A} (g : Inner L * Transaction → A) p : grows 0 p (se_get (E := Fault) g p).1.
Proof. unfold grows. simpl. lia. Qed.

Lemma stage_insert_grows schema c fields p : grows 1 p (stage_insert schema c fields p).1.
Proof.
  unfold stage_insert. apply (grows_bind 0 1); [apply grows_inner|intros _ p1].
  apply (grows_bind 0 1); [apply grows_inner|intros fallback p2].
  apply (grows_bind 0 1); [apply grows_inner|intros id p3].
  apply (grows_bind 0 1); [apply grows_get|intros existing p4].
  apply (grows_bind 0 1); [apply grows_inner|intros _ p5].
  apply (grows_bind 1 0); [|intros _ p6; unfold grows; simpl; lia].
  destruct p5 as [i t]. unfold grows, write_set. simpl.
  match goal with |- context [observe ?k ?v t] => destruct (observe_same k v t) as (-> & _) end.
  etrans; [apply length_bt_insert|lia].
Qed.

Lemma stage_bulk_grows schema c docs : ∀ result p,
  grows (length docs) p (stage_bulk schema c docs result p).1.
Proof.
  induction docs as [|fields docs IH]; intros result p; [unfold grows; simpl; lia|].
  cbn [stage_bulk length]. apply (grows_bind 1 (length docs)); [apply stage_insert_grows|intros r p'; apply IH].
Qed.

(** The mutations whose count is what they stage. *)
Definition is_insert (m : Mutation) : bool :=
  match m with MInsert _ _ | MUpsert _ _ | MBulkInsert _ _ => true | _ => false end.

Lemma stage_grows m i t :
  is_insert m = true → grows (mutation_write_count m) (i, t) (stage m (i, t)).1.
Proof.
  intros Hi. unfold stage. apply (grows_bind 0 (mutation_write_count m)); [apply grows_inner|intros _ p1].
  unfold stage_mutation. apply (grows_bind 0 (mutation_write_count m)); [apply grows_inner|intros schema p2].
  destruct m; try done; simpl.
  - apply (grows_bind 1 0); [apply stage_insert_grows|intros; unfold grows; simpl; lia].
  - pose proof (stage_bulk_grows schema collection records result_empty p2) as Hb. unfold grows in *. lia.
  - apply (grows_bind 1 0); [apply stage_insert_grows|intros; unfold grows; simpl; lia].
Qed.
End staging.

Section traces.
Context `{Unicode, CharCase, NaturalLog, MapOrder, AnnSearch, ElapsedTime, HashOrder}
  `{JsonText, StorageCodec, QueryJson, RaftCodec, Argon2, MessageJson}.
Context {L : Type} `{ReplicatedLog L}.
Variable cfg : Config.
Implicit Types (env : RequestEnv L) (sv : Server L) (ss : Session) (f : Frame)
  (st : Server L * Session).

Let max_writes : nat := lm_max_transaction_write_set (cf_limits cfg).

(** The counters are within the limit, and cover what is staged. *)
Record bounded ss : Prop := {
  bd_counters : ∀ id n, sess_staged_writes ss !! id = Some n → (n ≤ max_writes)%nat;
  bd_staged : ∀ id t, sess_transactions ss !! id = Some t →
    (length (tx_staged t) ≤ default 0 (sess_staged_writes ss !! id))%nat;
}.

(** A request whose writes are counted: within a transaction only inserts and upserts,
    and of bulk inserts only those that succeed. *)
Definition counted f (reply : option Frame) : Prop :=
  fr_opcode f = OpMutate → fr_txn_id f ≠ 0 → ∀ m, mutation_of_json (fr_payload f) = Some m →
    match m with
    | MInsert _ _ | MUpsert _ _ => True
    | MBulkInsert _ _ => ∃ r, reply = Some r ∧ fr_opcode r ≠ OpError
    | MUpdate _ _ _ | MDelete _ _ => False
    end.

(** What the session remembers of transactions is unchanged. *)
Definition idle st st' : Prop :=
  sess_transactions st'.2 = sess_transactions st.2 ∧
  sess_staged_writes st'.2 = sess_staged_writes st.2.

#[local] Instance idle_refl : Reflexive idle.
Proof. by split. Qed.
#[local] Instance idle_trans : Transitive idle.
Proof. intros s1 s2 s3 [Ta Wa] [Tb Wb]. split; congruence. Qed.

Lemma bounded_idle st st' : idle st st' → bounded st.2 → bounded st'.2.
Proof. intros [Ht Hw] [Hc Hs]. split; rewrite ?Ht, ?Hw; auto. Qed.

(** A single insert that fails has staged nothing. *)
Lemma stage_single_fails m (i : Inner L) t :
  (match m with MInsert _ _ | MUpsert _ _ => True | _ => False end) →
  ∀ p e, stage m (i, t) = (p, Err e) → tx_staged p.2 = tx_staged t.
Proof.
  intros Hm p e. unfold stage, se_bind. simpl.
  destruct (touch_txn (tx_id t) i) as [i1 [[]|e1]]; simpl; [|by intros [= <- _]].
  unfold stage_mutation, stage_insert, se_bind. simpl.
  destruct (lift (schema_for i1 _) i1) as [i2 [schema|e2]]; simpl; [|by intros [= <- _]].
  destruct m; try done; simpl;
    (destruct (lift (validate_record schema fields) i2) as [i3 [[]|e3]]; simpl; [|by intros [= <- _]]);
    (destruct (lift (record_id_for schema fields _) _) as [i5 [id|e5]]; simpl; [|by intros [= <- _]]);
    (destruct (lift (referential_check i5 schema fields) i5) as [i6 [[]|e6]]; simpl; [done|by intros [= <- _]]).
Qed.

(** One mutation within a transaction. *)
Lemma bounded_mutation f m sv ss st' r :
  fr_txn_id f ≠ 0 → bounded ss → handle_mutation cfg f m (sv, ss) = (st', r) →
  match m with
  | MInsert _ _ | MUpsert _ _ => True
  | MBulkInsert _ _ => res_is_ok r = true
  | MUpdate _ _ _ | MDelete _ _ => False
  end → bounded st'.2.
Proof.
  intros Hf [Hc Hs]. unfold handle_mutation, se_bind, checked.
  destruct (enforce_mutation_limits (cf_limits cfg) m) as [[]|e]; simpl; [|by intros [= <- <-]].
  rewrite (proj2 (N.eqb_neq _ _) Hf). set (id := fr_txn_id f) in *.
  set (n := default 0%nat (sess_staged_writes ss !! id)).
  set (ss1 := set_staged_writes (<[id := n]> (sess_staged_writes ss)) ss).
  assert (Hn : (n ≤ max_writes)%nat).
  { unfold n. destruct (sess_staged_writes ss !! id) as [k|] eqn:E; simpl; [by eapply Hc|lia]. }
  assert (Hdef : ∀ k id', default 0%nat (<[id := k]> (sess_staged_writes ss) !! id') =
    if decide (id = id') then k else default 0%nat (sess_staged_writes ss !! id')).
  { intros k id'. destruct (decide (id = id')) as [<-|Hne]; [by rewrite lookup_insert_eq|].
    by rewrite lookup_insert_ne. }
  assert (Hb1 : bounded ss1).
  { split; simpl.
    - intros id' k. destruct (decide (id = id')) as [<-|Hne]; [rewrite lookup_insert_eq; by intros [= <-]|].
      rewrite lookup_insert_ne by done. apply Hc.
    - intros id' t Ht. rewrite Hdef. case_decide as Hd; [subst id'; by apply Hs|by apply Hs]. }
  destruct (max_writes <? n + mutation_write_count m)%nat eqn:Emax; simpl.
  { unfold max_writes in Emax. rewrite Emax. simpl. by intros [= <- <-]. }
  pose proof Emax as Emax'. unfold max_writes in Emax'. rewrite Emax'. bool_to_prop.
  unfold stage_in. simpl. destruct (sess_transactions ss !! id) as [t|] eqn:Et; simpl; [|by intros [= <- <-]].
  destruct (stage m (sv_engine sv, t)) as [[i t'] [res|e]] eqn:Es; simpl; intros [= <- <-] Hm; simpl.
  - assert (Hg : (length (tx_staged t') ≤ length (tx_staged t) + mutation_write_count m)%nat).
    { pose proof (stage_grows m (sv_engine sv) t) as Hg. rewrite Es in Hg. apply Hg. by destruct m. }
    pose proof (Hs _ _ Et) as Ht. fold n in Ht.
    split; simpl; rewrite insert_insert_eq.
    + intros id' k. destruct (decide (id = id')) as [<-|Hne]; [rewrite lookup_insert_eq; by intros [= <-]|].
      rewrite lookup_insert_ne by done. apply Hc.
    + intros id' t0. rewrite Hdef. destruct (decide (id = id')) as [<-|Hne].
      * rewrite lookup_insert_eq. intros [= <-]. lia.
      * rewrite lookup_insert_ne by done. apply Hs.
  - destruct Hb1 as [Hc1 Hs1]. split; simpl; [done|]. intros id' t0.
    destruct (decide (id = id')) as [<-|Hne].
    + rewrite lookup_insert_eq. intros [= <-].
      pose proof (stage_single_fails m (sv_engine sv) t ltac:(by destruct m) _ _ Es) as Hf'.
      simpl in Hf'. rewrite Hf'. by apply Hs1.
    + rewrite lookup_insert_ne by done. apply Hs1.
Qed.

(** Opening and closing transactions. *)
Lemma bounded_txn_requests f st :
  bounded st.2 →
  bounded (handle_txn_begin f st).1.2 ∧ bounded (handle_txn_commit f st).1.2 ∧
  bounded (handle_txn_rollback f st).1.2.
Proof.
  destruct st as [sv ss]. intros [Hc Hs]. simpl in Hc, Hs.
  assert (Hdel : ∀ id, bounded (set_staged_writes (delete id (sess_staged_writes ss))
    (set_transactions (delete id (sess_transactions ss)) ss))).
  { intros id. split; simpl.
    - intros id' n [_ Hn]%lookup_delete_Some. by eapply Hc.
    - intros id' t [Hne Ht]%lookup_delete_Some. rewrite lookup_delete_ne by done. by apply Hs. }
  split_and!.
  - split; simpl; [done|]. intros id t. destruct (decide (in_clock (sv_engine sv) = id)) as [<-|Hne].
    + rewrite lookup_insert_eq. intros [= <-]. simpl. lia.
    + rewrite lookup_insert_ne by done. apply Hs.
  - unfold handle_txn_commit, take_txn, se_bind. simpl.
    destruct (sess_transactions ss !! fr_txn_id f) as [t|]; simpl; [|done].
    destruct (commit t (sv_engine sv)) as [i' [[]|e]]; apply Hdel.
  - unfold handle_txn_rollback, take_txn, se_bind. simpl.
    destruct (sess_transactions ss !! fr_txn_id f) as [t|]; simpl; [apply Hdel|done].
Qed.

Lemma idle_handle_op env f st :
  fr_opcode f ≠ OpMutate →
  fr_opcode f ≠ OpTxnBegin → fr_opcode f ≠ OpTxnCommit → fr_opcode f ≠ OpTxnRollback →
  idle st (handle_op cfg env f st).1.
Proof. intros Hm. apply rel_handle_op; try apply _; intros; done. Qed.

Lemma bounded_handle env f sv ss st' r :
  bounded ss → handle cfg env f (sv, ss) = (st', r) →
  counted f (match r with Ok fr => Some fr | Err (Failed e) => Some (error_frame env e f)
                        | Err Panicked => None end) →
  bounded st'.2.
Proof.
  intros Hb. unfold handle. case_if; [by intros [= <- _]|].
  destruct (bounded_txn_requests f (sv, ss) Hb) as (Bb & Bc & Br).
  destruct (decide (fr_opcode f = OpTxnBegin)) as [Eo|Nb];
    [|destruct (decide (fr_opcode f = OpTxnCommit)) as [Eo|Nc];
    [|destruct (decide (fr_opcode f = OpTxnRollback)) as [Eo|Nr];
    [|destruct (decide (fr_opcode f = OpMutate)) as [Eo|Nm]]]].
  1-3: unfold handle_op; rewrite Eo; intros Hr _; rewrite Hr in *; done.
  - unfold handle_op. rewrite Eo. unfold handle_mutate, se_bind, decode, counted. simpl.
    destruct (mutation_of_json (fr_payload f)) as [m|]; simpl; [|by intros [= <- _]].
    set (sv1 := set_sv_metrics _ sv). intros Hr Hc. destruct (decide (fr_txn_id f = 0)) as [E0|N0].
    + unfold handle_mutation, se_bind, checked in Hr. rewrite E0 in Hr. simpl in Hr.
      destruct (enforce_mutation_limits (cf_limits cfg) m) as [[]|e]; simpl in Hr;
        [destruct (apply_mutation m (sv_engine sv)) as [i [res|e]]|]; by injection Hr as <- _.
    + apply (bounded_mutation f m sv1 ss st' r N0 Hb Hr). specialize (Hc Eo N0 m eq_refl).
      destruct m; try done. destruct r as [fr|[e|]]; [done| |]; destruct Hc as (fr & [= <-] & Hne); done.
  - intros Hr _. pose proof (idle_handle_op env f (sv, ss) Nm Nb Nc Nr) as Hi. rewrite Hr in Hi.
    by apply (bounded_idle (sv, ss)).
Qed.

Lemma bounded_respond env f sv ss sv1 ss1 reply :
  bounded ss → respond cfg env f (sv, ss) = ((sv1, ss1), reply) → counted f reply → bounded ss1.
Proof.
  intros Hb. unfold respond. set (sv0 := set_sv_metrics _ sv).
  destruct (handle cfg env f (sv0, ss)) as [[sv2 ss2] r] eqn:E.
  pose proof (bounded_handle env f sv0 ss _ r Hb E) as Hh. simpl in Hh.
  destruct r as [fr|[e|]]; intros [= <- <- <-]; apply Hh.
Qed.

(** C22: the write-set limit, as far as it goes.  Over the life of a connection whose
    writes within transactions are inserts, upserts and bulk inserts that succeed, no
    transaction ever has more records staged than the configured limit, and the counter
    of a transaction covers what it has staged.  (Updates and deletes count as one write
    however many records they stage, and a bulk insert that fails is not counted for
    what it staged before: see [ServerSample].) *)
Theorem write_set_within_limit log sv c st' :
  served cfg log (sv, session_new c) st' →
  Forall (λ e, counted (lg_frame e) (lg_reply e)) log →
  ∀ id t, sess_transactions st'.2 !! id = Some t →
    (length (tx_staged t) ≤ default 0 (sess_staged_writes st'.2 !! id))%nat ∧
    (length (tx_staged t) ≤ lm_max_transaction_write_set (cf_limits cfg))%nat.
Proof.
  intros Hs Hc.
  assert (Hb : bounded (session_new c)) by (split; simpl; [done|]; intros id t; by rewrite lookup_empty).
  assert (Hrun : ∀ st, served cfg log st st' → bounded st.2 → bounded st'.2).
  { clear Hs Hb. intros st Hs.
    induction Hs as [st|log sv0 sv1 ss st1 _ IH|log env f sv0 ss sv1 ss1 reply st1 Hr _ IH];
      intros Hb; [done|by apply IH|].
    apply Forall_cons in Hc as [Hc Hcs]. apply IH; [done|].
    by eapply bounded_respond. }
  destruct (Hrun _ Hs Hb) as [Hcnt Hst]. intros id t Ht. specialize (Hst id t Ht). split; [done|].
  destruct (sess_staged_writes st'.2 !! id) as [n|] eqn:E; simpl in Hst; [|lia].
  apply Hcnt in E. unfold max_writes in E. lia.
Qed.
End traces.

(** ** Replies and counters *)

(** The opcodes of the replies to a request. *)
Definition responses (o : Opcode) : list Opcode :=
  match o with
  | OpHello => [OpHelloAck]
  | OpAuth => [OpAuthResult]
  | OpPing => [OpPong]
  | OpHealth => [OpHealthResult]
  | OpQuery => [OpOk; OpQueryResult]
  | OpCursorFetch => [OpQueryResult]
  | OpSchemaCreate | OpSchemaDrop | OpSchemaGet | OpSchemaList | OpMutate | OpCursorClose
  | OpExplain | OpMigrationEstimate | OpTxnBegin | OpTxnCommit | OpTxnRollback => [OpOk]
  | OpHelloAck | OpPong | OpHealthResult | OpAuthResult | OpOk | OpQueryResult | OpError => []
  end.

(** What holds of every result of a computation. *)
Definition yields {S A} (Q : A → Prop) (m : SE S Fault A) : Prop :=
  ∀ s s' a, m s = (s', Ok a) → Q a.

Lemma yields_bind {S A B} Q (m : SE S Fault A) (k : A → SE S Fault B) :
  (∀ a, yields Q (k a)) → yields Q (se_bind m k).
Proof. intros Hk s s' b. unfold se_bind. destruct (m s) as [s1 [a|e]]; [apply Hk|done]. Qed.

Lemma yields_ret {S A} (Q : A → Prop) (a : A) : Q a → yields (S := S) Q (se_ret a).
Proof. by intros HQ s s' b [= _ <-]. Qed.

Lemma yields_fail {S A} (Q : A → Prop) (e : Fault) : yields (S := S) Q (se_fail e).
Proof. by intros s s' b. Qed.

Section replies.
Context `{Unicode, CharCase, NaturalLog, MapOrder, AnnSearch, ElapsedTime, HashOrder}
  `{JsonText, StorageCodec, QueryJson, RaftCodec, Argon2, MessageJson}.
Context {L : Type} `{ReplicatedLog L}.
Variable cfg : Config.
Implicit Types (env : RequestEnv L) (sv : Server L) (ss : Session) (f : Frame)
  (st : Server L * Session).

(** A reply to [f], of the right kind. *)
Definition replies_to f (r : Frame) : Prop :=
  fr_request_id r = fr_request_id f ∧ fr_version r = PROTOCOL_VERSION ∧
  fr_opcode r ∈ responses (fr_opcode f).

Lemma yields_timed {A} (Q : A → Prop) env (op : SE (Server L * Session) Fault A) :
  yields Q op → yields Q (timed env op).
Proof.
  intros Hq s s' a. unfold timed. destruct (op s) as [[sv ss] r] eqn:E. intros [= _ ->]. by eapply Hq.
Qed.

Ltac yields_walk Eo :=
  repeat first
    [ apply yields_ret; split_and!; [done|done|rewrite Eo; simpl; set_solver]
    | apply yields_fail
    | apply yields_timed
    | apply yields_bind; intros
    | progress case_match
    | progress case_if ].

Lemma handle_op_replies env f : yields (replies_to f) (handle_op cfg env f).
Proof.
  unfold handle_op. destruct (fr_opcode f) eqn:Eo.
  - unfold handle_hello. yields_walk Eo.
  - yields_walk Eo.
  - unfold handle_health. yields_walk Eo.
  - unfold handle_auth. yields_walk Eo.
  - unfold handle_schema_create. yields_walk Eo.
  - unfold handle_schema_drop. yields_walk Eo.
  - unfold handle_schema_get. yields_walk Eo.
  - unfold handle_schema_list. yields_walk Eo.
  - unfold handle_query_op, handle_query, handle_find. yields_walk Eo.
  - unfold handle_mutate, handle_mutation. yields_walk Eo.
  - unfold handle_cursor_fetch. yields_walk Eo.
  - unfold handle_cursor_close. yields_walk Eo.
  - unfold handle_explain. yields_walk Eo.
  - unfold handle_migration_estimate. yields_walk Eo.
  - unfold handle_txn_begin. yields_walk Eo.
  - unfold handle_txn_commit. yields_walk Eo.
  - unfold handle_txn_rollback. yields_walk Eo.
  - yields_walk Eo.
  - yields_walk Eo.
  - yields_walk Eo.
  - yields_walk Eo.
  - yields_walk Eo.
  - yields_walk Eo.
  - yields_walk Eo.
Qed.

(** The counts of requests and of errors. *)
Definition counts st : N * N :=
  (mx_value (sv_metrics st.1) M_requests_total, mx_value (sv_metrics st.1) M_errors_total).

Definition same_counts st st' : Prop := counts st' = counts st.

#[local] Instance same_counts_refl : Reflexive same_counts.
Proof. done. Qed.
#[local] Instance same_counts_trans : Transitive same_counts.
Proof. unfold same_counts. intros s1 s2 s3. congruence. Qed.

Lemma counts_metrics sv ss g : harmless g → same_counts (sv, ss) (set_sv_metrics (g (sv_metrics sv)) sv, ss).
Proof. intros Hg. destruct (Hg (sv_metrics sv)) as [Ha Hb]. unfold same_counts, counts. simpl. by rewrite Ha, Hb. Qed.

Lemma counts_mutation f m st : same_counts st (handle_mutation cfg f m st).1.
Proof.
  unfold handle_mutation. apply se_bind_rel; [apply _| |intros _ s1 _].
  { unfold checked. by destruct (enforce_mutation_limits _ m). }
  apply se_bind_rel; [apply _| |by intros]. case_if.
  - destruct s1 as [sv ss]. unfold on_engine. by destruct (apply_mutation m (sv_engine sv)).
  - apply se_bind_rel; [apply _| |intros n s2 _]; [by destruct s1|]. case_if; [done|].
    apply se_bind_rel; [apply _| |intros r s3 _; by destruct s3].
    destruct s2 as [sv ss]. unfold stage_in. destruct (sess_transactions ss !! _); [|done].
    by destruct (stage m _) as [[i t'] r].
Qed.

Lemma counts_txn_requests f st :
  same_counts st (handle_txn_begin f st).1 ∧ same_counts st (handle_txn_commit f st).1 ∧
  same_counts st (handle_txn_rollback f st).1.
Proof.
  destruct st as [sv ss].
  assert (Hg : ∀ v sv' ss', sv_metrics sv' = gauge_set v M_active_transactions (sv_metrics sv) →
    same_counts (sv, ss) (sv', ss')).
  { intros v sv' ss' Hm. unfold same_counts, counts. simpl. rewrite Hm.
    unfold gauge_set. by rewrite !on_metric_value. }
  split_and!.
  - by eapply Hg.
  - unfold handle_txn_commit, take_txn, se_bind. simpl.
    destruct (sess_transactions ss !! fr_txn_id f) as [t|]; simpl; [|done].
    destruct (commit t (sv_engine sv)) as [i' [[]|e]]; simpl; [|done]. by eapply Hg.
  - unfold handle_txn_rollback, take_txn, se_bind. simpl.
    destruct (sess_transactions ss !! fr_txn_id f) as [t|]; simpl; [|done]. by eapply Hg.
Qed.

Lemma counts_handle env f st :
  (∀ sv ss, same_counts (sv, ss) (en_other env sv, ss)) → same_counts st (handle cfg env f st).1.
Proof.
  intros Hother. unfold handle. case_if.
  { destruct st as [sv ss]. by apply (counts_metrics sv ss), harmless_metric. }
  destruct (counts_txn_requests f st) as (Cb & Cc & Cr).
  destruct (decide (fr_opcode f = OpTxnBegin)) as [Eo|Nb];
    [|destruct (decide (fr_opcode f = OpTxnCommit)) as [Eo|Nc];
    [|destruct (decide (fr_opcode f = OpTxnRollback)) as [Eo|Nr]]].
  1-3: unfold handle_op; rewrite Eo; done.
  apply rel_handle_op; try apply _; try done.
  - intros. by apply counts_metrics.
  - intros _ m s. apply counts_mutation.
Qed.

(** C21: every request is answered and accounted for.  Unless the engine panics, a request
    gets exactly one reply, with its request id: a response of the kind its opcode asks
    for, or an error frame; the counter of requests goes up by one, and the counter of
    errors by one exactly if the reply is an error frame. *)
Theorem requests_answered env f st st' reply :
  (∀ sv ss, same_counts (sv, ss) (en_other env sv, ss)) →
  respond cfg env f st = (st', Some reply) →
  fr_request_id reply = fr_request_id f ∧
  (fr_opcode reply ∈ responses (fr_opcode f) ∨ fr_opcode reply = OpError) ∧
  counts st' = (wrap64 ((counts st).1 + 1),
                if bool_decide (fr_opcode reply = OpError) then wrap64 ((counts st).2 + 1) else (counts st).2).
Proof.
  intros Hother. destruct st as [sv ss]. unfold respond. set (sv0 := set_sv_metrics _ sv).
  pose proof (counts_handle env f (sv0, ss) Hother) as Hc. unfold same_counts in Hc.
  assert (Hinit : counts (sv0, ss) = (wrap64 ((counts (sv, ss)).1 + 1), (counts (sv, ss)).2)).
  { unfold counts, sv0, incr. cbn [fst sv_metrics set_sv_metrics]. by rewrite !on_metric_value. }
  rewrite Hinit in Hc. pose proof (handle_op_replies env f (sv0, ss)) as Hrep.
  destruct (handle cfg env f (sv0, ss)) as [[sv1 ss1] [fr|[e|]]] eqn:Eh; intros [= <- <-]; simpl in Hc.
  - unfold handle in Eh. destruct (au_enabled _ && _ && _)%bool in Eh; [done|]. apply Hrep in Eh as (Hid & _ & Hop).
    split_and!; [done|by left|]. rewrite Hc. rewrite bool_decide_eq_false_2; [done|].
    intros Ho. rewrite Ho in Hop. destruct (fr_opcode f); simpl in Hop; set_solver.
  - split_and!; [done|by right|]. rewrite bool_decide_eq_true_2 by done.
    unfold counts in Hc |- *. cbn [fst snd sv_metrics set_sv_metrics] in Hc |- *. injection Hc as Ha Hb.
    rewrite <- Ha, <- Hb. unfold count_error, incr. by destruct e; rewrite !on_metric_value.
Qed.
End replies.

(** ** Isolation between connections *)

Section isolation.
Context `{Unicode, CharCase, NaturalLog, MapOrder, AnnSearch, ElapsedTime, HashOrder}
  `{JsonText, StorageCodec, QueryJson, RaftCodec, Argon2, MessageJson}.
Context {L : Type} `{ReplicatedLog L}.
Variable cfg : Config.
Implicit Types (env : RequestEnv L) (sv : Server L) (ss : Session) (f : Frame) (i : Inner L)
  (st : Server L * Session).

(** The engine moves by steps of others, and the transaction stays active. *)
Definition harbours (id ts : N) i i' : Prop :=
  active i id ts → rtc (active_step (λ _, False) id ts) i i' ∧ active i' id ts.

#[export] Instance harbours_refl id ts : Reflexive (harbours id ts).
Proof. intros i Ha. by split; [apply rtc_refl|]. Qed.
#[local] Instance harbours_trans id ts : Transitive (harbours id ts).
Proof.
  intros i1 i2 i3 Ha Hb Hx. destruct (Ha Hx) as [Hr1 Hy]. destruct (Hb Hy) as [Hr2 Hz].
  split; [by etrans|done].
Qed.

Lemma harbours_step id ts i i' :
  engine_step (λ _, False) i i' → (active i id ts → active i' id ts) → harbours id ts i i'.
Proof. intros Hs Hk Ha. split; [apply rtc_once; by split|by apply Hk]. Qed.

Lemma active_same id ts i i' : in_txns i' = in_txns i → active i id ts → active i' id ts.
Proof. unfold active. by intros ->. Qed.

Lemma harbours_touch id ts t i : harbours id ts i (touch_txn t i).1.
Proof.
  apply harbours_step; [exact (es_read _ (begin_at t 0) i)|]. intros (e & He & Hs & Ht).
  unfold touch_txn. destruct (bt_get t (in_txns i)) as [e'|] eqn:E; [|by exists e].
  destruct (te_state e') eqn:Es; [|by exists e]. unfold active. simpl.
  destruct (decide (t = id)) as [->|Hne].
  - eexists. rewrite bt_get_insert_eq. split; [done|]. split; [done|]. simpl. congruence.
  - exists e. by rewrite bt_get_insert_ne.
Qed.

Lemma harbours_stage id ts m t i : harbours id ts i (stage m (i, t)).1.1.
Proof.
  apply harbours_step; [apply es_stage|]. intros Ha. unfold stage, se_bind. simpl.
  destruct (harbours_touch id ts (tx_id t) i Ha) as [_ Ht].
  destruct (touch_txn (tx_id t) i) as [i1 [[]|e]]; simpl in *; [|done].
  destruct (stage_mutation_keeps 0 m (i1, t)) as ((_ & Hk) & _). by apply (active_same id ts i1).
Qed.

Lemma harbours_unregister id ts t i : tx_id t ≠ id → harbours id ts i (rollback t i).
Proof.
  intros Hne. apply harbours_step; [apply es_rollback|]. intros (e & He & Hs & Ht).
  exists e. split; [|done]. simpl. by rewrite bt_get_remove_ne.
Qed.

Lemma harbours_commit id ts t i : tx_id t ≠ id → harbours id ts i (commit t i).1.
Proof.
  intros Hne. apply harbours_step; [apply es_commit|]. intros Ha.
  assert (Hk : in_txns (commit_transaction t i).1 = in_txns i) by apply (commit_transaction_keeps 0).
  assert (Hu : ∀ i1, in_txns i1 = in_txns i → active (unregister (tx_id t) i1) id ts).
  { intros i1 Hi1. destruct Ha as (e & He & Hs & Ht). exists e. split; [|done]. simpl.
    by rewrite bt_get_remove_ne, Hi1. }
  destruct (commit_cases t i) as [->|[->| ->]]; [by apply Hu..|by apply (active_same id ts i)].
Qed.

Lemma harbours_begin id ts c i : in_clock i ≠ id → harbours id ts i (begin_with_connection c i).1.
Proof.
  intros Hne. apply harbours_step; [apply es_begin|]. intros (e & He & Hs & Ht). exists e.
  split; [|done]. simpl. by rewrite bt_get_insert_ne.
Qed.

Definition shelters (id ts : N) st st' : Prop := harbours id ts (sv_engine st.1) (sv_engine st'.1).

#[local] Instance shelters_refl id ts : Reflexive (shelters id ts).
Proof. intros st. unfold shelters. reflexivity. Qed.
#[local] Instance shelters_trans id ts : Transitive (shelters id ts).
Proof. intros s1 s2 s3. unfold shelters. apply harbours_trans. Qed.

Lemma shelters_mutation id ts f m st : shelters id ts st (handle_mutation cfg f m st).1.
Proof.
  unfold handle_mutation. apply se_bind_rel; [apply _| |intros _ s1 _].
  { unfold checked. by destruct (enforce_mutation_limits _ m). }
  apply se_bind_rel; [apply _| |by intros]. case_if.
  - destruct s1 as [sv ss]. unfold on_engine, shelters.
    assert (Hm : harbours id ts (sv_engine sv) (apply_mutation m (sv_engine sv)).1).
    { apply harbours_step; [apply es_mutation|]. apply active_same. apply (apply_mutation_keeps 0). }
    by destruct (apply_mutation m (sv_engine sv)).
  - apply se_bind_rel; [apply _| |intros n s2 _]; [by destruct s1|]. case_if; [done|].
    apply se_bind_rel; [apply _| |intros r s3 _; by destruct s3].
    destruct s2 as [sv ss]. unfold stage_in, shelters. destruct (sess_transactions ss !! _) as [t|]; [|done].
    pose proof (harbours_stage id ts m t (sv_engine sv)) as Hs.
    by destruct (stage m _) as [[i t'] r].
Qed.

Lemma shelters_handle id ts env f st :
  (∀ sv, harbours id ts (sv_engine sv) (sv_engine (en_other env sv))) →
  (∀ k t, sess_transactions st.2 !! k = Some t → tx_id t ≠ id) →
  in_clock (sv_engine st.1) ≠ id → fr_opcode f ≠ OpSchemaDrop →
  shelters id ts st (handle cfg env f st).1.
Proof.
  intros Hother Hown Hclk Hnd. unfold handle. case_if; [by destruct st|].
  destruct (decide (fr_opcode f = OpTxnBegin)) as [Eo|Nb];
    [|destruct (decide (fr_opcode f = OpTxnCommit)) as [Eo|Nc];
    [|destruct (decide (fr_opcode f = OpTxnRollback)) as [Eo|Nr]]].
  1-3: unfold handle_op; rewrite Eo; destruct st as [sv ss]; simpl in Hown, Hclk.
  - by apply (harbours_begin id ts (Some (sess_connection_id ss)) (sv_engine sv)).
  - unfold handle_txn_commit, take_txn, se_bind. simpl.
    destruct (sess_transactions ss !! fr_txn_id f) as [t|] eqn:Et; simpl; [|done].
    pose proof (harbours_commit id ts t (sv_engine sv) (Hown _ _ Et)) as Hc.
    by destruct (commit t (sv_engine sv)) as [i' [[]|e]].
  - unfold handle_txn_rollback, take_txn, se_bind. simpl.
    destruct (sess_transactions ss !! fr_txn_id f) as [t|] eqn:Et; simpl; [|done].
    apply (harbours_unregister id ts t (sv_engine sv) (Hown _ _ Et)).
  - apply rel_handle_op; try apply _; try done.
    + intros. apply harbours_touch.
    + intros sv ss s. apply harbours_step; [apply es_schema|]. apply active_same.
      apply (create_schema_keeps 0).
    + intros sv ss. apply Hother.
    + intros _ m s. apply shelters_mutation.
Qed.

(** C19: connections are isolated.  While a connection has an active transaction, a request
    of another connection (other than dropping a collection) leaves it active and does not
    change what it reads: every point read and every scan through the transaction gives
    the same answer before and after the request, whatever runs in between. *)
Theorem clients_isolated env f st st' reply t :
  engine_ok (sv_engine st.1) → active (sv_engine st.1) (tx_id t) (tx_read_ts t) →
  (∀ k t', sess_transactions st.2 !! k = Some t' → tx_id t' ≠ tx_id t) →
  in_clock (sv_engine st.1) ≠ tx_id t → fr_opcode f ≠ OpSchemaDrop →
  (∀ sv, harbours (tx_id t) (tx_read_ts t) (sv_engine sv) (sv_engine (en_other env sv))) →
  respond cfg env f st = (st', reply) →
  active (sv_engine st'.1) (tx_id t) (tx_read_ts t) ∧
  (∀ c id, txn_get (sv_engine st'.1) t c id = txn_get (sv_engine st.1) t c id) ∧
  (∀ c, overlay_scan (sv_engine st'.1) t c = overlay_scan (sv_engine st.1) t c).
Proof.
  intros Hok Ha Hown Hclk Hnd Hother. destruct st as [sv ss]. unfold respond. set (sv0 := set_sv_metrics _ sv).
  pose proof (shelters_handle (tx_id t) (tx_read_ts t) env f (sv0, ss) Hother Hown Hclk Hnd Ha) as [Hrun Ha'].
  assert (Hr : ∀ sv1, sv_engine sv1 = sv_engine (handle cfg env f (sv0, ss)).1.1 →
    active (sv_engine sv1) (tx_id t) (tx_read_ts t) ∧
    (∀ c id, txn_get (sv_engine sv1) t c id = txn_get (sv_engine sv) t c id) ∧
    (∀ c, overlay_scan (sv_engine sv1) t c = overlay_scan (sv_engine sv) t c)).
  { intros sv1 ->. split; [done|].
    pose proof (λ c, active_reads_kept (λ _, False) c t _ _ ltac:(by intros []) Hok Ha Hrun) as Hk.
    split; intros c; apply (Hk c). }
  destruct (handle cfg env f (sv0, ss)) as [[sv1 ss1] [fr|[e|]]]; intros [= <- _]; by apply Hr.
Qed.
End isolation.
