(* ===== verification/QuerySample.v ===== *)
(** * Queries on a concrete database

    Concrete instances of what queries are parameterised by, a small collection of notes
    with every kind of index, and runs of the executor on it: the promises of the query
    modules on concrete inputs, and the runs in which a query does not do what it means
    to. *)

From Stdlib Require Import Floats.SpecFloat.
From stdpp Require Import sorting.
From S2P Require Import Prelude Sorting BTree Text Value Core Rank Eval Chars Index Vector TextSearch.
From S2P Require Import Analyzer AnalyzedSearch Snippet Query Planner Cursor Exec ExecSpec ExecOrder.
From S2P Require Import Hnsw HnswSpec Ann.
From S2P Require Import Mvcc Storage StorageSample Txn Engine EngineSpec EngineIndex EngineRead EngineSample.

Import JsonSample.
Local Open Scope N_scope.

(** ** Instances *)

#[export] Instance sample_char_case : CharCase := λ c, [if (65 <=? c) && (c <=? 90) then c + 32 else c].
#[export] Instance sample_ln : NaturalLog := λ x, x.
#[export] Instance sample_map_order : MapOrder := map_to_list.
#[export] Instance sample_map_order_laws : MapOrderLaws.
Proof. intros m. done. Qed.
(** A logarithm to the base two, rounded to an integer; a heap drained in order. *)
#[export] Instance sample_f64_ln : F64Log := λ x,
  match x with
  | S754_finite false m e => f64_of_i64 (Z.pos (digits2_pos m) + e)
  | _ => S754_nan
  end.
#[export] Instance sample_heap_order : HeapOrder := λ h, h.
#[export] Instance sample_heap_order_laws : HeapOrderLaws.
Proof. intros h. done. Qed.
#[export] Instance sample_elapsed : ElapsedTime := λ _, 0.

(** ** Notes *)

Definition note_schema : CollectionSchema :=
  mkSchema "Note" [mkField "id" FUuid true true false false;
                   mkField "tag" FString false false true true;
                   mkField "body" FString false false true false;
                   mkField "at" (FVector 2) false false true false;
                   mkField "n" FInt false false true false]
    [] [mkIndex "body" FullText].

Definition f32_int (z : Z) : f32 := binary_normalize f32_prec f32_emax z 0 false.

Definition note (id : N) (key tag body : string) (x y n : Z) : Rec :=
  mkRec id "Note" [("at", VVector [f32_int x; f32_int y]); ("body", VText body); ("id", VText key);
                   ("n", VInt n); ("tag", VText tag)] 1 0.

Definition note1 : Rec := note 1 "k1" "red" "The Boxes and the box of tea" 1 0 30.
Definition note2 : Rec := note 2 "k2" "blue" "a box of tea" 0 1 10.
Definition note3 : Rec := note 3 "k3" "red" "tea leaves" 3 4 20.

Definition note_list : list Rec := [note1; note2; note3].
Definition notes : gmap N Rec := by_id note_list.
Definition note_index : CollectionIndexes := (rebuild note_list (from_schema note_schema)).1.

Lemma note_index_built : (rebuild note_list (from_schema note_schema)).2 = Ok tt.
Proof. by vm_compute. Qed.

Lemma note_index_ok : index_ok note_index notes.
Proof.
  pose proof (rebuild_spec note_schema note_list _ eq_refl) as Hr. pose proof note_index_built as Hb.
  unfold note_index. destruct (rebuild note_list (from_schema note_schema)) as [ci [[]|e]]; [|done].
  apply Hr. apply (bool_decide_unpack _). by vm_compute.
Qed.

Lemma notes_elem id r : notes !! id = Some r → rec_id r = id ∧ r ∈ note_list.
Proof.
  intros Hr%elem_of_list_to_map_2. by apply list_elem_of_fmap in Hr as (r' & [= -> ->] & Hin).
Qed.

#[local] Opaque note_index notes.

(** Two sources over the notes: without statistics, and with statistics that make the
    text index look cheap, scanning in another order. *)
Definition notes_source (stats : option CollectionStats) (scan : list Rec) : DataSource :=
  mkSource (λ c, if bool_decide (c = "Note") then Some note_schema else None)
    (λ c, if bool_decide (c = "Note") then Some note_index else None)
    (λ c, if bool_decide (c = "Note") then scan else [])
    (λ c id, if bool_decide (c = "Note") then notes !! id else None) (λ _ _, None) (λ _, stats) (Some 1).

Definition plain_source : DataSource := notes_source None note_list.
Definition skewed_stats : CollectionStats := mkStats 1000 [("tag", 1%nat)] [] [("body", 20%nat)] 0.
Definition skewed_source : DataSource := notes_source (Some skewed_stats) [note3; note1; note2].

Lemma notes_source_ok stats scan :
  scan ≡ₚ note_list → source_ok (notes_source stats scan) "Note" notes.
Proof.
  intros Hp. split; simpl.
  - done.
  - intros id r Hr. by apply notes_elem in Hr as [? _].
  - rewrite Hp. change notes with (by_id note_list). unfold by_id. rewrite map_to_list_to_map; [by apply Permutation_refl|].
    apply (bool_decide_unpack _). by vm_compute.
  - intros ci Hci. assert (ci = note_index) as -> by congruence. apply note_index_ok.
Qed.

Lemma plain_ok : source_ok plain_source "Note" notes.
Proof. by apply notes_source_ok. Qed.

Lemma skewed_ok : source_ok skewed_source "Note" notes.
Proof. apply notes_source_ok. apply (bool_decide_unpack _). by vm_compute. Qed.

(** ** Filters and order *)

Definition red : Filter := FCompare "tag" CmpEq (VText "red").
Definition red_notes : FindQuery :=
  mkFind "Note" (Some red) None None None None [mkOrderKey "n" false] (Some 5%nat) None None [] None None.

Lemma find_returns_accepted_witness :
  ∃ all res, (run_find plain_source red_notes deadline_none 0%nat).2 = Ok res ∧
    pf_ordered res.1 = window red_notes all ∧ NoDup (sc_id <$> all) ∧
    (∀ id, id ∈ sc_id <$> all ↔ accepted red_notes notes id) ∧
    execute_count plain_source (mkCount "Note" (Some red)) = Ok (length all) ∧
    execute_exists plain_source (mkExists "Note" (Some red)) = Ok (bool_decide (all ≠ [])).
Proof.
  apply (find_returns_accepted plain_source red_notes notes note_index note_schema 0%nat).
  - apply plain_ok.
  - reflexivity.
  - reflexivity.
  - done.
  - by vm_compute.
Defined.

Lemma notes_comparable : comparable [mkOrderKey "n" false] notes.
Proof.
  intros key ->%list_elem_of_singleton. exists 0. intros id r v [_ Hin]%notes_elem Hv.
  repeat (apply elem_of_cons in Hin as [->|Hin]; [by injection Hv as <-|]). destruct (not_elem_of_nil _ Hin).
Qed.

Lemma ordered_find_deterministic_witness :
  ∃ all res res', (run_find plain_source red_notes deadline_none 0%nat).2 = Ok res ∧
    (run_find skewed_source red_notes deadline_none 0%nat).2 = Ok res' ∧
    pf_ordered res.1 = window red_notes all ∧ pf_ordered res'.1 = window red_notes all ∧
    StronglySorted (λ a b, order_cmp plain_source "Note" [mkOrderKey "n" false] a b = Lt) all ∧
    ∀ id, id ∈ sc_id <$> all ↔ accepted red_notes notes id.
Proof.
  apply (ordered_find_deterministic plain_source skewed_source red_notes notes note_index note_schema
           (mkOrderKey "n" false) [] 0%nat 0%nat).
  - apply plain_ok.
  - apply skewed_ok.
  - reflexivity.
  - reflexivity.
  - reflexivity.
  - reflexivity.
  - done.
  - by vm_compute.
  - by vm_compute.
  - reflexivity.
  - apply notes_comparable.
Defined.

Example red_notes_rows :
  (ordered ← (match (run_find plain_source red_notes deadline_none 0%nat).2 with
              | Ok r => Some (sc_id <$> pf_ordered r.1) | Err _ => None end); Some ordered) = Some [3; 1].
Proof. by vm_compute. Qed.

(** ** Searches *)

Definition near : list f32 := [f32_int 1; f32_int 1].

Lemma vector_nearest_exact_witness :
  let live := live_neighbors "at" near Cosine notes in
  ∃ result, vector_nearest note_index "at" near 2 Cosine = Ok result ∧
    result = take 2 (sort_by rank_cmp live) ∧
    StronglySorted (cmp_lt rank_cmp) result ∧ length result = Nat.min 2 (length live) ∧
    (∀ n, n ∈ result → n ∈ live) ∧
    (∀ a b, a ∈ result → b ∈ live → b ∉ result → rank_cmp a b = Lt).
Proof.
  assert (Hvi : is_Some (ci_vector_maps note_index !! "at")) by (apply (bool_decide_unpack _); by vm_compute).
  destruct Hvi as [vi Hvi].
  assert (Hdim : vi_dim <$> ci_vector_maps note_index !! "at" = Some 2%nat) by by vm_compute.
  rewrite Hvi in Hdim. injection Hdim as Hdim.
  apply (vector_nearest_exact note_index notes "at" vi near 2 Cosine note_index_ok Hvi).
  - by rewrite Hdim.
  - apply (bool_decide_unpack _). by vm_compute.
Defined.

Lemma analyzed_search_symmetric_witness :
  ∃ res, text_search_analyzed note_index "body" "Box" PEnglishBasic true false BM25_DEFAULT_K1
           BM25_DEFAULT_B = Ok (Some res) ∧
    NoDup res.*1 ∧
    ∀ id, id ∈ res.*1 ↔ ∃ r s, notes !! id = Some r ∧ field_text "body" r = Some s ∧
      index_terms PEnglishBasic "Box" ≠ [] ∧
      ∃ t, t ∈ index_terms PEnglishBasic "Box" ∧ t ∈ index_terms PEnglishBasic s.
Proof.
  assert (Hti : is_Some (ci_text_maps note_index !! "body")) by (apply (bool_decide_unpack _); by vm_compute).
  destruct Hti as [ti Hti].
  apply (analyzed_search_symmetric PEnglishBasic note_index notes "body" ti "Box" true false
           BM25_DEFAULT_K1 BM25_DEFAULT_B Hti (ix_text _ _ note_index_ok _ _ Hti)); [|done].
  intros id r s [_ Hin]%notes_elem Hs.
  repeat (apply elem_of_cons in Hin as [->|Hin]; [by injection Hs as <-|]). destruct (not_elem_of_nil _ Hin).
Defined.

Definition long_text : string := "create, verify, and restore an AuraDB backup".

Lemma snippet_bounded_witness :
  match build_snippet "body" ["body"] [("body", long_text)] "RESTORE" PSimple (mkSnippetOptions 2 12) with
  | None => "body" ∉ ["body"]
  | Some sn =>
      "body" ∈ ["body"] ∧ sn_field sn = "body" ∧ (length (sn_fragments sn) <= 2)%nat ∧
      ∀ f, f ∈ sn_fragments sn → good_fragment PSimple long_text "RESTORE" 12 f
  end.
Proof.
  apply (snippet_bounded "body" ["body"] [("body", long_text)] long_text "RESTORE" PSimple
           (mkSnippetOptions 2 12)); by vm_compute.
Defined.

Example restore_snippet :
  sn_fragments <$> build_snippet "body" ["body"] [("body", long_text)] "RESTORE" PSimple
                     (mkSnippetOptions 2 12) = Some [mkFragment "restore an A" [mkRange 0 7]].
Proof. by vm_compute. Qed.

(** ** Through the engine *)

Definition no_stats : string → option CollectionStats := λ _, None.

Definition users_view : DataSource :=
  match txn_view users txn1 "User" no_stats with Ok v => v | Err _ => plain_source end.

Lemma users_view_built : res_is_ok (txn_view users txn1 "User" no_stats) = true.
Proof. by vm_compute. Qed.

(** [users]: opened empty, the schema created, two users inserted. *)
Lemma users0_run : indexed_run users0.
Proof.
  eapply ir_schema; [|exact (pair_eq_2 (create_schema user_schema empty_engine) (Ok tt) ltac:(by vm_compute))].
  apply (ir_open (in_storage empty_engine) ∅ 0 60 1); [apply empty_engine_ok|split; [constructor|done]|by vm_compute].
Qed.

Lemma users_made : (apply_mutation (MBulkInsert "User" new_users) users0).2 = Ok users_result.
Proof. by vm_compute. Qed.

Lemma users_run : indexed_run users.
Proof.
  exact (ir_mutation (MBulkInsert "User" new_users) users0 users users_result users0_run eq_refl
    (pair_eq_2 _ _ users_made) users_result_nodup).
Qed.

Lemma engine_sources_ok_witness :
  source_ok (engine_source users no_stats) "User" (live_map (records_of users) "User") ∧
  source_ok users_view "User" (txn_map users txn1 "User") ∧
  ∀ id, txn_map users txn1 "User" !! id = txn_get users txn1 "User" id.
Proof.
  destruct (engine_sources_ok users txn1 "User" no_stats no_stats users_view users_run txn1_wf) as (Hs & _ & Hv & Ht).
  - by vm_compute.
  - apply (bool_decide_unpack _). by vm_compute.
  - unfold users_view. pose proof users_view_built as Hb. by destruct (txn_view users txn1 "User" no_stats).
  - split_and!; [exact Hs|exact Hv|exact Ht].
Defined.

(** ** Runs in which a query does not do what it means to *)

(** Statistics decide whether an ordering is honoured: under a plan seeded by the text
    index the rows come by score, and a limit then cuts off other rows. *)
Definition red_tea : FindQuery :=
  mkFind "Note" (Some (FAnd [red; FContainsText "body" "tea"])) None None None None
    [mkOrderKey "n" false] (Some 1%nat) None None [] None None.

Definition found {E B} (r : Result E (PlannedFind * B)) : list N :=
  match r with Ok p => sc_id <$> pf_ordered p.1 | Err _ => [] end.

Example statistics_change_the_result :
  found (run_find plain_source red_tea deadline_none 0%nat).2 = [3] ∧
  found (run_find skewed_source red_tea deadline_none 0%nat).2 = [1].
Proof. by vm_compute. Qed.

(** A transaction that only reads uses the committed indexes: after another commit an
    indexed find misses a record its snapshot holds, which its count still finds. *)
Definition reader : Transaction := begin_at (in_clock users) (st_last_commit_ts (in_storage users)).
Definition moved_on : Eng := (apply_mutation (set_email "z@x") (begin_with_connection None users).1).1.
Definition find_a : FindQuery := mkFind "User" only_a None None None None [] None None None [] None None.

Example snapshot_find_misses_record :
  match (txn_plan_find no_stats reader find_a moved_on).2 with
  | Ok p => pf_ordered p = []
  | Err _ => False
  end ∧
  (txn_count no_stats reader (mkCount "User" only_a) moved_on).2 = Ok 1%nat ∧
  (txn_get moved_on reader "User" (id_of "u1") ≫= λ r, record_get r "email") = Some (VText "a@x").
Proof. by vm_compute. Qed.

(** A NaN score ties with every other, so the neighbours returned depend on the order in
    which the hash map is iterated.  The vectors are finite; their product is not. *)
Definition f32_huge : f32 := S754_finite false 16777215 104.
Definition nan_query : list f32 := [f32_huge; f32_huge].
Definition nan_entries : list (N * list f32) :=
  [(3, [f32_int 2; f32_zero]); (2, [f32_huge; SFopp f32_huge]); (1, [f32_int 1; f32_zero])].

Example nan_makes_search_order_dependent :
  nb_id <$> nearest nan_entries nan_query 1 DotProduct = [1] ∧
  nb_id <$> nearest (rev nan_entries) nan_query 1 DotProduct = [3].
Proof. by vm_compute. Qed.

(** A match longer than the fragment budget yields a fragment without a highlight. *)
Example fragment_without_highlight :
  sn_fragments <$> build_snippet "body" ["body"] [("body", "find the needle")] "needle" PSimple
                     (mkSnippetOptions 3 3) = Some [mkFragment "nee" []].
Proof. by vm_compute. Qed.

(** The plural fold collapses a singular noun onto another stem. *)
Example plural_fold_truncates_singular :
  index_terms PEnglishBasic "canvas" = ["canva"] ∧ index_terms PEnglishBasic "canvases" = ["canvas"].
Proof. by vm_compute. Qed.

(** With values of different types under a key the comparison is circular. *)
Definition mixed (id : N) (v : Value) : N * Rec := (id, mkRec id "Note" [("n", v)] 1 0).
Definition mixed_source : DataSource :=
  let recs : gmap N Rec := list_to_map [mixed 1 (VInt 2); mixed 2 (VText "x"); mixed 3 (VInt 1)] in
  mkSource (λ _, None) (λ _, None) (λ _, []) (λ _ id, recs !! id) (λ _ _, None) no_stats None.

Example mixed_order_is_circular :
  let cmp a b := order_cmp mixed_source "Note" [mkOrderKey "n" false] (scored_plain a) (scored_plain b) in
  cmp 1 2 = Lt ∧ cmp 2 3 = Lt ∧ cmp 3 1 = Lt.
Proof. by vm_compute. Qed.

(** ** Approximate searches on concrete vectors

    A star of four vectors, and the notes of [QuerySample] searched while they are
    inserted.  The star shows that the bound under which the approximate search is exact is
    tight: with one vector more than [2m + 1] a link is cut, and the vector behind it is
    found by no search however wide its beam. *)

Definition params1 : HnswParams := mkHnswParams 1 4.
Definition star : list (N * list f32) :=
  [(10, [f32_int 0; f32_int 0]); (11, [f32_int 1; f32_int 0]); (12, [f32_int 0; f32_int 2]);
   (13, [f32_int (-3); f32_int 0])].


(** The vector nearest to the query is stored, and is not found. *)
Example cut_vector_unreachable :
  (g ← hnsw_build star Euclidean params1 ANN_GRAPH_SEED;
   r ← hnsw_nearest g [f32_int (-3); f32_int 0] 4 100; Some (map nb_id r)) = Some [10; 12; 11] ∧
  map nb_id (nearest star [f32_int (-3); f32_int 0] 4 Euclidean) = [13; 10; 12; 11].
Proof. by vm_compute. Qed.

(** The indexes after two notes, a search, and a third note. *)
Definition at_origin : list f32 := [f32_int 0; f32_int 0].
Definition two_notes : CachedIndexes := cached_insert note2 (cached_insert note1 (uncached (from_schema note_schema))).
Definition searched : CachedIndexes :=
  match cached_ann_nearest "at" at_origin 2 Euclidean params1 3 two_notes with
  | Some (cx, _) => cx
  | None => two_notes
  end.
Definition three_notes : CachedIndexes := cached_insert note3 searched.

Lemma three_notes_history : ann_history (from_schema note_schema) three_notes.
Proof.
  apply history_insert. unfold searched.
  assert (Ht : ann_history (from_schema note_schema) two_notes) by (apply history_insert, history_insert, history_new).
  destruct (cached_ann_nearest _ _ _ _ _ _ two_notes) as [[cx r]|] eqn:E; [|done].
  by apply (history_search _ "at" at_origin 2 Euclidean params1 3 two_notes cx r).
Qed.

Definition at_vectors : ExactVectorIndex :=
  default (vector_index_new 2) (ci_vector_maps (cx_indexes three_notes) !! "at").

Lemma three_notes_small :
  small_field (cx_indexes three_notes) "at" at_origin 2 Euclidean params1 3 at_vectors.
Proof.
  assert (Hall : map_Forall (λ _ v, length v = 2%nat ∧ similarity Euclidean at_origin v ≠ S754_nan) (vi_entries at_vectors))
    by (apply (bool_decide_unpack _); by vm_compute).
  split; [by vm_compute..| |].
  - intros id v Hv. by apply (Hall id v Hv).
  - intros id v Hv. by apply (Hall id v Hv).
Qed.

