(* ===== verification/ReadSample.v ===== *)
(** * Aggregations, pages and index snapshots on concrete databases

    Countable encodings that give an instance of the snapshot codec, the promises of
    [Aggregate], [SearchPage] and [IndexSnapshot] on concrete inputs, and the runs in which
    the code does not do what it means to. *)

From Stdlib Require Import Floats.SpecFloat.
From stdpp Require Import pretty.
From S2P Require Import Ann Prelude Sorting BTree Text Framing Value Core Rank Eval Chars Index Vector.
From S2P Require Import TextSearch Analyzer AnalyzedSearch Snippet Query Planner Cursor IndexSnapshot Exec ExecSpec.
From S2P Require Import ExecOrder SearchPage Aggregate AggregateSpec Mvcc Storage StorageSample Txn Engine.
From S2P Require Import EngineSpec EngineIndex EngineRead EngineSample QuerySample.

Import JsonSample.
Local Open Scope N_scope.

#[local] Opaque note_index notes.

(** ** Instances *)

#[export] Instance sample_hash_order : HashOrder := λ V m, map_to_list m.
#[export] Instance sample_hash_order_laws : HashOrderLaws.
Proof. intros V m. done. Qed.

#[export] Instance sample_query_json : QueryJson := λ c _ _ _ _, bytes_of c.

#[export] Instance UniqueIndexData_eq_dec : EqDecision UniqueIndexData.
Proof. solve_decision. Defined.
#[export] Instance UniqueIndexData_countable : Countable UniqueIndexData.
Proof.
  refine (inj_countable' (λ d, (ud_field d, ud_entries d))
    (λ '(f, e), mkUniqueData f e) _). by intros [].
Defined.

#[export] Instance SecondaryIndexData_eq_dec : EqDecision SecondaryIndexData.
Proof. solve_decision. Defined.
#[export] Instance SecondaryIndexData_countable : Countable SecondaryIndexData.
Proof.
  refine (inj_countable' (λ d, (sd_field d, sd_entries d))
    (λ '(f, e), mkSecondaryData f e) _). by intros [].
Defined.

#[export] Instance VectorIndexData_eq_dec : EqDecision VectorIndexData.
Proof. solve_decision. Defined.
#[export] Instance VectorIndexData_countable : Countable VectorIndexData.
Proof.
  refine (inj_countable' (λ d, (vd_field d, vd_dim d, vd_entries d))
    (λ '(f, n, e), mkVectorData f n e) _). by intros [].
Defined.

#[export] Instance TextIndexData_eq_dec : EqDecision TextIndexData.
Proof. solve_decision. Defined.
#[export] Instance TextIndexData_countable : Countable TextIndexData.
Proof.
  refine (inj_countable' (λ d, (td_field d, td_postings d, td_doc_lengths d))
    (λ '(f, p, l), mkTextData f p l) _). by intros [].
Defined.

#[export] Instance HnswMetadata_eq_dec : EqDecision HnswMetadata.
Proof. solve_decision. Defined.
#[export] Instance HnswMetadata_countable : Countable HnswMetadata.
Proof.
  refine (inj_countable' (λ d, (hm_field d, hm_dim d, hm_vector_count d, hm_generation d))
    (λ '(f, n, c, g), mkHnswMetadata f n c g) _). by intros [].
Defined.

#[export] Instance IndexSnapshot_eq_dec : EqDecision IndexSnapshot.
Proof. solve_decision. Defined.
#[export] Instance IndexSnapshot_countable : Countable IndexSnapshot.
Proof.
  refine (inj_countable' (λ d, (is_format_version d, is_schema_version d, is_fingerprint d, is_primary_field d, is_unique d,
     is_secondary d, is_document_paths d, is_vectors d, is_text d, is_hnsw d))
    (λ '(a, b, c, d, e, f, g, h, i, j), mkSnapshot a b c d e f g h i j) _). by intros [].
Defined.

#[export] Instance sample_snapshot_codec : SnapshotCodec := {|
  snapshot_to_json := sample_enc;
  snapshot_of_json := sample_dec;
|}.
#[export] Instance sample_snapshot_codec_laws : SnapshotCodecLaws.
Proof. intros s _. apply sample_dec_enc. Qed.

(** ** Aggregations *)

(** The notes by tag and by their number. *)
Definition tag_facets : AggregateQuery :=
  mkAggregate "Note" None None [mkFacet "tag" None; mkFacet "n" (Some 2%nat)]
    [mkMetric AggCount None; mkMetric AggMin (Some "n"); mkMetric AggAvg (Some "n")] (Some "tag") None None.

Example tag_facets_run :
  match (execute_aggregate plain_source tag_facets deadline_none 0%nat).2 with
  | Ok r => (λ f, (fv_used_index f, (λ b, (fb_value b, fb_count b)) <$> fv_buckets f)) <$> ar_facets r =
              [(true, [(VText "red", 2%nat); (VText "blue", 1%nat)]); (false, [(VInt 10, 1%nat); (VInt 20, 1%nat)])]
            ∧ mv_value <$> ar_metrics r = [VInt 3; VInt 10; VFloat (f64_of_i64 20)]
            ∧ ((λ g, (gb_key g, gb_count g)) <$> (default [] (gr_groups <$> ar_groups r))) =
              [(VText "red", 2%nat); (VText "blue", 1%nat)]
  | Err _ => False
  end.
Proof. by vm_compute. Qed.

Lemma notes_values field v :
  (∃ r, r ∈ note_list ∧ record_get_path r field = Some v) →
  v ∈ omap (λ r, record_get_path r field) note_list.
Proof. intros (r & Hr & Hv). apply list_elem_of_omap. eauto. Qed.

Lemma notes_of_map r : r ∈ (map_to_list notes).*2 → r ∈ note_list.
Proof.
  intros Hr. apply list_elem_of_fmap in Hr as ([id r'] & -> & Hr%elem_of_map_to_list).
  by apply notes_elem in Hr as [_ ?].
Qed.

Lemma notes_one_kind field kind :
  Forall (λ v, v ≠ VNull → separable v ∧ value_kind v = Some kind)
    (omap (λ r, record_get_path r field) note_list) →
  one_kind field kind (map_to_list notes).*2.
Proof.
  intros Hall r v Hr%notes_of_map Hv. rewrite Forall_forall in Hall. apply Hall.
  apply notes_values. eauto.
Qed.

Lemma tag_one_kind : one_kind "tag" 2 (map_to_list notes).*2.
Proof. apply notes_one_kind. by repeat constructor. Qed.

Lemma n_one_kind : one_kind "n" 0 (map_to_list notes).*2.
Proof. apply notes_one_kind. by repeat constructor. Qed.

Lemma tag_facets_facetable : facetable note_index notes tag_facets.
Proof.
  intros f Hf. assert (Hin : f ∈ [mkFacet "tag" None; mkFacet "n" (Some 2%nat)]) by exact Hf.
  apply elem_of_cons in Hin as [->|Hin%list_elem_of_singleton]; [|subst f].
  - split; [by left|]. exists 2. apply tag_one_kind.
  - split; [by left|]. exists 0. apply n_one_kind.
Qed.

Lemma tag_scalars : Forall (item_scalar (path_value "tag")) (map_to_list notes).*2.
Proof. apply (one_kind_scalar "tag" 2), tag_one_kind. Qed.


Lemma groups_partition_witness :
  ∃ groups, groups ≡ₚ group_reference [] "tag" note_list ∧
    sum_list (gb_count <$> groups) = 3%nat.
Proof.
  destruct (proj1 (groups_partition deadline_none
    (mkAggregate "Note" None None [] [] (Some "tag") None None) "tag" note_list)) as (groups & Hp & Hs & _).
  - repeat constructor; by eexists.
  - exists groups. split; [exact Hp|exact Hs].
Defined.

(** ** Pages of a ranked search *)

Definition tea_search : FindQuery :=
  mkFind "Note" None None None (Some (mkTextSearch "body" "tea box" OpOr RankBm25 None None None)) None []
    (Some 1%nat) None None [] None None.

Definition tea_selection : Res Selection :=
  select_candidates plain_source note_index (full_query tea_search)
    (pl_access (source_plan plain_source (full_query tea_search) note_schema note_index)).

Definition pageableb (s : Scored) : bool :=
  f32_ok (score_of s) && (sc_id s <? 2 ^ 128) && negb (bool_decide (score_of s = S754_nan)).

Lemma pageableb_spec s : pageableb s = true → pageable s.
Proof.
  unfold pageableb, pageable, row_ok. intros Hs. bool_to_prop. done.
Qed.

Lemma tea_scores : match tea_selection with Ok sel => forallb pageableb (se_candidates sel) | Err _ => false end = true
  ∧ match tea_selection with Ok sel => (length (se_candidates sel) <? 4)%nat | Err _ => false end = true.
Proof. by vm_compute. Qed.

Lemma tea_page_scores : page_scores plain_source (full_query tea_search).
Proof.
  intros ci schema sel Hci Hs Hsel. change (Some note_index = Some ci) in Hci.
  change (Some note_schema = Some schema) in Hs.
  assert (ci = note_index) as -> by congruence. assert (schema = note_schema) as -> by congruence.
  destruct tea_scores as [Hf Hl]. unfold tea_selection in Hf, Hl. rewrite Hsel in Hf, Hl. split.
  - apply Forall_forall. intros s Hin. apply pageableb_spec. rewrite forallb_forall in Hf.
    apply Hf. by apply list_elem_of_In.
  - bool_to_prop. lia.
Qed.

Definition tea_result : Res PlannedFind :=
  (execute_find_within plain_source (full_query tea_search) deadline_none 0%nat).2.
Definition tea_planned : PlannedFind :=
  match tea_result with Ok p => p | Err _ => mkPlanned [] (mkExplain "" SFullScan None 0 false None None None [] [] [] 0 S754_nan (NScan "" 0) None) end.

Lemma tea_found : sc_id <$> pf_ordered tea_planned = [2; 1; 3].
Proof. by vm_compute. Qed.

Lemma tea_result_ok : tea_result = Ok tea_planned.
Proof.
  assert (Hok : res_is_ok tea_result = true) by (by vm_compute). unfold tea_planned.
  by destruct tea_result.
Qed.


(** ** Index snapshots *)

Definition no_dir : IndexDir := mkIndexDir None ∅.
Definition user_scan (i : Eng) (c : string) : list Rec := rm_scan (records_of i) c.

(** The engine's checkpoint of its indexes. *)
Definition checkpoint (i : Eng) : IndexDir :=
  persist_indexes (cat_schema_version (st_catalog (in_storage i))) (user_scan i) (in_indexes i) no_dir.

Definition users_index : CollectionIndexes := default user_index0 (in_indexes users !! "User").
Definition users_records : list Rec := user_scan users "User".

Lemma users_index_found : in_indexes users !! "User" = Some users_index.
Proof.
  assert (Hs : bool_decide (is_Some (in_indexes users !! "User")) = true) by (by vm_compute).
  apply bool_decide_eq_true in Hs as [ci Hci]. unfold users_index. by rewrite Hci.
Qed.

Lemma users_only n : is_Some (in_indexes users !! n) → n = "User".
Proof.
  intros Hn%elem_of_dom. assert (Hd : bool_decide (dom (in_indexes users) = {["User"]}) = true) by (by vm_compute).
  apply bool_decide_eq_true in Hd. rewrite Hd in Hn. by apply elem_of_singleton in Hn.
Qed.

Lemma users_index_ok : index_ok users_index (by_id users_records).
Proof.
  pose proof (sk_index _ _ _ (engine_source_ok users no_stats "User" users_ok users_indexed) users_index
    users_index_found) as Hix.
  exact Hix.
Qed.

Lemma users_maps : same_maps users_index user_schema.
Proof.
  split; [apply (bool_decide_eq_true_1 _); by vm_compute..|]. intros f.
  assert (Hv : bool_decide (ci_vector_maps (from_schema user_schema) = ∅) = true ∧
    bool_decide (ci_vector_maps users_index = ∅) = true) by (by vm_compute).
  destruct Hv as [H1%bool_decide_eq_true H2%bool_decide_eq_true]. by rewrite H1, H2.
Qed.

Lemma NoDup_same_id (records : list Rec) r r' :
  NoDup (rec_id <$> records) → r ∈ records → r' ∈ records → rec_id r = rec_id r' → r = r'.
Proof.
  intros Hnd Hr Hr' He. pose proof (by_id_elem records r Hnd Hr) as E1.
  pose proof (by_id_elem records r' Hnd Hr') as E2. rewrite He, E2 in E1. congruence.
Qed.

Lemma user_snapshot_safe fp : snapshot_safe (snapshot users_index 1 fp).
Proof.
  assert (Hv : bool_decide (ci_vector_maps users_index = ∅) = true) by (by vm_compute).
  apply bool_decide_eq_true in Hv. unfold snapshot_safe, snapshot. cbn [is_vectors]. rewrite Hv. constructor.
Qed.

Lemma user_snapshot_short :
  N.of_nat (length (snapshot_to_json (snapshot users_index 1 (fingerprint users_records)))) < 2 ^ 32.
Proof. by vm_compute. Qed.

Lemma users_version : cat_schema_version (st_catalog (in_storage users)) = 1.
Proof. by vm_compute. Qed.

Lemma users_fields : with_fields user_schema users_index = users_index.
Proof. unfold with_fields. destruct users_index eqn:E. rewrite <- E. vm_compute. reflexivity. Qed.

Lemma users_files n n' :
  is_Some (in_indexes users !! n) → is_Some (in_indexes users !! n') → index_filename n = index_filename n' → n = n'.
Proof. intros Hn Hn' _. by rewrite (users_only n Hn), (users_only n' Hn'). Qed.

Lemma users_held : holds_snapshot (checkpoint users) "User" users_index 1 users_records.
Proof.
  unfold checkpoint. rewrite users_version.
  apply (persisted_snapshot no_dir 1 (user_scan users) (in_indexes users) "User" users_index).
  - exact users_index_found.
  - exact users_files.
  - apply user_snapshot_safe.
  - exact user_snapshot_short.
Qed.

(** Records with the fingerprint of the checkpoint get the checkpoint's index. *)
Lemma users_reload records :
  fingerprint users_records = fingerprint records →
  load_index (checkpoint users) user_schema records = Some users_index.
Proof.
  intros Hf. rewrite (load_index_held _ user_schema users_index 1 users_records records users_held).
  rewrite Hf, N.eqb_refl.
  rewrite (from_snapshot_ok users_index user_schema (by_id users_records)).
  - by rewrite users_fields.
  - exact users_index_ok.
  - exact users_maps.
  - rewrite <- users_fields. done.
Qed.

Lemma checkpoint_reloads_witness :
  load_index (persist_indexes 1 (user_scan users) (in_indexes users) no_dir) user_schema users_records
  = Some users_index.
Proof.
  apply (checkpoint_reloads no_dir 1 (user_scan users) (in_indexes users) "User" users_index user_schema
    (by_id users_records)).
  - exact users_index_found.
  - reflexivity.
  - exact users_index_ok.
  - exact users_maps.
  - exact users_fields.
  - exact users_files.
  - apply user_snapshot_safe.
  - exact user_snapshot_short.
Defined.

Lemma loaded_index_agrees_witness : index_ok users_index (by_id users_records).
Proof.
  apply (loaded_index_agrees (checkpoint users) user_schema users_index users_index 1 users_records users_records).
  - exact users_held.
  - exact users_index_ok.
  - reflexivity.
  - intros r r' Hr Hr' He. apply (NoDup_same_id users_records); [|exact Hr|exact Hr'|].
    + apply (bool_decide_eq_true_1 _). by vm_compute.
    + unfold id_version in He. congruence.
  - apply users_reload. reflexivity.
Defined.

(** ** Runs in which the code does not do what it means to *)

(** A record that was deleted and inserted again has its old id and version, so the
    fingerprint does not change and a stale snapshot is loaded: after the restart the
    indexed find misses the record that a count finds. *)
Definition reinserted : Eng :=
  (apply_mutation (MInsert "User" (user "u2" "c@x")) (apply_mutation (MDelete "User" only_b) users).1).1.

Lemma reinserted_fingerprint :
  fingerprint users_records = fingerprint (user_scan reinserted "User").
Proof. apply N.eqb_eq. by vm_compute. Qed.

Example stale_snapshot_loaded :
  load_index (checkpoint users) user_schema (user_scan reinserted "User") = Some users_index ∧
  lookup_eq users_index "email" (VText "c@x") = Some [] ∧
  length (filter (λ r, record_get r "email" = Some (VText "c@x")) (user_scan reinserted "User")) = 1%nat.
Proof.
  split; [apply users_reload; exact reinserted_fingerprint|]. split; by vm_compute.
Qed.

(** Values that the order of buckets does not tell apart: the order of equal buckets, and
    with a limit which of them is returned, is that of the hash map. *)
Example equal_buckets_in_hash_order :
  let one : list FacetBucket := [mkBucket (VInt 1) 2; mkBucket (VFloat (f64_of_i64 1)) 2] in
  key_of (VInt 1) ≠ key_of (VFloat (f64_of_i64 1)) ∧
  sort_by order_buckets one = one ∧ sort_by order_buckets (rev one) = rev one.
Proof. by vm_compute. Qed.

(** A count that carries a field is accepted, and a group limit without grouping is not
    ignored. *)
Example aggregate_validation_differs :
  validate_aggregate (mkAggregate "Note" None None [] [mkMetric AggCount (Some "n")] None None None) = Ok tt ∧
  validate_aggregate (mkAggregate "Note" None None [] [mkMetric AggCount None] None (Some 5%nat) None)
    = Err EInvalidRequest.
Proof. by vm_compute. Qed.
