(* ===== verification/SnapshotSample.v ===== *)
(** * Snapshots of a concrete engine

    The promises of [SnapshotSpec] on the users of [EngineSample], and two runs that show
    what a snapshot does not keep: a restore that refuses a database it captured, and
    records that an install leaves behind. *)

From S2P Require Import Ann Prelude Sorting BTree Text Framing Value Core Rank Eval Chars Index Vector TextSearch.
From S2P Require Import Analyzer AnalyzedSearch Snippet Query Planner Cursor Exec ExecSpec SearchPage Aggregate QueryTools Mvcc.
From S2P Require Import Storage StorageRecovery StorageSample Txn Engine EngineSpec EngineIndex EngineRead.
From S2P Require Import RaftLog Replication Snapshot SnapshotSpec EngineSample QuerySample ReadSample.

Import JsonSample.
Local Open Scope N_scope.

(** ** A codec *)

Definition meta_tuple (t : SnapshotMeta) :=
  ((sm_format_version t, sm_cluster_id t, sm_node_id t, sm_last_included_index t,
    sm_last_included_term t), (sm_storage_format_version t, sm_collections t, sm_records t,
    sm_digest t, sm_created_by_version t, sm_created_at_unix t)).

#[export] Instance sample_manifest_codec : ManifestCodec := {|
  enc_data d := sample_enc (sd_schemas d, sd_records d);
  dec_data l := (λ p, mkSnapData p.1 p.2) <$> sample_dec l;
  enc_snapshot m := sample_enc (meta_tuple (sn_meta m), sn_payload m);
  dec_snapshot l :=
    (λ '((v, c, n, i, t), (s, cs, rs, d, ver, at_), p),
       mkSnapManifest (mkSnapMeta v c n i t s cs rs d ver at_) p) <$> sample_dec l;
  snapshot_crc := sample_crc;
|}.

#[export] Instance sample_manifest_codec_laws : ManifestCodecLaws.
Proof.
  split.
  - intros [ss rs] _. cbn [enc_data dec_data sample_manifest_codec sd_schemas sd_records].
    by rewrite (sample_dec_enc (ss, rs)).
  - intros [t p]. cbn [enc_snapshot dec_snapshot sample_manifest_codec sn_meta sn_payload].
    rewrite (sample_dec_enc (meta_tuple t, p)). by destruct t.
Qed.

(** ** Transfer *)

(** The users, with their indexes rebuilt as on opening. *)
Definition user_index : CollectionIndexes :=
  (rebuild (rm_scan (records_of users) "User") (from_schema user_schema)).1.
Definition leader {L} : Inner L :=
  mkInner (in_storage users) {["User" := user_index]} (in_clock users) [] 0 60 0 1 ∅ None.

Section leader.
Context {L : Type}.
Local Abbreviation leader := (@leader L).

Lemma leader_ok : engine_ok leader.
Proof. destruct users_ok as [Hs _ _]. split; [exact Hs|constructor|done]. Qed.

Lemma leader_catalog : cat_schemas (st_catalog (in_storage leader)) = [("User", user_schema)].
Proof. by vm_compute. Qed.

Lemma leader_schema c schema :
  get_schema (in_storage leader) c = Some schema → c = "User" ∧ schema = user_schema.
Proof.
  unfold get_schema. rewrite leader_catalog. intros Hg%bt_get_elem_of%list_elem_of_singleton.
  injection Hg as -> ->. split; reflexivity.
Qed.

Lemma leader_indexed : engine_indexed leader.
Proof.
  intros c ci Hci. change (in_indexes leader) with ({["User" := user_index]} : gmap string CollectionIndexes) in Hci.
  apply lookup_singleton_Some in Hci as [<- <-]. unfold user_index, live_map.
  destruct (scan_facts (records_of leader) "User") as [Hnd _]; [apply leader_ok|].
  assert (Hb : (rebuild (rm_scan (records_of users) "User") (from_schema user_schema)).2 = Ok tt)
    by by vm_compute.
  pose proof (rebuild_spec user_schema (rm_scan (records_of users) "User") _ eq_refl) as Hr.
  destruct (rebuild _ _) as [ci [[]|e]]; [|done]. by apply Hr.
Qed.

Lemma leader_catalogued : catalogued leader.
Proof.
  split.
  - rewrite leader_catalog. repeat constructor.
  - by intros c schema [-> ->]%leader_schema.
  - intros c schema [-> ->]%leader_schema. exists user_index.
    change (in_indexes leader) with ({["User" := user_index]} : gmap string CollectionIndexes).
    apply lookup_singleton_eq.
Qed.

Lemma scan_check (rm : list (string * list (N * list Version))) c (P : Rec → bool) :
  rm_wf rm → forallb P (rm_scan rm c) = true →
  ∀ id r, rm_get rm c id = Some r → P r = true ∧ rec_id r = id.
Proof.
  intros Hwf Hall id r Hr. pose proof (get_placed _ _ _ _ Hwf Hr) as [_ Hid].
  split; [|done]. rewrite forallb_forall in Hall. apply Hall. apply list_elem_of_In.
  destruct (scan_facts rm c Hwf) as [_ Hin]. apply Hin. by rewrite Hid.
Qed.

(** Checks of every user, by evaluation. *)
Lemma leader_records (P : Rec → bool) :
  forallb P (rm_scan (records_of leader) "User") = true →
  ∀ id r, rm_get (records_of leader) "User" id = Some r → P r = true ∧ rec_id r = id.
Proof. apply scan_check, leader_ok. Qed.

Lemma leader_keyed : keyed leader.
Proof.
  intros c schema id r [-> ->]%leader_schema Hr fallback.
  destruct (leader_records (λ r, bool_decide (record_id_for user_schema (rec_fields r) 0 = Ok (rec_id r)))
    ltac:(by vm_compute) id r Hr) as [Hk <-].
  apply bool_decide_eq_true in Hk. rewrite <- Hk.
  unfold record_id_for. simpl. by destruct (bt_get "id" (rec_fields r)).
Qed.

Lemma collection_of_leader c id r :
  rm_get (records_of leader) c id = Some r → c = "User".
Proof.
  assert (Hk : bt_keys (records_of leader) = ["User"]) by by vm_compute.
  revert Hk. generalize (records_of leader). intros rm Hk Hr.
  unfold rm_get, chain_of in Hr. destruct (bt_get c rm) as [m|] eqn:E; [|done].
  apply bt_get_elem_of in E. assert (Hin : c ∈ bt_keys rm).
  { apply list_elem_of_fmap. by exists (c, m). }
  rewrite Hk in Hin. by apply list_elem_of_singleton in Hin.
Qed.

Lemma leader_portable : portable leader.
Proof.
  split; [exact leader_ok|exact leader_indexed|exact leader_catalogued|exact leader_keyed| |].
  - apply Forall_forall. intros schema [_ ->]%(list_schemas_get _ _ leader_catalogued)%leader_schema. by vm_compute.
  - intros c id r Hr. pose proof (collection_of_leader _ _ _ Hr) as ->.
    exact (proj1 (leader_records (λ r, document_safe (rec_fields r)) ltac:(by vm_compute) id r Hr)).
Qed.
End leader.

Lemma snapshot_transfer_witness :
  ∃ m m' schemas records j',
    snapshot_create (λ _, None) (leader : Eng) 40 3 "0.9.0" 0 = Ok m ∧
    snapshot_decode (snapshot_encode m) = Ok m' ∧ decode_state m' = Ok (schemas, records) ∧
    engine_install_snapshot schemas records 40 empty_engine = (j', Ok tt) ∧
    rec_fields <$> rm_get (records_of j') "User" (id_of "u1") = Some (user "u1" "a@x").
Proof.
  destruct (snapshot_transfer (λ _, None) (leader : Eng) empty_engine 40 3 "0.9.0" 0 40)
    as (m & m' & ss & rs & j' & Hm & Hd & Hs & _ & Hi & _ & Hall).
  - apply leader_portable.
  - apply leader_portable.
  - apply leader_portable.
  - apply leader_portable.
  - apply leader_portable.
  - intros c id r. apply leader_portable.
  - split; [apply rm_wf_nil|done].
  - intros c id. reflexivity.
  - constructor.
  - reflexivity.
  - exists m, m', ss, rs, j'. split; [exact Hm|]. split; [exact Hd|]. split; [exact Hs|].
    split; [exact Hi|]. destruct (Hall "User" user_schema) as [_ Hf]; [by vm_compute|].
    rewrite Hf. by vm_compute.
Defined.

(** ** What a snapshot does not keep *)

(** A restore writes the records in the order of the collection names and checks their
    references as it goes: a database in which a collection refers to one with a later
    name is captured, and cannot be restored. *)
Definition order_schema : CollectionSchema :=
  mkSchema "Order" [mkField "id" FUuid true true false false] [mkRel "by" "User" ToOne Restrict] [].
Definition order1 : Document := [("by", VText "u1"); ("id", VText "o1")].

Definition shop : Eng :=
  (apply_mutation (MInsert "Order" order1) (create_schema order_schema users).1).1.

Definition restored (records : list (string * Document)) : Result Fault unit :=
  ((_ <~ install_schemas (list_schemas shop) ;; upsert_all records) empty_engine).2.

Example restore_refuses_forward_reference :
  rm_count (records_of shop) "Order" = 1%nat ∧
  match capture (λ _, None) shop (list_schemas shop) with
  | Ok records => length records = 3%nat ∧ restored records = Err (Failed ESchemaViolation)
  | Err _ => False
  end.
Proof. by vm_compute. Qed.

(** An install only writes what the snapshot has: a record that the leader deleted before
    the snapshot stays on a follower that had it. *)
Definition follower : Eng := users.
Definition pruned : Eng := (apply_mutation (MDelete "User" (Some (FCompare "id" CmpEq (VText "u2")))) users).1.

Example install_keeps_deleted_record :
  match capture (λ _, None) pruned (list_schemas pruned) with
  | Ok records =>
      let r := engine_install_snapshot (list_schemas pruned) records 40 follower in
      r.2 = Ok tt ∧ rm_count (records_of pruned) "User" = 1%nat ∧
      rm_count (records_of r.1) "User" = 2%nat
  | Err _ => False
  end.
Proof. by vm_compute. Qed.
