(* ===== verification/CatchUpSample.v ===== *)
(** * A follower catches up

    The promise of [PeerSpec] on the users of [EngineSample]: the leader ships its
    snapshot to a follower that has nothing, which installs it.  A last run shows what a
    compacted log does to a follower with another history. *)

From S2P Require Import Ann Prelude Sorting BTree Text Framing Value Core Rank Eval Chars Index Vector TextSearch.
From S2P Require Import Analyzer AnalyzedSearch Snippet Query Planner Cursor Exec ExecSpec SearchPage Aggregate QueryTools Mvcc.
From S2P Require Import Storage StorageRecovery StorageSample Txn Engine EngineSpec EngineIndex EngineRead.
From S2P Require Import RaftLog RaftNode RaftFile Cluster Transport Replication ReplicationSpec Snapshot SnapshotSpec Peer PeerSpec.
From S2P Require Import EngineSample QuerySample ReadSample SnapshotSample.

Import JsonSample.
Import RaftSample.
Local Open Scope N_scope.

(** ** A codec that knows the snapshot *)

Definition shipped_data : list CollectionSchema * list (string * Document) :=
  ([user_schema], [("User", [("email", VText "a@x"); ("id", VText "u1")]);
                   ("User", [("email", VText "b@x"); ("id", VText "u2")])]).

Definition shipped_meta : SnapshotMeta :=
  mkSnapMeta 1 (Some "00000000000000000000000000000005") (Some "0000000000000001") 40 3 2 1 2 1 "0.9.0" 0.

#[export] Instance shipped_codec : ManifestCodec := {|
  enc_data d := coded_enc [shipped_data] (sd_schemas d, sd_records d);
  dec_data l := (λ p, mkSnapData p.1 p.2) <$> coded_dec [shipped_data] l;
  enc_snapshot m := coded_enc [(meta_tuple shipped_meta, [x00])] (meta_tuple (sn_meta m), sn_payload m);
  dec_snapshot l :=
    (λ '((v, c, n, i, t), (s, cs, rs, d, ver, at_), p),
       mkSnapManifest (mkSnapMeta v c n i t s cs rs d ver at_) p) <$>
    coded_dec [(meta_tuple shipped_meta, [x00])] l;
  snapshot_crc := sample_crc;
|}.

#[export] Instance shipped_codec_laws : ManifestCodecLaws.
Proof.
  split.
  - intros [ss rs] _. cbn [enc_data dec_data shipped_codec sd_schemas sd_records].
    by rewrite coded_dec_enc by (simpl; lia).
  - intros [t p]. cbn [enc_snapshot dec_snapshot shipped_codec sn_meta sn_payload].
    rewrite coded_dec_enc by (simpl; lia). by destruct t.
Qed.

(** ** The two processes *)

Definition config_of (peer : string) : ClusterConfig :=
  mkClusterConfig true true false [] [] DEFAULT_CLUSTER_ADDR DEFAULT_CLUSTER_ADDR None true
    [mkPeerConfig (bytes_of peer) (bytes_of "127.0.0.1:7272") None] [] (mkClusterTls false None None None).

Definition process (i peer : NodeId) (name : string) (engine : Inner (Res N)) (raft : RaftNode FileStorage) : Shared :=
  mkShared raft engine (mkIdentity (mkNodeMeta 1 i "0.9.0") (mkClusterMeta 1 5 "0.9.0")) (config_of name) 0
    commit_state_default {[peer := mkLink [] true 1]} ∅ counters_default (mkSendState ∅ ∅) ∅.

Definition raft_of (i peer : NodeId) : RaftNode FileStorage :=
  node_new (mkConfig i [peer] ELECTION_MIN_TICKS ELECTION_MAX_TICKS HEARTBEAT_TICKS) empty_storage.

Definition ahead : Shared := process 1 2 "2" leader (raft_of 1 2).
Definition lagging : Shared := process 2 1 "1" (mkInner (in_storage empty_engine) ∅ 1 [] 0 60 0 1 ∅ None) (raft_of 2 1).

Definition boundary : SnapshotPlan := mkPlan 40 3 [2].
Definition after_send : Shared := send_snapshots (λ _, None) "0.9.0" 0 1000 boundary ahead.
Definition request : PeerMessage := PmInstallSnapshotRequest 1 0 40 3 [x00].

Lemma lagging_waiting : waiting ahead lagging 40.
Proof.
  split; [done|done|done|by split; [apply rm_wf_nil|]|by intros c id|constructor|done|].
  split; [split; [by split|by split_and!]|done].
Qed.


(** ** Restoring the leader's snapshot *)

Definition leader_snapshot : Result ReplicationError SnapshotManifest :=
  snapshot_create (λ _, None) (leader : Eng) 40 3 "0.9.0" 0.
Definition leader_manifest : SnapshotManifest :=
  match leader_snapshot with Ok m => m | Err _ => mkSnapManifest shipped_meta [] end.

(** A target with a stray file in it, and a rename that fails or not. *)
Definition stray_target : RestoreFs := mkRestoreFs (Some (mkHostDir empty_dir {["notes.txt"]})) None.
Definition renames (ok : bool) : RestoreIo := mkRestoreIo true None None None true ok.
Definition forced : RestoreOptions := mkRestoreOptions true None false.

Definition segment_size (r : Result RepFault Eng) : N :=
  match r with
  | Ok j => N.of_nat (length (segment_file (st_dir (in_storage j)) (manifest_active (st_manifest (in_storage j)))))
  | Err _ => 0
  end.

Lemma leader_build_roomy d j :
  materialize_into (L := unit) (with_identity leader_manifest (Some "5") (Some "1")) None 0 = (d, Ok j) → roomy (in_storage j).
Proof.
  assert (Hs : (segment_size (materialize_into (L := unit) (with_identity leader_manifest (Some "5") (Some "1")) None 0).2 <=? u64_max) = true)
    by by vm_compute.
  intros Hb. rewrite Hb in Hs. by apply N.leb_le in Hs.
Qed.

Lemma leader_captured : snapshot_create (λ _, None) (leader : Eng) 40 3 "0.9.0" 0 = Ok leader_manifest.
Proof.
  assert (Hok : res_is_ok leader_snapshot = true) by by vm_compute.
  unfold leader_manifest. fold leader_snapshot. by destruct leader_snapshot.
Qed.


(** Whether the restore succeeded, and which of the two directories are there. *)
Definition outcome (p : RestoreFs * Result RepFault Eng) : bool * bool * bool :=
  (res_is_ok p.2, bool_decide (is_Some (rf_target p.1)), bool_decide (is_Some (rf_staging p.1))).

Example failed_rename_removes_target :
  outcome (restore_to leader_manifest forced (renames false) 0 stray_target) = (false, false, true).
Proof. by vm_compute. Qed.

Example restore_succeeds :
  outcome (restore_to leader_manifest forced (renames true) 0 stray_target) = (true, true, false).
Proof. by vm_compute. Qed.

(** ** A compacted leader and a follower with another history

    The leader compacted its first two entries, of term 2; the follower has two entries of
    term 1 there that were never committed.  The leader backs off to index 1, where the
    check of the previous entry is (0, term 0) and passes, and sends what it still has from
    index 3 on: the follower appends it behind its own two entries and commits them. *)

Definition node_with (i : NodeId) (peers : list NodeId) (s : FileStorage) : RaftNode FileStorage :=
  node_new (mkConfig i peers ELECTION_MIN_TICKS ELECTION_MAX_TICKS HEARTBEAT_TICKS) s.
Definition stored (entries : list LogEntry) (h : HardState) : FileStorage :=
  (fs_save_hard_state h (fs_append entries empty_storage).1).1.

Definition compacted_leader : RaftNode FileStorage :=
  let s := stored [sample_entry 2 1; sample_entry 2 2; sample_entry 2 3] (mkHard 2 None 3) in
  (step 3 (RequestVoteResp 3 true) (campaign (node_with 1 [2; 3] (compact 2 3 s).1))).1.
Definition stale_follower : RaftNode FileStorage :=
  node_with 2 [1; 3] (stored [sample_entry 1 1; sample_entry 1 2] (mkHard 1 None 0)).

(** One append to node 2 and its answer. *)
Definition last_to (peer : NodeId) (n : RaftNode FileStorage) : option Message :=
  env_message <$> last (base.filter (λ e, env_to e = peer) (outbox n)).
Definition exchange (p : RaftNode FileStorage * RaftNode FileStorage) : RaftNode FileStorage * RaftNode FileStorage :=
  let l := send_append_to 2 p.1 in
  match last_to 2 l with
  | Some m =>
      let f := (step 1 m p.2).1 in
      (default l ((λ r, (step 2 r l).1) <$> last_to 1 f), f)
  | None => p
  end.

Example compacted_leader_commits_stale :
  let '(l, f) := Nat.iter 4 exchange (compacted_leader, stale_follower) in
  role l = Leader ∧ commit_index l = 4 ∧ fs_base_index (storage l) = 2 ∧ fs_base_term (storage l) = 2 ∧
  commit_index f = 3 ∧ e_term <$> entry_at (storage f) 1 = Some 1 ∧ e_term <$> entry_at (storage f) 2 = Some 1.
Proof. by vm_compute. Qed.
