(* ===== verification/PeerSample.v ===== *)
(** * Two peer processes

    A run of two nodes: one is elected, writes a record, and answers once the other has
    the entry; the promises of [PeerSafety] on it.  Then a run in which a write is answered
    out of order and a committed record is missing on the leader. *)

From S2P Require Import Ann Prelude Sorting BTree Text Framing Value Core Rank Eval Chars Index Vector TextSearch Analyzer AnalyzedSearch Snippet Query Planner Cursor Exec SearchPage Aggregate QueryTools Mvcc Storage StorageRecovery StorageSpec StorageSample Txn Engine EngineSpec EngineRead.
From S2P Require Import RaftLog RaftNode Voting RaftElection Consensus ConsensusSafety RaftSafety RaftKeep RaftFile SoleVoter Cluster Transport Replication ReplicationSpec Snapshot Peer PeerNet PeerSafety.
From S2P Require Import EngineSample QuerySample ReadSample SnapshotSample ReplicationSample.

Import JsonSample.
Local Open Scope N_scope.

(** ** The nodes *)

Definition pair_config (boot : bool) (peer : string) : ClusterConfig :=
  mkClusterConfig true true false [] [] DEFAULT_CLUSTER_ADDR DEFAULT_CLUSTER_ADDR None boot
    [mkPeerConfig (bytes_of peer) (bytes_of "127.0.0.1:7272") None] [] (mkClusterTls false None None None).

Definition pair_identity (i : NodeId) : ClusterIdentity :=
  mkIdentity (mkNodeMeta 1 i "0.9.0") (mkClusterMeta 1 5 "0.9.0").

Definition pair_peers (i : NodeId) : list NodeId := if i =? 1 then [2] else [1].

(** Not started yet, over the database of one record. *)
Definition unstarted (i : NodeId) (boot : bool) (peer : string) : Proc :=
  mkProc
    (mkShared
       (node_new (mkConfig i (pair_peers i) ELECTION_MIN_TICKS ELECTION_MAX_TICKS HEARTBEAT_TICKS) empty_log)
       (mkInner db1 ∅ 1 [] 0 60 0 1 ∅ None) (pair_identity i) (pair_config boot peer) 0
       commit_state_default ∅ ∅ counters_default (mkSendState ∅ ∅) ∅)
    [] None false None.

Definition pair0 : PNet :=
  mkPNet (<[1 := unstarted 1 true "2"]> (<[2 := unstarted 2 false "1"]> ∅)) [].

Lemma pair0_fresh : fresh_pnet [1; 2] pair_peers (live_view db1) pair0.
Proof.
  assert (Hf : ∀ i boot peer, parse_peers (cc_peers (pair_config boot peer)) = Ok (pair_peers i) →
    fresh_proc pair_peers (live_view db1) i (unstarted i boot peer)).
  { intros i boot peer Hp. split; [done|by split|done|done|].
    exists 0. apply inv_persisted, db1_inv. }
  split_and!; [done| |].
  - intros i p. simpl. rewrite lookup_insert_Some. intros [[<- <-]|[_ Hp]].
    + split; [set_solver|]. apply Hf. by vm_compute.
    + apply lookup_insert_Some in Hp as [[<- <-]|[_ Hp]]; [|done]. split; [set_solver|]. apply Hf. by vm_compute.
  - intros i Hi. unfold pair_peers. by destruct (i =? 1).
Qed.

(** ** A run *)

Definition up : Act := ARestart (λ _, None) ∅ 0 60 1.
Definition task : Act := ATask (λ _, None) "0.9.0" 0 0.
Definition noop_entry : LogEntry := mkEntry 1 1 command_noop.
Definition logged (idx : N) (b : Batch) : LogEntry :=
  mkEntry 1 idx (match encode (CmdWrite b) with Ok c => c | Err _ => command_noop end).

(** A drive and the [k] sections that follow it. *)
Definition driven_by (i : NodeId) (ev : DriveEvent) (k : nat) : list (NodeId * Act) :=
  (i, ADrive ev) :: List.repeat (i, task) k.

(** Node 1 is elected and its first entry committed. *)
Definition election : list (NodeId * Act) :=
  [(1, up); (2, up)] ++
  driven_by 1 DeTick 3 ++
  driven_by 2 (DeInbound 1 (RequestVote 1 0 0)) 3 ++
  driven_by 1 (DeInbound 2 (RequestVoteResp 1 true)) 3 ++
  driven_by 2 (DeInbound 1 (AppendEntries 1 0 0 [noop_entry] 0)) 3 ++
  driven_by 1 (DeInbound 2 (AppendEntriesResp 1 true 1)) 4.

Definition after (sched : list (NodeId * Act)) (net : PNet) : PNet := default net (run_orderly sched net).

(** A write is proposed, reaches node 2, and its commit is published. *)
Definition writing : list (NodeId * Act) :=
  election ++ [(1, AWrite write_batch)] ++
  driven_by 1 DeTick 3 ++
  driven_by 2 (DeInbound 1 (AppendEntries 1 1 1 [logged 2 write_batch] 1)) 4 ++
  driven_by 1 (DeInbound 2 (AppendEntriesResp 1 true 2)) 2.

(** After the answer the heartbeat tells node 2, which applies the write. *)
Definition following : list (NodeId * Act) :=
  List.repeat (1, task) 2 ++
  driven_by 1 DeTick 3 ++ driven_by 1 DeTick 3 ++
  driven_by 2 (DeInbound 1 (AppendEntries 1 2 1 [] 2)) 4.

Definition ran (sched : list (NodeId * Act)) (net : PNet) : PNet := default net (run_orderly sched net).
Definition proc_of (net : PNet) (i : NodeId) : Proc := default (unstarted i false "") (pn_procs net !! i).

Lemma ran_orderly sched net :
  bool_decide (is_Some (run_orderly sched net)) = true → rtc orderly_step net (ran sched net).
Proof.
  intros Hb%bool_decide_eq_true. apply run_orderly_sound with sched. unfold ran.
  by destruct Hb as [n ->].
Qed.

Lemma proc_ran net i : bool_decide (is_Some (pn_procs net !! i)) = true → pn_procs net !! i = Some (proc_of net i).
Proof. intros [p Hp]%bool_decide_eq_true. unfold proc_of. by rewrite Hp. Qed.

(** Published and not answered; answered; applied by both. *)
Definition asked : PNet := ran writing pair0.
Definition answered : Proc * list Envelope :=
  default (proc_of asked 1, []) (exec_act (pn_soup asked) 1 (AFinish false) (proc_of asked 1)).
Definition settled : PNet := ran following (pnet_after asked 1 answered).

Lemma answered_ran :
  bool_decide (is_Some (exec_act (pn_soup asked) 1 (AFinish false) (proc_of asked 1))) = true →
  exec_act (pn_soup asked) 1 (AFinish false) (proc_of asked 1) = Some answered.
Proof. intros [r Hr]%bool_decide_eq_true. unfold answered. by rewrite Hr. Qed.

Lemma replicas_agree_witness :
  ∃ cmds1 cmds2, replica (live_view db1) (proc_of asked 1) cmds1 ∧
    replica (live_view db1) (proc_of settled 2) cmds2 ∧
    (cmds1 `prefix_of` cmds2 ∨ cmds2 `prefix_of` cmds1) ∧
    rm_get (st_records (store_of (proc_of settled 2))) "c" 5 = Some (row 5 50).
Proof.
  destruct (replicas_agree [1; 2] pair_peers (live_view db1) pair0 asked settled 1 2 (proc_of asked 1) (proc_of settled 2))
    as (cmds1 & cmds2 & Hr1 & Hr2 & Hp).
  - exact pair0_fresh.
  - apply ran_orderly. by vm_compute.
  - eapply rtc_l; [|apply ran_orderly; by vm_compute].
    apply (os_act asked 1 (proc_of asked 1) (AFinish false)).
    + apply proc_ran. by vm_compute.
    + apply answered_ran. by vm_compute.
    + by vm_compute.
    + split; apply N.leb_le; by vm_compute.
  - apply proc_ran. by vm_compute.
  - apply proc_ran. by vm_compute.
  - exists cmds1, cmds2. split; [exact Hr1|]. split; [exact Hr2|]. split; [exact Hp|by vm_compute].
Defined.

Lemma acknowledged_writes_replicated_witness :
  pr_writer (proc_of asked 1) = Some (write_batch, 2, 1) ∧
  ∃ e, entry_at (storage (raft_of (proc_of settled 2))) 2 = Some e ∧ decode (e_command e) = Ok (CmdWrite write_batch).
Proof.
  split; [by vm_compute|].
  destruct (acknowledged_writes_replicated [1; 2] pair_peers (live_view db1) pair0 asked settled 1 2
    (proc_of asked 1) (proc_of settled 2) write_batch 2 1 false 3 answered) as [He _].
  - exact pair0_fresh.
  - apply ran_orderly. by vm_compute.
  - apply proc_ran. by vm_compute.
  - by vm_compute.
  - by vm_compute.
  - apply answered_ran. by vm_compute.
  - split; apply N.leb_le; by vm_compute.
  - by vm_compute.
  - apply ran_orderly. by vm_compute.
  - apply proc_ran. by vm_compute.
  - apply He. left. apply N.leb_le. by vm_compute.
Defined.

(** ** Out of order *)

(** The first write times out after its proposal; the second is answered while the driver
    has yet to apply the first, which then comes too late for the store of node 1. *)
Definition overtaking : list (NodeId * Act) :=
  election ++ [(1, AWrite write_batch); (1, AFinish true); (1, AWrite lost_batch)] ++
  driven_by 1 DeTick 3 ++
  driven_by 2 (DeInbound 1 (AppendEntries 1 1 1 [logged 2 write_batch; logged 3 lost_batch] 1)) 4 ++
  driven_by 1 (DeInbound 2 (AppendEntriesResp 1 true 3)) 2 ++ [(1, AFinish false)] ++ List.repeat (1, task) 3 ++
  driven_by 1 DeTick 3 ++ driven_by 1 DeTick 3 ++
  driven_by 2 (DeInbound 1 (AppendEntries 1 3 1 [] 3)) 5.

Definition record_on (net : option PNet) (i : NodeId) (id : N) : option N :=
  net ← net; p ← pn_procs net !! i; rec_id <$> rm_get (st_records (store_of p)) "c" id.

Definition applied_on (net : option PNet) (i : NodeId) : option (N * nat) :=
  net ← net; p ← pn_procs net !! i; Some (last_applied (raft_of p), length (pr_tasks p)).

(** Both nodes have committed and applied three entries; record 5 is only on node 2. *)
Example overtaken_write_missing :
  let net := run_acts overtaking pair0 in
  applied_on net 1 = Some (3, 0%nat) ∧ applied_on net 2 = Some (3, 0%nat) ∧
  record_on net 1 5 = None ∧ record_on net 2 5 = Some 5 ∧
  record_on net 1 6 = Some 6 ∧ record_on net 2 6 = Some 6.
Proof. by vm_compute. Qed.

(** Three nodes.  Node 1 has proposed a write at index 2 when node 2 is elected and commits
    its own entry there; the first that node 1 hears of it is that index 2 is committed. *)
Definition trio_peers (i : NodeId) : list NodeId := if i =? 1 then [2; 3] else if i =? 2 then [1; 3] else [1; 2].

Definition trio_proc (i : NodeId) (boot : bool) (p q : string) : Proc :=
  mkProc
    (mkShared
       (node_new (mkConfig i (trio_peers i) ELECTION_MIN_TICKS ELECTION_MAX_TICKS HEARTBEAT_TICKS) empty_log)
       (mkInner db1 ∅ 1 [] 0 60 0 1 ∅ None) (pair_identity i)
       (mkClusterConfig true true false [] [] DEFAULT_CLUSTER_ADDR DEFAULT_CLUSTER_ADDR None boot
          [mkPeerConfig (bytes_of p) (bytes_of "127.0.0.1:7272") None;
           mkPeerConfig (bytes_of q) (bytes_of "127.0.0.1:7372") None] [] (mkClusterTls false None None None)) 0
       commit_state_default ∅ ∅ counters_default (mkSendState ∅ ∅) ∅)
    [] None false None.

Definition trio0 : PNet :=
  mkPNet (<[1 := trio_proc 1 true "2" "3"]> (<[2 := trio_proc 2 true "1" "3"]>
    (<[3 := trio_proc 3 false "1" "2"]> ∅))) [].

Definition noop_of (t idx : N) : LogEntry := mkEntry t idx command_noop.

Definition replacing : list (NodeId * Act) :=
  [(1, up); (2, up); (3, up)] ++
  driven_by 1 DeTick 3 ++
  driven_by 3 (DeInbound 1 (RequestVote 1 0 0)) 3 ++
  driven_by 1 (DeInbound 3 (RequestVoteResp 1 true)) 3 ++
  driven_by 2 (DeInbound 1 (AppendEntries 1 0 0 [noop_of 1 1] 0)) 3 ++
  driven_by 3 (DeInbound 1 (AppendEntries 1 0 0 [noop_of 1 1] 0)) 3 ++
  driven_by 1 (DeInbound 3 (AppendEntriesResp 1 true 1)) 4 ++
  [(1, AWrite write_batch); (2, up)] ++
  driven_by 2 DeTick 3 ++
  driven_by 3 (DeInbound 2 (RequestVote 2 1 1)) 3 ++
  driven_by 2 (DeInbound 3 (RequestVoteResp 2 true)) 3 ++
  driven_by 3 (DeInbound 2 (AppendEntries 2 1 1 [noop_of 2 2] 0)) 3 ++
  driven_by 2 (DeInbound 3 (AppendEntriesResp 2 true 2)) 5 ++
  driven_by 2 DeTick 3 ++ driven_by 2 DeTick 3 ++ driven_by 2 DeTick 3 ++
  driven_by 1 (DeInbound 2 (AppendEntries 2 1 1 [noop_of 2 2] 2)) 2.

Definition answer_on (net : option PNet) (i : NodeId) : option (Res N) :=
  net ← net; p ← pn_procs net !! i; '(b, target, t) ← pr_writer p;
  replicate_poll (sh_base (pr_shared p)) target t false (sh_commit_state (pr_shared p)).

(** The write is acknowledged and kept on node 1, although another entry was committed at
    its index. *)
Example replaced_write_acknowledged :
  let net := run_acts replacing trio0 in
  answer_on net 1 = Some (Ok 3) ∧
  record_on (run_acts (replacing ++ [(1, AFinish false)]) trio0) 1 5 = Some 5 ∧
  (net ≫= λ net, pn_procs net !! 1 ≫= λ p, entry_at (storage (raft_of p)) 2) = Some (noop_of 2 2) ∧
  (net ≫= λ net, commit_index ∘ raft_of <$> pn_procs net !! 1) = Some 2.
Proof. by vm_compute. Qed.
