(* ===== verification/ServerSample.v ===== *)
(** * The server on concrete requests

    Concrete instances of what the server is parameterised by, the promises of
    [ServerSpec], [ServerTrace] and [Connection] on concrete runs, and the runs in which the
    server does not do what it means to. *)

From S2P Require Import Ann Prelude BTree Text Framing Value Core Eval Chars Index Vector TextSearch Analyzer.
From S2P Require Import AnalyzedSearch Snippet Query Planner Cursor Exec SearchPage Aggregate QueryTools Metrics Protocol.
From S2P Require Import RaftLog RaftNode RaftFile Cluster Config Message Mvcc Storage StorageSample Txn Engine EngineSpec.
From S2P Require Import EngineIndex EngineRead EngineSample QuerySample ReadSample Replication Transport Peer Runtime.
From S2P Require Import Snapshot Limits Server ServerSpec ServerTrace Connection.

Import JsonSample.
Local Open Scope N_scope.

(** ** Instances *)

#[local] Existing Instance RaftSample.sample_codec.

Definition phc (token : string) : string := "$argon2id$" ++ token.

#[export] Instance sample_argon2 : Argon2 := {|
  phc_algorithm h := if String.prefix "$argon2id$" h then Some "argon2id"%string else None;
  argon2_hash token _ := Some (phc token);
  argon2_verify h candidate := if bool_decide (h = phc candidate) then VMatch else VMismatch;
|}.

#[export] Instance sample_argon2_laws : Argon2Laws.
Proof.
  split; intros token salt hash [= <-].
  - destruct token; by vm_compute.
  - unfold argon2_verify, sample_argon2. by rewrite bool_decide_eq_true_2.
Qed.

(** Payloads by a tag byte. *)
#[export] Instance sample_messages : MessageJson := {|
  hello_of_json p := match p with [x00] => Some (mkHelloRequest "client" 3 None) | _ => None end;
  auth_of_json p :=
    match p with
    | [x00] => Some (mkAuthRequest "guess")
    | [x01] => Some (mkAuthRequest "secret")
    | _ => None
    end;
  schema_of_json _ := None;
  name_of_json _ := None;
  read_of_json p :=
    match p with
    | [x00] => Some (RFind (find_new "User"))
    | [x01] => Some (RFind (mkFind "User" None None None None None [] None (Some 9%nat) None [] None None))
    | _ => None
    end;
  mutation_of_json p :=
    match p with
    | [x00] => Some (MInsert "User" (user "u3" "c@x"))
    | [x01] => Some (MDelete "User" None)
    | [x02] => Some (MBulkInsert "User" [user "u4" "d@x"; user "u5" "e@x"; []])
    | _ => None
    end;
  fetch_of_json _ := Some (mkFetch 1 1);
  close_of_json _ := Some (mkClose 1);
  explain_of_json _ :=
    Some (true, Some (mkFind "User" None None None None None [] None (Some 9%nat) None [] None None));
  reply_json _ := [];
|}.

Definition config_with (bind : string) (auth : AuthConfig) (limits : LimitsConfig) : Config :=
  mkConfig (bytes_of bind) 7171 [] 4096 "info" false 300 1 true true false tls_default auth mvcc_default
    cluster_config_default limits.

(** A limit of five rows, and of one staged write. *)
Definition small_limits : LimitsConfig := mkLimits 5 8 8 8 1 1000.

Definition local_cfg : Config := config_with "127.0.0.1" auth_default small_limits.
Definition public_cfg : Config :=
  config_with "0.0.0.0" (mkAuth true StaticToken (Some (phc "secret")) Argon2id) small_limits.

Definition env0 : RequestEnv unit := mkEnv no_stats None 0 0 "1.5.0" (λ sv, sv).
Definition server0 : Server unit := mkServer users registry_new metrics_new 1.
Definition request (op : Opcode) (txn : N) (payload : list byte) : Frame := frame_new op 7 txn payload.

(** ** Authentication *)

Definition guess : Frame := request OpAuth 0 [x00].
Definition write : Frame := request OpMutate 0 [x00].
Definition stranger0 := (server0, session_new 1).
Definition stranger1 := (respond public_cfg env0 guess stranger0).1.
Definition stranger2 := (respond public_cfg env0 write stranger1).1.

Lemma exposed_server_requires_token_witness :
  sess_authenticated stranger2.2 = false ∧ (respond public_cfg env0 write stranger1).2 =
    Some (error_frame env0 EUnauthenticated write).
Proof.
  assert (Hs : served public_cfg
    [mkLogged env0 guess stranger0.1 stranger1.1 (respond public_cfg env0 guess stranger0).2;
     mkLogged env0 write stranger1.1 stranger2.1 (respond public_cfg env0 write stranger1).2]
    stranger0 stranger2)
    by exact (served_step public_cfg _ env0 guess stranger0 stranger2
         (served_step public_cfg [] env0 write stranger1 stranger2 (served_nil public_cfg stranger2))).
  destruct (exposed_server_requires_token public_cfg (λ _, false) _ server0 1 stranger2
    ltac:(by vm_compute) ltac:(by vm_compute) eq_refl Hs) as (Ha & _ & _ & Hr).
  - repeat constructor; by vm_compute.
  - split; [exact Ha|]. apply Forall_cons in Hr as [_ Hr]. apply Forall_cons in Hr as [Hr _].
    destruct Hr as (_ & _ & reply & Hreply & Hg). pose proof (Hg eq_refl) as Hg'.
    cbn [lg_env lg_frame] in Hg'. rewrite <- Hg'. exact Hreply.
Defined.

(** With the token, gated requests go through. *)
Definition friend1 := (respond public_cfg env0 (request OpAuth 0 [x01]) stranger0).1.

Example token_opens :
  sess_authenticated friend1.2 = true ∧
  fr_opcode <$> (respond public_cfg env0 (request OpTxnBegin 0 []) friend1).2 = Some OpOk.
Proof. by vm_compute. Qed.

(** ** Write sets *)

Definition txn_id0 : N := in_clock users.
Definition begin_frame : Frame := request OpTxnBegin 0 [].
Definition stage_one : Frame := request OpMutate txn_id0 [x00].
Definition client0 := (server0, session_new 1).
Definition client1 := (respond local_cfg env0 begin_frame client0).1.
Definition client2 := (respond local_cfg env0 stage_one client1).1.

Lemma write_set_within_limit_witness :
  ∃ t, sess_transactions client2.2 !! txn_id0 = Some t ∧ (length (tx_staged t) ≤ 1)%nat.
Proof.
  assert (Hs : served local_cfg
    [mkLogged env0 begin_frame client0.1 client1.1 (respond local_cfg env0 begin_frame client0).2;
     mkLogged env0 stage_one client1.1 client2.1 (respond local_cfg env0 stage_one client1).2]
    client0 client2)
    by exact (served_step local_cfg _ env0 begin_frame client0 client2
         (served_step local_cfg [] env0 stage_one client1 client2 (served_nil local_cfg client2))).
  assert (Ht : bool_decide (is_Some (sess_transactions client2.2 !! txn_id0)) = true) by (by vm_compute).
  apply bool_decide_eq_true in Ht as [t Ht]. exists t. split; [exact Ht|].
  refine (proj2 (write_set_within_limit local_cfg _ server0 1 client2 Hs _ txn_id0 t Ht)).
  repeat constructor.
  - intros Ho. discriminate Ho.
  - intros _ _ m [= <-]. exact I.
Defined.

(** The number of records a client has staged, and what the server counted. *)
Definition staged_by (st : Server unit * Session) : option (nat * nat) :=
  t ← sess_transactions st.2 !! txn_id0;
  Some (length (tx_staged t), default 0%nat (sess_staged_writes st.2 !! txn_id0)).

(** A delete counts as one write, however many records it stages: the limit of one staged
    write is passed with two. *)
Example deletes_pass_the_limit :
  let '(st, reply) := respond local_cfg env0 (request OpMutate txn_id0 [x01]) client1 in
  fr_opcode <$> reply = Some OpOk ∧ staged_by st = Some (2%nat, 1%nat).
Proof. by vm_compute. Qed.

(** A bulk insert that fails on its last record has staged the others, and counts for
    nothing. *)
Example failed_bulk_uncounted :
  let cfg := config_with "127.0.0.1" auth_default (mkLimits 5 8 8 8 3 1000) in
  let '(st, reply) := respond cfg env0 (request OpMutate txn_id0 [x02]) client1 in
  fr_opcode <$> reply = Some OpError ∧ staged_by st = Some (2%nat, 0%nat).
Proof. by vm_compute. Qed.

(** The counter of a transaction that does not exist is created and stays. *)
Example unknown_transaction_remembered :
  let '(st, reply) := respond local_cfg env0 (request OpMutate 99 [x00]) client0 in
  fr_opcode <$> reply = Some OpError ∧ sess_staged_writes st.2 !! 99 = Some 0%nat.
Proof. by vm_compute. Qed.

(** ** Replies *)

Lemma requests_answered_witness :
  let '(st, reply) := respond local_cfg env0 begin_frame client0 in
  fr_opcode <$> reply = Some OpOk ∧ counts st = (1, 0).
Proof.
  destruct (respond local_cfg env0 begin_frame client0) as [st [reply|]] eqn:E.
  - assert (Ho : fr_opcode <$> (respond local_cfg env0 begin_frame client0).2 = Some OpOk) by (by vm_compute).
    rewrite E in Ho. split; [exact Ho|]. simpl in Ho. injection Ho as Ho.
    destruct (requests_answered local_cfg env0 begin_frame client0 st reply (λ _ _, eq_refl) E) as (_ & _ & Hc).
    rewrite Hc, Ho. by vm_compute.
  - assert (Ho : bool_decide (is_Some (respond local_cfg env0 begin_frame client0).2) = true) by (by vm_compute).
    rewrite E in Ho. by apply bool_decide_eq_true in Ho as [? ?].
Defined.

(** ** Isolation *)

(** Connection 2 has begun a transaction; connection 1 writes. *)
Definition other_txn : Transaction := begin_at txn_id0 (st_last_commit_ts (in_storage users)).
Definition two_clients : Server unit * Session :=
  (set_engine (begin_with_connection (Some 2) users).1 server0, session_new 1).

Lemma clients_isolated_witness :
  active (sv_engine (respond local_cfg env0 write two_clients).1.1) txn_id0 (tx_read_ts other_txn) ∧
  overlay_scan (sv_engine (respond local_cfg env0 write two_clients).1.1) other_txn "User" =
    overlay_scan (sv_engine two_clients.1) other_txn "User".
Proof.
  destruct (clients_isolated local_cfg env0 write two_clients (respond local_cfg env0 write two_clients).1
    (respond local_cfg env0 write two_clients).2 other_txn) as (Ha & _ & Hs).
  - exact (step_ok (λ _, False) _ _ users_ok (es_begin _ (Some 2) users)).
  - eexists. split; [apply bt_get_insert_eq|done].
  - intros k t' Ht. discriminate Ht.
  - by vm_compute.
  - done.
  - intros sv. apply harbours_refl.
  - apply surjective_pairing.
  - split; [exact Ha|apply Hs].
Defined.

(** ** Connections *)

#[local] Instance connection_crc : Crc32 := sample_crc.

Definition around (written : bool) : nat → Around unit := λ _, mkAround env0 (λ sv, sv) written.
Definition one_begin : list byte := Protocol.encode_frame begin_frame.

Lemma connection_gives_back_witness :
  ∃ st' sent, handle_connection local_cfg (around true) one_begin server0 = (st', sent, Some PeerClosed) ∧
    ∀ id e, bt_get id (in_txns (sv_engine st'.1)) = Some e → te_connection_id e ≠ Some 1.
Proof.
  destruct (connection_gives_back local_cfg (around true) one_begin server0) as (st & sent & o & Hs & Hr).
  - exact (eo_txns _ users_ok).
  - intros id e He. assert (Hn : in_txns users = []) by (by vm_compute).
    change (in_txns (sv_engine server0)) with (in_txns users) in He. rewrite Hn in He. discriminate He.
  - intros n sv. split; apply quiet_refl.
  - assert (Ho : (serve local_cfg (S (length one_begin)) (around true) 0 one_begin (accept server0)).2
      = Some PeerClosed) by (by vm_compute).
    rewrite Hs in Ho. injection Ho as ->.
    destruct (Hr (or_introl eq_refl)) as (st' & Hh & He & _). exists st', sent. exact (conj Hh He).
Defined.

(** If the reply cannot be written, the loop is left without the cleanup: the transaction
    stays registered in the name of a connection that is gone, and the connection is
    still counted. *)
Example lost_reply_leaks_transaction :
  let '(st, _, o) := handle_connection local_cfg (around false) one_begin server0 in
  o = Some WriteFailed ∧ te_connection_id <$> bt_values (in_txns (sv_engine st.1)) = [Some 1] ∧
  mx_value (sv_metrics st.1) M_active_connections = 1.
Proof. by vm_compute. Qed.

(** ** Cursors, gauges and plans *)

(** A cursor is found by its number alone: another connection fetches the rows, the cursor
    is closed at their end, and its owner is told that there is none. *)
Example foreign_cursor :
  let '(st1, r1) := respond local_cfg env0 (request OpQuery 0 [x00]) client0 in
  let '(st2, r2) := respond local_cfg env0 (request OpCursorFetch 0 []) (st1.1, session_new 2) in
  let '(_, r3) := respond local_cfg env0 (request OpCursorFetch 0 []) (st2.1, st1.2) in
  (fr_opcode <$> r1, sess_cursor_ids st1.2) = (Some OpQueryResult, {[1]}) ∧
  fr_opcode <$> r2 = Some OpQueryResult ∧ fr_opcode <$> r3 = Some OpError.
Proof. by vm_compute. Qed.

(** The gauge of open transactions is set to those of one session: it reads 0 after a
    connection without transactions leaves, with a transaction of another one open. *)
Example gauge_of_one_session :
  let '(st, _) := respond local_cfg env0 begin_frame client0 in
  let st' := cleanup (st.1, session_new 2) in
  mx_value (sv_metrics st.1) M_active_transactions = 1 ∧
  mx_value (sv_metrics st'.1) M_active_transactions = 0 ∧
  es_active_transactions (engine_stats (sv_engine st'.1)) = 1%nat.
Proof. by vm_compute. Qed.

(** The counter of timed-out transactions goes down: a request on a timed-out transaction
    counts it again, and the next pass of the reaper sets the counter back. *)
Example timeout_counter_decreases :
  let late := set_engine (set_now 1000 (sv_engine client1.1)) client1.1 in
  let sv1 := txn_reaper_tick late in
  let '((sv2, _), reply) := respond local_cfg env0 (request OpTxnCommit txn_id0 []) (sv1, client1.2) in
  fr_opcode <$> reply = Some OpError ∧
  ((λ sv, mx_value (sv_metrics sv) M_mvcc_transaction_timeouts_total) <$> [sv1; sv2; txn_reaper_tick sv2])
    = [1; 2; 1].
Proof. by vm_compute. Qed.

(** A query with an offset above the limit is refused; [EXPLAIN ANALYZE] runs it. *)
Example explain_passes_the_limits :
  fr_opcode <$> (respond local_cfg env0 (request OpQuery 0 [x01]) client0).2 = Some OpError ∧
  fr_opcode <$> (respond local_cfg env0 (request OpExplain 0 []) client0).2 = Some OpOk.
Proof. by vm_compute. Qed.
